(* ===== verification/_CoqProject ===== *)
-Q . S2P
Prelude.v
Bytes.v
Lo.v
SafeMath.v
Serializable.v
Serializer.v
Deserializer.v
SerializerFields.v
SerializerObjects.v
SerializerChains.v
Stream.v
Ring.v
ShrinkingMap.v
RandomMap.v
OrderedMap.v
OrderedSet.v
Event.v
ReactiveVariable.v
Reactive.v
ReactiveSet.v
SortedSet.v
EvictionState.v
WaitGroup.v
Walker.v
BytesFilter.v
BitMask.v
Stack.v
SerixTypes.v
SerixEncode.v
SerixDecode.v
SerixRoundtrip.v
SerixRegistry.v
Serix.v
SerixTyping.v
SerixJSON.v
SerixJSONRoundtrip.v
SerixJSONAPI.v
SerializableOrderedMap.v
LinkedList.v
Queue.v
StarvingMutex.v
DAGMutex.v
WorkerPool.v
PoolGroup.v
GroupRegistry.v
GroupShutdown.v
MergedContext.v
Promise.v
ValueNotifier.v
Backoff.v
EventTicker.v
Daemon.v
App.v
SubscriptionManager.v
WebsocketHub.v
Heap.v
PriorityQueue.v
TimeHeap.v
OnChangeMap.v
Logger.v
TimedQueue.v
TimedPriorityQueue.v
TimedExecutor.v
KVStore.v
MapDB.v
BatchedWriter.v
FlushKV.v
DebugKV.v
HealthTracker.v
Sequence.v
TypedValue.v
ADS.v
