(* ===== verification/Prelude.v ===== *)
(** * A verification development for hive.go

    hive.go is a library of data structures, serialization, storage and
    synchronization used by IOTA nodes.  It has no main program: its parts are
    packages that call each other.  [ds] holds data structures, [serializer] the
    byte formats of a protocol (with [serializer/serix] deriving them from Go
    types), [ds/reactive] values that tell their subscribers about changes,
    [kvstore] an interface of key-value stores with implementations and clients,
    [runtime] events, promises, synchronization, timed queues and worker pools,
    [core/safemath] checked arithmetic, [core/eventticker] repeated requests,
    [app] the stages and the background workers of an application, [log] its
    loggers, [ads] maps that are authenticated by a Merkle tree, [web] the topics of
    clients and a hub of websockets, [lo] functions on slices and maps.  This development models
    these packages at the level of the Go code and proves what their clients rely
    on.

    ** How Go is modelled

    - A call returns or panics: [outcome] (this file).  An error value is an
      [error], nil is [None]; [Is] is [ierrors.Is]; messages keep their format
      string.
    - Integers are [Z] with the wrap-around of their type written out: [ity],
      [wrap], [in_range].  Where a counter or a length of [int] cannot leave its
      range, the wrap-around is left out.
    - Slices are lists with checked access: [index], [store], [slice_to].
      Slices whose nil-ness the code looks at are options.
    - Maps are [gmap].  Go leaves the order of a [range] over a map open: where
      the order can be seen it is an argument (RandomMap.v, ShrinkingMap.v), and
      where a definition fixes one the lemmas hold for every order.
    - Pointers that are compared or shared live on an explicit heap
      (OrderedMap.v, LinkedList.v, OnChangeMap.v); closures that keep state are data
      (Serializable.v).
    - Loops that are not structural take fuel, and the theorems give enough of
      it: the number of elements of the list or map for traversals, the number
      of elements plus one for sifting in the heap, for popping and for moving in
      the sorted set, one round per slot and one more for an eviction, the number
      of elements that can be reached for a walk, the depth of the type for
      encoding and decoding with serix, 20 digits for a decimal number of 64 bits,
      the number of retries plus one for [Retry], one round per index and one more
      for the eviction of tickers, the number of groups for the shutdown of a group, the number of loggers
      for the level of a logger.
      In Event.v the fuel bounds the nesting of callbacks, which need not end: a run
      that uses it up is [Interrupted] with what has happened until then.
    - A method that holds a mutex from beginning to end is one function on the
      state.  Where the interleaving of goroutines matters it is modelled: the
      starving mutex, the DAG mutex, the batch writer, reactive variables, wait
      groups, promises, notifiers, merged contexts, the timed queue and its executor, the worker
      pool, the counters and the shutdown of groups of pools, the daemon and the hub of websockets
      are transition systems with any number of goroutines, whose
      steps are critical sections, channel operations and atomic accesses, and
      TypedValue.v has one step per critical section.  Theorems about them hold
      in all reachable states.
    - Reflection: serix reads types and values with [reflect].  Types are the
      inductive type [rtype] and values [value] (SerixTypes.v); methods of types
      and validators are parameters.

    ** Files

    - Prelude.v: outcomes, errors, machine integers, slices, list lemmas,
      tactics and the hint database.  Bytes.v: bytes, little and big endian
      numbers, [bytes.Compare], [strings.HasPrefix], sorting of byte strings.
      Lo.v: [lo]; loops against the functions they compute, in any order of a map.
    - SafeMath.v: [core/safemath].  Exactness of every checked operation at
      every width, and the two places where an overflow is missed.
    - Serializable.v, Serializer.v, Deserializer.v: [serializer].  Modes, array
      rules and element validators; all write methods; all read methods.
      Serializable.v shows what the composed validator accepts.
      SerializerFields.v: chains of fields round trip, reading untrusted bytes
      never panics, what becomes of lengths outside of their bounds, what happens
      to times.  SerializerObjects.v: arrays of byte slices and of objects, whose
      methods are a type class, are written as their rules say and read back.
      SerializerChains.v: chains of any methods stop at the first error.
    - Stream.v: [serializer/stream].  Basic values, byte slices, objects and
      nested collections round trip through a [ByteBuffer] and its reader;
      writing at any position; peeking at a count.
    - SerixTypes.v, SerixEncode.v, SerixDecode.v: [serializer/serix].  Types and
      values, struct tags, settings, registries; encoding and decoding of every
      kind of type.  SerixRegistry.v: registered objects are found by their code
      and their type.  SerixRoundtrip.v and Serix.v: what is encoded is decoded to
      the same value, the order of a Go map does not show in its encoding, and the
      values that the code cannot treat.  SerixTyping.v: whatever the bytes are,
      what is decoded has the type that was asked for.  SerixJSON.v: the maps for
      JSON ([map_encode.go], [map_decode.go], [numbers.go]); the ordered map, the
      hex numbers and the text of floats come from libraries and are the record
      [libraries] with the laws [libraries_lawful].  SerixJSONRoundtrip.v and
      SerixJSONAPI.v: what is encoded to such a map and sent as JSON is decoded to
      the same value, and the values for which the two sides do not agree.
    - Ring.v: doubly linked rings over any pointers, shared by OrderedMap.v and
      LinkedList.v.
    - ShrinkingMap.v ([ds/shrinkingmap], with float32 thresholds),
      RandomMap.v ([ds/randommap]), OrderedMap.v ([ds/orderedmap]),
      LinkedList.v ([ds/list_impl.go]), OrderedSet.v ([ds/set_impl.go], over the
      ordered map), SerializableOrderedMap.v ([ds/serializableorderedmap]),
      Walker.v ([ds/walker]), BytesFilter.v ([ds/bytesfilter]), BitMask.v
      ([ds/bitmask]), Stack.v ([ds/stack]), Queue.v ([ds/queue] and
      [ds/ringbuffer]), Heap.v and PriorityQueue.v ([ds/generalheap],
      [ds/priorityqueue], and [container/heap] of the standard library), TimeHeap.v
      ([ds/timeheap], whose plain heap is shown to do what that of Heap.v does),
      OnChangeMap.v ([ds/onchangemap], with shared items and callbacks): each
      has its state, one definition per method, a representation invariant that
      every method keeps, and theorems that runs of calls answer as the abstract
      structure (a map, an association list, a sequence, a bounded FIFO, a
      multiset ordered by priority) does.
    - ReactiveVariable.v: [ds/reactive/variable_impl.go], [utils.go] and
      [event_impl.go].  Every callback sees the changes of a variable once and in
      order.  Reactive.v: the class [Observable] states what a variable promises
      to a callback that watches it; derived variables, [WithValue] and counters
      are proved against it, and variables and pairs of them are instances.
      ReactiveSet.v, SortedSet.v, EvictionState.v, WaitGroup.v: the other files of
      [ds/reactive]; a derived set is the union of its sources, a sorted set is
      sorted by the current weights, eviction events are triggered by eviction, a
      wait group is not triggered early.
    - SubscriptionManager.v: [web/subscriptionmanager].  The events that were
      triggered tell who is connected and subscribed, and which topics exist.
      WebsocketHub.v: [web/websockethub].  Each client connects and disconnects once
      and its channels are closed once, messages keep their order, and the hub ends
      when its context is done.
    - Event.v: [runtime/event].  Events and hooks, whose callbacks may operate on
      the events while they are run: limits of triggers hold, an event is linked to
      one event at most, a trigger reaches every hook in order.
    - Daemon.v: [app/daemon].  Workers are stopped in the order of their shutdown
      orders, each after those of higher orders have finished.  App.v: [app/app.go]
      and [component.go]; the stages of an application come in their order, and a
      disabled component takes no part in them.
    - Logger.v: [log].  The tree of loggers; levels are inherited, and what is set up
      for a level is there as long as the level is active.
    - WorkerPool.v: [runtime/workerpool], with the queue of
      [runtime/syncutils/stack.go].  No task is lost or run twice.  PoolGroup.v:
      [runtime/syncutils/counter.go] and the counters of
      [runtime/workerpool/group.go]; a group counts its children that have something
      pending, and no call blocks another for good.  GroupRegistry.v: the names and
      the recursive shutdown of that file.  GroupShutdown.v: [Shutdown] over both, which
      waits for the tasks below the group and then stops everything below it.
    - StarvingMutex.v: [runtime/syncutils/starvingmutex.go].  Mutual exclusion
      and that no wake-up is lost, by an invariant of all reachable states.
      DAGMutex.v: [runtime/syncutils/dagmutex.go] on top of it; a mutex per entity,
      which exists as long as someone holds it.
    - TimedQueue.v: [runtime/timed/queue.go] over the heap of Heap.v.  Each element
      is returned once, not before its time, or dropped for a reason; a queue that
      is not empty can be polled.  TimedExecutor.v: [executor.go] and
      [taskexecutor.go], whose workers poll the queue; a shutdown runs what was
      scheduled before.  TimedPriorityQueue.v: [priority_queue.go] over
      PriorityQueue.v.
    - Promise.v: [runtime/promise]; a callback is called once, with the argument of
      the one trigger.  ValueNotifier.v: [runtime/valuenotifier]; a listener is told
      of the notifications of its value, and no channel is closed twice.
      MergedContext.v: [runtime/contextutils/merged_context.go]; a merged context is
      done once, for a reason, and leaves no goroutine behind.  Backoff.v:
      [runtime/backoff]; retrying ends.
    - EventTicker.v: [core/memstorage] and [core/eventticker].  The tickers, their
      number and what is scheduled for them agree.
    - KVStore.v: the interface [kvstore.KVStore] as the class [KVStore] with the
      laws [KVStoreLaws]; [Copy], [CopyBatched] and [KeyPrefixUpperBound] are
      proved against it.  MapDB.v: [kvstore/mapdb] implements the interface, for
      every realm over a shared map; runs through several realms answer as one
      map, and realms that are apart do not see each other.  FlushKV.v:
      [kvstore/flushkv], a wrapper that keeps the laws of the interface and
      flushes.  DebugKV.v: [kvstore/debug], a wrapper that reports the calls it was
      asked to report and changes nothing.  HealthTracker.v, Sequence.v and TypedValue.v:
      [kvstore/health_tracker.go], [sequence.go], [typedstore.go] and
      [typedvalue.go], proved against the interface and hence over every store
      with its laws: the tracker is two flags and a version, a sequence hands
      out increasing numbers also after restarts, a typed store is a map, a
      typed value and its cache agree with the store.  BatchedWriter.v:
      [kvstore/batch_writer.go] and [batch_collector.go]; what is enqueued is
      written to the store in order, and stopping writes all of it.
    - ADS.v: [ads].  Over a store with realms and a sparse Merkle tree, which is a
      class with laws, an authenticated map answers as a map, also when it is opened
      again after a commit.

    ** Not modelled

    Deadlock detection, printing and stack traces; [threadSafeList] and
    [threadSafeStack], which only take a mutex around each method; the clock and
    [LogUpdates] of [ds/reactive]; RocksDB, SQL, cryptography, the handlers of
    loggers, configuration and code generation, which are bindings and glue around
    code that is not in the repository; the linking of groups of events by
    reflection; the copies of a function or type for other numbers of parameters
    ([event.Event2] to [Event9], derived variables of three and more inputs). *)

From stdpp Require Export base tactics numbers list gmap sets strings sorting.
From Stdlib Require Export ZArith Lia.

#[global] Open Scope Z_scope.
#[global] Set Default Goal Selector "!".

(** ** Outcomes of Go code

    A Go function either returns or panics; [outcome] is the result of running
    one.  It is a monad in the sense of stdpp, so code is written with
    [x ← m; k]. *)

Inductive outcome (A : Type) : Type :=
  | Ret (a : A)
  | Panic (msg : string).
Arguments Ret {A} _.
Arguments Panic {A} _.

#[global] Instance outcome_ret : MRet outcome := λ A a, Ret a.
#[global] Instance outcome_bind : MBind outcome := λ A B f m,
  match m with Ret a => f a | Panic s => Panic s end.
#[global] Instance outcome_fmap : FMap outcome := λ A B f m,
  match m with Ret a => Ret (f a) | Panic s => Panic s end.

(** The outcome is a normal return. *)
Definition returns {A} (m : outcome A) : Prop := ∃ a, m = Ret a.

Definition is_ret {A} (m : outcome A) : bool :=
  match m with Ret _ => true | Panic _ => false end.

Lemma returns_is_ret {A} (m : outcome A) : returns m ↔ is_ret m = true.
Proof.
  split.
  - by intros [a ->].
  - destruct m as [a|]; [by exists a | done].
Qed.

Lemma outcome_bind_Ret {A B} (f : A → outcome B) (m : outcome A) (b : B) :
  (m ≫= f) = Ret b ↔ ∃ a, m = Ret a ∧ f a = Ret b.
Proof.
  destruct m as [a|s]; simpl; split; naive_solver.
Qed.

Lemma outcome_bind_assoc {A B C} (m : outcome A) (f : A → outcome B) (g : B → outcome C) :
  (m ≫= f) ≫= g = m ≫= (λ a, f a ≫= g).
Proof. by destruct m. Qed.

(** ** Errors

    An [error] value of Go that is not nil.  [ErrNew] is a sentinel made by
    [ierrors.New] (or [Errorf] without [%w]); [ErrWrap] is what [ierrors.Wrap],
    [Wrapf], [WithMessage] and [WithMessagef] build: an error that unwraps to
    the inner one; [ErrJoin] is [ierrors.Join] of two.  Messages keep the format string and leave out its
    arguments.  A Go variable of type [error] is an [option error], nil being
    [None]. *)

Inductive error : Type :=
  | ErrNew (text : string)
  | ErrWrap (inner : error) (message : string)
  | ErrJoin (e1 e2 : error).

#[global] Instance error_eq_dec : EqDecision error.
Proof. solve_decision. Defined.

(** [ierrors.Is] (Go's [errors.Is]): the target occurs in the tree of wrapped errors. *)
Fixpoint Is (err target : error) : bool :=
  bool_decide (err = target) ||
  match err with
  | ErrNew _ => false
  | ErrWrap inner _ => Is inner target
  | ErrJoin e1 e2 => Is e1 target || Is e2 target
  end.

Lemma Is_refl e : Is e e = true.
Proof. destruct e; simpl; by rewrite bool_decide_eq_true_2. Qed.

Lemma Is_wrap e t m : Is e t = true → Is (ErrWrap e m) t = true.
Proof. simpl. intros ->. apply orb_true_r. Qed.

(** ** Machine integers

    The integer types of Go, as integers [Z] kept in range by an explicit
    wrap-around. *)

Inductive ity : Type := U8 | U16 | U32 | U64 | I8 | I16 | I32 | I64.

Definition ity_bits (T : ity) : Z :=
  match T with U8 | I8 => 8 | U16 | I16 => 16 | U32 | I32 => 32 | U64 | I64 => 64 end.

Definition ity_signed (T : ity) : bool :=
  match T with I8 | I16 | I32 | I64 => true | _ => false end.

Definition ity_min (T : ity) : Z :=
  if ity_signed T then - 2 ^ (ity_bits T - 1) else 0.

Definition ity_max (T : ity) : Z :=
  if ity_signed T then 2 ^ (ity_bits T - 1) - 1 else 2 ^ ity_bits T - 1.

Definition in_range (T : ity) (z : Z) : Prop := ity_min T ≤ z ≤ ity_max T.

#[global] Instance in_range_dec T z : Decision (in_range T z).
Proof. unfold in_range. apply _. Defined.

(** Two's complement truncation to the type. *)
Definition wrap (T : ity) (z : Z) : Z :=
  if ity_signed T
  then (z + 2 ^ (ity_bits T - 1)) mod 2 ^ ity_bits T - 2 ^ (ity_bits T - 1)
  else z mod 2 ^ ity_bits T.

(** Evaluate the bounds of concrete integer types everywhere. *)
Ltac ity_consts :=
  cbv [in_range ity_min ity_max ity_signed ity_bits] in *; simpl in *.

Ltac ity_consts_in H :=
  cbv [in_range ity_min ity_max ity_signed ity_bits] in H; simpl in H.

Lemma ity_bits_pos T : 8 ≤ ity_bits T.
Proof. destruct T; simpl; lia. Qed.

Lemma pow2_half w : 1 ≤ w → 2 ^ w = 2 * 2 ^ (w - 1).
Proof. intros. rewrite <-Z.pow_succ_r by lia. f_equal. lia. Qed.

Lemma wrap_in_range T z : in_range T (wrap T z).
Proof.
  pose proof (ity_bits_pos T).
  assert (0 < 2 ^ (ity_bits T - 1)) by (apply Z.pow_pos_nonneg; lia).
  pose proof (pow2_half (ity_bits T) ltac:(lia)).
  unfold in_range, wrap, ity_min, ity_max.
  destruct (ity_signed T);
    [pose proof (Z.mod_pos_bound (z + 2 ^ (ity_bits T - 1)) (2 ^ ity_bits T) ltac:(lia))
    |pose proof (Z.mod_pos_bound z (2 ^ ity_bits T) ltac:(lia))]; lia.
Qed.

Lemma wrap_id T z : in_range T z → wrap T z = z.
Proof.
  pose proof (ity_bits_pos T).
  assert (0 < 2 ^ (ity_bits T - 1)) by (apply Z.pow_pos_nonneg; lia).
  pose proof (pow2_half (ity_bits T) ltac:(lia)).
  unfold in_range, wrap, ity_min, ity_max.
  destruct (ity_signed T); intros; rewrite Z.mod_small; lia.
Qed.

(** Wrapping moves a value by a multiple of [2 ^ bits]. *)
Lemma wrap_shift T z : ∃ k, wrap T z = z + k * 2 ^ ity_bits T.
Proof.
  pose proof (ity_bits_pos T).
  assert (0 < 2 ^ ity_bits T) by (apply Z.pow_pos_nonneg; lia).
  unfold wrap. destruct (ity_signed T).
  - exists (- ((z + 2 ^ (ity_bits T - 1)) / 2 ^ ity_bits T)).
    rewrite Z.mod_eq by lia. lia.
  - exists (- (z / 2 ^ ity_bits T)). rewrite Z.mod_eq by lia. lia.
Qed.

(** Wrapping is a congruence: an inner wrap-around does not show. *)
Lemma wrap_add T x y : wrap T (wrap T x + y) = wrap T (x + y).
Proof.
  destruct (wrap_shift T x) as [k ->]. unfold wrap. pose proof (ity_bits_pos T).
  assert (0 < 2 ^ ity_bits T) by (apply Z.pow_pos_nonneg; lia).
  destruct (ity_signed T).
  - replace (x + k * 2 ^ ity_bits T + y + 2 ^ (ity_bits T - 1))
      with (x + y + 2 ^ (ity_bits T - 1) + k * 2 ^ ity_bits T) by lia.
    by rewrite Z.mod_add by lia.
  - replace (x + k * 2 ^ ity_bits T + y) with (x + y + k * 2 ^ ity_bits T) by lia.
    by rewrite Z.mod_add by lia.
Qed.

Lemma wrap_succ_ne T z : wrap T (z + 1) ≠ wrap T z.
Proof.
  pose proof (ity_bits_pos T) as Hb. pose proof (Z.pow_le_mono_r 2 8 (ity_bits T) ltac:(lia) Hb).
  destruct (wrap_shift T (z + 1)) as [k ->], (wrap_shift T z) as [k' ->].
  intros E. assert ((k' - k) * 2 ^ ity_bits T = 1) as E1 by lia.
  destruct (Z.eq_mul_1_nonneg (2 ^ ity_bits T) (k' - k)) as [E2 _]; lia.
Qed.

Lemma ity_span T : ity_max T - ity_min T + 1 = 2 ^ ity_bits T.
Proof. destruct T; reflexivity. Qed.

Lemma ity_min_0 T : ity_min T ≤ 0 < ity_max T.
Proof. destruct T; cbv; split; congruence. Qed.

Create HintDb hive.
#[export] Hint Resolve Is_refl Is_wrap wrap_in_range : hive.

(** ** Lists *)

Lemma lookup_snoc_Some {A} (l : list A) x i y :
  (l ++ [x]) !! i = Some y ↔ l !! i = Some y ∨ (i = length l ∧ y = x).
Proof.
  rewrite lookup_app_Some, list_lookup_singleton_Some. split.
  - intros [?|[? [? ->]]]; [by left | right; split; [lia|done]].
  - intros [?|[-> ->]]; [by left | right; split; [lia | split; [lia|done]]].
Qed.

Lemma lookup_insert_case {X} (l : list X) i j x y :
  <[i:=x]> l !! j = Some y → (i = j ∧ y = x) ∨ (i ≠ j ∧ l !! j = Some y).
Proof. intros H. apply list_lookup_insert_Some in H as [(-> & -> & _)|[? ?]]; [by left|by right]. Qed.

(** The sum of a function over a list. *)
Fixpoint zsum {A} (f : A → Z) (l : list A) : Z :=
  match l with [] => 0 | a :: l => f a + zsum f l end.

Lemma zsum_app {A} (f : A → Z) l l' : zsum f (l ++ l') = zsum f l + zsum f l'.
Proof. induction l as [|a l IH]; cbn; [lia|]. rewrite IH. lia. Qed.

Lemma zsum_insert {A} (f : A → Z) l i a b : l !! i = Some a → zsum f (<[i:=b]> l) = zsum f l - f a + f b.
Proof. revert i. induction l as [|c l IH]; intros [|i] Hi; simplify_eq/=; [lia|]. rewrite (IH i Hi). lia. Qed.

Lemma zsum_delete {A} (f : A → Z) l i a : l !! i = Some a → zsum f (delete i l) = zsum f l - f a.
Proof.
  revert i. induction l as [|c l IH]; intros [|i] Hi; simplify_eq/=; [lia|].
  change (delete (S i) (c :: l)) with (c :: delete i l). cbn. rewrite (IH i Hi). lia.
Qed.

Lemma zsum_pos {A} (f : A → Z) l : (∀ a, 0 ≤ f a) → 1 ≤ zsum f l ↔ ∃ a, a ∈ l ∧ 1 ≤ f a.
Proof.
  intros Hf. induction l as [|c l IH]; cbn; [split; [lia|intros (a & Ha & _); by apply elem_of_nil in Ha]|].
  assert (0 ≤ zsum f l) by (clear IH; induction l as [|x l IHl]; cbn; [lia|]; pose proof (Hf x); lia).
  pose proof (Hf c). split.
  - intros Hs. destruct (decide (1 ≤ f c)) as [?|?]; [exists c; split; [apply elem_of_cons; by left|done]|].
    destruct (proj1 IH) as (a & Ha & ?); [lia|]. exists a. split; [apply elem_of_cons; by right|done].
  - intros (a & [->|Ha]%elem_of_cons & ?); [lia|]. assert (1 ≤ zsum f l) by (apply IH; by exists a). lia.
Qed.

(** Replacing an entry of a list that is filtered. *)
Lemma omap_insert_perm {A B} (f : A → option B) l i a a' :
  l !! i = Some a → option_list (f a) ++ omap f (<[i:=a']> l) ≡ₚ option_list (f a') ++ omap f l.
Proof.
  revert i. induction l as [|c l IH]; intros [|i] Hi; simplify_eq/=.
  - destruct (f a), (f a'); cbn; done || apply perm_swap.
  - specialize (IH i Hi). destruct (f c); cbn; [|done]. rewrite <-!Permutation_middle. by rewrite IH.
Qed.

(** ** Slices

    Go slices are lists; their lengths and indices are [int]s, integers here. *)

Definition len {A} (l : list A) : Z := Z.of_nat (length l).

(** [l[i]], which panics out of range. *)
Definition index {A} (l : list A) (i : Z) : outcome A :=
  if i <? 0 then Panic "index out of range"
  else match l !! Z.to_nat i with Some x => Ret x | None => Panic "index out of range" end.

(** [l[i] = x] *)
Definition store {A} (l : list A) (i : Z) (x : A) : outcome (list A) :=
  if (0 <=? i) && (i <? len l) then Ret (<[Z.to_nat i:=x]> l) else Panic "index out of range".

(** [l[:n]], with the capacity taken to be the length. *)
Definition slice_to {A} (l : list A) (n : Z) : outcome (list A) :=
  if (0 <=? n) && (n <=? len l) then Ret (take (Z.to_nat n) l) else Panic "slice bounds out of range".

Lemma len_app {A} (a b : list A) : len (a ++ b) = len a + len b.
Proof. unfold len. rewrite length_app. lia. Qed.

Lemma len_nonneg {A} (a : list A) : 0 ≤ len a.
Proof. unfold len. lia. Qed.

Lemma index_nat {A} (l : list A) (i : nat) x : l !! i = Some x → index l (Z.of_nat i) = Ret x.
Proof. intros H. unfold index. rewrite (proj2 (Z.ltb_ge _ 0)) by lia. by rewrite Nat2Z.id, H. Qed.

Lemma store_nat {A} (l : list A) (i : nat) x :
  (i < length l)%nat → store l (Z.of_nat i) x = Ret (<[i:=x]> l).
Proof.
  intros H. unfold store, len. rewrite (proj2 (Z.leb_le 0 _)), (proj2 (Z.ltb_lt _ _)) by lia.
  by rewrite Nat2Z.id.
Qed.

Lemma slice_to_nat {A} (l : list A) (n : nat) :
  (n ≤ length l)%nat → slice_to l (Z.of_nat n) = Ret (take n l).
Proof.
  intros H. unfold slice_to, len. rewrite !(proj2 (Z.leb_le _ _)) by lia. by rewrite Nat2Z.id.
Qed.

(** Under a transitive relation, order is a matter of neighbours. *)
Lemma StronglySorted_cons2 {A} (R : relation A) `{!Transitive R} x y l :
  StronglySorted R (x :: y :: l) ↔ R x y ∧ StronglySorted R (y :: l).
Proof.
  rewrite !StronglySorted_cons, !Forall_cons. split; [tauto|].
  intros (Hxy & Hy & Hl). split_and!; try done.
  eapply Forall_impl; [exact Hy|]. intros z Hz. by transitivity y.
Qed.

Lemma StronglySorted_lt_NoDup {A} (R : relation A) `{!Irreflexive R} l :
  StronglySorted R l → NoDup l.
Proof.
  induction 1 as [|x l Hl IH Hx]; constructor; [|done].
  intros Hin. rewrite Forall_forall in Hx. by apply (irreflexivity R x), Hx.
Qed.

(** Tactics used throughout the development. *)

(** Split every conjunction of the goal and of the context. *)
Ltac split_all := repeat match goal with |- _ ∧ _ => split end; destruct_and?.

(** Case analysis on the boolean integer comparisons of the goal and context. *)
Ltac zcases :=
  repeat match goal with
  | |- context [Z.ltb ?a ?b] => destruct (Z.ltb_spec a b)
  | |- context [Z.leb ?a ?b] => destruct (Z.leb_spec a b)
  | |- context [Z.eqb ?a ?b] => destruct (Z.eqb_spec a b)
  | H : context [Z.ltb ?a ?b] |- _ => destruct (Z.ltb_spec a b)
  | H : context [Z.leb ?a ?b] |- _ => destruct (Z.leb_spec a b)
  | H : context [Z.eqb ?a ?b] |- _ => destruct (Z.eqb_spec a b)
  end; simpl in *; try lia.
