(* ===== verification/Bytes.v ===== *)
(** * Bytes, encodings and lexicographic order

    Byte slices as lists of [Byte.byte] and what the code uses of Go's
    [encoding/binary] (fixed-width little and big endian numbers), [bytes]
    ([Compare]), [strings] ([HasPrefix]) and [sort] on byte strings, with the
    lemmas the components share. *)

From Stdlib Require Export Strings.Byte.
From S2P Require Import Prelude.

#[global] Instance byte_eq_decision : EqDecision byte := Byte.byte_eq_dec.

#[global] Program Instance byte_countable : Countable byte :=
  inj_countable Byte.to_N Byte.of_N _.
Next Obligation. intros b. apply Byte.of_to_N. Qed.

(** ** A byte as a number *)

Definition b2z (b : byte) : Z := Z.of_N (Byte.to_N b).

(** [byte(z)]: truncation to eight bits. *)
Definition z2b (z : Z) : byte :=
  match Byte.of_N (Z.to_N (z mod 256)) with Some b => b | None => x00 end.

Lemma b2z_range b : 0 ≤ b2z b < 256.
Proof. unfold b2z. pose proof (Byte.to_N_bounded b). lia. Qed.

Lemma z2b_b2z b : z2b (b2z b) = b.
Proof.
  unfold z2b. rewrite Z.mod_small by apply b2z_range.
  unfold b2z. rewrite N2Z.id, Byte.of_to_N. done.
Qed.

Lemma b2z_z2b z : b2z (z2b z) = z mod 256.
Proof.
  unfold z2b, b2z. pose proof (Z.mod_pos_bound z 256 ltac:(lia)).
  destruct (Byte.of_N (Z.to_N (z mod 256))) as [b|] eqn:E.
  - apply Byte.to_of_N in E. rewrite E. lia.
  - apply Byte.of_N_None_iff in E. lia.
Qed.

#[global] Instance b2z_inj : Inj (=) (=) b2z.
Proof. intros a b H. rewrite <-(z2b_b2z a), <-(z2b_b2z b). by rewrite H. Qed.

(** ** Fixed-width numbers *)

(** [binary.LittleEndian.PutUint..]: the low [n] bytes of [z], least significant first. *)
Fixpoint le_bytes (n : nat) (z : Z) : list byte :=
  match n with
  | O => []
  | S n => z2b z :: le_bytes n (z / 256)
  end.

(** [binary.LittleEndian.Uint..] of a slice. *)
Fixpoint le_num (bs : list byte) : Z :=
  match bs with
  | [] => 0
  | b :: bs => b2z b + 256 * le_num bs
  end.

(** [binary.BigEndian.PutUint..] and [binary.BigEndian.Uint..]. *)
Definition be_bytes (n : nat) (z : Z) : list byte := rev (le_bytes n z).
Definition be_num (bs : list byte) : Z := le_num (rev bs).

Lemma length_le_bytes n z : length (le_bytes n z) = n.
Proof. revert z. induction n as [|n IH]; intros z; simpl; [done|by rewrite IH]. Qed.

Lemma length_be_bytes n z : length (be_bytes n z) = n.
Proof. unfold be_bytes. by rewrite length_rev, length_le_bytes. Qed.

Lemma pow256_succ n : 2 ^ (8 * Z.of_nat (S n)) = 256 * 2 ^ (8 * Z.of_nat n).
Proof.
  replace (8 * Z.of_nat (S n)) with (8 + 8 * Z.of_nat n) by lia.
  rewrite Z.pow_add_r by lia. done.
Qed.

Lemma le_num_le_bytes n z : le_num (le_bytes n z) = z mod 2 ^ (8 * Z.of_nat n).
Proof.
  revert z. induction n as [|n IH]; intros z.
  - simpl. by rewrite Z.mod_1_r.
  - cbn [le_bytes le_num]. rewrite IH, b2z_z2b, pow256_succ.
    rewrite Z.rem_mul_r; [done|lia|]. apply Z.pow_pos_nonneg; lia.
Qed.

Lemma le_num_range bs : 0 ≤ le_num bs < 2 ^ (8 * Z.of_nat (length bs)).
Proof.
  induction bs as [|b bs IH]; [simpl; lia|].
  cbn [le_num length]. rewrite pow256_succ. pose proof (b2z_range b). lia.
Qed.

Lemma le_bytes_le_num bs : le_bytes (length bs) (le_num bs) = bs.
Proof.
  induction bs as [|b bs IH]; [done|]. cbn [le_bytes le_num length].
  pose proof (b2z_range b). f_equal.
  - apply (inj b2z). rewrite b2z_z2b.
    rewrite (Z.mul_comm 256), Z.mod_add, Z.mod_small; lia.
  - rewrite (Z.mul_comm 256), Z.div_add, Z.div_small, Z.add_0_l by lia. done.
Qed.

Lemma le_num_app a b : le_num (a ++ b) = le_num a + 2 ^ (8 * Z.of_nat (length a)) * le_num b.
Proof.
  induction a as [|x a IH]; [simpl; lia|].
  cbn [app le_num length]. rewrite IH, pow256_succ. lia.
Qed.

Lemma le_num_zeros n : le_num (replicate n x00) = 0.
Proof. induction n as [|n IH]; simpl; [done|rewrite IH; done]. Qed.

Lemma be_num_be_bytes n z : be_num (be_bytes n z) = z mod 2 ^ (8 * Z.of_nat n).
Proof. unfold be_num, be_bytes. by rewrite rev_involutive, le_num_le_bytes. Qed.

(** A number that fits survives the round trip. *)
Lemma le_roundtrip n z : 0 ≤ z < 2 ^ (8 * Z.of_nat n) → le_num (le_bytes n z) = z.
Proof. intros. rewrite le_num_le_bytes. by apply Z.mod_small. Qed.

Lemma be_roundtrip n z : 0 ≤ z < 2 ^ (8 * Z.of_nat n) → be_num (be_bytes n z) = z.
Proof. intros. rewrite be_num_be_bytes. by apply Z.mod_small. Qed.

(** ** Lexicographic order *)

(** [bytes.Compare]. *)
Fixpoint Compare (a b : list byte) : comparison :=
  match a, b with
  | [], [] => Eq
  | [], _ :: _ => Lt
  | _ :: _, [] => Gt
  | x :: a, y :: b =>
      match Z.compare (b2z x) (b2z y) with Eq => Compare a b | c => c end
  end.

Lemma Compare_eq a b : Compare a b = Eq ↔ a = b.
Proof.
  revert b. induction a as [|x a IH]; intros [|y b]; simpl; try done.
  destruct (Z.compare_spec (b2z x) (b2z y)) as [H|H|H].
  - apply (inj b2z) in H as ->. rewrite IH. naive_solver.
  - split; [done|]. intros [= -> ->]. lia.
  - split; [done|]. intros [= -> ->]. lia.
Qed.

Lemma Compare_refl a : Compare a a = Eq.
Proof. by apply Compare_eq. Qed.

Lemma Compare_antisym a b : Compare b a = CompOpp (Compare a b).
Proof.
  revert b. induction a as [|x a IH]; intros [|y b]; simpl; try done.
  rewrite (Z.compare_antisym (b2z x)). destruct (Z.compare (b2z x) (b2z y)); simpl; auto.
Qed.

Lemma Compare_trans a b c r : Compare a b = r → Compare b c = r → Compare a c = r.
Proof.
  revert b c. induction a as [|x a IH]; intros [|y b] [|z c]; simpl; try congruence.
  destruct (Z.compare_spec (b2z x) (b2z y)), (Z.compare_spec (b2z y) (b2z z)),
    (Z.compare_spec (b2z x) (b2z z)); try lia; eauto; congruence.
Qed.

(** The order used to sort keys and to validate arrays. *)
Definition bytes_le (a b : list byte) : Prop := Compare a b ≠ Gt.
Definition bytes_lt (a b : list byte) : Prop := Compare a b = Lt.

#[global] Instance bytes_le_dec : RelDecision bytes_le.
Proof. intros a b. unfold bytes_le. destruct (Compare a b); [left|left|right]; congruence. Defined.
#[global] Instance bytes_lt_dec : RelDecision bytes_lt.
Proof. intros a b. unfold bytes_lt. destruct (Compare a b); [right|left|right]; congruence. Defined.

Lemma bytes_le_lt_eq a b : bytes_le a b ↔ bytes_lt a b ∨ a = b.
Proof.
  unfold bytes_le, bytes_lt. rewrite <-Compare_eq. destruct (Compare a b); naive_solver.
Qed.

#[global] Instance bytes_lt_trans : Transitive bytes_lt.
Proof. intros a b c. unfold bytes_lt. eauto using Compare_trans. Qed.
#[global] Instance bytes_lt_irrefl : Irreflexive bytes_lt.
Proof. intros a. unfold complement, bytes_lt. rewrite Compare_refl. congruence. Qed.
#[global] Instance bytes_le_refl : Reflexive bytes_le.
Proof. intros a. apply bytes_le_lt_eq. by right. Qed.
#[global] Instance bytes_le_trans : Transitive bytes_le.
Proof.
  intros a b c. rewrite !bytes_le_lt_eq. intros [H1| ->] [H2| ->]; auto.
  left. by transitivity b.
Qed.
#[global] Instance bytes_le_total : Total bytes_le.
Proof.
  intros a b. unfold bytes_le. rewrite (Compare_antisym a b).
  destruct (Compare a b); simpl; auto; right; congruence.
Qed.
#[global] Instance bytes_le_antisymm : AntiSymm (=) bytes_le.
Proof.
  intros a b Hab Hba. apply Compare_eq. revert Hab Hba. unfold bytes_le.
  rewrite (Compare_antisym a b). destruct (Compare a b); simpl; congruence.
Qed.

(** A slice is strictly increasing when it is increasing without duplicates. *)
Lemma strictly_sorted l :
  StronglySorted bytes_lt l ↔ NoDup l ∧ StronglySorted bytes_le l.
Proof.
  split.
  - intros Hl. split; [by eapply (StronglySorted_lt_NoDup bytes_lt)|].
    induction Hl as [|x l Hl IH Hx]; constructor; [done|].
    eapply Forall_impl; [exact Hx|]. intros y Hy. apply bytes_le_lt_eq. by left.
  - intros [Hn Hs]. induction Hs as [|x l Hl IH Hx]; [constructor|].
    apply NoDup_cons in Hn as [Hnx Hn]. constructor; [auto|].
    rewrite Forall_forall in Hx |- *. intros y Hy.
    destruct (proj1 (bytes_le_lt_eq x y) (Hx y Hy)) as [?| ->]; [done|contradiction].
Qed.

(** [sort.Slice] and [sort.Sort] on byte strings: equal elements are equal
    bytes, so the sorted slice does not depend on the algorithm. *)
Definition sort_bytes (l : list (list byte)) : list (list byte) := merge_sort bytes_le l.

Lemma sort_bytes_Permutation l : sort_bytes l ≡ₚ l.
Proof. apply merge_sort_Permutation. Qed.

Lemma sort_bytes_StronglySorted l : StronglySorted bytes_le (sort_bytes l).
Proof. apply (StronglySorted_merge_sort _ _). Qed.

(** Any sorted permutation is the sorted list. *)
Lemma sort_bytes_unique l k : StronglySorted bytes_le k → k ≡ₚ l → k = sort_bytes l.
Proof.
  intros Hs Hp. apply (StronglySorted_unique bytes_le); [done| |].
  - apply sort_bytes_StronglySorted.
  - by rewrite sort_bytes_Permutation.
Qed.

Lemma sort_bytes_sorted l : StronglySorted bytes_le l → sort_bytes l = l.
Proof. intros. symmetry. by apply sort_bytes_unique. Qed.

(** ** Prefixes *)

(** [strings.HasPrefix]. *)
Fixpoint HasPrefix (s prefix : list byte) {struct prefix} : bool :=
  match prefix, s with
  | [], _ => true
  | _ :: _, [] => false
  | p :: prefix, x :: s => bool_decide (x = p) && HasPrefix s prefix
  end.

Lemma HasPrefix_spec s p : HasPrefix s p = true ↔ ∃ k, s = p ++ k.
Proof.
  revert s. induction p as [|b p IH]; intros s; simpl.
  - split; intros; [by exists s | reflexivity].
  - destruct s as [|x s]; [naive_solver|].
    rewrite andb_true_iff, bool_decide_eq_true, IH. naive_solver.
Qed.

Lemma HasPrefix_app p k : HasPrefix (p ++ k) p = true.
Proof. apply HasPrefix_spec. by exists k. Qed.

Lemma HasPrefix_app_cancel r s p : HasPrefix (r ++ s) (r ++ p) = HasPrefix s p.
Proof.
  induction r as [|x r IH]; simpl; [done|]. by rewrite bool_decide_eq_true_2, IH.
Qed.

Create HintDb bytes.
#[export] Hint Rewrite length_le_bytes length_be_bytes Compare_refl HasPrefix_app : bytes.
