(* ===== verification/Lo.v ===== *)
(** * lo: functions on slices and maps

    [src/lo/lo.go], [comparator.go] and [batch.go].  Loops over slices are folds in the order of
    the slice; a loop over a Go map takes the entries in the order [es], any order of the map.
    Ordered values are integers; [zero] is the zero value of a type.  A function that is called
    for its effect takes the state it works on. *)

From S2P Require Import Prelude.

Definition Cond {T} (condition : bool) (trueValue falseValue : T) : T := if condition then trueValue else falseValue.

(** ** Slices *)

Section slices.
Context {A B : Type}.

(** [target[i] = mapper(value)] for the rest of the source. *)
Fixpoint map_loop (mapper : A → B) (i : Z) (source : list A) (target : list B) : outcome (list B) :=
  match source with
  | [] => Ret target
  | value :: source => target ← store target i (mapper value); map_loop mapper (i + 1) source target
  end.

Definition Map (zero : B) (source : list A) (mapper : A → B) : outcome (list B) :=
  map_loop mapper 0 source (replicate (length source) zero).

Definition Flatten (slices : list (list A)) : list A := foldl (λ result slice, result ++ slice) [] slices.

Definition Reduce {R} (collection : list A) (accumulator : R → A → R) (initial : R) : R := foldl accumulator initial collection.

Definition ReduceProperty {R} (collection : list A) (propertyResolver : A → B) (accumulator : R → B → R) (initial : R) : R :=
  foldl (λ acc item, accumulator acc (propertyResolver item)) initial collection.

Definition Filter (collection : list A) (predicate : A → bool) : list A :=
  foldl (λ result item, if predicate item then result ++ [item] else result) [] collection.

Definition ForEach {S} (collection : list A) (iteratee : A → S → S) (st : S) : S := foldl (λ st item, iteratee item st) st collection.

Definition First (zero : A) (slice : list A) (optDefaultValue : list A) : A :=
  match slice with
  | [] => match optDefaultValue with [] => zero | d :: _ => d end
  | x :: _ => x
  end.

Definition CopySlice (zero : A) (base : list A) : list A :=
  let copied := replicate (length base) zero in
  take (length copied) base ++ drop (length base) copied.
End slices.

(** [Equal], with [b[i]]. *)
Fixpoint equal_loop {A} `{EqDecision A} (i : Z) (a b : list A) : outcome bool :=
  match a with
  | [] => Ret true
  | value :: a => x ← index b i; if bool_decide (value ≠ x) then Ret false else equal_loop (i + 1) a b
  end.

Definition Equal {A} `{EqDecision A} (a b : list A) : outcome bool :=
  if negb (len a =? len b) then Ret false else equal_loop 0 a b.

Definition CloneSlice {C T} (Clone : C → T) (zero : T) (slice : list C) : outcome (list T) := Map zero slice Clone.

(** ** Order *)

Definition Comparator (a b : Z) : Z := if a <? b then -1 else if a >? b then 1 else 0.
Definition Compare (a b : Z) : Z := if a <? b then -1 else if a >? b then 1 else 0.

Definition Max (collection : list Z) : Z :=
  match collection with
  | [] => 0
  | c :: _ => Reduce collection (λ max value, if Comparator value max >? 0 then value else max) c
  end.

Definition Min (collection : list Z) : Z :=
  match collection with
  | [] => 0
  | c :: _ => Reduce collection (λ min value, if Comparator value min <? 0 then value else min) c
  end.

Definition Sum (t : ity) (collection : list Z) : Z := Reduce collection (λ sum value, wrap t (sum + value)) 0.

(** ** Maps *)

Section maps.
Context {K : Type} `{Countable K} {V : Type}.

Definition KeyBy (collection : list V) (iteratee : V → K) : gmap K V :=
  foldl (λ result v, <[iteratee v := v]> result) ∅ collection.
Definition KeyOnlyBy (collection : list V) (iteratee : V → K) : gset K :=
  foldl (λ result v, {[iteratee v]} ∪ result) ∅ collection.
Definition FilterByValue (es : list (K * V)) (predicate : V → bool) : gmap K V :=
  foldl (λ result '(key, value), if predicate value then <[key := value]> result else result) ∅ es.
Definition Keys (es : list (K * V)) : list K := foldl (λ result '(k, _), result ++ [k]) [] es.
Definition Values (es : list (K * V)) : list V := foldl (λ result '(_, v), result ++ [v]) [] es.
Definition Any (zero : V) (es : list (K * V)) (optDefaultValue : list V) : V :=
  match es with
  | (_, v) :: _ => v
  | [] => match optDefaultValue with [] => zero | d :: _ => d end
  end.
Definition MergeMaps (base : gmap K V) (update : list (K * V)) : gmap K V := foldl (λ base '(k, v), <[k := v]> base) base update.
Definition CloneMap {C} (Clone : C → V) (es : list (K * C)) : gmap K V := foldl (λ cpy '(k, v), <[k := Clone v]> cpy) ∅ es.
End maps.

(** ** Functions *)

Definition Bind {X Y Z} (secondParam : Y) (callback : X → Y → Z) : X → Z := λ firstParam, callback firstParam secondParam.
Definition DropCount {T} (result : T) (count : Z) (err : option error) : T * option error := (result, err).

(** Functions without arguments, nil being [None]. *)
Definition Batch {S} (callbacks : list (option (S → S))) (st : S) : S :=
  foldl (λ st callback, match callback with Some f => f st | None => st end) st callbacks.

Fixpoint reverse_loop {S} (fuel : nat) (i : Z) (callbacks : list (option (S → S))) (st : S) : outcome S :=
  match fuel with
  | O => Ret st
  | S fuel =>
      if i >=? 0 then
        callback ← index callbacks i;
        reverse_loop fuel (i - 1) callbacks (match callback with Some f => f st | None => st end)
      else Ret st
  end.

Definition BatchReverse {S} (callbacks : list (option (S → S))) (st : S) : outcome S :=
  reverse_loop (length callbacks) (len callbacks - 1) callbacks st.

(** ** Properties *)

Lemma map_loop_spec {A B} (f : A → B) source done rest :
  length rest = length source → map_loop f (len done) source (done ++ rest) = Ret (done ++ (f <$> source)).
Proof.
  revert done rest. induction source as [|x source IH]; intros done rest Hlen; cbn [map_loop fmap list_fmap].
  - destruct rest; [|done]. done.
  - destruct rest as [|y rest]; [done|]. 
    change (store _ (len done) ?z) with (store (done ++ y :: rest) (Z.of_nat (length done)) z). rewrite store_nat by (rewrite length_app; cbn; lia). cbn [mbind outcome_bind].
    rewrite insert_app_r_alt, Nat.sub_diag by lia. cbn. specialize (IH (done ++ [f x]) rest). rewrite <-!app_assoc in IH. cbn in IH.
    rewrite len_app in IH. cbn in IH. apply IH. cbn in Hlen. lia.
Qed.

(** [Map] maps and never writes out of range; so [CloneSlice] clones every element. *)
Lemma Map_spec {A B} (zero : B) (source : list A) f : Map zero source f = Ret (f <$> source).
Proof. apply (map_loop_spec f source [] (replicate (length source) zero)). apply length_replicate. Qed.

Lemma foldl_snoc {A B} (f : A → list B) l acc : foldl (λ r x, r ++ f x) acc l = acc ++ concat (f <$> l).
Proof.
  revert acc. induction l as [|x l IH]; intros acc; cbn; [by rewrite app_nil_r|]. by rewrite IH, app_assoc.
Qed.

Lemma Flatten_spec {A} (slices : list (list A)) : Flatten slices = concat slices.
Proof. unfold Flatten. rewrite (foldl_snoc (λ x, x)). cbn. by rewrite list_fmap_id. Qed.

Lemma Filter_spec {A} (l : list A) p : Filter l p = List.filter p l.
Proof.
  unfold Filter. assert (∀ acc, foldl (λ result item, if p item then result ++ [item] else result) acc l = acc ++ List.filter p l) as ->; [|done].
  induction l as [|x l IH]; intros acc; cbn; [by rewrite app_nil_r|]. rewrite IH. destruct (p x); [by rewrite <-app_assoc|done].
Qed.

Lemma equal_loop_spec {A} `{EqDecision A} (a done b : list A) :
  length a = length b → equal_loop (len done) a (done ++ b) = Ret (bool_decide (a = b)).
Proof.
  revert done b. induction a as [|x a IH]; intros done b Hlen; destruct b as [|y b]; cbn [length equal_loop] in *; try lia; [by rewrite bool_decide_eq_true_2|].
  change (index _ (len done)) with (index (done ++ y :: b) (Z.of_nat (length done))). rewrite (index_nat _ _ y) by (by apply list_lookup_middle). cbn [mbind outcome_bind]. destruct (decide (x = y)) as [->|Hne].
  - rewrite (bool_decide_eq_false_2 (y ≠ y)) by (intros Hn; by apply Hn). specialize (IH (done ++ [y]) b). rewrite <-app_assoc, len_app in IH. cbn [app] in IH. change (len [y]) with 1 in IH.
    rewrite IH by (cbn in Hlen; lia). f_equal. apply bool_decide_ext. naive_solver.
  - rewrite bool_decide_eq_true_2 by done. rewrite bool_decide_eq_false_2; [done|]. by intros [= ? ?].
Qed.

(** [Equal] decides equality, without an access out of range. *)
Lemma Equal_spec {A} `{EqDecision A} (a b : list A) : Equal a b = Ret (bool_decide (a = b)).
Proof.
  unfold Equal, len. destruct (Z.eqb_spec (Z.of_nat (length a)) (Z.of_nat (length b))) as [E|E]; cbn [negb].
  - apply (equal_loop_spec a [] b). lia.
  - rewrite bool_decide_eq_false_2; [done|]. by intros ->.
Qed.

Lemma CopySlice_spec {A} (zero : A) base : CopySlice zero base = base.
Proof. unfold CopySlice. rewrite length_replicate, take_ge, drop_ge by (rewrite ?length_replicate; lia). apply app_nil_r. Qed.

(** The largest and the smallest of a slice that is not empty. *)
Lemma Max_spec c l : Max (c :: l) ∈ c :: l ∧ ∀ x, x ∈ c :: l → x ≤ Max (c :: l).
Proof.
  unfold Max, Reduce, Comparator. cbn [foldl]. replace (if (_ >? _) then c else c) with c by (by destruct (_ >? _)).
  assert (∀ l m, let r := foldl (λ max value, if (if value <? max then -1 else if value >? max then 1 else 0) >? 0 then value else max) m l in
    (r = m ∨ r ∈ l) ∧ m ≤ r ∧ ∀ x, x ∈ l → x ≤ r) as Hall.
  { clear c l. induction l as [|x l IH]; intros m; cbn [foldl].
    - split; [by left|]. split; [done|]. intros x Hx. by apply not_elem_of_nil in Hx.
    - set (m' := if (if x <? m then -1 else if x >? m then 1 else 0) >? 0 then x else m). assert ((m' = x ∨ m' = m) ∧ m ≤ m' ∧ x ≤ m') as (Hm & H1 & H2).
      { unfold m'. destruct (Z.ltb_spec x m), (x >? m) eqn:E; cbn; split_and!; auto; lia. }
      destruct (IH m') as (G1 & G2 & G3). split; [destruct G1 as [->|]; [destruct Hm as [->| ->]; [right; left|by left]|right; by right]|].
      split; [lia|]. intros y [->|Hy]%elem_of_cons; [lia|by apply G3]. }
  destruct (Hall l c) as (H1 & H2 & H3). split; [destruct H1 as [->|]; [left|by right]|]. intros x [->|Hx]%elem_of_cons; [done|by apply H3].
Qed.

Lemma Max_Min l : Min l = - Max (Z.opp <$> l).
Proof.
  destruct l as [|c l]; [done|]. unfold Min, Max, Reduce. rewrite fmap_cons. cbn [foldl].
  assert (∀ l m, foldl (λ min value, if Comparator value min <? 0 then value else min) m l =
    - foldl (λ max value, if Comparator value max >? 0 then value else max) (- m) (Z.opp <$> l)) as Hall.
  { clear c l. induction l as [|x l IH]; intros m; cbn [foldl fmap list_fmap]; [lia|]. rewrite IH. do 2 f_equal. unfold Comparator.
    destruct (Z.ltb_spec x m), (Z.ltb_spec (- x) (- m)), (x >? m) eqn:E1, (- x >? - m) eqn:E2; cbn; lia. }
  rewrite Hall. do 2 f_equal. unfold Comparator. rewrite !Z.gtb_ltb, !Z.ltb_irrefl. done.
Qed.

Lemma Sum_spec t l : Sum t l = wrap t (zsum id l) ∨ l = [].
Proof.
  destruct l as [|c l]; [by right|left]. unfold Sum, Reduce. cbn [foldl].
  assert (∀ l s, foldl (λ sum value, wrap t (sum + value)) (wrap t s) l = wrap t (s + zsum id l)) as Hall.
  { clear c l. induction l as [|x l IH]; intros s; cbn [foldl zsum]; [f_equal; lia|]. rewrite wrap_add, IH. f_equal. unfold id. lia. }
  rewrite Hall. cbn [zsum]. f_equal.
Qed.

Section map_lemmas.
Context {K : Type} `{Countable K} {V : Type}.

(** A loop over a map that assigns: the result does not depend on the order of the map. *)
Lemma MergeMaps_spec (base update : gmap K V) es : es ≡ₚ map_to_list update → MergeMaps base es = update ∪ base.
Proof.
  intros Hes. assert (NoDup es.*1) as Hnd by (rewrite Hes; apply NoDup_fst_map_to_list).
  assert (update = list_to_map es) as ->.
  { rewrite <-(list_to_map_to_list update). by apply list_to_map_proper; [rewrite <-Hes|rewrite Hes]. }
  clear Hes. revert base. induction es as [|[k v] es IH]; intros base; cbn; [by rewrite map_empty_union|].
  cbn in Hnd. apply NoDup_cons in Hnd as [Hk Hnd]. unfold MergeMaps in IH. rewrite (IH Hnd). apply map_eq. intros k'.
  destruct (decide (k' = k)) as [->|Hne].
  - rewrite lookup_union, lookup_insert_eq, lookup_union, lookup_insert_eq. rewrite (not_elem_of_list_to_map_1 es k Hk). by destruct (base !! k).
  - by rewrite !lookup_union, !lookup_insert_ne by done.
Qed.

Lemma FilterByValue_spec (m : gmap K V) p es k v :
  es ≡ₚ map_to_list m → FilterByValue es p !! k = Some v ↔ m !! k = Some v ∧ p v = true.
Proof.
  intros Hes. assert (m !! k = Some v ↔ (k, v) ∈ es) as -> by (rewrite Hes; by rewrite elem_of_map_to_list). assert (NoDup es.*1) as Hnd by (rewrite Hes; apply NoDup_fst_map_to_list).
  unfold FilterByValue. assert (∀ acc : gmap K V, (∀ k, k ∈ es.*1 → acc !! k = None) →
    foldl (λ result '(key, value), if p value then <[key := value]> result else result) acc es !! k = Some v ↔
      acc !! k = Some v ∨ (k, v) ∈ es ∧ p v = true) as Hall.
  { clear Hes. induction es as [|[k' v'] es IH]; intros acc Hacc; cbn [foldl]; [rewrite elem_of_nil; naive_solver|].
    cbn in Hnd, Hacc. apply NoDup_cons in Hnd as [Hk Hnd]. assert (acc !! k' = None) as Hk' by (apply Hacc; left).
    rewrite IH; [|done|].
    - rewrite elem_of_cons. destruct (p v') eqn:Hp.
      + rewrite lookup_insert_Some. split; [naive_solver|]. intros [Ha|[[[= -> ->]|Hin] Hv]]; [|by left; left|by right].
        left. right. split; [|done]. intros ->. congruence.
      + naive_solver congruence.
    - intros k'' Hin. destruct (p v'); [|apply Hacc; by right]. rewrite lookup_insert_ne; [apply Hacc; by right|]. by intros ->. }
  rewrite Hall; [|intros k' _; apply lookup_empty]. rewrite lookup_empty. naive_solver.
Qed.

Lemma Keys_Values_spec (es : list (K * V)) : Keys es = es.*1 ∧ Values es = es.*2.
Proof.
  unfold Keys, Values. split.
  - assert (∀ acc, foldl (λ result '(k, _), result ++ [k]) acc es = acc ++ es.*1) as ->; [|done].
    induction es as [|[k v] es IH]; intros acc; cbn; [by rewrite app_nil_r|]. by rewrite IH, <-app_assoc.
  - assert (∀ acc, foldl (λ result '(_, v), result ++ [v]) acc es = acc ++ es.*2) as ->; [|done].
    induction es as [|[k v] es IH]; intros acc; cbn; [by rewrite app_nil_r|]. by rewrite IH, <-app_assoc.
Qed.

(** The last element with a key is kept. *)
Lemma KeyBy_spec (collection : list V) (iteratee : V → K) k :
  KeyBy collection iteratee !! k = last (List.filter (λ v, bool_decide (iteratee v = k)) collection).
Proof.
  induction collection as [|v l IH] using rev_ind; unfold KeyBy in *; [cbn; by rewrite lookup_empty|]. rewrite foldl_app, List.filter_app. cbn.
  destruct (decide (iteratee v = k)) as [<-|Hne].
  - rewrite lookup_insert_eq, bool_decide_eq_true_2 by done. by rewrite last_snoc.
  - rewrite lookup_insert_ne, bool_decide_eq_false_2, app_nil_r by done. done.
Qed.
End map_lemmas.

Lemma reverse_loop_spec {S} (cs : list (option (S → S))) rest st :
  reverse_loop (length cs) (len cs - 1) (cs ++ rest) st = Ret (Batch (rev cs) st).
Proof.
  revert rest st. induction cs as [|c cs IH] using rev_ind; intros rest st; [done|]. rewrite length_app, Nat.add_comm. cbn [length plus reverse_loop].
  rewrite len_app. replace (len cs + len [c] - 1) with (Z.of_nat (length cs)) by (unfold len; cbn; lia).
  rewrite Z.geb_leb, (proj2 (Z.leb_le 0 _)) by lia. rewrite <-app_assoc, (index_nat _ _ c) by (by apply list_lookup_middle). cbn [mbind outcome_bind].
  change (Z.of_nat (length cs) - 1) with (len cs - 1). rewrite IH, rev_unit. done.
Qed.

(** [BatchReverse] calls the functions of [Batch] in the reverse order. *)
Lemma BatchReverse_spec {S} (cs : list (option (S → S))) st : BatchReverse cs st = Ret (Batch (rev cs) st).
Proof. unfold BatchReverse. rewrite <-(app_nil_r cs) at 3. apply reverse_loop_spec. Qed.
