(* ===== verification/SafeMath.v ===== *)
(** * core/safemath: integer arithmetic that reports overflow

    The operations of [src/core/safemath/safe_math.go] over every integer type
    of the [Integer] constraint, with Go's wrap-around and truncated division
    written out, and the theorems that say exactly when they report an error.
    A Go result [(T, error)] is a pair of a [Z] and an [option error]. *)

From S2P Require Import Prelude.

Module SafeMath.

Definition ErrIntegerOverflow : error := ErrNew "integer under- or overflow".
Definition ErrIntegerDivisionByZero : error := ErrNew "integer division by zero".

(** Go's [x / y] on [T]: truncated quotient, wrapped (only [min / -1] wraps). *)
Definition go_quot (T : ity) (x y : Z) : Z := wrap T (Z.quot x y).

Definition SafeAdd (T : ity) (x y : Z) : Z * option error :=
  let result := wrap T (x + y) in
  if y >? 0 then
    if result <? x then (0, Some (ErrWrap ErrIntegerOverflow "%d + %d")) else (result, None)
  else if result >? x then (0, Some (ErrWrap ErrIntegerOverflow "%d + %d"))
  else (result, None).

Definition SafeSub (T : ity) (x y : Z) : Z * option error :=
  let result := wrap T (x - y) in
  if y >? 0 then
    if result >? x then (0, Some (ErrWrap ErrIntegerOverflow "%d - %d")) else (result, None)
  else if result <? x then (0, Some (ErrWrap ErrIntegerOverflow "%d - %d"))
  else (result, None).

Definition SafeMul (T : ity) (x y : Z) : Z * option error :=
  if (x =? 0) || (y =? 0) then (0, None) else
  let result := wrap T (x * y) in
  if negb (go_quot T result x =? y) then (0, Some (ErrWrap ErrIntegerOverflow "%d * %d"))
  else (result, None).

(** [bits.Mul64]: the 128-bit product of two uint64s as its halves. *)
Definition Mul64 (x y : Z) : Z * Z := ((x * y) / 2 ^ 64, (x * y) mod 2 ^ 64).

(** [bits.Div64]: quotient and remainder of [hi:lo] by [y]; panics when [y]
    is zero or the quotient does not fit. *)
Definition Div64 (hi lo y : Z) : outcome (Z * Z) :=
  if y =? 0 then Panic "integer divide by zero"
  else if y <=? hi then Panic "integer overflow"
  else Ret ((hi * 2 ^ 64 + lo) / y, (hi * 2 ^ 64 + lo) mod y).

Definition SafeMulUint64 (x y : Z) : Z * option error :=
  if (x =? 0) || (y =? 0) then (0, None) else
  let '(hi, lo) := Mul64 x y in
  if negb (hi =? 0) then (0, Some (ErrWrap ErrIntegerOverflow "%d * %d"))
  else (lo, None).

Definition SafeMulInt64 (x y : Z) : Z * option error :=
  if (x =? 0) || (y =? 0) then (0, None) else
  let xNegative := x <? 0 in
  let yNegative := y <? 0 in
  let xPositive := x >? 0 in
  let yPositive := y >? 0 in
  let '(resultIsPositive, resultSign) := (true, 1) in
  let '(x, resultIsPositive, resultSign) :=
    if xNegative then
      let '(p, s) := if yPositive then (false, -1) else (resultIsPositive, resultSign) in
      (wrap I64 (- x), p, s)
    else (x, resultIsPositive, resultSign) in
  let '(y, resultIsPositive, resultSign) :=
    if yNegative then
      let '(p, s) := if xPositive then (false, -1) else (resultIsPositive, resultSign) in
      (wrap I64 (- y), p, s)
    else (y, resultIsPositive, resultSign) in
  let '(hi, lo) := Mul64 (wrap U64 x) (wrap U64 y) in
  if negb (hi =? 0) then (0, Some (ErrWrap ErrIntegerOverflow "%d * %d")) else
  let loSigned := wrap I64 (wrap I64 lo * resultSign) in
  let signBitSet := Z.land (Z.shiftr loSigned 63) 1 =? 1 in
  if resultIsPositive then
    if signBitSet then (0, Some (ErrWrap ErrIntegerOverflow "%d * %d")) else (loSigned, None)
  else if negb signBitSet then (0, Some (ErrWrap ErrIntegerOverflow "%d * %d"))
  else (loSigned, None).

Definition SafeDiv (T : ity) (x y : Z) : Z * option error :=
  if y =? 0 then (0, Some (ErrWrap ErrIntegerDivisionByZero "%d / %d"))
  else (go_quot T x y, None).

Definition SafeLeftShift (T : ity) (val shift : Z) : Z * option error :=
  let result := wrap T (val * 2 ^ shift) in
  if result <? val then (0, Some (ErrWrap ErrIntegerOverflow "%d << %d"))
  else (result, None).

Definition Safe64MulDiv (x y div : Z) : outcome (Z * option error) :=
  if div =? 0 then Ret (0, Some (ErrWrap ErrIntegerDivisionByZero "(%d*%d) / %d")) else
  let '(prodHi, prodLo) := Mul64 x y in
  if div <=? prodHi then
    Ret (0, Some (ErrWrap ErrIntegerOverflow "(%d*(2^64)+%d) / %d"))
  else
    q ← Div64 prodHi prodLo div;
    Ret (q.1, None).

(** What a checked operation is meant to return for the exact result [z]. *)
Definition checked (T : ity) (z : Z) (e : error) : Z * option error :=
  if decide (in_range T z) then (z, None) else (0, Some e).

(** ** Lemmas *)

(** A value that is out of range and is wrapped moves by at least one full turn. *)
Lemma wrap_cases T z :
  (in_range T z ∧ wrap T z = z) ∨
  (¬ in_range T z ∧ ∃ k, k ≠ 0 ∧ wrap T z = z + k * 2 ^ ity_bits T).
Proof.
  destruct (decide (in_range T z)) as [H|H]; [left; split; [done|by apply wrap_id]|].
  right. split; [done|]. destruct (wrap_shift T z) as [k Hk]. exists k. split; [|done].
  intros ->. apply H. replace z with (wrap T z) by lia. apply wrap_in_range.
Qed.

Lemma shift_turn k b : k ≠ 0 → 0 < b → k * b ≤ - b ∨ b ≤ k * b.
Proof. intros. destruct (Z.lt_total k 0) as [|[|]]; [left|..]; nia. Qed.

Ltac wrap_turn T z :=
  pose proof (wrap_in_range T z); pose proof (ity_span T); pose proof (ity_min_0 T);
  destruct (wrap_cases T z) as [[? Hw]|[? (k & Hk & Hw)]];
  [|destruct (shift_turn k (2 ^ ity_bits T) Hk ltac:(lia))];
  unfold in_range in *.

Lemma decide_in_range T z e :
  checked T z e = if decide (ity_min T ≤ z ≤ ity_max T) then (z, None) else (0, Some e).
Proof. done. Qed.

Lemma SafeAdd_checked T x y :
  in_range T x → in_range T y →
  SafeAdd T x y = checked T (x + y) (ErrWrap ErrIntegerOverflow "%d + %d").
Proof.
  intros Hx Hy. rewrite decide_in_range. unfold SafeAdd. cbv zeta.
  rewrite !Z.gtb_ltb.
  wrap_turn T (x + y); zcases; case_decide; try lia; congruence.
Qed.

Lemma SafeSub_checked T x y :
  in_range T x → in_range T y →
  SafeSub T x y = checked T (x - y) (ErrWrap ErrIntegerOverflow "%d - %d").
Proof.
  intros Hx Hy. rewrite decide_in_range. unfold SafeSub. cbv zeta.
  rewrite !Z.gtb_ltb.
  wrap_turn T (x - y); zcases; case_decide; try lia; congruence.
Qed.

(** The product is recovered by the division check: the wrapped product
    divides back to [y] only when nothing was lost. *)
Lemma mul_check_detects T x y r :
  in_range T x → in_range T y → in_range T r → x ≠ 0 →
  (∃ k, r = x * y + k * 2 ^ ity_bits T) →
  Z.quot r x = y → r = x * y.
Proof.
  intros Hx Hy Hr Hx0 [k Hk] Hq.
  pose proof (Z.quot_rem r x Hx0) as Hqr.
  pose proof (Z.rem_bound_abs r x Hx0) as Hb.
  pose proof (ity_span T). pose proof (ity_min_0 T). unfold in_range in *.
  destruct (decide (k = 0)) as [->|Hk0]; [lia|].
  rewrite Hq in Hqr.
  destruct (shift_turn k (2 ^ ity_bits T) Hk0 ltac:(lia)); lia.
Qed.

(** [go_quot] wraps for no operands other than [min / -1]. *)
Lemma go_quot_exact T x y :
  in_range T x → in_range T y → y ≠ 0 → ¬ (y = -1 ∧ x = ity_min T) →
  go_quot T x y = Z.quot x y.
Proof.
  intros Hx Hy Hy0 Hne. apply wrap_id.
  pose proof (ity_min_0 T). unfold in_range in *.
  destruct (decide (y = -1)) as [->|].
  { change (-1) with (Z.opp 1). rewrite Z.quot_opp_r, Z.quot_1_r by lia.
    destruct T; ity_consts; lia. }
  destruct (decide (y = 1)) as [->|]; [rewrite Z.quot_1_r; lia|].
  pose proof (Z.quot_rem x y Hy0). pose proof (Z.rem_bound_abs x y Hy0).
  pose proof (Z.quot_abs x y Hy0) as Ha.
  assert (Z.abs x ÷ Z.abs y ≤ Z.abs x ÷ 2)
    by (apply Z.quot_le_compat_l; lia).
  rewrite (Z.quot_div_nonneg (Z.abs x) 2) in * by lia.
  pose proof (Z.div_mod (Z.abs x) 2 ltac:(lia)).
  pose proof (Z.mod_pos_bound (Z.abs x) 2 ltac:(lia)).
  destruct T; ity_consts; try lia;
    (assert (0 ≤ x ÷ y) by (apply Z.quot_pos; lia)); lia.
Qed.

Lemma wrap_of_min_opp T : ity_signed T = true → wrap T (- ity_min T) = ity_min T.
Proof. by destruct T. Qed.

Lemma SafeMul_checked T x y :
  in_range T x → in_range T y →
  ¬ (ity_signed T = true ∧ x = -1 ∧ y = ity_min T) →
  SafeMul T x y = checked T (x * y) (ErrWrap ErrIntegerOverflow "%d * %d").
Proof.
  intros Hx Hy Hne. unfold SafeMul, checked.
  destruct (Z.eqb_spec x 0) as [->|Hx0]; simpl.
  { rewrite decide_True; [done|]. pose proof (ity_min_0 T). unfold in_range. lia. }
  destruct (Z.eqb_spec y 0) as [->|Hy0]; simpl.
  { rewrite Z.mul_0_r, decide_True; [done|]. pose proof (ity_min_0 T). unfold in_range. lia. }
  pose proof (wrap_in_range T (x * y)) as Hr.
  destruct (decide (x = -1 ∧ wrap T (x * y) = ity_min T)) as [[-> Hm]|Hnm].
  - (* the quotient itself wraps: [y] would have to be [min] *)
    assert (Hs : ity_signed T = true).
    { destruct T; try done; ity_consts; lia. }
    assert (go_quot T (wrap T (-1 * y)) (-1) = ity_min T) as ->.
    { unfold go_quot. rewrite Hm. change (-1) with (Z.opp 1).
      rewrite Z.quot_opp_r, Z.quot_1_r by lia. by apply wrap_of_min_opp. }
    destruct (Z.eqb_spec (ity_min T) y) as [<-|Hy']; [exfalso; naive_solver|].
    simpl. rewrite decide_False; [done|].
    intros Hin. rewrite (wrap_id T) in Hm by done.
    destruct T; try done; ity_consts; lia.
  - rewrite go_quot_exact by (done || naive_solver).
    destruct (Z.eqb_spec (wrap T (x * y) ÷ x) y) as [Hq|Hq]; simpl.
    + assert (wrap T (x * y) = x * y) as Heq.
      { eapply mul_check_detects; eauto using wrap_shift. }
      rewrite decide_True; [by rewrite Heq | by rewrite <-Heq].
    + rewrite decide_False; [done|]. intros Hin. apply Hq.
      rewrite (wrap_id T) by done. rewrite Z.mul_comm. by apply Z.quot_mul.
Qed.

Lemma mul64_no_hi x y : 0 ≤ x → 0 ≤ y →
  (Mul64 x y).1 = 0 ↔ x * y < 2 ^ 64.
Proof.
  intros. simpl. rewrite Z.div_small_iff by lia. nia.
Qed.

Lemma mul64_parts x y : (Mul64 x y).1 * 2 ^ 64 + (Mul64 x y).2 = x * y.
Proof. simpl. pose proof (Z.div_mod (x * y) (2 ^ 64) ltac:(lia)). lia. Qed.

Lemma sign_bit z : in_range I64 z → (Z.land (Z.shiftr z 63) 1 =? 1) = (z <? 0).
Proof.
  intros Hz. ity_consts_in Hz. rewrite Z.shiftr_div_pow2 by lia. change (2 ^ 63) with 9223372036854775808.
  destruct (Z.ltb_spec z 0).
  - replace (z / 9223372036854775808) with (-1); [done|].
    apply (Z.div_unique z 9223372036854775808 (-1) (z + 9223372036854775808)); lia.
  - by rewrite Z.div_small by lia.
Qed.

(** Unsigned magnitude of an int64, as the code computes it. *)
Lemma magnitude z :
  in_range I64 z → wrap U64 (if z <? 0 then wrap I64 (- z) else z) = Z.abs z.
Proof.
  intros Hz. destruct (Z.ltb_spec z 0).
  - destruct (decide (z = ity_min I64)) as [->|]; [done|].
    rewrite (wrap_id I64), wrap_id by (ity_consts; lia). lia.
  - rewrite wrap_id by (ity_consts; lia). lia.
Qed.

(** The low half, reinterpreted and multiplied by the sign. *)
Lemma signed_low lo s :
  0 ≤ lo < 2 ^ 64 → s = 1 ∨ s = -1 →
  let r := wrap I64 (wrap I64 lo * s) in
  in_range I64 r ∧
  (lo < 2 ^ 63 → r = lo * s) ∧ (lo = 2 ^ 63 → r = - 2 ^ 63) ∧
  (2 ^ 63 < lo → if s =? 1 then r < 0 else 0 < r).
Proof.
  intros Hlo Hs r. split; [apply wrap_in_range|]. subst r.
  destruct (wrap_shift I64 lo) as [k Hk]. pose proof (wrap_in_range I64 lo) as Hr.
  ity_consts.
  assert (k = 0 ∧ lo < 2 ^ 63 ∨ k = -1 ∧ 2 ^ 63 ≤ lo) as Hk' by lia.
  set (r := wrap I64 lo) in *. clearbody r.
  destruct (wrap_shift I64 (r * s)) as [m Hm]. pose proof (wrap_in_range I64 (r * s)) as Hr'.
  ity_consts.
  set (q := wrap I64 (r * s)) in *. clearbody q.
  destruct Hs as [-> | ->]; simpl; lia.
Qed.

Lemma mul_finish (s m z : Z) (P : bool) e :
  0 < m →
  (s = 1 ∧ P = true ∧ z = m ∨ s = -1 ∧ P = false ∧ z = - m) →
  (if negb (m / 2 ^ 64 =? 0) then (0, Some e) else
   if P then
     if Z.land (Z.shiftr (wrap I64 (wrap I64 (m mod 2 ^ 64) * s)) 63) 1 =? 1
     then (0, Some e) else (wrap I64 (wrap I64 (m mod 2 ^ 64) * s), None)
   else if negb (Z.land (Z.shiftr (wrap I64 (wrap I64 (m mod 2 ^ 64) * s)) 63) 1 =? 1)
   then (0, Some e)
   else (wrap I64 (wrap I64 (m mod 2 ^ 64) * s), None)) = checked I64 z e.
Proof.
  intros Hm Hs. rewrite sign_bit by apply wrap_in_range. unfold checked.
  destruct (Z.eqb_spec (m / 2 ^ 64) 0) as [Hhi|Hhi]; cbn [negb];
    rewrite Z.div_small_iff in Hhi by lia.
  - rewrite (Z.mod_small m) by lia.
    destruct (signed_low m s ltac:(lia) ltac:(naive_solver)) as (Hin & H1 & H2 & H3).
    revert Hin H1 H2 H3. cbv zeta.
    generalize (wrap I64 (wrap I64 m * s)) as r. intros r Hin H1 H2 H3.
    unfold in_range in *. change (ity_min I64) with (- 2 ^ 63) in *.
    change (ity_max I64) with (2 ^ 63 - 1) in *.
    destruct Hs as [(-> & -> & ->)|(-> & -> & ->)]; cbn [Z.eqb Pos.eqb] in *;
      destruct (Z.ltb_spec r 0); cbn [negb]; case_decide; try lia; f_equal; lia.
  - rewrite decide_False; [done|]. unfold in_range.
    change (ity_min I64) with (- 2 ^ 63). change (ity_max I64) with (2 ^ 63 - 1). lia.
Qed.

Lemma SafeMulInt64_checked x y :
  in_range I64 x → in_range I64 y →
  SafeMulInt64 x y = checked I64 (x * y) (ErrWrap ErrIntegerOverflow "%d * %d").
Proof.
  intros Hx Hy. unfold SafeMulInt64.
  destruct (Z.eqb_spec x 0) as [->|Hx0]; simpl orb; cbv iota; [done|].
  destruct (Z.eqb_spec y 0) as [->|Hy0]; cbv iota; [by rewrite Z.mul_0_r|].
  pose proof (magnitude x Hx) as Mx. pose proof (magnitude y Hy) as My.
  rewrite !Z.gtb_ltb.
  destruct (Z.ltb_spec x 0), (Z.ltb_spec y 0), (Z.ltb_spec 0 x), (Z.ltb_spec 0 y);
    try lia; cbv iota zeta beta; rewrite Mx, My; unfold Mul64; cbv iota zeta beta;
    first [apply (mul_finish 1 _ _ true) | apply (mul_finish (-1) _ _ false)]; nia.
Qed.

Lemma SafeMulUint64_checked x y :
  in_range U64 x → in_range U64 y →
  SafeMulUint64 x y = checked U64 (x * y) (ErrWrap ErrIntegerOverflow "%d * %d").
Proof.
  intros Hx Hy. unfold SafeMulUint64.
  destruct (Z.eqb_spec x 0) as [->|Hx0]; simpl orb; cbv iota; [done|].
  destruct (Z.eqb_spec y 0) as [->|Hy0]; cbv iota; [by rewrite Z.mul_0_r|].
  unfold checked, Mul64, in_range in *. cbv [ity_min ity_max ity_signed ity_bits] in *.
  simpl in *. destruct (Z.eqb_spec (x * y / 2 ^ 64) 0) as [Hhi|Hhi]; simpl;
    rewrite Z.div_small_iff in Hhi by lia; case_decide; try lia; try done.
  f_equal. apply Z.mod_small. lia.
Qed.

(** ** Properties *)

(** On every integer type [SafeAdd] and [SafeSub] return the exact result
    when it fits the type, and an error that is [ErrIntegerOverflow] otherwise. *)
Lemma SafeAdd_SafeSub_exact T x y :
  in_range T x → in_range T y →
  SafeAdd T x y = checked T (x + y) (ErrWrap ErrIntegerOverflow "%d + %d") ∧
  SafeSub T x y = checked T (x - y) (ErrWrap ErrIntegerOverflow "%d - %d").
Proof. intros. split; [by apply SafeAdd_checked | by apply SafeSub_checked]. Qed.

Lemma SafeAdd_SafeSub_exact_witness :
  SafeAdd U8 200 100 = checked U8 (200 + 100) (ErrWrap ErrIntegerOverflow "%d + %d") ∧
  SafeSub U8 200 100 = checked U8 (200 - 100) (ErrWrap ErrIntegerOverflow "%d - %d").
Proof. apply (SafeAdd_SafeSub_exact U8 200 100); vm_compute; split; congruence. Defined.

(** [SafeMul] returns the exact product when it fits the type and
    [ErrIntegerOverflow] otherwise, for all operands but one pair: on a signed
    type [SafeMul (-1) min] overflows and is reported as a success with result
    [min], because the division that checks the product wraps as well. *)
Lemma SafeMul_exact_but_min T x y :
  in_range T x → in_range T y →
  SafeMul T x y =
    if decide (ity_signed T = true ∧ x = -1 ∧ y = ity_min T) then (ity_min T, None)
    else checked T (x * y) (ErrWrap ErrIntegerOverflow "%d * %d").
Proof.
  intros Hx Hy. case_decide as Hc; [|by apply SafeMul_checked].
  destruct Hc as (Hs & -> & ->). by destruct T.
Qed.

Lemma SafeMul_exact_but_min_witness :
  SafeMul I64 (-1) (ity_min I64) = (ity_min I64, None) ∧
  SafeMul I8 (-16) 8 = (-128, None).
Proof.
  split.
  - rewrite (SafeMul_exact_but_min I64); [done | |]; vm_compute; split; congruence.
  - rewrite (SafeMul_exact_but_min I8); [done | |]; vm_compute; split; congruence.
Defined.

(** The optimised multiplications agree with the specification of a
    checked product on all operands: [SafeMulInt64] (sign, 128-bit magnitude
    and sign-bit tests) on int64 and [SafeMulUint64] on uint64. *)
Lemma SafeMul64_exact x y u v :
  in_range I64 x → in_range I64 y → in_range U64 u → in_range U64 v →
  SafeMulInt64 x y = checked I64 (x * y) (ErrWrap ErrIntegerOverflow "%d * %d") ∧
  SafeMulUint64 u v = checked U64 (u * v) (ErrWrap ErrIntegerOverflow "%d * %d").
Proof. intros. split; [by apply SafeMulInt64_checked | by apply SafeMulUint64_checked]. Qed.

Lemma SafeMul64_exact_witness :
  SafeMulInt64 (ity_min I64) 1 = checked I64 (ity_min I64 * 1) (ErrWrap ErrIntegerOverflow "%d * %d") ∧
  SafeMulUint64 (2 ^ 32) (2 ^ 32) = checked U64 (2 ^ 32 * 2 ^ 32) (ErrWrap ErrIntegerOverflow "%d * %d").
Proof. apply SafeMul64_exact; vm_compute; split; congruence. Defined.

(** [Safe64MulDiv x y div] never panics; it returns the floor of [x*y/div]
    computed without intermediate overflow when that fits a uint64,
    [ErrIntegerOverflow] when it does not, and [ErrIntegerDivisionByZero] for
    [div = 0]. *)
Lemma Safe64MulDiv_exact x y div :
  in_range U64 x → in_range U64 y → in_range U64 div →
  Safe64MulDiv x y div = Ret
    (if div =? 0 then (0, Some (ErrWrap ErrIntegerDivisionByZero "(%d*%d) / %d"))
     else checked U64 (x * y / div) (ErrWrap ErrIntegerOverflow "(%d*(2^64)+%d) / %d")).
Proof.
  intros Hx Hy Hd. unfold Safe64MulDiv.
  destruct (Z.eqb_spec div 0) as [->|Hd0]; [done|].
  pose proof (mul64_parts x y) as Hp. destruct (Mul64 x y) as [hi lo] eqn:E.
  assert (0 ≤ lo < 2 ^ 64) by (injection E as <- <-; apply Z.mod_pos_bound; lia).
  simpl in Hp. unfold Div64, checked, in_range in *.
  change (ity_min U64) with 0 in *. change (ity_max U64) with (2 ^ 64 - 1) in *.
  assert (0 ≤ x * y / div) by (apply Z.div_pos; nia).
  assert (x * y / div < 2 ^ 64 ↔ hi < div) as Hfit.
  { rewrite <-Hp. split; intros Hlt.
    - apply Z.nle_gt. intros Hle. apply Z.lt_nge in Hlt. apply Hlt.
      apply Z.div_le_lower_bound; nia.
    - apply Z.div_lt_upper_bound; nia. }
  destruct (Z.leb_spec div hi).
  - rewrite decide_False; [done|]. lia.
  - rewrite (proj2 (Z.eqb_neq div 0)) by lia. simpl.
    rewrite decide_True by lia. by rewrite Hp.
Qed.

Lemma Safe64MulDiv_exact_witness :
  Safe64MulDiv (2 ^ 63) 6 4 = Ret (13835058055282163712, None) ∧
  Safe64MulDiv (2 ^ 63) 8 4 = Ret (0, Some (ErrWrap ErrIntegerOverflow "(%d*(2^64)+%d) / %d")).
Proof.
  split; rewrite Safe64MulDiv_exact; try (vm_compute; split; congruence); done.
Defined.

(** what [SafeLeftShift] really checks.  On an unsigned type an error means
    that the exact value [val << shift] does not fit, and a value that fits is
    returned exactly; but a shift that overflows past the original value is not
    reported (uint8 [96 << 2] gives 128), and on signed types a shift that fits
    is refused (int8 [-1 << 1]). *)
Lemma SafeLeftShift_behaviour T val shift :
  in_range T val → 0 ≤ shift →
  (ity_signed T = false →
     ((SafeLeftShift T val shift).2 ≠ None → ¬ in_range T (val * 2 ^ shift)) ∧
     (in_range T (val * 2 ^ shift) → SafeLeftShift T val shift = (val * 2 ^ shift, None))) ∧
  SafeLeftShift U8 96 2 = (128, None) ∧
  (SafeLeftShift I8 (-1) 1).2 = Some (ErrWrap ErrIntegerOverflow "%d << %d").
Proof.
  intros Hv Hs. split; [|done]. intros Hu.
  assert (1 ≤ 2 ^ shift) by (pose proof (Z.pow_pos_nonneg 2 shift); lia).
  assert (0 ≤ val) by (unfold in_range, ity_min in Hv; rewrite Hu in Hv; lia).
  assert (in_range T (val * 2 ^ shift) → SafeLeftShift T val shift = (val * 2 ^ shift, None)) as Hfit.
  { intros Hin. unfold SafeLeftShift. rewrite wrap_id by done.
    destruct (Z.ltb_spec (val * 2 ^ shift) val); [nia|done]. }
  split; [|done]. intros Herr Hin. rewrite (Hfit Hin) in Herr. done.
Qed.

Lemma SafeLeftShift_behaviour_witness :
  SafeLeftShift U8 3 5 = (96, None).
Proof.
  apply (SafeLeftShift_behaviour U8 3 5); vm_compute; try split; congruence.
Defined.

End SafeMath.
