(* ===== verification/Serializable.v ===== *)
(** * serializer: modes, array rules and element validators

    [src/serializer/serializable.go], [consts.go] and the checks of
    [error.go].  A Go [[]byte] whose nil-ness the code observes is a [slice]:
    [None] is the nil slice.  An [ElementValidationFunc] is a closure over
    mutable variables; it is modelled as the list of validators it is composed
    of, each with its state, and running it returns the updated closure. *)

From S2P Require Import Prelude Bytes.

(** ** Constants ([consts.go]) *)

Definition OneByte : Z := 1.
Definition Int16ByteSize : Z := 2.
Definition UInt16ByteSize : Z := 2.
Definition Int32ByteSize : Z := 4.
Definition UInt32ByteSize : Z := 4.
Definition Float32ByteSize : Z := 4.
Definition Int64ByteSize : Z := 8.
Definition UInt64ByteSize : Z := 8.
Definition UInt256ByteSize : Z := 32.
Definition Float64ByteSize : Z := 8.
Definition TypeDenotationByteSize : Z := UInt32ByteSize.
Definition SmallTypeDenotationByteSize : Z := OneByte.
Definition PayloadLengthByteSize : Z := UInt32ByteSize.
Definition MinPayloadByteSize : Z := UInt32ByteSize + OneByte.
Definition MaxNanoTimestampInt64Seconds : Z := ity_max I64 ÷ 1000000000.

(** [TypeDenotationType] is a byte: the three named values and any other. *)
Inductive TypeDenotationType : Type :=
  | TypeDenotationUint32
  | TypeDenotationByte
  | TypeDenotationNone
  | TypeDenotationOther (v : Z).

(** ** Errors ([error.go]) *)

Definition ErrInvalidBytes := ErrNew "invalid bytes".
Definition ErrDeserializationTypeMismatch := ErrNew "data type is invalid for deserialization".
Definition ErrArrayValidationMinElementsNotReached := ErrNew "min count of elements within the array not reached".
Definition ErrArrayValidationMaxElementsExceeded := ErrNew "max count of elements within the array exceeded".
Definition ErrArrayValidationViolatesUniqueness := ErrNew "array elements must be unique".
Definition ErrArrayValidationViolatesTypeUniqueness := ErrNew "array elements must be of a unique type".
Definition ErrArrayValidationOrderViolatesLexicalOrder := ErrNew "array elements must be in their lexical order (byte wise)".
Definition ErrArrayValidationTypesNotOccurred := ErrNew "not all needed types are present".
Definition ErrDeserializationNotEnoughData := ErrNew "not enough data for deserialization".
Definition ErrDeserializationInvalidBoolValue := ErrNew "invalid bool value".
Definition ErrDeserializationLengthInvalid := ErrNew "length denotation invalid".
Definition ErrDeserializationLengthMinNotReached := ErrWrap ErrDeserializationLengthInvalid "min length not reached".
Definition ErrDeserializationLengthMaxExceeded := ErrWrap ErrDeserializationLengthInvalid "max length exceeded".
Definition ErrDeserializationNotAllConsumed := ErrNew "not all data has been consumed but should have been".
Definition ErrUint256NumNegative := ErrNew "uint256 is negative".
Definition ErrSliceLengthTooShort := ErrNew "slice length is too short".
Definition ErrSliceLengthTooLong := ErrNew "slice length is too long".
Definition ErrStringTooShort := ErrNew "string is too short".
Definition ErrStringTooLong := ErrNew "string is too long".
Definition ErrUint256TooBig := ErrNew "uint256 big int is too big".
Definition ErrUint256Nil := ErrNew "uint256 must not be nil".

Definition CheckType (data : list byte) (shouldType : Z) : option error :=
  if len data <? UInt32ByteSize then
    Some (ErrWrap ErrDeserializationNotEnoughData "can't check type denotation")
  else
    let actualType := le_num (take 4 data) in
    if negb (actualType =? shouldType) then
      Some (ErrWrap ErrDeserializationTypeMismatch "type denotation must be %d but is %d")
    else None.

Definition CheckTypeByte (data : list byte) (shouldType : Z) : option error :=
  match data with
  | [] => Some (ErrWrap ErrDeserializationNotEnoughData "can't check type byte")
  | b :: _ =>
      if negb (b2z b =? shouldType) then
        Some (ErrWrap ErrDeserializationTypeMismatch "type denotation must be %d but is %d")
      else None
  end.

Definition CheckExactByteLength (exact length : Z) : option error :=
  if negb (length =? exact) then
    Some (ErrWrap ErrInvalidBytes "data must be at exact %d bytes long but is %d")
  else None.

Definition CheckMinByteLength (min length : Z) : option error :=
  if length <? min then
    Some (ErrWrap ErrDeserializationNotEnoughData "data must be at least %d bytes long but is %d")
  else None.

(** ** Modes *)

Definition DeSeriModeNoValidation : Z := 0.
Definition DeSeriModePerformValidation : Z := 1.
Definition DeSeriModePerformLexicalOrdering : Z := 2.

Definition ArrayValidationModeNone : Z := 0.
Definition ArrayValidationModeNoDuplicates : Z := 1.
Definition ArrayValidationModeLexicalOrdering : Z := 2.
Definition ArrayValidationModeAtMostOneOfEachTypeByte : Z := 4.
Definition ArrayValidationModeAtMostOneOfEachTypeUint32 : Z := 8.

(** [HasMode] of [DeSerializationMode] and of [ArrayValidationMode]. *)
Definition HasMode (sm mode : Z) : bool := Z.land sm mode >? 0.

(** ** Array rules *)

(** A [[]byte] with its nil-ness. *)
Definition slice : Type := option (list byte).
Definition slice_bytes (s : slice) : list byte := default [] s.

(** [TypePrefixes]: a [map[uint32]struct{}] used as a set. *)
Definition Subset (typePrefixes other : gset Z) : bool :=
  forallb (λ typePrefix, bool_decide (typePrefix ∈ other)) (elements typePrefixes).

(** Guards, over the type [S] of objects: absent guards are nil functions.  The
    post-read guard can be handed a nil object. *)
Record SerializableGuard (S : Type) : Type := {
  ReadGuard : Z → S + error;
  PostReadGuard : option (option S → option error);
  WriteGuard : option (S → option error);
}.
Arguments ReadGuard {S} _ _.
Arguments PostReadGuard {S} _.
Arguments WriteGuard {S} _.

Record ArrayRules (S : Type) : Type := {
  Min : Z;
  Max : Z;
  MustOccur : gset Z;
  Guards : SerializableGuard S;
  ValidationMode : Z;
}.
Arguments Min {S} _.
Arguments Max {S} _.
Arguments MustOccur {S} _.
Arguments Guards {S} _.
Arguments ValidationMode {S} _.

Definition CheckBounds {S} (ar : ArrayRules S) (count : Z) : option error :=
  if negb (Min ar =? 0) && (count <? Min ar) then
    Some (ErrWrap ErrArrayValidationMinElementsNotReached "min is %d but count is %d")
  else if negb (Max ar =? 0) && (count >? Max ar) then
    Some (ErrWrap ErrArrayValidationMaxElementsExceeded "max is %d but count is %d")
  else None.

(** ** Element validators *)

(** The closures, with the variables they capture. *)
Inductive validator : Type :=
  | UniqueV (set : gmap (list byte) Z)
  | LexicalV (prev : slice) (prevIndex : Z)
  | LexicalNoDupsV (prev : slice) (prevIndex : Z)
  | OneOfEachTypeV (typeDenotation : TypeDenotationType) (seen : gmap Z Z).

Definition ElementUniqueValidator : validator := UniqueV ∅.
Definition LexicalOrderValidator : validator := LexicalV None 0.
Definition LexicalOrderWithoutDupsValidator : validator := LexicalNoDupsV None 0.
Definition AtMostOneOfEachTypeValidator (typeDenotation : TypeDenotationType) : validator :=
  OneOfEachTypeV typeDenotation ∅.

(** The body of [ElementUniqueValidator]'s closure. *)
Definition run_unique (set : gmap (list byte) Z) (index : Z) (next : slice)
    : validator * option error :=
  let k := slice_bytes next in
  match set !! k with
  | Some _ => (UniqueV set, Some (ErrWrap ErrArrayValidationViolatesUniqueness "element %d and %d are duplicates"))
  | None => (UniqueV (<[k:=index]> set), None)
  end.

Definition run_lexical (prev : slice) (prevIndex index : Z) (next : slice)
    : validator * option error :=
  match prev with
  | None => (LexicalV next index, None)
  | Some p =>
      match Compare p (slice_bytes next) with
      | Gt => (LexicalV prev prevIndex,
          Some (ErrWrap ErrArrayValidationOrderViolatesLexicalOrder "element %d should have been before element %d"))
      | _ => (LexicalV next index, None)
      end
  end.

Definition run_lexical_nodups (prev : slice) (prevIndex index : Z) (next : slice)
    : validator * option error :=
  match prev with
  | None => (LexicalNoDupsV next index, None)
  | Some p =>
      match Compare p (slice_bytes next) with
      | Gt => (LexicalNoDupsV prev prevIndex,
          Some (ErrWrap ErrArrayValidationOrderViolatesLexicalOrder "element %d should have been before element %d"))
      | Eq => (LexicalNoDupsV prev prevIndex,
          Some (ErrWrap ErrArrayValidationViolatesUniqueness "element %d and %d are duplicates"))
      | Lt => (LexicalNoDupsV next index, None)
      end
  end.

Definition run_one_of_each (den : TypeDenotationType) (seen : gmap Z Z) (index : Z) (next : slice)
    : outcome (validator * option error) :=
  let bs := slice_bytes next in
  key ← match den with
        | TypeDenotationUint32 =>
            if len bs <? UInt32ByteSize
            then Ret (inr (ErrWrap ErrInvalidBytes "not enough bytes to check type uniquness in array"))
            else Ret (inl (le_num (take 4 bs)))
        | TypeDenotationByte =>
            match bs with
            | [] => Ret (inr (ErrWrap ErrInvalidBytes "not enough bytes to check type uniquness in array"))
            | b :: _ => Ret (inl (b2z b))
            end
        | _ => Panic "unknown type denotation in AtMostOneOfEachTypeValidator passed: %d"
        end;
  Ret match key with
      | inr e => (OneOfEachTypeV den seen, Some e)
      | inl key =>
          match seen !! key with
          | Some _ => (OneOfEachTypeV den seen,
              Some (ErrWrap ErrArrayValidationViolatesTypeUniqueness "element %d and %d have the same type"))
          | None => (OneOfEachTypeV den (<[key:=index]> seen), None)
          end
      end.

Definition run_validator (v : validator) (index : Z) (next : slice)
    : outcome (validator * option error) :=
  match v with
  | UniqueV set => Ret (run_unique set index next)
  | LexicalV prev prevIndex => Ret (run_lexical prev prevIndex index next)
  | LexicalNoDupsV prev prevIndex => Ret (run_lexical_nodups prev prevIndex index next)
  | OneOfEachTypeV den seen => run_one_of_each den seen index next
  end.

(** [ElementValidationFunc]: the validators [wrap] has composed, in the order
    they run; the empty list is the nil function. *)
Definition ElementValidator : Type := list validator.

Definition wrap_validator (f : ElementValidator) (f2 : validator) : ElementValidator := f ++ [f2].

(** One pass of the loop over the bits of the mode. *)
Definition add_validator (mode : Z) (acc : ElementValidator) (i : Z) : ElementValidator :=
  let bit := Z.land mode i in
  if bit =? ArrayValidationModeNone then acc
  else if bit =? ArrayValidationModeNoDuplicates then
    if HasMode mode ArrayValidationModeLexicalOrdering then acc
    else wrap_validator acc ElementUniqueValidator
  else if bit =? ArrayValidationModeLexicalOrdering then
    if HasMode mode ArrayValidationModeNoDuplicates
    then wrap_validator acc LexicalOrderWithoutDupsValidator
    else wrap_validator acc LexicalOrderValidator
  else if bit =? ArrayValidationModeAtMostOneOfEachTypeByte then
    wrap_validator acc (AtMostOneOfEachTypeValidator TypeDenotationByte)
  else if bit =? ArrayValidationModeAtMostOneOfEachTypeUint32 then
    wrap_validator acc (AtMostOneOfEachTypeValidator TypeDenotationUint32)
  else acc.

(** [for i := byte(1); i != 0; i <<= 1]: [i] runs over the eight bits of a byte. *)
Definition ElementValidationFunc {S} (ar : ArrayRules S) : ElementValidator :=
  foldl (add_validator (ValidationMode ar)) [] [1; 2; 4; 8; 16; 32; 64; 128].

(** Calling the composed function: stop at the first error. *)
Fixpoint run_validators (vs : ElementValidator) (index : Z) (next : slice)
    : outcome (ElementValidator * option error) :=
  match vs with
  | [] => Ret ([], None)
  | v :: vs =>
      '(v', err) ← run_validator v index next;
      match err with
      | Some e => Ret (v' :: vs, Some e)
      | None =>
          '(vs', err) ← run_validators vs index next;
          Ret (v' :: vs', err)
      end
  end.

(** A loop that validates the elements in order from [index] on. *)
Fixpoint validate_from (vs : ElementValidator) (index : Z) (elems : list slice)
    : outcome (option error) :=
  match elems with
  | [] => Ret None
  | next :: elems =>
      '(vs', err) ← run_validators vs index next;
      match err with
      | Some e => Ret (Some e)
      | None => validate_from vs' (index + 1) elems
      end
  end.

(** ** Specification of the array rules *)

(** What each bit of the validation mode demands of the array. *)
Definition array_ok (mode : Z) (elems : list (list byte)) : Prop :=
  (Z.testbit mode 0 = true → NoDup elems) ∧
  (Z.testbit mode 1 = true → StronglySorted bytes_le elems) ∧
  (Z.testbit mode 2 = true →
     Forall (λ e, 1 ≤ len e) elems ∧ NoDup ((λ e, le_num (take 1 e)) <$> elems)) ∧
  (Z.testbit mode 3 = true →
     Forall (λ e, 4 ≤ len e) elems ∧ NoDup ((λ e, le_num (take 4 e)) <$> elems)).

(** ** Lemmas *)

Lemma land_pow2 mode i : 0 ≤ i → Z.land mode (2 ^ i) = if Z.testbit mode i then 2 ^ i else 0.
Proof.
  intros Hi. apply Z.bits_inj'. intros n Hn.
  rewrite Z.land_spec, Z.pow2_bits_eqb by done.
  destruct (Z.eqb_spec i n) as [->|Hne].
  - rewrite andb_true_r. destruct (Z.testbit mode n); [|by rewrite Z.bits_0].
    by rewrite Z.pow2_bits_true.
  - rewrite andb_false_r. destruct (Z.testbit mode i); [|by rewrite Z.bits_0].
    by rewrite Z.pow2_bits_false.
Qed.

Lemma HasMode_pow2 mode i : 0 ≤ i → HasMode mode (2 ^ i) = Z.testbit mode i.
Proof.
  intros Hi. unfold HasMode. rewrite land_pow2 by done.
  pose proof (Z.pow_pos_nonneg 2 i ltac:(lia) Hi).
  destruct (Z.testbit mode i); rewrite Z.gtb_ltb; [apply Z.ltb_lt; lia | done].
Qed.

(** The validators a mode selects. *)
Definition mode_validators (mode : Z) : ElementValidator :=
  (if Z.testbit mode 0 && negb (Z.testbit mode 1) then [ElementUniqueValidator] else []) ++
  (if Z.testbit mode 1
   then [if Z.testbit mode 0 then LexicalOrderWithoutDupsValidator else LexicalOrderValidator]
   else []) ++
  (if Z.testbit mode 2 then [AtMostOneOfEachTypeValidator TypeDenotationByte] else []) ++
  (if Z.testbit mode 3 then [AtMostOneOfEachTypeValidator TypeDenotationUint32] else []).

Lemma add_validator_app mode acc i : add_validator mode acc i = acc ++ add_validator mode [] i.
Proof.
  unfold add_validator, wrap_validator. cbv zeta.
  repeat case_match; rewrite ?app_nil_r; done.
Qed.

(** The contribution of bit [n] of the mode. *)
Lemma add_validator_bit mode n :
  0 ≤ n →
  add_validator mode [] (2 ^ n) =
    if Z.testbit mode n then
      if n =? 0 then if Z.testbit mode 1 then [] else [ElementUniqueValidator]
      else if n =? 1 then
        [if Z.testbit mode 0 then LexicalOrderWithoutDupsValidator else LexicalOrderValidator]
      else if n =? 2 then [AtMostOneOfEachTypeValidator TypeDenotationByte]
      else if n =? 3 then [AtMostOneOfEachTypeValidator TypeDenotationUint32]
      else []
    else [].
Proof.
  intros Hn. unfold add_validator. cbv zeta. rewrite land_pow2 by done.
  destruct (Z.testbit mode n); [|done].
  change ArrayValidationModeNoDuplicates with (2 ^ 0).
  change ArrayValidationModeLexicalOrdering with (2 ^ 1).
  change ArrayValidationModeAtMostOneOfEachTypeByte with (2 ^ 2).
  change ArrayValidationModeAtMostOneOfEachTypeUint32 with (2 ^ 3).
  rewrite !HasMode_pow2 by lia.
  assert (∀ k, 0 ≤ k → (2 ^ n =? 2 ^ k) = (n =? k)) as Heq.
  { intros k Hk. destruct (Z.eqb_spec n k) as [->|Hne]; [by apply Z.eqb_refl|].
    apply Z.eqb_neq. intros E. apply Hne. by apply (Z.pow_inj_r 2). }
  rewrite !Heq by lia. unfold ArrayValidationModeNone.
  rewrite (proj2 (Z.eqb_neq (2 ^ n) 0)) by (apply Z.pow_nonzero; lia).
  repeat case_match; done.
Qed.

Lemma ElementValidationFunc_validators {S} (ar : ArrayRules S) :
  ElementValidationFunc ar = mode_validators (ValidationMode ar).
Proof.
  unfold ElementValidationFunc, mode_validators. generalize (ValidationMode ar) as mode. intros mode.
  cbn [foldl]. rewrite !(add_validator_app _ (add_validator _ _ _)).
  change 128 with (2 ^ 7). change 64 with (2 ^ 6). change 32 with (2 ^ 5). change 16 with (2 ^ 4).
  change 8 with (2 ^ 3). change 4 with (2 ^ 2). change (add_validator mode [] 2) with (add_validator mode [] (2 ^ 1)).
  change (add_validator mode [] 1) with (add_validator mode [] (2 ^ 0)).
  rewrite !add_validator_bit by lia. cbn [Z.eqb Pos.eqb].
  rewrite <-!(app_assoc (A:=validator)).
  repeat case_match; simplify_eq; done.
Qed.

(** Running the composition succeeds when every validator does. *)
Lemma run_validators_ok vs i next vs' :
  run_validators vs i next = Ret (vs', None) ↔
  Forall2 (λ v v', run_validator v i next = Ret (v', None)) vs vs'.
Proof.
  revert vs'. induction vs as [|v vs IH]; intros vs'; simpl.
  - split; [intros [= <-]; constructor | by intros ->%Forall2_nil_inv_l].
  - destruct (run_validator v i next) as [[v1 [e|]]|] eqn:E; simpl.
    + split; [done|]. intros (v2 & ? & H1 & _ & _)%Forall2_cons_inv_l. cbn in H1. by rewrite E in H1.
    + destruct (run_validators vs i next) as [[vs1 r]|] eqn:Er; simpl.
      * split.
        { intros [= <- ->]. constructor; [done|]. by apply IH. }
        { intros (v2 & vs2 & H1 & H2 & ->)%Forall2_cons_inv_l. apply IH in H2. cbn in H1. rewrite E in H1. by simplify_eq. }
      * split; [done|]. intros (v2 & vs2 & ? & H2 & ->)%Forall2_cons_inv_l. apply IH in H2. done.
    + split; [done|]. intros (v2 & ? & H1 & _ & _)%Forall2_cons_inv_l. cbn in H1. by rewrite E in H1.
Qed.

Lemma validate_from_Forall vs i elems :
  validate_from vs i elems = Ret None ↔
  Forall (λ v, validate_from [v] i elems = Ret None) vs.
Proof.
  revert vs i. induction elems as [|next elems IH]; intros vs i.
  { simpl. split; [intros _; by apply Forall_true | done]. }
  transitivity (∃ vs', run_validators vs i next = Ret (vs', None) ∧
                       validate_from vs' (i + 1) elems = Ret None).
  { cbn [validate_from]. destruct (run_validators vs i next) as [[vs' [e|]]|]; simpl; naive_solver. }
  transitivity (Forall (λ v, ∃ v', run_validator v i next = Ret (v', None) ∧
                                   validate_from [v'] (i + 1) elems = Ret None) vs).
  - split.
    + intros (vs' & Hr & Hv). apply run_validators_ok in Hr. apply IH in Hv.
      induction Hr as [|v v' vs vs' ? ? IHr]; constructor; inversion Hv; eauto.
    + induction 1 as [|v vs (v' & Hr & Hv) _ (vs' & Hrs & Hvs)].
      { exists []. split; [done|]. by apply IH. }
      exists (v' :: vs'). rewrite run_validators_ok in Hrs |- *. split; [by constructor|].
      apply IH. constructor; [done|]. by apply IH.
  - apply Forall_iff. intros v. cbn [validate_from run_validators].
    destruct (run_validator v i next) as [[v' [e|]]|]; simpl; naive_solver.
Qed.

Lemma validate_unique es set i :
  validate_from [UniqueV set] i (Some <$> es) = Ret None ↔
  NoDup es ∧ Forall (λ e, set !! e = None) es.
Proof.
  revert set i. induction es as [|e es IH]; intros set i; cbn [fmap list_fmap validate_from].
  { split; [intros _; split; constructor | done]. }
  cbn [run_validators run_validator mbind outcome_bind]. unfold run_unique. cbn [slice_bytes default from_option id].
  destruct (set !! e) eqn:E; simpl.
  { split; [done|]. intros [_ [? ?]%Forall_cons]. congruence. }
  rewrite IH, NoDup_cons, Forall_cons. rewrite !Forall_forall.
  setoid_rewrite lookup_insert_None. set_solver.
Qed.

Lemma validate_lexical es p j i :
  validate_from [LexicalV (Some p) j] i (Some <$> es) = Ret None ↔
  StronglySorted bytes_le (p :: es).
Proof.
  revert p j i. induction es as [|e es IH]; intros p j i; cbn [fmap list_fmap validate_from].
  { split; [intros _; repeat constructor | done]. }
  cbn [run_validators run_validator mbind outcome_bind run_lexical slice_bytes default from_option id].
  rewrite (StronglySorted_cons2 bytes_le). unfold bytes_le at 1.
  destruct (Compare p e); simpl; rewrite ?IH; naive_solver.
Qed.

Lemma validate_lexical_nodups es p j i :
  validate_from [LexicalNoDupsV (Some p) j] i (Some <$> es) = Ret None ↔
  StronglySorted bytes_lt (p :: es).
Proof.
  revert p j i. induction es as [|e es IH]; intros p j i; cbn [fmap list_fmap validate_from].
  { split; [intros _; repeat constructor | done]. }
  cbn [run_validators run_validator mbind outcome_bind run_lexical_nodups slice_bytes default from_option id].
  rewrite (StronglySorted_cons2 bytes_lt). unfold bytes_lt at 1.
  destruct (Compare p e); simpl; rewrite ?IH; naive_solver.
Qed.

(** The number of bytes a type denotation takes. *)
Definition denotation_size (den : TypeDenotationType) : option nat :=
  match den with TypeDenotationUint32 => Some 4%nat | TypeDenotationByte => Some 1%nat | _ => None end.

Lemma run_one_of_each_spec den n seen i (e : list byte) :
  denotation_size den = Some n →
  ∃ r, run_one_of_each den seen i (Some e) = Ret r ∧
    (r.2 = None ↔ Z.of_nat n ≤ len e ∧ seen !! le_num (take n e) = None) ∧
    (r.2 = None → r.1 = OneOfEachTypeV den (<[le_num (take n e):=i]> seen)).
Proof.
  intros Hn. unfold run_one_of_each. cbn [slice_bytes default from_option id].
  destruct den; simplify_eq/=; unfold UInt32ByteSize.
  - destruct (Z.ltb_spec (len e) 4); simpl.
    + eexists. split; [done|]. simpl. split; [|done]. split; [done|lia].
    + destruct (seen !! _) eqn:E; (eexists; split; [done|]; simpl; split; [|done]).
      * split; [done|]. intros []. congruence.
      * split; [|done]. intros _. split; [lia|done].
  - unfold len. destruct e as [|b e]; simpl.
    + eexists. split; [done|]. simpl. split; [|done]. split; [done|lia].
    + replace (b2z b + 256 * 0) with (b2z b) by lia.
      destruct (seen !! b2z b) eqn:E; (eexists; split; [done|]; simpl; split; [|done]).
      * split; [done|]. intros []. congruence.
      * split; [|done]. intros _. split; [lia|done].
Qed.

Lemma validate_one_of_each den n es seen i :
  denotation_size den = Some n →
  validate_from [OneOfEachTypeV den seen] i (Some <$> es) = Ret None ↔
  Forall (λ e, Z.of_nat n ≤ len e) es ∧ NoDup ((λ e, le_num (take n e)) <$> es) ∧
  Forall (λ e, seen !! le_num (take n e) = None) es.
Proof.
  intros Hn. revert seen i. induction es as [|e es IH]; intros seen i.
  { split; [intros _; split_and!; constructor | done]. }
  cbn [fmap list_fmap validate_from run_validators run_validator].
  destruct (run_one_of_each_spec den n seen i e Hn) as ([v' [err|]] & -> & H1 & H2); simpl in *.
  { split; [done|]. intros (Hl & _ & Hs). apply Forall_cons in Hl, Hs. naive_solver. }
  rewrite (H2 eq_refl), IH, NoDup_cons, !Forall_cons. clear IH H2.
  destruct H1 as [H1 _]. specialize (H1 eq_refl). rewrite !Forall_forall.
  setoid_rewrite lookup_insert_None. rewrite list_elem_of_fmap. naive_solver.
Qed.

Lemma validators_return vs i elems :
  Forall (λ v, match v with OneOfEachTypeV den _ => denotation_size den ≠ None | _ => True end) vs →
  returns (validate_from vs i (Some <$> elems)).
Proof.
  revert vs i. induction elems as [|e elems IH]; intros vs i Hvs; simpl; [by eexists|].
  enough (∃ vs' err, run_validators vs i (Some e) = Ret (vs', err) ∧
    Forall (λ v, match v with OneOfEachTypeV den _ => denotation_size den ≠ None | _ => True end) vs')
    as (vs' & [err|] & -> & Hvs'); simpl; [by eexists|by apply IH|].
  clear IH. induction Hvs as [|v vs Hv Hvs (vs' & err & IH & Hvs')]; [by exists [], None|].
  cbn [run_validators].
  assert (∃ v' err, run_validator v i (Some e) = Ret (v', err) ∧
    match v' with OneOfEachTypeV den _ => denotation_size den ≠ None | _ => True end)
    as (v' & [err'|] & -> & Hv'); simpl.
  { destruct v as [set|p j|p j|den seen]; cbn [run_validator].
    - unfold run_unique. case_match; by eexists _, _.
    - unfold run_lexical. repeat case_match; by eexists _, _.
    - unfold run_lexical_nodups. repeat case_match; by eexists _, _.
    - destruct (denotation_size den) as [n|] eqn:En; [|done].
      destruct (run_one_of_each_spec den n seen i e En) as ([v' err'] & Hr & _ & _).
      rewrite Hr. eexists _, _. split; [done|].
      revert Hr. unfold run_one_of_each. destruct den; simpl; repeat case_match; simpl;
        intros; simplify_eq/=; repeat case_match; simplify_eq; done. }
  - eexists _, _. split; [done|]. by constructor.
  - rewrite IH. simpl. eexists _, _. split; [done|]. by constructor.
Qed.

(** The first element sets up the order validators. *)
Lemma validate_lexical_all es i :
  validate_from [LexicalOrderValidator] i (Some <$> es) = Ret None ↔ StronglySorted bytes_le es.
Proof.
  destruct es as [|e es]; [split; [constructor|done]|]. apply (validate_lexical es e i).
Qed.

Lemma validate_lexical_nodups_all es i :
  validate_from [LexicalOrderWithoutDupsValidator] i (Some <$> es) = Ret None ↔
  StronglySorted bytes_lt es.
Proof.
  destruct es as [|e es]; [split; [constructor|done]|]. apply (validate_lexical_nodups es e i).
Qed.

Lemma Forall_if_singleton {A} (P : A → Prop) (b : bool) x :
  Forall P (if b then [x] else []) ↔ (b = true → P x).
Proof. destruct b; rewrite ?Forall_singleton, ?Forall_nil; naive_solver. Qed.

Lemma validate_mode mode es :
  validate_from (mode_validators mode) 0 (Some <$> es) = Ret None ↔ array_ok mode es.
Proof.
  rewrite validate_from_Forall. unfold mode_validators, array_ok.
  rewrite !Forall_app, !Forall_if_singleton.
  unfold ElementUniqueValidator, AtMostOneOfEachTypeValidator. rewrite validate_unique.
  rewrite (validate_one_of_each _ 1), (validate_one_of_each _ 4) by done.
  rewrite !Forall_forall. setoid_rewrite lookup_empty.
  destruct (Z.testbit mode 0), (Z.testbit mode 1); simpl;
    rewrite ?validate_lexical_all, ?validate_lexical_nodups_all, ?strictly_sorted;
    naive_solver.
Qed.

Lemma validators_accept {S} (ar : ArrayRules S) (es : list (list byte)) :
  ∃ r, validate_from (ElementValidationFunc ar) 0 (Some <$> es) = Ret r ∧
       (r = None ↔ array_ok (ValidationMode ar) es).
Proof.
  rewrite ElementValidationFunc_validators.
  assert (returns (validate_from (mode_validators (ValidationMode ar)) 0 (Some <$> es))) as [r Hr].
  { apply validators_return. unfold mode_validators.
    repeat case_match; repeat constructor. all: done. }
  exists r. split; [done|]. rewrite <-validate_mode, Hr. naive_solver.
Qed.

(** ** Properties *)

(** C37: the element validator that [ElementValidationFunc] composes never panics, and
    accepts an array of (non-nil) elements, visited in order, exactly when the array obeys
    every rule for which the mode has a bit: no duplicates (bit 0), lexical order (bit 1),
    at most one element per type byte (bit 2) and at most one per uint32 type (bit 3), where
    each element must be at least as long as its type, 1 byte or 4. In particular the
    shortcut taken when both order and uniqueness are demanded is equivalent to checking the
    two. The other four bits of a mode are ignored: [ErrUnknownArrayValidationMode], which
    error.go promises for unknown modes, is never returned ([unknown_modes_ignored]). *)
Theorem ElementValidationFunc_correct {S} (ar : ArrayRules S) (es : list (list byte)) :
  ∃ r, validate_from (ElementValidationFunc ar) 0 (Some <$> es) = Ret r ∧
       (r = None ↔ array_ok (ValidationMode ar) es).
Proof. apply validators_accept. Qed.

(** Unknown bits of a mode are ignored: nothing is checked for them and no error is
    returned, also not [ErrUnknownArrayValidationMode], which is declared for them. *)
Lemma unknown_modes_ignored {S} (ar : ArrayRules S) (es : list (list byte)) :
  Z.land (ValidationMode ar) 15 = 0 → validate_from (ElementValidationFunc ar) 0 (Some <$> es) = Ret None.
Proof.
  intros Hm. destruct (validators_accept ar es) as (r & -> & Hr). f_equal. apply Hr.
  assert (∀ i, 0 ≤ i < 4 → Z.testbit (ValidationMode ar) i = false) as Hbit.
  { intros i Hi. pose proof (Z.land_spec (ValidationMode ar) 15 i) as Hs. rewrite Hm, Z.bits_0 in Hs.
    assert (Z.testbit 15 i = true) as E by (assert (i = 0 ∨ i = 1 ∨ i = 2 ∨ i = 3) as [->|[->|[->| ->]]] by lia; done).
    by rewrite E, andb_true_r in Hs. }
  unfold array_ok. by rewrite !Hbit by lia.
Qed.

(** A nil slice escapes the uniqueness check of the combined validator: an
    array of two nil (empty) elements has duplicates and is accepted when the
    elements are nil slices, while the same array of empty non-nil slices is
    refused. *)
Lemma nil_elements_escape_uniqueness {S} (ar : ArrayRules S) :
  ValidationMode ar = Z.lor ArrayValidationModeNoDuplicates ArrayValidationModeLexicalOrdering →
  validate_from (ElementValidationFunc ar) 0 [None; None] = Ret None ∧
  validate_from (ElementValidationFunc ar) 0 [Some []; Some []] =
    Ret (Some (ErrWrap ErrArrayValidationViolatesUniqueness "element %d and %d are duplicates")).
Proof. intros H. unfold ElementValidationFunc. by rewrite H. Qed.

Lemma nil_elements_escape_uniqueness_witness :
  validate_from (ElementValidationFunc (S:=unit)
    {| Min := 0; Max := 2; MustOccur := ∅;
       Guards := {| ReadGuard := λ _, inl tt; PostReadGuard := None; WriteGuard := None |};
       ValidationMode := 3 |}) 0 [None; None] = Ret None.
Proof. apply (nil_elements_escape_uniqueness (S:=unit)). reflexivity. Defined.
