(* ===== verification/Serializer.v ===== *)
(** * serializer: the Serializer

    The writing half of [src/serializer/serializer.go].  A [Serializer] is its
    buffer and its sticky error; every method is a function from a [Serializer]
    to a [Serializer] (an [outcome] where the code can panic).  Writes to a
    [bytes.Buffer] do not fail, so the branches for their errors do not appear.
    An [ErrProducer] is a function on [option error]: it may rewrite an error
    and may also swallow it by returning nil. *)

From S2P Require Import Prelude Bytes Serializable.

Definition ErrProducer : Type := option error → option error.
Definition ErrProducerWithRWBytes : Type := list byte → option error → option error.

(** [SeriLengthPrefixType] is a byte: its named values and any other. *)
Inductive SeriLengthPrefixType : Type :=
  | SeriLengthPrefixTypeAsByte
  | SeriLengthPrefixTypeAsUint16
  | SeriLengthPrefixTypeAsUint32
  | SeriLengthPrefixTypeAsUint64
  | SeriLengthPrefixTypeOther (v : Z).

Record Serializer : Type := mkSerializer { buf : list byte; s_err : option error }.

Definition NewSerializer : Serializer := {| buf := []; s_err := None |}.

Definition set_err (s : Serializer) (e : option error) : Serializer :=
  {| buf := buf s; s_err := e |}.

Definition write (s : Serializer) (data : list byte) : Serializer :=
  {| buf := buf s ++ data; s_err := s_err s |}.

(** The guard every method starts with: [if s.err != nil { return s }]. *)
Definition when_ok (s : Serializer) (k : outcome Serializer) : outcome Serializer :=
  match s_err s with Some _ => Ret s | None => k end.

(** [bytes.Buffer.Bytes]: nil as long as nothing was written. *)
Definition buffer_Bytes (bs : list byte) : slice := match bs with [] => None | _ => Some bs end.

Definition Serialize (s : Serializer) : slice * option error :=
  match s_err s with
  | Some e => (None, Some e)
  | None => (buffer_Bytes (buf s), None)
  end.

Definition AbortIf (s : Serializer) (errProducer : ErrProducer) : Serializer :=
  match s_err s with
  | Some _ => s
  | None => match errProducer None with Some e => set_err s (Some e) | None => s end
  end.

Definition WithValidation (s : Serializer) (deSeriMode : Z)
    (errProducer : ErrProducerWithRWBytes) : Serializer :=
  match s_err s with
  | Some _ => s
  | None =>
      if negb (HasMode deSeriMode DeSeriModePerformValidation) then s
      else match errProducer (buf s) (s_err s) with
           | Some e => set_err s (Some e)
           | None => s
           end
  end.

(** [Do] runs a callback on the state [W] of its caller. *)
Definition Do {W} (s : Serializer) (f : W → W) (w : W) : Serializer * W :=
  match s_err s with Some _ => (s, w) | None => (s, f w) end.

Definition Written (s : Serializer) : Z := len (buf s).

(** ** Numbers *)

(** The values [binary.Write] and [binary.Read] know: fixed-size integers,
    booleans, floats by their IEEE bits; and values that are not fixed-sized. *)
Inductive num : Type :=
  | NInt (T : ity) (v : Z)
  | NBool (v : bool)
  | NFloat32 (bits : Z)
  | NFloat64 (bits : Z)
  | NNotFixedSize.

Definition ity_bytes (T : ity) : nat :=
  match T with U8 | I8 => 1 | U16 | I16 => 2 | U32 | I32 => 4 | U64 | I64 => 8 end%nat.

(** [binary.Write(w, binary.LittleEndian, v)]: the bytes, or the error. *)
Definition binary_Write (v : num) : list byte + error :=
  match v with
  | NInt T v => inl (le_bytes (ity_bytes T) v)
  | NBool v => inl [if v then x01 else x00]
  | NFloat32 bits => inl (le_bytes 4 bits)
  | NFloat64 bits => inl (le_bytes 8 bits)
  | NNotFixedSize => inr (ErrNew "binary.Write: some values are not fixed-sized in type")
  end.

Definition WriteNum (s : Serializer) (v : num) (errProducer : ErrProducer) : Serializer :=
  match s_err s with
  | Some _ => s
  | None => match binary_Write v with
            | inl bs => write s bs
            | inr e => set_err s (errProducer (Some e))
            end
  end.

(** [big.Int.Bytes]: the minimal big-endian bytes of the absolute value. *)
Definition big_size (z : Z) : nat :=
  if z =? 0 then 0%nat else Z.to_nat (Z.log2 (Z.abs z) / 8 + 1).
Definition big_Bytes (z : Z) : list byte := be_bytes (big_size z) (Z.abs z).

Definition WriteUint256 (s : Serializer) (num : option Z) (errProducer : ErrProducer) : Serializer :=
  match s_err s with
  | Some _ => s
  | None =>
      match num with
      | None => set_err s (errProducer (Some ErrUint256Nil))
      | Some num =>
          if num <? 0 then set_err s (errProducer (Some ErrUint256NumNegative))
          else if len (big_Bytes num) >? UInt256ByteSize then
            set_err s (errProducer (Some ErrUint256TooBig))
          else
            let numBytes := rev (big_Bytes num) in
            let padded := numBytes ++ replicate (32 - length numBytes) x00 in
            write s padded
      end
  end.

Definition WriteBool (s : Serializer) (v : bool) (errProducer : ErrProducer) : Serializer :=
  match s_err s with
  | Some _ => s
  | None => write s [if v then x01 else x00]
  end.

Definition WriteByte (s : Serializer) (data : byte) (errProducer : ErrProducer) : Serializer :=
  match s_err s with Some _ => s | None => write s [data] end.

Definition WriteBytes (s : Serializer) (data : list byte) (errProducer : ErrProducer) : Serializer :=
  match s_err s with Some _ => s | None => write s data end.

(** ** Collections *)

Definition length_error : error :=
  ErrNew "unable to serialize collection length: length %d is out of range (0-%d)".

Definition writeSliceLength (s : Serializer) (l : Z) (lenType : SeriLengthPrefixType)
    (errProducer : ErrProducer) : outcome Serializer :=
  when_ok s
    match lenType with
    | SeriLengthPrefixTypeAsByte =>
        if l >? ity_max U8 then Ret (set_err s (errProducer (Some length_error)))
        else Ret (write s [z2b l])
    | SeriLengthPrefixTypeAsUint16 =>
        if l >? ity_max U16 then Ret (set_err s (errProducer (Some length_error)))
        else Ret (write s (le_bytes 2 l))
    | SeriLengthPrefixTypeAsUint32 =>
        if l >? ity_max U32 then Ret (set_err s (errProducer (Some length_error)))
        else Ret (write s (le_bytes 4 l))
    | _ => Panic "unknown slice length type %v"
    end.

(** The shared body of [WriteVariableByteSlice] and [WriteString]. *)
Definition write_bounded (s : Serializer) (data : list byte) (lenType : SeriLengthPrefixType)
    (errProducer : ErrProducer) (minLen maxLen : Z) (tooLong tooShort : error) : outcome Serializer :=
  when_ok s
    (let sliceLen := len data in
     if (maxLen >? 0) && (sliceLen >? maxLen) then
       Ret (set_err s (errProducer (Some tooLong)))
     else if (minLen >? 0) && (sliceLen <? minLen) then
       Ret (set_err s (errProducer (Some tooShort)))
     else
       s ← writeSliceLength s (len data) lenType errProducer;
       when_ok s (Ret (write s data))).

Definition WriteVariableByteSlice (s : Serializer) (data : list byte)
    (lenType : SeriLengthPrefixType) (errProducer : ErrProducer) (minLen maxLen : Z)
    : outcome Serializer :=
  write_bounded s data lenType errProducer minLen maxLen
    (ErrWrap ErrSliceLengthTooLong "slice (len %d) exceeds max length of %d ")
    (ErrWrap ErrSliceLengthTooShort "slice (len %d) is less than min length of %d ").

Definition WriteString (s : Serializer) (str : list byte)
    (lenType : SeriLengthPrefixType) (errProducer : ErrProducer) (minLen maxLen : Z)
    : outcome Serializer :=
  write_bounded s str lenType errProducer minLen maxLen
    (ErrWrap ErrStringTooLong "string (len %d) exceeds max length of %d ")
    (ErrWrap ErrStringTooShort "string (len %d) is less than min length of %d").

(** [sort.Slice] by [bytes.Compare]: nil and empty elements compare equal, their
    relative order is the stable one here. *)
Definition slice_le (a b : slice) : Prop := bytes_le (slice_bytes a) (slice_bytes b).
#[global] Instance slice_le_dec : RelDecision slice_le := λ a b, bytes_le_dec _ _.
Definition sort_slices (data : list slice) : list slice := merge_sort slice_le data.

(** The loop that validates and writes the elements. *)
Fixpoint write_elements (s : Serializer) (eleValFunc : ElementValidator) (i : Z)
    (data : list slice) (errProducer : ErrProducer) : outcome Serializer :=
  match data with
  | [] => Ret s
  | ele :: data =>
      '(eleValFunc, err) ← run_validators eleValFunc i ele;
      match err with
      | Some e => Ret (set_err s (errProducer (Some e)))
      | None => write_elements (write s (slice_bytes ele)) eleValFunc (i + 1) data errProducer
      end
  end.

Definition WriteSliceOfByteSlices {S} (s : Serializer) (data : list slice) (deSeriMode : Z)
    (lenType : SeriLengthPrefixType) (sliceRules : ArrayRules S) (errProducer : ErrProducer)
    : outcome Serializer :=
  when_ok s
    (let validate := HasMode deSeriMode DeSeriModePerformValidation in
     match (if validate then CheckBounds sliceRules (len data) else None) with
     | Some err => Ret (set_err s (errProducer (Some err)))
     | None =>
         let eleValFunc := if validate then ElementValidationFunc sliceRules else [] in
         s ← writeSliceLength s (len data) lenType errProducer;
         when_ok s
           (let data :=
              if HasMode deSeriMode DeSeriModePerformLexicalOrdering &&
                 HasMode (ValidationMode sliceRules) ArrayValidationModeLexicalOrdering
              then sort_slices data else data in
            write_elements s eleValFunc 0 data errProducer)
     end).

(** ** Objects *)

(** The interface [Serializable]: objects of type [Obj] with their two methods.
    [Ctx] is the type of the context that is passed through. *)
Class Serializable (Obj Ctx : Type) : Type := {
  obj_Serialize : Obj → Z → Ctx → slice * option error;
  obj_Deserialize : Obj → list byte → Z → Ctx → Obj * Z * option error;
}.

Section objects.
Context {Obj Ctx : Type} `{!Serializable Obj Ctx}.

(** What [sourceToSerializables] accepts: a [Serializables], a
    [SerializableSlice] (by its [ToSerializables]), or anything else. *)
Inductive source : Type :=
  | SourceSerializables (x : list Obj)
  | SourceSlice (ToSerializables : list Obj)
  | SourceOther.

Definition sourceToSerializables (src : source) : outcome (list Obj) :=
  match src with
  | SourceSerializables x => Ret x
  | SourceSlice x => Ret x
  | SourceOther => Panic "invalid source: %T"
  end.

(** The loop that guards and serializes each object; [inr] is an early return. *)
Fixpoint serialize_objects (seris : list Obj) (deSeriMode : Z) (deSeriCtx : Ctx)
    (arrayRules : ArrayRules Obj) : list slice + error :=
  match seris with
  | [] => inl []
  | seri :: seris =>
      match (if HasMode deSeriMode DeSeriModePerformValidation then
               match WriteGuard (Guards arrayRules) with
               | Some guard => guard seri
               | None => None
               end
             else None) with
      | Some err => inr err
      | None =>
          match obj_Serialize seri deSeriMode deSeriCtx with
          | (_, Some err) => inr err
          | (ser, None) =>
              match serialize_objects seris deSeriMode deSeriCtx arrayRules with
              | inr err => inr err
              | inl data => inl (ser :: data)
              end
          end
      end
  end.

Definition WriteSliceOfObjects (s : Serializer) (src : source) (deSeriMode : Z) (deSeriCtx : Ctx)
    (lenType : SeriLengthPrefixType) (arrayRules : ArrayRules Obj) (errProducer : ErrProducer)
    : outcome Serializer :=
  when_ok s
    (seris ← sourceToSerializables src;
     match serialize_objects seris deSeriMode deSeriCtx arrayRules with
     | inr err => Ret (set_err s (errProducer (Some err)))
     | inl data => WriteSliceOfByteSlices s data deSeriMode lenType arrayRules errProducer
     end).

Definition WriteObject (s : Serializer) (seri : Obj) (deSeriMode : Z) (deSeriCtx : Ctx)
    (guard : Obj → option error) (errProducer : ErrProducer) : Serializer :=
  match s_err s with
  | Some _ => s
  | None =>
      match (if HasMode deSeriMode DeSeriModePerformValidation then guard seri else None) with
      | Some err => set_err s (errProducer (Some err))
      | None =>
          match obj_Serialize seri deSeriMode deSeriCtx with
          | (_, Some err) => set_err s (errProducer (Some err))
          | (seriBytes, None) => write s (slice_bytes seriBytes)
          end
      end
  end.

Definition writePayloadLength (s : Serializer) (length : Z) : Serializer :=
  write s (le_bytes 4 (Prelude.wrap U32 length)).

(** A nil payload is [None], a nil guard is [None]. *)
Definition WritePayload (s : Serializer) (payload : option Obj) (deSeriMode : Z) (deSeriCtx : Ctx)
    (guard : option (Obj → option error)) (errProducer : ErrProducer) : Serializer :=
  match s_err s with
  | Some _ => s
  | None =>
      match payload with
      | None => writePayloadLength s 0
      | Some payload =>
          match (match guard with Some guard => guard payload | None => None end) with
          | Some err => set_err s (errProducer (Some err))
          | None =>
              match obj_Serialize payload deSeriMode deSeriCtx with
              | (_, Some err) =>
                  set_err s (errProducer (Some (ErrWrap err "unable to serialize payload")))
              | (payloadBytes, None) =>
                  let payloadBytes := slice_bytes payloadBytes in
                  write (writePayloadLength s (len payloadBytes)) payloadBytes
              end
          end
      end
  end.

Definition WritePayloadLength (s : Serializer) (length : Z) (errProducer : ErrProducer) : Serializer :=
  match s_err s with Some _ => s | None => writePayloadLength s length end.

End objects.
Arguments source : clear implicits.

(** ** Time *)

(** A [time.Time] is the number of nanoseconds since the Unix epoch.  [UnixNano]
    documents no result outside of the int64 range; its implementation wraps. *)
Definition time_Unix (t : Z) : Z := t / 1000000000.
Definition time_UnixNano (t : Z) : Z := Prelude.wrap I64 t.

Definition TimeToUint64 (value : Z) : Z :=
  let unixSeconds := time_Unix value in
  let unixNano := time_UnixNano value in
  let unixNano :=
    if unixSeconds >? MaxNanoTimestampInt64Seconds then ity_max I64
    else if (unixSeconds <? 0) || (unixNano <? 0) then 0
    else unixNano in
  Prelude.wrap U64 unixNano.

Definition WriteTime (s : Serializer) (timeToWrite : Z) (errProducer : ErrProducer) : Serializer :=
  match s_err s with
  | Some _ => s
  | None => write s (le_bytes 8 (TimeToUint64 timeToWrite))
  end.

(** The bytes of a number in range give the number back. *)
Lemma num_bytes_range T v :
  in_range T v → Prelude.wrap T (le_num (le_bytes (ity_bytes T) v)) = v.
Proof.
  intros Hv. rewrite le_num_le_bytes.
  destruct (wrap_shift T (v mod 2 ^ (8 * Z.of_nat (ity_bytes T)))) as [k Hk].
  pose proof (wrap_in_range T (v mod 2 ^ (8 * Z.of_nat (ity_bytes T)))) as Hw.
  assert (2 ^ (8 * Z.of_nat (ity_bytes T)) = 2 ^ ity_bits T) as E by (by destruct T).
  rewrite E in *.
  assert (0 < 2 ^ ity_bits T) by (pose proof (ity_bits_pos T); apply Z.pow_pos_nonneg; lia).
  pose proof (Z.div_mod v (2 ^ ity_bits T) ltac:(lia)).
  pose proof (ity_span T). unfold in_range in *.
  generalize dependent (Prelude.wrap T (v mod 2 ^ ity_bits T)). intros w Hk Hw.
  assert (w - v = (k - v / 2 ^ ity_bits T) * 2 ^ ity_bits T) as Hd by lia.
  assert (k - v / 2 ^ ity_bits T = 0) as Hz by nia. rewrite Hz in Hd. lia.
Qed.
