(* ===== verification/Deserializer.v ===== *)
(** * serializer: the Deserializer

    The reading half of [src/serializer/serializer.go].  A [Deserializer] is
    its source, its offset and its sticky error.  A method that writes through
    a pointer returns the value it stored, [None] when it stored nothing.
    Slicing [d.src[d.offset:]] panics when the offset is out of range; the
    capacity of the source is taken to be its length. *)

From S2P Require Import Prelude Bytes Serializable Serializer.

Definition ErrProducerWithLeftOver : Type := Z → option error → option error.

Record Deserializer : Type := mkDeserializer {
  src : list byte;
  offset : Z;
  d_err : option error;
}.

Definition NewDeserializer (src : list byte) : Deserializer :=
  {| src := src; offset := 0; d_err := None |}.

Definition d_set_err (d : Deserializer) (e : option error) : Deserializer :=
  {| src := src d; offset := offset d; d_err := e |}.

(** [d.offset += n] *)
Definition advance (d : Deserializer) (n : Z) : Deserializer :=
  {| src := src d; offset := offset d + n; d_err := d_err d |}.

(** [d.src[d.offset:]] *)
Definition RemainingBytes (d : Deserializer) : outcome (list byte) :=
  if (0 <=? offset d) && (offset d <=? len (src d))
  then Ret (drop (Z.to_nat (offset d)) (src d))
  else Panic "slice bounds out of range".

(** The guard every method starts with; nothing is stored when it returns early. *)
Definition d_when_ok {A} (d : Deserializer) (k : outcome (Deserializer * option A))
    : outcome (Deserializer * option A) :=
  match d_err d with Some _ => Ret (d, None) | None => k end.

Definition Skip (d : Deserializer) (skip : Z) (errProducer : ErrProducer)
    : outcome Deserializer :=
  match d_err d with
  | Some _ => Ret d
  | None =>
      rest ← RemainingBytes d;
      if len rest <? skip then
        Ret (d_set_err d (errProducer (Some ErrDeserializationNotEnoughData)))
      else Ret (advance d skip)
  end.

(** ** Fixed-size values *)

(** [d.src[d.offset : d.offset+n]] where [rest] are the remaining bytes. *)
Definition front (n : Z) (rest : list byte) : list byte := take (Z.to_nat n) rest.

Definition ReadBool (d : Deserializer) (errProducer : ErrProducer)
    : outcome (Deserializer * option bool) :=
  d_when_ok d
    (rest ← RemainingBytes d;
     match rest with
     | [] => Ret (d_set_err d (errProducer (Some ErrDeserializationNotEnoughData)), None)
     | b :: _ =>
         if b2z b =? 0 then Ret (advance d OneByte, Some false)
         else if b2z b =? 1 then Ret (advance d OneByte, Some true)
         else Ret (d_set_err d (errProducer (Some ErrDeserializationInvalidBoolValue)), None)
     end).

Definition ReadByte (d : Deserializer) (errProducer : ErrProducer)
    : outcome (Deserializer * option byte) :=
  d_when_ok d
    (rest ← RemainingBytes d;
     match rest with
     | [] => Ret (d_set_err d (errProducer (Some ErrDeserializationNotEnoughData)), None)
     | b :: _ => Ret (advance d OneByte, Some b)
     end).

Definition ReadUint256 (d : Deserializer) (errProducer : ErrProducer)
    : outcome (Deserializer * option Z) :=
  d_when_ok d
    (rest ← RemainingBytes d;
     if len rest <? UInt256ByteSize then
       Ret (d_set_err d (errProducer (Some ErrDeserializationNotEnoughData)), None)
     else
       let source := rev (front UInt256ByteSize rest) in
       (* [new(big.Int).SetBytes]: an unsigned big-endian number *)
       Ret (advance d UInt256ByteSize, Some (be_num source))).

(** The dynamic types of [dest] that [numSize] and [ReadNum] tell apart. *)
Inductive num_dest : Type :=
  | PtrInt (T : ity)
  | PtrBool
  | PtrFloat32
  | PtrFloat64
  | NotPointer (v : num)
  | OtherDest.

Definition numSize (data : num_dest) : outcome Z :=
  match data with
  | PtrInt (U8 | I8) | PtrBool | NotPointer (NInt (U8 | I8) _) | NotPointer (NBool _) => Ret OneByte
  | PtrInt I16 | NotPointer (NInt I16 _) => Ret Int16ByteSize
  | PtrInt U16 | NotPointer (NInt U16 _) => Ret UInt16ByteSize
  | PtrInt I32 | NotPointer (NInt I32 _) => Ret Int32ByteSize
  | PtrInt U32 | NotPointer (NInt U32 _) => Ret UInt32ByteSize
  | PtrInt I64 | NotPointer (NInt I64 _) => Ret Int64ByteSize
  | PtrInt U64 | NotPointer (NInt U64 _) => Ret UInt64ByteSize
  | PtrFloat32 | NotPointer (NFloat32 _) => Ret Float32ByteSize
  | PtrFloat64 | NotPointer (NFloat64 _) => Ret Float64ByteSize
  | NotPointer NNotFixedSize | OtherDest => Panic "unsupported numSize type %T"
  end.

Definition ReadNum (d : Deserializer) (dest : num_dest) (errProducer : ErrProducer)
    : outcome (Deserializer * option num) :=
  d_when_ok d
    (rest ← RemainingBytes d;
     dataSize ← numSize dest;
     if len rest <? dataSize then
       Ret (d_set_err d (errProducer (Some ErrDeserializationNotEnoughData)), None)
     else
       let data := front dataSize rest in
       x ← match dest with
           | PtrInt T => Ret (NInt T (Prelude.wrap T (le_num data)))
           | PtrFloat32 => Ret (NFloat32 (le_num data))
           | PtrFloat64 => Ret (NFloat64 (le_num data))
           | _ => Panic "unsupported ReadNum type %T"
           end;
       Ret (advance d dataSize, Some x)).

(** [make([]byte, n)] panics for a negative length. *)
Definition make_bytes (n : Z) : outcome (list byte) :=
  if n <? 0 then Panic "makeslice: len out of range" else Ret (replicate (Z.to_nat n) x00).

(** [copy(dest, source)] *)
Definition copy_bytes (dest source : list byte) : list byte :=
  take (length dest) source ++ drop (length source) dest.

Definition ReadBytes (d : Deserializer) (numBytes : Z) (errProducer : ErrProducer)
    : outcome (Deserializer * option (list byte)) :=
  d_when_ok d
    (rest ← RemainingBytes d;
     if len rest <? numBytes then
       Ret (d_set_err d (errProducer (Some ErrDeserializationNotEnoughData)), None)
     else
       dest ← make_bytes numBytes;
       Ret (advance d numBytes, Some (copy_bytes dest (front numBytes rest)))).

Definition ReadBytesInPlace (d : Deserializer) (slice : list byte) (errProducer : ErrProducer)
    : outcome (Deserializer * option (list byte)) :=
  d_when_ok d
    (let numBytes := len slice in
     rest ← RemainingBytes d;
     if len rest <? numBytes then
       Ret (d_set_err d (errProducer (Some ErrDeserializationNotEnoughData)), None)
     else Ret (advance d numBytes, Some (copy_bytes slice (front numBytes rest)))).

(** ** Variable-size values *)

(** The length and the error it returns. *)
Definition readSliceLength (d : Deserializer) (lenType : SeriLengthPrefixType)
    (errProducer : ErrProducer) : outcome (Deserializer * Z * option error) :=
  rest ← RemainingBytes d;
  let l := len rest in
  let not_enough := Ret (d, 0, errProducer (Some ErrDeserializationNotEnoughData)) in
  match lenType with
  | SeriLengthPrefixTypeAsByte =>
      if l <? OneByte then not_enough
      else Ret (advance d OneByte, le_num (front OneByte rest), None)
  | SeriLengthPrefixTypeAsUint16 =>
      if l <? UInt16ByteSize then not_enough
      else Ret (advance d UInt16ByteSize, le_num (front UInt16ByteSize rest), None)
  | SeriLengthPrefixTypeAsUint32 =>
      if l <? UInt32ByteSize then not_enough
      else Ret (advance d UInt32ByteSize, le_num (front UInt32ByteSize rest), None)
  | _ => Panic "unknown slice length type %v"
  end.

(** The switch that records a bound violation and falls through. *)
Definition check_length_bounds (d : Deserializer) (l minLen maxLen : Z) (errProducer : ErrProducer)
    (msgMax msgMin : string) : Deserializer :=
  if (maxLen >? 0) && (l >? maxLen) then
    d_set_err d (errProducer (Some (ErrWrap ErrDeserializationLengthMaxExceeded msgMax)))
  else if (minLen >? 0) && (l <? minLen) then
    d_set_err d (errProducer (Some (ErrWrap ErrDeserializationLengthMinNotReached msgMin)))
  else d.

Definition ReadVariableByteSlice (d : Deserializer) (lenType : SeriLengthPrefixType)
    (errProducer : ErrProducer) (minLen maxLen : Z)
    : outcome (Deserializer * option (list byte)) :=
  d_when_ok d
    ('(d, sliceLength, err) ← readSliceLength d lenType errProducer;
     match err with
     | Some e => Ret (d_set_err d (Some e), None)
     | None =>
         let d := check_length_bounds d sliceLength minLen maxLen errProducer
                    "denoted %d bytes, max allowed %d " "denoted %d bytes, min required %d " in
         dest ← make_bytes sliceLength;
         if sliceLength =? 0 then Ret (d, Some dest)
         else
           rest ← RemainingBytes d;
           if len rest <? sliceLength then
             Ret (d_set_err d (errProducer (Some ErrDeserializationNotEnoughData)), None)
           else
             Ret (advance d sliceLength, Some (copy_bytes dest (front sliceLength rest)))
     end).

Definition ReadString (d : Deserializer) (lenType : SeriLengthPrefixType)
    (errProducer : ErrProducer) (minLen maxLen : Z)
    : outcome (Deserializer * option (list byte)) :=
  d_when_ok d
    ('(d, strLen, err) ← readSliceLength d lenType errProducer;
     match err with
     | Some e => Ret (d_set_err d (Some e), None)
     | None =>
         let d := check_length_bounds d strLen minLen maxLen errProducer
                    "string defined to be of %d bytes length but max %d is allowed"
                    "string defined to be of %d bytes length but min %d is required" in
         rest ← RemainingBytes d;
         if len rest <? strLen then
           Ret (d_set_err d (errProducer (Some
             (ErrWrap ErrDeserializationNotEnoughData "data is smaller than (%d) denoted string length of %d"))), None)
         else Ret (advance d strLen, Some (front strLen rest))
     end).

(** ** Time *)

Definition ReadTime (d : Deserializer) (errProducer : ErrProducer)
    : outcome (Deserializer * option Z) :=
  d_when_ok d
    (rest ← RemainingBytes d;
     let remainingLen := len rest in
     if remainingLen <? UInt64ByteSize then
       Ret (d_set_err d (errProducer (Some ErrDeserializationNotEnoughData)), None)
     else
       let nanoseconds := le_num (front UInt64ByteSize rest) in
       let nanoseconds :=
         if nanoseconds / 1000000000 >? MaxNanoTimestampInt64Seconds then ity_max I64
         else nanoseconds in
       (* [time.Unix(0, int64(nanoseconds))] *)
       Ret (advance d UInt64ByteSize, Some (Prelude.wrap I64 nanoseconds))).

(** ** Objects *)

Definition GetObjectType (d : Deserializer) (typeDen : TypeDenotationType)
    : outcome (Z * option error) :=
  rest ← RemainingBytes d;
  let l := len rest in
  match typeDen with
  | TypeDenotationUint32 =>
      if l <? UInt32ByteSize then Ret (0, Some ErrDeserializationNotEnoughData)
      else Ret (le_num (front 4 rest), None)
  | TypeDenotationByte =>
      if l <? OneByte then Ret (0, Some ErrDeserializationNotEnoughData)
      else Ret (le_num (front 1 rest), None)
  | TypeDenotationNone => Ret (0, None)
  | TypeDenotationOther _ => Ret (0, None)
  end.

(** The dynamic type of a [target] for one object. *)
Inductive target : Type :=
  | TargetSerializable
  | TargetFunc
  | TargetPointer (assignable : bool)
  | TargetNotPointer.

(** Storing the object; returns what was stored. *)
Definition readSerializableIntoTarget {Obj} (t : target) (s : Obj) : outcome Obj :=
  match t with
  | TargetSerializable | TargetFunc => Ret s
  | TargetPointer true => Ret s
  | TargetPointer false => Panic "reflect.Set: value is not assignable to type"
  | TargetNotPointer => Panic "target parameter must be pointer or Serializable"
  end.

(** The dynamic type of a [target] for a slice of objects. *)
Inductive slice_target : Type := SliceTargetFunc | SliceTargetSlice | SliceTargetOther.

Definition readSerializablesIntoTarget {Obj} (t : slice_target) (seris : list Obj)
    : outcome (list Obj) :=
  match t with
  | SliceTargetFunc | SliceTargetSlice => Ret seris
  | SliceTargetOther => Panic "invalid target"
  end.

Section objects.
Context {Obj Ctx : Type} `{!Serializable Obj Ctx}.

Definition readObject (d : Deserializer) (t : target) (deSeriMode : Z) (deSeriCtx : Ctx)
    (typeDen : TypeDenotationType) (serSel : Z → Obj + error) (errProducer : ErrProducer)
    : outcome (Deserializer * option Obj * Z) :=
  match d_err d with
  | Some _ => Ret (d, None, 0)
  | None =>
      '(ty, err) ← GetObjectType d typeDen;
      match err with
      | Some e => Ret (d_set_err d (errProducer (Some e)), None, 0)
      | None =>
          match serSel ty with
          | inr e => Ret (d_set_err d (errProducer (Some e)), None, 0)
          | inl seri =>
              rest ← RemainingBytes d;
              match obj_Deserialize seri rest deSeriMode deSeriCtx with
              | (_, _, Some e) => Ret (d_set_err d (errProducer (Some e)), None, 0)
              | (seri, bytesConsumed, None) =>
                  stored ← readSerializableIntoTarget t seri;
                  Ret (advance d bytesConsumed, Some stored, ty)
              end
          end
      end
  end.

Definition ReadObject (d : Deserializer) (t : target) (deSeriMode : Z) (deSeriCtx : Ctx)
    (typeDen : TypeDenotationType) (serSel : Z → Obj + error) (errProducer : ErrProducer)
    : outcome (Deserializer * option Obj) :=
  '(d, o, _) ← readObject d t deSeriMode deSeriCtx typeDen serSel errProducer;
  Ret (d, o).

(** ** Sequences *)

(** [DeserializeFunc]: a closure over the state [St]; it gets the remaining
    bytes and returns how many it read, or an error. *)
Definition DeserializeFunc (St : Type) : Type := St → list byte → outcome (St * (Z * option error)).

(** [srcBefore[:bytesRead]] *)
Definition prefix_bytes (srcBefore : list byte) (bytesRead : Z) : outcome (list byte) :=
  if (0 <=? bytesRead) && (bytesRead <=? len srcBefore)
  then Ret (take (Z.to_nat bytesRead) srcBefore)
  else Panic "slice bounds out of range".

(** [for i := range sliceLength]: [n] iterations are left. *)
Fixpoint read_items {St} (n : nat) (i : Z) (d : Deserializer) (st : St)
    (itemDeserializer : DeserializeFunc St) (arrayElementValidator : ElementValidator)
    (errProducer : ErrProducer) : outcome (Deserializer * St) :=
  match n with
  | O => Ret (d, st)
  | S n =>
      srcBefore ← RemainingBytes d;
      '(st, (bytesRead, err)) ← itemDeserializer st srcBefore;
      match err with
      | Some e => Ret (d_set_err d (errProducer (Some e)), st)
      | None =>
          let d := advance d bytesRead in
          match arrayElementValidator with
          | [] => read_items n (i + 1) d st itemDeserializer [] errProducer
          | _ :: _ =>
              ele ← prefix_bytes srcBefore bytesRead;
              '(arrayElementValidator, err) ← run_validators arrayElementValidator i (Some ele);
              match err with
              | Some e => Ret (d_set_err d (errProducer (Some e)), st)
              | None => read_items n (i + 1) d st itemDeserializer arrayElementValidator errProducer
              end
          end
      end
  end.

Definition ReadSequenceOfObjects {St} (d : Deserializer) (st : St)
    (itemDeserializer : DeserializeFunc St) (deSeriMode : Z) (lenType : SeriLengthPrefixType)
    (arrayRules : ArrayRules Obj) (errProducer : ErrProducer) : outcome (Deserializer * St) :=
  match d_err d with
  | Some _ => Ret (d, st)
  | None =>
      '(d, sliceLength, err) ← readSliceLength d lenType errProducer;
      match err with
      | Some e => Ret (d_set_err d (Some e), st)
      | None =>
          let validate := HasMode deSeriMode DeSeriModePerformValidation in
          match (if validate then CheckBounds arrayRules sliceLength else None) with
          | Some e => Ret (d_set_err d (errProducer (Some e)), st)
          | None =>
              let arrayElementValidator :=
                if validate then ElementValidationFunc arrayRules else [] in
              if sliceLength =? 0 then Ret (d, st)
              else read_items (Z.to_nat sliceLength) 0 d st itemDeserializer
                     arrayElementValidator errProducer
          end
      end
  end.

(** The variables [deserializeItem] captures: [seris] (an object is nil when an
    error producer swallowed the error of reading it) and [seenTypes]. *)
Definition items_state : Type := list (option Obj) * gset Z.

Definition deserializeItem (deSeriMode : Z) (deSeriCtx : Ctx) (typeDen : TypeDenotationType)
    (arrayRules : ArrayRules Obj) (errProducer : ErrProducer) : DeserializeFunc items_state :=
  λ '(seris, seenTypes) b,
    let subDeseri := NewDeserializer b in
    '(subDeseri, seri, ty) ← readObject subDeseri TargetFunc deSeriMode deSeriCtx typeDen
                               (ReadGuard (Guards arrayRules)) errProducer;
    let '(bytesRead, err) := (offset subDeseri, d_err subDeseri) in
    match err with
    | Some e => Ret ((seris, seenTypes), (0, Some e))
    | None =>
        let validate := HasMode deSeriMode DeSeriModePerformValidation in
        let seenTypes := if validate then {[ty]} ∪ seenTypes else seenTypes in
        match (if validate then
                 match PostReadGuard (Guards arrayRules) with
                 | Some guard => guard seri
                 | None => None
                 end
               else None) with
        | Some e => Ret ((seris, seenTypes), (0, Some e))
        | None => Ret ((seris ++ [seri], seenTypes), (bytesRead, None))
        end
    end.

Definition ReadSliceOfObjects (d : Deserializer) (t : slice_target) (deSeriMode : Z)
    (deSeriCtx : Ctx) (lenType : SeriLengthPrefixType) (typeDen : TypeDenotationType)
    (arrayRules : ArrayRules Obj) (errProducer : ErrProducer)
    : outcome (Deserializer * option (list (option Obj))) :=
  d_when_ok d
    ('(d, (seris, seenTypes)) ←
       ReadSequenceOfObjects d ([], ∅)
         (deserializeItem deSeriMode deSeriCtx typeDen arrayRules errProducer)
         deSeriMode lenType arrayRules errProducer;
     match d_err d with
     | Some _ => Ret (d, None)
     | None =>
         if HasMode deSeriMode DeSeriModePerformValidation &&
            negb (Subset (MustOccur arrayRules) seenTypes)
         then Ret (d_set_err d (errProducer (Some
                (ErrWrap ErrArrayValidationTypesNotOccurred "should %v, has %v"))), None)
         else match seris with
              | [] => Ret (d, None)
              | _ :: _ =>
                  stored ← readSerializablesIntoTarget t seris;
                  Ret (d, Some stored)
              end
     end).

(** ** Payloads *)

Definition ReadPayloadLength (d : Deserializer) : outcome (Deserializer * Z * option error) :=
  rest ← RemainingBytes d;
  if len rest <? PayloadLengthByteSize then
    Ret (d, 0, Some (ErrWrap ErrDeserializationNotEnoughData
                       "data is smaller than payload length denotation"))
  else Ret (advance d PayloadLengthByteSize, le_num (front 4 rest), None).

Definition ReadPayload (d : Deserializer) (t : target) (deSeriMode : Z) (deSeriCtx : Ctx)
    (sel : Z → Obj + error) (errProducer : ErrProducer)
    : outcome (Deserializer * option Obj) :=
  d_when_ok d
    ('(d, payloadLength, err) ← ReadPayloadLength d;
     match err with
     | Some e => Ret (d_set_err d (errProducer (Some e)), None)
     | None =>
         if payloadLength =? 0 then Ret (d, None)
         else
           rest ← RemainingBytes d;
           if len rest <? MinPayloadByteSize then
             Ret (d_set_err d (errProducer (Some (ErrWrap ErrDeserializationNotEnoughData
                    "payload data is smaller than min. required length %d"))), None)
           else if len rest <? payloadLength then
             Ret (d_set_err d (errProducer (Some (ErrWrap ErrDeserializationNotEnoughData
                    "payload length denotes more bytes than are available"))), None)
           else
             match sel (le_num (front 4 rest)) with
             | inr e => Ret (d_set_err d (errProducer (Some e)), None)
             | inl payload =>
                 match obj_Deserialize payload rest deSeriMode deSeriCtx with
                 | (_, _, Some e) => Ret (d_set_err d (errProducer (Some e)), None)
                 | (payload, payloadBytesConsumed, None) =>
                     if negb (payloadBytesConsumed =? payloadLength) then
                       Ret (d_set_err d (errProducer (Some (ErrWrap ErrInvalidBytes
                              "denoted payload length (%d) doesn't equal the size of deserialized payload (%d)"))), None)
                     else
                       stored ← readSerializableIntoTarget t payload;
                       Ret (advance d payloadBytesConsumed, Some stored)
                 end
             end
     end).

End objects.

(** ** Control *)

Definition d_AbortIf (d : Deserializer) (errProducer : ErrProducer) : Deserializer :=
  match d_err d with
  | Some _ => d
  | None => match errProducer None with Some e => d_set_err d (Some e) | None => d end
  end.

Definition d_WithValidation (d : Deserializer) (deSeriMode : Z)
    (errProducer : ErrProducerWithRWBytes) : outcome Deserializer :=
  match d_err d with
  | Some _ => Ret d
  | None =>
      if negb (HasMode deSeriMode DeSeriModePerformValidation) then Ret d
      else
        read ← prefix_bytes (src d) (offset d);
        Ret match errProducer read (d_err d) with
            | Some e => d_set_err d (Some e)
            | None => d
            end
  end.

Definition CheckTypePrefix (d : Deserializer) (prefix : Z) (prefixType : TypeDenotationType)
    (errProducer : ErrProducer) : outcome Deserializer :=
  match d_err d with
  | Some _ => Ret d
  | None =>
      match prefixType with
      | TypeDenotationUint32 =>
          rest ← RemainingBytes d;
          match CheckType rest prefix with
          | Some e => Ret (d_set_err d (errProducer (Some e)))
          | None => Skip d UInt32ByteSize (λ err, err)
          end
      | TypeDenotationByte =>
          rest ← RemainingBytes d;
          match CheckTypeByte rest (Prelude.wrap U8 prefix) with
          | Some e => Ret (d_set_err d (errProducer (Some e)))
          | None => Skip d OneByte (λ err, err)
          end
      | _ => Panic "invalid type prefix in CheckTypePrefix()"
      end
  end.

Definition d_Do {W} (d : Deserializer) (f : W → W) (w : W) : Deserializer * W :=
  match d_err d with Some _ => (d, w) | None => (d, f w) end.

Definition ConsumedAll (d : Deserializer) (errProducer : ErrProducerWithLeftOver)
    : outcome Deserializer :=
  match d_err d with
  | Some _ => Ret d
  | None =>
      if negb (len (src d) =? offset d) then
        rest ← RemainingBytes d;
        Ret (d_set_err d (errProducer (len rest) (Some ErrDeserializationNotAllConsumed)))
      else Ret d
  end.

Definition Done (d : Deserializer) : Z * option error := (offset d, d_err d).
