(* ===== verification/SerializerFields.v ===== *)
(** * serializer: round trips and safety of fields

    Sequences of fields written with the methods of [Serializer] and read back
    with those of [Deserializer].  A [shape] says which pair of methods handles
    a field; [write_fields] and [read_fields] are the method chains of a client. *)

From S2P Require Import Prelude Bytes Serializable Serializer Deserializer.

(** ** Shapes and values *)

Inductive shape : Type :=
  | ShNum (dest : num_dest)
  | ShBool
  | ShByte
  | ShUint256
  | ShBytes (n : Z)
  | ShVarBytes (lenType : SeriLengthPrefixType) (minLen maxLen : Z)
  | ShString (lenType : SeriLengthPrefixType) (minLen maxLen : Z)
  | ShTime.

Inductive val : Type :=
  | VNum (v : num)
  | VBool (v : bool)
  | VByte (v : byte)
  | VUint256 (v : Z)
  | VBytes (v : list byte)
  | VTime (v : Z).

(** The write method of a field; [None] for a value of another kind. *)
Definition write_field (ep : ErrProducer) (s : Serializer) (sh : shape) (v : val)
    : option (outcome Serializer) :=
  match sh, v with
  | ShNum _, VNum v => Some (Ret (WriteNum s v ep))
  | ShBool, VBool v => Some (Ret (WriteBool s v ep))
  | ShByte, VByte v => Some (Ret (WriteByte s v ep))
  | ShUint256, VUint256 v => Some (Ret (WriteUint256 s (Some v) ep))
  | ShBytes _, VBytes v => Some (Ret (WriteBytes s v ep))
  | ShVarBytes lt mn mx, VBytes v => Some (WriteVariableByteSlice s v lt ep mn mx)
  | ShString lt mn mx, VBytes v => Some (WriteString s v lt ep mn mx)
  | ShTime, VTime v => Some (Ret (WriteTime s v ep))
  | _, _ => None
  end.

Definition with_val {A} (f : A → val) (m : outcome (Deserializer * option A))
    : outcome (Deserializer * option val) :=
  '(d, o) ← m; Ret (d, option_map f o).

(** The read method of a field. *)
Definition read_field (ep : ErrProducer) (d : Deserializer) (sh : shape)
    : outcome (Deserializer * option val) :=
  match sh with
  | ShNum dest => with_val VNum (ReadNum d dest ep)
  | ShBool => with_val VBool (ReadBool d ep)
  | ShByte => with_val VByte (ReadByte d ep)
  | ShUint256 => with_val VUint256 (ReadUint256 d ep)
  | ShBytes n => with_val VBytes (ReadBytes d n ep)
  | ShVarBytes lt mn mx => with_val VBytes (ReadVariableByteSlice d lt ep mn mx)
  | ShString lt mn mx => with_val VBytes (ReadString d lt ep mn mx)
  | ShTime => with_val VTime (ReadTime d ep)
  end.

Fixpoint write_fields (ep : ErrProducer) (s : Serializer) (fs : list (shape * val))
    : option (outcome Serializer) :=
  match fs with
  | [] => Some (Ret s)
  | (sh, v) :: fs =>
      m ← write_field ep s sh v;
      match m with
      | Ret s => write_fields ep s fs
      | Panic msg => Some (Panic msg)
      end
  end.

(** The chain of reads, with every value that was stored. *)
Fixpoint read_fields (ep : ErrProducer) (d : Deserializer) (shs : list shape)
    : outcome (Deserializer * list (option val)) :=
  match shs with
  | [] => Ret (d, [])
  | sh :: shs =>
      '(d, o) ← read_field ep d sh;
      '(d, os) ← read_fields ep d shs;
      Ret (d, o :: os)
  end.

(** ** Well-formed fields *)

(** The largest length a prefix type can denote; [None] for the types the
    serializer does not support. *)
Definition prefix_bound (lt : SeriLengthPrefixType) : option Z :=
  match lt with
  | SeriLengthPrefixTypeAsByte => Some (ity_max U8)
  | SeriLengthPrefixTypeAsUint16 => Some (ity_max U16)
  | SeriLengthPrefixTypeAsUint32 => Some (ity_max U32)
  | _ => None
  end.

Definition prefix_size (lt : SeriLengthPrefixType) : nat :=
  match lt with
  | SeriLengthPrefixTypeAsByte => 1
  | SeriLengthPrefixTypeAsUint16 => 2
  | SeriLengthPrefixTypeAsUint32 => 4
  | _ => 0
  end%nat.

(** The length obeys the optional bounds and fits the prefix. *)
Definition length_ok (lt : SeriLengthPrefixType) (minLen maxLen l : Z) : Prop :=
  (0 < maxLen → l ≤ maxLen) ∧ (0 < minLen → minLen ≤ l) ∧
  ∃ b, prefix_bound lt = Some b ∧ l ≤ b.

Definition field_ok (sh : shape) (v : val) : Prop :=
  match sh, v with
  | ShNum (PtrInt T), VNum (NInt T' v) => T = T' ∧ in_range T v
  | ShNum PtrFloat32, VNum (NFloat32 bits) => 0 ≤ bits < 2 ^ 32
  | ShNum PtrFloat64, VNum (NFloat64 bits) => 0 ≤ bits < 2 ^ 64
  | ShBool, VBool _ => True
  | ShByte, VByte _ => True
  | ShUint256, VUint256 v => 0 ≤ v < 2 ^ 256
  | ShBytes n, VBytes v => len v = n
  | ShVarBytes lt mn mx, VBytes v => length_ok lt mn mx (len v)
  | ShString lt mn mx, VBytes v => length_ok lt mn mx (len v)
  | ShTime, VTime v => 0 ≤ v ≤ ity_max I64
  | _, _ => False
  end.

(** Shapes a deserializer can be asked for without a programming error. *)
Definition shape_ok (sh : shape) : Prop :=
  match sh with
  | ShNum (PtrInt _ | PtrFloat32 | PtrFloat64) => True
  | ShNum _ => False
  | ShBytes n => 0 ≤ n
  | ShVarBytes lt _ _ | ShString lt _ _ => prefix_bound lt ≠ None
  | _ => True
  end.

(** The encoding of a well-formed field. *)
Definition field_bytes (sh : shape) (v : val) : list byte :=
  match sh, v with
  | ShNum _, VNum (NInt T v) => le_bytes (ity_bytes T) v
  | ShNum _, VNum (NFloat32 bits) => le_bytes 4 bits
  | ShNum _, VNum (NFloat64 bits) => le_bytes 8 bits
  | ShBool, VBool v => [if v then x01 else x00]
  | ShByte, VByte v => [v]
  | ShUint256, VUint256 v => le_bytes 32 v
  | ShBytes _, VBytes v => v
  | ShVarBytes lt _ _, VBytes v => le_bytes (prefix_size lt) (len v) ++ v
  | ShString lt _ _, VBytes v => le_bytes (prefix_size lt) (len v) ++ v
  | ShTime, VTime v => le_bytes 8 v
  | _, _ => []
  end.

(** ** Writing *)

(** A state that has written [bs] without an error. *)
Definition wrote (s : Serializer) (bs : list byte) : Serializer :=
  {| buf := buf s ++ bs; s_err := None |}.

Lemma len_le_bytes n z : len (le_bytes n z) = Z.of_nat n.
Proof. unfold len. by rewrite length_le_bytes. Qed.

Lemma write_ok s bs : s_err s = None → write s bs = wrote s bs.
Proof. intros H. unfold write, wrote. by rewrite H. Qed.

Lemma writeSliceLength_ok s l lt b ep :
  s_err s = None → prefix_bound lt = Some b → l ≤ b →
  writeSliceLength s l lt ep = Ret (wrote s (le_bytes (prefix_size lt) l)).
Proof.
  intros Hs Hb Hl. unfold writeSliceLength, when_ok. rewrite Hs.
  destruct lt; simplify_eq/=; rewrite Z.gtb_ltb, (proj2 (Z.ltb_ge _ _)) by lia;
    by rewrite write_ok.
Qed.

Lemma write_bounded_ok s data lt ep mn mx e1 e2 :
  s_err s = None → length_ok lt mn mx (len data) →
  write_bounded s data lt ep mn mx e1 e2 =
    Ret (wrote s (le_bytes (prefix_size lt) (len data) ++ data)).
Proof.
  intros Hs (Hmx & Hmn & b & Hb & Hl). unfold write_bounded, when_ok. rewrite Hs.
  cbv zeta. rewrite !Z.gtb_ltb.
  destruct (Z.ltb_spec 0 mx), (Z.ltb_spec mx (len data)); try lia;
  destruct (Z.ltb_spec 0 mn), (Z.ltb_spec (len data) mn); try lia; cbn [andb];
    rewrite (writeSliceLength_ok _ _ _ b) by done; simpl; unfold write, wrote; simpl;
    by rewrite <-app_assoc.
Qed.

(** The minimal bytes of a number, reversed and padded, are its 32 little-endian bytes. *)
Lemma big_size_fits z : 0 ≤ z → z < 2 ^ (8 * Z.of_nat (big_size z)).
Proof.
  intros Hz. unfold big_size. destruct (Z.eqb_spec z 0) as [->|Hz0]; [simpl; lia|].
  rewrite Z.abs_eq by done. pose proof (Z.log2_spec z ltac:(lia)) as [_ H].
  eapply Z.lt_le_trans; [exact H|]. apply Z.pow_le_mono_r; [lia|].
  pose proof (Z.log2_nonneg z).
  assert (0 ≤ Z.log2 z / 8) by (apply Z.div_pos; lia).
  rewrite Z2Nat.id by lia. pose proof (Z.div_mod (Z.log2 z) 8 ltac:(lia)).
  pose proof (Z.mod_pos_bound (Z.log2 z) 8 ltac:(lia)). lia.
Qed.

Lemma big_size_le z n : 0 ≤ z → z < 2 ^ (8 * Z.of_nat n) → (big_size z ≤ n)%nat.
Proof.
  intros Hz Hlt. unfold big_size. destruct (Z.eqb_spec z 0) as [->|Hz0]; [lia|].
  rewrite Z.abs_eq by done.
  assert (Z.log2 z < 8 * Z.of_nat n) by (apply Z.log2_lt_pow2; lia).
  assert (Z.log2 z / 8 < Z.of_nat n) by (apply Z.div_lt_upper_bound; lia).
  pose proof (Z.div_pos (Z.log2 z) 8 (Z.log2_nonneg z) ltac:(lia)). lia.
Qed.

Lemma le_bytes_zero n : le_bytes n 0 = replicate n x00.
Proof. induction n as [|n IH]; [done|]. cbn [le_bytes replicate]. change (0 / 256) with 0. by rewrite IH. Qed.

Lemma le_bytes_pad n m z :
  0 ≤ z < 2 ^ (8 * Z.of_nat n) → le_bytes (n + m) z = le_bytes n z ++ replicate m x00.
Proof.
  revert z. induction n as [|n IH]; intros z Hz.
  - simpl in *. assert (z = 0) as -> by lia. apply le_bytes_zero.
  - cbn [le_bytes Nat.add app]. f_equal. apply IH. rewrite pow256_succ in Hz.
    split; [apply Z.div_pos; lia | apply Z.div_lt_upper_bound; lia].
Qed.

Lemma WriteUint256_ok s z ep :
  s_err s = None → 0 ≤ z < 2 ^ 256 → WriteUint256 s (Some z) ep = wrote s (le_bytes 32 z).
Proof.
  intros Hs Hz. unfold WriteUint256. rewrite Hs.
  rewrite (proj2 (Z.ltb_ge z 0)) by lia.
  pose proof (big_size_le z 32 ltac:(lia) ltac:(simpl; lia)) as Hsz.
  assert (len (big_Bytes z) = Z.of_nat (big_size z)) as Hlen.
  { unfold len, big_Bytes. by rewrite length_be_bytes. }
  rewrite Hlen, Z.gtb_ltb, (proj2 (Z.ltb_ge _ _)) by (unfold UInt256ByteSize; lia).
  rewrite write_ok by done. f_equal. unfold big_Bytes, be_bytes.
  rewrite rev_involutive, length_le_bytes, Z.abs_eq by lia.
  rewrite <-le_bytes_pad.
  - f_equal. lia.
  - split; [lia|]. apply big_size_fits. lia.
Qed.

Lemma TimeToUint64_exact t : 0 ≤ t ≤ ity_max I64 → TimeToUint64 t = t.
Proof.
  intros Ht. unfold TimeToUint64, time_Unix, time_UnixNano. cbv zeta.
  assert (t / 1000000000 ≤ MaxNanoTimestampInt64Seconds).
  { unfold MaxNanoTimestampInt64Seconds. rewrite Z.quot_div_nonneg by (ity_consts; lia).
    apply Z.div_le_mono; lia. }
  assert (0 ≤ t / 1000000000) by (apply Z.div_pos; lia).
  rewrite (wrap_id I64) by (ity_consts; lia).
  rewrite Z.gtb_ltb, (proj2 (Z.ltb_ge _ _)) by lia.
  rewrite (proj2 (Z.ltb_ge _ 0)), (proj2 (Z.ltb_ge t 0)) by lia. cbn [orb].
  apply wrap_id. ity_consts. lia.
Qed.

Lemma write_field_ok ep s sh v :
  s_err s = None → field_ok sh v →
  write_field ep s sh v = Some (Ret (wrote s (field_bytes sh v))).
Proof.
  intros Hs Hv.
  destruct sh as [dest| | | |n|lt mn mx|lt mn mx|], v as [v|v|v|v|v|v];
    try done; try (by destruct dest); simpl in *.
  - destruct dest, v; simpl in *; try done; unfold WriteNum; rewrite Hs; simpl;
      by rewrite write_ok.
  - unfold WriteBool. by rewrite Hs, write_ok.
  - unfold WriteByte. by rewrite Hs, write_ok.
  - by rewrite WriteUint256_ok.
  - unfold WriteBytes. by rewrite Hs, write_ok.
  - unfold WriteVariableByteSlice. by rewrite write_bounded_ok.
  - unfold WriteString. by rewrite write_bounded_ok.
  - unfold WriteTime. by rewrite Hs, write_ok, TimeToUint64_exact.
Qed.

(** The encoding of a sequence of fields. *)
Definition fields_bytes (fs : list (shape * val)) : list byte :=
  concat ((λ f, field_bytes f.1 f.2) <$> fs).

Lemma write_fields_ok ep s fs :
  s_err s = None → Forall (λ f, field_ok f.1 f.2) fs →
  write_fields ep s fs = Some (Ret (wrote s (fields_bytes fs))).
Proof.
  intros Hs Hfs. revert s Hs. induction Hfs as [|[sh v] fs Hf Hfs IH]; intros s Hs.
  { simpl. unfold wrote. simpl. rewrite app_nil_r. destruct s; simpl in *. by subst. }
  cbn [write_fields]. rewrite (write_field_ok ep s sh v) by done. simpl.
  rewrite IH by done. unfold wrote. simpl. by rewrite <-app_assoc.
Qed.

(** ** Reading *)

(** The deserializer stands in front of [rest] without an error. *)
Definition reads_at (d : Deserializer) (rest : list byte) : Prop :=
  d_err d = None ∧ ∃ pre, src d = pre ++ rest ∧ offset d = len pre.

Lemma RemainingBytes_at d rest : reads_at d rest → RemainingBytes d = Ret rest.
Proof.
  intros (_ & pre & Hsrc & Hoff). unfold RemainingBytes. rewrite Hsrc, Hoff, len_app.
  pose proof (len_nonneg pre). pose proof (len_nonneg rest).
  rewrite !(proj2 (Z.leb_le _ _)) by lia. simpl. f_equal.
  unfold len. rewrite Nat2Z.id. apply drop_app_length.
Qed.

Lemma reads_at_advance d a b n : reads_at d (a ++ b) → n = len a → reads_at (advance d n) b.
Proof.
  intros (He & pre & Hsrc & Hoff) ->. split; [done|].
  exists (pre ++ a). simpl. rewrite Hsrc, Hoff, len_app, <-app_assoc. done.
Qed.

Lemma front_app a b n : n = len a → front n (a ++ b) = a.
Proof. intros ->. unfold front, len. by rewrite Nat2Z.id, take_app_length. Qed.

Lemma copy_bytes_same dest source : length dest = length source → copy_bytes dest source = source.
Proof.
  intros H. unfold copy_bytes. rewrite H, firstn_all.
  rewrite drop_ge by lia. apply app_nil_r.
Qed.

(** Lengths are not negative. *)
Ltac pose_lens :=
  repeat match goal with
  | |- context [len ?x] =>
      lazymatch goal with H : 0 ≤ len x |- _ => fail | _ => pose proof (len_nonneg x) end
  | _ : context [len ?x] |- _ =>
      lazymatch goal with H : 0 ≤ len x |- _ => fail | _ => pose proof (len_nonneg x) end
  end.

(** Reading [n] bytes that are there, for the methods of the form
    "check the length, decode the front, advance". *)
Ltac read_front Hd :=
  rewrite (RemainingBytes_at _ _ Hd); cbn [mbind outcome_bind]; rewrite ?len_app;
  cbv [OneByte UInt256ByteSize UInt64ByteSize UInt16ByteSize UInt32ByteSize];
  rewrite (proj2 (Z.ltb_ge _ _)) by (rewrite ?len_le_bytes; pose_lens; lia).

Lemma numSize_ok T : numSize (PtrInt T) = Ret (Z.of_nat (ity_bytes T)).
Proof. by destruct T. Qed.

Lemma ReadNum_int d T v ep post :
  reads_at d (le_bytes (ity_bytes T) v ++ post) → in_range T v →
  ReadNum d (PtrInt T) ep = Ret (advance d (Z.of_nat (ity_bytes T)), Some (NInt T v)).
Proof.
  intros Hd Hv. pose proof (proj1 Hd) as He. unfold ReadNum, d_when_ok. rewrite He.
  rewrite (RemainingBytes_at _ _ Hd), numSize_ok. cbn [mbind outcome_bind].
  rewrite len_app, len_le_bytes, (proj2 (Z.ltb_ge _ _)) by (pose proof (len_nonneg post); lia).
  rewrite front_app by (by rewrite len_le_bytes). by rewrite num_bytes_range.
Qed.

Lemma readSliceLength_at d lt l b ep post :
  reads_at d (le_bytes (prefix_size lt) l ++ post) → prefix_bound lt = Some b → 0 ≤ l ≤ b →
  readSliceLength d lt ep = Ret (advance d (Z.of_nat (prefix_size lt)), l, None).
Proof.
  intros Hd Hb Hl. unfold readSliceLength.
  destruct lt; try done; injection Hb as <-; cbv [prefix_size] in *; read_front Hd;
    (rewrite front_app by (by rewrite len_le_bytes)); (rewrite le_roundtrip; [done|]);
    (split; [lia|]); (eapply Z.le_lt_trans; [apply Hl|reflexivity]).
Qed.

Lemma check_length_bounds_ok d l mn mx lt ep m1 m2 :
  length_ok lt mn mx l → check_length_bounds d l mn mx ep m1 m2 = d.
Proof.
  intros (Hmx & Hmn & _). unfold check_length_bounds. rewrite !Z.gtb_ltb.
  destruct (Z.ltb_spec 0 mx), (Z.ltb_spec mx l); try lia;
    destruct (Z.ltb_spec 0 mn), (Z.ltb_spec l mn); try lia; done.
Qed.

Lemma make_bytes_len (v : list byte) : make_bytes (len v) = Ret (replicate (length v) x00).
Proof.
  unfold make_bytes, len. rewrite (proj2 (Z.ltb_ge _ 0)) by lia. by rewrite Nat2Z.id.
Qed.

Lemma advance_advance d a b : advance (advance d a) b = advance d (a + b).
Proof. unfold advance. simpl. f_equal. lia. Qed.

Lemma ReadVariableByteSlice_at d lt mn mx v ep post :
  reads_at d (le_bytes (prefix_size lt) (len v) ++ v ++ post) → length_ok lt mn mx (len v) →
  ReadVariableByteSlice d lt ep mn mx =
    Ret (advance d (Z.of_nat (prefix_size lt) + len v), Some v).
Proof.
  intros Hd Hl. pose proof (proj1 Hd) as He. destruct Hl as (? & ? & b & Hb & ?) eqn:E. clear E.
  unfold ReadVariableByteSlice, d_when_ok. rewrite He.
  rewrite (readSliceLength_at _ _ (len v) b _ _ Hd) by (pose proof (len_nonneg v); done).
  cbn [mbind outcome_bind]. rewrite (check_length_bounds_ok _ _ _ _ lt) by (split_and!; eauto).
  rewrite make_bytes_len. cbn [mbind outcome_bind].
  apply (reads_at_advance _ _ _ (Z.of_nat (prefix_size lt))) in Hd; [|by rewrite len_le_bytes].
  destruct (Z.eqb_spec (len v) 0) as [E|E].
  { destruct v; [|done]. simpl. by rewrite Z.add_0_r. }
  read_front Hd. rewrite front_app by done.
  rewrite copy_bytes_same by (by rewrite length_replicate). by rewrite advance_advance.
Qed.

Lemma ReadString_at d lt mn mx v ep post :
  reads_at d (le_bytes (prefix_size lt) (len v) ++ v ++ post) → length_ok lt mn mx (len v) →
  ReadString d lt ep mn mx = Ret (advance d (Z.of_nat (prefix_size lt) + len v), Some v).
Proof.
  intros Hd Hl. pose proof (proj1 Hd) as He. destruct Hl as (? & ? & b & Hb & ?) eqn:E. clear E.
  unfold ReadString, d_when_ok. rewrite He.
  rewrite (readSliceLength_at _ _ (len v) b _ _ Hd) by (pose proof (len_nonneg v); done).
  cbn [mbind outcome_bind]. rewrite (check_length_bounds_ok _ _ _ _ lt) by (split_and!; eauto).
  apply (reads_at_advance _ _ _ (Z.of_nat (prefix_size lt))) in Hd; [|by rewrite len_le_bytes].
  read_front Hd. rewrite front_app by done. by rewrite advance_advance.
Qed.

Lemma ReadTime_at d t ep post :
  reads_at d (le_bytes 8 t ++ post) → 0 ≤ t ≤ ity_max I64 →
  ReadTime d ep = Ret (advance d 8, Some t).
Proof.
  intros Hd Ht. pose proof (proj1 Hd) as He. unfold ReadTime, d_when_ok. rewrite He.
  read_front Hd. rewrite front_app by (by rewrite len_le_bytes).
  rewrite le_roundtrip by (split; [lia|]; eapply Z.le_lt_trans; [apply Ht|reflexivity]).
  assert (t / 1000000000 ≤ MaxNanoTimestampInt64Seconds).
  { unfold MaxNanoTimestampInt64Seconds. rewrite Z.quot_div_nonneg by (ity_consts; lia).
    apply Z.div_le_mono; lia. }
  rewrite Z.gtb_ltb, (proj2 (Z.ltb_ge _ _)) by lia.
  rewrite wrap_id by (ity_consts; lia). done.
Qed.

Lemma read_field_at ep d sh v post :
  field_ok sh v → reads_at d (field_bytes sh v ++ post) →
  read_field ep d sh = Ret (advance d (len (field_bytes sh v)), Some v).
Proof.
  intros Hv Hd. pose proof (proj1 Hd) as He.
  destruct sh as [dest| | | |n|lt mn mx|lt mn mx|], v as [v|v|v|v|v|v];
    try done; try (by destruct dest); cbn [field_bytes read_field] in *;
    rewrite ?len_app, ?len_le_bytes.
  - destruct dest as [T| | | | |], v as [T' v| | | |]; try done; cbn [field_ok] in Hv.
    + destruct Hv as [<- Hv]. rewrite len_le_bytes. by rewrite (ReadNum_int d T v ep post).
    + unfold ReadNum, d_when_ok. rewrite He, (RemainingBytes_at _ _ Hd). cbn [mbind outcome_bind numSize].
      rewrite len_app, len_le_bytes, (proj2 (Z.ltb_ge _ _)) by (cbv [Float32ByteSize]; pose_lens; lia).
      rewrite front_app by (by rewrite len_le_bytes). by rewrite le_roundtrip.
    + unfold ReadNum, d_when_ok. rewrite He, (RemainingBytes_at _ _ Hd). cbn [mbind outcome_bind numSize].
      rewrite len_app, len_le_bytes, (proj2 (Z.ltb_ge _ _)) by (cbv [Float64ByteSize]; pose_lens; lia).
      rewrite front_app by (by rewrite len_le_bytes). by rewrite le_roundtrip.
  - unfold ReadBool, d_when_ok. rewrite He, (RemainingBytes_at _ _ Hd). by destruct v.
  - unfold ReadByte, d_when_ok. by rewrite He, (RemainingBytes_at _ _ Hd).
  - unfold ReadUint256, d_when_ok. rewrite He. read_front Hd.
    rewrite front_app by (by rewrite len_le_bytes). unfold be_num.
    rewrite rev_involutive, le_roundtrip; [done|]. simpl in Hv. done.
  - unfold ReadBytes, d_when_ok. rewrite He. simpl in Hv. subst n. read_front Hd.
    rewrite make_bytes_len, front_app by done. simpl.
    by rewrite copy_bytes_same by (by rewrite length_replicate).
  - rewrite <-app_assoc in Hd. by rewrite (ReadVariableByteSlice_at _ _ _ _ v _ _ Hd).
  - rewrite <-app_assoc in Hd. by rewrite (ReadString_at _ _ _ _ v _ _ Hd).
  - by rewrite (ReadTime_at d v ep post).
Qed.

Lemma advance_0 d : advance d 0 = d.
Proof. destruct d. unfold advance. simpl. by rewrite Z.add_0_r. Qed.

Lemma read_fields_at ep d fs post :
  Forall (λ f, field_ok f.1 f.2) fs → reads_at d (fields_bytes fs ++ post) →
  read_fields ep d fs.*1 = Ret (advance d (len (fields_bytes fs)), Some <$> fs.*2).
Proof.
  intros Hfs. revert d. induction Hfs as [|[sh v] fs Hf Hfs IH]; intros d Hd.
  { simpl. by rewrite advance_0. }
  unfold fields_bytes in *. cbn [fmap list_fmap concat fst snd] in *.
  rewrite <-app_assoc in Hd. cbn [read_fields].
  rewrite (read_field_at ep d sh v _ Hf Hd). cbn [mbind outcome_bind].
  rewrite IH by (by eapply reads_at_advance). cbn [mbind outcome_bind].
  by rewrite advance_advance, len_app.
Qed.

(** ** Safety on arbitrary input *)

(** The offset stays inside the source. *)
Definition d_ok (d : Deserializer) : Prop := 0 ≤ offset d ≤ len (src d).

(** The error producer does not turn an error into nil. *)
Definition keeps_errors (ep : ErrProducer) : Prop := ∀ e, ep (Some e) ≠ None.

Lemma RemainingBytes_d_ok d :
  d_ok d → ∃ rest, RemainingBytes d = Ret rest ∧ len rest = len (src d) - offset d.
Proof.
  intros [H1 H2]. unfold RemainingBytes. rewrite !(proj2 (Z.leb_le _ _)) by lia.
  eexists. split; [done|]. unfold len in *. rewrite length_drop. lia.
Qed.

(** The outcome of a read on any input: no panic, the source is untouched, the
    offset stays in range and does not move back, and a value is missing only
    when an error is recorded. *)
Definition read_safe {A} (ep : ErrProducer) (d : Deserializer)
    (m : outcome (Deserializer * option A)) : Prop :=
  ∃ d' o, m = Ret (d', o) ∧ d_ok d' ∧ src d' = src d ∧ offset d ≤ offset d' ∧
    (keeps_errors ep → o = None → d_err d' ≠ None).

Lemma read_safe_fail {A} ep d d' e :
  d_ok d' → src d' = src d → offset d ≤ offset d' →
  read_safe (A:=A) ep d (Ret (d_set_err d' (ep (Some e)), None)).
Proof.
  intros H1 H2 H3. eexists _, None. split; [done|]. simpl. by split_and!.
Qed.

Lemma read_safe_value {A} ep d d' n (v : A) :
  src d' = src d → offset d ≤ offset d' → d_ok d' → 0 ≤ n ≤ len (src d') - offset d' →
  read_safe ep d (Ret (advance d' n, Some v)).
Proof.
  intros Hs Ho Hd Hn. eexists _, _. split; [done|]. unfold d_ok in *. simpl.
  split_and!; try done; try lia.
Qed.

Lemma read_safe_when_ok {A} ep d (k : outcome (Deserializer * option A)) :
  d_ok d → (d_err d = None → read_safe ep d k) → read_safe ep d (d_when_ok d k).
Proof.
  intros Hd Hk. unfold d_when_ok. destruct (d_err d) as [e|] eqn:E; [|by apply Hk].
  eexists _, _. split; [done|]. split_and!; try done; try lia. congruence.
Qed.

(** Start of a safety proof: the guard, then the remaining bytes. *)
Ltac safe_start d Hd :=
  apply read_safe_when_ok; [done|]; intros _;
  let rest := fresh "rest" in let Hr := fresh "Hr" in let Hlen := fresh "Hlen" in
  destruct (RemainingBytes_d_ok d Hd) as (rest & Hr & Hlen);
  rewrite ?Hr; cbn [mbind outcome_bind].

Ltac safe_end :=
  first [ apply read_safe_fail; done || lia
        | apply read_safe_value; try done; try lia ].

Lemma readSliceLength_safe d lt ep :
  d_ok d → prefix_bound lt ≠ None →
  ∃ d' l err, readSliceLength d lt ep = Ret (d', l, err) ∧
    d_ok d' ∧ src d' = src d ∧ offset d ≤ offset d' ∧ d_err d' = d_err d ∧ 0 ≤ l.
Proof.
  intros Hd Hlt. destruct (RemainingBytes_d_ok d Hd) as (rest & Hr & Hlen).
  unfold readSliceLength. rewrite Hr. cbn [mbind outcome_bind]. unfold d_ok in *.
  destruct lt; try done; cbv [OneByte UInt16ByteSize UInt32ByteSize];
    (match goal with |- context [len rest <? ?k] => destruct (Z.ltb_spec (len rest) k) end);
    (eexists _, _, _; split; [done|]); simpl; split_and!; try done; try lia; apply le_num_range.
Qed.

Lemma check_length_bounds_safe d l mn mx ep m1 m2 :
  d_err d = None →
  let d' := check_length_bounds d l mn mx ep m1 m2 in
  src d' = src d ∧ offset d' = offset d ∧
  (keeps_errors ep → d_err d' = None → (0 < mx → l ≤ mx) ∧ (0 < mn → mn ≤ l)).
Proof.
  intros He. unfold check_length_bounds. rewrite !Z.gtb_ltb.
  destruct (Z.ltb_spec 0 mx), (Z.ltb_spec mx l), (Z.ltb_spec 0 mn), (Z.ltb_spec l mn);
    simpl; split_and!; try done; intros Hk H'; try lia; by destruct (Hk _ H').
Qed.

Lemma make_bytes_nonneg n : 0 ≤ n → make_bytes n = Ret (replicate (Z.to_nat n) x00).
Proof. intros. unfold make_bytes. by rewrite (proj2 (Z.ltb_ge n 0)) by lia. Qed.

(** The common end of [ReadVariableByteSlice] and [ReadString]: the prefix was
    read into [d1], the value is read from [d2]. *)
Lemma read_var_safe {A} ep d d2 l (e : error) (f : list byte → A) :
  d_ok d2 → src d2 = src d → offset d ≤ offset d2 → 0 ≤ l →
  read_safe ep d
    (rest ← RemainingBytes d2;
     if len rest <? l then Ret (d_set_err d2 (ep (Some e)), None)
     else Ret (advance d2 l, Some (f rest))).
Proof.
  intros Hd2 Hs Ho Hl. destruct (RemainingBytes_d_ok d2 Hd2) as (rest & -> & Hlen).
  cbn [mbind outcome_bind]. destruct (Z.ltb_spec (len rest) l).
  - by apply read_safe_fail.
  - apply read_safe_value; try done. lia.
Qed.

Lemma with_val_safe {A} ep d (f : A → val) m : read_safe ep d m → read_safe ep d (with_val f m).
Proof.
  intros (d' & o & -> & ? & ? & ? & Ho). simpl. eexists _, _. split; [done|].
  split_and!; try done. intros Hk Hn. apply Ho; [done|]. by destruct o.
Qed.

Lemma ReadVariableByteSlice_safe ep d lt mn mx :
  d_ok d → prefix_bound lt ≠ None → read_safe ep d (ReadVariableByteSlice d lt ep mn mx).
Proof.
  intros Hd Hlt. unfold ReadVariableByteSlice. apply read_safe_when_ok; [done|]. intros He.
  destruct (readSliceLength_safe d lt ep Hd Hlt) as (d1 & l & [e|] & -> & Hd1 & Hs & Ho & He1 & Hl);
    cbn [mbind outcome_bind].
  { eexists _, _. split; [done|]. simpl. split_and!; done. }
  rewrite He in He1.
  pose proof (check_length_bounds_safe d1 l mn mx ep "denoted %d bytes, max allowed %d "
    "denoted %d bytes, min required %d " He1) as (Hs2 & Ho2 & _).
  revert Hs2 Ho2. generalize (check_length_bounds d1 l mn mx ep "denoted %d bytes, max allowed %d "
    "denoted %d bytes, min required %d ") as d2. intros d2 Hs2 Ho2.
  assert (d_ok d2) by (unfold d_ok in *; rewrite Hs2, Ho2; lia).
  rewrite make_bytes_nonneg by done. cbn [mbind outcome_bind].
  destruct (Z.eqb_spec l 0).
  - eexists _, _. split; [done|]. by split_and!; try congruence.
  - apply (read_var_safe ep d d2 l _ (λ rest, copy_bytes (replicate (Z.to_nat l) x00) (front l rest)));
      try done; [congruence | lia].
Qed.

Lemma ReadString_safe ep d lt mn mx :
  d_ok d → prefix_bound lt ≠ None → read_safe ep d (ReadString d lt ep mn mx).
Proof.
  intros Hd Hlt. unfold ReadString. apply read_safe_when_ok; [done|]. intros He.
  destruct (readSliceLength_safe d lt ep Hd Hlt) as (d1 & l & [e|] & -> & Hd1 & Hs & Ho & He1 & Hl);
    cbn [mbind outcome_bind].
  { eexists _, _. split; [done|]. simpl. split_and!; done. }
  rewrite He in He1.
  pose proof (check_length_bounds_safe d1 l mn mx ep
    "string defined to be of %d bytes length but max %d is allowed"
    "string defined to be of %d bytes length but min %d is required" He1) as (Hs2 & Ho2 & _).
  apply (read_var_safe ep d _ l _ (front l)); try done; [|congruence|lia].
  unfold d_ok in *. rewrite Hs2, Ho2. lia.
Qed.

Lemma read_field_safe ep d sh : d_ok d → shape_ok sh → read_safe ep d (read_field ep d sh).
Proof.
  intros Hd Hsh. destruct sh as [dest| | | |n|lt mn mx|lt mn mx|]; apply with_val_safe.
  - unfold ReadNum. safe_start d Hd.
    destruct dest as [T| | | | |]; try done; [rewrite numSize_ok|..]; cbn [mbind outcome_bind numSize];
      (match goal with |- context [len rest <? ?k] => destruct (Z.ltb_spec (len rest) k) end);
      safe_end; cbv [Float32ByteSize Float64ByteSize] in *; lia.
  - unfold ReadBool. safe_start d Hd. destruct rest as [|b rest]; [safe_end|].
    cbv [OneByte]. unfold len at 1 in Hlen. simpl in Hlen.
    destruct (_ =? 0); [safe_end|]. destruct (_ =? 1); safe_end.
  - unfold ReadByte. safe_start d Hd. destruct rest as [|b rest]; [safe_end|].
    cbv [OneByte]. unfold len at 1 in Hlen. simpl in Hlen. safe_end.
  - unfold ReadUint256. safe_start d Hd. cbv [UInt256ByteSize].
    destruct (Z.ltb_spec (len rest) 32); safe_end.
  - unfold ReadBytes. safe_start d Hd. simpl in Hsh. destruct (Z.ltb_spec (len rest) n); [safe_end|].
    rewrite make_bytes_nonneg by done. cbn [mbind outcome_bind]. safe_end.
  - by apply ReadVariableByteSlice_safe.
  - by apply ReadString_safe.
  - unfold ReadTime. safe_start d Hd. cbv [UInt64ByteSize].
    destruct (Z.ltb_spec (len rest) 8); safe_end.
Qed.

(** ** The sticky error *)

Lemma read_field_sticky ep d sh : d_err d ≠ None → read_field ep d sh = Ret (d, None).
Proof.
  intros He. destruct (d_err d) as [e|] eqn:E; [|done].
  destruct sh; cbn [read_field];
    unfold ReadNum, ReadBool, ReadByte, ReadUint256, ReadBytes, ReadVariableByteSlice, ReadString,
      ReadTime, d_when_ok; by rewrite E.
Qed.

Lemma read_fields_sticky ep d shs :
  d_err d ≠ None → ∃ os, read_fields ep d shs = Ret (d, os).
Proof.
  intros He. induction shs as [|sh shs [os IH]]; [by eexists|].
  cbn [read_fields]. rewrite read_field_sticky by done. cbn [mbind outcome_bind].
  rewrite IH. by eexists.
Qed.

Lemma read_fields_safe ep d shs :
  d_ok d → Forall shape_ok shs →
  ∃ d' os, read_fields ep d shs = Ret (d', os) ∧ d_ok d' ∧ src d' = src d ∧
    offset d ≤ offset d' ∧ length os = length shs ∧
    (keeps_errors ep → d_err d' = None → Forall is_Some os).
Proof.
  intros Hd Hsh. revert d Hd. induction Hsh as [|sh shs Hs Hsh IH]; intros d Hd.
  { eexists _, _. split; [done|]. by split_and!. }
  destruct (read_field_safe ep d sh Hd Hs) as (d1 & o & E & Hd1 & Hs1 & Ho1 & Hv).
  destruct (IH d1 Hd1) as (d2 & os & E2 & Hd2 & Hs2 & Ho2 & Hl & Hf).
  eexists _, (o :: os). cbn [read_fields]. rewrite E. cbn [mbind outcome_bind]. rewrite E2.
  split; [done|]. split_and!; try done; [congruence|lia|simpl; by rewrite Hl|].
  intros Hk Herr. constructor; [|by apply Hf].
  destruct o as [v|]; [done|]. specialize (Hv Hk eq_refl).
  destruct (read_fields_sticky ep d1 shs Hv) as (os' & E3).
  rewrite E2 in E3. by simplify_eq.
Qed.

(** ** Properties *)

(** C4: fields round trip.  For every list of well-formed fields, the chain of
    write methods on a new [Serializer] succeeds and [Serialize] returns the
    concatenated encodings (a nil slice when there are none); the matching chain of read methods on these bytes,
    followed by any other bytes, stores exactly the values that were written,
    consumes exactly the bytes that were written and records no error. *)
Theorem fields_roundtrip ep fs tail :
  Forall (λ f, field_ok f.1 f.2) fs →
  (∃ s, write_fields ep NewSerializer fs = Some (Ret s) ∧
    Serialize s = (buffer_Bytes (fields_bytes fs), None)) ∧
  (∃ d, read_fields ep (NewDeserializer (fields_bytes fs ++ tail)) fs.*1 =
      Ret (d, Some <$> fs.*2) ∧
    Done d = (len (fields_bytes fs), None)).
Proof.
  intros Hfs. split.
  - eexists. by rewrite write_fields_ok.
  - eexists. rewrite (read_fields_at ep _ fs tail Hfs); [done|].
    split; [done|]. by exists [].
Qed.

(** A packet with a counter, a flag, a bounded name and a time stamp. *)
Definition sample_fields : list (shape * val) :=
  [(ShNum (PtrInt I32), VNum (NInt I32 (-5))); (ShBool, VBool true);
   (ShString SeriLengthPrefixTypeAsByte 1 4, VBytes [x61; x62]);
   (ShUint256, VUint256 (2 ^ 200 + 7)); (ShTime, VTime 1700000000000000000)].

Lemma fields_roundtrip_witness :
  ∃ d, read_fields (λ e, e) (NewDeserializer (fields_bytes sample_fields ++ [x00])) sample_fields.*1 =
      Ret (d, Some <$> sample_fields.*2) ∧ Done d = (48, None).
Proof.
  apply (fields_roundtrip (λ e, e) sample_fields [x00]).
  repeat constructor; simpl; try lia; try done.
  exists 255. by split.
Defined.

(** Reading is total and in bounds on untrusted input.  For any source bytes
    and any shapes without a programming error, the chain of read methods returns
    (it never panics), leaves the source alone and its offset inside the source;
    if no error is recorded at the end, every field was stored. *)
Lemma read_fields_total ep bytes shs :
  Forall shape_ok shs →
  ∃ d os, read_fields ep (NewDeserializer bytes) shs = Ret (d, os) ∧
    src d = bytes ∧ 0 ≤ offset d ≤ len bytes ∧ length os = length shs ∧
    (keeps_errors ep → d_err d = None → Forall is_Some os).
Proof.
  intros Hsh. assert (d_ok (NewDeserializer bytes)) as Hd.
  { split; simpl; [lia|]. apply len_nonneg. }
  destruct (read_fields_safe ep _ shs Hd Hsh) as (d & os & E & Hd' & Hs & _ & Hl & Hf).
  exists d, os. unfold d_ok in Hd'. rewrite Hs in Hd'. destruct Hd'. by split_and!.
Qed.

Lemma read_fields_total_witness :
  ∃ d os, read_fields (λ e, e) (NewDeserializer [x03; xff]) [ShByte; ShBool] = Ret (d, os) ∧
    src d = [x03; xff] ∧ 0 ≤ offset d ≤ 2 ∧ length os = 2%nat ∧
    (keeps_errors (λ e, e) → d_err d = None → Forall is_Some os).
Proof. apply (read_fields_total (λ e, e) [x03; xff] [ShByte; ShBool]). repeat constructor. Defined.

(** ** Length bounds *)

(** The verdict on a length: above the maximum, below the minimum (a bound that
    is not positive does not count), or nothing. *)
Definition bound_verdict (minLen maxLen l : Z) (tooLong tooShort : error) : option error :=
  if bool_decide (0 < maxLen ∧ maxLen < l) then Some tooLong
  else if bool_decide (0 < minLen ∧ l < minLen) then Some tooShort
  else None.

Lemma bound_verdict_None mn mx l e1 e2 :
  bound_verdict mn mx l e1 e2 = None ↔ (0 < mx → l ≤ mx) ∧ (0 < mn → mn ≤ l).
Proof.
  unfold bound_verdict. repeat case_bool_decide; split; try done; intros; lia.
Qed.

(** The error a verdict leaves behind. *)
Definition recorded (ep : ErrProducer) (verdict : option error) : option error :=
  e ← verdict; ep (Some e).

(** What reading a value of the denoted length [l], [n] bytes of prefix after
    the offset, must come to: the value is stored when the source holds it,
    whatever the verdict on its length; otherwise the complaint about missing
    data takes the place of the verdict. *)
Definition read_result (ep : ErrProducer) (d : Deserializer) (n l : Z) (rest : list byte)
    (verdict : option error) (missing : error) : Deserializer * option (list byte) :=
  if bool_decide (l ≤ len rest) then
    ({| src := src d; offset := offset d + n + l; d_err := recorded ep verdict |},
     Some (front l rest))
  else ({| src := src d; offset := offset d + n; d_err := ep (Some missing) |}, None).

Lemma check_length_bounds_verdict d l mn mx ep m1 m2 :
  d_err d = None →
  check_length_bounds d l mn mx ep m1 m2 =
  d_set_err d (recorded ep (bound_verdict mn mx l
    (ErrWrap ErrDeserializationLengthMaxExceeded m1) (ErrWrap ErrDeserializationLengthMinNotReached m2))).
Proof.
  intros He. unfold check_length_bounds, bound_verdict, recorded. rewrite !Z.gtb_ltb.
  destruct (Z.ltb_spec 0 mx), (Z.ltb_spec mx l), (Z.ltb_spec 0 mn), (Z.ltb_spec l mn);
    repeat case_bool_decide; try lia; try done; destruct d; simpl in *; by subst.
Qed.

Lemma readSliceLength_split d lt pre rest ep :
  reads_at d (pre ++ rest) → prefix_bound lt ≠ None → length pre = prefix_size lt →
  readSliceLength d lt ep = Ret (advance d (len pre), le_num pre, None).
Proof.
  intros Hd Hlt Hp. unfold readSliceLength.
  assert (len pre = Z.of_nat (prefix_size lt)) as Hn by (unfold len; lia).
  destruct lt; try done; cbv [prefix_size] in *; read_front Hd;
    (rewrite front_app by lia); by rewrite Hn.
Qed.

Lemma readSliceLength_missing d lt rest ep :
  reads_at d rest → prefix_bound lt ≠ None → len rest < Z.of_nat (prefix_size lt) →
  readSliceLength d lt ep = Ret (d, 0, ep (Some ErrDeserializationNotEnoughData)).
Proof.
  intros Hd Hlt Hn. unfold readSliceLength. rewrite (RemainingBytes_at _ _ Hd). cbn [mbind outcome_bind].
  destruct lt; try done; cbv [prefix_size OneByte UInt16ByteSize UInt32ByteSize] in *;
    by rewrite (proj2 (Z.ltb_lt _ _)) by lia.
Qed.

(** The copy of the denoted bytes is the denoted bytes. *)
Lemma copy_front l rest :
  0 ≤ l ≤ len rest → copy_bytes (replicate (Z.to_nat l) x00) (front l rest) = front l rest.
Proof.
  intros Hl. apply copy_bytes_same. unfold len, front in *.
  rewrite length_replicate, length_take. lia.
Qed.

Lemma RemainingBytes_set_err d e : RemainingBytes (d_set_err d e) = RemainingBytes d.
Proof. done. Qed.

(** [ReadVariableByteSlice] on a prefix that is there. *)
Lemma ReadVariableByteSlice_result d lt ep mn mx pre rest :
  reads_at d (pre ++ rest) → prefix_bound lt ≠ None → length pre = prefix_size lt →
  ReadVariableByteSlice d lt ep mn mx = Ret (read_result ep d (len pre) (le_num pre) rest
    (bound_verdict mn mx (le_num pre)
       (ErrWrap ErrDeserializationLengthMaxExceeded "denoted %d bytes, max allowed %d ")
       (ErrWrap ErrDeserializationLengthMinNotReached "denoted %d bytes, min required %d "))
    ErrDeserializationNotEnoughData).
Proof.
  intros Hd Hlt Hp. pose proof (proj1 Hd) as He. pose proof (le_num_range pre) as [Hl _].
  pose proof (reads_at_advance d pre rest (len pre) Hd eq_refl) as Hd1.
  unfold ReadVariableByteSlice, d_when_ok. rewrite He, (readSliceLength_split d lt pre rest) by done.
  cbn [mbind outcome_bind]. rewrite check_length_bounds_verdict by done.
  rewrite make_bytes_nonneg by done. cbn [mbind outcome_bind].
  rewrite RemainingBytes_set_err, (RemainingBytes_at _ _ Hd1). cbn [mbind outcome_bind].
  unfold read_result. destruct (Z.eqb_spec (le_num pre) 0) as [Hz|].
  - rewrite Hz, bool_decide_true by apply len_nonneg. f_equal. unfold advance, d_set_err. simpl.
    by rewrite Z.add_0_r.
  - destruct (Z.ltb_spec (len rest) (le_num pre)).
    + by rewrite bool_decide_false by lia.
    + by rewrite bool_decide_true, copy_front by lia.
Qed.

Lemma ReadString_result d lt ep mn mx pre rest :
  reads_at d (pre ++ rest) → prefix_bound lt ≠ None → length pre = prefix_size lt →
  ReadString d lt ep mn mx = Ret (read_result ep d (len pre) (le_num pre) rest
    (bound_verdict mn mx (le_num pre)
       (ErrWrap ErrDeserializationLengthMaxExceeded "string defined to be of %d bytes length but max %d is allowed")
       (ErrWrap ErrDeserializationLengthMinNotReached "string defined to be of %d bytes length but min %d is required"))
    (ErrWrap ErrDeserializationNotEnoughData "data is smaller than (%d) denoted string length of %d")).
Proof.
  intros Hd Hlt Hp. pose proof (proj1 Hd) as He.
  pose proof (reads_at_advance d pre rest (len pre) Hd eq_refl) as Hd1.
  unfold ReadString, d_when_ok. rewrite He, (readSliceLength_split d lt pre rest) by done.
  cbn [mbind outcome_bind]. rewrite check_length_bounds_verdict by done.
  rewrite RemainingBytes_set_err, (RemainingBytes_at _ _ Hd1). cbn [mbind outcome_bind].
  unfold read_result. destruct (Z.ltb_spec (len rest) (le_num pre)).
  - by rewrite bool_decide_false by lia.
  - by rewrite bool_decide_true by lia.
Qed.

(** A read without an error stored a value of the denoted, allowed length. *)
Lemma read_result_accepted ep d n l rest verdict missing d' o :
  keeps_errors ep → 0 ≤ l → (d', o) = read_result ep d n l rest verdict missing →
  d_err d' = None → verdict = None ∧ ∃ v, o = Some v ∧ len v = l.
Proof.
  intros Hk Hl. unfold read_result. case_bool_decide; intros [= -> ->]; simpl.
  - destruct verdict as [e|]; simpl; [by intros ?%Hk|]. intros _. split; [done|].
    eexists. split; [done|]. unfold len, front in *. rewrite length_take. lia.
  - by intros ?%Hk.
Qed.

(** What writing must come to. *)
Definition write_result (ep : ErrProducer) (s : Serializer) (lt : SeriLengthPrefixType) (b : Z)
    (v : list byte) (verdict : option error) : Serializer :=
  match verdict with
  | Some e => set_err s (ep (Some e))
  | None => if bool_decide (len v ≤ b) then wrote s (le_bytes (prefix_size lt) (len v) ++ v)
            else set_err s (ep (Some length_error))
  end.

Lemma write_bounded_result s v lt b ep mn mx e1 e2 :
  keeps_errors ep → s_err s = None → prefix_bound lt = Some b →
  write_bounded s v lt ep mn mx e1 e2 = Ret (write_result ep s lt b v (bound_verdict mn mx (len v) e1 e2)).
Proof.
  intros Hk He Hb. destruct (bound_verdict mn mx (len v) e1 e2) as [e|] eqn:Ev.
  - revert Ev. unfold write_bounded, when_ok, bound_verdict. rewrite He, !Z.gtb_ltb.
    destruct (Z.ltb_spec 0 mx), (Z.ltb_spec mx (len v)), (Z.ltb_spec 0 mn), (Z.ltb_spec (len v) mn);
      repeat case_bool_decide; try lia; intros; by simplify_eq.
  - apply bound_verdict_None in Ev. simpl. case_bool_decide as Hv.
    { apply write_bounded_ok; [done|]. destruct Ev. split_and!; [done..|]. exists b. by split. }
    unfold write_bounded, when_ok. rewrite He, !Z.gtb_ltb.
    replace ((0 <? mx) && (mx <? len v)) with false by (symmetry; apply andb_false_iff; lia).
    replace ((0 <? mn) && (len v <? mn)) with false by (symmetry; apply andb_false_iff; lia).
    unfold writeSliceLength, when_ok. rewrite He. pose proof (Hk length_error).
    destruct lt; try done; injection Hb as <-; rewrite Z.gtb_ltb, (proj2 (Z.ltb_lt _ _)) by lia;
      cbn [mbind outcome_bind set_err s_err]; by destruct (ep (Some length_error)).
Qed.

(** The two methods that read a value behind a length prefix. *)
Definition read_var_methods :
    list (Deserializer → SeriLengthPrefixType → ErrProducer → Z → Z →
          outcome (Deserializer * option (list byte))) :=
  [ReadVariableByteSlice; ReadString].

(** Their results, with the texts of their errors. *)
Definition read_var_results (ep : ErrProducer) (d : Deserializer) (pre rest : list byte) (mn mx : Z)
    : list (Deserializer * option (list byte)) :=
  let result maxText minText missing :=
    read_result ep d (len pre) (le_num pre) rest
      (bound_verdict mn mx (le_num pre) (ErrWrap ErrDeserializationLengthMaxExceeded maxText)
         (ErrWrap ErrDeserializationLengthMinNotReached minText)) missing in
  [result "denoted %d bytes, max allowed %d " "denoted %d bytes, min required %d "
     ErrDeserializationNotEnoughData;
   result "string defined to be of %d bytes length but max %d is allowed"
     "string defined to be of %d bytes length but min %d is required"
     (ErrWrap ErrDeserializationNotEnoughData "data is smaller than (%d) denoted string length of %d")].

Lemma read_var_prefix d lt ep mn mx pre rest :
  reads_at d (pre ++ rest) → prefix_bound lt ≠ None → length pre = prefix_size lt →
  (λ read, read d lt ep mn mx) <$> read_var_methods = Ret <$> read_var_results ep d pre rest mn mx.
Proof.
  intros. unfold read_var_methods, read_var_results. simpl.
  by rewrite (ReadVariableByteSlice_result d lt ep mn mx pre rest), (ReadString_result d lt ep mn mx pre rest).
Qed.

Lemma read_var_missing d lt ep mn mx rest :
  keeps_errors ep → reads_at d rest → prefix_bound lt ≠ None → len rest < Z.of_nat (prefix_size lt) →
  Forall (λ read, read d lt ep mn mx = Ret (d_set_err d (ep (Some ErrDeserializationNotEnoughData)), None))
    read_var_methods.
Proof.
  intros Hk Hd Hlt Hn. pose proof (proj1 Hd) as He. pose proof (Hk ErrDeserializationNotEnoughData).
  repeat constructor; unfold ReadVariableByteSlice, ReadString, d_when_ok;
    rewrite He, (readSliceLength_missing d lt rest) by done; cbn [mbind outcome_bind];
    by destruct (ep (Some ErrDeserializationNotEnoughData)).
Qed.

(** C39: length bounds, for any bytes and error producer that keeps errors (never turns one
    into nil), prefixes of 1, 2 or 4 bytes (others panic) no error recorded before and the
    offset inside the source. [WriteVariableByteSlice] and [WriteString] record too long,
    too short (a bound that is not positive does not count) or not fitting the prefix,
    writing nothing, else write prefix and value. [ReadVariableByteSlice] and [ReadString]
    always return. Without the bytes of the prefix they record missing data, stay and store
    nothing. Else they judge the denoted length: above the maximum or below the minimum is
    recorded, but they read on. If the source holds the denoted bytes, these are stored and
    the offset passes them whatever the verdict, whose error, if any, remains; if not,
    nothing is stored, the offset is behind the prefix and the complaint about missing data
    takes the place of the verdict. So a read that leaves no error has stored a value within
    the bounds. *)
Theorem length_bounds_enforced ep lt b mn mx s v d rest :
  keeps_errors ep → prefix_bound lt = Some b → s_err s = None → reads_at d rest →
  WriteVariableByteSlice s v lt ep mn mx = Ret (write_result ep s lt b v
    (bound_verdict mn mx (len v)
       (ErrWrap ErrSliceLengthTooLong "slice (len %d) exceeds max length of %d ")
       (ErrWrap ErrSliceLengthTooShort "slice (len %d) is less than min length of %d "))) ∧
  WriteString s v lt ep mn mx = Ret (write_result ep s lt b v
    (bound_verdict mn mx (len v)
       (ErrWrap ErrStringTooLong "string (len %d) exceeds max length of %d ")
       (ErrWrap ErrStringTooShort "string (len %d) is less than min length of %d"))) ∧
  (∀ pre post, rest = pre ++ post → length pre = prefix_size lt →
     (λ read, read d lt ep mn mx) <$> read_var_methods =
     Ret <$> read_var_results ep d pre post mn mx) ∧
  (len rest < Z.of_nat (prefix_size lt) →
     Forall (λ read, read d lt ep mn mx =
       Ret (d_set_err d (ep (Some ErrDeserializationNotEnoughData)), None)) read_var_methods) ∧
  Forall (λ read, ∃ d' o, read d lt ep mn mx = Ret (d', o) ∧
    (d_err d' = None → ∃ v', o = Some v' ∧ (0 < mx → len v' ≤ mx) ∧ (0 < mn → mn ≤ len v')))
    read_var_methods.
Proof.
  intros Hk Hb Hs Hd. assert (prefix_bound lt ≠ None) as Hlt by congruence.
  split_and!; [by apply write_bounded_result..| | |].
  - intros pre post -> Hp. by apply (read_var_prefix d lt).
  - intros Hn. by apply (read_var_missing _ _ _ _ _ rest).
  - destruct (decide (len rest < Z.of_nat (prefix_size lt))) as [Hn|Hn].
    { eapply Forall_impl; [by apply (read_var_missing d lt ep mn mx rest)|]. simpl.
      intros read ->. eexists _, _. split; [done|]. simpl. by intros ?%Hk. }
    rewrite <-(take_drop (prefix_size lt) rest) in Hd.
    pose proof (le_num_range (take (prefix_size lt) rest)) as [Hl _].
    assert (length (take (prefix_size lt) rest) = prefix_size lt) as Hp
      by (rewrite length_take; unfold len in Hn; lia).
    pose proof (read_var_prefix d lt ep mn mx _ _ Hd Hlt Hp) as E. injection E as E1 E2.
    repeat constructor; rewrite ?E1, ?E2;
      match goal with |- ∃ _ _, Ret ?r = _ ∧ _ => destruct r as [d' o] eqn:Er end;
      exists d', o; (split; [done|]); intros He; symmetry in Er;
      apply read_result_accepted in Er as [Hv%bound_verdict_None (v' & -> & Hv')]; try done;
      exists v'; (split; [done|]); by rewrite Hv'.
Qed.

(** A slice of three bytes where two are allowed: it is stored with the error; a
    cut copy of it reports missing data only. *)
Lemma length_bounds_enforced_witness :
  ReadVariableByteSlice (NewDeserializer [x03; x07; x08; x09; x0a]) SeriLengthPrefixTypeAsByte (λ e, e) 1 2 =
    Ret ({| src := [x03; x07; x08; x09; x0a]; offset := 4;
            d_err := Some (ErrWrap ErrDeserializationLengthMaxExceeded "denoted %d bytes, max allowed %d ") |},
         Some [x07; x08; x09]) ∧
  WriteString NewSerializer [x61; x62; x63] SeriLengthPrefixTypeAsByte (λ e, e) 1 2 =
    Ret (set_err NewSerializer (Some (ErrWrap ErrStringTooLong "string (len %d) exceeds max length of %d "))).
Proof.
  destruct (length_bounds_enforced (λ e, e) SeriLengthPrefixTypeAsByte 255 1 2 NewSerializer
    [x61; x62; x63] (NewDeserializer [x03; x07; x08; x09; x0a]) [x03; x07; x08; x09; x0a])
    as (_ & H2 & H3 & _); [done|done|done|by split; [|exists []]|].
  split; [|exact H2]. specialize (H3 [x03] [x07; x08; x09; x0a] eq_refl eq_refl).
  exact (f_equal (λ l, nth 0 l (Panic "none")) H3).
Defined.

(** The bound violation is reported as missing data when the data is short. *)
Definition short_overlong : list byte := [x05; x01].

(** A violated maximum does not stop [ReadVariableByteSlice]: when the data
    is also too short, the error that remains is the one about missing data. *)
Lemma bound_error_is_overwritten :
  ∃ d, ReadVariableByteSlice (NewDeserializer short_overlong) SeriLengthPrefixTypeAsByte
         (λ err, err) 0 2 = Ret (d, None) ∧
    d_err d = Some ErrDeserializationNotEnoughData.
Proof. eexists. split; vm_compute; reflexivity. Qed.

(** [TimeToUint64].  Times of the int64 range are exact;
    times before the epoch become 0; times later than the last full second of
    the int64 range become the maximum; but the times of the last, partial second
    beyond the int64 range become 0. *)
Lemma TimeToUint64_behaviour t :
  TimeToUint64 t =
    if bool_decide (t < 0) then 0
    else if bool_decide (t ≤ ity_max I64) then t
    else if bool_decide (t / 1000000000 = MaxNanoTimestampInt64Seconds) then 0
    else ity_max I64.
Proof.
  assert (MaxNanoTimestampInt64Seconds = 9223372036) as Hm by reflexivity.
  assert (ity_max I64 = 9223372036854775807) as HM by reflexivity.
  case_bool_decide as H1.
  { unfold TimeToUint64, time_Unix. assert (t / 1000000000 < 0) by (apply Z.div_lt_upper_bound; lia).
    cbv zeta. rewrite Z.gtb_ltb, (proj2 (Z.ltb_ge _ _)), (proj2 (Z.ltb_lt _ 0)) by lia. done. }
  case_bool_decide as H2; [by apply TimeToUint64_exact; lia|].
  pose proof (Z.div_mod t 1000000000 ltac:(lia)).
  pose proof (Z.mod_pos_bound t 1000000000 ltac:(lia)).
  unfold TimeToUint64, time_Unix. cbv zeta. rewrite Z.gtb_ltb.
  case_bool_decide as H3.
  - rewrite (proj2 (Z.ltb_ge _ _)), (proj2 (Z.ltb_ge (t / 1000000000) 0)) by lia.
    assert (time_UnixNano t < 0) as Hn; [|by rewrite (proj2 (Z.ltb_lt _ 0) Hn)].
    unfold time_UnixNano. pose proof (wrap_in_range I64 t) as Hr.
    destruct (wrap_shift I64 t) as [k Hk]. unfold in_range in Hr. rewrite HM in Hr.
    change (2 ^ ity_bits I64) with 18446744073709551616 in Hk.
    change (ity_min I64) with (-9223372036854775808) in Hr. lia.
  - rewrite (proj2 (Z.ltb_lt _ _)) by lia. rewrite HM. reflexivity.
Qed.
