(* ===== verification/SerializerObjects.v ===== *)
(** * serializer: slices of byte slices and of objects

    [WriteSliceOfByteSlices] accepts exactly the arrays the rules allow, and
    [ReadSliceOfObjects] reads back what [WriteSliceOfObjects] wrote, for any
    implementation of [Serializable] whose objects round trip. *)

From S2P Require Import Prelude Bytes Serializable Serializer Deserializer SerializerFields.

(** The order in which [WriteSliceOfByteSlices] writes the elements. *)
Definition write_order {S} (deSeriMode : Z) (ar : ArrayRules S) (data : list slice) : list slice :=
  if HasMode deSeriMode DeSeriModePerformLexicalOrdering &&
     HasMode (ValidationMode ar) ArrayValidationModeLexicalOrdering
  then sort_slices data else data.

(** The optional bounds on the number of elements. *)
Definition bounds_ok {S} (ar : ArrayRules S) (count : Z) : Prop :=
  (Min ar ≠ 0 → Min ar ≤ count) ∧ (Max ar ≠ 0 → count ≤ Max ar).

#[global] Instance slice_le_total : Total slice_le.
Proof. intros a b. unfold slice_le. apply total. apply _. Qed.

#[global] Instance slice_le_trans : Transitive slice_le.
Proof. intros a b c. unfold slice_le. apply transitivity. Qed.

Lemma write_order_perm {S} mode (ar : ArrayRules S) data : write_order mode ar data ≡ₚ data.
Proof. unfold write_order. case_match; [|done]. apply merge_sort_Permutation. Qed.

Lemma CheckBounds_ok {S} (ar : ArrayRules S) count : CheckBounds ar count = None ↔ bounds_ok ar count.
Proof.
  unfold CheckBounds, bounds_ok. rewrite Z.gtb_ltb.
  destruct (Z.eqb_spec (Min ar) 0), (Z.ltb_spec count (Min ar)); simpl;
    destruct (Z.eqb_spec (Max ar) 0), (Z.ltb_spec (Max ar) count); simpl;
    split; try done; try lia; intros [??]; lia.
Qed.

Lemma write_elements_spec s vs i data ep r :
  s_err s = None → validate_from vs i data = Ret r →
  ∃ s', write_elements s vs i data ep = Ret s' ∧
    match r with
    | None => s' = wrote s (concat (slice_bytes <$> data))
    | Some e => s_err s' = ep (Some e)
    end.
Proof.
  revert s vs i. induction data as [|ele data IH]; intros s vs i Hs; cbn [validate_from write_elements].
  { intros [= <-]. eexists. split; [done|]. unfold wrote. destruct s; simpl in *. subst.
    by rewrite app_nil_r. }
  destruct (run_validators vs i ele) as [[vs' [e|]]|]; cbn [mbind outcome_bind]; [| |done].
  - intros [= <-]. by eexists.
  - intros Hv. destruct (IH (write s (slice_bytes ele)) vs' (i + 1) Hs Hv) as (s' & -> & Hr).
    eexists. split; [done|]. destruct r; [done|]. subst. unfold wrote, write. simpl.
    by rewrite app_assoc.
Qed.

Lemma bytes_slices data : data = Some <$> (slice_bytes <$> data) ↔ Forall is_Some data.
Proof.
  induction data as [|[e|] data IH]; simpl; rewrite ?Forall_nil, ?Forall_cons; [done| |].
  - rewrite <-IH. split; [intros [= H]; by split|]. intros [_ H]. by f_equal.
  - split; [done|]. intros [[? ?] _]. done.
Qed.

(** The validators accept everything when the mode does not validate. *)
Lemma validate_from_nil i data : validate_from [] i data = Ret None.
Proof. revert i. induction data as [|e data IH]; intros i; [done|]. simpl. apply IH. Qed.

(** The elements the loop of [WriteSliceOfByteSlices] accepts. *)
Lemma elements_validated {S} (ar : ArrayRules S) (validate : bool) data :
  (validate = true → Forall is_Some data) →
  ∃ r, validate_from (if validate then ElementValidationFunc ar else []) 0 data = Ret r ∧
    (r = None ↔ (validate = true → array_ok (ValidationMode ar) (slice_bytes <$> data))).
Proof.
  intros Hd. destruct validate.
  - specialize (Hd eq_refl). apply bytes_slices in Hd. rewrite Hd. destruct (validators_accept ar (slice_bytes <$> data)) as (r & Hr & Hiff).
    exists r. split; [done|]. rewrite Hiff.
    assert (slice_bytes <$> (Some <$> (slice_bytes <$> data)) = slice_bytes <$> data) as ->.
    { by rewrite <-Hd. }
    naive_solver.
  - exists None. by rewrite validate_from_nil.
Qed.

Lemma write_order_Some {S} mode (ar : ArrayRules S) data :
  Forall is_Some data → Forall is_Some (write_order mode ar data).
Proof. intros. by rewrite write_order_perm. Qed.

Lemma writeSliceLength_too_long s l lt b ep :
  s_err s = None → prefix_bound lt = Some b → b < l →
  writeSliceLength s l lt ep = Ret (set_err s (ep (Some length_error))).
Proof.
  intros Hs Hb Hl. unfold writeSliceLength, when_ok. rewrite Hs.
  destruct lt; simplify_eq/=; by rewrite Z.gtb_ltb, (proj2 (Z.ltb_lt _ _)) by lia.
Qed.

(** What [WriteSliceOfByteSlices] demands of its elements. *)
Definition slices_ok {S} (deSeriMode : Z) (ar : ArrayRules S) (b : Z) (data : list slice) : Prop :=
  len data ≤ b ∧
  (HasMode deSeriMode DeSeriModePerformValidation = true →
     bounds_ok ar (len data) ∧
     array_ok (ValidationMode ar) (slice_bytes <$> write_order deSeriMode ar data)).

(** The encoding of an array of byte slices. *)
Definition slices_bytes {S} (deSeriMode : Z) (ar : ArrayRules S) (lt : SeriLengthPrefixType)
    (data : list slice) : list byte :=
  le_bytes (prefix_size lt) (len data) ++ concat (slice_bytes <$> write_order deSeriMode ar data).

Lemma wrote_wrote s a b : wrote (wrote s a) b = wrote s (a ++ b).
Proof. unfold wrote. simpl. by rewrite app_assoc. Qed.

Lemma WriteSliceOfByteSlices_spec {S} s (data : list slice) mode lt b (ar : ArrayRules S) ep :
  s_err s = None → prefix_bound lt = Some b →
  (HasMode mode DeSeriModePerformValidation = true → Forall is_Some data) → keeps_errors ep →
  ∃ s', WriteSliceOfByteSlices s data mode lt ar ep = Ret s' ∧
    (slices_ok mode ar b data → s' = wrote s (slices_bytes mode ar lt data)) ∧
    (s_err s' = None → slices_ok mode ar b data).
Proof.
  intros Hs Hb Hd Hk. unfold WriteSliceOfByteSlices, when_ok. rewrite Hs.
  unfold slices_ok. cbv zeta.
  revert Hd. generalize (HasMode mode DeSeriModePerformValidation) as validate. intros validate Hd.
  destruct (if validate then CheckBounds ar (len data) else None) as [e|] eqn:Ec.
  { eexists. split; [done|]. split; [|intros He; by destruct (Hk _ He)]. intros (_ & Hv).
    destruct validate; [|done]. destruct (Hv eq_refl) as [Hbd%CheckBounds_ok _]. congruence. }
  assert (validate = true → bounds_ok ar (len data)) as Hbd.
  { intros ->. by apply CheckBounds_ok. }
  destruct (Z.le_gt_cases (len data) b) as [Hl|Hl].
  2:{ rewrite (writeSliceLength_too_long _ _ _ b) by done. cbn [mbind outcome_bind set_err s_err].
      destruct (ep (Some length_error)) eqn:E; [|by destruct (Hk _ E)].
      eexists. split; [done|]. split; [lia|]. simpl. congruence. }
  rewrite (writeSliceLength_ok _ _ _ b) by done. cbn [mbind outcome_bind wrote s_err].
  fold (write_order mode ar data).
  destruct (elements_validated ar validate (write_order mode ar data)) as (r & Hr & Hiff);
    [intros Hv; by apply write_order_Some, Hd|].
  destruct (write_elements_spec (wrote s (le_bytes (prefix_size lt) (len data))) _ _ _ ep r
    eq_refl Hr) as (s' & Hw & Hs').
  exists s'. split; [done|]. split.
  - intros (_ & Hv). destruct r as [e|].
    + destruct Hiff as [_ Hiff]. discriminate Hiff. intros Hval. by apply Hv.
    + subst s'. by rewrite wrote_wrote.
  - intros Hn. destruct r as [e|]; [rewrite Hs' in Hn; by destruct (Hk _ Hn)|]. split; [done|].
    intros Hval. split; [by apply Hbd|]. by apply Hiff.
Qed.

(** Elements that are demanded are written, whatever the error producer does. *)
Lemma WriteSliceOfByteSlices_writes {S} s (data : list slice) mode lt b (ar : ArrayRules S) ep :
  s_err s = None → prefix_bound lt = Some b →
  (HasMode mode DeSeriModePerformValidation = true → Forall is_Some data) → slices_ok mode ar b data →
  WriteSliceOfByteSlices s data mode lt ar ep = Ret (wrote s (slices_bytes mode ar lt data)).
Proof.
  intros Hs Hb Hd [Hl Hok]. unfold WriteSliceOfByteSlices, when_ok. rewrite Hs. cbv zeta.
  fold (write_order mode ar data).
  assert ((if HasMode mode DeSeriModePerformValidation then CheckBounds ar (len data) else None) = None) as ->.
  { destruct (HasMode mode DeSeriModePerformValidation); [|done]. by apply CheckBounds_ok, Hok. }
  rewrite (writeSliceLength_ok _ _ _ b) by done. cbn [mbind outcome_bind wrote s_err].
  destruct (elements_validated ar (HasMode mode DeSeriModePerformValidation) (write_order mode ar data))
    as (r & Hr & Hiff); [intros Hv; by apply write_order_Some, Hd|].
  destruct (write_elements_spec (wrote s (le_bytes (prefix_size lt) (len data))) _ _ _ ep r
    eq_refl Hr) as (s' & -> & Hs').
  rewrite (proj2 Hiff) in Hs' by (intros Hv; by apply Hok). subst s'. by rewrite wrote_wrote.
Qed.

(** ** Sequences of items *)

(** A run of the item deserializer over encoded items, whatever bytes follow. *)
Inductive item_runs {St} (item : DeserializeFunc St) : St → list (list byte) → St → Prop :=
  | runs_nil st : item_runs item st [] st
  | runs_cons st b bss st1 st' :
      (∀ rest, item st (b ++ rest) = Ret (st1, (len b, None))) →
      item_runs item st1 bss st' → item_runs item st (b :: bss) st'.

Lemma read_items_runs {St} (item : DeserializeFunc St) st bss st' vs i d post ep :
  item_runs item st bss st' → reads_at d (concat bss ++ post) →
  validate_from vs i (Some <$> bss) = Ret None →
  read_items (length bss) i d st item vs ep = Ret (advance d (len (concat bss)), st').
Proof.
  intros Hruns. revert vs i d. induction Hruns as [st|st b bss st1 st' Hb _ IH]; intros vs i d Hd Hv.
  { simpl. by rewrite advance_0. }
  cbn [concat] in *. rewrite <-app_assoc in Hd. cbn [length read_items].
  rewrite (RemainingBytes_at _ _ Hd). cbn [mbind outcome_bind]. rewrite Hb. cbn [mbind outcome_bind].
  pose proof (reads_at_advance _ _ _ _ Hd eq_refl) as Hd'.
  assert (∃ vs', run_validators vs i (Some b) = Ret (vs', None) ∧
    validate_from vs' (i + 1) (Some <$> bss) = Ret None) as (vs' & Hr & Hv').
  { cbn [validate_from fmap list_fmap] in Hv. destruct (run_validators vs i _) as [[vs' [e|]]|]; try done.
    by exists vs'. }
  rewrite len_app, <-advance_advance. destruct vs as [|v vs].
  { simpl in Hr. simplify_eq. by apply IH. }
  unfold prefix_bytes. pose proof (len_nonneg b).
  rewrite len_app, !(proj2 (Z.leb_le _ _)) by (pose proof (len_nonneg (concat bss ++ post)); lia).
  cbn [andb mbind outcome_bind].
  assert (take (Z.to_nat (len b)) (b ++ concat bss ++ post) = b) as ->.
  { unfold len. by rewrite Nat2Z.id, take_app_length. }
  rewrite Hr. cbn [mbind outcome_bind]. by apply IH.
Qed.

Lemma ReadSequenceOfObjects_runs {Obj St} (item : DeserializeFunc St) st bss st' mode lt bd
    (ar : ArrayRules Obj) ep post :
  item_runs item st bss st' → prefix_bound lt = Some bd → len bss ≤ bd →
  (HasMode mode DeSeriModePerformValidation = true →
     bounds_ok ar (len bss) ∧ array_ok (ValidationMode ar) bss) →
  let bytes := le_bytes (prefix_size lt) (len bss) ++ concat bss in
  ReadSequenceOfObjects (NewDeserializer (bytes ++ post)) st item mode lt ar ep =
    Ret (advance (NewDeserializer (bytes ++ post)) (len bytes), st').
Proof.
  intros Hruns Hb Hl Hval bytes. set (d := NewDeserializer (bytes ++ post)).
  assert (reads_at d (le_bytes (prefix_size lt) (len bss) ++ concat bss ++ post)) as Hd.
  { split; [done|]. exists []. unfold d, bytes. by rewrite <-app_assoc. }
  assert (advance d (len bytes) =
    advance (advance d (Z.of_nat (prefix_size lt))) (len (concat bss))) as ->.
  { by rewrite advance_advance; unfold bytes; rewrite len_app, len_le_bytes. }
  unfold ReadSequenceOfObjects. change (d_err d) with (@None error).
  rewrite (readSliceLength_at d lt (len bss) bd ep _ Hd Hb) by (pose proof (len_nonneg bss); lia).
  cbn [mbind outcome_bind]. cbv zeta.
  destruct (elements_validated ar (HasMode mode DeSeriModePerformValidation) (Some <$> bss))
    as (r & Hr & Hiff); [intros _; apply Forall_fmap, Forall_true; by eexists|].
  assert ((if HasMode mode DeSeriModePerformValidation then CheckBounds ar (len bss) else None) = None) as ->.
  { destruct (HasMode mode _); [|done]. by apply CheckBounds_ok, Hval. }
  assert (r = None) as ->.
  { apply Hiff. intros Hv. rewrite <-list_fmap_compose, list_fmap_id. by apply Hval. }
  destruct (Z.eqb_spec (len bss) 0) as [E|E].
  - destruct bss; [|done]. inversion Hruns; subst. cbn [concat len]. by rewrite advance_0.
  - unfold len at 1. rewrite Nat2Z.id. eapply read_items_runs; [done| |done].
    eapply reads_at_advance; [exact Hd|]. by rewrite len_le_bytes.
Qed.

(** Whether the elements are put in lexical order. *)
Definition orders {S} (deSeriMode : Z) (ar : ArrayRules S) : bool :=
  HasMode deSeriMode DeSeriModePerformLexicalOrdering &&
  HasMode (ValidationMode ar) ArrayValidationModeLexicalOrdering.

Lemma sorted_slices data : Sorted slice_le data → Sorted bytes_le (slice_bytes <$> data).
Proof.
  induction 1 as [|e data _ IH Hhd]; constructor; [done|]. destruct Hhd; by constructor.
Qed.

(** The items, in the order in which their encodings are written. *)
Lemma write_order_map {A S} mode (ar : ArrayRules S) (f : A → slice) xs :
  ∃ xs', xs' ≡ₚ xs ∧ write_order mode ar (f <$> xs) = f <$> xs' ∧
    if orders mode ar then Sorted bytes_le (slice_bytes <$> (f <$> xs')) else xs' = xs.
Proof.
  unfold write_order, orders. destruct (_ && _); [|by exists xs].
  pose proof (merge_sort_Permutation slice_le (f <$> xs)) as Hp.
  destruct (Permutation_map_inv _ _ Hp) as (xs' & H1 & H2).
  exists xs'. split_and!; [done|done|]. change (f <$> xs') with (map f xs'). rewrite <-H1. apply sorted_slices, (Sorted_merge_sort slice_le).
Qed.

(** ** Objects *)

(** The type a type denotation finds in the bytes of an object. *)
Definition type_in (typeDen : TypeDenotationType) (bs : list byte) : Z :=
  match typeDen with
  | TypeDenotationUint32 => le_num (take 4 bs)
  | TypeDenotationByte => le_num (take 1 bs)
  | _ => 0
  end.

Definition type_size (typeDen : TypeDenotationType) : Z :=
  match typeDen with TypeDenotationUint32 => 4 | TypeDenotationByte => 1 | _ => 0 end.

Section lawful.
Context {Obj Ctx : Type} `{!Serializable Obj Ctx}.
Context (mode : Z) (ctx : Ctx) (typeDen : TypeDenotationType) (ar : ArrayRules Obj).
Context (ep : ErrProducer) (enc : Obj → list byte).

Definition obj_type (o : Obj) : Z := type_in typeDen (enc o).

(** An object whose two methods agree, and which the guards accept. *)
Record lawful (o : Obj) : Prop := {
  law_write_guard guard : WriteGuard (Guards ar) = Some guard → guard o = None;
  law_read_guard guard : PostReadGuard (Guards ar) = Some guard → guard (Some o) = None;
  law_type : type_size typeDen ≤ len (enc o);
  law_serialize : obj_Serialize o mode ctx = (Some (enc o), None);
  law_deserialize : ∃ blank, ReadGuard (Guards ar) (obj_type o) = inl blank ∧
    ∀ tail, obj_Deserialize blank (enc o ++ tail) mode ctx = (o, len (enc o), None);
}.

Lemma serialize_objects_lawful objs :
  Forall lawful objs →
  serialize_objects objs mode ctx ar = inl ((λ o, Some (enc o)) <$> objs).
Proof.
  induction 1 as [|o objs Ho Hobjs IH]; [done|]. cbn [serialize_objects].
  rewrite (law_serialize o Ho), IH.
  destruct (HasMode _ _); [|done].
  destruct (WriteGuard (Guards ar)) as [guard|] eqn:Eg; [|done].
  by rewrite (law_write_guard o Ho guard Eg).
Qed.

Lemma take_front n a b : 0 ≤ n ≤ len a → front n (a ++ b) = take (Z.to_nat n) a.
Proof. intros H. unfold front, len in *. rewrite take_app_le; [done|lia]. Qed.

Lemma GetObjectType_at d o post :
  lawful o → reads_at d (enc o ++ post) → GetObjectType d typeDen = Ret (obj_type o, None).
Proof.
  intros Ho Hd. pose proof (law_type o Ho) as Hl. unfold GetObjectType, obj_type, type_in.
  rewrite (RemainingBytes_at _ _ Hd). cbn [mbind outcome_bind]. rewrite len_app.
  pose proof (len_nonneg post).
  destruct typeDen; simpl in Hl; cbv [UInt32ByteSize OneByte]; try done;
    rewrite (proj2 (Z.ltb_ge _ _)) by lia; by rewrite take_front by lia.
Qed.

Lemma readObject_lawful d o post :
  lawful o → reads_at d (enc o ++ post) →
  readObject d TargetFunc mode ctx typeDen (ReadGuard (Guards ar)) ep =
    Ret (advance d (len (enc o)), Some o, obj_type o).
Proof.
  intros Ho Hd. unfold readObject. rewrite (proj1 Hd).
  rewrite (GetObjectType_at d o post Ho Hd). cbn [mbind outcome_bind].
  destruct (law_deserialize o Ho) as (blank & Hb & Hde). rewrite Hb.
  rewrite (RemainingBytes_at _ _ Hd). cbn [mbind outcome_bind]. by rewrite Hde.
Qed.

(** The types seen after the objects were read. *)
Definition types_seen (objs : list Obj) (seen : gset Z) : gset Z :=
  if HasMode mode DeSeriModePerformValidation then list_to_set (obj_type <$> objs) ∪ seen else seen.

Lemma deserializeItem_lawful seris seen o post :
  lawful o →
  deserializeItem mode ctx typeDen ar ep (seris, seen) (enc o ++ post) =
    Ret ((seris ++ [Some o], types_seen [o] seen), (len (enc o), None)).
Proof.
  intros Ho. unfold deserializeItem, types_seen.
  rewrite (readObject_lawful _ o post Ho) by (split; [done|]; by exists []).
  cbn [mbind outcome_bind advance NewDeserializer offset d_err].
  rewrite Z.add_0_l. cbn [fmap list_fmap list_to_set].
  destruct (HasMode _ _); [|done].
  rewrite (right_id_L ∅ (∪)).
  destruct (PostReadGuard (Guards ar)) as [guard|] eqn:Eg; [|done].
  by rewrite (law_read_guard o Ho guard Eg).
Qed.

Lemma types_seen_cons o objs seen :
  types_seen objs (types_seen [o] seen) = types_seen (o :: objs) seen.
Proof. unfold types_seen. case_match; [|done]. simpl. set_solver. Qed.

Lemma items_lawful objs seris seen :
  Forall lawful objs →
  item_runs (deserializeItem mode ctx typeDen ar ep) (seris, seen) (enc <$> objs)
    (seris ++ (Some <$> objs), types_seen objs seen).
Proof.
  intros Hobjs. revert seris seen. induction Hobjs as [|o objs Ho Hobjs IH]; intros seris seen.
  - rewrite app_nil_r. replace (types_seen [] seen) with seen; [constructor|].
    unfold types_seen. simpl. by destruct (HasMode _ _); rewrite ?(left_id_L ∅ (∪)).
  - rewrite <-types_seen_cons. rewrite !fmap_cons.
    replace (seris ++ Some o :: (Some <$> objs)) with ((seris ++ [Some o]) ++ (Some <$> objs))
      by (by rewrite <-app_assoc).
    eapply runs_cons; [|apply IH]. intros rest. by apply deserializeItem_lawful.
Qed.

Lemma ReadSliceOfObjects_lawful objs lt b post t :
  Forall lawful objs → prefix_bound lt = Some b → len objs ≤ b →
  (HasMode mode DeSeriModePerformValidation = true →
     bounds_ok ar (len objs) ∧ array_ok (ValidationMode ar) (enc <$> objs) ∧
     MustOccur ar ⊆ list_to_set (obj_type <$> objs)) →
  t ≠ SliceTargetOther →
  let bytes := le_bytes (prefix_size lt) (len objs) ++ concat (enc <$> objs) in
  ReadSliceOfObjects (NewDeserializer (bytes ++ post)) t mode ctx lt typeDen ar ep =
    Ret (advance (NewDeserializer (bytes ++ post)) (len bytes),
         if objs is [] then None else Some (Some <$> objs)).
Proof.
  intros Hobjs Hb Hl Hval Ht bytes. unfold ReadSliceOfObjects, d_when_ok.
  change (d_err (NewDeserializer (bytes ++ post))) with (@None error).
  pose proof (ReadSequenceOfObjects_runs _ _ _ _ mode lt b ar ep post (items_lawful objs [] ∅ Hobjs) Hb) as E.
  assert (len (enc <$> objs) = len objs) as Hlen by (unfold len; by rewrite length_fmap).
  rewrite Hlen in E. cbv zeta in E. fold bytes in E. unfold items_state in E.
  rewrite E; [clear E|done|intros Hv; by destruct (Hval Hv) as (? & ? & _)].
  cbn [mbind outcome_bind advance NewDeserializer d_err app]. unfold types_seen.
  assert (HasMode mode DeSeriModePerformValidation &&
    negb (Subset (MustOccur ar) (if HasMode mode DeSeriModePerformValidation
                                 then list_to_set (obj_type <$> objs) ∪ ∅ else ∅)) = false) as ->.
  { destruct (HasMode mode _); [|done]. destruct (Hval eq_refl) as (_ & _ & Hmust).
    rewrite (right_id_L ∅ (∪)). apply negb_false_iff, forallb_forall.
    intros x Hx%list_elem_of_In%elem_of_elements. apply bool_decide_eq_true. set_solver. }
  destruct objs as [|o objs]; [done|]. by destruct t.
Qed.

End lawful.

(** ** Properties *)

(** [WriteSliceOfByteSlices] (on non-nil elements and a supported length
    prefix) never panics and records no error exactly when the number of
    elements fits the prefix and, with validation, the bounds and the rules of
    the array are obeyed by the elements in the order they are written; it then
    appends the length prefix and the elements, which are the given ones, in
    lexical order when ordering is asked for. *)
Lemma WriteSliceOfByteSlices_correct {S} s (data : list slice) mode lt b (ar : ArrayRules S) ep :
  s_err s = None → prefix_bound lt = Some b → Forall is_Some data → keeps_errors ep →
  ∃ s', WriteSliceOfByteSlices s data mode lt ar ep = Ret s' ∧
    (s_err s' = None ↔ slices_ok mode ar b data) ∧
    (s_err s' = None → buf s' = buf s ++ slices_bytes mode ar lt data) ∧
    write_order mode ar data ≡ₚ data ∧
    (HasMode mode DeSeriModePerformLexicalOrdering = true →
     HasMode (ValidationMode ar) ArrayValidationModeLexicalOrdering = true →
     Sorted slice_le (write_order mode ar data)).
Proof.
  intros Hs Hb Hd Hk.
  destruct (WriteSliceOfByteSlices_spec s data mode lt b ar ep Hs Hb (λ _, Hd) Hk) as (s' & -> & H1 & H2).
  assert (s_err s' = None ↔ slices_ok mode ar b data) as Hiff.
  { split; [done|]. by intros ->%H1. }
  exists s'. split_and!; try done.
  - by intros ->%Hiff%H1.
  - apply write_order_perm.
  - intros E1 E2. unfold write_order. rewrite E1, E2. apply (Sorted_merge_sort slice_le).
Qed.

(** C7: objects round trip. For objects which the guards accept, whose [Serialize] and
    [Deserialize] agree and whose encoding is long enough to hold the type ([lawful]), an
    array whose length fits its prefix and which, with validation, obeys the bounds and
    rules of the array in the order it is written and has the types that must occur, is
    written by [WriteSliceOfObjects]: the length prefix, then the encodings of the objects
    in lexical order, when the mode and the rules ask for it, and otherwise in the given
    order. From these bytes, whatever follows, [ReadSliceOfObjects] stores the objects in
    the written order, or stores nothing (it leaves the target alone) when the array is
    empty; exactly the written bytes are consumed and no error is recorded, whatever the
    error producer. *)
Theorem objects_roundtrip {Obj Ctx} `{!Serializable Obj Ctx} mode (ctx : Ctx) typeDen
    (ar : ArrayRules Obj) ep enc objs lt b post :
  Forall (lawful mode ctx typeDen ar enc) objs → prefix_bound lt = Some b →
  slices_ok mode ar b ((λ o, Some (enc o)) <$> objs) →
  (HasMode mode DeSeriModePerformValidation = true →
     MustOccur ar ⊆ list_to_set (obj_type typeDen enc <$> objs)) →
  ∃ objs' s d,
    WriteSliceOfObjects NewSerializer (SourceSerializables objs) mode ctx lt ar ep = Ret s ∧
    s_err s = None ∧
    buf s = le_bytes (prefix_size lt) (len objs) ++ concat (enc <$> objs') ∧
    objs' ≡ₚ objs ∧ (if orders mode ar then Sorted bytes_le (enc <$> objs') else objs' = objs) ∧
    ReadSliceOfObjects (NewDeserializer (buf s ++ post)) SliceTargetSlice mode ctx lt typeDen ar ep =
      Ret (d, if objs is [] then None else Some (Some <$> objs')) ∧
    Done d = (len (buf s), None).
Proof.
  intros Hobjs Hb Hok Hmust.
  destruct (write_order_map mode ar (λ o, Some (enc o)) objs) as (objs' & Hp & Ho & Hsame).
  assert (len objs' = len objs) as Hlen by (unfold len; by rewrite Hp).
  assert (slice_bytes <$> ((λ o, Some (enc o)) <$> objs') = enc <$> objs') as Hs
    by (by rewrite <-list_fmap_compose).
  assert (len ((λ o, Some (enc o)) <$> objs) = len objs) as Hl by (unfold len; by rewrite length_fmap).
  assert ((if objs' is [] then None else Some (Some <$> objs')) =
          (if objs is [] then None else Some (Some <$> objs'))) as Hnil.
  { by destruct objs, objs'. }
  eexists objs', _, _. split.
  { unfold WriteSliceOfObjects, when_ok. cbn [NewSerializer s_err sourceToSerializables mbind outcome_bind].
    rewrite (serialize_objects_lawful mode ctx typeDen ar enc objs Hobjs).
    apply (WriteSliceOfByteSlices_writes _ _ _ _ b); [done..| |done].
    intros _. apply Forall_fmap, Forall_true. by eexists. }
  cbn [wrote NewSerializer s_err buf app]. unfold slices_bytes, slices_ok, slice in *.
  rewrite Ho, Hs in *. rewrite Hl in *. split_and!; [done..| |].
  - rewrite <-Hlen. rewrite (ReadSliceOfObjects_lawful mode ctx typeDen ar ep enc objs' lt b post SliceTargetSlice);
      try done.
    + by rewrite Hnil.
    + by rewrite Hp.
    + rewrite Hlen; apply Hok.
    + rewrite Hlen. intros Hval. destruct (proj2 Hok Hval). split_and!; [done..|].
      etrans; [by apply Hmust|]. by rewrite Hp.
  - by rewrite <-Hlen.
Qed.

(** Pairs of a type byte and a value byte. *)
#[local] Instance pair_serializable : Serializable (byte * byte) unit := {
  obj_Serialize o _ _ := (Some [o.1; o.2], None);
  obj_Deserialize o data _ _ :=
    match data with
    | t :: v :: _ => ((t, v), 2, None)
    | _ => (o, 0, Some ErrDeserializationNotEnoughData)
    end;
}.

Definition pair_rules : ArrayRules (byte * byte) :=
  {| Min := 1; Max := 4; MustOccur := {[1]};
     Guards := {| ReadGuard := λ ty, if ty <? 3 then inl (x00, x00) else inr (ErrNew "unknown type");
                  PostReadGuard := None; WriteGuard := Some (λ _, None) |};
     ValidationMode := 7 |}.

Lemma objects_roundtrip_witness :
  ∃ objs' s d,
    WriteSliceOfObjects NewSerializer (SourceSerializables [(x02, x07); (x01, x09)]) 3 tt
      SeriLengthPrefixTypeAsUint16 pair_rules (λ e, e) = Ret s ∧
    s_err s = None ∧
    ReadSliceOfObjects (NewDeserializer (buf s ++ [xff])) SliceTargetSlice 3 tt
      SeriLengthPrefixTypeAsUint16 TypeDenotationByte pair_rules (λ e, e) =
      Ret (d, Some (Some <$> objs')) ∧
    Done d = (len (buf s), None) ∧ objs' ≡ₚ [(x02, x07); (x01, x09)].
Proof.
  destruct (objects_roundtrip (Ctx:=unit) 3 tt TypeDenotationByte pair_rules (λ e, e)
    (λ o, [o.1; o.2]) [(x02, x07); (x01, x09)] SeriLengthPrefixTypeAsUint16 65535 [xff])
    as (objs' & s & d & H1 & H2 & _ & H5 & _ & H3 & H4); try done.
  - repeat constructor; simpl; try done; try (intros guard; congruence);
      try (intros guard [= <-]; done); eexists; by split.
  - split; [done|]. intros _. split; [by split; intros _|].
    replace (slice_bytes <$> _) with [[x01; x09]; [x02; x07]] by (vm_compute; reflexivity).
    split; [intros _; by apply (bool_decide_unpack _)|].
    split; [intros _; by repeat constructor|].
    split; [intros _; split; [by repeat constructor|by apply (bool_decide_unpack _)]|done].
  - intros _. by apply (bool_decide_unpack _).
  - by exists objs', s, d.
Defined.

Lemma WriteSliceOfByteSlices_correct_witness :
  ∃ s', WriteSliceOfByteSlices NewSerializer [Some [x02]; Some [x01]] 3 SeriLengthPrefixTypeAsByte
          pair_rules (λ e, e) = Ret s' ∧
    write_order 3 pair_rules [Some [x02]; Some [x01]] = [Some [x01]; Some [x02]].
Proof.
  destruct (WriteSliceOfByteSlices_correct NewSerializer [Some [x02]; Some [x01]] 3
    SeriLengthPrefixTypeAsByte 255 pair_rules (λ e, e)) as (s' & H1 & _); try done.
  - by repeat constructor.
  - by exists s'.
Defined.
