(* ===== verification/SerializerChains.v ===== *)
(** * serializer: chains of calls

    [src/serializer/serializer.go] is used in chains
    [s.WriteNum(..).WriteBool(..).Serialize()].  A call is a method with its
    arguments; a chain runs its calls on one [Serializer] or [Deserializer] and
    on the variables [W] of the caller, which the callbacks of [Do] and the
    reads through pointers change.  The calls are all the methods that return
    their receiver.  [Serialize], [Done] and [Written] end a chain;
    [RemainingBytes] and [GetObjectType] only look; [ReadPayloadLength], which
    does not return its receiver, does not look at the error (see
    [ReadPayloadLength_ignores_error]). *)

From S2P Require Import Prelude Bytes Serializable Serializer Deserializer SerializerFields SerializerObjects.

Section chains.
Context {Obj Ctx W : Type} `{!Serializable Obj Ctx}.

(** ** Writing *)

Inductive write_call : Type :=
  | CAbortIf (ep : ErrProducer)
  | CWithValidation (mode : Z) (ep : ErrProducerWithRWBytes)
  | CDo (f : W → W)
  | CWriteNum (v : num) (ep : ErrProducer)
  | CWriteUint256 (v : option Z) (ep : ErrProducer)
  | CWriteBool (v : bool) (ep : ErrProducer)
  | CWriteByte (v : byte) (ep : ErrProducer)
  | CWriteBytes (v : list byte) (ep : ErrProducer)
  | CWriteVariableByteSlice (v : list byte) (lt : SeriLengthPrefixType) (ep : ErrProducer) (mn mx : Z)
  | CWriteString (v : list byte) (lt : SeriLengthPrefixType) (ep : ErrProducer) (mn mx : Z)
  | CWriteSliceOfByteSlices (v : list slice) (mode : Z) (lt : SeriLengthPrefixType)
      (ar : ArrayRules Obj) (ep : ErrProducer)
  | CWriteSliceOfObjects (v : source Obj) (mode : Z) (ctx : Ctx) (lt : SeriLengthPrefixType)
      (ar : ArrayRules Obj) (ep : ErrProducer)
  | CWriteObject (v : Obj) (mode : Z) (ctx : Ctx) (guard : Obj → option error) (ep : ErrProducer)
  | CWriteTime (v : Z) (ep : ErrProducer)
  | CWritePayload (v : option Obj) (mode : Z) (ctx : Ctx) (guard : option (Obj → option error))
      (ep : ErrProducer)
  | CWritePayloadLength (l : Z) (ep : ErrProducer).

Definition run_write (c : write_call) (s : Serializer) (w : W) : outcome (Serializer * W) :=
  let keep (m : outcome Serializer) := s ← m; Ret (s, w) in
  match c with
  | CAbortIf ep => keep (Ret (AbortIf s ep))
  | CWithValidation mode ep => keep (Ret (WithValidation s mode ep))
  | CDo f => Ret (Do s f w)
  | CWriteNum v ep => keep (Ret (WriteNum s v ep))
  | CWriteUint256 v ep => keep (Ret (WriteUint256 s v ep))
  | CWriteBool v ep => keep (Ret (WriteBool s v ep))
  | CWriteByte v ep => keep (Ret (WriteByte s v ep))
  | CWriteBytes v ep => keep (Ret (WriteBytes s v ep))
  | CWriteVariableByteSlice v lt ep mn mx => keep (WriteVariableByteSlice s v lt ep mn mx)
  | CWriteString v lt ep mn mx => keep (WriteString s v lt ep mn mx)
  | CWriteSliceOfByteSlices v mode lt ar ep => keep (WriteSliceOfByteSlices s v mode lt ar ep)
  | CWriteSliceOfObjects v mode ctx lt ar ep => keep (WriteSliceOfObjects s v mode ctx lt ar ep)
  | CWriteObject v mode ctx guard ep => keep (Ret (WriteObject s v mode ctx guard ep))
  | CWriteTime v ep => keep (Ret (WriteTime s v ep))
  | CWritePayload v mode ctx guard ep => keep (Ret (WritePayload s v mode ctx guard ep))
  | CWritePayloadLength l ep => keep (Ret (WritePayloadLength s l ep))
  end.

Fixpoint run_writes (cs : list write_call) (s : Serializer) (w : W) : outcome (Serializer * W) :=
  match cs with
  | [] => Ret (s, w)
  | c :: cs => '(s, w) ← run_write c s w; run_writes cs s w
  end.

(** ** Reading *)

(** A read gets a pointer into the caller's variables: [put] stores through it. *)
Inductive read_call : Type :=
  | CSkip (n : Z) (ep : ErrProducer)
  | CReadBool (put : bool → W → W) (ep : ErrProducer)
  | CReadByte (put : byte → W → W) (ep : ErrProducer)
  | CReadUint256 (put : Z → W → W) (ep : ErrProducer)
  | CReadNum (dest : num_dest) (put : num → W → W) (ep : ErrProducer)
  | CReadBytes (put : list byte → W → W) (n : Z) (ep : ErrProducer)
  | CReadBytesInPlace (get : W → list byte) (put : list byte → W → W) (ep : ErrProducer)
  | CReadVariableByteSlice (put : list byte → W → W) (lt : SeriLengthPrefixType) (ep : ErrProducer)
      (mn mx : Z)
  | CReadString (put : list byte → W → W) (lt : SeriLengthPrefixType) (ep : ErrProducer) (mn mx : Z)
  | CReadTime (put : Z → W → W) (ep : ErrProducer)
  | CReadObject (t : target) (put : Obj → W → W) (mode : Z) (ctx : Ctx) (den : TypeDenotationType)
      (sel : Z → Obj + error) (ep : ErrProducer)
  | CReadSequenceOfObjects (item : DeserializeFunc W) (mode : Z) (lt : SeriLengthPrefixType)
      (ar : ArrayRules Obj) (ep : ErrProducer)
  | CReadSliceOfObjects (t : slice_target) (put : list (option Obj) → W → W) (mode : Z) (ctx : Ctx)
      (lt : SeriLengthPrefixType) (den : TypeDenotationType) (ar : ArrayRules Obj) (ep : ErrProducer)
  | CReadPayload (t : target) (put : Obj → W → W) (mode : Z) (ctx : Ctx) (sel : Z → Obj + error)
      (ep : ErrProducer)
  | CDAbortIf (ep : ErrProducer)
  | CDWithValidation (mode : Z) (ep : ErrProducerWithRWBytes)
  | CCheckTypePrefix (prefix : Z) (den : TypeDenotationType) (ep : ErrProducer)
  | CDDo (f : W → W)
  | CConsumedAll (ep : ErrProducerWithLeftOver).

Definition store {A} (put : A → W → W) (w : W) (m : outcome (Deserializer * option A))
    : outcome (Deserializer * W) :=
  '(d, o) ← m; Ret (d, match o with Some v => put v w | None => w end).

Definition run_read (c : read_call) (d : Deserializer) (w : W) : outcome (Deserializer * W) :=
  let keep (m : outcome Deserializer) := d ← m; Ret (d, w) in
  match c with
  | CSkip n ep => keep (Skip d n ep)
  | CReadBool put ep => store put w (ReadBool d ep)
  | CReadByte put ep => store put w (ReadByte d ep)
  | CReadUint256 put ep => store put w (ReadUint256 d ep)
  | CReadNum dest put ep => store put w (ReadNum d dest ep)
  | CReadBytes put n ep => store put w (ReadBytes d n ep)
  | CReadBytesInPlace get put ep => store put w (ReadBytesInPlace d (get w) ep)
  | CReadVariableByteSlice put lt ep mn mx => store put w (ReadVariableByteSlice d lt ep mn mx)
  | CReadString put lt ep mn mx => store put w (ReadString d lt ep mn mx)
  | CReadTime put ep => store put w (ReadTime d ep)
  | CReadObject t put mode ctx den sel ep => store put w (ReadObject d t mode ctx den sel ep)
  | CReadSequenceOfObjects item mode lt ar ep => ReadSequenceOfObjects d w item mode lt ar ep
  | CReadSliceOfObjects t put mode ctx lt den ar ep =>
      store put w (ReadSliceOfObjects d t mode ctx lt den ar ep)
  | CReadPayload t put mode ctx sel ep => store put w (ReadPayload d t mode ctx sel ep)
  | CDAbortIf ep => keep (Ret (d_AbortIf d ep))
  | CDWithValidation mode ep => keep (d_WithValidation d mode ep)
  | CCheckTypePrefix prefix den ep => keep (CheckTypePrefix d prefix den ep)
  | CDDo f => Ret (d_Do d f w)
  | CConsumedAll ep => keep (ConsumedAll d ep)
  end.

Fixpoint run_reads (cs : list read_call) (d : Deserializer) (w : W) : outcome (Deserializer * W) :=
  match cs with
  | [] => Ret (d, w)
  | c :: cs => '(d, w) ← run_read c d w; run_reads cs d w
  end.

(** ** A recorded error stops a chain *)

Lemma run_write_sticky c s w : s_err s ≠ None → run_write c s w = Ret (s, w).
Proof.
  intros He. destruct (s_err s) as [e|] eqn:E; [|done].
  destruct c; cbn [run_write];
    unfold AbortIf, WithValidation, Do, WriteNum, WriteUint256, WriteBool, WriteByte, WriteBytes,
      WriteVariableByteSlice, WriteString, write_bounded, WriteSliceOfByteSlices,
      WriteSliceOfObjects, WriteObject, WriteTime, WritePayload, WritePayloadLength, when_ok;
    by rewrite E.
Qed.

Lemma run_read_sticky c d w : d_err d ≠ None → run_read c d w = Ret (d, w).
Proof.
  intros He. destruct (d_err d) as [e|] eqn:E; [|done].
  destruct c; cbn [run_read];
    unfold store, Skip, ReadBool, ReadByte, ReadUint256, ReadNum, ReadBytes, ReadBytesInPlace,
      ReadVariableByteSlice, ReadString, ReadTime, ReadObject, readObject, ReadSequenceOfObjects,
      ReadSliceOfObjects, ReadPayload, d_AbortIf, d_WithValidation, CheckTypePrefix, d_Do,
      ConsumedAll, d_when_ok;
    by rewrite E.
Qed.

Lemma run_writes_sticky cs s w : s_err s ≠ None → run_writes cs s w = Ret (s, w).
Proof.
  intros He. induction cs as [|c cs IH]; [done|]. cbn [run_writes]. by rewrite run_write_sticky.
Qed.

Lemma run_reads_sticky cs d w : d_err d ≠ None → run_reads cs d w = Ret (d, w).
Proof.
  intros He. induction cs as [|c cs IH]; [done|]. cbn [run_reads]. by rewrite run_read_sticky.
Qed.

Lemma run_writes_app cs1 cs2 s w :
  run_writes (cs1 ++ cs2) s w = ('(s, w) ← run_writes cs1 s w; run_writes cs2 s w).
Proof.
  revert s w. induction cs1 as [|c cs1 IH]; intros s w; [done|]. cbn [app run_writes].
  destruct (run_write c s w) as [[s1 w1]|]; [apply IH|done].
Qed.

Lemma run_reads_app cs1 cs2 d w :
  run_reads (cs1 ++ cs2) d w = ('(d, w) ← run_reads cs1 d w; run_reads cs2 d w).
Proof.
  revert d w. induction cs1 as [|c cs1 IH]; intros d w; [done|]. cbn [app run_reads].
  destruct (run_read c d w) as [[d1 w1]|]; [apply IH|done].
Qed.

(** C38: errors are sticky in chains of any methods that return their receiver: [AbortIf],
    [WithValidation], [Do] and the 13 Write methods of the [Serializer]; [Skip], [AbortIf],
    [WithValidation], [CheckTypePrefix], [Do], [ConsumedAll] and the 13 Read methods of the
    [Deserializer] that do, for any [Serializable] and any arguments. Once the first calls
    of a chain have left an error, the rest of the chain returns (also where a call with its
    arguments would panic otherwise), leaves the buffer, the offset and the error as they
    were, runs no callback and stores nothing in the caller's variables; [Serialize] then
    returns a nil slice with that error, [Done] the offset with that error. Not covered:
    [ReadPayloadLength], which returns a length, ignores the error and advances the offset
    also then ([ReadPayloadLength_ignores_error]); [RemainingBytes], [GetObjectType] and
    [Written] only look. *)
Theorem errors_are_sticky writes writes' s w s' w' reads reads' d v d' v' e e' :
  run_writes writes s w = Ret (s', w') → s_err s' = Some e →
  run_reads reads d v = Ret (d', v') → d_err d' = Some e' →
  run_writes (writes ++ writes') s w = Ret (s', w') ∧ Serialize s' = (None, Some e) ∧
  run_reads (reads ++ reads') d v = Ret (d', v') ∧ Done d' = (offset d', Some e').
Proof.
  intros Hw Hs Hr Hd. rewrite run_writes_app, run_reads_app, Hw, Hr. cbn [mbind outcome_bind].
  rewrite run_writes_sticky, run_reads_sticky by congruence.
  unfold Serialize, Done. by rewrite Hs, Hd.
Qed.

End chains.
Arguments write_call : clear implicits.
Arguments read_call : clear implicits.

(** [ReadPayloadLength] moves the offset of a deserializer that has an error. *)
Lemma ReadPayloadLength_ignores_error d rest :
  (∃ pre, src d = pre ++ rest ∧ offset d = len pre) → PayloadLengthByteSize ≤ len rest →
  ReadPayloadLength d = Ret (advance d PayloadLengthByteSize, le_num (front 4 rest), None).
Proof.
  intros Hd Hl. unfold ReadPayloadLength.
  assert (RemainingBytes d = Ret rest) as ->.
  { rewrite <-(RemainingBytes_set_err d None). by apply RemainingBytes_at. }
  cbn [mbind outcome_bind]. by rewrite (proj2 (Z.ltb_ge _ _)) by lia.
Qed.

Example ReadPayloadLength_after_error :
  ReadPayloadLength (d_set_err (NewDeserializer [x01; x00; x00; x00]) (Some ErrInvalidBytes)) =
  Ret ({| src := [x01; x00; x00; x00]; offset := 4; d_err := Some ErrInvalidBytes |}, 1, None).
Proof. reflexivity. Qed.

#[local] Existing Instance pair_serializable.

(** The second write fails; after it neither the callback, nor a write that would
    panic, nor the object has an effect.  The second read fails likewise. *)
Lemma errors_are_sticky_witness :
  run_writes (Ctx:=unit) [CWriteByte x07 (λ e, e); CWriteUint256 (Some (-1)) (λ e, e); CDo S;
              CWriteSliceOfObjects SourceOther 0 tt SeriLengthPrefixTypeAsUint64 pair_rules (λ e, e);
              CWriteObject (x01, x02) 0 tt (λ _, None) (λ e, e)] NewSerializer 0%nat =
    Ret ({| buf := [x07]; s_err := Some ErrUint256NumNegative |}, 0%nat) ∧
  run_reads (Obj:=byte * byte) (Ctx:=unit)
    [CReadByte (λ _, S) (λ e, e); CReadBool (λ _, S) (λ e, e);
     CReadNum OtherDest (λ _, S) (λ e, e); CDDo S]
    (NewDeserializer [x09; x02; x01]) 0%nat =
    Ret ({| src := [x09; x02; x01]; offset := 1; d_err := Some ErrDeserializationInvalidBoolValue |}, 1%nat).
Proof.
  destruct (errors_are_sticky (Obj:=byte * byte) (Ctx:=unit) (W:=nat)
    [CWriteByte x07 (λ e, e); CWriteUint256 (Some (-1)) (λ e, e)]
    [CDo S; CWriteSliceOfObjects SourceOther 0 tt SeriLengthPrefixTypeAsUint64 pair_rules (λ e, e);
     CWriteObject (x01, x02) 0 tt (λ _, None) (λ e, e)]
    NewSerializer 0%nat {| buf := [x07]; s_err := Some ErrUint256NumNegative |} 0%nat
    [CReadByte (λ _, S) (λ e, e); CReadBool (λ _, S) (λ e, e)]
    [CReadNum OtherDest (λ _, S) (λ e, e); CDDo S]
    (NewDeserializer [x09; x02; x01]) 0%nat
    {| src := [x09; x02; x01]; offset := 1; d_err := Some ErrDeserializationInvalidBoolValue |} 1%nat
    ErrUint256NumNegative ErrDeserializationInvalidBoolValue)
    as (H1 & _ & H2 & _); [vm_compute; reflexivity..|].
  by split.
Defined.
