(* ===== verification/Stream.v ===== *)
(** * serializer/stream: writing to and reading from streams

    [src/serializer/stream].  A function on a stream is a state transformer that
    may return an error or panic: [io].  The writer is a [ByteBuffer]
    ([byte_buffer.go]), the reader a [ByteReader] ([byte_reader.go]), which is a
    [bytes.Reader] of the standard library.  A value that Go returns together with
    an error is dropped, and memory for a slice is always found. *)

From S2P Require Import Prelude Bytes Serializable Serializer.

(** ** The monad *)

Definition io (S A : Type) : Type := S → outcome (S * (A + error)).

#[global] Instance io_ret S : MRet (io S) := λ A a s, Ret (s, inl a).
#[global] Instance io_bind S : MBind (io S) := λ A B f m s,
  match m s with
  | Ret (s, inl a) => f a s
  | Ret (s, inr e) => Ret (s, inr e)
  | Panic msg => Panic msg
  end.

Definition throw {S A} (e : error) : io S A := λ s, Ret (s, inr e).
Definition panic {S A} (msg : string) : io S A := λ _, Panic msg.

(** [if err != nil { return ierrors.Wrap(err, message) }]. *)
Definition wrapping {S A} (message : string) (m : io S A) : io S A := λ s,
  match m s with
  | Ret (s, inr e) => Ret (s, inr (ErrWrap e message))
  | r => r
  end.

Lemma bind_eq {S A B} (f : A → io S B) (m : io S A) s s' a :
  m s = Ret (s', inl a) → (m ≫= f) s = f a s'.
Proof. intros E. unfold mbind, io_bind. by rewrite E. Qed.

Lemma wrapping_eq {S A} msg (m : io S A) s s' a :
  m s = Ret (s', inl a) → wrapping msg m s = Ret (s', inl a).
Proof. intros E. unfold wrapping. by rewrite E. Qed.

(** ** ByteBuffer *)

Record ByteBuffer : Type := mkByteBuffer { b_buf : list byte; pos : Z }.

Definition NewByteBuffer (initialLength : list Z) : outcome ByteBuffer :=
  let length := match initialLength with [] => 0 | n :: _ => n end in
  if length <? 0 then Panic "makeslice: len out of range"
  else Ret (mkByteBuffer (replicate (Z.to_nat length) x00) 0).

(** [copy(dst[at:], p)] for [at] inside of [dst]: the new bytes. *)
Definition copy_at (dst : list byte) (at_ : nat) (p : list byte) : list byte :=
  take at_ dst ++ take (length dst - at_) p ++ drop (at_ + length p) dst.

Definition Write (p : list byte) : io ByteBuffer Z := λ w,
  if pos w <? 0 then Panic "slice bounds out of range" else
  let extra := pos w - len (b_buf w) in
  let buf := if extra >? 0 then b_buf w ++ replicate (Z.to_nat extra) x00 else b_buf w in
  let '(buf, n, p) :=
    if pos w <? len buf then
      let n := Nat.min (length buf - Z.to_nat (pos w)) (length p) in
      (copy_at buf (Z.to_nat (pos w)) p, Z.of_nat n, drop n p)
    else (buf, 0, p) in
  let '(buf, n) := if len p >? 0 then (buf ++ p, n + len p) else (buf, n) in
  Ret (mkByteBuffer buf (pos w + n), inl n).

Inductive whence : Type := SeekStart | SeekCurrent | SeekEnd | SeekOther (n : Z).

Definition Seek (offset : Z) (wh : whence) : io ByteBuffer Z := λ w,
  let newPos :=
    match wh with
    | SeekStart => offset
    | SeekCurrent => wrap I64 (pos w + offset)
    | SeekEnd => wrap I64 (len (b_buf w) + offset)
    | SeekOther _ => 0
    end in
  if newPos <? 0 then Ret (w, inr (ErrNew "negative result pos"))
  else Ret (mkByteBuffer (b_buf w) newPos, inl newPos).

Definition Close (w : ByteBuffer) : option error := None.

Definition Bytes (w : ByteBuffer) : list byte * option error := (b_buf w, None).

(** ** ByteReader *)

(** The bytes and the position of a [bytes.Reader]. *)
Record ByteReader : Type := mkByteReader { r_src : list byte; r_pos : Z }.

Definition NewByteReader (b : list byte) : ByteReader := mkByteReader b 0.

Definition Reader (w : ByteBuffer) : ByteReader := NewByteReader (b_buf w).

Definition r_rest (r : ByteReader) : list byte := drop (Z.to_nat (r_pos r)) (r_src r).

(** [b.Size()] minus [b.Len()]; a position behind the end leaves nothing. *)
Definition BytesRead (r : ByteReader) : Z := len (r_src r) - len (r_rest r).

Definition EOF : error := ErrNew "EOF".
Definition ErrUnexpectedEOF : error := ErrNew "unexpected EOF".

(** [bytes.Reader.Read] into a slice of length [n]: at the end it returns EOF, also for [n = 0]. *)
Definition reader_Read (n : Z) : io ByteReader (list byte) := λ r,
  if r_pos r >=? len (r_src r) then Ret (r, inr EOF)
  else
    let got := take (Z.to_nat n) (r_rest r) in
    Ret (mkByteReader (r_src r) (r_pos r + len got), inl got).

(** [io.ReadFull], which [binary.Read] uses. *)
Definition ReadFull (n : nat) : io ByteReader (list byte) := λ r,
  let got := take n (r_rest r) in
  let r' := mkByteReader (r_src r) (r_pos r + len got) in
  if (length got =? n)%nat then Ret (r', inl got)
  else if len got =? 0 then Ret (r', inr EOF)
  else Ret (r', inr ErrUnexpectedEOF).

(** [bytes.Reader.Seek]. *)
Definition reader_Seek (offset : Z) (wh : whence) : io ByteReader Z := λ r,
  let abs :=
    match wh with
    | SeekStart => Some offset
    | SeekCurrent => Some (wrap I64 (r_pos r + offset))
    | SeekEnd => Some (wrap I64 (len (r_src r) + offset))
    | SeekOther _ => None
    end in
  match abs with None => Ret (r, inr (ErrNew "bytes.Reader.Seek: invalid whence")) | Some abs =>
  if abs <? 0 then Ret (r, inr (ErrNew "bytes.Reader.Seek: negative position"))
  else Ret (mkByteReader (r_src r) abs, inl abs)
  end.

(** ** Seekers *)

Class Seeker (S : Type) : Type := seek : Z → whence → io S Z.
#[global] Instance ByteBuffer_Seeker : Seeker ByteBuffer := Seek.
#[global] Instance ByteReader_Seeker : Seeker ByteReader := reader_Seek.

Definition Offset {S} `{Seeker S} : io S Z := seek 0 SeekCurrent.
Definition Skip {S} `{Seeker S} (offset : Z) : io S Z := seek offset SeekCurrent.
Definition GoTo {S} `{Seeker S} (offset : Z) : io S Z := seek offset SeekStart.

(** ** Writing *)

(** The values of [allowedGenericTypes]; an array is one of the three sizes. *)
Inductive basic : Type :=
  | BBool (b : bool)
  | BInt (T : ity) (v : Z)
  | BArray (bytes : list byte).

Inductive basic_type : Type := TBool | TInt (T : ity) | TArray (size : nat).

Definition basic_size (t : basic_type) : nat :=
  match t with TBool => 1%nat | TInt T => ity_bytes T | TArray n => n end.

(** What [binary.Write] in little endian order writes. *)
Definition basic_bytes (v : basic) : list byte :=
  match v with
  | BBool b => [if b then x01 else x00]
  | BInt T v => le_bytes (ity_bytes T) v
  | BArray bytes => bytes
  end.

(** What [binary.Read] makes of the bytes; a bool is true unless the byte is 0. *)
Definition basic_of (t : basic_type) (bytes : list byte) : basic :=
  match t with
  | TBool => BBool (negb (le_num bytes =? 0))
  | TInt T => BInt T (Prelude.wrap T (le_num bytes))
  | TArray _ => BArray bytes
  end.

(** [Write[T]]. *)
Definition WriteBasic (value : basic) : io ByteBuffer () := Write (basic_bytes value);; mret ().

Definition WriteBytes (bytes : list byte) : io ByteBuffer () := Write bytes;; mret ().

Definition out_of_range : error :=
  ErrNew "unable to serialize collection length: length %d is out of range (0-%d)".

Definition writeFixedSize (l : Z) (lenType : SeriLengthPrefixType) : io ByteBuffer () :=
  match lenType with
  | SeriLengthPrefixTypeAsByte =>
      if l >? ity_max U8 then throw out_of_range
      else wrapping "unable to write length" (WriteBasic (BInt U8 (wrap U8 l)))
  | SeriLengthPrefixTypeAsUint16 =>
      if l >? ity_max U16 then throw out_of_range
      else wrapping "unable to write length" (WriteBasic (BInt U16 (wrap U16 l)))
  | SeriLengthPrefixTypeAsUint32 =>
      if l >? ity_max U32 then throw out_of_range
      else wrapping "unable to write length" (WriteBasic (BInt U32 (wrap U32 l)))
  | SeriLengthPrefixTypeAsUint64 =>
      wrapping "unable to write length" (WriteBasic (BInt U64 (wrap U64 l)))
  | SeriLengthPrefixTypeOther _ => panic "unknown slice length type %v"
  end.

Definition WriteBytesWithSize (bytes : list byte) (lenType : SeriLengthPrefixType) : io ByteBuffer () :=
  wrapping "failed to write bytes length" (writeFixedSize (len bytes) lenType);;
  wrapping "failed to write bytes" (WriteBytes bytes).

Definition WriteObject {T} (target : T) (objectToBytesFunc : T → list byte + error) : io ByteBuffer () :=
  match objectToBytesFunc target with
  | inr err => throw (ErrWrap err "failed to serialize target")
  | inl serializedBytes => wrapping "failed to write target" (WriteBytes serializedBytes)
  end.

Definition WriteObjectWithSize {T} (target : T) (lenType : SeriLengthPrefixType)
    (objectToBytesFunc : T → list byte + error) : io ByteBuffer () :=
  match objectToBytesFunc target with
  | inr err => throw (ErrWrap err "failed to serialize object")
  | inl serializedBytes =>
      wrapping "failed to write serialized bytes" (WriteBytesWithSize serializedBytes lenType)
  end.

Definition WriteCollection (lenType : SeriLengthPrefixType) (writeCallback : io ByteBuffer Z) :
    io ByteBuffer () :=
  startOffset ← wrapping "failed to get start offset" Offset;
  wrapping "failed to skip elements count" (writeFixedSize 0 lenType);;
  elementsCount ← wrapping "failed to write collection" writeCallback;
  endOffset ← wrapping "failed to read end offset of collection" Offset;
  wrapping "failed to seek to start of attestors" (GoTo startOffset);;
  wrapping "failed to write elements count" (writeFixedSize elementsCount lenType);;
  wrapping "failed to seek to end of attestors" (GoTo endOffset);;
  mret ().

(** ** Reading *)

(** [Read[T]]. *)
Definition ReadBasic (t : basic_type) : io ByteReader basic :=
  bytes ← ReadFull (basic_size t);
  mret (basic_of t bytes).

Definition ReadBytes (length : Z) : io ByteReader (list byte) :=
  if length <? 0 then panic "makeslice: len out of range" else
  readBytes ← wrapping "failed to read serialized bytes" (reader_Read length);
  if negb (len readBytes =? length) then
    throw (ErrNew "failed to read serialized bytes: read bytes (%d) != size (%d)")
  else mret readBytes.

(** [int(result)] of the prefix that was read. *)
Definition size_of (v : basic) : Z := match v with BInt _ v => wrap I64 v | _ => 0 end.

Definition readFixedSize (lenType : SeriLengthPrefixType) : io ByteReader Z :=
  let read T := v ← wrapping "failed to read length prefix" (ReadBasic (TInt T)); mret (size_of v) in
  match lenType with
  | SeriLengthPrefixTypeAsByte => read U8
  | SeriLengthPrefixTypeAsUint16 => read U16
  | SeriLengthPrefixTypeAsUint32 => read U32
  | SeriLengthPrefixTypeAsUint64 => read U64
  | SeriLengthPrefixTypeOther _ => panic "unknown slice length type %v"
  end.

Definition ReadBytesWithSize (lenType : SeriLengthPrefixType) : io ByteReader (list byte) :=
  size ← wrapping "failed to read bytes size" (readFixedSize lenType);
  if size =? 0 then mret [] else ReadBytes size.

Definition ReadObject {T} (fixedLen : Z) (objectFromBytesFunc : list byte → (T * Z) + error) :
    io ByteReader T :=
  readBytes ← wrapping "failed to read serialized bytes" (ReadBytes fixedLen);
  match objectFromBytesFunc readBytes with
  | inr err => throw (ErrWrap err "failed to parse bytes of objectFromBytesFunc")
  | inl (result, consumedBytes) =>
      if negb (consumedBytes =? len readBytes) then
        throw (ErrNew "failed to parse objectFromBytesFunc: consumed bytes (%d) != read bytes (%d)")
      else mret result
  end.

Definition ReadObjectWithSize {T} (lenType : SeriLengthPrefixType)
    (objectFromBytesFunc : list byte → (T * Z) + error) : io ByteReader T :=
  size ← wrapping "failed to read object size" (readFixedSize lenType);
  ReadObject size objectFromBytesFunc.

Definition PeekSize (lenType : SeriLengthPrefixType) : io ByteReader Z :=
  startOffset ← wrapping "failed to get start offset" Offset;
  elementsCount ← wrapping "failed to read collection count" (readFixedSize lenType);
  wrapping "failed to go back to start offset" (GoTo startOffset);;
  mret elementsCount.

(** The loop over the elements; the callback keeps what it reads in a state [A]. *)
Fixpoint read_elements {A} (n : nat) (i : Z) (readCallback : Z → A → io ByteReader A) (a : A) :
    io ByteReader A :=
  match n with
  | O => mret a
  | S n =>
      a ← wrapping "failed to read element %d" (readCallback i a);
      read_elements n (i + 1) readCallback a
  end.

Definition ReadCollection {A} (lenType : SeriLengthPrefixType) (readCallback : Z → A → io ByteReader A)
    (a : A) : io ByteReader A :=
  elementsCount ← wrapping "failed to read collection count" (readFixedSize lenType);
  read_elements (Z.to_nat elementsCount) 0 readCallback a.

(** ** What a write does *)

(** The bytes with [p] put at position [n], filled up with null bytes before it. *)
Definition overlay (buf : list byte) (n : nat) (p : list byte) : list byte :=
  take n (buf ++ replicate (n - length buf) x00) ++ p ++ drop (n + length p) buf.

Lemma Write_overlay p w :
  0 ≤ pos w →
  Write p w = Ret (mkByteBuffer (overlay (b_buf w) (Z.to_nat (pos w)) p) (pos w + len p), inl (len p)).
Proof.
  intros Hpos. unfold Write. destruct (Z.ltb_spec (pos w) 0); [lia|]. cbv zeta.
  destruct w as [buf z]. cbn [b_buf pos] in *. remember (Z.to_nat z) as n eqn:En.
  assert (z = Z.of_nat n) as -> by lia. clear En.
  set (buf' := if _ >? 0 then _ else _).
  assert (buf' = buf ++ replicate (n - length buf) x00) as Hbuf'.
  { unfold buf', len. rewrite Z.gtb_ltb. destruct (Z.ltb_spec 0 (Z.of_nat n - Z.of_nat (length buf))).
    - f_equal. f_equal. lia.
    - replace (n - length buf)%nat with 0%nat by lia. by rewrite app_nil_r. }
  clearbody buf'. subst buf'. set (buf' := buf ++ _).
  assert (length buf' = Nat.max n (length buf)) as Hl by (unfold buf'; rewrite length_app, length_replicate; lia).
  assert (drop (n + length p) buf' = drop (n + length p) buf) as Hdrop.
  { unfold buf'. rewrite drop_app. destruct (decide (n ≤ length buf)%nat).
    - replace (n - length buf)%nat with 0%nat by lia. cbn [replicate]. by rewrite drop_nil, app_nil_r.
    - rewrite (drop_ge (replicate _ _)) by (rewrite length_replicate; lia). by rewrite app_nil_r. }
  unfold overlay. fold buf'. rewrite <-Hdrop.
  destruct (Z.ltb_spec (Z.of_nat n) (len buf')) as [Hlt|Hge]; unfold len in Hlt || unfold len in Hge;
    cbn [fst snd]; rewrite ?Nat2Z.id.
  - unfold copy_at. destruct (decide (length p ≤ length buf' - n)%nat) as [Hs|Hs].
    + rewrite Nat.min_r by lia. rewrite drop_all. simpl. rewrite (take_ge p) by lia. done.
    + rewrite Nat.min_l by lia. rewrite Z.gtb_ltb.
      assert (0 < len (drop (length buf' - n) p)) as Hd by (unfold len; rewrite length_drop; lia).
      rewrite (proj2 (Z.ltb_lt _ _) Hd). rewrite (drop_ge buf') by lia. rewrite !app_nil_r.
      rewrite <-app_assoc, take_drop. do 3 f_equal; unfold len; rewrite length_drop; lia.
  - rewrite (drop_ge buf') by lia. rewrite app_nil_r, Z.gtb_ltb. rewrite (take_ge buf') by lia.
    destruct (Z.ltb_spec 0 (len p)) as [Hp|Hp].
    + do 3 f_equal; lia.
    + destruct p; [|unfold len in Hp; simpl in Hp; lia]. by rewrite app_nil_r.
Qed.

(** ** Programs that append bytes, and programs that read them *)

(** The buffer stays shorter than the largest [int]. *)
Definition writes {A} (m : io ByteBuffer A) (bs : list byte) (a : A) : Prop :=
  ∀ buf, len (buf ++ bs) ≤ ity_max I64 →
    m (mkByteBuffer buf (len buf)) = Ret (mkByteBuffer (buf ++ bs) (len buf + len bs), inl a).

Definition reads {A} (m : io ByteReader A) (bs : list byte) (a : A) : Prop :=
  ∀ pre post, m (mkByteReader (pre ++ bs ++ post) (len pre)) =
    Ret (mkByteReader (pre ++ bs ++ post) (len pre + len bs), inl a).

Lemma writes_bind {A B} (m : io ByteBuffer A) (f : A → io ByteBuffer B) bs bs' a b :
  writes m bs a → writes (f a) bs' b → writes (m ≫= f) (bs ++ bs') b.
Proof.
  intros Hm Hf buf Hl. rewrite app_assoc, len_app in Hl. pose proof (len_nonneg bs').
  rewrite (bind_eq _ _ _ _ _ (Hm buf ltac:(lia))). rewrite <-len_app, Hf, app_assoc by (rewrite len_app; lia).
  do 3 f_equal. rewrite !len_app. lia.
Qed.

Lemma writes_ret {A} (a : A) : writes (mret a) [] a.
Proof. intros buf _. unfold mret, io_ret. by rewrite app_nil_r, Z.add_0_r. Qed.

Lemma writes_wrapping {A} msg (m : io ByteBuffer A) bs a : writes m bs a → writes (wrapping msg m) bs a.
Proof. intros Hm buf Hl. by apply wrapping_eq, Hm. Qed.

Lemma writes_Write p : writes (Write p) p (len p).
Proof.
  intros buf _. rewrite Write_overlay by apply len_nonneg. cbn [b_buf pos]. unfold overlay, len.
  rewrite Nat2Z.id, Nat.sub_diag. simpl. rewrite app_nil_r, take_ge by lia.
  by rewrite drop_ge, app_nil_r by lia.
Qed.

Lemma writes_WriteBytes p : writes (WriteBytes p) p ().
Proof.
  unfold WriteBytes. rewrite <-(app_nil_r p) at 2. eapply writes_bind; [apply writes_Write|apply writes_ret].
Qed.

Lemma reads_bind {A B} (m : io ByteReader A) (f : A → io ByteReader B) bs bs' a b :
  reads m bs a → reads (f a) bs' b → reads (m ≫= f) (bs ++ bs') b.
Proof.
  intros Hm Hf pre post. rewrite <-app_assoc. rewrite (bind_eq _ _ _ _ _ (Hm pre (bs' ++ post))).
  rewrite app_assoc, <-len_app, Hf. do 3 f_equal. rewrite !len_app. lia.
Qed.

Lemma reads_ret {A} (a : A) : reads (mret a) [] a.
Proof. intros pre post. unfold mret, io_ret. by rewrite Z.add_0_r. Qed.

Lemma reads_wrapping {A} msg (m : io ByteReader A) bs a : reads m bs a → reads (wrapping msg m) bs a.
Proof. intros Hm pre post. by apply wrapping_eq. Qed.

Lemma reads_bind_ret {A B} (m : io ByteReader A) (f : A → B) bs a :
  reads m bs a → reads (x ← m; mret (f x)) bs (f a).
Proof. intros Hm. rewrite <-(app_nil_r bs). eapply reads_bind; [done|apply reads_ret]. Qed.

Lemma r_rest_at pre bs post : r_rest (mkByteReader (pre ++ bs ++ post) (len pre)) = bs ++ post.
Proof. unfold r_rest, len. cbn [r_src r_pos]. by rewrite Nat2Z.id, drop_app_length. Qed.

Lemma reads_ReadFull bs : reads (ReadFull (length bs)) bs bs.
Proof.
  intros pre post. unfold ReadFull. rewrite r_rest_at, take_app_length. by rewrite Nat.eqb_refl.
Qed.

(** A read of no bytes would meet the end of the stream. *)
Lemma reads_ReadBytes bs : bs ≠ [] → reads (ReadBytes (len bs)) bs bs.
Proof.
  intros Hne. unfold ReadBytes. destruct (Z.ltb_spec (len bs) 0) as [H|_]; [pose proof (len_nonneg bs); lia|].
  rewrite <-(app_nil_r bs) at 2. eapply reads_bind.
  - apply reads_wrapping. intros pre post. unfold reader_Read. rewrite r_rest_at. cbn [r_src r_pos].
    rewrite Z.geb_leb, (proj2 (Z.leb_gt _ _)).
    2: { rewrite !len_app. pose proof (len_nonneg post). destruct bs; [done|]. unfold len. simpl. lia. }
    unfold len at 2 3 4 5. rewrite Nat2Z.id, take_app_length. done.
  - rewrite Z.eqb_refl. apply reads_ret.
Qed.

(** ** Length prefixes and collections *)

Definition prefix_type (lt : SeriLengthPrefixType) : ity :=
  match lt with
  | SeriLengthPrefixTypeAsByte => U8
  | SeriLengthPrefixTypeAsUint16 => U16
  | SeriLengthPrefixTypeAsUint32 => U32
  | _ => U64
  end.

(** A length that the prefix can hold (and that is an [int]). *)
Definition fits (lt : SeriLengthPrefixType) (n : Z) : Prop :=
  match lt with
  | SeriLengthPrefixTypeOther _ => False
  | _ => 0 ≤ n ≤ ity_max (prefix_type lt) ∧ n ≤ ity_max I64
  end.

Definition prefix_bytes (lt : SeriLengthPrefixType) (n : Z) : list byte :=
  le_bytes (ity_bytes (prefix_type lt)) n.

Lemma fits_range lt n : fits lt n → in_range (prefix_type lt) n ∧ in_range I64 n.
Proof. unfold fits, in_range. destruct lt; try done; simpl; ity_consts; lia. Qed.

Lemma fits_0 lt n : fits lt n → fits lt 0.
Proof. unfold fits. destruct lt; try done; ity_consts; lia. Qed.

Lemma len_prefix lt n m : len (prefix_bytes lt n) = len (prefix_bytes lt m).
Proof. unfold len, prefix_bytes. by rewrite !length_le_bytes. Qed.

Lemma writes_basic v : writes (WriteBasic v) (basic_bytes v) ().
Proof. apply writes_WriteBytes. Qed.

Lemma writes_writeFixedSize lt n : fits lt n → writes (writeFixedSize n lt) (prefix_bytes lt n) ().
Proof.
  intros Hf. pose proof (fits_range lt n Hf) as [Hr _]. unfold writeFixedSize, prefix_bytes.
  destruct lt; cbn [prefix_type fits] in *; try done; rewrite ?Z.gtb_ltb;
    rewrite ?(proj2 (Z.ltb_ge _ _)) by (unfold in_range in Hr; lia);
    rewrite wrap_id by done; apply writes_wrapping; eapply writes_basic.
Qed.

Lemma reads_readFixedSize lt n : fits lt n → reads (readFixedSize lt) (prefix_bytes lt n) n.
Proof.
  intros Hf. pose proof (fits_range lt n Hf) as [Hr Hi].
  assert (∀ T, T = prefix_type lt →
    reads (v ← wrapping "failed to read length prefix" (ReadBasic (TInt T)); mret (size_of v))
      (prefix_bytes lt n) n) as HT.
  { intros T ->. rewrite <-(wrap_id I64 n Hi) at 2. change (wrap I64 n) with (size_of (BInt (prefix_type lt) n)).
    apply reads_bind_ret, reads_wrapping. unfold ReadBasic.
    assert (BInt (prefix_type lt) n = basic_of (TInt (prefix_type lt)) (prefix_bytes lt n)) as ->.
    { cbn [basic_of]. f_equal. symmetry. by apply num_bytes_range. }
    apply reads_bind_ret. cbn [basic_size].
    replace (ity_bytes (prefix_type lt)) with (length (prefix_bytes lt n)) by apply length_le_bytes.
    apply reads_ReadFull. }
  unfold readFixedSize. destruct lt; try done; by apply HT.
Qed.

(** Seeking to a position that is not negative. *)
Lemma GoTo_eq n w : 0 ≤ n → GoTo n w = Ret (mkByteBuffer (b_buf w) n, inl n).
Proof. intros Hn. unfold GoTo, seek, ByteBuffer_Seeker, Seek. by rewrite (proj2 (Z.ltb_ge _ _)). Qed.

Lemma Offset_eq buf n : 0 ≤ n ≤ ity_max I64 → Offset (mkByteBuffer buf n) = Ret (mkByteBuffer buf n, inl n).
Proof.
  intros Hn. unfold Offset, seek, ByteBuffer_Seeker, Seek. cbn [pos b_buf]. rewrite Z.add_0_r.
  rewrite wrap_id by (unfold in_range; ity_consts; lia). by rewrite (proj2 (Z.ltb_ge _ _)) by lia.
Qed.

(** The count is written over the place that was skipped. *)
Lemma rewrite_count buf lt n bs :
  fits lt n →
  writeFixedSize n lt (mkByteBuffer (buf ++ prefix_bytes lt 0 ++ bs) (len buf)) =
    Ret (mkByteBuffer (buf ++ prefix_bytes lt n ++ bs) (len buf + len (prefix_bytes lt n)), inl ()).
Proof.
  intros Hf. assert (∀ T v, T = prefix_type lt → v = n →
    WriteBasic (BInt T v) (mkByteBuffer (buf ++ prefix_bytes lt 0 ++ bs) (len buf)) =
      Ret (mkByteBuffer (buf ++ prefix_bytes lt n ++ bs) (len buf + len (prefix_bytes lt n)), inl ())) as HT.
  { intros T v -> ->. unfold WriteBasic. erewrite bind_eq by (apply Write_overlay, len_nonneg).
    cbn [b_buf pos basic_bytes]. fold (prefix_bytes lt n). unfold mret, io_ret, overlay.
    unfold len at 1 2 3. rewrite Nat2Z.id. do 3 f_equal.
    replace (length buf - length (buf ++ prefix_bytes lt 0 ++ bs))%nat with 0%nat by (rewrite length_app; lia).
    cbn [replicate]. rewrite app_nil_r, take_app_length. f_equal. f_equal.
    rewrite drop_app_ge by lia. replace (length buf + length (prefix_bytes lt n) - length buf)%nat
      with (length (prefix_bytes lt 0)) by (unfold prefix_bytes; rewrite !length_le_bytes; lia).
    by rewrite drop_app_length. }
  pose proof (fits_range lt n Hf) as [Hr _]. unfold writeFixedSize.
  destruct lt; cbn [prefix_type fits] in *; try done; rewrite ?Z.gtb_ltb;
    rewrite ?(proj2 (Z.ltb_ge _ _)) by (unfold in_range in Hr; lia);
    apply wrapping_eq, HT; try done; by apply wrap_id.
Qed.

Lemma writes_WriteCollection lt n m bs :
  fits lt n → writes m bs n → writes (WriteCollection lt m) (prefix_bytes lt n ++ bs) ().
Proof.
  intros Hf Hm buf Hl. unfold WriteCollection. pose proof (len_nonneg buf).
  assert (len (buf ++ prefix_bytes lt 0) + len bs ≤ ity_max I64) as Hl'.
  { rewrite !len_app, (len_prefix lt n 0) in Hl. rewrite len_app. lia. }
  pose proof (len_nonneg bs). pose proof (len_nonneg (prefix_bytes lt 0)).
  pose proof (len_nonneg (buf ++ prefix_bytes lt 0)).
  assert (0 ≤ len buf ≤ ity_max I64) as Hb by (rewrite len_app in Hl'; lia).
  rewrite (bind_eq _ _ _ _ _ (wrapping_eq _ _ _ _ _ (Offset_eq _ _ Hb))). cbn [pos].
  rewrite (bind_eq _ _ _ _ _ (wrapping_eq _ _ _ _ _ (writes_writeFixedSize lt 0 (fits_0 _ _ Hf) buf ltac:(lia)))).
  rewrite <-len_app, (bind_eq _ _ _ _ _ (wrapping_eq _ _ _ _ _ (Hm (buf ++ prefix_bytes lt 0) ltac:(rewrite len_app; lia)))).
  rewrite (bind_eq _ _ _ _ _ (wrapping_eq _ _ _ _ _ (Offset_eq _ (len (buf ++ prefix_bytes lt 0) + len bs) ltac:(lia)))).
  rewrite (bind_eq _ _ _ _ _ (wrapping_eq _ _ _ _ _ (GoTo_eq _ _ H))). cbn [pos b_buf].
  rewrite <-app_assoc, (bind_eq _ _ _ _ _ (wrapping_eq _ _ _ _ _ (rewrite_count _ _ _ _ Hf))).
  rewrite (bind_eq _ _ _ _ _ (wrapping_eq _ _ _ _ _ (GoTo_eq (len (buf ++ prefix_bytes lt 0) + len bs) _ ltac:(lia)))).
  cbn [pos b_buf]. unfold mret, io_ret. do 3 f_equal.
  rewrite !len_app, (len_prefix lt 0 n). lia.
Qed.

(** Nothing but the count is consumed when it is peeked at. *)
Lemma PeekSize_eq lt n pre post :
  fits lt n → len pre ≤ ity_max I64 →
  PeekSize lt (mkByteReader (pre ++ prefix_bytes lt n ++ post) (len pre)) =
    Ret (mkByteReader (pre ++ prefix_bytes lt n ++ post) (len pre), inl n).
Proof.
  intros Hf Hpre. unfold PeekSize. pose proof (len_nonneg pre).
  set (r := mkByteReader _ _).
  assert (Offset r = Ret (r, inl (len pre))) as E.
  { unfold Offset, seek, ByteReader_Seeker, reader_Seek, r. cbn [r_pos r_src]. rewrite Z.add_0_r.
    rewrite wrap_id by (unfold in_range; ity_consts; lia). by rewrite (proj2 (Z.ltb_ge _ _)). }
  rewrite (bind_eq _ _ _ _ _ (wrapping_eq _ _ _ _ _ E)).
  rewrite (bind_eq _ _ _ _ _ (wrapping_eq _ _ _ _ _ (reads_readFixedSize lt n Hf pre post))).
  erewrite bind_eq; [done|]. apply wrapping_eq. unfold GoTo, seek, ByteReader_Seeker, reader_Seek.
  by rewrite (proj2 (Z.ltb_ge _ _)).
Qed.

(** ** Typed values *)

Inductive ty : Type :=
  | TyBasic (t : basic_type)
  | TyBytes (lt : SeriLengthPrefixType)
  | TyObject (size : Z)
  | TyObjectWithSize (lt : SeriLengthPrefixType)
  | TyCollection (lt : SeriLengthPrefixType) (t : ty).

Inductive sval (T : Type) : Type :=
  | SBasic (v : basic)
  | SBytes (bytes : list byte)
  | SObject (o : T)
  | SCollection (xs : list (sval T)).
Arguments SBasic {T} _.
Arguments SBytes {T} _.
Arguments SObject {T} _.
Arguments SCollection {T} _.

Section Values.
Context {T : Type}.
Variables (toBytes : T → list byte + error) (fromBytes : list byte → (T * Z) + error).

Fixpoint write_all {A} (f : A → io ByteBuffer ()) (xs : list A) : io ByteBuffer () :=
  match xs with
  | [] => mret ()
  | x :: xs => f x;; write_all f xs
  end.

(** The write function for a value of a type. *)
Fixpoint write_val (t : ty) (x : sval T) : io ByteBuffer () :=
  match t, x with
  | TyBasic _, SBasic v => WriteBasic v
  | TyBytes lt, SBytes bytes => WriteBytesWithSize bytes lt
  | TyObject _, SObject o => WriteObject o toBytes
  | TyObjectWithSize lt, SObject o => WriteObjectWithSize o lt toBytes
  | TyCollection lt t, SCollection xs =>
      WriteCollection lt (write_all (write_val t) xs;; mret (len xs))
  | _, _ => throw (ErrNew "value of another type")
  end.

(** The read function for a type. *)
Fixpoint read_val (t : ty) : io ByteReader (sval T) :=
  match t with
  | TyBasic t => v ← ReadBasic t; mret (SBasic v)
  | TyBytes lt => bytes ← ReadBytesWithSize lt; mret (SBytes bytes)
  | TyObject size => o ← ReadObject size fromBytes; mret (SObject o)
  | TyObjectWithSize lt => o ← ReadObjectWithSize lt fromBytes; mret (SObject o)
  | TyCollection lt t =>
      xs ← ReadCollection lt (λ _ xs, x ← read_val t; mret (xs ++ [x])) [];
      mret (SCollection xs)
  end.

Definition basic_ok (t : basic_type) (v : basic) : Prop :=
  match t, v with
  | TBool, BBool _ => True
  | TInt T, BInt T' v => T = T' ∧ in_range T v
  | TArray n, BArray bytes => length bytes = n
  | _, _ => False
  end.

(** The object has an encoding, not empty, that is decoded to it. *)
Definition object_ok (o : T) : Prop :=
  ∃ b, toBytes o = inl b ∧ b ≠ [] ∧ fromBytes b = inl (o, len b).

Definition object_bytes (o : T) : list byte := match toBytes o with inl b => b | inr _ => [] end.

Fixpoint val_ok (t : ty) (x : sval T) : Prop :=
  match t, x with
  | TyBasic t, SBasic v => basic_ok t v
  | TyBytes lt, SBytes bytes => fits lt (len bytes)
  | TyObject size, SObject o => object_ok o ∧ len (object_bytes o) = size
  | TyObjectWithSize lt, SObject o => object_ok o ∧ fits lt (len (object_bytes o))
  | TyCollection lt t, SCollection xs => fits lt (len xs) ∧ Forall (val_ok t) xs
  | _, _ => False
  end.

Fixpoint val_bytes (t : ty) (x : sval T) : list byte :=
  match t, x with
  | TyBasic _, SBasic v => basic_bytes v
  | TyBytes lt, SBytes bytes => prefix_bytes lt (len bytes) ++ bytes
  | TyObject _, SObject o => object_bytes o
  | TyObjectWithSize lt, SObject o => prefix_bytes lt (len (object_bytes o)) ++ object_bytes o
  | TyCollection lt t, SCollection xs => prefix_bytes lt (len xs) ++ concat (val_bytes t <$> xs)
  | _, _ => []
  end.

Lemma writes_WriteBytesWithSize bytes lt :
  fits lt (len bytes) → writes (WriteBytesWithSize bytes lt) (prefix_bytes lt (len bytes) ++ bytes) ().
Proof.
  intros Hf. eapply writes_bind; apply writes_wrapping; [by apply writes_writeFixedSize|apply writes_WriteBytes].
Qed.

Lemma writes_all {A} (f : A → io ByteBuffer ()) (enc : A → list byte) xs :
  Forall (λ x, writes (f x) (enc x) ()) xs → writes (write_all f xs) (concat (enc <$> xs)) ().
Proof.
  induction 1 as [|x xs Hx _ IH]; [apply writes_ret|]. rewrite fmap_cons. cbn [concat write_all].
  by eapply writes_bind.
Qed.

Lemma writes_val t x : val_ok t x → writes (write_val t x) (val_bytes t x) ().
Proof.
  revert x. induction t as [t|lt|size|lt|lt t IH]; intros [v|bytes|o|xs] Hok; try done; cbn [write_val val_bytes].
  - apply writes_basic.
  - by apply writes_WriteBytesWithSize.
  - destruct Hok as [(b & Hb & _) _]. unfold WriteObject, object_bytes. rewrite Hb.
    apply writes_wrapping, writes_WriteBytes.
  - destruct Hok as [(b & Hb & _) Hf]. unfold WriteObjectWithSize. unfold object_bytes in *. rewrite Hb in *.
    by apply writes_wrapping, writes_WriteBytesWithSize.
  - destruct Hok as [Hf Hxs]. apply writes_WriteCollection; [done|].
    rewrite <-(app_nil_r (concat _)). eapply writes_bind; [|apply writes_ret].
    apply writes_all. eapply Forall_impl; [exact Hxs|]. apply IH.
Qed.

Lemma reads_basic t v : basic_ok t v → reads (ReadBasic t) (basic_bytes v) v.
Proof.
  intros Hok. assert (length (basic_bytes v) = basic_size t ∧ basic_of t (basic_bytes v) = v) as [Hl Hv].
  { destruct t as [|T'|n], v as [b|T'' v|bytes]; try done; cbn [basic_ok basic_size basic_of basic_bytes] in *.
    - by destruct b.
    - destruct Hok as [<- Hr]. rewrite length_le_bytes. split; [done|]. f_equal.
      by apply num_bytes_range. }
  rewrite <-Hv at 2. unfold ReadBasic. rewrite <-Hl. apply reads_bind_ret, reads_ReadFull.
Qed.

Lemma reads_ReadObject o : object_ok o → reads (ReadObject (len (object_bytes o)) fromBytes) (object_bytes o) o.
Proof.
  intros (b & Hb & Hne & Hd). unfold object_bytes, ReadObject. rewrite Hb. rewrite <-(app_nil_r b) at 2.
  eapply reads_bind; [by apply reads_wrapping, reads_ReadBytes|]. rewrite Hd, Z.eqb_refl. apply reads_ret.
Qed.

Lemma reads_elements t xs : ∀ i acc,
  Forall (λ x, reads (read_val t) (val_bytes t x) x) xs →
  reads (read_elements (length xs) i (λ _ xs, x ← read_val t; mret (xs ++ [x])) acc)
    (concat (val_bytes t <$> xs)) (acc ++ xs).
Proof.
  induction xs as [|x xs IH]; intros i acc Hxs.
  - rewrite app_nil_r. apply reads_ret.
  - apply Forall_cons in Hxs as [Hx Hxs]. rewrite fmap_cons. cbn [concat length read_elements].
    eapply reads_bind; [by apply reads_wrapping, (reads_bind_ret _ (λ x, acc ++ [x]))|].
    replace (acc ++ x :: xs) with ((acc ++ [x]) ++ xs) by (by rewrite <-app_assoc). by apply IH.
Qed.

Lemma reads_val t x : val_ok t x → reads (read_val t) (val_bytes t x) x.
Proof.
  revert x. induction t as [t|lt|size|lt|lt t IH]; intros [v|bytes|o|xs] Hok; try done; cbn [read_val val_bytes].
  - by apply (reads_bind_ret _ SBasic), reads_basic.
  - apply (reads_bind_ret _ SBytes). eapply reads_bind; [by apply reads_wrapping, reads_readFixedSize|].
    destruct (Z.eqb_spec (len bytes) 0) as [E|E].
    + destruct bytes; [apply reads_ret|unfold len in E; simpl in E; lia].
    + apply reads_ReadBytes. by intros ->.
  - destruct Hok as [Ho <-]. by apply (reads_bind_ret _ SObject), reads_ReadObject.
  - destruct Hok as [Ho Hf]. apply (reads_bind_ret _ SObject).
    eapply reads_bind; [by apply reads_wrapping, reads_readFixedSize|by apply reads_ReadObject].
  - destruct Hok as [Hf Hxs]. apply (reads_bind_ret _ SCollection).
    eapply reads_bind; [by apply reads_wrapping, reads_readFixedSize|].
    replace (Z.to_nat (len xs)) with (length xs) by (unfold len; lia).
    apply (reads_elements t xs 0 []). eapply Forall_impl; [exact Hxs|]. apply IH.
Qed.

(** Reading one value after the other. *)
Fixpoint read_vals (ts : list ty) : io ByteReader (list (sval T)) :=
  match ts with
  | [] => mret []
  | t :: ts => x ← read_val t; xs ← read_vals ts; mret (x :: xs)
  end.

Lemma reads_vals fs :
  Forall (λ f, val_ok f.1 f.2) fs →
  reads (read_vals fs.*1) (concat ((λ f, val_bytes f.1 f.2) <$> fs)) fs.*2.
Proof.
  induction 1 as [|[t x] fs Hx _ IH]; [apply reads_ret|]. rewrite !fmap_cons. cbn [concat read_vals fst snd].
  eapply reads_bind; [by apply reads_val|]. by apply (reads_bind_ret _ (cons x)).
Qed.

End Values.

(** An object that is encoded as nothing cannot be read back at the end of the stream. *)
Lemma empty_object_at_the_end :
  ∃ w, WriteObjectWithSize tt SeriLengthPrefixTypeAsByte (λ _, inl []) (mkByteBuffer [] 0) = Ret (w, inl ()) ∧
    ∃ r e, ReadObjectWithSize SeriLengthPrefixTypeAsByte (λ _, inl (tt, 0)) (Reader w) = Ret (r, inr e) ∧
      Is e EOF = true.
Proof. eexists. split; [reflexivity|]. eexists _, _. split; reflexivity. Qed.

(** A length prefix of eight bytes can ask for a slice of negative length. *)
Lemma uint64_prefix_panics :
  ReadBytesWithSize SeriLengthPrefixTypeAsUint64 (NewByteReader (replicate 8 xff)) =
    Panic "makeslice: len out of range".
Proof. reflexivity. Qed.

(** ** Properties *)

(** Values round trip through a stream.  Basic values, byte slices with a
    length prefix, objects of fixed size or with a length prefix, and
    collections of such values, nested to any depth, whose count is written
    over the place that was skipped for it, are written to a new [ByteBuffer]
    one after the other without an error, as long as they fit into a slice; the reader of the buffer then returns
    the same values and has read exactly the bytes of the buffer. *)
Lemma stream_roundtrip {T} (toBytes : T → list byte + error) (fromBytes : list byte → (T * Z) + error)
    (fs : list (ty * sval T)) :
  Forall (λ f, val_ok toBytes fromBytes f.1 f.2) fs →
  len (concat ((λ f, val_bytes toBytes f.1 f.2) <$> fs)) ≤ ity_max I64 →
  ∃ w0 w r, NewByteBuffer [] = Ret w0 ∧
    write_all (λ f, write_val toBytes f.1 f.2) fs w0 = Ret (w, inl ()) ∧
    read_vals fromBytes fs.*1 (Reader w) = Ret (r, inl fs.*2) ∧ BytesRead r = len (b_buf w).
Proof.
  intros Hfs Hl. eexists. set (bs := concat ((λ f, val_bytes toBytes f.1 f.2) <$> fs)).
  exists (mkByteBuffer bs (len bs)), (mkByteReader bs (len bs)). split; [done|]. split_and!.
  - apply (writes_all _ (λ f, val_bytes toBytes f.1 f.2) fs) with (buf := []); [|exact Hl].
    eapply Forall_impl; [exact Hfs|]. intros f. apply writes_val.
  - pose proof (reads_vals toBytes fromBytes fs Hfs [] []) as E. rewrite app_nil_r in E. exact E.
  - unfold BytesRead, r_rest. cbn [r_src r_pos b_buf]. unfold len. rewrite Nat2Z.id, drop_all. simpl. lia.
Qed.

Lemma stream_roundtrip_witness :
  let fs := [(TyBytes SeriLengthPrefixTypeAsUint16, SBytes [x01; x02]);
             (TyCollection SeriLengthPrefixTypeAsByte (TyBasic (TInt I32)),
              SCollection [SBasic (BInt I32 (-5)); SBasic (BInt I32 7)]);
             (TyObjectWithSize SeriLengthPrefixTypeAsByte, SObject x09)] in
  ∃ w r, write_all (λ f, write_val (λ b, inl [b]) f.1 f.2) fs (mkByteBuffer [] 0) = Ret (w, inl ()) ∧
    read_vals (λ bs, match bs with b :: _ => inl (b, 1) | [] => inr EOF end) fs.*1 (Reader w) =
      Ret (r, inl fs.*2).
Proof.
  intros fs.
  destruct (stream_roundtrip (λ b, inl [b]) (λ bs, match bs with b :: _ => inl (b, 1) | [] => inr EOF end) fs)
    as (w0 & w & r & [= <-] & Hw & Hr & _).
  - repeat constructor; try done. by exists [x09].
  - done.
  - exists w, r. split; [exact Hw|exact Hr].
Defined.

(** Writing anywhere.  [Write] puts the bytes at the position, over what is
    there, behind the end after filling the gap with null bytes, and moves the
    position behind them; [WriteCollection] of a callback that appends elements
    leaves the count in front of them and the position at the end; [PeekSize]
    reads the count and leaves the position alone. *)
Lemma stream_positions p w lt n m bs pre post :
  0 ≤ pos w → fits lt n → writes m bs n → len pre ≤ ity_max I64 →
  Write p w = Ret (mkByteBuffer (overlay (b_buf w) (Z.to_nat (pos w)) p) (pos w + len p), inl (len p)) ∧
  writes (WriteCollection lt m) (prefix_bytes lt n ++ bs) () ∧
  PeekSize lt (mkByteReader (pre ++ prefix_bytes lt n ++ post) (len pre)) =
    Ret (mkByteReader (pre ++ prefix_bytes lt n ++ post) (len pre), inl n).
Proof.
  intros Hp Hf Hm Hpre. split_and!; [by apply Write_overlay|by apply writes_WriteCollection|by apply PeekSize_eq].
Qed.

Lemma stream_positions_witness :
  writes (WriteCollection SeriLengthPrefixTypeAsByte (WriteBytes [x07];; mret 1)) [x01; x07] ().
Proof.
  apply (stream_positions [] (mkByteBuffer [] 0) SeriLengthPrefixTypeAsByte 1
    (WriteBytes [x07];; mret 1) [x07] [] []); [done|by split| |done].
  apply (writes_bind _ _ [x07] [] () 1); [apply writes_WriteBytes|apply writes_ret].
Defined.
