(* ===== verification/Ring.v ===== *)
(** * Doubly linked rings

    The lemmas about doubly linked structures that [OrderedMap.v] and [LinkedList.v]
    share.  A structure is two partial functions [nx] and [pv] on nodes; a ring
    is a path from its root back to itself.  The nil-terminated list of
    [orderedmap] is a ring whose root is nil: the head is what comes after nil
    and the tail what comes before it. *)

From stdpp Require Import functions.
From S2P Require Import Prelude.

Section ring.
Context {P : Type} `{EqDecision P}.
Implicit Types (nx pv : P → option P) (x y z r e c p : P) (ls : list P).

Definition link nx pv x y : Prop := nx x = Some y ∧ pv y = Some x.

(** Consecutive nodes of [x, ls, y] are linked in both directions. *)
Fixpoint path nx pv x ls y : Prop :=
  match ls with
  | [] => link nx pv x y
  | z :: ls => link nx pv x z ∧ path nx pv z ls y
  end.

(** The node that follows the first one of a path, and the one before its last. *)
Definition next_in ls y : P := hd y ls.
Definition prev_in x ls : P := List.last ls x.

(** A ring of distinct nodes through its root. *)
Definition ring nx pv r ls : Prop := NoDup (r :: ls) ∧ path nx pv r ls r.

Lemma path_app nx pv x l1 z l2 y :
  path nx pv x (l1 ++ z :: l2) y ↔ path nx pv x l1 z ∧ path nx pv z l2 y.
Proof. revert x. induction l1 as [|w l1 IH]; intros x; simpl; [done|]. rewrite IH. tauto. Qed.

(** A path reads [nx] of all its nodes but the last and [pv] of all but the first. *)
Lemma path_frame nx pv nx' pv' x ls y :
  (∀ z, z = x ∨ z ∈ ls → nx' z = nx z) → (∀ z, z = y ∨ z ∈ ls → pv' z = pv z) →
  path nx pv x ls y → path nx' pv' x ls y.
Proof.
  revert x. induction ls as [|z ls IH]; intros x Hn Hp; simpl.
  - unfold link. by rewrite Hn, Hp by (by left).
  - intros [[H1 H2] H3]. split.
    + unfold link. rewrite Hn, Hp; [done| |by left]. right. constructor.
    + apply IH; [| |done].
      * intros w Hw. apply Hn. right. rewrite elem_of_cons. naive_solver.
      * intros w Hw. apply Hp. rewrite elem_of_cons. naive_solver.
Qed.

Lemma path_first nx pv x ls y :
  path nx pv x ls y → nx x = Some (next_in ls y) ∧ pv (next_in ls y) = Some x.
Proof. destruct ls; simpl; [done|]. by intros [? _]. Qed.

Lemma prev_in_snoc x ls z : prev_in x (ls ++ [z]) = z.
Proof. unfold prev_in. apply last_last. Qed.

Lemma prev_in_cases x ls : (ls = [] ∧ prev_in x ls = x) ∨ ∃ ls', ls = ls' ++ [prev_in x ls].
Proof.
  destruct ls as [|z ls' _] using rev_ind; [by left|]. right. exists ls'. by rewrite prev_in_snoc.
Qed.

Lemma path_last nx pv x ls y :
  path nx pv x ls y → nx (prev_in x ls) = Some y ∧ pv y = Some (prev_in x ls).
Proof.
  destruct (prev_in_cases x ls) as [[-> ->]|[ls' ->]]; [done|].
  rewrite prev_in_snoc. rewrite path_app. intros [_ [? ?]]. done.
Qed.

Lemma next_in_elem ls y : next_in ls y = y ∨ next_in ls y ∈ ls.
Proof. destruct ls; simpl; [by left|]. right. constructor. Qed.

Lemma prev_in_elem x ls : prev_in x ls = x ∨ prev_in x ls ∈ ls.
Proof.
  destruct (prev_in_cases x ls) as [[_ ?]|[ls' Hl]]; [by left|]. right. rewrite Hl at 2. set_solver.
Qed.

(** Linking a new node [e] in behind the first node of a path. *)
Definition insert_nx nx x e c : P → option P := <[e:=Some c]> (<[x:=Some e]> nx).
Definition insert_pv pv x e c : P → option P := <[c:=Some e]> (<[e:=Some x]> pv).

Lemma path_insert nx pv x ls y e :
  e ≠ x → e ≠ y → e ∉ ls → NoDup (x :: ls) → NoDup (ls ++ [y]) →
  path nx pv x ls y →
  path (insert_nx nx x e (next_in ls y)) (insert_pv pv x e (next_in ls y)) x (e :: ls) y.
Proof.
  intros Hx Hy Hls Hnd1 Hnd2 Hp. unfold insert_nx, insert_pv.
  destruct ls as [|z ls]; simpl in *.
  - unfold link. split; split;
      repeat first [rewrite fn_lookup_insert | rewrite fn_lookup_insert_ne by naive_solver]; done.
  - apply NoDup_cons in Hnd1 as [Hxz Hnd1], Hnd2 as [Hz Hnd2].
    rewrite elem_of_cons in Hxz, Hls. rewrite elem_of_app, list_elem_of_singleton in Hz.
    destruct Hp as [_ Hp]. split; [|split].
    + unfold link. split;
        repeat first [rewrite fn_lookup_insert | rewrite fn_lookup_insert_ne by naive_solver]; done.
    + unfold link. by rewrite !fn_lookup_insert.
    + eapply path_frame; [..|exact Hp]; intros w Hw; rewrite !fn_lookup_insert_ne; naive_solver.
Qed.

(** Unlinking the node behind [x]. *)
Definition remove_nx nx p c : P → option P := <[p:=Some c]> nx.
Definition remove_pv pv p c : P → option P := <[c:=Some p]> pv.

Lemma path_remove nx pv x ls y e :
  x ∉ ls → NoDup (ls ++ [y]) → path nx pv e ls y →
  path (remove_nx nx x (next_in ls y)) (remove_pv pv x (next_in ls y)) x ls y.
Proof.
  intros Hx Hnd Hp. unfold remove_nx, remove_pv. destruct ls as [|z ls]; simpl in *.
  - unfold link. by rewrite !fn_lookup_insert.
  - apply NoDup_cons in Hnd as [Hz Hnd]. rewrite elem_of_cons in Hx.
    rewrite elem_of_app, list_elem_of_singleton in Hz.
    destruct Hp as [_ Hp]. split; [unfold link; by rewrite !fn_lookup_insert|].
    eapply path_frame; [..|exact Hp]; intros w Hw; rewrite fn_lookup_insert_ne; naive_solver.
Qed.

Lemma NoDup_rotate r l1 l2 : NoDup (r :: l1 ++ l2) → NoDup ((l1 ++ l2) ++ [r]).
Proof. intros H. by rewrite (Permutation_app_comm (l1 ++ l2) [r]). Qed.

(** What distinctness of the nodes around [a] means. *)
Lemma NoDup_around r l1 a l2 :
  NoDup (r :: l1 ++ a :: l2) →
  (a ≠ r ∧ a ∉ l1 ∧ a ∉ l2) ∧ (r ∉ l1 ∧ r ∉ l2) ∧ (∀ x, x ∈ l1 → x ∉ l2) ∧
  NoDup l1 ∧ NoDup l2 ∧ NoDup (l2 ++ [r]) ∧ NoDup (r :: l1 ++ l2).
Proof.
  rewrite NoDup_cons, NoDup_app, NoDup_cons, elem_of_app, elem_of_cons.
  intros (Hr & H1 & Hd & Ha & H2).
  assert (∀ x, x ∈ l1 → x ≠ a ∧ x ∉ l2) as Hd'.
  { intros x Hx. specialize (Hd x Hx). rewrite elem_of_cons in Hd. tauto. }
  split_and!; try tauto.
  - intros ->. tauto.
  - intros Hx. by destruct (Hd' a Hx).
  - intros x Hx. apply (Hd' x Hx).
  - apply NoDup_app. split_and!; [done| |apply NoDup_singleton].
    intros x Hx ->%list_elem_of_singleton. tauto.
  - rewrite NoDup_cons, NoDup_app, elem_of_app. split_and!; try tauto.
    intros x Hx. apply (Hd' x Hx).
Qed.

(** Nodes differ because of where they are. *)
Ltac ring_ne Hd :=
  try done; intros ?; repeat match goal with H : _ ∨ _ |- _ => destruct H end; subst;
  first [done | tauto | by eapply Hd].

(** Inserting [e] behind the node that ends [l1] (the root when [l1] is empty). *)
Lemma ring_insert nx pv r l1 l2 e :
  ring nx pv r (l1 ++ l2) → e ∉ r :: l1 ++ l2 →
  ring (insert_nx nx (prev_in r l1) e (next_in l2 r)) (insert_pv pv (prev_in r l1) e (next_in l2 r))
    r (l1 ++ e :: l2).
Proof.
  intros [Hnd Hp] He. split.
  { rewrite (Permutation_app_comm l1 (e :: l2)). simpl. rewrite Permutation_swap.
    apply NoDup_cons. split; [|by rewrite (Permutation_app_comm l2 l1)].
    by rewrite (Permutation_app_comm l2 l1). }
  rewrite elem_of_cons, elem_of_app in He.
  destruct (prev_in_cases r l1) as [[-> ->]|[l1' Hl1]].
  { simpl in *. apply path_insert; try naive_solver. by apply (NoDup_rotate r []). }
  revert Hl1. generalize (prev_in r l1) as at_. intros at_ ->.
  rewrite elem_of_app, list_elem_of_singleton in He.
  rewrite <-app_assoc in *. simpl in *. rewrite path_app in *. destruct Hp as [Hp1 Hp2].
  apply NoDup_around in Hnd as ((?&?&?) & (?&?) & Hd & _ & Hnd & Hnd' & _).
  pose proof (next_in_elem l2 r) as Hc. split.
  - clear Hp2. eapply path_frame; [..|exact Hp1]; unfold insert_nx, insert_pv;
      revert Hc; generalize (next_in l2 r) as c; intros c Hc w Hw;
      rewrite !fn_lookup_insert_ne; ring_ne Hd.
  - apply path_insert; try tauto. by apply NoDup_cons.
Qed.

(** Removing the node between [l1] and [l2]. *)
Lemma ring_remove nx pv r l1 e l2 :
  ring nx pv r (l1 ++ e :: l2) →
  ring (remove_nx nx (prev_in r l1) (next_in l2 r)) (remove_pv pv (prev_in r l1) (next_in l2 r))
    r (l1 ++ l2).
Proof.
  intros [Hnd Hp]. rewrite path_app in Hp. destruct Hp as [Hp1 Hp2].
  apply NoDup_around in Hnd as ((?&?&?) & (?&?) & Hd & _ & Hnd2 & Hnd' & Hnd). split; [done|].
  destruct (prev_in_cases r l1) as [[-> ->]|[l1' Hl1]].
  { simpl in *. by apply path_remove with e. }
  revert Hl1. generalize (prev_in r l1) as at_. intros at_ ->.
  rewrite path_app in Hp1. destruct Hp1 as [Hp1 _].
  rewrite <-app_assoc in *. simpl in *. rewrite path_app.
  apply NoDup_around in Hnd as ((?&?&?) & (?&?) & Hd' & _).
  pose proof (next_in_elem l2 r) as Hc. split.
  - clear Hp2. eapply path_frame; [..|exact Hp1]; unfold remove_nx, remove_pv;
      revert Hc; generalize (next_in l2 r) as c; intros c Hc w Hw;
      rewrite !fn_lookup_insert_ne; ring_ne Hd'.
  - by apply path_remove with e.
Qed.

(** The neighbours of a node. *)
Lemma ring_node nx pv r l1 e l2 :
  ring nx pv r (l1 ++ e :: l2) →
  nx e = Some (next_in l2 r) ∧ pv e = Some (prev_in r l1).
Proof.
  intros [_ Hp]. rewrite path_app in Hp. destruct Hp as [H1 H2].
  by destruct (path_first _ _ _ _ _ H2), (path_last _ _ _ _ _ H1).
Qed.

Lemma ring_root nx pv r ls :
  ring nx pv r ls → nx r = Some (next_in ls r) ∧ pv r = Some (prev_in r ls).
Proof.
  intros [_ Hp]. by destruct (path_first _ _ _ _ _ Hp), (path_last _ _ _ _ _ Hp).
Qed.

(** Only the values on the nodes of the ring matter. *)
Lemma ring_ext nx pv nx' pv' r ls :
  (∀ z, z ∈ r :: ls → nx' z = nx z ∧ pv' z = pv z) → ring nx pv r ls → ring nx' pv' r ls.
Proof.
  intros H [Hnd Hp]. split; [done|]. eapply path_frame; [..|exact Hp];
    intros z Hz; apply H; rewrite elem_of_cons; done.
Qed.

End ring.
