(* ===== verification/ShrinkingMap.v ===== *)
(** * ds/shrinkingmap

    [src/ds/shrinkingmap/shrinkingmap.go].  The map is a [gmap]; the order in
    which a Go [range] visits a map is not specified, so operations that visit
    the map take the order as an argument.  Every operation holds the mutex of
    the map for its whole body (a [GetOrCreate] looks again after taking the
    write lock), so operations are modelled as atomic.  The ratio test is done
    in float32 arithmetic, by the IEEE operations of [SpecFloat]. *)

From Stdlib Require Import Floats.SpecFloat.
From S2P Require Import Prelude.

(** ** float32 *)

Definition float32 : Type := spec_float.
Definition f32_of_int (z : Z) : float32 := binary_normalize 24 128 z 0 false.
Definition f32_div (a b : float32) : float32 := SFdiv 24 128 a b.
Definition f32_zero : float32 := S754_zero false.
(** 10.0 = 10485760 * 2^-20 *)
Definition f32_ten : float32 := S754_finite false 10485760 (-20).

(** ** Options *)

Record Options : Type := mkOptions {
  shrinkingThresholdRatio : float32;
  shrinkingThresholdCount : Z;
}.

Definition Option_ : Type := Options → Options.

Definition apply (so : Options) (opts : list Option_) : Options :=
  foldl (λ so opt, opt so) so opts.

Definition WithShrinkingThresholdRatio (ratio : float32) : Option_ :=
  λ opts, {| shrinkingThresholdRatio := ratio; shrinkingThresholdCount := shrinkingThresholdCount opts |}.
Definition WithShrinkingThresholdCount (count : Z) : Option_ :=
  λ opts, {| shrinkingThresholdRatio := shrinkingThresholdRatio opts; shrinkingThresholdCount := count |}.

Definition defaultOptions : list Option_ :=
  [WithShrinkingThresholdRatio f32_ten; WithShrinkingThresholdCount 100].

Section shrinkingmap.
Context {K V : Type} `{Countable K}.

Record ShrinkingMap : Type := mkShrinkingMap {
  sm_m : gmap K V;
  deletedKeys : Z;
  sm_opts : Options;
}.

Definition New (opts : list Option_) : ShrinkingMap :=
  let mapOpts := {| shrinkingThresholdRatio := f32_zero; shrinkingThresholdCount := 0 |} in
  let mapOpts := apply mapOpts defaultOptions in
  let mapOpts := apply mapOpts opts in
  {| sm_m := ∅; deletedKeys := 0; sm_opts := mapOpts |}.

Definition with_m (s : ShrinkingMap) (m : gmap K V) : ShrinkingMap :=
  {| sm_m := m; deletedKeys := deletedKeys s; sm_opts := sm_opts s |}.

Definition Size (s : ShrinkingMap) : Z := Z.of_nat (size (sm_m s)).
Definition IsEmpty (s : ShrinkingMap) : bool := Size s =? 0.

Definition Set_ (s : ShrinkingMap) (key : K) (value : V) : ShrinkingMap * bool :=
  let exists_ := bool_decide (is_Some (sm_m s !! key)) in
  (with_m s (<[key:=value]> (sm_m s)), negb exists_).

Definition Get (s : ShrinkingMap) (key : K) : option V := sm_m s !! key.

Definition GetOrCreate (s : ShrinkingMap) (key : K) (defaultValueFunc : unit → V)
    : ShrinkingMap * V * bool :=
  match sm_m s !! key with
  | Some existingValue => (s, existingValue, false)
  | None =>
      let value := defaultValueFunc tt in
      (with_m s (<[key:=value]> (sm_m s)), value, true)
  end.

(** [currentValue] and [exists] are one option. *)
Definition Compute_ (s : ShrinkingMap) (key : K) (updateFunc : option V → V) : ShrinkingMap * V :=
  let value := updateFunc (sm_m s !! key) in
  (with_m s (<[key:=value]> (sm_m s)), value).

Definition Has (s : ShrinkingMap) (key : K) : bool := bool_decide (is_Some (sm_m s !! key)).

Definition shouldShrink (s : ShrinkingMap) : bool :=
  let size := Size s in
  let ratio := shrinkingThresholdRatio (sm_opts s) in
  let count := shrinkingThresholdCount (sm_opts s) in
  let ratio_set := negb (SFeqb ratio f32_zero) in
  let count_set := negb (count =? 0) in
  if negb (ratio_set || count_set) then false
  else if ratio_set && (size =? 0) then false
  else if ratio_set && SFltb (f32_div (f32_of_int (deletedKeys s)) (f32_of_int size)) ratio then false
  else if count_set && (deletedKeys s <? count) then false
  else true.

(** The loop that copies the map entry by entry. *)
Definition copy_map (order : list (K * V)) : gmap K V :=
  foldl (λ newMap kv, <[kv.1:=kv.2]> newMap) ∅ order.

Definition shrink (s : ShrinkingMap) : ShrinkingMap :=
  {| sm_m := copy_map (map_to_list (sm_m s)); deletedKeys := 0; sm_opts := sm_opts s |}.

Definition Shrink (s : ShrinkingMap) : ShrinkingMap := shrink s.

Definition delete_ (s : ShrinkingMap) (key : K) : ShrinkingMap * bool :=
  match sm_m s !! key with
  | None => (s, false)
  | Some _ =>
      let s := {| sm_m := delete key (sm_m s); deletedKeys := deletedKeys s + 1; sm_opts := sm_opts s |} in
      (if shouldShrink s then shrink s else s, true)
  end.

Definition DeleteAndReturn (s : ShrinkingMap) (key : K) : ShrinkingMap * option V :=
  match sm_m s !! key with
  | Some value => ((delete_ s key).1, Some value)
  | None => (s, None)
  end.

(** The optional condition is called once, under the lock. *)
Definition Delete (s : ShrinkingMap) (key : K) (optCondition : option (unit → bool))
    : ShrinkingMap * bool :=
  match optCondition with
  | Some cond => if cond tt then delete_ s key else (s, false)
  | None => delete_ s key
  end.

(** [order] is the order in which the range over the map happens to go. *)
Definition Pop (s : ShrinkingMap) (order : list (K * V)) : ShrinkingMap * option (K * V) :=
  match order with
  | [] => (s, None)
  | (k, v) :: _ => ((delete_ s k).1, Some (k, v))
  end.

Definition Clear (s : ShrinkingMap) : ShrinkingMap :=
  {| sm_m := ∅; deletedKeys := 0; sm_opts := sm_opts s |}.

Definition AsMap (s : ShrinkingMap) : gmap K V := copy_map (map_to_list (sm_m s)).

Definition Keys (order : list (K * V)) : list K := order.*1.
Definition Values (order : list (K * V)) : list V := order.*2.

(** Visiting a copy until the callback, which has a state, returns false. *)
Fixpoint visit {A S} (callback : A → S → S * bool) (elements : list A) (st : S) : S :=
  match elements with
  | [] => st
  | e :: elements =>
      let '(st, continue) := callback e st in
      if continue then visit callback elements st else st
  end.

Definition ForEachKey {S} (order : list (K * V)) (callback : K → S → S * bool) (st : S) : S :=
  visit callback order.*1 st.
Definition ForEach {S} (order : list (K * V)) (callback : K → V → S → S * bool) (st : S) : S :=
  visit (λ kv, callback kv.1 kv.2) order st.

(** ** Operation sequences *)

(** The operations that read or change the map; a callback is a pure function
    of its argument, and [OPop] carries the entry the range starts with. *)
Inductive op : Type :=
  | OSet (key : K) (value : V)
  | OGet (key : K)
  | OGetOrCreate (key : K) (default : V)
  | OCompute (key : K) (f : option V → V)
  | OHas (key : K)
  | OSize
  | ODelete (key : K) (cond : option bool)
  | ODeleteAndReturn (key : K)
  | OPop (order : list (K * V))
  | OClear
  | OShrink
  | OAsMap.

Inductive res : Type :=
  | RUnit
  | RBool (b : bool)
  | ROption (v : option V)
  | RValue (v : V) (b : bool)
  | REntry (kv : option (K * V))
  | RSize (n : Z)
  | RMap (m : gmap K V).

Definition step (s : ShrinkingMap) (o : op) : ShrinkingMap * res :=
  match o with
  | OSet key value => let '(s, b) := Set_ s key value in (s, RBool b)
  | OGet key => (s, ROption (Get s key))
  | OGetOrCreate key v => let '(s, v, b) := GetOrCreate s key (λ _, v) in (s, RValue v b)
  | OCompute key f => let '(s, v) := Compute_ s key f in (s, RValue v true)
  | OHas key => (s, RBool (Has s key))
  | OSize => (s, RSize (Size s))
  | ODelete key cond =>
      let '(s, b) := Delete s key (option_map (λ b _, b) cond) in (s, RBool b)
  | ODeleteAndReturn key => let '(s, v) := DeleteAndReturn s key in (s, ROption v)
  | OPop order => let '(s, kv) := Pop s order in (s, REntry kv)
  | OClear => (Clear s, RUnit)
  | OShrink => (Shrink s, RUnit)
  | OAsMap => (s, RMap (AsMap s))
  end.

(** The same operations on a plain map: the specification. *)
Definition map_step (m : gmap K V) (o : op) : gmap K V * res :=
  match o with
  | OSet key value => (<[key:=value]> m, RBool (bool_decide (m !! key = None)))
  | OGet key => (m, ROption (m !! key))
  | OGetOrCreate key v =>
      match m !! key with
      | Some v => (m, RValue v false)
      | None => (<[key:=v]> m, RValue v true)
      end
  | OCompute key f => (<[key:=f (m !! key)]> m, RValue (f (m !! key)) true)
  | OHas key => (m, RBool (bool_decide (is_Some (m !! key))))
  | OSize => (m, RSize (Z.of_nat (size m)))
  | ODelete key (Some false) => (m, RBool false)
  | ODelete key _ => (delete key m, RBool (bool_decide (is_Some (m !! key))))
  | ODeleteAndReturn key => (delete key m, ROption (m !! key))
  | OPop [] => (m, REntry None)
  | OPop ((k, v) :: _) => (delete k m, REntry (Some (k, v)))
  | OClear => (∅, RUnit)
  | OShrink => (m, RUnit)
  | OAsMap => (m, RMap m)
  end.

Fixpoint run (s : ShrinkingMap) (ops : list op) : ShrinkingMap * list res :=
  match ops with
  | [] => (s, [])
  | o :: ops =>
      let '(s, r) := step s o in
      let '(s, rs) := run s ops in (s, r :: rs)
  end.

Fixpoint map_run (m : gmap K V) (ops : list op) : gmap K V * list res :=
  match ops with
  | [] => (m, [])
  | o :: ops =>
      let '(m, r) := map_step m o in
      let '(m, rs) := map_run m ops in (m, r :: rs)
  end.

(** ** Lemmas *)

Lemma copy_map_list order : NoDup order.*1 → copy_map order = list_to_map order.
Proof.
  unfold copy_map. rewrite <-(rev_involutive order). generalize (rev order) as l. intros l.
  induction l as [|[k v] l IH]; [done|]. simpl. rewrite foldl_snoc, fmap_app. simpl. intros Hnd.
  pose proof Hnd as (Hnd' & Hk & _)%NoDup_app.
  rewrite IH by done. rewrite list_to_map_snoc; [done|].
  intros Hin. by apply (Hk k Hin), list_elem_of_singleton.
Qed.

(** Copying a map entry by entry gives the map, whatever the order. *)
Lemma copy_map_order (m : gmap K V) order : order ≡ₚ map_to_list m → copy_map order = m.
Proof.
  intros Ho. assert (NoDup order.*1) as Hnd by (rewrite Ho; apply NoDup_fst_map_to_list).
  rewrite copy_map_list by done. symmetry. apply list_to_map_flip. by rewrite Ho.
Qed.

Lemma shrink_m s : sm_m (shrink s) = sm_m s.
Proof. by apply copy_map_order. Qed.

Lemma delete_m s key : sm_m (delete_ s key).1 = delete key (sm_m s).
Proof.
  unfold delete_. destruct (sm_m s !! key) eqn:E; simpl.
  - case_match; [by rewrite shrink_m|done].
  - by rewrite delete_id.
Qed.

Lemma delete_found s key : (delete_ s key).2 = bool_decide (is_Some (sm_m s !! key)).
Proof. unfold delete_. by destruct (sm_m s !! key). Qed.

Lemma step_refines s o : sm_m (step s o).1 = (map_step (sm_m s) o).1 ∧ (step s o).2 = (map_step (sm_m s) o).2.
Proof.
  destruct o as [k v|k|k v|k f|k| |k c|k|order| | |]; simpl; try done.
  - split; [done|]. f_equal. by destruct (sm_m s !! k).
  - unfold GetOrCreate. by destruct (sm_m s !! k).
  - destruct c as [[]|]; simpl; [|done|];
      (destruct (delete_ s k) as [s' b] eqn:E; simpl);
      pose proof (delete_m s k); pose proof (delete_found s k); rewrite E in *; simpl in *; by subst.
  - unfold DeleteAndReturn. destruct (sm_m s !! k) eqn:E; simpl; [by rewrite delete_m|].
    by rewrite delete_id.
  - destruct order as [|[k v] order]; simpl; [done|]. by rewrite delete_m.
  - split; [by apply shrink_m|done].
  - split; [done|]. f_equal. by apply copy_map_order.
Qed.

Lemma run_refines s ops :
  sm_m (run s ops).1 = (map_run (sm_m s) ops).1 ∧ (run s ops).2 = (map_run (sm_m s) ops).2.
Proof.
  revert s. induction ops as [|o ops IH]; intros s; [done|]. simpl.
  destruct (step_refines s o) as [H1 H2].
  destruct (step s o) as [s' r], (map_step (sm_m s) o) as [m' r']. simpl in *. subst.
  destruct (IH s') as [H1 H2].
  by destruct (run s' ops), (map_run (sm_m s') ops); simpl in *; subst.
Qed.

(** A map that only has a count threshold. *)
Definition count_only (opts : Options) : Prop :=
  SFeqb (shrinkingThresholdRatio opts) f32_zero = true ∧ 0 < shrinkingThresholdCount opts.

Definition deleted_bounded (s : ShrinkingMap) : Prop :=
  0 ≤ deletedKeys s < shrinkingThresholdCount (sm_opts s).

Lemma delete_bounded s key :
  count_only (sm_opts s) → deleted_bounded s →
  deleted_bounded (delete_ s key).1 ∧ sm_opts (delete_ s key).1 = sm_opts s.
Proof.
  intros [Hr Hc] Hb. unfold delete_, deleted_bounded in *.
  destruct (sm_m s !! key); [|done]. unfold shouldShrink. simpl. rewrite Hr. simpl.
  rewrite (proj2 (Z.eqb_neq _ 0)) by lia. simpl.
  destruct (Z.ltb_spec (deletedKeys s + 1) (shrinkingThresholdCount (sm_opts s)));
    (split; [simpl; lia|done]).
Qed.

Lemma step_bounded s o :
  count_only (sm_opts s) → deleted_bounded s →
  deleted_bounded (step s o).1 ∧ sm_opts (step s o).1 = sm_opts s.
Proof.
  intros Hc Hb.
  assert (∀ k, deleted_bounded (delete_ s k).1 ∧ sm_opts (delete_ s k).1 = sm_opts s) as Hd
    by (intros; by apply delete_bounded).
  assert (deleted_bounded (shrink s)) by (destruct Hc; split; simpl; lia).
  destruct o as [k v|k|k v|k f|k| |k c|k|order| | |]; simpl; try done.
  - unfold GetOrCreate. by destruct (sm_m s !! k).
  - destruct c as [[]|]; simpl; try done; specialize (Hd k); by destruct (delete_ s k).
  - unfold DeleteAndReturn. destruct (sm_m s !! k); [apply Hd|done].
  - destruct order as [|[k v] order]; [done|]. apply Hd.
Qed.

Lemma run_bounded s ops :
  count_only (sm_opts s) → deleted_bounded s →
  deleted_bounded (run s ops).1 ∧ sm_opts (run s ops).1 = sm_opts s.
Proof.
  revert s. induction ops as [|o ops IH]; intros s Hc Hb; [done|]. simpl.
  destruct (step_bounded s o Hc Hb) as [H1 H2]. destruct (step s o) as [s' r]. simpl in *.
  rewrite <-H2 in Hc. specialize (IH s' Hc H1). rewrite H2 in IH. by destruct (run s' ops).
Qed.

Lemma run_app s ops1 ops2 : (run s (ops1 ++ ops2)).1 = (run (run s ops1).1 ops2).1.
Proof.
  revert s. induction ops1 as [|o ops1 IH]; intros s; [done|]. simpl.
  destruct (step s o) as [s' r]. specialize (IH s').
  by destruct (run s' (ops1 ++ ops2)), (run s' ops1); simpl in *.
Qed.

(** The set-then-delete rounds of one key. *)
Definition rounds (n : nat) (key : K) (value : V) : list op :=
  concat (replicate n [OSet key value; ODelete key None]).

Lemma round_counts s key value :
  sm_m s = ∅ → SFeqb (shrinkingThresholdRatio (sm_opts s)) f32_zero = false →
  let s' := (run s [OSet key value; ODelete key None]).1 in
  sm_m s' = ∅ ∧ deletedKeys s' = deletedKeys s + 1 ∧ sm_opts s' = sm_opts s.
Proof.
  intros Hm Hr. simpl. unfold delete_. simpl. rewrite lookup_insert_eq. unfold shouldShrink. simpl.
  rewrite delete_insert_eq, Hm, delete_empty. unfold Size. simpl. rewrite map_size_empty, Hr.
  done.
Qed.

End shrinkingmap.
Arguments ShrinkingMap K V {_ _}.
Arguments op : clear implicits.
Arguments res K V {_ _}.

(** ** Properties *)

(** Shrinking is invisible.  For any options and any sequence of
    operations, a [ShrinkingMap] gives the answers a plain map gives and ends
    with the same content. *)
Lemma ShrinkingMap_refines_map {K V} `{Countable K} (opts : list Option_) (ops : list (op K V)) :
  sm_m (run (New opts) ops).1 = (map_run ∅ ops).1 ∧ (run (New opts) ops).2 = (map_run ∅ ops).2.
Proof. apply (run_refines (New opts)). Qed.

(** With only a count threshold, the number of deletions since the last
    shrinking stays below the threshold after any sequence of operations. *)
Lemma count_threshold_bounds_deletions {K V} `{Countable K} (count : Z) (ops : list (op K V)) :
  0 < count →
  0 ≤ deletedKeys (run (New [WithShrinkingThresholdRatio f32_zero; WithShrinkingThresholdCount count])
                       ops).1 < count.
Proof.
  intros Hc.
  destruct (run_bounded (New [WithShrinkingThresholdRatio f32_zero; WithShrinkingThresholdCount count]) ops)
    as [Hb Ho]; [by split|by split|].
  unfold deleted_bounded in Hb. by rewrite Ho in Hb.
Qed.

Lemma count_threshold_bounds_deletions_witness :
  0 ≤ deletedKeys (run (New (K:=Z) (V:=Z)
    [WithShrinkingThresholdRatio f32_zero; WithShrinkingThresholdCount 2])
    [OSet 1 1; OSet 2 2; OSet 3 3; ODelete 1 None; ODelete 2 None; ODelete 3 None]).1 < 2.
Proof. apply count_threshold_bounds_deletions. reflexivity. Defined.

(** With a ratio threshold, as in the default options, a map that is
    emptied by every deletion is never shrunk: the number of recorded deletions
    grows without bound, past every count threshold. *)
Lemma emptied_map_never_shrinks {K V} `{Countable K} (opts : list Option_) (n : nat) (key : K) (value : V) :
  SFeqb (shrinkingThresholdRatio (sm_opts (New (K:=K) (V:=V) opts))) f32_zero = false →
  deletedKeys (run (New opts) (rounds n key value)).1 = Z.of_nat n.
Proof.
  intros Hr. enough (∀ s : ShrinkingMap K V, sm_m s = ∅ →
    SFeqb (shrinkingThresholdRatio (sm_opts s)) f32_zero = false →
    deletedKeys (run s (rounds n key value)).1 = deletedKeys s + Z.of_nat n) as Hs.
  { by rewrite Hs. }
  induction n as [|n IH]; intros s Hm Hr'; [simpl; lia|].
  destruct (round_counts s key value Hm Hr') as (H1 & H2 & H3).
  change (rounds (S n) key value) with ([OSet key value; ODelete key None] ++ rounds n key value).
  rewrite run_app. rewrite IH, H2; [lia|done|by rewrite H3].
Qed.

Lemma emptied_map_never_shrinks_witness :
  deletedKeys (run (New (K:=Z) (V:=Z) []) (rounds 150 1 1)).1 = 150.
Proof. apply (emptied_map_never_shrinks (K:=Z) (V:=Z) [] 150 1 1). reflexivity. Defined.
