(* ===== verification/RandomMap.v ===== *)
(** * ds/randommap

    [src/ds/randommap/random_map.go].  The entries are shared objects, but no
    reference to one leaves the map, so they are kept by value in [rawMap] and
    an assignment to a field of an entry updates it there.  Random numbers are
    arguments: [rand.Intn(n)] is some number below [n], [rand.Perm(n)] some
    permutation of the numbers below [n]. *)

From S2P Require Import Prelude ShrinkingMap.

Section randommap.
Context {K V : Type} `{Countable K} `{!Inhabited K}.

Record randomMapEntry : Type := mkEntry { e_key : K; e_value : V; keyIndex : Z }.

Record RandomMap : Type := mkRandomMap {
  rawMap : ShrinkingMap K randomMapEntry;
  keys : list K;
}.

Definition New (opts : list Option_) : RandomMap :=
  {| rawMap := ShrinkingMap.New opts; keys := [] |}.

(** An assignment to fields of the entry that [rawMap] holds for the key. *)
Definition set_entry (m : ShrinkingMap K randomMapEntry) (key : K) (e : randomMapEntry)
    : ShrinkingMap K randomMapEntry := with_m m (<[key:=e]> (sm_m m)).

Definition Set_ (r : RandomMap) (key : K) (value : V) : RandomMap :=
  match ShrinkingMap.Get (rawMap r) key with
  | Some entry =>
      {| rawMap := set_entry (rawMap r) key
           {| e_key := e_key entry; e_value := value; keyIndex := keyIndex entry |};
         keys := keys r |}
  | None =>
      {| rawMap := (ShrinkingMap.Set_ (rawMap r) key
           {| e_key := key; e_value := value; keyIndex := ShrinkingMap.Size (rawMap r) |}).1;
         keys := keys r ++ [key] |}
  end.

Definition Get (r : RandomMap) (key : K) : option V :=
  option_map e_value (ShrinkingMap.Get (rawMap r) key).

Definition Has (r : RandomMap) (key : K) : bool := ShrinkingMap.Has (rawMap r) key.

(** The deleted value, [None] when the key was not there. *)
Definition Delete (r : RandomMap) (key : K) : outcome (RandomMap * option V) :=
  match ShrinkingMap.Get (rawMap r) key with
  | Some entry =>
      r' ← (if negb (keyIndex entry =? len (keys r)) then
              let oldKeyIndex := keyIndex entry in
              let movedKeyIndex := len (keys r) - 1 in
              movedKey ← index (keys r) movedKeyIndex;
              match ShrinkingMap.Get (rawMap r) movedKey with
              | None => Panic "nil pointer dereference"
              | Some movedEntry =>
                  let raw := set_entry (rawMap r) movedKey
                    {| e_key := e_key movedEntry; e_value := e_value movedEntry;
                       keyIndex := oldKeyIndex |} in
                  ks ← store (keys r) oldKeyIndex movedKey;
                  ks ← store ks movedKeyIndex inhabitant;
                  Ret {| rawMap := raw; keys := ks |}
              end
            else Ret r);
      ks ← slice_to (keys r') (len (keys r') - 1);
      Ret ({| rawMap := (ShrinkingMap.Delete (rawMap r') key None).1; keys := ks |},
           Some (e_value entry))
  | None => Ret (r, None)
  end.

Definition Size (r : RandomMap) : Z := ShrinkingMap.Size (rawMap r).

Definition forEach {S} (order : list (K * randomMapEntry)) (consumer : K → V → S → S * bool)
    (st : S) : S :=
  ShrinkingMap.ForEach order (λ key entry, consumer key (e_value entry)) st.

Definition ForEach {S} := @forEach S.

(** [rnd] is the result of [rand.Intn(r.rawMap.Size())]. *)
Definition randomKey (r : RandomMap) (rnd : Z) : outcome K := index (keys r) rnd.

Definition RandomKey (r : RandomMap) (rnd : Z) : outcome (option K) :=
  match keys r with
  | [] => Ret None
  | _ :: _ => k ← randomKey r rnd; Ret (Some k)
  end.

Definition RandomEntry (r : RandomMap) (rnd : Z) : outcome (option V) :=
  if ShrinkingMap.Size (rawMap r) =? 0 then Ret None
  else k ← randomKey r rnd; Ret (option_map e_value (ShrinkingMap.Get (rawMap r) k)).

(** The loop of [RandomUniqueEntries] over the permutation. *)
Fixpoint pick_entries (r : RandomMap) (count : Z) (randomOrder : list Z) (results : list V)
    : outcome (list V) :=
  match randomOrder with
  | [] => Ret results
  | i :: randomOrder =>
      if len results <? count then
        randomKey ← index (keys r) i;
        match ShrinkingMap.Get (rawMap r) randomKey with
        | Some randomEntry => pick_entries r count randomOrder (results ++ [e_value randomEntry])
        | None => pick_entries r count randomOrder results
        end
      else Ret results
  end.

(** [perm] is the result of [rand.Perm], [order] the order of the range. *)
Definition RandomUniqueEntries (r : RandomMap) (order : list (K * randomMapEntry))
    (perm : list Z) (count : Z) : outcome (list V) :=
  if count <? 1 then Ret []
  else if ShrinkingMap.Size (rawMap r) <=? count then
    Ret (forEach order (λ _ value results, (results ++ [value], true)) [])
  else pick_entries r count perm [].

(** [copy] into a slice of the size of the map. *)
Definition Keys (r : RandomMap) : list K :=
  let result := replicate (size (sm_m (rawMap r))) inhabitant in
  take (length result) (keys r) ++ drop (length (keys r)) result.

Definition Values (order : list (K * randomMapEntry)) : list V :=
  forEach order (λ _ value results, (results ++ [value], true)) [].

(** ** The invariant *)

(** Each entry knows its key and its place in the slice of keys, and every place
    is taken by an entry. *)
Definition rm_inv (r : RandomMap) : Prop :=
  (∀ i k, keys r !! i = Some k →
     ∃ e, sm_m (rawMap r) !! k = Some e ∧ keyIndex e = Z.of_nat i) ∧
  (∀ k e, sm_m (rawMap r) !! k = Some e →
     e_key e = k ∧ ∃ i, keyIndex e = Z.of_nat i ∧ keys r !! i = Some k).

(** What the map holds, without the places. *)
Definition rm_abs (r : RandomMap) : gmap K V := e_value <$> sm_m (rawMap r).

Lemma rm_inv_NoDup r : rm_inv r → NoDup (keys r).
Proof.
  intros [H1 _]. apply NoDup_alt. intros i j k Hi Hj.
  destruct (H1 i k Hi) as (e & He & Ei), (H1 j k Hj) as (e' & He' & Ej).
  rewrite He in He'. simplify_eq. lia.
Qed.

Lemma rm_inv_keys r : rm_inv r → keys r ≡ₚ elements (dom (rm_abs r)).
Proof.
  intros Hi. apply NoDup_Permutation; [by apply rm_inv_NoDup|apply NoDup_elements|].
  intros k. unfold rm_abs. rewrite elem_of_elements, dom_fmap_L, elem_of_dom, list_elem_of_lookup.
  destruct Hi as [H1 H2]. split.
  - intros [i Hi]. destruct (H1 i k Hi) as (e & He & _). by exists e.
  - intros [e He]. destruct (H2 k e He) as (_ & i & _ & Hi). by exists i.
Qed.

Lemma rm_inv_size r : rm_inv r → size (sm_m (rawMap r)) = length (keys r).
Proof.
  intros Hi%rm_inv_keys. rewrite Hi. unfold rm_abs. rewrite dom_fmap_L.
  rewrite <-size_dom. done.
Qed.

Lemma rm_inv_New opts : rm_inv (New opts).
Proof. split; [done|]. simpl. intros k e. by rewrite lookup_empty. Qed.

Lemma rm_inv_Set r key value : rm_inv r → rm_inv (Set_ r key value).
Proof.
  intros Hinv. pose proof (rm_inv_size r Hinv) as Hsz. destruct Hinv as [H1 H2].
  unfold Set_, ShrinkingMap.Get. destruct (sm_m (rawMap r) !! key) as [entry|] eqn:E; split; simpl.
  - intros i k Hk. destruct (H1 i k Hk) as (e & He & Hi).
    destruct (decide (k = key)) as [->|]; [|rewrite lookup_insert_ne by done; by exists e].
    rewrite lookup_insert_eq. eexists. split; [done|]. simpl. congruence.
  - intros k e. destruct (decide (k = key)) as [->|]; [|rewrite lookup_insert_ne by done; by apply H2].
    rewrite lookup_insert_eq. intros [= <-]. simpl. by apply H2.
  - intros i k. rewrite lookup_snoc_Some. intros [Hk|[-> ->]].
    + destruct (H1 i k Hk) as (e & He & Hi). exists e.
      by rewrite lookup_insert_ne by congruence.
    + rewrite lookup_insert_eq. eexists. split; [done|]. simpl. unfold ShrinkingMap.Size. lia.
  - intros k e. destruct (decide (k = key)) as [->|].
    + rewrite lookup_insert_eq. intros [= <-]. simpl. split; [done|].
      exists (length (keys r)). unfold ShrinkingMap.Size. rewrite lookup_snoc_Some. split; [lia|by right].
    + rewrite lookup_insert_ne by done. intros He. destruct (H2 k e He) as (Hk & i & Hi & Hl).
      split; [done|]. exists i. rewrite lookup_snoc_Some. by split; [|left].
Qed.

Lemma rm_abs_Set r key value : rm_abs (Set_ r key value) = <[key:=value]> (rm_abs r).
Proof.
  unfold rm_abs, Set_. destruct (ShrinkingMap.Get _ _); simpl; by rewrite fmap_insert.
Qed.

(** The slice of keys after the key at [i] was replaced by the last one. *)
Definition swap_remove (ks : list K) (i : nat) (moved : K) : list K :=
  <[i:=moved]> (take (length ks - 1) ks).

Lemma swap_remove_lookup ks i moved j k :
  (i < length ks)%nat → ks !! (length ks - 1)%nat = Some moved →
  swap_remove ks i moved !! j = Some k ↔
    (j < length ks - 1)%nat ∧ if decide (j = i) then k = moved else ks !! j = Some k.
Proof.
  intros Hi Hm. unfold swap_remove. destruct (decide (j = i)) as [->|Hne].
  - rewrite list_lookup_insert_Some. split.
    + intros [(_ & -> & Hl)|(? & _)]; [|done]. rewrite length_take in Hl. split; [lia|done].
    + intros [Hl ->]. left. rewrite length_take. split_and!; [done|done|lia].
  - rewrite list_lookup_insert_ne by done. rewrite lookup_take_Some. tauto.
Qed.

Lemma Delete_result r key entry i :
  rm_inv r → sm_m (rawMap r) !! key = Some entry → keyIndex entry = Z.of_nat i →
  keys r !! i = Some key →
  ∃ moved me opts n, keys r !! (length (keys r) - 1)%nat = Some moved ∧
    sm_m (rawMap r) !! moved = Some me ∧
    Delete r key = Ret ({|
      rawMap := {| sm_m := delete key (<[moved:={| e_key := e_key me; e_value := e_value me;
                             keyIndex := Z.of_nat i |}]> (sm_m (rawMap r)));
                   deletedKeys := n; sm_opts := opts |};
      keys := swap_remove (keys r) i moved |}, Some (e_value entry)).
Proof.
  intros [H1 H2] He Hi Hk. pose proof (lookup_lt_Some _ _ _ Hk) as Hlt.
  destruct (lookup_lt_is_Some_2 (keys r) (length (keys r) - 1) ltac:(lia)) as [moved Hm].
  destruct (H1 _ _ Hm) as (me & Hme & _).
  unfold Delete, ShrinkingMap.Get. rewrite He, Hi.
  rewrite (proj2 (Z.eqb_neq _ _)) by (unfold len; lia). cbn [negb].
  assert (len (keys r) - 1 = Z.of_nat (length (keys r) - 1)) as -> by (unfold len; lia).
  rewrite (index_nat _ _ _ Hm). cbn [mbind outcome_bind]. rewrite Hme.
  rewrite store_nat by done. cbn [mbind outcome_bind].
  rewrite store_nat by (rewrite length_insert; lia). cbn [mbind outcome_bind keys].
  set (ks := <[(length (keys r) - 1)%nat:=inhabitant]> _).
  assert (length ks = length (keys r)) as Hl by (unfold ks; by rewrite !length_insert).
  assert (len ks - 1 = Z.of_nat (length (keys r) - 1)) as -> by (unfold len; lia).
  rewrite slice_to_nat by lia. cbn [mbind outcome_bind rawMap].
  assert (take (length (keys r) - 1) ks = swap_remove (keys r) i moved) as ->.
  { unfold ks, swap_remove. rewrite take_insert_ge by lia.
    destruct (decide (i < length (keys r) - 1)%nat).
    - by rewrite take_insert_lt by lia.
    - rewrite take_insert_ge by lia. rewrite list_insert_ge; [done|]. rewrite length_take. lia. }
  unfold ShrinkingMap.Delete. set (raw := set_entry _ _ _).
  exists moved, me, (sm_opts (delete_ raw key).1), (deletedKeys (delete_ raw key).1).
  split_and!; [done..|]. do 3 f_equal. pose proof (delete_m raw key) as Hd.
  destruct (delete_ raw key) as [[m' n' o'] b]. simpl in *. by subst m'.
Qed.

Lemma rm_inv_Delete r key :
  rm_inv r → ∃ r', Delete r key = Ret (r', rm_abs r !! key) ∧ rm_inv r' ∧ rm_abs r' = delete key (rm_abs r).
Proof.
  intros Hinv. unfold rm_abs at 1. rewrite lookup_fmap.
  destruct (sm_m (rawMap r) !! key) as [entry|] eqn:E.
  2:{ exists r. unfold Delete, ShrinkingMap.Get. rewrite E. split_and!; [done..|].
      unfold rm_abs. by rewrite delete_id by (by rewrite lookup_fmap, E). }
  destruct (proj2 Hinv key entry E) as (Hke & i & Hi & Hk).
  destruct (Delete_result r key entry i Hinv E Hi Hk) as (moved & me & opts & n & Hm & Hme & ->).
  eexists. split; [done|]. pose proof (rm_inv_NoDup r Hinv) as Hnd. destruct Hinv as [H1 H2].
  pose proof (lookup_lt_Some _ _ _ Hk) as Hlt.
  assert (∀ j k, keys r !! j = Some k → k = key → j = i) as Hkey.
  { intros j k Hj ->. by apply (NoDup_lookup _ _ _ _ Hnd Hj Hk). }
  assert (∀ j k, keys r !! j = Some k → k = moved → j = (length (keys r) - 1)%nat) as Hmoved.
  { intros j k Hj ->. by apply (NoDup_lookup _ _ _ _ Hnd Hj Hm). }
  split; [split|]; cbn [keys rawMap sm_m].
  - intros j k. rewrite swap_remove_lookup by done. intros [Hj Hl].
    destruct (decide (j = i)) as [->|Hji].
    + subst k. assert (moved ≠ key) by (intros ->; specialize (Hkey _ _ Hm eq_refl); lia).
      rewrite lookup_delete_ne, lookup_insert_eq by done. by eexists.
    + assert (k ≠ key) by (intros ->; by specialize (Hkey _ _ Hl eq_refl)).
      assert (k ≠ moved) by (intros ->; specialize (Hmoved _ _ Hl eq_refl); lia).
      rewrite lookup_delete_ne, lookup_insert_ne by done. by apply H1.
  - intros k e. rewrite lookup_delete_Some. intros [Hne Hl].
    destruct (decide (k = moved)) as [->|Hkm].
    + rewrite lookup_insert_eq in Hl. simplify_eq/=. split; [by apply H2|].
      exists i. split; [done|]. rewrite swap_remove_lookup by done. rewrite decide_True by done.
      split; [|done]. destruct (decide (i = length (keys r) - 1)%nat) as [Ei|]; [|lia].
      subst i. congruence.
    + rewrite lookup_insert_ne in Hl by done. destruct (H2 k e Hl) as (? & j & Hj & Hkj).
      split; [done|]. exists j. split; [done|]. rewrite swap_remove_lookup by done.
      pose proof (lookup_lt_Some _ _ _ Hkj).
      assert (j ≠ i) by (intros ->; congruence).
      assert (j ≠ length (keys r) - 1)%nat by (intros ->; congruence).
      rewrite decide_False by done. split; [lia|done].
  - unfold rm_abs. simpl. rewrite fmap_delete, fmap_insert. simpl.
    rewrite insert_id; [done|]. by rewrite lookup_fmap, Hme.
Qed.

(** ** Operation sequences *)

Inductive rop : Type := RSet (key : K) (value : V) | RDelete (key : K).

(** The final map and what the deletions returned. *)
Fixpoint rm_run (r : RandomMap) (ops : list rop) : outcome (RandomMap * list (option V)) :=
  match ops with
  | [] => Ret (r, [])
  | RSet key value :: ops => rm_run (Set_ r key value) ops
  | RDelete key :: ops =>
      '(r, v) ← Delete r key;
      '(r, vs) ← rm_run r ops;
      Ret (r, v :: vs)
  end.

Fixpoint rm_spec (m : gmap K V) (ops : list rop) : gmap K V * list (option V) :=
  match ops with
  | [] => (m, [])
  | RSet key value :: ops => rm_spec (<[key:=value]> m) ops
  | RDelete key :: ops => let '(m', vs) := rm_spec (delete key m) ops in (m', m !! key :: vs)
  end.

Lemma rm_run_refines r ops :
  rm_inv r → ∃ r', rm_run r ops = Ret (r', (rm_spec (rm_abs r) ops).2) ∧ rm_inv r' ∧
    rm_abs r' = (rm_spec (rm_abs r) ops).1.
Proof.
  revert r. induction ops as [|[key value|key] ops IH]; intros r Hinv; simpl.
  - by exists r.
  - rewrite <-rm_abs_Set. apply IH. by apply rm_inv_Set.
  - destruct (rm_inv_Delete r key Hinv) as (r1 & -> & Hinv1 & Habs). simpl.
    destruct (IH r1 Hinv1) as (r2 & -> & Hinv2 & Habs2). simpl. rewrite Habs in *.
    exists r2. by destruct (rm_spec (delete key (rm_abs r)) ops).
Qed.

Lemma Keys_keys r : rm_inv r → Keys r = keys r.
Proof.
  intros Hi%rm_inv_size. unfold Keys. rewrite length_replicate, Hi, firstn_all.
  rewrite drop_ge by (rewrite length_replicate; lia). apply app_nil_r.
Qed.

Lemma rm_abs_lookup r i k :
  rm_inv r → keys r !! i = Some k →
  ∃ v, rm_abs r !! k = Some v ∧ option_map e_value (ShrinkingMap.Get (rawMap r) k) = Some v.
Proof.
  intros [H1 _] Hk. destruct (H1 i k Hk) as (e & He & _). exists (e_value e).
  unfold rm_abs, ShrinkingMap.Get. by rewrite lookup_fmap, He.
Qed.

(** Visiting with a consumer that collects the values. *)
Lemma forEach_collect order vs :
  forEach order (λ _ value results, (results ++ [value], true)) vs = vs ++ (e_value <$> order.*2).
Proof.
  revert vs. induction order as [|[k e] order IH]; intros vs; simpl; [by rewrite app_nil_r|].
  unfold forEach, ShrinkingMap.ForEach in *. simpl. rewrite IH, <-app_assoc. done.
Qed.

Lemma pick_entries_spec r count (perm : list nat) results :
  rm_inv r → NoDup perm → Forall (λ i, (i < length (keys r))%nat) perm →
  ∃ ks vs, pick_entries r count (Z.of_nat <$> perm) results = Ret (results ++ vs) ∧
    Forall2 (λ k v, rm_abs r !! k = Some v) ks vs ∧
    NoDup ks ∧ (∀ k, k ∈ ks → ∃ i, i ∈ perm ∧ keys r !! i = Some k) ∧
    length ks = (Z.to_nat (count - len results) `min` length perm)%nat.
Proof.
  intros Hinv Hnd Hlt. revert results. induction Hlt as [|i perm Hi Hlt IH]; intros results.
  { exists [], []. simpl. rewrite app_nil_r. split_and!; try done; [constructor|by intros ? ?%not_elem_of_nil|].
    lia. }
  rewrite fmap_cons. cbn [pick_entries length].
  apply NoDup_cons in Hnd as [Hni Hnd].
  destruct (Z.ltb_spec (len results) count).
  2:{ exists [], []. rewrite app_nil_r. split_and!; try done; [constructor|by intros ? ?%not_elem_of_nil|].
      simpl. lia. }
  destruct (lookup_lt_is_Some_2 (keys r) i Hi) as [k Hk].
  rewrite (index_nat _ _ _ Hk). cbn [mbind outcome_bind].
  destruct (rm_abs_lookup r i k Hinv Hk) as (v & Hv & Hg).
  destruct (ShrinkingMap.Get (rawMap r) k) as [e|]; [|done]. simpl in Hg. simplify_eq.
  destruct (IH Hnd (results ++ [e_value e])) as (ks & vs & -> & Hf & Hnk & Hin & Hlen).
  exists (k :: ks), (e_value e :: vs). rewrite <-app_assoc. split_and!; [done|by constructor|..].
  - constructor; [|done]. intros Hink. destruct (Hin k Hink) as (j & Hj & Hkj).
    assert (j = i) as -> by (eapply NoDup_lookup; [by apply rm_inv_NoDup|done..]). done.
  - intros k' [->|Hk']%elem_of_cons; [exists i; set_solver|].
    destruct (Hin k' Hk') as (j & Hj & Hkj). exists j. set_solver.
  - cbn [length]. rewrite Hlen, len_app. unfold len in *. cbn [length]. lia.
Qed.

End randommap.
Arguments RandomMap K V {_ _}.
Arguments randomMapEntry : clear implicits.
Arguments rop : clear implicits.

(** ** Properties *)

(** [RandomMap] is a map.  Any sequence of [Set] and [Delete] on a new
    [RandomMap] returns without a panic, returns the values a plain map would,
    ends with the same content, keeps the index invariant and leaves in the
    slice of keys each key of the map exactly once. *)
Lemma RandomMap_refines_map {K V} `{Countable K, !Inhabited K} (opts : list Option_)
    (ops : list (rop K V)) :
  ∃ r, rm_run (New opts) ops = Ret (r, (rm_spec ∅ ops).2) ∧ rm_inv r ∧
    rm_abs r = (rm_spec ∅ ops).1 ∧ Keys r ≡ₚ elements (dom (rm_spec ∅ ops).1).
Proof.
  destruct (rm_run_refines (New opts) ops (rm_inv_New opts)) as (r & Hr & Hinv & Habs).
  unfold rm_abs at 1 in Hr. unfold rm_abs at 2 in Habs. simpl in Hr, Habs. rewrite fmap_empty in Hr, Habs.
  exists r. split_and!; [done..|]. rewrite Keys_keys by done. rewrite <-Habs. by apply rm_inv_keys.
Qed.

(** [RandomKey] and [RandomEntry] are as random as the generator: on a map
    with entries, every random number below the size gives a key of the map and
    its value, and every key is given by exactly one of these numbers. *)
Lemma RandomKey_uniform {K V} `{Countable K, !Inhabited K} (r : RandomMap K V) :
  rm_inv r → rm_abs r ≠ ∅ →
  (∀ rnd, 0 ≤ rnd < Size r → ∃ k v, RandomKey r rnd = Ret (Some k) ∧
     RandomEntry r rnd = Ret (Some v) ∧ rm_abs r !! k = Some v) ∧
  (∀ k, is_Some (rm_abs r !! k) →
     exists! rnd, 0 ≤ rnd < Size r ∧ RandomKey r rnd = Ret (Some k)).
Proof.
  intros Hinv Hne. pose proof (rm_inv_size r Hinv) as Hsz. unfold Size, ShrinkingMap.Size.
  assert (keys r ≠ []) as Hks.
  { intros E. apply Hne. unfold rm_abs. rewrite E in Hsz. apply map_size_empty_inv in Hsz.
    rewrite Hsz. apply fmap_empty. }
  assert (∀ (i : nat) k, keys r !! i = Some k → RandomKey r (Z.of_nat i) = Ret (Some k)) as Hr.
  { intros i k Hk. unfold RandomKey, randomKey. destruct (keys r) eqn:E; [done|].
    by rewrite (index_nat _ _ _ Hk). }
  split.
  - intros rnd Hrnd. destruct (lookup_lt_is_Some_2 (keys r) (Z.to_nat rnd) ltac:(lia)) as [k Hk].
    destruct (rm_abs_lookup r _ k Hinv Hk) as (v & Hv & Hg). exists k, v.
    rewrite <-(Z2Nat.id rnd) by lia. split_and!; [by apply Hr| |done].
    unfold RandomEntry, randomKey, ShrinkingMap.Size. rewrite (proj2 (Z.eqb_neq _ 0)) by lia.
    rewrite (index_nat _ _ _ Hk). simpl. by rewrite Hg.
  - intros k. unfold rm_abs. rewrite lookup_fmap. intros [v Hv].
    destruct (sm_m (rawMap r) !! k) as [e|] eqn:E; [|done].
    destruct (proj2 Hinv k e E) as (_ & i & _ & Hk). exists (Z.of_nat i). split.
    + apply lookup_lt_Some in Hk as Hlt. split; [lia|]. by apply Hr.
    + intros rnd [Hrnd Hrk].
      destruct (lookup_lt_is_Some_2 (keys r) (Z.to_nat rnd) ltac:(lia)) as [k' Hk'].
      specialize (Hr _ _ Hk'). rewrite Z2Nat.id, Hrk in Hr by lia. simplify_eq.
      pose proof (NoDup_lookup _ _ _ _ (rm_inv_NoDup r Hinv) Hk' Hk). lia.
Qed.

Lemma RandomKey_uniform_witness :
  let r := Set_ (Set_ (New (K:=Z) (V:=Z) []) 5 50) 6 60 in
  ∃ k v, RandomKey r 1 = Ret (Some k) ∧ RandomEntry r 1 = Ret (Some v) ∧ rm_abs r !! k = Some v.
Proof.
  apply (RandomKey_uniform (Set_ (Set_ (New (K:=Z) (V:=Z) []) 5 50) 6 60)).
  - by apply rm_inv_Set, rm_inv_Set, rm_inv_New.
  - rewrite !rm_abs_Set. apply insert_non_empty.
  - by vm_compute.
Defined.

(** [RandomUniqueEntries] returns, for every order of iteration and every
    random permutation, the values of distinct keys of the map: [count] of them,
    none when [count] is not positive, all when there are fewer. *)
Lemma RandomUniqueEntries_unique {K V} `{Countable K, !Inhabited K} (r : RandomMap K V)
    order (perm : list nat) count :
  rm_inv r → order ≡ₚ map_to_list (sm_m (rawMap r)) → perm ≡ₚ seq 0 (length (keys r)) →
  ∃ ks vs, RandomUniqueEntries r order (Z.of_nat <$> perm) count = Ret vs ∧
    NoDup ks ∧ Forall2 (λ k v, rm_abs r !! k = Some v) ks vs ∧
    len vs = (0 `max` count) `min` Size r.
Proof.
  intros Hinv Ho Hp. unfold RandomUniqueEntries, Size, ShrinkingMap.Size.
  destruct (Z.ltb_spec count 1).
  { exists [], []. split_and!; [done|constructor|constructor|]. unfold len. simpl. lia. }
  destruct (Z.leb_spec (Z.of_nat (size (sm_m (rawMap r)))) count).
  - exists order.*1, (e_value <$> order.*2). rewrite forEach_collect. split_and!; [done|..].
    + rewrite Ho. apply NoDup_fst_map_to_list.
    + rewrite <-list_fmap_compose. apply Forall2_fmap, Forall_Forall2_diag. rewrite Forall_forall.
      intros [k e]. rewrite Ho, elem_of_map_to_list. intros He. simpl. unfold rm_abs.
      by rewrite lookup_fmap, He.
    + unfold len. rewrite !length_fmap, Ho, length_map_to_list. lia.
  - destruct (pick_entries_spec r count perm [] Hinv) as (ks & vs & -> & Hf & Hnd & _ & Hlen).
    + rewrite Hp. apply NoDup_seq.
    + rewrite Hp. apply Forall_seq. lia.
    + exists ks, vs. split_and!; [done..|]. apply Forall2_length in Hf as Hl.
      rewrite Hp, length_seq, <-rm_inv_size in Hlen by done. unfold len in *. simpl in Hlen. lia.
Qed.

Lemma RandomUniqueEntries_unique_witness :
  let r := Set_ (Set_ (New (K:=Z) (V:=Z) []) 5 50) 6 60 in
  ∃ ks vs, RandomUniqueEntries r (map_to_list (sm_m (rawMap r))) (Z.of_nat <$> [1; 0]%nat) 1 = Ret vs ∧
    NoDup ks ∧ Forall2 (λ k v, rm_abs r !! k = Some v) ks vs ∧ len vs = 1.
Proof.
  intros r.
  apply (RandomUniqueEntries_unique r (map_to_list (sm_m (rawMap r))) [1; 0]%nat 1).
  - by apply rm_inv_Set, rm_inv_Set, rm_inv_New.
  - done.
  - apply Permutation_swap.
Defined.
