(* ===== verification/OrderedMap.v ===== *)
(** * ds/orderedmap

    [src/ds/orderedmap/orderedmap.go] and [element.go].  The elements live in a
    store, [heap], and refer to each other by location; a removed element stays
    in the store, with its stale pointers, as an iteration that stands on it
    sees it.  The dictionary is a [ShrinkingMap] from keys to locations.  A
    receiver is not nil; the methods that accept a nil receiver return at once
    with the answer for an empty map.  Operations hold the mutex for their whole
    body ([Delete] looks again after taking the write lock), except [ForEach]
    and [ForEachReverse], which release it around each call of the consumer:
    their consumer may therefore change the map. *)

From stdpp Require Import functions.
From S2P Require Import Prelude Ring ShrinkingMap.

Definition loc : Type := positive.

Section orderedmap.
Context {K V : Type} `{Countable K}.

Record Element : Type := mkElement {
  key : K;
  value : V;
  prev : option loc;
  next : option loc;
}.

Record OrderedMap : Type := mkOrderedMap {
  heap : gmap loc Element;
  head : option loc;
  tail : option loc;
  dictionary : ShrinkingMap K loc;
  o_size : Z;
}.

Definition New : OrderedMap :=
  {| heap := ∅; head := None; tail := None; dictionary := ShrinkingMap.New []; o_size := 0 |}.

(** ** The store *)

Definition deref (h : gmap loc Element) (p : option loc) : outcome Element :=
  match p with
  | Some l => match h !! l with Some e => Ret e | None => Panic "nil pointer dereference" end
  | None => Panic "nil pointer dereference"
  end.

Definition update (h : gmap loc Element) (p : option loc) (f : Element → Element)
    : outcome (gmap loc Element) :=
  e ← deref h p;
  match p with Some l => Ret (<[l:=f e]> h) | None => Panic "nil pointer dereference" end.

Definition set_next (q : option loc) (e : Element) : Element :=
  {| key := key e; value := value e; prev := prev e; next := q |}.
Definition set_prev (q : option loc) (e : Element) : Element :=
  {| key := key e; value := value e; prev := q; next := next e |}.
Definition set_value (v : V) (e : Element) : Element :=
  {| key := key e; value := v; prev := prev e; next := next e |}.

(** ** Operations *)

Definition Head (o : OrderedMap) : outcome (option (K * V)) :=
  match head o with
  | None => Ret None
  | Some _ => e ← deref (heap o) (head o); Ret (Some (key e, value e))
  end.

Definition Tail (o : OrderedMap) : outcome (option (K * V)) :=
  match tail o with
  | None => Ret None
  | Some _ => e ← deref (heap o) (tail o); Ret (Some (key e, value e))
  end.

Definition Has (o : OrderedMap) (k : K) : bool := ShrinkingMap.Has (dictionary o) k.

Definition Get (o : OrderedMap) (k : K) : outcome (option V) :=
  match ShrinkingMap.Get (dictionary o) k with
  | None => Ret None
  | Some l => e ← deref (heap o) (Some l); Ret (Some (value e))
  end.

(** The previous value, [None] when there was none. *)
Definition Set_ (o : OrderedMap) (k : K) (newValue : V) : outcome (OrderedMap * option V) :=
  match ShrinkingMap.Get (dictionary o) k with
  | Some oldValue =>
      e ← deref (heap o) (Some oldValue);
      h ← update (heap o) (Some oldValue) (set_value newValue);
      Ret ({| heap := h; head := head o; tail := tail o; dictionary := dictionary o;
              o_size := o_size o |}, Some (value e))
  | None =>
      let newElement := fresh (dom (heap o)) in
      let h := <[newElement := {| key := k; value := newValue; prev := None; next := None |}]> (heap o) in
      '(h, hd) ← match head o with
                 | None => Ret (h, Some newElement)
                 | Some _ =>
                     h ← update h (tail o) (set_next (Some newElement));
                     h ← update h (Some newElement) (set_prev (tail o));
                     Ret (h, head o)
                 end;
      Ret ({| heap := h; head := hd; tail := Some newElement;
              dictionary := (ShrinkingMap.Set_ (dictionary o) k newElement).1;
              o_size := o_size o + 1 |}, None)
  end.

Definition Clear (o : OrderedMap) : OrderedMap :=
  {| heap := heap o; head := None; tail := None; dictionary := ShrinkingMap.New []; o_size := 0 |}.

Definition Delete (o : OrderedMap) (k : K) : outcome (OrderedMap * bool) :=
  match ShrinkingMap.Get (dictionary o) k with
  | None => Ret (o, false)
  | Some l =>
      let d := (ShrinkingMap.Delete (dictionary o) k None).1 in
      e ← deref (heap o) (Some l);
      '(h, hd) ← match prev e with
                 | Some _ => h ← update (heap o) (prev e) (set_next (next e)); Ret (h, head o)
                 | None => Ret (heap o, next e)
                 end;
      e ← deref h (Some l);
      '(h, tl) ← match next e with
                 | Some _ => h ← update h (next e) (set_prev (prev e)); Ret (h, tail o)
                 | None => Ret (h, prev e)
                 end;
      Ret ({| heap := h; head := hd; tail := tl; dictionary := d; o_size := o_size o - 1 |}, true)
  end.

Definition Size (o : OrderedMap) : Z := o_size o.
Definition IsEmpty (o : OrderedMap) : bool := Size o =? 0.

(** The loops over the elements, from a pointer on: the consumer gets the map
    and its own state and may change both; [dir] is [next] or [prev].  [None]
    when the loop does not end within the fuel. *)
Fixpoint for_each_from {S} (fuel : nat) (dir : Element → option loc)
    (consumer : K → V → OrderedMap * S → outcome ((OrderedMap * S) * bool))
    (currentEntry : option loc) (st : OrderedMap * S) : option (outcome ((OrderedMap * S) * bool)) :=
  match currentEntry with
  | None => Some (Ret (st, true))
  | Some _ =>
      match fuel with
      | O => None
      | Datatypes.S fuel =>
          match (e ← deref (heap st.1) currentEntry; consumer (key e) (value e) st) with
          | Panic msg => Some (Panic msg)
          | Ret (st, false) => Some (Ret (st, false))
          | Ret (st, true) =>
              match deref (heap st.1) currentEntry with
              | Panic msg => Some (Panic msg)
              | Ret e => for_each_from fuel dir consumer (dir e) st
              end
          end
      end
  end.

Definition ForEach {S} (fuel : nat) (o : OrderedMap)
    (consumer : K → V → OrderedMap * S → outcome ((OrderedMap * S) * bool)) (st : S) :=
  for_each_from fuel next consumer (head o) (o, st).

Definition ForEachReverse {S} (fuel : nat) (o : OrderedMap)
    (consumer : K → V → OrderedMap * S → outcome ((OrderedMap * S) * bool)) (st : S) :=
  for_each_from fuel prev consumer (tail o) (o, st).

(** [Clone] runs under the read lock: the loop does not see changes. *)
Fixpoint clone_from (fuel : nat) (o : OrderedMap) (currentEntry : option loc) (cloned : OrderedMap)
    : option (outcome OrderedMap) :=
  match currentEntry with
  | None => Some (Ret cloned)
  | Some _ =>
      match fuel with
      | O => None
      | S fuel =>
          match (e ← deref (heap o) currentEntry;
                 '(cloned, _) ← Set_ cloned (key e) (value e);
                 Ret (cloned, next e)) with
          | Panic msg => Some (Panic msg)
          | Ret (cloned, p) => clone_from fuel o p cloned
          end
      end
  end.

Definition Clone (fuel : nat) (o : OrderedMap) : option (outcome OrderedMap) :=
  clone_from fuel o (head o) New.

(** ** The representation *)

(** The pointers of the map: nil is the node before the head and behind the tail. *)
Definition nx (o : OrderedMap) (p : option loc) : option (option loc) :=
  match p with None => Some (head o) | Some l => option_map next (heap o !! l) end.
Definition pv (o : OrderedMap) (p : option loc) : option (option loc) :=
  match p with None => Some (tail o) | Some l => option_map prev (heap o !! l) end.

(** The element at a location holds an entry. *)
Definition holds (h : gmap loc Element) (l : loc) (kv : K * V) : Prop :=
  ∃ e, h !! l = Some e ∧ key e = kv.1 ∧ value e = kv.2.

(** [o] represents the entries [es], in this order, at the locations [ls]. *)
Record om_rep (o : OrderedMap) (ls : list loc) (es : list (K * V)) : Prop := {
  rep_ring : ring (nx o) (pv o) None (Some <$> ls);
  rep_es : Forall2 (holds (heap o)) ls es;
  rep_dict k l : sm_m (dictionary o) !! k = Some l ↔ ∃ v, (l, (k, v)) ∈ zip ls es;
  rep_size : o_size o = len ls;
}.

(** ** The specification: an association list in insertion order *)

Fixpoint al_get (k : K) (es : list (K * V)) : option V :=
  match es with
  | [] => None
  | (k', v) :: es => if decide (k' = k) then Some v else al_get k es
  end.

Definition al_set (k : K) (v : V) (es : list (K * V)) : list (K * V) :=
  match al_get k es with
  | Some _ => (λ kv, if decide (kv.1 = k) then (k, v) else kv) <$> es
  | None => es ++ [(k, v)]
  end.

Definition al_delete (k : K) (es : list (K * V)) : list (K * V) :=
  filter (λ kv, kv.1 ≠ k) es.

(** ** Lemmas *)

Lemma al_get_None k es : k ∉ es.*1 → al_get k es = None.
Proof.
  induction es as [|[k' v] es IH]; [done|]. simpl. rewrite not_elem_of_cons. intros [Hne Hk].
  rewrite decide_False by done. by apply IH.
Qed.

Lemma al_get_split k v e1 e2 : k ∉ e1.*1 → al_get k (e1 ++ (k, v) :: e2) = Some v.
Proof.
  induction e1 as [|[k' v'] e1 IH]; simpl; [by rewrite decide_True|].
  rewrite not_elem_of_cons. intros [Hne Hk]. rewrite decide_False by done. by apply IH.
Qed.

Lemma al_map_ne (k : K) (v : V) (es : list (K * V)) :
  k ∉ es.*1 → (λ kv, if decide (kv.1 = k) then (k, v) else kv) <$> es = es.
Proof.
  intros Hk. rewrite <-(list_fmap_id es) at 2. apply list_fmap_ext. intros i [k' v'] Hi. simpl.
  rewrite decide_False; [done|]. intros ->. apply Hk. apply list_elem_of_fmap. exists (k, v').
  split; [done|]. by eapply list_elem_of_lookup_2.
Qed.

Lemma al_set_split k v v' e1 e2 :
  k ∉ e1.*1 → k ∉ e2.*1 → al_set k v' (e1 ++ (k, v) :: e2) = e1 ++ (k, v') :: e2.
Proof.
  intros H1 H2. unfold al_set. rewrite al_get_split by done. rewrite fmap_app, fmap_cons. simpl.
  rewrite decide_True by done. by rewrite !al_map_ne.
Qed.

Lemma al_filter_ne k (es : list (K * V)) : k ∉ es.*1 → al_delete k es = es.
Proof.
  unfold al_delete. induction es as [|[k' v] es IH]; [done|]. simpl. rewrite not_elem_of_cons.
  intros [Hne Hk]. rewrite filter_cons_True by (simpl; congruence). by rewrite IH.
Qed.

Lemma al_delete_split k v e1 e2 :
  k ∉ e1.*1 → k ∉ e2.*1 → al_delete k (e1 ++ (k, v) :: e2) = e1 ++ e2.
Proof.
  intros H1 H2. unfold al_delete. rewrite filter_app, filter_cons_False by naive_solver.
  by f_equal; apply (al_filter_ne k).
Qed.

Lemma zip_partner {A B} (l : list A) (m : list B) y :
  length l = length m → y ∈ m → ∃ x, (x, y) ∈ zip l m ∧ x ∈ l.
Proof.
  intros Hl [i Hi]%list_elem_of_lookup. pose proof (lookup_lt_Some _ _ _ Hi).
  destruct (lookup_lt_is_Some_2 l i ltac:(lia)) as [x Hx]. exists x. split.
  - apply list_elem_of_lookup. exists i. by apply lookup_zip_with_Some; exists x, y.
  - by eapply list_elem_of_lookup_2.
Qed.

Lemma zip_split {A B} (l : list A) (m : list B) x y :
  length l = length m → (x, y) ∈ zip l m →
  ∃ l1 l2 m1 m2, l = l1 ++ x :: l2 ∧ m = m1 ++ y :: m2 ∧ length l1 = length m1.
Proof.
  revert m. induction l as [|a l IH]; intros [|b m] Hl; simpl; try done;
    [by intros ?%not_elem_of_nil|].
  rewrite elem_of_cons. intros [[= -> ->]|Hin].
  - by exists [], l, [], m.
  - destruct (IH m) as (l1 & l2 & m1 & m2 & -> & -> & Hl1); [by simplify_eq/=|done|].
    exists (a :: l1), l2, (b :: m1), m2. simpl. by rewrite Hl1.
Qed.

Lemma rep_length o ls es : om_rep o ls es → length ls = length es.
Proof. intros Hr. eapply Forall2_length, rep_es, Hr. Qed.

Lemma rep_NoDup o ls es : om_rep o ls es → NoDup ls.
Proof.
  intros [[Hnd _] _ _ _]. apply NoDup_cons in Hnd as [_ Hnd]. by eapply NoDup_fmap_1.
Qed.

Lemma rep_not_in o ls es k : om_rep o ls es → sm_m (dictionary o) !! k = None → k ∉ es.*1.
Proof.
  intros Hr Hk ([k' v] & Hkv & Hin)%list_elem_of_fmap. simpl in Hkv. subst k'.
  destruct (zip_partner ls es (k, v) (rep_length _ _ _ Hr) Hin) as (l & Hl & _).
  assert (sm_m (dictionary o) !! k = Some l) by (apply (rep_dict _ _ _ Hr); by exists v). congruence.
Qed.

(** Where a key is. *)
Lemma rep_split o ls es k l :
  om_rep o ls es → sm_m (dictionary o) !! k = Some l →
  ∃ l1 l2 e1 e2 v, ls = l1 ++ l :: l2 ∧ es = e1 ++ (k, v) :: e2 ∧ length l1 = length e1 ∧
    length l2 = length e2 ∧ k ∉ e1.*1 ∧ k ∉ e2.*1 ∧ holds (heap o) l (k, v).
Proof.
  intros Hr Hk. pose proof (rep_length _ _ _ Hr) as Hlen. pose proof (rep_NoDup _ _ _ Hr) as Hnd.
  destruct (proj1 (rep_dict _ _ _ Hr k l) Hk) as (v & Hin).
  destruct (zip_split _ _ _ _ Hlen Hin) as (l1 & l2 & e1 & e2 & -> & -> & Hl1).
  assert (length l2 = length e2) as Hl2 by (rewrite !length_app in Hlen; simpl in Hlen; lia).
  pose proof (rep_es _ _ _ Hr) as Hes. apply Forall2_app_inv in Hes as [H1 H2]; [|done].
  apply Forall2_cons in H2 as [Hl H2].
  apply NoDup_app in Hnd as (_ & Hd & [Hl' _]%NoDup_cons).
  assert (∀ l' v', (l', (k, v')) ∈ zip l1 e1 ∨ (l', (k, v')) ∈ zip l2 e2 → l' = l) as Hu.
  { intros l' v' Hz. enough (sm_m (dictionary o) !! k = Some l') by congruence.
    apply (rep_dict _ _ _ Hr). exists v'. rewrite zip_with_app by done. simpl. set_solver. }
  exists l1, l2, e1, e2, v. split_and!; try done.
  - intros ([k' v'] & Hkv & Hin')%list_elem_of_fmap. simpl in Hkv. subst k'.
    destruct (zip_partner l1 e1 _ Hl1 Hin') as (l' & Hz & Hl'in).
    rewrite (Hu l' v') in Hl'in by (by left). apply (Hd l); [done|]. constructor.
  - intros ([k' v'] & Hkv & Hin')%list_elem_of_fmap. simpl in Hkv. subst k'.
    destruct (zip_partner l2 e2 _ Hl2 Hin') as (l' & Hz & Hl'in).
    rewrite (Hu l' v') in Hl'in by (by right). done.
Qed.

Lemma om_rep_New : om_rep New [] [].
Proof.
  split; [split; [apply NoDup_singleton|done]|constructor| |done].
  intros k l. simpl. rewrite lookup_empty. split; [done|]. intros [v Hv]. by apply not_elem_of_nil in Hv.
Qed.

Lemma Get_rep o ls es k : om_rep o ls es → Get o k = Ret (al_get k es).
Proof.
  intros Hr. unfold Get, ShrinkingMap.Get. destruct (sm_m (dictionary o) !! k) as [l|] eqn:E.
  - destruct (rep_split o ls es k l Hr E) as (l1 & l2 & e1 & e2 & v & -> & -> & _ & _ & Hk & _ & (e & He & _ & Hv)).
    simpl. rewrite He. simpl. rewrite al_get_split by done. by rewrite Hv.
  - by rewrite al_get_None by (by eapply rep_not_in).
Qed.

(** Changing a pointer or an unrelated element keeps the entries. *)
Lemma holds_update h l e f l' kv :
  h !! l = Some e → key (f e) = key e → value (f e) = value e →
  holds h l' kv → holds (<[l:=f e]> h) l' kv.
Proof.
  intros He Hk Hv (e' & He' & Hk' & Hv'). destruct (decide (l' = l)) as [->|Hne].
  - rewrite He in He'. simplify_eq. exists (f e'). rewrite lookup_insert_eq. by rewrite Hk, Hv.
  - exists e'. by rewrite lookup_insert_ne.
Qed.

Lemma holds_frame h l e l' kv : l' ≠ l → holds h l' kv → holds (<[l:=e]> h) l' kv.
Proof. intros Hne (e' & He' & Hkv). exists e'. by rewrite lookup_insert_ne. Qed.

Lemma holds_frame_all h l e ls es :
  l ∉ ls → Forall2 (holds h) ls es → Forall2 (holds (<[l:=e]> h)) ls es.
Proof.
  intros Hl. induction 1 as [|l' kv ls es Hh Hf IH]; constructor.
  - apply holds_frame; [|done]. set_solver.
  - apply IH. set_solver.
Qed.

Lemma holds_in h ls es l : Forall2 (holds h) ls es → l ∈ ls → is_Some (h !! l).
Proof.
  intros Hf [i Hi]%list_elem_of_lookup. destruct (Forall2_lookup_l _ _ _ _ _ Hf Hi) as (kv & _ & e & He & _).
  by exists e.
Qed.

Lemma update_Some h l e f : h !! l = Some e → update h (Some l) f = Ret (<[l:=f e]> h).
Proof. intros He. unfold update, deref. by rewrite He. Qed.

Lemma Set_existing o ls es k v l :
  om_rep o ls es → sm_m (dictionary o) !! k = Some l →
  ∃ o', Set_ o k v = Ret (o', al_get k es) ∧ om_rep o' ls (al_set k v es).
Proof.
  intros Hr E. destruct (rep_split o ls es k l Hr E)
    as (l1 & l2 & e1 & e2 & v' & -> & -> & Hl1 & Hl2 & Hk1 & Hk2 & (e & He & Hke & Hve)).
  unfold Set_, ShrinkingMap.Get. rewrite E. cbn [deref]. rewrite He. cbn [mbind outcome_bind].
  rewrite (update_Some _ _ _ _ He). cbn [mbind outcome_bind].
  rewrite al_get_split, al_set_split, Hve by done. eexists. split; [done|].
  pose proof (rep_NoDup _ _ _ Hr) as Hnd. apply NoDup_app in Hnd as (_ & Hd & [Hl' _]%NoDup_cons).
  pose proof (rep_es _ _ _ Hr) as Hes. apply Forall2_app_inv in Hes as [H1 H2]; [|done].
  apply Forall2_cons in H2 as [_ H2]. split; cbn [heap head tail dictionary o_size].
  - eapply ring_ext; [|apply (rep_ring _ _ _ Hr)]. intros [l0|] _; [|done]. simpl.
    destruct (decide (l0 = l)) as [->|]; [rewrite lookup_insert_eq, He; done|].
    by rewrite lookup_insert_ne.
  - apply Forall2_app; [|constructor]; [| |].
    + apply holds_frame_all; [|done]. intros Hin. apply (Hd l Hin). constructor.
    + exists (set_value v e). by rewrite lookup_insert_eq.
    + by apply holds_frame_all.
  - intros k' l'. rewrite (rep_dict _ _ _ Hr), !zip_with_app by done. simpl.
    setoid_rewrite elem_of_app. setoid_rewrite elem_of_cons. split; intros [v0 Hin];
      (destruct Hin as [Hin|[[= -> -> ->]|Hin]]; [exists v0|eexists|exists v0]; eauto).
  - apply (rep_size _ _ _ Hr).
Qed.

Lemma rep_head o ls es :
  om_rep o ls es → head o = next_in (Some <$> ls) None ∧ tail o = prev_in None (Some <$> ls).
Proof.
  intros Hr. destruct (ring_root _ _ _ _ (rep_ring _ _ _ Hr)) as [H1 H2]. simpl in *. by simplify_eq.
Qed.

(** The list after [l] was appended behind the tail. *)
Lemma append_ring o ls es l k v e e' o' :
  om_rep o ls es → l ∉ ls → tail o = Some e →
  head o' = head o → tail o' = Some l → heap o !! e = Some e' →
  heap o' !! l = Some {| key := k; value := v; prev := Some e; next := None |} →
  heap o' !! e = Some (set_next (Some l) e') →
  (∀ l', l' ∈ ls → l' ≠ e → heap o' !! l' = heap o !! l') →
  ring (nx o') (pv o') None (Some <$> (ls ++ [l])).
Proof.
  intros Hr Hl Ht Hh' Ht' He Hl' He' Hframe.
  pose proof (rep_head _ _ _ Hr) as [_ Htl]. rewrite Ht in Htl.
  pose proof (ring_insert (nx o) (pv o) None (Some <$> ls) [] (Some l)) as Hring.
  rewrite app_nil_r, <-Htl in Hring. simpl in Hring. rewrite fmap_app. simpl.
  assert (e ∈ ls) as Hein.
  { destruct (prev_in_elem None (Some <$> ls)) as [E|E]; rewrite <-Htl in E; [done|]. set_solver. }
  eapply ring_ext; [|apply Hring; [apply (rep_ring _ _ _ Hr)|set_solver]].
  intros z Hz. unfold insert_nx, insert_pv.
  assert (l ≠ e) by (intros ->; done).
  destruct z as [l'|].
  2:{ rewrite !fn_lookup_insert_ne, fn_lookup_insert by done. simpl. by rewrite Hh', Ht'. }
  rewrite (fn_lookup_insert_ne _ None) by done.
  destruct (decide (l' = l)) as [->|Hne].
  { rewrite !fn_lookup_insert. simpl. by rewrite Hl'. }
  rewrite !(fn_lookup_insert_ne _ (Some l)) by congruence.
  destruct (decide (l' = e)) as [->|Hne'].
  { rewrite fn_lookup_insert. simpl. by rewrite He', He. }
  rewrite fn_lookup_insert_ne by congruence. simpl. rewrite Hframe; [done| |done]. set_solver.
Qed.

(** The dictionary and the entries after an entry was appended. *)
Lemma append_dict o ls es k v l :
  om_rep o ls es → sm_m (dictionary o) !! k = None → ∀ k' l',
  <[k:=l]> (sm_m (dictionary o)) !! k' = Some l' ↔ ∃ v', (l', (k', v')) ∈ zip (ls ++ [l]) (es ++ [(k, v)]).
Proof.
  intros Hr Hk k' l'. rewrite zip_with_app by (by eapply rep_length). simpl.
  setoid_rewrite elem_of_app. setoid_rewrite list_elem_of_singleton.
  pose proof (rep_dict _ _ _ Hr k' l') as Hd.
  destruct (decide (k' = k)) as [->|Hne].
  - rewrite lookup_insert_eq. rewrite Hk in Hd. split.
    + intros [= ->]. eexists. by right.
    + intros [v' [Hin|Hin]]; [|by simplify_eq].
      assert (None = Some l') by (apply Hd; eauto). done.
  - rewrite lookup_insert_ne by done. rewrite Hd. split; intros [v' Hin]; exists v'; naive_solver.
Qed.

Lemma Set_new o ls es k v :
  om_rep o ls es → sm_m (dictionary o) !! k = None →
  ∃ o' l, Set_ o k v = Ret (o', al_get k es) ∧ om_rep o' (ls ++ [l]) (al_set k v es).
Proof.
  intros Hr E. pose proof (rep_not_in _ _ _ _ Hr E) as Hk. unfold al_set.
  rewrite al_get_None by done. unfold Set_, ShrinkingMap.Get. rewrite E.
  set (l := fresh (dom (heap o))).
  assert (heap o !! l = None) as Hfresh by (apply not_elem_of_dom, is_fresh).
  pose proof (rep_es _ _ _ Hr) as Hes.
  assert (l ∉ ls) as Hl by (intros Hin; destruct (holds_in _ _ _ _ Hes Hin); congruence).
  pose proof (rep_head _ _ _ Hr) as [Hh Ht]. pose proof (rep_size _ _ _ Hr) as Hsz.
  destruct ls as [|l0 ls' _] using rev_ind.
  - simpl in Hh. rewrite Hh. apply Forall2_nil_inv_l in Hes as ->. cbn [mbind outcome_bind].
    eexists _, l. split; [done|]. simpl. split; cbn [heap head tail dictionary o_size].
    + split; [repeat constructor; set_solver|]. simpl. unfold link. simpl.
      by rewrite lookup_insert_eq.
    + constructor; [|constructor]. eexists. by rewrite lookup_insert_eq.
    + by apply (append_dict o [] []).
    + rewrite Hsz. reflexivity.
  - rewrite fmap_app, list_fmap_singleton, prev_in_snoc in Ht.
    assert (∃ l', head o = Some l') as [h' Hh'] by (destruct ls'; simpl in Hh; eauto).
    destruct (holds_in _ _ _ l0 Hes) as [e0 He0]; [set_solver|].
    assert (l0 ≠ l) by (intros ->; congruence).
    rewrite Hh', Ht. erewrite update_Some by (by rewrite lookup_insert_ne). cbn [mbind outcome_bind].
    erewrite update_Some by (by rewrite lookup_insert_ne, lookup_insert_eq). cbn [mbind outcome_bind].
    eexists _, l. split; [done|]. split; cbn [heap head tail dictionary o_size].
    + eapply (append_ring o _ es l k v l0 e0); simpl; try done.
      * by rewrite lookup_insert_eq.
      * by rewrite lookup_insert_ne, lookup_insert_eq.
      * intros l' Hl' Hne. rewrite !lookup_insert_ne; [done|set_solver..].
    + apply Forall2_app.
      * apply holds_frame_all; [done|]. eapply Forall2_impl; [exact Hes|]. intros l' kv Hkv.
        rewrite insert_insert_ne by done. apply holds_frame.
        { intros ->. destruct Hkv as (e & He & _). congruence. }
        eapply (holds_update _ _ e0 (set_next (Some l))); done.
      * constructor; [|constructor]. eexists. by rewrite lookup_insert_eq.
    + by apply append_dict.
    + rewrite Hsz, (len_app _ [l]). reflexivity.
Qed.

Lemma Set_rep o ls es k v :
  om_rep o ls es → ∃ o' ls', Set_ o k v = Ret (o', al_get k es) ∧ om_rep o' ls' (al_set k v es).
Proof.
  intros Hr. destruct (sm_m (dictionary o) !! k) as [l|] eqn:E.
  - destruct (Set_existing o ls es k v l Hr E) as (o' & ? & ?). by exists o', ls.
  - destruct (Set_new o ls es k v Hr E) as (o' & l & ? & ?). by exists o', (ls ++ [l]).
Qed.

(** The entries after one was removed. *)
Lemma remove_dict o l1 l l2 e1 k v e2 :
  om_rep o (l1 ++ l :: l2) (e1 ++ (k, v) :: e2) → length l1 = length e1 →
  k ∉ e1.*1 → k ∉ e2.*1 → ∀ k' l',
  delete k (sm_m (dictionary o)) !! k' = Some l' ↔ ∃ v', (l', (k', v')) ∈ zip (l1 ++ l2) (e1 ++ e2).
Proof.
  intros Hr Hlen Hk1 Hk2 k' l'. rewrite lookup_delete_Some, (rep_dict _ _ _ Hr).
  rewrite !zip_with_app by done. simpl. setoid_rewrite elem_of_app. setoid_rewrite elem_of_cons.
  assert (∀ v', (l', (k', v')) ∈ zip l1 e1 ∨ (l', (k', v')) ∈ zip l2 e2 → k ≠ k') as Hne.
  { intros v' Hin ->. destruct Hin as [Hin%elem_of_zip_r|Hin%elem_of_zip_r];
      [apply Hk1|apply Hk2]; apply list_elem_of_fmap; by exists (k', v'). }
  split.
  - intros [Hkk [v' Hin]]. exists v'. destruct Hin as [?|[[= -> -> ->]|?]]; [by left|done|by right].
  - intros [v' Hin]. split; [by eapply Hne|]. exists v'. tauto.
Qed.

(** The pointers around a removed element, step by step. *)
Lemma remove_ring o l1 l l2 o' (p c : option loc) :
  ring (nx o) (pv o) None (Some <$> (l1 ++ l :: l2)) →
  p = prev_in None (Some <$> l1) → c = next_in (Some <$> l2) None →
  (∀ z, z ∈ None :: (Some <$> (l1 ++ l2)) →
     nx o' z = (if decide (z = p) then Some c else nx o z) ∧
     pv o' z = (if decide (z = c) then Some p else pv o z)) →
  ring (nx o') (pv o') None (Some <$> (l1 ++ l2)).
Proof.
  intros Hr -> -> Hz. rewrite fmap_app, fmap_cons in Hr. apply ring_remove in Hr. rewrite fmap_app in *.
  eapply ring_ext; [|exact Hr]. intros z Hin. destruct (Hz z Hin) as [-> ->].
  unfold remove_nx, remove_pv. split; case_decide; subst;
    by rewrite ?fn_lookup_insert, ?fn_lookup_insert_ne by congruence.
Qed.

(** A pointer that may be followed. *)
Definition valid (h : gmap loc Element) (p : option loc) : Prop :=
  match p with Some l => is_Some (h !! l) | None => True end.

(** Redirecting what comes behind [p] (the head when [p] is nil) to [c]. *)
Lemma set_next_at o p c :
  valid (heap o) p →
  ∃ h hd, (match p with
           | Some _ => h ← update (heap o) p (set_next c); Ret (h, head o)
           | None => Ret (heap o, c)
           end) = Ret (h, hd) ∧
    (∀ l, Some l ≠ p → h !! l = heap o !! l) ∧
    (∀ l' kv, holds (heap o) l' kv → holds h l' kv) ∧
    ∀ tl d n z,
      let o' := {| heap := h; head := hd; tail := tl; dictionary := d; o_size := n |} in
      nx o' z = (if decide (z = p) then Some c else nx o z) ∧ (z ≠ None → pv o' z = pv o z).
Proof.
  intros Hv. destruct p as [l|].
  - destruct Hv as [e He]. rewrite (update_Some _ _ _ _ He). eexists _, _. split; [done|].
    split; [intros l' Hne; apply lookup_insert_ne; congruence|].
    split; [intros l' kv; by apply (holds_update _ _ e (set_next c))|].
    intros tl d n z. destruct z as [l'|]; [|done]. simpl.
    destruct (decide (l' = l)) as [->|Hne].
    + by rewrite lookup_insert_eq, He, decide_True.
    + by rewrite lookup_insert_ne, decide_False by congruence.
  - eexists _, _. split_and!; try done. intros tl d n z. by destruct z.
Qed.

(** Redirecting what comes before [p] (the tail when [p] is nil) to [c]. *)
Lemma set_prev_at o p c :
  valid (heap o) p →
  ∃ h tl, (match p with
           | Some _ => h ← update (heap o) p (set_prev c); Ret (h, tail o)
           | None => Ret (heap o, c)
           end) = Ret (h, tl) ∧
    (∀ l' kv, holds (heap o) l' kv → holds h l' kv) ∧
    ∀ d n z,
      let o' := {| heap := h; head := head o; tail := tl; dictionary := d; o_size := n |} in
      nx o' z = nx o z ∧ pv o' z = (if decide (z = p) then Some c else pv o z).
Proof.
  intros Hv. destruct p as [l|].
  - destruct Hv as [e He]. rewrite (update_Some _ _ _ _ He). eexists _, _. split; [done|].
    split; [intros l' kv; by apply (holds_update _ _ e (set_prev c))|].
    intros d n z. destruct z as [l'|]; [|done]. simpl.
    destruct (decide (l' = l)) as [->|Hne].
    + by rewrite lookup_insert_eq, He, decide_True.
    + by rewrite lookup_insert_ne, decide_False by congruence.
  - eexists _, _. split_and!; try done. intros d n z. by destruct z.
Qed.

(** The neighbours of an element of the list. *)
Lemma rep_neighbours o l1 l l2 es e :
  om_rep o (l1 ++ l :: l2) es → heap o !! l = Some e →
  prev e = prev_in None (Some <$> l1) ∧ next e = next_in (Some <$> l2) None ∧
  valid (heap o) (prev e) ∧ valid (heap o) (next e) ∧ prev e ≠ Some l.
Proof.
  intros Hr He. pose proof (rep_es _ _ _ Hr) as Hes. pose proof (rep_ring _ _ _ Hr) as Hring.
  rewrite fmap_app, fmap_cons in Hring. apply ring_node in Hring as [Hn Hp].
  simpl in Hn, Hp. rewrite He in Hn, Hp. injection Hn as Hn. injection Hp as Hp.
  rewrite Hn, Hp.
  pose proof (rep_NoDup _ _ _ Hr) as Hnd. apply NoDup_app in Hnd as (_ & Hd & _).
  split_and!; try done.
  - destruct (prev_in_elem None (Some <$> l1)) as [E|E]; [by rewrite E|].
    apply list_elem_of_fmap in E as (p & -> & Hin). apply (holds_in _ _ _ _ Hes). set_solver.
  - destruct (next_in_elem (Some <$> l2) None) as [E|E]; [by rewrite E|].
    apply list_elem_of_fmap in E as (p & -> & Hin). apply (holds_in _ _ _ _ Hes). set_solver.
  - intros E. destruct (prev_in_elem None (Some <$> l1)) as [E'|E']; [congruence|].
    rewrite E in E'. apply list_elem_of_fmap in E' as (p & [= <-] & Hin). apply (Hd l Hin). constructor.
Qed.

Lemma Delete_found o ls es k l :
  om_rep o ls es → sm_m (dictionary o) !! k = Some l →
  ∃ o' l1 l2, ls = l1 ++ l :: l2 ∧ Delete o k = Ret (o', true) ∧ om_rep o' (l1 ++ l2) (al_delete k es) ∧
    (∃ e, heap o !! l = Some e ∧ option_map next (heap o' !! l) = Some (next e)).
Proof.
  intros Hr E. destruct (rep_split o ls es k l Hr E)
    as (l1 & l2 & e1 & e2 & v & -> & -> & Hl1 & Hl2 & Hk1 & Hk2 & (e & He & Hke & Hve)).
  destruct (rep_neighbours _ _ _ _ _ _ Hr He) as (Hp & Hn & Hvp & Hvn & Hpl).
  unfold Delete, ShrinkingMap.Get. rewrite E. cbn [deref]. rewrite He. cbn [mbind outcome_bind].
  destruct (set_next_at o (prev e) (next e) Hvp) as (h1 & hd & -> & Hsame & Hh1 & Hnx1).
  cbn [mbind outcome_bind]. rewrite (Hsame l) by congruence. rewrite He. cbn [mbind outcome_bind].
  set (o1 := {| heap := h1; head := hd; tail := tail o; dictionary := dictionary o; o_size := o_size o |}).
  destruct (set_prev_at o1 (next e) (prev e)) as (h2 & tl & Heq & Hh2 & Hnx2).
  { destruct (next e) as [c|]; [|done]. destruct Hvn as [ec Hec].
    destruct (Hh1 c (key ec, value ec)) as (ec' & Hec' & _); by eexists. }
  change (heap o1) with h1 in Heq, Hh2. change (tail o1) with (tail o) in Heq. rewrite Heq.
  cbn [mbind outcome_bind]. eexists _, l1, l2. split; [done|]. split; [done|].
  pose proof (rep_es _ _ _ Hr) as Hes. apply Forall2_app_inv in Hes as [H1 H2]; [|done].
  apply Forall2_cons in H2 as [_ H2]. rewrite al_delete_split by done. split; [split|].
  - apply (remove_ring o l1 l l2 _ _ _ (rep_ring _ _ _ Hr) Hp Hn). intros z Hz.
    destruct (Hnx2 (ShrinkingMap.Delete (dictionary o) k None).1 (o_size o - 1) z) as [H3 H4].
    destruct (Hnx1 (tail o) (dictionary o) (o_size o) z) as [H5 H6].
    change (head o1) with hd in H3, H4. rewrite H3, H4. split; [exact H5|].
    destruct (decide (z = next e)); [done|]. destruct z as [z|]; [by apply H6|done].
  - cbn [heap]. apply Forall2_app; eapply Forall2_impl; eauto.
  - cbn [dictionary]. unfold ShrinkingMap.Delete. rewrite delete_m. by eapply remove_dict.
  - cbn [o_size]. rewrite (rep_size _ _ _ Hr), !len_app. unfold len. simpl. lia.
  - exists e. split; [done|]. cbn [heap].
    destruct (Hnx2 (dictionary o) (o_size o) (Some l)) as [H3 _]. simpl in H3. rewrite H3.
    by rewrite (Hsame l), He by congruence.
Qed.

Lemma Delete_rep o ls es k :
  om_rep o ls es → ∃ o' ls', Delete o k = Ret (o', bool_decide (k ∈ es.*1)) ∧ om_rep o' ls' (al_delete k es).
Proof.
  intros Hr. destruct (sm_m (dictionary o) !! k) as [l|] eqn:E.
  - destruct (rep_split o ls es k l Hr E) as (? & ? & e1 & e2 & v & _ & Hes & _).
    rewrite bool_decide_eq_true_2 by (subst; rewrite fmap_app; simpl; set_solver).
    destruct (Delete_found o ls es k l Hr E) as (o' & l1 & l2 & _ & ? & ? & _). by exists o', (l1 ++ l2).
  - pose proof (rep_not_in _ _ _ _ Hr E) as Hk. rewrite bool_decide_eq_false_2 by done.
    rewrite al_filter_ne by done. exists o, ls. unfold Delete, ShrinkingMap.Get. by rewrite E.
Qed.

(** ** Iteration *)

Lemma NoDup_split_unique {A} (a a' b b' : list A) x :
  NoDup (a ++ x :: b) → a ++ x :: b = a' ++ x :: b' → a = a' ∧ b = b'.
Proof.
  revert a'. induction a as [|y a IH]; intros [|y' a'] Hnd Heq; simplify_eq/=; try done.
  - apply NoDup_cons in Hnd as [Hx _]. exfalso. apply Hx. set_solver.
  - apply NoDup_cons in Hnd as [Hx _]. exfalso. apply Hx. set_solver.
  - apply NoDup_cons in Hnd as [_ Hnd]. by destruct (IH a' Hnd H1) as [-> ->].
Qed.

Lemma rep_keys_NoDup o ls es : om_rep o ls es → NoDup es.*1.
Proof.
  intros Hr. apply NoDup_alt. intros i j k Hi Hj.
  apply list_lookup_fmap_Some in Hi as ([k1 v1] & -> & Hi), Hj as ([k2 v2] & Hk & Hj).
  simpl in *. subst k2. pose proof (rep_length _ _ _ Hr) as Hlen.
  destruct (lookup_lt_is_Some_2 ls i) as [l Hl]; [rewrite Hlen; by eapply lookup_lt_Some|].
  destruct (lookup_lt_is_Some_2 ls j) as [l' Hl']; [rewrite Hlen; by eapply lookup_lt_Some|].
  assert (∀ i l v, ls !! i = Some l → es !! i = Some (k1, v) → sm_m (dictionary o) !! k1 = Some l) as Hd.
  { intros i' l0 v Hli Hei. apply (rep_dict _ _ _ Hr). exists v. apply list_elem_of_lookup. exists i'.
    by apply lookup_zip_with_Some; exists l0, (k1, v). }
  assert (l' = l) as -> by (pose proof (Hd _ _ _ Hl Hi); pose proof (Hd _ _ _ Hl' Hj); congruence).
  by apply (NoDup_lookup _ _ _ _ (rep_NoDup _ _ _ Hr) Hl Hl').
Qed.

(** Deleting the entry at a given place; the removed element keeps its next pointer. *)
Lemma Delete_at o l1 l l2 e1 k v e2 :
  om_rep o (l1 ++ l :: l2) (e1 ++ (k, v) :: e2) → length l1 = length e1 →
  ∃ o', Delete o k = Ret (o', true) ∧ om_rep o' (l1 ++ l2) (e1 ++ e2) ∧
    option_map next (heap o' !! l) = Some (next_in (Some <$> l2) None).
Proof.
  intros Hr Hlen.
  assert (sm_m (dictionary o) !! k = Some l) as Hk.
  { apply (rep_dict _ _ _ Hr). exists v. rewrite zip_with_app by done. simpl. set_solver. }
  destruct (Delete_found o _ _ k l Hr Hk) as (o' & l1' & l2' & Hls & Hdel & Hr' & e & He & Hnext).
  destruct (NoDup_split_unique _ _ _ _ _ (rep_NoDup _ _ _ Hr) Hls) as [<- <-].
  pose proof (rep_keys_NoDup _ _ _ Hr) as Hnd. rewrite fmap_app in Hnd. simpl in Hnd.
  apply NoDup_app in Hnd as (_ & Hd & [Hk2 _]%NoDup_cons).
  rewrite al_delete_split in Hr' by (intros; try set_solver).
  exists o'. split_and!; try done. rewrite Hnext. f_equal.
  by destruct (rep_neighbours _ _ _ _ _ _ Hr He) as (_ & -> & _).
Qed.

(** The consumer's state and whether the loop ran to the end. *)
Fixpoint visit_entries {S} (f : K → V → S → S * bool) (es : list (K * V)) (st : S) : S * bool :=
  match es with
  | [] => (st, true)
  | (k, v) :: es =>
      let '(st, continue) := f k v st in
      if continue then visit_entries f es st else (st, false)
  end.

(** A consumer that leaves the map alone. *)
Definition reading {S} (f : K → V → S → S * bool) (k : K) (v : V) (st : OrderedMap * S)
    : outcome ((OrderedMap * S) * bool) :=
  let '(s, continue) := f k v st.2 in Ret ((st.1, s), continue).

(** A consumer that records the entry and deletes it when [del] says so. *)
Definition deleting (del : K → V → bool) (k : K) (v : V) (st : OrderedMap * list (K * V))
    : outcome ((OrderedMap * list (K * V)) * bool) :=
  let visited := st.2 ++ [(k, v)] in
  if del k v then '(o, _) ← Delete st.1 k; Ret ((o, visited), true)
  else Ret ((st.1, visited), true).

Lemma for_each_reading {S} o l1 l2 e1 e2 (f : K → V → S → S * bool) st fuel :
  om_rep o (l1 ++ l2) (e1 ++ e2) → length l1 = length e1 → (length l2 ≤ fuel)%nat →
  for_each_from fuel next (reading f) (next_in (Some <$> l2) None) (o, st) =
    Some (Ret ((o, (visit_entries f e2 st).1), (visit_entries f e2 st).2)).
Proof.
  revert l1 e1 e2 st fuel.
  induction l2 as [|l l2 IH]; intros l1 e1 e2 st fuel Hr Hlen Hfuel.
  - pose proof (rep_length _ _ _ Hr) as Hl. rewrite !length_app in Hl. simpl in Hl.
    destruct e2; simpl in Hl; [|lia]. by destruct fuel.
  - destruct e2 as [|[k v] e2].
    { pose proof (rep_length _ _ _ Hr) as Hl. rewrite !length_app in Hl. simpl in Hl. lia. }
    destruct fuel as [|fuel]; simpl in Hfuel; [lia|].
    pose proof (rep_es _ _ _ Hr) as Hes. apply Forall2_app_inv in Hes as [_ Hes]; [|done].
    apply Forall2_cons in Hes as [(e & He & Hke & Hve) _]. simpl in Hke, Hve.
    destruct (rep_neighbours _ _ _ _ _ _ Hr He) as (_ & Hn & _).
    cbn [for_each_from fmap list_fmap next_in hd deref fst]. rewrite He. cbn [mbind outcome_bind].
    rewrite Hke, Hve. unfold reading at 1. cbn [visit_entries fst snd].
    destruct (f k v st) as [st' [|]]; [|done]. cbn [fst]. rewrite He, Hn.
    apply (IH (l1 ++ [l]) (e1 ++ [(k, v)])); [by rewrite <-!app_assoc| |lia].
    rewrite !length_app. simpl. lia.
Qed.

Lemma for_each_reverse_reading {S} o l1 l2 e1 e2 (f : K → V → S → S * bool) st fuel :
  om_rep o (rev l2 ++ l1) (rev e2 ++ e1) → length l2 = length e2 → (length l2 ≤ fuel)%nat →
  for_each_from fuel prev (reading f) (prev_in None (Some <$> rev l2)) (o, st) =
    Some (Ret ((o, (visit_entries f e2 st).1), (visit_entries f e2 st).2)).
Proof.
  revert l1 e1 e2 st fuel.
  induction l2 as [|l l2 IH]; intros l1 e1 e2 st fuel Hr Hlen Hfuel.
  - destruct e2; [|done]. by destruct fuel.
  - destruct e2 as [|[k v] e2]; [done|]. simpl in Hlen, Hfuel. simpl in Hr.
    destruct fuel as [|fuel]; [lia|]. rewrite <-!app_assoc in Hr. simpl in Hr.
    pose proof (rep_es _ _ _ Hr) as Hes.
    apply Forall2_app_inv in Hes as [_ Hes]; [|rewrite !length_rev; lia].
    apply Forall2_cons in Hes as [(e & He & Hke & Hve) _]. simpl in Hke, Hve.
    destruct (rep_neighbours _ _ _ _ _ _ Hr He) as (Hp & _).
    cbn [rev]. rewrite fmap_app, list_fmap_singleton, prev_in_snoc.
    cbn [for_each_from deref fst]. rewrite He. cbn [mbind outcome_bind].
    rewrite Hke, Hve. unfold reading at 1. cbn [visit_entries fst snd].
    destruct (f k v st) as [st' [|]]; [|done]. cbn [fst]. rewrite He, Hp.
    apply (IH (l :: l1) ((k, v) :: e1)); [done|lia..].
Qed.

Lemma for_each_deleting del o l1 l2 e1 e2 visited fuel :
  om_rep o (l1 ++ l2) (e1 ++ e2) → length l1 = length e1 → (length l2 ≤ fuel)%nat →
  ∃ o' ls', for_each_from fuel next (deleting del) (next_in (Some <$> l2) None) (o, visited) =
      Some (Ret ((o', visited ++ e2), true)) ∧
    om_rep o' ls' (e1 ++ filter (λ kv, del kv.1 kv.2 = false) e2).
Proof.
  revert o l1 e1 e2 visited fuel.
  induction l2 as [|l l2 IH]; intros o l1 e1 e2 visited fuel Hr Hlen Hfuel.
  - pose proof (rep_length _ _ _ Hr) as Hl. rewrite !length_app in Hl. simpl in Hl.
    destruct e2; simpl in Hl; [|lia]. exists o, (l1 ++ []). rewrite app_nil_r. by destruct fuel.
  - destruct e2 as [|[k v] e2].
    { pose proof (rep_length _ _ _ Hr) as Hl. rewrite !length_app in Hl. simpl in Hl. lia. }
    destruct fuel as [|fuel]; simpl in Hfuel; [lia|].
    pose proof (rep_es _ _ _ Hr) as Hes. apply Forall2_app_inv in Hes as [_ Hes]; [|done].
    apply Forall2_cons in Hes as [(e & He & Hke & Hve) _]. simpl in Hke, Hve.
    destruct (rep_neighbours _ _ _ _ _ _ Hr He) as (_ & Hn & _).
    cbn [for_each_from fmap list_fmap next_in hd deref fst]. rewrite He. cbn [mbind outcome_bind].
    rewrite Hke, Hve. unfold deleting at 1. cbn [fst snd].
    assert (visited ++ (k, v) :: e2 = (visited ++ [(k, v)]) ++ e2) as -> by (by rewrite <-app_assoc).
    destruct (del k v) eqn:Hdel.
    + rewrite filter_cons_False by (simpl; congruence).
      destruct (Delete_at o l1 l l2 e1 k v e2 Hr Hlen) as (o1 & -> & Hr1 & Hnext).
      cbn [mbind outcome_bind fst]. destruct (heap o1 !! l) as [e'|]; [|done].
      simpl in Hnext. injection Hnext as ->. apply (IH o1 l1 e1); [done..|lia].
    + rewrite filter_cons_True by done. cbn [fst]. rewrite He, Hn.
      assert (e1 ++ (k, v) :: filter (λ kv, del kv.1 kv.2 = false) e2 =
        (e1 ++ [(k, v)]) ++ filter (λ kv, del kv.1 kv.2 = false) e2) as -> by (by rewrite <-app_assoc).
      apply (IH o (l1 ++ [l]) (e1 ++ [(k, v)])); [by rewrite <-!app_assoc| |lia].
      rewrite !length_app. simpl. lia.
Qed.

Lemma clone_from_rep o l1 l2 e1 e2 cloned lsc fuel :
  om_rep o (l1 ++ l2) (e1 ++ e2) → length l1 = length e1 → (length l2 ≤ fuel)%nat →
  om_rep cloned lsc e1 →
  ∃ o' ls', clone_from fuel o (next_in (Some <$> l2) None) cloned = Some (Ret o') ∧ om_rep o' ls' (e1 ++ e2).
Proof.
  revert l1 e1 e2 cloned lsc fuel.
  induction l2 as [|l l2 IH]; intros l1 e1 e2 cloned lsc fuel Hr Hlen Hfuel Hc.
  - pose proof (rep_length _ _ _ Hr) as Hl. rewrite !length_app in Hl. simpl in Hl.
    destruct e2; simpl in Hl; [|lia]. rewrite app_nil_r. exists cloned, lsc. by destruct fuel.
  - destruct e2 as [|[k v] e2].
    { pose proof (rep_length _ _ _ Hr) as Hl. rewrite !length_app in Hl. simpl in Hl. lia. }
    destruct fuel as [|fuel]; simpl in Hfuel; [lia|].
    pose proof (rep_es _ _ _ Hr) as Hes. apply Forall2_app_inv in Hes as [_ Hes]; [|done].
    apply Forall2_cons in Hes as [(e & He & Hke & Hve) _]. simpl in Hke, Hve.
    destruct (rep_neighbours _ _ _ _ _ _ Hr He) as (_ & Hn & _).
    cbn [clone_from fmap list_fmap next_in hd deref]. rewrite He. cbn [mbind outcome_bind].
    destruct (Set_rep cloned lsc e1 (key e) (value e) Hc) as (c1 & ls1 & -> & Hr1).
    cbn [mbind outcome_bind]. rewrite Hke, Hve, Hn in *. clear Hke Hve Hn.
    pose proof (rep_keys_NoDup _ _ _ Hr) as Hnd. rewrite fmap_app in Hnd. simpl in Hnd.
    apply NoDup_app in Hnd as (_ & Hd & _). unfold al_set in Hr1.
    rewrite al_get_None in Hr1 by (intros Hk; apply (Hd k Hk); constructor).
    destruct (IH (l1 ++ [l]) (e1 ++ [(k, v)]) e2 c1 ls1 fuel) as (o' & ls' & -> & Hr');
      [by rewrite <-!app_assoc|rewrite !length_app; simpl; lia|lia|done|].
    exists o', ls'. by rewrite <-app_assoc in Hr'.
Qed.

Lemma om_rep_Clear o : om_rep (Clear o) [] [].
Proof.
  split; [split; [apply NoDup_singleton|done]|constructor| |done].
  intros k l. simpl. rewrite lookup_empty. split; [done|]. intros [v Hv]. by apply not_elem_of_nil in Hv.
Qed.

Lemma Head_rep o ls es : om_rep o ls es → Head o = Ret (list.head es).
Proof.
  intros Hr. destruct (rep_head _ _ _ Hr) as [Hh _]. pose proof (rep_es _ _ _ Hr) as Hes.
  unfold Head. rewrite Hh. destruct Hes as [|l [k v] ls es (e & He & Hk & Hv) _]; [done|].
  simpl in *. rewrite He. simpl. by rewrite Hk, Hv.
Qed.

Lemma Tail_rep o ls es : om_rep o ls es → Tail o = Ret (list.last es).
Proof.
  intros Hr. destruct (rep_head _ _ _ Hr) as [_ Ht]. pose proof (rep_es _ _ _ Hr) as Hes.
  unfold Tail. rewrite Ht. clear Hr Ht. destruct ls as [|l ls _] using rev_ind.
  { by apply Forall2_nil_inv_l in Hes as ->. }
  apply Forall2_app_inv_l in Hes as (es1 & es2 & _ & Hes & ->).
  apply Forall2_cons_inv_l in Hes as ([k v] & ? & (e & He & Hk & Hv) & ?%Forall2_nil_inv_l & ->). subst.
  rewrite fmap_app, list_fmap_singleton, prev_in_snoc. simpl in *. rewrite He. simpl.
  by rewrite Hk, Hv, last_snoc.
Qed.

Lemma Has_rep o ls es k : om_rep o ls es → Has o k = bool_decide (k ∈ es.*1).
Proof.
  intros Hr. unfold Has, ShrinkingMap.Has. apply bool_decide_ext.
  destruct (sm_m (dictionary o) !! k) as [l|] eqn:E.
  - destruct (rep_split o ls es k l Hr E) as (? & ? & e1 & e2 & v & _ & -> & _).
    rewrite fmap_app. simpl. split; [set_solver|by eexists].
  - pose proof (rep_not_in _ _ _ _ Hr E). split; [by intros [? ?]|done].
Qed.

(** ** Operation sequences *)

Inductive oop : Type := OmSet (k : K) (v : V) | OmDelete (k : K) | OmClear.
Inductive ores : Type := OPrevious (v : option V) | ODeleted (b : bool) | OCleared.

Definition om_step (o : OrderedMap) (op : oop) : outcome (OrderedMap * ores) :=
  match op with
  | OmSet k v => '(o, v) ← Set_ o k v; Ret (o, OPrevious v)
  | OmDelete k => '(o, b) ← Delete o k; Ret (o, ODeleted b)
  | OmClear => Ret (Clear o, OCleared)
  end.

Definition al_step (es : list (K * V)) (op : oop) : list (K * V) * ores :=
  match op with
  | OmSet k v => (al_set k v es, OPrevious (al_get k es))
  | OmDelete k => (al_delete k es, ODeleted (bool_decide (k ∈ es.*1)))
  | OmClear => ([], OCleared)
  end.

Fixpoint om_run (o : OrderedMap) (ops : list oop) : outcome (OrderedMap * list ores) :=
  match ops with
  | [] => Ret (o, [])
  | op :: ops =>
      '(o, r) ← om_step o op;
      '(o, rs) ← om_run o ops;
      Ret (o, r :: rs)
  end.

Fixpoint al_run (es : list (K * V)) (ops : list oop) : list (K * V) * list ores :=
  match ops with
  | [] => (es, [])
  | op :: ops => let '(es, r) := al_step es op in let '(es, rs) := al_run es ops in (es, r :: rs)
  end.

Lemma om_step_rep o ls es op :
  om_rep o ls es → ∃ o' ls', om_step o op = Ret (o', (al_step es op).2) ∧ om_rep o' ls' (al_step es op).1.
Proof.
  intros Hr. destruct op as [k v|k|]; simpl.
  - destruct (Set_rep o ls es k v Hr) as (o' & ls' & -> & ?). by exists o', ls'.
  - destruct (Delete_rep o ls es k Hr) as (o' & ls' & -> & ?). by exists o', ls'.
  - exists (Clear o), []. split; [done|]. apply om_rep_Clear.
Qed.

Lemma om_run_rep o ls es ops :
  om_rep o ls es → ∃ o' ls', om_run o ops = Ret (o', (al_run es ops).2) ∧ om_rep o' ls' (al_run es ops).1.
Proof.
  revert o ls es. induction ops as [|op ops IH]; intros o ls es Hr; [by exists o, ls|].
  simpl. destruct (om_step_rep o ls es op Hr) as (o1 & ls1 & -> & Hr1). simpl.
  destruct (al_step es op) as [es1 r]. simpl in *.
  destruct (IH o1 ls1 es1 Hr1) as (o2 & ls2 & -> & Hr2). simpl.
  destruct (al_run es1 ops) as [es2 rs]. by exists o2, ls2.
Qed.

End orderedmap.
Arguments Element : clear implicits.
Arguments OrderedMap K V {_ _}.
Arguments oop : clear implicits.
Arguments ores : clear implicits.

(** ** Properties *)

(** C29: [OrderedMap] is an insertion-ordered association list.  Any sequence of
    [Set], [Delete] and [Clear] on a new map runs without a nil dereference and
    answers as the association list does; afterwards [Get], [Has], [Head],
    [Tail] and [Size] answer for its entries, whose keys are distinct. *)
Theorem OrderedMap_refines_list {K V} `{Countable K} (ops : list (oop K V)) :
  let es := (al_run [] ops).1 in
  ∃ o, om_run New ops = Ret (o, (al_run [] ops).2) ∧
    (∀ k, Get o k = Ret (al_get k es)) ∧ (∀ k, Has o k = bool_decide (k ∈ es.*1)) ∧
    Head o = Ret (list.head es) ∧ Tail o = Ret (list.last es) ∧ Size o = len es ∧ NoDup es.*1.
Proof.
  destruct (om_run_rep New [] [] ops om_rep_New) as (o & ls & Hrun & Hr). exists o.
  split_and!; try done.
  - intros k. by eapply Get_rep.
  - intros k. by eapply Has_rep.
  - by eapply Head_rep.
  - by eapply Tail_rep.
  - unfold Size. rewrite (rep_size _ _ _ Hr). unfold len. by rewrite (rep_length _ _ _ Hr).
  - by eapply rep_keys_NoDup.
Qed.

(** [ForEach] and [ForEachReverse] terminate and visit the entries in
    insertion order and in reverse, until the consumer returns false, with as
    many rounds as there are entries. *)
Lemma ForEach_in_order {K V S} `{Countable K} (o : OrderedMap K V) ls es
    (f : K → V → S → S * bool) st fuel :
  om_rep o ls es → (length es ≤ fuel)%nat →
  ForEach fuel o (reading f) st =
    Some (Ret ((o, (visit_entries f es st).1), (visit_entries f es st).2)) ∧
  ForEachReverse fuel o (reading f) st =
    Some (Ret ((o, (visit_entries f (rev es) st).1), (visit_entries f (rev es) st).2)).
Proof.
  intros Hr Hfuel. pose proof (rep_length _ _ _ Hr) as Hlen.
  destruct (rep_head _ _ _ Hr) as [Hh Ht]. unfold ForEach, ForEachReverse. rewrite Hh, Ht. split.
  - apply (for_each_reading o [] ls [] es); [done|done|lia].
  - rewrite <-(rev_involutive ls). apply (for_each_reverse_reading o [] (rev ls) [] (rev es)).
    + by rewrite !app_nil_r, !rev_involutive.
    + by rewrite !length_rev.
    + rewrite length_rev. lia.
Qed.

(** A map with two entries. *)
Lemma two_entries : ∃ (o : OrderedMap Z Z) ls, om_rep o ls [(1, 10); (2, 20)].
Proof.
  destruct (om_run_rep New [] [] [OmSet 1 10; OmSet 2 20] om_rep_New) as (o & ls & _ & Hr).
  exists o, ls. exact Hr.
Qed.

Lemma ForEach_in_order_witness :
  ∃ o : OrderedMap Z Z, ForEach 2 o (reading (λ k v sum, (sum + v, true))) 0 = Some (Ret ((o, 30), true)).
Proof.
  destruct two_entries as (o & ls & Hr). exists o.
  apply (ForEach_in_order o ls _ (λ k v sum, (sum + v, true)) 0 2 Hr). simpl. lia.
Defined.

(** Deleting while iterating is safe.  When the consumer of [ForEach]
    deletes the entry it is called with, the iteration goes on through the
    pointers of the removed element: it terminates, visits every entry once, in
    order, and leaves the entries that were not deleted, in order. *)
Lemma ForEach_while_deleting {K V} `{Countable K} (o : OrderedMap K V) ls es
    (del : K → V → bool) fuel :
  om_rep o ls es → (length es ≤ fuel)%nat →
  ∃ o' ls', ForEach fuel o (deleting del) [] = Some (Ret ((o', es), true)) ∧
    om_rep o' ls' (filter (λ kv, del kv.1 kv.2 = false) es).
Proof.
  intros Hr Hfuel. pose proof (rep_length _ _ _ Hr) as Hlen.
  destruct (rep_head _ _ _ Hr) as [Hh _]. unfold ForEach. rewrite Hh.
  apply (for_each_deleting del o [] ls [] es [] fuel); [done|done|lia].
Qed.

Lemma ForEach_while_deleting_witness :
  ∃ (o o' : OrderedMap Z Z) ls',
    ForEach 2 o (deleting (λ k _, k =? 1)) [] = Some (Ret ((o', [(1, 10); (2, 20)]), true)) ∧
    om_rep o' ls' [(2, 20)].
Proof.
  destruct two_entries as (o & ls & Hr). exists o.
  apply (ForEach_while_deleting o ls _ (λ k _, k =? 1) 2 Hr). simpl. lia.
Defined.

(** [Clone] terminates and gives a map with the same entries in the same order. *)
Lemma Clone_same_entries {K V} `{Countable K} (o : OrderedMap K V) ls es fuel :
  om_rep o ls es → (length es ≤ fuel)%nat →
  ∃ o' ls', Clone fuel o = Some (Ret o') ∧ om_rep o' ls' es.
Proof.
  intros Hr Hfuel. pose proof (rep_length _ _ _ Hr) as Hlen.
  destruct (rep_head _ _ _ Hr) as [Hh _]. unfold Clone. rewrite Hh.
  apply (clone_from_rep o [] ls [] es New []); [done|done|lia|apply om_rep_New].
Qed.

Lemma Clone_same_entries_witness :
  ∃ (o o' : OrderedMap Z Z) ls', Clone 2 o = Some (Ret o') ∧ om_rep o' ls' [(1, 10); (2, 20)].
Proof.
  destruct two_entries as (o & ls & Hr). exists o.
  apply (Clone_same_entries o ls _ 2 Hr). simpl. lia.
Defined.
