(* ===== verification/OrderedSet.v ===== *)
(** * ds: sets, mutations of sets and set arithmetic

    [src/ds/set_impl.go].  A set is an ordered map to the empty struct; the
    ordered map is the association list it refines (OrderedMap.v).  The sets that
    are passed to a method are other sets than its receiver.  The mutexes make
    each method one step. *)

From S2P Require Import OrderedMap.
From S2P Require Import Prelude.

Section Set_.
Context {T : Type} `{Countable T}.

(** The entries of [readableSet]. *)
Definition set : Type := list (T * ()).

Definition elements_of (s : set) : list T := s.*1.

(** [OrderedMap.Set]: the set and whether the element was there before. *)
Definition om_Set (s : set) (element : T) : set * bool :=
  (al_set element () s, bool_decide (is_Some (al_get element s))).

Definition om_Delete (s : set) (element : T) : set * bool :=
  (al_delete element s, bool_decide (element ∈ s.*1)).

Definition newReadableSet (elements : list T) : set := foldl (λ s e, (om_Set s e).1) [] elements.
Definition NewSet (elements : list T) : set := newReadableSet elements.

Definition Has (s : set) (element : T) : bool := bool_decide (element ∈ s.*1).
Definition Size (s : set) : Z := len s.

Definition Add (s : set) (element : T) : set * bool :=
  let '(s, existed) := om_Set s element in (s, negb existed).

Definition Delete (s : set) (element : T) : set * bool := om_Delete s element.

(** The loop of [ForEach] with a callback that may stop it. *)
Fixpoint for_each {St} (elements : list T) (callback : St → T → St * option error) (st : St) :
    St * option error :=
  match elements with
  | [] => (st, None)
  | e :: elements =>
      match callback st e with
      | (st, Some err) => (st, Some err)
      | (st, None) => for_each elements callback st
      end
  end.

Definition ForEach {St} (s : set) (callback : St → T → St * option error) (st : St) : St * option error :=
  for_each (elements_of s) callback st.

Definition Range {St} (s : set) (callback : St → T → St) (st : St) : St := foldl callback st (elements_of s).

(** The receiver and the elements that were added. *)
Definition AddAll (s elements : set) : set * set :=
  (ForEach elements (λ '(s, added) e,
     let '(s, existed) := om_Set s e in
     (s, if existed : bool then added else (Add added e).1, None)) (s, NewSet [])).1.

Definition DeleteAll (s other : set) : set * set :=
  (ForEach other (λ '(s, removed) e,
     let '(s, deleted) := Delete s e in
     (s, if deleted : bool then (Add removed e).1 else removed, None)) (s, NewSet [])).1.

Definition ToSlice (s : set) : list T := (ForEach s (λ slice e, (slice ++ [e], None)) []).1.

Definition Replace (s elements : set) : set * set :=
  (Range elements (λ s e, (om_Set s e).1) [], NewSet (ToSlice s)).

(** ** Reading *)

Definition HasAll (s other : set) : bool :=
  match (ForEach other (λ '() e, ((), if Has s e then None else Some (ErrNew "element not found"))) ()).2 with
  | None => true
  | Some _ => false
  end.

Definition Filter (s : set) (predicate : T → bool) : set :=
  (ForEach s (λ filtered e, (if predicate e then (Add filtered e).1 else filtered, None)) (NewSet [])).1.

Definition Intersect (s other : set) : set := Filter s (Has other).

(** Two sets that are the same object are equal without a look inside. *)
Definition Equals (same : bool) (s other : set) : bool :=
  same || (Size s =? Size other) && HasAll s other.

Definition Any (s : set) : option T := list.head (elements_of s).

Definition Is (s : set) (element : T) : bool := (Size s =? 1) && Has s element.

Definition Clone (s : set) : set := (AddAll (NewSet []) s).2.

(** ** Mutations *)

Record setMutations : Type := mkMutations { addedElements : set; deletedElements : set }.

Definition newSetMutations (elements : list T) : setMutations := mkMutations (NewSet elements) (NewSet []).
Definition WithAddedElements (m : setMutations) (elements : set) : setMutations :=
  mkMutations elements (deletedElements m).
Definition WithDeletedElements (m : setMutations) (elements : set) : setMutations :=
  mkMutations (addedElements m) elements.
Definition IsEmpty (m : setMutations) : bool :=
  (Size (addedElements m) =? 0) && (Size (deletedElements m) =? 0).

Definition apply (s : set) (mutations : setMutations) : set * setMutations :=
  let '(s, added) :=
    Range (addedElements mutations) (λ '(s, added) e,
      let '(s, existed) := om_Set s e in
      (s, if existed : bool then added else (Add added e).1)) (s, NewSet []) in
  let '(s, removed) :=
    Range (deletedElements mutations) (λ '(s, removed) e,
      let '(s, deleted) := om_Delete s e in
      (s, if deleted : bool then (Add removed e).1 else removed)) (s, NewSet []) in
  (s, WithDeletedElements (WithAddedElements (newSetMutations []) added) removed).

Definition Apply (s : set) (mutations : setMutations) : set * setMutations := apply s mutations.

Definition Compute_ (s : set) (mutationFactory : set → setMutations) : set * setMutations :=
  apply s (mutationFactory s).

(** ** Arithmetic *)

(** The shrinking map of the counts is the map it refines. *)
Notation setArithmetic := (gmap T Z).

(** The state of a collector: the counts, the target set and the opposing set. *)
Definition elementsCollector (increase : bool) (threshold : Z)
    (st : setArithmetic * set * set) (element : T) : setArithmetic * set * set :=
  let '(s, targetSet, opposingSet) := st in
  let value := default 0 (s !! element) + (if increase then 1 else -1) in
  let s := <[element := value]> s in
  if value =? (if increase then threshold else threshold - 1) then
    let '(opposingSet, deleted) := Delete opposingSet element in
    if deleted : bool then (s, targetSet, opposingSet)
    else (s, (Add targetSet element).1, opposingSet)
  else (s, targetSet, opposingSet).

Definition AddedElementsCollector (threshold : Z) (st : setArithmetic * setMutations) (element : T) :
    setArithmetic * setMutations :=
  let '(s, m) := st in
  let '(s, added, deleted) := elementsCollector true threshold (s, addedElements m, deletedElements m) element in
  (s, mkMutations added deleted).

Definition SubtractedElementsCollector (threshold : Z) (st : setArithmetic * setMutations) (element : T) :
    setArithmetic * setMutations :=
  let '(s, m) := st in
  let '(s, deleted, added) := elementsCollector false threshold (s, deletedElements m, addedElements m) element in
  (s, mkMutations added deleted).

Definition Arithmetic_Add (s : setArithmetic) (mutations : setMutations) (threshold : Z) :
    setArithmetic * setMutations :=
  let st := Range (addedElements mutations) (AddedElementsCollector threshold) (s, newSetMutations []) in
  Range (deletedElements mutations) (SubtractedElementsCollector threshold) st.

Definition Arithmetic_Subtract (s : setArithmetic) (mutations : setMutations) (threshold : Z) :
    setArithmetic * setMutations :=
  let st := Range (addedElements mutations) (SubtractedElementsCollector threshold) (s, newSetMutations []) in
  Range (deletedElements mutations) (AddedElementsCollector threshold) st.

End Set_.

Arguments set : clear implicits.
Arguments setMutations : clear implicits.

(** ** The elements in insertion order *)

Section Elements.
Context {T : Type} `{Countable T}.
Implicit Types (s other : set T) (x : T) (l : list T).

Lemma filter_ext_in (P Q : T → Prop) `{!∀ x, Decision (P x)} `{!∀ x, Decision (Q x)} l :
  (∀ x, x ∈ l → P x ↔ Q x) → filter P l = filter Q l.
Proof.
  induction l as [|x l IH]; intros Hl; [done|]. rewrite !filter_cons.
  rewrite IH by (intros; apply Hl; set_solver). pose proof (Hl x ltac:(set_solver)).
  repeat case_decide; naive_solver.
Qed.

Lemma foldl_same {A} (f g : A → T → A) a l : (∀ a x, f a x = g a x) → foldl f a l = foldl g a l.
Proof. intros Hfg. revert a. induction l as [|x l IH]; intros a; [done|]. simpl. by rewrite Hfg. Qed.

Lemma filter_all (P : T → Prop) `{!∀ x, Decision (P x)} l : (∀ x, x ∈ l → P x) → filter P l = l.
Proof.
  induction l as [|x l IH]; intros Hl; [done|]. rewrite filter_cons_True by (apply Hl; set_solver).
  f_equal. apply IH. intros; apply Hl; set_solver.
Qed.

Definition set_ok s : Prop := NoDup (elements_of s).

Lemma al_get_elem x s : is_Some (al_get x s) ↔ x ∈ elements_of s.
Proof.
  unfold elements_of. induction s as [|[y []] s IH]; simpl.
  - rewrite elem_of_nil. split; [by intros [??]|done].
  - rewrite elem_of_cons. destruct (decide (y = x)) as [->|]; [split; [by left|by eexists]|].
    rewrite IH. split; [by right|]. intros [->|?]; done.
Qed.

Lemma om_Set_elements s x :
  (om_Set s x).2 = bool_decide (x ∈ elements_of s) ∧
  elements_of (om_Set s x).1 = if decide (x ∈ elements_of s) then elements_of s else elements_of s ++ [x].
Proof.
  unfold om_Set. cbn [fst snd]. split.
  { apply bool_decide_ext, al_get_elem. }
  pose proof (al_get_elem x s) as Hx. unfold al_set. destruct (al_get x s) as [[]|].
  - rewrite decide_True by (apply Hx; eauto). unfold elements_of. rewrite <-list_fmap_compose.
    apply list_fmap_ext. intros i [y []] _. simpl. by destruct (decide (y = x)).
  - rewrite decide_False by (rewrite <-Hx; by intros [??]). unfold elements_of. by rewrite fmap_app.
Qed.

Lemma Delete_elements s x :
  (Delete s x).2 = bool_decide (x ∈ elements_of s) ∧
  elements_of (Delete s x).1 = filter (λ y, y ≠ x) (elements_of s).
Proof.
  split; [done|]. unfold Delete, om_Delete, al_delete, elements_of. simpl.
  induction s as [|[y []] s IH]; [done|]. rewrite fmap_cons. cbn [fst].
  destruct (decide (y = x)) as [->|Hne].
  - rewrite !filter_cons_False by naive_solver. done.
  - rewrite !filter_cons_True by done. rewrite fmap_cons. cbn [fst]. by rewrite IH.
Qed.

Lemma Add_elements s x :
  (Add s x).2 = bool_decide (x ∉ elements_of s) ∧
  elements_of (Add s x).1 = if decide (x ∈ elements_of s) then elements_of s else elements_of s ++ [x].
Proof.
  unfold Add. destruct (om_Set_elements s x) as [H1 H2]. destruct (om_Set s x) as [s' b]. simpl in *. subst b.
  split; [|done]. repeat case_bool_decide; done.
Qed.

(** A callback that never stops. *)
Lemma for_each_all {St} l cb (f : St → T → St) st :
  (∀ st e, cb st e = (f st e, None)) → for_each l cb st = (foldl f st l, None).
Proof. intros Hf. revert st. induction l as [|e l IH]; intros st; [done|]. simpl. rewrite Hf. apply IH. Qed.

Lemma ToSlice_elements s : ToSlice s = elements_of s.
Proof.
  unfold ToSlice, ForEach. rewrite (for_each_all _ _ (λ slice e, slice ++ [e])) by done. cbn [fst].
  assert (∀ l acc, foldl (λ slice e, slice ++ [e]) acc l = acc ++ l) as Hf.
  { induction l as [|e l IH]; intros acc; simpl; [by rewrite app_nil_r|]. rewrite IH, <-app_assoc. done. }
  apply Hf.
Qed.

(** Adding elements one by one, collecting those that are new. *)
Definition collect_added (st : set T * set T) (e : T) : set T * set T :=
  let '(s, added) := st in
  let '(s, existed) := om_Set s e in
  (s, if existed : bool then added else (Add added e).1).

Lemma collect_added_spec l s added :
  NoDup l → (∀ e, e ∈ l → e ∉ elements_of added) →
  let r := foldl collect_added (s, added) l in
  elements_of r.1 = elements_of s ++ filter (λ e, e ∉ elements_of s) l ∧
  elements_of r.2 = elements_of added ++ filter (λ e, e ∉ elements_of s) l.
Proof.
  intros Hnd. revert s added. induction Hnd as [|e l Hni Hnd IH]; intros s added Had; cbn [foldl].
  { by rewrite !app_nil_r. }
  unfold collect_added at 2 4. destruct (om_Set_elements s e) as [H1 H2]. destruct (om_Set s e) as [s1 b]. simpl in H1, H2. subst b.
  destruct (Add_elements added e) as [_ Ha]. rewrite decide_False in Ha by (apply Had; set_solver).
  destruct (decide (e ∈ elements_of s)) as [Hin|Hin].
  - rewrite bool_decide_true by done. destruct (IH s1 added) as [-> ->]; [intros; apply Had; set_solver|].
    rewrite H2, filter_cons_False by naive_solver. done.
  - rewrite bool_decide_false by done. destruct (IH s1 (Add added e).1) as [-> ->].
    { intros e' He'. rewrite Ha. assert (e' ≠ e) by congruence. specialize (Had e'). set_solver. }
    rewrite H2, Ha, filter_cons_True by done.
    assert (filter (λ x, x ∉ elements_of s ++ [e]) l = filter (λ x, x ∉ elements_of s) l) as ->.
    { apply filter_ext_in. intros x Hx. assert (x ≠ e) by congruence. set_solver. }
    by rewrite <-!app_assoc.
Qed.

(** Deleting elements one by one, collecting those that were there. *)
Definition collect_removed (st : set T * set T) (e : T) : set T * set T :=
  let '(s, removed) := st in
  let '(s, deleted) := Delete s e in
  (s, if deleted : bool then (Add removed e).1 else removed).

Lemma collect_removed_spec l s removed :
  NoDup l → (∀ e, e ∈ l → e ∉ elements_of removed) →
  let r := foldl collect_removed (s, removed) l in
  elements_of r.1 = filter (λ e, e ∉ l) (elements_of s) ∧
  elements_of r.2 = elements_of removed ++ filter (λ e, e ∈ elements_of s) l.
Proof.
  intros Hnd. revert s removed. induction Hnd as [|e l Hni Hnd IH]; intros s removed Had; cbn [foldl].
  { rewrite app_nil_r. split; [|done]. symmetry. apply filter_all. set_solver. }
  unfold collect_removed at 2 4. destruct (Delete_elements s e) as [H1 H2].
  destruct (Delete s e) as [s1 b]. simpl in H1, H2. subst b.
  destruct (Add_elements removed e) as [_ Ha]. rewrite decide_False in Ha by (apply Had; set_solver).
  assert (filter (λ x, x ∈ elements_of s1) l = filter (λ x, x ∈ elements_of s) l) as Hf.
  { apply filter_ext_in. intros x Hx. rewrite H2, list_elem_of_filter. assert (x ≠ e) by congruence. naive_solver. }
  assert (filter (λ x, x ∉ l) (elements_of s1) = filter (λ x, x ∉ e :: l) (elements_of s)) as Hf'.
  { rewrite H2, list_filter_filter. apply list_filter_iff. intros x. rewrite not_elem_of_cons. naive_solver. }
  destruct (decide (e ∈ elements_of s)) as [Hin|Hin].
  - rewrite bool_decide_true by done. destruct (IH s1 (Add removed e).1) as [-> ->].
    { intros e' He'. rewrite Ha. assert (e' ≠ e) by congruence. specialize (Had e'). set_solver. }
    rewrite Hf', Ha, Hf, filter_cons_True by done. split; [done|]. by rewrite <-app_assoc.
  - rewrite bool_decide_false by done. destruct (IH s1 removed) as [-> ->]; [intros; apply Had; set_solver|].
    rewrite Hf', Hf, filter_cons_False by done. done.
Qed.

Lemma AddAll_elements s other : set_ok other →
  elements_of (AddAll s other).1 = elements_of s ++ filter (λ e, e ∉ elements_of s) (elements_of other) ∧
  elements_of (AddAll s other).2 = filter (λ e, e ∉ elements_of s) (elements_of other).
Proof.
  intros Ho. unfold AddAll, ForEach. rewrite (for_each_all _ _ collect_added).
  - apply collect_added_spec; [done|set_solver].
  - intros [s' added] e. unfold collect_added. by destruct (om_Set s' e).
Qed.

Lemma DeleteAll_elements s other : set_ok other →
  elements_of (DeleteAll s other).1 = filter (λ e, e ∉ elements_of other) (elements_of s) ∧
  elements_of (DeleteAll s other).2 = filter (λ e, e ∈ elements_of s) (elements_of other).
Proof.
  intros Ho. unfold DeleteAll, ForEach. rewrite (for_each_all _ _ collect_removed).
  - apply collect_removed_spec; [done|set_solver].
  - intros [s' removed] e. unfold collect_removed. by destruct (Delete s' e).
Qed.

Lemma NewSet_elements l : elements_of (NewSet l) = foldl (λ acc e, if decide (e ∈ acc) then acc else acc ++ [e]) [] l.
Proof.
  unfold NewSet, newReadableSet.
  assert (∀ s acc, elements_of s = acc → elements_of (foldl (λ s e, (om_Set s e).1) s l) =
    foldl (λ acc e, if decide (e ∈ acc) then acc else acc ++ [e]) acc l) as Hl; [|by apply Hl].
  induction l as [|e l IH]; intros s acc Hs; [done|]. cbn [foldl]. apply IH.
  destruct (om_Set_elements s e) as [_ ->]. by rewrite Hs.
Qed.

Lemma foldl_distinct l acc : NoDup (acc ++ l) →
  foldl (λ acc e, if decide (e ∈ acc) then acc else acc ++ [e]) acc l = acc ++ l.
Proof.
  revert acc. induction l as [|e l IH]; intros acc Hnd; [by rewrite app_nil_r|]. simpl.
  rewrite decide_False by (apply NoDup_app in Hnd as (_ & Hd & _); intros ?%Hd; set_solver).
  rewrite IH; rewrite <-app_assoc; done.
Qed.

Lemma NewSet_distinct l : NoDup l → elements_of (NewSet l) = l.
Proof. intros Hl. rewrite NewSet_elements. by apply (foldl_distinct l []). Qed.

Lemma Filter_elements s p : set_ok s → elements_of (Filter s p) = filter (λ e, p e = true) (elements_of s).
Proof.
  intros Hs. unfold Filter, ForEach. rewrite (for_each_all _ _ (λ f e, if p e then (Add f e).1 else f)) by done. cbn [fst].
  unfold set_ok in Hs. revert Hs. generalize (elements_of s). intros l Hl.
  assert (∀ acc, (∀ e, e ∈ l → e ∉ elements_of acc) →
    elements_of (foldl (λ f e, if p e then (Add f e).1 else f) acc l) = elements_of acc ++ filter (λ e, p e = true) l) as Hf.
  { induction Hl as [|e l Hni _ IH]; intros acc Hacc; cbn [foldl]; [by rewrite app_nil_r|].
    rewrite filter_cons. destruct (p e) eqn:Ep.
    - destruct (Add_elements acc e) as [_ Ha]. rewrite decide_False in Ha by (apply Hacc; set_solver).
      rewrite decide_True by done. rewrite IH, Ha, <-app_assoc; [done|].
      intros e' He'. rewrite Ha. assert (e' ≠ e) by congruence. specialize (Hacc e'). set_solver.
    - rewrite decide_False by done. apply IH. intros; apply Hacc; set_solver. }
  apply Hf. set_solver.
Qed.

Lemma HasAll_subset s other : HasAll s other = true ↔ elements_of other ⊆ elements_of s.
Proof.
  unfold HasAll, ForEach. generalize (elements_of other). intros l. induction l as [|e l IH]; cbn [for_each].
  { split; [set_solver|done]. }
  unfold Has at 1. fold (elements_of s). case_bool_decide; [rewrite IH; set_solver|].
  split; [done|]. set_solver.
Qed.

Lemma Size_elements s : Size s = len (elements_of s).
Proof. unfold Size, len, elements_of. by rewrite length_fmap. Qed.

(** Sets behave as sets that remember the order of insertion.  [AddAll] and
    [DeleteAll] give the union and the difference and return exactly the elements
    that were added or removed; [Filter] and [Intersect] keep the order; [HasAll]
    is inclusion, [Equals] is equality of the elements in any order; [Clone] and
    [Replace] have the elements of their argument, and [ToSlice] lists them. *)
Lemma Set_operations s other p :
  set_ok s → set_ok other →
  elements_of (AddAll s other).1 = elements_of s ++ filter (λ e, e ∉ elements_of s) (elements_of other) ∧
  elements_of (AddAll s other).2 = filter (λ e, e ∉ elements_of s) (elements_of other) ∧
  elements_of (DeleteAll s other).1 = filter (λ e, e ∉ elements_of other) (elements_of s) ∧
  elements_of (DeleteAll s other).2 = filter (λ e, e ∈ elements_of s) (elements_of other) ∧
  elements_of (Filter s p) = filter (λ e, p e = true) (elements_of s) ∧
  elements_of (Intersect s other) = filter (λ e, e ∈ elements_of other) (elements_of s) ∧
  (HasAll s other = true ↔ elements_of other ⊆ elements_of s) ∧
  (Equals false s other = true ↔ elements_of s ≡ₚ elements_of other) ∧
  elements_of (Clone s) = elements_of s ∧
  elements_of (Replace s other).1 = elements_of other ∧ elements_of (Replace s other).2 = elements_of s ∧
  ToSlice s = elements_of s.
Proof.
  intros Hs Ho. destruct (AddAll_elements s other Ho), (DeleteAll_elements s other Ho).
  split_and!; try done.
  - by apply Filter_elements.
  - unfold Intersect. rewrite Filter_elements by done. apply list_filter_iff. intros e. apply bool_decide_eq_true.
  - apply HasAll_subset.
  - unfold Equals. cbn [orb]. rewrite andb_true_iff, HasAll_subset, Z.eqb_eq, !Size_elements. unfold len. split.
    + intros [Hl Hsub]. symmetry. apply submseteq_length_Permutation; [|lia]. by apply NoDup_submseteq.
    + intros Hp. rewrite Hp. split; [done|]. set_solver.
  - unfold Clone. destruct (AddAll_elements (NewSet []) s Hs) as [_ ->].
    apply filter_all. set_solver.
  - unfold Replace, Range. cbn [fst]. apply (NewSet_distinct _ Ho).
  - unfold Replace. cbn [snd]. rewrite ToSlice_elements. by apply NewSet_distinct.
  - apply ToSlice_elements.
Qed.

Lemma apply_changes s m :
  set_ok (addedElements m) → set_ok (deletedElements m) →
  let added := elements_of (addedElements m) in
  let deleted := elements_of (deletedElements m) in
  let united := elements_of s ++ filter (λ e, e ∉ elements_of s) added in
  elements_of (apply s m).1 = filter (λ e, e ∉ deleted) united ∧
  elements_of (addedElements (apply s m).2) = filter (λ e, e ∉ elements_of s) added ∧
  elements_of (deletedElements (apply s m).2) = filter (λ e, e ∈ united) deleted.
Proof.
  intros Ha Hd added deleted united. unfold apply, Range.
  destruct (collect_added_spec added s (NewSet []) Ha ltac:(set_solver)) as [H1 H2].
  rewrite (foldl_same _ collect_added) by (by intros [??] e). fold added.
  destruct (foldl collect_added (s, NewSet []) added) as [s1 a1]. cbn [fst snd] in H1, H2.
  rewrite (foldl_same _ collect_removed) by (by intros [??] e).
  destruct (collect_removed_spec deleted s1 (NewSet []) Hd ltac:(set_solver)) as [H3 H4]. fold deleted.
  destruct (foldl collect_removed (s1, NewSet []) deleted) as [s2 r2]. cbn [fst snd] in H3, H4.
  cbn [fst snd WithDeletedElements WithAddedElements addedElements deletedElements]. rewrite H1 in H3, H4. done.
Qed.

(** [Apply] adds and then deletes, and returns exactly the changes it made:
    the added elements that were not in the set, and the deleted ones that were
    in it or were just added. *)
Lemma Apply_returns_changes s m :
  set_ok (addedElements m) → set_ok (deletedElements m) →
  let added := elements_of (addedElements m) in
  let deleted := elements_of (deletedElements m) in
  let united := elements_of s ++ filter (λ e, e ∉ elements_of s) added in
  elements_of (Apply s m).1 = filter (λ e, e ∉ deleted) united ∧
  elements_of (addedElements (Apply s m).2) = filter (λ e, e ∉ elements_of s) added ∧
  elements_of (deletedElements (Apply s m).2) = filter (λ e, e ∈ united) deleted.
Proof. apply apply_changes. Qed.

(** ** Arithmetic *)

Definition count (c : gmap T Z) x : Z := default 0 (c !! x).

Lemma acount_insert (c : gmap T Z) e v x : count (<[e := v]> c) x = if decide (e = x) then v else count c x.
Proof. unfold count. rewrite lookup_insert. by case_decide. Qed.

Lemma collector_step inc th (c : gmap T Z) tg op e x :
  let v := count c e + (if inc : bool then 1 else -1) in
  let r := elementsCollector inc th (c, tg, op) e in
  let hit := v = (if inc then th else th - 1) in
  count r.1.1 x = (if decide (e = x) then v else count c x) ∧
  (x ∈ elements_of r.2 ↔ x ∈ elements_of op ∧ ¬ (e = x ∧ hit)) ∧
  (x ∈ elements_of r.1.2 ↔ x ∈ elements_of tg ∨ e = x ∧ hit ∧ x ∉ elements_of op).
Proof.
  intros v r hit. unfold r, elementsCollector. change (default 0 (c !! e) + (if inc then 1 else -1)) with v.
  destruct (Z.eqb_spec v (if inc then th else th - 1)) as [Hh|Hh]; fold hit in Hh.
  - destruct (Delete_elements op e) as [H1 H2]. destruct (Delete op e) as [op1 b]. simpl in H1, H2. subst b.
    destruct (Add_elements tg e) as [_ Ha].
    case_bool_decide as Hin; cbn [fst snd]; (split; [apply (acount_insert c e v x)|]);
      rewrite ?H2, ?list_elem_of_filter, ?Ha.
    + split; [naive_solver|]. split; [by left|]. intros [?|(<- & _ & ?)]; done.
    + split; [naive_solver|]. case_decide; [naive_solver|]. rewrite elem_of_app, list_elem_of_singleton. naive_solver.
  - cbn [fst snd]. split; [apply (acount_insert c e v x)|]. naive_solver.
Qed.

Lemma collector_all inc th l (c : gmap T Z) tg op x : NoDup l →
  let δ := if inc : bool then 1 else -1 in
  let r := foldl (elementsCollector inc th) (c, tg, op) l in
  let hit := count c x + δ = (if inc then th else th - 1) in
  count r.1.1 x = count c x + (if decide (x ∈ l) then δ else 0) ∧
  (x ∈ elements_of r.2 ↔ x ∈ elements_of op ∧ ¬ (x ∈ l ∧ hit)) ∧
  (x ∈ elements_of r.1.2 ↔ x ∈ elements_of tg ∨ x ∈ l ∧ hit ∧ x ∉ elements_of op).
Proof.
  intros Hnd δ. revert c tg op. induction Hnd as [|e l Hni _ IH]; intros c tg op; cbv zeta; cbn [foldl].
  { rewrite decide_False by set_solver. split; [simpl; lia|]. set_solver. }
  destruct (collector_step inc th c tg op e x) as (H1 & H2 & H3). fold δ in H1, H2, H3.
  destruct (elementsCollector inc th (c, tg, op) e) as [[c1 tg1] op1]. cbn [fst snd] in H1, H2, H3.
  specialize (IH c1 tg1 op1). cbv zeta in IH. destruct IH as (I1 & I2 & I3). rewrite I1, I2, I3, H2, H3. clear I1 I2 I3 H2 H3.
  rewrite H1. destruct (decide (e = x)) as [->|Hne].
  - rewrite decide_False, decide_True by set_solver. split; [lia|]. split; [set_solver|].
    set_solver.
  - assert (x ∈ e :: l ↔ x ∈ l) as Hl by set_solver. split; [by rewrite (decide_ext _ _ _ _ Hl)|].
    rewrite Hl. naive_solver.
Qed.

Lemma added_collector th l c a d :
  foldl (AddedElementsCollector th) (c, mkMutations a d) l =
  let r := foldl (elementsCollector true th) (c, a, d) l in (r.1.1, mkMutations r.1.2 r.2).
Proof.
  revert c a d. induction l as [|e l IH]; intros c a d; [done|]. cbn [foldl].
  unfold AddedElementsCollector at 2. cbn [addedElements deletedElements].
  destruct (elementsCollector true th (c, a, d) e) as [[c1 a1] d1]. apply IH.
Qed.

Lemma subtracted_collector th l c a d :
  foldl (SubtractedElementsCollector th) (c, mkMutations a d) l =
  let r := foldl (elementsCollector false th) (c, d, a) l in (r.1.1, mkMutations r.2 r.1.2).
Proof.
  revert c a d. induction l as [|e l IH]; intros c a d; [done|]. cbn [foldl].
  unfold SubtractedElementsCollector at 2. cbn [addedElements deletedElements].
  destruct (elementsCollector false th (c, d, a) e) as [[c1 d1] a1]. apply IH.
Qed.

(** What one element does to its count. *)
Definition change (m : setMutations T) x : Z :=
  (if decide (x ∈ elements_of (addedElements m)) then 1 else 0) -
  (if decide (x ∈ elements_of (deletedElements m)) then 1 else 0).

Lemma Arithmetic_Add_crossings (c : gmap T Z) m th x :
  set_ok (addedElements m) → set_ok (deletedElements m) →
  let '(c', r) := Arithmetic_Add c m th in
  count c' x = count c x + change m x ∧
  (x ∈ elements_of (addedElements r) ↔ count c x < th ≤ count c' x) ∧
  (x ∈ elements_of (deletedElements r) ↔ count c' x < th ≤ count c x).
Proof.
  intros Ha Hd. unfold change, Arithmetic_Add, Range. change (newSetMutations []) with (@mkMutations T [] []).
  rewrite added_collector, subtracted_collector. cbv zeta.
  destruct (collector_all true th (elements_of (addedElements m)) c [] [] x Ha) as (H1 & H2 & H3).
  destruct (foldl (elementsCollector true th) _ _) as [[c1 a1] d1]. cbn [fst snd] in *.
  destruct (collector_all false th (elements_of (deletedElements m)) c1 d1 a1 x Hd) as (I1 & I2 & I3).
  destruct (foldl (elementsCollector false th) _ _) as [[c2 d2] a2]. cbn [fst snd addedElements deletedElements] in *.
  rewrite I2, I3, H2, H3, I1, H1. clear I1 I2 I3 H2 H3 H1. rewrite !elem_of_nil.
  destruct (decide (x ∈ elements_of (addedElements m))), (decide (x ∈ elements_of (deletedElements m)));
    (split; [lia|]); split; naive_solver lia.
Qed.

Lemma Arithmetic_Subtract_crossings (c : gmap T Z) m th x :
  set_ok (addedElements m) → set_ok (deletedElements m) →
  let '(c', r) := Arithmetic_Subtract c m th in
  count c' x = count c x - change m x ∧
  (x ∈ elements_of (addedElements r) ↔ count c x < th ≤ count c' x) ∧
  (x ∈ elements_of (deletedElements r) ↔ count c' x < th ≤ count c x).
Proof.
  intros Ha Hd. unfold change, Arithmetic_Subtract, Range. change (newSetMutations []) with (@mkMutations T [] []).
  rewrite subtracted_collector, added_collector. cbv zeta.
  destruct (collector_all false th (elements_of (addedElements m)) c [] [] x Ha) as (H1 & H2 & H3).
  destruct (foldl (elementsCollector false th) _ _) as [[c1 d1] a1]. cbn [fst snd] in *.
  destruct (collector_all true th (elements_of (deletedElements m)) c1 a1 d1 x Hd) as (I1 & I2 & I3).
  destruct (foldl (elementsCollector true th) _ _) as [[c2 a2] d2]. cbn [fst snd addedElements deletedElements] in *.
  rewrite I2, I3, H2, H3, I1, H1. clear I1 I2 I3 H2 H3 H1. rewrite !elem_of_nil.
  destruct (decide (x ∈ elements_of (addedElements m))), (decide (x ∈ elements_of (deletedElements m)));
    (split; [lia|]); split; naive_solver lia.
Qed.

(** Set arithmetic reports exactly the crossings of the threshold.  [Add]
    counts an element up for an addition and down for a deletion, [Subtract] the
    other way round; the mutations they return add the elements whose count was
    below the threshold and now is not, and delete those whose count was not and
    now is, whatever the counts were before, also for elements that are added
    and deleted at once. *)
Lemma SetArithmetic_crossings (c : gmap T Z) m th x :
  set_ok (addedElements m) → set_ok (deletedElements m) →
  (let '(c', r) := Arithmetic_Add c m th in
   count c' x = count c x + change m x ∧
   (x ∈ elements_of (addedElements r) ↔ count c x < th ≤ count c' x) ∧
   (x ∈ elements_of (deletedElements r) ↔ count c' x < th ≤ count c x)) ∧
  (let '(c', r) := Arithmetic_Subtract c m th in
   count c' x = count c x - change m x ∧
   (x ∈ elements_of (addedElements r) ↔ count c x < th ≤ count c' x) ∧
   (x ∈ elements_of (deletedElements r) ↔ count c' x < th ≤ count c x)).
Proof. intros Ha Hd. split; [by apply Arithmetic_Add_crossings|by apply Arithmetic_Subtract_crossings]. Qed.

End Elements.

Lemma Set_operations_witness :
  elements_of (AddAll (NewSet [1; 2; 3]) (NewSet [3; 5; 1; 4])).1 = [1; 2; 3; 5; 4] ∧
  elements_of (AddAll (NewSet [1; 2; 3]) (NewSet [3; 5; 1; 4])).2 = [5; 4].
Proof.
  destruct (Set_operations (NewSet [1; 2; 3]) (NewSet [3; 5; 1; 4]) (λ _, true)) as (H1 & H2 & _).
  - by apply (bool_decide_unpack _).
  - by apply (bool_decide_unpack _).
  - rewrite H1, H2. split; vm_compute; reflexivity.
Defined.

Lemma Apply_returns_changes_witness :
  let m := WithDeletedElements (newSetMutations [2; 7]) (NewSet [7; 9; 1]) in
  elements_of (deletedElements (Apply (NewSet [1; 2]) m).2) = [7; 1].
Proof.
  destruct (Apply_returns_changes (NewSet [1; 2]) (WithDeletedElements (newSetMutations [2; 7]) (NewSet [7; 9; 1])))
    as (_ & _ & H).
  - by apply (bool_decide_unpack _).
  - by apply (bool_decide_unpack _).
  - cbv zeta. rewrite H. vm_compute. reflexivity.
Defined.

Lemma SetArithmetic_crossings_witness :
  count (Arithmetic_Add {[ 7 := 1 ]} (newSetMutations [7; 8]) 2).1 7 = 2 ∧
  elements_of (addedElements (Arithmetic_Add {[ 7 := 1 ]} (newSetMutations [7; 8]) 2).2) = [7].
Proof.
  destruct (SetArithmetic_crossings {[ 7 := 1 ]} (newSetMutations [7; 8]) 2 7) as [H _].
  - by apply (bool_decide_unpack _).
  - by apply (bool_decide_unpack _).
  - split; [|vm_compute; reflexivity].
    destruct (Arithmetic_Add {[ 7 := 1 ]} (newSetMutations [7; 8]) 2) as [c r]. destruct H as [H _].
    cbn [fst]. rewrite H. vm_compute. reflexivity.
Defined.
