(* ===== verification/Event.v ===== *)
(** * runtime/event

    [src/runtime/event]: [event.go], [hook.go], [options.go], [group.go] and the
    events that [events.go] generates, which differ in the number of arguments
    only; [A] is the type of the arguments together.  Events and hooks are
    pointers: both live on a heap.  The hooks of an event are an ordered map
    (OrderedMap.v), and [Trigger] walks through it while the functions it calls
    may hook, unhook, link and trigger: the callbacks of users are programs of
    such calls, [body].

    [exec] runs a piece of code with some fuel; when it is not enough, as for events
    that are linked in a circle, which never return, the result is the world that
    was reached ([Interrupted]).
    Handing a function to a worker pool is an entry of the log: what becomes of
    it is the matter of WorkerPool.v.  The counters of triggers do not come near
    2^64. *)

From S2P Require Import Prelude Ring ShrinkingMap OrderedMap.

(** [workerPool]: nil, [noWorkerPool], or a pool. *)
Inductive pool_setting : Type := PoolUnset | PoolForcedOff | PoolIs (p : nat).

(** A trigger function: a callback of a user, or [Trigger] of an event. *)
Inductive fn : Type := User (cb : nat) | TriggerOf (e : nat).

#[global] Instance fn_eq_dec : EqDecision fn.
Proof. solve_decision. Defined.

Record triggerSettings : Type := mkSettings {
  workerPool : pool_setting;
  triggerCount : Z;
  maxTriggerCount : Z;
  preTriggerFunc : option fn;
}.

Record Hook : Type := mkHook { hook_id : Z; hook_event : nat; trigger : fn; h_settings : triggerSettings }.

Record event : Type := mkEvent {
  hooks : OrderedMap Z nat;
  hooksCounter : Z;
  link : option nat;
  e_settings : triggerSettings;
}.

(** ** Settings *)

Definition WasTriggered (t : triggerSettings) : bool := 0 <? triggerCount t.
Definition TriggerCount (t : triggerSettings) : Z := triggerCount t.
Definition MaxTriggerCount (t : triggerSettings) : Z := maxTriggerCount t.

Definition MaxTriggerCountReached (t : triggerSettings) : bool :=
  negb (maxTriggerCount t =? 0) && (maxTriggerCount t <? triggerCount t).

Definition hasWorkerPool (t : triggerSettings) : bool * option nat :=
  match workerPool t with
  | PoolForcedOff => (true, None)
  | PoolUnset => (false, None)
  | PoolIs p => (true, Some p)
  end.

Definition WorkerPool (t : triggerSettings) : option nat := (hasWorkerPool t).2.

Definition currentTriggerExceedsMaxTriggerCount (t : triggerSettings) : triggerSettings * bool :=
  let t := mkSettings (workerPool t) (triggerCount t + 1) (maxTriggerCount t) (preTriggerFunc t) in
  (t, (maxTriggerCount t <? triggerCount t) && negb (maxTriggerCount t =? 0)).

(** The options, applied to new settings. *)
Inductive Option_ : Type :=
  | WithMaxTriggerCount (n : N)
  | WithWorkerPool (p : option nat)
  | WithPreTriggerFunc (f : option fn).

Definition apply_option (t : triggerSettings) (o : Option_) : triggerSettings :=
  match o with
  | WithMaxTriggerCount n => mkSettings (workerPool t) (triggerCount t) (Z.of_N n) (preTriggerFunc t)
  | WithWorkerPool p =>
      mkSettings (match p with Some p => PoolIs p | None => PoolForcedOff end) (triggerCount t)
        (maxTriggerCount t) (preTriggerFunc t)
  | WithPreTriggerFunc f => mkSettings (workerPool t) (triggerCount t) (maxTriggerCount t) f
  end.

Definition settings_of (opts : list Option_) : triggerSettings :=
  foldl apply_option (mkSettings PoolUnset 0 0 None) opts.

(** ** The heap *)

Section Event.
Context {A : Type}.

(** What has happened: a call of [Trigger], a round of an event, a hook that a round has
    reached, whose function was invoked, or handed to a pool, or a call of a pre-trigger
    function. *)
Inductive entry : Type :=
  | Called (e : nat) (a : A)
  | Reached (h : nat) (a : A)
  | Round (e : nat) (a : A)
  | Invoked (h : nat) (a : A)
  | Submitted (p h : nat) (a : A)
  | PreTriggered (f : fn) (a : A).

Record world : Type := mkWorld { events : list event; all_hooks : list Hook; log : list entry }.

Definition nil_pointer {T} : outcome T := Panic "nil pointer dereference".

Definition get_event (w : world) (e : nat) : outcome event :=
  match events w !! e with Some ev => Ret ev | None => nil_pointer end.

Definition get_hook (w : world) (h : nat) : outcome Hook :=
  match all_hooks w !! h with Some hk => Ret hk | None => nil_pointer end.

Definition set_event (w : world) (e : nat) (ev : event) : world := mkWorld (<[e:=ev]> (events w)) (all_hooks w) (log w).
Definition set_hook (w : world) (h : nat) (hk : Hook) : world := mkWorld (events w) (<[h:=hk]> (all_hooks w)) (log w).
Definition note (w : world) (x : entry) : world := mkWorld (events w) (all_hooks w) (log w ++ [x]).

(** ** Operations *)

Definition newEvent (w : world) (opts : list Option_) : world * nat :=
  (mkWorld (events w ++ [mkEvent New 0 None (settings_of opts)]) (all_hooks w) (log w), length (events w)).

Definition Hook_ (w : world) (e : nat) (f : fn) (opts : list Option_) : outcome (world * nat) :=
  ev ← get_event w e;
  let id := hooksCounter ev + 1 in
  let h := length (all_hooks w) in
  '(hs, _) ← Set_ (hooks ev) id h;
  Ret (mkWorld (<[e := mkEvent hs id (link ev) (e_settings ev)]> (events w))
         (all_hooks w ++ [mkHook id e f (settings_of opts)]) (log w), h).

Definition Unhook (w : world) (h : nat) : outcome world :=
  hk ← get_hook w h;
  ev ← get_event w (hook_event hk);
  '(hs, _) ← Delete (hooks ev) (hook_id hk);
  Ret (set_event w (hook_event hk) (mkEvent hs (hooksCounter ev) (link ev) (e_settings ev))).

Definition set_link (w : world) (e : nat) (l : option nat) : outcome world :=
  ev ← get_event w e;
  Ret (set_event w e (mkEvent (hooks ev) (hooksCounter ev) l (e_settings ev))).

Definition linkTo (w : world) (e : nat) (target : option nat) : outcome world :=
  ev ← get_event w e;
  w ← match link ev with Some h => Unhook w h | None => Ret w end;
  match target with
  | None => set_link w e None
  | Some t =>
      '(w, h) ← Hook_ w t (TriggerOf e) [];
      set_link w e (Some h)
  end.

(** Counting a trigger of an event and of a hook. *)
Definition count_event (w : world) (e : nat) : outcome (world * bool) :=
  ev ← get_event w e;
  let '(t, exceeded) := currentTriggerExceedsMaxTriggerCount (e_settings ev) in
  Ret (set_event w e (mkEvent (hooks ev) (hooksCounter ev) (link ev) t), exceeded).

Definition count_hook (w : world) (h : nat) : outcome (world * bool) :=
  hk ← get_hook w h;
  let '(t, exceeded) := currentTriggerExceedsMaxTriggerCount (h_settings hk) in
  Ret (set_hook w h (mkHook (hook_id hk) (hook_event hk) (trigger hk) t), exceeded).

(** [Hook.WorkerPool]: that of the hook, or of its event. *)
Definition pool_of (w : world) (h : nat) : outcome (option nat) :=
  hk ← get_hook w h;
  match hasWorkerPool (h_settings hk) with
  | (true, p) => Ret p
  | (false, _) => ev ← get_event w (hook_event hk); Ret (WorkerPool (e_settings ev))
  end.

(** ** Running *)

(** What a callback may do. *)
Inductive op : Type :=
  | OpNew (opts : list Option_)
  | OpHook (e cb : nat) (opts : list Option_)
  | OpUnhook (h : nat)
  | OpLinkTo (e : nat) (target : option nat)
  | OpTrigger (e : nat) (a : A).

Variable body : nat → A → list op.

(** Code that is run: a function with an argument, [Trigger], its loop over the
    hooks from an element on, and the rest of a callback. *)
Inductive code : Type :=
  | Call (f : fn) (a : A)
  | Trigger (e : nat) (a : A)
  | Loop (e : nat) (p : option loc) (a : A)
  | Ops (ops : list op).

(** An outcome, or the world in which the fuel was used up. *)
Inductive result (X : Type) : Type :=
  | Finished (o : outcome X)
  | Interrupted (w : world).

#[local] Arguments Finished {X} o.
#[local] Arguments Interrupted {X} w.

Definition bindf {X Y} (m : result X) (f : X → result Y) : result Y :=
  match m with
  | Finished (Ret x) => f x
  | Finished (Panic msg) => Finished (Panic msg)
  | Interrupted w => Interrupted w
  end.

Notation "x <- m ;; k" := (bindf m (λ x, k)) (at level 100, m at next level, right associativity).

(** The consumer of [ForEach] in [Trigger]; [run] executes code. *)
Definition trigger_hook (run : code → world → result world) (w : world) (e h : nat) (a : A) :
    result world :=
  r <- Finished (count_hook (note w (Reached h a)) h) ;;
  let '(w, exceeded) := r in
  if (exceeded : bool) then Finished (Unhook w h)
  else
    ev <- Finished (get_event w e) ;;
    hk <- Finished (get_hook w h) ;;
    w <- match preTriggerFunc (e_settings ev) with
         | Some f => run (Call f a) (note w (PreTriggered f a))
         | None => Finished (Ret w)
         end ;;
    w <- match preTriggerFunc (h_settings hk) with
         | Some f => run (Call f a) (note w (PreTriggered f a))
         | None => Finished (Ret w)
         end ;;
    p <- Finished (pool_of w h) ;;
    match p with
    | Some p => Finished (Ret (note w (Submitted p h a)))
    | None => run (Call (trigger hk) a) (note w (Invoked h a))
    end.

Definition run_op (run : code → world → result world) (w : world) (o : op) : result world :=
  match o with
  | OpNew opts => Finished (Ret (newEvent w opts).1)
  | OpHook e cb opts => Finished (r ← Hook_ w e (User cb) opts; Ret r.1)
  | OpUnhook h =>
      (* users have no reference to the hook of a link *)
      Finished (hk ← get_hook w h; match trigger hk with User _ => Unhook w h | TriggerOf _ => Ret w end)
  | OpLinkTo e target => Finished (linkTo w e target)
  | OpTrigger e a => run (Trigger e a) w
  end.

Fixpoint exec (fuel : nat) (c : code) (w : world) : result world :=
  match fuel with
  | O => Interrupted w
  | S fuel =>
      match c with
      | Call (User cb) a => exec fuel (Ops (body cb a)) w
      | Call (TriggerOf e) a => exec fuel (Trigger e a) w
      | Trigger e a =>
          r <- Finished (count_event (note w (Called e a)) e) ;;
          let '(w, exceeded) := r in
          if (exceeded : bool) then Finished (Ret w)
          else
            ev <- Finished (get_event w e) ;;
            exec fuel (Loop e (head (hooks ev)) a) (note w (Round e a))
      | Loop e None a => Finished (Ret w)
      | Loop e (Some l) a =>
          ev <- Finished (get_event w e) ;;
          el <- Finished (deref (heap (hooks ev)) (Some l)) ;;
          w <- trigger_hook (exec fuel) w e (value el) a ;;
          ev <- Finished (get_event w e) ;;
          el <- Finished (deref (heap (hooks ev)) (Some l)) ;;
          exec fuel (Loop e (next el) a) w
      | Ops [] => Finished (Ret w)
      | Ops (o :: ops) =>
          w <- run_op (exec fuel) w o ;;
          exec fuel (Ops ops) w
      end
  end.

Definition empty_world : world := mkWorld [] [] [].

(** ** Limits

    [permitted] is how often a function may have been executed after the calls that
    reached it, [executions] and [rounds] how often it was.  The difference to them,
    and that of the counters to the calls, are the same at the beginning and at the
    end of any piece of code; meanwhile the first can only be larger. *)

Definition permitted (maxCount n : Z) : Z := if maxCount =? 0 then n else Z.min n maxCount.

Definition allowed (t : triggerSettings) : Z := permitted (maxTriggerCount t) (triggerCount t).

Definition executions (h : nat) (l : list entry) : Z :=
  zsum (λ x, match x with Invoked h' _ | Submitted _ h' _ => if decide (h' = h) then 1 else 0 | _ => 0 end) l.

Definition rounds (e : nat) (l : list entry) : Z :=
  zsum (λ x, match x with Round e' _ => if decide (e' = e) then 1 else 0 | _ => 0 end) l.

(** The calls of [Trigger] of an event, and the rounds that reached a hook. *)
Definition calls (e : nat) (l : list entry) : Z :=
  zsum (λ x, match x with Called e' _ => if decide (e' = e) then 1 else 0 | _ => 0 end) l.

Definition reached (h : nat) (l : list entry) : Z :=
  zsum (λ x, match x with Reached h' _ => if decide (h' = h) then 1 else 0 | _ => 0 end) l.

#[local] Arguments executions : simpl never.
#[local] Arguments rounds : simpl never.
#[local] Arguments calls : simpl never.
#[local] Arguments reached : simpl never.

Definition hook_slack (w : world) (h : nat) : Z :=
  from_option (allowed ∘ h_settings) 0 (all_hooks w !! h) - executions h (log w).
Definition hook_gap (w : world) (h : nat) : Z :=
  from_option (triggerCount ∘ h_settings) 0 (all_hooks w !! h) - reached h (log w).

Definition event_slack (w : world) (e : nat) : Z :=
  from_option (allowed ∘ e_settings) 0 (events w !! e) - rounds e (log w).
Definition event_gap (w : world) (e : nat) : Z :=
  from_option (triggerCount ∘ e_settings) 0 (events w !! e) - calls e (log w).

(** What a piece of code does to the differences: [up] while it runs, [balanced] at
    its end. *)
Record up (w w' : world) : Prop := {
  up_hook h : hook_slack w h ≤ hook_slack w' h;
  up_event e : event_slack w e ≤ event_slack w' e;
  up_hook_gap h : hook_gap w' h = hook_gap w h;
  up_event_gap e : event_gap w' e = event_gap w e;
}.

Record balanced (w w' : world) : Prop := {
  bal_up : up w w';
  bal_hook h : hook_slack w' h ≤ hook_slack w h;
  bal_event e : event_slack w' e ≤ event_slack w e;
}.

Lemma up_trans w1 w2 w3 : up w1 w2 → up w2 w3 → up w1 w3.
Proof.
  intros [A1 A2 A3 A4] [B1 B2 B3 B4]. split; intros x; [| |by rewrite B3|by rewrite B4].
  - specialize (A1 x). specialize (B1 x). lia.
  - specialize (A2 x). specialize (B2 x). lia.
Qed.

Lemma balanced_refl w : balanced w w.
Proof. by split. Qed.

Lemma balanced_trans w1 w2 w3 : balanced w1 w2 → balanced w2 w3 → balanced w1 w3.
Proof.
  intros [H1 A1 A2] [H2 B1 B2]. split; [by eapply up_trans|..]; intros x.
  - specialize (A1 x). specialize (B1 x). lia.
  - specialize (A2 x). specialize (B2 x). lia.
Qed.

Lemma bindf_Ret {X Y} (m : result X) (f : X → result Y) y :
  bindf m f = Finished (Ret y) ↔ ∃ x, m = Finished (Ret x) ∧ f x = Finished (Ret y).
Proof. destruct m as [[x|msg]|]; simpl; split; naive_solver. Qed.

Lemma bindf_Interrupted {X Y} (m : result X) (f : X → result Y) w :
  bindf m f = Interrupted w ↔ m = Interrupted w ∨ ∃ x, m = Finished (Ret x) ∧ f x = Interrupted w.
Proof. destruct m as [[x|msg]|]; simpl; split; naive_solver. Qed.

Lemma get_event_Ret w e ev : get_event w e = Ret ev ↔ events w !! e = Some ev.
Proof. unfold get_event. destruct (events w !! e); split; by intros [= ->]. Qed.

Lemma get_hook_Ret w h hk : get_hook w h = Ret hk ↔ all_hooks w !! h = Some hk.
Proof. unfold get_hook. destruct (all_hooks w !! h); split; by intros [= ->]. Qed.

(** The settings of hooks and events, as far as they are counted. *)
Definition same_counts (w w' : world) : Prop :=
  log w' = log w ∧
  (∀ h, from_option (allowed ∘ h_settings) 0 (all_hooks w' !! h) = from_option (allowed ∘ h_settings) 0 (all_hooks w !! h) ∧
    from_option (triggerCount ∘ h_settings) 0 (all_hooks w' !! h) = from_option (triggerCount ∘ h_settings) 0 (all_hooks w !! h)) ∧
  (∀ e, from_option (allowed ∘ e_settings) 0 (events w' !! e) = from_option (allowed ∘ e_settings) 0 (events w !! e) ∧
    from_option (triggerCount ∘ e_settings) 0 (events w' !! e) = from_option (triggerCount ∘ e_settings) 0 (events w !! e)).

Lemma same_balanced w w' : same_counts w w' → balanced w w'.
Proof.
  intros (Hl & Hh & He). split; [split|..]; intros x; unfold hook_slack, event_slack, hook_gap, event_gap; rewrite Hl;
    destruct (Hh x) as [E1 E2], (He x) as [E3 E4]; by rewrite ?E1, ?E2, ?E3, ?E4.
Qed.

(** Changing an event but not its settings. *)
Lemma set_event_balanced w e ev ev' :
  events w !! e = Some ev → e_settings ev' = e_settings ev → balanced w (set_event w e ev').
Proof.
  intros He Hs. apply same_balanced. split_and!; [done..|]. intros x. cbn.
  destruct (decide (x = e)) as [->|]; [|by rewrite list_lookup_insert_ne].
  rewrite He, list_lookup_insert_eq by (by eapply lookup_lt_Some). cbn. by rewrite Hs.
Qed.

(** New events and hooks have not been triggered. *)
Lemma settings_of_fresh opts : allowed (settings_of opts) = 0 ∧ triggerCount (settings_of opts) = 0.
Proof.
  unfold settings_of, allowed, permitted.
  assert (∀ t, triggerCount t = 0 ∧ 0 ≤ maxTriggerCount t →
    triggerCount (foldl apply_option t opts) = 0 ∧ 0 ≤ maxTriggerCount (foldl apply_option t opts)) as H.
  { induction opts as [|o opts IH]; intros t Ht; [done|]. apply IH. destruct o; cbn; [lia|done|done]. }
  destruct (H (mkSettings PoolUnset 0 0 None)) as [-> Hm]; [done|].
  destruct (Z.eqb_spec (maxTriggerCount (foldl apply_option (mkSettings PoolUnset 0 0 None) opts)) 0); lia.
Qed.

Lemma newEvent_balanced w opts : balanced w (newEvent w opts).1.
Proof.
  apply same_balanced. split_and!; [done..|]. intros e. cbn.
  destruct (decide (e < length (events w))%nat); [by rewrite lookup_app_l|].
  rewrite lookup_app_r, (lookup_ge_None_2 (events w)) by lia. destruct (e - length (events w))%nat; [|done].
  cbn. apply settings_of_fresh.
Qed.

Lemma Hook_balanced w e f opts w' h : Hook_ w e f opts = Ret (w', h) → balanced w w'.
Proof.
  unfold Hook_. intros (ev & He & H)%outcome_bind_Ret. apply outcome_bind_Ret in H as ([hs o] & _ & [= <- <-]).
  apply get_event_Ret in He. apply same_balanced. split_and!; [done|..]; intros x; cbn.
  - destruct (decide (x < length (all_hooks w))%nat); [by rewrite lookup_app_l|].
    rewrite lookup_app_r, (lookup_ge_None_2 (all_hooks w)) by lia. destruct (x - length (all_hooks w))%nat; [|done].
    cbn. apply settings_of_fresh.
  - destruct (decide (x = e)) as [->|]; [|by rewrite list_lookup_insert_ne].
    by rewrite He, list_lookup_insert_eq by (by eapply lookup_lt_Some).
Qed.

Lemma Unhook_balanced w h w' : Unhook w h = Ret w' → balanced w w'.
Proof.
  unfold Unhook. intros (hk & _ & H)%outcome_bind_Ret. apply outcome_bind_Ret in H as (ev & He & H).
  apply outcome_bind_Ret in H as ([hs o] & _ & [= <-]). apply get_event_Ret in He. by eapply set_event_balanced.
Qed.

Lemma set_link_balanced w e l w' : set_link w e l = Ret w' → balanced w w'.
Proof.
  unfold set_link. intros (ev & He & [= <-])%outcome_bind_Ret. apply get_event_Ret in He. by eapply set_event_balanced.
Qed.

Lemma linkTo_balanced w e target w' : linkTo w e target = Ret w' → balanced w w'.
Proof.
  unfold linkTo. intros (ev & _ & H)%outcome_bind_Ret. apply outcome_bind_Ret in H as (w1 & H1 & H).
  apply (balanced_trans _ w1).
  { destruct (link ev); [by eapply Unhook_balanced|by injection H1 as <-]. }
  destruct target as [t|]; [|by eapply set_link_balanced].
  apply outcome_bind_Ret in H as ([w2 h] & H2 & H). apply (balanced_trans _ w2); [by eapply Hook_balanced|by eapply set_link_balanced].
Qed.

Lemma allowed_count t t' exceeded :
  currentTriggerExceedsMaxTriggerCount t = (t', exceeded) →
  allowed t' = allowed t + (if exceeded then 0 else 1) ∧ triggerCount t' = triggerCount t + 1.
Proof.
  intros [= <- <-]. split; [|done]. unfold allowed, permitted. cbn. destruct (Z.eqb_spec (maxTriggerCount t) 0) as [->|Hm]; cbn.
  - by rewrite andb_false_r.
  - rewrite andb_true_r. destruct (Z.ltb_spec (maxTriggerCount t) (triggerCount t + 1)); lia.
Qed.

(** Entries that are counted in none of the differences. *)
Lemma note_slack w x :
  (∀ h, hook_slack (note w x) h = hook_slack w h - executions h [x]) ∧ (∀ e, event_slack (note w x) e = event_slack w e - rounds e [x]) ∧
  (∀ h, hook_gap (note w x) h = hook_gap w h - reached h [x]) ∧ (∀ e, event_gap (note w x) e = event_gap w e - calls e [x]).
Proof.
  split_and!; intros y; unfold hook_slack, event_slack, hook_gap, event_gap, executions, rounds, reached, calls, note;
    cbn [log all_hooks events]; rewrite zsum_app; lia.
Qed.

(** A round reaches a hook, and the trigger is counted. *)
Lemma count_hook_slack w h a w' exceeded :
  count_hook (note w (Reached h a)) h = Ret (w', exceeded) →
  up w w' ∧ (∀ e, event_slack w' e = event_slack w e) ∧
  (∀ h', hook_slack w' h' = hook_slack w h' + if decide (h' = h) then (if exceeded then 0 else 1) else 0).
Proof.
  destruct (note_slack w (Reached h a)) as (N1 & N2 & N3 & N4). set (w0 := note w _) in *.
  unfold executions, rounds, reached, calls in N1, N2, N3, N4. cbn [zsum] in N1, N2, N3, N4.
  unfold count_hook. intros (hk & Hh & H)%outcome_bind_Ret. apply get_hook_Ret in Hh.
  destruct (currentTriggerExceedsMaxTriggerCount (h_settings hk)) as [t ex] eqn:E. injection H as <- <-.
  apply allowed_count in E as [E1 E2]. pose proof (lookup_lt_Some _ _ _ Hh) as Hlt.
  assert (∀ h', hook_slack (set_hook w0 h (mkHook (hook_id hk) (hook_event hk) (trigger hk) t)) h' =
    hook_slack w h' + if decide (h' = h) then (if ex then 0 else 1) else 0) as Hs.
  { intros h'. specialize (N1 h'). unfold hook_slack in *. cbn [set_hook all_hooks log] in *.
    destruct (decide (h' = h)) as [->|]; [|rewrite list_lookup_insert_ne by done; lia].
    rewrite list_lookup_insert_eq by done. rewrite Hh in N1. cbn in *. lia. }
  split_and!; [|intros e; specialize (N2 e); unfold event_slack in *; cbn [set_hook events log]; lia|exact Hs]. split.
  - intros h'. rewrite Hs. repeat case_match; lia.
  - intros e. specialize (N2 e). unfold event_slack in *. cbn [set_hook events log]. lia.
  - intros h'. specialize (N3 h'). unfold hook_gap in *. cbn [set_hook all_hooks log] in *.
    destruct (decide (h' = h)) as [->|Hne].
    + rewrite list_lookup_insert_eq by done. rewrite Hh, decide_True in N3 by done. cbn in *. lia.
    + rewrite list_lookup_insert_ne by done. rewrite decide_False in N3 by done. lia.
  - intros e. specialize (N4 e). unfold event_gap in *. cbn [set_hook events log] in *. lia.
Qed.

(** [Trigger] is called, and the trigger is counted. *)
Lemma count_event_slack w e a w' exceeded :
  count_event (note w (Called e a)) e = Ret (w', exceeded) →
  up w w' ∧ (∀ h, hook_slack w' h = hook_slack w h) ∧
  (∀ e', event_slack w' e' = event_slack w e' + if decide (e' = e) then (if exceeded then 0 else 1) else 0).
Proof.
  destruct (note_slack w (Called e a)) as (N1 & N2 & N3 & N4). set (w0 := note w _) in *.
  unfold executions, rounds, reached, calls in N1, N2, N3, N4. cbn [zsum] in N1, N2, N3, N4.
  unfold count_event. intros (ev & He & H)%outcome_bind_Ret. apply get_event_Ret in He.
  destruct (currentTriggerExceedsMaxTriggerCount (e_settings ev)) as [t ex] eqn:E. injection H as <- <-.
  apply allowed_count in E as [E1 E2]. pose proof (lookup_lt_Some _ _ _ He) as Hlt.
  assert (∀ e', event_slack (set_event w0 e (mkEvent (hooks ev) (hooksCounter ev) (link ev) t)) e' =
    event_slack w e' + if decide (e' = e) then (if ex then 0 else 1) else 0) as Hs.
  { intros e'. specialize (N2 e'). unfold event_slack in *. cbn [set_event events log] in *.
    destruct (decide (e' = e)) as [->|]; [|rewrite list_lookup_insert_ne by done; lia].
    rewrite list_lookup_insert_eq by done. rewrite He in N2. cbn in *. lia. }
  split_and!; [|intros h; specialize (N1 h); unfold hook_slack in *; cbn [set_event all_hooks log]; lia|exact Hs]. split.
  - intros h. specialize (N1 h). unfold hook_slack in *. cbn [set_event all_hooks log]. lia.
  - intros e'. rewrite Hs. repeat case_match; lia.
  - intros h. specialize (N3 h). unfold hook_gap in *. cbn [set_event all_hooks log] in *. lia.
  - intros e'. specialize (N4 e'). unfold event_gap in *. cbn [set_event events log] in *.
    destruct (decide (e' = e)) as [->|Hne].
    + rewrite list_lookup_insert_eq by done. rewrite He, decide_True in N4 by done. cbn in *. lia.
    + rewrite list_lookup_insert_ne by done. rewrite decide_False in N4 by done. lia.
Qed.

Lemma note_pre_balanced w f a : balanced w (note w (PreTriggered f a)).
Proof.
  destruct (note_slack w (PreTriggered f a)) as (N1 & N2 & N3 & N4).
  split; [split|..]; intros x; rewrite ?N1, ?N2, ?N3, ?N4; unfold executions, rounds, reached, calls; cbn; lia.
Qed.

(** Executing a hook. *)
Lemma note_hook_slack w x h :
  (∃ a, x = Invoked h a) ∨ (∃ p a, x = Submitted p h a) →
  (∀ h', hook_slack (note w x) h' = hook_slack w h' - if decide (h' = h) then 1 else 0) ∧
  (∀ e, event_slack (note w x) e = event_slack w e) ∧
  (∀ h', hook_gap (note w x) h' = hook_gap w h') ∧ (∀ e, event_gap (note w x) e = event_gap w e).
Proof.
  intros Hx. destruct (note_slack w x) as (N1 & N2 & N3 & N4).
  split_and!; intros y; rewrite ?N1, ?N2, ?N3, ?N4; unfold executions, rounds, reached, calls;
    destruct Hx as [(a & ->)|(p & a & ->)]; cbn; repeat case_decide; try lia; congruence.
Qed.

(** Code that is finished, and code that was interrupted. *)
Definition keeps_balance (run : code → world → result world) : Prop :=
  ∀ c w w', (run c w = Finished (Ret w') → balanced w w') ∧ (run c w = Interrupted w' → up w w').

(** What remains of a round for a hook whose trigger was counted. *)
Lemma hook_executed w w1 w3 x w' h :
  up w w1 → (∀ e, event_slack w1 e = event_slack w e) →
  (∀ h', hook_slack w1 h' = hook_slack w h' + if decide (h' = h) then 1 else 0) →
  balanced w1 w3 → (∃ a, x = Invoked h a) ∨ (∃ p a, x = Submitted p h a) →
  (balanced (note w3 x) w' → balanced w w') ∧ (up (note w3 x) w' → up w w').
Proof.
  intros [_ _ G1 G2] He Hh [[U1 U2 U3 U4] B1 B2] Hx. destruct (note_hook_slack w3 x h Hx) as (N1 & N2 & N3 & N4).
  assert (balanced w (note w3 x)) as Hb.
  { split; [split|..]; intros y; rewrite ?N1, ?N2, ?N3, ?N4, ?U3, ?U4, ?G1, ?G2; try done;
      try specialize (U1 y); try specialize (U2 y); try specialize (B1 y); try specialize (B2 y); try specialize (He y); try specialize (Hh y);
      repeat case_decide; lia. }
  split; [by eapply balanced_trans|]. apply up_trans, Hb.
Qed.

Lemma trigger_hook_balanced run w e h a w' :
  keeps_balance run →
  (trigger_hook run w e h a = Finished (Ret w') → balanced w w') ∧ (trigger_hook run w e h a = Interrupted w' → up w w').
Proof.
  intros Hrun. unfold trigger_hook.
  destruct (count_hook (note w (Reached h a)) h) as [[w1 exceeded]|] eqn:H1; cbn [bindf]; [|done].
  destruct (count_hook_slack w h a w1 exceeded H1) as (Hup & S1 & S2). destruct exceeded.
  { split; [|done]. intros [= H]. apply Unhook_balanced in H. eapply balanced_trans; [|done].
    split; [done|..]; intros x; rewrite ?S1, ?S2; [case_decide; lia|lia]. }
  destruct (get_event w1 e) as [ev|]; cbn [bindf]; [|done]. destruct (get_hook w1 h) as [hk|]; cbn [bindf]; [|done].
  assert (∀ (o : option fn) u u',
    (match o with Some f => run (Call f a) (note u (PreTriggered f a)) | None => Finished (Ret u) end = Finished (Ret u') → balanced u u') ∧
    (match o with Some f => run (Call f a) (note u (PreTriggered f a)) | None => Finished (Ret u) end = Interrupted u' → up u u')) as Hpre.
  { intros [f|] u u'; [|by split; [intros [= <-]|]]. pose proof (note_pre_balanced u f a) as Hn. split; intros Hf.
    - eapply balanced_trans; [done|by eapply Hrun].
    - eapply up_trans; [apply Hn|by eapply Hrun]. }
  split.
  - intros (w2 & H2 & H)%bindf_Ret. apply bindf_Ret in H as (w3 & H3 & H). destruct (pool_of w3 h) as [p|]; [|done].
    pose proof (balanced_trans _ _ _ (proj1 (Hpre _ _ _) H2) (proj1 (Hpre _ _ _) H3)) as Hb. destruct p as [p|].
    + injection H as <-. eapply (hook_executed w w1 w3 (Submitted p h a)); [done..|right; by eexists _, _|apply balanced_refl].
    + eapply (hook_executed w w1 w3 (Invoked h a)); [done..|left; by eexists|by eapply Hrun].
  - intros [H2|(w2 & H2 & H)]%bindf_Interrupted; [eapply up_trans; [done|by eapply Hpre]|].
    apply bindf_Interrupted in H as [H3|(w3 & H3 & H)].
    { eapply up_trans; [done|]. eapply up_trans; [apply (proj1 (Hpre _ _ _) H2)|by eapply Hpre]. }
    pose proof (balanced_trans _ _ _ (proj1 (Hpre _ _ _) H2) (proj1 (Hpre _ _ _) H3)) as Hb.
    destruct (pool_of w3 h) as [[p|]|]; [done| |done].
    eapply (hook_executed w w1 w3 (Invoked h a)); [done..|left; by eexists|by eapply Hrun].
Qed.

Lemma run_op_balanced run w o w' :
  keeps_balance run →
  (run_op run w o = Finished (Ret w') → balanced w w') ∧ (run_op run w o = Interrupted w' → up w w').
Proof.
  intros Hrun. destruct o as [opts|e cb opts|h|e target|e a]; cbn [run_op]; [| | | |apply Hrun]; (split; [intros [= H]|done]).
  - subst w'. apply newEvent_balanced.
  - apply outcome_bind_Ret in H as ([w1 h] & H1 & [= <-]). by eapply Hook_balanced.
  - apply outcome_bind_Ret in H as (hk & _ & H). destruct (trigger hk); [by eapply Unhook_balanced|].
    by injection H as <-.
  - by eapply linkTo_balanced.
Qed.

(** A round begins. *)
Lemma round_balanced w w1 e a :
  up w w1 → (∀ h, hook_slack w1 h = hook_slack w h) →
  (∀ e', event_slack w1 e' = event_slack w e' + if decide (e' = e) then 1 else 0) → balanced w (note w1 (Round e a)).
Proof.
  intros [U1 U2 U3 U4] Hh He. destruct (note_slack w1 (Round e a)) as (N1 & N2 & N3 & N4).
  unfold executions, rounds, reached, calls in *. cbn [zsum] in *.
  split; [split|..]; intros x; rewrite ?N1, ?N2, ?N3, ?N4, ?U3, ?U4, ?Hh, ?He; repeat case_decide; try congruence; lia.
Qed.

Lemma exec_balanced fuel : keeps_balance (exec fuel).
Proof.
  induction fuel as [|fuel IH]; intros c w w'; [by split; [|intros [= <-]; apply balanced_refl]|].
  destruct c as [[cb|e] a|e a|e [l|] a|[|o ops]]; cbn [exec]; [apply IH..| | | | |].
  - destruct (count_event (note w (Called e a)) e) as [[w1 exceeded]|] eqn:H1; cbn [bindf]; [|done].
    destruct (count_event_slack _ _ _ _ _ H1) as (Hup & S1 & S2). destruct exceeded.
    { split; [|done]. intros [= <-]. split; [done|..]; intros x; rewrite ?S1, ?S2; [lia|case_decide; lia]. }
    pose proof (round_balanced w w1 e a Hup S1 S2) as Hb. destruct (get_event w1 e) as [ev|]; cbn [bindf]; [|done]. split; intros H.
    + eapply balanced_trans; [done|by eapply IH].
    + eapply up_trans; [apply Hb|by eapply IH].
  - destruct (get_event w e) as [ev|]; cbn [bindf]; [|done]. destruct (deref _ _) as [el|]; cbn [bindf]; [|done]. split.
    + intros (w1 & H1 & H)%bindf_Ret. destruct (get_event w1 e); [|done]. destruct (deref _ _); [|done].
      eapply balanced_trans; [by eapply trigger_hook_balanced|by eapply IH].
    + intros [H1|(w1 & H1 & H)]%bindf_Interrupted; [by eapply trigger_hook_balanced|].
      destruct (get_event w1 e); [|done]. destruct (deref _ _); [|done].
      eapply up_trans; [by eapply (bal_up w w1), trigger_hook_balanced|by eapply IH].
  - by split; [intros [= <-]|].
  - by split; [intros [= <-]|].
  - split.
    + intros (w1 & H1 & H)%bindf_Ret. eapply balanced_trans; [by eapply run_op_balanced|by eapply IH].
    + intros [H1|(w1 & H1 & H)]%bindf_Interrupted; [by eapply run_op_balanced|].
      eapply up_trans; [by eapply (bal_up w w1), run_op_balanced|by eapply IH].
Qed.

(** ** Links *)

Definition is_hooked (w : world) (h : nat) : bool :=
  match all_hooks w !! h with
  | Some hk => match events w !! hook_event hk with Some ev => Has (hooks ev) (hook_id hk) | None => false end
  | None => false
  end.

(** The heap is well formed: hooks have the numbers their event has given out,
    each number once, and only hooks of users have a limit. *)
Record heap_ok (w : world) : Prop := {
  heap_rep e ev : events w !! e = Some ev → ∃ ls es, om_rep (hooks ev) ls es;
  heap_has e ev k : events w !! e = Some ev → Has (hooks ev) k = true → k ≤ hooksCounter ev;
  heap_hook h hk : all_hooks w !! h = Some hk →
    ∃ ev, events w !! hook_event hk = Some ev ∧ hook_id hk ≤ hooksCounter ev;
  heap_unique h h' hk hk' : all_hooks w !! h = Some hk → all_hooks w !! h' = Some hk' →
    hook_event hk = hook_event hk' → hook_id hk = hook_id hk' → h = h';
  heap_limit h hk e : all_hooks w !! h = Some hk → trigger hk = TriggerOf e → maxTriggerCount (h_settings hk) = 0;
}.

(** The events that trigger [e] do so through the hook [l e] only. *)
Definition links_are (w : world) (l : nat → option nat) : Prop :=
  ∀ e h, l e = Some h ↔ is_hooked w h = true ∧ ∃ hk, all_hooks w !! h = Some hk ∧ trigger hk = TriggerOf e.

Definition link_of (w : world) (e : nat) : option nat := events w !! e ≫= link.

Definition world_ok (w : world) : Prop := heap_ok w ∧ links_are w (link_of w).

Lemma Set_Has (o o' : OrderedMap Z nat) ls es k v r :
  om_rep o ls es → Set_ o k v = Ret (o', r) →
  (∃ ls es, om_rep o' ls es) ∧ ∀ k', Has o' k' = Has o k' || bool_decide (k' = k).
Proof.
  intros Hr E. destruct (Set_rep o ls es k v Hr) as (o1 & ls1 & E1 & Hr1). rewrite E in E1. injection E1 as <- _.
  split; [by eexists _, _|]. intros k'. rewrite (Has_rep _ _ _ _ Hr), (Has_rep _ _ _ _ Hr1), <-bool_decide_or.
  apply bool_decide_ext. unfold al_set. destruct (al_get k es) eqn:Eg.
  - assert (((λ kv : Z * nat, if decide (kv.1 = k) then (k, v) else kv) <$> es).*1 = es.*1) as ->.
    { rewrite <-list_fmap_compose. apply list_fmap_ext. intros i [k1 v1] _. cbn. by case_decide. }
    split; [by left|]. intros [?| ->]; [done|]. destruct (decide (k ∈ es.*1)) as [|Hk]; [done|].
    by rewrite (al_get_None k es Hk) in Eg.
  - rewrite fmap_app. cbn. set_solver.
Qed.

Lemma Delete_Has (o o' : OrderedMap Z nat) ls es k r :
  om_rep o ls es → Delete o k = Ret (o', r) →
  (∃ ls es, om_rep o' ls es) ∧ ∀ k', Has o' k' = Has o k' && bool_decide (k' ≠ k).
Proof.
  intros Hr E. destruct (Delete_rep o ls es k Hr) as (o1 & ls1 & E1 & Hr1). rewrite E in E1. injection E1 as <- _.
  split; [by eexists _, _|]. intros k'. rewrite (Has_rep _ _ _ _ Hr), (Has_rep _ _ _ _ Hr1), <-bool_decide_and.
  apply bool_decide_ext. unfold al_delete. rewrite !list_elem_of_fmap. split.
  - intros ([k1 v1] & -> & [Hk Hin]%list_elem_of_filter). cbn in *. split; [by exists (k1, v1)|done].
  - intros (([k1 v1] & -> & Hin) & Hk). exists (k1, v1). split; [done|]. by apply list_elem_of_filter.
Qed.

(** An event is replaced by one with the same hooks. *)
Lemma set_event_same w e ev ev' :
  events w !! e = Some ev → hooks ev' = hooks ev → hooksCounter ev' = hooksCounter ev → heap_ok w →
  heap_ok (set_event w e ev') ∧ ∀ h, is_hooked (set_event w e ev') h = is_hooked w h.
Proof.
  intros He Hh Hc []. pose proof (lookup_lt_Some _ _ _ He) as Hlt. split.
  - split; cbn; try done.
    + intros e' ev1 [[<- ->]|[_ ?]]%lookup_insert_case; [rewrite Hh; by eapply heap_rep0|by eapply heap_rep0].
    + intros e' ev1 k [[<- ->]|[_ ?]]%lookup_insert_case; [rewrite Hh, Hc; by eapply heap_has0|by eapply heap_has0].
    + intros h hk Hk. destruct (heap_hook0 h hk Hk) as (ev1 & He1 & Hid).
      destruct (decide (e = hook_event hk)) as [->|]; [|exists ev1; by rewrite list_lookup_insert_ne].
      exists ev'. rewrite list_lookup_insert_eq by done. simplify_eq. by rewrite Hc.
  - intros h. unfold is_hooked. cbn. destruct (all_hooks w !! h) as [hk|]; [|done].
    destruct (decide (e = hook_event hk)) as [->|]; [|by rewrite list_lookup_insert_ne].
    rewrite list_lookup_insert_eq by done. by rewrite He, Hh.
Qed.

Lemma Unhook_hooked w h w' :
  heap_ok w → Unhook w h = Ret w' →
  heap_ok w' ∧ all_hooks w' = all_hooks w ∧ (∀ e, link_of w' e = link_of w e) ∧
  ∀ h', is_hooked w' h' = is_hooked w h' && bool_decide (h' ≠ h).
Proof.
  intros Hok. pose proof Hok as []. unfold Unhook. intros (hk & Hk & H)%outcome_bind_Ret. apply get_hook_Ret in Hk.
  apply outcome_bind_Ret in H as (ev & He & H). apply get_event_Ret in He.
  apply outcome_bind_Ret in H as ([hs o] & Hd & [= <-]). pose proof (lookup_lt_Some _ _ _ He) as Hlt.
  destruct (heap_rep0 _ _ He) as (ls & es & Hr). destruct (Delete_Has _ _ _ _ _ _ Hr Hd) as [Hr' Hhas].
  split_and!; [|done| |].
  - split; cbn; try done.
    + intros e' ev1 [[<- ->]|[_ ?]]%lookup_insert_case; [done|by eapply heap_rep0].
    + intros e' ev1 k [[<- ->]|[_ ?]]%lookup_insert_case; [|by eapply heap_has0].
      cbn. rewrite Hhas. intros [? _]%andb_true_iff. by eapply heap_has0.
    + intros h1 hk1 Hk1. destruct (heap_hook0 h1 hk1 Hk1) as (ev1 & He1 & Hid).
      destruct (decide (hook_event hk = hook_event hk1)) as [E|]; [|exists ev1; by rewrite list_lookup_insert_ne].
      rewrite <-E in *. eexists. rewrite list_lookup_insert_eq by done. split; [done|]. by simplify_eq.
  - intros e. unfold link_of. cbn. destruct (decide (hook_event hk = e)) as [<-|]; [|by rewrite list_lookup_insert_ne].
    by rewrite list_lookup_insert_eq, He.
  - intros h'. unfold is_hooked. cbn. destruct (all_hooks w !! h') as [hk'|] eqn:Ek; [|done].
    destruct (decide (hook_event hk = hook_event hk')) as [E|Hne].
    + rewrite <-E, list_lookup_insert_eq, He by done. cbn. rewrite Hhas. f_equal. apply bool_decide_ext.
      split; [by intros Hne ->; simplify_eq|]. intros Hne Hid. apply Hne. by eapply heap_unique0.
    + rewrite list_lookup_insert_ne by done. rewrite (bool_decide_eq_true_2 (h' ≠ h)), andb_true_r; [done|].
      intros ->. by simplify_eq.
Qed.

Lemma Hook_hooked w e f opts w' h :
  heap_ok w → (∀ e', f = TriggerOf e' → opts = []) → Hook_ w e f opts = Ret (w', h) →
  heap_ok w' ∧ h = length (all_hooks w) ∧ (∃ id, all_hooks w' = all_hooks w ++ [mkHook id e f (settings_of opts)]) ∧
  (∀ e, link_of w' e = link_of w e) ∧
  ∀ h', is_hooked w' h' = is_hooked w h' || bool_decide (h' = h).
Proof.
  intros Hok Hf. pose proof Hok as []. unfold Hook_. intros (ev & He & H)%outcome_bind_Ret. apply get_event_Ret in He.
  apply outcome_bind_Ret in H as ([hs o] & Hs & [= <- <-]). pose proof (lookup_lt_Some _ _ _ He) as Hlt.
  destruct (heap_rep0 _ _ He) as (ls & es & Hr). destruct (Set_Has _ _ _ _ _ _ _ Hr Hs) as [Hr' Hhas].
  assert (∀ h1 hk1, (all_hooks w ++ [mkHook (hooksCounter ev + 1) e f (settings_of opts)]) !! h1 = Some hk1 →
    all_hooks w !! h1 = Some hk1 ∨
    h1 = length (all_hooks w) ∧ hk1 = mkHook (hooksCounter ev + 1) e f (settings_of opts)) as Hcase.
  { intros h1 hk1 [?|[Hle Hh1]]%lookup_app_Some; [by left|right].
    apply list_lookup_singleton_Some in Hh1 as [? <-]. split; [lia|done]. }
  assert (∀ h1 hk1, all_hooks w !! h1 = Some hk1 → hook_event hk1 = e → hook_id hk1 ≤ hooksCounter ev) as Hold.
  { intros h1 hk1 Hk1 E. destruct (heap_hook0 _ _ Hk1) as (ev1 & He1 & ?). rewrite E in He1. by simplify_eq. }
  split_and!; [|done|by eexists| |].
  - split; cbn.
    + intros e' ev1 [[<- ->]|[_ ?]]%lookup_insert_case; [done|by eapply heap_rep0].
    + intros e' ev1 k [[<- ->]|[_ ?]]%lookup_insert_case; [|by eapply heap_has0].
      cbn. rewrite Hhas. intros [Hk|Hk%bool_decide_eq_true]%orb_true_iff; [|lia].
      specialize (heap_has0 _ _ _ He Hk). lia.
    + intros h1 hk1 [Hk1|[-> ->]]%Hcase; cbn.
      * destruct (heap_hook0 _ _ Hk1) as (ev1 & He1 & Hid).
        destruct (decide (e = hook_event hk1)) as [E|]; [|exists ev1; by rewrite list_lookup_insert_ne].
        subst e. eexists. rewrite list_lookup_insert_eq by done. split; [done|]. cbn. simplify_eq. lia.
      * eexists. rewrite list_lookup_insert_eq by done. split; [done|]. cbn. lia.
    + intros h1 h2 hk1 hk2 [Hk1|[-> ->]]%Hcase [Hk2|[-> ->]]%Hcase; cbn; try done.
      * by eapply heap_unique0.
      * intros E Hid. specialize (Hold _ _ Hk1 E). lia.
      * intros E Hid. specialize (Hold _ _ Hk2 (eq_sym E)). lia.
    + intros h1 hk1 e' [Hk1|[-> ->]]%Hcase; [by eapply heap_limit0|]. cbn. intros Hf'. by rewrite (Hf e' Hf').
  - intros e'. unfold link_of. cbn. destruct (decide (e = e')) as [<-|]; [|by rewrite list_lookup_insert_ne].
    by rewrite list_lookup_insert_eq, He.
  - intros h'. unfold is_hooked. cbn.
    destruct ((all_hooks w ++ [mkHook (hooksCounter ev + 1) e f (settings_of opts)]) !! h') as [hk'|] eqn:Ek.
    + destruct (Hcase _ _ Ek) as [Hk|[-> ->]].
      * rewrite Hk, (bool_decide_eq_false_2 (h' = length _)), orb_false_r by (apply lookup_lt_Some in Hk; lia).
        destruct (decide (e = hook_event hk')) as [E|]; [|by rewrite list_lookup_insert_ne].
        subst e. rewrite list_lookup_insert_eq, He by done. cbn. rewrite Hhas.
        rewrite bool_decide_eq_false_2, orb_false_r; [done|]. specialize (Hold _ _ Hk eq_refl). lia.
      * cbn. rewrite list_lookup_insert_eq by done. cbn. rewrite Hhas, !bool_decide_eq_true_2 by done. by rewrite !orb_true_r.
    + apply lookup_ge_None in Ek. rewrite length_app in Ek. cbn in Ek. rewrite lookup_ge_None_2 by lia.
      by rewrite bool_decide_eq_false_2 by lia.
Qed.

(** What hooking and unhooking do to the links. *)
Lemma Unhook_links w h w' hk l :
  heap_ok w → links_are w l → Unhook w h = Ret w' → all_hooks w !! h = Some hk →
  is_hooked w h = true ∨ (∃ cb, trigger hk = User cb) →
  heap_ok w' ∧ (∀ e, link_of w' e = link_of w e) ∧
  links_are w' (λ e, if decide (trigger hk = TriggerOf e) then None else l e).
Proof.
  intros Hok Hl Hu Hk Hc. destruct (Unhook_hooked w h w' Hok Hu) as (Hok' & Eh & El & Hhk). split_and!; [done|done|].
  intros e h'. rewrite Hhk, Eh, andb_true_iff, bool_decide_eq_true. case_decide as Ht.
  - split; [done|]. intros [[Hh' Hne] (hk' & Hk' & Ht')]. destruct Hne. destruct Hc as [Hc|[cb Hc]]; [|by rewrite Hc in Ht].
    assert (l e = Some h) as E1 by (apply Hl; by eauto). assert (l e = Some h') as E2 by (apply Hl; by eauto). congruence.
  - rewrite (Hl e h'). split; [|by intros [[? _] ?]]. intros [Hh' (hk' & Hk' & Ht')]. split; [|by eauto].
    split; [done|]. intros ->. rewrite Hk in Hk'. by simplify_eq.
Qed.

Lemma Hook_links w t f opts w' h l :
  heap_ok w → links_are w l → (∀ e, f = TriggerOf e → opts = [] ∧ l e = None) → Hook_ w t f opts = Ret (w', h) →
  heap_ok w' ∧ (∀ e, link_of w' e = link_of w e) ∧
  links_are w' (λ e, if decide (f = TriggerOf e) then Some h else l e) ∧
  ∃ hk, all_hooks w' !! h = Some hk ∧ hook_event hk = t ∧ trigger hk = f.
Proof.
  intros Hok Hl Hf Hh. destruct (Hook_hooked w t f opts w' h Hok) as (Hok' & -> & (id & Eh) & El & Hhk); [|done|].
  { intros e E. by destruct (Hf e E). }
  split_and!; [done|done| |rewrite Eh, lookup_app_r, Nat.sub_diag by done; by eexists].
  intros e h'. rewrite Hhk, Eh, orb_true_iff, bool_decide_eq_true.
  assert (is_hooked w h' = true → (h' < length (all_hooks w))%nat) as Hlt.
  { unfold is_hooked. destruct (all_hooks w !! h') eqn:E; [|done]. intros _. by eapply lookup_lt_Some. }
  case_decide as Ht.
  - split.
    + intros [= <-]. split; [by right|]. rewrite lookup_app_r, Nat.sub_diag by done. by eexists.
    + intros [[Hh'| ->] (hk & Hk & Ht')]; [|done]. rewrite lookup_app_l in Hk by auto.
      destruct (Hf e Ht) as [_ E]. assert (l e = Some h') as E' by (apply Hl; by eauto). congruence.
  - rewrite (Hl e h'). split.
    + intros [Hh' (hk & Hk & Ht')]. split; [by left|]. exists hk. by rewrite lookup_app_l by auto.
    + intros [[Hh'| ->] (hk & Hk & Ht')]; [rewrite lookup_app_l in Hk by auto; by eauto|].
      rewrite lookup_app_r, Nat.sub_diag in Hk by done. by simplify_eq/=.
Qed.

Lemma links_are_ext w l l' : (∀ e, l e = l' e) → links_are w l → links_are w l'.
Proof. intros E Hl e h. by rewrite <-E. Qed.

Lemma set_link_ok w e x w' l :
  heap_ok w → set_link w e x = Ret w' → links_are w l →
  heap_ok w' ∧ links_are w' l ∧ all_hooks w' = all_hooks w ∧ ∀ e', link_of w' e' = if decide (e' = e) then x else link_of w e'.
Proof.
  intros Hok. unfold set_link. intros (ev & He & [= <-])%outcome_bind_Ret Hl. apply get_event_Ret in He.
  destruct (set_event_same w e ev (mkEvent (hooks ev) (hooksCounter ev) x (e_settings ev)) He) as [Hok' Hh]; [done..|].
  split_and!; [done| |done|].
  - intros e' h. rewrite Hh. apply Hl.
  - intros e'. unfold link_of. cbn. case_decide as E; [subst e'|by rewrite list_lookup_insert_ne].
    by rewrite list_lookup_insert_eq by (by eapply lookup_lt_Some).
Qed.

(** [linkTo] replaces the link. *)
Lemma linkTo_links w e target w' :
  world_ok w → linkTo w e target = Ret w' →
  world_ok w' ∧ (∀ e', e' ≠ e → link_of w' e' = link_of w e') ∧
  match target with
  | None => link_of w' e = None
  | Some t => ∃ h hk, link_of w' e = Some h ∧ all_hooks w' !! h = Some hk ∧ hook_event hk = t
  end.
Proof.
  intros [Hok Hl] H. unfold linkTo in H. apply outcome_bind_Ret in H as (ev & He & H). apply get_event_Ret in He.
  apply outcome_bind_Ret in H as (w1 & H1 & H).
  assert (heap_ok w1 ∧ (∀ e', link_of w1 e' = link_of w e') ∧
    links_are w1 (λ e', if decide (e' = e) then None else link_of w e')) as (Hok1 & E1 & L1).
  { destruct (link ev) as [h|] eqn:El.
    - assert (link_of w e = Some h) as Eh by (unfold link_of; by rewrite He).
      destruct (proj1 (Hl e h) Eh) as [Hh (hk & Hk & Ht)].
      destruct (Unhook_links w h w1 hk (link_of w) Hok Hl H1 Hk) as (? & ? & L); [by left|]. split_and!; [done|done|].
      eapply links_are_ext; [|exact L]. intros e'. cbn. rewrite Ht. repeat case_decide; congruence.
    - injection H1 as <-. split_and!; [done|done|]. eapply links_are_ext; [|exact Hl]. intros e'. cbn.
      case_decide; [subst e'; unfold link_of; by rewrite He|done]. }
  destruct target as [t|].
  - apply outcome_bind_Ret in H as ([w2 h] & H2 & H).
    destruct (Hook_links w1 t (TriggerOf e) [] w2 h _ Hok1 L1) as (Hok2 & E2 & L2 & hk & Hk & Ht & _); [|done|].
    { intros e' [= <-]. by rewrite decide_True. }
    destruct (set_link_ok w2 e (Some h) w' _ Hok2 H L2) as (Hok' & L' & Eh & E'). split_and!.
    + split; [done|]. eapply links_are_ext; [|exact L']. intros e'. cbn. rewrite E', E2, E1. repeat case_decide; congruence.
    + intros e' Hne. by rewrite E', E2, E1, decide_False.
    + exists h, hk. by rewrite E', decide_True, Eh.
  - destruct (set_link_ok w1 e None w' _ Hok1 H L1) as (Hok' & L' & Eh & E'). split_and!.
    + split; [done|]. eapply links_are_ext; [|exact L']. intros e'. cbn. rewrite E', E1. by case_decide.
    + intros e' Hne. by rewrite E', E1, decide_False.
    + by rewrite E', decide_True.
Qed.

(** Changes that do not concern hooks and links. *)
Lemma world_ok_frame w w' :
  world_ok w → heap_ok w' → (∀ h, is_hooked w' h = is_hooked w h) → (∀ e, link_of w' e = link_of w e) →
  (∀ h, trigger <$> all_hooks w' !! h = trigger <$> all_hooks w !! h) → world_ok w'.
Proof.
  intros [_ Hl] Hok Hh He Ht. split; [done|]. intros e h. rewrite He, Hh, (Hl e h). split; intros [? (hk & Hk & E)];
    (split; [done|]); specialize (Ht h); rewrite Hk in Ht; cbn in Ht.
  - destruct (all_hooks w' !! h) as [hk'|]; [|done]. cbn in Ht. exists hk'. split; [done|]. congruence.
  - destruct (all_hooks w !! h) as [hk'|]; [|done]. cbn in Ht. exists hk'. split; [done|]. congruence.
Qed.

Lemma newEvent_ok w opts : world_ok w → world_ok (newEvent w opts).1.
Proof.
  intros Hw. pose proof Hw as [[] _]. set (ev0 := mkEvent New 0 None (settings_of opts)).
  assert (∀ e ev, (events w ++ [ev0]) !! e = Some ev → events w !! e = Some ev ∨ ev = ev0) as Hcase.
  { intros e ev [?|[_ H]]%lookup_app_Some; [by left|]. apply list_lookup_singleton_Some in H as [_ <-]. by right. }
  assert (∀ e ev, events w !! e = Some ev → (events w ++ [ev0]) !! e = Some ev) as Hin.
  { intros e ev He. rewrite lookup_app_l; [done|]. by eapply lookup_lt_Some. }
  apply (world_ok_frame w); try done; unfold newEvent; cbn [fst]; fold ev0.
  - split; cbn [events all_hooks]; try done.
    + intros e ev [?| ->]%Hcase; [by eapply heap_rep0|]. exists [], []. apply om_rep_New.
    + intros e ev k [?| ->]%Hcase; [by eapply heap_has0|]. done.
    + intros h hk Hk. destruct (heap_hook0 h hk Hk) as (ev & He & ?). exists ev. by split; [apply Hin|].
  - intros h. unfold is_hooked. cbn [events all_hooks]. destruct (all_hooks w !! h) as [hk|] eqn:Ek; [|done].
    destruct (heap_hook0 h hk Ek) as (ev & He & ?). by rewrite (Hin _ _ He), He.
  - intros e. unfold link_of. cbn. destruct (decide (e < length (events w))%nat); [by rewrite lookup_app_l|].
    rewrite lookup_app_r, (lookup_ge_None_2 (events w)) by lia. by destruct (e - length (events w))%nat.
Qed.

Lemma count_event_ok w e w' b : world_ok w → count_event w e = Ret (w', b) → world_ok w'.
Proof.
  intros Hw. unfold count_event. intros (ev & He & H)%outcome_bind_Ret. apply get_event_Ret in He. injection H as <- _.
  edestruct (set_event_same w e ev) as [Hok' Hh]; [done| | |apply Hw|]; [..|eapply world_ok_frame; try done]; [done..|].
  intros e'. unfold link_of. cbn. destruct (decide (e' = e)) as [->|]; [|by rewrite list_lookup_insert_ne].
  by rewrite list_lookup_insert_eq, He by (by eapply lookup_lt_Some).
Qed.

Lemma count_hook_ok w h w' exceeded :
  world_ok w → count_hook w h = Ret (w', exceeded) →
  world_ok w' ∧ (exceeded = true → ∃ hk cb, all_hooks w' !! h = Some hk ∧ trigger hk = User cb).
Proof.
  intros Hw. pose proof Hw as [[] _]. unfold count_hook. intros (hk & Hk & H)%outcome_bind_Ret. apply get_hook_Ret in Hk.
  pose proof (lookup_lt_Some _ _ _ Hk) as Hlt. injection H as <- <-. split.
  - eapply (world_ok_frame w); try done; cbn.
    + split; cbn; try done.
      * intros h1 hk1 [[<- ->]|[_ ?]]%lookup_insert_case; cbn; by eapply heap_hook0.
      * intros h1 h2 hk1 hk2 [[<- ->]|[? ?]]%lookup_insert_case [[<- ->]|[? ?]]%lookup_insert_case; cbn; try done; by eapply heap_unique0.
      * intros h1 hk1 e [[<- ->]|[_ ?]]%lookup_insert_case; cbn; by eapply heap_limit0.
    + intros h'. unfold is_hooked. cbn. destruct (decide (h' = h)) as [->|]; [|by rewrite list_lookup_insert_ne].
      by rewrite list_lookup_insert_eq, Hk.
    + intros h'. destruct (decide (h' = h)) as [->|]; [|by rewrite list_lookup_insert_ne].
      by rewrite list_lookup_insert_eq, Hk.
  - cbn. intros Hex. destruct (trigger hk) as [cb|e] eqn:Ht.
    + eexists _, cb. by rewrite list_lookup_insert_eq.
    + rewrite (heap_limit0 h hk e Hk Ht), andb_false_r in Hex. done.
Qed.

Lemma note_ok w x : world_ok w → world_ok (note w x).
Proof. intros Hw. pose proof Hw as [[] _]. by apply (world_ok_frame w). Qed.

Lemma Unhook_user_ok w h w' hk cb :
  world_ok w → all_hooks w !! h = Some hk → trigger hk = User cb → Unhook w h = Ret w' → world_ok w'.
Proof.
  intros [Hok Hl] Hk Ht Hu. destruct (Unhook_links w h w' hk _ Hok Hl Hu Hk) as (Hok' & El & L); [right; by eexists|].
  split; [done|]. eapply links_are_ext; [|exact L]. intros e. cbn. by rewrite Ht, El.
Qed.

Definition keeps_ok (run : code → world → result world) : Prop :=
  ∀ c w w', world_ok w → run c w = Finished (Ret w') → world_ok w'.

Lemma trigger_hook_ok run w e h a w' :
  keeps_ok run → world_ok w → trigger_hook run w e h a = Finished (Ret w') → world_ok w'.
Proof.
  intros Hrun Hw H. unfold trigger_hook in H. apply bindf_Ret in H as ([w1 exceeded] & [= H1] & H).
  destruct (count_hook_ok _ h w1 exceeded (note_ok _ _ Hw) H1) as [Hw1 Hex]. destruct exceeded.
  { destruct Hex as (hk & cb & Hk & Ht); [done|]. injection H as H. by eapply Unhook_user_ok. }
  apply bindf_Ret in H as (ev & _ & H). apply bindf_Ret in H as (hk & _ & H).
  apply bindf_Ret in H as (w2 & H2 & H). apply bindf_Ret in H as (w3 & H3 & H). apply bindf_Ret in H as (p & _ & H).
  assert (∀ (o : option fn) u u', world_ok u → match o with Some f => run (Call f a) (note u (PreTriggered f a)) | None => Finished (Ret u) end =
    Finished (Ret u') → world_ok u') as Hpre.
  { intros [f|] u u' Hu Hf; [|by injection Hf as <-]. eapply Hrun; [by apply note_ok|exact Hf]. }
  pose proof (Hpre _ _ _ (Hpre _ _ _ Hw1 H2) H3) as Hw3.
  destruct p as [p|]; [injection H as <-; by apply note_ok|]. eapply Hrun; [by apply note_ok|exact H].
Qed.

Lemma exec_ok fuel : keeps_ok (exec fuel).
Proof.
  induction fuel as [|fuel IH]; intros c w w' Hw H; [done|]. destruct c as [[cb|e] a|e a|e [l|] a|[|o ops]]; cbn [exec] in H.
  - by eapply IH.
  - by eapply IH.
  - apply bindf_Ret in H as ([w1 exceeded] & [= H1] & H). pose proof (count_event_ok _ _ _ _ (note_ok _ _ Hw) H1) as Hw1.
    destruct exceeded; [by injection H as <-|]. apply bindf_Ret in H as (ev & _ & H). eapply IH; [by apply note_ok|exact H].
  - apply bindf_Ret in H as (ev & _ & H). apply bindf_Ret in H as (el & _ & H). apply bindf_Ret in H as (w1 & H1 & H).
    apply bindf_Ret in H as (ev' & _ & H). apply bindf_Ret in H as (el' & _ & H).
    eapply IH; [by eapply trigger_hook_ok|exact H].
  - by injection H as <-.
  - by injection H as <-.
  - apply bindf_Ret in H as (w1 & H1 & H). eapply IH; [|exact H].
    destruct o as [opts|e cb opts|h|e target|e a]; cbn [run_op] in H1.
    + injection H1 as <-. by apply newEvent_ok.
    + injection H1 as H1. apply outcome_bind_Ret in H1 as ([w2 h] & H2 & [= <-]). destruct Hw as [Hok Hl].
      destruct (Hook_links w e (User cb) opts w2 h _ Hok Hl) as (? & El & L & _); [done|done|].
      split; [done|]. eapply links_are_ext; [|exact L]. intros e'. by rewrite El.
    + injection H1 as H1. apply outcome_bind_Ret in H1 as (hk & Hk & H1). apply get_hook_Ret in Hk.
      destruct (trigger hk) eqn:Ht; [by eapply Unhook_user_ok|by injection H1 as <-].
    + injection H1 as H1. by apply (linkTo_links w e target w1 Hw) in H1 as [? _].
    + by eapply IH.
Qed.

Lemma empty_world_ok : world_ok empty_world.
Proof. split; [by split|]. intros e h. unfold link_of, is_hooked. cbn. split; [done|]. by intros []. Qed.

(** ** A round of an event *)

Definition exceeds (t : triggerSettings) : bool := (currentTriggerExceedsMaxTriggerCount t).2.

Definition counted (hk : Hook) : Hook :=
  mkHook (hook_id hk) (hook_event hk) (trigger hk) (currentTriggerExceedsMaxTriggerCount (h_settings hk)).1.

Definition pre_entries (o : option fn) (a : A) : list entry :=
  match o with Some f => [PreTriggered f a] | None => [] end.

(** What a trigger does with a hook of the event. *)
Definition hook_entries (ev : event) (h : nat) (hk : Hook) (a : A) : list entry :=
  if exceeds (h_settings hk) then [Reached h a]
  else Reached h a :: pre_entries (preTriggerFunc (e_settings ev)) a ++ pre_entries (preTriggerFunc (h_settings hk)) a ++
    [match (if (hasWorkerPool (h_settings hk)).1 then (hasWorkerPool (h_settings hk)).2
            else WorkerPool (e_settings ev)) with
     | Some p => Submitted p h a
     | None => Invoked h a
     end].

(** A callback that does nothing to events. *)
Definition quiet (f : fn) : Prop := ∃ cb, f = User cb ∧ ∀ a, body cb a = [].

Definition quiet_opt (o : option fn) : Prop := match o with Some f => quiet f | None => True end.

Definition quiet_hook (hk : Hook) : Prop := quiet (trigger hk) ∧ quiet_opt (preTriggerFunc (h_settings hk)).

Lemma quiet_call fuel f a w : quiet f → exec (S (S fuel)) (Call f a) w = Finished (Ret w).
Proof. intros (cb & -> & Hb). cbn [exec]. by rewrite Hb. Qed.

Lemma quiet_pre fuel o a w :
  quiet_opt o →
  match o with Some f => exec (S (S fuel)) (Call f a) (note w (PreTriggered f a)) | None => Finished (Ret w) end =
  Finished (Ret (mkWorld (events w) (all_hooks w) (log w ++ pre_entries o a))).
Proof. destruct o as [f|]; intros Hq; [by rewrite quiet_call|]. cbn. rewrite app_nil_r. by destruct w. Qed.

Lemma trigger_hook_quiet fuel w e ev h hk a :
  events w !! e = Some ev → all_hooks w !! h = Some hk → hook_event hk = e → quiet_hook hk →
  quiet_opt (preTriggerFunc (e_settings ev)) → exceeds (h_settings hk) = false →
  trigger_hook (exec (S (S fuel))) w e h a =
  Finished (Ret (mkWorld (events w) (<[h:=counted hk]> (all_hooks w)) (log w ++ hook_entries ev h hk a))).
Proof.
  intros He Hk Hev [Hq1 Hq2] Hq3 Hex. unfold trigger_hook, count_hook, get_hook. cbn [note all_hooks]. rewrite Hk. cbn [bindf mbind outcome_bind].
  unfold exceeds in Hex. destruct (currentTriggerExceedsMaxTriggerCount (h_settings hk)) as [t ex] eqn:Ec. cbn in Hex. subst ex.
  pose proof (lookup_lt_Some _ _ _ Hk) as Hlt. unfold get_event. cbn [bindf set_hook events all_hooks note]. rewrite He. cbn [bindf].
  rewrite list_lookup_insert_eq by done. cbn [bindf h_settings].
  assert (preTriggerFunc t = preTriggerFunc (h_settings hk)) as -> by (by injection Ec as <-).
  rewrite quiet_pre by done. cbn [bindf]. rewrite quiet_pre by done. cbn [bindf events all_hooks log set_hook note].
  unfold pool_of, get_hook, get_event. cbn [events all_hooks set_hook note]. rewrite list_lookup_insert_eq by done. cbn [mbind outcome_bind h_settings hook_event].
  assert (hasWorkerPool t = hasWorkerPool (h_settings hk)) as -> by (by injection Ec as <-).
  unfold hook_entries, exceeds. rewrite Ec. cbn [snd]. unfold counted. rewrite Ec. cbn [fst trigger].
  destruct (hasWorkerPool (h_settings hk)) as [[] p] eqn:Ep; cbn [bindf fst snd].
  - destruct p as [p|]; cbn [bindf]; [|rewrite quiet_call by done]; unfold note; cbn [events all_hooks log]; by rewrite <-!app_assoc.
  - rewrite Hev, He. cbn [mbind outcome_bind bindf].
    destruct (WorkerPool (e_settings ev)) as [p'|]; [|rewrite quiet_call by done]; unfold note; cbn [events all_hooks log];
      by rewrite <-!app_assoc.
Qed.

(** The hooks of the event [e] that are still to be visited. *)
Definition to_visit (w : world) (e : nat) (e2 : list (Z * nat)) : Prop :=
  NoDup e2.*2 ∧
  Forall (λ ih, ∃ hk, all_hooks w !! ih.2 = Some hk ∧ hook_id hk = ih.1 ∧ hook_event hk = e ∧ quiet_hook hk) e2.

Definition settings_at (w : world) (h : nat) : triggerSettings := default (settings_of []) (h_settings <$> all_hooks w !! h).

Definition entries_at (w : world) (ev : event) (a : A) (ih : Z * nat) : list entry :=
  from_option (λ hk, hook_entries ev ih.2 hk a) [] (all_hooks w !! ih.2).

Lemma to_visit_other w hs l' e2 ih e hk' :
  to_visit w e (ih :: e2) → hs = <[ih.2 := hk']> (all_hooks w) → ∀ evs, to_visit (mkWorld evs hs l') e e2.
Proof.
  intros [Hnd Hf] -> evs. apply NoDup_cons in Hnd as [Hni Hnd]. apply Forall_cons in Hf as [_ Hf]. split; [done|].
  apply Forall_forall. intros ih' Hin. destruct (proj1 (Forall_forall _ _) Hf ih' Hin) as (hk & Hk & Hrest).
  exists hk. cbn. rewrite list_lookup_insert_ne; [done|]. intros E. apply Hni. rewrite E. by apply list_elem_of_fmap_2.
Qed.

Lemma at_other w hk' l' evs ih e2 e ev ev' a :
  to_visit w e (ih :: e2) → e_settings ev' = e_settings ev →
  concat (entries_at (mkWorld evs (<[ih.2 := hk']> (all_hooks w)) l') ev' a <$> e2) = concat (entries_at w ev a <$> e2) ∧
  filter (λ x, exceeds (settings_at (mkWorld evs (<[ih.2 := hk']> (all_hooks w)) l') x.2) = false) e2 =
  filter (λ x, exceeds (settings_at w x.2) = false) e2.
Proof.
  intros [Hnd _] Hs. apply NoDup_cons in Hnd as [Hni _].
  assert (∀ x, x ∈ e2 → <[ih.2:=hk']> (all_hooks w) !! x.2 = all_hooks w !! x.2) as Hsame.
  { intros x Hx. apply list_lookup_insert_ne. intros E. apply Hni. rewrite E. by apply list_elem_of_fmap_2. }
  split.
  - f_equal. apply list_fmap_ext. intros i x Hx%list_elem_of_lookup_2. unfold entries_at. cbn. rewrite Hsame by done.
    unfold hook_entries. by rewrite Hs.
  - clear -Hsame. induction e2 as [|x e2 IH]; [done|].
    assert (settings_at (mkWorld evs (<[ih.2:=hk']> (all_hooks w)) l') x.2 = settings_at w x.2) as E.
    { unfold settings_at. cbn. rewrite Hsame; [done|by left]. }
    rewrite !filter_cons, E, IH; [done|]. intros y Hy. apply Hsame. by right.
Qed.

Lemma trigger_hook_exceeded run w e ev h hk a hs r :
  events w !! e = Some ev → all_hooks w !! h = Some hk → hook_event hk = e → exceeds (h_settings hk) = true →
  Delete (hooks ev) (hook_id hk) = Ret (hs, r) →
  trigger_hook run w e h a =
  Finished (Ret (mkWorld (<[e := mkEvent hs (hooksCounter ev) (link ev) (e_settings ev)]> (events w))
    (<[h:=counted hk]> (all_hooks w)) (log w ++ [Reached h a]))).
Proof.
  intros He Hk Hev Hex Hd. unfold trigger_hook, count_hook, get_hook. cbn [note all_hooks]. rewrite Hk. cbn [bindf mbind outcome_bind].
  unfold exceeds in Hex. destruct (currentTriggerExceedsMaxTriggerCount (h_settings hk)) as [t ex] eqn:Ec. cbn in Hex. subst ex.
  cbn [bindf]. unfold Unhook, get_hook, get_event. cbn [set_hook events all_hooks note].
  rewrite list_lookup_insert_eq by (by eapply lookup_lt_Some). cbn [mbind outcome_bind hook_event hook_id].
  subst e. rewrite He. cbn [mbind outcome_bind]. rewrite Hd. cbn [mbind outcome_bind]. unfold counted. by rewrite Ec.
Qed.

Lemma loop_quiet fuel w e ev a l1 l2 e1 e2 :
  events w !! e = Some ev → om_rep (hooks ev) (l1 ++ l2) (e1 ++ e2) → length l1 = length e1 → to_visit w e e2 →
  quiet_opt (preTriggerFunc (e_settings ev)) → (length l2 + 2 ≤ fuel)%nat →
  ∃ w' ev' ls', exec fuel (Loop e (next_in (Some <$> l2) None) a) w = Finished (Ret w') ∧
    events w' = <[e:=ev']> (events w) ∧ e_settings ev' = e_settings ev ∧
    om_rep (hooks ev') ls' (e1 ++ filter (λ x, exceeds (settings_at w x.2) = false) e2) ∧
    log w' = log w ++ concat (entries_at w ev a <$> e2).
Proof.
  revert fuel w ev l1 e1 e2. induction l2 as [|l l2 IH]; intros fuel w ev l1 e1 e2 He Hr Hlen Hv Hq Hfuel;
    pose proof (rep_length _ _ _ Hr) as Hl; rewrite !length_app in Hl; cbn in Hl, Hfuel.
  { destruct e2; [|cbn in Hl; lia]. destruct fuel; [lia|]. exists w, ev, (l1 ++ []).
    split_and!; [done|by rewrite list_insert_id|done|done|by rewrite app_nil_r]. }
  destruct e2 as [|[id h] e2]; [cbn in Hl; lia|]. destruct fuel as [|[|[|fuel]]]; [lia..|].
  pose proof (rep_es _ _ _ Hr) as Hes. apply Forall2_app_inv in Hes as [_ Hes]; [|done].
  apply Forall2_cons in Hes as [(el & Hel & Hke & Hve) _]. cbn in Hke, Hve.
  destruct (rep_neighbours _ _ _ _ _ _ Hr Hel) as (_ & Hn & _).
  pose proof (proj2 Hv) as Hf. apply Forall_cons in Hf as [(hk & Hk & Hid & Hev & Hqh) _]. cbn in Hk, Hid.
  change (exec (S (S (S fuel))) (Loop e (next_in (Some <$> l :: l2) None) a) w) with
    (bindf (Finished (get_event w e)) (λ ev, bindf (Finished (deref (heap (hooks ev)) (Some l))) (λ el,
      bindf (trigger_hook (exec (S (S fuel))) w e (value el) a) (λ w, bindf (Finished (get_event w e)) (λ ev,
      bindf (Finished (deref (heap (hooks ev)) (Some l))) (λ el, exec (S (S fuel)) (Loop e (next el) a) w)))))).
  unfold get_event at 1. rewrite He. cbn [bindf deref]. rewrite Hel. cbn [bindf]. rewrite Hve.
  assert (settings_at w h = h_settings hk) as Hset by (unfold settings_at; by rewrite Hk).
  assert (entries_at w ev a (id, h) = hook_entries ev h hk a) as Hent by (unfold entries_at; cbn; by rewrite Hk).
  pose proof (lookup_lt_Some _ _ _ He) as Hlt.
  rewrite fmap_cons, concat_cons, Hent, filter_cons. cbn [snd]. rewrite Hset.
  destruct (exceeds (h_settings hk)) eqn:Hex.
  - destruct (Delete_at (hooks ev) l1 l l2 e1 id h e2 Hr Hlen) as (hs & Hd & Hr' & Hnext).
    rewrite (trigger_hook_exceeded _ w e ev h hk a hs true) by (done || by rewrite Hid). cbn [bindf].
    set (ev1 := mkEvent hs (hooksCounter ev) (link ev) (e_settings ev)).
    set (w1 := mkWorld (<[e:=ev1]> (events w)) (<[h:=counted hk]> (all_hooks w)) (log w ++ [Reached h a])).
    assert (events w1 !! e = Some ev1) as He1 by (by apply list_lookup_insert_eq).
    unfold get_event. rewrite He1. cbn [bindf deref ev1 hooks]. destruct (heap hs !! l) as [el'|]; [|done].
    cbn in Hnext. injection Hnext as ->. cbn [bindf].
    destruct (IH (S (S fuel)) w1 ev1 l1 e1 e2 He1 Hr' Hlen) as (w' & ev' & ls' & E & Hev' & Hse & Hom & Hlog);
      [by eapply (to_visit_other w)|done|lia|].
    destruct (at_other w (counted hk) (log w ++ [Reached h a]) (<[e:=ev1]> (events w)) (id, h) e2 e ev ev1 a Hv eq_refl) as [A1 A2].
    cbn [snd] in A1, A2. fold w1 in A1, A2. exists w', ev', ls'. split_and!; [done| |done| |].
    + rewrite Hev'. cbn. by rewrite list_insert_insert_eq.
    + rewrite decide_False by done. by rewrite <-A2.
    + rewrite Hlog, A1. unfold hook_entries. rewrite Hex. cbn [w1 log]. by rewrite <-app_assoc.
  - rewrite (trigger_hook_quiet fuel w e ev h hk a) by done. cbn [bindf].
    set (w1 := mkWorld (events w) (<[h:=counted hk]> (all_hooks w)) (log w ++ hook_entries ev h hk a)).
    unfold get_event. cbn [w1 events]. rewrite He. cbn [bindf deref]. rewrite Hel. cbn [bindf]. rewrite Hn.
    destruct (IH (S (S fuel)) w1 ev (l1 ++ [l]) (e1 ++ [(id, h)]) e2) as (w' & ev' & ls' & E & Hev' & Hse & Hom & Hlog);
      [done|by rewrite <-!app_assoc|rewrite !length_app; cbn; lia|by eapply (to_visit_other w)|done|lia|].
    destruct (at_other w (counted hk) (log w ++ hook_entries ev h hk a) (events w) (id, h) e2 e ev ev a Hv eq_refl) as [A1 A2].
    cbn [snd] in A1, A2. fold w1 in A1, A2. exists w', ev', ls'. split_and!; [done..| |].
    + rewrite decide_True by done. rewrite <-A2. by rewrite <-app_assoc in Hom.
    + rewrite Hlog, A1. cbn [w1 log]. by rewrite <-app_assoc.
Qed.

(** ** Linking returns *)

Lemma Unhook_total w h hk : heap_ok w → all_hooks w !! h = Some hk → ∃ w', Unhook w h = Ret w' ∧ length (events w') = length (events w).
Proof.
  intros [] Hk. destruct (heap_hook0 h hk Hk) as (ev & He & _). destruct (heap_rep0 _ _ He) as (ls & es & Hr).
  destruct (Delete_rep _ _ _ (hook_id hk) Hr) as (hs & ls' & Hd & _). unfold Unhook, get_hook, get_event.
  rewrite Hk. cbn [mbind outcome_bind]. rewrite He. cbn [mbind outcome_bind]. rewrite Hd. cbn [mbind outcome_bind].
  eexists. split; [done|]. apply length_insert.
Qed.

Lemma Hook_total w e f opts :
  heap_ok w → (e < length (events w))%nat → ∃ w' h, Hook_ w e f opts = Ret (w', h) ∧ length (events w') = length (events w).
Proof.
  intros [] [ev He]%lookup_lt_is_Some_2. destruct (heap_rep0 _ _ He) as (ls & es & Hr).
  destruct (Set_rep _ _ _ (hooksCounter ev + 1) (length (all_hooks w)) Hr) as (hs & ls' & Hs & _).
  unfold Hook_, get_event. rewrite He. cbn [mbind outcome_bind]. rewrite Hs. cbn [mbind outcome_bind].
  eexists _, _. split; [done|]. apply length_insert.
Qed.

Lemma set_link_total w e l : (e < length (events w))%nat → ∃ w', set_link w e l = Ret w'.
Proof. intros [ev He]%lookup_lt_is_Some_2. unfold set_link, get_event. rewrite He. by eexists. Qed.

Lemma linkTo_total w e target :
  world_ok w → (e < length (events w))%nat → (∀ t, target = Some t → (t < length (events w))%nat) →
  ∃ w', linkTo w e target = Ret w'.
Proof.
  intros [Hok Hl] Hlt Ht. pose proof Hlt as [ev He]%lookup_lt_is_Some_2. unfold linkTo, get_event. rewrite He. cbn [mbind outcome_bind].
  assert (∃ w1, match link ev with Some h => Unhook w h | None => Ret w end = Ret w1 ∧ heap_ok w1 ∧
    length (events w1) = length (events w)) as (w1 & -> & Hok1 & Hlen).
  { destruct (link ev) as [h|] eqn:El; [|by exists w].
    assert (link_of w e = Some h) as Eh by (unfold link_of; by rewrite He).
    destruct (proj1 (Hl e h) Eh) as [_ (hk & Hk & _)]. destruct (Unhook_total w h hk Hok Hk) as (w1 & Hu & Hlen).
    exists w1. split_and!; [done| |done]. by apply Unhook_hooked in Hu as [? _]. }
  cbn [mbind outcome_bind]. destruct target as [t|].
  - destruct (Hook_total w1 t (TriggerOf e) [] Hok1) as (w2 & h & -> & Hlen2); [rewrite Hlen; by apply Ht|].
    cbn [mbind outcome_bind]. apply set_link_total. lia.
  - apply set_link_total. lia.
Qed.

(** ** The limits of a run from the beginning *)

Lemma limits_kept w :
  up empty_world w →
  (∀ h hk, all_hooks w !! h = Some hk →
    executions h (log w) ≤ permitted (maxTriggerCount (h_settings hk)) (reached h (log w))) ∧
  (∀ e ev, events w !! e = Some ev →
    rounds e (log w) ≤ permitted (maxTriggerCount (e_settings ev)) (calls e (log w))).
Proof.
  intros [U1 U2 U3 U4]. split.
  - intros h hk Hk. specialize (U1 h). specialize (U3 h). unfold hook_slack, hook_gap in *. rewrite Hk in *. cbn in U1, U3.
    unfold allowed in U1. rewrite lookup_nil in U1, U3. cbn in U1, U3. replace (reached h (log w)) with (triggerCount (h_settings hk)); [|unfold reached in *; cbn in *; lia].
    unfold executions in *. cbn in *. lia.
  - intros e ev He. specialize (U2 e). specialize (U4 e). unfold event_slack, event_gap in *. rewrite He in *. cbn in U2, U4.
    unfold allowed in U2. rewrite lookup_nil in U2, U4. cbn in U2, U4. replace (calls e (log w)) with (triggerCount (e_settings ev)); [|unfold calls in *; cbn in *; lia].
    unfold rounds in *. cbn in *. lia.
Qed.

Lemma limits_exact w :
  up empty_world w → (∀ h, hook_slack w h ≤ hook_slack empty_world h) → (∀ e, event_slack w e ≤ event_slack empty_world e) →
  (∀ h hk, all_hooks w !! h = Some hk →
    executions h (log w) = permitted (maxTriggerCount (h_settings hk)) (reached h (log w))) ∧
  (∀ e ev, events w !! e = Some ev →
    rounds e (log w) = permitted (maxTriggerCount (e_settings ev)) (calls e (log w))).
Proof.
  intros Hup Hh He. destruct (limits_kept w Hup) as [L1 L2]. destruct Hup as [_ _ U3 U4]. split.
  - intros h hk Hk. specialize (L1 h hk Hk). specialize (Hh h). specialize (U3 h). unfold hook_slack, hook_gap in *. rewrite Hk in *.
    cbn in Hh, U3. rewrite lookup_nil in Hh, U3. unfold allowed in Hh. cbn in Hh, U3.
    replace (reached h (log w)) with (triggerCount (h_settings hk)) in *; [|unfold reached in *; cbn in *; lia].
    unfold executions in *. cbn in *. lia.
  - intros e ev Hev. specialize (L2 e ev Hev). specialize (He e). specialize (U4 e). unfold event_slack, event_gap in *. rewrite Hev in *.
    cbn in He, U4. rewrite lookup_nil in He, U4. unfold allowed in He. cbn in He, U4.
    replace (calls e (log w)) with (triggerCount (e_settings ev)) in *; [|unfold calls in *; cbn in *; lia].
    unfold rounds in *. cbn in *. lia.
Qed.

(** C25: Limits of triggers hold, whatever callbacks do to the events while they are run:
    hook, unhook, link, trigger again. When a run is over (without a panic), each hook has
    been invoked or handed to its worker pool once per round that reached it, but at most as
    often as its limit allows, and each event has gone through its hooks once per call of
    [Trigger], but at most as often as its limit allows (0 is no limit). Calls and rounds
    are recorded where they begin, apart from the counters of the code. In a run that is not
    over, also one that never ends, the world that was reached with any amount of fuel keeps
    the limits: nothing was executed more often than that. *)
Theorem Event_limits fuel ops :
  match exec fuel (Ops ops) empty_world with
  | Finished (Ret w) =>
      (∀ h hk, all_hooks w !! h = Some hk →
        executions h (log w) = permitted (maxTriggerCount (h_settings hk)) (reached h (log w))) ∧
      (∀ e ev, events w !! e = Some ev →
        rounds e (log w) = permitted (maxTriggerCount (e_settings ev)) (calls e (log w)))
  | Interrupted w =>
      (∀ h hk, all_hooks w !! h = Some hk →
        executions h (log w) ≤ permitted (maxTriggerCount (h_settings hk)) (reached h (log w))) ∧
      (∀ e ev, events w !! e = Some ev →
        rounds e (log w) ≤ permitted (maxTriggerCount (e_settings ev)) (calls e (log w)))
  | Finished (Panic _) => True
  end.
Proof.
  pose proof (exec_balanced fuel (Ops ops) empty_world) as H.
  destruct (exec fuel (Ops ops) empty_world) as [[w|msg]|w]; [|done|].
  - destruct (proj1 (H w) eq_refl) as [Hup Hh He]. by apply limits_exact.
  - by apply limits_kept, (H w).
Qed.

(** C27: An event is linked to one event at most.  After any run of operations and
    callbacks, [LinkTo] returns; then the only hook, of any event, that triggers
    the event is that of its link, and it is a hook of the target; there is none
    when the target is nil.  The links of other events stay as they were. *)
Theorem Event_links fuel ops w e target :
  exec fuel (Ops ops) empty_world = Finished (Ret w) →
  (e < length (events w))%nat → (∀ t, target = Some t → (t < length (events w))%nat) →
  ∃ w', linkTo w e target = Ret w' ∧
    (∀ h, is_hooked w' h = true ∧ trigger <$> all_hooks w' !! h = Some (TriggerOf e) ↔ link_of w' e = Some h) ∧
    (link_of w' e ≫= λ h, hook_event <$> all_hooks w' !! h) = target ∧
    (∀ e', e' ≠ e → link_of w' e' = link_of w e').
Proof.
  intros H Hlt Ht. pose proof (exec_ok fuel _ _ _ empty_world_ok H) as Hw.
  destruct (linkTo_total w e target Hw Hlt Ht) as [w' Hl]. exists w'.
  destruct (linkTo_links w e target w' Hw Hl) as ([_ Hok'] & Hother & Htarget). split_and!; [done| | |done].
  - intros h. rewrite (Hok' e h). split; intros [Hh Htr]; (split; [done|]).
    + apply fmap_Some in Htr as (hk & Hk & E). by exists hk.
    + destruct Htr as (hk & Hk & E). by rewrite Hk; cbn; rewrite E.
  - destruct target as [t|]; [|by rewrite Htarget]. destruct Htarget as (h & hk & -> & Hk & <-). cbn. by rewrite Hk.
Qed.

(** C26: A trigger reaches every hook once, in the order of hooking.  If the
    callbacks leave the events alone, [Trigger] of an event that has not reached
    its limit returns; every hook was, after the pre-trigger functions, invoked or
    handed to the pool of the hook or else of the event, except those that had
    reached their limit, and these, and only these, have been unhooked. *)
Theorem Event_round fuel w e ev ls es a :
  events w !! e = Some ev → exceeds (e_settings ev) = false → om_rep (hooks ev) ls es → to_visit w e es →
  quiet_opt (preTriggerFunc (e_settings ev)) → (length es + 3 ≤ fuel)%nat →
  ∃ w' ev' ls', exec fuel (Trigger e a) w = Finished (Ret w') ∧
    log w' = log w ++ Called e a :: Round e a :: concat (entries_at w ev a <$> es) ∧
    events w' !! e = Some ev' ∧ om_rep (hooks ev') ls' (filter (λ x, exceeds (settings_at w x.2) = false) es).
Proof.
  intros He Hex Hr Hv Hq Hfuel. pose proof (rep_length _ _ _ Hr) as Hlen. destruct fuel as [|fuel]; [lia|]. cbn [exec].
  unfold count_event, get_event. cbn [note events]. rewrite He. cbn [mbind outcome_bind]. unfold exceeds in Hex.
  destruct (currentTriggerExceedsMaxTriggerCount (e_settings ev)) as [t ex] eqn:Ec. cbn in Hex. subst ex. cbn [bindf].
  set (ev1 := mkEvent (hooks ev) (hooksCounter ev) (link ev) t). pose proof (lookup_lt_Some _ _ _ He) as Hlt.
  set (w1 := note (set_event (note w (Called e a)) e ev1) (Round e a)).
  assert (events w1 !! e = Some ev1) as He1 by (by apply list_lookup_insert_eq).
  cbn [set_event events note]. rewrite list_lookup_insert_eq by done. cbn [bindf ev1 hooks].
  assert (preTriggerFunc t = preTriggerFunc (e_settings ev) ∧ workerPool t = workerPool (e_settings ev)) as [Hpre Hpool]
    by (by injection Ec as <-).
  destruct (loop_quiet fuel w1 e ev1 a [] ls [] es He1) as (w' & ev' & ls' & E & Hev' & _ & Hom & Hlog);
    [done|done|done|by cbn; rewrite Hpre|lia|].
  exists w', ev', ls'. split_and!.
  - rewrite <-E. do 2 f_equal. by destruct (rep_head _ _ _ Hr) as [-> _].
  - rewrite Hlog. cbn [w1 note set_event log]. rewrite <-!app_assoc. do 3 f_equal. cbn. f_equal. apply list_fmap_ext.
    intros i [id h] _. unfold entries_at. cbn. destruct (all_hooks w !! h) as [hk|]; [|done]. cbn. unfold hook_entries. cbn.
    unfold WorkerPool, hasWorkerPool. by rewrite Hpre, Hpool.
  - rewrite Hev'. apply list_lookup_insert_eq. cbn. by rewrite length_insert.
  - done.
Qed.

End Event.

Arguments Finished {A X} o.
Arguments Interrupted {A X} w.

(** *** Samples *)

(** Callback 1 triggers the event 1, callback 2 does nothing. *)
Definition sample_body (cb : nat) (a : Z) : list op := if (cb =? 1)%nat then [OpTrigger 1 (a + 1)] else [].

(** Two events; the first has a hook with limit 1 and one without, the second is
    linked to the first as well as triggered by a callback. *)
Definition sample_ops : list op :=
  [OpNew []; OpNew [WithMaxTriggerCount 2]; OpHook 0 1 [WithMaxTriggerCount 1]; OpHook 0 2 [];
   OpHook 1 2 [WithWorkerPool (Some 5%nat)]; OpLinkTo 1 (Some 0%nat); OpTrigger 0 10; OpTrigger 0 20].

Definition sample_world : world :=
  match exec sample_body 30 (Ops sample_ops) empty_world with Finished (Ret w) => w | _ => empty_world end.

Lemma sample_exec : exec sample_body 30 (Ops sample_ops) empty_world = Finished (Ret sample_world).
Proof. vm_compute. reflexivity. Qed.

(** Two events in a circle: [Trigger] never returns, and the limit of the hook holds all the same. *)
Definition circle_ops : list (op (A := Z)) :=
  [OpNew []; OpNew []; OpHook 0 2 [WithMaxTriggerCount 2]; OpLinkTo 1 (Some 0%nat); OpLinkTo 0 (Some 1%nat); OpTrigger 0 10].

Lemma Event_limits_witness :
  (executions 0 (log sample_world) = 1 ∧ rounds 1 (log sample_world) = 2 ∧ calls 1 (log sample_world) = 3) ∧
  match exec sample_body 40 (Ops circle_ops) empty_world with
  | Interrupted w => executions 0 (log w) ≤ 2 ∧ reached 0 (log w) = 3 ∧ calls 0 (log w) = 6
  | _ => False
  end.
Proof.
  split.
  - pose proof (Event_limits sample_body 30 sample_ops) as H. rewrite sample_exec in H. destruct H as [H1 H2]. split_and!.
    + erewrite (H1 0%nat); [|vm_compute; reflexivity]. vm_compute. reflexivity.
    + erewrite (H2 1%nat); [|vm_compute; reflexivity]. vm_compute. reflexivity.
    + vm_compute. reflexivity.
  - pose proof (Event_limits sample_body 40 circle_ops) as H.
    destruct (exec sample_body 40 (Ops circle_ops) empty_world) as [o|w] eqn:E; [vm_compute in E; discriminate E|].
    destruct H as [H _]. vm_compute in E. injection E as <-. split; [|split; vm_compute; reflexivity].
    etrans; [eapply (H 0%nat); reflexivity|]. vm_compute. discriminate.
Defined.

Lemma Event_links_witness :
  ∃ w', linkTo sample_world 1 None = Ret w' ∧
    (∀ h, is_hooked w' h = true ∧ trigger <$> all_hooks w' !! h = Some (TriggerOf 1) ↔ link_of w' 1 = Some h) ∧
    (link_of w' 1 ≫= λ h, hook_event <$> all_hooks w' !! h) = None ∧
    (∀ e', e' ≠ 1%nat → link_of w' e' = link_of sample_world e').
Proof.
  apply (Event_links sample_body 30 sample_ops sample_world 1 None sample_exec); [|done]. vm_compute. lia.
Defined.

(** An event with two hooks that do nothing, the first at its limit. *)
Definition two_hooks : world (A := Z) :=
  match exec sample_body 30 (Ops [OpNew []; OpHook 0 2 [WithMaxTriggerCount 1]; OpHook 0 2 []; OpTrigger 0 10]) empty_world with
  | Finished (Ret w) => w
  | _ => empty_world
  end.

Definition two_hooks_event : event := default (mkEvent New 0 None (settings_of [])) (events two_hooks !! 0%nat).

Lemma two_hooks_rep : ∃ ls, om_rep (hooks two_hooks_event) ls [(1, 0%nat); (2, 1%nat)].
Proof.
  destruct (Set_rep New [] [] 1 0%nat om_rep_New) as (o1 & ls1 & E1 & Hr1).
  destruct (Set_rep o1 _ _ 2 1%nat Hr1) as (o2 & ls2 & E2 & Hr2).
  assert ((x ← Set_ New 1 0%nat; y ← Set_ x.1 2 1%nat; Ret y.1) = Ret (hooks two_hooks_event)) as E by (vm_compute; reflexivity).
  rewrite E1 in E. cbn [mbind outcome_bind fst] in E. rewrite E2 in E. injection E as <-. by exists ls2.
Qed.

Lemma Event_round_witness :
  ∃ w' ev' ls', exec sample_body 5 (Trigger 0 20) two_hooks = Finished (Ret w') ∧
    log w' = log two_hooks ++ [Called 0 20; Round 0 20; Reached 0 20; Reached 1 20; Invoked 1 20] ∧
    events w' !! 0%nat = Some ev' ∧ om_rep (hooks ev') ls' [(2, 1%nat)].
Proof.
  destruct two_hooks_rep as [ls Hr].
  apply (Event_round sample_body 5 two_hooks 0 two_hooks_event ls [(1, 0%nat); (2, 1%nat)] 20);
    [vm_compute; reflexivity|done|done| |done|cbn; lia].
  split; [by apply NoDup_ListNoDup; repeat constructor; set_solver|].
  repeat (apply Forall_cons; split); [..|done]; (eexists; split; [vm_compute; reflexivity|]);
    (split; [done|]); (split; [done|]); (split; [|done]); by exists 2%nat.
Defined.

(** After as many triggers as the limit allows the limit does not count as reached. *)
Lemma limit_reached_late :
  MaxTriggerCountReached (mkSettings PoolUnset 1 1 None) = false ∧ exceeds (mkSettings PoolUnset 1 1 None) = true.
Proof. done. Qed.
