(* ===== verification/ReactiveVariable.v ===== *)
(** * ds/reactive: variables and events

    [src/ds/reactive/variable_impl.go], [utils.go] and [event_impl.go] as a
    transition system.  A variable has a value, the number of its last update,
    and a list of callbacks.  Goroutines call [Compute], [OnUpdate] and the
    function [OnUpdate] returns at any time.

    - [updateOrderMutex] lets one [Compute] run at a time: [writer] is where it
      stands.  [updateValue] is one step, for it holds [valueMutex].
    - [OnUpdate] is a step that registers the callback with its [executionMutex]
      held, and a step that invokes it with the initial value.
    - To unsubscribe is a step that takes the callback from the list, and one
      that marks it, which needs the [executionMutex].
    - [mutex] of a callback is who holds its [executionMutex].

    The callers need no identity.  Callbacks that call back into the variable
    they hang on are not modelled (they would block).  [updates], and of a
    callback [delivered], [initial] and [since], are ghost: all updates, the
    invocations, the invocation [OnUpdate] owes, and the number of updates
    before the callback was registered. *)

From stdpp Require Import relations.
From S2P Require Import Prelude.

#[local] Arguments wrap : simpl never.

Section Variable_.
Context {V : Type} `{EqDecision V} (zero : V).
Variable transformationFunc : V → V → V.

(** Who holds the [executionMutex]. *)
Inductive holder : Type := Free | Subscriber | Writer.

#[global] Instance holder_eq_dec : EqDecision holder.
Proof. solve_decision. Defined.

Record callback : Type := mkCallback {
  unsubscribed : bool;
  lastUpdate : Z;
  mutex : holder;
  delivered : list (V * V);
  initial : list (V * V);
  since : nat;
}.

Definition newCallback (i : list (V * V)) (n : nat) : callback := mkCallback false 0 Free [] i n.

(** [LockExecution] of a callback whose mutex is free. *)
Definition LockExecution (h : holder) (updateID : Z) (c : callback) : callback * bool :=
  if unsubscribed c || (negb (updateID =? 0) && (updateID =? lastUpdate c)) then (c, false)
  else (mkCallback (unsubscribed c) updateID h (delivered c) (initial c) (since c), true).

(** [Invoke] followed by [UnlockExecution]. *)
Definition invoke (l : list (V * V)) (c : callback) : callback :=
  mkCallback (unsubscribed c) (lastUpdate c) Free (delivered c ++ l) (initial c) (since c).

Definition MarkUnsubscribed (c : callback) : callback :=
  mkCallback true (lastUpdate c) (mutex c) (delivered c) (initial c) (since c).

(** Where the running [Compute] stands. *)
Inductive writer_pc : Type :=
  | WIdle
  | WNotify (prev new : V) (id : Z) (callbacks : list nat)              (* at the loop *)
  | WInvoke (prev new : V) (id : Z) (cb : nat) (callbacks : list nat).  (* has locked [cb] *)

Record variable : Type := mkVariable {
  value : V;
  uniqueUpdateID : Z;
  registeredCallbacks : list nat;
  heap : list callback;
  writer : writer_pc;
  updates : list (V * V);
}.

Definition newVariable : variable := mkVariable zero 0 [] [] WIdle [].

(** [updateValue], and with it the start of [Compute]. *)
Definition updateValue (f : V → V) (v : variable) : variable :=
  let newValue := transformationFunc (value v) (f (value v)) in
  if decide (newValue = value v) then
    mkVariable (value v) (uniqueUpdateID v) (registeredCallbacks v) (heap v)
      (WNotify (value v) newValue 0 []) (updates v)
  else
    let id := wrap U64 (uniqueUpdateID v + 1) in
    mkVariable newValue id (registeredCallbacks v) (heap v)
      (WNotify (value v) newValue id (registeredCallbacks v)) (updates v ++ [(value v, newValue)]).

Definition set_writer (w : writer_pc) (h : list callback) (v : variable) : variable :=
  mkVariable (value v) (uniqueUpdateID v) (registeredCallbacks v) h w (updates v).

(** The callback gets [OnUpdate]'s invocation when the value is not the zero
    value or it is asked for. *)
Definition initial_update (v : V) (triggerWithInitialZeroValue : bool) : list (V * V) :=
  if negb (bool_decide (v = zero)) || triggerWithInitialZeroValue then [(zero, v)] else [].

(** The critical section of [OnUpdate]. *)
Definition OnUpdate_register (triggerWithInitialZeroValue : bool) (v : variable) : variable :=
  let c := newCallback (initial_update (value v) triggerWithInitialZeroValue) (length (updates v)) in
  mkVariable (value v) (uniqueUpdateID v) (registeredCallbacks v ++ [length (heap v)])
    (heap v ++ [(LockExecution Subscriber (uniqueUpdateID v) c).1]) (writer v) (updates v).

Definition unsubscribe_remove (cb : nat) (v : variable) : variable :=
  mkVariable (value v) (uniqueUpdateID v) (filter (λ c, c ≠ cb) (registeredCallbacks v)) (heap v)
    (writer v) (updates v).

Inductive step : variable → variable → Prop :=
  (* [Compute] *)
  | compute_start v f : writer v = WIdle → step v (updateValue f v)
  | compute_lock v prev new id cb rest c :
      writer v = WNotify prev new id (cb :: rest) → heap v !! cb = Some c → mutex c = Free →
      step v (let '(c', locked) := LockExecution Writer id c in
              set_writer (if locked then WInvoke prev new id cb rest else WNotify prev new id rest)
                (<[cb:=c']> (heap v)) v)
  | compute_invoke v prev new id cb rest :
      writer v = WInvoke prev new id cb rest →
      step v (set_writer (WNotify prev new id rest) (alter (invoke [(prev, new)]) cb (heap v)) v)
  | compute_return v prev new id :
      writer v = WNotify prev new id [] → step v (set_writer WIdle (heap v) v)
  (* [OnUpdate] *)
  | onupdate_register v trigger : step v (OnUpdate_register trigger v)
  | onupdate_invoke v cb c :
      heap v !! cb = Some c → mutex c = Subscriber →
      step v (set_writer (writer v) (<[cb:=invoke (initial c) c]> (heap v)) v)
  (* the function that [OnUpdate] returns *)
  | unsubscribe_first v cb : step v (unsubscribe_remove cb v)
  | unsubscribe_second v cb c :
      cb ∉ registeredCallbacks v → heap v !! cb = Some c → mutex c = Free →
      step v (set_writer (writer v) (<[cb:=MarkUnsubscribed c]> (heap v)) v).

Definition reachable (v : variable) : Prop := rtc step newVariable v.

(** ** The invariant *)

(** A sequence of updates in which each starts at the value the one before ends at. *)
Fixpoint chained (x : V) (l : list (V * V)) (y : V) : Prop :=
  match l with
  | [] => x = y
  | (p, n) :: l => p = x ∧ chained n l y
  end.

Lemma chained_app x l l' y : chained x (l ++ l') y ↔ ∃ z, chained x l z ∧ chained z l' y.
Proof using.
  revert x. induction l as [|[p n] l IH]; intros x; cbn.
  - split; [by exists x|by intros (z & -> & ?)].
  - rewrite IH. split; [intros (-> & z & ? & ?); by exists z|intros (z & (-> & ?) & ?); split; [done|by exists z]].
Qed.

(** The callbacks that the running [Compute] still has to invoke. *)
Definition awaiting (v : variable) : list nat :=
  match writer v with
  | WIdle => []
  | WNotify _ _ _ rest => rest
  | WInvoke _ _ _ cb rest => cb :: rest
  end.

(** The callback has been invoked for [k] updates since it was registered. *)
Definition got (us : list (V * V)) (c : callback) (k : nat) : Prop :=
  (since c + k ≤ length us)%nat ∧
  delivered c = (if decide (mutex c = Subscriber) then [] else initial c) ++ take k (drop (since c) us).

Record cb_ok (v : variable) (cb : nat) (c : callback) (k : nat) : Prop := {
  cb_got : got (updates v) c k;
  cb_subscriber : mutex c = Subscriber → k = 0%nat ∧ unsubscribed c = false;
  cb_awaiting : unsubscribed c = false → cb ∈ awaiting v → (since c + k + 1)%nat = length (updates v);
  cb_current : cb ∈ registeredCallbacks v → cb ∉ awaiting v → (since c + k)%nat = length (updates v);
  cb_unsubscribed : unsubscribed c = true → cb ∉ registeredCallbacks v;
  cb_writer : mutex c = Writer ↔ ∃ p n id rest, writer v = WInvoke p n id cb rest;
  cb_writing : mutex c = Writer → lastUpdate c = uniqueUpdateID v ∧ unsubscribed c = false;
  cb_last : unsubscribed c = false → mutex c ≠ Writer →
    cb ∈ registeredCallbacks v ∨ cb ∈ awaiting v → lastUpdate c = wrap U64 (Z.of_nat (since c + k));
  cb_initial : ∃ x trigger, chained zero (take (since c) (updates v)) x ∧ initial c = initial_update x trigger;
}.

(** What the running [Compute] tells its callbacks is the last update. *)
Definition notifies (v : variable) : Prop :=
  awaiting v ≠ [] →
  match writer v with
  | WNotify p n id _ | WInvoke p n id _ _ =>
      id = uniqueUpdateID v ∧ last (updates v) = Some (p, n)
  | WIdle => True
  end.

Record inv (v : variable) : Prop := {
  inv_chain : chained zero (updates v) (value v);
  inv_id : uniqueUpdateID v = wrap U64 (Z.of_nat (length (updates v)));
  inv_nodup : NoDup (registeredCallbacks v);
  inv_awaiting : NoDup (awaiting v);
  inv_known cb : cb ∈ registeredCallbacks v ++ awaiting v → (cb < length (heap v))%nat;
  inv_notifies : notifies v;
  inv_cb cb c : heap v !! cb = Some c → ∃ k, cb_ok v cb c k;
}.

Lemma got_app us u c k : got us c k → got (us ++ [u]) c k.
Proof.
  intros [Hle E]. split; [rewrite length_app; lia|]. rewrite E. f_equal.
  rewrite drop_app_le by lia. rewrite take_app_le; [done|]. rewrite length_drop. lia.
Qed.

Lemma updateValue_inv f v : writer v = WIdle → inv v → inv (updateValue f v).
Proof.
  intros Hw []. assert (awaiting v = []) as Haw by (unfold awaiting; by rewrite Hw).
  unfold updateValue. case_decide as E.
  - split; try done; cbn; [constructor| |].
    + intros cb. rewrite app_nil_r. intros ?. apply inv_known0. rewrite Haw, app_nil_r. done.
    + intros cb c Hc. destruct (inv_cb0 cb c Hc) as [k Hk]. exists k. destruct Hk. rewrite Haw, Hw in *.
      split; try done; cbn. rewrite cb_writer0. naive_solver.
  - split; cbn.
    + rewrite chained_app. by exists (value v).
    + rewrite inv_id0, wrap_add, length_app. f_equal. cbn. lia.
    + done.
    + done.
    + intros cb. rewrite elem_of_app. intros [?|?]; apply inv_known0, elem_of_app; by left.
    + intros _. cbn. split; [done|]. by rewrite last_snoc.
    + intros cb c Hc. destruct (inv_cb0 cb c Hc) as [k Hk]. exists k. destruct Hk. rewrite Haw, Hw in *.
      assert (mutex c ≠ Writer) as Hm. { intros ?%cb_writer0. naive_solver. }
      split; cbn; unfold awaiting; cbn; try done.
      * by apply got_app.
      * intros _ Hr. rewrite length_app, <-(cb_current0 Hr); [done|by apply not_elem_of_nil].
      * naive_solver.
      * intros Hu Hm' Hr. apply cb_last0; naive_solver.
      * destruct cb_initial0 as (x & t & Hx & Hi). exists x, t. split; [|done].
        destruct cb_got0 as [Hle _]. by rewrite take_app_le by lia.
Qed.

(** The [Compute] that runs has locked the callback. *)
Definition invokes (w : writer_pc) (cb : nat) : Prop := ∃ p n id rest, w = WInvoke p n id cb rest.

(** The writer moves on; a callback that it neither had locked nor locks is not
    concerned when it awaits the update as before. *)
Lemma cb_ok_next v w h cb c k :
  (cb ∈ awaiting (set_writer w h v) ↔ cb ∈ awaiting v) →
  ¬ invokes (writer v) cb → ¬ invokes w cb →
  cb_ok v cb c k → cb_ok (set_writer w h v) cb c k.
Proof.
  intros Ha Hw Hw' []. unfold invokes in *. split; try done; cbn [writer set_writer]; rewrite ?Ha; try done. tauto.
Qed.

Lemma compute_lock_inv v p n id cb rest c :
  writer v = WNotify p n id (cb :: rest) → heap v !! cb = Some c → mutex c = Free → inv v →
  inv (let '(c', locked) := LockExecution Writer id c in
       set_writer (if locked then WInvoke p n id cb rest else WNotify p n id rest) (<[cb:=c']> (heap v)) v).
Proof.
  intros Hw Hc Hm Hi. pose proof Hi as []. assert (awaiting v = cb :: rest) as Haw by (unfold awaiting; by rewrite Hw).
  destruct (inv_cb0 cb c Hc) as [k Hk]. pose proof Hk as [].
  assert (notifies v) as Hn by done. unfold notifies in Hn. rewrite Haw, Hw in Hn. destruct Hn as [-> Hl]; [done|].
  assert (NoDup rest ∧ cb ∉ rest) as [Hnd Hnin] by (rewrite Haw in *; split; by apply NoDup_cons in inv_awaiting0 as [? ?]).
  assert (cb < length (heap v))%nat as Hlt by (by eapply lookup_lt_Some).
  unfold LockExecution. destruct (unsubscribed c) eqn:Hu; cbn.
  - (* it was unsubscribed: skip it *)
    split; unfold notifies, awaiting; cbn; try done.
    + intros cb'. rewrite length_insert. intros ?. apply inv_known0. rewrite Haw. set_solver.
    + intros cb' c' Hc'. rewrite list_insert_id in Hc' by done.
      destruct (decide (cb' = cb)) as [->|Hne].
      * assert (c' = c) as -> by congruence. exists k. split; try done; cbn.
        -- by rewrite Hm.
        -- intros Hr. by destruct (cb_unsubscribed0 eq_refl).
        -- intros _. by apply cb_unsubscribed0.
        -- rewrite Hm. naive_solver.
        -- by rewrite Hm.
        -- congruence.
      * destruct (inv_cb0 cb' c' Hc') as [k' Hk']. exists k'.
        apply cb_ok_next; [unfold awaiting; cbn; rewrite Hw; set_solver|rewrite Hw; by intros (? & ? & ? & ? & ?)| |done].
        by intros (? & ? & ? & ? & ?).
  - assert (lastUpdate c ≠ uniqueUpdateID v) as Hlast.
    { rewrite (cb_last0 eq_refl) by (rewrite ?Hm, ?Haw; set_solver). rewrite inv_id0, <-(cb_awaiting0 eq_refl) by (rewrite Haw; set_solver).
      intros E. apply (wrap_succ_ne U64 (Z.of_nat (since c + k))). rewrite E. f_equal. lia. }
    replace (uniqueUpdateID v =? lastUpdate c) with false by (symmetry; apply Z.eqb_neq; congruence).
    rewrite andb_false_r. cbn.
    split; unfold notifies, awaiting; cbn; try done.
    + by rewrite Haw in inv_awaiting0.
    + intros cb'. rewrite length_insert. intros ?. apply inv_known0. by rewrite Haw.
    + intros cb' c' Hc'. destruct (decide (cb' = cb)) as [->|Hne].
      * rewrite list_lookup_insert_eq in Hc' by done. injection Hc' as <-. exists k. split; try done; cbn.
        -- destruct cb_got0 as [Hle E]. split; [done|]. cbn. rewrite E. by rewrite Hm.
        -- intros _ _. apply (cb_awaiting0 eq_refl). rewrite Haw. set_solver.
        -- intros Hr Hni. destruct Hni. set_solver.
        -- split; [intros _; by repeat eexists|done].
      * rewrite list_lookup_insert_ne in Hc' by done.
        destruct (inv_cb0 cb' c' Hc') as [k' Hk']. exists k'.
        apply cb_ok_next; [unfold awaiting; cbn; rewrite Hw; set_solver|rewrite Hw; by intros (? & ? & ? & ? & ?)| |done].
        intros (? & ? & ? & ? & ?). congruence.
Qed.

Lemma take_drop_last us (k s : nat) (u : V * V) :
  (s + k + 1)%nat = length us → last us = Some u → take (k + 1) (drop s us) = take k (drop s us) ++ [u].
Proof.
  intros Hl Hu. rewrite last_lookup in Hu. rewrite Nat.add_1_r. apply take_S_r.
  rewrite lookup_drop. rewrite <-Hu. f_equal. lia.
Qed.

Lemma compute_invoke_inv v p n id cb rest :
  writer v = WInvoke p n id cb rest → inv v →
  inv (set_writer (WNotify p n id rest) (alter (invoke [(p, n)]) cb (heap v)) v).
Proof.
  intros Hw Hi. pose proof Hi as []. assert (awaiting v = cb :: rest) as Haw by (unfold awaiting; by rewrite Hw).
  assert (notifies v) as Hn by done. unfold notifies in Hn. rewrite Haw, Hw in Hn. destruct Hn as [-> Hl]; [done|].
  assert (NoDup rest ∧ cb ∉ rest) as [Hnd Hnin] by (rewrite Haw in *; split; by apply NoDup_cons in inv_awaiting0 as [? ?]).
  split; unfold notifies, awaiting; cbn; try done.
  - intros cb'. rewrite length_alter. intros ?. apply inv_known0. rewrite Haw. set_solver.
  - intros cb' c' Hc'. destruct (decide (cb' = cb)) as [->|Hne].
    + rewrite list_lookup_alter_eq in Hc'. apply fmap_Some in Hc' as (c & Hc & ->).
      destruct (inv_cb0 cb c Hc) as [k []]. exists (k + 1)%nat.
      assert (mutex c = Writer) as Hm by (apply cb_writer0; by repeat eexists).
      destruct (cb_writing0 Hm) as [El Hu].
      assert (since c + k + 1 = length (updates v))%nat as Hk by (apply cb_awaiting0; [done|rewrite Haw; set_solver]).
      split; unfold got; cbn; try done.
      * split; [lia|]. destruct cb_got0 as [_ ->]. rewrite Hm. cbn.
        by rewrite (take_drop_last _ _ _ _ Hk Hl), app_assoc.
      * intros _ _. lia.
      * split; [done|]. by intros (? & ? & ? & ? & ?).
      * intros _ _ _. rewrite El, inv_id0, <-Hk. do 2 f_equal. lia.
    + rewrite list_lookup_alter_ne in Hc' by done. destruct (inv_cb0 cb' c' Hc') as [k' Hk']. exists k'.
      apply cb_ok_next; [unfold awaiting; cbn; rewrite Hw; set_solver|rewrite Hw| |done].
      * intros (? & ? & ? & ? & ?). congruence.
      * by intros (? & ? & ? & ? & ?).
Qed.

(** A callback that the step does not touch, in an unchanged list. *)
Lemma cb_ok_same v v' cb c k :
  updates v' = updates v → uniqueUpdateID v' = uniqueUpdateID v →
  (cb ∈ registeredCallbacks v' ↔ cb ∈ registeredCallbacks v) →
  awaiting v' = awaiting v → (invokes (writer v') cb ↔ invokes (writer v) cb) →
  cb_ok v cb c k → cb_ok v' cb c k.
Proof.
  intros Eu Ei Er Ea Ew []. unfold invokes in *. split; rewrite ?Eu, ?Ei, ?Er, ?Ea, ?Ew; done.
Qed.

Lemma compute_return_inv v p n id :
  writer v = WNotify p n id [] → inv v → inv (set_writer WIdle (heap v) v).
Proof.
  intros Hw []. assert (awaiting v = []) as Haw by (unfold awaiting; by rewrite Hw). rewrite Haw in *.
  split; unfold notifies, awaiting; cbn; try done.
  intros cb c Hc. destruct (inv_cb0 cb c Hc) as [k Hk]. exists k.
  eapply cb_ok_same; [..|exact Hk]; try done. rewrite Hw. split; by intros (? & ? & ? & ? & ?).
Qed.

Lemma onupdate_register_inv t v : inv v → inv (OnUpdate_register t v).
Proof.
  intros []. assert (∀ cb, cb ∈ registeredCallbacks v ++ awaiting v → cb ≠ length (heap v)) as Hne.
  { intros cb Hcb%inv_known0 ->. lia. }
  unfold OnUpdate_register. split; try done; cbn.
  - apply NoDup_app. split_and!; [done| |apply NoDup_singleton].
    intros cb Hcb ->%list_elem_of_singleton. apply (Hne (length (heap v))); [apply elem_of_app; by left|done].
  - intros cb. rewrite length_app. cbn. rewrite !elem_of_app, list_elem_of_singleton.
    intros [[Hcb| ->]|Hcb]; [|lia|]; apply Nat.lt_lt_add_r, inv_known0, elem_of_app; [by left|by right].
  - intros cb c [Hc|[-> ->]]%lookup_snoc_Some.
    + destruct (inv_cb0 cb c Hc) as [k Hk]. exists k. apply lookup_lt_Some in Hc.
      eapply cb_ok_same; [..|exact Hk]; try done. cbn. rewrite elem_of_app, list_elem_of_singleton. intuition lia.
    + exists 0%nat.
      assert ((LockExecution Subscriber (uniqueUpdateID v)
        (newCallback (initial_update (value v) t) (length (updates v)))).1 =
        mkCallback false (uniqueUpdateID v) Subscriber [] (initial_update (value v) t) (length (updates v))) as ->.
      { unfold LockExecution. cbn. destruct (Z.eqb_spec (uniqueUpdateID v) 0); done. }
      assert (length (heap v) ∉ awaiting v) as Hna.
      { intros Hin. apply (Hne (length (heap v))); [apply elem_of_app; by right|done]. }
      split; cbn; try done.
      * split; cbn; [lia|]. done.
      * split; [done|]. intros (p & n & id & rest & Hw). destruct Hna. unfold awaiting. rewrite Hw. set_solver.
      * intros _ _ _. rewrite inv_id0. do 2 f_equal. lia.
      * exists (value v), t. split; [|done]. by rewrite firstn_all.
Qed.

Lemma onupdate_invoke_inv v cb c :
  heap v !! cb = Some c → mutex c = Subscriber → inv v →
  inv (set_writer (writer v) (<[cb:=invoke (initial c) c]> (heap v)) v).
Proof.
  intros Hc Hm []. split; try done; cbn.
  - intros cb' Hcb'. rewrite length_insert. by apply inv_known0.
  - intros cb' c' Hc'. destruct (decide (cb' = cb)) as [->|Hne].
    + rewrite list_lookup_insert_eq in Hc' by (by eapply lookup_lt_Some). injection Hc' as <-.
      destruct (inv_cb0 cb c Hc) as [k []]. destruct (cb_subscriber0 Hm) as [-> Hu]. exists 0%nat.
      split; cbn; try done.
      * destruct cb_got0 as [Hle E]. rewrite Hm in E. split; cbn; [done|]. rewrite E, take_0, !app_nil_r.
        by rewrite decide_True, decide_False.
      * rewrite <-cb_writer0, Hm. done.
      * intros Hu' _ Hr. apply cb_last0; [done|by rewrite Hm|done].
    + rewrite list_lookup_insert_ne in Hc' by done. destruct (inv_cb0 cb' c' Hc') as [k Hk]. exists k.
      by eapply cb_ok_same; [..|exact Hk].
Qed.

Lemma unsubscribe_remove_inv v cb : inv v → inv (unsubscribe_remove cb v).
Proof.
  intros []. split; try done; cbn.
  - by apply NoDup_filter.
  - intros cb' Hcb'. apply inv_known0. revert Hcb'. rewrite !elem_of_app, list_elem_of_filter. tauto.
  - intros cb' c' Hc'. destruct (inv_cb0 cb' c' Hc') as [k []]. exists k.
    assert (∀ P, (cb' ∈ filter (λ c, c ≠ cb) (registeredCallbacks v) → P) ↔
      (cb' ≠ cb ∧ cb' ∈ registeredCallbacks v → P)) as Hf by (intros P; by rewrite list_elem_of_filter).
    split; try done; cbn.
    + rewrite list_elem_of_filter. tauto.
    + intros Hu. rewrite list_elem_of_filter. specialize (cb_unsubscribed0 Hu). tauto.
    + intros Hu Hm. rewrite list_elem_of_filter. specialize (cb_last0 Hu Hm). tauto.
Qed.

Lemma unsubscribe_mark_inv v cb c :
  cb ∉ registeredCallbacks v → heap v !! cb = Some c → mutex c = Free → inv v →
  inv (set_writer (writer v) (<[cb:=MarkUnsubscribed c]> (heap v)) v).
Proof.
  intros Hr Hc Hm []. split; try done; cbn.
  - intros cb' Hcb'. rewrite length_insert. by apply inv_known0.
  - intros cb' c' Hc'. destruct (decide (cb' = cb)) as [->|Hne].
    + rewrite list_lookup_insert_eq in Hc' by (by eapply lookup_lt_Some). injection Hc' as <-.
      destruct (inv_cb0 cb c Hc) as [k []]. exists k. split; cbn; try done; rewrite Hm; done.
    + rewrite list_lookup_insert_ne in Hc' by done. destruct (inv_cb0 cb' c' Hc') as [k Hk]. exists k.
      by eapply cb_ok_same; [..|exact Hk].
Qed.

Lemma step_inv_variable v v' : inv v → step v v' → inv v'.
Proof.
  intros Hi Hstep. destruct Hstep; eauto using updateValue_inv, compute_lock_inv, compute_invoke_inv,
    compute_return_inv, onupdate_register_inv, onupdate_invoke_inv, unsubscribe_remove_inv, unsubscribe_mark_inv.
Qed.

Lemma inv_reachable_variable v : reachable v → inv v.
Proof.
  intros Hr. refine (rtc_ind_r (R := step) inv newVariable _ _ v Hr).
  - split; cbn; try done; try constructor. intros cb ?%elem_of_nil. done.
  - intros y z _ Hstep Hi. by eapply step_inv_variable.
Qed.

(** ** What subscribers see *)

Lemma initial_chained x t : chained zero (initial_update x t) x.
Proof. unfold initial_update. case_bool_decide; [subst; by destruct t|done]. Qed.

Lemma chained_take x l y k : chained x l y → ∃ z, chained x (take k l) z.
Proof using. intros Hc. rewrite <-(take_drop k l) in Hc. apply chained_app in Hc as (z & Hz & _). by exists z. Qed.

Lemma chained_drop x l y z k : chained x l y → chained x (take k l) z → chained z (drop k l) y.
Proof using.
  revert x k. induction l as [|[p n] l IH]; intros x [|k] Hl Hk; cbn in *; try (by subst).
  destruct Hl as [-> Hl], Hk as [_ Hk]. by apply (IH n).
Qed.

(** The callback has nothing to come: the running [Compute] does not have it on
    its list, and the initial invocation was made. *)
Definition settled (v : variable) (cb : nat) (c : callback) : Prop :=
  cb ∉ awaiting v ∧ mutex c ≠ Subscriber.

(** C6: Subscribers of a reactive variable see every change once and in order.
    However calls of [Compute] (so [Set], [DefaultTo], [ToggleValue]), [OnUpdate]
    and of the functions that unsubscribe are interleaved, the updates of a
    variable form a chain from the zero value to its value; each callback has
    been invoked for the initial value and then for consecutive updates from its
    registration on, so what it has been told is a chain of changes from the
    zero value; and a registered callback for which nothing is under way has
    been told all of them, up to the current value. *)
Theorem Variable_subscribers v cb c :
  reachable v → heap v !! cb = Some c →
  chained zero (updates v) (value v) ∧
  (∃ k, delivered c =
    (if decide (mutex c = Subscriber) then [] else initial c) ++ take k (drop (since c) (updates v))) ∧
  (∃ y, chained zero (delivered c) y) ∧
  (cb ∈ registeredCallbacks v → settled v cb c →
    delivered c = initial c ++ drop (since c) (updates v) ∧ chained zero (delivered c) (value v)).
Proof.
  intros Hi%inv_reachable_variable Hc. destruct Hi. destruct (inv_cb0 cb c Hc) as [k []].
  destruct cb_got0 as [Hle E]. destruct cb_initial0 as (x & t & Hx & Ei).
  pose proof (chained_drop _ _ _ _ _ inv_chain0 Hx) as Hd. split_and!; [done|by exists k| |].
  - destruct (chained_take _ _ _ k Hd) as [y Hy]. rewrite E. case_decide as Hm.
    + destruct (cb_subscriber0 Hm) as [-> _]. rewrite take_0. by exists zero.
    + exists y. apply chained_app. exists x. rewrite Ei. split; [apply initial_chained|done].
  - intros Hr [Ha Hm]. specialize (cb_current0 Hr Ha).
    rewrite decide_False, take_ge in E by (rewrite ?length_drop; done || lia). split; [done|].
    rewrite E. apply chained_app. exists x. rewrite Ei. split; [apply initial_chained|done].
Qed.

(** Only changes are updates, and what they change to comes from the
    transformation function. *)
Lemma updates_transformed v :
  reachable v → Forall (λ u, u.1 ≠ u.2 ∧ ∃ y, u.2 = transformationFunc u.1 y) (updates v).
Proof.
  intros Hr. refine (rtc_ind_r (R := step)
    (λ v, Forall (λ u, u.1 ≠ u.2 ∧ ∃ y, u.2 = transformationFunc u.1 y) (updates v)) newVariable _ _ v Hr).
  - constructor.
  - intros y z _ Hstep Hi. destruct Hstep; cbn; try done.
    + unfold updateValue. case_decide; cbn; [done|]. apply Forall_app. split; [done|].
      apply Forall_singleton. cbn. split; [congruence|by eexists].
    + by destruct (LockExecution _ _ _).
Qed.

End Variable_.

(** ** Events

    [event_impl.go]: a variable of type [bool] that stays true. *)

Section Event_.

Definition event_transformation (currentValue newValue : bool) : bool := currentValue || newValue.

Notation event_reachable := (reachable false event_transformation).

(** [Trigger] is [Set(true)]; it answers whether the value was false before. *)
Definition Trigger (e : variable) : variable * bool :=
  (updateValue event_transformation (λ _, true) e, negb (value e)).

Lemma event_updates (e : variable) :
  event_reachable e → updates e = if value e then [(false, true)] else [].
Proof.
  intros Hr. pose proof (updates_transformed _ _ e Hr) as Hf. pose proof (inv_chain _ _ (inv_reachable_variable _ _ _ Hr)) as Hc.
  destruct (updates e) as [|[p n] us]; cbn in Hc; [by rewrite <-Hc|]. destruct Hc as [-> Hc].
  apply Forall_cons in Hf as [[Hn _] Hf]. destruct n; [|done]. destruct us as [|[p' n'] us]; cbn in Hc; [by rewrite <-Hc|].
  destruct Hc as [-> Hc]. apply Forall_cons in Hf as [[Hn' [y Hy]] _]. cbn in *. congruence.
Qed.

(** An event is triggered once.  Its handlers (which [OnTrigger] registers
    without asking for a call with the zero value) are invoked at most once, only
    when the event was triggered, and, once nothing is under way, every
    registered one was invoked whether it was registered before or after. *)
Lemma Event_handlers_once e cb c :
  event_reachable e → heap e !! cb = Some c → initial c ≠ [(false, false)] →
  (delivered c = [] ∨ delivered c = [(false, true)] ∧ value e = true) ∧
  (cb ∈ registeredCallbacks e → settled e cb c → value e = true → delivered c = [(false, true)]).
Proof.
  intros Hr Hc Hi. pose proof (inv_reachable_variable _ _ _ Hr) as Hinv.
  destruct (inv_cb _ _ Hinv cb c Hc) as [k []]. destruct cb_initial0 as (x & t & Hx & Ei). destruct cb_got0 as [_ E].
  rewrite (event_updates e Hr) in *.
  assert (initial c = if x then [(false, true)] else []) as Ei'.
  { rewrite Ei in *. destruct x, t; done. }
  assert (x = true → drop (since c) (if value e then [(false, true)] else []) = []) as Hd.
  { intros ->. destruct (since c); [done|]. by destruct (value e), n. }
  assert (x = false → value e = true → since c = 0%nat) as Hs.
  { intros -> He. rewrite He in Hx. destruct (since c); [done|]. cbn in Hx. rewrite take_nil in Hx. by destruct Hx. }
  assert (x = true → value e = true) as Hxv.
  { intros ->. destruct (value e); [done|]. rewrite take_nil in Hx. done. }
  split.
  - rewrite E. case_decide as Hm.
    + left. destruct (cb_subscriber0 Hm) as [-> _]. done.
    + rewrite Ei'. destruct x; [rewrite Hd, take_nil by done; by right; split; [|apply Hxv]|].
      destruct (value e) eqn:He; [|left; by rewrite drop_nil, take_nil].
      rewrite (Hs eq_refl eq_refl). destruct k; [by left|right]. by rewrite drop_0; cbn; rewrite take_nil.
  - intros Hreg [Ha Hm] He. specialize (cb_current0 Hreg Ha). rewrite E, decide_False by done. rewrite He in *. rewrite Ei'.
    destruct x; [by rewrite Hd, take_nil|]. rewrite (Hs eq_refl eq_refl) in *. cbn in *. by subst.
Qed.

End Event_.

(** ** A run: a callback is registered and the value is set *)

Definition told (id : Z) (l : list (Z * Z)) : callback (V := Z) := mkCallback false id Free l [(0, 0)] 0.

Definition watched : variable := mkVariable 5 1 [0%nat] [told 1 [(0, 0); (0, 5)]] WIdle [(0, 5)].

Lemma watched_reachable : reachable 0 (λ _ n, n) watched.
Proof.
  eapply rtc_l; [apply (onupdate_register _ _ _ true)|].
  eapply rtc_l; [by eapply (onupdate_invoke _ _ _ 0)|].
  eapply rtc_l; [by apply (compute_start _ _ _ (λ _, 5))|].
  eapply rtc_l; [by eapply (compute_lock _ _ _ 0 5 1 0 [])|].
  eapply rtc_l; [by eapply (compute_invoke _ _ _ 0 5 1 0 [])|].
  eapply rtc_l; [by eapply (compute_return _ _ _ 0 5 1)|]. apply rtc_refl.
Qed.

Lemma Variable_subscribers_witness :
  delivered (told 1 [(0, 0); (0, 5)]) = [(0, 0)] ++ drop 0 [(0, 5)].
Proof.
  destruct (Variable_subscribers 0 (λ _ n, n) watched 0 _ watched_reachable eq_refl) as (_ & _ & _ & H).
  apply H; [by apply list_elem_of_singleton|]. split; [by apply not_elem_of_nil|done].
Defined.

Definition handled : callback (V := bool) := mkCallback false 1 Free [(false, true)] [(false, true)] 1.

(** A handler that is registered after the event was triggered. *)
Definition late : variable := mkVariable true 1 [0%nat] [handled] WIdle [(false, true)].

Lemma late_reachable : reachable false event_transformation late.
Proof.
  eapply rtc_l; [by apply (compute_start _ _ _ (λ _, true))|].
  eapply rtc_l; [by eapply (compute_return _ _ _ false true 1)|].
  eapply rtc_l; [apply (onupdate_register _ _ _ false)|].
  eapply rtc_l; [by eapply (onupdate_invoke _ _ _ 0)|]. apply rtc_refl.
Qed.

Lemma Event_handlers_once_witness : delivered handled = [(false, true)].
Proof.
  destruct (Event_handlers_once late 0 handled late_reachable eq_refl ltac:(done)) as [_ H].
  apply H; [by apply list_elem_of_singleton| |done]. split; [by apply not_elem_of_nil|done].
Defined.
