(* ===== verification/Reactive.v ===== *)
(** * ds/reactive: what is built on the updates of variables

    [Observable] is what a variable promises to one of its subscribers: a step
    may invoke the callback with a new value, and when nothing is under way for
    the callback, the value it was invoked with last is the current one.
    Variables with a registered callback are observable (by ReactiveVariable.v),
    and so is a pair of observables, whose callbacks see the new value of the one
    and read the other with [Get].

    Against the interface: derived variables ([NewDerivedVariable] and its
    versions for several inputs, [InheritFrom]), [OnUpdateWithContext] with
    [WithValue] and [WithNonEmptyValue], and counters. *)

From stdpp Require Import relations.
From S2P Require Import Prelude ReactiveVariable.

Class Observable (S V : Type) : Type := {
  ob_ok : S → Prop;
  ob_value : S → V;                     (* [Get] *)
  ob_pending : S → Prop;                (* an invocation is due *)
  ob_step : S → option V → S → Prop;    (* a step, with the value of an invocation *)
  ob_ok_step s l s' : ob_ok s → ob_step s l s' → ob_ok s';
  ob_invoked s n s' : ob_ok s → ob_step s (Some n) s' → ¬ ob_pending s' → ob_value s' = n;
  ob_silent s s' : ob_ok s → ob_step s None s' → ¬ ob_pending s' →
    ¬ ob_pending s ∧ ob_value s' = ob_value s;
}.

(** ** A variable with a callback *)

Section Watched.
Context {V : Type} `{EqDecision V} (zero : V) (transformationFunc : V → V → V).

#[local] Notation step := (step zero transformationFunc).

(** The callback is registered and [OnUpdate] was asked to trigger it with the
    zero value, too. *)
Record watched_by (cb : nat) (v : variable (V := V)) : Prop := {
  wb_inv : inv zero v;
  wb_registered : cb ∈ registeredCallbacks v;
  wb_initial c : heap v !! cb = Some c → ∃ x, initial c = [(zero, x)];
}.

Definition pending (cb : nat) (v : variable (V := V)) : Prop :=
  ∃ c, heap v !! cb = Some c ∧ ¬ settled v cb c.

(** A step, labelled with the new value when it invokes the callback. *)
Definition watched_step (cb : nat) (v : variable) (l : option V) (v' : variable) : Prop :=
  step v v' ∧ cb ∈ registeredCallbacks v' ∧
  ∃ c c', heap v !! cb = Some c ∧ heap v' !! cb = Some c' ∧
    delivered c' = match l with
                   | None => delivered c
                   | Some n => delivered c ++ [(match last (delivered c) with Some u => u.2 | None => zero end, n)]
                   end.

(** A step keeps what was registered with a callback, and adds to the updates. *)
Lemma step_keeps v v' cb c :
  step v v' → heap v !! cb = Some c →
  ∃ c', heap v' !! cb = Some c' ∧ since c' = since c ∧ initial c' = initial c ∧
    (length (updates v) ≤ length (updates v'))%nat.
Proof.
  intros Hst Hc. destruct Hst as [v f Hw|v p n id cb' rest c0 Hw Hc0 Hm|v p n id cb' rest Hw|v p n id Hw|v t|
    v cb' c0 Hc0 Hm|v cb'|v cb' c0 Hr Hc0 Hm]; cbn.
  - unfold updateValue. case_decide; cbn; exists c; rewrite ?length_app; split_and!; done || lia.
  - unfold LockExecution. destruct (_ || _); cbn.
    + rewrite list_insert_id by done. by exists c.
    + destruct (decide (cb' = cb)) as [->|Hne].
      * rewrite list_lookup_insert_eq by (by eapply lookup_lt_Some). eexists. split; [done|].
        by replace c0 with c by congruence.
      * rewrite list_lookup_insert_ne by done. by exists c.
  - destruct (decide (cb' = cb)) as [->|Hne].
    + rewrite list_lookup_alter_eq, Hc. eexists. split; [done|]. done.
    + rewrite list_lookup_alter_ne by done. by exists c.
  - by exists c.
  - exists c. rewrite lookup_app_l by (by eapply lookup_lt_Some). done.
  - destruct (decide (cb' = cb)) as [->|Hne].
    + rewrite list_lookup_insert_eq by (by eapply lookup_lt_Some). eexists. split; [done|].
      by replace c0 with c by congruence.
    + rewrite list_lookup_insert_ne by done. by exists c.
  - by exists c.
  - destruct (decide (cb' = cb)) as [->|Hne].
    + rewrite list_lookup_insert_eq by (by eapply lookup_lt_Some). eexists. split; [done|].
      by replace c0 with c by congruence.
    + rewrite list_lookup_insert_ne by done. by exists c.
Qed.

Lemma chained_last (x y : V) l u : chained x (l ++ [u]) y → u.2 = y.
Proof. rewrite chained_app. destruct u as [p n]. cbn. naive_solver. Qed.

(** A callback for which nothing is pending was told the current value last. *)
Lemma settled_last cb v c :
  watched_by cb v → heap v !! cb = Some c → ¬ pending cb v →
  (∃ l u, delivered c = l ++ [u] ∧ u.2 = value v) ∧
  length (delivered c) = S (length (updates v) - since c).
Proof.
  intros [[] Hr Hin] Hc Hp. assert (settled v cb c) as [Ha Hm].
  { destruct (decide (cb ∈ awaiting v)) as [?|Ha]; [destruct Hp; exists c; split; [done|]; by intros [? _]|].
    destruct (decide (mutex c = Subscriber)) as [?|Hm]; [destruct Hp; exists c; split; [done|]; by intros [_ ?]|].
    by split. }
  destruct (inv_cb cb c Hc) as [k []]. destruct (Hin c Hc) as [x0 Ex]. destruct cb_initial as (x & t & Hx & Ei).
  specialize (cb_current Hr Ha). destruct cb_got as [_ E].
  rewrite decide_False, take_ge in E by (rewrite ?length_drop; done || lia).
  assert (chained zero (delivered c) (value v)) as Hch.
  { rewrite E. apply chained_app. exists x. rewrite Ei. split; [apply initial_chained|by eapply chained_drop]. }
  split.
  - rewrite E, Ex in *. destruct (exists_last (l := [(zero, x0)] ++ drop (since c) (updates v))) as (l & u & El); [done|].
    exists l, u. split; [done|]. rewrite El in Hch. by eapply chained_last.
  - rewrite E, Ex, length_app, length_drop. done.
Qed.

#[export] Program Instance watched_observable (cb : nat) : Observable variable V := {|
  ob_ok := watched_by cb;
  ob_value := value;
  ob_pending := pending cb;
  ob_step := watched_step cb;
|}.
Next Obligation.
  intros cb v l v' [Hinv Hr Hin] (Hst & Hr' & c & c' & Hc & Hc' & _). split; [by eapply step_inv_variable|done|].
  intros c1 Hc1. destruct (step_keeps _ _ _ _ Hst Hc) as (c2 & Hc2 & _ & Ei & _).
  replace c1 with c2 by congruence. rewrite Ei. by apply Hin.
Qed.
Next Obligation.
  intros cb v n v' Hok Hst Hp. assert (watched_by cb v') as Hok' by (by eapply watched_observable_obligation_1).
  destruct Hst as (_ & _ & c & c' & _ & Hc' & E).
  destruct (settled_last cb v' c' Hok' Hc' Hp) as [(l & u & El & <-) _].
  rewrite E in El. by apply app_inj_tail in El as [_ <-].
Qed.
Next Obligation.
  intros cb v v' Hok Hstep Hp. assert (watched_by cb v') as Hok' by (by eapply watched_observable_obligation_1).
  destruct Hstep as (Hst & _ & c & c' & Hc & Hc' & E).
  destruct (step_keeps _ _ _ _ Hst Hc) as (c2 & Hc2 & Es & _ & Hlen). replace c2 with c' in * by congruence.
  destruct (settled_last cb v' c' Hok' Hc' Hp) as [(l & u & El & Hu) Hn].
  assert (¬ pending cb v) as Hp0.
  { intros (c0 & Hc0 & Hns). replace c0 with c in * by congruence. apply Hns.
    destruct Hok as [[] Hr Hin]. destruct (inv_cb cb c Hc) as [k []]. destruct cb_got as [Hle Ed].
    assert (mutex c ≠ Subscriber) as Hm.
    { intros Hm. destruct (cb_subscriber Hm) as [-> _]. rewrite Hm, decide_True, take_0 in Ed by done.
      rewrite <-E, El in Ed. by destruct l. }
    split; [|done]. intros Ha.
    assert (unsubscribed c = false) as Hu' by (destruct (unsubscribed c); [by destruct (cb_unsubscribed eq_refl)|done]).
    specialize (cb_awaiting Hu' Ha). destruct (Hin c Hc) as [x Ex].
    rewrite E, Ed, decide_False, Ex, length_app, length_take, length_drop in Hn by done. cbn in Hn. lia. }
  split; [done|]. destruct (settled_last cb v c Hok Hc Hp0) as [(l0 & u0 & El0 & <-) _].
  rewrite E, El0 in El. apply app_inj_tail in El as [_ ->]. done.
Qed.

End Watched.

(** ** Two inputs

    The callback on the one input gets its new value and reads the other. *)

Section Both.
Context {S1 S2 V1 V2 : Type} `{Observable S1 V1} `{Observable S2 V2}.

Inductive both_step : S1 * S2 → option (V1 * V2) → S1 * S2 → Prop :=
  | both_left s1 s1' s2 l :
      ob_step s1 l s1' → both_step (s1, s2) ((λ n, (n, ob_value s2)) <$> l) (s1', s2)
  | both_right s1 s2 s2' l :
      ob_step s2 l s2' → both_step (s1, s2) ((λ n, (ob_value s1, n)) <$> l) (s1, s2').

#[export] Program Instance both_observable : Observable (S1 * S2) (V1 * V2) := {|
  ob_ok s := ob_ok s.1 ∧ ob_ok s.2;
  ob_value s := (ob_value s.1, ob_value s.2);
  ob_pending s := ob_pending s.1 ∨ ob_pending s.2;
  ob_step := both_step;
|}.
Next Obligation. intros s l s' [? ?] Hst. destruct Hst; cbn in *; split; eauto using ob_ok_step. Qed.
Next Obligation.
  intros s n s' [H1 H2] Hst Hp. inversion Hst as [s1 s1' s2 l Hl E E1|s1 s2 s2' l Hl E E1]; subst; cbn in *;
    apply fmap_Some in E1 as (n0 & -> & ->); f_equal; eapply ob_invoked; eauto.
Qed.
Next Obligation.
  intros s s' [H1 H2] Hst Hp. inversion Hst as [s1 s1' s2 l Hl E E1|s1 s2 s2' l Hl E E1]; subst; cbn in *;
    apply fmap_None in E1 as ->.
  - destruct (ob_silent s1 s1' H1 Hl) as [? ->]; tauto.
  - destruct (ob_silent s2 s2' H2 Hl) as [? ->]; tauto.
Qed.

End Both.

(** ** Derived variables *)

Section Derived.
Context {S I V : Type} `{Observable S I}.

(** [NewDerivedVariable], and with pairs of inputs [NewDerivedVariable2] to
    [NewDerivedVariable4]: the callbacks on the inputs call
    [d.Compute(compute(currentValue, inputs))]. *)
Variable compute : V → I → V.

Inductive derived_step : S * V → S * V → Prop :=
  | derived_silent s s' d : ob_step s None s' → derived_step (s, d) (s', d)
  | derived_invoked s n s' d : ob_step s (Some n) s' → derived_step (s, d) (s', compute d n).

Lemma derived_ok s d s' d' :
  rtc derived_step (s, d) (s', d') → ob_ok s → ob_pending s →
  ob_ok s' ∧ (¬ ob_pending s' → ∃ c, d' = compute c (ob_value s')).
Proof.
  intros Hr Hok Hp.
  refine (rtc_ind_r (R := derived_step)
    (λ sd, ob_ok sd.1 ∧ (¬ ob_pending sd.1 → ∃ c, sd.2 = compute c (ob_value sd.1))) (s, d) _ _ (s', d') Hr).
  { cbn. tauto. }
  intros [s1 d1] [s2 d2] _ Hst [Hok1 IH]. inversion Hst as [? ? ? Hl|? n ? ? Hl]; subst; cbn in *;
    (split; [by eapply ob_ok_step|]); intros Hp2.
  - destruct (ob_silent _ _ Hok1 Hl Hp2) as [Hp1 ->]. by apply IH.
  - exists d1. by rewrite (ob_invoked _ _ _ Hok1 Hl Hp2).
Qed.

End Derived.

(** ** Behaviour that lasts as long as a value

    [OnUpdateWithContext] and [WithValue] with a setup that returns a teardown
    function: an update first tears down what the last one has set up. *)

Section WithValue.
Context {S V : Type} `{Observable S V} (condition : V → bool).

Inductive lifecycle : Type := Setup (v : V) | Teardown (v : V).

(** The setup that is in force, and what was called. *)
Definition with_value (n : V) (st : option V * list lifecycle) : option V * list lifecycle :=
  let '(current, calls) := st in
  let calls := match current with Some v => calls ++ [Teardown v] | None => calls end in
  if condition n then (Some n, calls ++ [Setup n]) else (None, calls).

Inductive with_step : S * (option V * list lifecycle) → S * (option V * list lifecycle) → Prop :=
  | with_silent s s' st : ob_step s None s' → with_step (s, st) (s', st)
  | with_invoked s n s' st : ob_step s (Some n) s' → with_step (s, st) (s', with_value n st).

(** Setups and teardowns alternate, each teardown for the setup before it. *)
Fixpoint alternates (current : option V) (calls : list lifecycle) (final : option V) : Prop :=
  match calls with
  | [] => current = final
  | Setup v :: calls => current = None ∧ alternates (Some v) calls final
  | Teardown v :: calls => current = Some v ∧ alternates None calls final
  end.

Lemma alternates_app c l l' d : alternates c (l ++ l') d ↔ ∃ e, alternates c l e ∧ alternates e l' d.
Proof.
  revert c. induction l as [|[v|v] l IH]; intros c; cbn.
  - split; [by exists c|by intros (e & -> & ?)].
  - rewrite IH. split; [intros (-> & z & ? & ?); by exists z|intros (z & (-> & ?) & ?); split; [done|by exists z]].
  - rewrite IH. split; [intros (-> & z & ? & ?); by exists z|intros (z & (-> & ?) & ?); split; [done|by exists z]].
Qed.

Lemma with_value_ok n st :
  alternates None st.2 st.1 → alternates None (with_value n st).2 (with_value n st).1.
Proof.
  destruct st as [[v|] calls]; cbn; intros E; destruct (condition n); cbn; repeat (apply alternates_app; eexists; split);
    try done; cbn; done.
Qed.

Lemma with_step_ok s s' st' :
  rtc with_step (s, (None, [])) (s', st') → ob_ok s → ob_pending s →
  ob_ok s' ∧ alternates None st'.2 st'.1 ∧
  (¬ ob_pending s' → st'.1 = if condition (ob_value s') then Some (ob_value s') else None).
Proof.
  intros Hr Hok Hp.
  refine (rtc_ind_r (R := with_step) (λ x, ob_ok x.1 ∧ alternates None x.2.2 x.2.1 ∧
    (¬ ob_pending x.1 → x.2.1 = if condition (ob_value x.1) then Some (ob_value x.1) else None))
    (s, (None, [])) _ _ (s', st') Hr).
  { cbn. tauto. }
  intros [s1 st1] [s2 st2] _ Hst (Hok1 & Ha & IH). inversion Hst as [? ? ? Hl|? n ? ? Hl]; subst; cbn in *;
    (split; [by eapply ob_ok_step|]).
  - split; [done|]. intros Hp2. destruct (ob_silent _ _ Hok1 Hl Hp2) as [Hp1 ->]. by apply IH.
  - split; [by apply with_value_ok|]. intros Hp2. rewrite (ob_invoked _ _ _ Hok1 Hl Hp2).
    destruct st1 as [[v|] calls]; cbn; by destruct (condition n).
Qed.

End WithValue.

(** ** Counters *)

Section Counter.
Context {S V : Type} `{Observable S V} (condition : V → bool).

(** An input and the variable [conditionWasTrue] of its callback. *)
Record monitored : Type := mkMonitored { input : S; conditionWasTrue : bool }.

(** The function that the callback on an input passes to [Compute]. *)
Definition count_update (n : V) (wasTrue : bool) (currentValue : Z) : Z * bool :=
  let isTrue := condition n in
  if bool_decide (isTrue ≠ wasTrue) then
    (if isTrue then currentValue + 1 else currentValue - 1, isTrue)
  else (currentValue, wasTrue).

Inductive counter_step : list monitored * Z → list monitored * Z → Prop :=
  | counter_silent ms i m s' z :
      ms !! i = Some m → ob_step (input m) None s' →
      counter_step (ms, z) (<[i := mkMonitored s' (conditionWasTrue m)]> ms, z)
  | counter_invoked ms i m n s' z :
      ms !! i = Some m → ob_step (input m) (Some n) s' →
      counter_step (ms, z)
        (<[i := mkMonitored s' (count_update n (conditionWasTrue m) z).2]> ms,
         (count_update n (conditionWasTrue m) z).1)
  (* [Monitor] of an input that has just got its callback *)
  | counter_monitor ms s z :
      ob_ok s → ob_pending s → counter_step (ms, z) (ms ++ [mkMonitored s false], z).

Definition one (b : bool) : Z := if b then 1 else 0.

Definition total (ms : list monitored) : Z := zsum (λ m, one (conditionWasTrue m)) ms.

Definition monitored_ok (m : monitored) : Prop :=
  ob_ok (input m) ∧ (¬ ob_pending (input m) → conditionWasTrue m = condition (ob_value (input m))).

Definition counter_inv (st : list monitored * Z) : Prop :=
  st.2 = total st.1 ∧ Forall monitored_ok st.1.

Lemma count_update_ok n w z : (count_update n w z).2 = condition n ∧ (count_update n w z).1 = z - one w + one (condition n).
Proof. unfold count_update. case_bool_decide as E; destruct w, (condition n); cbn in *; split; done || lia. Qed.

Lemma counter_step_inv st st' : counter_inv st → counter_step st st' → counter_inv st'.
Proof.
  intros [Hz Hf] Hst. destruct Hst as [ms i m s' z Hi Hl|ms i m n s' z Hi Hl|ms s z Hok Hp]; cbn in *; split; cbn.
  - unfold total. rewrite (zsum_insert _ _ _ _ _ Hi). cbn. lia.
  - apply Forall_insert; [done|]. destruct (Forall_lookup_1 _ _ _ _ Hf Hi) as [Hok Hm].
    split; [by eapply ob_ok_step|]. cbn. intros Hp. destruct (ob_silent _ _ Hok Hl Hp) as [Hp0 ->]. by apply Hm.
  - destruct (count_update_ok n (conditionWasTrue m) z) as [E1 E2].
    unfold total. rewrite (zsum_insert _ _ _ _ _ Hi). cbn [conditionWasTrue]. rewrite E1, E2, Hz. done.
  - apply Forall_insert; [done|]. destruct (Forall_lookup_1 _ _ _ _ Hf Hi) as [Hok Hm].
    destruct (count_update_ok n (conditionWasTrue m) z) as [E1 _].
    split; [by eapply ob_ok_step|]. cbn [conditionWasTrue input]. intros Hp. rewrite E1. by rewrite (ob_invoked _ _ _ Hok Hl Hp).
  - unfold total. rewrite zsum_app. cbn. lia.
  - apply Forall_app_2; [done|]. apply Forall_singleton. split; [done|]. cbn. tauto.
Qed.

End Counter.

(** ** On variables *)

Section Variables.
Context {V : Type} `{EqDecision V} (zero : V) (transformationFunc : V → V → V).

(** [OnUpdate] with the flag makes the variable observable by the callback. *)
Lemma register_watched v :
  inv zero v →
  watched_by zero (length (heap v)) (OnUpdate_register zero true v) ∧
  pending (length (heap v)) (OnUpdate_register zero true v).
Proof.
  intros Hi. pose proof (onupdate_register_inv zero transformationFunc true v Hi) as Hi'.
  assert (heap (OnUpdate_register zero true v) !! length (heap v) =
    Some (mkCallback false (uniqueUpdateID v) Subscriber [] [(zero, value v)] (length (updates v)))) as E.
  { unfold OnUpdate_register. cbn. rewrite lookup_app_r, Nat.sub_diag by done. cbn. unfold LockExecution. cbn.
    unfold initial_update. rewrite orb_true_r. destruct (Z.eqb_spec (uniqueUpdateID v) 0); done. }
  split.
  - split; [done|apply elem_of_app; right; by apply list_elem_of_singleton|].
    intros c Hc. rewrite E in Hc. injection Hc as <-. by eexists.
  - eexists. split; [exact E|]. intros [_ Hm]. by apply Hm.
Qed.

End Variables.

(** C30: A derived variable follows its inputs.  Whatever goroutines do to two
    variables from the moment [NewDerivedVariable2] has registered its second
    callback, whenever no invocation of its callbacks is due the derived value
    was computed from the current values of both inputs. *)
Theorem DerivedVariable_consistent {V1 V2 V} `{EqDecision V1} `{EqDecision V2} (zero1 : V1) (zero2 : V2) T1 T2
    (compute : V → V1 * V2 → V) cb1 cb2 v1 v2 d v1' v2' d' :
  watched_by zero1 cb1 v1 → watched_by zero2 cb2 v2 → pending cb2 v2 →
  rtc (derived_step (H := both_observable (H := watched_observable zero1 T1 cb1) (H0 := watched_observable zero2 T2 cb2))
    compute) ((v1, v2), d) ((v1', v2'), d') →
  ¬ pending cb1 v1' → ¬ pending cb2 v2' → ∃ c, d' = compute c (value v1', value v2').
Proof.
  intros H1 H2 Hp Hr Hp1 Hp2. apply (derived_ok compute _ _ _ _ Hr); cbn; tauto.
Qed.

(** A counter counts.  Whatever is done to the variables a counter monitors,
    and however many are added, its value is the number of inputs whose last
    value seen meets the condition, and for an input for which no invocation is
    due that is its current value. *)
Lemma Counter_counts {V} `{EqDecision V} (zero : V) T cb (condition : V → bool) ms z :
  rtc (counter_step (H := watched_observable zero T cb) condition) ([], 0) (ms, z) →
  z = total ms ∧
  ∀ i m, ms !! i = Some m → ¬ pending cb (input m) → conditionWasTrue m = condition (value (input m)).
Proof.
  intros Hr.
  assert (counter_inv (H := watched_observable zero T cb) condition (ms, z)) as [Hz Hf].
  { refine (rtc_ind_r (R := counter_step (H := watched_observable zero T cb) condition)
      (counter_inv (H := watched_observable zero T cb) condition) ([], 0) _ _ (ms, z) Hr); [by split|].
    intros y w _ Hst Hi. by eapply counter_step_inv. }
  split; [done|]. intros i m Hi. by apply (Forall_lookup_1 _ _ _ _ Hf Hi).
Qed.

(** [WithValue] and [WithNonEmptyValue] keep their setup in step with the
    value: setups and teardowns alternate, every teardown is that of the setup
    before it, and whenever no invocation is due, what is set up is the current
    value, if it meets the condition. *)
Lemma WithValue_follows {V} `{EqDecision V} (zero : V) T cb (condition : V → bool) v v' current calls :
  watched_by zero cb v → pending cb v →
  rtc (with_step (H := watched_observable zero T cb) condition) (v, (None, [])) (v', (current, calls)) →
  alternates None calls current ∧
  (¬ pending cb v' → current = if condition (value v') then Some (value v') else None).
Proof. intros Hw Hp Hr. by destruct (with_step_ok condition _ _ _ Hr) as (_ & ? & ?). Qed.

(** *** A variable that was set to 5, its callback, and the first invocation *)

Definition five : variable := mkVariable 5 1 [] [] WIdle [(0, 5)].

Lemma five_reachable : reachable 0 (λ _ n, n) five.
Proof.
  eapply rtc_l; [by apply (compute_start _ _ _ (λ _, 5))|].
  eapply rtc_l; [by eapply (compute_return _ _ _ 0 5 1)|]. apply rtc_refl.
Qed.

Definition five_watched : variable := OnUpdate_register 0 true five.
Definition five_told : variable :=
  mkVariable 5 1 [0%nat] [mkCallback false 1 Free [(0, 5)] [(0, 5)] 1] WIdle [(0, 5)].

Lemma five_start : watched_by 0 0 five_watched ∧ pending 0 five_watched.
Proof. apply (register_watched 0 (λ _ n, n) five), (inv_reachable_variable 0 (λ _ n, n)), five_reachable. Qed.

Lemma five_step : watched_step 0 (λ _ n, n) 0 five_watched (Some 5) five_told.
Proof.
  split; [by apply (onupdate_invoke 0 (λ _ n, n) five_watched 0
    (mkCallback false 1 Subscriber [] [(0, 5)] 1))|]. split; [by apply list_elem_of_singleton|].
  by eexists _, _.
Qed.

#[local] Instance by_callback_0 : Observable (variable (V := Z)) Z := watched_observable 0 (λ _ n, n) 0.

Lemma five_settled : ¬ pending 0 five_told.
Proof. intros (c & [= <-] & Hs). apply Hs. split; [by apply not_elem_of_nil|done]. Qed.

Lemma DerivedVariable_consistent_witness : ∃ c : Z, 10 = (λ (_ : Z) (i : Z * Z), i.1 + i.2) c (5, 5).
Proof.
  destruct five_start as [Hw Hp].
  apply (DerivedVariable_consistent 0 0 (λ _ n, n) (λ _ n, n) (λ _ i, i.1 + i.2) 0 0 five_watched five_watched 0
    five_told five_told 10 Hw Hw Hp); [|exact five_settled..].
  eapply rtc_l; [apply (derived_invoked _ (five_watched, five_watched) (5, 5) (five_told, five_watched)),
    (both_left (H := by_callback_0) (H0 := by_callback_0) five_watched five_told five_watched (Some 5) five_step)|].
  eapply rtc_l; [apply (derived_invoked _ (five_told, five_watched) (5, 5) (five_told, five_told)),
    (both_right (H := by_callback_0) (H0 := by_callback_0) five_told five_watched five_told (Some 5) five_step)|].
  apply rtc_refl.
Defined.

Lemma Counter_counts_witness : 1 = total [mkMonitored five_told true].
Proof.
  destruct five_start as [Hw Hp].
  apply (Counter_counts 0 (λ _ n, n) 0 (λ v, negb (v =? 0))).
  eapply rtc_l; [by apply (counter_monitor (H := by_callback_0) _ [] five_watched 0 Hw Hp)|].
  eapply rtc_l; [|apply rtc_refl].
  by apply (counter_invoked (H := by_callback_0) (λ v, negb (v =? 0)) [mkMonitored five_watched false]
    0 _ 5 five_told 0 eq_refl five_step).
Defined.

Lemma WithValue_follows_witness : alternates None [Setup 5] (Some 5).
Proof.
  destruct five_start as [Hw Hp].
  refine (proj1 (WithValue_follows 0 (λ _ n, n) 0 (λ v, negb (v =? 0)) five_watched five_told (Some 5) [Setup 5] Hw Hp _)).
  eapply rtc_l; [|apply rtc_refl].
  apply (with_invoked (H := by_callback_0) (λ v, negb (v =? 0)) five_watched 5 five_told (None, []) five_step).
Defined.
