(* ===== verification/ReactiveSet.v ===== *)
(** * ds/reactive: sets

    [src/ds/reactive/set_impl.go]: a set (OrderedSet.v) whose changes are told to
    callbacks as mutations.  The machinery of callbacks is that of variables
    (ReactiveVariable.v: one writer at a time, which tells every callback of the
    change before the next one); here a write operation is a function to the new
    set and the mutations it tells, if any, and a reaction is a function of the
    mutations told.

    Derived sets ([InheritFrom]), [SubtractReactive] and [WithElements] are
    systems of several sets and such reactions.  The function that [InheritFrom]
    returns is called at most once for a source: a second call, which would take the
    elements of the source back again, is not a step. *)

From S2P Require Import Prelude OrderedSet.

Section ReactiveSet.
Context {T : Type} `{Countable T}.

#[local] Notation set := (set T).
#[local] Notation setMutations := (setMutations T).

(** ** Writing: the set, and what the callbacks are told *)

Definition Apply (s : set) (mutations : setMutations) : set * option setMutations :=
  if IsEmpty mutations then (s, None)
  else
    let '(s, applied) := apply s mutations in
    (s, if IsEmpty applied then None else Some applied).

Definition Add (s : set) (element : T) : set * option setMutations := Apply s (newSetMutations [element]).
Definition AddAll (s elements : set) : set * option setMutations := Apply s (newSetMutations (ToSlice elements)).
Definition Delete (s : set) (element : T) : set * option setMutations :=
  Apply s (WithDeletedElements (newSetMutations []) (NewSet [element])).
Definition DeleteAll (s elements : set) : set * option setMutations :=
  Apply s (WithDeletedElements (newSetMutations []) (Clone elements)).

(** Unlike [Apply], [Compute] tells also that nothing has changed. *)
Definition Compute_ (s : set) (mutationFactory : set → setMutations) : set * option setMutations :=
  let '(s, applied) := apply s (mutationFactory s) in (s, Some applied).

Definition Replace (s elements : set) : set * option setMutations :=
  let '(s, previous) := OrderedSet.Replace s elements in
  (s, Some (WithDeletedElements (newSetMutations (ToSlice elements)) previous)).

(** What [OnUpdate] tells a new callback. *)
Definition OnUpdate (s : set) (triggerWithInitialZeroValue : bool) : option setMutations :=
  let mutations := WithAddedElements (newSetMutations []) (Clone s) in
  if negb (IsEmpty mutations) || triggerWithInitialZeroValue then Some mutations else None.

(** ** Derived sets *)

Record derivedSet : Type := mkDerived { d_value : set; setArithmetic : gmap T Z }.

Definition newDerivedSet : derivedSet := mkDerived (NewSet []) ∅.

(** [inheritMutations], with the threshold 1 that the collectors have by default. *)
Definition inheritMutations (d : derivedSet) (mutations : setMutations) : derivedSet * option setMutations :=
  let '(arithmetic, inherited) := Arithmetic_Add (setArithmetic d) mutations 1 in
  let '(s, applied) := apply (d_value d) inherited in
  (mkDerived s arithmetic, Some applied).

(** A source with the variable [sourceElements] of the callback on it. *)
Record source : Type := mkSource { src_value : set; sourceElements : set }.

(** The callback [InheritFrom] registers with a source. *)
Definition inherit (d : derivedSet) (sourceElements : set) (told : option setMutations) : derivedSet * set :=
  match told with
  | None => (d, sourceElements)
  | Some mutations =>
      let '(sourceElements, applied) := apply sourceElements mutations in
      ((inheritMutations d applied).1, sourceElements)
  end.

(** A derived set with the sources it inherits from. *)
Definition system : Type := derivedSet * list source.

Inductive sys_op : Type :=
  | InheritFrom (s : set)                     (* from one more source *)
  | Unsubscribe (i : nat)                     (* the function [InheritFrom] returns *)
  | SourceApply (i : nat) (m : setMutations)  (* [Apply], so [Add], [Delete] and the like *)
  | SourceCompute (i : nat) (f : set → setMutations).

Definition source_told (i : nat) (src : source) (d : derivedSet) (srcs : list source)
    (r : set * option setMutations) : system :=
  let '(d, elements) := inherit d (sourceElements src) r.2 in
  (d, <[i := mkSource r.1 elements]> srcs).

Definition sys_step (sys : system) (op : sys_op) : system :=
  let '(d, srcs) := sys in
  match op with
  | InheritFrom s =>
      let '(d, elements) := inherit d (NewSet []) (OnUpdate s false) in
      (d, srcs ++ [mkSource s elements])
  | Unsubscribe i =>
      match srcs !! i with
      | None => sys
      | Some src =>
          ((inheritMutations d (WithDeletedElements (newSetMutations []) (sourceElements src))).1,
           base.delete i srcs)
      end
  | SourceApply i m =>
      match srcs !! i with
      | None => sys
      | Some src => source_told i src d srcs (Apply (src_value src) m)
      end
  | SourceCompute i f =>
      match srcs !! i with
      | None => sys
      | Some src => source_told i src d srcs (Compute_ (src_value src) f)
      end
  end.

(** ** SubtractReactive *)

(** The set [s] it returns, with the closure's arithmetic; [minuend] is [r]. *)
Definition subtract_told (d : derivedSet) (minuend : bool) (told : option setMutations) : derivedSet :=
  match told with
  | None => d
  | Some mutations =>
      let '(arithmetic, m) :=
        if minuend then Arithmetic_Add (setArithmetic d) mutations 1
        else Arithmetic_Subtract (setArithmetic d) mutations 1 in
      mkDerived (apply (d_value d) m).1 arithmetic
  end.

(** The result with [r] and the other sets. *)
Definition difference : Type := derivedSet * (set * list set).

Definition SubtractReactive (r : set) (others : list set) : difference :=
  let d := subtract_told newDerivedSet true (OnUpdate r false) in
  (foldl (λ d o, subtract_told d false (OnUpdate o false)) d others, (r, others)).

Inductive diff_op : Type :=
  | MinuendApply (m : setMutations)
  | OtherApply (i : nat) (m : setMutations).

Definition diff_step (st : difference) (op : diff_op) : difference :=
  let '(d, (r, others)) := st in
  match op with
  | MinuendApply m =>
      let '(r, told) := Apply r m in (subtract_told d true told, (r, others))
  | OtherApply i m =>
      match others !! i with
      | None => st
      | Some o => let '(o, told) := Apply o m in (subtract_told d false told, (r, <[i := o]> others))
      end
  end.

(** ** WithElements *)

(** The elements with a teardown function, when [setup] always returns one.  The
    callback sets up what was added and then tears down what was deleted. *)
Definition with_elements (condition : T → bool) (teardownFunctions : gset T) (told : option setMutations) : gset T :=
  match told with
  | None => teardownFunctions
  | Some m =>
      let active := Range (addedElements m) (λ fs e, if condition e then {[e]} ∪ fs else fs) teardownFunctions in
      Range (deletedElements m) (λ fs e, fs ∖ {[e]}) active
  end.

End ReactiveSet.

Arguments derivedSet T {_ _}.
Arguments source : clear implicits.
Arguments sys_op : clear implicits.
Arguments diff_op : clear implicits.

(** ** What the callbacks are told *)

Section Told.
Context {T : Type} `{Countable T}.
Implicit Types s : set T.
Implicit Types m : setMutations T.

Definition mut_ok m : Prop := set_ok (addedElements m) ∧ set_ok (deletedElements m).

(** Whether an element is in the set, as a number. *)
Definition member s x : Z := if decide (x ∈ elements_of s) then 1 else 0.

(** [applied] leads from [s] to [s']. *)
Record leads s m s' : Prop := {
  leads_ok : mut_ok m;
  leads_set : set_ok s';
  leads_elem x : x ∈ elements_of s' ↔
    (x ∈ elements_of s ∨ x ∈ elements_of (addedElements m)) ∧ x ∉ elements_of (deletedElements m);
  leads_change x : change m x = member s' x - member s x;
}.

Lemma apply_leads s m :
  set_ok s → mut_ok m → leads s (apply s m).2 (apply s m).1.
Proof.
  intros Hs [Ha Hd]. destruct (apply_changes s m Ha Hd) as (E1 & E2 & E3).
  assert (∀ x, x ∈ elements_of (apply s m).1 ↔
    (x ∈ elements_of s ∨ x ∈ elements_of (addedElements m)) ∧ x ∉ elements_of (deletedElements m)) as H1.
  { intros x. rewrite E1, list_elem_of_filter, elem_of_app, list_elem_of_filter.
    destruct (decide (x ∈ elements_of s)); tauto. }
  assert (∀ x, x ∈ elements_of (addedElements (apply s m).2) ↔
    x ∈ elements_of (addedElements m) ∧ x ∉ elements_of s) as H2.
  { intros x. rewrite E2, list_elem_of_filter. tauto. }
  assert (∀ x, x ∈ elements_of (deletedElements (apply s m).2) ↔
    x ∈ elements_of (deletedElements m) ∧ (x ∈ elements_of s ∨ x ∈ elements_of (addedElements m))) as H3.
  { intros x. rewrite E3, list_elem_of_filter, elem_of_app, list_elem_of_filter.
    destruct (decide (x ∈ elements_of s)); tauto. }
  split.
  - split; unfold set_ok; rewrite ?E2, ?E3; by apply NoDup_filter.
  - unfold set_ok. rewrite E1. apply NoDup_filter, NoDup_app. split_and!; [done| |by apply NoDup_filter].
    intros x Hx [? _]%list_elem_of_filter. done.
  - intros x. rewrite H1, H2, H3. destruct (decide (x ∈ elements_of s)); tauto.
  - intros x. specialize (H1 x). specialize (H2 x). specialize (H3 x). unfold change, member.
    destruct (decide (x ∈ elements_of (addedElements m))), (decide (x ∈ elements_of (deletedElements m)));
      repeat case_decide; first [lia|exfalso; tauto].
Qed.

(** Telling nothing means that nothing has changed. *)
Definition told_ok s (told : option (setMutations T)) s' : Prop :=
  match told with Some m => leads s m s' | None => elements_of s' = elements_of s end.

Lemma IsEmpty_nil m : IsEmpty m = true → elements_of (addedElements m) = [] ∧ elements_of (deletedElements m) = [].
Proof.
  unfold IsEmpty. rewrite !Size_elements. intros [E1%Z.eqb_eq E2%Z.eqb_eq]%andb_true_iff. unfold len in *.
  split; apply nil_length_inv; lia.
Qed.

Lemma Apply_told s m : set_ok s → mut_ok m → told_ok s (Apply s m).2 (Apply s m).1 ∧ set_ok (Apply s m).1.
Proof.
  intros Hs Hm. unfold Apply. destruct (IsEmpty m) eqn:E; [done|].
  pose proof (apply_leads s m Hs Hm) as Hl. destruct Hm as [Ha Hd]. destruct (apply_changes s m Ha Hd) as (E1 & E2 & E3).
  destruct (apply s m) as [s' applied]. cbn [fst snd] in *. split; [|apply Hl].
  destruct (IsEmpty applied) eqn:E'; [|done]. cbn. apply IsEmpty_nil in E' as [Hn1 Hn2].
  rewrite E1, <-E2, Hn1, app_nil_r. apply filter_all. intros x Hx Hin.
  assert (x ∈ elements_of (deletedElements applied)) as Hd'.
  { rewrite E3, list_elem_of_filter, elem_of_app. auto. }
  rewrite Hn2 in Hd'. by apply elem_of_nil in Hd'.
Qed.

Lemma Compute_told s f : set_ok s → mut_ok (f s) → told_ok s (Compute_ s f).2 (Compute_ s f).1 ∧ set_ok (Compute_ s f).1.
Proof.
  intros Hs Hm. unfold Compute_. pose proof (apply_leads s (f s) Hs Hm) as Hl.
  destruct (apply s (f s)) as [s' applied]. split; [done|apply Hl].
Qed.

Lemma Clone_elements s : set_ok s → elements_of (Clone s) = elements_of s.
Proof.
  intros Hs. unfold Clone. destruct (AddAll_elements (NewSet []) s Hs) as [_ ->]. apply filter_all. set_solver.
Qed.

Lemma OnUpdate_told s t : set_ok s → told_ok (NewSet []) (OnUpdate s t) s.
Proof.
  intros Hs. unfold OnUpdate. pose proof (Clone_elements s Hs) as Hc.
  destruct (negb _ || t) eqn:E.
  - split; [split; [by unfold set_ok; cbn [addedElements WithAddedElements]; rewrite Hc|constructor]|done| |].
    + intros x. cbn [addedElements deletedElements WithAddedElements]. rewrite Hc. set_solver.
    + intros x. unfold change, member. cbn [addedElements deletedElements WithAddedElements]. rewrite Hc.
      change (elements_of (NewSet [])) with (@nil T). rewrite (decide_False (P := x ∈ [])) by set_solver.
      change (elements_of (deletedElements (newSetMutations []))) with (@nil T). by rewrite (decide_False (P := x ∈ [])) by set_solver.
  - apply orb_false_iff in E as [E%negb_false_iff _]. apply IsEmpty_nil in E as [E _].
    cbn [addedElements WithAddedElements] in E. rewrite Hc in E. exact E.
Qed.

End Told.

(** ** Sets that are computed from counts *)

Section Counts.
Context {T : Type} `{Countable T}.
Implicit Types s : set T.
Implicit Types m : setMutations T.
Implicit Types d : derivedSet T.

Lemma collector_sets_ok inc th l (c : gmap T Z) tg op :
  set_ok tg → set_ok op →
  set_ok (foldl (elementsCollector inc th) (c, tg, op) l).1.2 ∧
  set_ok (foldl (elementsCollector inc th) (c, tg, op) l).2.
Proof.
  revert c tg op. induction l as [|e l IH]; intros c tg op Ht Ho; cbn [foldl]; [done|].
  unfold elementsCollector at 2 4. destruct (_ =? _); [|by apply IH].
  destruct (Delete_elements op e) as [_ Hd]. destruct (OrderedSet.Delete op e) as [op' b]. cbn [snd fst] in Hd.
  assert (set_ok op') by (unfold set_ok in *; rewrite Hd; by apply NoDup_filter).
  destruct b; [by apply IH|]. apply IH; [|done]. destruct (Add_elements tg e) as [_ Ha]. unfold set_ok in *. rewrite Ha.
  case_decide as Hin; [done|]. apply NoDup_app. split_and!; [done| |apply NoDup_singleton].
  intros x Hx ->%list_elem_of_singleton. done.
Qed.

Lemma arithmetic_sets_ok (c : gmap T Z) m th :
  mut_ok (Arithmetic_Add c m th).2 ∧ mut_ok (Arithmetic_Subtract c m th).2.
Proof.
  unfold Arithmetic_Add, Arithmetic_Subtract, Range. change (newSetMutations []) with (@mkMutations T [] []).
  assert (set_ok (T := T) []) as Hn by constructor. split.
  - rewrite added_collector, subtracted_collector. cbv zeta.
    split; cbn [snd addedElements deletedElements]; apply collector_sets_ok; by apply collector_sets_ok.
  - rewrite subtracted_collector, added_collector. cbv zeta.
    split; cbn [snd addedElements deletedElements]; apply collector_sets_ok; by apply collector_sets_ok.
Qed.

(** The set has the elements that are counted at least once. *)
Record counts d (f : T → Z) : Prop := {
  counts_ok : set_ok (d_value d);
  counts_count x : count (setArithmetic d) x = f x;
  counts_elem x : x ∈ elements_of (d_value d) ↔ 1 ≤ f x;
}.

(** Mutations that report the crossings of the threshold keep it so. *)
Lemma counts_apply d f f' (c' : gmap T Z) r :
  counts d f → mut_ok r → (∀ x, count c' x = f' x) →
  (∀ x, (x ∈ elements_of (addedElements r) ↔ f x < 1 ≤ f' x) ∧ (x ∈ elements_of (deletedElements r) ↔ f' x < 1 ≤ f x)) →
  counts (mkDerived (apply (d_value d) r).1 c') f'.
Proof.
  intros [Hok Hc He] Hr Hf Hx. pose proof (apply_leads (d_value d) r Hok Hr) as Hl.
  destruct Hr as [Ha Hd]. destruct (apply_changes (d_value d) r Ha Hd) as (E1 & _ & _).
  split; [apply Hl|done|]. intros x. cbn [d_value]. specialize (Hx x). specialize (He x).
  rewrite E1, list_elem_of_filter, elem_of_app, list_elem_of_filter.
  destruct Hx as [-> ->]. rewrite He. lia.
Qed.

Lemma inheritMutations_counts d f m :
  counts d f → mut_ok m → counts (inheritMutations d m).1 (λ x, f x + change m x).
Proof.
  intros Hd [Ha Hm]. unfold inheritMutations.
  pose proof (λ x, Arithmetic_Add_crossings (setArithmetic d) m 1 x Ha Hm) as Hx.
  pose proof (proj1 (arithmetic_sets_ok (setArithmetic d) m 1)) as Hok.
  destruct (Arithmetic_Add (setArithmetic d) m 1) as [c' r]. cbn [snd] in Hok.
  destruct (apply (d_value d) r) as [s' a] eqn:E. cbn [fst].
  replace s' with (apply (d_value d) r).1 by (by rewrite E).
  pose proof (counts_count _ _ Hd) as Hc.
  assert (∀ x, count c' x = f x + change m x) as Hf by (intros x; destruct (Hx x) as [-> _]; by rewrite Hc).
  apply (counts_apply d f); try done. intros x. destruct (Hx x) as (_ & ? & ?). by rewrite <-Hf, <-Hc.
Qed.

Lemma subtract_told_counts d f (minuend : bool) s told s' :
  counts d f → told_ok s told s' →
  counts (subtract_told d minuend told)
    (λ x, f x + (if minuend then 1 else -1) * (member s' x - member s x)).
Proof.
  intros Hd Ht. destruct told as [m|]; cbn [told_ok] in Ht.
  - destruct Ht as [[Ha Hm] Hs Hel Hch]. unfold subtract_told. pose proof (counts_count _ _ Hd) as Hc.
    destruct minuend.
    + pose proof (λ x, Arithmetic_Add_crossings (setArithmetic d) m 1 x Ha Hm) as Hx.
      pose proof (proj1 (arithmetic_sets_ok (setArithmetic d) m 1)) as Hok.
      destruct (Arithmetic_Add (setArithmetic d) m 1) as [c' r].
      assert (∀ x, count c' x = f x + 1 * (member s' x - member s x)) as Hf.
      { intros x. destruct (Hx x) as [-> _]. rewrite Hc, Hch. lia. }
      apply (counts_apply d f); try done. intros x. destruct (Hx x) as (_ & ? & ?). by rewrite <-Hf, <-Hc.
    + pose proof (λ x, Arithmetic_Subtract_crossings (setArithmetic d) m 1 x Ha Hm) as Hx.
      pose proof (proj2 (arithmetic_sets_ok (setArithmetic d) m 1)) as Hok.
      destruct (Arithmetic_Subtract (setArithmetic d) m 1) as [c' r].
      assert (∀ x, count c' x = f x + -1 * (member s' x - member s x)) as Hf.
      { intros x. destruct (Hx x) as [-> _]. rewrite Hc, Hch. lia. }
      apply (counts_apply d f); try done. intros x. destruct (Hx x) as (_ & ? & ?). by rewrite <-Hf, <-Hc.
  - destruct Hd as [Hok Hc He]. cbn [subtract_told].
    assert (∀ x, f x + (if minuend then 1 else -1) * (member s' x - member s x) = f x) as E.
    { intros x. unfold member. rewrite Ht. destruct minuend; lia. }
    split; [done|intros x; rewrite E; apply Hc|intros x; rewrite E; apply He].
Qed.

(** ** Derived sets are unions *)

Record source_ok (src : source T) : Prop := {
  so_value : set_ok (src_value src);
  so_elements : set_ok (sourceElements src);
  so_same x : x ∈ elements_of (sourceElements src) ↔ x ∈ elements_of (src_value src);
}.

Lemma member_same s s' x : (x ∈ elements_of s ↔ x ∈ elements_of s') → member s x = member s' x.
Proof. intros Hx. unfold member. by rewrite (decide_ext _ _ _ _ Hx). Qed.

Lemma counts_ext d f g : (∀ x, f x = g x) → counts d f → counts d g.
Proof. intros E [? Hc He]. split; [done|intros x; rewrite <-E; apply Hc|intros x; rewrite <-E; apply He]. Qed.

(** The callback keeps its copy of the source, and the derived set. *)
Lemma inherit_ok d f els value told value' :
  counts d f → set_ok els → set_ok value' → (∀ x, x ∈ elements_of els ↔ x ∈ elements_of value) →
  told_ok value told value' →
  let r := inherit d els told in
  counts r.1 (λ x, f x + member value' x - member value x) ∧ source_ok (mkSource value' r.2).
Proof.
  intros Hd Hels Hv' Hsame Ht. destruct told as [m|]; cbn [told_ok inherit] in *.
  - destruct Ht as [Hm _ Hel _]. pose proof (apply_leads els m Hels Hm) as Hl.
    pose proof Hm as [Ha Hdel]. destruct (apply_changes els m Ha Hdel) as (E1 & _ & _).
    destruct (apply els m) as [els' applied]. cbn [fst snd] in *. destruct Hl as [Hok Hset _ Hch].
    assert (∀ x, x ∈ elements_of els' ↔ x ∈ elements_of value') as Hs'.
    { intros x. rewrite E1, list_elem_of_filter, elem_of_app, list_elem_of_filter, Hel, <-Hsame.
      destruct (decide (x ∈ elements_of els)); tauto. }
    split; [|by split].
    eapply counts_ext; [|by apply inheritMutations_counts]. intros x. cbn.
    rewrite Hch, (member_same _ _ _ (Hs' x)), (member_same _ _ _ (Hsame x)). lia.
  - split.
    + eapply counts_ext; [|exact Hd]. intros x. unfold member. rewrite Ht. cbn. lia.
    + split; [done|done|]. intros x. cbn [sourceElements src_value snd]. by rewrite Hsame, Ht.
Qed.

Definition occurrences (srcs : list (source T)) (x : T) : Z := zsum (λ src, member (src_value src) x) srcs.

Definition sys_ok (sys : system) : Prop := counts sys.1 (occurrences sys.2) ∧ Forall source_ok sys.2.

(** The mutations are made of sets, which have no duplicates. *)
Definition op_ok (op : sys_op T) : Prop :=
  match op with
  | InheritFrom s => set_ok s
  | Unsubscribe _ => True
  | SourceApply _ m => mut_ok m
  | SourceCompute _ f => ∀ s, set_ok s → mut_ok (f s)
  end.

Lemma source_told_ok i src d srcs r :
  srcs !! i = Some src → sys_ok (d, srcs) → told_ok (src_value src) r.2 r.1 → set_ok r.1 →
  sys_ok (source_told i src d srcs r).
Proof.
  intros Hi [Hd Hf] Ht Hv. pose proof (Forall_lookup_1 _ _ _ _ Hf Hi) as [H1 H2 H3].
  destruct (inherit_ok d _ (sourceElements src) (src_value src) r.2 r.1 Hd H2 Hv H3 Ht) as [Hc Hs].
  unfold source_told. destruct (inherit d (sourceElements src) r.2) as [d' els]. split; cbn [fst snd] in *.
  - eapply counts_ext; [|exact Hc]. intros x. unfold occurrences. rewrite (zsum_insert _ _ _ _ _ Hi). cbn. lia.
  - by apply Forall_insert.
Qed.

Lemma sys_step_ok sys op : op_ok op → sys_ok sys → sys_ok (sys_step sys op).
Proof.
  destruct sys as [d srcs]. intros Hop Hsys. pose proof Hsys as [Hd Hf]. cbn [fst snd] in *. destruct op as [s|i|i m|i f]; cbn [sys_step op_ok] in *.
  - destruct (inherit_ok d _ (NewSet []) (NewSet []) (OnUpdate s false) s Hd) as [Hc Hs];
      [constructor|done|done|by apply OnUpdate_told|].
    destruct (inherit d (NewSet []) (OnUpdate s false)) as [d' els]. split; cbn [fst snd] in *.
    + eapply counts_ext; [|exact Hc]. intros x. unfold occurrences. rewrite zsum_app. cbn [zsum src_value].
      assert (member (NewSet []) x = 0) as -> by (unfold member; by rewrite decide_False by set_solver). lia.
    + apply Forall_app_2; [done|]. by apply Forall_singleton.
  - destruct (srcs !! i) as [src|] eqn:Hi; [|done]. pose proof (Forall_lookup_1 _ _ _ _ Hf Hi) as [H1 H2 H3].
    split; cbn [fst snd].
    + eapply counts_ext; [|apply inheritMutations_counts; [exact Hd|]].
      * intros x. unfold occurrences. rewrite (zsum_delete _ _ _ _ Hi). unfold change.
        cbn [addedElements deletedElements WithDeletedElements newSetMutations].
        change (elements_of (NewSet [])) with (@nil T). rewrite decide_False by set_solver.
        change (if decide (x ∈ elements_of (sourceElements src)) then 1 else 0) with (member (sourceElements src) x).
        rewrite (member_same _ _ _ (H3 x)). lia.
      * split; [constructor|done].
    + rewrite delete_take_drop. apply Forall_app_2; [by apply Forall_take|by apply Forall_drop].
  - destruct (srcs !! i) as [src|] eqn:Hi; [|done]. pose proof (Forall_lookup_1 _ _ _ _ Hf Hi) as [H1 H2 H3].
    destruct (Apply_told (src_value src) m H1 Hop). by apply source_told_ok.
  - destruct (srcs !! i) as [src|] eqn:Hi; [|done]. pose proof (Forall_lookup_1 _ _ _ _ Hf Hi) as [H1 H2 H3].
    destruct (Compute_told (src_value src) f H1 (Hop _ H1)). by apply source_told_ok.
Qed.

Lemma sys_run_ok ops sys : Forall op_ok ops → sys_ok sys → sys_ok (foldl sys_step sys ops).
Proof.
  revert sys. induction ops as [|op ops IH]; intros sys Hops Hs; cbn [foldl]; [done|].
  apply Forall_cons in Hops as [? ?]. by apply IH, sys_step_ok.
Qed.

(** ** SubtractReactive is the difference *)

Definition diff_ok (st : difference) : Prop :=
  let '(d, (r, others)) := st in
  set_ok r ∧ Forall set_ok others ∧ counts d (λ x, member r x - zsum (λ o, member o x) others).

Lemma member_empty (x : T) : member (NewSet []) x = 0.
Proof. unfold member. by rewrite decide_False by set_solver. Qed.

Lemma newDerivedSet_counts : counts newDerivedSet (λ _, 0).
Proof. split; [constructor|done|]. intros x. split; [by intros ?%elem_of_nil|lia]. Qed.

Lemma subtract_others d f others :
  counts d f → Forall set_ok others →
  counts (foldl (λ d o, subtract_told d false (OnUpdate o false)) d others)
    (λ x, f x - zsum (λ o, member o x) others).
Proof.
  revert d f. induction others as [|o others IH]; intros d f Hd Ho; cbn [foldl].
  - eapply counts_ext; [|exact Hd]. intros x. cbn. lia.
  - apply Forall_cons in Ho as [Ho Hos]. eapply counts_ext; [|apply IH; [|done]].
    2: { apply (subtract_told_counts d f false (NewSet []) _ o Hd). by apply OnUpdate_told. }
    intros x. cbv beta. rewrite member_empty. cbn. lia.
Qed.

Lemma SubtractReactive_ok r others : set_ok r → Forall set_ok others → diff_ok (SubtractReactive r others).
Proof.
  intros Hr Ho. split_and!; [done|done|]. apply (subtract_others _ (member r)); [|done].
  eapply counts_ext; [|apply (subtract_told_counts newDerivedSet (λ _, 0) true (NewSet []) _ r newDerivedSet_counts)].
  - intros x. cbv beta. rewrite member_empty. lia.
  - by apply OnUpdate_told.
Qed.

Lemma diff_step_ok st op :
  match op with MinuendApply m | OtherApply _ m => mut_ok m end → diff_ok st → diff_ok (diff_step st op).
Proof.
  destruct st as [d [r others]]. intros Hop (Hr & Ho & Hd). destruct op as [m|i m]; cbn [diff_step].
  - destruct (Apply_told r m Hr Hop) as [Ht Hr']. destruct (Apply r m) as [r' told]. cbn [fst snd] in *.
    split_and!; [done|done|]. eapply counts_ext; [|apply (subtract_told_counts d _ true r _ r' Hd Ht)].
    intros x. cbv beta. lia.
  - destruct (others !! i) as [o|] eqn:Hi; [|done]. pose proof (Forall_lookup_1 _ _ _ _ Ho Hi) as Hoi.
    destruct (Apply_told o m Hoi Hop) as [Ht Ho']. destruct (Apply o m) as [o' told]. cbn [fst snd] in *.
    split_and!; [done|by apply Forall_insert|].
    eapply counts_ext; [|apply (subtract_told_counts d _ false o _ o' Hd Ht)].
    intros x. cbv beta. rewrite (zsum_insert _ _ _ _ _ Hi). lia.
Qed.

Lemma diff_run_ok ops st :
  Forall (λ op, match op with MinuendApply m | OtherApply _ m => mut_ok m end) ops →
  diff_ok st → diff_ok (foldl diff_step st ops).
Proof.
  revert st. induction ops as [|op ops IH]; intros st Hops Hs; cbn [foldl]; [done|].
  apply Forall_cons in Hops as [? ?]. by apply IH, diff_step_ok.
Qed.

(** C35: A derived set is the union of its sources.  However sources are added and
    removed, and whatever mutations are applied to them ([Apply], so [Add],
    [AddAll], [Delete], [DeleteAll], and [Compute]), the derived set has exactly
    the elements that are in one of its sources at that time, also when sources
    share elements. *)
Theorem DerivedSet_union (ops : list (sys_op T)) :
  Forall op_ok ops →
  let '(d, srcs) := foldl sys_step (newDerivedSet, []) ops in
  set_ok (d_value d) ∧
  ∀ x, x ∈ elements_of (d_value d) ↔ ∃ src, src ∈ srcs ∧ x ∈ elements_of (src_value src).
Proof.
  intros Hops. assert (sys_ok (foldl sys_step (newDerivedSet, []) ops)) as [[Hok _ He] _].
  { apply sys_run_ok; [done|]. split; [apply newDerivedSet_counts|constructor]. }
  destruct (foldl sys_step (newDerivedSet, []) ops) as [d srcs]. cbn [fst snd] in *. split; [done|].
  intros x. rewrite He. unfold occurrences.
  rewrite (zsum_pos (λ src, member (src_value src) x)) by (intros src; unfold member; case_decide; lia).
  assert (∀ src : source T, 1 ≤ member (src_value src) x ↔ x ∈ elements_of (src_value src)) as Hm.
  { intros src. unfold member. case_decide; split; done || lia. }
  split; intros (src & Hs & Hx); exists src; (split; [done|]); by apply Hm.
Qed.

(** [SubtractReactive] follows its arguments: whatever mutations are applied
    to the sets afterwards, the set it returned has the elements of the first set
    that are in none of the others. *)
Lemma SubtractReactive_difference (r : set T) (others : list (set T)) (ops : list (diff_op T)) :
  set_ok r → Forall set_ok others →
  Forall (λ op, match op with MinuendApply m | OtherApply _ m => mut_ok m end) ops →
  let '(d, (r, others)) := foldl diff_step (SubtractReactive r others) ops in
  ∀ x, x ∈ elements_of (d_value d) ↔ x ∈ elements_of r ∧ ∀ o, o ∈ others → x ∉ elements_of o.
Proof.
  intros Hr Ho Hops. pose proof (diff_run_ok ops _ Hops (SubtractReactive_ok r others Hr Ho)) as Hd.
  destruct (foldl diff_step (SubtractReactive r others) ops) as [d [r' others']]. destruct Hd as (_ & _ & [_ _ He]).
  intros x. rewrite He.
  pose proof (zsum_pos (λ o, member o x) others') as Hp.
  assert (∀ o, 0 ≤ member o x) as Hn by (intros o; unfold member; case_decide; lia). specialize (Hp Hn).
  assert (0 ≤ zsum (λ o, member o x) others').
  { clear Hp He. induction others' as [|o l IH]; cbn; [lia|]. specialize (Hn o). lia. }
  assert (∀ o, 1 ≤ member o x ↔ x ∈ elements_of o) as Hm by (intros o; unfold member; case_decide; split; done || lia).
  assert (member r' x ≤ 1) by (unfold member; case_decide; lia).
  split.
  - intros Hx. split; [apply Hm; lia|]. intros o Hin Hxo.
    assert (1 ≤ zsum (λ o, member o x) others') by (apply Hp; exists o; split; [done|by apply Hm]). lia.
  - intros [Hxr Hxo]. apply Hm in Hxr. assert (¬ 1 ≤ zsum (λ o, member o x) others') as Hz; [|lia].
    intros (o & Hin & Hx)%Hp. by apply (Hxo o Hin), Hm.
Qed.

(** The setups of [WithElements] that are in force are those of the elements that
    meet the condition. *)
Lemma with_elements_ok condition fs s told s' :
  told_ok s told s' → (∀ x, x ∈ fs ↔ x ∈ elements_of s ∧ condition x = true) →
  ∀ x, x ∈ with_elements condition fs told ↔ x ∈ elements_of s' ∧ condition x = true.
Proof.
  intros Ht Hfs x. destruct told as [m|]; cbn [told_ok with_elements] in *; [|by rewrite Hfs, Ht].
  assert (∀ l (fs : gset T), x ∈ foldl (λ fs e, fs ∖ {[e]}) fs l ↔ x ∈ fs ∧ x ∉ l) as H1.
  { clear. induction l as [|e l IH]; intros fs; cbn [foldl]; [set_solver|]. rewrite IH. set_solver. }
  assert (∀ l (fs : gset T), x ∈ foldl (λ fs e, if condition e then {[e]} ∪ fs else fs) fs l ↔
    x ∈ fs ∨ x ∈ l ∧ condition x = true) as H2.
  { clear. induction l as [|e l IH]; intros fs; cbn [foldl]; [set_solver|]. rewrite IH.
    destruct (condition e) eqn:E; [set_solver|]. rewrite elem_of_cons. naive_solver congruence. }
  unfold Range. rewrite H1, H2, Hfs, (leads_elem _ _ _ Ht). tauto.
Qed.

End Counts.

(** Two sources that share an element, which stays until both have lost it. *)
Definition shared_ops : list (sys_op Z) :=
  [InheritFrom (NewSet [1; 2]); InheritFrom (NewSet [2; 3]);
   SourceApply 0 (WithDeletedElements (newSetMutations [7]) (NewSet [2]))].

Lemma DerivedSet_union_witness :
  (2 ∈ elements_of (d_value (foldl sys_step (newDerivedSet, []) shared_ops).1)).
Proof.
  pose proof (DerivedSet_union shared_ops) as H.
  destruct (foldl sys_step (newDerivedSet, []) shared_ops) as [d srcs] eqn:E. apply H.
  - repeat constructor; by apply (bool_decide_unpack _).
  - apply (f_equal snd) in E. vm_compute in E. subst srcs.
    eexists. split; [apply elem_of_cons; right; by apply list_elem_of_singleton|]. by apply (bool_decide_unpack _).
Defined.

Lemma SubtractReactive_difference_witness :
  (1 ∉ elements_of (d_value (foldl diff_step (SubtractReactive (NewSet [1; 2; 3]) [NewSet [2]])
    [OtherApply 0 (newSetMutations [1])]).1)).
Proof.
  pose proof (SubtractReactive_difference (NewSet [1; 2; 3]) [NewSet [2]] [OtherApply 0 (newSetMutations [1])]) as H.
  destruct (foldl diff_step _ _) as [d [r others]] eqn:E. intros Hin. revert Hin. rewrite H.
  - apply (f_equal snd) in E. vm_compute in E. injection E as <- <-. intros [_ Ho].
    eapply (Ho [(2, ()); (1, ())]); [by apply list_elem_of_singleton|]. by apply (bool_decide_unpack _).
  - by apply (bool_decide_unpack _).
  - repeat constructor; by apply (bool_decide_unpack _).
  - repeat constructor; by apply (bool_decide_unpack _).
Defined.

(** [Replace] tells that all former elements are deleted, after all new ones are
    added: a derived set loses the elements that were kept. *)
Lemma Replace_loses_elements :
  let d := (inherit newDerivedSet (NewSet []) (OnUpdate (NewSet [1; 2]) false)).1 in
  let '(s, told) := Replace (NewSet [1; 2]) (NewSet [2; 3]) in
  elements_of s = [2; 3] ∧ elements_of (d_value (inherit d (NewSet [1; 2]) told).1) = [3].
Proof. done. Qed.
