(* ===== verification/SortedSet.v ===== *)
(** * ds/reactive: sorted sets

    [src/ds/reactive/sorted_set_impl.go].  A [*sortedSetElement] is named by its
    element, under which the map [elements] holds its weight and its index in the
    slice [sortedElements].  The weights are integers.  [less] is the method
    [Less] of the elements, or constantly false when they have none.

    [Add] and [Delete] of the set call [addSorted] and [deleteSorted] with the
    elements that were added or deleted; the variables that hold the weights call
    the callback on a change.  The mutex makes each of these atomic.  Accesses to
    the slice panic out of range, and a loop that has not ended within one round
    per element and one more panics, too; both are shown not to happen. *)

From S2P Require Import Prelude.

Section SortedSet.
Context {T : Type} `{Countable T} (zero : T) (less : T → T → bool).

Record sortedSetElement : Type := mkElement { weight : Z; el_index : Z }.

Record sortedSet : Type := mkSorted {
  elements : gmap T sortedSetElement;
  sortedElements : list T;
  heaviestElement : T;
  lightestElement : T;
}.

Definition newSortedSet : sortedSet := mkSorted ∅ [] zero zero.

Definition elem (s : sortedSet) (e : T) : outcome sortedSetElement :=
  match elements s !! e with
  | Some el => Ret el
  | None => Panic "invalid memory address or nil pointer dereference"
  end.

Definition set_elements (s : sortedSet) (m : gmap T sortedSetElement) (l : list T) : sortedSet :=
  mkSorted m l (heaviestElement s) (lightestElement s).

Definition set_heaviest (s : sortedSet) (e : T) : sortedSet :=
  mkSorted (elements s) (sortedElements s) e (lightestElement s).

Definition set_lightest (s : sortedSet) (e : T) : sortedSet :=
  mkSorted (elements s) (sortedElements s) (heaviestElement s) e.

(** The left element has to go behind the right one. *)
Definition swaps (wl wr : Z) (left right : T) : bool := (wl <? wr) || ((wl =? wr) && less left right).

Definition swap (s : sortedSet) (left right : T) : outcome (sortedSet * bool) :=
  l ← elem s left;
  r ← elem s right;
  if swaps (weight l) (weight r) left right then
    a ← index (sortedElements s) (el_index r);
    b ← index (sortedElements s) (el_index l);
    sorted ← store (sortedElements s) (el_index l) a;
    sorted ← store sorted (el_index r) b;
    Ret (set_elements s (<[right := mkElement (weight r) (el_index l)]>
           (<[left := mkElement (weight l) (el_index r)]> (elements s))) sorted, true)
  else Ret (s, false).

(** The loops of [updatePosition]. *)
Fixpoint move_left (fuel : nat) (s : sortedSet) (e : T) (moved : bool) : outcome (sortedSet * bool) :=
  match fuel with
  | O => Panic "not terminated"
  | S fuel =>
      el ← elem s e;
      if el_index el =? 0 then Ret (s, moved)
      else
        left ← index (sortedElements s) (el_index el - 1);
        '(s, swapped) ← swap s left e;
        if swapped : bool then move_left fuel s e true else Ret (s, moved)
  end.

Fixpoint move_right (fuel : nat) (s : sortedSet) (e : T) (moved : bool) : outcome (sortedSet * bool) :=
  match fuel with
  | O => Panic "not terminated"
  | S fuel =>
      el ← elem s e;
      if el_index el =? len (sortedElements s) - 1 then Ret (s, moved)
      else
        right ← index (sortedElements s) (el_index el + 1);
        '(s, swapped) ← swap s e right;
        if swapped : bool then move_right fuel s e true else Ret (s, moved)
  end.

(** The deferred function of [updatePosition]. *)
Definition update_ends (s : sortedSet) (e : T) (fromIndex : Z) (moved : bool) : outcome sortedSet :=
  el ← elem s e;
  let last := len (sortedElements s) - 1 in
  s ← (if moved && (fromIndex =? 0) then
         h ← index (sortedElements s) 0; Ret (set_heaviest s h)
       else if el_index el =? 0 then Ret (set_heaviest s e) else Ret s);
  if moved && (fromIndex =? last) then
    l ← index (sortedElements s) last; Ret (set_lightest s l)
  else if el_index el =? last then Ret (set_lightest s e) else Ret s.

Definition updatePosition (s : sortedSet) (e : T) : outcome sortedSet :=
  el ← elem s e;
  let fromIndex := el_index el in
  let fuel := S (length (sortedElements s)) in
  '(s, moved) ← move_left fuel s e false;
  '(s, moved) ← (if moved : bool then Ret (s, moved) else move_right fuel s e moved);
  update_ends s e fromIndex moved.

(** The callback on the weight of an element of the set. *)
Definition weight_updated (s : sortedSet) (e : T) (newWeight : Z) : outcome sortedSet :=
  el ← elem s e;
  updatePosition (set_elements s (<[e := mkElement newWeight (el_index el)]> (elements s)) (sortedElements s)) e.

(** [addSorted] with [newSortedSetElement]; the callback on the weight is invoked
    with the current weight when it is registered. *)
Definition addSorted (s : sortedSet) (e : T) (currentWeight : Z) : outcome sortedSet :=
  match elements s !! e with
  | Some _ => Ret s
  | None =>
      let s := set_elements s (<[e := mkElement 0 (len (sortedElements s))]> (elements s))
                 (sortedElements s ++ [e]) in
      weight_updated s e currentWeight
  end.

(** The loop of [deleteSorted]. *)
Fixpoint shift_left (n : nat) (s : sortedSet) (i : Z) : outcome sortedSet :=
  match n with
  | O => Ret s
  | S n =>
      x ← index (sortedElements s) (i + 1);
      sorted ← store (sortedElements s) i x;
      el ← elem s x;
      shift_left n (set_elements s (<[x := mkElement (weight el) (el_index el - 1)]> (elements s)) sorted) (i + 1)
  end.

Definition deleteSorted (s : sortedSet) (e : T) : outcome sortedSet :=
  match elements s !! e with
  | None => Ret s
  | Some el =>
      let s := set_elements s (base.delete e (elements s)) (sortedElements s) in
      s ← shift_left (Z.to_nat (len (sortedElements s) - 1 - el_index el)) s (el_index el);
      sorted ← slice_to (sortedElements s) (len (sortedElements s) - 1);
      let s := set_elements s (elements s) sorted in
      s ← (if el_index el =? 0 then
             if 0 <? len sorted then h ← index sorted 0; Ret (set_heaviest s h) else Ret (set_heaviest s zero)
           else Ret s);
      if el_index el =? len sorted then
        if 0 <? len sorted then l ← index sorted (len sorted - 1); Ret (set_lightest s l) else Ret (set_lightest s zero)
      else Ret s
  end.

Definition Descending (s : sortedSet) : list T := sortedElements s.
Definition Ascending (s : sortedSet) : list T := rev (sortedElements s).

(** ** A sorted set with the variables of the weights *)

Inductive set_op : Type := AddElement (e : T) | DeleteElement (e : T) | SetWeight (e : T) (w : Z).

Definition run_op (st : sortedSet * gmap T Z) (op : set_op) : outcome (sortedSet * gmap T Z) :=
  let '(s, weights) := st in
  match op with
  | AddElement e => s ← addSorted s e (default 0 (weights !! e)); Ret (s, weights)
  | DeleteElement e => s ← deleteSorted s e; Ret (s, weights)
  | SetWeight e w =>
      let weights' := <[e := w]> weights in
      match elements s !! e with
      | Some _ =>
          if w =? default 0 (weights !! e) then Ret (s, weights')
          else s ← weight_updated s e w; Ret (s, weights')
      | None => Ret (s, weights')
      end
  end.

Fixpoint run_ops (st : sortedSet * gmap T Z) (ops : list set_op) : outcome (sortedSet * gmap T Z) :=
  match ops with
  | [] => Ret st
  | op :: ops => st ← run_op st op; run_ops st ops
  end.

End SortedSet.

Arguments sortedSet T {_ _}.
Arguments set_op : clear implicits.

(** ** The slice and the indices *)

Section Sorting.
Context {T : Type} `{Countable T} (zero : T) (less : T → T → bool).
Implicit Types m : gmap T sortedSetElement.
Implicit Types l : list T.
Implicit Types s : sortedSet T.
Implicit Types W : T → Z.

(** The map holds for the elements of the slice their weight and their index. *)
Record laid W m l : Prop := {
  laid_nodup : NoDup l;
  laid_elem x el : m !! x = Some el ↔ ∃ i, l !! i = Some x ∧ el = mkElement (W x) (Z.of_nat i);
}.

Lemma laid_lookup W m l1 e l2 : laid W m (l1 ++ e :: l2) → m !! e = Some (mkElement (W e) (Z.of_nat (length l1))).
Proof. intros Hl. apply (laid_elem _ _ _ Hl). exists (length l1). split; [by apply list_lookup_middle|done]. Qed.

Lemma laid_elem_of W m l x : laid W m l → is_Some (m !! x) ↔ x ∈ l.
Proof.
  intros Hl. rewrite list_elem_of_lookup. split.
  - intros [el (i & Hi & _)%(laid_elem _ _ _ Hl)]. by exists i.
  - intros [i Hi]. eexists. apply (laid_elem _ _ _ Hl). by exists i.
Qed.

Lemma lookup_middle_split (l1 l2 : list T) e i x :
  (l1 ++ e :: l2) !! i = Some x ↔
  ((i < length l1)%nat ∧ l1 !! i = Some x) ∨ (i = length l1 ∧ x = e) ∨
  (∃ j, i = (length l1 + S j)%nat ∧ l2 !! j = Some x).
Proof.
  rewrite lookup_app_Some, lookup_cons_Some. split.
  - intros [Hi|[Hle [[E ->]|[Hlt Hi]]]].
    + left. split; [by eapply lookup_lt_Some|done].
    + right; left. split; [lia|done].
    + right; right. exists (i - length l1 - 1)%nat. split; [lia|done].
  - intros [[? ?]|[[-> ->]|(j & -> & Hj)]]; [by left|right; split; [lia|left; split; [lia|done]]|].
    right. split; [lia|]. right. split; [lia|]. by replace (length l1 + S j - length l1 - 1)%nat with j by lia.
Qed.

(** Two neighbours change places. *)
Lemma laid_swap W m l1 a b l2 (i := Z.of_nat (length l1)) :
  laid W m (l1 ++ a :: b :: l2) →
  laid W (<[b := mkElement (W b) i]> (<[a := mkElement (W a) (i + 1)]> m)) (l1 ++ b :: a :: l2).
Proof.
  intros [Hnd Hel]. assert (a ≠ b ∧ a ∉ l1 ∧ b ∉ l1 ∧ a ∉ l2 ∧ b ∉ l2) as (Hab & Ha1 & Hb1 & Ha2 & Hb2).
  { apply NoDup_app in Hnd as (_ & Hd & Hnd). apply NoDup_cons in Hnd as [Ha Hnd]. apply NoDup_cons in Hnd as [Hb _].
    set_solver. }
  split.
  - eapply NoDup_Permutation_proper; [|exact Hnd]. apply Permutation_app_head, perm_swap.
  - intros x el. rewrite lookup_insert_Some, lookup_insert_Some, Hel.
    assert (∀ k y, l1 !! k = Some y → y ≠ a ∧ y ≠ b) as H1 by (intros k y Hk%list_elem_of_lookup_2; split; congruence).
    assert (∀ k y, l2 !! k = Some y → y ≠ a ∧ y ≠ b) as H2 by (intros k y Hk%list_elem_of_lookup_2; split; congruence).
    split.
    + intros [[<- <-]|[Hb [[<- <-]|[Ha (k & Hk & ->)]]]].
      * exists (length l1). split; [by apply list_lookup_middle|done].
      * exists (length l1 + 1)%nat. split; [|f_equal; lia]. rewrite lookup_app_r by lia.
        by replace (length l1 + 1 - length l1)%nat with 1%nat by lia.
      * exists k. split; [|done]. revert Hk. rewrite !lookup_middle_split.
        intros [?|[[-> ->]|(j & -> & Hj)]]; [by left|done|right; right]. exists j. split; [done|].
        destruct j; [cbn in Hj; congruence|done].
    + intros (k & Hk & ->). revert Hk. rewrite lookup_middle_split. intros [[Hlt Hk]|[[-> ->]|(j & -> & Hj)]].
      * destruct (H1 _ _ Hk). right. split; [done|]. right. split; [done|]. exists k. split; [|done].
        rewrite lookup_middle_split. by left.
      * left. split; [done|]. f_equal.
      * destruct j as [|j]; cbn in Hj.
        -- injection Hj as <-. right. split; [congruence|]. left. split; [done|]. f_equal. lia.
        -- destruct (H2 _ _ Hj). right. split; [done|]. right. split; [done|]. eexists. split; [|done].
           rewrite lookup_middle_split. right; right. by exists (S j).
Qed.

Notation sw W x y := (swaps less (W x) (W y) x y).

Lemma swap_neighbours W m l1 a b l2 h g :
  laid W m (l1 ++ a :: b :: l2) →
  ∃ m', swap less (mkSorted m (l1 ++ a :: b :: l2) h g) a b =
    Ret (if sw W a b then (mkSorted m' (l1 ++ b :: a :: l2) h g, true)
         else (mkSorted m (l1 ++ a :: b :: l2) h g, false)) ∧
    laid W m' (l1 ++ b :: a :: l2).
Proof.
  intros Hl. pose proof (laid_swap _ _ _ _ _ _ Hl) as Hl'. eexists. split; [|exact Hl'].
  unfold swap, elem. cbn [elements sortedElements].
  rewrite (laid_lookup _ _ _ _ _ Hl). pose proof Hl as Hb. rewrite (cons_middle a l1 (b :: l2)), app_assoc in Hb.
  rewrite (laid_lookup _ _ _ _ _ Hb). cbn. rewrite length_app. cbn [length].
  destruct (sw W a b); [|done].
  rewrite (index_nat _ (length l1 + 1) b) by (rewrite lookup_app_r by lia; by replace (length l1 + 1 - length l1)%nat with 1%nat by lia).
  rewrite (index_nat _ (length l1) a) by (by apply list_lookup_middle). cbn.
  rewrite store_nat by (rewrite length_app; cbn; lia). cbn. rewrite store_nat by (rewrite length_insert, length_app; cbn; lia).
  cbn. unfold set_elements. cbn. do 3 f_equal.
  - do 2 f_equal. f_equal. lia.
  - rewrite <-(Nat.add_0_r (length l1)) at 2. rewrite insert_app_r. cbn. by rewrite insert_app_r.
Qed.

Lemma move_left_ok W e l2 h g l1 : ∀ m fuel moved,
  laid W m (l1 ++ e :: l2) → (length l1 < fuel)%nat →
  ∃ la lb m', l1 = la ++ lb ∧
    move_left less fuel (mkSorted m (l1 ++ e :: l2) h g) e moved =
      Ret (mkSorted m' (la ++ e :: lb ++ l2) h g, moved || negb (bool_decide (lb = []))) ∧
    laid W m' (la ++ e :: lb ++ l2) ∧
    Forall (λ x, sw W x e = true) lb ∧ (∀ p, last la = Some p → sw W p e = false).
Proof.
  revert l2. induction l1 as [|x l1 IH] using rev_ind; intros l2 m fuel moved Hl Hf;
    (destruct fuel as [|fuel]; [lia|]); cbn [move_left].
  - exists [], [], m. unfold elem. cbn [elements]. rewrite (laid_lookup _ _ _ _ _ Hl). cbn. rewrite orb_false_r. done.
  - pose proof (laid_lookup _ _ _ _ _ Hl) as He. rewrite length_app in He, Hf. cbn in He, Hf.
    rewrite <-app_assoc in *. cbn [app] in *.
    unfold elem at 1. cbn [elements sortedElements]. rewrite He. cbn.
    replace (Z.of_nat (length l1 + 1) =? 0) with false by (symmetry; apply Z.eqb_neq; lia).
    replace (Z.of_nat (length l1 + 1) - 1) with (Z.of_nat (length l1)) by lia.
    rewrite (index_nat _ (length l1) x) by (by apply list_lookup_middle). cbn.
    destruct (swap_neighbours W m l1 x e l2 h g Hl) as (m' & -> & Hl'). cbn.
    destruct (sw W x e) eqn:Esw.
    + destruct (IH (x :: l2) m' fuel true Hl') as (la & lb & m2 & -> & -> & Hl2 & Hb & Ha); [lia|].
      exists la, (lb ++ [x]), m2. rewrite <-!app_assoc. cbn. split_and!; try done.
      * rewrite (bool_decide_false (lb ++ [x] = [])) by (by destruct lb). cbn. by rewrite orb_true_r.
      * apply Forall_app_2; [done|]. by apply Forall_singleton.
    + exists (l1 ++ [x]), [], m. rewrite app_nil_r. cbn. rewrite orb_false_r, <-app_assoc. split_and!; try done.
      intros p. rewrite last_snoc. intros [= <-]. done.
Qed.

Lemma move_right_ok W e h g l2 : ∀ l1 m fuel moved,
  laid W m (l1 ++ e :: l2) → (length l2 < fuel)%nat →
  ∃ la lb m', l2 = la ++ lb ∧
    move_right less fuel (mkSorted m (l1 ++ e :: l2) h g) e moved =
      Ret (mkSorted m' (l1 ++ la ++ e :: lb) h g, moved || negb (bool_decide (la = []))) ∧
    laid W m' (l1 ++ la ++ e :: lb) ∧
    Forall (λ x, sw W e x = true) la ∧ (∀ q, head lb = Some q → sw W e q = false).
Proof.
  induction l2 as [|x l2 IH]; intros l1 m fuel moved Hl Hf; (destruct fuel as [|fuel]; [lia|]); cbn [move_right].
  - exists [], [], m. unfold elem. cbn [elements sortedElements]. rewrite (laid_lookup _ _ _ _ _ Hl). cbn.
    unfold len. rewrite length_app. cbn.
    replace (Z.of_nat (length l1) =? Z.of_nat (length l1 + 1) - 1) with true by (symmetry; apply Z.eqb_eq; lia).
    by rewrite orb_false_r.
  - pose proof (laid_lookup _ _ _ _ _ Hl) as He. cbn in Hf.
    unfold elem at 1. cbn [elements sortedElements]. rewrite He. cbn. unfold len. rewrite length_app. cbn.
    replace (Z.of_nat (length l1) =? Z.of_nat (length l1 + S (S (length l2))) - 1) with false
      by (symmetry; apply Z.eqb_neq; lia).
    replace (Z.of_nat (length l1) + 1) with (Z.of_nat (length l1 + 1)) by lia.
    rewrite (index_nat _ (length l1 + 1) x)
      by (rewrite lookup_app_r by lia; by replace (length l1 + 1 - length l1)%nat with 1%nat by lia). cbn.
    destruct (swap_neighbours W m l1 e x l2 h g Hl) as (m' & -> & Hl'). cbn.
    destruct (sw W e x) eqn:Esw.
    + rewrite (cons_middle x l1 (e :: l2)), app_assoc in Hl' |- *.
      destruct (IH (l1 ++ [x]) m' fuel true Hl') as (la & lb & m2 & -> & -> & Hl2 & Ha & Hb); [lia|].
      exists (x :: la), lb, m2. rewrite <-!app_assoc in *. cbn in *. split_and!; try done.
      * by rewrite orb_true_r.
      * by constructor.
    + exists [], (x :: l2), m. cbn. rewrite orb_false_r. split_and!; try done. intros q [= <-]. done.
Qed.

(** ** The order *)

Hypothesis less_asym : ∀ a b, less a b = true → less b a = false.
Hypothesis less_negtrans : ∀ a b c, less a b = false → less b c = false → less a c = false.

(** [a] may stand before [b]. *)
Definition before W (a b : T) : Prop := sw W a b = false.

Lemma before_spec W a b : before W a b ↔ W b < W a ∨ (W a = W b ∧ less a b = false).
Proof.
  unfold before, swaps. rewrite orb_false_iff, andb_false_iff, Z.ltb_ge, Z.eqb_neq.
  destruct (less a b); intuition (try done; try lia).
Qed.

Lemma before_trans W a b c : before W a b → before W b c → before W a c.
Proof.
  rewrite !before_spec. intros [?|[? ?]] [?|[? ?]]; try (left; lia). right. split; [lia|by eapply less_negtrans].
Qed.

Lemma swaps_before W a b : sw W a b = true → before W b a.
Proof.
  unfold swaps. rewrite before_spec. intros [Hlt|[E Hl]%andb_true_iff]%orb_true_iff.
  - left. by apply Z.ltb_lt in Hlt.
  - right. apply Z.eqb_eq in E. split; [lia|by apply less_asym].
Qed.

Lemma sorted_insert (R : T → T → Prop) l1 e l2 :
  StronglySorted R (l1 ++ l2) → (∀ x, x ∈ l1 → R x e) → (∀ y, y ∈ l2 → R e y) → StronglySorted R (l1 ++ e :: l2).
Proof.
  induction l1 as [|x l1 IH]; cbn; intros Hs H1 H2.
  - constructor; [done|]. by apply Forall_forall.
  - apply StronglySorted_inv in Hs as [Hs Hx]. constructor.
    + apply IH; try done. intros y Hy. apply H1. set_solver.
    + rewrite Forall_forall in Hx |- *. intros y. rewrite elem_of_app, elem_of_cons.
      intros [Hy|[->|Hy]]; [apply Hx; set_solver|apply H1; set_solver|apply Hx; set_solver].
Qed.

Lemma sorted_pairs (R : T → T → Prop) l1 l2 x y : StronglySorted R (l1 ++ l2) → x ∈ l1 → y ∈ l2 → R x y.
Proof.
  induction l1 as [|z l1 IH]; cbn; [by intros _ ?%elem_of_nil|].
  intros [Hs Hz]%StronglySorted_inv [->|Hx]%elem_of_cons Hy; [|by apply IH].
  rewrite Forall_forall in Hz. apply Hz. set_solver.
Qed.

(** All of a sorted list may stand before what its last element may stand before. *)
Lemma before_last W l e x :
  StronglySorted (before W) l → (∀ p, last l = Some p → before W p e) → x ∈ l → before W x e.
Proof.
  intros Hs Hp Hx. destruct l as [|y l] using rev_ind; [by apply elem_of_nil in Hx|]. clear IHl.
  specialize (Hp y). rewrite last_snoc in Hp. specialize (Hp eq_refl).
  apply elem_of_app in Hx as [Hx|Hx]; [|by apply list_elem_of_singleton in Hx as ->].
  eapply before_trans; [|exact Hp]. eapply sorted_pairs; [exact Hs|done|by apply list_elem_of_singleton].
Qed.

Lemma before_head W l e y :
  StronglySorted (before W) l → (∀ q, head l = Some q → before W e q) → y ∈ l → before W e y.
Proof.
  intros Hs Hq Hy. destruct l as [|z l]; [by apply elem_of_nil in Hy|]. specialize (Hq z eq_refl).
  apply elem_of_cons in Hy as [->|Hy]; [done|]. eapply before_trans; [exact Hq|].
  apply StronglySorted_inv in Hs as [_ Hz]. rewrite Forall_forall in Hz. by apply Hz.
Qed.

Lemma sorted_app (R : T → T → Prop) l1 l2 : StronglySorted R (l1 ++ l2) → StronglySorted R l1 ∧ StronglySorted R l2.
Proof.
  induction l1 as [|z l1 IH]; cbn; [intros; split; [constructor|done]|].
  intros [Hs Hz]%StronglySorted_inv. destruct (IH Hs). split; [|done]. constructor; [done|].
  by apply Forall_app in Hz as [? _].
Qed.

(** ** Moving one element to its place *)

(** The references to the ends are right as far as the element [e], whose place
    may be wrong, does not stand there. *)
Definition ends_but (h g : T) l1 l2 : Prop :=
  (∀ x, head l1 = Some x → h = x) ∧ (∀ x, last l2 = Some x → g = x).

Definition ends s : Prop :=
  heaviestElement s = default zero (head (sortedElements s)) ∧
  lightestElement s = default zero (last (sortedElements s)).

Lemma update_ends_ok W m l1 e l2 h g from (moved : bool) :
  laid W m (l1 ++ e :: l2) →
  (∀ x, moved && (from =? 0) = false → head l1 = Some x → h = x) →
  (∀ x, moved && (from =? len (l1 ++ e :: l2) - 1) = false → last l2 = Some x → g = x) →
  ∃ s', update_ends (mkSorted m (l1 ++ e :: l2) h g) e from moved = Ret s' ∧
    elements s' = m ∧ sortedElements s' = l1 ++ e :: l2 ∧ ends s'.
Proof.
  intros Hl Hh Hg. unfold update_ends, elem. cbn [elements sortedElements]. rewrite (laid_lookup _ _ _ _ _ Hl).
  cbn [mbind outcome_bind el_index].
  set (l := l1 ++ e :: l2). assert (∃ hd, head l = Some hd ∧ l !! 0%nat = Some hd) as (hd & Ehd & E0).
  { unfold l. destruct l1; by eexists. }
  assert (∃ la, last l = Some la ∧ l !! (length l - 1)%nat = Some la) as (la & Ela & El).
  { assert (is_Some (last l)) as [la Ela] by (apply last_is_Some; unfold l; by destruct l1).
    exists la. split; [done|]. rewrite last_lookup in Ela. rewrite <-Ela. f_equal. lia. }
  assert (0 < length l)%nat as Hlen by (unfold l; rewrite length_app; cbn; lia).
  assert (∃ h', (if moved && (from =? 0) then h0 ← index l 0; Ret (set_heaviest (mkSorted m l h g) h0)
     else if Z.of_nat (length l1) =? 0 then Ret (set_heaviest (mkSorted m l h g) e) else Ret (mkSorted m l h g)) =
     Ret (mkSorted m l h' g) ∧ h' = hd) as (h' & -> & ->).
  { destruct (moved && (from =? 0)).
    - rewrite (index_nat l 0 hd E0 : index l 0 = Ret hd). by eexists.
    - destruct l1 as [|y l1]; cbn [length]; [exists e; split; [done|]; unfold l in Ehd; by injection Ehd|].
      replace (Z.of_nat (S (length l1)) =? 0) with false by (symmetry; apply Z.eqb_neq; lia).
      exists h. split; [done|]. rewrite (Hh y) by done. unfold l in Ehd. by injection Ehd. }
  cbn [mbind outcome_bind sortedElements].
  assert (index l (len l - 1) = Ret la) as Ei.
  { unfold len. replace (Z.of_nat (length l) - 1) with (Z.of_nat (length l - 1)) by lia. by apply index_nat. }
  destruct (moved && (from =? len l - 1)) eqn:Em.
  - rewrite Ei. eexists. split; [done|]. cbn. split_and!; try done. unfold ends. cbn. by rewrite Ehd, Ela.
  - unfold len, l at 1. rewrite length_app. cbn [length].
    destruct (Z.eqb_spec (Z.of_nat (length l1)) (Z.of_nat (length l1 + S (length l2)) - 1)) as [E|E].
    + destruct l2; [|cbn in E; lia]. eexists. split; [done|]. cbn. split_and!; try done. unfold ends. cbn.
      rewrite Ehd. unfold l. by rewrite last_snoc.
    + eexists. split; [done|]. cbn. split_and!; try done. unfold ends. cbn. rewrite Ehd, Ela. split; [done|]. cbn.
      apply Hg; [done|]. destruct l2 as [|y l2]; [cbn in E; lia|]. rewrite <-Ela. unfold l.
      rewrite (cons_middle e l1 (y :: l2)), app_assoc. rewrite last_app. by destruct (last (y :: l2)) eqn:E2; [|apply last_None in E2].
Qed.

Lemma updatePosition_ok W m l1 e l2 h g :
  laid W m (l1 ++ e :: l2) → ends_but h g l1 l2 → StronglySorted (before W) (l1 ++ l2) →
  ∃ s', updatePosition less (mkSorted m (l1 ++ e :: l2) h g) e = Ret s' ∧
    laid W (elements s') (sortedElements s') ∧ sortedElements s' ≡ₚ e :: l1 ++ l2 ∧
    StronglySorted (before W) (sortedElements s') ∧ ends s'.
Proof.
  intros Hl [Hh Hg] Hs. unfold updatePosition. unfold elem at 1. cbn [elements sortedElements].
  rewrite (laid_lookup _ _ _ _ _ Hl). cbn [mbind outcome_bind el_index].
  assert (length l1 < S (length (l1 ++ e :: l2)))%nat as Hf1 by (rewrite length_app; lia).
  assert (length l2 < S (length (l1 ++ e :: l2)))%nat as Hf2 by (rewrite length_app; cbn; lia).
  destruct (move_left_ok W e l2 h g l1 m _ false Hl Hf1) as (la & lb & m1 & -> & -> & Hl1 & Hb & Ha).
  cbn [mbind outcome_bind orb].
  rewrite <-app_assoc in Hs. destruct (sorted_app _ _ _ Hs) as [Hsa Hsb].
  case_bool_decide as Elb; cbn [negb].
  - (* not moved to the left *)
    subst lb. cbn [app] in *. rewrite app_nil_r in *.
    destruct (move_right_ok W e h g l2 la m1 _ false Hl1 Hf2) as (lc & ld & m2 & -> & -> & Hl2 & Hc & Hd).
    cbn [mbind outcome_bind orb]. rewrite app_assoc in Hl2 |- *.
    destruct (update_ends_ok W m2 (la ++ lc) e ld h g (Z.of_nat (length la)) (negb (bool_decide (lc = []))) Hl2)
      as (s' & -> & Em & El & Hend).
    + intros x Hm Hx. destruct la as [|y la]; [|cbn in Hx; injection Hx as <-; by apply Hh].
      cbn in Hm, Hx. rewrite andb_true_r in Hm. case_bool_decide; [subst lc; done|done].
    + intros x _ Hx. apply Hg. rewrite last_app. by rewrite Hx.
    + exists s'. rewrite Em, El. split_and!; try done.
      * rewrite <-!app_assoc. cbn. rewrite app_assoc, app_assoc. symmetry. apply Permutation_middle.
      * apply sorted_insert; [by rewrite <-app_assoc| |].
        -- intros x [Hx|Hx]%elem_of_app; [exact (before_last W la e x Hsa Ha Hx)|].
           apply swaps_before. by apply (proj1 (Forall_forall _ _) Hc x Hx).
        -- intros y Hy. destruct (sorted_app _ _ _ Hsb) as [_ Hsd]. exact (before_head W ld e y Hsd Hd Hy).
  - cbn [mbind outcome_bind].
    destruct (update_ends_ok W m1 la e (lb ++ l2) h g (Z.of_nat (length (la ++ lb))) true Hl1)
      as (s' & -> & Em & El & Hend).
    + intros x _ Hx. apply Hh. by destruct la.
    + intros x Hm Hx. cbn [andb] in Hm. apply Hg. apply Z.eqb_neq in Hm. unfold len in Hm.
      rewrite !length_app in Hm. cbn in Hm. rewrite length_app in Hm.
      destruct l2 as [|y l2]; [cbn in Hm; lia|]. rewrite last_app in Hx.
      by destruct (last (y :: l2)) eqn:E2; [|apply last_None in E2].
    + exists s'. rewrite Em, El. split_and!; try done.
      * rewrite <-app_assoc. symmetry. apply Permutation_middle.
      * assert (∀ y, y ∈ lb → before W e y) as Hbe.
        { intros y Hy. apply swaps_before. by apply (proj1 (Forall_forall _ _) Hb y Hy). }
        apply sorted_insert; [done|intros x Hx; exact (before_last W la e x Hsa Ha Hx)|].
        intros y [Hy|Hy]%elem_of_app; [by apply Hbe|].
        destruct lb as [|z lb]; [done|]. eapply before_trans; [apply (Hbe z); set_solver|].
        eapply sorted_pairs; [exact Hsb|set_solver|done].
Qed.

(** ** Deleting *)

Lemma shift_left_ok h g l2 : ∀ m l1 y,
  NoDup l2 → (∀ x, x ∈ l2 → is_Some (m !! x)) →
  ∃ m' z, shift_left (length l2) (mkSorted m (l1 ++ y :: l2) h g) (Z.of_nat (length l1)) =
      Ret (mkSorted m' (l1 ++ l2 ++ [z]) h g) ∧
    ∀ x, m' !! x = if decide (x ∈ l2) then (λ el, mkElement (weight el) (el_index el - 1)) <$> m !! x else m !! x.
Proof.
  induction l2 as [|x l2 IH]; intros m l1 y Hnd Hm; cbn [length shift_left].
  - exists m, y. split; [done|]. intros x. by rewrite decide_False by set_solver.
  - apply NoDup_cons in Hnd as [Hx Hnd]. cbn [sortedElements].
    replace (Z.of_nat (length l1) + 1) with (Z.of_nat (length l1 + 1)) by lia.
    rewrite (index_nat _ (length l1 + 1) x)
      by (rewrite lookup_app_r by lia; by replace (length l1 + 1 - length l1)%nat with 1%nat by lia).
    cbn [mbind outcome_bind]. rewrite store_nat by (rewrite length_app; cbn; lia). cbn [mbind outcome_bind].
    unfold elem. cbn [elements]. destruct (Hm x) as [el Hel]; [set_solver|]. rewrite Hel. cbn [mbind outcome_bind].
    unfold set_elements. cbn [heaviestElement lightestElement].
    assert (<[length l1 := x]> (l1 ++ y :: x :: l2) = (l1 ++ [x]) ++ x :: l2) as ->.
    { rewrite <-app_assoc. pose proof (insert_app_r l1 (y :: x :: l2) 0 x) as E. by rewrite Nat.add_0_r in E. }
    replace (length l1 + 1)%nat with (length (l1 ++ [x])) by (rewrite length_app; done).
    destruct (IH (<[x := mkElement (weight el) (el_index el - 1)]> m) (l1 ++ [x]) x Hnd) as (m' & z & -> & Hm').
    { intros x' Hx'. rewrite lookup_insert_ne by congruence. apply Hm. set_solver. }
    exists m', z. rewrite <-!app_assoc. split; [done|]. intros x'. rewrite Hm'.
    destruct (decide (x' = x)) as [->|Hne].
    + rewrite decide_False, decide_True, lookup_insert_eq, Hel by set_solver. done.
    + rewrite lookup_insert_ne by done. rewrite (decide_ext (x' ∈ l2) (x' ∈ x :: l2)) by set_solver. done.
Qed.

Lemma laid_delete W m m' l1 e l2 :
  laid W m (l1 ++ e :: l2) →
  (∀ x, m' !! x = if decide (x ∈ l2) then (λ el, mkElement (weight el) (el_index el - 1)) <$> base.delete e m !! x
                  else base.delete e m !! x) →
  laid W m' (l1 ++ l2).
Proof.
  intros [Hnd Hel] Hm'. pose proof Hnd as (Hn1 & Hd & Hn2)%NoDup_app. apply NoDup_cons in Hn2 as [He Hn2].
  assert (e ∉ l1) as He1 by set_solver.
  split; [apply NoDup_app; set_solver|]. intros x el. rewrite Hm'.
  assert (∀ i, l1 !! i = Some x → x ∈ l1) as Hi1 by (intros i; apply list_elem_of_lookup_2).
  assert (∀ i, l2 !! i = Some x → x ∈ l2) as Hi2 by (intros i; apply list_elem_of_lookup_2).
  case_decide as Hx2.
  - assert (x ≠ e) by congruence. rewrite lookup_delete_ne by done. rewrite fmap_Some. split.
    + intros (el' & (i & Hi & ->)%Hel & ->). apply lookup_middle_split in Hi as [[_ Hi]|[[-> ->]|(j & -> & Hj)]].
      * destruct (Hd x); [by apply (Hi1 i)|set_solver].
      * done.
      * exists (length l1 + j)%nat. rewrite lookup_app_r by lia. split; [|cbn; f_equal; lia]. rewrite <-Hj. f_equal. lia.
    + intros (i & Hi & ->). exists (mkElement (W x) (Z.of_nat (S i))). split; [|cbn; f_equal; lia].
      apply Hel. exists (S i). split; [|done]. apply lookup_app_Some in Hi as [Hi|[Hle Hi]].
      * destruct (Hd x); [by apply (Hi1 i)|set_solver].
      * apply lookup_middle_split. right; right. exists (i - length l1)%nat. split; [lia|done].
  - rewrite lookup_delete_Some, Hel. split.
    + intros [Hne (i & Hi & ->)]. exists i. split; [|done].
      apply lookup_middle_split in Hi as [[Hlt Hi]|[[-> ->]|(j & -> & Hj)]].
      * by rewrite lookup_app_l by lia.
      * done.
      * destruct Hx2. by apply (Hi2 j).
    + intros (i & Hi & ->). apply lookup_app_Some in Hi as [Hi|[_ Hi]]; [|by destruct Hx2; apply (Hi2 (i - length l1)%nat)].
      split; [intros <-; by apply He1, (Hi1 i)|]. exists i. split; [|done]. apply lookup_middle_split. left.
      split; [by eapply lookup_lt_Some|done].
Qed.

Lemma sorted_remove (R : T → T → Prop) l1 e l2 : StronglySorted R (l1 ++ e :: l2) → StronglySorted R (l1 ++ l2).
Proof.
  induction l1 as [|x l1 IH]; cbn; intros [Hs Hx]%StronglySorted_inv; [done|]. constructor; [by apply IH|].
  rewrite Forall_app, Forall_cons in Hx. apply Forall_app. naive_solver.
Qed.

(** The set holds the elements of the slice, by weight, and knows its ends. *)
Record sorted_ok W s : Prop := {
  ok_laid : laid W (elements s) (sortedElements s);
  ok_sorted : StronglySorted (before W) (sortedElements s);
  ok_ends : ends s;
}.

Lemma deleteSorted_ok W s e :
  sorted_ok W s →
  ∃ s', deleteSorted zero s e = Ret s' ∧ sorted_ok W s' ∧
    ∀ x, x ∈ sortedElements s' ↔ x ∈ sortedElements s ∧ x ≠ e.
Proof.
  intros [Hl Hs [Hh Hg]]. destruct s as [m l h g]. cbn [elements sortedElements heaviestElement lightestElement] in *.
  unfold deleteSorted. cbn [elements sortedElements]. destruct (m !! e) as [el|] eqn:Hel.
  2: { eexists. split; [done|]. split; [by split|]. intros x. split; [|tauto]. intros Hx. split; [done|]. intros ->.
       apply (laid_elem_of _ _ _ _ Hl) in Hx as [? ?]. congruence. }
  assert (e ∈ l) as He by (apply (laid_elem_of _ _ _ _ Hl); by rewrite Hel).
  apply list_elem_of_split in He as (l1 & l2 & ->).
  pose proof (laid_lookup _ _ _ _ _ Hl) as Hel'. rewrite Hel in Hel'. injection Hel' as ->. cbn [el_index].
  pose proof (laid_nodup _ _ _ Hl) as (Hn1 & Hd & Hn2)%NoDup_app. apply NoDup_cons in Hn2 as [He2 Hn2].
  assert (e ∉ l1) as He1 by set_solver.
  change (set_elements (mkSorted m (l1 ++ e :: l2) h g) (base.delete e m) (l1 ++ e :: l2))
    with (mkSorted (base.delete e m) (l1 ++ e :: l2) h g). cbn [sortedElements].
  assert (Z.to_nat (len (l1 ++ e :: l2) - 1 - Z.of_nat (length l1)) = length l2) as ->
    by (unfold len; rewrite length_app; cbn; lia).
  destruct (shift_left_ok h g l2 (base.delete e m) l1 e Hn2) as (m' & z & -> & Hm').
  { intros x Hx. rewrite lookup_delete_ne by congruence. apply (laid_elem_of _ _ _ _ Hl). set_solver. }
  cbn [mbind outcome_bind sortedElements].
  replace (len (l1 ++ l2 ++ [z]) - 1) with (Z.of_nat (length (l1 ++ l2))) by (unfold len; rewrite !length_app; cbn; lia).
  rewrite slice_to_nat by (rewrite !length_app; lia). cbn [mbind outcome_bind].
  rewrite app_assoc, take_app_length. unfold set_elements. cbn [elements heaviestElement lightestElement].
  assert (laid W m' (l1 ++ l2)) as Hl' by (by eapply laid_delete).
  assert (StronglySorted (before W) (l1 ++ l2)) as Hs' by (by eapply sorted_remove).
  set (hd := default zero (head (l1 ++ l2))). set (la := default zero (last (l1 ++ l2))).
  match goal with |- ∃ s', (s ← ?A; _) = _ ∧ _ => assert (A = Ret (mkSorted m' (l1 ++ l2) hd g)) as -> end.
  { destruct l1 as [|y l1]; cbn [length].
    - cbn [app]. unfold hd. cbn. destruct l2 as [|y l2]; [done|]. cbn.
      replace (0 <? len (y :: l2)) with true by (symmetry; apply Z.ltb_lt; unfold len; cbn; lia). done.
    - replace (Z.of_nat (S (length l1)) =? 0) with false by (symmetry; apply Z.eqb_neq; lia). cbn in Hh. by subst h. }
  cbn [mbind outcome_bind]. exists (mkSorted m' (l1 ++ l2) hd la). split.
  - destruct l2 as [|y l2].
    + rewrite app_nil_r in *. unfold len. rewrite Z.eqb_refl. destruct l1 as [|x l1] using rev_ind; [done|]. clear IHl1.
      rewrite length_app. cbn [length].
      replace (0 <? Z.of_nat (length l1 + 1)) with true by (symmetry; apply Z.ltb_lt; lia).
      replace (Z.of_nat (length l1 + 1) - 1) with (Z.of_nat (length l1)) by lia.
      rewrite (index_nat _ (length l1) x) by (by apply list_lookup_middle). cbn. unfold la, hd. by rewrite app_nil_r, last_snoc.
    + unfold len. rewrite length_app. cbn [length].
      replace (Z.of_nat (length l1) =? Z.of_nat (length l1 + S (length l2))) with false by (symmetry; apply Z.eqb_neq; lia).
      do 2 f_equal. rewrite Hg. unfold la. rewrite (cons_middle e l1 (y :: l2)), app_assoc.
      rewrite !last_app. by destruct (last (y :: l2)) eqn:E2; [|apply last_None in E2].
  - split; [by split|]. intros x. cbn [sortedElements]. set_solver.
Qed.

(** ** The other operations *)

Lemma laid_weight W W' m l1 e l2 :
  laid W m (l1 ++ e :: l2) → (∀ x, x ≠ e → W' x = W x) →
  laid W' (<[e := mkElement (W' e) (Z.of_nat (length l1))]> m) (l1 ++ e :: l2).
Proof.
  intros Hl HW. pose proof Hl as [Hnd Hel]. split; [done|]. intros x el. rewrite lookup_insert_Some, Hel. split.
  - intros [[<- <-]|[Hne (i & Hi & ->)]]; [|exists i; by rewrite HW].
    exists (length l1). split; [by apply list_lookup_middle|done].
  - intros (i & Hi & ->). destruct (decide (e = x)) as [->|Hne].
    + left. split; [done|]. f_equal. f_equal. eapply NoDup_lookup; [exact Hnd|by apply list_lookup_middle|done].
    + right. split; [done|]. exists i. by rewrite HW.
Qed.

Lemma laid_ext W W' m l : laid W m l → (∀ x, x ∈ l → W' x = W x) → laid W' m l.
Proof.
  intros [Hnd Hel] HW. split; [done|]. intros x el. rewrite Hel.
  split; intros (i & Hi & ->); exists i; (split; [done|]); rewrite HW; try done; by eapply list_elem_of_lookup_2.
Qed.

Lemma before_ext W W' l : StronglySorted (before W) l → (∀ x, x ∈ l → W' x = W x) → StronglySorted (before W') l.
Proof.
  induction l as [|x l IH]; intros Hs HW; [constructor|]. apply StronglySorted_inv in Hs as [Hs Hx]. constructor.
  - apply IH; [done|]. intros y Hy. apply HW. set_solver.
  - rewrite Forall_forall in Hx |- *. intros y Hy. specialize (Hx y Hy). unfold before in *.
    by rewrite !HW by set_solver.
Qed.

Lemma sorted_ok_ext W W' s : sorted_ok W s → (∀ x, x ∈ sortedElements s → W' x = W x) → sorted_ok W' s.
Proof. intros [? ? ?] HW. split; [by eapply laid_ext|by eapply before_ext|done]. Qed.

(** The weight of an element is set, and the element goes to its place. *)
Lemma weight_updated_ok W W' m l1 e l2 h g :
  laid W m (l1 ++ e :: l2) → StronglySorted (before W) (l1 ++ l2) → ends_but h g l1 l2 →
  (∀ x, x ≠ e → W' x = W x) →
  ∃ s', weight_updated less (mkSorted m (l1 ++ e :: l2) h g) e (W' e) = Ret s' ∧ sorted_ok W' s' ∧
    ∀ x, x ∈ sortedElements s' ↔ x ∈ l1 ++ e :: l2.
Proof.
  intros Hl Hs He HW. unfold weight_updated, elem. cbn [elements]. rewrite (laid_lookup _ _ _ _ _ Hl).
  cbn [mbind outcome_bind el_index]. unfold set_elements. cbn [sortedElements heaviestElement lightestElement].
  pose proof (laid_nodup _ _ _ Hl) as (_ & Hd & Hn2)%NoDup_app. apply NoDup_cons in Hn2 as [He2 _].
  assert (e ∉ l1) as He1 by set_solver.
  destruct (updatePosition_ok W' _ l1 e l2 h g (laid_weight _ _ _ _ _ _ Hl HW) He) as (s' & -> & Hl' & Hp & Hs' & Hend).
  { eapply before_ext; [exact Hs|]. intros x Hx. apply HW. intros ->. set_solver. }
  exists s'. split; [done|]. split; [by split|]. intros x. rewrite Hp. set_solver.
Qed.

Lemma ends_middle m l1 e l2 h g : ends (mkSorted m (l1 ++ e :: l2) h g) → ends_but h g l1 l2.
Proof.
  intros [Eh Eg]. cbn in Eh, Eg. split; intros x Hx.
  - destruct l1; [done|]. cbn in *. congruence.
  - rewrite Eg, (cons_middle e l1 l2), app_assoc, last_app, Hx. done.
Qed.

Lemma set_weight_ok W W' s e :
  sorted_ok W s → e ∈ sortedElements s → (∀ x, x ≠ e → W' x = W x) →
  ∃ s', weight_updated less s e (W' e) = Ret s' ∧ sorted_ok W' s' ∧
    ∀ x, x ∈ sortedElements s' ↔ x ∈ sortedElements s.
Proof.
  intros [Hl Hs He] Hin HW. destruct s as [m l h g]. cbn [elements sortedElements] in *.
  apply list_elem_of_split in Hin as (l1 & l2 & ->).
  apply (weight_updated_ok W W' m l1 e l2 h g Hl); [by eapply sorted_remove|by eapply ends_middle|done].
Qed.

Lemma addSorted_ok W s e :
  sorted_ok W s →
  ∃ s', addSorted less s e (W e) = Ret s' ∧ sorted_ok W s' ∧
    ∀ x, x ∈ sortedElements s' ↔ x ∈ sortedElements s ∨ x = e.
Proof.
  intros Hok. pose proof Hok as [Hl Hs [Hh Hg]]. destruct s as [m l h g].
  cbn [elements sortedElements heaviestElement lightestElement] in *. unfold addSorted. cbn [elements].
  destruct (m !! e) as [el|] eqn:Hel.
  - eexists. split; [done|]. split; [done|]. intros x. cbn [sortedElements].
    assert (e ∈ l) by (apply (laid_elem_of _ _ _ _ Hl); by rewrite Hel). set_solver.
  - assert (e ∉ l) as Hni by (intros Hin; apply (laid_elem_of _ _ _ _ Hl) in Hin as [? ?]; congruence).
    pose (W0 := λ x, if decide (x = e) then 0 else W x).
    assert (∀ x, x ≠ e → W0 x = W x) as HW0 by (intros x Hx; unfold W0; by rewrite decide_False).
    assert (laid W0 (<[e := mkElement 0 (len l)]> m) (l ++ [e])) as Hl0.
    { destruct Hl as [Hnd Hle]. split; [apply NoDup_app; split_and!; [done|set_solver|apply NoDup_singleton]|].
      intros x el. rewrite lookup_insert_Some, Hle. split.
      - intros [[<- <-]|[Hne (i & Hi & ->)]].
        + exists (length l). split; [by apply list_lookup_middle|]. unfold W0, len. by rewrite decide_True.
        + exists i. rewrite HW0 by done. split; [|done]. rewrite lookup_app_l by (by eapply lookup_lt_Some). done.
      - intros (i & [Hi|[-> ->]]%lookup_snoc_Some & ->).
        + right. assert (x ≠ e) by (intros ->; by apply Hni, (list_elem_of_lookup_2 _ i)).
          split; [done|]. exists i. by rewrite HW0.
        + left. unfold W0, len. by rewrite decide_True. }
    destruct (weight_updated_ok W0 W _ l e [] h g Hl0) as (s' & E & Hs' & Hel').
    + rewrite app_nil_r. eapply before_ext; [exact Hs|]. intros x Hx. apply HW0. intros ->. done.
    + split; intros x Hx; [|done]. by rewrite Hh, Hx.
    + intros x Hx. by rewrite HW0.
    + exists s'. split; [exact E|]. split; [done|]. intros x. rewrite Hel'. set_solver.
Qed.

(** ** Sequences of operations *)

(** The elements of the set after an operation. *)
Definition spec_op (els : gset T) (op : set_op T) : gset T :=
  match op with AddElement e => {[e]} ∪ els | DeleteElement e => els ∖ {[e]} | SetWeight _ _ => els end.

Definition weight_of (weights : gmap T Z) (x : T) : Z := default 0 (weights !! x).

Lemma weight_of_insert weights e w x : weight_of (<[e := w]> weights) x = if decide (x = e) then w else weight_of weights x.
Proof.
  unfold weight_of. case_decide as E; [subst; by rewrite lookup_insert_eq|by rewrite lookup_insert_ne by done].
Qed.

Lemma run_op_ok s weights els op :
  sorted_ok (weight_of weights) s → (∀ x, x ∈ sortedElements s ↔ x ∈ els) →
  ∃ s' weights', run_op zero less (s, weights) op = Ret (s', weights') ∧
    sorted_ok (weight_of weights') s' ∧ ∀ x, x ∈ sortedElements s' ↔ x ∈ spec_op els op.
Proof.
  intros Hok Hels. destruct op as [e|e|e w]; cbn [run_op spec_op].
  - destruct (addSorted_ok _ s e Hok) as (s' & E & Hok' & Hx). fold (weight_of weights e). rewrite E.
    exists s', weights. split; [done|]. split; [done|]. intros x. rewrite Hx, Hels. set_solver.
  - destruct (deleteSorted_ok _ s e Hok) as (s' & -> & Hok' & Hx).
    exists s', weights. split; [done|]. split; [done|]. intros x. rewrite Hx, Hels. set_solver.
  - fold (weight_of weights e).
    pose proof (laid_elem_of _ _ _ e (ok_laid _ _ Hok)) as Hin.
    assert (∀ x, x ≠ e → weight_of (<[e := w]> weights) x = weight_of weights x) as HW.
    { intros x Hx. rewrite weight_of_insert. by rewrite decide_False. }
    assert (weight_of (<[e := w]> weights) e = w) as He by (rewrite weight_of_insert; by rewrite decide_True).
    destruct (elements s !! e) as [el|].
    + destruct (Z.eqb_spec w (weight_of weights e)) as [Ew|Ew].
      * exists s, (<[e := w]> weights). split; [done|]. split; [|done]. eapply sorted_ok_ext; [exact Hok|].
        intros x _. destruct (decide (x = e)) as [->|Hne]; [congruence|by apply HW].
      * destruct (set_weight_ok _ _ s e Hok (proj1 Hin (mk_is_Some _ _ eq_refl)) HW) as (s' & E & Hok' & Hx).
        rewrite He in E. rewrite E. exists s', (<[e := w]> weights). split; [done|]. split; [done|].
        intros x. by rewrite Hx.
    + exists s, (<[e := w]> weights). split; [done|]. split; [|done]. eapply sorted_ok_ext; [exact Hok|].
      intros x Hx. apply HW. intros ->. apply Hin in Hx as [? ?]. done.
Qed.

Lemma run_ops_ok ops : ∀ s weights els,
  sorted_ok (weight_of weights) s → (∀ x, x ∈ sortedElements s ↔ x ∈ els) →
  ∃ s' weights', run_ops zero less (s, weights) ops = Ret (s', weights') ∧
    sorted_ok (weight_of weights') s' ∧ ∀ x, x ∈ sortedElements s' ↔ x ∈ foldl spec_op els ops.
Proof.
  induction ops as [|op ops IH]; intros s weights els Hok Hels; cbn [run_ops foldl]; [by exists s, weights|].
  destruct (run_op_ok s weights els op Hok Hels) as (s' & weights' & -> & Hok' & Hels'). cbn [mbind outcome_bind].
  by apply IH.
Qed.

(** C31: A sorted set is sorted.  However elements are added and deleted and their
    weights change, before or while they are in the set, no operation panics and
    the loops end; the slice has exactly the elements of the set, each once; a
    heavier element stands before a lighter one and, between equal weights, no
    element stands before one that it is less than; the references to the
    heaviest and the lightest element are those of the first and the last, or the
    zero value of an empty set. *)
Theorem SortedSet_sorted (ops : list (set_op T)) :
  ∃ s weights, run_ops zero less (newSortedSet zero, ∅) ops = Ret (s, weights) ∧
    NoDup (Descending s) ∧ (∀ x, x ∈ Descending s ↔ x ∈ foldl spec_op ∅ ops) ∧
    StronglySorted (λ a b, weight_of weights b < weight_of weights a ∨
      weight_of weights a = weight_of weights b ∧ less a b = false) (Descending s) ∧
    heaviestElement s = default zero (head (Descending s)) ∧
    lightestElement s = default zero (head (Ascending s)).
Proof.
  destruct (run_ops_ok ops (newSortedSet zero) ∅ ∅) as (s & weights & E & [Hl Hs [Hh Hg]] & Hels).
  - split; [|constructor|done]. split; [constructor|]. intros x el. cbn. split; [done|by intros (i & ? & _)].
  - intros x. cbn. set_solver.
  - exists s, weights. split_and!; [done|apply Hl|done| |done|].
    + unfold Descending. clear -Hs. induction Hs as [|x l Hs IH Hx]; constructor; [done|].
      eapply Forall_impl; [exact Hx|]. intros y. apply before_spec.
    + rewrite Hg. unfold Ascending. f_equal. generalize (sortedElements s). intros l. clear.
      destruct l as [|x l] using rev_ind; [done|]. by rewrite last_snoc, rev_app_distr.
Qed.

End Sorting.

Lemma SortedSet_sorted_witness :
  ∃ s weights, run_ops 0 Z.ltb (newSortedSet 0, ∅)
    [SetWeight 1 5; AddElement 1; AddElement 2; AddElement 3; SetWeight 2 7; SetWeight 3 5; DeleteElement 2] = Ret (s, weights) ∧
    heaviestElement s = default 0 (head (Descending s)).
Proof.
  destruct (SortedSet_sorted 0 Z.ltb) with (ops := [SetWeight 1 5; AddElement 1; AddElement 2; AddElement 3;
    SetWeight 2 7; SetWeight 3 5; DeleteElement 2]) as (s & weights & E & _ & _ & _ & Hh & _).
  - intros a b. rewrite Z.ltb_lt, Z.ltb_ge. lia.
  - intros a b c. rewrite !Z.ltb_ge. lia.
  - exists s, weights. split; [exact E|exact Hh].
Defined.

(** The order of equal weights is that of [Less], downwards. *)
Lemma sorted_example :
  (λ r, match r with Ret (s, _) => Descending s | Panic _ => [] end)
    (run_ops 0 Z.ltb (newSortedSet 0, ∅)
      [SetWeight 1 5; AddElement 1; AddElement 2; AddElement 3; SetWeight 2 7; SetWeight 3 5]) = [2; 3; 1].
Proof. done. Qed.
