(* ===== verification/EvictionState.v ===== *)
(** * ds/reactive: eviction state

    [src/ds/reactive/eviction_state_impl.go].  Slots are integers of a type
    [U], signed or not (the constraint also allows floats).  An event is a number; [triggered] holds those that were triggered.
    [evictedSlotEvent], the one event that is triggered from the start, is the
    event [None].  The mutex makes [EvictionEvent] and [evict] atomic; [Evict]
    triggers the events it got after it has released the mutex. *)

From S2P Require Import Prelude.

Section EvictionState.
Context (U : ity).

Record evictionState : Type := mkEviction {
  lastEvictedSlot : option Z;
  evictionEvents : gmap Z nat;
  nextEvent : nat;            (* the number of events created *)
  triggered : gset nat;
}.

Definition newEvictionState : evictionState := mkEviction None ∅ 0 ∅.

Definition LastEvictedSlot (e : evictionState) : Z :=
  match lastEvictedSlot e with None => 0 | Some s => s end.

Definition EvictionEvent (e : evictionState) (slot : Z) : evictionState * option nat :=
  let create :=
    match evictionEvents e !! slot with
    | Some ev => (e, Some ev)
    | None =>
        (mkEviction (lastEvictedSlot e) (<[slot := nextEvent e]> (evictionEvents e)) (S (nextEvent e)) (triggered e),
         Some (nextEvent e))
    end in
  match lastEvictedSlot e with
  | None => create
  | Some last => if slot >? last then create else (e, None)
  end.

(** The loop of [evict] from [i] on; [None] when the fuel was not enough. *)
Fixpoint collect (fuel : nat) (i slot : Z) (events : gmap Z nat) (toTrigger : list nat) :
    option (gmap Z nat * list nat) :=
  match fuel with
  | O => None
  | S fuel =>
      if i <=? slot then
        match events !! i with
        | Some ev => collect fuel (wrap U (i + 1)) slot (base.delete i events) (toTrigger ++ [ev])
        | None => collect fuel (wrap U (i + 1)) slot events toTrigger
        end
      else Some (events, toTrigger)
  end.

Definition evict (fuel : nat) (e : evictionState) (slot : Z) : option (evictionState * list nat) :=
  let run start :=
    match collect fuel start slot (evictionEvents e) [] with
    | None => None
    | Some (events, toTrigger) =>
        Some (mkEviction (Some slot) events (nextEvent e) (triggered e), toTrigger)
    end in
  match lastEvictedSlot e with
  | None => run 0
  | Some last => if slot <=? last then Some (e, []) else run (wrap U (last + 1))
  end.

(** [Evict]: the events are triggered one after the other. *)
Definition trigger (e : evictionState) (ev : nat) : evictionState :=
  mkEviction (lastEvictedSlot e) (evictionEvents e) (nextEvent e) ({[ev]} ∪ triggered e).

Definition Evict (fuel : nat) (e : evictionState) (slot : Z) : option evictionState :=
  match evict fuel e slot with
  | None => None
  | Some (e, toTrigger) => Some (foldl trigger e toTrigger)
  end.

Definition WasTriggered (e : evictionState) (ev : option nat) : bool :=
  match ev with None => true | Some ev => bool_decide (ev ∈ triggered e) end.

(** ** The loop *)

Definition evicted (e : evictionState) (slot : Z) : bool :=
  match lastEvictedSlot e with None => false | Some last => slot <=? last end.

(** Enough fuel: one round per slot and one to leave the loop.  The last slot of
    the type is left out, since after it the counter starts again at 0. *)
Lemma collect_ok n : ∀ fuel i slot events acc,
  0 ≤ i → slot < ity_max U → Z.to_nat (slot + 1 - i) = n → (n < fuel)%nat →
  ∃ events' acc', collect fuel i slot events acc = Some (events', acc ++ acc') ∧
    (∀ s, events' !! s = if decide (i ≤ s ≤ slot) then None else events !! s) ∧
    (∀ ev, ev ∈ acc' ↔ ∃ s, i ≤ s ≤ slot ∧ events !! s = Some ev).
Proof.
  induction n as [|n IH]; intros fuel i slot events acc Hi Hs Hn Hf; (destruct fuel as [|fuel]; [lia|]); cbn [collect].
  - rewrite (proj2 (Z.leb_gt _ _)) by lia. exists events, []. rewrite app_nil_r. split_and!; [done| |].
    + intros s. by rewrite decide_False by lia.
    + intros ev. split; [by intros ?%elem_of_nil|]. intros (s & ? & _). lia.
  - rewrite (proj2 (Z.leb_le _ _)) by lia.
    pose proof (ity_min_0 U). rewrite (wrap_id U (i + 1)) by (unfold in_range; lia).
    destruct (events !! i) as [ev|] eqn:Ei.
    + destruct (IH fuel (i + 1) slot (base.delete i events) (acc ++ [ev])) as (events' & acc' & -> & He & Ha); try lia.
      exists events', (ev :: acc'). rewrite <-app_assoc. split_and!; [done| |].
      * intros s. rewrite He. destruct (decide (s = i)) as [->|Hne].
        -- rewrite decide_False, decide_True by lia. apply lookup_delete_eq.
        -- rewrite lookup_delete_ne by done. rewrite (decide_ext (i + 1 ≤ s ≤ slot) (i ≤ s ≤ slot)) by lia. done.
      * intros ev'. rewrite elem_of_cons, Ha. split.
        -- intros [->|(s & Hs' & E)]; [exists i; split; [lia|done]|].
           rewrite lookup_delete_ne in E by lia. exists s. split; [lia|done].
        -- intros (s & Hs' & E). destruct (decide (s = i)) as [->|Hne]; [left; congruence|right].
           exists s. rewrite lookup_delete_ne by done. split; [lia|done].
    + destruct (IH fuel (i + 1) slot events acc) as (events' & acc' & -> & He & Ha); try lia.
      exists events', acc'. split_and!; [done| |].
      * intros s. rewrite He. destruct (decide (s = i)) as [->|Hne].
        -- rewrite decide_False, decide_True by lia. done.
        -- rewrite (decide_ext (i + 1 ≤ s ≤ slot) (i ≤ s ≤ slot)) by lia. done.
      * intros ev'. rewrite Ha. split; intros (s & Hs' & E); exists s; (split; [|done]); [lia|].
        destruct (decide (s = i)) as [->|]; [congruence|lia].
Qed.

(** ** The state and the events that were handed out *)

(** [handed] lists the calls of [EvictionEvent] and their events. *)
Record eviction_ok (e : evictionState) (handed : list (Z * option nat)) : Prop := {
  ev_slots slot ev : evictionEvents e !! slot = Some ev →
    0 ≤ slot ∧ evicted e slot = false ∧ ev ∉ triggered e ∧ (ev < nextEvent e)%nat;
  ev_inj slot slot' ev : evictionEvents e !! slot = Some ev → evictionEvents e !! slot' = Some ev → slot = slot';
  ev_fresh ev : ev ∈ triggered e → (ev < nextEvent e)%nat;
  ev_last last : lastEvictedSlot e = Some last → 0 ≤ last < ity_max U;
  ev_handed slot ev : (slot, ev) ∈ handed →
    if evicted e slot then WasTriggered e ev = true
    else ∃ n, ev = Some n ∧ evictionEvents e !! slot = Some n;
}.

Lemma EvictionEvent_ok e handed slot :
  eviction_ok e handed → 0 ≤ slot →
  eviction_ok (EvictionEvent e slot).1 ((slot, (EvictionEvent e slot).2) :: handed).
Proof.
  intros Hok Hs. pose proof Hok as [H1 H2 H3 H4 H5].
  assert (EvictionEvent e slot = if evicted e slot then (e, None) else
    match evictionEvents e !! slot with
    | Some ev => (e, Some ev)
    | None => (mkEviction (lastEvictedSlot e) (<[slot := nextEvent e]> (evictionEvents e)) (S (nextEvent e)) (triggered e),
         Some (nextEvent e))
    end) as ->.
  { unfold EvictionEvent, evicted. destruct (lastEvictedSlot e) as [last|]; [|done].
    rewrite Z.gtb_ltb. destruct (Z.ltb_spec last slot), (Z.leb_spec slot last); done || lia. }
  destruct (evicted e slot) eqn:Ev; cbn [fst snd].
  { split; try done. intros s ev [[= -> ->]|?]%elem_of_cons; [by rewrite Ev|by apply H5]. }
  destruct (evictionEvents e !! slot) as [ev0|] eqn:E0; cbn [fst snd].
  { split; try done. intros s ev [[= -> ->]|?]%elem_of_cons; [rewrite Ev; by exists ev0|by apply H5]. }
  split; cbn.
  - intros s ev [[<- <-]|[Hne E]]%lookup_insert_Some.
    + split_and!; [done|done| |lia]. intros Hin%H3. lia.
    + destruct (H1 s ev E) as (? & ? & ? & ?). split_and!; done || lia.
  - intros s s' ev [[<- <-]|[Hne E]]%lookup_insert_Some [[<- E']|[Hne' E']]%lookup_insert_Some; try done.
    + destruct (H1 s' _ E') as (_ & _ & _ & ?). lia.
    + subst ev. destruct (H1 s _ E) as (_ & _ & _ & ?). lia.
    + by eapply H2.
  - intros ev Hin%H3. lia.
  - done.
  - intros s ev [[= -> ->]|Hin]%elem_of_cons.
    + unfold evicted in Ev |- *. cbn. rewrite Ev. exists (nextEvent e). split; [done|]. apply lookup_insert_eq.
    + specialize (H5 s ev Hin). unfold evicted in *. cbn. destruct (match lastEvictedSlot e with Some _ => _ | None => _ end); [done|].
      destruct H5 as (n & -> & En). exists n. split; [done|]. rewrite lookup_insert_ne; [done|]. congruence.
Qed.

Lemma foldl_trigger e l :
  lastEvictedSlot (foldl trigger e l) = lastEvictedSlot e ∧ evictionEvents (foldl trigger e l) = evictionEvents e ∧
  nextEvent (foldl trigger e l) = nextEvent e ∧ ∀ ev, ev ∈ triggered (foldl trigger e l) ↔ ev ∈ triggered e ∨ ev ∈ l.
Proof.
  revert e. induction l as [|x l IH]; intros e; cbn [foldl]; [set_solver|].
  destruct (IH (trigger e x)) as (-> & -> & -> & Hx). split_and!; try done. intros ev. rewrite Hx. cbn. set_solver.
Qed.

Lemma Evict_ok e handed slot fuel :
  eviction_ok e handed → 0 ≤ slot < ity_max U → (Z.to_nat (slot + 1) < fuel)%nat →
  ∃ e', Evict fuel e slot = Some e' ∧ eviction_ok e' handed ∧
    lastEvictedSlot e' = Some (Z.max slot (default slot (lastEvictedSlot e))).
Proof.
  intros Hok Hs Hf. pose proof (ity_min_0 U) as Hmin. pose proof Hok as [H1 H2 H3 H4 H5]. unfold Evict, evict.
  assert (∀ start, 0 ≤ start → (∀ s, 0 ≤ s → s < start → evicted e s = true) →
    (∀ s, start ≤ s → evicted e s = false) → start ≤ slot →
    ∃ e', match match collect fuel start slot (evictionEvents e) [] with
          | None => None
          | Some (events, toTrigger) => Some (mkEviction (Some slot) events (nextEvent e) (triggered e), toTrigger)
          end with None => None | Some (e, toTrigger) => Some (foldl trigger e toTrigger) end = Some e' ∧
      eviction_ok e' handed ∧ lastEvictedSlot e' = Some slot) as Hrun.
  { intros start Hst Hlow Hhigh Hle.
    destruct (collect_ok _ fuel start slot (evictionEvents e) [] Hst (proj2 Hs) eq_refl) as (events & acc & -> & He & Ha); [lia|].
    cbn [app]. eexists. split; [done|].
    destruct (foldl_trigger (mkEviction (Some slot) events (nextEvent e) (triggered e)) acc) as (E1 & E2 & E3 & E4).
    cbn in E1, E2, E3, E4. split; [|done].
    set (e' := foldl trigger _ _) in *. assert (∀ s, evicted e' s = (s <=? slot)) as Hev by (intros s; unfold evicted; by rewrite E1).
    split.
    - intros s ev. rewrite E2, He. case_decide as Hd; [done|]. intros E. destruct (H1 s ev E) as (Hs0 & Hse & Hnt & Hlt).
      rewrite Hev, E3, E4. split_and!; [done| | |done].
      + apply Z.leb_gt. destruct (decide (s < start)) as [Hlt'|]; [rewrite (Hlow s Hs0 Hlt') in Hse; done|]. lia.
      + intros [?|(s' & Hs' & E')%Ha]; [done|]. rewrite (H2 _ _ _ E E') in Hd. done.
    - intros s s' ev. rewrite E2, !He. do 2 case_decide; try done. apply H2.
    - intros ev. rewrite E3, E4. intros [?|(s' & _ & E')%Ha]; [by apply H3|]. by apply (H1 s' ev).
    - intros last. rewrite E1. intros [= <-]. done.
    - intros s ev Hin. specialize (H5 s ev Hin). rewrite Hev. unfold WasTriggered in *.
      destruct (evicted e s) eqn:Es.
      + replace (s <=? slot) with true.
        * destruct ev as [ev|]; [|done]. apply bool_decide_eq_true in H5. apply bool_decide_eq_true. rewrite E4. by left.
        * symmetry. apply Z.leb_le. destruct (decide (start ≤ s)) as [Hge|]; [rewrite (Hhigh s Hge) in Es; done|lia].
      + destruct H5 as (n & -> & En). destruct (H1 s n En) as (Hs0 & _ & _ & _).
        assert (start ≤ s) as Hge by (destruct (decide (s < start)) as [Hl|]; [rewrite (Hlow s Hs0 Hl) in Es; done|lia]).
        destruct (Z.leb_spec s slot) as [Hle'|Hgt].
        * apply bool_decide_eq_true. rewrite E4. right. apply Ha. by exists s.
        * exists n. split; [done|]. rewrite E2, He. by rewrite decide_False by lia. }
  destruct (lastEvictedSlot e) as [last|] eqn:El; cbn [default].
  - destruct (H4 last eq_refl) as [Hl1 Hl2]. destruct (Z.leb_spec slot last) as [Hle|Hgt].
    + exists e. split; [done|]. split; [done|]. rewrite El. cbn. f_equal. lia.
    + rewrite (wrap_id U (last + 1)) by (unfold in_range; lia).
      destruct (Hrun (last + 1)) as (e' & E & Hok' & El'); try lia.
      * intros s _ Hlt. unfold evicted. rewrite El. apply Z.leb_le. lia.
      * intros s Hge. unfold evicted. rewrite El. apply Z.leb_gt. lia.
      * exists e'. split; [exact E|]. split; [done|]. rewrite El'. cbn. f_equal. lia.
  - destruct (Hrun 0) as (e' & E & Hok' & El'); try lia.
    + intros s _. unfold evicted. by rewrite El.
    + exists e'. split; [exact E|]. split; [done|]. rewrite El'. cbn. f_equal. lia.
Qed.

(** ** Sequences of calls *)

Inductive eviction_op : Type := GetEvent (slot : Z) | EvictSlot (slot : Z).

Definition slot_of (op : eviction_op) : Z := match op with GetEvent s | EvictSlot s => s end.

(** The state, the events handed out and the highest slot evicted. *)
Fixpoint run (fuel : nat) (e : evictionState) (handed : list (Z * option nat)) (ops : list eviction_op) :
    option (evictionState * list (Z * option nat)) :=
  match ops with
  | [] => Some (e, handed)
  | GetEvent slot :: ops => run fuel (EvictionEvent e slot).1 ((slot, (EvictionEvent e slot).2) :: handed) ops
  | EvictSlot slot :: ops =>
      match Evict fuel e slot with None => None | Some e => run fuel e handed ops end
  end.

Lemma run_ok fuel ops : ∀ e handed,
  eviction_ok e handed →
  Forall (λ op, 0 ≤ slot_of op < ity_max U ∧ (Z.to_nat (slot_of op + 1) < fuel)%nat) ops →
  ∃ e' handed', run fuel e handed ops = Some (e', handed') ∧ eviction_ok e' handed'.
Proof.
  induction ops as [|[slot|slot] ops IH]; intros e handed Hok Hops; cbn [run]; [by exists e, handed|..];
    apply Forall_cons in Hops as [[Hs Hf] Hops]; cbn [slot_of] in *.
  - apply IH; [|done]. apply EvictionEvent_ok; [done|lia].
  - destruct (Evict_ok e handed slot fuel Hok Hs Hf) as (e' & -> & Hok' & _). by apply IH.
Qed.

(** Eviction events are triggered by eviction.  For any calls with slots from
    0 to below the last one of the type, every [Evict] returns (with one round per
    slot and one more), and afterwards each event that [EvictionEvent] has ever
    returned for a slot was triggered exactly if a slot at or above it was
    evicted, before or after the call. *)
Lemma EvictionState_events fuel ops :
  Forall (λ op, 0 ≤ slot_of op < ity_max U ∧ (Z.to_nat (slot_of op + 1) < fuel)%nat) ops →
  ∃ e handed, run fuel newEvictionState [] ops = Some (e, handed) ∧
    ∀ slot ev, (slot, ev) ∈ handed → WasTriggered e ev = evicted e slot.
Proof.
  intros Hops. destruct (run_ok fuel ops newEvictionState []) as (e & handed & E & [H1 _ _ _ H5]); [|done|].
  - split; cbn; try done; set_solver.
  - exists e, handed. split; [done|]. intros slot ev Hin. specialize (H5 slot ev Hin).
    destruct (evicted e slot); [done|]. destruct H5 as (n & -> & En). destruct (H1 slot n En) as (_ & _ & Hn & _).
    by apply bool_decide_eq_false.
Qed.

End EvictionState.

Lemma EvictionState_events_witness :
  ∃ e handed, run U32 10 newEvictionState [] [GetEvent 3; EvictSlot 2; GetEvent 1; EvictSlot 5] = Some (e, handed) ∧
    ∀ slot ev, (slot, ev) ∈ handed → WasTriggered e ev = evicted e slot.
Proof.
  apply EvictionState_events. repeat constructor; cbn; lia.
Defined.

(** Evicting the last slot of the type never ends: the counter of the loop
    starts again at 0. *)
Lemma evict_last_slot_diverges U fuel i events acc :
  i ≤ ity_max U → collect U fuel i (ity_max U) events acc = None.
Proof.
  revert i events acc. induction fuel as [|fuel IH]; intros i events acc Hi; cbn [collect]; [done|].
  rewrite (proj2 (Z.leb_le _ _)) by done.
  destruct (events !! i); apply IH, wrap_in_range.
Qed.

(** The event of a negative slot of a signed type is not triggered when a later
    slot is evicted. *)
Lemma negative_slot_not_triggered :
  let '(e, ev) := EvictionEvent newEvictionState (-1) in
  match Evict I64 10 e 3 with
  | Some e => evicted e (-1) = true ∧ WasTriggered e ev = false
  | None => False
  end.
Proof. vm_compute. done. Qed.
