(* ===== verification/WaitGroup.v ===== *)
(** * ds/reactive: wait groups

    [src/ds/reactive/wait_group_impl.go] as a transition system.  Any number of
    goroutines call [Add] and [Done]; a step is one access to the counter, one
    change of the set of the pending elements, or the trigger of the event.  The
    counter is an [int32], which as many elements as fit in memory do not
    overflow; the wrap-around is left out. *)

From stdpp Require Import relations.
From S2P Require Import Prelude.

Section WaitGroup.
Context {T : Type} `{Countable T}.

(** Where a goroutine stands. *)
Inductive wg_pc : Type :=
  | Idle
  | Adding (rest : list T)      (* at the loop of [Add] *)
  | Correcting (rest : list T)  (* an element was there already, before [Add(-1)] *)
  | Finishing (rest : list T)   (* at the loop of [Done] *)
  | Counting (rest : list T)    (* an element was deleted, before [Add(-1)] *)
  | Triggering (rest : list T). (* the counter has become 0 *)

Record waitGroup : Type := mkGroup {
  pendingElements : gset T;
  pendingElementsCounter : Z;
  wasTriggered : bool;
  threads : list wg_pc;
}.

(** [newWaitGroup] without elements, and [n] goroutines. *)
Definition newWaitGroup (n : nat) : waitGroup := mkGroup ∅ 0 false (replicate n Idle).

Definition move (i : nat) (p : wg_pc) (w : waitGroup) : waitGroup :=
  mkGroup (pendingElements w) (pendingElementsCounter w) (wasTriggered w) (<[i := p]> (threads w)).

Definition add_counter (d : Z) (w : waitGroup) : waitGroup :=
  mkGroup (pendingElements w) (pendingElementsCounter w + d) (wasTriggered w) (threads w).

Definition set_pending (s : gset T) (w : waitGroup) : waitGroup :=
  mkGroup s (pendingElementsCounter w) (wasTriggered w) (threads w).

Definition Trigger (w : waitGroup) : waitGroup :=
  mkGroup (pendingElements w) (pendingElementsCounter w) true (threads w).

Inductive step : waitGroup → waitGroup → Prop :=
  (* [Add] *)
  | add_call w i elements :
      threads w !! i = Some Idle → step w (move i (Adding elements) (add_counter (len elements) w))
  | add_element w i x rest :
      threads w !! i = Some (Adding (x :: rest)) →
      step w (if decide (x ∈ pendingElements w) then move i (Correcting rest) w
              else move i (Adding rest) (set_pending ({[x]} ∪ pendingElements w) w))
  | add_correct w i rest :
      threads w !! i = Some (Correcting rest) → step w (move i (Adding rest) (add_counter (-1) w))
  | add_return w i : threads w !! i = Some (Adding []) → step w (move i Idle w)
  (* [Done] *)
  | done_call w i elements : threads w !! i = Some Idle → step w (move i (Finishing elements) w)
  | done_element w i x rest :
      threads w !! i = Some (Finishing (x :: rest)) →
      step w (if decide (x ∈ pendingElements w) then
                move i (Counting rest) (set_pending (pendingElements w ∖ {[x]}) w)
              else move i (Finishing rest) w)
  | done_count w i rest :
      threads w !! i = Some (Counting rest) →
      step w (move i (if pendingElementsCounter w - 1 =? 0 then Triggering rest else Finishing rest)
                (add_counter (-1) w))
  | done_trigger w i rest :
      threads w !! i = Some (Triggering rest) → step w (move i (Finishing rest) (Trigger w))
  | done_return w i : threads w !! i = Some (Finishing []) → step w (move i Idle w).

Definition reachable (n : nat) (w : waitGroup) : Prop := rtc step (newWaitGroup n) w.

(** What a goroutine has counted and not yet put into the set, or the other way
    round. *)
Definition owed (p : wg_pc) : Z :=
  match p with
  | Adding rest => len rest
  | Correcting rest => 1 + len rest
  | Counting _ => 1
  | _ => 0
  end.

Lemma owed_nonneg p : 0 ≤ owed p.
Proof. destruct p; cbn; try lia; pose proof (len_nonneg rest); lia. Qed.

Definition inv (w : waitGroup) : Prop :=
  pendingElementsCounter w = Z.of_nat (size (pendingElements w)) + zsum owed (threads w).

Lemma step_inv_group w w' : inv w → step w w' → inv w'.
Proof.
  unfold inv. intros Hi Hst. destruct Hst as
    [w i els Hp|w i x rest Hp|w i rest Hp|w i Hp|w i els Hp|w i x rest Hp|w i rest Hp|w i rest Hp|w i Hp];
    try case_decide as Hx; try case_match; cbn; rewrite (zsum_insert _ _ _ _ _ Hp), ?Hi; cbn; unfold len; cbn [length]; try lia.
  - rewrite size_union, size_singleton by set_solver. lia.
  - rewrite size_difference, size_singleton by set_solver.
    assert (size (pendingElements w) ≠ 0%nat) by (rewrite size_non_empty_iff; set_solver). lia.
Qed.

Lemma inv_reachable_group n w : reachable n w → inv w.
Proof.
  intros Hr. refine (rtc_ind_r (R := step) inv (newWaitGroup n) _ _ w Hr).
  - unfold inv. cbn. assert (zsum owed (replicate n Idle) = 0) as -> by (clear; induction n; cbn; lia). done.
  - intros y z _ Hst Hi. by eapply step_inv_group.
Qed.

Lemma zsum_zero (ps : list wg_pc) i p : zsum owed ps = 0 → ps !! i = Some p → owed p = 0.
Proof.
  revert i. induction ps as [|q ps IH]; intros [|i] Hz Hi; simplify_eq/=;
    assert (0 ≤ zsum owed ps) by (clear; induction ps as [|q ps IH]; cbn; [lia|]; pose proof (owed_nonneg q); lia).
  - pose proof (owed_nonneg p). lia.
  - apply (IH i); [|done]. pose proof (owed_nonneg q). lia.
Qed.

(** A wait group is not triggered too early: when the counter of a [Done]
    becomes 0, in whatever way calls of [Add] and [Done] are interleaved, no
    element is pending, no [Add] is under way that still has elements to add, and
    no other [Done] has an element to count. *)
Lemma WaitGroup_not_early n w i rest :
  reachable n w → threads w !! i = Some (Counting rest) → pendingElementsCounter w - 1 = 0 →
  pendingElements w = ∅ ∧
  ∀ j p, j ≠ i → threads w !! j = Some p → owed p = 0.
Proof.
  intros Hi%inv_reachable_group Hp Hc. unfold inv in Hi.
  pose proof (zsum_insert owed _ _ _ Idle Hp) as Hz. cbn in Hz.
  assert (0 ≤ zsum owed (<[i:=Idle]> (threads w))).
  { generalize (<[i:=Idle]> (threads w)). intros ps. induction ps as [|q ps IH]; cbn; [lia|]. pose proof (owed_nonneg q). lia. }
  split.
  - apply leibniz_equiv, size_empty_inv. lia.
  - intros j p Hne Hj. apply (zsum_zero (<[i:=Idle]> (threads w)) j); [lia|]. by rewrite list_lookup_insert_ne.
Qed.

End WaitGroup.

Arguments waitGroup T {_ _}.

(** An element is added twice while it is done: the trigger is lost. *)
Lemma WaitGroup_trigger_lost :
  ∃ w : waitGroup Z, reachable 2 w ∧ threads w = [Idle; Idle] ∧ pendingElements w = ∅ ∧
    pendingElementsCounter w = 0 ∧ wasTriggered w = false ∧ 
    (∃ w0 : waitGroup Z, reachable 2 w0 ∧ pendingElements w0 = {[7]} ∧ rtc step w0 w).
Proof.
  set (w0 := mkGroup {[7]} 1 false [Idle; Idle] : waitGroup Z).
  assert (reachable 2 w0) as H0.
  { eapply rtc_l; [by apply (add_call _ 0 [7])|].
    eapply rtc_l; [by apply (add_element _ 0 7 [])|].
    eapply rtc_l; [by apply (add_return _ 0)|]. vm_compute. apply rtc_refl. }
  set (w := mkGroup ∅ 0 false [Idle; Idle] : waitGroup Z).
  assert (rtc step w0 w) as H1.
  { eapply rtc_l; [by apply (add_call _ 0 [7])|].
    eapply rtc_l; [by apply (add_element _ 0 7 [])|].
    eapply rtc_l; [by apply (done_call _ 1 [7])|].
    eapply rtc_l; [by apply (done_element _ 1 7 [])|].
    eapply rtc_l; [by apply (done_count _ 1 [])|].
    eapply rtc_l; [by apply (add_correct _ 0 [])|].
    eapply rtc_l; [by apply (done_return _ 1)|].
    eapply rtc_l; [by apply (add_return _ 0)|]. vm_compute. apply rtc_refl. }
  exists w. split_and!; try done; [unfold reachable in *; by etrans|]. exists w0. by split_and!.
Qed.

(** The last of two elements is counted. *)
Definition last_counted : waitGroup Z := mkGroup ∅ 1 false [Counting []].

Lemma last_counted_reachable : reachable 1 last_counted.
Proof.
  eapply rtc_l; [by apply (add_call _ 0 [7; 8])|].
  eapply rtc_l; [by apply (add_element _ 0 7 [8])|].
  eapply rtc_l; [by apply (add_element _ 0 8 [])|].
  eapply rtc_l; [by apply (add_return _ 0)|].
  eapply rtc_l; [by apply (done_call _ 0 [7; 8])|].
  eapply rtc_l; [by apply (done_element _ 0 7 [8])|].
  eapply rtc_l; [by apply (done_count _ 0 [8])|].
  eapply rtc_l; [by apply (done_element _ 0 8 [])|]. vm_compute. apply rtc_refl.
Qed.

Lemma WaitGroup_not_early_witness : pendingElements last_counted = ∅.
Proof. apply (WaitGroup_not_early 1 last_counted 0 [] last_counted_reachable); reflexivity. Defined.
