(* ===== verification/Walker.v ===== *)
(** * ds/walker

    [src/ds/walker/walker.go].  The list of the standard library is a list; the
    ordered map of the pushed elements is the association list it refines
    (OrderedMap.v). *)

From S2P Require Import OrderedMap.
From S2P Require Import Prelude Bytes OrderedSet.

Section Walker.
Context {T : Type} `{Countable T}.

Record Walker : Type := mkWalker {
  stack : list T;
  pushedElements : list (T * ());
  walkStopped : bool;
  revisitElements : bool;
}.

Definition New (revisitElements : list bool) : Walker := mkWalker [] [] false (default false (head revisitElements)).

Definition HasNext (w : Walker) : bool := (0 <? len (stack w)) && negb (walkStopped w).

Definition Pushed (w : Walker) (element : T) : bool := bool_decide (element ∈ (pushedElements w).*1).

(** [Remove(nil)] of the list panics. *)
Definition Next (w : Walker) : outcome (Walker * T) :=
  match stack w with
  | [] => Panic "invalid memory address or nil pointer dereference"
  | e :: stack => Ret (mkWalker stack (pushedElements w) (walkStopped w) (revisitElements w), e)
  end.

Definition Push (w : Walker) (nextElement : T) : Walker :=
  let '(pushed, existed) := om_Set (pushedElements w) nextElement in
  if existed && negb (revisitElements w) then mkWalker (stack w) pushed (walkStopped w) (revisitElements w)
  else mkWalker (stack w ++ [nextElement]) pushed (walkStopped w) (revisitElements w).

Definition PushAll (w : Walker) (nextElements : list T) : Walker := foldl Push w nextElements.

(** An element that was pushed before ends the loop. *)
Fixpoint PushFront (w : Walker) (nextElements : list T) : Walker :=
  match nextElements with
  | [] => w
  | nextElement :: nextElements =>
      let '(pushed, existed) := om_Set (pushedElements w) nextElement in
      if existed && negb (revisitElements w) then mkWalker (stack w) pushed (walkStopped w) (revisitElements w)
      else PushFront (mkWalker (nextElement :: stack w) pushed (walkStopped w) (revisitElements w)) nextElements
  end.

Definition StopWalk (w : Walker) : Walker := mkWalker (stack w) (pushedElements w) true (revisitElements w).

Definition Reset (w : Walker) : Walker := mkWalker [] [] false (revisitElements w).

(** The loop [for w.HasNext() { ... w.PushAll(next(w.Next())...) }] of the users. *)
Fixpoint walk (fuel : nat) (next : T → list T) (w : Walker) : outcome (Walker * list T) :=
  match fuel with
  | O => Panic "out of fuel"
  | S fuel =>
      if HasNext w then
        '(w, e) ← Next w;
        '(w, visited) ← walk fuel next (PushAll w (next e));
        Ret (w, e :: visited)
      else Ret (w, [])
  end.

(** *** What a walk visits *)

Lemma Push_elements w e : revisitElements w = false →
  elements_of (pushedElements (Push w e)) =
    (if decide (e ∈ elements_of (pushedElements w)) then elements_of (pushedElements w)
     else elements_of (pushedElements w) ++ [e]) ∧
  stack (Push w e) = (if decide (e ∈ elements_of (pushedElements w)) then stack w else stack w ++ [e]) ∧
  revisitElements (Push w e) = false ∧ walkStopped (Push w e) = walkStopped w.
Proof.
  intros Hr. unfold Push. destruct (om_Set_elements (pushedElements w) e) as [H1 H2].
  destruct (om_Set (pushedElements w) e) as [p b]. simpl in H1, H2. subst b. rewrite Hr.
  destruct (decide (e ∈ elements_of (pushedElements w))).
  - rewrite bool_decide_true by done. done.
  - rewrite bool_decide_false by done. done.
Qed.

(** The elements that were pushed are the visited ones and those on the stack. *)
Record walking (start : T) (next : T → list T) (visited : list T) (w : Walker) : Prop := {
  wk_once : revisitElements w = false;
  wk_running : walkStopped w = false;
  wk_pushed : elements_of (pushedElements w) = visited ++ stack w;
  wk_distinct : NoDup (visited ++ stack w);
  wk_start : start ∈ visited ++ stack w;
  wk_reached e : e ∈ visited ++ stack w → rtc (λ a b, b ∈ next a) start e;
}.

Lemma PushAll_walking start next visited w es :
  walking start next visited w → (∀ e, e ∈ es → rtc (λ a b, b ∈ next a) start e) →
  walking start next visited (PushAll w es) ∧
  (∀ e, e ∈ visited ++ stack w ∨ e ∈ es ↔ e ∈ visited ++ stack (PushAll w es)).
Proof.
  revert w. induction es as [|e es IH]; intros w Hw Hes; cbn [PushAll foldl].
  { split; [done|]. set_solver. }
  destruct (Push_elements w e (wk_once _ _ _ _ Hw)) as (H1 & H2 & H3 & H4).
  destruct Hw as [Ho Hr Hp Hd Hs Hre]. rewrite Hp in H1, H2.
  assert (walking start next visited (Push w e)) as Hw'.
  { split; rewrite ?H3, ?H4, ?H1, ?H2; try done.
    - destruct (decide (e ∈ visited ++ stack w)); [done|]. by rewrite app_assoc.
    - destruct (decide (e ∈ visited ++ stack w)); [done|]. rewrite app_assoc. apply NoDup_app. split_and!; [done| |apply NoDup_singleton].
      intros x Hx. rewrite list_elem_of_singleton. by intros ->.
    - destruct (decide (e ∈ visited ++ stack w)); set_solver.
    - intros x. destruct (decide (e ∈ visited ++ stack w)); [apply Hre|].
      rewrite app_assoc, elem_of_app, list_elem_of_singleton. intros [? | ->]; [by apply Hre|]. apply Hes. set_solver. }
  destruct (IH (Push w e) Hw' ltac:(intros; apply Hes; set_solver)) as [H5 H6].
  split; [done|]. intros x. rewrite <-H6, H2. destruct (decide (e ∈ visited ++ stack w)); set_solver.
Qed.

Lemma walk_walking start next all fuel visited w :
  (∀ e, rtc (λ a b, b ∈ next a) start e → e ∈ all) →
  walking start next visited w → (∀ e, e ∈ visited → ∀ e', e' ∈ next e → e' ∈ visited ++ stack w) →
  (length all < length visited + fuel)%nat →
  ∃ w' more, walk fuel next w = Ret (w', more) ∧ NoDup (visited ++ more) ∧
    (∀ e, e ∈ visited ++ more ↔ rtc (λ a b, b ∈ next a) start e) ∧
    HasNext w' = false.
Proof.
  intros Hall. revert visited w. induction fuel as [|fuel IH]; intros visited w Hw Hcl Hf.
  { exfalso. destruct Hw as [_ _ _ Hd _ Hre]. apply NoDup_app in Hd as (Hd & _ & _).
    assert (length visited ≤ length all)%nat; [|lia].
    apply submseteq_length, NoDup_submseteq; [done|]. intros e He. apply Hall, Hre. set_solver. }
  cbn [walk]. unfold HasNext. rewrite (wk_running _ _ _ _ Hw). destruct (stack w) as [|e st] eqn:Est; cbn [negb].
  - exists w, []. split; [done|]. destruct Hw as [_ _ _ Hd Hs Hre]. rewrite Est in Hd, Hs, Hre.
    split_and!; [done| |unfold HasNext; by rewrite Est].
    intros x. split; [apply Hre|]. intros Hx.
    refine (rtc_ind_r (R := λ a b, b ∈ next a) (λ x, x ∈ visited ++ []) start Hs _ x Hx).
    intros y z _ Hyz Hy. eapply Hcl; [|done]. by rewrite app_nil_r in Hy.
  - assert (0 <? len (e :: st) = true) as -> by (apply Z.ltb_lt; unfold len; simpl; lia).
    cbn [andb]. unfold Next. rewrite Est. cbn [mbind outcome_bind].
    set (w1 := mkWalker st (pushedElements w) (walkStopped w) (revisitElements w)).
    assert (visited ++ stack w = (visited ++ [e]) ++ stack w1) as Happ by (rewrite Est; by rewrite <-app_assoc).
    assert (walking start next (visited ++ [e]) w1) as Hw1.
    { destruct Hw as [Ho Hr Hp Hd Hs Hre]. rewrite Happ in *. by split. }
    destruct (PushAll_walking start next (visited ++ [e]) w1 (next e) Hw1) as [Hw2 Hin].
    { intros e' He'. eapply rtc_r; [|exact He']. apply (wk_reached _ _ _ _ Hw1). set_solver. }
    destruct (IH (visited ++ [e]) (PushAll w1 (next e)) Hw2) as (w' & more & -> & Hnd & Hiff & Hnext).
    { intros x Hx e' He'. apply Hin. rewrite elem_of_app, list_elem_of_singleton in Hx.
      destruct Hx as [Hx| ->]; [left; rewrite <-Happ, Est; by eapply Hcl|by right]. }
    { rewrite length_app. simpl. lia. }
    cbn [mbind outcome_bind]. exists w', (e :: more). rewrite <-app_assoc in Hnd. split_and!; [done..| |done].
    intros x. rewrite <-Hiff, <-app_assoc. done.
Qed.

End Walker.
Arguments Walker : clear implicits.

(** A walk that starts with one element and pushes the successors of every
    element it visits ends, without a nil dereference, and visits exactly the
    elements that can be reached, each once, when these are finitely many: one
    round more than there are of them is enough. *)
Lemma Walker_visits_reachable {T} `{Countable T} (start : T) next all fuel :
  (∀ e, rtc (λ a b, b ∈ next a) start e → e ∈ all) → (length all < fuel)%nat →
  ∃ w visited, walk fuel next (Push (New []) start) = Ret (w, visited) ∧
    NoDup visited ∧ (∀ e, e ∈ visited ↔ rtc (λ a b, b ∈ next a) start e) ∧ HasNext w = false.
Proof.
  intros Hall Hf. apply (walk_walking start next all fuel [] _ Hall); [|set_solver|simpl; lia].
  split; try done.
  - by apply NoDup_singleton.
  - set_solver.
  - intros e. rewrite app_nil_l. intros ->%list_elem_of_singleton. apply rtc_refl.
Qed.

(** The divisors of 12, from 12 by dividing by two and by three. *)
Definition divide (n : Z) : list Z :=
  (if n mod 2 =? 0 then [n / 2] else []) ++ (if n mod 3 =? 0 then [n / 3] else []).

Lemma Walker_visits_reachable_witness :
  ∃ w visited, walk 7 divide (Push (New []) 12) = Ret (w, visited) ∧ NoDup visited.
Proof.
  destruct (Walker_visits_reachable 12 divide [12; 6; 4; 3; 2; 1] 7) as (w & visited & H1 & H2 & _).
  - intros e He. refine (rtc_ind_r (R := λ a b, b ∈ divide a) (λ x, x ∈ [12; 6; 4; 3; 2; 1]) 12 _ _ e He); [set_solver|].
    intros y z _ Hz Hy. revert Hz.
    repeat (apply elem_of_cons in Hy as [->|Hy]; [vm_compute (divide _); set_solver|]). by apply elem_of_nil in Hy.
  - simpl. lia.
  - by exists w, visited.
Defined.

(** [PushFront] forgets the elements behind one that was pushed before. *)
Lemma PushFront_stops_early :
  stack (PushFront (Push (New []) 1) [2; 1; 3]) = [2; 1].
Proof. done. Qed.
