(* ===== verification/BytesFilter.v ===== *)
(** * ds/bytesfilter

    [src/ds/bytesfilter/bytesfilter.go].  The shrinking map of the known
    identifiers is the set it refines (ShrinkingMap.v); the function from bytes
    to identifiers is an argument, as in [New]. *)

From S2P Require Import Prelude Bytes.

Section BytesFilter.
Context {Id : Type} `{Countable Id} (newIdentifierFunc : list byte → Id).

Record BytesFilter : Type := mkFilter {
  knownIdentifiers : gset Id;
  identifiers : list Id;
  size : Z;
}.

Definition New (size : Z) : BytesFilter := mkFilter ∅ [] size.

Definition addIdentifier (b : BytesFilter) (identifier : Id) : outcome (BytesFilter * bool) :=
  if bool_decide (identifier ∈ knownIdentifiers b) then Ret (b, false)
  else if len (identifiers b) =? size b then
    oldest ← index (identifiers b) 0;
    Ret (mkFilter ({[identifier]} ∪ (knownIdentifiers b ∖ {[oldest]}))
           (tail (identifiers b) ++ [identifier]) (size b), true)
  else
    Ret (mkFilter ({[identifier]} ∪ knownIdentifiers b) (identifiers b ++ [identifier]) (size b), true).

Definition AddIdentifier (b : BytesFilter) (identifier : Id) : outcome (BytesFilter * bool) :=
  addIdentifier b identifier.

Definition Add (b : BytesFilter) (bytes : list byte) : outcome (BytesFilter * (Id * bool)) :=
  let identifier := newIdentifierFunc bytes in
  '(b, added) ← addIdentifier b identifier;
  Ret (b, (identifier, added)).

Definition ContainsIdentifier (b : BytesFilter) (identifier : Id) : bool :=
  bool_decide (identifier ∈ knownIdentifiers b).

Definition Contains (b : BytesFilter) (bytes : list byte) : bool :=
  ContainsIdentifier b (newIdentifierFunc bytes).

(** Adding one after the other: the filter and which were new. *)
Fixpoint add_all (b : BytesFilter) (ids : list Id) : outcome (BytesFilter * list bool) :=
  match ids with
  | [] => Ret (b, [])
  | id :: ids =>
      '(b, added) ← AddIdentifier b id;
      '(b, rest) ← add_all b ids;
      Ret (b, added :: rest)
  end.

(** The specification: the last [n] of the identifiers that were new. *)
Fixpoint fifo (n : nat) (window : list Id) (ids : list Id) : list Id * list bool :=
  match ids with
  | [] => (window, [])
  | id :: ids =>
      if decide (id ∈ window) then let '(w, r) := fifo n window ids in (w, false :: r)
      else
        let window := window ++ [id] in
        let '(w, r) := fifo n (drop (length window - n) window) ids in (w, true :: r)
  end.

Record filter_ok (b : BytesFilter) : Prop := {
  fo_size : 0 < size b;
  fo_window : len (identifiers b) ≤ size b;
  fo_distinct : NoDup (identifiers b);
  fo_known : knownIdentifiers b = list_to_set (identifiers b);
}.

Lemma addIdentifier_ok b id : filter_ok b →
  ∃ b', addIdentifier b id = Ret (b', bool_decide (id ∉ identifiers b)) ∧ filter_ok b' ∧ size b' = size b ∧
    identifiers b' = (if decide (id ∈ identifiers b) then identifiers b
                      else drop (length (identifiers b ++ [id]) - Z.to_nat (size b)) (identifiers b ++ [id])).
Proof.
  intros [Hs Hw Hd Hk]. unfold addIdentifier.
  assert (id ∈ knownIdentifiers b ↔ id ∈ identifiers b) as Hin by (by rewrite Hk, elem_of_list_to_set).
  destruct (decide (id ∈ identifiers b)) as [Hi|Hi].
  { rewrite bool_decide_true by (by apply Hin). rewrite bool_decide_false by naive_solver. by exists b. }
  rewrite bool_decide_false, bool_decide_true by (try rewrite Hin; done). rewrite length_app. cbn [length].
  destruct (Z.eqb_spec (len (identifiers b)) (size b)) as [El|El].
  - destruct (identifiers b) as [|o l] eqn:Eo; [unfold len in El; simpl in El; lia|].
    assert (index (o :: l) 0 = Ret o) as -> by done. cbn [mbind outcome_bind]. eexists. split; [done|].
    assert (length (o :: l) + 1 - Z.to_nat (size b) = 1)%nat as -> by (unfold len in El; simpl in *; lia).
    cbn [tail app drop]. split_and!; [|done|done].
    apply NoDup_cons in Hd as [Ho Hd]. split; cbn [size identifiers knownIdentifiers]; [done| | |].
    + unfold len in *. rewrite length_app. simpl in *. lia.
    + apply NoDup_app. split_and!; [done| |apply NoDup_singleton]. set_solver.
    + rewrite Hk. apply set_eq. intros x. rewrite list_to_set_app_L. cbn [list_to_set]. set_solver.
  - eexists. split; [done|].
    assert (length (identifiers b) + 1 - Z.to_nat (size b) = 0)%nat as -> by (unfold len in *; lia).
    cbn [drop]. split_and!; [|done|done]. split; cbn [size identifiers knownIdentifiers]; [done| | |].
    + unfold len in *. rewrite length_app. simpl. lia.
    + apply NoDup_app. split_and!; [done| |apply NoDup_singleton]. set_solver.
    + rewrite Hk, list_to_set_app_L. set_solver.
Qed.

Lemma add_all_ok b ids : filter_ok b →
  let '(window, added) := fifo (Z.to_nat (size b)) (identifiers b) ids in
  ∃ b', add_all b ids = Ret (b', added) ∧ filter_ok b' ∧ size b' = size b ∧ identifiers b' = window.
Proof.
  revert b. induction ids as [|id ids IH]; intros b Hb; cbn [fifo add_all]; [by exists b|].
  destruct (addIdentifier_ok b id Hb) as (b1 & H1 & Hb1 & Hs1 & Hi1). unfold AddIdentifier. rewrite H1.
  cbn [mbind outcome_bind]. specialize (IH b1 Hb1). rewrite Hs1, Hi1 in IH.
  destruct (decide (id ∈ identifiers b)) as [Hi|Hi].
  - rewrite bool_decide_false by naive_solver. destruct (fifo _ (identifiers b) ids) as [w r].
    destruct IH as (b' & -> & ?). by exists b'.
  - rewrite bool_decide_true by done. destruct (fifo _ (drop _ _) ids) as [w r].
    destruct IH as (b' & -> & ?). by exists b'.
Qed.

End BytesFilter.
Arguments BytesFilter : clear implicits.

(** The filter remembers the last [size] identifiers that were new.  For a
    positive size, adding any identifiers never panics, tells for each whether it
    was in the window of the last [size] new ones, and afterwards exactly the
    identifiers of the window are contained, at most [size]. *)
Lemma BytesFilter_window {Id} `{Countable Id} (n : Z) (ids : list Id) :
  0 < n →
  let '(window, added) := fifo (Z.to_nat n) [] ids in
  ∃ b, add_all (New n) ids = Ret (b, added) ∧
    len window ≤ n ∧ ∀ id, ContainsIdentifier b id = true ↔ id ∈ window.
Proof.
  intros Hn. pose proof (add_all_ok (New n) ids) as Hb.
  cbn [New size identifiers] in Hb.
  destruct (fifo (Z.to_nat n) [] ids) as [window added]. destruct Hb as (b & -> & Hok & Hs & Hw).
  { split; cbn; [done|unfold len; simpl; lia|constructor|done]. }
  exists b. destruct Hok as [_ Hl _ Hk]. rewrite Hs, Hw in Hl. split_and!; [done..|].
  intros id. unfold ContainsIdentifier. rewrite bool_decide_eq_true, Hk, elem_of_list_to_set. by rewrite Hw.
Qed.

Lemma BytesFilter_window_witness :
  ∃ b, add_all (New 2) [1; 2; 1; 3; 1] = Ret (b, [true; true; false; true; true]) ∧
    ContainsIdentifier b 2 = false.
Proof.
  pose proof (BytesFilter_window 2 [1; 2; 1; 3; 1] ltac:(lia)) as H.
  vm_compute (fifo _ _ _) in H. destruct H as (b & H1 & _ & H2). exists b. split; [exact H1|].
  apply not_true_iff_false. rewrite H2. apply (bool_decide_unpack _). by vm_compute.
Defined.

(** A filter of size zero panics when an identifier is added. *)
Lemma empty_filter_panics {Id} `{Countable Id} (id : Id) :
  AddIdentifier (New 0) id = Panic "index out of range".
Proof. done. Qed.
