(* ===== verification/BitMask.v ===== *)
(** * ds/bitmask

    [src/ds/bitmask/bitmask.go], on bytes. *)

From S2P Require Import Prelude Bytes.


(** [1 << pos] as a [BitMask], which is a byte. *)
Definition bit (pos : Z) : Z := wrap U8 (Z.shiftl 1 pos).

Definition SetBits (bitmask bits : Z) : Z := Z.lor bitmask bits.
Definition SetBit (bitmask pos : Z) : Z := SetBits bitmask (bit pos).
Definition ClearBits (bitmask bits : Z) : Z := Z.land bitmask (wrap U8 (Z.lnot bits)).
Definition ClearBit (bitmask pos : Z) : Z := ClearBits bitmask (bit pos).
Definition HasBits (bitmask bits : Z) : bool := Z.land bitmask bits >? 0.
Definition HasBit (bitmask pos : Z) : bool := HasBits bitmask (bit pos).
Definition ModifyBit (bitmask pos : Z) (state : bool) : Z :=
  if state then SetBit bitmask pos else ClearBit bitmask pos.

Lemma bit_testbit pos i : 0 ≤ pos → 0 ≤ i → Z.testbit (bit pos) i = (i =? pos) && (i <? 8).
Proof.
  intros Hp Hi. unfold bit, wrap. cbn. rewrite Z.shiftl_mul_pow2, Z.mul_1_l by lia.
  change 256 with (2 ^ 8). rewrite Z.testbit_mod_pow2 by lia. rewrite Z.pow2_bits_eqb by lia.
  rewrite andb_comm. f_equal. apply Z.eqb_sym.
Qed.

Lemma HasBit_testbit m pos : 0 ≤ pos → HasBit m pos = Z.testbit m pos && (pos <? 8).
Proof.
  intros Hp. unfold HasBit, HasBits. rewrite Z.gtb_ltb.
  assert (Z.land m (bit pos) = if Z.testbit m pos && (pos <? 8) then bit pos else 0) as ->.
  { apply Z.bits_inj'. intros i Hi. rewrite Z.land_spec, bit_testbit by lia.
    destruct (Z.eqb_spec i pos) as [->|Hne].
    - destruct (Z.testbit m pos) eqn:?, (pos <? 8) eqn:?; cbn [andb];
        rewrite ?bit_testbit, ?Z.bits_0, ?Z.eqb_refl by lia; by cbn [andb].
    - rewrite andb_false_r. destruct (Z.testbit m pos && (pos <? 8)); [|by rewrite Z.bits_0].
      by rewrite bit_testbit, (proj2 (Z.eqb_neq i pos)) by lia. }
  destruct (Z.testbit m pos && (pos <? 8)) eqn:E; [|done]. apply andb_true_iff in E as [_ ?%Z.ltb_lt].
  apply Z.ltb_lt. assert (Z.testbit (bit pos) pos = true) as Hb.
  { rewrite bit_testbit, Z.eqb_refl by lia. by apply Z.ltb_lt. }
  assert (0 ≤ bit pos) by (unfold bit, wrap; cbn; apply Z.mod_pos_bound; lia).
  destruct (Z.eq_dec (bit pos) 0) as [Hz|]; [|lia]. by rewrite Hz, Z.bits_0 in Hb.
Qed.

(** The bits of a mask, one by one: setting, clearing and modifying a bit of a
    byte changes this bit and no other; positions beyond the byte change nothing
    and are never set. *)
Lemma BitMask_bits m pos i state : in_range U8 m → 0 ≤ pos → 0 ≤ i →
  HasBit (ModifyBit m pos state) i = (if (i =? pos) && (i <? 8) then state else HasBit m i) ∧
  in_range U8 (ModifyBit m pos state).
Proof.
  intros Hm Hp Hi. rewrite !HasBit_testbit by done.
  assert (∀ i, 0 ≤ i → Z.testbit (ModifyBit m pos state) i =
    if (i =? pos) && (i <? 8) then state else Z.testbit m i && (if state then true else i <? 8)) as Hb.
  { clear i Hi. intros i Hi. unfold ModifyBit, SetBit, SetBits, ClearBit, ClearBits. destruct state.
    - rewrite Z.lor_spec, bit_testbit by lia. destruct (_ && _); by rewrite ?orb_true_r, ?orb_false_r, ?andb_true_r.
    - rewrite Z.land_spec. change (wrap U8 (Z.lnot (bit pos))) with (Z.lnot (bit pos) mod 2 ^ 8).
      rewrite Z.testbit_mod_pow2, Z.lnot_spec, bit_testbit by lia.
      destruct (i =? pos), (i <? 8); cbn; by rewrite ?andb_false_r, ?andb_true_r. }
  split.
  - rewrite Hb by done. destruct (i =? pos), (i <? 8), state, (Z.testbit m i); done.
  - assert (0 ≤ ModifyBit m pos state) as Hn.
    { unfold ModifyBit, SetBit, SetBits, ClearBit, ClearBits. unfold in_range in Hm. ity_consts. destruct state.
      - apply Z.lor_nonneg. split; [lia|]. unfold bit, wrap. cbn. apply Z.mod_pos_bound. lia.
      - apply Z.land_nonneg. lia. }
    unfold in_range in *. ity_consts. split; [done|].
    assert (ModifyBit m pos state = ModifyBit m pos state mod 2 ^ 8) as ->.
    { apply Z.bits_inj'. intros j Hj. rewrite Z.testbit_mod_pow2 by lia. destruct (Z.ltb_spec j 8) as [|Hge]; [done|].
      cbn [andb]. rewrite Hb by done. rewrite (proj2 (Z.ltb_ge j 8)), andb_false_r by lia.
      rewrite (Z.bits_above_log2 m j); [done|lia|]. destruct (Z.eq_dec m 0) as [->|]; [simpl; lia|].
      apply Z.log2_lt_pow2; [lia|]. eapply Z.le_lt_trans; [apply Hm|]. change 255 with (2 ^ 8 - 1).
      pose proof (Z.pow_le_mono_r 2 8 j ltac:(lia) Hge). lia. }
    pose proof (Z.mod_pos_bound (ModifyBit m pos state) (2 ^ 8) ltac:(lia)). lia.
Qed.

(** [HasBits] is satisfied by any of the bits. *)
Lemma HasBits_any : HasBits 1 3 = true ∧ HasBit 1 1 = false.
Proof. done. Qed.
