(* ===== verification/Stack.v ===== *)
(** * ds/stack

    [src/ds/stack/simple_stack.go]: a slice. *)

From S2P Require Import Prelude Bytes.

Section Stack.
Context {T : Type}.

Notation simpleStack := (list T).

Definition newSimpleStack : simpleStack := [].
Definition IsEmpty (s : simpleStack) : bool := len s =? 0.
Definition Size (s : simpleStack) : Z := len s.
Definition Push (s : simpleStack) (element : T) : simpleStack := s ++ [element].
Definition Pop (s : simpleStack) : outcome (simpleStack * option T) :=
  if IsEmpty s then Ret (s, None)
  else
    element ← index s (len s - 1);
    s ← slice_to s (len s - 1);
    Ret (s, Some element).
Definition Peek (s : simpleStack) : outcome (option T) :=
  if IsEmpty s then Ret None else element ← index s (len s - 1); Ret (Some element).
Definition Clear (s : simpleStack) : simpleStack := [].

(** [Pop] and [Peek] never panic and answer the element that was pushed last. *)
Lemma Stack_lifo (s : simpleStack) e :
  Pop (Push s e) = Ret (s, Some e) ∧ Peek (Push s e) = Ret (Some e) ∧
  Pop [] = Ret ([], None) ∧ Peek [] = Ret None.
Proof.
  split_and!; try done; unfold Pop, Peek, Push, IsEmpty; rewrite len_app; change (len [e]) with 1;
    pose proof (len_nonneg s); rewrite (proj2 (Z.eqb_neq _ _)) by lia; rewrite Z.add_simpl_r;
    unfold index; rewrite (proj2 (Z.ltb_ge _ _)) by lia; unfold len; rewrite Nat2Z.id, lookup_app_r, Nat.sub_diag by lia; cbn.
  - rewrite slice_to_nat by (rewrite length_app; lia). cbn. by rewrite take_app_length.
  - done.
Qed.

End Stack.
