(* ===== verification/SerixTypes.v ===== *)
(** * serializer/serix: types, values, settings and registries

    [src/serializer/serix] walks Go values by reflection.  Here [rtype] is
    [reflect.Type], [value] what a [reflect.Value] holds, and a [program] gives
    what the Go program declares: the fields of its structs and the methods of
    its types.  This file has the settings of a type ([type_settings.go]), the
    parsing of struct tags ([serix_tags.go], [struct_fields.go]) and the
    registries of an [API] ([interfaces.go], [validators.go], [serix.go]).

    [WithMinLen] and [WithMaxLen] write through the pointer to the array rules,
    which copies of a [TypeSettings] share; here each has rules of its own, as
    in the tag parser, the only caller in the package. *)

From Stdlib Require Import Ascii.
From S2P Require Import OrderedMap.
From S2P Require Import Prelude Bytes Serializable Serializer Deserializer.

(** ** Results: a value or an error, or a panic *)

Definition res (A : Type) : Type := outcome (A + error).

Definition ok {A} (a : A) : res A := Ret (inl a).
Definition fail {A} (e : error) : res A := Ret (inr e).

Definition bind_res {A B} (m : res A) (f : A → res B) : res B :=
  match m with
  | Ret (inl a) => f a
  | Ret (inr e) => Ret (inr e)
  | Panic msg => Panic msg
  end.

Declare Scope res_scope.
Delimit Scope res_scope with res.
#[global] Open Scope res_scope.
Notation "x <~ m ; k" := (bind_res m (λ x, k))
  (at level 100, m at next level, k at level 200, right associativity,
   format "x  <~  m ;  '/' k") : res_scope.

(** [if err != nil { return ierrors.Wrap(err, message) }]. *)
Definition wrap_res {A} (message : string) (m : res A) : res A :=
  match m with Ret (inr e) => Ret (inr (ErrWrap e message)) | _ => m end.

Definition of_option (e : option error) : res () :=
  match e with Some e => fail e | None => ok () end.

(** An error producer that wraps. *)
Definition producing (message : string) : ErrProducer := fmap (λ e, ErrWrap e message).

(** ** Types *)

(** The name of a declared type, empty for a type without a name. *)
Notation tname := string.

Inductive number : Type := NumInt (T : ity) | NumFloat32 | NumFloat64.

(** [TTime] is [time.Time], [TBigIntPtr] is [*big.Int]; [TOther] are the kinds
    serix does not handle. *)
Inductive rtype : Type :=
  | TBool (n : tname)
  | TNum (n : tname) (k : number)
  | TString (n : tname)
  | TBigIntPtr
  | TTime
  | TStruct (n : tname)
  | TSlice (n : tname) (elem : rtype)
  | TArray (n : tname) (size : nat) (elem : rtype)
  | TMap (n : tname) (key elem : rtype)
  | TPtr (elem : rtype)
  | TInterface (n : tname)
  | TOther (n : tname).

#[global] Instance ity_eq_dec' : EqDecision ity.
Proof. solve_decision. Defined.
#[global] Instance number_eq_dec : EqDecision number.
Proof. solve_decision. Defined.
#[global] Instance rtype_eq_dec : EqDecision rtype.
Proof. solve_decision. Defined.

Definition byte_type : rtype := TNum EmptyString (NumInt U8).

(** [AssignableTo(bytesType)] of a slice type with these elements. *)
Definition is_byte (elem : rtype) : bool := bool_decide (elem = byte_type).

(** A field of a struct type: its name, whether it is exported ([PkgPath]),
    embedded ([Anonymous]), its type and its [serix] tag, if it has one. *)
Record StructField : Type := {
  f_name : string;
  f_exported : bool;
  f_anonymous : bool;
  f_type : rtype;
  f_tag : option string;
}.

(** ** Values *)

(** A slice or an array of bytes is [VBytes] or [VByteArray]; a nil slice, map,
    pointer or interface is [None]; floats are their bits; the entries of a map
    are in the order in which [MapRange] visits them; an interface holds a value
    with its type. *)
Inductive value : Type :=
  | VBool (b : bool)
  | VInt (z : Z)
  | VFloat32 (bits : Z)
  | VFloat64 (bits : Z)
  | VString (s : list byte)
  | VBigInt (z : option Z)
  | VTime (t : Z)
  | VStruct (fields : list value)
  | VBytes (b : option (list byte))
  | VByteArray (b : list byte)
  | VSlice (elems : option (list value))
  | VArray (elems : list value)
  | VMap (entries : option (list (value * value)))
  | VPtr (elem : option value)
  | VInterface (elem : option (rtype * value))
  | VOther.

(** Struct types that contain a type by value. *)
Fixpoint by_value (t : rtype) : option tname :=
  match t with TStruct n => Some n | TArray _ _ t => by_value t | _ => None end.

(** What the Go program declares.  Go refuses a struct that contains itself by
    value: structs have a rank.  [Encode_method] and [Decode_method] are the
    methods [Encode() ([]byte, error)] and [Decode([]byte) (int, error)] of the
    method set of a type; the receiver of a method of a pointer type is what the
    pointer points to, and [Decode] returns what it left there. *)
Record program : Type := {
  fields_of : tname → list StructField;
  rank_of : tname → nat;
  ranked n f m : f ∈ fields_of n → by_value (f_type f) = Some m → (rank_of m < rank_of n)%nat;
  Encode_method : rtype → option (value → list byte * option error);
  Decode_method : rtype → option (value → list byte → value * (Z * option error));
}.

Section Zero.
Context (P : program).

(** The zero value of a type, structs nested at most [k] deep. *)
Fixpoint zero_at (k : nat) : rtype → value :=
  fix zero t :=
    match t with
    | TBool _ => VBool false
    | TNum _ (NumInt _) => VInt 0
    | TNum _ NumFloat32 => VFloat32 0
    | TNum _ NumFloat64 => VFloat64 0
    | TString _ => VString []
    | TBigIntPtr => VBigInt None
    | TTime => VTime (-62135596800 * 1000000000)
    | TStruct n =>
        match k with
        | O => VOther
        | S k => VStruct ((λ f, zero_at k (f_type f)) <$> fields_of P n)
        end
    | TSlice _ e => if is_byte e then VBytes None else VSlice None
    | TArray _ n e => if is_byte e then VByteArray (replicate n x00) else VArray (replicate n (zero e))
    | TMap _ _ _ => VMap None
    | TPtr _ => VPtr None
    | TInterface _ => VInterface None
    | TOther _ => VOther
    end.

Definition type_rank (t : rtype) : nat := match by_value t with Some n => S (rank_of P n) | None => O end.

Definition zero (t : rtype) : value := zero_at (type_rank t) t.

End Zero.

(** ** Settings ([type_settings.go]) *)

Definition LengthPrefixType : Type := SeriLengthPrefixType.

Definition ErrUnknownLengthPrefixType : error := ErrNew "unknown length prefix type".

Definition LengthPrefixTypeSize (t : LengthPrefixType) : Z + error :=
  match t with
  | SeriLengthPrefixTypeAsByte => inl 1
  | SeriLengthPrefixTypeAsUint16 => inl 2
  | SeriLengthPrefixTypeAsUint32 => inl 4
  | SeriLengthPrefixTypeAsUint64 => inl 8
  | SeriLengthPrefixTypeOther _ => inr ErrUnknownLengthPrefixType
  end.

(** The guards of the rules are not used by serix. *)
Notation rules := (ArrayRules ()).

Definition new_rules : rules := {|
  Min := 0; Max := 0; MustOccur := ∅; ValidationMode := 0;
  Guards := {| ReadGuard := λ _, inl (); PostReadGuard := None; WriteGuard := None |};
|}.

(** An object type is a number, of a declared type when [named]. *)
Record object_code : Type := ObjectCode { named : bool; code_num : num }.

Record TypeSettings : Type := mkTypeSettings {
  fieldKey : option string;
  description : string;
  objectType : option object_code;
  lengthPrefixType : option LengthPrefixType;
  lexicalOrdering : option bool;
  arrayRules : option rules;
}.

Definition NewTypeSettings : TypeSettings := mkTypeSettings None EmptyString None None None None.

Definition WithFieldKey (ts : TypeSettings) (key : string) : TypeSettings :=
  mkTypeSettings (Some key) (description ts) (objectType ts) (lengthPrefixType ts)
    (lexicalOrdering ts) (arrayRules ts).

Definition MustFieldKey (ts : TypeSettings) : outcome string :=
  match fieldKey ts with None => Panic "no field key set" | Some k => Ret k end.

Definition WithDescription (ts : TypeSettings) (d : string) : TypeSettings :=
  mkTypeSettings (fieldKey ts) d (objectType ts) (lengthPrefixType ts)
    (lexicalOrdering ts) (arrayRules ts).

Definition WithObjectType (ts : TypeSettings) (t : option object_code) : TypeSettings :=
  mkTypeSettings (fieldKey ts) (description ts) t (lengthPrefixType ts)
    (lexicalOrdering ts) (arrayRules ts).

Definition WithLengthPrefixType (ts : TypeSettings) (lpt : LengthPrefixType) : TypeSettings :=
  mkTypeSettings (fieldKey ts) (description ts) (objectType ts) (Some lpt)
    (lexicalOrdering ts) (arrayRules ts).

Definition WithLexicalOrdering (ts : TypeSettings) (val : bool) : TypeSettings :=
  mkTypeSettings (fieldKey ts) (description ts) (objectType ts) (lengthPrefixType ts)
    (Some val) (arrayRules ts).

Definition LexicalOrdering (ts : TypeSettings) : bool * bool :=
  match lexicalOrdering ts with None => (false, false) | Some b => (b, true) end.

Definition WithArrayRules (ts : TypeSettings) (r : option rules) : TypeSettings :=
  mkTypeSettings (fieldKey ts) (description ts) (objectType ts) (lengthPrefixType ts)
    (lexicalOrdering ts) r.

Definition WithMinLen (ts : TypeSettings) (l : Z) : TypeSettings :=
  let r := default new_rules (arrayRules ts) in
  WithArrayRules ts (Some {| Min := l; Max := Max r; MustOccur := MustOccur r;
                             Guards := Guards r; ValidationMode := ValidationMode r |}).

Definition WithMaxLen (ts : TypeSettings) (l : Z) : TypeSettings :=
  let r := default new_rules (arrayRules ts) in
  WithArrayRules ts (Some {| Min := Min r; Max := l; MustOccur := MustOccur r;
                             Guards := Guards r; ValidationMode := ValidationMode r |}).

Definition MinLen (ts : TypeSettings) : Z * bool :=
  match arrayRules ts with
  | None => (0, false)
  | Some r => if Min r =? 0 then (0, false) else (Min r, true)
  end.

Definition MaxLen (ts : TypeSettings) : Z * bool :=
  match arrayRules ts with
  | None => (0, false)
  | Some r => if Max r =? 0 then (0, false) else (Max r, true)
  end.

(** [int(ts.arrayRules.Min)] of a [uint]. *)
Definition MinMaxLen (ts : TypeSettings) : Z * Z :=
  match arrayRules ts with
  | None => (0, 0)
  | Some r => (Prelude.wrap I64 (Min r), Prelude.wrap I64 (Max r))
  end.

Definition ensureOrdering (ts : TypeSettings) : TypeSettings :=
  let newTS := WithLexicalOrdering ts true in
  let r := default new_rules (arrayRules newTS) in
  WithArrayRules newTS (Some {|
    Min := Min r; Max := Max r; MustOccur := MustOccur r; Guards := Guards r;
    ValidationMode := Z.lor (ValidationMode r) ArrayValidationModeLexicalOrdering |}).

(** [if a == nil { a = b }]. *)
Definition or_else {A} (a b : option A) : option A := match a with None => b | Some _ => a end.

Definition merge (ts other : TypeSettings) : TypeSettings :=
  mkTypeSettings (or_else (fieldKey ts) (fieldKey other)) (description ts)
    (or_else (objectType ts) (objectType other))
    (or_else (lengthPrefixType ts) (lengthPrefixType other))
    (or_else (lexicalOrdering ts) (lexicalOrdering other))
    (or_else (arrayRules ts) (arrayRules other)).

(** The mode of the options, and with the ordering of the type. *)
Definition options_toMode (validation : bool) : Z :=
  if validation then Z.lor DeSeriModeNoValidation DeSeriModePerformValidation
  else DeSeriModeNoValidation.

Definition toMode (ts : TypeSettings) (validation : bool) : Z :=
  let mode := options_toMode validation in
  let '(ordering, set) := LexicalOrdering ts in
  if set && ordering then Z.lor mode DeSeriModePerformLexicalOrdering else mode.

Definition checkMinMaxBoundsLength (ts : TypeSettings) (length : Z) : option error :=
  let '(minLen, okMin) := MinLen ts in
  if okMin && (length <? minLen) then
    Some (ErrWrap ErrArrayValidationMinElementsNotReached "min length %d not reached (len %d)")
  else
    let '(maxLen, okMax) := MaxLen ts in
    if okMax && (length >? maxLen) then
      Some (ErrWrap ErrArrayValidationMaxElementsExceeded "max length %d exceeded (len %d)")
    else None.

(** The length of a value that has one: arrays, maps, slices and strings. *)
Definition length_of (v : value) : option Z :=
  match v with
  | VString s => Some (len s)
  | VBytes b => Some (len (default [] b))
  | VByteArray b => Some (len b)
  | VSlice es => Some (len (default [] es))
  | VArray es => Some (len es)
  | VMap es => Some (len (default [] es))
  | _ => None
  end.

Definition checkMinMaxBounds (ts : TypeSettings) (v : value) : option error :=
  match length_of v with
  | None => None
  | Some l =>
      match checkMinMaxBoundsLength ts l with
      | Some e => Some (ErrWrap e "can't serialize '%s' type")
      | None => None
      end
  end.

(** The type assertion on a number of a declared type panics. *)
Definition getTypeDenotationAndCode (objectType : option object_code) : res (TypeDenotationType * Z) :=
  match objectType with
  | None => fail (ErrNew "can't detect type denotation type: object code is nil interface")
  | Some (ObjectCode named (NInt U32 v)) =>
      if named : bool then Panic "interface conversion" else ok (TypeDenotationUint32, v)
  | Some (ObjectCode named (NInt U8 v)) =>
      if named : bool then Panic "interface conversion" else ok (TypeDenotationByte, v)
  | Some _ => fail (ErrNew "unsupported object code type: %s (%s), only uint32 and byte are supported")
  end.

(** ** Struct tags ([serix_tags.go]) *)

(** [strings.Split] with a separator of one character. *)
Fixpoint Split (sep : Ascii.ascii) (s : string) : list string :=
  match s with
  | EmptyString => [EmptyString]
  | String c s =>
      match Split sep s with
      | [] => []
      | part :: parts =>
          if bool_decide (c = sep) then EmptyString :: part :: parts else String c part :: parts
      end
  end.

Fixpoint ContainsChar (c : Ascii.ascii) (s : string) : bool :=
  match s with EmptyString => false | String d s => bool_decide (c = d) || ContainsChar c s end.

(** [strconv.ParseUint(s, 10, 64)]. *)
Definition ErrSyntax : error := ErrNew "invalid syntax".
Definition ErrRange : error := ErrNew "value out of range".

Definition digit_of (c : Ascii.ascii) : option Z :=
  let z := Z.of_N (Ascii.N_of_ascii c) in
  if (48 <=? z) && (z <=? 57) then Some (z - 48) else None.

Fixpoint parse_digits (n : Z) (s : string) : Z + error :=
  match s with
  | EmptyString => inl n
  | String c s =>
      match digit_of c with
      | None => inr ErrSyntax
      | Some d => if n * 10 + d >? ity_max U64 then inr ErrRange else parse_digits (n * 10 + d) s
      end
  end.

Definition ParseUint (s : string) : Z + error :=
  match s with EmptyString => inr ErrSyntax | _ => parse_digits 0 s end.

Definition parseStructTagValue (keyValue : list string) : string + error :=
  match keyValue with
  | [_; v] => inl v
  | _ => inr (ErrNew "incorrect %s tag format: %s")
  end.

Definition parseStructTagValueUint (keyValue : list string) : Z + error :=
  match parseStructTagValue keyValue with
  | inr e => inr e
  | inl v => match ParseUint v with
             | inr e => inr (ErrWrap e "failed to parse %s %s")
             | inl n => inl n
             end
  end.

Definition parseLengthPrefixType (prefixTypeRaw : string) : LengthPrefixType + error :=
  if bool_decide (prefixTypeRaw = "byte"%string) || bool_decide (prefixTypeRaw = "uint8"%string)
  then inl SeriLengthPrefixTypeAsByte
  else if bool_decide (prefixTypeRaw = "uint16"%string) then inl SeriLengthPrefixTypeAsUint16
  else if bool_decide (prefixTypeRaw = "uint32"%string) then inl SeriLengthPrefixTypeAsUint32
  else if bool_decide (prefixTypeRaw = "uint64"%string) then inl SeriLengthPrefixTypeAsUint64
  else inr (ErrWrap ErrUnknownLengthPrefixType "%s").

Definition parseStructTagValuePrefixType (keyValue : list string) : LengthPrefixType + error :=
  match parseStructTagValue keyValue with
  | inr e => inr e
  | inl v => match parseLengthPrefixType v with
             | inr e => inr (ErrWrap e "failed to parse %s %s")
             | inl t => inl t
             end
  end.

Record TagSettings : Type := mkTagSettings {
  position : Z;
  isOptional : bool;
  inlined : bool;
  omitEmpty : bool;
  tag_ts : TypeSettings;
}.

Definition set_tag_ts (s : TagSettings) (ts : TypeSettings) : TagSettings :=
  mkTagSettings (position s) (isOptional s) (inlined s) (omitEmpty s) ts.

(** One part of the tag: the switch over its name. *)
Definition parse_part (settings : TagSettings) (currentPart : string) : TagSettings + error :=
  let keyValue := Split "="%char currentPart in
  let partName := hd EmptyString keyValue in
  let ts := tag_ts settings in
  if bool_decide (partName = "optional"%string) then
    inl (mkTagSettings (position settings) true (inlined settings) (omitEmpty settings) ts)
  else if bool_decide (partName = "inlined"%string) then
    inl (mkTagSettings (position settings) (isOptional settings) true (omitEmpty settings) ts)
  else if bool_decide (partName = "omitempty"%string) then
    inl (mkTagSettings (position settings) (isOptional settings) (inlined settings) true ts)
  else if bool_decide (partName = "description"%string) then
    match parseStructTagValue keyValue with
    | inr e => inr e
    | inl v => inl (set_tag_ts settings (WithDescription ts v))
    end
  else if bool_decide (partName = "lenPrefix"%string) then
    match parseStructTagValuePrefixType keyValue with
    | inr e => inr e
    | inl v => inl (set_tag_ts settings (WithLengthPrefixType ts v))
    end
  else if bool_decide (partName = "minLen"%string) then
    match parseStructTagValueUint keyValue with
    | inr e => inr e
    | inl v => inl (set_tag_ts settings (WithMinLen ts v))
    end
  else if bool_decide (partName = "maxLen"%string) then
    match parseStructTagValueUint keyValue with
    | inr e => inr e
    | inl v => inl (set_tag_ts settings (WithMaxLen ts v))
    end
  else inr (ErrNew "unknown tag part: %s").

(** The loop over the parts.  A part is looked up as it is written but recorded
    by its name, so that a part with a value is never found again. *)
Fixpoint parse_parts (settings : TagSettings) (seenParts : gset string) (parts : list string) :
    TagSettings + error :=
  match parts with
  | [] => inl settings
  | currentPart :: parts =>
      if bool_decide (currentPart ∈ seenParts) then inr (ErrNew "duplicated tag part: %s")
      else match parse_part settings currentPart with
           | inr e => inr e
           | inl settings =>
               parse_parts settings ({[hd EmptyString (Split "="%char currentPart)]} ∪ seenParts) parts
           end
  end.

Definition ParseSerixSettings (tag : string) (serixPosition : Z) : TagSettings + error :=
  let settings := mkTagSettings serixPosition false false false NewTypeSettings in
  if bool_decide (tag = EmptyString) then inl settings
  else
    let parts := Split ","%char tag in
    let keyPart := hd EmptyString parts in
    if ContainsChar "="%char keyPart then inr (ErrNew "incorrect struct tag format: %s, must start with the field key or ,")
    else
      let settings :=
        if bool_decide (keyPart = EmptyString) then settings
        else set_tag_ts settings (WithFieldKey (tag_ts settings) keyPart) in
      parse_parts settings ∅ (tail parts).

(** ** Struct fields ([struct_fields.go]) *)

Record structField : Type := mkStructField {
  sf_name : string;
  isUnexported : bool;
  sf_index : nat;
  fType : rtype;
  isEmbedded : bool;
  settings : TagSettings;
}.

Definition DeRefPointer (t : rtype) : rtype := match t with TPtr t => t | _ => t end.

(** A [*big.Int] points to a struct, too. *)
Definition isUnderlyingStruct (t : rtype) : bool :=
  match t with
  | TBigIntPtr => true
  | _ => match DeRefPointer t with TStruct _ | TTime => true | _ => false end
  end.

Definition isUnderlyingInterface (t : rtype) : bool :=
  match DeRefPointer t with TInterface _ => true | _ => false end.

(** [Kind() == reflect.Ptr] *)
Definition is_ptr (t : rtype) : bool := match t with TPtr _ | TBigIntPtr => true | _ => false end.
Definition is_interface (t : rtype) : bool := match t with TInterface _ => true | _ => false end.

(** One field: nothing for a field that serix skips. *)
Definition parse_field (i : nat) (serixPosition : Z) (field : StructField) :
    option structField + error :=
  let isUnexported := negb (f_exported field) in
  let isEmbeddedStruct := f_anonymous field && isUnderlyingStruct (f_type field) in
  let isEmbeddedInterface := f_anonymous field && isUnderlyingInterface (f_type field) in
  if isUnexported && negb isEmbeddedStruct && negb isEmbeddedInterface then inl None
  else match f_tag field with
       | None => inl None
       | Some tag =>
           match ParseSerixSettings tag serixPosition with
           | inr e => inr (ErrWrap e "failed to parse serix struct tag for field %s")
           | inl tSettings =>
               if isOptional tSettings && negb (is_ptr (f_type field) || is_interface (f_type field)) then
                 inr (ErrNew "struct field %s is invalid: 'optional' setting can only be used with pointers or interfaces, got %s")
               else if isOptional tSettings && isEmbeddedStruct then
                 inr (ErrNew "struct field %s is invalid: 'optional' setting can't be used with embedded structs")
               else if isOptional tSettings && isEmbeddedInterface then
                 inr (ErrNew "struct field %s is invalid: 'optional' setting can't be used with embedded interfaces")
               else if inlined tSettings && isUnexported then
                 inr (ErrNew "struct field %s is invalid: 'inlined' setting can't be used with unexported types")
               else if negb (inlined tSettings) && isEmbeddedInterface then
                 inr (ErrNew "struct field %s is invalid: 'inlined' setting needs to be used for embedded interfaces")
               else inl (Some (mkStructField (f_name field) isUnexported i (f_type field)
                                 (isEmbeddedStruct || isEmbeddedInterface) tSettings))
           end
       end.

Fixpoint parse_fields (i : nat) (serixPosition : Z) (fields : list StructField) :
    list structField + error :=
  match fields with
  | [] => inl []
  | field :: fields =>
      match parse_field i serixPosition field with
      | inr e => inr e
      | inl None => parse_fields (S i) serixPosition fields
      | inl (Some sf) =>
          match parse_fields (S i) (serixPosition + 1) fields with
          | inr e => inr e
          | inl sfs => inl (sf :: sfs)
          end
      end
  end.

Definition position_le (a b : structField) : Prop := position (settings a) ≤ position (settings b).
#[global] Instance position_le_dec : RelDecision position_le := λ a b, Z_le_dec _ _.

Definition parseStructFields (fields : list StructField) : list structField + error :=
  match parse_fields 0 0 fields with
  | inr e => inr e
  | inl sfs => inl (merge_sort position_le sfs)
  end.

(** ** Registries *)

(** The ordered maps of the registries are the association lists they refine. *)
Record InterfaceObjects : Type := mkInterfaceObjects {
  typeDenotation : TypeDenotationType;
  fromCodeToType : list (Z * rtype);
  fromTypeToCode : list (rtype * Z);
}.

Definition NewInterfaceObjects (d : TypeDenotationType) : InterfaceObjects := mkInterfaceObjects d [] [].

Definition AddObject (i : InterfaceObjects) (objCode : Z) (objType : rtype) : InterfaceObjects :=
  mkInterfaceObjects (typeDenotation i) (al_set objCode objType (fromCodeToType i))
    (al_set objType objCode (fromTypeToCode i)).

Definition HasObjectType (i : InterfaceObjects) (objType : rtype) : bool :=
  bool_decide (is_Some (al_get objType (fromTypeToCode i))).

Definition GetObjectTypeByCode (i : InterfaceObjects) (objCode : Z) : option rtype :=
  al_get objCode (fromCodeToType i).

Definition GetObjectCodeByType (i : InterfaceObjects) (objType : rtype) : option Z :=
  al_get objType (fromTypeToCode i).

(** A registered type may have no validator ([!IsValid()]). *)
Record API : Type := mkAPI {
  interfacesRegistry : list (rtype * InterfaceObjects);
  typeSettingsRegistry : list (rtype * TypeSettings);
  validatorsRegistry : list (rtype * option (value → option error));
}.

Definition NewAPI : API := mkAPI [] [] [].

(** The type a pointer type points to; [big.Int] is no type of its own here. *)
Definition elem_type (t : rtype) : option rtype :=
  match t with TPtr e => Some e | TBigIntPtr => Some (TOther "big.Int") | _ => None end.

Definition GetByType (r : list (rtype * TypeSettings)) (objType : rtype) : option TypeSettings :=
  match al_get objType r with
  | Some ts => Some ts
  | None => match elem_type objType with Some e => al_get e r | None => None end
  end.

(** [globalTS, _ := GetByType(t); ts.merge(globalTS)] *)
Definition merged (api : API) (ts : TypeSettings) (t : rtype) : TypeSettings :=
  merge ts (default NewTypeSettings (GetByType (typeSettingsRegistry api) t)).

(** Following pointers and interfaces until a type is registered; the type of
    what a nil pointer or interface holds cannot be asked for. *)
Fixpoint GetByValue (r : list (rtype * TypeSettings)) (t : rtype) (v : value)
    (optTS : option TypeSettings) {struct v} : outcome TypeSettings :=
  match al_get t r with
  | Some ts => Ret (match optTS with Some o => merge o ts | None => ts end)
  | None =>
      match t, v with
      | TPtr e, VPtr (Some v) => GetByValue r e v optTS
      | TInterface _, VInterface (Some (dt, dv)) => GetByValue r dt dv optTS
      | TPtr _, _ | TInterface _, _ | TBigIntPtr, VBigInt None =>
          Panic "reflect: call of reflect.Value.Type on zero Value"
      | _, _ => Ret (default NewTypeSettings optTS)
      end
  end.

(** [reflect.TypeOf(obj)] is nil for a nil interface. *)
Definition RegisterTypeSettings (api : API) (obj : option rtype) (ts : TypeSettings) : API * option error :=
  match obj with
  | None => (api, Some (ErrNew "'obj' is a nil interface, it needs to be a valid type"))
  | Some objType =>
      match al_get objType (typeSettingsRegistry api) with
      | Some _ => (api, Some (ErrNew "type settings for object %s are already registered"))
      | None => (mkAPI (interfacesRegistry api) (al_set objType ts (typeSettingsRegistry api))
                   (validatorsRegistry api), None)
      end
  end.

Definition getTypeDenotationAndObjectCode (r : list (rtype * TypeSettings)) (objType : rtype) :
    res (TypeDenotationType * Z) :=
  match GetByType r objType with
  | None => fail (ErrNew "no type settings was found for object %s you must register object with its type settings first")
  | Some ts =>
      match objectType ts with
      | None => fail (ErrNew "type settings for object %s doesn't contain object code")
      | Some c => getTypeDenotationAndCode (Some c)
      end
  end.

(** A nil object has no type to look up. *)
Definition GetObjectMetadata (r : list (rtype * TypeSettings)) (obj : option rtype) :
    res (rtype * TypeDenotationType * Z) :=
  match obj with
  | None => Panic "invalid memory address or nil pointer dereference"
  | Some objType =>
      x <~ wrap_res "failed to get type denotation for object %T" (getTypeDenotationAndObjectCode r objType);
      ok (objType, x.1, x.2)
  end.

#[global] Instance TypeDenotationType_eq_dec : EqDecision TypeDenotationType.
Proof. solve_decision. Defined.

(** The loop over the objects: the objects of the interface so far, and the error. *)
Fixpoint add_objects (r : list (rtype * TypeSettings)) (iRegistry : InterfaceObjects)
    (objs : list (option rtype)) : outcome (InterfaceObjects * option error) :=
  match objs with
  | [] => Ret (iRegistry, None)
  | obj :: objs =>
      match GetObjectMetadata r obj with
      | Panic msg => Panic msg
      | Ret (inr e) => Ret (iRegistry, Some e)
      | Ret (inl (objType, den, code)) =>
          if negb (bool_decide (typeDenotation iRegistry = den)) then
            Ret (iRegistry, Some (ErrNew "all registered objects must have the same type denotation: object %T has %s and object %T has %s"))
          else add_objects r (AddObject iRegistry code objType) objs
      end
  end.

Definition set_interfaces (api : API) (i : list (rtype * InterfaceObjects)) : API :=
  mkAPI i (typeSettingsRegistry api) (validatorsRegistry api).

(** [iType] is the type of the argument, a pointer to the interface.  The objects
    of a registered interface are changed in place, also when an error follows. *)
Definition RegisterInterfaceObjects (api : API) (iType : option rtype) (objs : list (option rtype)) :
    outcome (API * option error) :=
  match iType with
  | None => Ret (api, Some (ErrNew "'iType' is a nil interface, it needs to be a pointer to an interface"))
  | Some ptrType =>
      match elem_type ptrType with
      | None => Ret (api, Some (ErrNew "'iType' parameter must be a pointer, got %s"))
      | Some iTypeReflect =>
          if negb (is_interface iTypeReflect) then
            Ret (api, Some (ErrNew "'iType' pointer must contain an interface, got %s"))
          else
            match objs with
            | [] => Ret (api, None)
            | obj0 :: _ =>
                match al_get iTypeReflect (interfacesRegistry api) with
                | Some iRegistry =>
                    '(iRegistry, err) ← add_objects (typeSettingsRegistry api) iRegistry objs;
                    Ret (set_interfaces api (al_set iTypeReflect iRegistry (interfacesRegistry api)), err)
                | None =>
                    match GetObjectMetadata (typeSettingsRegistry api) obj0 with
                    | Panic msg => Panic msg
                    | Ret (inr e) => Ret (api, Some e)
                    | Ret (inl (_, den, _)) =>
                        '(iRegistry, err) ← add_objects (typeSettingsRegistry api) (NewInterfaceObjects den) objs;
                        match err with
                        | Some e => Ret (api, Some e)
                        | None => Ret (set_interfaces api (al_set iTypeReflect iRegistry (interfacesRegistry api)), None)
                        end
                    end
                end
            end
      end
  end.

(** ** Validators ([validators.go]) *)

Definition ctxType : rtype := TInterface "context.Context".
Definition errorType : rtype := TInterface "error".

(** The argument [validatorFn]: nil, a nil function, no function, or a function
    with its signature. *)
Inductive validator_fn : Type :=
  | FnNil
  | FnOther
  | FnFunc (ins outs : list rtype) (f : value → option error).

Definition parseValidatorFunc (fn : validator_fn) : option (list rtype * (value → option error)) + error :=
  match fn with
  | FnNil => inl None
  | FnOther => inr (ErrNew "validator must be a function, got %T(%s)")
  | FnFunc ins outs f =>
      if negb (length ins =? 2)%nat then inr (ErrNew "validator func must have two arguments")
      else if negb (bool_decide (head ins = Some ctxType)) then
        inr (ErrNew "validator func's first argument must be context")
      else if negb (length outs =? 1)%nat then
        inr (ErrNew "validator func must have one return value, got %d")
      else if negb (bool_decide (head outs = Some errorType)) then
        inr (ErrNew "validator func must have 'error' return type, got %s")
      else inl (Some (ins, f))
  end.

Definition checkSyntacticValidatorSignature (objectType : rtype) (ins : list rtype) : option error :=
  if bool_decide (ins !! 1%nat = Some objectType) then None
  else Some (ErrNew "syntacticValidatorFn's argument must have the same type as the object it was registered for, objectType=%s, argumentType=%s").

Definition RegisterValidator (api : API) (obj : option rtype) (fn : validator_fn) : API * option error :=
  match obj with
  | None => (api, Some (ErrNew "'obj' is a nil interface, it needs to be a valid type"))
  | Some objType =>
      match al_get objType (validatorsRegistry api) with
      | Some _ => (api, Some (ErrNew "validator for object type %s is already registered"))
      | None =>
          let register v :=
            mkAPI (interfacesRegistry api) (typeSettingsRegistry api)
              (al_set objType v (validatorsRegistry api)) in
          match parseValidatorFunc fn with
          | inr e => (api, Some (ErrWrap e "failed to parse syntacticValidatorFn"))
          | inl None => (register None, None)
          | inl (Some (ins, f)) =>
              match checkSyntacticValidatorSignature objType ins with
              | Some e => (api, Some e)
              | None => (register (Some f), None)
              end
          end
      end
  end.

(** What a pointer value points to; [None] for nil. *)
Definition elem_value (v : value) : option value :=
  match v with
  | VPtr o => o
  | VBigInt (Some _) => Some VOther
  | _ => None
  end.

(** Calling the validator of a type, if it has one; the zero [reflect.Value] is no argument. *)
Definition call_validator (api : API) (t : rtype) (v : option value) : res () :=
  match al_get t (validatorsRegistry api) with
  | Some (Some validator) =>
      match v with
      | None => Panic "reflect: Call using zero Value argument"
      | Some v =>
          match validator v with
          | Some e => fail (ErrWrap e "syntactic validator returned an error for type %s")
          | None => ok ()
          end
      end
  | _ => ok ()
  end.

Definition callSyntacticValidator (api : API) (t : rtype) (v : value) : res () :=
  match al_get t (validatorsRegistry api), elem_type t with
  | Some (Some _), _ => call_validator api t (Some v)
  | _, Some e => call_validator api e (elem_value v)
  | _, None => call_validator api t (Some v)
  end.

(** ** Array rules on types *)

(** [reflect.Indirect(elemValue.Elem())] for a pointer or an interface: the type
    of the result, [None] when it is invalid. *)
Definition indirect (t : rtype) (v : value) : option rtype :=
  match t, v with
  | TPtr e, VPtr (Some _) => Some e
  | TPtr _, _ => None
  | TBigIntPtr, VBigInt (Some _) => Some (TOther "big.Int")
  | TBigIntPtr, _ => None
  | _, _ => Some t
  end.

Definition occurring_type (t : rtype) (v : value) : option rtype :=
  match t, v with
  | TPtr e, VPtr (Some v) => indirect e v
  | TPtr _, _ => None
  | TInterface _, VInterface (Some (dt, dv)) => indirect dt dv
  | TInterface _, _ => None
  | TBigIntPtr, _ => indirect t v
  | _, _ => Some t
  end.

Fixpoint remove_occurring (api : API) (elem : rtype) (elems : list value) (mustOccur : gset Z) :
    res (gset Z) :=
  match elems with
  | [] => ok mustOccur
  | v :: elems =>
      match occurring_type elem v with
      | None => Panic "reflect: call of reflect.Value.Type on zero Value"
      | Some t =>
          match GetByType (typeSettingsRegistry api) t with
          | None => fail (ErrNew "missing type settings for %s; needed to check Must Occur rules")
          | Some ts =>
              x <~ getTypeDenotationAndCode (objectType ts);
              remove_occurring api elem elems (mustOccur ∖ {[x.2]})
          end
      end
  end.

Definition checkArrayMustOccur (api : API) (elem : rtype) (elems : list value) (ts : TypeSettings) : res () :=
  match arrayRules ts with
  | None => ok ()
  | Some r =>
      if bool_decide (MustOccur r = ∅) then ok ()
      else
        mustOccurPrefixes <~ remove_occurring api elem elems (MustOccur r);
        if bool_decide (mustOccurPrefixes = ∅) then ok ()
        else fail (ErrWrap ErrArrayValidationTypesNotOccurred "expected type prefixes that did not occur: %v")
  end.
