(* ===== verification/SerixEncode.v ===== *)
(** * serializer/serix: encoding

    [src/serializer/serix/encode.go].  The functions call each other to any
    depth; [fuel] is the depth of the stack, and a stack that is used up is the
    panic [stack_overflow].  [encode] returns the bytes; the nil slice and an
    empty one need not be told apart, since only a nil one is ever returned
    ([buffer_Bytes]). *)

From S2P Require Import OrderedMap.
From S2P Require Import Prelude Bytes Serializable Serializer Deserializer SerixTypes.

(** ** UTF-8 *)

(** A byte in a range. *)
Definition between (lo hi : Z) (b : byte) : bool := (lo <=? b2z b) && (b2z b <=? hi).
Definition continuation (b : byte) : bool := between 128 191 b.

(** [utf8.ValidString]. *)
Fixpoint ValidString (s : list byte) : bool :=
  match s with
  | [] => true
  | b0 :: s =>
      if b2z b0 <? 128 then ValidString s
      else match s with
      | [] => false
      | b1 :: s =>
          if between 194 223 b0 then continuation b1 && ValidString s
          else match s with
          | [] => false
          | b2 :: s =>
              if between 224 239 b0 then
                between (if b2z b0 =? 224 then 160 else 128) (if b2z b0 =? 237 then 159 else 191) b1 &&
                continuation b2 && ValidString s
              else match s with
              | [] => false
              | b3 :: s =>
                  between 240 244 b0 &&
                  between (if b2z b0 =? 240 then 144 else 128) (if b2z b0 =? 244 then 143 else 191) b1 &&
                  continuation b2 && continuation b3 && ValidString s
              end
          end
      end
  end.

Definition ErrNonUTF8String : error := ErrNew "non UTF-8 string value".
Definition ErrMapValidationViolatesUniqueness : error := ErrNew "map elements must be unique".
Definition ErrInterfaceUnderlyingTypeNotRegistered : error :=
  ErrNew "underlying type hasn't been registered for interface type".

Definition stack_overflow {A} : outcome A := Panic "goroutine stack exceeds 1000000000-byte limit".

(** A [reflect.Value] never holds a value of another type. *)
Definition ill_typed {A} : outcome A := Panic "value of another type".

(** [seri.Serialize()] as a result. *)
Definition serialized (s : Serializer) : res (list byte) :=
  match Serialize s with
  | (_, Some e) => fail e
  | (b, None) => ok (slice_bytes b)
  end.

Definition serialized_outcome (m : outcome Serializer) : res (list byte) :=
  match m with Ret s => serialized s | Panic msg => Panic msg end.

(** The number that is written for an object type. *)
Definition write_object_type (s : Serializer) (ts : TypeSettings) : Serializer :=
  match objectType ts with
  | None => s
  | Some c => WriteNum s (code_num c) (producing "failed to write object type code into serializer")
  end.

Section Encode.
Context (P : program) (api : API) (validation : bool).

(** The dynamic type and value of an interface, the value itself otherwise. *)
Definition dynamic (t : rtype) (v : value) : rtype * value :=
  match t, v with
  | TInterface _, VInterface (Some d) => d
  | _, _ => (t, v)
  end.

(** The [Encode] method of what the value holds; a method of a pointer type is
    called on what it points to. *)
Definition serializable (t : rtype) (v : value) : option (list byte * option error) :=
  match dynamic t v with
  | (TInterface _, _) => None
  | (TPtr e, VPtr (Some w)) => m ← Encode_method P (TPtr e); Some (m w)
  | (dt, dv) => m ← Encode_method P dt; Some (m dv)
  end.

Definition getStructFields (t : rtype) : list structField + error :=
  match parseStructFields (match t with TStruct n => fields_of P n | _ => [] end) with
  | inr e => inr (ErrWrap e "failed to parse struct type %s")
  | inl sfs => inl sfs
  end.

Section Layer.
(** The recursive call of [encode], and of [encodeStructFields]. *)
Context (enc : rtype → value → TypeSettings → res (list byte)).
Context (encFields : Serializer → rtype → value → res Serializer).

(** The type and value of an embedded field; [None] for a nil pointer. *)
Definition embedded (t : rtype) (v : value) : option (rtype * value) :=
  match t, v with
  | TPtr e, VPtr None => None
  | TPtr e, VPtr (Some w) => Some (e, w)
  | TBigIntPtr, VBigInt None => None
  | TBigIntPtr, VBigInt (Some _) => Some (TOther "big.Int", VOther)
  | _, _ => Some (t, v)
  end.

(** [fieldValue.IsNil()] of a pointer or an interface. *)
Definition is_nil (v : value) : bool :=
  match v with VPtr None | VInterface None | VBigInt None => true | _ => false end.

Definition encode_field (s : Serializer) (sField : structField) (fieldValue : value) : res Serializer :=
  if isEmbedded sField && negb (inlined (settings sField)) then
    match embedded (fType sField) fieldValue with
    | None => ok s
    | Some (fieldType, fieldValue) =>
        wrap_res "can't serialize embedded struct %s" (encFields s fieldType fieldValue)
    end
  else if isOptional (settings sField) then
    if is_nil fieldValue then
      ok (WritePayloadLength s 0 (producing "failed to write zero length for an optional struct field %s to serializer"))
    else
      fieldBytes <~ wrap_res "failed to serialize optional struct field %s"
        (enc (fType sField) fieldValue (tag_ts (settings sField)));
      let s := WritePayloadLength s (len fieldBytes)
        (producing "failed to write length for an optional struct field %s to serializer") in
      ok (WriteBytes s fieldBytes
        (producing "failed to write serialized struct field bytes to serializer, field=%s"))
  else
    b <~ wrap_res "failed to serialize struct field %s"
      (enc (fType sField) fieldValue (tag_ts (settings sField)));
    ok (WriteBytes s b (producing "failed to write serialized struct field bytes to serializer, field=%s")).

Fixpoint encode_fields (s : Serializer) (sfs : list structField) (fields : list value) : res Serializer :=
  match sfs with
  | [] => ok s
  | sField :: sfs =>
      match fields !! sf_index sField with
      | None => ill_typed
      | Some fieldValue =>
          s <~ encode_field s sField fieldValue;
          encode_fields s sfs fields
      end
  end.

Definition encodeStruct (t : rtype) (v : value) (ts : TypeSettings) : res (list byte) :=
  match t, v with
  | TTime, VTime time =>
      serialized (WriteTime NewSerializer time (producing "failed to write time to serializer"))
  | TStruct _, _ =>
      s <~ encFields (write_object_type NewSerializer ts) t v;
      serialized s
  | _, _ => ill_typed
  end.

Definition encodeSliceOfBytes (data : list slice) (ts : TypeSettings) : res (list byte) :=
  match lengthPrefixType ts with
  | None => fail (ErrNew "no LengthPrefixType was provided for type %s")
  | Some lpt =>
      serialized_outcome
        (WriteSliceOfByteSlices NewSerializer data (toMode ts validation) lpt
           (default new_rules (arrayRules ts))
           (producing "serializer failed to write %s as slice of bytes"))
  end.

Fixpoint encode_elems (elem : rtype) (elems : list value) : res (list slice) :=
  match elems with
  | [] => ok []
  | v :: elems =>
      elemBytes <~ wrap_res "failed to encode element with index %d of slice %s" (enc elem v NewTypeSettings);
      data <~ encode_elems elem elems;
      ok (buffer_Bytes elemBytes :: data)
  end.

(** The elements of a slice that is no slice of bytes. *)
Definition encodeObjects (elem : rtype) (elems : list value) (ts : TypeSettings) : res (list byte) :=
  _ <~ (if validation then wrap_res "can't serialize '%s' type" (checkArrayMustOccur api elem elems ts) else ok ());
  data <~ encode_elems elem elems;
  encodeSliceOfBytes data ts.

Definition encodeSlice (elem : rtype) (v : value) (ts : TypeSettings) : res (list byte) :=
  match v with
  | VBytes b =>
      match lengthPrefixType ts with
      | None => fail (ErrNew "no LengthPrefixType was provided for slice type %s")
      | Some lpt =>
          let '(minLen, maxLen) := MinMaxLen ts in
          serialized_outcome
            (WriteVariableByteSlice NewSerializer (default [] b) lpt
               (producing "failed to write bytes to serializer") minLen maxLen)
      end
  | VSlice es => encodeObjects elem (default [] es) ts
  | _ => ill_typed
  end.

Definition encodeArray (elem : rtype) (v : value) (ts : TypeSettings) : res (list byte) :=
  match v with
  | VByteArray b =>
      serialized (WriteBytes (write_object_type NewSerializer ts) b
        (producing "failed to write array of bytes to serializer"))
  | VArray es => encodeObjects elem es ts
  | _ => ill_typed
  end.

Definition encodeMapKVPair (kt et : rtype) (kv : value * value) : res slice :=
  match GetByValue (typeSettingsRegistry api) kt kv.1 None,
        GetByValue (typeSettingsRegistry api) et kv.2 None with
  | Ret keyTS, Ret valueTS =>
      keyBytes <~ wrap_res "failed to encode map key of type %s" (enc kt kv.1 keyTS);
      elemBytes <~ wrap_res "failed to encode map element of type %s" (enc et kv.2 valueTS);
      ok (buffer_Bytes (keyBytes ++ elemBytes))
  | Panic msg, _ | _, Panic msg => Panic msg
  end.

Fixpoint encode_pairs (kt et : rtype) (entries : list (value * value)) : res (list slice) :=
  match entries with
  | [] => ok []
  | kv :: entries =>
      b <~ encodeMapKVPair kt et kv;
      data <~ encode_pairs kt et entries;
      ok (b :: data)
  end.

Definition encodeMap (kt et : rtype) (v : value) (ts : TypeSettings) : res (list byte) :=
  match v with
  | VMap entries =>
      _ <~ (if validation then of_option (checkMinMaxBounds ts v) else ok ());
      data <~ encode_pairs kt et (default [] entries);
      encodeSliceOfBytes data (ensureOrdering ts)
  | _ => ill_typed
  end.

Definition encodeInterface (t : rtype) (v : value) (ts : TypeSettings) : res (list byte) :=
  match v with
  | VInterface None => fail (ErrNew "can't serialize interface %s it must have underlying value")
  | VInterface (Some (elemType, elemValue)) =>
      match al_get t (interfacesRegistry api) with
      | None => fail (ErrNew "interface %s isn't registered")
      | Some registry =>
          if negb (HasObjectType registry elemType) then
            fail (ErrWrap ErrInterfaceUnderlyingTypeNotRegistered "type: %s, interface: %s")
          else wrap_res "failed to encode interface element %s" (enc elemType elemValue ts)
      end
  | _ => ill_typed
  end.

Definition encodeString (s : list byte) (ts : TypeSettings) : res (list byte) :=
  match lengthPrefixType ts with
  | None => fail (ErrNew "can't serialize 'string' type: no LengthPrefixType was provided")
  | Some lpt =>
      let '(minLen, maxLen) := if validation then MinMaxLen ts else (0, 0) in
      if validation && negb (ValidString s) then
        fail (ErrWrap ErrNonUTF8String "can't serialize 'string' type")
      else
        serialized_outcome
          (WriteString NewSerializer s lpt (producing "failed to write string value to serializer") minLen maxLen)
  end.

(** The number [value.Convert(typeToConvert)]. *)
Definition number_of (k : number) (v : value) : option num :=
  match k, v with
  | NumInt T, VInt z => Some (NInt T z)
  | NumFloat32, VFloat32 bits => Some (NFloat32 bits)
  | NumFloat64, VFloat64 bits => Some (NFloat64 bits)
  | _, _ => None
  end.

Definition unsupported {A} : res A := fail (ErrNew "can't encode: unsupported type %T").

Definition encodeBasedOnType (t : rtype) (v : value) (ts : TypeSettings) : res (list byte) :=
  let ts := merged api ts t in
  _ <~ (if validation then of_option (checkMinMaxBounds ts v) else ok ());
  match t with
  | TBigIntPtr =>
      match v with
      | VBigInt z =>
          serialized (WriteUint256 NewSerializer z (producing "failed to write math big int to serializer"))
      | _ => ill_typed
      end
  | TPtr e =>
      match v with
      | VPtr None => fail (ErrNew "unexpected nil pointer for type %T")
      | VPtr (Some w) =>
          match e with
          | TStruct _ | TTime => encodeStruct e w ts
          | TArray _ _ elem => encodeArray elem w ts
          | _ => unsupported
          end
      | _ => ill_typed
      end
  | TStruct _ | TTime => encodeStruct t v ts
  | TSlice _ elem => encodeSlice elem v ts
  | TMap _ kt et => encodeMap kt et v ts
  | TArray _ _ elem => encodeArray elem v ts
  | TInterface _ => encodeInterface t v ts
  | TString _ => match v with VString s => encodeString s ts | _ => ill_typed end
  | TBool _ =>
      match v with
      | VBool b => serialized (WriteBool NewSerializer b (producing "failed to write bool value to serializer"))
      | _ => ill_typed
      end
  | TNum _ k =>
      match number_of k v with
      | Some n => serialized (WriteNum NewSerializer n (producing "failed to write number value to serializer"))
      | None => ill_typed
      end
  | TOther _ => unsupported
  end.

(** An object that serializes itself, behind its object type. *)
Definition encodeSerializable (t : rtype) (v : value) (ts : TypeSettings)
    (encoded : list byte * option error) : res (list byte) :=
  let ts := merged api ts (if is_interface t then (dynamic t v).1 else t) in
  bPrefix <~ serialized (write_object_type NewSerializer ts);
  match encoded with
  | (_, Some e) => fail (ErrWrap e "object failed to serialize itself")
  | (bEncoded, None) => ok (bPrefix ++ bEncoded)
  end.

Definition encode_layer (t : rtype) (v : value) (ts : TypeSettings) : res (list byte) :=
  _ <~ (if validation then
          wrap_res "pre-serialization validation failed" (callSyntacticValidator api t v)
        else ok ());
  match serializable t v with
  | Some encoded => encodeSerializable t v ts encoded
  | None => encodeBasedOnType t v ts
  end.

End Layer.

(** [encode] and [encodeStructFields] on a stack of depth [fuel]. *)
Fixpoint encode (fuel : nat) (t : rtype) (v : value) (ts : TypeSettings) : res (list byte) :=
  match fuel with
  | O => stack_overflow
  | S fuel => encode_layer (encode fuel) (encodeStructFields fuel) t v ts
  end
with encodeStructFields (fuel : nat) (s : Serializer) (t : rtype) (v : value) : res Serializer :=
  match fuel with
  | O => stack_overflow
  | S fuel =>
      match getStructFields t with
      | inr e => fail (ErrWrap e "can't parse struct type %s")
      | inl [] => ok s
      | inl sfs =>
          match v with
          | VStruct fields => encode_fields (encode fuel) (encodeStructFields fuel) s sfs fields
          | _ => ill_typed
          end
      end
  end.

End Encode.

(** [API.Encode] on a value of type [t]; an argument that is nil has no type. *)
Definition Encode (P : program) (api : API) (fuel : nat) (obj : option (rtype * value))
    (validation : bool) (optTS : TypeSettings) : res (list byte) :=
  match obj with
  | None => fail (ErrNew "invalid value for destination")
  | Some (t, v) => encode P api validation fuel t v optTS
  end.
