(* ===== verification/SerixDecode.v ===== *)
(** * serializer/serix: decoding

    [src/serializer/serix/decode.go].  [decode] gets the value of the destination
    and returns what it becomes, with the number of bytes read; what an error
    leaves in the destination is not modelled.  [addr] says whether the
    destination is addressable, as everything but the argument of [Decode] is.
    [fuel] is the depth of the stack, as for [encode].  Types with a method
    [SetDeserializationContext] are not modelled. *)

From S2P Require Import OrderedMap.
From S2P Require Import Prelude Bytes Serializable Serializer Deserializer SerixTypes SerixEncode.

(** ** Equality of the keys of a map *)

(** Go's [==]: NaN is not equal to itself, pointers are equal when they are the
    same pointer, which those of two decoded keys never are. *)
Definition float_eqb (exponent mantissa sign : Z) (a b : Z) : bool :=
  let nan x := (Z.land x exponent =? exponent) && negb (Z.land x mantissa =? 0) in
  negb (nan a) && negb (nan b) && ((a =? b) || (Z.lor a sign =? sign) && (Z.lor b sign =? sign)).

Fixpoint key_eqb (a b : value) : bool :=
  let fix all (xs ys : list value) : bool :=
    match xs, ys with
    | [], [] => true
    | x :: xs, y :: ys => key_eqb x y && all xs ys
    | _, _ => false
    end in
  match a, b with
  | VBool x, VBool y => Bool.eqb x y
  | VInt x, VInt y | VTime x, VTime y => x =? y
  | VFloat32 x, VFloat32 y => float_eqb (2 ^ 31 - 2 ^ 23) (2 ^ 23 - 1) (2 ^ 31) x y
  | VFloat64 x, VFloat64 y => float_eqb (2 ^ 63 - 2 ^ 52) (2 ^ 52 - 1) (2 ^ 63) x y
  | VString x, VString y | VByteArray x, VByteArray y => bool_decide (x = y)
  | VStruct xs, VStruct ys | VArray xs, VArray ys => all xs ys
  | VInterface (Some (t, x)), VInterface (Some (u, y)) => bool_decide (t = u) && key_eqb x y
  | VInterface None, VInterface None | VPtr None, VPtr None | VBigInt None, VBigInt None => true
  | _, _ => false
  end.

(** An interface may hold a slice or a map, which cannot be a key. *)
Fixpoint hashable (v : value) : bool :=
  match v with
  | VSlice _ | VBytes _ | VMap _ => false
  | VStruct vs | VArray vs => forallb hashable vs
  | VInterface (Some (_, v)) => hashable v
  | _ => true
  end.

(** ** Decoding *)

(** [return deseri.Done()] *)
Definition done {A} (d : Deserializer) (v : A) : res (A * Z) :=
  match Done d with (_, Some e) => fail e | (n, None) => ok (v, n) end.

(** What a read stored, or the old value. *)
Definition read_value {A} (m : outcome (Deserializer * option A)) (f : A → value) (old : value) :
    res (value * Z) :=
  match m with
  | Panic msg => Panic msg
  | Ret (d, o) => done d (from_option f old o)
  end.

(** The producer that adds the errors of array rules. *)
Definition producing_bounds (message : string) : ErrProducer :=
  fmap (λ e,
    let e := ErrWrap e message in
    if Is e ErrDeserializationLengthMinNotReached then ErrJoin e ErrArrayValidationMinElementsNotReached
    else if Is e ErrDeserializationLengthMaxExceeded then ErrJoin e ErrArrayValidationMaxElementsExceeded
    else e).

(** A value of Go, or its panic, inside a result. *)
Definition lift {A} (m : outcome A) : res A := match m with Ret a => ok a | Panic msg => Panic msg end.

(** Checking the object type in front of an object. *)
Definition check_object_type (d : Deserializer) (ts : TypeSettings) : res Deserializer :=
  match objectType ts with
  | None => ok d
  | Some c =>
      x <~ getTypeDenotationAndCode (Some c);
      lift (CheckTypePrefix d x.2 x.1 (producing "failed to check object type"))
  end.

Section Decode.
Context (P : program) (api : API) (validation : bool).

Section Layer.
Context (dec : bool → list byte → rtype → value → TypeSettings → res (value * Z)).
Context (decFields : Deserializer → rtype → value → res (Deserializer * value)).

(** ** Structs *)

Definition skip_read (d : Deserializer) (r : value * Z) : res (Deserializer * value) :=
  d <~ lift (Skip d r.2 (producing "failed to skip amount of bytes read for the struct field"));
  ok (d, r.1).

Definition decode_embedded (d : Deserializer) (sField : structField) (fieldValue : value) :
    res (Deserializer * value) :=
  let nil_unexported :=
    fail (ErrNew "embedded field %s is a nil pointer, can't initialize because it's unexported") in
  match fType sField, fieldValue with
  | TPtr e, VPtr o =>
      if is_nil fieldValue && isUnexported sField then nil_unexported
      else
        r <~ decFields d e (default (zero P e) o);
        ok (r.1, VPtr (Some r.2))
  | TBigIntPtr, VBigInt o =>
      if is_nil fieldValue && isUnexported sField then nil_unexported
      else
        r <~ decFields d (TOther "big.Int") VOther;
        ok (r.1, VBigInt (Some (default 0 o)))
  | t, v => decFields d t v
  end.

Definition decode_field (d : Deserializer) (sField : structField) (fieldValue : value) :
    res (Deserializer * value) :=
  if isEmbedded sField && negb (inlined (settings sField)) then
    wrap_res "can't deserialize embedded struct %s" (decode_embedded d sField fieldValue)
  else if isOptional (settings sField) then
    match ReadPayloadLength d with
    | Panic msg => Panic msg
    | Ret (_, _, Some e) => fail (ErrWrap e "can't read payload length from the deserializer")
    | Ret (d, payloadLength, None) =>
        if payloadLength =? 0 then ok (d, fieldValue)
        else
          rest <~ lift (RemainingBytes d);
          r <~ wrap_res "failed to deserialize optional struct field %s"
            (dec true rest (fType sField) fieldValue (tag_ts (settings sField)));
          if negb (r.2 =? payloadLength) then
            fail (ErrNew "optional object length isn't equal to the amount of bytes read; length=%d, bytesRead=%d")
          else skip_read d r
    end
  else
    rest <~ lift (RemainingBytes d);
    r <~ wrap_res "failed to deserialize struct field %s"
      (dec true rest (fType sField) fieldValue (tag_ts (settings sField)));
    skip_read d r.

Fixpoint decode_fields (d : Deserializer) (sfs : list structField) (fields : list value) :
    res (Deserializer * list value) :=
  match sfs with
  | [] => ok (d, fields)
  | sField :: sfs =>
      match fields !! sf_index sField with
      | None => ill_typed
      | Some fieldValue =>
          r <~ decode_field d sField fieldValue;
          decode_fields r.1 sfs (<[sf_index sField := r.2]> fields)
      end
  end.

Definition decodeStruct (b : list byte) (t : rtype) (v : value) (ts : TypeSettings) : res (value * Z) :=
  match t with
  | TTime =>
      read_value (ReadTime (NewDeserializer b) (producing "failed to read time from the deserializer")) VTime v
  | TStruct _ =>
      d <~ check_object_type (NewDeserializer b) ts;
      r <~ decFields d t v;
      done r.1 r.2
  | _ => ill_typed
  end.

(** ** Sequences *)

Definition decodeSequence {St} (b : list byte) (deserializeItem : DeserializeFunc St) (st : St)
    (ts : TypeSettings) : res (St * Z) :=
  match lengthPrefixType ts with
  | None => fail (ErrNew "no LengthPrefixType was provided for type %s")
  | Some lpt =>
      match ReadSequenceOfObjects (NewDeserializer b) st deserializeItem (toMode ts validation) lpt
              (default new_rules (arrayRules ts))
              (producing "failed to read sequence of objects %s from the deserialized") with
      | Panic msg => Panic msg
      | Ret (d, st) => done d st
      end
  end.

(** Appending to a slice that was made from an array is not possible. *)
Definition deserialize_elem (settable : bool) (elem : rtype) : DeserializeFunc (option (list value)) :=
  λ es b,
    match dec true b elem (zero P elem) NewTypeSettings with
    | Panic msg => Panic msg
    | Ret (inr e) => Ret (es, (0, Some e))
    | Ret (inl (x, n)) =>
        if settable then Ret (Some (default [] es ++ [x]), (n, None))
        else Panic "reflect: reflect.Value.Set using unaddressable value"
    end.

Definition decodeObjects (settable : bool) (b : list byte) (elem : rtype) (es : option (list value))
    (ts : TypeSettings) : res (option (list value) * Z) :=
  r <~ decodeSequence b (deserialize_elem settable elem) es ts;
  let es := default [] r.1 in
  _ <~ (if validation then wrap_res "can't deserialize '%s' type" (checkArrayMustOccur api elem es ts) else ok ());
  ok (Some es, r.2).

Definition decodeSlice (b : list byte) (elem : rtype) (v : value) (ts : TypeSettings) : res (value * Z) :=
  match v with
  | VBytes _ =>
      match lengthPrefixType ts with
      | None => fail (ErrNew "no LengthPrefixType was provided for slice type %s")
      | Some lpt =>
          let '(minLen, maxLen) := MinMaxLen ts in
          read_value (ReadVariableByteSlice (NewDeserializer b) lpt
                        (producing_bounds "failed to read bytes from the deserializer") minLen maxLen)
            (λ bs, VBytes (Some bs)) v
      end
  | VSlice es =>
      r <~ decodeObjects true b elem es ts;
      ok (VSlice r.1, r.2)
  | _ => ill_typed
  end.

Definition decodeArray (b : list byte) (elem : rtype) (v : value) (ts : TypeSettings) : res (value * Z) :=
  match v with
  | VByteArray bs =>
      d <~ check_object_type (NewDeserializer b) ts;
      read_value (ReadBytesInPlace d bs (producing "failed to read array of bytes from the deserializer"))
        VByteArray v
  | VArray es =>
      r <~ decodeObjects false b elem (Some es) ts;
      ok (v, r.2)
  | _ => ill_typed
  end.

(** ** Maps *)

(** [b[keyBytesRead:]] *)
Definition slice_after (b : list byte) (n : Z) : outcome (list byte) :=
  if (0 <=? n) && (n <=? len b) then Ret (drop (Z.to_nat n) b) else Panic "slice bounds out of range".

Definition decodeMapKVPair (b : list byte) (kt et : rtype) : res (value * value * Z) :=
  match GetByValue (typeSettingsRegistry api) kt (zero P kt) None,
        GetByValue (typeSettingsRegistry api) et (zero P et) None with
  | Ret keyTS, Ret valueTS =>
      k <~ wrap_res "failed to decode map key of type %s" (dec true b kt (zero P kt) keyTS);
      rest <~ lift (slice_after b k.2);
      e <~ wrap_res "failed to decode map element of type %s" (dec true rest et (zero P et) valueTS);
      ok (k.1, e.1, k.2 + e.2)
  | Panic msg, _ | _, Panic msg => Panic msg
  end.

Definition deserialize_pair (kt et : rtype) : DeserializeFunc (list (value * value)) :=
  λ entries b,
    match decodeMapKVPair b kt et with
    | Panic msg => Panic msg
    | Ret (inr e) => Ret (entries, (0, Some e))
    | Ret (inl (k, e, n)) =>
        if negb (hashable k) then Panic "runtime error: hash of unhashable type"
        else if existsb (λ kv, key_eqb kv.1 k) entries then
          Ret (entries, (0, Some (ErrWrap ErrMapValidationViolatesUniqueness "map entry with key %v already exists")))
        else Ret (entries ++ [(k, e)], (n, None))
    end.

Definition decodeMap (b : list byte) (kt et : rtype) (v : value) (ts : TypeSettings) : res (value * Z) :=
  match v with
  | VMap entries =>
      let ts := ensureOrdering ts in
      r <~ decodeSequence b (deserialize_pair kt et) (default [] entries) ts;
      let v := VMap (Some r.1) in
      _ <~ (if validation then of_option (checkMinMaxBounds ts v) else ok ());
      ok (v, r.2)
  | _ => ill_typed
  end.

(** ** Interfaces *)

Definition decodeInterface (b : list byte) (t : rtype) (ts : TypeSettings) : res (value * Z) :=
  match al_get t (interfacesRegistry api) with
  | None => fail (ErrNew "interface %s hasn't been registered")
  | Some iObjects =>
      match GetObjectType (NewDeserializer b) (typeDenotation iObjects) with
      | Panic msg => Panic msg
      | Ret (_, Some e) => fail e
      | Ret (objectCode, None) =>
          match GetObjectTypeByCode iObjects objectCode with
          | None => fail (ErrWrap ErrInterfaceUnderlyingTypeNotRegistered "object code: %d, interface: %s")
          | Some objectT =>
              r <~ dec true b objectT (zero P objectT) ts;
              ok (VInterface (Some (objectT, r.1)), r.2)
          end
      end
  end.

(** ** By kind *)

Definition decodeString (b : list byte) (v : value) (ts : TypeSettings) : res (value * Z) :=
  match lengthPrefixType ts with
  | None => fail (ErrNew "can't deserialize 'string' type: no LengthPrefixType was provided")
  | Some lpt =>
      let '(minLen, maxLen) := if validation then MinMaxLen ts else (0, 0) in
      match ReadString (NewDeserializer b) lpt
              (producing_bounds "failed to read string value from the deserializer") minLen maxLen with
      | Panic msg => Panic msg
      | Ret (d, o) =>
          let v := from_option VString v o in
          match v with
          | VString s =>
              if validation && negb (ValidString s) then
                fail (ErrWrap ErrNonUTF8String "can't deserialize 'string' type")
              else done d v
          | _ => ill_typed
          end
      end
  end.

Definition num_dest_of (k : number) : num_dest :=
  match k with NumInt T => PtrInt T | NumFloat32 => PtrFloat32 | NumFloat64 => PtrFloat64 end.

Definition value_of_num (n : num) : value :=
  match n with
  | NInt _ z => VInt z
  | NFloat32 bits => VFloat32 bits
  | NFloat64 bits => VFloat64 bits
  | _ => VOther
  end.

Fixpoint decodeBasedOnType (addr : bool) (b : list byte) (t : rtype) (v : value) (ts : TypeSettings) :
    res (value * Z) :=
  let ts := merged api ts t in
  match t with
  | TBigIntPtr =>
      if addr then
        read_value (ReadUint256 (NewDeserializer b) (producing "failed to read big.Int from deserializer"))
          (λ z, VBigInt (Some z)) v
      else Panic "reflect.Value.Addr of unaddressable value"
  | TPtr e =>
      match v with
      | VPtr o =>
          let w := default (zero P e) o in
          r <~ match e with
               | TStruct _ | TTime => decodeStruct b e w ts
               | TSlice _ elem => decodeSlice b elem w ts
               | TInterface _ => decodeInterface b e ts
               | TMap _ kt et => decodeMap b kt et w ts
               | TArray _ _ elem => decodeArray b elem w ts
               | _ => decodeBasedOnType true b e w ts
               end;
          ok (VPtr (Some r.1), r.2)
      | _ => ill_typed
      end
  | TStruct _ | TTime => decodeStruct b t v ts
  | TSlice _ elem => decodeSlice b elem v ts
  | TMap _ kt et => decodeMap b kt et v ts
  | TArray _ _ elem => decodeArray b elem v ts
  | TInterface _ => decodeInterface b t ts
  | TString _ => decodeString b v ts
  | TBool _ =>
      read_value (ReadBool (NewDeserializer b) (producing "failed to read bool value from the deserializer"))
        VBool v
  | TNum _ k =>
      read_value (ReadNum (NewDeserializer b) (num_dest_of k)
                    (producing "failed to read number value from the serializer")) value_of_num v
  | TOther _ => fail (ErrNew "can't decode: unsupported type %s")
  end.

(** ** Objects that deserialize themselves *)

(** The method, its receiver, and the destination with a new receiver. *)
Definition deserializable (addr : bool) (t : rtype) (v : value) :
    option ((value → list byte → value * (Z * option error)) * value * (value → value)) :=
  match t, v with
  | TPtr e, VPtr o =>
      m ← Decode_method P (TPtr e); Some (m, default (zero P e) o, λ w, VPtr (Some w))
  | TInterface _, VInterface (Some (TPtr e, VPtr (Some w))) =>
      m ← Decode_method P (TPtr e); Some (m, w, λ w, VInterface (Some (TPtr e, VPtr (Some w))))
  | TInterface _, VInterface (Some (dt, dv)) =>
      m ← Decode_method P dt; Some (m, dv, λ w, VInterface (Some (dt, w)))
  | TInterface _, _ => None
  | _, _ =>
      match Decode_method P t with
      | Some m => Some (m, v, λ w, w)
      | None =>
          if addr then m ← Decode_method P (TPtr t); Some (m, v, λ w, w) else None
      end
  end.

Definition decodeDeserializable (b : list byte) (t : rtype) (ts : TypeSettings)
    (x : (value → list byte → value * (Z * option error)) * value * (value → value)) :
    res (value * Z) :=
  let '(m, receiver, put) := x in
  let ts := merged api ts (default t (elem_type t)) in
  d <~ check_object_type (NewDeserializer b) ts;
  rest <~ lift (RemainingBytes d);
  p <~ done d ();
  match m receiver rest with
  | (_, (_, Some e)) => fail (ErrWrap e "object failed to deserialize itself")
  | (w, (n, None)) => ok (put w, p.2 + n)
  end.

(** A pointer to a pointer that deserializes itself: its element. *)
Definition pointer_to_deserializable (t : rtype) (v : value) : option (rtype * value) :=
  match t, v with
  | TPtr (TPtr e), VPtr (Some (VPtr o)) =>
      match Decode_method P (TPtr e) with
      | Some _ => Some (TPtr e, VPtr (Some (default (zero P e) o)))
      | None => None
      end
  | _, _ => None
  end.

Definition decode_layer (addr : bool) (b : list byte) (t : rtype) (v : value) (ts : TypeSettings) :
    res (value * Z) :=
  match deserializable addr t v, pointer_to_deserializable t v with
  | None, Some (e, w) =>
      r <~ dec true b e w ts;
      ok (VPtr (Some r.1), r.2)
  | x, _ =>
      r <~ match x with
           | Some x => decodeDeserializable b t ts x
           | None => decodeBasedOnType addr b t v ts
           end;
      _ <~ (if validation then
              wrap_res "post-deserialization validation failed" (callSyntacticValidator api t r.1)
            else ok ());
      ok r
  end.

End Layer.

(** [decode] and [decodeStructFields] on a stack of depth [fuel]. *)
Fixpoint decode (fuel : nat) (addr : bool) (b : list byte) (t : rtype) (v : value) (ts : TypeSettings) :
    res (value * Z) :=
  match fuel with
  | O => stack_overflow
  | S fuel => decode_layer (decode fuel) (decodeStructFields fuel) addr b t v ts
  end
with decodeStructFields (fuel : nat) (d : Deserializer) (t : rtype) (v : value) :
    res (Deserializer * value) :=
  match fuel with
  | O => stack_overflow
  | S fuel =>
      match getStructFields P t with
      | inr e => fail (ErrWrap e "can't parse struct type %s")
      | inl [] => ok (d, v)
      | inl sfs =>
          match v with
          | VStruct fields =>
              r <~ decode_fields (decode fuel) (decodeStructFields fuel) d sfs fields;
              ok (r.1, VStruct r.2)
          | _ => ill_typed
          end
      end
  end.

(** [checkDecodeDestination] and [API.Decode]: [obj] is the argument, nil or a
    value with its type. *)
Definition checkDecodeDestination (obj : option (rtype * value)) : option error :=
  match obj with
  | None => Some (ErrNew "invalid value for destination")
  | Some (t, v) =>
      if negb (is_ptr t) then
        Some (ErrNew "can't decode, the destination object must be a pointer, got: %T(%s)")
      else if is_nil v then
        Some (ErrNew "can't decode, the destination object %T must be a non-nil pointer")
      else None
  end.

Definition Decode (fuel : nat) (b : list byte) (obj : option (rtype * value)) (optTS : TypeSettings) :
    res (value * Z) :=
  match checkDecodeDestination obj, obj with
  | Some e, _ => fail e
  | None, Some (t, v) => decode fuel false b t v optTS
  | None, None => ill_typed
  end.

End Decode.
