(* ===== verification/SerixRoundtrip.v ===== *)
(** * serializer/serix: decoding what was encoded

    What [encode] writes, [decode] reads back, whatever bytes follow: the value
    that comes back is the one that was encoded, up to what the format does not
    keep ([back]). *)

From S2P Require Import OrderedMap.
From S2P Require Import Prelude Bytes Serializable Serializer Deserializer SerializerFields SerializerObjects.
From S2P Require Import SerixTypes SerixEncode SerixDecode.

(** ** Results *)

Lemma bind_res_ok {A B} (m : res A) (f : A → res B) b :
  bind_res m f = Ret (inl b) ↔ ∃ a, m = Ret (inl a) ∧ f a = Ret (inl b).
Proof. destruct m as [[a|e]|msg]; simpl; split; naive_solver. Qed.

Lemma wrap_res_ok {A} msg (m : res A) a : wrap_res msg m = Ret (inl a) ↔ m = Ret (inl a).
Proof. destruct m as [[?|?]|?]; simpl; split; naive_solver. Qed.

Lemma of_option_ok e : of_option e = Ret (inl ()) ↔ e = None.
Proof. destruct e; simpl; split; naive_solver. Qed.

Lemma producing_keeps msg : keeps_errors (producing msg).
Proof. intros e. unfold producing. simpl. congruence. Qed.

(** Inverting and running a program of results. *)
Ltac inv_res :=
  repeat match goal with
  | H : bind_res _ _ = Ret (inl _) |- _ => apply bind_res_ok in H as (? & ? & ?)
  | H : wrap_res _ _ = Ret (inl _) |- _ => apply wrap_res_ok in H
  | H : ok _ = Ret (inl _) |- _ => injection H as H; subst
  | H : fail _ = Ret (inl _) |- _ => discriminate H
  | H : ill_typed = Ret (inl _) |- _ => discriminate H
  | H : unsupported = Ret (inl _) |- _ => discriminate H
  end.

(** ** Zero values *)

Section Zero.
Context (P : program).

Lemma zero_at_array k n size e :
  zero_at P k (TArray n size e) =
    if is_byte e then VByteArray (replicate size x00) else VArray (replicate size (zero_at P k e)).
Proof. by destruct k. Qed.

Lemma zero_at_enough k k' t :
  (type_rank P t ≤ k)%nat → (type_rank P t ≤ k')%nat → zero_at P k t = zero_at P k' t.
Proof.
  revert k k'.
  assert (∀ r k k' t, (type_rank P t ≤ r)%nat → (type_rank P t ≤ k)%nat → (type_rank P t ≤ k')%nat →
    zero_at P k t = zero_at P k' t) as H; [|intros k k'; by apply (H (type_rank P t))].
  clear t. intros r. induction r as [|r IHr]; intros k k' t.
  - induction t as [| | | | |n|n e IH|n size e IH| | | |]; intros Hr Hk Hk'; try by destruct k, k'.
    + unfold type_rank in Hr. simpl in Hr. lia.
    + rewrite !zero_at_array. by rewrite IH.
  - induction t as [| | | | |n|n e IH|n size e IH| | | |]; intros Hr Hk Hk'; try by destruct k, k'.
    + unfold type_rank in Hr, Hk, Hk'. simpl in Hr, Hk, Hk'. destruct k as [|k], k' as [|k']; try lia. cbn [zero_at]. f_equal.
      apply list_fmap_ext. intros i f Hf%list_elem_of_lookup_2.
      assert (type_rank P (f_type f) ≤ rank_of P n)%nat.
      { unfold type_rank. destruct (by_value (f_type f)) as [m|] eqn:E; [|lia].
        pose proof (ranked P n f m Hf E). lia. }
      apply IHr; lia.
    + rewrite !zero_at_array. by rewrite IH.
Qed.

Lemma zero_struct n : zero P (TStruct n) = VStruct (zero P ∘ f_type <$> fields_of P n).
Proof.
  unfold zero at 1. cbn [type_rank by_value zero_at]. f_equal.
  apply list_fmap_ext. intros i f Hf%list_elem_of_lookup_2. simpl. unfold zero.
  apply zero_at_enough; [|done]. unfold type_rank.
  destruct (by_value (f_type f)) as [m|] eqn:E; [|lia]. pose proof (ranked P n f m Hf E). lia.
Qed.

Lemma zero_array n size e :
  zero P (TArray n size e) = if is_byte e then VByteArray (replicate size x00) else VArray (replicate size (zero P e)).
Proof.
  unfold zero. by rewrite zero_at_array.
Qed.

Lemma zero_slice n e : zero P (TSlice n e) = if is_byte e then VBytes None else VSlice None.
Proof. done. Qed.

Lemma zero_ptr e : zero P (TPtr e) = VPtr None.
Proof. done. Qed.

End Zero.

(** ** Serializers *)

Lemma serialized_wrote s bs : serialized (wrote s bs) = ok (buf s ++ bs).
Proof. unfold serialized, Serialize. simpl. by destruct (buf s ++ bs). Qed.

Lemma serialized_inv s b : serialized s = Ret (inl b) → s_err s = None ∧ b = buf s.
Proof.
  unfold serialized, Serialize. destruct (s_err s); [done|]. intros [= <-]. by destruct (buf s).
Qed.

Lemma serialized_outcome_inv m b :
  serialized_outcome m = Ret (inl b) → ∃ s, m = Ret s ∧ s_err s = None ∧ b = buf s.
Proof. destruct m as [s|]; [|done]. intros H%serialized_inv. eauto. Qed.

Lemma wrote_nil s : s_err s = None → wrote s [] = s.
Proof. intros Hs. unfold wrote. rewrite app_nil_r. destruct s; simpl in *. by subst. Qed.

(** The bytes in front of an object: its object type, if it has one. *)
Definition code_bytes (ts : TypeSettings) : list byte :=
  match objectType ts with
  | Some (ObjectCode _ (NInt T z)) => le_bytes (ity_bytes T) z
  | _ => []
  end.

(** An object type that can be read back. *)
Definition code_ok (ts : TypeSettings) : Prop :=
  match objectType ts with
  | None => True
  | Some (ObjectCode false (NInt U8 z)) => in_range U8 z
  | Some (ObjectCode false (NInt U32 z)) => in_range U32 z
  | _ => False
  end.

Lemma write_object_type_ok s ts :
  s_err s = None → code_ok ts → write_object_type s ts = wrote s (code_bytes ts).
Proof.
  intros Hs. unfold write_object_type, code_ok, code_bytes.
  destruct (objectType ts) as [[[|] [T z|?|?|?|]]|]; try done.
  - intros _. unfold WriteNum. rewrite Hs. simpl. by apply write_ok.
  - intros _. by rewrite wrote_nil.
Qed.

Lemma Skip_at d a b n ep : reads_at d (a ++ b) → n = len a → Skip d n ep = Ret (advance d n).
Proof.
  intros Hd ->. unfold Skip. rewrite (proj1 Hd), (RemainingBytes_at _ _ Hd). cbn [mbind outcome_bind].
  rewrite len_app. by rewrite (proj2 (Z.ltb_ge _ _)) by (pose proof (len_nonneg b); lia).
Qed.

Lemma check_object_type_at d ts rest :
  code_ok ts → reads_at d (code_bytes ts ++ rest) →
  check_object_type d ts = ok (advance d (len (code_bytes ts))).
Proof.
  unfold code_ok, code_bytes, check_object_type.
  destruct (objectType ts) as [[[|] [T z|?|?|?|]]|]; try done; [|intros _ _; by rewrite advance_0].
  destruct T; try done; intros Hz Hd; cbn [getTypeDenotationAndCode bind_res ok fst snd];
    unfold CheckTypePrefix; rewrite (proj1 Hd), (RemainingBytes_at _ _ Hd); cbn [mbind outcome_bind].
  - unfold in_range in Hz. assert (z = z mod 256) as Hm by (rewrite Z.mod_small; [done|ity_consts; lia]).
    cbn [le_bytes ity_bytes app CheckTypeByte]. rewrite wrap_id by done. rewrite b2z_z2b, <-Hm, Z.eqb_refl.
    cbn [negb]. rewrite (Skip_at d (le_bytes 1 z) rest); [done..|by rewrite len_le_bytes].
  - unfold CheckType. rewrite len_app, len_le_bytes.
    rewrite (proj2 (Z.ltb_ge _ _)) by (pose proof (len_nonneg rest); cbv [UInt32ByteSize ity_bytes]; lia).
    rewrite (take_app_length' _ _ 4) by (by rewrite length_le_bytes).
    rewrite le_roundtrip by (unfold in_range in Hz; ity_consts; simpl; lia). rewrite Z.eqb_refl. cbn [negb].
    rewrite (Skip_at d (le_bytes 4 z) rest); [done..|by rewrite len_le_bytes].
Qed.

(** Reading a field with the lemma of the fields, and returning. *)
Lemma done_at bs rest (v : value) :
  done (advance (NewDeserializer (bs ++ rest)) (len bs)) v = ok (v, len bs).
Proof. unfold done, Done. simpl. by rewrite Z.add_0_l. Qed.

Lemma new_reads_at b : reads_at (NewDeserializer b) b.
Proof. split; [done|]. by exists []. Qed.

Lemma read_value_at {A} (m : outcome (Deserializer * option A)) f (old : value) bs rest (a : A) :
  m = Ret (advance (NewDeserializer (bs ++ rest)) (len bs), Some a) →
  read_value m f old = Ret (inl (f a, len bs)).
Proof. intros ->. simpl. apply done_at. Qed.

(** ** Writing succeeds only as it should *)

Lemma write_bounded_inv data lt ep mn mx e1 e2 s :
  keeps_errors ep → write_bounded NewSerializer data lt ep mn mx e1 e2 = Ret s → s_err s = None →
  length_ok lt mn mx (len data) ∧ buf s = le_bytes (prefix_size lt) (len data) ++ data.
Proof.
  intros Hk H Hs.
  assert (length_ok lt mn mx (len data)) as Hok.
  { unfold write_bounded, when_ok in H. cbn [s_err NewSerializer] in H. rewrite !Z.gtb_ltb in H.
    destruct ((0 <? mx) && (mx <? len data)) eqn:E1; [simplify_eq/=; by destruct (Hk _ Hs)|].
    destruct ((0 <? mn) && (len data <? mn)) eqn:E2; [simplify_eq/=; by destruct (Hk _ Hs)|].
    split; [intros ?; apply andb_false_iff in E1 as [?%Z.ltb_ge|?%Z.ltb_ge]; lia|].
    split; [intros ?; apply andb_false_iff in E2 as [?%Z.ltb_ge|?%Z.ltb_ge]; lia|].
    destruct (prefix_bound lt) as [b|] eqn:Eb; [|by destruct lt].
    exists b. split; [done|]. destruct (Z.le_gt_cases (len data) b) as [|Hgt]; [done|].
    rewrite (writeSliceLength_too_long _ _ _ b) in H by done. cbn [mbind outcome_bind set_err s_err] in H.
    destruct (ep (Some length_error)) eqn:Ee; [simplify_eq/=; congruence|by destruct (Hk _ Ee)]. }
  split; [done|]. rewrite write_bounded_ok in H by done. by simplify_eq/=.
Qed.

Lemma slices_prefix_known {S} data mode lt (ar : ArrayRules S) ep s :
  keeps_errors ep → WriteSliceOfByteSlices NewSerializer data mode lt ar ep = Ret s → s_err s = None →
  is_Some (prefix_bound lt).
Proof.
  intros Hk. unfold WriteSliceOfByteSlices, when_ok. cbn [s_err NewSerializer].
  destruct (if HasMode mode DeSeriModePerformValidation then CheckBounds ar (len data) else None) as [e|].
  { intros [= <-] Hs. by destruct (Hk _ Hs). }
  intros Hw _. by destruct lt; [eexists..| |].
Qed.

Lemma WriteUint256_inv z ep :
  keeps_errors ep → s_err (WriteUint256 NewSerializer z ep) = None →
  ∃ n, z = Some n ∧ 0 ≤ n < 2 ^ 256.
Proof.
  intros Hk. unfold WriteUint256. cbn [s_err NewSerializer].
  destruct z as [n|]; [|intros H; by destruct (Hk _ H)].
  destruct (Z.ltb_spec n 0); [intros H'; by destruct (Hk _ H')|].
  rewrite Z.gtb_ltb. destruct (Z.ltb_spec UInt256ByteSize (len (big_Bytes n))) as [|Hl]; [intros H'; by destruct (Hk _ H')|].
  intros _. exists n. split; [done|]. split; [done|].
  eapply Z.lt_le_trans; [by apply big_size_fits|]. apply Z.pow_le_mono_r; [lia|].
  unfold len, big_Bytes in Hl. rewrite length_be_bytes in Hl. cbv [UInt256ByteSize] in Hl. lia.
Qed.

Lemma producing_bounds_keeps msg : keeps_errors (producing_bounds msg).
Proof. intros e. unfold producing_bounds. simpl. congruence. Qed.

(** ** Lists *)

Lemma Forall_choice {A B} (R : A → B → Prop) xs :
  Forall (λ x, ∃ y, R x y) xs → ∃ ys, Forall2 R xs ys.
Proof.
  induction 1 as [|x xs (y & Hy) _ (ys & IH)]; [by exists []|]. exists (y :: ys). by constructor.
Qed.

(** ** Modes *)

Lemma toMode_validation ts validation : HasMode (toMode ts validation) DeSeriModePerformValidation = validation.
Proof. unfold toMode, options_toMode, LexicalOrdering. destruct validation, (lexicalOrdering ts) as [[|]|]; done. Qed.

Lemma toMode_ordering ts validation :
  HasMode (toMode ts validation) DeSeriModePerformLexicalOrdering = bool_decide (lexicalOrdering ts = Some true).
Proof. unfold toMode, options_toMode, LexicalOrdering. destruct validation, (lexicalOrdering ts) as [[|]|]; done. Qed.

(** ** The fields of a struct *)

Lemma parse_fields_facts i p fields sfs :
  parse_fields i p fields = inl sfs →
  NoDup (sf_index <$> sfs) ∧
  ∀ sf, sf ∈ sfs → (i ≤ sf_index sf)%nat ∧ ∃ f, fields !! (sf_index sf - i)%nat = Some f ∧ fType sf = f_type f.
Proof.
  revert i p sfs. induction fields as [|f fields IH]; intros i p sfs; cbn [parse_fields].
  { intros [= <-]. split; [constructor|]. set_solver. }
  destruct (parse_field i p f) as [[sf|]|] eqn:E; [| |done].
  - destruct (parse_fields (S i) (p + 1) fields) as [sfs'|] eqn:Ef; [|done]. intros [= <-].
    destruct (IH _ _ _ Ef) as [Hnd Hin].
    assert (sf_index sf = i ∧ fType sf = f_type f) as [Hi Ht].
    { unfold parse_field in E. repeat case_match; simplify_eq/=; done. }
    rewrite fmap_cons. split.
    + constructor; [|done]. intros (sf' & Hsf' & Hin')%list_elem_of_fmap. apply Hin in Hin' as [? _]. lia.
    + intros sf' [->|Hsf']%elem_of_cons.
      * split; [lia|]. rewrite Hi, Nat.sub_diag. by exists f.
      * destruct (Hin sf' Hsf') as [Hle (f' & Hf' & Ht')]. split; [lia|]. exists f'. split; [|done].
        by replace (sf_index sf' - i)%nat with (S (sf_index sf' - S i)) by lia.
  - intros Hp. destruct (IH _ _ _ Hp) as [Hnd Hin]. split; [done|].
    intros sf' Hsf'. destruct (Hin sf' Hsf') as [Hle (f' & Hf' & Ht')]. split; [lia|]. exists f'. split; [|done].
    by replace (sf_index sf' - i)%nat with (S (sf_index sf' - S i)) by lia.
Qed.

Lemma getStructFields_facts P n sfs :
  getStructFields P (TStruct n) = inl sfs →
  NoDup (sf_index <$> sfs) ∧
  ∀ sf, sf ∈ sfs → ∃ f, fields_of P n !! sf_index sf = Some f ∧ fType sf = f_type f.
Proof.
  unfold getStructFields, parseStructFields.
  destruct (parse_fields 0 0 (fields_of P n)) as [sfs0|] eqn:E; [|done]. intros [= <-].
  destruct (parse_fields_facts _ _ _ _ E) as [Hnd Hin].
  pose proof (merge_sort_Permutation position_le sfs0) as Hp. split.
  - by rewrite Hp.
  - intros sf. rewrite Hp. intros Hsf. destruct (Hin sf Hsf) as [_ (f & Hf & Ht)].
    exists f. by rewrite Nat.sub_0_r in Hf.
Qed.

Lemma encodeStructFields_S P api validation n s m fs sfs :
  getStructFields P (TStruct m) = inl sfs →
  encodeStructFields P api validation (S n) s (TStruct m) (VStruct fs) =
    encode_fields (encode P api validation n) (encodeStructFields P api validation n) s sfs fs.
Proof. intros H. simpl. rewrite H. by destruct sfs. Qed.

Lemma decodeStructFields_S P api validation n d m fs sfs :
  getStructFields P (TStruct m) = inl sfs →
  decodeStructFields P api validation (S n) d (TStruct m) (VStruct fs) =
    (r <~ decode_fields P (decode P api validation n) (decodeStructFields P api validation n) d sfs fs;
     ok (r.1, VStruct r.2)).
Proof. intros H. simpl. rewrite H. by destruct sfs. Qed.

Section Roundtrip.
Context (P : program) (api : API) (validation : bool).

(** ** What comes back *)

(** A nil slice or map comes back empty; the elements of a slice with lexical
    ordering and the entries of a map come back in another order; a field
    without a tag comes back as its zero value. *)
Inductive back : rtype → TypeSettings → value → value → Prop :=
  | back_same t ts v : back t ts v v
  | back_bytes n e ts b : back (TSlice n e) ts (VBytes b) (VBytes (Some (default [] b)))
  | back_slice n e ts es es0 es' :
      es0 ≡ₚ default [] es →
      (lexicalOrdering (merged api ts (TSlice n e)) ≠ Some true → es0 = default [] es) →
      Forall2 (back e NewTypeSettings) es0 es' →
      back (TSlice n e) ts (VSlice es) (VSlice (Some es'))
  | back_map n kt et ts kts ets es es0 es' :
      es0 ≡ₚ default [] es →
      Forall2 (λ x y, back kt kts x.1 y.1 ∧ back et ets x.2 y.2) es0 es' →
      back (TMap n kt et) ts (VMap es) (VMap (Some es'))
  | back_ptr e ts w w' : back e ts w w' → back (TPtr e) ts (VPtr (Some w)) (VPtr (Some w'))
  | back_interface n ts ts' dt dv dv' :
      back dt ts' dv dv' →
      back (TInterface n) ts (VInterface (Some (dt, dv))) (VInterface (Some (dt, dv')))
  | back_struct n ts sfs fs fs' :
      getStructFields P (TStruct n) = inl sfs →
      length fs' = length (fields_of P n) →
      (∀ sf, sf ∈ sfs → ∃ v v', fs !! sf_index sf = Some v ∧ fs' !! sf_index sf = Some v' ∧
         back (fType sf) (tag_ts (settings sf)) v v') →
      (∀ i f, fields_of P n !! i = Some f → (∀ sf, sf ∈ sfs → sf_index sf ≠ i) →
         fs' !! i = Some (zero P (f_type f))) →
      back (TStruct n) ts (VStruct fs) (VStruct fs').

(** ** Values that can be read back *)

(** The object type of the value of an interface finds its type again. *)
Definition code_finds (io : InterfaceObjects) (ts : TypeSettings) (t : rtype) : Prop :=
  match typeDenotation io, objectType ts with
  | TypeDenotationByte, Some (ObjectCode false (NInt U8 z)) =>
      in_range U8 z ∧ GetObjectTypeByCode io z = Some t
  | TypeDenotationUint32, Some (ObjectCode false (NInt U32 z)) =>
      in_range U32 z ∧ GetObjectTypeByCode io z = Some t
  | _, _ => False
  end.

(** Types whose encoding starts with the object type. *)
Definition prefixed (t : rtype) (v : value) : Prop :=
  is_Some (serializable P t v) ∧ is_interface t = false ∨
  serializable P t v = None ∧
  match t with
  | TStruct _ | TPtr (TStruct _) => True
  | TArray _ _ e | TPtr (TArray _ _ e) => is_byte e = true
  | _ => False
  end.

Section Layer.
Context (W : rtype → value → TypeSettings → Prop) (WF : rtype → value → Prop).
Context (E : rtype → value → TypeSettings → res (list byte)).

Definition wf_field (sf : structField) (v : value) : Prop :=
  if isEmbedded sf && negb (inlined (settings sf)) then
    match fType sf, v with
    | TStruct n, _ => WF (TStruct n) v
    | TPtr (TStruct n), VPtr (Some w) => isUnexported sf = false ∧ WF (TStruct n) w
    | _, _ => False
    end
  else if isOptional (settings sf) then
    if is_nil v then v = zero P (fType sf)
    else W (fType sf) v (tag_ts (settings sf)) ∧
      ∀ b, E (fType sf) v (tag_ts (settings sf)) = Ret (inl b) → 0 < len b < 2 ^ 32
  else W (fType sf) v (tag_ts (settings sf)).

Definition wf_fields (t : rtype) (v : value) : Prop :=
  match t, v with
  | TStruct n, VStruct fs =>
      length fs = length (fields_of P n) ∧
      ∀ sfs sf v, getStructFields P t = inl sfs → sf ∈ sfs → fs !! sf_index sf = Some v → wf_field sf v
  | _, _ => False
  end.

(** With validation, an element that is encoded as nothing escapes the rules of the array. *)
Definition wf_elem (t : rtype) (v : value) (ts : TypeSettings) : Prop :=
  W t v ts ∧ (validation = true → E t v ts ≠ Ret (inl [])).

(** The settings of a key or an element of a map are those of the zero value. *)
Definition same_settings (t : rtype) (v : value) (ts : TypeSettings) : Prop :=
  GetByValue (typeSettingsRegistry api) t v None = Ret ts ∧
  GetByValue (typeSettingsRegistry api) t (zero P t) None = Ret ts.

Definition wf_entries (kt et : rtype) (entries : list (value * value)) : Prop :=
  ∃ kts ets,
    Forall (λ kv, same_settings kt kv.1 kts ∧ same_settings et kv.2 ets ∧
              wf_elem kt kv.1 kts ∧ W et kv.2 ets) entries ∧
    Forall (λ kv, ∀ k', back kt kts kv.1 k' → hashable k' = true) entries ∧
    ∀ i j a b ka kb, entries !! i = Some a → entries !! j = Some b → i ≠ j →
      back kt kts a.1 ka → back kt kts b.1 kb → key_eqb ka kb = false.

Definition wf_type (t : rtype) (v : value) (ts : TypeSettings) : Prop :=
  match t, v with
  | TBool _, VBool _ => True
  | TNum _ (NumInt T), VInt z => in_range T z
  | TNum _ NumFloat32, VFloat32 bits => 0 ≤ bits < 2 ^ 32
  | TNum _ NumFloat64, VFloat64 bits => 0 ≤ bits < 2 ^ 64
  | TString _, VString _ => True
  | TBigIntPtr, VBigInt _ => True
  | TTime, VTime time | TPtr TTime, VPtr (Some (VTime time)) => 0 ≤ time ≤ ity_max I64
  | TStruct n, _ => WF t v ∧ code_ok (merged api ts t)
  | TPtr (TStruct n), VPtr (Some w) => WF (TStruct n) w ∧ code_ok (merged api ts t)
  | TSlice _ e, VBytes _ => is_byte e = true
  | TSlice _ e, VSlice es =>
      is_byte e = false ∧ Forall (λ x, wf_elem e x NewTypeSettings) (default [] es)
  | TArray _ size e, VByteArray b => is_byte e = true ∧ length b = size ∧ code_ok (merged api ts t)
  | TPtr (TArray _ size e), VPtr (Some (VByteArray b)) =>
      is_byte e = true ∧ length b = size ∧ code_ok (merged api ts t)
  | TMap _ kt et, VMap es => wf_entries kt et (default [] es)
  | TInterface _, VInterface (Some (dt, dv)) =>
      ∃ io, al_get t (interfacesRegistry api) = Some io ∧
        code_finds io (merged api (merged api ts t) dt) dt ∧
        prefixed dt dv ∧ W dt dv (merged api ts t)
  | _, _ => False
  end.

(** An object that serializes itself: its settings are those of its elements
    when it is a pointer, and in an interface its object type finds it. *)
Definition wf_self (t : rtype) (v : value) (ts : TypeSettings) : Prop :=
  match t, v with
  | TInterface _, VInterface (Some (dt, dv)) =>
      is_interface dt = false ∧
      objectType (merged api ts dt) = objectType (merged api (merged api ts t) dt) ∧
      (validation = true → callSyntacticValidator api dt dv = ok ()) ∧
      ∃ io, al_get t (interfacesRegistry api) = Some io ∧
        code_finds io (merged api (merged api ts t) dt) dt ∧ W dt dv (merged api ts t)
  | TPtr _, VPtr (Some _) | TBool _, _ | TNum _ _, _ | TString _, _ | TTime, _ | TStruct _, _
  | TSlice _ _, _ | TArray _ _ _, _ | TMap _ _ _, _ | TOther _, _ =>
      code_ok (merged api ts t) ∧
      objectType (merged api ts t) = objectType (merged api ts (default t (elem_type t)))
  | _, _ => False
  end.

Definition wf_layer (t : rtype) (v : value) (ts : TypeSettings) : Prop :=
  match serializable P t v with
  | Some _ => wf_self t v ts
  | None => wf_type t v ts
  end.

End Layer.

(** Well-formed at a depth, as the value is encoded at that depth. *)
Fixpoint wf (n : nat) (t : rtype) (v : value) (ts : TypeSettings) : Prop :=
  match n with
  | O => False
  | S n => wf_layer (wf n) (wf_struct n) (encode P api validation n) t v ts
  end
with wf_struct (n : nat) (t : rtype) (v : value) : Prop :=
  match n with
  | O => False
  | S n => wf_fields (wf n) (wf_struct n) (encode P api validation n) t v
  end.

(** ** Types that must occur *)

Lemma indirect_back t ts v v' : back t ts v v' → indirect t v = indirect t v'.
Proof. by inversion 1; subst. Qed.

Lemma occurring_back t ts v v' : back t ts v v' → occurring_type t v = occurring_type t v'.
Proof.
  inversion 1; subst; try done; cbn [occurring_type]; by eapply indirect_back.
Qed.

(** The code of the type of an element. *)
Definition occurs (elem : rtype) (v : value) (c : Z) : Prop :=
  ∃ t ts den, occurring_type elem v = Some t ∧ GetByType (typeSettingsRegistry api) t = Some ts ∧
    getTypeDenotationAndCode (objectType ts) = ok (den, c).

Lemma remove_occurring_ok elem vs M M' :
  remove_occurring api elem vs M = Ret (inl M') ↔
  ∃ cs, Forall2 (occurs elem) vs cs ∧ M' = M ∖ list_to_set cs.
Proof.
  revert M. induction vs as [|v vs IH]; intros M; cbn [remove_occurring].
  { split; [intros [= <-]; exists []; split; [constructor|set_solver]|].
    intros (cs & Hcs & ->). inversion Hcs; subst. unfold ok. do 2 f_equal. set_solver. }
  split.
  - destruct (occurring_type elem v) as [t|] eqn:Et; [|done].
    destruct (GetByType _ t) as [ts|] eqn:Eg; [|done].
    intros ([den c] & Hc & Hr)%bind_res_ok. apply IH in Hr as (cs & Hcs & ->).
    exists (c :: cs). split; [constructor; [by exists t, ts, den|done]|]. simpl. set_solver.
  - intros (cs & Hcs & ->). inversion Hcs as [|? c ? cs' (t & ts & den & Et & Eg & Hc) Hcs']; subst.
    rewrite Et, Eg, Hc. cbn [bind_res ok snd]. apply IH. exists cs'. split; [done|]. simpl. set_solver.
Qed.

Lemma checkArrayMustOccur_back elem vs vs0 vs' ts :
  vs0 ≡ₚ vs → Forall2 (back elem NewTypeSettings) vs0 vs' →
  checkArrayMustOccur api elem vs ts = Ret (inl ()) → checkArrayMustOccur api elem vs' ts = Ret (inl ()).
Proof.
  intros Hp Hb. unfold checkArrayMustOccur. destruct (arrayRules ts) as [r|]; [|done].
  destruct (bool_decide (MustOccur r = ∅)); [done|].
  intros (M & (cs & Hcs & HM)%remove_occurring_ok & Hres)%bind_res_ok.
  apply bind_res_ok. exists M. split; [|done]. apply remove_occurring_ok.
  destruct (Permutation_Forall2 (symmetry Hp) Hcs) as (cs0 & Hpc & Hcs0). exists cs0. split.
  - clear -Hb Hcs0. revert vs' Hb. induction Hcs0 as [|v c vs0 cs0 Hc _ IH]; intros vs' Hb.
    + inversion Hb. constructor.
    + inversion Hb as [|? v' ? vs'' Hv Hvs]; subst. constructor; [|by apply IH].
      destruct Hc as (t & ts & den & Ht & Hg & Hc). exists t, ts, den.
      by rewrite <-(occurring_back _ _ _ _ Hv).
  - subst. f_equal. apply set_eq. intros c. by rewrite !elem_of_list_to_set, Hpc.
Qed.

(** ** What is asked of the program *)

(** Types that serialize themselves read back what they wrote, and types that do
    not serialize themselves do not deserialize themselves. *)
Record methods_lawful : Prop := {
  law_interface n : Decode_method P (TInterface n) = None ∧ Decode_method P (TPtr (TInterface n)) = None;
  law_none t : is_ptr t = false → Encode_method P t = None →
    Decode_method P t = None ∧ Decode_method P (TPtr t) = None;
  law_none_ptr t : is_ptr t = true → Encode_method P t = None → Decode_method P t = None;
  law_no_double t : is_ptr t = true → Decode_method P (TPtr t) = None;
  law_value t m v b : is_ptr t = false → Encode_method P t = Some m → m v = (b, None) →
    Decode_method P t = None ∧
    ∃ m', Decode_method P (TPtr t) = Some m' ∧ ∀ rest, m' (zero P t) (b ++ rest) = (v, (len b, None));
  law_ptr e m w b : Encode_method P (TPtr e) = Some m → m w = (b, None) →
    ∃ m', Decode_method P (TPtr e) = Some m' ∧ ∀ rest, m' (zero P e) (b ++ rest) = (w, (len b, None));
  law_bigint : Encode_method P TBigIntPtr = None;
}.

(** Validators do not see what a round trip changes. *)
Definition validators_lawful : Prop :=
  ∀ t f ts v v', al_get t (validatorsRegistry api) = Some (Some f) → back t ts v v' →
    f v = None → f v' = None.

Hypothesis Hvalidators : validators_lawful.

(** ** Validation after decoding *)

Lemma call_validator_back t ts v v' :
  match v, v' with Some w, Some w' => back t ts w w' | None, None => True | _, _ => False end →
  call_validator api t v = Ret (inl ()) → call_validator api t v' = Ret (inl ()).
Proof.
  intros Hw. unfold call_validator.
  destruct (al_get t (validatorsRegistry api)) as [[f|]|] eqn:E; [|done..].
  destruct v as [w|], v' as [w'|]; try done. destruct (f w) eqn:Ef; [done|].
  by rewrite (Hvalidators t f ts w w' E Hw Ef).
Qed.

Lemma elem_back t e ts v v' :
  back t ts v v' → elem_type t = Some e →
  match elem_value v, elem_value v' with
  | Some w, Some w' => back e ts w w' | None, None => True | _, _ => False
  end.
Proof.
  intros Hb He. inversion Hb; subst; simplify_eq/=; [|done].
  destruct (elem_value v'); [constructor|done].
Qed.

Lemma validators_accept_back t ts v v' :
  back t ts v v' → callSyntacticValidator api t v = Ret (inl ()) →
  callSyntacticValidator api t v' = Ret (inl ()).
Proof.
  intros Hb. unfold callSyntacticValidator.
  destruct (al_get t (validatorsRegistry api)) as [[f|]|] eqn:E, (elem_type t) as [e|] eqn:Ee;
    try (by apply (call_validator_back t ts (Some v) (Some v'))).
  all: eapply call_validator_back, elem_back; eauto.
Qed.

Hypothesis Hmethods : methods_lawful.

Section Layers.
Context (W : rtype → value → TypeSettings → Prop) (WF : rtype → value → Prop).
Context (E : rtype → value → TypeSettings → res (list byte)).
Context (EF : Serializer → rtype → value → res Serializer).
Context (D : bool → list byte → rtype → value → TypeSettings → res (value * Z)).
Context (DF : Deserializer → rtype → value → res (Deserializer * value)).

(** A value is read back from its encoding, whatever bytes follow. *)
Definition reads_back (t : rtype) (v : value) (ts : TypeSettings) : Prop :=
  ∀ b, E t v ts = Ret (inl b) → ∃ v', back t ts v v' ∧
    ∀ rest, D true (b ++ rest) t (zero P t) ts = Ret (inl (v', len b)).

Definition fields_read_back (t : rtype) (v : value) : Prop :=
  ∀ s s', s_err s = None → EF s t v = Ret (inl s') → ∃ bs v', s' = wrote s bs ∧
    (∀ ts, back t ts v v') ∧
    ∀ d rest, reads_at d (bs ++ rest) → DF d t (zero P t) = Ret (inl (advance d (len bs), v')).

Hypothesis HE : ∀ t v ts, W t v ts → reads_back t v ts.
Hypothesis HF : ∀ t v, WF t v → fields_read_back t v.

(** *** Structs *)

Lemma plain_field_back sf v b s msg :
  W (fType sf) v (tag_ts (settings sf)) → E (fType sf) v (tag_ts (settings sf)) = Ret (inl b) →
  s_err s = None →
  WriteBytes s b msg = wrote s b ∧ ∃ v', back (fType sf) (tag_ts (settings sf)) v v' ∧
    ∀ d rest, reads_at d (b ++ rest) →
      D true (b ++ rest) (fType sf) (zero P (fType sf)) (tag_ts (settings sf)) = Ret (inl (v', len b)) ∧
      skip_read d (v', len b) = Ret (inl (advance d (len b), v')).
Proof.
  intros Hw He Hs. split; [unfold WriteBytes; rewrite Hs; by apply write_ok|].
  destruct (HE _ _ _ Hw b He) as (v' & Hb & Hd). exists v'. split; [done|]. intros d rest Hr.
  split; [done|]. unfold skip_read. by rewrite (Skip_at d b rest).
Qed.

Lemma embedded_back sf v s s' :
  wf_field W WF E sf v → isEmbedded sf && negb (inlined (settings sf)) = true →
  encode_field E EF s sf v = Ret (inl s') → s_err s = None →
  ∃ bs v', s' = wrote s bs ∧ back (fType sf) (tag_ts (settings sf)) v v' ∧
    ∀ d rest, reads_at d (bs ++ rest) →
      decode_field P D DF d sf (zero P (fType sf)) = Ret (inl (advance d (len bs), v')).
Proof.
  unfold wf_field, encode_field, decode_field, decode_embedded. intros Hw Hemb. rewrite Hemb in *.
  destruct (fType sf) as [| | | | |n| | | |e| |]; try done.
  - cbn [embedded]. intros He%wrap_res_ok Hs.
    destruct (HF _ _ Hw s s' Hs He) as (bs & v' & -> & Hb & Hd). exists bs, v'. split_and!; [done|done|].
    intros d rest Hr. by rewrite (Hd d rest Hr).
  - destruct e as [| | | | |n| | | | | |]; try done. destruct v as [| | | | | | | | | | | | |[w|]| |]; try done.
    destruct Hw as [Hun Hw]. cbn [embedded]. intros He%wrap_res_ok Hs.
    destruct (HF _ _ Hw s s' Hs He) as (bs & v' & -> & Hb & Hd). exists bs, (VPtr (Some v')).
    split_and!; [done|by constructor|]. intros d rest Hr.
    rewrite Hun, andb_false_r, zero_ptr. cbn [default].
    by rewrite (Hd d rest Hr).
Qed.

Lemma field_back sf v s s' :
  wf_field W WF E sf v → encode_field E EF s sf v = Ret (inl s') → s_err s = None →
  ∃ bs v', s' = wrote s bs ∧ back (fType sf) (tag_ts (settings sf)) v v' ∧
    ∀ d rest, reads_at d (bs ++ rest) →
      decode_field P D DF d sf (zero P (fType sf)) = Ret (inl (advance d (len bs), v')).
Proof.
  destruct (isEmbedded sf && negb (inlined (settings sf))) eqn:Hemb; [intros; by eapply embedded_back|].
  unfold wf_field, encode_field, decode_field. rewrite Hemb.
  destruct (isOptional (settings sf)) eqn:Hopt.
  - destruct (is_nil v) eqn:Hnil.
    + intros -> [= <-] Hs. exists (le_bytes 4 0), (zero P (fType sf)).
      split; [unfold WritePayloadLength, writePayloadLength; rewrite Hs; by apply write_ok|].
      split; [constructor|]. intros d rest Hr. unfold ReadPayloadLength. cbv [PayloadLengthByteSize]. read_front Hr.
      by rewrite front_app, le_roundtrip by (by rewrite ?len_le_bytes).
    + intros [Hw Hlen] (b & He%wrap_res_ok & Hs')%bind_res_ok Hs. specialize (Hlen b He). injection Hs' as <-.
      unfold WritePayloadLength, writePayloadLength. rewrite Hs, wrap_id by (unfold in_range; ity_consts; lia).
      rewrite write_ok by done.
      destruct (plain_field_back sf v b (wrote s (le_bytes 4 (len b)))
        (producing "failed to write serialized struct field bytes to serializer, field=%s") Hw He eq_refl)
        as (-> & v' & Hb & Hd).
      exists (le_bytes 4 (len b) ++ b), v'. split; [by rewrite wrote_wrote|]. split; [done|].
      intros d rest Hr. rewrite <-app_assoc in Hr. unfold ReadPayloadLength. cbv [PayloadLengthByteSize]. read_front Hr.
      rewrite front_app, le_roundtrip by (rewrite ?len_le_bytes; simpl; lia).
      rewrite (proj2 (Z.eqb_neq _ _)) by lia.
      pose proof (reads_at_advance _ _ _ 4 Hr ltac:(by rewrite len_le_bytes)) as Hr'.
      rewrite (RemainingBytes_at _ _ Hr'). cbn [lift bind_res ok]. destruct (Hd _ _ Hr') as [-> Hsk].
      cbn [wrap_res bind_res snd]. rewrite Z.eqb_refl. cbn [negb]. rewrite Hsk, advance_advance.
      by rewrite len_le_bytes.
  - intros Hw (b & He%wrap_res_ok & Hs')%bind_res_ok Hs. injection Hs' as <-.
    destruct (plain_field_back sf v b s
      (producing "failed to write serialized struct field bytes to serializer, field=%s") Hw He Hs)
      as (-> & v' & Hb & Hd).
    exists b, v'. split_and!; [done..|]. intros d rest Hr.
    rewrite (RemainingBytes_at _ _ Hr). cbn [lift bind_res ok]. destruct (Hd _ _ Hr) as [-> Hsk].
    cbn [wrap_res bind_res]. apply Hsk.
Qed.

(** The fields in turn: those of [sfs] come back, the others stay as they are. *)
Lemma fields_back n fs : length fs = length (fields_of P n) →
  ∀ sfs s s' fs0,
    NoDup (sf_index <$> sfs) → length fs0 = length (fields_of P n) →
    (∀ sf v, sf ∈ sfs → fs !! sf_index sf = Some v → wf_field W WF E sf v) →
    (∀ sf, sf ∈ sfs → fs0 !! sf_index sf = Some (zero P (fType sf))) →
    encode_fields E EF s sfs fs = Ret (inl s') → s_err s = None →
    ∃ bs fs', s' = wrote s bs ∧ length fs' = length (fields_of P n) ∧
      (∀ sf, sf ∈ sfs → ∃ v v', fs !! sf_index sf = Some v ∧ fs' !! sf_index sf = Some v' ∧
         back (fType sf) (tag_ts (settings sf)) v v') ∧
      (∀ i, (∀ sf, sf ∈ sfs → sf_index sf ≠ i) → fs' !! i = fs0 !! i) ∧
      ∀ d rest, reads_at d (bs ++ rest) →
        decode_fields P D DF d sfs fs0 = Ret (inl (advance d (len bs), fs')).
Proof.
  intros Hlen. induction sfs as [|sf sfs IH]; intros s s' fs0 Hnd Hlen0 Hwf Hz; cbn [encode_fields].
  { intros [= <-] Hs. exists [], fs0. split_and!; [by rewrite wrote_nil|done|set_solver|done|].
    intros d rest Hr. cbn [decode_fields]. by rewrite advance_0. }
  rewrite fmap_cons in Hnd. apply NoDup_cons in Hnd as [Hni Hnd].
  destruct (fs !! sf_index sf) as [v|] eqn:Hv; [|done].
  intros (s1 & He & Hes)%bind_res_ok Hs.
  destruct (field_back sf v s s1 (Hwf sf v ltac:(set_solver) Hv) He Hs) as (bs1 & v' & -> & Hb & Hd).
  pose proof (Hz sf ltac:(set_solver)) as Hzv.
  destruct (IH (wrote s bs1) s' (<[sf_index sf := v']> fs0)) as (bs2 & fs' & -> & Hlen' & Hin & Hout & Hds);
    [done|by rewrite length_insert|intros; apply Hwf; set_solver| |done|done|].
  { intros sf' Hsf'. rewrite list_lookup_insert_ne; [apply Hz; set_solver|].
    intros Heq. apply Hni. rewrite Heq. by apply list_elem_of_fmap_2. }
  exists (bs1 ++ bs2), fs'. split_and!; [by rewrite wrote_wrote|done| | |].
  - intros sf' [->|Hsf']%elem_of_cons; [|by apply Hin]. exists v, v'. split_and!; [done| |done].
    rewrite Hout, list_lookup_insert_eq; [done|by eapply lookup_lt_Some|].
    intros sf' Hsf' Heq. apply Hni. rewrite <-Heq. by apply list_elem_of_fmap_2.
  - intros i Hi. rewrite Hout by set_solver. apply list_lookup_insert_ne. apply Hi. set_solver.
  - intros d rest Hr. rewrite <-app_assoc in Hr. cbn [decode_fields]. rewrite Hzv.
    rewrite (Hd d _ Hr). cbn [bind_res fst snd].
    rewrite (Hds (advance d (len bs1)) rest) by (by eapply reads_at_advance).
    by rewrite advance_advance, len_app.
Qed.

Lemma struct_fields_back n fs s s' sfs :
  wf_fields W WF E (TStruct n) (VStruct fs) → getStructFields P (TStruct n) = inl sfs →
  encode_fields E EF s sfs fs = Ret (inl s') → s_err s = None →
  ∃ bs fs', s' = wrote s bs ∧ (∀ ts, back (TStruct n) ts (VStruct fs) (VStruct fs')) ∧
    ∀ d rest, reads_at d (bs ++ rest) →
      decode_fields P D DF d sfs (zero P ∘ f_type <$> fields_of P n) = Ret (inl (advance d (len bs), fs')).
Proof.
  intros [Hlen Hwf] Hsfs He Hs. destruct (getStructFields_facts P n sfs Hsfs) as [Hnd Hin].
  destruct (fields_back n fs Hlen sfs s s' (zero P ∘ f_type <$> fields_of P n))
    as (bs & fs' & -> & Hlen' & Hback & Hout & Hd); [done|by rewrite length_fmap| | |done|done|].
  { intros sf v Hsf Hv. by eapply Hwf. }
  { intros sf Hsf. destruct (Hin sf Hsf) as (f & Hf & Ht). rewrite list_lookup_fmap, Hf. simpl. by rewrite Ht. }
  exists bs, fs'. split_and!; [done| |done]. intros ts. apply (back_struct _ _ sfs); [done..|].
  intros i f Hf Hi. rewrite Hout by done. by rewrite list_lookup_fmap, Hf.
Qed.

(** *** Fields of bytes *)

Lemma byte_slice_back bs ts elem b rest :
  encodeSlice api validation E elem (VBytes bs) ts = Ret (inl b) →
  decodeSlice P api validation D (b ++ rest) elem (VBytes None) ts =
    Ret (inl (VBytes (Some (default [] bs)), len b)).
Proof.
  unfold encodeSlice, decodeSlice. destruct (lengthPrefixType ts) as [lpt|]; [|done].
  destruct (MinMaxLen ts) as [mn mx].
  intros (s & Hw & Hs & ->)%serialized_outcome_inv.
  apply write_bounded_inv in Hw as [Hok ->]; [|apply producing_keeps|done].
  apply (read_value_at _ (λ bs, VBytes (Some bs)) _ _ rest). rewrite len_app, len_le_bytes.
  eapply ReadVariableByteSlice_at; [|done]. rewrite <-app_assoc. apply new_reads_at.
Qed.

Lemma string_back bs ts b rest :
  encodeString validation bs ts = Ret (inl b) →
  decodeString validation (b ++ rest) (VString []) ts = Ret (inl (VString bs, len b)).
Proof.
  unfold encodeString, decodeString. destruct (lengthPrefixType ts) as [lpt|]; [|done].
  destruct (if validation then MinMaxLen ts else (0, 0)) as [mn mx].
  destruct (validation && negb (ValidString bs)) eqn:Eu; [done|].
  intros (s & Hw & Hs & ->)%serialized_outcome_inv.
  apply write_bounded_inv in Hw as [Hok ->]; [|apply producing_keeps|done].
  erewrite ReadString_at; [|rewrite <-app_assoc; apply new_reads_at|done].
  cbn [from_option]. rewrite Eu. replace (Z.of_nat (prefix_size lpt) + len bs) with
    (len (le_bytes (prefix_size lpt) (len bs) ++ bs)) by (by rewrite len_app, len_le_bytes).
  apply done_at.
Qed.

(** A field of the sort the serializer writes: [w] wrote it, [m] reads it. *)
Lemma shape_back {A} (inj : A → val) sh (a : A) w m f (old : value) b rest ep ep' :
  (∀ x y, inj x = inj y → x = y) →
  field_ok sh (inj a) → write_field ep NewSerializer sh (inj a) = Some (Ret w) →
  (∀ d, with_val inj (m d) = read_field ep' d sh) →
  serialized w = Ret (inl b) →
  read_value (m (NewDeserializer (b ++ rest))) f old = Ret (inl (f a, len b)).
Proof.
  intros Hinj Hok Hw Hm Hs. rewrite write_field_ok in Hw by done. injection Hw as <-.
  rewrite serialized_wrote in Hs. injection Hs as <-. cbn [NewSerializer buf app].
  apply (read_value_at _ f _ _ rest).
  pose proof (read_field_at ep' _ sh (inj a) rest Hok (new_reads_at _)) as Hr. rewrite <-Hm in Hr.
  destruct (m _) as [[d [a'|]]|]; cbn in Hr; try done. injection Hr as -> Ha. by apply Hinj in Ha as ->.
Qed.

Tactic Notation "read_shape" uconstr(H) "from" hyp(He) :=
  unshelve (eapply H; [congruence|try done|reflexivity|reflexivity|exact He]); exact (λ e, e).

Lemma byte_array_back size elem bs ts b rest :
  code_ok ts → length bs = size →
  encodeArray api validation E elem (VByteArray bs) ts = Ret (inl b) →
  b = code_bytes ts ++ bs ∧
  decodeArray P api validation D (b ++ rest) elem (VByteArray (replicate size x00)) ts =
    Ret (inl (VByteArray bs, len b)).
Proof.
  intros Hc Hl. unfold encodeArray, decodeArray. rewrite write_object_type_ok by done.
  unfold WriteBytes. cbn [wrote s_err]. rewrite write_ok, wrote_wrote, serialized_wrote by done.
  cbn [NewSerializer buf app]. intros [= <-]. split; [done|]. rewrite <-app_assoc.
  rewrite (check_object_type_at _ _ (bs ++ rest) Hc (new_reads_at _)). cbn [bind_res ok].
  pose proof (reads_at_advance _ _ _ _ (new_reads_at (code_bytes ts ++ bs ++ rest)) eq_refl) as Hr.
  assert (len (replicate size x00) = len bs) as Hz by (unfold len; by rewrite length_replicate, Hl).
  unfold read_value, ReadBytesInPlace, d_when_ok. rewrite (proj1 Hr), Hz. read_front Hr.
  rewrite front_app by done. rewrite copy_bytes_same by (by rewrite length_replicate).
  cbn [from_option]. rewrite advance_advance, <-len_app, app_assoc. apply done_at.
Qed.

(** *** Sequences *)

Lemma sequence_back {A} (enc : A → list byte) xs ts b :
  (validation = true → Forall (λ x, enc x ≠ []) xs) →
  encodeSliceOfBytes validation ((λ x, buffer_Bytes (enc x)) <$> xs) ts = Ret (inl b) →
  ∃ xs', xs' ≡ₚ xs ∧ (lexicalOrdering ts ≠ Some true → xs' = xs) ∧
    ∀ St (item : DeserializeFunc St) st st' rest, item_runs item st (enc <$> xs') st' →
      decodeSequence validation (b ++ rest) item st ts = Ret (inl (st', len b)).
Proof.
  intros Hne. unfold encodeSliceOfBytes, decodeSequence.
  destruct (lengthPrefixType ts) as [lpt|]; [|done].
  set (mode := toMode ts validation). set (ar := default new_rules (arrayRules ts)).
  intros (s & Hw & Hs & ->)%serialized_outcome_inv.
  destruct (write_order_map mode ar (λ x, buffer_Bytes (enc x)) xs) as (xs' & Hp & Ho & Hsame).
  exists xs'. split; [done|]. split.
  { intros Hl. unfold orders, mode in Hsame. by rewrite toMode_ordering, bool_decide_false in Hsame. }
  destruct (prefix_bound lpt) as [bd|] eqn:Hb; [|apply slices_prefix_known in Hw as [? ?]; [congruence|apply producing_keeps|done]].
  destruct (WriteSliceOfByteSlices_spec NewSerializer ((λ x, buffer_Bytes (enc x)) <$> xs) mode lpt bd ar
    (producing "serializer failed to write %s as slice of bytes") eq_refl Hb) as (s' & Hw' & Hok & Hinv).
  { unfold mode. rewrite toMode_validation. intros Hv. apply Forall_fmap.
    eapply Forall_impl; [by apply Hne|]. intros x Hx. cbn in Hx |- *. destruct (enc x); [done|by eexists]. }
  { apply producing_keeps. }
  rewrite Hw in Hw'. injection Hw' as <-. specialize (Hinv Hs). rewrite (Hok Hinv).
  destruct Hinv as [Hlen Hval]. intros St item st st' rest Hruns.
  assert (slice_bytes <$> write_order mode ar ((λ x, buffer_Bytes (enc x)) <$> xs) = enc <$> xs') as Hbs.
  { unfold slice in *. rewrite Ho, <-list_fmap_compose. apply list_fmap_ext. intros i x _. simpl. by destruct (enc x). }
  assert (len ((λ x, buffer_Bytes (enc x)) <$> xs) = len (enc <$> xs')) as Hl.
  { unfold len. rewrite !length_fmap. by rewrite Hp. }
  unfold slices_bytes. rewrite Hbs, Hl in *. cbn [wrote NewSerializer buf app].
  rewrite (ReadSequenceOfObjects_runs _ _ _ _ mode lpt bd ar _ rest Hruns Hb Hlen Hval).
  unfold done, Done. simpl. by rewrite Z.add_0_l.
Qed.

(** An element with its encoding. *)
Lemma encode_elems_inv elem es data :
  encode_elems E elem es = Ret (inl data) →
  ∃ xs : list (value * list byte), xs.*1 = es ∧ data = (λ x, buffer_Bytes x.2) <$> xs ∧
    Forall (λ x, E elem x.1 NewTypeSettings = Ret (inl x.2)) xs.
Proof.
  revert data. induction es as [|v es IH]; intros data; cbn [encode_elems].
  { intros [= <-]. by exists []. }
  intros (b & Hb%wrap_res_ok & (data' & Hd & [= <-])%bind_res_ok)%bind_res_ok.
  destruct (IH _ Hd) as (xs & <- & -> & Hxs). exists ((v, b) :: xs). split_and!; [done..|]. by constructor.
Qed.

Lemma elem_runs elem (xs : list (value * list byte)) vs' es :
  Forall2 (λ x v', ∀ rest, D true (x.2 ++ rest) elem (zero P elem) NewTypeSettings = Ret (inl (v', len x.2))) xs vs' →
  ∃ es', item_runs (deserialize_elem P D true elem) es xs.*2 es' ∧ default [] es' = default [] es ++ vs'.
Proof.
  intros Hxs. revert es. induction Hxs as [|x v' xs vs' Hx _ IH]; intros es.
  { exists es. split; [constructor|]. by rewrite app_nil_r. }
  destruct (IH (Some (default [] es ++ [v']))) as (es' & Hruns & He). exists es'. split.
  - rewrite fmap_cons. eapply runs_cons; [|done]. intros rest. unfold deserialize_elem. by rewrite Hx.
  - rewrite He. simpl. by rewrite <-app_assoc.
Qed.

Lemma slice_back elem es ts b :
  Forall (λ x, wf_elem W E elem x NewTypeSettings) (default [] es) →
  encodeSlice api validation E elem (VSlice es) ts = Ret (inl b) →
  ∃ es0 es', es0 ≡ₚ default [] es ∧ (lexicalOrdering ts ≠ Some true → es0 = default [] es) ∧
    Forall2 (back elem NewTypeSettings) es0 es' ∧
    ∀ rest, decodeSlice P api validation D (b ++ rest) elem (VSlice None) ts =
      Ret (inl (VSlice (Some es'), len b)).
Proof.
  intros Hwf. unfold encodeSlice, encodeObjects.
  intros (_u & Hmust & (data & Hdata & Henc)%bind_res_ok)%bind_res_ok.
  destruct (encode_elems_inv _ _ _ Hdata) as (xs & Hes & -> & Hxs).
  assert (Forall (λ x, wf_elem W E elem x.1 NewTypeSettings) xs) as Hwf'.
  { rewrite <-Hes in Hwf. by apply Forall_fmap in Hwf. }
  destruct (sequence_back snd xs ts b) as (xs' & Hp & Hsame & Hread); [|done|].
  { intros Hv. eapply Forall_impl; [exact (proj2 (Forall_and _ _) (conj Hxs Hwf'))|].
    intros x [Hx [_ Hne]]. intros Heq. apply (Hne Hv). by rewrite <-Heq. }
  assert (Forall (λ x, ∃ v', back elem NewTypeSettings x.1 v' ∧
    ∀ rest, D true (x.2 ++ rest) elem (zero P elem) NewTypeSettings = Ret (inl (v', len x.2))) xs') as Hall.
  { rewrite Hp. eapply Forall_impl; [exact (proj2 (Forall_and _ _) (conj Hxs Hwf'))|].
    intros x [Hx [Hw _]]. by apply (HE _ _ _ Hw). }
  apply Forall_choice in Hall as (es' & Hes'). exists xs'.*1, es'.
  assert (Forall2 (back elem NewTypeSettings) xs'.*1 es') as Hb.
  { apply Forall2_fmap_l. eapply Forall2_impl; [exact Hes'|]. by intros x v' [? _]. }
  assert (xs'.*1 ≡ₚ default [] es) as Hp' by (by rewrite Hp, Hes).
  split_and!; [done|by intros ->%Hsame|done|]. intros rest. unfold decodeSlice, decodeObjects.
  destruct (elem_runs elem xs' es' None) as (r & Hruns & Hr).
  { eapply Forall2_impl; [exact Hes'|]. by intros x v' [_ ?]. }
  rewrite (Hread _ _ _ _ rest Hruns). cbn [bind_res fst snd]. rewrite Hr. cbn [default app].
  destruct validation; [|done].
  apply wrap_res_ok in Hmust. destruct _u. by rewrite (checkArrayMustOccur_back elem _ _ _ _ Hp' Hb Hmust).
Qed.

(** *** Maps *)

(** An entry with the encodings of its key and of its element. *)
Notation coded := (value * value * (list byte * list byte))%type.

Definition pair_bytes (x : coded) : list byte := x.2.1 ++ x.2.2.

Lemma encode_pairs_inv kt et kts ets entries data :
  Forall (λ kv, same_settings kt kv.1 kts ∧ same_settings et kv.2 ets) entries →
  encode_pairs api E kt et entries = Ret (inl data) →
  ∃ xs : list coded, xs.*1 = entries ∧ data = (λ x, buffer_Bytes (pair_bytes x)) <$> xs ∧
    Forall (λ x, E kt x.1.1 kts = Ret (inl x.2.1) ∧ E et x.1.2 ets = Ret (inl x.2.2)) xs.
Proof.
  intros Hset. revert data. induction Hset as [|kv entries [[Hk _] [He _]] _ IH]; intros data; cbn [encode_pairs].
  { intros [= <-]. by exists []. }
  intros (b & Hb & (data' & Hd & [= <-])%bind_res_ok)%bind_res_ok.
  unfold encodeMapKVPair in Hb. rewrite Hk, He in Hb.
  apply bind_res_ok in Hb as (kb & Hkb%wrap_res_ok & (eb & Heb%wrap_res_ok & [= <-])%bind_res_ok).
  destruct (IH _ Hd) as (xs & <- & -> & Hxs). exists ((kv, (kb, eb)) :: xs). split_and!; [done..|]. by constructor.
Qed.

(** An entry that comes back as another. *)
Definition entry_reads (kt et : rtype) (kts ets : TypeSettings) (x : coded) (y : value * value) : Prop :=
  back kt kts x.1.1 y.1 ∧ back et ets x.1.2 y.2 ∧
  (∀ rest, D true (x.2.1 ++ rest) kt (zero P kt) kts = Ret (inl (y.1, len x.2.1))) ∧
  (∀ rest, D true (x.2.2 ++ rest) et (zero P et) ets = Ret (inl (y.2, len x.2.2))).

Lemma decode_pair_back kt et kts ets x y rest :
  GetByValue (typeSettingsRegistry api) kt (zero P kt) None = Ret kts →
  GetByValue (typeSettingsRegistry api) et (zero P et) None = Ret ets →
  entry_reads kt et kts ets x y →
  decodeMapKVPair P api D (pair_bytes x ++ rest) kt et = Ret (inl (y.1, y.2, len (pair_bytes x))).
Proof.
  intros Hk He (_ & _ & Hdk & Hde). unfold decodeMapKVPair, pair_bytes. rewrite Hk, He, <-app_assoc.
  rewrite Hdk. cbn [wrap_res bind_res snd fst]. unfold slice_after. rewrite len_app.
  pose proof (len_nonneg x.2.1). pose proof (len_nonneg (x.2.2 ++ rest)).
  rewrite !(proj2 (Z.leb_le _ _)) by lia. cbn [andb lift bind_res ok].
  unfold len at 1. rewrite Nat2Z.id, drop_app_length, Hde. cbn [wrap_res bind_res snd fst].
  by rewrite len_app.
Qed.

Lemma pair_runs kt et kts ets (xs : list coded) ys acc :
  GetByValue (typeSettingsRegistry api) kt (zero P kt) None = Ret kts →
  GetByValue (typeSettingsRegistry api) et (zero P et) None = Ret ets →
  Forall2 (entry_reads kt et kts ets) xs ys →
  Forall (λ y, hashable y.1 = true) ys →
  (∀ i j a b, (acc ++ ys) !! i = Some a → (acc ++ ys) !! j = Some b → (i < j)%nat → key_eqb a.1 b.1 = false) →
  item_runs (deserialize_pair P api D kt et) acc (pair_bytes <$> xs) (acc ++ ys).
Proof.
  intros Hk He Hxs. revert acc. induction Hxs as [|x y xs ys Hx _ IH]; intros acc Hh Hd.
  { rewrite app_nil_r. constructor. }
  apply Forall_cons in Hh as [Hh Hhs]. rewrite fmap_cons.
  replace (acc ++ y :: ys) with ((acc ++ [y]) ++ ys) in * by (by rewrite <-app_assoc).
  eapply runs_cons; [|by apply IH]. intros rest. unfold deserialize_pair.
  rewrite (decode_pair_back kt et kts ets x y rest Hk He Hx), Hh. cbn [negb].
  assert (existsb (λ kv, key_eqb kv.1 y.1) acc = false) as ->.
  { apply not_true_iff_false. intros (kv & Hin & Heq)%existsb_exists.
    apply list_elem_of_In, list_elem_of_lookup in Hin as (i & Hi).
    rewrite (Hd i (length acc) kv y) in Heq; [done|..].
    - rewrite <-app_assoc. by apply lookup_app_l_Some.
    - rewrite <-app_assoc, lookup_app_r, Nat.sub_diag by lia. done.
    - by eapply lookup_lt_Some. }
  by destruct y.
Qed.

Lemma bounds_ordering ts v : checkMinMaxBounds (ensureOrdering ts) v = checkMinMaxBounds ts v.
Proof.
  unfold checkMinMaxBounds, checkMinMaxBoundsLength, MinLen, MaxLen, ensureOrdering.
  destruct (length_of v); [|done]. simpl. by destruct (arrayRules ts).
Qed.

(** The keys that come back are as good as the keys that went in. *)
Lemma keys_back kt kts (entries es0 ys : list (value * value)) :
  Forall (λ kv, ∀ k', back kt kts kv.1 k' → hashable k' = true) entries →
  (∀ i j a b ka kb, entries !! i = Some a → entries !! j = Some b → i ≠ j →
     back kt kts a.1 ka → back kt kts b.1 kb → key_eqb ka kb = false) →
  es0 ≡ₚ entries → Forall2 (λ x y, back kt kts x.1 y.1) es0 ys →
  Forall (λ y, hashable y.1 = true) ys ∧
  ∀ i j a b, ys !! i = Some a → ys !! j = Some b → (i < j)%nat → key_eqb a.1 b.1 = false.
Proof.
  intros Hh Hu Hp Hxs. split.
  - apply Forall_forall. intros y (i & Hy)%list_elem_of_lookup.
    destruct (Forall2_lookup_r _ _ _ _ _ Hxs Hy) as (x & Hx & Hb).
    rewrite <-Hp in Hh. rewrite Forall_forall in Hh. apply (Hh x); [|done].
    by eapply list_elem_of_lookup_2.
  - apply Permutation_inj in Hp as [_ (f & Hf & Hp)]. intros i j a b Ha Hb Hij.
    destruct (Forall2_lookup_r _ _ _ _ _ Hxs Ha) as (xa & Hxa & Hba).
    destruct (Forall2_lookup_r _ _ _ _ _ Hxs Hb) as (xb & Hxb & Hbb).
    apply (Hu (f i) (f j) xa xb); [by rewrite <-Hp|by rewrite <-Hp| |done|done].
    intros ?%(inj f). lia.
Qed.

Lemma map_back kt et es ts b :
  wf_entries W E kt et (default [] es) →
  encodeMap api validation E kt et (VMap es) ts = Ret (inl b) →
  ∃ kts ets es0 es', es0 ≡ₚ default [] es ∧
    Forall2 (λ x y, back kt kts x.1 y.1 ∧ back et ets x.2 y.2) es0 es' ∧
    ∀ rest, decodeMap P api validation D (b ++ rest) kt et (VMap None) ts =
      Ret (inl (VMap (Some es'), len b)).
Proof.
  intros (kts & ets & Hwf & Hhash & Huniq). unfold encodeMap.
  intros (_u & Hbounds & (data & Hdata & Henc)%bind_res_ok)%bind_res_ok.
  destruct (encode_pairs_inv kt et kts ets _ _ ltac:(eapply Forall_impl; [exact Hwf|]; naive_solver) Hdata)
    as (xs & Hes & -> & Hxs).
  assert (Forall (λ x, wf_elem W E kt x.1.1 kts ∧ W et x.1.2 ets) xs) as Hwf'.
  { rewrite <-Hes in Hwf. apply Forall_fmap in Hwf. eapply Forall_impl; [exact Hwf|]. naive_solver. }
  pose proof (proj2 (Forall_and _ _) (conj Hxs Hwf')) as Hboth.
  destruct (sequence_back pair_bytes xs (ensureOrdering ts) b) as (xs' & Hp & _ & Hread); [|done|].
  { intros Hv. eapply Forall_impl; [exact Hboth|].
    intros x [[Hx _] [[_ Hne] _]]. unfold pair_bytes. intros [Heq _]%app_nil. apply (Hne Hv). by rewrite <-Heq. }
  assert (Forall (λ x, ∃ y, entry_reads kt et kts ets x y) xs') as Hall.
  { rewrite Hp. eapply Forall_impl; [exact Hboth|]. intros x [[Hk He] [[Hwk _] Hwe]].
    destruct (HE _ _ _ Hwk _ Hk) as (k' & ? & ?), (HE _ _ _ Hwe _ He) as (e' & ? & ?).
    by exists (k', e'). }
  apply Forall_choice in Hall as (es' & Hes'). exists kts, ets, xs'.*1, es'.
  assert (xs'.*1 ≡ₚ default [] es) as Hp' by (by rewrite Hp, Hes).
  split_and!; [done| |].
  { apply Forall2_fmap_l. eapply Forall2_impl; [exact Hes'|]. intros x y (? & ? & _). done. }
  destruct (keys_back kt kts _ xs'.*1 es' Hhash Huniq Hp') as [Hh Hd].
  { apply Forall2_fmap_l. eapply Forall2_impl; [exact Hes'|]. by intros x y (? & _). }
  intros rest. unfold decodeMap. cbn [default].
  assert (item_runs (deserialize_pair P api D kt et) [] (pair_bytes <$> xs') es') as Hruns.
  { destruct xs' as [|x xs']; [inversion Hes'; constructor|].
    assert (x.1 ∈ default [] es) as Hin by (rewrite <-Hp'; rewrite fmap_cons; set_solver).
    rewrite Forall_forall in Hwf. destruct (Hwf _ Hin) as ([_ Hk] & [_ He] & _).
    by apply (pair_runs kt et kts ets (x :: xs') es' []). }
  rewrite (Hread _ _ _ _ rest Hruns). cbn [bind_res fst snd].
  destruct validation; [|done]. rewrite bounds_ordering.
  assert (checkMinMaxBounds ts (VMap (Some es')) = checkMinMaxBounds ts (VMap es)) as ->.
  { unfold checkMinMaxBounds. simpl. unfold len. rewrite <-(Forall2_length _ _ _ Hes').
    by rewrite <-Hp', length_fmap. }
  by rewrite Hbounds.
Qed.

(** *** Structs, times and interfaces *)

Lemma struct_back n v ts b :
  WF (TStruct n) v → code_ok ts → encodeStruct EF (TStruct n) v ts = Ret (inl b) →
  (∃ bs, b = code_bytes ts ++ bs) ∧
  ∃ v', (∀ ts', back (TStruct n) ts' v v') ∧
    ∀ rest, decodeStruct DF (b ++ rest) (TStruct n) (zero P (TStruct n)) ts = Ret (inl (v', len b)).
Proof.
  intros Hwf Hc. unfold encodeStruct. rewrite write_object_type_ok by done.
  intros (s & He & Hs)%bind_res_ok.
  destruct (HF _ _ Hwf (wrote NewSerializer (code_bytes ts)) s eq_refl He) as (bs & v' & -> & Hb & Hd).
  rewrite wrote_wrote, serialized_wrote in Hs. injection Hs as <-. cbn [NewSerializer buf app].
  split; [by eexists|]. exists v'. split; [done|]. intros rest. unfold decodeStruct. rewrite <-app_assoc.
  rewrite (check_object_type_at _ _ (bs ++ rest) Hc (new_reads_at _)). cbn [bind_res ok].
  rewrite (Hd _ rest) by (by eapply reads_at_advance; [apply new_reads_at|]). cbn [bind_res fst snd].
  rewrite advance_advance, <-len_app, app_assoc. apply done_at.
Qed.

Lemma time_back time ts b rest :
  0 ≤ time ≤ ity_max I64 → encodeStruct EF TTime (VTime time) ts = Ret (inl b) →
  decodeStruct DF (b ++ rest) TTime (zero P TTime) ts = Ret (inl (VTime time, len b)).
Proof.
  intros Ht. unfold encodeStruct, decodeStruct.
  intros He. read_shape (shape_back SerializerFields.VTime ShTime time _ (λ d, ReadTime d _) VTime) from He.
Qed.

(** The object type in front of an object finds its type. *)
Lemma object_type_found io ts t bs :
  code_finds io ts t →
  ∃ z, GetObjectType (NewDeserializer (code_bytes ts ++ bs)) (typeDenotation io) = Ret (z, None) ∧
    GetObjectTypeByCode io z = Some t.
Proof.
  unfold code_finds, code_bytes, GetObjectType.
  rewrite (RemainingBytes_at _ _ (new_reads_at _)). cbn [mbind outcome_bind]. rewrite len_app.
  destruct (typeDenotation io), (objectType ts) as [[[|] [[| | | | | | |] z|?|?|?|]]|]; try done;
    intros [Hz Hf]; exists z; split; try done; cbv [UInt32ByteSize OneByte]; pose proof (len_nonneg bs);
    rewrite (proj2 (Z.ltb_ge _ _)) by (rewrite len_le_bytes; cbv [ity_bytes]; lia);
    rewrite front_app by (by rewrite len_le_bytes); rewrite le_roundtrip; try done;
    unfold in_range in Hz; ity_consts; simpl; lia.
Qed.

Hypothesis Hprefixed : ∀ t v ts b, W t v ts → prefixed t v → E t v ts = Ret (inl b) →
  ∃ bs, b = code_bytes (merged api ts t) ++ bs.

Lemma interface_back n ts dt dv b :
  prefixed dt dv → W dt dv ts →
  (∃ io, al_get (TInterface n) (interfacesRegistry api) = Some io ∧ code_finds io (merged api ts dt) dt) →
  E dt dv ts = Ret (inl b) →
  ∃ dv', back dt ts dv dv' ∧
    ∀ rest, decodeInterface P api D (b ++ rest) (TInterface n) ts =
      Ret (inl (VInterface (Some (dt, dv')), len b)).
Proof.
  intros Hpre Hw (io & Hio & Hc) He.
  destruct (HE _ _ _ Hw b He) as (dv' & Hb & Hd). exists dv'. split; [done|]. intros rest.
  unfold decodeInterface. rewrite Hio.
  destruct (Hprefixed _ _ _ _ Hw Hpre He) as (bs & ->).
  destruct (object_type_found io _ dt (bs ++ rest) Hc) as (z & Hz & Hf).
  rewrite app_assoc in Hz. by rewrite Hz, Hf, Hd.
Qed.

(** *** By kind *)

Lemma type_back t v ts b :
  wf_type W WF E t v ts → encodeBasedOnType api validation E EF t v ts = Ret (inl b) →
  ∃ v', back t ts v v' ∧
    ∀ rest, decodeBasedOnType P api validation D DF true (b ++ rest) t (zero P t) ts = Ret (inl (v', len b)).
Proof.
  unfold encodeBasedOnType. intros Hwf (_u & _ & He)%bind_res_ok.
  destruct t as [n|n k|n| | |n|n e|n size e|n kt et|e|n|n]; cbn [wf_type decodeBasedOnType] in *.
  - destruct v as [x| | | | | | | | | | | | | | |]; try done. exists (VBool x). split; [constructor|]. intros rest.
    read_shape (shape_back SerializerFields.VBool ShBool x _ (λ d, ReadBool d _) VBool) from He.
  - destruct (number_of k v) as [x|] eqn:Ex; [|done]. exists v. split; [constructor|]. intros rest.
    assert (value_of_num x = v) as <- by (by destruct k, v; simplify_eq/=).
    eapply (shape_back VNum (ShNum (num_dest_of k)) x _ (λ d, ReadNum d _ _) value_of_num);
      [congruence| | | |exact He]; [|reflexivity..]. by destruct k, x; simplify_eq/=.
  - destruct v as [| | | |x| | | | | | | | | | |]; try done. exists (VString x). split; [constructor|].
    intros rest. by apply string_back.
  - destruct v as [| | | | |x| | | | | | | | | |]; try done. exists (VBigInt x). split; [constructor|].
    destruct (serialized_inv _ _ He) as [Hs _].
    destruct (WriteUint256_inv _ _ (producing_keeps _) Hs) as (z & -> & Hz). intros rest.
    read_shape (shape_back VUint256 ShUint256 z _ (λ d, ReadUint256 d _) (λ z, VBigInt (Some z))) from He.
  - destruct v as [| | | | | |x| | | | | | | | |]; try done. exists (VTime x). split; [constructor|].
    intros rest. by apply time_back.
  - destruct Hwf as [Hwf Hc]. destruct (struct_back n v _ b Hwf Hc He) as (_ & v' & Hb & Hd).
    by exists v'.
  - rewrite zero_slice. destruct v as [| | | | | | | |x| |x| | | | |]; try done.
    + rewrite Hwf. eexists. split; [apply back_bytes|]. intros rest. by eapply byte_slice_back.
    + destruct Hwf as [-> Hwf]. destruct (slice_back e x _ b Hwf He) as (es0 & es' & Hp & Hs & Hb & Hd).
      eexists. split; [by eapply back_slice|]. done.
  - rewrite zero_array. destruct v as [| | | | | | | | |x| | | | | |]; try done.
    destruct Hwf as (-> & Hl & Hc). exists (VByteArray x). split; [constructor|]. intros rest.
    by eapply byte_array_back.
  - destruct v as [| | | | | | | | | | | |x| | |]; try done.
    destruct (map_back kt et x _ b Hwf He) as (kts & ets & es0 & es' & Hp & Hb & Hd).
    eexists. split; [by eapply back_map|]. done.
  - destruct e as [| | | | |n| |n size e| | | |]; try done; destruct v as [| | | | | | | | | | | | |[w|]| |]; try done;
      rewrite zero_ptr; cbn [default].
    + destruct w as [| | | | | |x| | | | | | | | |]; try done. eexists. split; [constructor|]. intros rest.
      by rewrite (time_back x _ b rest Hwf He).
    + destruct Hwf as [Hwf Hc]. destruct (struct_back n w _ b Hwf Hc He) as (_ & v' & Hb & Hd).
      eexists. split; [by apply back_ptr|]. intros rest. by rewrite Hd.
    + rewrite zero_array. destruct w as [| | | | | | | | |x| | | | | |]; try done.
      destruct Hwf as (-> & Hl & Hc). eexists. split; [constructor|]. intros rest.
      by rewrite (proj2 (byte_array_back size e x _ b rest Hc Hl He)).
  - destruct v as [| | | | | | | | | | | | | |[[dt dv]|]|]; try done.
    destruct Hwf as (io & Hio & Hc & Hpre & Hw). unfold encodeInterface in He. rewrite Hio in He.
    destruct (negb (HasObjectType io dt)); [done|]. apply wrap_res_ok in He.
    destruct (interface_back n _ dt dv b Hpre Hw (ex_intro _ io (conj Hio Hc)) He) as (dv' & Hb & Hd).
    eexists. split; [by eapply back_interface|]. done.
  - by destruct v.
Qed.

(** *** Objects that serialize themselves *)

Lemma encodeSerializable_inv t v ts x b :
  code_ok (merged api ts (if is_interface t then (dynamic t v).1 else t)) →
  encodeSerializable api t v ts x = Ret (inl b) →
  ∃ bs, x = (bs, None) ∧
    b = code_bytes (merged api ts (if is_interface t then (dynamic t v).1 else t)) ++ bs.
Proof.
  intros Hc. unfold encodeSerializable. rewrite write_object_type_ok, serialized_wrote by done.
  cbn [bind_res ok NewSerializer buf app]. destruct x as [bs [e|]]; [done|]. intros [= <-]. by exists bs.
Qed.

Lemma deserializable_back b t ts bs m w put v' rest :
  code_ok (merged api ts (default t (elem_type t))) →
  b = code_bytes (merged api ts (default t (elem_type t))) ++ bs →
  m w (bs ++ rest) = (v', (len bs, None)) →
  decodeDeserializable api (b ++ rest) t ts (m, w, put) = Ret (inl (put v', len b)).
Proof.
  intros Hc -> Hm. unfold decodeDeserializable. rewrite <-app_assoc.
  rewrite (check_object_type_at _ _ (bs ++ rest) Hc (new_reads_at _)). cbn [bind_res ok].
  rewrite (RemainingBytes_at _ (bs ++ rest)) by (by eapply reads_at_advance; [apply new_reads_at|]).
  cbn [lift bind_res ok]. unfold done, Done. cbn. rewrite Hm, len_app. by rewrite Z.add_0_l.
Qed.

Lemma code_bytes_same ts ts' : objectType ts = objectType ts' → code_bytes ts = code_bytes ts'.
Proof. unfold code_bytes. by intros ->. Qed.

Lemma code_ok_same ts ts' : objectType ts = objectType ts' → code_ok ts → code_ok ts'.
Proof. unfold code_ok. by intros ->. Qed.

(** The method that reads back what the method of an object wrote. *)
Lemma self_method t v bs :
  is_interface t = false → serializable P t v = Some (bs, None) →
  match t, v with TPtr _, VPtr (Some _) => True | TPtr _, _ => False | _, _ => True end →
  ∃ m w put v', deserializable P true t (zero P t) = Some (m, w, put) ∧ put v' = v ∧
    ∀ rest, m w (bs ++ rest) = (v', (len bs, None)).
Proof.
  intros Ht Hs Hv. destruct (is_ptr t) eqn:Hp.
  - destruct t as [| | | | | | | | |e| |]; try done.
    { unfold serializable in Hs. cbn [dynamic] in Hs. by rewrite (law_bigint Hmethods) in Hs. }
    destruct v as [| | | | | | | | | | | | |[w0|]| |]; try done. unfold serializable in Hs. cbn [dynamic] in Hs.
    destruct (Encode_method P (TPtr e)) as [m|] eqn:Em; [|done]. injection Hs as Hs.
    destruct (law_ptr Hmethods e m w0 bs Em Hs) as (m' & Hm' & Hd).
    exists m', (zero P e), (λ w, VPtr (Some w)), w0. split_and!; [|done..].
    rewrite zero_ptr. cbn [deserializable]. by rewrite Hm'.
  - assert ((m ← Encode_method P t; Some (m v)) = Some (bs, None)) as Hs' by (by destruct t; destruct v).
    destruct (Encode_method P t) as [m|] eqn:Em; [|done]. injection Hs' as Hs'.
    destruct (law_value Hmethods t m v bs Hp Em Hs') as (Hn & m' & Hm' & Hd).
    exists m', (zero P t), (λ w, w), v. split_and!; [|done..].
    by destruct t; try done; cbn [deserializable]; rewrite Hn, Hm'.
Qed.

Lemma wf_self_inv t v ts :
  is_interface t = false → wf_self W t v ts →
  code_ok (merged api ts t) ∧
  objectType (merged api ts t) = objectType (merged api ts (default t (elem_type t))) ∧
  match t, v with TPtr _, VPtr (Some _) => True | TPtr _, _ => False | _, _ => True end.
Proof.
  intros Ht. destruct t; try done; destruct v as [| | | | | | | | | | | | |[?|]| |]; naive_solver.
Qed.

Lemma self_back t v ts x b :
  is_interface t = false → wf_self W t v ts → serializable P t v = Some x →
  encodeSerializable api t v ts x = Ret (inl b) →
  ∃ y, deserializable P true t (zero P t) = Some y ∧
    ∀ rest, decodeDeserializable api (b ++ rest) t ts y = Ret (inl (v, len b)).
Proof.
  intros Ht Hwf Hs He. destruct (wf_self_inv t v ts Ht Hwf) as (Hc & Ho & Hv).
  destruct (encodeSerializable_inv t v ts x b ltac:(by rewrite Ht) He) as (bs & -> & Hb). rewrite Ht in Hb.
  destruct (self_method t v bs Ht Hs Hv) as (m & w & put & v' & Hd & <- & Hm).
  exists (m, w, put). split; [done|]. intros rest.
  apply (deserializable_back _ _ _ bs); [by eapply code_ok_same| |done].
  by rewrite Hb, (code_bytes_same _ _ Ho).
Qed.

(** An object that does not serialize itself does not deserialize itself. *)
Lemma not_deserializable t v ts :
  wf_type W WF E t v ts → serializable P t v = None →
  deserializable P true t (zero P t) = None ∧ pointer_to_deserializable P t (zero P t) = None.
Proof.
  intros Hwf Hs. destruct (is_ptr t) eqn:Hp.
  - assert (Encode_method P t = None) as Hn.
    { destruct t as [| | | | | | | | |e| |]; try done; [apply (law_bigint Hmethods)|].
      destruct v as [| | | | | | | | | | | | |[w0|]| |]; try by destruct e.
      unfold serializable in Hs. cbn [dynamic] in Hs. by destruct (Encode_method P (TPtr e)). }
    pose proof (law_none_ptr Hmethods t Hp Hn) as Hd.
    destruct t as [| | | | | | | | |e| |]; try done.
    + split; [|done]. cbn [deserializable zero zero_at type_rank by_value].
      by rewrite Hd, (law_no_double Hmethods TBigIntPtr eq_refl).
    + rewrite zero_ptr. cbn [deserializable pointer_to_deserializable]. rewrite Hd. split; [done|]. by destruct e.
  - split; [|by destruct t].
    destruct (is_interface t) eqn:Hi; [by destruct t|].
    assert (Encode_method P t = None) as Hn.
    { destruct (Encode_method P t) as [m|] eqn:Em; [|done].
      unfold serializable in Hs. destruct t; try done; cbn [dynamic] in Hs; by rewrite Em in Hs. }
    destruct (law_none Hmethods t Hp Hn) as [Hd Hd'].
    by destruct t; try done; cbn [deserializable]; rewrite Hd, Hd'.
Qed.

Hypothesis Hself : ∀ t v ts x, W t v ts → is_interface t = false → serializable P t v = Some x →
  (validation = true → callSyntacticValidator api t v = ok ()) →
  E t v ts = encodeSerializable api t v ts x.

(** An interface whose value serializes itself. *)
Lemma self_interface_back t v ts x b :
  is_interface t = true → wf_self W t v ts → serializable P t v = Some x →
  encodeSerializable api t v ts x = Ret (inl b) →
  ∃ v', back t ts v v' ∧
    ∀ rest, decodeBasedOnType P api validation D DF true (b ++ rest) t (zero P t) ts = Ret (inl (v', len b)).
Proof.
  intros Ht Hwf Hs He. destruct t as [| | | | | | | | | |n|]; try done.
  destruct v as [| | | | | | | | | | | | | |[[dt dv]|]|]; try done.
  destruct Hwf as (Hi & Ho & Hval & io & Hio & Hc & Hw).
  assert (serializable P dt dv = Some x) as Hs'.
  { rewrite <-Hs. unfold serializable. destruct dt; try done; by destruct dv. }
  assert (E dt dv (merged api ts (TInterface n)) = Ret (inl b)) as He'.
  { rewrite (Hself _ _ _ x Hw Hi Hs' Hval), <-He. unfold encodeSerializable. rewrite Hi. cbn [is_interface dynamic fst].
    unfold write_object_type. by rewrite Ho. }
  destruct (interface_back n _ dt dv b (or_introl (conj (mk_is_Some _ _ Hs') Hi)) Hw
    (ex_intro _ io (conj Hio Hc)) He') as (dv' & Hb & Hd).
  eexists. split; [by eapply back_interface|]. intros rest. cbn [decodeBasedOnType]. apply Hd.
Qed.

(** *** All together *)

Lemma layer_back t v ts b :
  wf_layer W WF E t v ts → encode_layer P api validation E EF t v ts = Ret (inl b) →
  ∃ v', back t ts v v' ∧
    ∀ rest, decode_layer P api validation D DF true (b ++ rest) t (zero P t) ts = Ret (inl (v', len b)).
Proof.
  unfold wf_layer, encode_layer, decode_layer. intros Hwf (_u & Hval & He)%bind_res_ok. destruct _u.
  assert (∀ v', back t ts v v' → (if validation then
      wrap_res "post-deserialization validation failed" (callSyntacticValidator api t v') else ok ()) = ok ()) as Hpost.
  { intros v' Hb. destruct validation; [|done]. apply wrap_res_ok in Hval.
    by rewrite (validators_accept_back t ts v v' Hb Hval). }
  destruct (serializable P t v) as [x|] eqn:Hs.
  - destruct (is_interface t) eqn:Hi.
    + destruct (self_interface_back t v ts x b Hi Hwf Hs He) as (v' & Hb & Hd). exists v'. split; [done|].
      intros rest. destruct t as [| | | | | | | | | |n|]; try done.
      cbn [deserializable pointer_to_deserializable zero zero_at type_rank by_value].
      rewrite Hd. cbn [bind_res fst]. by rewrite Hpost.
    + destruct (self_back t v ts x b Hi Hwf Hs He) as (y & -> & Hd). exists v. split; [constructor|].
      intros rest. rewrite Hd. cbn [bind_res fst]. by rewrite Hpost by constructor.
  - destruct (not_deserializable t v ts Hwf Hs) as [-> ->].
    destruct (type_back t v ts b Hwf He) as (v' & Hb & Hd). exists v'. split; [done|].
    intros rest. rewrite Hd. cbn [bind_res fst]. by rewrite Hpost.
Qed.

(** What the layer writes in front of an object. *)
Lemma layer_prefixed t v ts b :
  wf_layer W WF E t v ts → prefixed t v → encode_layer P api validation E EF t v ts = Ret (inl b) →
  ∃ bs, b = code_bytes (merged api ts t) ++ bs.
Proof.
  unfold wf_layer, prefixed, encode_layer. intros Hwf Hpre (_u & _ & He)%bind_res_ok.
  destruct (serializable P t v) as [x|] eqn:Hs.
  - destruct Hpre as [[_ Hi]|[? _]]; [|done].
    destruct (wf_self_inv t v ts Hi Hwf) as (Hc & _ & _).
    destruct (encodeSerializable_inv t v ts x b ltac:(by rewrite Hi) He) as (bs & _ & ->).
    rewrite Hi. by eexists.
  - destruct Hpre as [[[??] _]|[_ Hpre]]; [done|]. unfold encodeBasedOnType in He.
    apply bind_res_ok in He as (_u' & _ & He).
    destruct t as [| | | | |n| |n size e| |e| |]; try done.
    + destruct Hwf as [Hwf Hc]. by destruct (struct_back n v _ b Hwf Hc He) as [? _].
    + destruct v as [| | | | | | | | |x| | | | | |]; try done. destruct Hwf as (_ & Hl & Hc).
      destruct (byte_array_back size e x _ b [] Hc Hl He) as [-> _]. by eexists.
    + destruct e as [| | | | |n| |n size e| | | |]; try done; destruct v as [| | | | | | | | | | | | |[w|]| |]; try done.
      * destruct Hwf as [Hwf Hc]. by destruct (struct_back n w _ b Hwf Hc He) as [? _].
      * destruct w as [| | | | | | | | |x| | | | | |]; try done. destruct Hwf as (_ & Hl & Hc).
        destruct (byte_array_back size e x _ b [] Hc Hl He) as [-> _]. by eexists.
Qed.

End Layers.

(** ** Any depth *)

Lemma encode_prefixed n t v ts b :
  (∀ t v, wf_struct (pred n) t v →
     fields_read_back (encodeStructFields P api validation (pred n)) (decodeStructFields P api validation (pred n)) t v) →
  wf n t v ts → prefixed t v → encode P api validation n t v ts = Ret (inl b) →
  ∃ bs, b = code_bytes (merged api ts t) ++ bs.
Proof.
  destruct n as [|n]; [done|]. cbn [pred]. intros HF Hwf Hpre Hb.
  by apply (layer_prefixed (wf n) (wf_struct n) (encode P api validation n) (encodeStructFields P api validation n)
    (decode P api validation n) (decodeStructFields P api validation n) HF t v ts b).
Qed.

Lemma encode_self n t v ts x :
  wf n t v ts → is_interface t = false → serializable P t v = Some x →
  (validation = true → callSyntacticValidator api t v = ok ()) →
  encode P api validation n t v ts = encodeSerializable api t v ts x.
Proof.
  destruct n as [|n]; [done|]. intros _ Hi Hs Hval. cbn [encode]. unfold encode_layer. rewrite Hs.
  destruct validation; [|done]. by rewrite Hval.
Qed.

Lemma encode_decode n :
  (∀ t v ts, wf n t v ts → reads_back (encode P api validation n) (decode P api validation n) t v ts) ∧
  (∀ t v, wf_struct n t v →
     fields_read_back (encodeStructFields P api validation n) (decodeStructFields P api validation n) t v).
Proof.
  induction n as [n IH] using (well_founded_induction lt_wf). destruct n as [|n]; [done|].
  destruct (IH n ltac:(lia)) as [HE HF]. split.
  - intros t v ts Hwf b Hb. eapply layer_back; try done.
    + intros t' v' ts' b'. apply encode_prefixed. apply (IH (pred n)). lia.
    + intros t' v' ts' x. apply encode_self.
  - intros t v Hwf s s' Hs He.
    destruct t as [| | | | |m| | | | | |]; try done. destruct v as [| | | | | | |fs| | | | | | | |]; try done.
    destruct (getStructFields P (TStruct m)) as [sfs|] eqn:Hsfs; [|simpl in He; by rewrite Hsfs in He].
    rewrite (encodeStructFields_S _ _ _ _ _ _ _ _ Hsfs) in He.
    destruct (struct_fields_back _ _ _ _ _ _ HE HF m fs s s' sfs Hwf Hsfs He Hs) as (bs & fs' & -> & Hb & Hd).
    exists bs, (VStruct fs'). split_and!; [done..|]. intros d rest Hr.
    by rewrite zero_struct, (decodeStructFields_S _ _ _ _ _ _ _ _ Hsfs), (Hd d rest Hr).
Qed.

End Roundtrip.
