(* ===== verification/SerixRegistry.v ===== *)
(** * serializer/serix: the registries

    An [API] is filled by [RegisterTypeSettings], [RegisterInterfaceObjects] and
    [RegisterValidator], in any order.  The two maps of the objects of an
    interface agree with each other and with the registered settings, which is
    what lets [Decode] find the type that [Encode] wrote. *)

From S2P Require Import OrderedMap.
From S2P Require Import Prelude Serializable Serializer SerixTypes SerixEncode SerixRoundtrip.

Lemma al_get_set {K V} `{EqDecision K} (k k' : K) (v : V) es :
  al_get k' (al_set k v es) = if decide (k = k') then Some v else al_get k' es.
Proof.
  unfold al_set. destruct (al_get k es) as [w|] eqn:E.
  - induction es as [|[k1 v1] es IH]; [done|]. cbn [al_get] in E. rewrite fmap_cons. cbn [al_get fst snd].
    destruct (decide (k1 = k)) as [->|Hne]; cbn [al_get fst snd].
    + destruct (decide (k = k')) as [->|Hne']; [done|].
      clear -Hne'. induction es as [|[k2 v2] es IH]; [done|]. rewrite fmap_cons. cbn [al_get fst snd].
      destruct (decide (k2 = k)) as [->|]; cbn [al_get]; by repeat destruct (decide _).
    + destruct (decide (k1 = k')) as [->|]; [by destruct (decide (k = k')); congruence|]. by apply IH.
  - induction es as [|[k1 v1] es IH]; [done|]. cbn [al_get app] in *.
    destruct (decide (k1 = k)) as [->|]; [done|]. destruct (decide (k1 = k')) as [->|]; [|by apply IH].
    destruct (decide (k = k')); congruence.
Qed.

(** ** The invariant *)

(** The object code of a type, of the kind its settings say. *)
Definition coded_as (r : list (rtype * TypeSettings)) (t : rtype) (den : TypeDenotationType) (c : Z) : Prop :=
  getTypeDenotationAndObjectCode r t = Ret (inl (den, c)).

Record objects_ok (r : list (rtype * TypeSettings)) (io : InterfaceObjects) : Prop := {
  ok_type t c : GetObjectCodeByType io t = Some c →
    coded_as r t (typeDenotation io) c ∧ is_Some (GetObjectTypeByCode io c);
  ok_code t c : GetObjectTypeByCode io c = Some t → GetObjectCodeByType io t = Some c;
}.

Definition registries_ok (api : API) : Prop :=
  ∀ t io, al_get t (interfacesRegistry api) = Some io → objects_ok (typeSettingsRegistry api) io.

(** Settings of a type and of the pointer to it are not registered both, the
    pointer's last: they would change the code of the pointer type. *)
Definition no_shadow (api : API) (obj : option rtype) : Prop :=
  ∀ t e, obj = Some t → elem_type t = Some e → al_get e (typeSettingsRegistry api) = None.

(** What the program does to an [API]. *)
Inductive api_step (api : API) : API → Prop :=
  | step_settings obj ts api' err :
      no_shadow api obj → RegisterTypeSettings api obj ts = (api', err) → api_step api api'
  | step_interface iType objs api' err :
      RegisterInterfaceObjects api iType objs = Ret (api', err) → api_step api api'
  | step_validator obj fn api' err :
      RegisterValidator api obj fn = (api', err) → api_step api api'.

Definition api_reachable : API → Prop := rtc api_step NewAPI.

Lemma AddObject_ok r io c t :
  objects_ok r io → coded_as r t (typeDenotation io) c → objects_ok r (AddObject io c t).
Proof.
  intros [Ht Hc] Hco. split; unfold GetObjectCodeByType, GetObjectTypeByCode in *; cbn [AddObject fromTypeToCode fromCodeToType typeDenotation].
  - intros t' c'. rewrite !al_get_set. destruct (decide (t = t')) as [<-|Hne].
    + intros [= <-]. split; [done|]. rewrite decide_True by done. eauto.
    + intros [Hco' Hs]%Ht. split; [done|]. case_decide; eauto.
  - intros t' c'. rewrite !al_get_set. destruct (decide (c = c')) as [<-|Hne].
    + intros [= <-]. by rewrite decide_True.
    + intros Ht'%Hc. destruct (decide (t = t')) as [<-|]; [|done].
      destruct (Ht _ _ Ht') as [Hco' _]. unfold coded_as in *. congruence.
Qed.

Lemma add_objects_ok r io objs io' err :
  objects_ok r io → add_objects r io objs = Ret (io', err) → objects_ok r io'.
Proof.
  revert io. induction objs as [|obj objs IH]; intros io Hio; cbn [add_objects]; [by intros [= <- <-]|].
  destruct (GetObjectMetadata r obj) as [[[[t den] c]|e]|msg] eqn:Em; [|by intros [= <- <-]|done].
  destruct (bool_decide (typeDenotation io = den)) eqn:Ed; cbn [negb]; [|by intros [= <- <-]].
  apply bool_decide_eq_true in Ed. apply IH. apply AddObject_ok; [done|].
  destruct obj as [t0|]; [|done]. cbn [GetObjectMetadata] in Em.
  apply bind_res_ok in Em as ([den' c'] & Hm%wrap_res_ok & [= <- <- <-]). unfold coded_as. by rewrite Ed.
Qed.

Lemma GetByType_grows r t0 ts0 t ts :
  al_get t0 r = None → (∀ e, elem_type t0 = Some e → al_get e r = None) →
  GetByType r t = Some ts → GetByType (al_set t0 ts0 r) t = Some ts.
Proof.
  intros H0 He. unfold GetByType. rewrite al_get_set.
  destruct (al_get t r) as [ts'|] eqn:Et.
  - intros [= <-]. rewrite decide_False; [done|]. congruence.
  - destruct (elem_type t) as [e|] eqn:Ee; [|done]. intros Hr.
    rewrite decide_False; [|intros ->; rewrite (He e Ee) in Hr; done].
    rewrite al_get_set, decide_False; [done|]. congruence.
Qed.

Lemma objects_ok_grows r r' io :
  (∀ t ts, GetByType r t = Some ts → GetByType r' t = Some ts) → objects_ok r io → objects_ok r' io.
Proof.
  intros Hg [Ht Hc]. split; [|done]. intros t c H. destruct (Ht t c H) as [Hco ?]. split; [|done].
  unfold coded_as, getTypeDenotationAndObjectCode in *.
  destruct (GetByType r t) as [ts|] eqn:E; [|done]. by rewrite (Hg t ts E).
Qed.

Lemma registries_set api t io :
  registries_ok api → objects_ok (typeSettingsRegistry api) io →
  registries_ok (set_interfaces api (al_set t io (interfacesRegistry api))).
Proof.
  intros Hok Hio t' io'. cbn [set_interfaces interfacesRegistry typeSettingsRegistry].
  rewrite al_get_set. case_decide; [by intros [= <-]|]. by apply Hok.
Qed.

Lemma RegisterInterfaceObjects_ok api iType objs api' err :
  registries_ok api → RegisterInterfaceObjects api iType objs = Ret (api', err) → registries_ok api'.
Proof.
  intros Hok. unfold RegisterInterfaceObjects. destruct iType as [pt|]; [|by intros [= <- _]].
  destruct (elem_type pt) as [it|]; [|by intros [= <- _]].
  destruct (negb (is_interface it)); [by intros [= <- _]|].
  destruct objs as [|obj objs]; [by intros [= <- _]|].
  destruct (al_get it (interfacesRegistry api)) as [io|] eqn:Eio.
  - destruct (add_objects _ io (obj :: objs)) as [[io' e]|] eqn:Ea; [|done]. cbn [mbind outcome_bind].
    intros [= <- <-]. apply registries_set; [done|]. eapply add_objects_ok; [|done]. by eapply Hok.
  - destruct (GetObjectMetadata _ obj) as [[[[t den] c]|e]|] eqn:Em; [|by intros [= <- _]|done].
    destruct (add_objects _ (NewInterfaceObjects den) (obj :: objs)) as [[io' [e|]]|] eqn:Ea; [..|done];
      cbn [mbind outcome_bind]; intros [= <- <-]; [done|].
    apply registries_set; [done|]. eapply add_objects_ok; [|done]. by split.
Qed.

Lemma api_step_ok api api' : registries_ok api → api_step api api' → registries_ok api'.
Proof.
  intros Hok [obj ts api1 err Hns Hr|iType objs api1 err Hr|obj fn api1 err Hr].
  - unfold RegisterTypeSettings in Hr. destruct obj as [t0|]; [|by injection Hr as <- _].
    destruct (al_get t0 (typeSettingsRegistry api)) eqn:E; [by injection Hr as <- _|]. injection Hr as <- _.
    intros t io Hio. eapply objects_ok_grows; [|by eapply Hok].
    intros t' ts'. apply GetByType_grows; [done|]. intros e. by apply Hns.
  - by eapply RegisterInterfaceObjects_ok.
  - unfold RegisterValidator in Hr. repeat case_match; simplify_eq/=; done.
Qed.

Lemma reachable_ok api : api_reachable api → registries_ok api.
Proof.
  intros Hr. refine (rtc_ind_r (R:=api_step) registries_ok NewAPI _ _ api Hr); [done|].
  intros api1 api2 _ Hs Hok. by eapply api_step_ok.
Qed.

(** The registries stay consistent.  After any sequence of registrations
    (which never give a pointer type settings after those of its element), every
    type that is registered for an interface has an object code of the
    interface's kind in its settings, and that code leads [Decode] to a type of
    the interface with the same code; when the codes of the interface's types are
    distinct, to the type itself, which is what decoding an interface asks for. *)
Lemma registered_objects_found api it io t :
  api_reachable api → al_get it (interfacesRegistry api) = Some io → HasObjectType io t = true →
  ∃ c t', coded_as (typeSettingsRegistry api) t (typeDenotation io) c ∧
    GetObjectTypeByCode io c = Some t' ∧ HasObjectType io t' = true ∧
    coded_as (typeSettingsRegistry api) t' (typeDenotation io) c ∧
    ((∀ t1 t2 c, GetObjectCodeByType io t1 = Some c → GetObjectCodeByType io t2 = Some c → t1 = t2) →
     t' = t).
Proof.
  intros Hr Hio Ht%bool_decide_eq_true. destruct (reachable_ok api Hr it io Hio) as [Hty Hco].
  destruct Ht as [c Hc]. destruct (Hty t c Hc) as [Hcoded [t' Ht']]. pose proof (Hco t' c Ht') as Hc'.
  exists c, t'. split_and!; [done..| | |].
  - apply bool_decide_eq_true. by exists c.
  - by apply Hty.
  - intros Hinj. by apply (Hinj t' t c).
Qed.

Definition code_settings (c : Z) : TypeSettings :=
  WithObjectType NewTypeSettings (Some (ObjectCode false (NInt U8 c))).

(** Two structs with their codes, and the objects of an interface. *)
Definition registered (c d : Z) : API :=
  let api := (RegisterTypeSettings NewAPI (Some (TStruct "A")) (code_settings c)).1 in
  let api := (RegisterTypeSettings api (Some (TStruct "B")) (code_settings d)).1 in
  match RegisterInterfaceObjects api (Some (TPtr (TInterface "I")))
          [Some (TPtr (TStruct "A")); Some (TPtr (TStruct "B"))] with
  | Ret (api, _) => api
  | Panic _ => api
  end.

Lemma registered_reachable c d : api_reachable (registered c d).
Proof.
  assert (∀ api n, no_shadow api (Some (TStruct n))) as Hns by (by intros api n t e [= <-]).
  eapply rtc_l; [eapply (step_settings _ (Some (TStruct "A")) (code_settings c)); [done|reflexivity]|].
  eapply rtc_l; [eapply (step_settings _ (Some (TStruct "B")) (code_settings d)); [done|reflexivity]|].
  unfold registered. cbv zeta. destruct (RegisterInterfaceObjects _ _ _) as [[api err]|] eqn:E; [|apply rtc_refl].
  apply rtc_once. by eapply step_interface.
Qed.

Definition registered_io (api : API) : InterfaceObjects :=
  default (NewInterfaceObjects TypeDenotationByte) (al_get (TInterface "I") (interfacesRegistry api)).

Lemma registered_objects_found_witness :
  ∃ c t', coded_as (typeSettingsRegistry (registered 1 2)) (TPtr (TStruct "B")) TypeDenotationByte c ∧
    GetObjectTypeByCode (registered_io (registered 1 2)) c = Some t'.
Proof.
  destruct (registered_objects_found (registered 1 2) (TInterface "I") (registered_io (registered 1 2))
    (TPtr (TStruct "B"))) as (c & t' & H1 & H2 & _);
    [apply registered_reachable|reflexivity|reflexivity|].
  by exists c, t'.
Defined.

(** Two types with the same code are both accepted, and the code leads to the
    last: what is encoded as the first is decoded as the last. *)
Lemma same_code_accepted :
  ∃ io, al_get (TInterface "I") (interfacesRegistry (registered 1 1)) = Some io ∧
    HasObjectType io (TPtr (TStruct "A")) = true ∧
    GetObjectCodeByType io (TPtr (TStruct "A")) = Some 1 ∧
    GetObjectTypeByCode io 1 = Some (TPtr (TStruct "B")).
Proof. by eexists. Qed.
