(* ===== verification/Serix.v ===== *)
(** * serializer/serix: properties of the API

    Round trips through [Encode] and [Decode], and what the registries keep. *)

From S2P Require Import OrderedMap.
From S2P Require Import Prelude Bytes Serializable Serializer Deserializer SerializerFields SerializerObjects.
From S2P Require Import SerixTypes SerixEncode SerixDecode SerixRoundtrip.

(** ** Decoding into a new object *)

(** The destination of [Decode] is a pointer to a zero value, which is decoded
    as a nil pointer inside a value is. *)
Lemma decode_new P api validation n b e ts :
  is_ptr e = false →
  decode P api validation n false b (TPtr e) (VPtr (Some (zero P e))) ts =
  decode P api validation n true b (TPtr e) (VPtr None) ts.
Proof. destruct n as [|n]; [done|]. intros He. by destruct e. Qed.

Lemma wf_ptr_elem P api validation n e w ts :
  methods_lawful P → wf P api validation n (TPtr e) (VPtr (Some w)) ts →
  (∃ b, encode P api validation n (TPtr e) (VPtr (Some w)) ts = Ret (inl b)) → is_ptr e = false.
Proof.
  intros Hm Hwf [b Hb]. destruct n as [|n]; [done|]. destruct (is_ptr e) eqn:He; [|done].
  cbn [wf] in Hwf. unfold wf_layer, serializable in Hwf. cbn [dynamic] in Hwf.
  destruct (Encode_method P (TPtr e)) as [m|] eqn:Em; cbn [mbind option_bind] in Hwf; [|by destruct e].
  cbn [encode] in Hb. unfold encode_layer, serializable in Hb. cbn [dynamic] in Hb. rewrite Em in Hb.
  apply bind_res_ok in Hb as (_u & _ & Hb). cbn [mbind option_bind] in Hb.
  apply bind_res_ok in Hb as (bp & _ & Hb). destruct (m w) as [bs [err|]] eqn:Ew; [done|].
  destruct (law_ptr P Hm e m w bs Em Ew) as (m' & Hm' & _). by rewrite (law_no_double P Hm e He) in Hm'.
Qed.

Lemma back_ptr_inv P api e ts w v' :
  back P api (TPtr e) ts (VPtr (Some w)) v' → ∃ w', v' = VPtr (Some w') ∧ back P api e ts w w'.
Proof. inversion 1; subst; [|by eexists]. exists w. split; [done|constructor]. Qed.

(** C1: serix round trips, if [methods_lawful], [validators_lawful], [wf]. What [Encode]
    writes for a pointer to a value [Decode] reads into a new one, whatever bytes follow,
    validating on both sides or none, and consumes exactly; the value is the same up to
    [back] (nil slices and maps come back empty, maps and lexically ordered slices
    reordered, untagged fields zero). Asked: Decode methods read back what Encode methods
    write and exist only with them; validators accept what comes back; the value is of its
    type, arrays of bytes (Decode panics on others), nil pointers, interfaces only if
    optional, times in int64 nanoseconds from 1970; set optional fields take 1 to 2^32-1
    bytes, validated elements and keys 1 or more; object codes are fitting uint8 or uint32,
    in interfaces registered and written first (structs, byte arrays, own methods), with own
    methods the same behind pointers; embedded pointers set and exported; map keys hashable
    and distinct; keys and values have their zero value's settings. *)
Theorem serix_roundtrip P api validation n e w ts b rest :
  methods_lawful P → validators_lawful P api →
  wf P api validation n (TPtr e) (VPtr (Some w)) ts →
  Encode P api n (Some (TPtr e, VPtr (Some w))) validation ts = Ret (inl b) →
  ∃ w', back P api e ts w w' ∧
    Decode P api validation n (b ++ rest) (Some (TPtr e, VPtr (Some (zero P e)))) ts =
      Ret (inl (VPtr (Some w'), len b)).
Proof.
  intros Hm Hv Hwf He. cbn [Encode] in He.
  destruct (encode_decode P api validation Hv Hm n) as [HE _].
  destruct (HE _ _ _ Hwf b He) as (v' & Hb & Hd).
  destruct (back_ptr_inv _ _ _ _ _ _ Hb) as (w' & -> & Hb'). exists w'. split; [done|].
  unfold Decode. cbn [checkDecodeDestination is_ptr negb is_nil].
  rewrite decode_new by (eapply wf_ptr_elem; eauto). rewrite <-(zero_ptr P e). apply Hd.
Qed.


(** ** A program *)

(** A type that serializes itself, an object behind an interface, and a struct
    with a string, an optional interface, a slice, a map, a time and a field
    without a tag. *)
Definition Level : rtype := TNum "Level" (NumInt U8).
Definition Shape : rtype := TInterface "Shape".

Definition field (name : string) (t : rtype) (tag : option string) : StructField :=
  {| f_name := name; f_exported := true; f_anonymous := false; f_type := t; f_tag := tag |}.

Definition sample_fields_of (n : tname) : list StructField :=
  if bool_decide (n = "Circle"%string) then [field "Radius" (TNum EmptyString (NumInt U16)) (Some EmptyString)]
  else if bool_decide (n = "Holder"%string) then
    [field "Name" (TString EmptyString) (Some ",lenPrefix=uint8,maxLen=10");
     field "Shape" Shape (Some ",optional");
     field "Points" (TSlice EmptyString Level) (Some ",lenPrefix=uint8,minLen=1");
     field "Counts" (TMap EmptyString byte_type (TBool EmptyString)) (Some ",lenPrefix=uint16");
     field "Cache" (TString EmptyString) None;
     field "At" TTime (Some EmptyString)]
  else [].

Definition level_Encode (v : value) : list byte * option error :=
  match v with
  | VInt z => if (0 <=? z) && (z <=? 255) then ([z2b z], None) else ([], Some (ErrNew "level"))
  | _ => ([], Some (ErrNew "level"))
  end.

Definition level_Decode (v : value) (b : list byte) : value * (Z * option error) :=
  match v, b with
  | VInt _, x :: _ => (VInt (b2z x), (1, None))
  | _, _ => (v, (0, Some (ErrNew "level")))
  end.

Program Definition sample_program : program := {|
  fields_of := sample_fields_of;
  rank_of := λ _, O;
  Encode_method t := if bool_decide (DeRefPointer t = Level) then Some level_Encode else None;
  Decode_method t := if bool_decide (t = TPtr Level) then Some level_Decode else None;
|}.
Next Obligation.
  intros n f m Hf Hm. exfalso. unfold sample_fields_of in Hf.
  destruct (bool_decide (n = "Circle"%string)); [set_solver|].
  destruct (bool_decide (n = "Holder"%string)); set_solver.
Qed.

Definition run (m : outcome (API * option error)) : API := match m with Ret (api, _) => api | _ => NewAPI end.

Definition sample_api : API :=
  let api := (RegisterTypeSettings NewAPI (Some (TStruct "Circle"))
                (WithObjectType NewTypeSettings (Some (ObjectCode false (NInt U8 7))))).1 in
  let api := run (RegisterInterfaceObjects api (Some (TPtr Shape)) [Some (TPtr (TStruct "Circle"))]) in
  (RegisterValidator api (Some (TStruct "Circle"))
     (FnFunc [ctxType; TStruct "Circle"] [errorType] (λ _, None))).1.

Definition sample_value : value :=
  VStruct [VString [x41; x62];
           VInterface (Some (TPtr (TStruct "Circle"), VPtr (Some (VStruct [VInt 300]))));
           VSlice (Some [VInt 5; VInt 4]);
           VMap (Some [(VInt 9, VBool true); (VInt 3, VBool false)]);
           VString [x5a];
           VTime 1700000000000000000].

Definition sample_bytes : list byte :=
  [x02; x41; x62; x03; x00; x00; x00; x07; x2c; x01; x02; x05; x04; x02; x00; x03; x00; x09; x01] ++
  le_bytes 8 1700000000000000000.

Example sample_encoded :
  Encode sample_program sample_api 8 (Some (TPtr (TStruct "Holder"), VPtr (Some sample_value))) true NewTypeSettings =
  Ret (inl sample_bytes).
Proof. vm_compute. reflexivity. Qed.

Lemma level_roundtrip v z b rest :
  level_Encode v = (b, None) → level_Decode (VInt z) (b ++ rest) = (v, (len b, None)).
Proof.
  unfold level_Encode, level_Decode. destruct v as [|x| | | | | | | | | | | | | |]; try done.
  destruct ((0 <=? x) && (x <=? 255)) eqn:E; [|done]. intros [= <-].
  apply andb_true_iff in E as [?%Z.leb_le ?%Z.leb_le]. simpl. by rewrite b2z_z2b, Z.mod_small by lia.
Qed.

Lemma sample_methods : methods_lawful sample_program.
Proof.
  split; cbn [Encode_method Decode_method sample_program].
  - done.
  - intros t Hp Ht. split; (rewrite bool_decide_false; [done|]); intros ?; simplify_eq/=.
  - intros t Hp Ht. rewrite bool_decide_false; [done|]. intros ->. done.
  - intros t Hp. rewrite bool_decide_false; [done|]. intros [= ->]. done.
  - intros t m v b Hp Ht Hm. destruct (bool_decide (DeRefPointer t = Level)) eqn:E; [|done].
    apply bool_decide_eq_true in E. injection Ht as <-. assert (t = Level) as -> by (by destruct t).
    split; [done|]. exists level_Decode. split; [done|]. intros rest. by apply level_roundtrip.
  - intros e m w b Ht Hm. destruct (bool_decide (DeRefPointer (TPtr e) = Level)) eqn:E; [|done].
    apply bool_decide_eq_true in E. injection Ht as <-. simpl in E. subst e.
    exists level_Decode. split; [done|]. intros rest. by apply level_roundtrip.
  - done.
Qed.

Lemma sample_validators : validators_lawful sample_program sample_api.
Proof.
  intros t f ts v v'. vm_compute (validatorsRegistry sample_api). cbn [al_get].
  destruct (decide _); [|done]. intros [= <-]. done.
Qed.

Lemma wf_plain P api validation n t v ts :
  serializable P t v = None →
  wf_type P api validation (wf P api validation n) (wf_struct P api validation n)
    (encode P api validation n) t v ts →
  wf P api validation (S n) t v ts.
Proof. intros Hs H. change (wf P api validation (S n) t v ts) with
  (wf_layer P api validation (wf P api validation n) (wf_struct P api validation n)
    (encode P api validation n) t v ts). unfold wf_layer. by rewrite Hs. Qed.

Lemma wf_self_serializing P api validation n t v ts :
  is_Some (serializable P t v) → wf_self api validation (wf P api validation n) t v ts →
  wf P api validation (S n) t v ts.
Proof. intros [x Hs] H. change (wf P api validation (S n) t v ts) with
  (wf_layer P api validation (wf P api validation n) (wf_struct P api validation n)
    (encode P api validation n) t v ts). unfold wf_layer. by rewrite Hs. Qed.

(** The fields of a struct one by one. *)
Ltac each_field :=
  split; [done|]; intros sfs sf v Hsfs; vm_compute in Hsfs; injection Hsfs as <-;
  rewrite ?elem_of_cons, elem_of_nil; intros Hin Hv;
  repeat (destruct Hin as [->|Hin]; [injection Hv as <-|]); [..|done].

Lemma back_num_inv P api n k ts z v' : back P api (TNum n k) ts (VInt z) v' → v' = VInt z.
Proof. by inversion 1. Qed.

Lemma code_ok_merged api ts t :
  objectType ts = None → code_ok (default NewTypeSettings (GetByType (typeSettingsRegistry api) t)) →
  code_ok (merged api ts t).
Proof. intros Ho. unfold code_ok, merged, merge. cbn [objectType]. by rewrite Ho. Qed.

Lemma level_wf n z ts :
  objectType ts = None → wf sample_program sample_api true (S n) Level (VInt z) ts.
Proof.
  intros Ho. apply wf_self_serializing; [by eexists|].
  split; [|done]. by apply code_ok_merged; [|vm_compute].
Qed.

Lemma circle_wf n ts :
  objectType ts = None →
  wf sample_program sample_api true (S (S (S n))) (TPtr (TStruct "Circle")) (VPtr (Some (VStruct [VInt 300]))) ts.
Proof.
  intros Ho. apply wf_plain; [by vm_compute|]. split; [|by apply code_ok_merged; [|vm_compute]]. each_field.
  apply wf_plain; [by vm_compute|]. by vm_compute.
Qed.

Lemma sample_wf : wf sample_program sample_api true 8 (TPtr (TStruct "Holder")) (VPtr (Some sample_value)) NewTypeSettings.
Proof.
  apply wf_plain; [by vm_compute|]. split; [|by vm_compute]. each_field.
  - by apply wf_plain; [vm_compute|].
  - split; [|intros b Hb; vm_compute in Hb; injection Hb as <-; by vm_compute].
    apply wf_plain; [by vm_compute|]. eexists. split; [by vm_compute|]. split; [by vm_compute|].
    split; [right; by vm_compute|]. by apply circle_wf.
  - apply wf_plain; [by vm_compute|]. split; [done|].
    repeat constructor; try by apply level_wf. all: intros _; by vm_compute.
  - apply wf_plain; [by vm_compute|].
    exists NewTypeSettings, NewTypeSettings. split_and!.
    + repeat constructor; try by vm_compute. all: by apply wf_plain; [vm_compute|].
    + repeat constructor; intros k' Hk; by apply back_num_inv in Hk as ->.
    + intros i j a b ka kb Ha Hb Hij Hka Hkb.
      destruct i as [|[|i]], j as [|[|j]]; simplify_eq/=;
        by apply back_num_inv in Hka as ->; apply back_num_inv in Hkb as ->.
  - by apply wf_plain; [vm_compute|].
Qed.

Lemma serix_roundtrip_witness :
  ∃ w', Decode sample_program sample_api true 8 (sample_bytes ++ [xff])
          (Some (TPtr (TStruct "Holder"), VPtr (Some (zero sample_program (TStruct "Holder"))))) NewTypeSettings =
        Ret (inl (VPtr (Some w'), 27)).
Proof.
  destruct (serix_roundtrip sample_program sample_api true 8 (TStruct "Holder") sample_value NewTypeSettings
    sample_bytes [xff] sample_methods sample_validators sample_wf sample_encoded) as (w' & _ & Hd).
  exists w'. exact Hd.
Defined.

(** ** Maps are encoded in one order *)

Lemma HasMode_set m bit : 0 < bit → HasMode (Z.lor m bit) bit = true.
Proof.
  intros Hb. unfold HasMode. replace (Z.land (Z.lor m bit) bit) with bit; [by apply Z.gtb_lt|].
  apply Z.bits_inj'. intros n _. rewrite Z.land_spec, Z.lor_spec.
  by destruct (Z.testbit m n), (Z.testbit bit n).
Qed.

Lemma ensureOrdering_orders ts validation :
  HasMode (toMode (ensureOrdering ts) validation) DeSeriModePerformLexicalOrdering &&
  HasMode (ValidationMode (default new_rules (arrayRules (ensureOrdering ts)))) ArrayValidationModeLexicalOrdering = true.
Proof. rewrite toMode_ordering, bool_decide_true by done. by apply HasMode_set. Qed.

Lemma sort_slices_perm data data' :
  Forall (λ e, e ≠ Some []) data → data ≡ₚ data' → sort_slices data = sort_slices data'.
Proof.
  intros Hc Hp. unfold sort_slices.
  apply (StronglySorted_unique_strong slice_le); [|apply StronglySorted_merge_sort; apply _..|].
  - intros a b. rewrite !merge_sort_Permutation, <-Hp. rewrite Forall_forall in Hc. intros Ha%Hc Hb%Hc H1 H2.
    assert (slice_bytes a = slice_bytes b) as Heq by (by apply (anti_symm bytes_le)).
    by destruct a as [[|??]|], b as [[|??]|]; simplify_eq/=.
  - by rewrite !merge_sort_Permutation.
Qed.

Lemma encode_pairs_ok api enc kt et es data :
  encode_pairs api enc kt et es = Ret (inl data) ↔
  Forall2 (λ kv b, encodeMapKVPair api enc kt et kv = Ret (inl b)) es data.
Proof.
  revert data. induction es as [|kv es IH]; intros data; cbn [encode_pairs].
  { split; [intros [= <-]; constructor|]. by inversion 1. }
  split.
  - intros (b & Hb & (data' & Hd & [= <-])%bind_res_ok)%bind_res_ok. constructor; [done|]. by apply IH.
  - inversion 1 as [|? b ? data' Hb Hd]; subst. rewrite Hb. cbn [bind_res]. by rewrite (proj2 (IH _) Hd).
Qed.

Lemma encodeMapKVPair_canonical api enc kt et kv b :
  encodeMapKVPair api enc kt et kv = Ret (inl b) → b ≠ Some [].
Proof.
  unfold encodeMapKVPair. 
  destruct (GetByValue _ kt kv.1 None) as [kts|]; [|done].
  destruct (GetByValue _ et kv.2 None) as [ets|]; [|done].
  intros (kb & _ & (eb & _ & [= <-])%bind_res_ok)%bind_res_ok. by destruct (kb ++ eb).
Qed.

(** The encoding of a map does not depend on the order in which its entries
    are visited: whenever one order encodes, every other order gives the same
    bytes, at any depth and with or without validation. *)
Lemma encodeMap_deterministic api validation enc kt et es es' ts b :
  es ≡ₚ es' → encodeMap api validation enc kt et (VMap (Some es)) ts = Ret (inl b) →
  encodeMap api validation enc kt et (VMap (Some es')) ts = Ret (inl b).
Proof.
  intros Hp. unfold encodeMap. cbn [default].
  intros (_u & Hb & (data & Hd & He)%bind_res_ok)%bind_res_ok.
  apply encode_pairs_ok in Hd. destruct (Permutation_Forall2 Hp Hd) as (data' & Hpd & Hd').
  assert (Forall (λ e, e ≠ Some []) data) as Hc.
  { eapply Forall2_Forall_r; [exact Hd|]. apply Forall_true. intros kv e. apply encodeMapKVPair_canonical. }
  apply bind_res_ok. exists _u. split.
  { destruct validation; [|done]. rewrite <-Hb. unfold checkMinMaxBounds. cbn [length_of default].
    unfold len. by rewrite Hp. }
  apply bind_res_ok. exists data'. split; [by apply encode_pairs_ok|].
  rewrite <-He. unfold encodeSliceOfBytes. cbn [lengthPrefixType ensureOrdering].
  assert (len data = len data') as Hl by (unfold len; by rewrite Hpd).
  destruct (lengthPrefixType _); [|done]. f_equal. unfold WriteSliceOfByteSlices.
  rewrite (ensureOrdering_orders ts validation).
  by rewrite (sort_slices_perm data data' Hc Hpd), Hl.
Qed.

Lemma encodeMap_deterministic_witness :
  let ts := WithLengthPrefixType NewTypeSettings SeriLengthPrefixTypeAsByte in
  encodeMap NewAPI true (encode sample_program NewAPI true 1) byte_type (TBool EmptyString)
    (VMap (Some [(VInt 9, VBool true); (VInt 3, VBool false)])) ts = Ret (inl [x02; x03; x00; x09; x01]).
Proof.
  apply (encodeMap_deterministic _ _ _ _ _ [(VInt 3, VBool false); (VInt 9, VBool true)]).
  - apply perm_swap.
  - vm_compute. reflexivity.
Defined.

(** ** Behaviour at the edges *)

(** A tag may repeat a part that has a value, the last one counts; a part
    without a value is refused the second time. *)
Lemma duplicated_part_accepted :
  (∃ s, ParseSerixSettings ",minLen=1,minLen=2" 0 = inl s ∧ MinLen (tag_ts s) = (2, true)) ∧
  ParseSerixSettings ",optional,optional" 0 = inr (ErrNew "duplicated tag part: %s").
Proof. split; [|done]. by eexists. Qed.

(** A map whose keys are pointers without settings of their own cannot be
    decoded: the settings are asked for with the nil pointer of a new key. *)
Lemma pointer_keys_panic P api dec b e et :
  al_get (TPtr e) (typeSettingsRegistry api) = None →
  decodeMapKVPair P api dec b (TPtr e) et = Panic "reflect: call of reflect.Value.Type on zero Value".
Proof. intros H. unfold decodeMapKVPair. rewrite zero_ptr. cbn [GetByValue]. by rewrite H. Qed.

(** Arrays of other elements than bytes encode but cannot be decoded. *)
Lemma object_arrays_panic :
  let t := TArray EmptyString 2 (TBool EmptyString) in
  let ts := WithLengthPrefixType NewTypeSettings SeriLengthPrefixTypeAsByte in
  Encode sample_program NewAPI 4 (Some (TPtr t, VPtr (Some (VArray [VBool true; VBool false])))) true ts =
    Ret (inl [x02; x01; x00]) ∧
  Decode sample_program NewAPI true 4 [x02; x01; x00] (Some (TPtr t, VPtr (Some (zero sample_program t)))) ts =
    Panic "reflect: reflect.Value.Set using unaddressable value".
Proof. by vm_compute. Qed.

(** A nil pointer panics, and is not refused, when its element type has a validator. *)
Lemma nil_pointer_validator_panics P api n e ts f :
  al_get (TPtr e) (validatorsRegistry api) = None → al_get e (validatorsRegistry api) = Some (Some f) →
  encode P api true (S n) (TPtr e) (VPtr None) ts = Panic "reflect: Call using zero Value argument".
Proof.
  intros H1 H2. cbn [encode]. unfold encode_layer, callSyntacticValidator. rewrite H1. cbn [elem_type elem_value].
  unfold call_validator. by rewrite H2.
Qed.

(** An optional field whose value is encoded as nothing comes back as nil: its
    length is that of an absent one. *)
Lemma empty_optional_lost enc dec encFields decFields P sf v d rest :
  isEmbedded sf = false → isOptional (settings sf) = true → is_nil v = false →
  enc (fType sf) v (tag_ts (settings sf)) = Ret (inl []) →
  ∃ bs, encode_field enc encFields NewSerializer sf v = Ret (inl (wrote NewSerializer bs)) ∧
    (reads_at d (bs ++ rest) →
     decode_field P dec decFields d sf (zero P (fType sf)) = Ret (inl (advance d (len bs), zero P (fType sf)))).
Proof.
  intros He Ho Hn Henc. exists (le_bytes 4 0). unfold encode_field, decode_field. rewrite He, Ho, Hn, Henc.
  cbn [andb wrap_res bind_res]. split; [done|]. intros Hr.
  unfold ReadPayloadLength. cbv [PayloadLengthByteSize]. read_front Hr.
  by rewrite front_app, le_roundtrip by (by rewrite ?len_le_bytes).
Qed.
