(* ===== verification/SerixTyping.v ===== *)
(** * serializer/serix: decoding is type safe

    [typed] is the typing of the values of Go that reflection guarantees.
    Decoding any bytes into a value of a type yields a value of that type; on the
    way the code never meets a value of a kind that it does not expect, and never
    slices beyond the bytes it was given. *)

From S2P Require Import OrderedMap.
From S2P Require Import Prelude Bytes Serializable Serializer Deserializer SerializerFields.
From S2P Require Import SerixTypes SerixEncode SerixDecode SerixRoundtrip Serix.

(** ** Results without a type confusion *)

(** A panic other than these two: reflection on a value of another kind, and
    slicing out of range. *)
Definition tolerated (msg : string) : bool :=
  negb (bool_decide (msg = "value of another type")) && negb (bool_decide (msg = "slice bounds out of range")).

Definition safe {A} (Q : A → Prop) (m : outcome A) : Prop :=
  match m with Ret a => Q a | Panic msg => tolerated msg = true end.

Definition sound {A} (Q : A → Prop) (m : res A) : Prop :=
  safe (λ r, match r with inl a => Q a | inr _ => True end) m.

Lemma safe_bind {A B} (Q : A → Prop) (R : B → Prop) m f :
  safe Q m → (∀ a, Q a → safe R (f a)) → safe R (m ≫= f).
Proof. destruct m; simpl; auto. Qed.

Lemma sound_bind {A B} (Q : A → Prop) (R : B → Prop) m f :
  sound Q m → (∀ a, Q a → sound R (f a)) → sound R (bind_res m f).
Proof. destruct m as [[a|e]|msg]; simpl; auto. Qed.

Lemma sound_wrap {A} (Q : A → Prop) s m : sound Q m → sound Q (wrap_res s m).
Proof. by destruct m as [[a|e]|msg]. Qed.

Lemma sound_lift {A} (Q : A → Prop) m : safe Q m → sound Q (lift m).
Proof. by destruct m. Qed.

Lemma sound_if {A} (Q : A → Prop) (c : bool) m1 m2 : sound Q m1 → sound Q m2 → sound Q (if c then m1 else m2).
Proof. by destruct c. Qed.

(** ** Deserializers over some bytes *)

Definition over (b : list byte) (d : Deserializer) : Prop := src d = b ∧ d_ok d.

Lemma over_new b : over b (NewDeserializer b).
Proof. split; [done|]. unfold d_ok. simpl. pose proof (len_nonneg b). lia. Qed.

Lemma over_err b d e : over b d → over b (d_set_err d e).
Proof. by intros [<- ?]. Qed.

Lemma over_rest b d : over b d → ∃ rest, RemainingBytes d = Ret rest ∧ len rest = len b - offset d.
Proof. intros [<- Hd]. by apply RemainingBytes_d_ok. Qed.

Lemma over_advance b d n : over b d → 0 ≤ n ≤ len b - offset d → over b (advance d n).
Proof. intros [<- Hd] Hn. split; [done|]. unfold d_ok in *. simpl. lia. Qed.

(** A read that stores values with a property only. *)
Definition reads {A} (b : list byte) (Q : A → Prop) (m : outcome (Deserializer * option A)) : Prop :=
  safe (λ r, over b r.1 ∧ ∀ x, r.2 = Some x → Q x) m.

Lemma reads_none {A} b (Q : A → Prop) d : over b d → reads b Q (Ret (d, None)).
Proof. by split. Qed.

Lemma reads_some {A} b (Q : A → Prop) d n x :
  over b d → 0 ≤ n ≤ len b - offset d → Q x → reads b Q (Ret (advance d n, Some x)).
Proof. intros Hd Hn Hx. split; [by apply over_advance|]. by intros ? [= <-]. Qed.

Lemma reads_when_ok {A} b (Q : A → Prop) d k :
  over b d → reads b Q k → reads b Q (d_when_ok d k).
Proof. intros Hd Hk. unfold d_when_ok. destruct (d_err d); [by apply reads_none|done]. Qed.

(** The guard, the remaining bytes, and the test that there are [n] of them. *)
Lemma reads_enough {A} b (Q : A → Prop) d n e (k : list byte → outcome (Deserializer * option A)) :
  over b d → (∀ rest, len rest = len b - offset d → n ≤ len rest → reads b Q (k rest)) →
  reads b Q (rest ← RemainingBytes d; if len rest <? n then Ret (d_set_err d e, None) else k rest).
Proof.
  intros Hd Hk. destruct (over_rest b d Hd) as (rest & -> & Hl). cbn [mbind outcome_bind].
  destruct (Z.ltb_spec (len rest) n); [by apply reads_none, over_err|by apply Hk].
Qed.

Lemma ReadBool_reads b d ep : over b d → reads b (λ _, True) (ReadBool d ep).
Proof.
  intros Hd. apply reads_when_ok; [done|]. destruct (over_rest b d Hd) as (rest & -> & Hl). cbn [mbind outcome_bind].
  destruct rest as [|x rest]; [by apply reads_none, over_err|]. unfold len at 1 in Hl. simpl in Hl.
  destruct (_ =? 0); [|destruct (_ =? 1)].
  1-2: apply reads_some; unfold OneByte; done || lia.
  by apply reads_none, over_err.
Qed.

(** What a number of a type may be. *)
Definition num_ok (k : number) (v : value) : Prop :=
  match k, v with
  | NumInt T, VInt z => in_range T z
  | NumFloat32, VFloat32 bits => 0 ≤ bits < 2 ^ 32
  | NumFloat64, VFloat64 bits => 0 ≤ bits < 2 ^ 64
  | _, _ => False
  end.

Lemma front_num n rest : 0 ≤ n → 0 ≤ le_num (front n rest) < 2 ^ (8 * n).
Proof.
  intros Hn. pose proof (le_num_range (front n rest)) as [H1 H2]. split; [done|].
  eapply Z.lt_le_trans; [exact H2|]. apply Z.pow_le_mono_r; [lia|]. unfold front. rewrite length_take. lia.
Qed.

Lemma ReadNum_reads b d k ep : over b d → reads b (λ x, num_ok k (value_of_num x)) (ReadNum d (num_dest_of k) ep).
Proof.
  intros Hd. apply reads_when_ok; [done|].
  assert (∃ n, numSize (num_dest_of k) = Ret n ∧ 0 ≤ n ∧
    match k with NumInt _ => True | NumFloat32 => n = 4 | NumFloat64 => n = 8 end) as (n & -> & Hn & Hk).
  { destruct k as [[]| |]; eexists; (split; [done|]); by cbv. }
  cbn [mbind outcome_bind]. apply reads_enough; [done|]. intros rest Hl Hle.
  destruct k; cbn [num_dest_of mbind outcome_bind]; apply reads_some; try (done || lia); cbn.
  - apply wrap_in_range.
  - subst n. by apply (front_num 4).
  - subst n. by apply (front_num 8).
Qed.

Lemma ReadUint256_reads b d ep : over b d → reads b (λ _, True) (ReadUint256 d ep).
Proof.
  intros Hd. apply reads_when_ok; [done|]. apply reads_enough; [done|]. intros rest Hl Hle.
  apply reads_some; unfold UInt256ByteSize in *; done || lia.
Qed.

Lemma ReadTime_reads b d ep : over b d → reads b (λ _, True) (ReadTime d ep).
Proof.
  intros Hd. apply reads_when_ok; [done|]. apply reads_enough; [done|]. intros rest Hl Hle.
  apply reads_some; unfold UInt64ByteSize in *; done || lia.
Qed.

Lemma ReadBytesInPlace_reads b d bs ep : over b d → reads b (λ x, length x = length bs) (ReadBytesInPlace d bs ep).
Proof.
  intros Hd. apply reads_when_ok; [done|]. apply reads_enough; [done|]. intros rest Hl Hle.
  apply reads_some; [done|pose proof (len_nonneg bs); lia|].
  unfold copy_bytes, front, len in *. rewrite length_app, length_take, length_drop, length_take. lia.
Qed.

Lemma readSliceLength_reads b d lt ep :
  over b d → safe (λ r, over b r.1.1 ∧ 0 ≤ r.1.2) (readSliceLength d lt ep).
Proof.
  intros [<- Hd]. destruct (prefix_bound lt) eqn:Hlt.
  - destruct (readSliceLength_safe d lt ep Hd) as (d' & l & err & -> & Hd' & Hs & _ & _ & Hl); [by rewrite Hlt|].
    simpl. by rewrite <-Hs.
  - unfold readSliceLength. destruct (RemainingBytes_d_ok d Hd) as (rest & -> & _). by destruct lt.
Qed.

Lemma check_length_bounds_over b d l mn mx ep m1 m2 : over b d → over b (check_length_bounds d l mn mx ep m1 m2).
Proof. intros Hd. unfold check_length_bounds. repeat case_match; try done; by apply over_err. Qed.

Lemma ReadVariableByteSlice_reads b d lt ep mn mx :
  over b d → reads b (λ _, True) (ReadVariableByteSlice d lt ep mn mx).
Proof.
  intros Hd. apply reads_when_ok; [done|]. eapply safe_bind; [by apply readSliceLength_reads|].
  intros [[d1 l] [e|]] [Hd1 Hl]; simpl in *; [by apply reads_none, over_err|].
  apply (check_length_bounds_over _ _ l mn mx ep "denoted %d bytes, max allowed %d " "denoted %d bytes, min required %d ") in Hd1.
  rewrite make_bytes_nonneg by done. cbn [mbind outcome_bind]. destruct (l =? 0); [done|].
  apply reads_enough; [done|]. intros rest Hr Hle. apply reads_some; done || lia.
Qed.

Lemma ReadString_reads b d lt ep mn mx : over b d → reads b (λ _, True) (ReadString d lt ep mn mx).
Proof.
  intros Hd. apply reads_when_ok; [done|]. eapply safe_bind; [by apply readSliceLength_reads|].
  intros [[d1 l] [e|]] [Hd1 Hl]; simpl in *; [by apply reads_none, over_err|].
  apply reads_enough; [by apply check_length_bounds_over|]. intros rest Hr Hle.
  apply reads_some; [by apply check_length_bounds_over| |done]. lia.
Qed.

Lemma Skip_safe b d n ep : over b d → 0 ≤ n → safe (over b) (Skip d n ep).
Proof.
  intros Hd Hn. unfold Skip. destruct (d_err d); [done|].
  destruct (over_rest b d Hd) as (rest & -> & Hl). cbn [mbind outcome_bind].
  destruct (Z.ltb_spec (len rest) n); [by apply over_err|]. apply over_advance; [done|]. lia.
Qed.

Lemma CheckTypePrefix_safe b d p k ep : over b d → safe (over b) (CheckTypePrefix d p k ep).
Proof.
  intros Hd. unfold CheckTypePrefix. destruct (d_err d); [done|].
  destruct (over_rest b d Hd) as (rest & E & Hl).
  destruct k; try done; rewrite E; cbn [mbind outcome_bind]; case_match; try (by apply over_err); by apply Skip_safe.
Qed.

Lemma check_object_type_sound b d ts : over b d → sound (over b) (check_object_type d ts).
Proof.
  intros Hd. unfold check_object_type. destruct (objectType ts) as [c|]; [|done].
  eapply (sound_bind (λ _, True)); [|intros; by apply sound_lift, CheckTypePrefix_safe].
  unfold getTypeDenotationAndCode. repeat case_match; done.
Qed.

Lemma GetObjectType_safe b den : safe (λ _, True) (GetObjectType (NewDeserializer b) den).
Proof.
  unfold GetObjectType. destruct (over_rest b _ (over_new b)) as (rest & -> & _). cbn [mbind outcome_bind].
  destruct den; repeat case_match; done.
Qed.

Lemma run_validators_safe vs i next : safe (λ _, True) (run_validators vs i next).
Proof.
  revert vs. induction vs as [|v vs IH]; [done|]. cbn [run_validators]. eapply (safe_bind (λ _, True)).
  - destruct v; try done. simpl. unfold run_one_of_each. eapply (safe_bind (λ _, True)); [|done]. repeat case_match; done.
  - intros [v' [e|]] _; [done|]. eapply safe_bind; [exact IH|]. by intros [].
Qed.

(** A sequence keeps what its items keep. *)
Lemma read_items_keep {St} (I : St → Prop) (item : DeserializeFunc St) ep b n i d st vs :
  (∀ st rest, I st → safe (λ r, I r.1 ∧ (r.2.2 = None → 0 ≤ r.2.1 ≤ len rest)) (item st rest)) →
  over b d → I st → safe (λ r, over b r.1 ∧ I r.2) (read_items n i d st item vs ep).
Proof.
  intros Hitem. revert i d st vs. induction n as [|n IH]; intros i d st vs Hd Hst; [done|]. cbn [read_items].
  destruct (over_rest b d Hd) as (rest & -> & Hl). cbn [mbind outcome_bind].
  eapply safe_bind; [by apply Hitem|]. intros [st' [bytesRead [e|]]] [Hst' Hn]; simpl in *.
  { split; [by apply over_err|done]. }
  specialize (Hn eq_refl). assert (over b (advance d bytesRead)) by (apply over_advance; [done|lia]).
  destruct vs as [|v vs]; [by apply IH|]. unfold prefix_bytes. rewrite !(proj2 (Z.leb_le _ _)) by lia.
  cbn [mbind outcome_bind andb]. eapply safe_bind; [apply run_validators_safe|]. intros [vs' [e|]] _.
  - split; [by apply over_err|done].
  - by apply IH.
Qed.

Lemma ReadSequenceOfObjects_keep {St Obj} (I : St → Prop) (item : DeserializeFunc St) b st mode lt (ar : ArrayRules Obj) ep :
  (∀ st rest, I st → safe (λ r, I r.1 ∧ (r.2.2 = None → 0 ≤ r.2.1 ≤ len rest)) (item st rest)) →
  I st → safe (λ r, over b r.1 ∧ I r.2) (ReadSequenceOfObjects (NewDeserializer b) st item mode lt ar ep).
Proof.
  intros Hitem Hst. unfold ReadSequenceOfObjects. cbn [NewDeserializer d_err].
  eapply safe_bind; [apply readSliceLength_reads, over_new|]. intros [[d l] [e|]] [Hd Hl]; simpl in *.
  { split; [by apply over_err|done]. }
  repeat case_match; try (split; [by try apply over_err|done]); by apply read_items_keep.
Qed.

(** ** Types *)

Section Typing.
Context (P : program) (api : API).
(** [implements n t]: the type [t] has the methods of the interface [n]. *)
Context (implements : tname → rtype → Prop).

Inductive typed : rtype → value → Prop :=
  | typed_bool n x : typed (TBool n) (VBool x)
  | typed_num n k v : num_ok k v → typed (TNum n k) v
  | typed_string n s : typed (TString n) (VString s)
  | typed_bigint z : typed TBigIntPtr (VBigInt z)
  | typed_time t : typed TTime (VTime t)
  | typed_struct n fs : Forall2 (λ f v, typed (f_type f) v) (fields_of P n) fs → typed (TStruct n) (VStruct fs)
  | typed_bytes n e o : is_byte e = true → typed (TSlice n e) (VBytes o)
  | typed_slice n e o : is_byte e = false → Forall (typed e) (default [] o) → typed (TSlice n e) (VSlice o)
  | typed_byte_array n size e bs : is_byte e = true → length bs = size → typed (TArray n size e) (VByteArray bs)
  | typed_array n size e vs :
      is_byte e = false → length vs = size → Forall (typed e) vs → typed (TArray n size e) (VArray vs)
  | typed_map n kt et o :
      Forall (λ kv, typed kt kv.1 ∧ typed et kv.2) (default [] o) → typed (TMap n kt et) (VMap o)
  | typed_nil e : typed (TPtr e) (VPtr None)
  | typed_ptr e v : typed e v → typed (TPtr e) (VPtr (Some v))
  | typed_no_object n : typed (TInterface n) (VInterface None)
  | typed_object n t v : implements n t → typed t v → typed (TInterface n) (VInterface (Some (t, v)))
  | typed_other n : typed (TOther n) VOther.

Lemma zero_typed_from t :
  (∀ n, by_value t = Some n → typed (TStruct n) (zero P (TStruct n))) → typed t (zero P t).
Proof.
  induction t as [|n k| | | | |n e IH|n size e IH| |e IH| |]; intros Hs; try (by constructor).
  - constructor. destruct k as [[]| |]; cbn; unfold in_range; cbn; lia.
  - by apply Hs.
  - rewrite zero_slice. destruct (is_byte e) eqn:E; by constructor.
  - rewrite zero_array. destruct (is_byte e) eqn:E; constructor; rewrite ?length_replicate; try done.
    apply Forall_replicate. by apply IH.
Qed.

Lemma zero_struct_typed r n : (rank_of P n ≤ r)%nat → typed (TStruct n) (zero P (TStruct n)).
Proof.
  revert n. induction r as [|r IH]; intros n Hr; rewrite zero_struct; constructor;
    apply Forall2_fmap_r, Forall_Forall2_diag, Forall_forall; intros f Hf; simpl; apply zero_typed_from;
    intros m Hm; pose proof (ranked P n f m Hf Hm); [lia|]. apply IH. lia.
Qed.

Lemma zero_typed t : typed t (zero P t).
Proof. apply zero_typed_from. intros n _. by apply (zero_struct_typed (rank_of P n)). Qed.

(** The receiver of a method of a type: what a pointer points to. *)
Definition receiver (t : rtype) : rtype := match t with TPtr e => e | t => t end.

(** What is asked of the program: a [Decode] method leaves a value of its type in
    its receiver and reads bytes that it was given, a nil receiver stays nil, and
    only types that implement an interface are registered for it. *)
Record program_typed : Prop := {
  method_typed t m v b w n : Decode_method P t = Some m → typed (receiver t) v → m v b = (w, (n, None)) →
    typed (receiver t) w ∧ 0 ≤ n ≤ len b;
  method_nil e m b w n : Decode_method P (TPtr e) = Some m → m (VPtr None) b = (w, (n, None)) →
    w = VPtr None ∧ 0 ≤ n ≤ len b;
  registered_implement n io c t : al_get (TInterface n) (interfacesRegistry api) = Some io →
    GetObjectTypeByCode io c = Some t → implements n t;
}.

Hypothesis HP : program_typed.

(** A value of the type and the number of bytes it was read from. *)
Definition yields (t : rtype) (b : list byte) (r : value * Z) : Prop := typed t r.1 ∧ 0 ≤ r.2 ≤ len b.

Lemma done_sound {A} b d (x : A) (Q : A → Prop) :
  over b d → Q x → sound (λ r, Q r.1 ∧ 0 ≤ r.2 ≤ len b) (done d x).
Proof. intros [<- Hd] Hx. unfold done, Done. by destruct (d_err d). Qed.

Lemma read_value_sound {A} b (Q : A → Prop) m f old t :
  reads b Q m → typed t old → (∀ x, Q x → typed t (f x)) → sound (yields t b) (read_value m f old).
Proof.
  intros Hm Ho Hf. destruct m as [[d o]|msg]; [|done]. destruct Hm as [Hd Hx].
  apply (done_sound b d _ (typed t) Hd). destruct o as [x|]; [|done]. by apply Hf, Hx.
Qed.

Section Layer.
Context (validation : bool).
Context (dec : bool → list byte → rtype → value → TypeSettings → res (value * Z)).
Context (decFields : Deserializer → rtype → value → res (Deserializer * value)).
Hypothesis dec_sound : ∀ addr b t v ts, typed t v → sound (yields t b) (dec addr b t v ts).
Hypothesis fields_sound : ∀ b d t v, over b d → typed t v → sound (λ r, over b r.1 ∧ typed t r.2) (decFields d t v).

Lemma rest_sound b d : over b d → sound (λ rest, len rest = len b - offset d) (lift (RemainingBytes d)).
Proof. intros Hd. by destruct (over_rest b d Hd) as (rest & -> & Hl). Qed.

Lemma skip_read_sound b d t (r : value * Z) :
  over b d → typed t r.1 → 0 ≤ r.2 → sound (λ r, over b r.1 ∧ typed t r.2) (skip_read d r).
Proof. intros Hd Ht Hn. eapply sound_bind; [by apply sound_lift, Skip_safe|]. by intros d' Hd'. Qed.

Lemma decode_embedded_sound b d sf v :
  over b d → typed (fType sf) v → sound (λ r, over b r.1 ∧ typed (fType sf) r.2) (decode_embedded P decFields d sf v).
Proof.
  intros Hd. unfold decode_embedded. destruct (fType sf) as [| | | | | | | | |e| |]; intros Hv; try (by apply fields_sound).
  - inversion Hv; subst. destruct (_ && _); [done|].
    eapply sound_bind; [apply (fields_sound b); [done|by constructor]|]. intros r [? _]. by split; [|constructor].
  - inversion Hv as [ | | | | | | | | | | |e' E1 E2|e' w Hw E1 E2| | |]; subst.
    + destruct (_ && _); [done|]. eapply sound_bind; [apply (fields_sound b); [done|apply zero_typed]|].
      intros r [? ?]. by split; [|constructor].
    + cbn [is_nil andb]. eapply sound_bind; [by apply (fields_sound b)|]. intros r [? ?]. by split; [|constructor].
Qed.

Lemma decode_field_sound b d sf v :
  over b d → typed (fType sf) v → sound (λ r, over b r.1 ∧ typed (fType sf) r.2) (decode_field P dec decFields d sf v).
Proof.
  intros Hd Hv. unfold decode_field. destruct (_ && _); [by apply sound_wrap, decode_embedded_sound|].
  assert (∀ rest, sound (yields (fType sf) rest) (wrap_res "failed to deserialize struct field %s"
    (dec true rest (fType sf) v (tag_ts (settings sf))))) as Hdec by (intros rest; by apply sound_wrap, dec_sound).
  destruct (isOptional (settings sf)).
  - unfold ReadPayloadLength. destruct (over_rest b d Hd) as (rest & -> & Hl). cbn [mbind outcome_bind].
    destruct (Z.ltb_spec (len rest) PayloadLengthByteSize) as [?|Hp]; [done|].
    assert (over b (advance d PayloadLengthByteSize)) as Hd'.
    { apply over_advance; [done|]. unfold PayloadLengthByteSize in *. unfold UInt32ByteSize in *. lia. }
    destruct (_ =? 0); [done|]. eapply sound_bind; [by apply (rest_sound b)|]. intros rest' _.
    eapply (sound_bind (yields (fType sf) rest')); [by apply sound_wrap, dec_sound|]. intros r [Ht [Hn _]].
    destruct (negb _); [done|]. by apply skip_read_sound.
  - eapply sound_bind; [by apply (rest_sound b)|]. intros rest' _.
    eapply sound_bind; [apply Hdec|]. intros r [Ht [Hn _]]. by apply skip_read_sound.
Qed.

Lemma decode_fields_sound b (fields : list StructField) sfs d vs :
  (∀ sf, sf ∈ sfs → ∃ f, fields !! sf_index sf = Some f ∧ fType sf = f_type f) →
  over b d → Forall2 (λ f v, typed (f_type f) v) fields vs →
  sound (λ r, over b r.1 ∧ Forall2 (λ f v, typed (f_type f) v) fields r.2) (decode_fields P dec decFields d sfs vs).
Proof.
  revert d vs. induction sfs as [|sf sfs IH]; intros d vs Hsfs Hd Hvs; [done|]. cbn [decode_fields].
  destruct (Hsfs sf) as (f & Hf & Ht); [by left|].
  destruct (Forall2_lookup_l _ _ _ _ _ Hvs Hf) as (v & Ev & Hv). rewrite Ev.
  eapply sound_bind; [apply (decode_field_sound b); [done|by rewrite Ht]|]. intros r [Hr Htr].
  apply IH; [intros sf' Hsf'; apply Hsfs; by right|done|]. rewrite Ht in Htr.
  rewrite <-(list_insert_id fields (sf_index sf) f Hf). by apply Forall2_insert.
Qed.

Lemma decodeStruct_sound b t v ts :
  typed t v → isUnderlyingStruct t = true → is_ptr t = false → sound (yields t b) (decodeStruct decFields b t v ts).
Proof.
  intros Hv Hs Hp. destruct t; try done; unfold decodeStruct.
  - eapply read_value_sound; [apply ReadTime_reads, over_new|done|by constructor].
  - eapply sound_bind; [apply check_object_type_sound, over_new|]. intros d Hd.
    eapply sound_bind; [by apply (fields_sound b)|]. intros r [Hr Ht]. by apply (done_sound b _ _ (typed _)).
Qed.

Lemma decodeSequence_sound {St} (I : St → Prop) b (item : DeserializeFunc St) st ts :
  (∀ st rest, I st → safe (λ r, I r.1 ∧ (r.2.2 = None → 0 ≤ r.2.1 ≤ len rest)) (item st rest)) →
  I st → sound (λ r, I r.1 ∧ 0 ≤ r.2 ≤ len b) (decodeSequence validation b item st ts).
Proof.
  intros Hitem Hst. unfold decodeSequence. destruct (lengthPrefixType ts) as [lpt|]; [|done].
  pose proof (ReadSequenceOfObjects_keep I item b st (toMode ts validation) lpt (default new_rules (arrayRules ts))
    (producing "failed to read sequence of objects %s from the deserialized") Hitem Hst) as H.
  destruct (ReadSequenceOfObjects _ _ _ _ _ _ _) as [[d st']|]; [|done]. destruct H as [Hd Hst']. by apply done_sound.
Qed.

Lemma checkArrayMustOccur_sound e vs ts : sound (λ _, True) (checkArrayMustOccur api e vs ts).
Proof.
  unfold checkArrayMustOccur. destruct (arrayRules ts) as [r|]; [|done]. case_bool_decide; [done|].
  eapply (sound_bind (λ _, True)); [|intros; by case_bool_decide].
  generalize (MustOccur r). induction vs as [|v vs IH]; intros mo; [done|]. cbn [remove_occurring].
  destruct (occurring_type e v); [|done]. destruct (GetByType _ _) as [ts'|]; [|done].
  eapply (sound_bind (λ _, True)); [|intros; apply IH]. unfold getTypeDenotationAndCode. repeat case_match; done.
Qed.

Lemma decodeObjects_sound settable b e es ts :
  Forall (typed e) (default [] es) →
  sound (λ r, Forall (typed e) (default [] r.1) ∧ 0 ≤ r.2 ≤ len b) (decodeObjects P api validation dec settable b e es ts).
Proof.
  intros Hes. eapply sound_bind.
  - apply (decodeSequence_sound (λ es, Forall (typed e) (default [] es))); [|done]. intros st rest Hst.
    unfold deserialize_elem. pose proof (dec_sound true rest e (zero P e) NewTypeSettings (zero_typed e)) as H.
    destruct (dec _ _ _ _ _) as [[[x n]|err]|msg]; [|done|done]. destruct H as [Hx Hn]. destruct settable; [|done].
    split; [|done]. cbn. apply Forall_app. by split; [|constructor].
  - intros r [Hr Hn]. eapply (sound_bind (λ _, True)); [|done].
    apply sound_if; [|done]. apply sound_wrap, checkArrayMustOccur_sound.
Qed.

Lemma decodeSlice_sound b n e v ts : typed (TSlice n e) v → sound (yields (TSlice n e) b) (decodeSlice P api validation dec b e v ts).
Proof.
  intros Hv. inversion Hv as [ | | | | | |n' e' o Hb E1 E2|n' e' o Hb Hes E1 E2| | | | | | | |]; subst; unfold decodeSlice.
  - destruct (lengthPrefixType ts); [|done]. destruct (MinMaxLen ts).
    eapply read_value_sound; [apply ReadVariableByteSlice_reads, over_new|done|by constructor].
  - eapply sound_bind; [by apply decodeObjects_sound|]. intros r [Hr Hn]. by split; [constructor|].
Qed.

Lemma decodeArray_sound b n size e v ts :
  typed (TArray n size e) v → sound (yields (TArray n size e) b) (decodeArray P api validation dec b e v ts).
Proof.
  intros Hv. inversion Hv as [ | | | | | | | |n' s' e' bs Hb Hl E1 E2|n' s' e' vs Hb Hl Hes E1 E2| | | | | |];
    subst; unfold decodeArray.
  - eapply sound_bind; [apply check_object_type_sound, over_new|]. intros d Hd.
    eapply read_value_sound; [by apply ReadBytesInPlace_reads|done|by constructor].
  - eapply sound_bind; [by apply decodeObjects_sound|]. by intros r [Hr Hn].
Qed.

Lemma GetByValue_zero t : safe (λ _, True) (GetByValue (typeSettingsRegistry api) t (zero P t) None).
Proof.
  destruct t; try (destruct (zero P _); cbn [GetByValue]; by case_match);
    cbn [zero type_rank by_value zero_at GetByValue]; by case_match.
Qed.

Lemma decodeMapKVPair_sound b kt et :
  sound (λ r, (typed kt r.1.1 ∧ typed et r.1.2) ∧ 0 ≤ r.2 ≤ len b) (decodeMapKVPair P api dec b kt et).
Proof.
  unfold decodeMapKVPair.
  pose proof (GetByValue_zero kt) as Hk. pose proof (GetByValue_zero et) as He.
  destruct (GetByValue _ kt _ _) as [keyTS|]; [|done]. destruct (GetByValue _ et _ _) as [valueTS|]; [|done].
  eapply sound_bind; [by apply sound_wrap, dec_sound, zero_typed|]. intros k [Hk1 Hkn].
  eapply (sound_bind (λ rest, len rest = len b - k.2)).
  { unfold slice_after. rewrite !(proj2 (Z.leb_le _ _)) by lia. simpl. unfold len in *. rewrite length_drop. lia. }
  intros rest Hr. eapply sound_bind; [by apply sound_wrap, dec_sound, zero_typed|]. intros e [He1 Hen].
  split; [done|]. cbn. lia.
Qed.

Lemma decodeMap_sound b n kt et v ts :
  typed (TMap n kt et) v → sound (yields (TMap n kt et) b) (decodeMap P api validation dec b kt et v ts).
Proof.
  intros Hv. inversion Hv as [ | | | | | | | | | |n' kt' et' o Hes E1 E2| | | | |]; subst. unfold decodeMap.
  eapply sound_bind.
  - apply (decodeSequence_sound (Forall (λ kv, typed kt kv.1 ∧ typed et kv.2))); [|done]. intros st rest Hst.
    unfold deserialize_pair. pose proof (decodeMapKVPair_sound rest kt et) as H.
    destruct (decodeMapKVPair _ _ _ _ _ _) as [[[[k e] m]|err]|msg]; [|done|done]. destruct H as [Hke Hm].
    destruct (negb (hashable k)); [done|]. destruct (existsb _ _); [done|]. split; [|done].
    apply Forall_app. by split; [|constructor].
  - intros r [Hr Hn]. eapply (sound_bind (λ _, True)).
    + apply sound_if; [|done]. by destruct (checkMinMaxBounds _ _).
    + intros _ _. by split; [constructor|].
Qed.

Lemma decodeInterface_sound b n ts : sound (yields (TInterface n) b) (decodeInterface P api dec b (TInterface n) ts).
Proof.
  unfold decodeInterface. destruct (al_get _ _) as [io|] eqn:Eio; [|done].
  pose proof (GetObjectType_safe b (typeDenotation io)) as H.
  destruct (GetObjectType _ _) as [[c [e|]]|]; [done| |done].
  destruct (GetObjectTypeByCode io c) as [t|] eqn:Et; [|done].
  eapply sound_bind; [apply dec_sound, zero_typed|]. intros r [Hr Hn].
  split; [|done]. constructor; [|done]. by eapply registered_implement.
Qed.

Lemma decodeString_sound b n v ts : typed (TString n) v → sound (yields (TString n) b) (decodeString validation b v ts).
Proof.
  intros Hv. unfold decodeString. destruct (lengthPrefixType ts) as [lpt|]; [|done].
  destruct (if validation then MinMaxLen ts else (0, 0)) as [mn mx].
  pose proof (ReadString_reads b (NewDeserializer b) lpt
    (producing_bounds "failed to read string value from the deserializer") mn mx (over_new b)) as H.
  destruct (ReadString _ _ _ _ _) as [[d o]|]; [|done]. destruct H as [Hd _].
  assert (∃ s, from_option VString v o = VString s) as [s ->].
  { inversion Hv; subst. destruct o; by eexists. }
  destruct (_ && _); [done|]. apply (done_sound b d _ (typed (TString n))); [done|constructor].
Qed.

Lemma decodeBasedOnType_sound addr b t v ts :
  typed t v → sound (yields t b) (decodeBasedOnType P api validation dec decFields addr b t v ts).
Proof.
  revert addr v ts. induction t as [n|n k|n| | |n|n e IH|n size e IH|n kt IH1 et IH2|e IH|n|n]; intros addr v ts Hv;
    cbn [decodeBasedOnType].
  - eapply read_value_sound; [apply ReadBool_reads, over_new|done|by constructor].
  - eapply read_value_sound; [apply ReadNum_reads, over_new|done|by constructor].
  - by apply decodeString_sound.
  - destruct addr; [|done]. eapply read_value_sound; [apply ReadUint256_reads, over_new|done|by constructor].
  - by apply decodeStruct_sound.
  - by apply decodeStruct_sound.
  - by apply decodeSlice_sound.
  - by apply decodeArray_sound.
  - by apply decodeMap_sound.
  - assert (∃ o, v = VPtr o ∧ typed e (default (zero P e) o)) as (o & -> & Hw).
    { inversion Hv; subst; eexists; (split; [done|]); [apply zero_typed|done]. }
    eapply (sound_bind (yields e b)); [|intros r [? ?]; by split; [constructor|]].
    destruct e; try (by apply IH); try (by apply decodeStruct_sound);
      [by apply decodeSlice_sound|by apply decodeArray_sound|by apply decodeMap_sound|by apply decodeInterface_sound].
  - by apply decodeInterface_sound.
  - done.
Qed.

(** A type that is neither a pointer nor an interface. *)
Lemma receiver_plain t : is_interface t = false → (∀ e, t ≠ TPtr e) → receiver t = t.
Proof. intros _ Hp. destruct t as [| | | | | | | | |e| |]; try done. by destruct (Hp e). Qed.

Lemma method_plain addr t v m rc put rest w n :
  is_interface t = false → (∀ e, t ≠ TPtr e) → typed t v → deserializable P addr t v = Some (m, rc, put) →
  m rc rest = (w, (n, None)) → typed t (put w) ∧ 0 ≤ n ≤ len rest.
Proof.
  intros Hi Hp Ht. pose proof (receiver_plain t Hi Hp) as Er.
  assert (deserializable P addr t v = match Decode_method P t with
    | Some m => Some (m, v, λ w, w)
    | None => if addr then m ← Decode_method P (TPtr t); Some (m, v, λ w : value, w) else None
    end) as -> by (destruct t as [| | | | | | | | |e| |]; try done; by destruct (Hp e)).
  destruct (Decode_method P t) as [m'|] eqn:E.
  - intros [= -> <- <-] Hr. rewrite <-Er. eapply method_typed; try done. by rewrite Er.
  - destruct addr; [|done]. destruct (Decode_method P (TPtr t)) as [m'|] eqn:E'; [|done]. intros [= -> <- <-] Hr.
    by apply (method_typed HP (TPtr t) m v rest w n E').
Qed.

Lemma method_interface addr i dt dv m rc put rest w n :
  implements i dt → typed dt dv → deserializable P addr (TInterface i) (VInterface (Some (dt, dv))) = Some (m, rc, put) →
  m rc rest = (w, (n, None)) → typed (TInterface i) (put w) ∧ 0 ≤ n ≤ len rest.
Proof.
  intros Hi Hdv. destruct dt as [| | | | | | | | |e| |]; cbn [deserializable].
  10: inversion Hdv as [ | | | | | | | | | | |e' E1 E2|e' v Hv E1 E2| | |]; subst.
  10: {
    destruct (Decode_method P (TPtr e)) as [m'|] eqn:E; [|done]. intros [= -> <- <-] Hr.
    destruct (method_nil HP e m rest w n E Hr) as [-> ?]. split; [|done]. by repeat constructor. }
  10: {
    destruct (Decode_method P (TPtr e)) as [m'|] eqn:E; [|done]. intros [= -> <- <-] Hr.
    destruct (method_typed HP (TPtr e) m v rest w n E Hv Hr). split; [|done]. by repeat constructor. }
  all: match goal with |- context [Decode_method P ?t] => destruct (Decode_method P t) as [m'|] eqn:E; [|done] end;
    intros [= -> <- <-] Hr; destruct (method_typed HP _ m dv rest w n E Hdv Hr); split; [|done]; by constructor.
Qed.

Lemma deserializable_typed addr t v m rc put rest w n :
  typed t v → deserializable P addr t v = Some (m, rc, put) → m rc rest = (w, (n, None)) →
  typed t (put w) ∧ 0 ≤ n ≤ len rest.
Proof.
  intros Hv. destruct t as [| | | | | | | | |e|i|]; try (by apply method_plain).
  - assert (∃ o, v = VPtr o ∧ typed e (default (zero P e) o)) as (o & -> & Hw).
    { inversion Hv; subst; eexists; (split; [done|]); [apply zero_typed|done]. }
    cbn [deserializable]. destruct (Decode_method P (TPtr e)) as [m'|] eqn:E; [|done]. intros [= -> <- <-] Hr.
    destruct (method_typed HP (TPtr e) m _ rest w n E Hw Hr). by split; [constructor|].
  - inversion Hv as [ | | | | | | | | | | | | | |i' dt dv Himpl Hdv E1 E2|]; subst; [done|]. by apply method_interface.
Qed.

Lemma decodeDeserializable_sound addr b t v ts x :
  typed t v → deserializable P addr t v = Some x → sound (yields t b) (decodeDeserializable api b t ts x).
Proof.
  intros Hv Hx. destruct x as [[m rc] put]. unfold decodeDeserializable.
  eapply sound_bind; [apply check_object_type_sound, over_new|]. intros d Hd.
  eapply sound_bind; [by apply (rest_sound b)|]. intros rest Hl.
  eapply (sound_bind (λ p, p.2 = offset d)); [unfold done, Done; by destruct (d_err d)|]. intros p Hp.
  destruct (m rc rest) as [w [n [e|]]] eqn:Er; [done|].
  destruct (deserializable_typed _ _ _ _ _ _ _ _ _ Hv Hx Er) as [Hw Hn]. split; [done|]. cbn.
  destruct Hd as [_ [? _]]. rewrite Hp. unfold yields, snd in *. lia.
Qed.

Lemma callSyntacticValidator_sound t v : sound (λ _, True) (callSyntacticValidator api t v).
Proof. unfold callSyntacticValidator, call_validator. repeat case_match; done. Qed.

Lemma decode_layer_sound addr b t v ts :
  typed t v → sound (yields t b) (decode_layer P api validation dec decFields addr b t v ts).
Proof.
  intros Hv. unfold decode_layer.
  assert (∀ m, sound (yields t b) m → sound (yields t b)
    (r <~ m; _ <~ (if validation then wrap_res "post-deserialization validation failed" (callSyntacticValidator api t r.1)
      else ok ()); ok r)) as Hval.
  { intros m Hm. eapply sound_bind; [exact Hm|]. intros r Hr. eapply (sound_bind (λ _, True)); [|done].
    apply sound_if; [|done]. apply sound_wrap, callSyntacticValidator_sound. }
  destruct (deserializable P addr t v) as [x|] eqn:Ex.
  { apply Hval. by eapply decodeDeserializable_sound. }
  destruct (pointer_to_deserializable P t v) as [[e w]|] eqn:Ep.
  - assert (t = TPtr e ∧ typed e w) as [-> Hw].
    { unfold pointer_to_deserializable in Ep. destruct t as [| | | | | | | | |t'| |]; try done.
      inversion Hv as [ | | | | | | | | | | |e' E1 E2|e' v' Hv' E1 E2| | |]; subst; [by destruct t'|].
      destruct t' as [| | | | | | | | |t''| |]; try done. inversion Hv'; subst; destruct (Decode_method _ _); simplify_eq;
        (split; [done|]); constructor; [apply zero_typed|done]. }
    eapply sound_bind; [by apply dec_sound|]. intros r [? ?]. by split; [constructor|].
  - by apply Hval, decodeBasedOnType_sound.
Qed.

End Layer.

Lemma decode_sound_at validation fuel :
  (∀ addr b t v ts, typed t v → sound (yields t b) (decode P api validation fuel addr b t v ts)) ∧
  (∀ b d t v, over b d → typed t v →
    sound (λ r, over b r.1 ∧ typed t r.2) (decodeStructFields P api validation fuel d t v)).
Proof.
  induction fuel as [|fuel [IH1 IH2]]; [done|]. split.
  - intros addr b t v ts Hv. by apply decode_layer_sound.
  - intros b d t v Hd Hv. cbn [decodeStructFields]. destruct (getStructFields P t) as [sfs|e] eqn:E; [|done].
    destruct sfs as [|sf sfs']; [done|]. set (sfs := sf :: sfs') in *.
    destruct t as [| | | | |n| | | | | |]; try done. inversion Hv as [ | | | | |n' vs Hvs E1 E2| | | | | | | | | |]; subst.
    destruct (getStructFields_facts P n sfs E) as [_ Hsfs].
    eapply sound_bind; [by eapply (decode_fields_sound _ _ IH1 IH2 b)|]. intros r [? ?]. by split; [|constructor].
Qed.

(** C3: Decoding is type safe. Whatever the bytes, the settings and the type of the
    destination, [Decode] into a value of the type leaves a value of the type there
    (integers in the range of their type, arrays of their length, structs with the declared
    fields, interfaces holding types that implement them) and reports between zero and all
    of the bytes as read; if it panics, then neither because it met a value of another kind
    than it expected nor because it sliced out of range. Asked ([program_typed]): a method
    [Decode] of the program that returns no error leaves a value of its type in its
    receiver, leaves a nil receiver (a nil pointer in an interface) nil, and reports between
    zero and all of the bytes it got as read; types registered for an interface implement
    it. For what serix reads itself the count is proved; that of a method serix trusts, and
    [method_count_trusted] shows a method that reports too many making [Decode] panic. *)
Theorem Decode_type_safe validation fuel b t v ts :
  typed t v →
  match Decode P api validation fuel b (Some (t, v)) ts with
  | Ret (inl (w, n)) => typed t w ∧ 0 ≤ n ≤ len b
  | Ret (inr _) => True
  | Panic msg => msg ≠ "value of another type" ∧ msg ≠ "slice bounds out of range"
  end.
Proof.
  intros Hv. assert (sound (yields t b) (Decode P api validation fuel b (Some (t, v)) ts)) as H.
  { unfold Decode. destruct (checkDecodeDestination _); [done|]. by apply decode_sound_at. }
  destruct (Decode _ _ _ _ _ _ _) as [[[w n]|e]|msg]; [done|done|].
  cbn in H. unfold tolerated in H. apply andb_true_iff in H as [H1 H2].
  by apply negb_true_iff, bool_decide_eq_false in H1, H2.
Qed.

End Typing.

(** *** The sample program *)

Definition sample_implements (n : tname) (t : rtype) : Prop := n = "Shape"%string ∧ t = TPtr (TStruct "Circle").

Lemma sample_typed : program_typed sample_program sample_api sample_implements.
Proof.
  split.
  - intros t m v b w n. cbn [Decode_method sample_program]. case_bool_decide as E; [|done]. subst t.
    intros [= <-] _. unfold level_Decode. destruct v, b as [|x b]; try done. intros [= <- <-]. split.
    + constructor. pose proof (b2z_range x). cbn. unfold in_range. cbn. lia.
    + unfold len. cbn. lia.
  - intros e m b w n. cbn [Decode_method sample_program]. case_bool_decide as E; [|done]. by intros [= <-].
  - intros n io c t. vm_compute (interfacesRegistry sample_api). cbn [al_get]. case_decide as E; [|done]. intros [= <-].
    unfold GetObjectTypeByCode. cbn. case_decide; [|done]. intros [= <-]. by injection E as <-.
Qed.

(** The count that a method reports is trusted: with a [Decode] that reports five bytes
    for a byte, the second element of a slice starts out of range. *)
Definition greedy_Decode (v : value) (b : list byte) : value * (Z * option error) :=
  (v, (5, None)).

Program Definition greedy_program : program := {|
  fields_of := fields_of sample_program;
  rank_of := rank_of sample_program;
  ranked := ranked sample_program;
  Encode_method := Encode_method sample_program;
  Decode_method t := if bool_decide (t = TPtr Level) then Some greedy_Decode else None;
|}.

Example method_count_trusted :
  Decode greedy_program sample_api true 8 [x02; x05; x05]
    (Some (TPtr (TSlice EmptyString Level), VPtr (Some (VSlice None))))
    (WithMinLen (WithLengthPrefixType NewTypeSettings SeriLengthPrefixTypeAsByte) 1) = Panic "slice bounds out of range".
Proof. vm_compute. reflexivity. Qed.

(** The bytes of the sample, of which the last was cut off, and a new holder. *)
Lemma Decode_type_safe_witness :
  match Decode sample_program sample_api true 8 (take 26 sample_bytes)
          (Some (TPtr (TStruct "Holder"), VPtr (Some (zero sample_program (TStruct "Holder"))))) NewTypeSettings with
  | Ret (inl (w, n)) => typed sample_program sample_implements (TPtr (TStruct "Holder")) w ∧ 0 ≤ n ≤ len (take 26 sample_bytes)
  | Ret (inr _) => True
  | Panic msg => msg ≠ "value of another type" ∧ msg ≠ "slice bounds out of range"
  end.
Proof. apply (Decode_type_safe _ _ _ sample_typed). constructor. apply zero_typed. Defined.
