(* ===== verification/SerixJSON.v ===== *)
(** * serializer/serix: maps for JSON

    [src/serializer/serix/map_encode.go] and [map_decode.go], with [numbers.go]
    and the field keys of [utils.go].  [MapEncode] builds what [json.Marshal]
    takes ([jval]); [MapDecode] walks what [json.Unmarshal] gives ([dval]).

    - An ordered map is the list of its entries, in order; the packages
      [orderedmap] and [hexutil] are parameters ([libraries]), and so is the text
      of floats and the conversion of a float that does not fit.
    - A [float64] that comes from JSON is finite: [DNum m e] is [m * 2 ^ e].
    - The entries of a [map[string]any] are in the order in which [range] visits
      them.
    - As for [encode] and [decode], [fuel] is the depth of the stack, and the
      destination is a value that is returned; types with a method
      [SetDeserializationContext] are not modelled. *)

From S2P Require Import OrderedMap.
From S2P Require Import Prelude Bytes Serializable Serializer Deserializer SerixTypes SerixEncode SerixDecode.

(** ** Values *)

(** Strings are bytes, as they are in Go. *)
Notation text := (list byte).

Definition to_text (s : string) : text := String.list_byte_of_string s.
Definition of_text (s : text) : string := String.string_of_list_byte s.

(** What [mapEncode] returns: [JInt] are the results of [value.Int()] and
    [value.Uint()], [JCode] is an object type as it was registered. *)
Inductive jval : Type :=
  | JNull
  | JBool (b : bool)
  | JInt (z : Z)
  | JCode (c : object_code)
  | JString (s : text)
  | JArray (l : list jval)
  | JObject (entries : list (text * jval)).

(** What [mapDecode] is given; [DUint8] is an element of a string. *)
Inductive dval : Type :=
  | DNull
  | DBool (b : bool)
  | DNum (m e : Z)
  | DString (s : text)
  | DArray (l : list dval)
  | DObject (entries : list (text * dval))
  | DUint8 (b : byte).

(** ** Libraries *)

(** [orderedmap.OrderedMap.Set]; [hexutil.Encode], [Decode], [EncodeBig] (nil is
    [None]) and [DecodeBig]; [strconv.FormatFloat] and [ParseFloat] on the bits of
    a float of the kind; the conversion of [m * 2 ^ e] to a type it is out of
    range of. *)
Record libraries : Type := {
  orderedmap_Set : ∀ A, list (text * A) → text → A → list (text * A);
  hexutil_Encode : list byte → text;
  hexutil_Decode : text → list byte + error;
  hexutil_ErrEmptyString : error;
  hexutil_EncodeBig : option Z → outcome text;
  hexutil_DecodeBig : text → Z + error;
  FormatFloat : number → Z → text;
  ParseFloat : number → text → Z + error;
  convert_overflow : ity → Z → Z → Z;
}.

Arguments orderedmap_Set _ {_} _ _ _.

(** ** Numbers in base 10 *)

Definition digit_byte (d : Z) : byte := z2b (48 + d).

(** Numbers below [10 ^ fuel]. *)
Fixpoint decimal (fuel : nat) (z : Z) : text :=
  match fuel with
  | O => []
  | S fuel => if z <? 10 then [digit_byte z] else decimal fuel (z / 10) ++ [digit_byte (z mod 10)]
  end.

(** [strconv.FormatUint(z, 10)] and [FormatInt]: 20 digits are enough for 64 bits. *)
Definition FormatUint (z : Z) : text := decimal 20 z.

Definition minus : byte := x2d.
Definition plus : byte := x2b.

Definition FormatInt (z : Z) : text := if z <? 0 then minus :: FormatUint (- z) else FormatUint z.

(** [strconv.ParseInt(s, 10, 64)]. *)
Definition ParseInt (s : text) : Z + error :=
  match s with
  | [] => inr ErrSyntax
  | c :: rest =>
      let neg := bool_decide (c = minus) in
      let digits := if neg || bool_decide (c = plus) then rest else s in
      match ParseUint (of_text digits) with
      | inr e => inr e
      | inl un =>
          if negb neg && (un >=? 2 ^ 63) then inr ErrRange
          else if neg && (un >? 2 ^ 63) then inr ErrRange
          else inl (if neg then - un else un)
      end
  end.

(** ** Field keys ([utils.go]) *)

(** [strings.ToLower] of one byte that is no letter of another alphabet. *)
Definition lower (b : byte) : byte := if between 65 90 b then z2b (b2z b + 32) else b.

Fixpoint has_prefix (p s : text) : bool :=
  match p, s with
  | [], _ => true
  | x :: p, y :: s => bool_decide (x = y) && has_prefix p s
  | _, [] => false
  end.

Fixpoint Contains (s p : text) : bool :=
  has_prefix p s || match s with [] => false | _ :: s => Contains s p end.

(** [strings.ReplaceAll] of a keyword that is not empty; [skip] bytes are left of
    the last one that was found. *)
Fixpoint replace_all (old new : text) (skip : nat) (s : text) : text :=
  match s with
  | [] => []
  | c :: rest =>
      match skip with
      | S k => replace_all old new k rest
      | O => if has_prefix old s then new ++ replace_all old new (pred (length old)) rest
             else c :: replace_all old new O rest
      end
  end.

Definition keywords : list text := to_text <$> ["ID"; "NFT"; "URL"; "HRP"]%string.

Definition replace_keyword (str keyword : text) : text :=
  if negb (Contains str keyword) then str
  else replace_all keyword (take 1 keyword ++ drop 1 (lower <$> keyword)) 0 str.

(** A first byte that is no character of its own becomes the replacement character. *)
Definition FieldKeyString (str : text) : outcome text :=
  match foldl replace_keyword str keywords with
  | [] => Panic "slice bounds out of range"
  | c :: rest => Ret ((if b2z c <? 128 then [lower c] else [xef; xbf; xbd]) ++ rest)
  end.

(** ** Methods *)

(** The methods [EncodeJSON() (any, error)] and [DecodeJSON(any) error] of the types
    of the program, as [Encode_method] and [Decode_method]. *)
Record json_methods : Type := {
  EncodeJSON_method : rtype → option (value → jval * option error);
  DecodeJSON_method : rtype → option (value → dval → value * option error);
}.

Definition keyType : text := to_text "type".
Definition keyDefaultSliceArray : text := to_text "data".

Section JSON.
Context (L : libraries) (P : program) (M : json_methods) (api : API) (validation : bool).

(** ** [numbers.go] *)

Definition EncodeHex (b : list byte) : text :=
  match b with [] => [] | _ => hexutil_Encode L b end.

Definition DecodeHex (s : text) : list byte + error :=
  match hexutil_Decode L s with
  | inr e => if Is e (hexutil_ErrEmptyString L) then inl [] else inr e
  | inl b => inl b
  end.

Definition EncodeUint256 (n : option Z) : outcome text := hexutil_EncodeBig L n.
Definition DecodeUint256 (s : text) : Z + error := hexutil_DecodeBig L s.
Definition EncodeUint64 (n : Z) : text := FormatUint n.
Definition DecodeUint64 (s : text) : Z + error := ParseUint (of_text s).

(** The key of a field: that of its tag, or its name in camel case. *)
Definition field_key (sField : structField) : outcome text :=
  match fieldKey (tag_ts (settings sField)) with
  | Some k => Ret (to_text k)
  | None => FieldKeyString (to_text (sf_name sField))
  end.

(** ** Encoding *)

(** [reflect.Value.IsZero]; a kind serix does not handle counts as not zero. *)
Fixpoint IsZero (v : value) : bool :=
  match v with
  | VBool b => negb b
  | VInt z => z =? 0
  | VFloat32 bits | VFloat64 bits => bits =? 0
  | VString s => bool_decide (s = [])
  | VBigInt o => bool_decide (o = None)
  | VTime t => t =? -62135596800 * 1000000000
  | VStruct vs | VArray vs => forallb IsZero vs
  | VBytes o => bool_decide (o = None)
  | VByteArray b => forallb (λ x, bool_decide (x = x00)) b
  | VSlice o => match o with None => true | _ => false end
  | VMap o => match o with None => true | _ => false end
  | VPtr o => match o with None => true | _ => false end
  | VInterface o => match o with None => true | _ => false end
  | VOther => false
  end.

Definition isValueEmpty (v : value) : bool :=
  if IsZero v then true
  else match v with
       | VBytes b => bool_decide (default [] b = [])
       | VSlice es => match default [] es with [] => true | _ => false end
       | _ => false
       end.

(** The slice that [sliceFromArray] copies an array to. *)
Definition sliceFromArray (v : value) : value :=
  match v with
  | VByteArray b => VBytes (Some b)
  | VArray es => VSlice (Some es)
  | _ => v
  end.

(** [value.Bytes()] of a slice, whose elements may be of a declared byte type. *)
Definition slice_Bytes (elem : rtype) (v : value) : outcome (list byte) :=
  match v, elem with
  | VBytes b, _ => Ret (default [] b)
  | VSlice es, TNum _ (NumInt U8) =>
      Ret ((λ x, match x with VInt z => z2b z | _ => x00 end) <$> default [] es)
  | _, _ => Panic "reflect.Value.Bytes of non-byte slice"
  end.

(** The [EncodeJSON] method of what the value holds. *)
Definition serializableJSON (t : rtype) (v : value) : option (jval * option error) :=
  match dynamic t v with
  | (TInterface _, _) => None
  | (TPtr e, VPtr (Some w)) => m ← EncodeJSON_method M (TPtr e); Some (m w)
  | (dt, dv) => m ← EncodeJSON_method M dt; Some (m dv)
  end.

Section EncodeLayer.
Context (enc : rtype → value → TypeSettings → res jval).
Context (encFields : list (text * jval) → rtype → value → res (list (text * jval))).

Definition Set_key (obj : list (text * jval)) (k : text) (e : jval) : list (text * jval) := orderedmap_Set L obj k e.

(** The object type in front of the fields. *)
Definition type_entry (ts : TypeSettings) : list (text * jval) :=
  match objectType ts with Some c => Set_key [] keyType (JCode c) | None => [] end.

Definition map_encode_field (obj : list (text * jval)) (sField : structField) (fieldValue : value) :
    res (list (text * jval)) :=
  if isEmbedded sField && negb (inlined (settings sField)) then
    match embedded (fType sField) fieldValue with
    | None => ok obj
    | Some (fieldType, fieldValue) =>
        wrap_res "can't serialize embedded struct %s" (encFields obj fieldType fieldValue)
    end
  else if omitEmpty (settings sField) && isValueEmpty fieldValue then ok obj
  else if isOptional (settings sField) && is_nil fieldValue then ok obj
  else
    eleOut <~ wrap_res "failed to serialize optional struct field %s"
      (enc (fType sField) fieldValue (tag_ts (settings sField)));
    match fieldKey (tag_ts (settings sField)) with
    | Some k => ok (Set_key obj (to_text k) eleOut)
    | None =>
        if inlined (settings sField) then
          match eleOut with
          | JObject casted => ok (foldl (λ obj kv, Set_key obj kv.1 kv.2) obj casted)
          | _ => fail (ErrNew "failed to cast inlined struct field %s to map")
          end
        else
          k <~ lift (FieldKeyString (to_text (sf_name sField)));
          ok (Set_key obj k eleOut)
    end.

Fixpoint map_encode_fields (obj : list (text * jval)) (sfs : list structField) (fields : list value) :
    res (list (text * jval)) :=
  match sfs with
  | [] => ok obj
  | sField :: sfs =>
      match fields !! sf_index sField with
      | None => ill_typed
      | Some fieldValue =>
          obj <~ map_encode_field obj sField fieldValue;
          map_encode_fields obj sfs fields
      end
  end.

Definition mapEncodeStruct (t : rtype) (v : value) (ts : TypeSettings) : res jval :=
  match t, v with
  | TTime, VTime time => ok (JString (FormatUint (TimeToUint64 time)))
  | TStruct _, _ =>
      obj <~ encFields (type_entry ts) t v;
      ok (JObject obj)
  | _, _ => ill_typed
  end.

Fixpoint map_encode_elems (elem : rtype) (elems : list value) : res (list jval) :=
  match elems with
  | [] => ok []
  | v :: elems =>
      e <~ wrap_res "failed to encode element with index %d of slice %s" (enc elem v NewTypeSettings);
      data <~ map_encode_elems elem elems;
      ok (e :: data)
  end.

Definition check_length (ts : TypeSettings) (n : Z) : res () :=
  if validation then wrap_res "can't serialize '%s' type" (of_option (checkMinMaxBoundsLength ts n)) else ok ().

Definition mapEncodeSlice (elem : rtype) (v : value) (ts : TypeSettings) : res jval :=
  match objectType ts with
  | Some c =>
      b <~ lift (slice_Bytes elem v);
      let key := from_option to_text keyDefaultSliceArray (fieldKey ts) in
      ok (JObject (Set_key (Set_key [] keyType (JCode c)) key (JString (EncodeHex b))))
  | None =>
      match v with
      | VBytes b =>
          _ <~ check_length ts (len (default [] b));
          ok (JString (EncodeHex (default [] b)))
      | VSlice es =>
          _ <~ check_length ts (len (default [] es));
          _ <~ (if validation then
                  wrap_res "can't serialize '%s' type" (checkArrayMustOccur api elem (default [] es) ts)
                else ok ());
          data <~ map_encode_elems elem (default [] es);
          ok (JArray data)
      | _ => ill_typed
      end
  end.

Definition mapEncodeMapKVPair (kt et : rtype) (kv : value * value) : res (text * jval) :=
  match GetByValue (typeSettingsRegistry api) kt kv.1 None,
        GetByValue (typeSettingsRegistry api) et kv.2 None with
  | Ret keyTS, Ret valueTS =>
      k <~ wrap_res "failed to encode map key of type %s" (enc kt kv.1 keyTS);
      v <~ wrap_res "failed to encode map element of type %s" (enc et kv.2 valueTS);
      match k with JString s => ok (s, v) | _ => Panic "interface conversion" end
  | Panic msg, _ | _, Panic msg => Panic msg
  end.

Fixpoint map_encode_pairs (kt et : rtype) (m : list (text * jval)) (entries : list (value * value)) :
    res (list (text * jval)) :=
  match entries with
  | [] => ok m
  | kv :: entries =>
      x <~ mapEncodeMapKVPair kt et kv;
      map_encode_pairs kt et (Set_key m x.1 x.2) entries
  end.

Definition mapEncodeMap (kt et : rtype) (v : value) (ts : TypeSettings) : res jval :=
  match v with
  | VMap entries =>
      _ <~ (if validation then of_option (checkMinMaxBounds ts v) else ok ());
      m <~ map_encode_pairs kt et [] (default [] entries);
      ok (JObject m)
  | _ => ill_typed
  end.

(** The settings of the value are those of its type, not of the interface. *)
Definition mapEncodeInterface (t : rtype) (v : value) : res jval :=
  match v with
  | VInterface None => fail (ErrNew "can't serialize interface %s it must have underlying value")
  | VInterface (Some (elemType, elemValue)) =>
      match al_get t (interfacesRegistry api) with
      | None => fail (ErrNew "interface %s isn't registered")
      | Some registry =>
          if negb (HasObjectType registry elemType) then
            fail (ErrWrap ErrInterfaceUnderlyingTypeNotRegistered "type: %s, interface: %s")
          else
            wrap_res "failed to encode interface element %s"
              (enc elemType elemValue (default NewTypeSettings (GetByType (typeSettingsRegistry api) elemType)))
      end
  | _ => ill_typed
  end.

Definition mapEncodeString (s : text) (ts : TypeSettings) : res jval :=
  _ <~ check_length ts (len s);
  if validation && negb (ValidString s) then fail ErrNonUTF8String else ok (JString s).

Definition mapEncodeNum (k : number) (v : value) : res jval :=
  match k, v with
  | NumInt I64, VInt z => ok (JString (FormatInt z))
  | NumInt U64, VInt z => ok (JString (FormatUint z))
  | NumInt _, VInt z => ok (JInt z)
  | NumFloat32, VFloat32 bits | NumFloat64, VFloat64 bits => ok (JString (FormatFloat L k bits))
  | _, _ => ill_typed
  end.

Definition mapEncodeBasedOnType (t : rtype) (v : value) (ts : TypeSettings) : res jval :=
  let ts := merged api ts t in
  match t with
  | TBigIntPtr =>
      match v with
      | VBigInt z => s <~ lift (EncodeUint256 z); ok (JString s)
      | _ => ill_typed
      end
  | TPtr e =>
      match v with
      | VPtr None => fail (ErrNew "unexpected nil pointer for type %T")
      | VPtr (Some w) =>
          match e with
          | TStruct _ | TTime => mapEncodeStruct e w ts
          | TArray _ _ elem =>
              mapEncodeSlice elem (sliceFromArray w) (default NewTypeSettings (GetByType (typeSettingsRegistry api) t))
          | _ => unsupported
          end
      | _ => ill_typed
      end
  | TStruct _ | TTime => mapEncodeStruct t v ts
  | TSlice _ elem => mapEncodeSlice elem v ts
  | TMap _ kt et => mapEncodeMap kt et v ts
  | TArray _ _ elem => mapEncodeSlice elem (sliceFromArray v) ts
  | TInterface _ => mapEncodeInterface t v
  | TString _ => match v with VString s => mapEncodeString s ts | _ => ill_typed end
  | TBool _ => match v with VBool b => ok (JBool b) | _ => ill_typed end
  | TNum _ k => mapEncodeNum k v
  | TOther _ => unsupported
  end.

Definition map_encode_layer (t : rtype) (v : value) (ts : TypeSettings) : res jval :=
  _ <~ (if validation then
          wrap_res "pre-serialization validation failed" (callSyntacticValidator api t v)
        else ok ());
  match serializableJSON t v with
  | Some (e, None) => ok e
  | Some (_, Some err) => fail (ErrWrap err "object failed to serialize itself")
  | None => mapEncodeBasedOnType t v ts
  end.

End EncodeLayer.

(** [mapEncode] and [mapEncodeStructFields] on a stack of depth [fuel]. *)
Fixpoint mapEncode (fuel : nat) (t : rtype) (v : value) (ts : TypeSettings) : res jval :=
  match fuel with
  | O => stack_overflow
  | S fuel => map_encode_layer (mapEncode fuel) (mapEncodeStructFields fuel) t v ts
  end
with mapEncodeStructFields (fuel : nat) (obj : list (text * jval)) (t : rtype) (v : value) :
    res (list (text * jval)) :=
  match fuel with
  | O => stack_overflow
  | S fuel =>
      match getStructFields P t with
      | inr e => fail (ErrWrap e "can't parse struct type %s")
      | inl [] => ok obj
      | inl sfs =>
          match v with
          | VStruct fields => map_encode_fields (mapEncode fuel) (mapEncodeStructFields fuel) obj sfs fields
          | _ => ill_typed
          end
      end
  end.

(** [API.MapEncode]: the result must be a map. *)
Definition MapEncode (fuel : nat) (obj : option (rtype * value)) (optTS : TypeSettings) :
    res (list (text * jval)) :=
  match obj with
  | None => fail (ErrNew "invalid value for destination")
  | Some (t, v) =>
      m <~ mapEncode fuel t v optTS;
      match m with
      | JObject entries => ok entries
      | _ => fail (ErrNew "failed to cast to *orderedmap.OrderedMap")
      end
  end.

(** ** Decoding *)

(** [T(v)] of a float. *)
Definition float_to (T : ity) (m e : Z) : Z :=
  let z := if e <? 0 then Z.quot m (2 ^ (- e)) else m * 2 ^ e in
  if bool_decide (in_range T z) then z else convert_overflow L T m e.

(** Go's [mapVal.(T)] without a second result. *)
Definition assert_string (d : dval) : outcome text :=
  match d with DString s => Ret s | _ => Panic "interface conversion: interface {} is not string" end.
Definition assert_float (d : dval) : outcome (Z * Z) :=
  match d with DNum m e => Ret (m, e) | _ => Panic "interface conversion: interface {} is not float64" end.
Definition assert_map (d : dval) : outcome (list (text * dval)) :=
  match d with DObject m => Ret m | _ => Panic "interface conversion: interface {} is not map[string]interface {}" end.

(** Kinds that need an addressable destination. *)
Definition addressed {A} (addr : bool) (m : res A) : res A :=
  if addr then m else Panic "reflect.Value.Addr of unaddressable value".

Section DecodeLayer.
Context (dec : bool → dval → rtype → value → TypeSettings → res value).
Context (decFields : list (text * dval) → rtype → value → res value).

Definition no_map {A} : res A := fail (ErrNew "non map[string]any in struct map decode, got %T instead").

Definition map_decode_embedded (m : list (text * dval)) (sField : structField) (fieldValue : value) : res value :=
  let nil_unexported :=
    fail (ErrNew "embedded field %s is a nil pointer, can't initialize because it's unexported") in
  match fType sField, fieldValue with
  | TPtr e, VPtr o =>
      if is_nil fieldValue && isUnexported sField then nil_unexported
      else
        r <~ wrap_res "can't deserialize embedded struct %s" (decFields m e (default (zero P e) o));
        ok (VPtr (Some r))
  | TBigIntPtr, VBigInt o =>
      if is_nil fieldValue && isUnexported sField then nil_unexported
      else
        _ <~ wrap_res "can't deserialize embedded struct %s" (decFields m (TOther "big.Int") VOther);
        ok (VBigInt (Some (default 0 o)))
  | t, v => wrap_res "can't deserialize embedded struct %s" (decFields m t v)
  end.

(** What becomes of a field that has no entry. *)
Definition missing_field (v : value) : value :=
  match v with
  | VBytes None => VBytes (Some [])
  | VSlice None => VSlice (Some [])
  | _ => v
  end.

Definition map_decode_field (m : list (text * dval)) (sField : structField) (fieldValue : value) : res value :=
  if isEmbedded sField && negb (inlined (settings sField)) then map_decode_embedded m sField fieldValue
  else if inlined (settings sField) then
    wrap_res "failed to deserialize inlined struct field %s"
      (dec true (DObject m) (fType sField) fieldValue (tag_ts (settings sField)))
  else
    k <~ lift (FieldKeyString (to_text (sf_name sField)));
    let k := from_option to_text k (fieldKey (tag_ts (settings sField))) in
    match al_get k m with
    | None =>
        if isOptional (settings sField) || omitEmpty (settings sField) then ok (missing_field fieldValue)
        else fail (ErrNew "missing map entry for field %s")
    | Some mapVal =>
        wrap_res "failed to deserialize struct field %s"
          (dec true mapVal (fType sField) fieldValue (tag_ts (settings sField)))
    end.

Fixpoint map_decode_fields (m : list (text * dval)) (sfs : list structField) (fields : list value) :
    res (list value) :=
  match sfs with
  | [] => ok fields
  | sField :: sfs =>
      match fields !! sf_index sField with
      | None => ill_typed
      | Some fieldValue =>
          x <~ map_decode_field m sField fieldValue;
          map_decode_fields m sfs (<[sf_index sField := x]> fields)
      end
  end.

(** The object type of a map must be the registered one. *)
Definition check_map_type (m : list (text * dval)) (ts : TypeSettings) : res () :=
  match objectType ts with
  | None => ok ()
  | Some c =>
      x <~ getTypeDenotationAndCode (Some c);
      match al_get keyType m with
      | None => fail (ErrNew "missing type key in struct")
      | Some (DNum f e) =>
          if float_to U32 f e =? x.2 then ok ()
          else fail (ErrNew "map type key (%d) not equal registered object code (%d)")
      | Some _ => fail (ErrNew "map type key (%d) not equal registered object code (%d)")
      end
  end.

Definition mapDecodeStruct (d : dval) (t : rtype) (v : value) (ts : TypeSettings) : res value :=
  match t with
  | TTime =>
      s <~ lift (assert_string d);
      match ParseUint (of_text s) with
      | inr e => fail (ErrWrap e "unable to parse time %s map value")
      | inl nanoTime => ok (VTime (wrap I64 nanoTime))
      end
  | TStruct _ =>
      match d with
      | DObject m => _ <~ check_map_type m ts; decFields m t v
      | _ => no_map
      end
  | _ => ill_typed
  end.

(** The elements of [reflect.ValueOf(mapVal)]. *)
Definition elements (d : dval) : outcome (list dval) :=
  match d with
  | DArray l => Ret l
  | DString s => Ret (DUint8 <$> s)
  | DObject [] => Ret []
  | DObject _ => Panic "reflect: call of reflect.Value.Index on map Value"
  | _ => Panic "reflect: call of reflect.Value.Len"
  end.

(** Appending to a slice that was made from an array is not possible. *)
Fixpoint map_decode_elems (settable : bool) (elem : rtype) (es : option (list value)) (ds : list dval) :
    res (option (list value)) :=
  match ds with
  | [] => ok es
  | d :: ds =>
      x <~ dec true d elem (zero P elem) NewTypeSettings;
      if settable then map_decode_elems settable elem (Some (default [] es ++ [x])) ds
      else Panic "reflect: reflect.Value.Set using unaddressable value"
  end.

Definition map_decode_objects (settable : bool) (d : dval) (elem : rtype) (es : option (list value))
    (ts : TypeSettings) : res (list value) :=
  ds <~ lift (elements d);
  es <~ map_decode_elems settable elem es ds;
  _ <~ (if validation then
          wrap_res "can't serialize '%s' type" (of_option (checkMinMaxBounds ts (VSlice es)))
        else ok ());
  let es := default [] es in
  _ <~ (if validation then wrap_res "can't deserialize '%s' type" (checkArrayMustOccur api elem es ts) else ok ());
  ok es.

Definition check_bytes (ts : TypeSettings) (b : list byte) : res () :=
  if validation then wrap_res "can't deserialize '%s' type" (of_option (checkMinMaxBoundsLength ts (len b)))
  else ok ().

Definition decode_hex (s : text) : res (list byte) :=
  match DecodeHex s with
  | inr e => fail (ErrWrap e "failed to read byte slice from map")
  | inl b => ok b
  end.

Definition mapDecodeSlice (d : dval) (elem : rtype) (v : value) (ts : TypeSettings) : res value :=
  match v with
  | VBytes _ =>
      s <~ lift (assert_string d);
      b <~ decode_hex s;
      _ <~ check_bytes ts b;
      ok (VBytes (Some b))
  | VSlice es => es <~ map_decode_objects true d elem es ts; ok (VSlice (Some es))
  | _ => ill_typed
  end.

(** [copy(old, new)] and back into the array. *)
Definition copy_into (old new : list byte) : list byte := take (length old) new ++ drop (length new) old.

Definition mapDecodeArray (d : dval) (elem : rtype) (v : value) (ts : TypeSettings) : res value :=
  match v with
  | VByteArray old =>
      s <~ lift (assert_string d);
      b <~ decode_hex s;
      ok (VByteArray (copy_into old b))
  | VArray es => _ <~ map_decode_objects false d elem (Some es) ts; ok v
  | _ => ill_typed
  end.

(** A pointer to an array of bytes is the entry of an object; its object type is not
    looked at. *)
Definition map_decode_array_ptr (d : dval) (t elem : rtype) (v : value) (ts : TypeSettings) : res value :=
  match v with
  | VByteArray old =>
      match GetByType (typeSettingsRegistry api) t with
      | None => fail (ErrNew "missing type settings for interface %s")
      | Some innerTS =>
          let key := from_option to_text keyDefaultSliceArray (fieldKey innerTS) in
          m <~ lift (assert_map d);
          s <~ lift (assert_string (default DNull (al_get key m)));
          b <~ decode_hex s;
          _ <~ check_bytes ts b;
          ok (VByteArray (copy_into old b))
      end
  | VArray es => _ <~ map_decode_objects false d elem (Some es) ts; ok v
  | _ => ill_typed
  end.

Fixpoint map_decode_pairs (kt et : rtype) (entries : list (value * value)) (m : list (text * dval)) :
    res (list (value * value)) :=
  match m with
  | [] => ok entries
  | (k, v) :: m =>
      match GetByValue (typeSettingsRegistry api) kt (zero P kt) None,
            GetByValue (typeSettingsRegistry api) et (zero P et) None with
      | Ret keyTS, Ret valueTS =>
          key <~ wrap_res "failed to map decode map key of type %s" (dec true (DString k) kt (zero P kt) keyTS);
          if negb (hashable key) then Panic "runtime error: hash of unhashable type"
          else if existsb (λ kv, key_eqb kv.1 key) entries then
            fail (ErrWrap ErrMapValidationViolatesUniqueness "map entry with key %v already exists")
          else
            elem <~ wrap_res "failed to map decode map element of type %s" (dec true v et (zero P et) valueTS);
            map_decode_pairs kt et (entries ++ [(key, elem)]) m
      | Panic msg, _ | _, Panic msg => Panic msg
      end
  end.

Definition mapDecodeMap (d : dval) (kt et : rtype) (v : value) (ts : TypeSettings) : res value :=
  match v with
  | VMap entries =>
      match d with
      | DObject m =>
          entries <~ map_decode_pairs kt et (default [] entries) m;
          let v := VMap (Some entries) in
          _ <~ (if validation then of_option (checkMinMaxBounds ts v) else ok ());
          ok v
      | _ => no_map
      end
  | _ => ill_typed
  end.

Definition mapDecodeInterface (d : dval) (t : rtype) (ts : TypeSettings) : res value :=
  match al_get t (interfacesRegistry api) with
  | None => fail (ErrNew "interface %s hasn't been registered")
  | Some iObjects =>
      match d with
      | DObject m =>
          match al_get keyType m with
          | None => fail (ErrNew "no object type defined in map for interface %s")
          | Some code =>
              f <~ lift (assert_float code);
              match GetObjectTypeByCode iObjects (float_to U32 f.1 f.2) with
              | None => fail (ErrWrap ErrInterfaceUnderlyingTypeNotRegistered "object code: %d, interface: %s")
              | Some objectT =>
                  r <~ dec true d objectT (zero P objectT) ts;
                  ok (VInterface (Some (objectT, r)))
              end
          end
      | _ => no_map
      end
  end.

Definition mapDecodeString (d : dval) (ts : TypeSettings) : res value :=
  match d with
  | DString s =>
      _ <~ check_bytes ts s;
      if validation && negb (ValidString s) then fail ErrNonUTF8String else ok (VString s)
  | _ => fail (ErrNew "non string value for string field")
  end.

Definition strNumParser (s : text) (signed : bool) : Z + error :=
  if signed then ParseInt s else ParseUint (of_text s).

(** [mapDecodeNum] with the parser of the kind, and [mapDecodeFloat]. *)
Definition mapDecodeNum (k : number) (d : dval) : res value :=
  match k with
  | NumInt ((I64 | U64) as T) =>
      s <~ lift (assert_string d);
      match strNumParser s (bool_decide (T = I64)) with inr e => fail e | inl z => ok (VInt z) end
  | NumInt T => f <~ lift (assert_float d); ok (VInt (float_to T f.1 f.2))
  | NumFloat32 | NumFloat64 =>
      s <~ lift (assert_string d);
      match ParseFloat L k s with
      | inr e => fail e
      | inl bits => ok (if bool_decide (k = NumFloat32) then VFloat32 bits else VFloat64 bits)
      end
  end.

Definition mapDecodeBasedOnType (addr : bool) (d : dval) (t : rtype) (v : value) (ts : TypeSettings) : res value :=
  let ts := merged api ts t in
  match t with
  | TBigIntPtr =>
      match d with
      | DString s =>
          match DecodeUint256 s with
          | inr e => fail (ErrWrap e "failed to read big.Int from map")
          | inl z => addressed addr (ok (VBigInt (Some z)))
          end
      | _ => fail (ErrNew "non string value in map when decoding a big.Int, got %T instead")
      end
  | TPtr e =>
      match v with
      | VPtr o =>
          let w := default (zero P e) o in
          r <~ match e with
               | TStruct _ | TTime => mapDecodeStruct d e w ts
               | TInterface _ => mapDecodeInterface d e ts
               | TArray _ _ elem => map_decode_array_ptr d t elem w ts
               | _ => fail (ErrNew "can't map decode: unsupported type %s")
               end;
          ok (VPtr (Some r))
      | _ => ill_typed
      end
  | TStruct _ | TTime => mapDecodeStruct d t v ts
  | TSlice _ elem => mapDecodeSlice d elem v ts
  | TMap _ kt et => mapDecodeMap d kt et v ts
  | TArray _ _ elem => mapDecodeArray d elem v ts
  | TInterface _ => mapDecodeInterface d t ts
  | TString _ => mapDecodeString d ts
  | TBool _ => match d with DBool b => ok (VBool b) | _ => Panic "reflect.Set: value is not assignable to type bool" end
  | TNum _ k => mapDecodeNum k d
  | TOther _ => fail (ErrNew "can't map decode: unsupported type %s")
  end.

(** The [DecodeJSON] method, its receiver, and the destination with a new receiver. *)
Definition deserializableJSON (addr : bool) (t : rtype) (v : value) :
    option ((value → dval → value * option error) * value * (value → value)) :=
  match t, v with
  | TPtr e, VPtr o =>
      match DecodeJSON_method M (TPtr e) with
      | Some m => Some (m, default (zero P e) o, λ w, VPtr (Some w))
      | None => None
      end
  | TInterface _, VInterface (Some (TPtr e, VPtr (Some w))) =>
      m ← DecodeJSON_method M (TPtr e); Some (m, w, λ w, VInterface (Some (TPtr e, VPtr (Some w))))
  | TInterface _, VInterface (Some (dt, dv)) =>
      m ← DecodeJSON_method M dt; Some (m, dv, λ w, VInterface (Some (dt, w)))
  | TInterface _, _ => None
  | _, _ =>
      match DecodeJSON_method M t with
      | Some m => Some (m, v, λ w, w)
      | None =>
          if addr then m ← DecodeJSON_method M (TPtr t); Some (m, v, λ w, w) else None
      end
  end.

Definition map_decode_layer (addr : bool) (d : dval) (t : rtype) (v : value) (ts : TypeSettings) : res value :=
  r <~ match deserializableJSON addr t v with
       | Some (m, receiver, put) =>
           match m receiver d with
           | (_, Some e) => fail e
           | (w, None) => ok (put w)
           end
       | None => mapDecodeBasedOnType addr d t v ts
       end;
  _ <~ (if validation then
          wrap_res "post-serialization validation failed" (callSyntacticValidator api t r)
        else ok ());
  ok r.

End DecodeLayer.

(** [mapDecode] and [mapDecodeStructFields] on a stack of depth [fuel]. *)
Fixpoint mapDecode (fuel : nat) (addr : bool) (d : dval) (t : rtype) (v : value) (ts : TypeSettings) : res value :=
  match fuel with
  | O => stack_overflow
  | S fuel => map_decode_layer (mapDecode fuel) (mapDecodeStructFields fuel) addr d t v ts
  end
with mapDecodeStructFields (fuel : nat) (m : list (text * dval)) (t : rtype) (v : value) : res value :=
  match fuel with
  | O => stack_overflow
  | S fuel =>
      match getStructFields P t with
      | inr e => fail (ErrWrap e "can't parse struct type %s")
      | inl [] => ok v
      | inl sfs =>
          match v with
          | VStruct fields =>
              fs <~ map_decode_fields (mapDecode fuel) (mapDecodeStructFields fuel) m sfs fields;
              ok (VStruct fs)
          | _ => ill_typed
          end
      end
  end.

(** [API.MapDecode] *)
Definition MapDecode (fuel : nat) (m : list (text * dval)) (obj : option (rtype * value)) (optTS : TypeSettings) :
    res value :=
  match checkDecodeDestination obj, obj with
  | Some e, _ => fail e
  | None, Some (t, v) => mapDecode fuel false (DObject m) t v optTS
  | None, None => ill_typed
  end.

End JSON.
