(* ===== verification/SerixJSONRoundtrip.v ===== *)
(** * serializer/serix: decoding the JSON of what was encoded

    What [mapEncode] builds becomes JSON and comes back ([via_json]); [mapDecode]
    makes the encoded value of it, up to what the format does not keep
    ([SerixRoundtrip.back]). *)

From S2P Require Import OrderedMap.
From S2P Require Import Prelude Bytes Serializable Serializer Deserializer SerializerFields SerializerObjects.
From S2P Require Import SerixTypes SerixEncode SerixDecode SerixRoundtrip SerixJSON.

(** ** Through JSON *)

(** [json.Unmarshal] of what [json.Marshal] wrote: numbers become floats, which are
    exact up to [2 ^ 53]; strings are kept if they are UTF-8; the entries of an object
    are visited in any order.  What becomes of other numbers and strings is left
    open. *)
Fixpoint via_json (e : jval) (d : dval) {struct e} : Prop :=
  let fix all (es : list jval) (ds : list dval) : Prop :=
    match es, ds with
    | [], [] => True
    | e :: es, d :: ds => via_json e d ∧ all es ds
    | _, _ => False
    end in
  let fix entries (es : list (text * jval)) (ds : list (text * dval)) : Prop :=
    match es, ds with
    | [], [] => True
    | (k, e) :: es, (k', d) :: ds => k' = k ∧ via_json e d ∧ entries es ds
    | _, _ => False
    end in
  match e with
  | JNull => d = DNull
  | JBool b => d = DBool b
  | JInt z => - 2 ^ 53 ≤ z ≤ 2 ^ 53 → d = DNum z 0
  | JCode (ObjectCode false (NInt _ z)) => - 2 ^ 53 ≤ z ≤ 2 ^ 53 → d = DNum z 0
  | JCode _ => True
  | JString s => ValidString s = true → d = DString s
  | JArray es => ∃ ds, d = DArray ds ∧ all es ds
  | JObject es =>
      forallb (λ kv, ValidString kv.1) es = true → NoDup es.*1 →
      ∃ ds ds0, d = DObject ds ∧ ds ≡ₚ ds0 ∧ entries es ds0
  end.

Lemma via_array es d : via_json (JArray es) d ↔ ∃ ds, d = DArray ds ∧ Forall2 via_json es ds.
Proof.
  cbn [via_json]. split.
  - intros (ds & -> & H). exists ds. split; [done|]. revert ds H.
    induction es as [|e es IH]; intros [|d ds] H; try done. destruct H. constructor; auto.
  - intros (ds & -> & H). exists ds. split; [done|]. induction H; [done|]. by split.
Qed.

Lemma via_object es d :
  via_json (JObject es) d → forallb (λ kv, ValidString kv.1) es = true → NoDup es.*1 →
  ∃ ds ds0, d = DObject ds ∧ ds ≡ₚ ds0 ∧ Forall2 (λ x y, y.1 = x.1 ∧ via_json x.2 y.2) es ds0.
Proof.
  cbn [via_json]. intros H Hv Hn. destruct (H Hv Hn) as (ds & ds0 & -> & Hp & Hall). exists ds, ds0.
  split_and!; [done..|]. clear -Hall. revert ds0 Hall. induction es as [|[k e] es IH]; intros [|[k' d] ds] Hall; try done.
  destruct Hall as (-> & ? & ?). by constructor; [|apply IH].
Qed.

(** ** What is asked of the libraries *)

Definition is_nan (k : number) (bits : Z) : bool :=
  match k with
  | NumFloat32 => (Z.land bits (2 ^ 31 - 2 ^ 23) =? 2 ^ 31 - 2 ^ 23) && negb (Z.land bits (2 ^ 23 - 1) =? 0)
  | _ => (Z.land bits (2 ^ 63 - 2 ^ 52) =? 2 ^ 63 - 2 ^ 52) && negb (Z.land bits (2 ^ 52 - 1) =? 0)
  end.

(** A map keeps what is set under a key, and one entry for each key; what was
    written in hexadecimal or as a decimal is read back, and is ASCII. *)
Record libraries_lawful (L : libraries) : Prop := {
  law_set_get A (m : list (text * A)) k a k' :
    al_get k' (orderedmap_Set L m k a) = if decide (k = k') then Some a else al_get k' m;
  law_set_keys A (m : list (text * A)) k a : NoDup m.*1 → NoDup (orderedmap_Set L m k a).*1;
  law_hex b : b ≠ [] → hexutil_Decode L (hexutil_Encode L b) = inl b ∧ ValidString (hexutil_Encode L b) = true;
  law_hex_empty : ∃ e, hexutil_Decode L [] = inr e ∧ Is e (hexutil_ErrEmptyString L) = true;
  law_big z : 0 ≤ z < 2 ^ 256 →
    ∃ s, hexutil_EncodeBig L (Some z) = Ret s ∧ hexutil_DecodeBig L s = inl z ∧ ValidString s = true;
  law_float k bits : 0 ≤ bits < (if bool_decide (k = NumFloat32) then 2 ^ 32 else 2 ^ 64) → is_nan k bits = false →
    ParseFloat L k (FormatFloat L k bits) = inl bits ∧ ValidString (FormatFloat L k bits) = true;
}.

(** ** Numbers *)

Lemma of_text_app s s' : of_text (s ++ s') = (of_text s ++ of_text s')%string.
Proof.
  unfold of_text, String.string_of_list_byte. rewrite map_app. induction s as [|b s IH]; [done|]. cbn. by rewrite IH.
Qed.

Lemma of_to_text s : of_text (to_text s) = s.
Proof. apply String.string_of_list_byte_of_string. Qed.

Lemma to_text_inj s s' : to_text s = to_text s' → s = s'.
Proof. intros H. by rewrite <-(of_to_text s), H, of_to_text. Qed.

Lemma string_app_assoc (a b c : string) : ((a ++ b) ++ c = a ++ (b ++ c))%string.
Proof. induction a as [|x a IH]; [done|]. exact (f_equal (String x) IH). Qed.

Lemma string_app_empty_r (a : string) : (a ++ EmptyString = a)%string.
Proof. induction a as [|x a IH]; [done|]. exact (f_equal (String x) IH). Qed.

Lemma digit_of_byte d : 0 ≤ d < 10 → digit_of (Ascii.ascii_of_byte (digit_byte d)) = Some d.
Proof.
  intros H. assert (d = 0 ∨ d = 1 ∨ d = 2 ∨ d = 3 ∨ d = 4 ∨ d = 5 ∨ d = 6 ∨ d = 7 ∨ d = 8 ∨ d = 9) as Hd by lia.
  by repeat destruct Hd as [->|Hd]; [..|subst].
Qed.

Lemma parse_decimal fuel z s :
  0 ≤ z ≤ ity_max U64 → z < 10 ^ Z.of_nat fuel →
  parse_digits 0 (of_text (decimal fuel z) ++ s)%string = parse_digits z s.
Proof.
  revert z s. induction fuel as [|fuel IH]; intros z s Hz Hlt; [cbn in Hlt; by replace z with 0 by lia|]. cbn [decimal].
  assert (∀ n d, 0 ≤ d < 10 → n * 10 + d ≤ ity_max U64 →
    parse_digits n (String (Ascii.ascii_of_byte (digit_byte d)) s) = parse_digits (n * 10 + d) s) as Hdigit.
  { intros n d Hd Hn. cbn [parse_digits]. rewrite digit_of_byte by done. rewrite Z.gtb_ltb. by rewrite (proj2 (Z.ltb_ge _ _)). }
  destruct (Z.ltb_spec z 10).
  - change (of_text [digit_byte z] ++ s)%string with (String (Ascii.ascii_of_byte (digit_byte z)) s).
    rewrite Hdigit by lia. by rewrite Z.mul_0_l, Z.add_0_l.
  - pose proof (Z.mod_pos_bound z 10 ltac:(lia)). pose proof (Z.div_mod z 10 ltac:(lia)).
    pose proof (Z.div_pos z 10 ltac:(lia) ltac:(lia)).
    assert (z / 10 < 10 ^ Z.of_nat fuel).
    { apply Z.div_lt_upper_bound; [lia|]. rewrite Nat2Z.inj_succ, Z.pow_succ_r in Hlt by lia. lia. }
    rewrite of_text_app, string_app_assoc, IH by lia.
    change (of_text [digit_byte (z mod 10)] ++ s)%string with (String (Ascii.ascii_of_byte (digit_byte (z mod 10))) s).
    rewrite Hdigit by lia. f_equal. lia.
Qed.

Lemma decimal_cons k z : ∃ b s, decimal (S k) z = b :: s.
Proof.
  cbn [decimal]. destruct (z <? 10); [by eexists _, _|]. destruct (decimal k (z / 10)); by eexists _, _.
Qed.

Lemma ParseUint_FormatUint z : in_range U64 z → ParseUint (of_text (FormatUint z)) = inl z.
Proof.
  intros [Hz0 Hz1]. assert (z < 10 ^ Z.of_nat 20) as Hlt .
  { assert (10 ^ Z.of_nat 20 = 100000000000000000000) as -> by (vm_compute; reflexivity). ity_consts. lia. }
  pose proof (parse_decimal 20 z EmptyString (conj Hz0 Hz1) Hlt) as H. unfold FormatUint.
  rewrite string_app_empty_r in H. unfold ParseUint.
  rewrite H.
  by destruct (decimal_cons 19 z) as (b & s & ->).
Qed.

(** *** ASCII *)

Lemma ascii_valid s : Forall (λ b, b2z b < 128) s → ValidString s = true.
Proof. induction 1 as [|b s Hb _ IH]; [done|]. cbn [ValidString]. by rewrite (proj2 (Z.ltb_lt _ _)) by done. Qed.

Lemma decimal_ascii fuel z : 0 ≤ z → Forall (λ b, 48 ≤ b2z b < 58) (decimal fuel z).
Proof.
  revert z. induction fuel as [|fuel IH]; intros z Hz; [constructor|]. cbn [decimal].
  assert (∀ d, 0 ≤ d < 10 → 48 ≤ b2z (digit_byte d) < 58) as Hd.
  { intros d Hd. unfold digit_byte. rewrite b2z_z2b, Z.mod_small; lia. }
  destruct (Z.ltb_spec z 10); [constructor; [apply Hd; lia|constructor]|].
  apply Forall_app. split; [apply IH, Z.div_pos; lia|]. constructor; [|constructor]. apply Hd, Z.mod_pos_bound. lia.
Qed.

Lemma FormatUint_valid z : 0 ≤ z → ValidString (FormatUint z) = true.
Proof. intros Hz. apply ascii_valid. eapply Forall_impl; [by apply (decimal_ascii 20)|]. cbn. lia. Qed.

Lemma FormatUint_head z : 0 ≤ z → ∃ b s, FormatUint z = b :: s ∧ b ≠ minus ∧ b ≠ plus.
Proof.
  intros Hz. pose proof (decimal_ascii 20 z Hz) as Ha. unfold FormatUint.
  destruct (decimal_cons 19 z) as (b & s & E). rewrite E in *. apply Forall_cons in Ha as [Hb _].
  exists b, s. split; [done|]. split; intros ->; vm_compute in Hb; by destruct Hb.
Qed.

Lemma ParseInt_FormatInt z :
  in_range I64 z → ParseInt (FormatInt z) = inl z ∧ ValidString (FormatInt z) = true.
Proof.
  intros Hz. unfold in_range in Hz. unfold FormatInt. destruct (Z.ltb_spec z 0).
  - split; [|apply (FormatUint_valid (- z)); lia]. unfold ParseInt. rewrite bool_decide_eq_true_2 by done. cbn [orb negb andb].
    rewrite ParseUint_FormatUint by (unfold in_range; ity_consts; lia). rewrite Z.gtb_ltb.
    rewrite (proj2 (Z.ltb_ge _ _)) by (ity_consts; lia). f_equal. lia.
  - split; [|apply FormatUint_valid; lia]. destruct (FormatUint_head z) as (b & s & E & Hm & Hp); [done|].
    pose proof (ParseUint_FormatUint z ltac:(unfold in_range; ity_consts; lia)) as Hu. unfold ParseInt. rewrite E in *.
    rewrite !bool_decide_eq_false_2 by done. cbn [orb negb andb]. rewrite Hu. rewrite Z.geb_leb.
    by rewrite (proj2 (Z.leb_gt _ _)) by (ity_consts; lia).
Qed.

Lemma float_to_exact L T z : in_range T z → float_to L T z 0 = z.
Proof. intros Hz. unfold float_to. cbn [Z.ltb Z.compare]. rewrite Z.pow_0_r, Z.mul_1_r. by rewrite bool_decide_eq_true_2. Qed.

(** *** Hexadecimal *)

Lemma hex_back L b : libraries_lawful L → DecodeHex L (EncodeHex L b) = inl b ∧ ValidString (EncodeHex L b) = true.
Proof.
  intros HL. unfold DecodeHex, EncodeHex. destruct b as [|x b].
  - destruct (law_hex_empty L HL) as (e & -> & ->). done.
  - destruct (law_hex L HL (x :: b) ltac:(done)) as [-> ->]. done.
Qed.

(** ** Entries *)

Lemma al_get_member {A} (es : list (text * A)) k a : al_get k es = Some a → (k, a) ∈ es.
Proof.
  induction es as [|[k' b] es IH]; cbn; [done|]. case_decide as E; [intros [= ->]; subst; by left|]. intros H. right. auto.
Qed.

Lemma al_get_key {A} (es : list (text * A)) k a : al_get k es = Some a → k ∈ es.*1.
Proof. intros H%al_get_member. apply list_elem_of_fmap. by exists (k, a). Qed.

Lemma elem_al_get {A} (es : list (text * A)) k a : NoDup es.*1 → (k, a) ∈ es → al_get k es = Some a.
Proof.
  induction es as [|[k' b] es IH]; cbn; [set_solver|]. intros [Hk Hn]%NoDup_cons [Heq|Hin]%elem_of_cons.
  - injection Heq as -> ->. by rewrite decide_True.
  - rewrite decide_False; [by apply IH|]. intros ->. apply Hk, list_elem_of_fmap. by exists (k, a).
Qed.

Lemma al_get_perm {A} (es es' : list (text * A)) k : NoDup es.*1 → es ≡ₚ es' → al_get k es = al_get k es'.
Proof.
  intros Hn Hp. assert (NoDup es'.*1) as Hn' by (by rewrite <-Hp). destruct (al_get k es) as [a|] eqn:E.
  - symmetry. apply elem_al_get; [done|]. rewrite <-Hp. by apply al_get_member.
  - destruct (al_get k es') as [a|] eqn:E'; [|done]. apply al_get_member in E'. rewrite <-Hp in E'.
    by rewrite (elem_al_get _ _ _ Hn E') in E.
Qed.

(** The entries under these keys come from those, and no others. *)
Definition agrees (ks : list text) (es : list (text * jval)) (ds : list (text * dval)) : Prop :=
  ∀ k, k ∈ ks →
    match al_get k es with
    | Some e => ∃ d, al_get k ds = Some d ∧ via_json e d
    | None => al_get k ds = None
    end.

Lemma agrees_get ks es ds k e :
  agrees ks es ds → k ∈ ks → al_get k es = Some e → ∃ d, al_get k ds = Some d ∧ via_json e d.
Proof. intros Ha Hk He. specialize (Ha k Hk). by rewrite He in Ha. Qed.

Lemma agrees_same ks es es' ds :
  agrees ks es ds → (∀ k, k ∈ ks → al_get k es' = al_get k es) → agrees ks es' ds.
Proof. intros Ha He k Hk. rewrite He by done. by apply Ha. Qed.

Lemma via_agrees es d ks :
  via_json (JObject es) d → NoDup es.*1 → (∀ k, k ∈ es.*1 → k ∈ ks) → Forall (λ k, ValidString k = true) ks →
  ∃ ds, d = DObject ds ∧ agrees ks es ds.
Proof.
  intros Hv Hn Hks Hval. destruct (via_object es d Hv) as (ds & ds0 & -> & Hp & Hall); [|done|].
  { apply forallb_forall. intros [k e] Hin%list_elem_of_In. apply (proj1 (Forall_forall _ _) Hval), Hks.
    apply list_elem_of_fmap. by exists (k, e). }
  exists ds. split; [done|]. intros k _.
  assert (ds0.*1 = es.*1) as Hk.
  { clear -Hall. induction Hall as [|x y ? ? [? _] _ IH]; [done|]. rewrite !fmap_cons. congruence. }
  rewrite (al_get_perm ds ds0 k) by (done || by rewrite Hp, Hk).
  clear -Hall. induction Hall as [|[k1 e1] [k2 d2] es ds0 [E Hv] _ IH]; cbn in *; [done|]. subst k2.
  case_decide; [by exists d2|exact IH].
Qed.

Section Roundtrip.
Context (L : libraries) (P : program) (M : json_methods) (api : API) (validation : bool).

(** The registered settings of a type. *)
Notation registered t := (default NewTypeSettings (GetByType (typeSettingsRegistry api) t)).

(** The keys under which a pointer to an array of bytes is written. *)
Definition array_key (t : rtype) : text := from_option to_text keyDefaultSliceArray (fieldKey (registered t)).

Definition code_key (ts : TypeSettings) : list text :=
  match objectType ts with Some _ => [keyType] | None => [] end.

(** ** The keys of an object *)

(** Values that are written as an object with known keys: structs, pointers to arrays of
    bytes, and interfaces that hold them. *)
Section Keys.
Context (K : rtype → value → TypeSettings → option (list text)) (KF : rtype → value → option (list text)).

Definition field_keys (sf : structField) (v : value) : option (list text) :=
  if isEmbedded sf && negb (inlined (settings sf)) then
    match embedded (fType sf) v with Some (t, w) => KF t w | None => None end
  else if inlined (settings sf) then K (fType sf) v (tag_ts (settings sf))
  else match field_key sf with Ret k => Some [k] | Panic _ => None end.

Fixpoint fields_keys (sfs : list structField) (fs : list value) : option (list text) :=
  match sfs with
  | [] => Some []
  | sf :: sfs =>
      match fs !! sf_index sf with
      | None => None
      | Some v =>
          match field_keys sf v, fields_keys sfs fs with
          | Some ks, Some ks' => Some (ks ++ ks')
          | _, _ => None
          end
      end
  end.

Definition keys_layer (t : rtype) (v : value) (ts : TypeSettings) : option (list text) :=
  match serializableJSON M t v with
  | Some _ => None
  | None =>
      match t, v with
      | TStruct _, _ => app (code_key (merged api ts t)) <$> KF t v
      | TPtr (TStruct n), VPtr (Some w) => app (code_key (merged api ts t)) <$> KF (TStruct n) w
      | TPtr (TArray _ _ _), VPtr (Some (VByteArray _)) => Some [keyType; array_key t]
      | TInterface _, VInterface (Some (dt, dv)) => K dt dv (registered dt)
      | _, _ => None
      end
  end.

End Keys.

Fixpoint keys (n : nat) (t : rtype) (v : value) (ts : TypeSettings) : option (list text) :=
  match n with
  | O => None
  | S n => keys_layer (keys n) (struct_keys n) t v ts
  end
with struct_keys (n : nat) (t : rtype) (v : value) : option (list text) :=
  match n with
  | O => None
  | S n =>
      match getStructFields P t, v with
      | inl sfs, VStruct fs => fields_keys (keys n) (struct_keys n) sfs fs
      | _, _ => None
      end
  end.

(** ** Values that can be read back *)

Definition same_rules (a b : TypeSettings) : Prop := objectType a = objectType b ∧ arrayRules a = arrayRules b.

(** A value that an omitted field stands for. *)
Definition empty_of (t : rtype) (v : value) : Prop :=
  v = zero P t ∨
  match t, v with
  | TSlice _ e, VBytes (Some []) => is_byte e = true
  | TSlice _ e, VSlice (Some []) => is_byte e = false
  | _, _ => False
  end.

Definition omitted (sf : structField) (v : value) : bool :=
  omitEmpty (settings sf) && isValueEmpty v || isOptional (settings sf) && is_nil v.

Section Layer.
Context (W : rtype → value → TypeSettings → Prop) (WF : rtype → value → Prop).
Context (E : rtype → value → TypeSettings → res jval).
Context (K : rtype → value → TypeSettings → option (list text)) (KF : rtype → value → option (list text)).

Definition wf_field_json (sf : structField) (v : value) : Prop :=
  if isEmbedded sf && negb (inlined (settings sf)) then
    match fType sf, v with
    | TStruct n, _ => WF (TStruct n) v
    | TPtr (TStruct n), VPtr (Some w) => isUnexported sf = false ∧ WF (TStruct n) w
    | _, _ => False
    end
  else
    sf_name sf ≠ EmptyString ∧
    if omitted sf v then inlined (settings sf) = false ∧ empty_of (fType sf) v
    else W (fType sf) v (tag_ts (settings sf)) ∧
      (inlined (settings sf) = true → fieldKey (tag_ts (settings sf)) = None).

Definition wf_fields_json (t : rtype) (v : value) : Prop :=
  match t, v with
  | TStruct n, VStruct fs =>
      length fs = length (fields_of P n) ∧
      ∀ sfs sf v, getStructFields P t = inl sfs → sf ∈ sfs → fs !! sf_index sf = Some v → wf_field_json sf v
  | _, _ => False
  end.

(** Keys that an object can have. *)
Definition good_keys (ks : option (list text)) : Prop :=
  ∃ l, ks = Some l ∧ NoDup l ∧ Forall (λ k, ValidString k = true) l.

Definition wf_entries_json (kt et : rtype) (entries : list (value * value)) : Prop :=
  ∃ kts ets,
    Forall (λ kv, same_settings P api kt kv.1 kts ∧ same_settings P api et kv.2 ets ∧
              W kt kv.1 kts ∧ W et kv.2 ets) entries ∧
    Forall (λ kv, ∀ k', back P api kt kts kv.1 k' → hashable k' = true) entries ∧
    (∀ i j a b ka kb, entries !! i = Some a → entries !! j = Some b → i ≠ j →
      back P api kt kts a.1 ka → back P api kt kts b.1 kb → key_eqb ka kb = false) ∧
    (∀ kv s, kv ∈ entries → E kt kv.1 kts = Ret (inl (JString s)) → ValidString s = true) ∧
    (∀ i j a b, entries !! i = Some a → entries !! j = Some b → i ≠ j → E kt a.1 kts ≠ E kt b.1 kts).

(** The code that is written for the value of an interface finds its type. *)
Definition code_finds_json (io : InterfaceObjects) (ts : TypeSettings) (t : rtype) : Prop :=
  match objectType ts with
  | Some (ObjectCode false (NInt _ z)) => in_range U32 z ∧ GetObjectTypeByCode io z = Some t
  | _ => False
  end.

Definition wf_type_json (t : rtype) (v : value) (ts : TypeSettings) : Prop :=
  match t, v with
  | TBool _, VBool _ => True
  | TNum _ (NumInt T), VInt z => in_range T z
  | TNum _ NumFloat32, VFloat32 bits => 0 ≤ bits < 2 ^ 32 ∧ is_nan NumFloat32 bits = false
  | TNum _ NumFloat64, VFloat64 bits => 0 ≤ bits < 2 ^ 64 ∧ is_nan NumFloat64 bits = false
  | TString _, VString s => ValidString s = true
  | TBigIntPtr, VBigInt (Some z) => 0 ≤ z < 2 ^ 256
  | TTime, VTime time | TPtr TTime, VPtr (Some (VTime time)) => 0 ≤ time ≤ ity_max I64
  | TStruct n, _ => WF t v ∧ code_ok (merged api ts t) ∧ good_keys (keys_layer K KF t v ts)
  | TPtr (TStruct n), VPtr (Some w) =>
      WF (TStruct n) w ∧ code_ok (merged api ts t) ∧ good_keys (keys_layer K KF t v ts)
  | TSlice _ e, VBytes _ => is_byte e = true ∧ objectType (merged api ts t) = None
  | TSlice _ e, VSlice es =>
      is_byte e = false ∧ objectType (merged api ts t) = None ∧
      Forall (λ x, W e x NewTypeSettings) (default [] es)
  | TArray _ size e, VByteArray b =>
      is_byte e = true ∧ length b = size ∧ objectType (merged api ts t) = None
  | TPtr (TArray _ size e), VPtr (Some (VByteArray b)) =>
      is_byte e = true ∧ length b = size ∧ is_Some (objectType (registered t)) ∧
      keyType ≠ array_key t ∧ ValidString (array_key t) = true ∧
      (validation = true → checkMinMaxBoundsLength (merged api ts t) (len b) = None)
  | TMap _ kt et, VMap es => wf_entries_json kt et (default [] es)
  | TInterface _, VInterface (Some (dt, dv)) =>
      ∃ io, al_get t (interfacesRegistry api) = Some io ∧ is_interface dt = false ∧
        code_finds_json io (registered dt) dt ∧
        same_rules (merged api (registered dt) dt) (merged api (merged api ts t) dt) ∧
        is_Some (K dt dv (registered dt)) ∧ W dt dv (registered dt)
  | _, _ => False
  end.

Definition wf_layer_json (t : rtype) (v : value) (ts : TypeSettings) : Prop :=
  match serializableJSON M t v with
  | Some _ =>
      match t, v with
      | TPtr _, VPtr (Some _) => True
      | TPtr _, _ | TInterface _, _ => False
      | _, _ => True
      end
  | None => wf_type_json t v ts
  end.

End Layer.

(** Well-formed at a depth, as the value is encoded at that depth. *)
Fixpoint wf_json (n : nat) (t : rtype) (v : value) (ts : TypeSettings) : Prop :=
  match n with
  | O => False
  | S n => wf_layer_json (wf_json n) (wf_struct_json n) (mapEncode L P M api validation n) (keys n) (struct_keys n) t v ts
  end
with wf_struct_json (n : nat) (t : rtype) (v : value) : Prop :=
  match n with
  | O => False
  | S n => wf_fields_json (wf_json n) (wf_struct_json n) t v
  end.

(** ** What is asked of the program *)

(** Types with a method [EncodeJSON] read back what they wrote, and types without one
    have no [DecodeJSON]. *)
Record json_methods_lawful : Prop := {
  jlaw_interface n : DecodeJSON_method M (TInterface n) = None ∧ DecodeJSON_method M (TPtr (TInterface n)) = None;
  jlaw_none t : is_ptr t = false → EncodeJSON_method M t = None →
    DecodeJSON_method M t = None ∧ DecodeJSON_method M (TPtr t) = None;
  jlaw_none_ptr t : is_ptr t = true → EncodeJSON_method M t = None → DecodeJSON_method M t = None;
  jlaw_no_double t : is_ptr t = true → DecodeJSON_method M (TPtr t) = None;
  jlaw_value t m v e : is_ptr t = false → EncodeJSON_method M t = Some m → m v = (e, None) →
    DecodeJSON_method M t = None ∧
    ∃ m', DecodeJSON_method M (TPtr t) = Some m' ∧ ∀ d, via_json e d → m' (zero P t) d = (v, None);
  jlaw_ptr t m w e : EncodeJSON_method M (TPtr t) = Some m → m w = (e, None) →
    ∃ m', DecodeJSON_method M (TPtr t) = Some m' ∧ ∀ d, via_json e d → m' (zero P t) d = (w, None);
  jlaw_bigint : EncodeJSON_method M TBigIntPtr = None;
}.

Hypothesis HL : libraries_lawful L.
Hypothesis Hmethods : json_methods_lawful.
Hypothesis Hvalidators : validators_lawful P api.

(** ** Setting entries *)

Lemma Set_get o k e k' : al_get k' (Set_key L o k e) = if decide (k = k') then Some e else al_get k' o.
Proof. apply law_set_get, HL. Qed.

Lemma Set_nodup o k e : NoDup o.*1 → NoDup (Set_key L o k e).*1.
Proof. apply law_set_keys, HL. Qed.

Lemma Set_keys o k e k' : k' ∈ (Set_key L o k e).*1 → NoDup o.*1 → k' = k ∨ k' ∈ o.*1.
Proof.
  intros Hin Hn. apply list_elem_of_fmap in Hin as ([k1 e1] & -> & Hin). cbn.
  apply (elem_al_get _ _ _ (Set_nodup o k e Hn)) in Hin. rewrite Set_get in Hin.
  case_decide; [by left|right]. by eapply al_get_key.
Qed.

Lemma Set_all_get (es : list (text * jval)) o k :
  NoDup es.*1 →
  al_get k (foldl (λ o kv, Set_key L o kv.1 kv.2) o es) =
    match al_get k es with Some e => Some e | None => al_get k o end.
Proof.
  revert o. induction es as [|[k' e] es IH]; intros o Hn; [done|]. rewrite fmap_cons in Hn.
  apply NoDup_cons in Hn as [Hk Hn]. cbn [foldl al_get fst snd] in *. rewrite IH, Set_get by done.
  destruct (decide (k' = k)) as [->|]; [|done].
  rewrite (al_get_None k es) by done. done.
Qed.

Lemma Set_all_nodup (es : list (text * jval)) o :
  NoDup o.*1 → NoDup (foldl (λ o kv, Set_key L o kv.1 kv.2) o es).*1.
Proof. revert o. induction es as [|[k e] es IH]; intros o Ho; [done|]. by apply IH, Set_nodup. Qed.

(** ** Field keys *)

Lemma replace_keyword_cons s kw : s ≠ [] → kw ≠ [] → replace_keyword s kw ≠ [].
Proof.
  intros Hs Hk. unfold replace_keyword. destruct (negb _); [done|]. destruct s as [|c s]; [done|].
  cbn [replace_all]. destruct (has_prefix kw (c :: s)); [|done]. by destruct kw.
Qed.

Lemma FieldKeyString_ret s : s ≠ [] → ∃ k, FieldKeyString s = Ret k.
Proof.
  intros Hs. unfold FieldKeyString.
  assert (foldl replace_keyword s keywords ≠ []) as H.
  { cbn [foldl keywords fmap list_fmap]. by repeat apply replace_keyword_cons. }
  destruct (foldl replace_keyword s keywords); [done|]. by eexists.
Qed.

Lemma to_text_cons s : s ≠ EmptyString → to_text s ≠ [].
Proof. by destruct s. Qed.

Section Layers.
Context (W : rtype → value → TypeSettings → Prop) (WF : rtype → value → Prop).
Context (E : rtype → value → TypeSettings → res jval).
Context (EF : list (text * jval) → rtype → value → res (list (text * jval))).
Context (D : bool → dval → rtype → value → TypeSettings → res value).
Context (DF : list (text * dval) → rtype → value → res value).
Context (K : rtype → value → TypeSettings → option (list text)) (KF : rtype → value → option (list text)).

(** What an object is made of: its entries are under its keys, with the code of its
    type, and it is read from every object that agrees with it on them. *)
Definition reads_object (Dec : dval → res value) (t : rtype) (v : value) (ts : TypeSettings) (e : jval) (ks : list text) : Prop :=
  Forall (λ k, ValidString k = true) ks ∧ NoDup ks ∧
  ∃ es, e = JObject es ∧ NoDup es.*1 ∧ (∀ k, k ∈ es.*1 → k ∈ ks) ∧
    (ts = registered t → is_interface t = false → ∀ c, objectType ts = Some c → al_get keyType es = Some (JCode c)) ∧
    ∀ ds, agrees ks es ds → ∃ v', back P api t ts v v' ∧ Dec (DObject ds) = Ret (inl v').

Definition reads_json (t : rtype) (v : value) (ts : TypeSettings) : Prop :=
  ∀ e, E t v ts = Ret (inl e) →
    (∀ d, via_json e d → ∃ v', back P api t ts v v' ∧ D true d t (zero P t) ts = Ret (inl v')) ∧
    (∀ ks, K t v ts = Some ks → reads_object (λ d, D true d t (zero P t) ts) t v ts e ks).

Definition fields_read_json (t : rtype) (v : value) : Prop :=
  ∀ o o' ks, KF t v = Some ks → NoDup ks → (∀ k, k ∈ ks → al_get k o = None) → EF o t v = Ret (inl o') →
    (∀ k, k ∉ ks → al_get k o' = al_get k o) ∧ (NoDup o.*1 → NoDup o'.*1) ∧
    ∀ ds, agrees ks o' ds → ∃ v', (∀ ts, back P api t ts v v') ∧ DF ds t (zero P t) = Ret (inl v').

Hypothesis HE : ∀ t v ts, W t v ts → reads_json t v ts.
Hypothesis HF : ∀ t v, WF t v → fields_read_json t v.
Hypothesis HD : ∀ addr d t v ts ts', same_rules (merged api ts t) (merged api ts' t) → D addr d t v ts = D addr d t v ts'.

(** *** Structs *)

(** A field that is encoded into an object, and read from one. *)
Definition field_reads (sf : structField) (v : value) (ks : list text) (o o' : list (text * jval)) : Prop :=
  (∀ k, k ∉ ks → al_get k o' = al_get k o) ∧ (NoDup o.*1 → NoDup o'.*1) ∧
  ∀ ds, agrees ks o' ds → ∃ v', back P api (fType sf) (tag_ts (settings sf)) v v' ∧
    map_decode_field P D DF ds sf (zero P (fType sf)) = Ret (inl v').

Lemma embedded_reads sf v ks o o' :
  wf_field_json W WF sf v → isEmbedded sf && negb (inlined (settings sf)) = true →
  field_keys K KF sf v = Some ks → NoDup ks → (∀ k, k ∈ ks → al_get k o = None) →
  map_encode_field L E EF o sf v = Ret (inl o') → field_reads sf v ks o o'.
Proof.
  unfold wf_field_json, field_keys, map_encode_field, field_reads, map_decode_field, map_decode_embedded.
  intros Hw Hemb. rewrite Hemb in *. intros Hks Hn Ho.
  destruct (fType sf) as [| | | | |n| | | |e| |]; try done.
  - cbn [embedded] in *. intros He%wrap_res_ok. destruct (HF _ _ Hw o o' ks Hks Hn Ho He) as (Hfr & Hnd & Hd).
    split_and!; [done..|]. intros ds Ha. destruct (Hd ds Ha) as (v' & Hb & Hdec). exists v'. split; [done|]. by rewrite Hdec.
  - destruct e as [| | | | |n| | | | | |]; try done. destruct v as [| | | | | | | | | | | | |[w|]| |]; try done.
    destruct Hw as [Hun Hw]. cbn [embedded] in *. intros He%wrap_res_ok.
    destruct (HF _ _ Hw o o' ks Hks Hn Ho He) as (Hfr & Hnd & Hd).
    split_and!; [done..|]. intros ds Ha. destruct (Hd ds Ha) as (v' & Hb & Hdec). exists (VPtr (Some v')).
    split; [by constructor|]. rewrite Hun, andb_false_r, zero_ptr. cbn [default]. by rewrite Hdec.
Qed.

Lemma missing_back t v ts : empty_of t v → back P api t ts v (missing_field (zero P t)).
Proof.
  intros [->|Hv].
  - destruct t as [| | | | | |n e| | | | |]; try (cbn; constructor); try (by rewrite ?zero_struct, ?zero_ptr; constructor).
    + destruct k; constructor.
    + rewrite zero_slice. destruct (is_byte e); cbn; [apply (back_bytes _ _ _ _ _ None)|].
      by apply (back_slice _ _ _ _ _ None []).
    + rewrite zero_array. destruct (is_byte t); cbn; constructor.
  - destruct t as [| | | | | |n e| | | | |]; try done. rewrite zero_slice.
    destruct v as [| | | | | | | |[[|]|]| |[[|]|]| | | | |]; try done; rewrite Hv; cbn.
    + apply (back_bytes _ _ _ _ _ (Some [])).
    + by apply (back_slice _ _ _ _ _ (Some []) []).
Qed.

Lemma omitted_reads sf v k o :
  isEmbedded sf && negb (inlined (settings sf)) = false → inlined (settings sf) = false →
  omitted sf v = true → empty_of (fType sf) v → sf_name sf ≠ EmptyString → field_key sf = Ret k →
  al_get k o = None → field_reads sf v [k] o o.
Proof.
  intros Hemb Hinl Hom Hv Hname Hk Ho. split_and!; [done..|]. intros ds Ha. exists (missing_field (zero P (fType sf))).
  split; [by apply missing_back|]. unfold map_decode_field. rewrite Hemb, Hinl.
  destruct (FieldKeyString_ret _ (to_text_cons _ Hname)) as (k0 & Ek). rewrite Ek. cbn [lift bind_res ok].
  assert (from_option to_text k0 (fieldKey (tag_ts (settings sf))) = k) as ->.
  { unfold field_key in Hk. destruct (fieldKey _); cbn; congruence. }
  specialize (Ha k ltac:(by left)). rewrite Ho in Ha. rewrite Ha.
  assert (isOptional (settings sf) || omitEmpty (settings sf) = true) as ->; [|done].
  unfold omitted in Hom. destruct (isOptional _), (omitEmpty _); done.
Qed.

Lemma inlined_reads sf v ks o o' :
  isEmbedded sf && negb (inlined (settings sf)) = false → inlined (settings sf) = true →
  fieldKey (tag_ts (settings sf)) = None → W (fType sf) v (tag_ts (settings sf)) → omitted sf v = false →
  K (fType sf) v (tag_ts (settings sf)) = Some ks → (∀ k, k ∈ ks → al_get k o = None) →
  map_encode_field L E EF o sf v = Ret (inl o') → field_reads sf v ks o o'.
Proof.
  intros Hemb Hinl Hfk Hw Hom Hks Ho. unfold map_encode_field, field_reads, map_decode_field. rewrite Hemb, Hinl, Hfk.
  unfold omitted in Hom. apply orb_false_iff in Hom as [-> ->].
  intros (e & He%wrap_res_ok & Hes)%bind_res_ok.
  destruct (HE _ _ _ Hw e He) as [_ Hobj]. destruct (Hobj ks Hks) as (_ & _ & es & -> & Hn & Hkeys & _ & Hd).
  injection Hes as <-. split_and!.
  - intros k Hk. rewrite Set_all_get by done. destruct (al_get k es) as [e|] eqn:Ek; [|done].
    by apply al_get_key, Hkeys in Ek.
  - intros. by apply Set_all_nodup.
  - intros ds Ha. destruct (Hd ds) as (v' & Hb & Hdec).
    { eapply agrees_same; [exact Ha|]. intros k Hk. rewrite Set_all_get by done.
      destruct (al_get k es); [done|]. symmetry. by apply Ho. }
    exists v'. split; [done|]. by rewrite Hdec.
Qed.

Lemma plain_reads sf v k o o' :
  isEmbedded sf && negb (inlined (settings sf)) = false → inlined (settings sf) = false →
  W (fType sf) v (tag_ts (settings sf)) → omitted sf v = false → sf_name sf ≠ EmptyString → field_key sf = Ret k →
  map_encode_field L E EF o sf v = Ret (inl o') → field_reads sf v [k] o o'.
Proof.
  intros Hemb Hinl Hw Hom Hname Hk. unfold map_encode_field, field_reads, map_decode_field. rewrite Hemb, Hinl.
  unfold omitted in Hom. apply orb_false_iff in Hom as [-> ->].
  intros (e & He%wrap_res_ok & Hes)%bind_res_ok.
  destruct (HE _ _ _ Hw e He) as [Hread _].
  destruct (FieldKeyString_ret _ (to_text_cons _ Hname)) as (k0 & Ek). rewrite Ek in *. cbn [lift bind_res ok] in *.
  assert (o' = Set_key L o k e ∧ from_option to_text k0 (fieldKey (tag_ts (settings sf))) = k) as [-> ->].
  { unfold field_key in Hk. rewrite Ek in Hk. destruct (fieldKey _); injection Hes as <-; by injection Hk as <-. }
  split_and!.
  - intros k' Hk'. rewrite Set_get, decide_False; [done|]. set_solver.
  - apply Set_nodup.
  - intros ds Ha. destruct (agrees_get _ _ _ k e Ha ltac:(by left)) as (d & Hd & Hvia).
    { by rewrite Set_get, decide_True. }
    rewrite Hd. destruct (Hread d Hvia) as (v' & Hb & ->). by exists v'.
Qed.

Lemma field_reads_back sf v ks o o' :
  wf_field_json W WF sf v → field_keys K KF sf v = Some ks → NoDup ks → (∀ k, k ∈ ks → al_get k o = None) →
  map_encode_field L E EF o sf v = Ret (inl o') → field_reads sf v ks o o'.
Proof.
  intros Hw Hks Hn Ho He. destruct (isEmbedded sf && negb (inlined (settings sf))) eqn:Hemb; [by eapply embedded_reads|].
  unfold wf_field_json, field_keys in Hw, Hks. rewrite Hemb in *. destruct Hw as [Hname Hw].
  destruct (inlined (settings sf)) eqn:Hinl.
  - destruct (omitted sf v) eqn:Hom; [by destruct Hw|]. destruct Hw as [Hw Hfk].
    apply inlined_reads; auto. by rewrite Hinl.
  - destruct (field_key sf) as [k|] eqn:Hk; [|done]. injection Hks as <-. destruct (omitted sf v) eqn:Hom.
    + destruct Hw as [_ Hv]. assert (o' = o) as ->.
      { unfold map_encode_field in He. rewrite Hinl, Hemb in He. unfold omitted in Hom.
        apply orb_true_iff in Hom as [H|H]; rewrite H in He; [by injection He|].
        destruct (omitEmpty (settings sf) && isValueEmpty v); by injection He. }
      eapply omitted_reads; eauto; [by rewrite Hinl|]. apply Ho. by left.
    + destruct Hw as [Hw _]. eapply plain_reads; eauto. by rewrite Hinl.
Qed.

(** The fields in turn: those of [sfs] come back, the others stay as they are. *)
Lemma fields_encoded sfs fs o o' ks :
  (∀ sf v, sf ∈ sfs → fs !! sf_index sf = Some v → wf_field_json W WF sf v) →
  fields_keys K KF sfs fs = Some ks → NoDup ks → (∀ k, k ∈ ks → al_get k o = None) →
  map_encode_fields L E EF o sfs fs = Ret (inl o') →
  (∀ k, k ∉ ks → al_get k o' = al_get k o) ∧ (NoDup o.*1 → NoDup o'.*1) ∧
  ∀ ds, agrees ks o' ds →
    ∀ sf v, sf ∈ sfs → fs !! sf_index sf = Some v → ∃ v', back P api (fType sf) (tag_ts (settings sf)) v v' ∧
      map_decode_field P D DF ds sf (zero P (fType sf)) = Ret (inl v').
Proof.
  revert o ks. induction sfs as [|sf sfs IH]; intros o ks Hwf; cbn [fields_keys map_encode_fields].
  { intros [= <-] _ _ [= <-]. split_and!; [done..|]. intros ds _ sf v Hsf. by apply not_elem_of_nil in Hsf. }
  destruct (fs !! sf_index sf) as [v|] eqn:Hv; [|done].
  destruct (field_keys K KF sf v) as [ks1|] eqn:E1; [|done].
  destruct (fields_keys K KF sfs fs) as [ks2|] eqn:E2; [|done].
  intros [= <-] (Hn1 & Hdisj & Hn2)%NoDup_app Ho (o1 & He1 & He2)%bind_res_ok.
  destruct (field_reads_back sf v ks1 o o1) as (Hfr1 & Hnd1 & Hd1); try done.
  { apply Hwf; [by left|done]. } { intros k Hk. apply Ho, elem_of_app. by left. }
  destruct (IH o1 ks2) as (Hfr2 & Hnd2 & Hd2); try done.
  { intros sf' v' Hsf' Hv'. apply Hwf; [by right|done]. }
  { intros k Hk. rewrite Hfr1; [apply Ho, elem_of_app; by right|]. intros Hk1. by apply (Hdisj k). }
  split_and!.
  - intros k [Hk1 Hk2]%not_elem_of_app. by rewrite Hfr2, Hfr1.
  - auto.
  - intros ds Ha sf' v' [->|Hsf']%elem_of_cons Hv'.
    + rewrite Hv in Hv'. injection Hv' as <-. apply Hd1. intros k Hk.
      specialize (Ha k ltac:(apply elem_of_app; by left)). rewrite Hfr2 in Ha; [done|]. intros Hk2. by apply (Hdisj k).
    + eapply Hd2; [|done|done]. intros k Hk. apply Ha, elem_of_app. by right.
Qed.

Lemma fields_decoded ds sfs (fs fs0 : list value) :
  NoDup (sf_index <$> sfs) →
  (∀ sf, sf ∈ sfs → fs0 !! sf_index sf = Some (zero P (fType sf))) →
  (∀ sf v, sf ∈ sfs → fs !! sf_index sf = Some v → ∃ v', back P api (fType sf) (tag_ts (settings sf)) v v' ∧
      map_decode_field P D DF ds sf (zero P (fType sf)) = Ret (inl v')) →
  (∀ sf, sf ∈ sfs → is_Some (fs !! sf_index sf)) →
  ∃ fs', map_decode_fields P D DF ds sfs fs0 = Ret (inl fs') ∧ length fs' = length fs0 ∧
    (∀ sf, sf ∈ sfs → ∃ v v', fs !! sf_index sf = Some v ∧ fs' !! sf_index sf = Some v' ∧
       back P api (fType sf) (tag_ts (settings sf)) v v') ∧
    (∀ i, (∀ sf, sf ∈ sfs → sf_index sf ≠ i) → fs' !! i = fs0 !! i).
Proof.
  revert fs0. induction sfs as [|sf sfs IH]; intros fs0 Hnd Hz Hback Hsome; cbn [map_decode_fields].
  { exists fs0. split_and!; [done|done|set_solver|done]. }
  rewrite fmap_cons in Hnd. apply NoDup_cons in Hnd as [Hni Hnd].
  destruct (Hsome sf ltac:(by left)) as [v Hv]. destruct (Hback sf v ltac:(by left) Hv) as (v' & Hb & Hdec).
  pose proof (Hz sf ltac:(by left)) as Hzv. rewrite Hzv, Hdec. cbn [bind_res].
  destruct (IH (<[sf_index sf := v']> fs0)) as (fs' & Hds & Hlen & Hin & Hout); try done.
  { intros sf' Hsf'. rewrite list_lookup_insert_ne; [apply Hz; by right|].
    intros Heq. apply Hni. rewrite Heq. by apply list_elem_of_fmap_2. }
  { intros sf' v0 Hsf'. apply Hback. by right. } { intros sf' Hsf'. apply Hsome. by right. }
  exists fs'. split_and!; [done|by rewrite Hlen, length_insert| |].
  - intros sf' [->|Hsf']%elem_of_cons; [|by apply Hin]. exists v, v'. split_and!; [done| |done].
    rewrite Hout, list_lookup_insert_eq; [done|by eapply lookup_lt_Some|].
    intros sf' Hsf' Heq. apply Hni. rewrite <-Heq. by apply list_elem_of_fmap_2.
  - intros i Hi. rewrite Hout by set_solver. apply list_lookup_insert_ne. apply Hi. by left.
Qed.

Lemma struct_fields_read n fs o o' sfs ks :
  wf_fields_json W WF (TStruct n) (VStruct fs) → getStructFields P (TStruct n) = inl sfs →
  fields_keys K KF sfs fs = Some ks → NoDup ks → (∀ k, k ∈ ks → al_get k o = None) →
  map_encode_fields L E EF o sfs fs = Ret (inl o') →
  (∀ k, k ∉ ks → al_get k o' = al_get k o) ∧ (NoDup o.*1 → NoDup o'.*1) ∧
  ∀ ds, agrees ks o' ds → ∃ fs', (∀ ts, back P api (TStruct n) ts (VStruct fs) (VStruct fs')) ∧
    map_decode_fields P D DF ds sfs (zero P ∘ f_type <$> fields_of P n) = Ret (inl fs').
Proof.
  intros [Hlen Hwf] Hsfs Hks Hn Ho He. destruct (getStructFields_facts P n sfs Hsfs) as [Hnd Hin].
  destruct (fields_encoded sfs fs o o' ks) as (Hfr & Hnd' & Hd); try done.
  { intros sf v Hsf Hv. by eapply Hwf. }
  split_and!; [done..|]. intros ds Ha.
  destruct (fields_decoded ds sfs fs (zero P ∘ f_type <$> fields_of P n)) as (fs' & Hds & Hlen' & Hback & Hout); try done.
  { intros sf Hsf. destruct (Hin sf Hsf) as (f & Hf & Ht). rewrite list_lookup_fmap, Hf. simpl. by rewrite Ht. }
  { by apply Hd. }
  { intros sf Hsf. destruct (Hin sf Hsf) as (f & Hf & _). apply lookup_lt_is_Some. rewrite Hlen.
    by eapply lookup_lt_Some. }
  exists fs'. split; [|done]. intros ts. rewrite length_fmap in Hlen'. apply (back_struct _ _ _ _ sfs); try done.
  intros i f Hf Hi. rewrite Hout by done. by rewrite list_lookup_fmap, Hf.
Qed.

(** The code that was written for an object type is the one that is read. *)
Lemma code_via L' T z d : in_range U32 z → via_json (JCode (ObjectCode false (NInt T z))) d →
  ∃ m e, d = DNum m e ∧ float_to L' U32 m e = z.
Proof.
  intros Hz Hv. cbn in Hv. exists z, 0. split; [apply Hv; unfold in_range in Hz; ity_consts; lia|]. by apply float_to_exact.
Qed.

Lemma code_in_range ts c :
  code_ok ts → objectType ts = Some c →
  ∃ den T z, c = ObjectCode false (NInt T z) ∧ in_range U32 z ∧ getTypeDenotationAndCode (Some c) = ok (den, z).
Proof.
  unfold code_ok. intros Hc Ho. rewrite Ho in Hc. destruct c as [[|] [[]| | | |]]; try done;
    (eexists _, _, _; split_and!; [done| |done]); [|done]. unfold in_range in *. ity_consts. lia.
Qed.

Lemma check_map_type_ok ts ks es ds :
  code_ok ts → (∀ k, k ∈ code_key ts → k ∈ ks) → agrees ks es ds →
  (∀ c, objectType ts = Some c → al_get keyType es = Some (JCode c)) → check_map_type L ds ts = ok ().
Proof.
  intros Hc Hk Ha Hes. unfold check_map_type, code_key in *. destruct (objectType ts) as [c|] eqn:Eo; [|done].
  destruct (code_in_range ts c Hc Eo) as (den & T & z & -> & Hz & ->). cbn [bind_res ok].
  destruct (agrees_get _ _ _ keyType _ Ha ltac:(apply Hk; by left) (Hes _ eq_refl)) as (d & -> & Hv).
  destruct (code_via L T z d Hz Hv) as (m & e & -> & ->). cbn [snd]. by rewrite Z.eqb_refl.
Qed.

Lemma type_entry_facts ts :
  NoDup (type_entry L ts).*1 ∧ (∀ c, objectType ts = Some c → al_get keyType (type_entry L ts) = Some (JCode c)) ∧
  ∀ k, k ∉ code_key ts → al_get k (type_entry L ts) = None.
Proof.
  unfold type_entry, code_key. destruct (objectType ts) as [c|]; cbn [fmap list_fmap].
  - split_and!; [apply Set_nodup; constructor| |].
    + intros c' [= <-]. by rewrite Set_get, decide_True.
    + intros k Hk. rewrite Set_get, decide_False by set_solver. done.
  - split_and!; [constructor|done|done].
Qed.

Lemma struct_reads n v ts e ks :
  WF (TStruct n) v → code_ok ts → KF (TStruct n) v = Some ks → NoDup (code_key ts ++ ks) →
  mapEncodeStruct L EF (TStruct n) v ts = Ret (inl e) →
  ∃ es, e = JObject es ∧ NoDup es.*1 ∧ (∀ k, k ∈ es.*1 → k ∈ code_key ts ++ ks) ∧
    (∀ c, objectType ts = Some c → al_get keyType es = Some (JCode c)) ∧
    ∀ ds, agrees (code_key ts ++ ks) es ds → ∃ v', (∀ ts', back P api (TStruct n) ts' v v') ∧
      mapDecodeStruct L DF (DObject ds) (TStruct n) (zero P (TStruct n)) ts = Ret (inl v').
Proof.
  intros Hwf Hc Hks Hn. unfold mapEncodeStruct. intros (o & Ho & [= <-])%bind_res_ok.
  apply NoDup_app in Hn as (_ & Hdisj & Hn). destruct (type_entry_facts ts) as (Htn & Htc & Hto).
  assert (∀ k, k ∈ ks → k ∉ code_key ts) as Hdisj' by (intros k Hk Hk'; by apply (Hdisj k)).
  destruct (HF _ _ Hwf (type_entry L ts) o ks) as (Hfr & Hnd & Hd); try done.
  { intros k Hk. by apply Hto, Hdisj'. }
  assert (∀ c, objectType ts = Some c → al_get keyType o = Some (JCode c)) as Hcode.
  { intros c Hoc. rewrite Hfr; [by apply Htc|]. apply Hdisj. unfold code_key. rewrite Hoc. by left. }
  exists o. split_and!; [done|by apply Hnd| |done|].
  - intros k Hk. apply elem_of_app. destruct (decide (k ∈ ks)) as [|Hk']; [by right|left].
    destruct (decide (k ∈ code_key ts)) as [|Hk'']; [done|]. exfalso.
    apply list_elem_of_fmap in Hk as ([k1 e] & -> & Hin). cbn in *. apply elem_al_get in Hin; [|by apply Hnd].
    by rewrite Hfr, Hto in Hin.
  - intros ds Ha. destruct (Hd ds) as (v' & Hb & Hdec); [intros k Hk; apply Ha, elem_of_app; by right|].
    exists v'. split; [done|]. unfold mapDecodeStruct.
    rewrite (check_map_type_ok ts (code_key ts ++ ks) o ds); [exact Hdec|done| |done|done].
    intros k Hk. apply elem_of_app. by left.
Qed.

(** *** Slices *)

Lemma elems_read elem vs data :
  Forall (λ x, W elem x NewTypeSettings) vs → map_encode_elems E elem vs = Ret (inl data) →
  ∀ ds acc, Forall2 via_json data ds →
  ∃ vs' r, Forall2 (back P api elem NewTypeSettings) vs vs' ∧
    map_decode_elems P D true elem acc ds = Ret (inl r) ∧ default [] r = default [] acc ++ vs'.
Proof.
  intros Hw. revert data. induction Hw as [|v vs Hv _ IH]; intros data; cbn [map_encode_elems].
  { intros [= <-] ds acc Hds. inversion Hds; subst. exists [], acc. split_and!; [done..|]. by rewrite app_nil_r. }
  intros (e & He%wrap_res_ok & (data' & Hdata & [= <-])%bind_res_ok)%bind_res_ok ds acc Hds.
  inversion Hds as [|? d ? ds' Hd Hds']; subst. destruct (HE _ _ _ Hv e He) as [Hread _].
  destruct (Hread d Hd) as (v' & Hb & Hdec).
  destruct (IH data' Hdata ds' (Some (default [] acc ++ [v'])) Hds') as (vs' & r & Hbs & Hr & Hdef).
  exists (v' :: vs'), r. split_and!; [by constructor| |].
  - cbn [map_decode_elems]. rewrite Hdec. exact Hr.
  - rewrite Hdef. cbn [default from_option id]. by rewrite <-app_assoc.
Qed.

Lemma check_length_ok ts n : check_length validation ts n = Ret (inl ()) →
  validation = true → checkMinMaxBoundsLength ts n = None.
Proof. unfold check_length. intros H Hv. rewrite Hv in H. by apply wrap_res_ok, of_option_ok in H. Qed.

Lemma check_bytes_ok ts b :
  (validation = true → checkMinMaxBoundsLength ts (len b) = None) → check_bytes validation ts b = ok ().
Proof. unfold check_bytes. intros H. destruct validation; [|done]. by rewrite H. Qed.

Lemma slice_reads elem es ts e :
  objectType ts = None → Forall (λ x, W elem x NewTypeSettings) (default [] es) →
  mapEncodeSlice L api validation E elem (VSlice es) ts = Ret (inl e) →
  ∀ d, via_json e d → ∃ es', Forall2 (back P api elem NewTypeSettings) (default [] es) es' ∧
    mapDecodeSlice L P api validation D d elem (VSlice None) ts = Ret (inl (VSlice (Some es'))).
Proof.
  intros Ho Hw. unfold mapEncodeSlice. rewrite Ho.
  intros ([] & Hlen & ([] & Hmust & (data & Hdata & [= <-])%bind_res_ok)%bind_res_ok)%bind_res_ok d Hd.
  apply via_array in Hd as (ds & -> & Hds).
  destruct (elems_read elem _ data Hw Hdata ds None Hds) as (es' & r & Hb & Hr & Hdef). cbn in Hdef.
  exists es'. split; [done|]. unfold mapDecodeSlice, map_decode_objects. cbn [elements lift bind_res ok]. rewrite Hr.
  cbn [bind_res]. rewrite Hdef. unfold checkMinMaxBounds. cbn [length_of]. rewrite Hdef.
  destruct validation eqn:Ev; [|done]. apply wrap_res_ok in Hmust.
  assert (len es' = len (default [] es)) as -> by (unfold len; by rewrite (Forall2_length _ _ _ Hb)).
  rewrite check_length_ok by (by rewrite Ev). cbn [of_option wrap_res bind_res ok].
  by rewrite (checkArrayMustOccur_back P api elem _ _ _ _ (Permutation_refl _) Hb Hmust).
Qed.

Lemma byte_slice_reads elem b ts e :
  objectType ts = None → mapEncodeSlice L api validation E elem (VBytes b) ts = Ret (inl e) →
  ∀ d, via_json e d →
    mapDecodeSlice L P api validation D d elem (VBytes None) ts = Ret (inl (VBytes (Some (default [] b)))).
Proof.
  intros Ho. unfold mapEncodeSlice. rewrite Ho. intros ([] & Hlen & [= <-])%bind_res_ok d Hd.
  destruct (hex_back L (default [] b) HL) as [Hhex Hval]. rewrite (Hd Hval). cbn [mapDecodeSlice assert_string lift bind_res ok].
  unfold decode_hex. rewrite Hhex. cbn [bind_res ok]. rewrite check_bytes_ok; [done|]. by apply check_length_ok.
Qed.

Lemma copy_into_same old new : length old = length new → copy_into old new = new.
Proof.
  intros Hl. unfold copy_into. rewrite Hl, firstn_all. rewrite <-Hl at 1. by rewrite skipn_all, app_nil_r.
Qed.

Lemma byte_array_reads size elem b ts e :
  objectType ts = None → length b = size →
  mapEncodeSlice L api validation E elem (sliceFromArray (VByteArray b)) ts = Ret (inl e) →
  ∀ d, via_json e d →
    mapDecodeArray L P api validation D d elem (VByteArray (replicate size x00)) ts = Ret (inl (VByteArray b)).
Proof.
  intros Ho Hl. cbn [sliceFromArray]. unfold mapEncodeSlice. rewrite Ho. intros ([] & Hlen & [= <-])%bind_res_ok d Hd.
  destruct (hex_back L b HL) as [Hhex Hval]. cbn [default] in Hd. rewrite (Hd Hval).
  cbn [mapDecodeArray assert_string lift bind_res ok]. unfold decode_hex. rewrite Hhex. cbn [bind_res ok].
  by rewrite copy_into_same by (by rewrite length_replicate).
Qed.

Lemma array_ptr_reads t size elem b ts e c :
  objectType (registered t) = Some c → keyType ≠ array_key t → ValidString (array_key t) = true → length b = size →
  (validation = true → checkMinMaxBoundsLength ts (len b) = None) →
  mapEncodeSlice L api validation E elem (sliceFromArray (VByteArray b)) (registered t) = Ret (inl e) →
  ∃ es, e = JObject es ∧ NoDup es.*1 ∧ (∀ k, k ∈ es.*1 → k ∈ [keyType; array_key t]) ∧
    al_get keyType es = Some (JCode c) ∧
    ∀ ds, agrees [keyType; array_key t] es ds →
      map_decode_array_ptr L P api validation D (DObject ds) t elem (VByteArray (replicate size x00)) ts = Ret (inl (VByteArray b)).
Proof.
  intros Hc Hne Hval Hl Hlen. cbn [sliceFromArray]. unfold mapEncodeSlice. rewrite Hc. cbn [slice_Bytes default lift bind_res ok].
  intros [= <-]. change (from_option to_text keyDefaultSliceArray (fieldKey (registered t))) with (array_key t).
  eexists. split_and!; [done| | | |].
  - by apply Set_nodup, Set_nodup; constructor.
  - intros k [->|[->|Hk]%Set_keys]%Set_keys; [right; by left|by left| |constructor|]; [|apply Set_nodup; constructor].
    by apply not_elem_of_nil in Hk.
  - by rewrite Set_get, decide_False, Set_get, decide_True by done.
  - intros ds Ha. destruct (agrees_get _ _ _ (array_key t) _ Ha ltac:(right; by left)
      ltac:(by rewrite Set_get, decide_True)) as (d & Hd & Hvia).
    destruct (hex_back L b HL) as [Hhex Hhv]. specialize (Hvia Hhv). subst d. unfold map_decode_array_ptr.
    destruct (GetByType (typeSettingsRegistry api) t) as [its|] eqn:Eg; [|done]. cbn [assert_map lift bind_res ok].
    assert (from_option to_text keyDefaultSliceArray (fieldKey its) = array_key t) as -> by (unfold array_key; by rewrite Eg).
    rewrite Hd. cbn [default from_option id assert_string lift bind_res ok]. unfold decode_hex. rewrite Hhex. cbn [bind_res ok].
    rewrite check_bytes_ok by done. cbn [bind_res ok]. by rewrite copy_into_same by (by rewrite length_replicate).
Qed.

(** *** Maps *)

Lemma same_entries {A} (m m' : list (text * A)) :
  NoDup m.*1 → NoDup m'.*1 → (∀ k, al_get k m = al_get k m') → m ≡ₚ m'.
Proof.
  intros Hn Hn' Hg. assert (∀ l : list (text * A), NoDup l.*1 → NoDup l) as Hnd by (intros l; apply NoDup_fmap_1).
  apply NoDup_Permutation; [by apply Hnd..|]. intros [k a]. split; intros Hin.
  - apply al_get_member. rewrite <-Hg. by apply elem_al_get.
  - apply al_get_member. rewrite Hg. by apply elem_al_get.
Qed.

(** An entry with its key and its element as they are encoded. *)
Notation jcoded := (value * value * (text * jval))%type.

Lemma pairs_encoded kt et kts ets entries m m' :
  Forall (λ kv, same_settings P api kt kv.1 kts ∧ same_settings P api et kv.2 ets) entries →
  map_encode_pairs L api E kt et m entries = Ret (inl m') →
  ∃ xs : list jcoded, xs.*1 = entries ∧ m' = foldl (λ o kv, Set_key L o kv.1 kv.2) m xs.*2 ∧
    Forall (λ x, E kt x.1.1 kts = Ret (inl (JString x.2.1)) ∧ E et x.1.2 ets = Ret (inl x.2.2)) xs.
Proof.
  intros Hset. revert m. induction Hset as [|kv entries [[Hk _] [He _]] _ IH]; intros m; cbn [map_encode_pairs].
  { intros [= <-]. by exists []. }
  intros ([s e] & Hx & Hm)%bind_res_ok. unfold mapEncodeMapKVPair in Hx. rewrite Hk, He in Hx.
  apply bind_res_ok in Hx as (j & Hj%wrap_res_ok & (v & Hv%wrap_res_ok & Hs)%bind_res_ok).
  destruct j; try done. injection Hs as -> ->.
  destruct (IH _ Hm) as (xs & <- & -> & Hxs). exists ((kv, (s, e)) :: xs). split_and!; [done..|]. by constructor.
Qed.

Lemma pairs_decoded kt et kts ets (ds : list (text * dval)) ys acc :
  GetByValue (typeSettingsRegistry api) kt (zero P kt) None = Ret kts →
  GetByValue (typeSettingsRegistry api) et (zero P et) None = Ret ets →
  Forall2 (λ d y, D true (DString d.1) kt (zero P kt) kts = Ret (inl y.1) ∧ D true d.2 et (zero P et) ets = Ret (inl y.2)) ds ys →
  Forall (λ y, hashable y.1 = true) ys →
  (∀ i j a b, (acc ++ ys) !! i = Some a → (acc ++ ys) !! j = Some b → (i < j)%nat → key_eqb a.1 b.1 = false) →
  map_decode_pairs P api D kt et acc ds = Ret (inl (acc ++ ys)).
Proof.
  intros Hk He Hds. revert acc. induction Hds as [|[k d] y ds ys [Hdk Hde] _ IH]; intros acc Hh Hd; cbn [map_decode_pairs].
  { by rewrite app_nil_r. }
  apply Forall_cons in Hh as [Hh Hhs]. cbn [fst snd] in *. rewrite Hk, He, Hdk. cbn [wrap_res bind_res]. rewrite Hh.
  cbn [negb]. assert (existsb (λ kv, key_eqb kv.1 y.1) acc = false) as ->.
  { apply not_true_iff_false. intros (kv & Hin & Heq)%existsb_exists.
    apply list_elem_of_In, list_elem_of_lookup in Hin as (i & Hi).
    rewrite (Hd i (length acc) kv y) in Heq; [done|..].
    - by apply lookup_app_l_Some.
    - by rewrite lookup_app_r, Nat.sub_diag by lia.
    - by eapply lookup_lt_Some. }
  rewrite Hde. cbn [wrap_res bind_res]. replace (y.1, y.2) with y by (by destruct y).
  replace (acc ++ y :: ys) with ((acc ++ [y]) ++ ys) in * by (by rewrite <-app_assoc). by apply IH.
Qed.

(** The entries of the object in the order in which they are visited. *)
Lemma visited xs d :
  NoDup (xs : list jcoded).*2.*1 → Forall (λ x, ValidString x.2.1 = true) xs →
  via_json (JObject (foldl (λ o kv, Set_key L o kv.1 kv.2) [] xs.*2)) d →
  ∃ ds xs', d = DObject ds ∧ xs' ≡ₚ xs ∧ Forall2 (λ x y, y.1 = x.2.1 ∧ via_json x.2.2 y.2) xs' ds.
Proof.
  intros Hn Hval Hd. set (m := foldl _ [] xs.*2) in Hd.
  assert (NoDup m.*1) as Hm by (apply Set_all_nodup; constructor).
  assert (m ≡ₚ xs.*2) as Hp.
  { apply same_entries; [done|done|]. intros k. unfold m. rewrite Set_all_get by done. by destruct (al_get k xs.*2). }
  destruct (via_object m d Hd) as (ds & ds0 & -> & Hpd & Hall); [|done|].
  { apply forallb_forall. intros kv Hin%list_elem_of_In. rewrite Hp in Hin. apply list_elem_of_fmap in Hin as (x & -> & Hx).
    by apply (proj1 (Forall_forall _ _) Hval). }
  apply (proj2 (Forall2_flip _ _ _)) in Hall.
  destruct (Permutation_Forall2 (symmetry Hpd) Hall) as (m1 & Hp1 & Hall1). rewrite Hp in Hp1. symmetry in Hp1.
  apply Permutation_map_inv in Hp1 as (xs' & -> & Hp'). exists ds, xs'. split_and!; [done|by symmetry|].
  apply (proj1 (Forall2_flip _ _ _)) in Hall1. by apply Forall2_fmap_l in Hall1.
Qed.

(** What stands between two lists that are related. *)
Lemma Forall2_middle {A B C} (R : A → B → Prop) (S : A → C → Prop) (T : B → C → Prop) xs ds :
  Forall2 R xs ds → (∀ x d, x ∈ xs → R x d → ∃ y, S x y ∧ T d y) → ∃ ys, Forall2 S xs ys ∧ Forall2 T ds ys.
Proof.
  induction 1 as [|x d xs ds Hx _ IH]; intros Hy; [exists []; by split|].
  destruct (Hy x d ltac:(by left) Hx) as (y & Hs & Ht). destruct IH as (ys & Hss & Hts).
  { intros x' d' Hx'. apply Hy. by right. }
  exists (y :: ys). split; by constructor.
Qed.

Lemma codes_differ kt kts (entries : list (value * value)) (xs : list jcoded) :
  (∀ i j a b, entries !! i = Some a → entries !! j = Some b → i ≠ j → E kt a.1 kts ≠ E kt b.1 kts) →
  xs.*1 = entries → Forall (λ x, E kt x.1.1 kts = Ret (inl (JString x.2.1))) xs → NoDup xs.*2.*1.
Proof.
  intros Hdiff Hes Hxs. apply NoDup_alt. intros i j s Hi Hj. rewrite !list_lookup_fmap in Hi, Hj.
  destruct (xs !! i) as [x|] eqn:Ex; [|done]. destruct (xs !! j) as [y|] eqn:Ey; [|done]. cbn in Hi, Hj.
  destruct (decide (i = j)) as [|Hne]; [done|]. exfalso.
  apply (Hdiff i j x.1 y.1); [by rewrite <-Hes, list_lookup_fmap, Ex|by rewrite <-Hes, list_lookup_fmap, Ey|done|].
  rewrite (Forall_lookup_1 _ _ _ _ Hxs Ex), (Forall_lookup_1 _ _ _ _ Hxs Ey). congruence.
Qed.

Lemma map_reads kt et es ts e :
  wf_entries_json W E kt et (default [] es) →
  mapEncodeMap L api validation E kt et (VMap es) ts = Ret (inl e) →
  ∀ d, via_json e d → ∃ kts ets es0 es', es0 ≡ₚ default [] es ∧
    Forall2 (λ x y, back P api kt kts x.1 y.1 ∧ back P api et ets x.2 y.2) es0 es' ∧
    mapDecodeMap P api validation D d kt et (VMap None) ts = Ret (inl (VMap (Some es'))).
Proof.
  intros (kts & ets & Hwf & Hhash & Huniq & Hvalid & Hdiff). unfold mapEncodeMap.
  intros ([] & Hbounds & (m & Hm & [= <-])%bind_res_ok)%bind_res_ok d Hd.
  destruct (pairs_encoded kt et kts ets _ _ _ ltac:(eapply Forall_impl; [exact Hwf|]; naive_solver) Hm)
    as (xs & Hes & -> & Hxs). rewrite Forall_forall in Hwf.
  assert (NoDup xs.*2.*1) as Hn.
  { eapply codes_differ; [done..|]. eapply Forall_impl; [exact Hxs|]. by intros x [? _]. }
  rewrite Forall_forall in Hxs.
  destruct (visited xs d Hn) as (ds & xs' & -> & Hp & Hds); [|done|].
  { apply Forall_forall. intros x Hx. destruct (Hxs x Hx) as [Hk _].
    apply (Hvalid x.1); [|done]. rewrite <-Hes. by apply list_elem_of_fmap_2. }
  assert (xs'.*1 ≡ₚ default [] es) as Hp' by (by rewrite Hp, Hes).
  destruct (Forall2_middle _ (λ x y, back P api kt kts x.1.1 y.1 ∧ back P api et ets x.1.2 y.2)
    (λ d y, D true (DString d.1) kt (zero P kt) kts = Ret (inl y.1) ∧ D true d.2 et (zero P et) ets = Ret (inl y.2))
    _ _ Hds) as (ys & Hb & Hdec).
  { intros x d' Hx [Ek Hvia]. rewrite Hp in Hx. destruct (Hxs x Hx) as [Hk He].
    destruct (Hwf x.1 ltac:(rewrite <-Hes; by apply list_elem_of_fmap_2)) as (_ & _ & Hwk & Hwe).
    destruct (proj1 (HE _ _ _ Hwk _ Hk) (DString x.2.1)) as (k' & Hbk & Hdk); [done|].
    destruct (proj1 (HE _ _ _ Hwe _ He) d'.2 Hvia) as (e' & Hbe & Hde). exists (k', e'). by rewrite Ek. }
  exists kts, ets, xs'.*1, ys. split_and!; [done|by apply Forall2_fmap_l|].
  destruct (keys_back P api kt kts _ xs'.*1 ys Hhash Huniq Hp') as [Hh Hdist].
  { apply Forall2_fmap_l. eapply Forall2_impl; [exact Hb|]. by intros x y [? _]. }
  unfold mapDecodeMap. cbn [default from_option].
  assert (map_decode_pairs P api D kt et [] ds = Ret (inl ys)) as ->.
  { destruct xs' as [|x0 xs']; [inversion Hds; subst; by inversion Hdec|].
    destruct (Hwf x0.1) as ([_ Hk] & [_ He] & _); [rewrite <-Hp'; by left|].
    by apply (pairs_decoded kt et kts ets _ ys []). }
  cbn [bind_res]. destruct validation; [|done].
  assert (checkMinMaxBounds ts (VMap (Some ys)) = checkMinMaxBounds ts (VMap es)) as ->.
  { assert (length ys = length (default [] es)) as Hl by (by rewrite <-(Forall2_length _ _ _ Hb), <-Hp', length_fmap).
    unfold checkMinMaxBounds. simpl. unfold len. by rewrite Hl. }
  by rewrite Hbounds.
Qed.

(** *** By kind *)

Lemma object_via Dec t v ts e ks :
  reads_object Dec t v ts e ks → ∀ d, via_json e d → ∃ v', back P api t ts v v' ∧ Dec d = Ret (inl v').
Proof.
  intros (Hval & _ & es & -> & Hn & Hk & _ & Hd) d Hv. destruct (via_agrees es d ks Hv Hn Hk Hval) as (ds & -> & Ha). by apply Hd.
Qed.

(** The settings that are registered for a type keep their code when they are merged. *)
Lemma merged_code ts t c : objectType ts = Some c → objectType (merged api ts t) = Some c.
Proof. intros H. unfold merged, merge. cbn. by rewrite H. Qed.

Lemma struct_object n v ts e ks :
  wf_type_json W WF E K KF (TStruct n) v ts → serializableJSON M (TStruct n) v = None →
  keys_layer K KF (TStruct n) v ts = Some ks →
  mapEncodeBasedOnType L api validation E EF (TStruct n) v ts = Ret (inl e) →
  reads_object (λ d, mapDecodeBasedOnType L P api validation D DF true d (TStruct n) (zero P (TStruct n)) ts) (TStruct n) v ts e ks.
Proof.
  cbn [wf_type_json mapEncodeBasedOnType mapDecodeBasedOnType]. intros (Hwf & Hc & (l & Hl & Hn & Hval)) Hs Hks He.
  assert (l = ks) as -> by congruence. unfold keys_layer in Hks. rewrite Hs in Hks.
  destruct (KF (TStruct n) v) as [ks0|] eqn:Ek; [|done]. injection Hks as <-.
  destruct (struct_reads n v _ e ks0 Hwf Hc Ek Hn He) as (es & -> & Hne & Hke & Hcode & Hd).
  split_and!; [done|done|]. exists es. split_and!; [done..| |].
  - intros -> _ c Hoc. by apply Hcode, merged_code.
  - intros ds Ha. destruct (Hd ds Ha) as (v' & Hb & Hdec). exists v'. by split.
Qed.

Lemma struct_ptr_object n w ts e ks :
  wf_type_json W WF E K KF (TPtr (TStruct n)) (VPtr (Some w)) ts →
  serializableJSON M (TPtr (TStruct n)) (VPtr (Some w)) = None →
  keys_layer K KF (TPtr (TStruct n)) (VPtr (Some w)) ts = Some ks →
  mapEncodeBasedOnType L api validation E EF (TPtr (TStruct n)) (VPtr (Some w)) ts = Ret (inl e) →
  reads_object (λ d, mapDecodeBasedOnType L P api validation D DF true d (TPtr (TStruct n)) (VPtr None) ts)
    (TPtr (TStruct n)) (VPtr (Some w)) ts e ks.
Proof.
  cbn [wf_type_json mapEncodeBasedOnType mapDecodeBasedOnType]. intros (Hwf & Hc & (l & Hl & Hn & Hval)) Hs Hks He.
  assert (l = ks) as -> by congruence. unfold keys_layer in Hks. rewrite Hs in Hks.
  destruct (KF (TStruct n) w) as [ks0|] eqn:Ek; [|done]. injection Hks as <-.
  destruct (struct_reads n w _ e ks0 Hwf Hc Ek Hn He) as (es & -> & Hne & Hke & Hcode & Hd).
  split_and!; [done|done|]. exists es. split_and!; [done..| |].
  - intros -> _ c Hoc. by apply Hcode, merged_code.
  - intros ds Ha. destruct (Hd ds Ha) as (v' & Hb & Hdec). exists (VPtr (Some v')). split; [by constructor|].
    cbn [default from_option]. by rewrite Hdec.
Qed.

Lemma array_ptr_object n size el b ts e ks :
  let t := TPtr (TArray n size el) in
  wf_type_json W WF E K KF t (VPtr (Some (VByteArray b))) ts → serializableJSON M t (VPtr (Some (VByteArray b))) = None →
  keys_layer K KF t (VPtr (Some (VByteArray b))) ts = Some ks →
  mapEncodeBasedOnType L api validation E EF t (VPtr (Some (VByteArray b))) ts = Ret (inl e) →
  reads_object (λ d, mapDecodeBasedOnType L P api validation D DF true d t (VPtr None) ts)
    t (VPtr (Some (VByteArray b))) ts e ks.
Proof.
  intros t (Hby & Hl & [c Hc] & Hne & Hval & Hlen) Hs Hks He. unfold keys_layer in Hks. rewrite Hs in Hks. injection Hks as <-.
  destruct (array_ptr_reads t size el b _ e c Hc Hne Hval Hl Hlen He) as (es & -> & Hn & Hk & Hcode & Hd).
  split_and!.
  - by repeat constructor.
  - apply NoDup_cons. split; [by intros ?%list_elem_of_singleton|apply NoDup_singleton].
  - exists es. split_and!; [done..| |].
    + intros -> _ c' Hoc. congruence.
    + intros ds Ha. exists (VPtr (Some (VByteArray b))). split; [constructor|]. unfold t.
      cbn [mapDecodeBasedOnType default from_option]. rewrite zero_array, Hby. unfold t in Hd. by rewrite (Hd ds Ha).
Qed.

Lemma interface_object n dt dv ts e ks :
  let t := TInterface n in let v := VInterface (Some (dt, dv)) in
  wf_type_json W WF E K KF t v ts → serializableJSON M t v = None → keys_layer K KF t v ts = Some ks →
  mapEncodeBasedOnType L api validation E EF t v ts = Ret (inl e) →
  reads_object (λ d, mapDecodeBasedOnType L P api validation D DF true d t (VInterface None) ts) t v ts e ks.
Proof.
  intros t v. subst t v. intros (io & Hio & Hi & Hcode & Hsame & _ & Hw) Hs Hks He. unfold keys_layer in Hks. rewrite Hs in Hks. cbn in Hks.
  cbn [mapEncodeBasedOnType] in He. cbn [mapEncodeInterface] in He. rewrite Hio in He.
  destruct (negb (HasObjectType io dt)); [done|]. apply wrap_res_ok in He.
  destruct (HE _ _ _ Hw e He) as [_ Hobj]. destruct (Hobj ks Hks) as (Hval & Hnd & es & -> & Hn & Hk & Htc & Hd).
  split_and!; [done|done|]. exists es. split_and!; [done..| |]; [done|]. intros ds Ha.
  destruct (Hd ds Ha) as (dv' & Hb & Hdec). exists (VInterface (Some (dt, dv'))). split; [by eapply back_interface|].
  cbn [mapDecodeBasedOnType]. unfold mapDecodeInterface. rewrite Hio.
  unfold code_finds_json in Hcode. destruct (objectType (registered dt)) as [[[|] [T z| | | |]]|] eqn:Ec; try done.
  destruct Hcode as [Hz Hfind]. pose proof (Htc eq_refl Hi _ eq_refl) as Hkt.
  destruct (agrees_get _ _ _ keyType _ Ha (Hk _ (al_get_key _ _ _ Hkt)) Hkt) as (d & -> & Hvia).
  destruct (code_via L T z d Hz Hvia) as (m & ex & -> & Hf). cbn [assert_float lift bind_res ok fst snd]. rewrite Hf, Hfind.
  rewrite <-(HD true (DObject ds) dt (zero P dt) _ _ Hsame), Hdec. done.
Qed.

Lemma num_reads k v e :
  match k, v with
  | NumInt T, VInt z => in_range T z
  | NumFloat32, VFloat32 bits => 0 ≤ bits < 2 ^ 32 ∧ is_nan k bits = false
  | NumFloat64, VFloat64 bits => 0 ≤ bits < 2 ^ 64 ∧ is_nan k bits = false
  | _, _ => False
  end →
  mapEncodeNum L k v = Ret (inl e) → ∀ d, via_json e d → mapDecodeNum L k d = Ret (inl v).
Proof.
  intros Hv He d Hd. destruct k as [T| |]; [destruct v as [|z| | | | | | | | | | | | | |]; try done|
    destruct v as [| |bits| | | | | | | | | | | | |]; try done|destruct v as [| | |bits| | | | | | | | | | | |]; try done].
  - assert (T = U64 ∨ T = I64 ∨ (T ≠ U64 ∧ T ≠ I64)) as [->|[->|[Hu Hi]]] by (destruct T; naive_solver).
    + injection He as <-. rewrite (Hd (FormatUint_valid z ltac:(unfold in_range in Hv; ity_consts; lia))).
      cbn [mapDecodeNum assert_string lift bind_res ok]. unfold strNumParser. rewrite bool_decide_eq_false_2 by done.
      by rewrite ParseUint_FormatUint.
    + injection He as <-. destruct (ParseInt_FormatInt z Hv) as [Hp Hval]. rewrite (Hd Hval).
      cbn [mapDecodeNum assert_string lift bind_res ok]. unfold strNumParser. rewrite bool_decide_eq_true_2 by done. by rewrite Hp.
    + assert (e = JInt z) as -> by (destruct T; by injection He).
      assert (- 2 ^ 53 ≤ z ≤ 2 ^ 53) as Hz by (unfold in_range in Hv; destruct T; ity_consts; done || lia).
      rewrite (Hd Hz). assert (mapDecodeNum L (NumInt T) (DNum z 0) = Ret (inl (VInt (float_to L T z 0)))) as -> by (by destruct T).
      by rewrite float_to_exact.
  - injection He as <-. destruct (law_float L HL NumFloat32 bits (proj1 Hv) (proj2 Hv)) as [Hp Hval]. rewrite (Hd Hval).
    cbn [mapDecodeNum assert_string lift bind_res ok]. by rewrite Hp.
  - injection He as <-. destruct (law_float L HL NumFloat64 bits (proj1 Hv) (proj2 Hv)) as [Hp Hval]. rewrite (Hd Hval).
    cbn [mapDecodeNum assert_string lift bind_res ok]. by rewrite Hp.
Qed.

Lemma string_reads s ts e :
  ValidString s = true → mapEncodeString validation s ts = Ret (inl e) →
  ∀ d, via_json e d → mapDecodeString validation d ts = Ret (inl (VString s)).
Proof.
  intros Hval. unfold mapEncodeString, mapDecodeString. rewrite Hval, andb_false_r.
  intros ([] & Hlen & [= <-])%bind_res_ok d Hd. rewrite (Hd Hval), check_bytes_ok by (by apply check_length_ok).
  cbn [bind_res ok]. by rewrite Hval, andb_false_r.
Qed.

Lemma time_reads time ts e :
  0 ≤ time ≤ ity_max I64 → mapEncodeStruct L EF TTime (VTime time) ts = Ret (inl e) →
  ∀ d v, via_json e d → mapDecodeStruct L DF d TTime v ts = Ret (inl (VTime time)).
Proof.
  intros Ht. cbn [mapEncodeStruct]. rewrite TimeToUint64_exact by done. intros [= <-] d v Hd.
  rewrite (Hd (FormatUint_valid time ltac:(lia))). cbn [mapDecodeStruct assert_string lift bind_res ok].
  rewrite ParseUint_FormatUint by (unfold in_range; ity_consts; lia). cbv beta iota. by rewrite wrap_id by (unfold in_range; ity_consts; lia).
Qed.

Lemma bigint_reads z e :
  0 ≤ z < 2 ^ 256 → (s <~ lift (EncodeUint256 L (Some z)); ok (JString s)) = Ret (inl e) →
  ∀ d, via_json e d → ∃ s, d = DString s ∧ DecodeUint256 L s = inl z.
Proof.
  intros Hz. destruct (law_big L HL z Hz) as (s & Hs & Hd & Hval). unfold EncodeUint256. rewrite Hs. cbn [lift bind_res ok].
  intros [= <-] d Hvia. exists s. by rewrite (Hvia Hval).
Qed.

(** The kinds that are no objects with known keys. *)
Lemma kind_reads t v ts e :
  wf_type_json W WF E K KF t v ts → serializableJSON M t v = None → keys_layer K KF t v ts = None →
  mapEncodeBasedOnType L api validation E EF t v ts = Ret (inl e) →
  ∀ d, via_json e d → ∃ v', back P api t ts v v' ∧
    mapDecodeBasedOnType L P api validation D DF true d t (zero P t) ts = Ret (inl v').
Proof.
  intros Hwf Hs Hks He d Hd. unfold keys_layer in Hks. rewrite Hs in Hks.
  unfold mapEncodeBasedOnType in He. cbn [mapDecodeBasedOnType].
  destruct t as [|n k| | | |n|n el|n size el|n kt et|el|n|]; cbn [wf_type_json] in Hwf.
  - destruct v as [b| | | | | | | | | | | | | | |]; try done. injection He as <-. cbn in Hd. rewrite Hd.
    exists (VBool b). by split; [constructor|].
  - exists v. split; [constructor|]. eapply num_reads; [|done|done]. by destruct k, v.
  - destruct v as [| | | |s| | | | | | | | | | |]; try done. exists (VString s). split; [constructor|]. by eapply string_reads.
  - destruct v as [| | | | |[z|]| | | | | | | | | |]; try done.
    destruct (bigint_reads z e Hwf He d Hd) as (s & -> & Hz). exists (VBigInt (Some z)).
    split; [constructor|]. cbn [mapDecodeBasedOnType]. by rewrite Hz.
  - destruct v as [| | | | | |time| | | | | | | | |]; try done. exists (VTime time). split; [constructor|]. by eapply time_reads.
  - destruct Hwf as (_ & _ & l & Hl & _). unfold keys_layer in Hl. rewrite Hs in Hl. congruence.
  - rewrite zero_slice. destruct v as [| | | | | | | |b| |es| | | | |]; try done.
    + destruct Hwf as [-> Ho]. eexists. split; [apply back_bytes|]. by eapply byte_slice_reads.
    + destruct Hwf as (-> & Ho & Hw). destruct (slice_reads el es _ e Ho Hw He d Hd) as (es' & Hb & Hdec).
      eexists. split; [|exact Hdec]. by apply (back_slice _ _ _ _ _ es (default [] es)).
  - rewrite zero_array. destruct v as [| | | | | | | | |b| | | | | |]; try done. destruct Hwf as (-> & Hl & Ho).
    exists (VByteArray b). split; [constructor|]. by eapply byte_array_reads.
  - destruct v as [| | | | | | | | | | | |es| | |]; try done.
    destruct (map_reads kt et es _ e Hwf He d Hd) as (kts & ets & es0 & es' & Hp & Hb & Hdec).
    eexists. split; [by eapply back_map|]. exact Hdec.
  - destruct el as [| | | | |n| |n size el| | | |]; try done; destruct v as [| | | | | | | | | | | | |[w|]| |]; try done.
    + destruct w as [| | | | | |time| | | | | | | | |]; try done. exists (VPtr (Some (VTime time))). split; [constructor|].
      rewrite zero_ptr. cbn [mapDecodeBasedOnType default from_option]. by rewrite (time_reads time _ e Hwf He d _ Hd).
    + destruct Hwf as (_ & _ & l & Hl & _). unfold keys_layer in Hl. rewrite Hs in Hl. congruence.
    + by destruct w.
  - destruct v as [| | | | | | | | | | | | | |[[dt dv]|]|]; try done.
    destruct Hwf as (io & _ & _ & _ & _ & [l Hl] & _). congruence.
  - by destruct v.
Qed.

Lemma type_reads t v ts e :
  wf_type_json W WF E K KF t v ts → serializableJSON M t v = None →
  mapEncodeBasedOnType L api validation E EF t v ts = Ret (inl e) →
  (∀ d, via_json e d → ∃ v', back P api t ts v v' ∧
     mapDecodeBasedOnType L P api validation D DF true d t (zero P t) ts = Ret (inl v')) ∧
  (∀ ks, keys_layer K KF t v ts = Some ks →
     reads_object (λ d, mapDecodeBasedOnType L P api validation D DF true d t (zero P t) ts) t v ts e ks).
Proof.
  intros Hwf Hs He.
  assert (∀ ks, keys_layer K KF t v ts = Some ks →
    reads_object (λ d, mapDecodeBasedOnType L P api validation D DF true d t (zero P t) ts) t v ts e ks) as Hobj.
  { intros ks Hks. pose proof Hks as Hks'. unfold keys_layer in Hks'. rewrite Hs in Hks'.
    destruct t as [| | | | |n| | | |el|n|]; try done.
    - by apply struct_object.
    - destruct el as [| | | | |n| |n size el| | | |]; try done; destruct v as [| | | | | | | | | | | | |[w|]| |]; try done.
      + by apply struct_ptr_object.
      + destruct w; try done. by apply array_ptr_object.
    - destruct v as [| | | | | | | | | | | | | |[[dt dv]|]|]; try done. by apply interface_object. }
  split; [|done]. destruct (keys_layer K KF t v ts) as [ks|] eqn:Ek; [|by apply kind_reads].
  by apply (object_via _ _ _ _ _ ks), Hobj.
Qed.

(** *** Objects that serialize themselves *)

Lemma self_json t v e :
  match t, v with TPtr _, VPtr (Some _) => True | TPtr _, _ | TInterface _, _ => False | _, _ => True end →
  serializableJSON M t v = Some (e, None) →
  ∃ m w put v', deserializableJSON P M true t (zero P t) = Some (m, w, put) ∧ put v' = v ∧
    ∀ d, via_json e d → m w d = (v', None).
Proof.
  intros Hv Hs. destruct (is_ptr t) eqn:Hp.
  - destruct t as [| | | | | | | | |el| |]; try done.
    { unfold serializableJSON in Hs. cbn [dynamic] in Hs. by rewrite (jlaw_bigint Hmethods) in Hs. }
    destruct v as [| | | | | | | | | | | | |[w0|]| |]; try done. unfold serializableJSON in Hs. cbn [dynamic] in Hs.
    destruct (EncodeJSON_method M (TPtr el)) as [m|] eqn:Em; [|done]. injection Hs as Hs.
    destruct (jlaw_ptr Hmethods el m w0 e Em Hs) as (m' & Hm' & Hd).
    exists m', (zero P el), (λ w, VPtr (Some w)), w0. split_and!; [|done..].
    rewrite zero_ptr. cbn [deserializableJSON]. by rewrite Hm'.
  - assert ((m ← EncodeJSON_method M t; Some (m v)) = Some (e, None)) as Hs' by (by destruct t; destruct v).
    destruct (EncodeJSON_method M t) as [m|] eqn:Em; [|done]. injection Hs' as Hs'.
    destruct (jlaw_value Hmethods t m v e Hp Em Hs') as (Hn & m' & Hm' & Hd).
    exists m', (zero P t), (λ w, w), v. split_and!; [|done..].
    by destruct t; try done; cbn [deserializableJSON]; rewrite Hn, Hm'.
Qed.

Lemma not_deserializableJSON t v ts :
  wf_type_json W WF E K KF t v ts → serializableJSON M t v = None → deserializableJSON P M true t (zero P t) = None.
Proof.
  intros Hwf Hs. destruct (is_ptr t) eqn:Hp.
  - assert (EncodeJSON_method M t = None) as Hn.
    { destruct t as [| | | | | | | | |el| |]; try done; [apply (jlaw_bigint Hmethods)|].
      destruct v as [| | | | | | | | | | | | |[w0|]| |]; try by destruct el.
      unfold serializableJSON in Hs. cbn [dynamic] in Hs. by destruct (EncodeJSON_method M (TPtr el)). }
    pose proof (jlaw_none_ptr Hmethods t Hp Hn) as Hd.
    destruct t as [| | | | | | | | |el| |]; try done.
    + cbn [deserializableJSON zero zero_at type_rank by_value].
      by rewrite Hd, (jlaw_no_double Hmethods TBigIntPtr eq_refl).
    + rewrite zero_ptr. cbn [deserializableJSON]. by rewrite Hd.
  - destruct (is_interface t) eqn:Hi; [by destruct t|].
    assert (EncodeJSON_method M t = None) as Hn.
    { destruct (EncodeJSON_method M t) as [m|] eqn:Em; [|done].
      unfold serializableJSON in Hs. destruct t; try done; cbn [dynamic] in Hs; by rewrite Em in Hs. }
    destruct (jlaw_none Hmethods t Hp Hn) as [Hd Hd'].
    by destruct t; try done; cbn [deserializableJSON]; rewrite Hd, Hd'.
Qed.

(** *** All together *)

Lemma layer_reads t v ts e :
  wf_layer_json W WF E K KF t v ts → map_encode_layer L M api validation E EF t v ts = Ret (inl e) →
  (∀ d, via_json e d → ∃ v', back P api t ts v v' ∧
     map_decode_layer L P M api validation D DF true d t (zero P t) ts = Ret (inl v')) ∧
  (∀ ks, keys_layer K KF t v ts = Some ks →
     reads_object (λ d, map_decode_layer L P M api validation D DF true d t (zero P t) ts) t v ts e ks).
Proof.
  unfold wf_layer_json, map_encode_layer, map_decode_layer. intros Hwf ([] & Hval & He)%bind_res_ok.
  assert (∀ v', back P api t ts v v' → (if validation then
      wrap_res "post-serialization validation failed" (callSyntacticValidator api t v') else ok ()) = ok ()) as Hpost.
  { intros v' Hb. destruct validation; [|done]. apply wrap_res_ok in Hval.
    by rewrite (validators_accept_back P api Hvalidators t ts v v' Hb Hval). }
  destruct (serializableJSON M t v) as [[j [err|]]|] eqn:Hs; [done| |].
  - injection He as ->. split; [|intros ks Hks; unfold keys_layer in Hks; by rewrite Hs in Hks].
    intros d Hd. destruct (self_json t v e) as (m & w & put & v' & -> & Hput & Hm); [by destruct t, v|done|].
    exists v. split; [constructor|]. rewrite (Hm d Hd), Hput. cbn [bind_res ok]. by rewrite Hpost by constructor.
  - rewrite (not_deserializableJSON t v ts Hwf Hs). destruct (type_reads t v ts e Hwf Hs He) as [Hread Hobj]. split.
    + intros d Hd. destruct (Hread d Hd) as (v' & Hb & ->). exists v'. split; [done|]. cbn [bind_res]. by rewrite Hpost.
    + intros ks Hks. destruct (Hobj ks Hks) as (Hv & Hn & es & -> & Hne & Hk & Hc & Hd). split_and!; [done..|].
      exists es. split_and!; [done..|]. intros ds Ha. destruct (Hd ds Ha) as (v' & Hb & ->). exists v'. split; [done|].
      cbn [bind_res]. by rewrite Hpost.
Qed.

End Layers.

(** ** Any depth *)

Lemma mapEncodeStructFields_S n o m fs sfs :
  getStructFields P (TStruct m) = inl sfs →
  mapEncodeStructFields L P M api validation (S n) o (TStruct m) (VStruct fs) =
    map_encode_fields L (mapEncode L P M api validation n) (mapEncodeStructFields L P M api validation n) o sfs fs.
Proof. intros H. simpl. rewrite H. by destruct sfs. Qed.

Lemma mapDecodeStructFields_S n d m fs sfs :
  getStructFields P (TStruct m) = inl sfs →
  mapDecodeStructFields L P M api validation (S n) d (TStruct m) (VStruct fs) =
    (fs <~ map_decode_fields P (mapDecode L P M api validation n) (mapDecodeStructFields L P M api validation n) d sfs fs;
     ok (VStruct fs)).
Proof. intros H. simpl. rewrite H. by destruct sfs. Qed.

(** Decoding depends on the object type and the rules of the settings only. *)
Section Settings.
Context (a b : TypeSettings) (Hab : same_rules a b).

Lemma same_length n : checkMinMaxBoundsLength a n = checkMinMaxBoundsLength b n.
Proof. unfold checkMinMaxBoundsLength, MinLen, MaxLen. by rewrite (proj2 Hab). Qed.

Lemma same_bytes x : check_bytes validation a x = check_bytes validation b x.
Proof. unfold check_bytes. by rewrite same_length. Qed.

Lemma same_bounds v : checkMinMaxBounds a v = checkMinMaxBounds b v.
Proof. unfold checkMinMaxBounds. destruct (length_of v); [|done]. by rewrite same_length. Qed.

Lemma same_type m : check_map_type L m a = check_map_type L m b.
Proof. unfold check_map_type. by rewrite (proj1 Hab). Qed.

Lemma same_must_occur el es : checkArrayMustOccur api el es a = checkArrayMustOccur api el es b.
Proof. unfold checkArrayMustOccur. by rewrite (proj2 Hab). Qed.

Lemma same_merged t : same_rules (merged api a t) (merged api b t).
Proof. destruct Hab as [H1 H2]. unfold merged, merge, same_rules. cbn. by rewrite H1, H2. Qed.

End Settings.

Lemma map_decode_layer_settings D DF addr d t v ts ts' :
  (∀ addr d t v ts ts', same_rules (merged api ts t) (merged api ts' t) → D addr d t v ts = D addr d t v ts') →
  same_rules (merged api ts t) (merged api ts' t) →
  map_decode_layer L P M api validation D DF addr d t v ts = map_decode_layer L P M api validation D DF addr d t v ts'.
Proof.
  intros HD Hs. unfold map_decode_layer. destruct (deserializableJSON P M addr t v) as [[[? ?] ?]|]; [done|].
  assert (mapDecodeBasedOnType L P api validation D DF addr d t v ts =
    mapDecodeBasedOnType L P api validation D DF addr d t v ts') as ->; [|done].
  unfold mapDecodeBasedOnType. set (a := merged api ts t) in *. set (b := merged api ts' t) in *.
  assert (∀ settable d el es, map_decode_objects P api validation D settable d el es a =
    map_decode_objects P api validation D settable d el es b) as Hobjects.
  { intros. unfold map_decode_objects. destruct (lift (elements d0)) as [[ds|]|]; cbn [bind_res]; [|done..].
    destruct (map_decode_elems P D settable el es ds) as [[es'|]|]; cbn [bind_res]; [|done..].
    by rewrite (same_bounds a b Hs), (same_must_occur a b Hs). }
  assert (∀ e, mapDecodeInterface L P api D d e a = mapDecodeInterface L P api D d e b) as Hinterface.
  { intros e. unfold mapDecodeInterface. destruct (al_get e (interfacesRegistry api)); [|done]. destruct d; try done.
    destruct (al_get keyType entries) as [[]|]; try done. cbn [assert_float lift bind_res ok].
    destruct (GetObjectTypeByCode _ _) as [ot|]; [|done].
    by rewrite (HD true (DObject entries) ot (zero P ot) a b (same_merged a b Hs ot)). }
  assert (∀ e w, mapDecodeStruct L DF d e w a = mapDecodeStruct L DF d e w b) as Hstruct.
  { intros e w. unfold mapDecodeStruct. destruct e; try done. destruct d; try done. by rewrite (same_type a b Hs). }
  destruct t; try done.
  - unfold mapDecodeString. destruct d; try done. by rewrite (same_bytes a b Hs).
  - unfold mapDecodeSlice. destruct v; try done; [|by rewrite Hobjects].
    destruct (lift (assert_string d)) as [[s|]|]; cbn [bind_res]; [|done..].
    destruct (decode_hex L s) as [[x|]|]; cbn [bind_res]; [|done..]. by rewrite (same_bytes a b Hs).
  - unfold mapDecodeArray. destruct v; try done. by rewrite Hobjects.
  - unfold mapDecodeMap. destruct v; try done. destruct d; try done.
    destruct (map_decode_pairs P api D t1 t2 _ _) as [[x|]|]; cbn [bind_res]; [|done..]. by rewrite (same_bounds a b Hs).
  - destruct v as [| | | | | | | | | | | | |o| |]; try done. destruct t; try done; rewrite ?Hstruct, ?Hinterface; try done.
    unfold map_decode_array_ptr. destruct (default _ o); try done; [|by rewrite Hobjects].
    destruct (GetByType _ _); [|done]. destruct (lift (assert_map d)) as [[m|]|]; cbn [bind_res]; [|done..].
    destruct (lift _) as [[s|]|]; cbn [bind_res]; [|done..].
    destruct (decode_hex L s) as [[x|]|]; cbn [bind_res]; [|done..]. by rewrite (same_bytes a b Hs).
Qed.

Lemma mapDecode_settings n addr d t v ts ts' :
  same_rules (merged api ts t) (merged api ts' t) →
  mapDecode L P M api validation n addr d t v ts = mapDecode L P M api validation n addr d t v ts'.
Proof.
  revert addr d t v ts ts'. induction n as [|n IH]; intros addr d t v ts ts' Hs; [done|].
  cbn [mapDecode]. by apply map_decode_layer_settings.
Qed.

Lemma mapEncode_mapDecode n :
  (∀ t v ts, wf_json n t v ts →
     reads_json (mapEncode L P M api validation n) (mapDecode L P M api validation n) (keys n) t v ts) ∧
  (∀ t v, wf_struct_json n t v →
     fields_read_json (mapEncodeStructFields L P M api validation n) (mapDecodeStructFields L P M api validation n)
       (struct_keys n) t v).
Proof.
  induction n as [|n [HE HF]]; [done|]. split.
  - intros t v ts Hwf e He. cbn [mapEncode mapDecode keys wf_json] in *.
    apply (layer_reads (wf_json n) (wf_struct_json n) (mapEncode L P M api validation n)
      (mapEncodeStructFields L P M api validation n)); try done. intros. by apply mapDecode_settings.
  - intros t v Hwf o o' ks Hks Hn Ho He. cbn [wf_struct_json struct_keys] in *.
    destruct t as [| | | | |m| | | | | |]; try done. destruct v as [| | | | | | |fs| | | | | | | |]; try done.
    destruct (getStructFields P (TStruct m)) as [sfs|] eqn:Hsfs; [|done].
    rewrite (mapEncodeStructFields_S _ _ _ _ _ Hsfs) in He.
    destruct (struct_fields_read (wf_json n) (wf_struct_json n) _ _ (mapDecode L P M api validation n)
      (mapDecodeStructFields L P M api validation n) (keys n) (struct_keys n) HE HF
      (mapDecode_settings n) m fs o o' sfs ks Hwf Hsfs Hks Hn Ho He)
      as (Hfr & Hnd & Hd).
    split_and!; [done..|]. intros ds Ha. destruct (Hd ds Ha) as (fs' & Hb & Hdec). exists (VStruct fs'). split; [done|].
    rewrite zero_struct, (mapDecodeStructFields_S _ _ _ _ _ Hsfs), Hdec. done.
Qed.

End Roundtrip.
