(* ===== verification/SerixJSONAPI.v ===== *)
(** * serializer/serix: properties of MapEncode and MapDecode

    The round trip through JSON, on a program with most kinds of fields, and the
    types that [MapEncode] writes but [MapDecode] does not read. *)

From S2P Require Import OrderedMap.
From S2P Require Import Prelude Bytes Serializable Serializer Deserializer SerializerFields SerializerObjects.
From S2P Require Import SerixTypes SerixEncode SerixDecode SerixRoundtrip Serix SerixJSON SerixJSONRoundtrip.

(** The destination of [MapDecode] is a pointer to a zero value, which is decoded as
    a nil pointer inside a value is. *)
Lemma mapDecode_new L P M api validation n d e ts :
  mapDecode L P M api validation n false d (TPtr e) (VPtr (Some (zero P e))) ts =
  mapDecode L P M api validation n true d (TPtr e) (VPtr None) ts.
Proof. by destruct n. Qed.

(** C2: JSON maps round trip, for lawful libraries, JSON methods and validators, if
    [wf_json]. What [MapEncode] builds for a pointer to a value, parsed from its JSON,
    [MapDecode] turns, in a new value and in any order of the entries, into the same value
    up to [back], validating on both sides or none. Asked: values of their type, arrays of
    bytes, nil pointers, interfaces only if optional, no NaN, times in int64 nanoseconds
    from 1970, big.Int in uint256, valid UTF-8; no object code on slices and byte arrays,
    pointers to byte arrays one (else a panic), with bounds met and a key not "type"; other
    codes are fitting uint8 or uint32, in interfaces registered with the rules given there;
    no JSON method on interface types; embedded pointers set and exported; names not empty;
    an omitted field is not inlined and zero or an empty slice, an inlined one has no field
    key; keys of objects are known, distinct, valid; map keys hashable and distinct, also as
    JSON; keys and values have their zero value's settings. *)
Theorem json_roundtrip L P M api validation n e w ts es ds :
  libraries_lawful L → json_methods_lawful P M → validators_lawful P api →
  wf_json L P M api validation n (TPtr e) (VPtr (Some w)) ts →
  MapEncode L P M api validation n (Some (TPtr e, VPtr (Some w))) ts = Ret (inl es) →
  via_json (JObject es) (DObject ds) →
  ∃ w', back P api e ts w w' ∧
    MapDecode L P M api validation n ds (Some (TPtr e, VPtr (Some (zero P e)))) ts = Ret (inl (VPtr (Some w'))).
Proof.
  intros HL HM HV Hwf He Hd. unfold MapEncode in He. apply bind_res_ok in He as (j & Hj & He).
  destruct j; try done. injection He as ->.
  destruct (proj1 (mapEncode_mapDecode L P M api validation HL HM HV n) _ _ _ Hwf _ Hj) as [Hread _].
  destruct (Hread _ Hd) as (v' & Hb & Hdec). destruct (back_ptr_inv _ _ _ _ _ _ Hb) as (w' & -> & Hb').
  exists w'. split; [done|]. unfold MapDecode. cbn [checkDecodeDestination is_ptr negb is_nil].
  rewrite mapDecode_new. exact Hdec.
Qed.

(** ** Libraries that do what is asked of them *)

Definition hex_digit (n : Z) : byte := z2b (if n <? 10 then 48 + n else 87 + n).

Definition hex_value (b : byte) : option Z :=
  let z := b2z b in
  if (48 <=? z) && (z <=? 57) then Some (z - 48)
  else if (97 <=? z) && (z <=? 102) then Some (z - 87) else None.

Fixpoint hex_digits (b : list byte) : text :=
  match b with [] => [] | x :: b => hex_digit (b2z x / 16) :: hex_digit (b2z x mod 16) :: hex_digits b end.

Definition ErrEmptyHex : error := ErrNew "empty hex string".

Fixpoint hex_bytes (s : text) : list byte + error :=
  match s with
  | [] => inl []
  | x :: y :: s =>
      match hex_value x, hex_value y, hex_bytes s with
      | Some h, Some l, inl b => inl (z2b (16 * h + l) :: b)
      | _, _, _ => inr (ErrNew "invalid hex string")
      end
  | _ => inr (ErrNew "hex string of odd length")
  end.

Definition hex_decode (s : text) : list byte + error :=
  match s with
  | [] => inr ErrEmptyHex
  | x30 :: x78 :: s => hex_bytes s
  | _ => inr (ErrNew "hex string without 0x prefix")
  end.

(** A number of [n] bytes. *)
Definition hex_number (n : nat) (z : Z) : text := x30 :: x78 :: hex_digits (le_bytes n z).

Definition hex_parse (s : text) : Z + error :=
  match hex_decode s with inl b => inl (le_num b) | inr e => inr e end.

Definition sample_libraries : libraries := {|
  orderedmap_Set A m k a := al_set k a m;
  hexutil_Encode b := x30 :: x78 :: hex_digits b;
  hexutil_Decode := hex_decode;
  hexutil_ErrEmptyString := ErrEmptyHex;
  hexutil_EncodeBig o :=
    match o with Some z => Ret (hex_number 32 z) | None => Panic "invalid memory address or nil pointer dereference" end;
  hexutil_DecodeBig := hex_parse;
  FormatFloat k bits := hex_number 8 bits;
  ParseFloat k s := hex_parse s;
  convert_overflow T m e := 0;
|}.

Lemma hex_digit_value b : hex_value (hex_digit (b2z b / 16)) = Some (b2z b / 16) ∧ hex_value (hex_digit (b2z b mod 16)) = Some (b2z b mod 16).
Proof. by destruct b. Qed.

Lemma hex_digits_back b : hex_bytes (hex_digits b) = inl b.
Proof.
  induction b as [|x b IH]; [done|]. cbn [hex_digits hex_bytes]. destruct (hex_digit_value x) as [-> ->]. rewrite IH.
  rewrite <-Z.div_mod by done. by rewrite z2b_b2z.
Qed.

Lemma hex_digits_valid b : ValidString (x30 :: x78 :: hex_digits b) = true.
Proof.
  apply ascii_valid. repeat (constructor; [done|]). induction b as [|x b IH]; [constructor|]. cbn [hex_digits].
  constructor; [by destruct x|]. constructor; [by destruct x|done].
Qed.

Lemma al_map_get {A} (m : list (text * A)) k a k' :
  al_get k' ((λ kv, if decide (kv.1 = k) then (k, a) else kv) <$> m) =
    if decide (k = k') then (λ _, a) <$> al_get k m else al_get k' m.
Proof.
  induction m as [|[k1 b] m IH]; cbn; [by case_decide|].
  destruct (decide (k1 = k)) as [->|]; cbn; destruct (decide (k = k')) as [->|]; rewrite ?IH; try done.
  by rewrite decide_False.
Qed.

Lemma al_set_get {A} (m : list (text * A)) k a k' :
  al_get k' (al_set k a m) = if decide (k = k') then Some a else al_get k' m.
Proof.
  unfold al_set. destruct (al_get k m) as [x|] eqn:E; [by rewrite al_map_get, E|].
  induction m as [|[k1 b] m IH]; cbn in *; [done|]. destruct (decide (k1 = k)); [done|].
  destruct (decide (k1 = k')) as [->|]; [by rewrite decide_False|]. by apply IH.
Qed.

Lemma al_set_nodup {A} (m : list (text * A)) k a : NoDup m.*1 → NoDup (al_set k a m).*1.
Proof.
  intros Hn. unfold al_set. destruct (al_get k m) as [x|] eqn:E.
  - assert (((λ kv : text * A, if decide (kv.1 = k) then (k, a) else kv) <$> m).*1 = m.*1) as ->; [|done].
    clear. induction m as [|[k1 b] m IH]; [done|]. rewrite !fmap_cons, IH. cbn. by destruct (decide (k1 = k)) as [->|].
  - rewrite fmap_app. apply NoDup_app. split_and!; [done| |apply NoDup_singleton].
    intros k1 Hk1 Ek%list_elem_of_singleton. apply list_elem_of_fmap in Hk1 as ([k2 b] & -> & Hin). cbn in Ek. subst k2.
    by rewrite (elem_al_get _ _ _ Hn Hin) in E.
Qed.

Lemma sample_libraries_lawful : libraries_lawful sample_libraries.
Proof.
  split; cbn [sample_libraries orderedmap_Set hexutil_Encode hexutil_Decode hexutil_ErrEmptyString hexutil_EncodeBig
    hexutil_DecodeBig FormatFloat ParseFloat].
  - intros. apply al_set_get.
  - intros. by apply al_set_nodup.
  - intros b _. split; [apply hex_digits_back|apply hex_digits_valid].
  - by eexists.
  - intros z Hz. eexists. split_and!; [done| |apply hex_digits_valid]. unfold hex_parse, hex_number. cbn [hex_decode].
    by rewrite hex_digits_back, le_roundtrip.
  - intros k bits Hb _. split; [|apply hex_digits_valid]. unfold hex_parse, hex_number. cbn [hex_decode].
    rewrite hex_digits_back, le_roundtrip; [done|]. change (8 * Z.of_nat 8) with 64. case_bool_decide; lia.
Qed.

(** ** A program *)

(** A type that writes itself, objects of an interface, one of which is an array of
    bytes, and a struct with an embedded struct and most kinds of fields. *)
Definition Address : rtype := TArray "Address" 2 byte_type.

Definition json_fields_of (n : tname) : list StructField :=
  if bool_decide (n = "Circle"%string) then [field "Radius" (TNum EmptyString (NumInt U16)) (Some EmptyString)]
  else if bool_decide (n = "Base"%string) then
    [field "At" TTime (Some EmptyString);
     field "Ratio" (TNum EmptyString NumFloat64) (Some EmptyString)]
  else if bool_decide (n = "Card"%string) then
    [{| f_name := "Base"; f_exported := true; f_anonymous := true; f_type := TStruct "Base"; f_tag := Some EmptyString |};
     field "Name" (TString EmptyString) (Some "title,maxLen=10");
     field "Shape" Shape (Some ",optional");
     field "Other" Shape (Some ",optional");
     field "OwnerID" Shape (Some EmptyString);
     field "Amount" (TNum EmptyString (NumInt U64)) (Some EmptyString);
     field "Tags" (TMap EmptyString (TString EmptyString) (TBool EmptyString)) (Some EmptyString);
     field "Levels" (TSlice EmptyString Level) (Some ",minLen=1");
     field "Note" (TString EmptyString) (Some ",omitempty");
     field "Total" TBigIntPtr (Some EmptyString);
     field "Cache" (TString EmptyString) None]
  else [].

Program Definition json_program : program := {|
  fields_of := json_fields_of;
  rank_of n := if bool_decide (n = "Card"%string) then 1%nat else O;
  Encode_method t := None;
  Decode_method t := None;
|}.
Next Obligation.
  intros n f m Hf Hm. unfold json_fields_of in Hf.
  destruct (bool_decide (n = "Circle"%string)) eqn:E1; [set_solver|].
  destruct (bool_decide (n = "Base"%string)) eqn:E2; [set_solver|].
  destruct (bool_decide (n = "Card"%string)) eqn:E3; [|set_solver].
  rewrite !elem_of_cons, elem_of_nil in Hf. repeat (destruct Hf as [->|Hf]; [try done|]); [|done].
  cbn in Hm. injection Hm as <-. apply bool_decide_eq_true in E3 as ->. vm_compute. lia.
Qed.

Definition level_EncodeJSON (v : value) : jval * option error :=
  match v with
  | VInt z => if (0 <=? z) && (z <=? 255) then (JArray [JInt z], None) else (JNull, Some (ErrNew "level"))
  | _ => (JNull, Some (ErrNew "level"))
  end.

Definition level_DecodeJSON (v : value) (d : dval) : value * option error :=
  match d with
  | DArray [DNum m e] => (VInt (float_to sample_libraries U8 m e), None)
  | _ => (v, Some (ErrNew "level"))
  end.

Definition json_sample_methods : json_methods := {|
  EncodeJSON_method t := if bool_decide (DeRefPointer t = Level) then Some level_EncodeJSON else None;
  DecodeJSON_method t := if bool_decide (t = TPtr Level) then Some level_DecodeJSON else None;
|}.

Definition json_api : API :=
  let code n := WithObjectType NewTypeSettings (Some (ObjectCode false (NInt U8 n))) in
  let api := (RegisterTypeSettings NewAPI (Some (TStruct "Circle")) (code 7)).1 in
  let api := (RegisterTypeSettings api (Some Address) (WithFieldKey (code 8) "pubKeyHash")).1 in
  run (RegisterInterfaceObjects api (Some (TPtr Shape)) [Some (TPtr (TStruct "Circle")); Some (TPtr Address)]).

Definition json_value : value :=
  VStruct [VStruct [VTime 1700000000000000000; VFloat64 4607182418800017408];
           VString [x41; x62];
           VInterface (Some (TPtr (TStruct "Circle"), VPtr (Some (VStruct [VInt 300]))));
           VInterface None;
           VInterface (Some (TPtr Address, VPtr (Some (VByteArray [x0a; xff]))));
           VInt 18446744073709551615;
           VMap (Some [(VString [x62], VBool true); (VString [x61], VBool false)]);
           VSlice (Some [VInt 5; VInt 4]);
           VString [];
           VBigInt (Some 1000);
           VString [x5a]].

Lemma json_sample_lawful : json_methods_lawful json_program json_sample_methods.
Proof.
  assert (∀ v z e, level_EncodeJSON v = (e, None) → ∀ d, via_json e d → level_DecodeJSON (VInt z) d = (v, None)) as Hlevel.
  { intros v z e He d Hd. unfold level_EncodeJSON in He. destruct v as [|x| | | | | | | | | | | | | |]; try done.
    destruct ((0 <=? x) && (x <=? 255)) eqn:E; [|done]. injection He as <-.
    apply andb_true_iff in E as [?%Z.leb_le ?%Z.leb_le].
    apply via_array in Hd as (ds & -> & Hds). inversion Hds as [|? d ? ? Hd Hn]; subst. inversion Hn; subst.
    rewrite (Hd ltac:(lia)). cbn [level_DecodeJSON]. rewrite float_to_exact; [done|]. unfold in_range. ity_consts. lia. }
  split; cbn [EncodeJSON_method DecodeJSON_method json_sample_methods].
  - done.
  - intros t Hp Ht. split; (rewrite bool_decide_false; [done|]); intros ?; simplify_eq/=.
  - intros t Hp Ht. rewrite bool_decide_false; [done|]. intros ->. done.
  - intros t Hp. rewrite bool_decide_false; [done|]. intros [= ->]. done.
  - intros t m v e Hp Ht Hm. destruct (bool_decide (DeRefPointer t = Level)) eqn:E; [|done].
    apply bool_decide_eq_true in E. injection Ht as <-. assert (t = Level) as -> by (by destruct t).
    split; [done|]. exists level_DecodeJSON. split; [done|]. by apply Hlevel.
  - intros t m w e Ht Hm. destruct (bool_decide (DeRefPointer (TPtr t) = Level)) eqn:E; [|done].
    apply bool_decide_eq_true in E. injection Ht as <-. simpl in E. subst t.
    exists level_DecodeJSON. split; [done|]. by apply Hlevel.
  - done.
Qed.

Lemma json_sample_validators : validators_lawful json_program json_api.
Proof. intros t f ts v v'. by vm_compute (validatorsRegistry json_api). Qed.

Lemma wf_json_plain L P M api validation n t v ts :
  serializableJSON M t v = None →
  wf_type_json P M api validation (wf_json L P M api validation n) (wf_struct_json L P M api validation n)
    (mapEncode L P M api validation n) (keys P M api n) (struct_keys P M api n) t v ts →
  wf_json L P M api validation (S n) t v ts.
Proof.
  intros Hs H. change (wf_json L P M api validation (S n) t v ts) with
    (wf_layer_json P M api validation (wf_json L P M api validation n) (wf_struct_json L P M api validation n)
      (mapEncode L P M api validation n) (keys P M api n) (struct_keys P M api n) t v ts).
  unfold wf_layer_json. by rewrite Hs.
Qed.

Notation wfj n := (wf_json sample_libraries json_program json_sample_methods json_api true n).

Ltac good := eexists; split; [vm_compute; reflexivity|]; split; [apply (bool_decide_unpack _); vm_compute; exact I|by vm_compute; repeat constructor].

Lemma circle_wf_json : wfj 5 (TPtr (TStruct "Circle")) (VPtr (Some (VStruct [VInt 300])))
  (default NewTypeSettings (GetByType (typeSettingsRegistry json_api) (TPtr (TStruct "Circle")))).
Proof.
  apply wf_json_plain; [by vm_compute|]. split; [|split; [by vm_compute|good]]. each_field.
  split; [done|]. split; [|done]. apply wf_json_plain; by vm_compute.
Qed.

Lemma address_wf_json : wfj 5 (TPtr Address) (VPtr (Some (VByteArray [x0a; xff])))
  (default NewTypeSettings (GetByType (typeSettingsRegistry json_api) (TPtr Address))).
Proof.
  apply wf_json_plain; [by vm_compute|]. split_and!; try by vm_compute. by eexists.
Qed.

(** A field that is not omitted. *)
Ltac present := split; [done|]; split; [|done]; apply wf_json_plain; [by vm_compute|].

Lemma shape_wf_json dt dv :
  serializableJSON json_sample_methods Shape (VInterface (Some (dt, dv))) = None →
  dt ∈ [TPtr (TStruct "Circle"); TPtr Address] →
  is_Some (keys json_program json_sample_methods json_api 5 dt dv
    (default NewTypeSettings (GetByType (typeSettingsRegistry json_api) dt))) →
  wfj 5 dt dv (default NewTypeSettings (GetByType (typeSettingsRegistry json_api) dt)) →
  wfj 6 Shape (VInterface (Some (dt, dv))) NewTypeSettings.
Proof.
  intros Hs Hdt Hk Hw. apply wf_json_plain; [done|]. eexists. split; [by vm_compute|].
  rewrite !elem_of_cons, elem_of_nil in Hdt. destruct Hdt as [->|[->|[]]]; split_and!; try done; by vm_compute.
Qed.

Lemma json_sample_wf : wfj 8 (TPtr (TStruct "Card")) (VPtr (Some json_value)) NewTypeSettings.
Proof.
  apply wf_json_plain; [by vm_compute|]. split; [|split; [by vm_compute|good]]. each_field.
  - each_field; present; by vm_compute.
  - by present.
  - split; [done|]. split; [|done]. apply shape_wf_json; [by vm_compute|by left|by vm_compute; eexists|apply circle_wf_json].
  - split; [done|]. split; [done|by left].
  - split; [done|]. split; [|done]. apply shape_wf_json; [by vm_compute|right; by left|by vm_compute; eexists|apply address_wf_json].
  - present. by vm_compute.
  - present. exists NewTypeSettings, NewTypeSettings. split_and!.
    + repeat constructor; try by vm_compute. all: by apply wf_json_plain.
    + repeat constructor; intros k' Hk; inversion Hk; by subst.
    + intros i j a b ka kb Ha Hb Hij Hka Hkb.
      destruct i as [|[|i]], j as [|[|j]]; simplify_eq/=; inversion Hka; inversion Hkb; by subst.
    + intros kv s Hin He. cbn [default from_option id] in Hin. rewrite !elem_of_cons, elem_of_nil in Hin.
      destruct Hin as [->|[->|[]]]; vm_compute in He; injection He as <-; by vm_compute.
    + intros i j a b Ha Hb Hij. destruct i as [|[|i]], j as [|[|j]]; simplify_eq/=; by vm_compute.
  - present. split_and!; [by vm_compute..|]. by repeat constructor.
  - split; [done|]. split; [done|by left].
  - present. by vm_compute.
Qed.

(** One way in which JSON comes back. *)
Fixpoint parsed (e : jval) : dval :=
  match e with
  | JNull => DNull
  | JBool b => DBool b
  | JInt z | JCode (ObjectCode false (NInt _ z)) => DNum z 0
  | JCode _ => DNull
  | JString s => DString s
  | JArray l => DArray (parsed <$> l)
  | JObject es => DObject ((λ kv, (kv.1, parsed kv.2)) <$> es)
  end.

Lemma parsed_via : ∀ e, via_json e (parsed e).
Proof.
  fix IH 1. intros [| | |[[|] []]| |l|es]; cbn; try (clear IH; done).
  - exists (parsed <$> l). split; [done|]. induction l as [|e l IHl]; [done|]. split; [apply IH|exact IHl].
  - intros _ _. eexists _, _. split; [done|]. split; [done|].
    induction es as [|[k e] es IHl]; [done|]. cbn. split; [done|]. split; [apply IH|exact IHl].
Qed.

Definition json_entries : list (text * jval) :=
  match MapEncode sample_libraries json_program json_sample_methods json_api true 8
    (Some (TPtr (TStruct "Card"), VPtr (Some json_value))) NewTypeSettings with
  | Ret (inl es) => es
  | _ => []
  end.

(** The entries of the card, last one first. *)
Definition json_parsed : list (text * dval) := rev ((λ kv, (kv.1, parsed kv.2)) <$> json_entries).

Lemma parsed_rev es : via_json (JObject es) (DObject (rev ((λ kv, (kv.1, parsed kv.2)) <$> es))).
Proof.
  pose proof (parsed_via (JObject es)) as H. cbn [via_json parsed] in *. intros Hv Hn.
  destruct (H Hv Hn) as (ds & ds0 & Hds & Hp & Hall). injection Hds as Hds. eexists _, ds0. split_and!; [done| |done].
  by rewrite <-Permutation_rev, Hds.
Qed.

Lemma json_roundtrip_witness :
  length json_entries = 9%nat ∧
  ∃ w', back json_program json_api (TStruct "Card") NewTypeSettings json_value w' ∧
    MapDecode sample_libraries json_program json_sample_methods json_api true 8 json_parsed
      (Some (TPtr (TStruct "Card"), VPtr (Some (zero json_program (TStruct "Card"))))) NewTypeSettings =
    Ret (inl (VPtr (Some w'))).
Proof.
  split; [vm_compute; reflexivity|].
  apply (json_roundtrip sample_libraries json_program json_sample_methods json_api true 8 (TStruct "Card") json_value
    NewTypeSettings json_entries json_parsed sample_libraries_lawful json_sample_lawful json_sample_validators json_sample_wf).
  - vm_compute. reflexivity.
  - apply (parsed_rev json_entries).
Defined.

(** ** What is written but not read *)

Section NotRead.
Context (L : libraries) (P : program) (M : json_methods).

(** A slice of bytes whose settings have an object type is written as an object and
    read as a string. *)
Lemma slice_with_code_panics n el b ts c api D DF d :
  objectType (merged api ts (TSlice n el)) = Some c →
  (∃ es, mapEncodeBasedOnType L api true (λ _ _ _, stack_overflow) (λ _ _ _, stack_overflow) (TSlice n el) (VBytes b) ts =
    Ret (inl (JObject es))) ∧
  mapDecodeBasedOnType L P api true D DF true (DObject d) (TSlice n el) (VBytes None) ts =
    Panic "interface conversion: interface {} is not string".
Proof.
  intros Hc. split; [|done]. cbn [mapEncodeBasedOnType]. unfold mapEncodeSlice. rewrite Hc. by eexists.
Qed.

(** A pointer to an array of bytes without an object type is written as a string and
    read as an object. *)
Lemma array_ptr_without_code_panics n size b its api D DF s :
  let t := TPtr (TArray n size byte_type) in
  GetByType (typeSettingsRegistry api) t = Some its → objectType its = None →
  (∃ s', mapEncodeBasedOnType L api false (λ _ _ _, stack_overflow) (λ _ _ _, stack_overflow) t
     (VPtr (Some (VByteArray b))) NewTypeSettings = Ret (inl (JString s'))) ∧
  mapDecodeBasedOnType L P api false D DF true (DString s) t (VPtr None) NewTypeSettings =
    Panic "interface conversion: interface {} is not map[string]interface {}".
Proof.
  intros t. subst t. intros Hg Ho. split.
  - cbn [mapEncodeBasedOnType]. rewrite Hg. cbn [default from_option id]. unfold mapEncodeSlice. rewrite Ho. by eexists.
  - cbn [mapDecodeBasedOnType default from_option]. rewrite zero_array. cbn [is_byte].
    unfold is_byte, map_decode_array_ptr. rewrite bool_decide_true by done. by rewrite Hg.
Qed.

(** A field with a key that is inlined is written under its key and read from the
    object around it. *)
Lemma inlined_key_ignored sf v k o e E EF :
  isEmbedded sf = false → inlined (settings sf) = true → isOptional (settings sf) = false → omitEmpty (settings sf) = false →
  fieldKey (tag_ts (settings sf)) = Some k → E (fType sf) v (tag_ts (settings sf)) = Ret (inl e) →
  map_encode_field L E EF o sf v = Ret (inl (Set_key L o (to_text k) e)) ∧
  ∀ D DF m w, map_decode_field P D DF m sf w =
    wrap_res "failed to deserialize inlined struct field %s" (D true (DObject m) (fType sf) w (tag_ts (settings sf))).
Proof.
  intros H1 H2 H3 H4 H5 He. unfold map_encode_field, map_decode_field. rewrite H1, H2, H3, H4, H5, He. done.
Qed.

(** A map whose keys are small numbers cannot be encoded. *)
Lemma small_number_keys_panic n E api :
  (∀ k ts, E (TNum EmptyString (NumInt U32)) (VInt k) ts = Ret (inl (JInt k))) →
  (∀ b ts, E (TBool EmptyString) (VBool b) ts = Ret (inl (JBool b))) → typeSettingsRegistry api = [] →
  mapEncodeBasedOnType L api true E (λ _ _ _, stack_overflow) (TMap n (TNum EmptyString (NumInt U32)) (TBool EmptyString))
    (VMap (Some [(VInt 1, VBool true)])) NewTypeSettings = Panic "interface conversion".
Proof.
  intros Hk Hb Hr. cbn [mapEncodeBasedOnType]. unfold mapEncodeMap, merged, GetByType. rewrite Hr. cbn.
  unfold mapEncodeMapKVPair. rewrite Hr. cbn. by rewrite Hk, Hb.
Qed.

End NotRead.
