(* ===== verification/SerializableOrderedMap.v ===== *)
(** * ds/serializableorderedmap

    [src/ds/serializableorderedmap/serializable_orderedmap.go].  The ordered map
    is the association list it refines.  [Encode] and [Decode] of the serix API
    on keys and values are arguments: a result, an error or a panic. *)

From S2P Require Import OrderedMap.
From S2P Require Import Prelude Bytes Serializable Serializer Deserializer SerializerFields.
From S2P Require Import SerixTypes SerixEncode SerixDecode SerixRoundtrip.

Section SerializableOrderedMap.
Context {K V : Type} `{EqDecision K}.
Context (encode_key : K → res (list byte)) (encode_value : V → res (list byte)).
Context (decode_size : list byte → res (Z * Z)).
Context (decode_key : list byte → res (K * Z)) (decode_value : list byte → res (V * Z)).

Definition SerializableOrderedMap : Type := list (K * V).

(** [seri.AbortIf] with the error of [api.Encode]; the bytes are nil then. *)
Definition encoded_or_abort (s : Serializer) (r : list byte + error) (message : string) :
    Serializer * list byte :=
  match r with
  | inl b => (s, b)
  | inr err => (AbortIf s (λ _, Some (ErrWrap err message)), [])
  end.

(** The loop over the entries; it goes on after an error. *)
Fixpoint encode_entries (s : Serializer) (o : SerializableOrderedMap) : outcome Serializer :=
  match o with
  | [] => Ret s
  | (key, val) :: o =>
      keyBytes ← encode_key key;
      let '(s, keyBytes) := encoded_or_abort s keyBytes "failed to encode SerializableOrderedMap key" in
      let s := WriteBytes s keyBytes (producing "failed to write SerializableOrderedMap key to serializer") in
      valBytes ← encode_value val;
      let '(s, valBytes) := encoded_or_abort s valBytes "failed to serialize SerializableOrderedMap value" in
      let s := WriteBytes s valBytes (producing "failed to write SerializableOrderedMap value to serializer") in
      encode_entries s o
  end.

Definition Encode (o : SerializableOrderedMap) : res (list byte) :=
  let s := WriteNum NewSerializer (NInt U32 (Prelude.wrap U32 (len o)))
             (producing "failed to write SerializableOrderedMap size to serializer") in
  serialized_outcome (encode_entries s o).

(** [for range mapSize]: the map and the bytes read so far. *)
Fixpoint decode_entries (n : nat) (o : SerializableOrderedMap) (b : list byte) (bytesRead : Z) :
    res (SerializableOrderedMap * Z) :=
  match n with
  | O => ok (o, bytesRead)
  | S n =>
      kb <~ lift (slice_after b bytesRead);
      k <~ decode_key kb;
      let bytesRead := bytesRead + k.2 in
      vb <~ lift (slice_after b bytesRead);
      v <~ decode_value vb;
      decode_entries n (al_set k.1 v.1 o) b (bytesRead + v.2)
  end.

Definition Decode (o : SerializableOrderedMap) (b : list byte) : res (SerializableOrderedMap * Z) :=
  r <~ decode_size b;
  decode_entries (Z.to_nat r.1) o b r.2.

(** ** Round trip *)

(** What is asked of the API on keys, values and the size. *)
Definition codec {A} (enc : A → res (list byte)) (dec : list byte → res (A * Z)) (a : A) : Prop :=
  ∃ b, enc a = Ret (inl b) ∧ ∀ rest, dec (b ++ rest) = Ret (inl (a, len b)).

Definition size_codec : Prop :=
  ∀ n rest, in_range U32 n → decode_size (le_bytes 4 n ++ rest) = Ret (inl (n, 4)).

Lemma WriteBytes_ok s b ep : s_err s = None → WriteBytes s b ep = wrote s b.
Proof. intros Hs. unfold WriteBytes. rewrite Hs. by apply write_ok. Qed.

Lemma slice_after_app a b : slice_after (a ++ b) (len a) = Ret b.
Proof.
  unfold slice_after. rewrite len_app. pose proof (len_nonneg a). pose proof (len_nonneg b).
  rewrite !(proj2 (Z.leb_le _ _)) by lia. cbn [andb]. unfold len. by rewrite Nat2Z.id, drop_app_length.
Qed.

Lemma entries_back es s : s_err s = None →
  Forall (λ kv, codec encode_key decode_key kv.1 ∧ codec encode_value decode_value kv.2) es →
  ∃ bs, encode_entries s es = Ret (wrote s bs) ∧
    ∀ pre rest o, NoDup (o ++ es).*1 →
      decode_entries (length es) o (pre ++ bs ++ rest) (len pre) = Ret (inl (o ++ es, len pre + len bs)).
Proof.
  intros Hs Hes. revert s Hs. induction Hes as [|[k v] es [(kb & Hke & Hkd) (vb & Hve & Hvd)] _ IH]; intros s Hs.
  { exists []. split; [cbn; by rewrite wrote_nil|]. intros pre rest o _. cbn [length decode_entries].
    rewrite app_nil_r. unfold ok. do 3 f_equal. unfold len. simpl. lia. }
  destruct (IH (wrote s (kb ++ vb)) eq_refl) as (bs & He & Hd). exists (kb ++ vb ++ bs). split.
  - cbn [encode_entries]. cbn [fst snd] in *. rewrite Hke. cbn [mbind outcome_bind encoded_or_abort].
    rewrite WriteBytes_ok, Hve by done. cbn [mbind outcome_bind encoded_or_abort]. rewrite WriteBytes_ok by done.
    rewrite SerializerObjects.wrote_wrote, He, SerializerObjects.wrote_wrote. by rewrite <-app_assoc.
  - intros pre rest o Hnd. cbn [length decode_entries]. rewrite <-!app_assoc, slice_after_app. cbn [lift bind_res ok].
    rewrite Hkd. cbn [bind_res fst snd]. rewrite <-len_app, (app_assoc pre kb), slice_after_app. cbn [lift bind_res ok].
    rewrite Hvd. cbn [bind_res fst snd]. rewrite <-len_app, (app_assoc (pre ++ kb) vb).
    assert (al_set k v o = o ++ [(k, v)]) as ->.
    { unfold al_set. rewrite al_get_None; [done|]. rewrite fmap_app in Hnd. apply NoDup_app in Hnd as (_ & Hnd & _).
      intros Hin%Hnd. apply Hin. cbn. by left. }
    rewrite Hd by (by rewrite <-app_assoc). rewrite <-app_assoc. cbn [app]. unfold ok. do 3 f_equal.
    rewrite !len_app. lia.
Qed.

(** A serializable ordered map is read back as it was, in the same order and
    whatever follows, when its keys, values and size are; exactly its bytes are
    consumed. *)
Lemma SerializableOrderedMap_roundtrip es rest :
  NoDup es.*1 → in_range U32 (len es) → size_codec →
  Forall (λ kv, codec encode_key decode_key kv.1 ∧ codec encode_value decode_value kv.2) es →
  ∃ b, Encode es = Ret (inl b) ∧ Decode [] (b ++ rest) = Ret (inl (es, len b)).
Proof.
  intros Hnd Hl Hsz Hes. unfold Encode, Decode. rewrite wrap_id by done.
  unfold WriteNum. cbn [NewSerializer s_err binary_Write]. rewrite write_ok by done. cbn [ity_bytes].
  destruct (entries_back es (wrote NewSerializer (le_bytes 4 (len es))) eq_refl Hes) as (bs & He & Hd).
  rewrite He. cbn [serialized_outcome]. rewrite SerializerObjects.wrote_wrote, serialized_wrote.
  cbn [NewSerializer buf app]. eexists. split; [done|]. rewrite <-app_assoc, Hsz by done. cbn [bind_res fst snd].
  specialize (Hd (le_bytes 4 (len es)) rest [] Hnd). rewrite len_le_bytes in Hd.
  change (Z.of_nat 4) with 4 in Hd. replace (Z.to_nat (len es)) with (length es) by (unfold len; lia).
  rewrite Hd. by rewrite len_app, len_le_bytes.
Qed.

End SerializableOrderedMap.

(** Keys and values of one byte. *)
Lemma SerializableOrderedMap_roundtrip_witness :
  let enc (x : byte) : res (list byte) := ok [x] in
  let dec (b : list byte) : res (byte * Z) :=
    match b with x :: _ => ok (x, 1) | [] => fail (ErrNew "empty") end in
  let dec_size (b : list byte) : res (Z * Z) :=
    if len b <? 4 then fail (ErrNew "short") else ok (le_num (take 4 b), 4) in
  ∃ b, Encode enc enc [(x07, x01); (x02, x03)] = Ret (inl b) ∧
    Decode dec_size dec dec [] (b ++ [xff]) = Ret (inl ([(x07, x01); (x02, x03)], len b)).
Proof.
  cbv zeta. apply (SerializableOrderedMap_roundtrip _ _ _ _ _ [(x07, x01); (x02, x03)] [xff]).
  - by apply (bool_decide_unpack _).
  - by unfold in_range.
  - intros n rest Hn. rewrite len_app, len_le_bytes. pose proof (len_nonneg rest).
    rewrite (proj2 (Z.ltb_ge _ _)) by lia. rewrite (take_app_length' _ _ 4) by (by rewrite length_le_bytes).
    rewrite le_roundtrip; [done|]. unfold in_range in Hn. ity_consts. simpl. lia.
  - repeat constructor; eexists; by split.
Defined.
