(* ===== verification/LinkedList.v ===== *)
(** * ds: the doubly linked list

    [src/ds/list_impl.go].  Lists and their elements live in a [world]: a store
    of cells and the lengths of the lists.  A pointer is the sentinel embedded
    in a list or an element of its own.  An argument of the interface type
    [ListElement] is an optional pointer; [None] stands for nil and for values
    of other types, which the methods refuse with a panic.  The methods of
    [threadSafeList] run the methods below under its mutex. *)

From stdpp Require Import functions.
From S2P Require Import Prelude Ring.

Definition lloc : Type := positive.
(** [inl l] is [&l.root], [inr p] an element. *)
Notation ptr := (lloc + positive)%type.

Section list_impl.
Context {T : Type} `{!Inhabited T}.

Record listElement : Type := mkElement {
  next : option ptr;
  prev : option ptr;
  list_ : option lloc;
  value : option T;
}.

Record world : Type := mkWorld {
  cells : gmap ptr listElement;
  lens : gmap lloc Z;
}.

(** ** Cells *)

Definition zero_element : listElement := {| next := None; prev := None; list_ := None; value := None |}.

Definition load (w : world) (p : option ptr) : outcome listElement :=
  match p with
  | Some p => match cells w !! p with Some e => Ret e | None => Panic "nil pointer dereference" end
  | None => Panic "nil pointer dereference"
  end.

Definition upd (w : world) (p : option ptr) (f : listElement → listElement) : outcome world :=
  match p with
  | Some p =>
      match cells w !! p with
      | Some e => Ret {| cells := <[p:=f e]> (cells w); lens := lens w |}
      | None => Panic "nil pointer dereference"
      end
  | None => Panic "nil pointer dereference"
  end.

Definition set_next (q : option ptr) (e : listElement) : listElement :=
  {| next := q; prev := prev e; list_ := list_ e; value := value e |}.
Definition set_prev (q : option ptr) (e : listElement) : listElement :=
  {| next := next e; prev := q; list_ := list_ e; value := value e |}.
Definition set_list (q : option lloc) (e : listElement) : listElement :=
  {| next := next e; prev := prev e; list_ := q; value := value e |}.

Definition get_len (w : world) (l : lloc) : outcome Z :=
  match lens w !! l with Some n => Ret n | None => Panic "nil pointer dereference" end.
Definition set_len (w : world) (l : lloc) (n : Z) : world :=
  {| cells := cells w; lens := <[l:=n]> (lens w) |}.

(** The type assertion to a pointer to [listElement]. *)
Definition typed (e : option ptr) : outcome ptr :=
  match e with Some p => Ret p | None => Panic "unsupported ListElement type" end.

(** ** Operations *)

Definition Init (w : world) (l : lloc) : outcome world :=
  w ← upd w (Some (inl l)) (set_next (Some (inl l)));
  w ← upd w (Some (inl l)) (set_prev (Some (inl l)));
  Ret (set_len w l 0).

(** [new(list[T])] followed by [Init]. *)
Definition newList (w : world) : outcome (world * lloc) :=
  let l := fresh (dom (lens w)) in
  let w := {| cells := <[inl l:=zero_element]> (cells w); lens := <[l:=0]> (lens w) |} in
  w ← Init w l;
  Ret (w, l).

Definition lazyInit (w : world) (l : lloc) : outcome world :=
  root ← load w (Some (inl l));
  match next root with None => Init w l | Some _ => Ret w end.

Definition Front (w : world) (l : lloc) : outcome (option ptr) :=
  n ← get_len w l;
  if n =? 0 then Ret None else root ← load w (Some (inl l)); Ret (next root).

Definition Back (w : world) (l : lloc) : outcome (option ptr) :=
  n ← get_len w l;
  if n =? 0 then Ret None else root ← load w (Some (inl l)); Ret (prev root).

Definition insert_ (w : world) (l : lloc) (e at_ : ptr) : outcome world :=
  w ← upd w (Some e) (set_prev (Some at_));
  a ← load w (Some at_);
  w ← upd w (Some e) (set_next (next a));
  x ← load w (Some e);
  w ← upd w (prev x) (set_next (Some e));
  x ← load w (Some e);
  w ← upd w (next x) (set_prev (Some e));
  w ← upd w (Some e) (set_list (Some l));
  n ← get_len w l;
  Ret (set_len w l (n + 1)).

(** The numbers of the elements of the store. *)
Definition used (w : world) : gset positive :=
  list_to_set (omap (λ p, match p with inr n => Some n | inl _ => None end) (elements (dom (cells w)))).

Definition insertValue (w : world) (l : lloc) (v : T) (at_ : ptr) : outcome (world * ptr) :=
  let newElement : ptr := inr (fresh (used w)) in
  let w := {| cells := <[newElement := {| next := None; prev := None; list_ := None; value := Some v |}]>
                         (cells w);
              lens := lens w |} in
  w ← insert_ w l newElement at_;
  Ret (w, newElement).

Definition remove (w : world) (l : lloc) (e : ptr) : outcome world :=
  x ← load w (Some e);
  w ← upd w (prev x) (set_next (next x));
  x ← load w (Some e);
  w ← upd w (next x) (set_prev (prev x));
  w ← upd w (Some e) (set_next None);
  w ← upd w (Some e) (set_prev None);
  w ← upd w (Some e) (set_list None);
  n ← get_len w l;
  Ret (set_len w l (n - 1)).

Definition move (w : world) (l : lloc) (e at_ : ptr) : outcome world :=
  if bool_decide (e = at_) then Ret w
  else
    x ← load w (Some e);
    w ← upd w (prev x) (set_next (next x));
    x ← load w (Some e);
    w ← upd w (next x) (set_prev (prev x));
    w ← upd w (Some e) (set_prev (Some at_));
    a ← load w (Some at_);
    w ← upd w (Some e) (set_next (next a));
    x ← load w (Some e);
    w ← upd w (prev x) (set_next (Some e));
    x ← load w (Some e);
    upd w (next x) (set_prev (Some e)).

Definition PushFront (w : world) (l : lloc) (v : T) : outcome (world * ptr) :=
  w ← lazyInit w l;
  insertValue w l v (inl l).

(** [insertValue(value, l.root.prev.Load())]: a nil pointer would be dereferenced. *)
Definition insertValue_at (w : world) (l : lloc) (v : T) (at_ : option ptr) : outcome (world * ptr) :=
  match at_ with
  | Some at_ => insertValue w l v at_
  | None => Panic "nil pointer dereference"
  end.

Definition PushBack (w : world) (l : lloc) (v : T) : outcome (world * ptr) :=
  w ← lazyInit w l;
  root ← load w (Some (inl l));
  insertValue_at w l v (prev root).

(** The value behind the pointer [typedElement.value.Load()]. *)
Definition deref_value (e : listElement) : outcome T :=
  match value e with Some v => Ret v | None => Panic "nil pointer dereference" end.

Definition Remove (w : world) (l : lloc) (e : option ptr) : outcome (world * T) :=
  p ← typed e;
  x ← load w (Some p);
  w ← (if bool_decide (list_ x = Some l) then remove w l p else Ret w);
  x ← load w (Some p);
  v ← deref_value x;
  Ret (w, v).

Definition InsertBefore (w : world) (l : lloc) (v : T) (position : option ptr)
    : outcome (world * option ptr) :=
  p ← typed position;
  x ← load w (Some p);
  if bool_decide (list_ x ≠ Some l) then Ret (w, None)
  else '(w, e) ← insertValue_at w l v (prev x); Ret (w, Some e).

Definition InsertAfter (w : world) (l : lloc) (v : T) (position : option ptr)
    : outcome (world * option ptr) :=
  p ← typed position;
  x ← load w (Some p);
  if bool_decide (list_ x ≠ Some l) then Ret (w, None)
  else '(w, e) ← insertValue w l v p; Ret (w, Some e).

Definition MoveToFront (w : world) (l : lloc) (element : option ptr) : outcome world :=
  p ← typed element;
  x ← load w (Some p);
  root ← load w (Some (inl l));
  if bool_decide (list_ x ≠ Some l) || bool_decide (next root = element) then Ret w
  else move w l p (inl l).

(** [l.move(typedElement, at)] with a pointer that was loaded. *)
Definition move_at (w : world) (l : lloc) (e : ptr) (at_ : option ptr) : outcome world :=
  match at_ with
  | Some at_ => move w l e at_
  | None => Panic "nil pointer dereference"
  end.

Definition MoveToBack (w : world) (l : lloc) (element : option ptr) : outcome world :=
  p ← typed element;
  x ← load w (Some p);
  root ← load w (Some (inl l));
  if bool_decide (list_ x ≠ Some l) || bool_decide (prev root = element) then Ret w
  else move_at w l p (prev root).

(** As in the code, [positionTyped] is made from [element]. *)
Definition MoveBefore (w : world) (l : lloc) (element position : option ptr) : outcome world :=
  typedElement ← typed element;
  positionTyped ← typed element;
  x ← load w (Some typedElement);
  y ← load w (Some positionTyped);
  if bool_decide (list_ x ≠ Some l) || bool_decide (element = position) ||
     bool_decide (list_ y ≠ Some l) then Ret w
  else move_at w l typedElement (prev y).

Definition MoveAfter (w : world) (l : lloc) (element position : option ptr) : outcome world :=
  typedElement ← typed element;
  positionTyped ← typed element;
  x ← load w (Some typedElement);
  y ← load w (Some positionTyped);
  if bool_decide (list_ x ≠ Some l) || bool_decide (element = position) ||
     bool_decide (list_ y ≠ Some l) then Ret w
  else move w l typedElement positionTyped.

(** ** Elements *)

Definition Prev (w : world) (e : ptr) : outcome (option ptr) :=
  x ← load w (Some e);
  match list_ x with
  | Some elementList => if bool_decide (prev x ≠ Some (inl elementList)) then Ret (prev x) else Ret None
  | None => Ret None
  end.

Definition Next (w : world) (e : ptr) : outcome (option ptr) :=
  x ← load w (Some e);
  match list_ x with
  | Some elementList => if bool_decide (next x ≠ Some (inl elementList)) then Ret (next x) else Ret None
  | None => Ret None
  end.

Definition Value (w : world) (e : ptr) : outcome T :=
  x ← load w (Some e); Ret (default inhabitant (value x)).

Definition Len (w : world) (l : lloc) : outcome Z := get_len w l.

(** ** Traversals *)

(** [PushBackList] and [PushFrontList]: [i] rounds from the element [e] of the
    other list on; [step] is [Next] or [Prev]. *)
Fixpoint push_list (i : nat) (w : world) (e : option ptr)
    (push : world → T → outcome (world * ptr)) (step : world → ptr → outcome (option ptr))
    : outcome world :=
  match i with
  | O => Ret w
  | S i =>
      p ← typed e;
      x ← load w (Some p);
      v ← deref_value x;
      '(w, _) ← push w v;
      e ← step w p;
      push_list i w e push step
  end.

Definition PushBackList (w : world) (l other : lloc) : outcome world :=
  w ← lazyInit w l;
  n ← Len w other;
  e ← Front w other;
  push_list (Z.to_nat n) w e
    (λ w v, root ← load w (Some (inl l)); insertValue_at w l v (prev root)) Next.

Definition PushFrontList (w : world) (l other : lloc) : outcome world :=
  w ← lazyInit w l;
  n ← Len w other;
  e ← Back w other;
  push_list (Z.to_nat n) w e (λ w v, insertValue w l v (inl l)) Prev.

(** The loops of [ForEach] and its kin, from an element on; the callback stops
    them with an error.  [None] when they do not end within the fuel. *)
Fixpoint walk {S} (fuel : nat) (w : world) (step : world → ptr → outcome (option ptr))
    (callback : T → S → S * option error) (element : option ptr) (st : S)
    : option (outcome (S * option error)) :=
  match element with
  | None => Some (Ret (st, None))
  | Some p =>
      match fuel with
      | O => None
      | Datatypes.S fuel =>
          match Value w p with
          | Panic msg => Some (Panic msg)
          | Ret v =>
              match callback v st with
              | (st, Some err) => Some (Ret (st, Some err))
              | (st, None) =>
                  match step w p with
                  | Panic msg => Some (Panic msg)
                  | Ret element => walk fuel w step callback element st
                  end
              end
          end
      end
  end.

Definition ForEach {S} (fuel : nat) (w : world) (l : lloc) (callback : T → S → S * option error) (st : S) :=
  match Front w l with
  | Panic msg => Some (Panic msg)
  | Ret element => walk fuel w Next callback element st
  end.

Definition ForEachReverse {S} (fuel : nat) (w : world) (l : lloc) (callback : T → S → S * option error) (st : S) :=
  match Back w l with
  | Panic msg => Some (Panic msg)
  | Ret element => walk fuel w Prev callback element st
  end.

Definition Range {S} (fuel : nat) (w : world) (l : lloc) (callback : T → S → S) (st : S) :=
  ForEach fuel w l (λ v st, (callback v st, None)) st.
Definition RangeReverse {S} (fuel : nat) (w : world) (l : lloc) (callback : T → S → S) (st : S) :=
  ForEachReverse fuel w l (λ v st, (callback v st, None)) st.

Definition Values (fuel : nat) (w : world) (l : lloc) :=
  Range fuel w l (λ v values, values ++ [v]) [].

(** ** Symbolic execution of pointer updates *)

Definition nx (w : world) (p : ptr) : option ptr := cells w !! p ≫= next.
Definition pv (w : world) (p : ptr) : option ptr := cells w !! p ≫= prev.
Definition own (w : world) (p : ptr) : option lloc := cells w !! p ≫= list_.
Definition val (w : world) (p : ptr) : option T := cells w !! p ≫= value.

(** The world, field by field. *)
Record view (w : world) (n p : ptr → option ptr) (o : ptr → option lloc) (v : ptr → option T)
    (d : gset ptr) (L : gmap lloc Z) : Prop := {
  view_nx z : nx w z = n z;
  view_pv z : pv w z = p z;
  view_own z : own w z = o z;
  view_val z : val w z = v z;
  view_dom : dom (cells w) = d;
  view_lens : lens w = L;
}.

Lemma view_self w : view w (nx w) (pv w) (own w) (val w) (dom (cells w)) (lens w).
Proof. by split. Qed.

Lemma view_load w n p o v d L z :
  view w n p o v d L → z ∈ d →
  ∃ x, load w (Some z) = Ret x ∧ next x = n z ∧ prev x = p z ∧ list_ x = o z ∧ value x = v z.
Proof.
  intros [H1 H2 H3 H4 <- _] [x Hx]%elem_of_dom. exists x. unfold load. rewrite Hx.
  specialize (H1 z). specialize (H2 z). specialize (H3 z). specialize (H4 z).
  unfold nx, pv, own, val in *. by rewrite Hx in *.
Qed.

Lemma view_upd w n p o v d L z f n' p' o' :
  view w n p o v d L → z ∈ d →
  (∀ x, next x = n z → prev x = p z → list_ x = o z →
     next (f x) = n' z ∧ prev (f x) = p' z ∧ list_ (f x) = o' z ∧ value (f x) = value x) →
  (∀ y, y ≠ z → n' y = n y ∧ p' y = p y ∧ o' y = o y) →
  ∃ w', upd w (Some z) f = Ret w' ∧ view w' n' p' o' v d L.
Proof.
  intros Hv Hz Hf Hne. destruct (view_load _ _ _ _ _ _ _ z Hv Hz) as (x & Hx & H1 & H2 & H3 & H4).
  destruct Hv as [Hn Hp Ho Hvl <- <-].
  unfold load in Hx. unfold upd. destruct (cells w !! z) as [x'|] eqn:E; [|done]. simplify_eq.
  eexists. split; [done|]. destruct (Hf x H1 H2 H3) as (F1 & F2 & F3 & F4).
  assert (∀ y, y = z ∨ y ≠ z) as Hdec by (intros y; destruct (decide (y = z)); tauto).
  split; simpl; [intros y; destruct (Hdec y) as [->|Hy];
    [|destruct (Hne y Hy) as (N1 & N2 & N3)]; unfold nx, pv, own, val in *; cbn [cells];
    rewrite ?lookup_insert_eq, ?lookup_insert_ne by done; simpl..| |].
  all: try done; try congruence.
  rewrite dom_insert_L. apply elem_of_dom_2 in E. set_solver.
Qed.

Lemma view_next w n p o v d L z q :
  view w n p o v d L → z ∈ d →
  ∃ w', upd w (Some z) (set_next q) = Ret w' ∧ view w' (<[z:=q]> n) p o v d L.
Proof.
  intros Hv Hz. eapply view_upd; [done..| |].
  - intros x H1 H2 H3. simpl. by rewrite fn_lookup_insert.
  - intros y Hy. by rewrite fn_lookup_insert_ne.
Qed.

Lemma view_prev w n p o v d L z q :
  view w n p o v d L → z ∈ d →
  ∃ w', upd w (Some z) (set_prev q) = Ret w' ∧ view w' n (<[z:=q]> p) o v d L.
Proof.
  intros Hv Hz. eapply view_upd; [done..| |].
  - intros x H1 H2 H3. simpl. by rewrite fn_lookup_insert.
  - intros y Hy. by rewrite fn_lookup_insert_ne.
Qed.

Lemma view_list w n p o v d L z q :
  view w n p o v d L → z ∈ d →
  ∃ w', upd w (Some z) (set_list q) = Ret w' ∧ view w' n p (<[z:=q]> o) v d L.
Proof.
  intros Hv Hz. eapply view_upd; [done..| |].
  - intros x H1 H2 H3. simpl. by rewrite fn_lookup_insert.
  - intros y Hy. by rewrite fn_lookup_insert_ne.
Qed.

Lemma view_len w n p o v d L l k : view w n p o v d L → view (set_len w l k) n p o v d (<[l:=k]> L).
Proof. intros [H1 H2 H3 H4 H5 H6]. split; try done. simpl. by rewrite H6. Qed.

(** Evaluation of pointer functions that were updated. *)
Ltac fn_simp :=
  repeat first [rewrite fn_lookup_insert | rewrite fn_lookup_insert_ne by congruence].

(** One step of the execution of an operation under a [view]. *)
Ltac view_load_step Hv z :=
  let x := fresh "x" in let E := fresh "E" in
  let Hn := fresh "Hn" in let Hp := fresh "Hp" in let Ho := fresh "Ho" in let Hvl := fresh "Hvl" in
  destruct (view_load _ _ _ _ _ _ _ z Hv) as (x & E & Hn & Hp & Ho & Hvl); [try done|];
  rewrite E; cbn [mbind outcome_bind]; rewrite ?Hn, ?Hp; clear E.

Ltac view_step Hv lem :=
  let w' := fresh "w" in let E := fresh "E" in let Hv' := fresh "Hv" in
  edestruct lem as (w' & E & Hv'); [exact Hv|..|rewrite E; cbn [mbind outcome_bind];
    clear Hv; rename Hv' into Hv]; [try done|].

(** Linking [e] in behind [a], before [c]. *)
Lemma insert_view w n p o v d L l k e a c :
  view w n p o v d L → e ∈ d → a ∈ d → c ∈ d → e ≠ a → n a = Some c → L !! l = Some k →
  ∃ w', insert_ w l e a = Ret w' ∧
    view w' (<[a:=Some e]> (<[e:=Some c]> n)) (<[c:=Some e]> (<[e:=Some a]> p)) (<[e:=Some l]> o) v d
      (<[l:=k + 1]> L).
Proof.
  intros Hv He Ha Hc Hea Hn HL. unfold insert_.
  view_step Hv view_prev. view_load_step Hv a. rewrite Hn.
  view_step Hv view_next. view_load_step Hv e. rewrite fn_lookup_insert.
  view_step Hv view_next. view_load_step Hv e. rewrite fn_lookup_insert_ne, fn_lookup_insert by done.
  view_step Hv view_prev. view_step Hv view_list.
  unfold get_len. rewrite (view_lens _ _ _ _ _ _ _ Hv), HL. cbn [mbind outcome_bind].
  eexists. split; [done|]. by apply view_len.
Qed.

(** Unlinking [e] from between [a] and [c]. *)
Lemma remove_view w n p o v d L l k e a c :
  view w n p o v d L → e ∈ d → a ∈ d → c ∈ d → e ≠ a → e ≠ c → n e = Some c → p e = Some a →
  L !! l = Some k →
  ∃ w', remove w l e = Ret w' ∧
    view w' (<[e:=None]> (<[a:=Some c]> n)) (<[e:=None]> (<[c:=Some a]> p)) (<[e:=None]> o) v d
      (<[l:=k - 1]> L).
Proof.
  intros Hv He Ha Hc Hea Hec Hn Hp HL. unfold remove.
  view_load_step Hv e. rewrite Hn, Hp.
  view_step Hv view_next. view_load_step Hv e. rewrite fn_lookup_insert_ne, Hn, Hp by done.
  view_step Hv view_prev. view_step Hv view_next. view_step Hv view_prev. view_step Hv view_list.
  unfold get_len. rewrite (view_lens _ _ _ _ _ _ _ Hv), HL. cbn [mbind outcome_bind].
  eexists. split; [done|]. by apply view_len.
Qed.

(** Moving [e] from between [a] and [c] behind [a']. *)
Lemma move_view w n p o v d L l e a c a' c' :
  view w n p o v d L → e ∈ d → a ∈ d → c ∈ d → a' ∈ d → c' ∈ d → e ≠ a → e ≠ c → e ≠ a' → e ≠ c' →
  n e = Some c → p e = Some a → (<[a:=Some c]> n) a' = Some c' →
  ∃ w', move w l e a' = Ret w' ∧
    view w' (<[a':=Some e]> (<[e:=Some c']> (<[a:=Some c]> n)))
      (<[c':=Some e]> (<[e:=Some a']> (<[c:=Some a]> p))) o v d L.
Proof.
  intros Hv He Ha Hc Ha' Hc' Hea Hec Hea' Hec' Hn Hp Hn'. unfold move.
  rewrite bool_decide_eq_false_2 by done.
  view_load_step Hv e. rewrite Hn, Hp.
  view_step Hv view_next. view_load_step Hv e. rewrite fn_lookup_insert_ne, Hn, Hp by done.
  view_step Hv view_prev. view_step Hv view_prev. view_load_step Hv a'. rewrite Hn'.
  view_step Hv view_next. view_load_step Hv e. rewrite fn_lookup_insert.
  view_step Hv view_next. view_load_step Hv e. rewrite fn_lookup_insert_ne, fn_lookup_insert by done.
  by apply view_prev.
Qed.

(** ** The representation *)

(** The elements of a list: their locations and values, in order. *)
Definition items : Type := list (positive * T).
Definition nodes (xs : items) : list ptr := inr <$> xs.*1.

Record list_rep (w : world) (l : lloc) (xs : items) : Prop := {
  lr_ring : ring (nx w) (pv w) (inl l) (nodes xs);
  lr_own q : own w (inr q) = Some l ↔ q ∈ xs.*1;
  lr_val : Forall (λ x, val w (inr x.1) = Some x.2) xs;
  lr_len : lens w !! l = Some (len xs);
}.

(** All lists of the world. *)
Record world_rep (w : world) (W : gmap lloc items) : Prop := {
  wr_lists l xs : W !! l = Some xs → list_rep w l xs;
  wr_dom : dom (lens w) = dom W;
  wr_own q l : own w (inr q) = Some l → is_Some (W !! l);
}.

Lemma elem_nodes (xs : items) z : z ∈ nodes xs ↔ ∃ q, z = inr q ∧ q ∈ xs.*1.
Proof. unfold nodes. apply list_elem_of_fmap. Qed.

Lemma nodes_app (xs ys : items) : nodes (xs ++ ys) = nodes xs ++ nodes ys.
Proof. unfold nodes. by rewrite !fmap_app. Qed.

Lemma nx_dom w z y : nx w z = Some y → z ∈ dom (cells w).
Proof. unfold nx. destruct (cells w !! z) eqn:E; [|done]. intros _. by eapply elem_of_dom_2. Qed.

Lemma own_dom w z y : own w z = Some y → z ∈ dom (cells w).
Proof. unfold own. destruct (cells w !! z) eqn:E; [|done]. intros _. by eapply elem_of_dom_2. Qed.

(** The nodes of a list are in the store. *)
Lemma list_rep_dom w l xs z : list_rep w l xs → z = inl l ∨ z ∈ nodes xs → z ∈ dom (cells w).
Proof.
  intros Hr [->|(q & -> & Hq)%elem_nodes].
  - destruct (ring_root _ _ _ _ (lr_ring _ _ _ Hr)) as [Hn _]. by eapply nx_dom.
  - apply (lr_own _ _ _ Hr) in Hq. by eapply own_dom.
Qed.

(** A list is not touched by changes outside its nodes. *)
Lemma list_rep_frame w w' l xs :
  list_rep w l xs →
  (∀ z, z = inl l ∨ z ∈ nodes xs → nx w' z = nx w z ∧ pv w' z = pv w z ∧ val w' z = val w z) →
  (∀ q, own w' (inr q) = Some l ↔ own w (inr q) = Some l) → lens w' !! l = lens w !! l →
  list_rep w' l xs.
Proof.
  intros [H1 H2 H3 H4] Hz Ho Hl. split.
  - eapply ring_ext; [|exact H1]. intros z Hin. apply elem_of_cons in Hin. by destruct (Hz z Hin) as (? & ? & _).
  - intros q. by rewrite Ho, H2.
  - rewrite Forall_forall in *. intros x Hx. destruct (Hz (inr x.1)) as (_ & _ & ->); [|by apply H3].
    right. apply elem_nodes. exists x.1. split; [done|]. apply list_elem_of_fmap. by exists x.
  - by rewrite Hl.
Qed.

(** Nodes of different lists are different. *)
Lemma list_rep_disjoint w l l' xs ys z :
  list_rep w l xs → list_rep w l' ys → l ≠ l' →
  z = inl l ∨ z ∈ nodes xs → z = inl l' ∨ z ∈ nodes ys → False.
Proof.
  intros Hr Hr' Hne [->|(q & -> & Hq)%elem_nodes] [Hz|(q' & Hz & Hq')%elem_nodes]; simplify_eq.
  apply (lr_own _ _ _ Hr) in Hq. apply (lr_own _ _ _ Hr') in Hq'. congruence.
Qed.

(** An operation that only changes the list [l]. *)
Lemma world_rep_update w w' W l xs xs' :
  world_rep w W → W !! l = Some xs → list_rep w' l xs' →
  (∀ z, z ∈ dom (cells w) → z ≠ inl l → z ∉ nodes xs →
     nx w' z = nx w z ∧ pv w' z = pv w z ∧ val w' z = val w z) →
  (∀ q l', l' ≠ l → own w' (inr q) = Some l' ↔ own w (inr q) = Some l') →
  (∀ l', l' ≠ l → lens w' !! l' = lens w !! l') → dom (lens w') = dom (lens w) →
  world_rep w' (<[l:=xs']> W).
Proof.
  intros [Hl Hd Ho] Hxs Hr' Hframe Hown Hlens Hdom. split.
  - intros l' ys. destruct (decide (l' = l)) as [->|Hne].
    + rewrite lookup_insert_eq. by intros [= <-].
    + rewrite lookup_insert_ne by done. intros Hys. apply Hl in Hys as Hr. apply Hl in Hxs as Hrx.
      apply (list_rep_frame w w' l' ys Hr); [|intros q; by apply Hown|by apply Hlens].
      intros z Hz. apply Hframe; [exact (list_rep_dom _ _ _ _ Hr Hz)|intros ->|intros Hin].
      * apply (list_rep_disjoint w l l' xs ys (inl l)); auto.
      * apply (list_rep_disjoint w l l' xs ys z); auto.
  - rewrite Hdom, Hd, dom_insert_L. apply elem_of_dom_2 in Hxs. set_solver.
  - intros q l'. destruct (decide (l' = l)) as [->|Hne]; [rewrite lookup_insert_eq; by eexists|].
    rewrite lookup_insert_ne, Hown by done. apply Ho.
Qed.

Lemma list_rep_NoDup w l xs : list_rep w l xs → NoDup xs.*1.
Proof. intros [[Hnd _] _ _ _]. apply NoDup_cons in Hnd as [_ Hnd]. by eapply NoDup_fmap_1. Qed.

(** The node before a position and the node at it: the root or an element. *)
Definition before (l : lloc) (xs : items) : ptr := prev_in (P:=ptr) (inl l) (nodes xs).
Definition after (l : lloc) (xs : items) : ptr := next_in (P:=ptr) (nodes xs) (inl l).

Lemma before_in l xs : before l xs = inl l ∨ before l xs ∈ nodes xs.
Proof. apply prev_in_elem. Qed.

Lemma after_in l xs : after l xs = inl l ∨ after l xs ∈ nodes xs.
Proof. apply next_in_elem. Qed.

Lemma fresh_used w : inr (fresh (used w)) ∉ dom (cells w).
Proof.
  intros Hin. apply (is_fresh (used w)). unfold used. apply elem_of_list_to_set, list_elem_of_omap.
  exists (inr (fresh (used w))). split; [by apply elem_of_elements|done].
Qed.

(** What follows a node of the ring. *)
Lemma ring_at nx' pv' r (l1 l2 : list ptr) :
  ring nx' pv' r (l1 ++ l2) → nx' (prev_in r l1) = Some (next_in l2 r).
Proof.
  intros Hr. destruct (prev_in_cases r l1) as [[-> ->]|[l1' Hl1]].
  - by apply ring_root in Hr as [? _].
  - revert Hl1. generalize (prev_in r l1) as z. intros z ->.
    rewrite <-app_assoc in Hr. simpl in Hr. by apply ring_node in Hr as [? _].
Qed.

(** The neighbours of a gap are nodes of the list. *)
Lemma gap_in l xs1 xs2 z :
  z = before l xs1 ∨ z = after l xs2 → z = inl l ∨ z ∈ nodes (xs1 ++ xs2).
Proof.
  rewrite nodes_app. intros [->| ->]; [destruct (before_in l xs1)|destruct (after_in l xs2)];
    [by left|right; set_solver|by left|right; set_solver].
Qed.

(** Linking an element into a gap of the ring. *)
Lemma spliced_ring w' n p l xs1 q v xs2 :
  ring n p (inl l) (nodes xs1 ++ nodes xs2) → inr q ∉ nodes (xs1 ++ xs2) →
  (∀ z, nx w' z = (<[before l xs1:=Some (inr q)]> (<[inr q:=Some (after l xs2)]> n)) z) →
  (∀ z, pv w' z = (<[after l xs2:=Some (inr q)]> (<[inr q:=Some (before l xs1)]> p)) z) →
  ring (nx w') (pv w') (inl l) (nodes (xs1 ++ (q, v) :: xs2)).
Proof.
  intros Hring Hq Vn Vp. rewrite nodes_app. change (nodes ((q, v) :: xs2)) with (inr q :: nodes xs2).
  assert (∀ z, z = before l xs1 ∨ z = after l xs2 → z ≠ inr q) as Hy.
  { intros z Hz ->. destruct (gap_in l xs1 xs2 (inr q) Hz); done. }
  pose proof (Hy _ (or_introl eq_refl)) as Ha. pose proof (Hy _ (or_intror eq_refl)) as Hc.
  eapply ring_ext; [|apply (ring_insert _ _ _ _ _ (inr q) Hring)].
  - intros z Hz. rewrite Vn, Vp. unfold insert_nx, insert_pv.
    change (prev_in _ (nodes xs1)) with (before l xs1). change (next_in (nodes xs2) _) with (after l xs2).
    clear -Ha Hc. generalize dependent (before l xs1). generalize dependent (after l xs2).
    intros c Hc a Ha. destruct (decide (z = inr q)), (decide (z = a)), (decide (z = c)); subst; split; by fn_simp.
  - rewrite <-nodes_app, elem_of_cons. intros [|]; done.
Qed.

(** The world with a new element. *)
Definition alloc (w : world) (q : positive) (v : T) : world :=
  {| cells := <[inr q := {| next := None; prev := None; list_ := None; value := Some v |}]> (cells w);
     lens := lens w |}.

Lemma alloc_view w q v :
  view (alloc w q v) (<[inr q:=None]> (nx w)) (<[inr q:=None]> (pv w)) (<[inr q:=None]> (own w))
    (<[inr q:=Some v]> (val w)) ({[inr q]} ∪ dom (cells w)) (lens w).
Proof.
  split; try (by unfold alloc; simpl; rewrite ?dom_insert_L);
    intros z; unfold alloc, nx, pv, own, val; cbn [cells]; destruct (decide (z = inr q)) as [->|Hz];
    rewrite ?lookup_insert_eq, ?fn_lookup_insert, ?lookup_insert_ne, ?fn_lookup_insert_ne by done; done.
Qed.

(** The list after a new element was linked in. *)
Lemma inserted_list_rep w w' l xs1 q v xs2 d :
  list_rep w l (xs1 ++ xs2) → inr q ∉ dom (cells w) →
  view w' (<[before l xs1:=Some (inr q)]> (<[inr q:=Some (after l xs2)]> (<[inr q:=None]> (nx w))))
    (<[after l xs2:=Some (inr q)]> (<[inr q:=Some (before l xs1)]> (<[inr q:=None]> (pv w))))
    (<[inr q:=Some l]> (<[inr q:=None]> (own w))) (<[inr q:=Some v]> (val w)) d
    (<[l:=len (xs1 ++ xs2) + 1]> (lens w)) →
  list_rep w' l (xs1 ++ (q, v) :: xs2).
Proof.
  intros Hr Hq [Vn Vp Vo Vv Vd VL].
  assert (inr q ∉ nodes (xs1 ++ xs2)) as Hqn.
  { intros Hin. apply Hq. apply (list_rep_dom _ _ _ _ Hr). by right. }
  assert (q ∉ (xs1 ++ xs2).*1) as Hqx by (intros Hin; apply Hqn, elem_nodes; eauto).
  split.
  - eapply spliced_ring; [|done|exact Vn|exact Vp]. rewrite <-nodes_app.
    eapply ring_ext; [|apply (lr_ring _ _ _ Hr)]. intros z Hz.
    assert (inr q ≠ z) by (intros <-; apply elem_of_cons in Hz as [|]; done).
    by rewrite !fn_lookup_insert_ne by done.
  - intros q'. rewrite Vo. destruct (decide (q' = q)) as [->|Hne].
    + rewrite fn_lookup_insert. rewrite fmap_app. simpl. set_solver.
    + rewrite !fn_lookup_insert_ne by congruence. rewrite (lr_own _ _ _ Hr), !fmap_app. simpl. set_solver.
  - assert (∀ x, x ∈ xs1 ++ xs2 → val w' (inr x.1) = Some x.2) as Hold.
    { intros x Hx. rewrite Vv, fn_lookup_insert_ne.
      - pose proof (lr_val _ _ _ Hr) as Hval. rewrite Forall_forall in Hval. by apply Hval.
      - intros [= E]. apply Hqx. rewrite E. apply list_elem_of_fmap. by exists x. }
    apply Forall_app. split; [|constructor]; try (apply Forall_forall; intros x Hx; apply Hold; set_solver).
    simpl. by rewrite Vv, fn_lookup_insert.
  - rewrite VL, lookup_insert_eq, !len_app. unfold len. simpl. f_equal. lia.
Qed.

Lemma insertValue_rep w W l xs1 xs2 v :
  world_rep w W → W !! l = Some (xs1 ++ xs2) →
  ∃ w' q, insertValue w l v (before l xs1) = Ret (w', inr q) ∧
    q ∉ (xs1 ++ xs2).*1 ∧ inr q ∉ dom (cells w) ∧
    world_rep w' (<[l:=xs1 ++ (q, v) :: xs2]> W).
Proof.
  intros HW Hl. pose proof (wr_lists _ _ HW l _ Hl) as Hr.
  unfold insertValue. pose proof (fresh_used w) as Hq. revert Hq. generalize (fresh (used w)) as q. intros q Hq.
  cbv zeta. change {| cells := _; lens := _ |} with (alloc w q v).
  pose proof (λ z H, gap_in l xs1 xs2 z H) as Hin.
  pose proof (λ z H, list_rep_dom _ _ _ z Hr (Hin z H)) as Hd.
  assert (∀ z, z = before l xs1 ∨ z = after l xs2 → z ≠ inr q) as Hy by (intros z Hz ->; by apply Hq, Hd).
  destruct (insert_view (alloc w q v) _ _ _ _ _ _ l (len (xs1 ++ xs2)) (inr q) (before l xs1) (after l xs2)
    (alloc_view w q v)) as (w' & -> & Hv').
  { set_solver. }
  { apply elem_of_union_r, Hd. by left. }
  { apply elem_of_union_r, Hd. by right. }
  { intros E. by apply (Hy (before l xs1)); [left|]. }
  { rewrite fn_lookup_insert_ne by (intros E; by apply (Hy (before l xs1)); [left|]).
    apply ring_at with (pv' := pv w). rewrite <-nodes_app. apply (lr_ring _ _ _ Hr). }
  { apply (lr_len _ _ _ Hr). }
  exists w', q. split; [done|].
  split; [intros Hx; apply Hq, (list_rep_dom _ _ _ _ Hr); right; apply elem_nodes; eauto|]. split; [done|].
  pose proof (inserted_list_rep _ _ _ _ _ _ _ _ Hr Hq Hv') as Hr'. destruct Hv' as [Vn Vp Vo Vv Vd VL].
  eapply (world_rep_update w); [done|done|exact Hr'|..].
  - intros z Hz Hzl Hzn. assert (z ≠ inr q) by (intros ->; done).
    assert (z ≠ before l xs1) by (intros ->; destruct (Hin _ (or_introl eq_refl)); done).
    assert (z ≠ after l xs2) by (intros ->; destruct (Hin _ (or_intror eq_refl)); done).
    rewrite Vn, Vp, Vv. by rewrite !fn_lookup_insert_ne by done.
  - intros q' l' Hne. rewrite Vo. destruct (decide (q' = q)) as [->|Hq'].
    + rewrite fn_lookup_insert. split; [by intros [= ->]|]. intros Ho%own_dom. done.
    + by rewrite !fn_lookup_insert_ne by congruence.
  - intros l' Hne. by rewrite VL, lookup_insert_ne.
  - rewrite VL, dom_insert_L. assert (l ∈ dom (lens w)); [|set_solver].
    apply elem_of_dom. rewrite (lr_len _ _ _ Hr). by eexists.
Qed.

(** An element of a list, its neighbours and what distinguishes it. *)
Lemma node_facts w l xs1 q v xs2 :
  list_rep w l (xs1 ++ (q, v) :: xs2) →
  nx w (inr q) = Some (after l xs2) ∧ pv w (inr q) = Some (before l xs1) ∧
  before l xs1 ≠ inr q ∧ after l xs2 ≠ inr q ∧ inr q ∉ nodes (xs1 ++ xs2) ∧
  val w (inr q) = Some v ∧ own w (inr q) = Some l ∧ lens w !! l = Some (len (xs1 ++ (q, v) :: xs2)).
Proof.
  intros Hr. pose proof (lr_ring _ _ _ Hr) as Hring. rewrite nodes_app in Hring.
  change (nodes ((q, v) :: xs2)) with (inr q :: nodes xs2) in Hring.
  destruct (ring_node _ _ _ _ _ _ Hring) as [Hn Hp]. destruct Hring as [Hnd _].
  apply NoDup_around in Hnd as ((? & H1 & H2) & _).
  split_and!; try done.
  - destruct (before_in l xs1) as [->|Hin]; [done|]. intros E. by rewrite E in Hin.
  - destruct (after_in l xs2) as [->|Hin]; [done|]. intros E. by rewrite E in Hin.
  - rewrite nodes_app. set_solver.
  - pose proof (lr_val _ _ _ Hr) as Hv. apply Forall_app in Hv as [_ Hv].
    by apply Forall_cons in Hv as [Hv _].
  - apply (lr_own _ _ _ Hr). rewrite fmap_app. simpl. set_solver.
  - apply (lr_len _ _ _ Hr).
Qed.

(** The neighbours are nodes of the list. *)
Lemma neighbours_in l xs1 q v xs2 z :
  z = before l xs1 ∨ z = after l xs2 → z = inl l ∨ z ∈ nodes (xs1 ++ (q, v) :: xs2).
Proof.
  rewrite nodes_app. intros [->| ->].
  - destruct (before_in l xs1); [by left|right; set_solver].
  - destruct (after_in l xs2); [by left|right].
    change (nodes ((q, v) :: xs2)) with (inr q :: nodes xs2). set_solver.
Qed.

Lemma outside_ne l xs1 q v xs2 z :
  z ≠ inl l → z ∉ nodes (xs1 ++ (q, v) :: xs2) →
  z ≠ inr q ∧ z ≠ before l xs1 ∧ z ≠ after l xs2.
Proof.
  intros Hl Hn. split_and!; intros ->.
  - apply Hn, elem_nodes. exists q. split; [done|]. rewrite fmap_app. apply elem_of_app. right. constructor.
  - destruct (neighbours_in l xs1 q v xs2 (before l xs1)); auto.
  - destruct (neighbours_in l xs1 q v xs2 (after l xs2)); auto.
Qed.

Lemma remove_rep w W l xs1 q v xs2 :
  world_rep w W → W !! l = Some (xs1 ++ (q, v) :: xs2) →
  ∃ w', remove w l (inr q) = Ret w' ∧ world_rep w' (<[l:=xs1 ++ xs2]> W) ∧
    dom (cells w') = dom (cells w) ∧ val w' (inr q) = Some v ∧ own w' (inr q) = None.
Proof.
  intros HW Hl. pose proof (wr_lists _ _ HW l _ Hl) as Hr.
  destruct (node_facts _ _ _ _ _ _ Hr) as (Hn & Hp & Ha & Hc & Hq & Hval & Hown & Hlen).
  pose proof (λ z H, list_rep_dom _ _ _ z Hr (neighbours_in l xs1 q v xs2 z H)) as Hd.
  destruct (remove_view w _ _ _ _ _ _ l (len (xs1 ++ (q, v) :: xs2)) (inr q) (before l xs1) (after l xs2) (view_self w))
    as (w' & Hw' & [Vn Vp Vo Vv Vd VL]); try done; [by eapply own_dom|by apply Hd; left|by apply Hd; right|].
  exists w'. rewrite Hw'. split_and!; [done| |by rewrite Vd|by rewrite Vv|by rewrite Vo, fn_lookup_insert].
  eapply (world_rep_update w); [done|done|split|..].
  - pose proof (lr_ring _ _ _ Hr) as Hring. rewrite nodes_app in Hring.
    change (nodes ((q, v) :: xs2)) with (inr q :: nodes xs2) in Hring. apply ring_remove in Hring.
    rewrite <-nodes_app in Hring. eapply ring_ext; [|exact Hring]. intros z Hz. rewrite Vn, Vp.
    assert (z ≠ inr q) by (intros ->; apply elem_of_cons in Hz as [|]; done).
    split; by fn_simp.
  - intros q'. rewrite Vo. destruct (decide (q' = q)) as [->|Hne].
    + rewrite fn_lookup_insert. split; [done|]. intros Hin. exfalso. apply Hq, elem_nodes. eauto.
    + rewrite fn_lookup_insert_ne by congruence. rewrite (lr_own _ _ _ Hr), !fmap_app. simpl. set_solver.
  - pose proof (lr_val _ _ _ Hr) as Hv. rewrite Forall_forall in *. intros x Hx. rewrite Vv. apply Hv. set_solver.
  - rewrite VL, lookup_insert_eq, !len_app. unfold len. simpl. f_equal. lia.
  - intros z Hz Hzl Hzn. rewrite Vn, Vp, Vv.
    destruct (outside_ne _ _ _ _ _ _ Hzl Hzn) as (? & ? & ?).
    by rewrite !fn_lookup_insert_ne by done.
  - intros q' l' Hne. rewrite Vo. destruct (decide (q' = q)) as [->|Hq'].
    + rewrite fn_lookup_insert, Hown. split; [done|]. congruence.
    + by rewrite !fn_lookup_insert_ne by congruence.
  - intros l' Hne. by rewrite VL, lookup_insert_ne.
  - rewrite VL, dom_insert_L. apply elem_of_dom_2 in Hlen. set_solver.
Qed.

(** The neighbours of the gap an element moves to. *)
Lemma move_gap l xs1 q v xs2 ys1 ys2 z :
  xs1 ++ xs2 = ys1 ++ ys2 → inr q ∉ nodes (xs1 ++ xs2) → z = before l ys1 ∨ z = after l ys2 →
  (z = inl l ∨ z ∈ nodes (xs1 ++ (q, v) :: xs2)) ∧ z ≠ inr q.
Proof.
  intros Heq Hq Hz. pose proof (gap_in l ys1 ys2 z Hz) as Hz'. rewrite <-Heq in Hz'. split.
  - destruct Hz' as [->|Hz']; [by left|right]. rewrite nodes_app in Hz'. rewrite nodes_app.
    change (nodes ((q, v) :: xs2)) with (inr q :: nodes xs2). set_solver.
  - destruct Hz' as [->|Hz']; [done|by intros ->].
Qed.

Lemma move_rep w W l xs1 q v xs2 ys1 ys2 :
  world_rep w W → W !! l = Some (xs1 ++ (q, v) :: xs2) → xs1 ++ xs2 = ys1 ++ ys2 →
  ∃ w', move w l (inr q) (before l ys1) = Ret w' ∧ world_rep w' (<[l:=ys1 ++ (q, v) :: ys2]> W).
Proof.
  intros HW Hl Heq. pose proof (wr_lists _ _ HW l _ Hl) as Hr.
  destruct (node_facts _ _ _ _ _ _ Hr) as (Hn & Hp & Ha & Hc & Hq & Hval & Hown & Hlen).
  pose proof (λ z H, list_rep_dom _ _ _ z Hr (neighbours_in l xs1 q v xs2 z H)) as Hd.
  pose proof (lr_ring _ _ _ Hr) as Hring. rewrite nodes_app in Hring.
  change (nodes ((q, v) :: xs2)) with (inr q :: nodes xs2) in Hring. apply ring_remove in Hring.
  rewrite <-nodes_app, Heq, nodes_app in Hring.
  destruct (move_gap l xs1 q v xs2 ys1 ys2 _ Heq Hq (or_introl eq_refl)) as [Ha1 Ha2].
  destruct (move_gap l xs1 q v xs2 ys1 ys2 _ Heq Hq (or_intror eq_refl)) as [Hc1 Hc2].
  destruct (move_view w _ _ _ _ _ _ l (inr q) (before l xs1) (after l xs2) (before l ys1) (after l ys2)
    (view_self w)) as (w' & Hw' & [Vn Vp Vo Vv Vd VL]); try done;
    [by eapply own_dom|by apply Hd; left|by apply Hd; right
    |exact (list_rep_dom _ _ _ _ Hr Ha1)|exact (list_rep_dom _ _ _ _ Hr Hc1)|exact (ring_at _ _ _ _ _ Hring)|].
  exists w'. split; [done|].
  assert (∀ x, x ∈ ys1 ++ (q, v) :: ys2 ↔ x ∈ xs1 ++ (q, v) :: xs2) as Hmem.
  { intros x. assert (x ∈ xs1 ++ xs2 ↔ x ∈ ys1 ++ ys2) as Hx by (by rewrite Heq).
    rewrite !elem_of_app in Hx. rewrite !elem_of_app, !elem_of_cons. tauto. }
  eapply (world_rep_update w); [done|done|split|..].
  - eapply spliced_ring; [exact Hring|by rewrite <-Heq|exact Vn|exact Vp].
  - intros q'. rewrite Vo, (lr_own _ _ _ Hr), !list_elem_of_fmap. by setoid_rewrite Hmem.
  - pose proof (lr_val _ _ _ Hr) as Hv. rewrite Forall_forall in *. intros x Hx. rewrite Vv.
    by apply Hv, Hmem.
  - rewrite VL, Hlen. apply (f_equal len) in Heq. rewrite !len_app in *. unfold len in *. simpl. f_equal. lia.
  - intros z Hz Hzl Hzn. rewrite Vn, Vp, Vv.
    destruct (outside_ne _ _ _ _ _ _ Hzl Hzn) as (? & ? & ?).
    assert (z ≠ before l ys1 ∧ z ≠ after l ys2) as [? ?].
    { split; intros ->; [destruct Ha1|destruct Hc1]; done. }
    by rewrite !fn_lookup_insert_ne by done.
  - intros q' l' Hne. by rewrite Vo.
  - intros l' Hne. by rewrite VL.
  - by rewrite VL.
Qed.

(** ** The operations on represented lists *)

Definition empty_world : world := {| cells := ∅; lens := ∅ |}.

Lemma world_rep_empty : world_rep empty_world ∅.
Proof.
  split; [by intros|by rewrite !dom_empty_L|]. intros q l. unfold own. simpl. by rewrite lookup_empty.
Qed.

Lemma newList_rep w W :
  world_rep w W → ∃ w' l, newList w = Ret (w', l) ∧ W !! l = None ∧ world_rep w' (<[l:=[]]> W).
Proof.
  intros HW. set (l := fresh (dom (lens w))).
  assert (W !! l = None) as Hl.
  { apply not_elem_of_dom. rewrite <-(wr_dom _ _ HW). apply is_fresh. }
  unfold newList, Init, upd. fold l. cbn [cells]. rewrite lookup_insert_eq. cbn [mbind outcome_bind cells].
  rewrite lookup_insert_eq, !insert_insert_eq. cbn [mbind outcome_bind lens].
  eexists _, l. split; [done|]. split; [done|]. unfold set_len. cbn [cells lens]. rewrite insert_insert_eq.
  split.
  - intros l' ys. destruct (decide (l' = l)) as [->|Hne].
    + rewrite lookup_insert_eq. intros [= <-]. split; [split; [apply NoDup_singleton|]| |constructor|].
      * simpl. unfold link, nx, pv. simpl. by rewrite lookup_insert_eq.
      * intros q. unfold own. simpl. rewrite lookup_insert_ne by done. split; [|by intros ?%not_elem_of_nil].
        intros Ho. apply (wr_own _ _ HW) in Ho as [? ?]. congruence.
      * cbn [lens]. by rewrite lookup_insert_eq.
    + rewrite lookup_insert_ne by done. intros Hys. apply (wr_lists _ _ HW) in Hys as Hr.
      apply (list_rep_frame w _ l' ys Hr).
      * intros z Hz. unfold nx, pv, val. cbn [cells]. rewrite lookup_insert_ne; [done|]. intros <-.
        destruct Hz as [[= ->]|(? & ? & _)%elem_nodes]; done.
      * intros q. unfold own. cbn [cells]. by rewrite lookup_insert_ne.
      * cbn [lens]. by rewrite lookup_insert_ne.
  - cbn [lens]. by rewrite !dom_insert_L, (wr_dom _ _ HW).
  - intros q l'. unfold own. cbn [cells]. rewrite lookup_insert_ne by done. intros Ho.
    apply (wr_own _ _ HW) in Ho as Hs. destruct (decide (l' = l)) as [->|]; [rewrite lookup_insert_eq; eauto|].
    by rewrite lookup_insert_ne.
Qed.

(** Loading a node of a list. *)
Lemma load_root w l xs :
  list_rep w l xs → ∃ x, load w (Some (inl l)) = Ret x ∧ next x = Some (after l xs) ∧ prev x = Some (before l xs).
Proof.
  intros Hr. destruct (view_load w _ _ _ _ _ _ (inl l) (view_self w)) as (x & Hx & Hn & Hp & _).
  { apply (list_rep_dom _ _ _ _ Hr). by left. }
  destruct (ring_root _ _ _ _ (lr_ring _ _ _ Hr)) as [Hn' Hp']. exists x.
  split; [done|]. by rewrite Hn, Hp.
Qed.

Lemma load_node w l xs1 q v xs2 :
  list_rep w l (xs1 ++ (q, v) :: xs2) →
  ∃ x, load w (Some (inr q)) = Ret x ∧ next x = Some (after l xs2) ∧ prev x = Some (before l xs1) ∧
    list_ x = Some l ∧ value x = Some v.
Proof.
  intros Hr. destruct (node_facts _ _ _ _ _ _ Hr) as (Hn & Hp & _ & _ & _ & Hv & Ho & _).
  destruct (view_load w _ _ _ _ _ _ (inr q) (view_self w)) as (x & Hx & Hn' & Hp' & Ho' & Hv').
  { by eapply own_dom. }
  exists x. rewrite Hn', Hp', Ho', Hv'. done.
Qed.

Lemma lazyInit_rep w l xs : list_rep w l xs → lazyInit w l = Ret w.
Proof. intros Hr. destruct (load_root w l xs Hr) as (x & Hx & Hn & _). unfold lazyInit. rewrite Hx. simpl. by rewrite Hn. Qed.

Lemma PushFront_rep w W l xs v :
  world_rep w W → W !! l = Some xs →
  ∃ w' q, PushFront w l v = Ret (w', inr q) ∧ q ∉ xs.*1 ∧ world_rep w' (<[l:=(q, v) :: xs]> W).
Proof.
  intros HW Hl. pose proof (wr_lists _ _ HW _ _ Hl) as Hr. unfold PushFront.
  rewrite (lazyInit_rep w l xs Hr). cbn [mbind outcome_bind].
  destruct (insertValue_rep w W l [] xs v HW Hl) as (w' & q & ? & ? & _ & ?). by exists w', q.
Qed.

Lemma push_back_rep w W l xs v :
  world_rep w W → W !! l = Some xs →
  ∃ w' q, (root ← load w (Some (inl l)); insertValue_at w l v (prev root)) = Ret (w', inr q) ∧
    q ∉ xs.*1 ∧ world_rep w' (<[l:=xs ++ [(q, v)]]> W).
Proof.
  intros HW Hl. pose proof (wr_lists _ _ HW _ _ Hl) as Hr.
  destruct (load_root w l xs Hr) as (x & -> & _ & Hp). cbn [mbind outcome_bind]. rewrite Hp.
  destruct (insertValue_rep w W l xs [] v HW) as (w' & q & ? & Hq & _ & ?); [by rewrite app_nil_r|].
  exists w', q. rewrite app_nil_r in Hq. done.
Qed.

Lemma PushBack_rep w W l xs v :
  world_rep w W → W !! l = Some xs →
  ∃ w' q, PushBack w l v = Ret (w', inr q) ∧ q ∉ xs.*1 ∧ world_rep w' (<[l:=xs ++ [(q, v)]]> W).
Proof.
  intros HW Hl. unfold PushBack.
  rewrite (lazyInit_rep w l xs) by (by apply (wr_lists _ _ HW)). by apply push_back_rep.
Qed.

Lemma InsertBefore_rep w W l xs1 p u xs2 v :
  world_rep w W → W !! l = Some (xs1 ++ (p, u) :: xs2) →
  ∃ w' q, InsertBefore w l v (Some (inr p)) = Ret (w', Some (inr q)) ∧
    q ∉ (xs1 ++ (p, u) :: xs2).*1 ∧ world_rep w' (<[l:=xs1 ++ (q, v) :: (p, u) :: xs2]> W).
Proof.
  intros HW Hl. pose proof (wr_lists _ _ HW _ _ Hl) as Hr.
  destruct (load_node _ _ _ _ _ _ Hr) as (x & Hx & Hn & Hp & Ho & _).
  unfold InsertBefore. cbn [typed mbind outcome_bind]. rewrite Hx. cbn [mbind outcome_bind].
  rewrite Ho, bool_decide_eq_false_2, Hp by (intros Hne; done). cbn [insertValue_at].
  destruct (insertValue_rep w W l xs1 ((p, u) :: xs2) v HW Hl) as (w' & q & -> & ? & _ & ?).
  by exists w', q.
Qed.

Lemma InsertAfter_rep w W l xs1 p u xs2 v :
  world_rep w W → W !! l = Some (xs1 ++ (p, u) :: xs2) →
  ∃ w' q, InsertAfter w l v (Some (inr p)) = Ret (w', Some (inr q)) ∧
    q ∉ (xs1 ++ (p, u) :: xs2).*1 ∧ world_rep w' (<[l:=xs1 ++ (p, u) :: (q, v) :: xs2]> W).
Proof.
  intros HW Hl. pose proof (wr_lists _ _ HW _ _ Hl) as Hr.
  destruct (load_node _ _ _ _ _ _ Hr) as (x & Hx & Hn & Hp & Ho & _).
  unfold InsertAfter. cbn [typed mbind outcome_bind]. rewrite Hx. cbn [mbind outcome_bind].
  rewrite Ho, bool_decide_eq_false_2 by (intros Hne; done).
  destruct (insertValue_rep w W l (xs1 ++ [(p, u)]) xs2 v HW) as (w' & q & Hi & Hq & _ & HW');
    [by rewrite <-app_assoc|].
  assert (before l (xs1 ++ [(p, u)]) = inr p) as Hb.
  { unfold before. rewrite nodes_app. apply prev_in_snoc. }
  rewrite Hb in Hi. rewrite Hi. rewrite <-!app_assoc in Hq, HW'. by exists w', q.
Qed.

Lemma Remove_rep w W l xs1 p u xs2 :
  world_rep w W → W !! l = Some (xs1 ++ (p, u) :: xs2) →
  ∃ w', Remove w l (Some (inr p)) = Ret (w', u) ∧ world_rep w' (<[l:=xs1 ++ xs2]> W).
Proof.
  intros HW Hl. pose proof (wr_lists _ _ HW _ _ Hl) as Hr.
  destruct (load_node _ _ _ _ _ _ Hr) as (x & Hx & Hn & Hp & Ho & _).
  unfold Remove. cbn [typed mbind outcome_bind]. rewrite Hx. cbn [mbind outcome_bind].
  rewrite Ho, bool_decide_eq_true_2 by done.
  destruct (remove_rep w W l xs1 p u xs2 HW Hl) as (w' & -> & HW' & Hd & Hv & _).
  cbn [mbind outcome_bind].
  destruct (view_load w' _ _ _ _ _ _ (inr p) (view_self w')) as (x' & -> & _ & _ & _ & Hv').
  { rewrite Hd. apply (list_rep_dom _ _ _ _ Hr). right. apply elem_nodes. exists p.
    split; [done|]. rewrite fmap_app. apply elem_of_app. right. constructor. }
  cbn [mbind outcome_bind]. unfold deref_value. rewrite Hv', Hv. cbn [mbind outcome_bind]. by exists w'.
Qed.

Lemma MoveToFront_rep w W l xs1 p u xs2 :
  world_rep w W → W !! l = Some (xs1 ++ (p, u) :: xs2) →
  ∃ w', MoveToFront w l (Some (inr p)) = Ret w' ∧ world_rep w' (<[l:=(p, u) :: xs1 ++ xs2]> W).
Proof.
  intros HW Hl. pose proof (wr_lists _ _ HW _ _ Hl) as Hr.
  destruct (load_node _ _ _ _ _ _ Hr) as (x & Hx & _ & _ & Ho & _).
  destruct (load_root _ _ _ Hr) as (y & Hy & Hn & _).
  unfold MoveToFront. cbn [typed mbind outcome_bind]. rewrite Hx. cbn [mbind outcome_bind].
  rewrite Hy. cbn [mbind outcome_bind]. rewrite Ho, bool_decide_eq_false_2 by (intros Hne; done).
  cbn [orb]. rewrite Hn. case_bool_decide as Hf.
  - exists w. split; [done|]. injection Hf as Hf. destruct xs1 as [|[p' u'] xs1].
    + by rewrite insert_id.
    + exfalso. unfold after in Hf. simpl in Hf. injection Hf as ->.
      pose proof (list_rep_NoDup _ _ _ Hr) as Hnd. simpl in Hnd. rewrite fmap_app in Hnd.
      apply NoDup_cons in Hnd as [Hnd _]. apply Hnd. apply elem_of_app. right. constructor.
  - apply (move_rep w W l xs1 p u xs2 [] (xs1 ++ xs2)); done.
Qed.

Lemma MoveToBack_rep w W l xs1 p u xs2 :
  world_rep w W → W !! l = Some (xs1 ++ (p, u) :: xs2) →
  ∃ w', MoveToBack w l (Some (inr p)) = Ret w' ∧ world_rep w' (<[l:=xs1 ++ xs2 ++ [(p, u)]]> W).
Proof.
  intros HW Hl. pose proof (wr_lists _ _ HW _ _ Hl) as Hr.
  destruct (load_node _ _ _ _ _ _ Hr) as (x & Hx & _ & _ & Ho & _).
  destruct (load_root _ _ _ Hr) as (y & Hy & _ & Hp).
  unfold MoveToBack. cbn [typed mbind outcome_bind]. rewrite Hx. cbn [mbind outcome_bind].
  rewrite Hy. cbn [mbind outcome_bind]. rewrite Ho, bool_decide_eq_false_2 by (intros Hne; done).
  cbn [orb]. rewrite Hp. case_bool_decide as Hf.
  - exists w. split; [done|]. injection Hf as Hf. destruct xs2 as [|[p' u'] xs2 _] using rev_ind.
    + by rewrite insert_id.
    + exfalso. unfold before in Hf. rewrite app_comm_cons, app_assoc, nodes_app in Hf.
      change (nodes [(p', u')]) with [inr p' : ptr] in Hf. rewrite prev_in_snoc in Hf. injection Hf as ->.
      pose proof (list_rep_NoDup _ _ _ Hr) as Hnd. rewrite fmap_app, fmap_cons, fmap_app in Hnd.
      apply NoDup_app in Hnd as (_ & _ & [Hnd _]%NoDup_cons). apply Hnd. apply elem_of_app. right. constructor.
  - cbn [move_at]. destruct (move_rep w W l xs1 p u xs2 (xs1 ++ xs2) []) as (w' & Hw' & HW');
      [done|done|by rewrite app_nil_r|]. exists w'. split; [|by rewrite <-app_assoc in HW'].
    rewrite <-Hw'. f_equal. unfold before. destruct xs2 as [|[p' u'] xs2 _] using rev_ind.
    + exfalso. apply Hf. f_equal. unfold before. rewrite nodes_app. apply prev_in_snoc.
    + rewrite app_comm_cons, !app_assoc, !nodes_app. change (nodes [(p', u')]) with [inr p' : ptr].
      by rewrite !prev_in_snoc.
Qed.

(** [MoveBefore] and [MoveAfter] move the element next to itself. *)
Lemma MoveBefore_rep w W l xs1 p u xs2 position :
  world_rep w W → W !! l = Some (xs1 ++ (p, u) :: xs2) →
  ∃ w', MoveBefore w l (Some (inr p)) position = Ret w' ∧ world_rep w' W.
Proof.
  intros HW Hl. pose proof (wr_lists _ _ HW _ _ Hl) as Hr.
  destruct (load_node _ _ _ _ _ _ Hr) as (x & Hx & _ & Hp & Ho & _).
  unfold MoveBefore. cbn [typed mbind outcome_bind]. rewrite Hx. cbn [mbind outcome_bind].
  rewrite Ho, bool_decide_eq_false_2 by (intros Hne; done). cbn [orb].
  case_bool_decide; cbn [orb]; [by exists w|]. rewrite Hp. cbn [move_at].
  destruct (move_rep w W l xs1 p u xs2 xs1 xs2 HW Hl eq_refl) as (w' & -> & HW').
  exists w'. split; [done|]. by rewrite insert_id in HW'.
Qed.

Lemma MoveAfter_rep w W l xs1 p u xs2 position :
  world_rep w W → W !! l = Some (xs1 ++ (p, u) :: xs2) →
  MoveAfter w l (Some (inr p)) position = Ret w.
Proof.
  intros HW Hl. pose proof (wr_lists _ _ HW _ _ Hl) as Hr.
  destruct (load_node _ _ _ _ _ _ Hr) as (x & Hx & _ & Hp & Ho & _).
  unfold MoveAfter. cbn [typed mbind outcome_bind]. rewrite Hx. cbn [mbind outcome_bind].
  rewrite Ho, bool_decide_eq_false_2 by (intros Hne; done). cbn [orb].
  case_bool_decide; cbn [orb]; [done|]. unfold move. by rewrite bool_decide_eq_true_2.
Qed.

(** ** Traversals *)

Definition first_ptr (xs : items) : option ptr :=
  match xs with [] => None | x :: _ => Some (inr x.1) end.

Lemma Next_rep w l xs1 q v xs2 :
  list_rep w l (xs1 ++ (q, v) :: xs2) → Next w (inr q) = Ret (first_ptr xs2).
Proof.
  intros Hr. destruct (load_node _ _ _ _ _ _ Hr) as (x & Hx & Hn & _ & Ho & _).
  unfold Next. rewrite Hx. cbn [mbind outcome_bind]. rewrite Ho, Hn.
  destruct xs2 as [|[q' v'] xs2]; [by rewrite bool_decide_eq_false_2 by (intros Hne; done)|].
  by rewrite bool_decide_eq_true_2.
Qed.

Lemma Prev_rep w l xs1 q v xs2 :
  list_rep w l (xs1 ++ (q, v) :: xs2) → Prev w (inr q) = Ret (first_ptr (rev xs1)).
Proof.
  intros Hr. destruct (load_node _ _ _ _ _ _ Hr) as (x & Hx & _ & Hp & Ho & _).
  unfold Prev. rewrite Hx. cbn [mbind outcome_bind]. rewrite Ho, Hp.
  destruct xs1 as [|[q' v'] xs1 _] using rev_ind;
    [by rewrite bool_decide_eq_false_2 by (intros Hne; done)|].
  rewrite rev_app_distr. unfold before. rewrite nodes_app. change (nodes [(q', v')]) with [inr q' : ptr].
  rewrite prev_in_snoc. by rewrite bool_decide_eq_true_2.
Qed.

Lemma Front_rep w l xs : list_rep w l xs → Front w l = Ret (first_ptr xs).
Proof.
  intros Hr. unfold Front, get_len. rewrite (lr_len _ _ _ Hr). cbn [mbind outcome_bind].
  destruct (load_root _ _ _ Hr) as (x & -> & Hn & _). destruct xs as [|[q v] xs]; [done|].
  rewrite (proj2 (Z.eqb_neq _ 0)) by (unfold len; simpl; lia). cbn [mbind outcome_bind]. by rewrite Hn.
Qed.

Lemma Back_rep w l xs : list_rep w l xs → Back w l = Ret (first_ptr (rev xs)).
Proof.
  intros Hr. unfold Back, get_len. rewrite (lr_len _ _ _ Hr). cbn [mbind outcome_bind].
  destruct (load_root _ _ _ Hr) as (x & -> & _ & Hp). destruct xs as [|[q v] xs _] using rev_ind; [done|].
  rewrite (proj2 (Z.eqb_neq _ 0)) by (rewrite len_app; unfold len; simpl; lia).
  cbn [mbind outcome_bind]. rewrite Hp. unfold before. rewrite nodes_app.
  change (nodes [(q, v)]) with [inr q : ptr]. by rewrite prev_in_snoc, rev_app_distr.
Qed.

(** The callback's state and error after visiting values. *)
Fixpoint visit_values {S} (callback : T → S → S * option error) (vs : list T) (st : S)
    : S * option error :=
  match vs with
  | [] => (st, None)
  | v :: vs =>
      match callback v st with
      | (st, Some err) => (st, Some err)
      | (st, None) => visit_values callback vs st
      end
  end.

Lemma walk_Next {S} fuel w l xs1 xs2 (callback : T → S → S * option error) st :
  list_rep w l (xs1 ++ xs2) → (length xs2 ≤ fuel)%nat →
  walk fuel w Next callback (first_ptr xs2) st = Some (Ret (visit_values callback xs2.*2 st)).
Proof.
  revert fuel xs1 st. induction xs2 as [|[q v] xs2 IH]; intros fuel xs1 st Hr Hf; [by destruct fuel|].
  simpl in Hf. destruct fuel as [|fuel]; [lia|]. cbn [walk first_ptr fst].
  destruct (load_node _ _ _ _ _ _ Hr) as (x & Hx & _ & _ & _ & Hv).
  unfold Value. rewrite Hx. cbn [mbind outcome_bind]. rewrite Hv. cbn [default from_option id visit_values fmap list_fmap snd].
  destruct (callback v st) as [st' [err|]]; [done|].
  rewrite (Next_rep w l xs1 q v xs2 Hr). apply (IH fuel (xs1 ++ [(q, v)])); [by rewrite <-app_assoc|lia].
Qed.

Lemma walk_Prev {S} fuel w l xs1 xs2 (callback : T → S → S * option error) st :
  list_rep w l (rev xs1 ++ xs2) → (length xs1 ≤ fuel)%nat →
  walk fuel w Prev callback (first_ptr xs1) st = Some (Ret (visit_values callback xs1.*2 st)).
Proof.
  revert fuel xs2 st. induction xs1 as [|[q v] xs1 IH]; intros fuel xs2 st Hr Hf; [by destruct fuel|].
  simpl in Hf. destruct fuel as [|fuel]; [lia|]. cbn [walk first_ptr fst].
  simpl in Hr. rewrite <-app_assoc in Hr. simpl in Hr.
  destruct (load_node _ _ _ _ _ _ Hr) as (x & Hx & _ & _ & _ & Hv).
  unfold Value. rewrite Hx. cbn [mbind outcome_bind]. rewrite Hv. cbn [default from_option id visit_values fmap list_fmap snd].
  destruct (callback v st) as [st' [err|]]; [done|].
  rewrite (Prev_rep w l (rev xs1) q v xs2 Hr), rev_involutive. apply (IH fuel ((q, v) :: xs2)); [done|lia].
Qed.

Lemma visit_collect vs (acc : list T) : visit_values (λ v values, (values ++ [v], None)) vs acc = (acc ++ vs, None).
Proof.
  revert acc. induction vs as [|v vs IH]; intros acc; simpl; [by rewrite app_nil_r|].
  by rewrite IH, <-app_assoc.
Qed.

(** The loop of [PushBackList]; the other list may be the list itself. *)
Lemma push_back_list_rep w W l other xs ys1 ys2 zs e :
  world_rep w W → W !! l = Some xs → W !! other = Some (ys1 ++ ys2 ++ zs) →
  (ys2 ≠ [] → e = first_ptr ys2) →
  ∃ w' new, push_list (length ys2) w e
      (λ w v, root ← load w (Some (inl l)); insertValue_at w l v (prev root)) Next = Ret w' ∧
    new.*2 = ys2.*2 ∧ world_rep w' (<[l:=xs ++ new]> W).
Proof.
  revert w W xs ys1 zs e. induction ys2 as [|[q v] ys2 IH]; intros w W xs ys1 zs e HW Hl Ho He.
  { exists w, []. split_and!; try done. by rewrite app_nil_r, insert_id. }
  rewrite He by done. cbn [length push_list first_ptr typed mbind outcome_bind fst].
  pose proof (wr_lists _ _ HW _ _ Ho) as Hr. simpl in Hr.
  destruct (load_node _ _ _ _ _ _ Hr) as (x & -> & _ & _ & _ & Hv). cbn [mbind outcome_bind].
  unfold deref_value. rewrite Hv. cbn [mbind outcome_bind].
  destruct (push_back_rep w W l xs v HW Hl) as (w1 & p & -> & Hp & HW1). cbn [mbind outcome_bind].
  assert (∃ zs', <[l:=xs ++ [(p, v)]]> W !! other = Some ((ys1 ++ [(q, v)]) ++ ys2 ++ zs')) as [zs' Ho'].
  { destruct (decide (other = l)) as [->|Hne].
    - rewrite Hl in Ho. simplify_eq. exists (zs ++ [(p, v)]). rewrite lookup_insert_eq. f_equal.
      by rewrite <-!app_assoc.
    - exists zs. rewrite lookup_insert_ne by done. by rewrite <-app_assoc. }
  pose proof (wr_lists _ _ HW1 _ _ Ho') as Hr1. rewrite <-app_assoc in Hr1. simpl in Hr1.
  rewrite (Next_rep _ _ _ _ _ _ Hr1). cbn [mbind outcome_bind].
  destruct (IH w1 (<[l:=xs ++ [(p, v)]]> W) (xs ++ [(p, v)]) (ys1 ++ [(q, v)]) zs'
    (first_ptr (ys2 ++ zs')) HW1) as (w' & new & -> & Hnew & HW').
  - by rewrite lookup_insert_eq.
  - done.
  - by destruct ys2.
  - exists w', ((p, v) :: new). split; [done|]. split; [by rewrite !fmap_cons, Hnew|].
    by rewrite insert_insert_eq, <-app_assoc in HW'.
Qed.

Lemma PushBackList_rep w W l other xs ys :
  world_rep w W → W !! l = Some xs → W !! other = Some ys →
  ∃ w' new, PushBackList w l other = Ret w' ∧ new.*2 = ys.*2 ∧ world_rep w' (<[l:=xs ++ new]> W).
Proof.
  intros HW Hl Ho. unfold PushBackList, Len, get_len.
  rewrite (lazyInit_rep w l xs) by (by apply (wr_lists _ _ HW)). cbn [mbind outcome_bind].
  pose proof (wr_lists _ _ HW _ _ Ho) as Hr. rewrite (lr_len _ _ _ Hr), (Front_rep _ _ _ Hr).
  cbn [mbind outcome_bind]. unfold len. rewrite Nat2Z.id.
  apply (push_back_list_rep w W l other xs [] ys [] (first_ptr ys)); [done|done|by rewrite app_nil_r|done].
Qed.

End list_impl.
Arguments listElement : clear implicits.
Arguments world : clear implicits.
Arguments items : clear implicits.

(** ** Properties *)

(** Insertion.  In a world of well-formed lists, [PushFront], [PushBack],
    [InsertBefore] and [InsertAfter] run without a nil dereference, put a new
    element with the value at the front, at the back, before and behind the
    given element, keep the order of the others, and leave every other list of
    the world as it was. *)
Lemma list_insertion {T} `{!Inhabited T} (w : world T) W l xs1 p u xs2 v :
  world_rep w W → W !! l = Some (xs1 ++ (p, u) :: xs2) →
  (∃ w' q, PushFront w l v = Ret (w', inr q) ∧
     world_rep w' (<[l:=(q, v) :: xs1 ++ (p, u) :: xs2]> W)) ∧
  (∃ w' q, PushBack w l v = Ret (w', inr q) ∧
     world_rep w' (<[l:=(xs1 ++ (p, u) :: xs2) ++ [(q, v)]]> W)) ∧
  (∃ w' q, InsertBefore w l v (Some (inr p)) = Ret (w', Some (inr q)) ∧
     world_rep w' (<[l:=xs1 ++ (q, v) :: (p, u) :: xs2]> W)) ∧
  (∃ w' q, InsertAfter w l v (Some (inr p)) = Ret (w', Some (inr q)) ∧
     world_rep w' (<[l:=xs1 ++ (p, u) :: (q, v) :: xs2]> W)).
Proof.
  intros HW Hl. split_and!.
  - destruct (PushFront_rep w W l _ v HW Hl) as (w' & q & ? & _ & ?). by exists w', q.
  - destruct (PushBack_rep w W l _ v HW Hl) as (w' & q & ? & _ & ?). by exists w', q.
  - destruct (InsertBefore_rep w W l xs1 p u xs2 v HW Hl) as (w' & q & ? & _ & ?). by exists w', q.
  - destruct (InsertAfter_rep w W l xs1 p u xs2 v HW Hl) as (w' & q & ? & _ & ?). by exists w', q.
Qed.

(** A world with one list of two elements. *)
Lemma two_elements : ∃ (w : world Z) W l p q, world_rep w W ∧ W !! l = Some [(p, 1); (q, 2)].
Proof.
  destruct (newList_rep (T:=Z) empty_world ∅ world_rep_empty) as (w1 & l & _ & _ & H1).
  destruct (PushBack_rep w1 _ l [] 1 H1) as (w2 & p & _ & _ & H2); [by rewrite lookup_insert_eq|].
  destruct (PushBack_rep w2 _ l [(p, 1)] 2 H2) as (w3 & q & _ & _ & H3); [by rewrite lookup_insert_eq|].
  eexists w3, _, l, p, q. split; [exact H3|]. by rewrite lookup_insert_eq.
Qed.

Lemma list_insertion_witness :
  ∃ (w : world Z) l p w' q, PushFront w l 7 = Ret (w', inr q) ∧ Front w l = Ret (Some (inr p)).
Proof.
  destruct two_elements as (w & W & l & p & q & HW & Hl).
  destruct (list_insertion w W l [] p 1 [(q, 2)] 7 HW Hl) as ((w' & r & H & _) & _).
  exists w, l, p, w', r. split; [exact H|]. by rewrite (Front_rep w l _ (wr_lists _ _ HW _ _ Hl)).
Defined.

(** Removal and moves.  [Remove] takes the element out and returns its
    value, [MoveToFront] and [MoveToBack] move it to the ends; the order of the
    other elements and the other lists are unchanged, and nothing panics. *)
Lemma list_removal_and_moves {T} `{!Inhabited T} (w : world T) W l xs1 p u xs2 :
  world_rep w W → W !! l = Some (xs1 ++ (p, u) :: xs2) →
  (∃ w', Remove w l (Some (inr p)) = Ret (w', u) ∧ world_rep w' (<[l:=xs1 ++ xs2]> W)) ∧
  (∃ w', MoveToFront w l (Some (inr p)) = Ret w' ∧ world_rep w' (<[l:=(p, u) :: xs1 ++ xs2]> W)) ∧
  (∃ w', MoveToBack w l (Some (inr p)) = Ret w' ∧ world_rep w' (<[l:=xs1 ++ xs2 ++ [(p, u)]]> W)).
Proof.
  intros HW Hl. split_and!; [by apply Remove_rep|by apply MoveToFront_rep|by apply MoveToBack_rep].
Qed.

Lemma list_removal_and_moves_witness :
  ∃ (w : world Z) l p w', Remove w l (Some (inr p)) = Ret (w', 1).
Proof.
  destruct two_elements as (w & W & l & p & q & HW & Hl).
  destruct (list_removal_and_moves w W l [] p 1 [(q, 2)] HW Hl) as ((w' & H & _) & _).
  by exists w, l, p, w'.
Defined.

(** [MoveBefore] and [MoveAfter] do not move anything: whatever position is
    given, the lists are afterwards what they were before, since both use the
    element in place of the position. *)
Lemma MoveBefore_MoveAfter_do_nothing {T} `{!Inhabited T} (w : world T) W l xs1 p u xs2 position :
  world_rep w W → W !! l = Some (xs1 ++ (p, u) :: xs2) →
  (∃ w', MoveBefore w l (Some (inr p)) position = Ret w' ∧ world_rep w' W) ∧
  MoveAfter w l (Some (inr p)) position = Ret w.
Proof.
  intros HW Hl. split; [by eapply MoveBefore_rep|by eapply MoveAfter_rep].
Qed.

Lemma MoveBefore_MoveAfter_do_nothing_witness :
  ∃ (w : world Z) l p q, MoveAfter w l (Some (inr p)) (Some (inr q)) = Ret w.
Proof.
  destruct two_elements as (w & W & l & p & q & HW & Hl). exists w, l, p, q.
  apply (MoveBefore_MoveAfter_do_nothing w W l [] p 1 [(q, 2)] (Some (inr q)) HW Hl).
Defined.

(** Traversals.  [Len] is the number of elements; [Values] collects the
    values in order, [ForEach] and [ForEachReverse] visit them in order and in
    reverse until the callback returns an error; the loops end within as many
    rounds as there are elements. *)
Lemma list_traversals {T S} `{!Inhabited T} (w : world T) W l xs
    (callback : T → S → S * option error) st fuel :
  world_rep w W → W !! l = Some xs → (length xs ≤ fuel)%nat →
  Len w l = Ret (len xs) ∧
  Values fuel w l = Some (Ret (xs.*2, None)) ∧
  ForEach fuel w l callback st = Some (Ret (visit_values callback xs.*2 st)) ∧
  ForEachReverse fuel w l callback st = Some (Ret (visit_values callback (rev xs.*2) st)).
Proof.
  intros HW Hl Hf. pose proof (wr_lists _ _ HW _ _ Hl) as Hr. split_and!.
  - unfold Len, get_len. by rewrite (lr_len _ _ _ Hr).
  - unfold Values, Range, ForEach. rewrite (Front_rep _ _ _ Hr).
    rewrite (walk_Next fuel w l [] xs) by done. by rewrite visit_collect.
  - unfold ForEach. rewrite (Front_rep _ _ _ Hr). by apply (walk_Next fuel w l [] xs).
  - unfold ForEachReverse. rewrite (Back_rep _ _ _ Hr).
    rewrite (walk_Prev fuel w l (rev xs) []) by (rewrite ?rev_involutive, ?app_nil_r, ?length_rev; done).
    do 3 f_equal. apply map_rev.
Qed.

Lemma list_traversals_witness :
  ∃ (w : world Z) l, Values 2 w l = Some (Ret ([1; 2], None)).
Proof.
  destruct two_elements as (w & W & l & p & q & HW & Hl). exists w, l.
  apply (list_traversals w W l [(p, 1); (q, 2)] (λ v st, (st, None)) tt 2 HW Hl). simpl. lia.
Defined.

(** [PushBackList] appends new elements with the values of the other list,
    in order, also when the other list is the list itself, and leaves the other
    lists as they were. *)
Lemma PushBackList_appends {T} `{!Inhabited T} (w : world T) W l other xs ys :
  world_rep w W → W !! l = Some xs → W !! other = Some ys →
  ∃ w' new, PushBackList w l other = Ret w' ∧ new.*2 = ys.*2 ∧ world_rep w' (<[l:=xs ++ new]> W).
Proof. apply PushBackList_rep. Qed.

Lemma PushBackList_appends_witness :
  ∃ (w w' : world Z) l, PushBackList w l l = Ret w' ∧ Values 4 w' l = Some (Ret ([1; 2; 1; 2], None)).
Proof.
  destruct two_elements as (w & W & l & p & q & HW & Hl).
  destruct (PushBackList_appends w W l l _ _ HW Hl Hl) as (w' & new & H1 & H2 & HW').
  exists w, w', l. split; [exact H1|].
  pose proof (wr_lists _ _ HW' l _ ltac:(by rewrite lookup_insert_eq)) as Hr.
  unfold Values, Range, ForEach. rewrite (Front_rep _ _ _ Hr).
  rewrite (walk_Next 4 w' l [] _ _ _ Hr).
  - rewrite visit_collect, fmap_app, H2. reflexivity.
  - rewrite length_app. apply (f_equal length) in H2. rewrite !length_fmap in H2. rewrite H2. simpl. lia.
Defined.

(** After [Init] has cleared a list, its old elements still name it as their
    list: removing one of them makes the length negative. *)
Definition stale_remove : outcome Z :=
  '(w, l) ← newList (T:=Z) empty_world;
  '(w, e) ← PushBack w l 1;
  '(w, _) ← PushBack w l 2;
  w ← Init w l;
  '(w, _) ← Remove w l (Some e);
  Len w l.

Lemma Init_leaves_elements_attached : stale_remove = Ret (-1).
Proof. vm_compute. reflexivity. Qed.
