(* ===== verification/Queue.v ===== *)
(** * ds/queue and ds/ringbuffer

    [src/ds/queue/queue.go] and [src/ds/ringbuffer/ringbuffer.go]: fixed-size
    ring buffers, each method under the mutex of its object.  Both are shown to
    be bounded sequences. *)

From S2P Require Import Prelude.

(** ** Indices modulo the capacity *)

Lemma mod_inj c r i j :
  0 < c → 0 ≤ i < c → 0 ≤ j < c → (r + i) mod c = (r + j) mod c → i = j.
Proof.
  intros Hc Hi Hj E.
  pose proof (Z.div_mod (r + i) c ltac:(lia)). pose proof (Z.div_mod (r + j) c ltac:(lia)).
  rewrite E in *. assert (c * ((r + i) / c - (r + j) / c) = i - j) as Hd by lia.
  assert ((r + i) / c - (r + j) / c = 0) as Hz by nia. rewrite Hz in Hd. lia.
Qed.

Lemma mod_range c z : 0 < c → 0 ≤ z mod c < c.
Proof. intros. apply Z.mod_pos_bound. lia. Qed.

Section queue.
Context {T : Type} `{!Inhabited T}.

(** [make([]T, n)] *)
Definition make_slice (n : Z) : outcome (list T) :=
  if n <? 0 then Panic "makeslice: len out of range" else Ret (replicate (Z.to_nat n) inhabitant).

(** ** Queue *)

Record Queue : Type := mkQueue {
  ringBuffer : list T;
  read : Z;
  write : Z;
  capacity : Z;
  q_size : Z;
}.

Definition New (capacity : Z) : outcome Queue :=
  b ← make_slice capacity;
  Ret {| ringBuffer := b; read := 0; write := 0; capacity := capacity; q_size := 0 |}.

Definition Size (queue : Queue) : Z := q_size queue.
Definition Capacity (queue : Queue) : Z := capacity queue.

Definition poll (queue : Queue) : outcome (Queue * option T) :=
  if q_size queue =? 0 then Ret (queue, None)
  else
    element ← index (ringBuffer queue) (read queue);
    b ← store (ringBuffer queue) (read queue) inhabitant;
    if capacity queue =? 0 then Panic "integer divide by zero"
    else Ret ({| ringBuffer := b; read := Z.rem (read queue + 1) (capacity queue);
                 write := write queue; capacity := capacity queue; q_size := q_size queue - 1 |},
              Some element).

Definition Poll (queue : Queue) : outcome (Queue * option T) := poll queue.

(** The code [ForceOffer] and [Offer] share. *)
Definition push (queue : Queue) (element : T) : outcome Queue :=
  b ← store (ringBuffer queue) (write queue) element;
  if capacity queue =? 0 then Panic "integer divide by zero"
  else Ret {| ringBuffer := b; read := read queue; write := Z.rem (write queue + 1) (capacity queue);
              capacity := capacity queue; q_size := q_size queue + 1 |}.

Definition ForceOffer (queue : Queue) (element : T) : outcome (Queue * option T) :=
  '(queue, removed) ← (if q_size queue =? capacity queue then poll queue else Ret (queue, None));
  queue ← push queue element;
  Ret (queue, removed).

Definition Offer (queue : Queue) (element : T) : outcome (Queue * bool) :=
  if q_size queue =? capacity queue then Ret (queue, false)
  else queue ← push queue element; Ret (queue, true).

(** [queue] holds the elements [xs], oldest first, and zero values elsewhere. *)
Record queue_rep (queue : Queue) (xs : list T) : Prop := {
  qr_pos : 0 < capacity queue;
  qr_len : len (ringBuffer queue) = capacity queue;
  qr_size : q_size queue = len xs;
  qr_fits : len xs ≤ capacity queue;
  qr_read : 0 ≤ read queue < capacity queue;
  qr_write : write queue = (read queue + len xs) mod capacity queue;
  qr_slots i : 0 ≤ i < capacity queue →
    ringBuffer queue !! Z.to_nat ((read queue + i) mod capacity queue) =
      Some (default inhabitant (xs !! Z.to_nat i));
}.

(** ** The specification: a bounded sequence *)

Inductive qop : Type := QOffer (x : T) | QForceOffer (x : T) | QPoll.
Inductive qres : Type := QBool (b : bool) | QElem (x : option T).

Definition queue_step (queue : Queue) (o : qop) : outcome (Queue * qres) :=
  match o with
  | QOffer x => '(queue, b) ← Offer queue x; Ret (queue, QBool b)
  | QForceOffer x => '(queue, r) ← ForceOffer queue x; Ret (queue, QElem r)
  | QPoll => '(queue, r) ← Poll queue; Ret (queue, QElem r)
  end.

Definition seq_step (cap : Z) (xs : list T) (o : qop) : list T * qres :=
  match o with
  | QOffer x => if len xs =? cap then (xs, QBool false) else (xs ++ [x], QBool true)
  | QForceOffer x =>
      if len xs =? cap then (tail xs ++ [x], QElem (head xs)) else (xs ++ [x], QElem None)
  | QPoll => (tail xs, QElem (head xs))
  end.

Fixpoint queue_run (queue : Queue) (ops : list qop) : outcome (Queue * list qres) :=
  match ops with
  | [] => Ret (queue, [])
  | o :: ops =>
      '(queue, r) ← queue_step queue o;
      '(queue, rs) ← queue_run queue ops;
      Ret (queue, r :: rs)
  end.

Fixpoint seq_run (cap : Z) (xs : list T) (ops : list qop) : list T * list qres :=
  match ops with
  | [] => (xs, [])
  | o :: ops =>
      let '(xs, r) := seq_step cap xs o in
      let '(xs, rs) := seq_run cap xs ops in (xs, r :: rs)
  end.

(** ** Lemmas *)

Lemma store_ok {A} (l : list A) i x : 0 ≤ i < len l → store l i x = Ret (<[Z.to_nat i:=x]> l).
Proof. intros H. rewrite <-(Z2Nat.id i) at 1 by lia. apply store_nat. unfold len in H. lia. Qed.

Lemma index_ok {A} (l : list A) i x : 0 ≤ i → l !! Z.to_nat i = Some x → index l i = Ret x.
Proof. intros H Hl. rewrite <-(Z2Nat.id i) by lia. by apply index_nat. Qed.

Lemma len_insert {A} (l : list A) i x : len (<[i:=x]> l) = len l.
Proof. unfold len. by rewrite length_insert. Qed.

Lemma New_rep cap : 0 < cap → ∃ queue, New cap = Ret queue ∧ queue_rep queue [] ∧ capacity queue = cap.
Proof.
  intros Hc. unfold New, make_slice. rewrite (proj2 (Z.ltb_ge cap 0)) by lia. eexists. split; [done|].
  split; [|done]. split; cbn [capacity ringBuffer read write q_size]; try done; try (unfold len; simpl; lia).
  - unfold len. rewrite length_replicate. lia.
  - intros i Hi. rewrite lookup_replicate_2; [done|]. pose proof (mod_range cap (0 + i) Hc). lia.
Qed.

Lemma poll_rep queue xs :
  queue_rep queue xs →
  ∃ queue', poll queue = Ret (queue', head xs) ∧ queue_rep queue' (tail xs) ∧
    capacity queue' = capacity queue.
Proof.
  intros Hq. pose proof Hq as [Hpos Hlen Hsz Hfit Hrd Hwr Hs]. unfold poll. rewrite Hsz.
  destruct xs as [|x xs]; [by exists queue|].
  rewrite (proj2 (Z.eqb_neq _ 0)) by (unfold len; simpl; lia).
  pose proof (Hs 0 ltac:(lia)) as H0. rewrite Z.add_0_r, Z.mod_small in H0 by lia. simpl in H0.
  rewrite (index_ok _ _ x) by (lia || done). cbn [mbind outcome_bind].
  rewrite store_ok by lia. cbn [mbind outcome_bind].
  rewrite (proj2 (Z.eqb_neq (capacity queue) 0)) by lia. rewrite Z.rem_mod_nonneg by lia.
  eexists. split; [done|]. split; [|done].
  assert (len (x :: xs) = len xs + 1) as Hl by (unfold len; simpl; lia). rewrite Hl in *.
  split; cbn [capacity ringBuffer read write q_size tail]; try done; try lia.
  - by rewrite len_insert.
  - by apply mod_range.
  - rewrite Hwr, Z.add_mod_idemp_l by lia. f_equal. lia.
  - intros i Hi. rewrite Z.add_mod_idemp_l by lia.
    destruct (decide (i = capacity queue - 1)) as [->|Hne].
    + replace (read queue + 1 + (capacity queue - 1)) with (read queue + 1 * capacity queue) by lia.
      rewrite Z.mod_add, Z.mod_small by lia. rewrite list_lookup_insert_eq by (unfold len in Hlen; lia).
      rewrite lookup_ge_None_2; [done|]. unfold len in *. lia.
    + replace (read queue + 1 + i) with (read queue + (i + 1)) by lia.
      rewrite list_lookup_insert_ne.
      * rewrite Hs by lia. replace (Z.to_nat (i + 1)) with (S (Z.to_nat i)) by lia. done.
      * intros E. pose proof (mod_range (capacity queue) (read queue + (i + 1)) Hpos).
        assert ((read queue + 0) mod capacity queue = (read queue + (i + 1)) mod capacity queue) as E'.
        { rewrite Z.add_0_r, Z.mod_small by lia. lia. }
        apply mod_inj in E'; lia.
Qed.

Lemma push_rep queue xs x :
  queue_rep queue xs → len xs < capacity queue →
  ∃ queue', push queue x = Ret queue' ∧ queue_rep queue' (xs ++ [x]) ∧ capacity queue' = capacity queue.
Proof.
  intros Hq Hlt. pose proof Hq as [Hpos Hlen Hsz Hfit Hrd Hwr Hs]. unfold push.
  pose proof (mod_range (capacity queue) (read queue + len xs) Hpos) as Hm.
  pose proof (len_nonneg xs).
  rewrite store_ok by lia. cbn [mbind outcome_bind].
  rewrite (proj2 (Z.eqb_neq (capacity queue) 0)) by lia. rewrite Z.rem_mod_nonneg by lia.
  eexists. split; [done|]. split; [|done].
  assert (len (xs ++ [x]) = len xs + 1) as Hl by (by rewrite len_app). 
  split; cbn [capacity ringBuffer read write q_size]; rewrite ?Hl; try done; try lia.
  - by rewrite len_insert.
  - rewrite Hwr, Z.add_mod_idemp_l by lia. f_equal. lia.
  - intros i Hi. rewrite Hwr. destruct (decide (i = len xs)) as [->|Hne].
    + rewrite list_lookup_insert_eq by (unfold len in Hlen; lia).
      rewrite lookup_app_r by (unfold len; lia). unfold len. rewrite Nat2Z.id, Nat.sub_diag. done.
    + pose proof (mod_range (capacity queue) (read queue + i) Hpos).
      rewrite list_lookup_insert_ne by (intros E; apply Hne, (mod_inj (capacity queue) (read queue)); lia).
      rewrite Hs by lia. f_equal. destruct (decide (i < len xs)).
      * rewrite lookup_app_l by (unfold len in *; lia). done.
      * unfold len in *. rewrite !lookup_ge_None_2; [done| |lia]. rewrite length_app. simpl. lia.
Qed.

Lemma queue_step_rep queue xs o :
  queue_rep queue xs →
  ∃ queue', queue_step queue o = Ret (queue', (seq_step (capacity queue) xs o).2) ∧
    queue_rep queue' (seq_step (capacity queue) xs o).1 ∧ capacity queue' = capacity queue.
Proof.
  intros Hq. pose proof (qr_size _ _ Hq) as Hsz. pose proof (qr_fits _ _ Hq) as Hfit.
  pose proof (qr_pos _ _ Hq) as Hpos.
  destruct o as [x|x|]; cbn [queue_step seq_step].
  - unfold Offer. rewrite Hsz. destruct (Z.eqb_spec (len xs) (capacity queue)); [by exists queue|].
    destruct (push_rep queue xs x Hq) as (q' & -> & ? & ?); [lia|]. by exists q'.
  - unfold ForceOffer. rewrite Hsz. destruct (Z.eqb_spec (len xs) (capacity queue)) as [E|].
    + destruct (poll_rep queue xs Hq) as (q1 & -> & Hq1 & Hc1). cbn [mbind outcome_bind].
      destruct (push_rep q1 (tail xs) x Hq1) as (q2 & -> & Hq2 & Hc2).
      { rewrite Hc1. destruct xs; unfold len in *; simpl in *; lia. }
      exists q2. split_and!; [done..|]. congruence.
    + cbn [mbind outcome_bind]. destruct (push_rep queue xs x Hq) as (q' & -> & ? & ?); [lia|]. by exists q'.
  - unfold Poll. destruct (poll_rep queue xs Hq) as (q' & -> & ? & ?). by exists q'.
Qed.

Lemma queue_run_rep queue xs ops :
  queue_rep queue xs →
  ∃ queue', queue_run queue ops = Ret (queue', (seq_run (capacity queue) xs ops).2) ∧
    queue_rep queue' (seq_run (capacity queue) xs ops).1.
Proof.
  revert queue xs. induction ops as [|o ops IH]; intros queue xs Hq; [by exists queue|].
  cbn [queue_run seq_run]. destruct (queue_step_rep queue xs o Hq) as (q1 & -> & Hq1 & Hc).
  cbn [mbind outcome_bind]. destruct (seq_step (capacity queue) xs o) as [xs1 r]. simpl in Hq1.
  destruct (IH q1 xs1 Hq1) as (q2 & -> & Hq2). rewrite Hc in *. cbn [mbind outcome_bind].
  exists q2. by destruct (seq_run (capacity queue) xs1 ops).
Qed.

End queue.
Arguments Queue : clear implicits.
Arguments qop : clear implicits.
Arguments qres : clear implicits.

(** ** Properties *)

(** A [Queue] with a positive capacity is a bounded FIFO queue.  Any
    sequence of [Offer], [ForceOffer] and [Poll] on a new queue runs without a
    panic and answers as the bounded sequence does: [Offer] refuses when full,
    [ForceOffer] drops and returns the oldest element, [Poll] takes the oldest;
    slots that are not in use hold zero values, so no element is retained. *)
Lemma Queue_refines_bounded_fifo {T} `{!Inhabited T} cap (ops : list (qop T)) :
  0 < cap →
  ∃ queue0 queue, New cap = Ret queue0 ∧ queue_run queue0 ops = Ret (queue, (seq_run cap [] ops).2) ∧
    queue_rep queue (seq_run cap [] ops).1 ∧ Size queue = len (seq_run cap [] ops).1.
Proof.
  intros Hc. destruct (New_rep (T:=T) cap Hc) as (queue0 & Hn & Hr & Hcap).
  destruct (queue_run_rep queue0 [] ops Hr) as (queue & Hrun & Hq). rewrite Hcap in *.
  exists queue0, queue. split_and!; try done. apply (qr_size _ _ Hq).
Qed.

Lemma Queue_refines_bounded_fifo_witness :
  ∃ queue0 queue : Queue Z, New 2 = Ret queue0 ∧
    queue_run queue0 [QOffer 1; QOffer 2; QOffer 3; QForceOffer 4; QPoll] =
      Ret (queue, [QBool true; QBool true; QBool false; QElem (Some 1); QElem (Some 2)]) ∧
    queue_rep queue [4] ∧ Size queue = 1.
Proof.
  apply (Queue_refines_bounded_fifo (T:=Z) 2 [QOffer 1; QOffer 2; QOffer 3; QForceOffer 4; QPoll]).
  reflexivity.
Defined.

(** ** RingBuffer *)

Section ringbuffer.
Context {T : Type} `{!Inhabited T}.

Record RingBuffer : Type := mkRingBuffer {
  buffer : list T;
  pos : Z;
  rb_capacity : Z;
  rb_size : Z;
}.

Definition NewRingBuffer (capacity : Z) : outcome RingBuffer :=
  b ← make_slice capacity;
  Ret {| buffer := b; pos := 0; rb_capacity := capacity; rb_size := 0 |}.

Definition Add (r : RingBuffer) (element : T) : outcome RingBuffer :=
  b ← store (buffer r) (pos r) element;
  if rb_capacity r =? 0 then Panic "integer divide by zero"
  else Ret {| buffer := b; pos := Z.rem (pos r + 1) (rb_capacity r); rb_capacity := rb_capacity r;
              rb_size := if rb_size r <? rb_capacity r then rb_size r + 1 else rb_size r |}.

(** [if i < 0 { i = r.capacity - 1 }] *)
Definition wrap_index (r : RingBuffer) (i : Z) : Z := if i <? 0 then rb_capacity r - 1 else i.

(** The loop of [ToSlice], [n] rounds from index [i] down. *)
Fixpoint read_back (r : RingBuffer) (n : nat) (i : Z) : outcome (list T) :=
  match n with
  | O => Ret []
  | S n =>
      x ← index (buffer r) i;
      rest ← read_back r n (wrap_index r (i - 1));
      Ret (x :: rest)
  end.

Definition ToSlice (r : RingBuffer) : outcome (list T) :=
  read_back r (Z.to_nat (rb_size r)) (wrap_index r (pos r - 1)).

Fixpoint add_all (r : RingBuffer) (xs : list T) : outcome RingBuffer :=
  match xs with
  | [] => Ret r
  | x :: xs => r ← Add r x; add_all r xs
  end.

(** [r] holds the elements [xs], newest first. *)
Record rb_rep (r : RingBuffer) (xs : list T) : Prop := {
  rr_pos : 0 < rb_capacity r;
  rr_len : len (buffer r) = rb_capacity r;
  rr_at : 0 ≤ pos r < rb_capacity r;
  rr_size : rb_size r = len xs;
  rr_fits : len xs ≤ rb_capacity r;
  rr_slots i : 0 ≤ i < len xs →
    buffer r !! Z.to_nat ((pos r - 1 - i) mod rb_capacity r) = xs !! Z.to_nat i;
}.

Lemma mod_sub_inj c r i j :
  0 < c → 0 ≤ i < c → 0 ≤ j < c → (r - i) mod c = (r - j) mod c → i = j.
Proof.
  intros Hc Hi Hj E.
  pose proof (Z.div_mod (r - i) c ltac:(lia)). pose proof (Z.div_mod (r - j) c ltac:(lia)).
  rewrite E in *. assert (c * ((r - i) / c - (r - j) / c) = j - i) as Hd by lia.
  assert ((r - i) / c - (r - j) / c = 0) as Hz by nia. rewrite Hz in Hd. lia.
Qed.

Lemma wrap_index_mod r i : 0 < rb_capacity r → -1 ≤ i < rb_capacity r → wrap_index r i = i mod rb_capacity r.
Proof.
  intros Hc Hi. unfold wrap_index. destruct (Z.ltb_spec i 0).
  - replace i with (-1) by lia. replace (-1) with (rb_capacity r - 1 + (-1) * rb_capacity r) by lia.
    by rewrite Z.mod_add, Z.mod_small by lia.
  - by rewrite Z.mod_small by lia.
Qed.

Lemma read_back_rep r xs (k n : nat) :
  rb_rep r xs → (k + n = length xs)%nat →
  read_back r n ((pos r - 1 - Z.of_nat k) mod rb_capacity r) = Ret (drop k xs).
Proof.
  intros Hr. pose proof Hr as [Hpos Hlen Hat Hsz Hfit Hs]. revert k.
  induction n as [|n IH]; intros k Hk; cbn [read_back].
  { by rewrite drop_ge by lia. }
  destruct (lookup_lt_is_Some_2 xs k ltac:(lia)) as [x Hx].
  pose proof (mod_range (rb_capacity r) (pos r - 1 - Z.of_nat k) Hpos) as Hm.
  rewrite (index_ok _ _ x); [|lia|]; [|rewrite Hs by (unfold len; lia); by rewrite Nat2Z.id].
  cbn [mbind outcome_bind]. rewrite wrap_index_mod by lia.
  replace (((pos r - 1 - Z.of_nat k) mod rb_capacity r - 1) mod rb_capacity r)
    with ((pos r - 1 - Z.of_nat (S k)) mod rb_capacity r).
  2:{ rewrite Zminus_mod_idemp_l. f_equal. lia. }
  rewrite IH by lia. cbn [mbind outcome_bind]. by rewrite (drop_S xs x k).
Qed.

Lemma ToSlice_rep r xs : rb_rep r xs → ToSlice r = Ret xs.
Proof.
  intros Hr. unfold ToSlice. pose proof (rr_at _ _ Hr). pose proof (rr_pos _ _ Hr).
  rewrite wrap_index_mod, (rr_size _ _ Hr) by lia. unfold len. rewrite Nat2Z.id.
  pose proof (read_back_rep r xs 0 (length xs) Hr eq_refl) as E. by rewrite Z.sub_0_r in E.
Qed.

Lemma Add_rep r xs x :
  rb_rep r xs → ∃ r', Add r x = Ret r' ∧ rb_rep r' (take (Z.to_nat (rb_capacity r)) (x :: xs)) ∧
    rb_capacity r' = rb_capacity r.
Proof.
  intros Hr. pose proof Hr as [Hpos Hlen Hat Hsz Hfit Hs]. unfold Add.
  rewrite store_ok by lia. cbn [mbind outcome_bind].
  rewrite (proj2 (Z.eqb_neq (rb_capacity r) 0)), Z.rem_mod_nonneg by lia.
  eexists. split; [done|]. split; [|done].
  assert (len (take (Z.to_nat (rb_capacity r)) (x :: xs)) = Z.min (rb_capacity r) (len xs + 1)) as Hl.
  { unfold len in *. rewrite length_take. simpl. lia. }
  split; cbn [buffer pos rb_capacity rb_size]; rewrite ?Hl; try done; try lia.
  - by rewrite len_insert.
  - by apply mod_range.
  - destruct (Z.ltb_spec (rb_size r) (rb_capacity r)); lia.
  - intros i Hi. rewrite lookup_take_lt by lia.
    rewrite <-Z.sub_add_distr, Zminus_mod_idemp_l.
    replace (pos r + 1 - (1 + i)) with (pos r - i) by lia.
    destruct (decide (i = 0)) as [->|Hne].
    + rewrite Z.sub_0_r, Z.mod_small by lia.
      by rewrite list_lookup_insert_eq by (unfold len in Hlen; lia).
    + pose proof (mod_range (rb_capacity r) (pos r - i) Hpos).
      rewrite list_lookup_insert_ne.
      * replace (pos r - i) with (pos r - 1 - (i - 1)) by lia. rewrite Hs by lia.
        by replace (Z.to_nat i) with (S (Z.to_nat (i - 1))) by lia.
      * intros E. apply Hne. apply (mod_sub_inj (rb_capacity r) (pos r)); try lia.
        rewrite Z.sub_0_r, (Z.mod_small (pos r)) by lia. lia.
Qed.

Lemma add_all_rep r ys xs :
  rb_rep r (take (Z.to_nat (rb_capacity r)) ys) →
  ∃ r', add_all r xs = Ret r' ∧ rb_rep r' (take (Z.to_nat (rb_capacity r)) (rev xs ++ ys)).
Proof.
  revert r ys. induction xs as [|x xs IH]; intros r ys Hr; [by exists r|]. cbn [add_all].
  destruct (Add_rep r _ x Hr) as (r1 & -> & Hr1 & Hc). cbn [mbind outcome_bind].
  rewrite <-Hc in *. simpl. rewrite <-app_assoc. apply IH.
  destruct (Z.to_nat (rb_capacity r1)) as [|n] eqn:E; [pose proof (rr_pos _ _ Hr1); lia|].
  simpl in *. by rewrite take_take, Nat.min_l in Hr1 by lia.
Qed.

End ringbuffer.
Arguments RingBuffer : clear implicits.

(** A [RingBuffer] keeps the newest elements.  After any elements were
    added to a new buffer of positive capacity, without a panic, [ToSlice]
    returns the last ones, newest first, as many as fit. *)
Lemma RingBuffer_keeps_newest {T} `{!Inhabited T} cap (xs : list T) :
  0 < cap →
  ∃ r0 r, NewRingBuffer cap = Ret r0 ∧ add_all r0 xs = Ret r ∧
    ToSlice r = Ret (take (Z.to_nat cap) (rev xs)).
Proof.
  intros Hc. unfold NewRingBuffer, make_slice. rewrite (proj2 (Z.ltb_ge cap 0)) by lia.
  cbn [mbind outcome_bind]. set (r0 := {| buffer := _ |}).
  destruct (add_all_rep r0 [] xs) as (r & Hr & Hrep).
  { rewrite take_nil. split; simpl; try done; try lia; unfold len; simpl; try lia.
    rewrite length_replicate. lia. }
  exists r0, r. split; [done|]. split; [done|]. rewrite (ToSlice_rep _ _ Hrep). by rewrite app_nil_r.
Qed.

Lemma RingBuffer_keeps_newest_witness :
  ∃ r0 r : RingBuffer Z, NewRingBuffer 3 = Ret r0 ∧ add_all r0 [1; 2; 3; 4; 5] = Ret r ∧
    ToSlice r = Ret [5; 4; 3].
Proof. apply (RingBuffer_keeps_newest (T:=Z) 3 [1; 2; 3; 4; 5]). reflexivity. Defined.

(** A queue of capacity 0 refuses every [Offer], and [ForceOffer] panics on it. *)
Lemma ForceOffer_capacity_0 :
  ∃ queue : Queue Z, New 0 = Ret queue ∧ Offer queue 1 = Ret (queue, false) ∧
    ForceOffer queue 1 = Panic "index out of range".
Proof. by eexists. Qed.
