(* ===== verification/StarvingMutex.v ===== *)
(** * runtime/syncutils: the StarvingMutex

    [src/runtime/syncutils/starvingmutex.go] as a transition system.  The fields
    of the mutex are shared; each goroutine has a program counter.  A critical
    section under the internal [sync.Mutex] is one step; [Cond.Wait] parks the
    goroutine in the same step that leaves the critical section, as
    [sync.Cond] guarantees, and a woken goroutine checks its condition again in
    a step of its own.  [Signal] and [Broadcast] are called after the internal
    mutex was released, so they are separate steps and others may come between.
    [Signal] wakes some waiting goroutine.  The deadlock detection of the debug
    mode only prints and is left out. *)

From stdpp Require Import relations.
From S2P Require Import Prelude.

Record StarvingMutex : Type := mkMutex {
  readersActive : Z;
  writerActive : bool;
  pendingWriters : Z;
}.

Definition NewStarvingMutex : StarvingMutex :=
  {| readersActive := 0; writerActive := false; pendingWriters := 0 |}.

(** Where a goroutine stands. *)
Inductive pc : Type :=
  | Idle
  | RWait | RWoken | Reading
  | WWait | WWoken | Writing
  | SignalWriter      (* about to call [writerCond.Signal] *)
  | BroadcastReaders. (* about to call [readerCond.Broadcast] *)

#[global] Instance pc_eq_dec : EqDecision pc.
Proof. solve_decision. Defined.

Definition canWrite (f : StarvingMutex) : bool := negb (writerActive f) && (readersActive f =? 0).

(** ** Critical sections: the new fields and where the goroutine goes *)

(** The loop of [RLock], entered for the first time or after a wake-up. *)
Definition RLock_loop (f : StarvingMutex) : StarvingMutex * pc :=
  if writerActive f then (f, RWait)
  else ({| readersActive := readersActive f + 1; writerActive := writerActive f;
           pendingWriters := pendingWriters f |}, Reading).

Definition RLock (f : StarvingMutex) : StarvingMutex * pc := RLock_loop f.

Definition RUnlock (f : StarvingMutex) : outcome (StarvingMutex * pc) :=
  if readersActive f =? 0 then Panic "RUnlock called without RLock"
  else if writerActive f then Panic "RUnlock called while writer active"
  else
    let f := {| readersActive := readersActive f - 1; writerActive := writerActive f;
                pendingWriters := pendingWriters f |} in
    if (readersActive f =? 0) && (pendingWriters f >? 0) then Ret (f, SignalWriter)
    else Ret (f, Idle).

(** The loop of [Lock]. *)
Definition Lock_loop (f : StarvingMutex) : StarvingMutex * pc :=
  if negb (canWrite f) then (f, WWait)
  else ({| readersActive := readersActive f; writerActive := true;
           pendingWriters := pendingWriters f - 1 |}, Writing).

Definition Lock (f : StarvingMutex) : StarvingMutex * pc :=
  Lock_loop {| readersActive := readersActive f; writerActive := writerActive f;
               pendingWriters := pendingWriters f + 1 |}.

Definition Unlock (f : StarvingMutex) : outcome (StarvingMutex * pc) :=
  if readersActive f >? 0 then Panic "Unlock called while readers active"
  else
    let f := {| readersActive := readersActive f; writerActive := false;
                pendingWriters := pendingWriters f |} in
    if pendingWriters f =? 0 then Ret (f, BroadcastReaders) else Ret (f, SignalWriter).

(** ** Executions *)

(** The mutex and the goroutines.  A goroutine only unlocks what it locked. *)
Record state : Type := mkState { mutex : StarvingMutex; pcs : list pc }.

Definition wake_reader (p : pc) : pc := match p with RWait => RWoken | p => p end.

Inductive step : state → state → Prop :=
  | step_rlock f ts i :
      ts !! i = Some Idle →
      step (mkState f ts) (mkState (RLock f).1 (<[i:=(RLock f).2]> ts))
  | step_rwoken f ts i :
      ts !! i = Some RWoken →
      step (mkState f ts) (mkState (RLock_loop f).1 (<[i:=(RLock_loop f).2]> ts))
  | step_runlock f ts i f' p :
      ts !! i = Some Reading → RUnlock f = Ret (f', p) →
      step (mkState f ts) (mkState f' (<[i:=p]> ts))
  | step_lock f ts i :
      ts !! i = Some Idle →
      step (mkState f ts) (mkState (Lock f).1 (<[i:=(Lock f).2]> ts))
  | step_wwoken f ts i :
      ts !! i = Some WWoken →
      step (mkState f ts) (mkState (Lock_loop f).1 (<[i:=(Lock_loop f).2]> ts))
  | step_unlock f ts i f' p :
      ts !! i = Some Writing → Unlock f = Ret (f', p) →
      step (mkState f ts) (mkState f' (<[i:=p]> ts))
  | step_signal f ts i j :
      ts !! i = Some SignalWriter → ts !! j = Some WWait →
      step (mkState f ts) (mkState f (<[j:=WWoken]> (<[i:=Idle]> ts)))
  | step_signal_nobody f ts i :
      ts !! i = Some SignalWriter → WWait ∉ ts →
      step (mkState f ts) (mkState f (<[i:=Idle]> ts))
  | step_broadcast f ts i :
      ts !! i = Some BroadcastReaders →
      step (mkState f ts) (mkState f (wake_reader <$> <[i:=Idle]> ts)).

Definition initial (n : nat) : state := mkState NewStarvingMutex (replicate n Idle).

Definition reachable (n : nat) (s : state) : Prop := rtc step (initial n) s.

(** ** Counting goroutines *)

Definition one (b : bool) : Z := if b then 1 else 0.

(** The number of goroutines at a program point. *)
Fixpoint count (p : pc) (ts : list pc) : Z :=
  match ts with
  | [] => 0
  | q :: ts => one (bool_decide (q = p)) + count p ts
  end.

Lemma count_nonneg p ts : 0 ≤ count p ts.
Proof. induction ts as [|q ts IH]; simpl; [lia|]. unfold one. case_bool_decide; lia. Qed.

Lemma count_insert p ts i q r :
  ts !! i = Some q →
  count p (<[i:=r]> ts) = count p ts - one (bool_decide (q = p)) + one (bool_decide (r = p)).
Proof.
  revert i. induction ts as [|t ts IH]; intros [|i] Hi; simplify_eq/=; [lia|]. rewrite (IH i Hi). lia.
Qed.

Lemma count_pos p ts : 0 < count p ts ↔ p ∈ ts.
Proof.
  induction ts as [|q ts IH]; simpl; [split; [lia|by intros ?%not_elem_of_nil]|].
  rewrite elem_of_cons. pose proof (count_nonneg p ts). unfold one. case_bool_decide.
  - subst. split; [by left|lia].
  - rewrite Z.add_0_l, IH. naive_solver.
Qed.

Lemma count_zero p ts : p ∉ ts → count p ts = 0.
Proof. rewrite <-count_pos. pose proof (count_nonneg p ts). lia. Qed.

Lemma count_wake p ts :
  p ≠ RWait → p ≠ RWoken → count p (wake_reader <$> ts) = count p ts.
Proof.
  intros H1 H2. induction ts as [|q ts IH]; [done|]. rewrite fmap_cons. cbn [count]. rewrite IH. do 2 f_equal.
  apply bool_decide_ext. destruct q; simpl; naive_solver.
Qed.

Lemma count_wake_RWait ts : count RWait (wake_reader <$> ts) = 0.
Proof. induction ts as [|q ts IH]; [done|]. rewrite fmap_cons. cbn [count]. rewrite IH. by destruct q. Qed.

Lemma count_replicate p n : p ≠ Idle → count p (replicate n Idle) = 0.
Proof. intros Hp. induction n as [|n IH]; simpl; [done|]. rewrite IH, bool_decide_eq_false_2 by congruence. done. Qed.

(** ** The invariant *)

Record inv (s : state) : Prop := {
  inv_readers : readersActive (mutex s) = count Reading (pcs s);
  inv_writer : one (writerActive (mutex s)) = count Writing (pcs s);
  inv_excl : writerActive (mutex s) = true → readersActive (mutex s) = 0;
  inv_pending : pendingWriters (mutex s) = count WWait (pcs s) + count WWoken (pcs s);
  (* a writer that waits for nothing has a wake-up on the way *)
  inv_wake_writer : canWrite (mutex s) = true → 0 < count WWait (pcs s) →
    0 < count WWoken (pcs s) + count SignalWriter (pcs s);
  (* so has a reader, or a writer goes first *)
  inv_wake_reader : writerActive (mutex s) = false → 0 < count RWait (pcs s) →
    0 < count BroadcastReaders (pcs s) + pendingWriters (mutex s);
}.

Lemma inv_initial n : inv (initial n).
Proof. split; simpl; rewrite ?count_replicate by done; done || lia. Qed.

(** Evaluate the counts after a goroutine has moved. *)
Ltac counts H :=
  rewrite ?(count_insert _ _ _ _ _ H);
  repeat first [rewrite bool_decide_eq_true_2 by done | rewrite bool_decide_eq_false_2 by done];
  unfold one in *.

Ltac pose_counts ts :=
  pose proof (count_nonneg Reading ts); pose proof (count_nonneg Writing ts);
  pose proof (count_nonneg WWait ts); pose proof (count_nonneg WWoken ts);
  pose proof (count_nonneg RWait ts); pose proof (count_nonneg BroadcastReaders ts);
  pose proof (count_nonneg SignalWriter ts).

Lemma count_at p ts i : ts !! i = Some p → 0 < count p ts.
Proof. intros Hi. apply count_pos. by eapply list_elem_of_lookup_2. Qed.

(** A case of a step: arithmetic on the counts. *)
Ltac counting Hi :=
  split; simpl in *; counts Hi; unfold canWrite in *; simpl in *;
  repeat match goal with E : _ = true |- _ => rewrite E in * | E : _ = false |- _ => rewrite E in * end;
  simpl in *; intros; zcases; try lia; try done.

(** Use the implications of the invariant whose premise is known. *)
Ltac use_inv :=
  intros; repeat match goal with H : ?A = ?b → _, E : ?A = ?b |- _ => specialize (H E) end; lia.

Lemma inv_RLock_loop f ts i p :
  ts !! i = Some p → p = Idle ∨ p = RWoken → inv (mkState f ts) →
  inv (mkState (RLock_loop f).1 (<[i:=(RLock_loop f).2]> ts)).
Proof.
  intros Hi Hp [H1 H2 H3 H4 H5 H6]. simpl in *. pose_counts ts. unfold RLock_loop.
  destruct (writerActive f) eqn:Ew; destruct Hp as [-> | ->]; counting Hi.
Qed.

Lemma inv_RUnlock f ts i f' p :
  ts !! i = Some Reading → RUnlock f = Ret (f', p) → inv (mkState f ts) → inv (mkState f' (<[i:=p]> ts)).
Proof.
  intros Hi Hu [H1 H2 H3 H4 H5 H6]. simpl in *. pose_counts ts. pose proof (count_at _ _ _ Hi).
  unfold RUnlock in Hu. destruct (Z.eqb_spec (readersActive f) 0); [done|].
  destruct (writerActive f) eqn:Ew; [done|]. simpl in Hu. rewrite Z.gtb_ltb in Hu.
  destruct (Z.eqb_spec (readersActive f - 1) 0), (Z.ltb_spec 0 (pendingWriters f)); simplify_eq/=; counting Hi.
Qed.

Lemma inv_Lock f ts i :
  ts !! i = Some Idle → inv (mkState f ts) → inv (mkState (Lock f).1 (<[i:=(Lock f).2]> ts)).
Proof.
  intros Hi [H1 H2 H3 H4 H5 H6]. simpl in *. pose_counts ts. unfold Lock, Lock_loop, canWrite. simpl.
  destruct (writerActive f) eqn:Ew; simpl; [counting Hi|].
  destruct (Z.eqb_spec (readersActive f) 0); simpl; counting Hi.
Qed.

Lemma inv_WWoken f ts i :
  ts !! i = Some WWoken → inv (mkState f ts) → inv (mkState (Lock_loop f).1 (<[i:=(Lock_loop f).2]> ts)).
Proof.
  intros Hi [H1 H2 H3 H4 H5 H6]. simpl in *. pose_counts ts. pose proof (count_at _ _ _ Hi).
  unfold Lock_loop, canWrite. destruct (writerActive f) eqn:Ew; simpl; [counting Hi|].
  destruct (Z.eqb_spec (readersActive f) 0); simpl; counting Hi.
Qed.

Lemma inv_Unlock f ts i f' p :
  ts !! i = Some Writing → Unlock f = Ret (f', p) → inv (mkState f ts) → inv (mkState f' (<[i:=p]> ts)).
Proof.
  intros Hi Hu [H1 H2 H3 H4 H5 H6]. simpl in *. pose_counts ts. pose proof (count_at _ _ _ Hi).
  unfold Unlock in Hu. rewrite Z.gtb_ltb in Hu. destruct (Z.ltb_spec 0 (readersActive f)); [done|].
  destruct (writerActive f) eqn:Ew; simpl in H2; [|lia].
  simpl in Hu. destruct (Z.eqb_spec (pendingWriters f) 0); simplify_eq/=; counting Hi.
Qed.

Lemma inv_signal f ts i j :
  ts !! i = Some SignalWriter → ts !! j = Some WWait → inv (mkState f ts) →
  inv (mkState f (<[j:=WWoken]> (<[i:=Idle]> ts))).
Proof.
  intros Hi Hj [H1 H2 H3 H4 H5 H6]. simpl in *. pose_counts ts.
  assert (<[i:=Idle]> ts !! j = Some WWait) as Hj'.
  { rewrite list_lookup_insert_ne; [done|]. intros ->. congruence. }
  split; simpl in *; counts Hj'; counts Hi; use_inv.
Qed.

Lemma inv_signal_nobody f ts i :
  ts !! i = Some SignalWriter → WWait ∉ ts → inv (mkState f ts) → inv (mkState f (<[i:=Idle]> ts)).
Proof.
  intros Hi Hn [H1 H2 H3 H4 H5 H6]. simpl in *. pose_counts ts. pose proof (count_zero _ _ Hn).
  split; simpl in *; counts Hi; use_inv.
Qed.

Lemma inv_broadcast f ts i :
  ts !! i = Some BroadcastReaders → inv (mkState f ts) → inv (mkState f (wake_reader <$> <[i:=Idle]> ts)).
Proof.
  intros Hi [H1 H2 H3 H4 H5 H6]. simpl in *. pose_counts ts.
  split; cbn [mutex pcs]; rewrite ?count_wake_RWait, ?count_wake by done; counts Hi; use_inv.
Qed.

Lemma inv_step s s' : step s s' → inv s → inv s'.
Proof.
  intros Hs. destruct Hs; intros Hi.
  - by apply inv_RLock_loop with Idle; [|left|].
  - by apply inv_RLock_loop with RWoken; [|right|].
  - by eapply inv_RUnlock.
  - by apply inv_Lock.
  - by apply inv_WWoken.
  - by eapply inv_Unlock.
  - by apply inv_signal.
  - by apply inv_signal_nobody.
  - by apply inv_broadcast.
Qed.

Lemma inv_reachable n s : reachable n s → inv s.
Proof.
  intros Hr. unfold reachable in Hr. pose proof (inv_initial n) as Hi. revert Hi.
  induction Hr as [|s1 s2 s3 Hs _ IH]; [done|]. intros Hi. apply IH. by eapply inv_step.
Qed.

(** Who writes is alone. *)
Lemma exclusive s i j :
  inv s → pcs s !! i = Some Writing → pcs s !! j = Some Writing ∨ pcs s !! j = Some Reading → i = j.
Proof.
  intros [H1 H2 H3 H4 H5 H6] Hi Hj. assert (writerActive (mutex s) = true) as Hw.
  { pose proof (count_at _ _ _ Hi). destruct (writerActive (mutex s)); [done|]. simpl in H2. lia. }
  destruct Hj as [Hj|Hj]; [|pose proof (count_at _ _ _ Hj); specialize (H3 Hw); lia].
  destruct (decide (i = j)) as [|Hne]; [done|]. exfalso.
  pose proof (count_insert Writing (pcs s) i Writing Idle Hi) as E. simpl in E.
  assert (0 < count Writing (<[i:=Idle]> (pcs s))) by (apply (count_at _ _ j); by rewrite list_lookup_insert_ne).
  rewrite Hw in H2. simpl in *. lia.
Qed.

(** ** Properties *)

(** C8: mutual exclusion.  In every reachable state of any number of
    goroutines, a goroutine that writes is the only one that writes and nobody
    reads, and a goroutine that unlocks what it holds does not run into one of
    the panics. *)
Theorem StarvingMutex_mutual_exclusion n s :
  reachable n s →
  (∀ i j, pcs s !! i = Some Writing → pcs s !! j = Some Writing → i = j) ∧
  (∀ i j, pcs s !! i = Some Writing → pcs s !! j = Some Reading → False) ∧
  (∀ i, pcs s !! i = Some Reading → returns (RUnlock (mutex s))) ∧
  (∀ i, pcs s !! i = Some Writing → returns (Unlock (mutex s))).
Proof.
  intros [H1 H2 H3 H4 H5 H6]%inv_reachable. pose proof (count_nonneg Reading (pcs s)).
  assert (∀ i, pcs s !! i = Some Writing → writerActive (mutex s) = true) as Hw.
  { intros i Hi%count_at. destruct (writerActive (mutex s)); [done|]. simpl in H2. lia. }
  assert (∀ i, pcs s !! i = Some Reading → readersActive (mutex s) ≠ 0) as Hrd.
  { intros i Hi%count_at. lia. }
  split_and!.
  - intros i j Hi Hj. by apply (exclusive s); [|done|left].
  - intros i j Hi Hj. apply (Hrd j Hj), H3, (Hw i Hi).
  - intros i Hi. unfold RUnlock. rewrite (proj2 (Z.eqb_neq _ 0)) by (by eapply Hrd).
    destruct (writerActive (mutex s)) eqn:E; [by destruct (Hrd i Hi); apply H3|].
    destruct (_ && _); by eexists.
  - intros i Hi. unfold Unlock. rewrite (H3 (Hw i Hi)). simpl. destruct (_ =? 0); by eexists.
Qed.

(** One writer writes and another one waits. *)
Definition contended : state :=
  mkState {| readersActive := 0; writerActive := true; pendingWriters := 1 |} [Writing; WWait].

Lemma contended_reachable : reachable 2 contended.
Proof.
  eapply rtc_l; [apply (step_lock _ _ 0); reflexivity|]. simpl.
  eapply rtc_l; [apply (step_lock _ _ 1); reflexivity|]. apply rtc_refl.
Qed.

(** The writer has unlocked and is about to signal. *)
Definition released : state :=
  mkState {| readersActive := 0; writerActive := false; pendingWriters := 1 |} [SignalWriter; WWait].

Lemma released_reachable : reachable 2 released.
Proof.
  eapply rtc_r; [exact contended_reachable|].
  by apply (step_unlock (mutex contended) (pcs contended) 0 (mutex released) SignalWriter).
Qed.

Lemma StarvingMutex_mutual_exclusion_witness : returns (Unlock (mutex contended)).
Proof.
  apply (StarvingMutex_mutual_exclusion 2 contended contended_reachable) with 0%nat. reflexivity.
Defined.

(** A step in which nobody calls anything: idle goroutines stay idle. *)
Definition proceeds (s s' : state) : Prop :=
  step s s' ∧ ∀ i, pcs s !! i = Some Idle → pcs s' !! i = Some Idle.

(** The lock is held by somebody. *)
Definition held (s : state) : Prop := Reading ∈ pcs s ∨ Writing ∈ pcs s.

(** Somebody waits for the lock. *)
Definition awaited (s : state) : Prop := RWait ∈ pcs s ∨ WWait ∈ pcs s.

Lemma elem_move p (ts : list pc) i q r :
  ts !! i = Some q → q ≠ p → r ≠ p → p ∈ <[i:=r]> ts ↔ p ∈ ts.
Proof.
  intros Hi Hq Hr. rewrite <-!count_pos, (count_insert _ _ _ _ _ Hi).
  rewrite !bool_decide_eq_false_2 by done. unfold one. lia.
Qed.

Lemma free_mutex s : inv s → ¬ held s → writerActive (mutex s) = false ∧ canWrite (mutex s) = true.
Proof.
  intros [H1 H2 H3 H4 H5 H6] Hh. unfold held in Hh.
  rewrite (count_zero Reading (pcs s)) in H1 by tauto. rewrite (count_zero Writing (pcs s)) in H2 by tauto.
  assert (writerActive (mutex s) = false) as Hw by (destruct (writerActive (mutex s)); [simpl in H2; lia|done]).
  split; [done|]. unfold canWrite. by rewrite Hw, H1.
Qed.

(** A wake-up is on its way. *)
Lemma wake_up_pending s :
  inv s → ¬ held s →
  (WWait ∈ pcs s → WWoken ∈ pcs s ∨ SignalWriter ∈ pcs s) ∧
  (RWait ∈ pcs s → WWoken ∈ pcs s ∨ SignalWriter ∈ pcs s ∨ BroadcastReaders ∈ pcs s).
Proof.
  intros Hinv Hh. destruct (free_mutex s Hinv Hh) as [Hw Hc]. destruct Hinv as [H1 H2 H3 H4 H5 H6].
  rewrite <-!count_pos in *. pose_counts (pcs s). split; intros Hwait.
  - specialize (H5 Hc Hwait). lia.
  - specialize (H6 Hw Hwait). destruct (decide (0 < count WWait (pcs s))) as [HW|]; [specialize (H5 Hc HW)|]; lia.
Qed.

(** A woken writer takes the free lock, and so does a woken reader. *)
Lemma woken_writer_takes s i :
  inv s → ¬ held s → pcs s !! i = Some WWoken → ∃ s', proceeds s s' ∧ held s'.
Proof.
  intros Hinv Hh Hi. destruct (free_mutex s Hinv Hh) as [_ Hc]. destruct s as [f ts]. cbn in *.
  eexists. split; [split; [by apply step_wwoken|]|].
  - intros j Hj. cbn in *. rewrite list_lookup_insert_ne; [done|congruence].
  - right. cbn. unfold Lock_loop. rewrite Hc. cbn.
    eapply (list_elem_of_lookup_2 _ i), list_lookup_insert_eq. by eapply lookup_lt_Some.
Qed.

Lemma woken_reader_takes s i :
  inv s → ¬ held s → pcs s !! i = Some RWoken → ∃ s', proceeds s s' ∧ held s'.
Proof.
  intros Hinv Hh Hi. destruct (free_mutex s Hinv Hh) as [Hw _]. destruct s as [f ts]. cbn in *.
  eexists. split; [split; [by apply step_rwoken|]|].
  - intros j Hj. cbn in *. rewrite list_lookup_insert_ne; [done|congruence].
  - left. cbn. unfold RLock_loop. rewrite Hw. cbn.
    eapply (list_elem_of_lookup_2 _ i), list_lookup_insert_eq. by eapply lookup_lt_Some.
Qed.

(** A signal reaches a waiting writer. *)
Lemma signal_wakes s i j :
  pcs s !! i = Some SignalWriter → pcs s !! j = Some WWait → ¬ held s →
  ∃ s', proceeds s s' ∧ ¬ held s' ∧ pcs s' !! j = Some WWoken.
Proof.
  intros Hi Hj Hh. destruct s as [f ts]. cbn in *.
  assert (j < length ts)%nat as Hlt by (by eapply lookup_lt_Some).
  eexists. split_and!; [split; [by apply (step_signal f ts i j)|]| |].
  - intros k Hk. cbn in *. rewrite list_lookup_insert_ne by congruence.
    destruct (decide (i = k)) as [->|]; [congruence|]. by rewrite list_lookup_insert_ne.
  - unfold held in *. cbn in *.
    assert (<[i:=Idle]> ts !! j = Some WWait) as Hj' by (rewrite list_lookup_insert_ne by congruence; done).
    by rewrite !(elem_move _ _ j _ _ Hj'), !(elem_move _ _ i _ _ Hi).
  - cbn. apply list_lookup_insert_eq. by rewrite length_insert.
Qed.

(** A broadcast reaches a waiting reader. *)
Lemma broadcast_wakes s i j :
  pcs s !! i = Some BroadcastReaders → pcs s !! j = Some RWait → ¬ held s →
  ∃ s', proceeds s s' ∧ ¬ held s' ∧ pcs s' !! j = Some RWoken.
Proof.
  intros Hi Hj Hh. destruct s as [f ts]. cbn in *.
  eexists. split_and!; [split; [by apply (step_broadcast f ts i)|]| |].
  - intros k Hk. cbn in *. destruct (decide (i = k)) as [->|]; [congruence|].
    by rewrite list_lookup_fmap, list_lookup_insert_ne, Hk.
  - unfold held in *. cbn in *. rewrite <-!count_pos, !count_wake, !count_pos by done.
    by rewrite !(elem_move _ _ i _ _ Hi).
  - cbn. rewrite list_lookup_fmap, list_lookup_insert_ne by congruence. by rewrite Hj.
Qed.

(** The lock is taken, by induction on the signals under way. *)
Lemma lock_is_taken s :
  inv s → ¬ held s → awaited s → ∃ s', rtc proceeds s s' ∧ held s'.
Proof.
  remember (Z.to_nat (count SignalWriter (pcs s))) as m eqn:Em. revert s Em.
  induction m as [m IH] using lt_wf_ind. intros s Em Hinv Hh Hwait.
  destruct (wake_up_pending s Hinv Hh) as [HW HR].
  destruct (decide (WWoken ∈ pcs s)) as [[i Hi]%list_elem_of_lookup|HnW].
  { destruct (woken_writer_takes s i Hinv Hh Hi) as (s' & ? & ?). exists s'. split; [by apply rtc_once|done]. }
  destruct (decide (SignalWriter ∈ pcs s)) as [[i Hi]%list_elem_of_lookup|HnS].
  - destruct (decide (WWait ∈ pcs s)) as [[j Hj]%list_elem_of_lookup|HnWW].
    + destruct (signal_wakes s i j Hi Hj Hh) as (s1 & Hs1 & Hh1 & Hj1).
      destruct (woken_writer_takes s1 j) as (s2 & Hs2 & Hh2); [by eapply inv_step; [apply Hs1|]|done..|].
      exists s2. split; [by eapply rtc_l, rtc_once|done].
    + destruct Hwait as [Hwait|?]; [|done]. destruct s as [f ts]. cbn in *.
      assert (proceeds (mkState f ts) (mkState f (<[i:=Idle]> ts))) as Hs1.
      { split; [by apply step_signal_nobody|]. intros k Hk. cbn in *.
        destruct (decide (i = k)) as [->|]; [congruence|]. by rewrite list_lookup_insert_ne. }
      assert (inv (mkState f (<[i:=Idle]> ts))) as Hinv1 by (by eapply inv_step; [apply Hs1|]).
      edestruct (λ Hlt, IH _ Hlt (mkState f (<[i:=Idle]> ts)) eq_refl Hinv1) as (s' & Hs' & Hh'); cbn [pcs].
      * subst m. pose proof (count_nonneg SignalWriter (<[i:=Idle]> ts)).
        rewrite (count_insert _ _ _ _ _ Hi), bool_decide_eq_true_2, bool_decide_eq_false_2 in * by done.
        unfold one in *. lia.
      * unfold held in *. cbn in *. by rewrite !(elem_move _ _ i _ _ Hi).
      * left. cbn. by rewrite (elem_move _ _ i _ _ Hi).
      * exists s'. split; [by eapply rtc_l|done].
  - assert (RWait ∈ pcs s) as [j Hj]%list_elem_of_lookup by (destruct Hwait; [done|tauto]).
    assert (BroadcastReaders ∈ pcs s) as [i Hi]%list_elem_of_lookup.
    { destruct HR as [?|[?|?]]; [by eapply list_elem_of_lookup_2|done..]. }
    destruct (broadcast_wakes s i j Hi Hj Hh) as (s1 & Hs1 & Hh1 & Hj1).
    destruct (woken_reader_takes s1 j) as (s2 & Hs2 & Hh2); [by eapply inv_step; [apply Hs1|]|done..|].
    exists s2. split; [by eapply rtc_l, rtc_once|done].
Qed.

(** C9: no wake-up is lost.  In every reachable state in which nobody holds the
    lock and somebody waits for it, a waiting writer finds a woken writer or a
    signal on its way, a waiting reader finds these or a broadcast on its way,
    and the goroutines that are under way can bring the lock into somebody's
    hands without any new call: the waiting ones are never stuck. *)
Theorem StarvingMutex_no_lost_wakeup n s :
  reachable n s → ¬ held s → awaited s →
  (WWait ∈ pcs s → WWoken ∈ pcs s ∨ SignalWriter ∈ pcs s) ∧
  (RWait ∈ pcs s → WWoken ∈ pcs s ∨ SignalWriter ∈ pcs s ∨ BroadcastReaders ∈ pcs s) ∧
  ∃ s', rtc proceeds s s' ∧ held s'.
Proof.
  intros Hr Hh Hwait. pose proof (inv_reachable n s Hr) as Hinv.
  destruct (wake_up_pending s Hinv Hh). split_and!; [done..|]. by apply lock_is_taken.
Qed.

Lemma StarvingMutex_no_lost_wakeup_witness : ∃ s', rtc proceeds released s' ∧ held s'.
Proof.
  apply (StarvingMutex_no_lost_wakeup 2 released released_reachable).
  - by apply (bool_decide_unpack _).
  - by apply (bool_decide_unpack _).
Defined.

(** Waiting writers are not always served before any reader: after [Unlock] a
    reader can take the lock before the writer it will signal wakes up. *)
Lemma reader_overtakes_waiting_writer :
  ∃ s s', reachable 3 s ∧ pcs s = [SignalWriter; WWait; Idle] ∧ step s s' ∧
    pcs s' = [SignalWriter; WWait; Reading].
Proof.
  exists (mkState {| readersActive := 0; writerActive := false; pendingWriters := 1 |}
            [SignalWriter; WWait; Idle]). eexists. split_and!.
  - eapply rtc_l; [apply (step_lock _ _ 0); reflexivity|]. simpl.
    eapply rtc_l; [apply (step_lock _ _ 1); reflexivity|]. simpl.
    eapply rtc_l; [apply (step_unlock _ _ 0); reflexivity|]. apply rtc_refl.
  - done.
  - apply (step_rlock _ _ 2). reflexivity.
  - reflexivity.
Qed.

(** Unlocking a mutex that is not locked is not detected. *)
Lemma Unlock_unlocked_not_detected : Unlock NewStarvingMutex = Ret (NewStarvingMutex, BroadcastReaders).
Proof. reflexivity. Qed.
