(* ===== verification/DAGMutex.v ===== *)
(** * runtime/syncutils: the DAGMutex

    [src/runtime/syncutils/dagmutex.go], on top of the mutexes of
    [StarvingMutex.v].

    - A [*StarvingMutex] is a pointer into [heap], where each mutex has the program
      counters that the goroutines have in it.
    - [registerMutexes] and [unregisterMutexes] hold the mutex of the struct and are
      one step each; taking and releasing the mutexes they return are steps of those
      mutexes.
    - [held] are the entities that a goroutine has registered and not yet given
      back.  A goroutine locks only entities that it does not hold, and unlocks what
      it holds, for reading or for writing as it locked it.

    The shrinking maps are maps (ShrinkingMap.v). *)

From stdpp Require Import relations.
From S2P Require Import Prelude StarvingMutex.

Section dagmutex.
Context {T : Type} `{Countable T}.

(** Where a goroutine stands in a call. *)
Inductive dag_pc : Type :=
  | DIdle
  | DRLock (todo : list nat)
  | DLock (m : nat)
  | DRUnlock (todo : list nat)
  | DUnlock (m : nat).

Record goroutine : Type := mkGoroutine { at_ : dag_pc; held : gmap T nat }.

Record DAGMutex : Type := mkDAG {
  consumerCounter : gmap T Z;
  mutexes : gmap T nat;
  heap : list state;
  goroutines : list goroutine;
}.

Definition NewDAGMutex (n : nat) : DAGMutex := mkDAG ∅ ∅ [] (replicate n (mkGoroutine DIdle ∅)).

Definition counter (d : DAGMutex) (id : T) : Z := default 0 (consumerCounter d !! id).

(** [new] is the state of a new mutex, in which no goroutine is. *)
Definition registerMutex (d : DAGMutex) (id : T) : DAGMutex * nat :=
  let new := initial (length (goroutines d)) in
  let '(ms, h, m) :=
    match mutexes d !! id with
    | Some m => (mutexes d, heap d, m)
    | None => (<[id := length (heap d)]> (mutexes d), heap d ++ [new], length (heap d))
    end in
  (mkDAG (<[id := counter d id + 1]> (consumerCounter d)) ms h (goroutines d), m).

Fixpoint registerMutexes (d : DAGMutex) (ids : list T) : DAGMutex * list nat :=
  match ids with
  | [] => (d, [])
  | id :: ids =>
      let '(d, m) := registerMutex d id in
      let '(d, ms) := registerMutexes d ids in
      (d, m :: ms)
  end.

Definition unregisterMutex (d : DAGMutex) (id : T) : outcome (DAGMutex * option nat) :=
  if counter d id =? 1 then
    Ret (mkDAG (delete id (consumerCounter d)) (delete id (mutexes d)) (heap d) (goroutines d), None)
  else
    match mutexes d !! id with
    | None => Panic "called Unlock or RUnlock too often for entity with %v"
    | Some m =>
        Ret (mkDAG (<[id := counter d id - 1]> (consumerCounter d)) (mutexes d) (heap d) (goroutines d), Some m)
    end.

Fixpoint unregisterMutexes (d : DAGMutex) (ids : list T) : outcome (DAGMutex * list nat) :=
  match ids with
  | [] => Ret (d, [])
  | id :: ids =>
      '(d, m) ← unregisterMutex d id;
      '(d, ms) ← unregisterMutexes d ids;
      Ret (d, option_list m ++ ms)
  end.

Definition set_goroutine (d : DAGMutex) (i : nat) (g : goroutine) : DAGMutex :=
  mkDAG (consumerCounter d) (mutexes d) (heap d) (<[i:=g]> (goroutines d)).
Definition set_mutex (d : DAGMutex) (m : nat) (s : state) : DAGMutex :=
  mkDAG (consumerCounter d) (mutexes d) (<[m:=s]> (heap d)) (goroutines d).

(** What goes on in a mutex without a call: wake-ups and signals. *)
Inductive internal : state → state → Prop :=
  | in_rwoken f ts i :
      ts !! i = Some RWoken → internal (mkState f ts) (mkState (RLock_loop f).1 (<[i:=(RLock_loop f).2]> ts))
  | in_wwoken f ts i :
      ts !! i = Some WWoken → internal (mkState f ts) (mkState (Lock_loop f).1 (<[i:=(Lock_loop f).2]> ts))
  | in_signal f ts i j :
      ts !! i = Some SignalWriter → ts !! j = Some WWait →
      internal (mkState f ts) (mkState f (<[j:=WWoken]> (<[i:=Idle]> ts)))
  | in_signal_nobody f ts i :
      ts !! i = Some SignalWriter → WWait ∉ ts → internal (mkState f ts) (mkState f (<[i:=Idle]> ts))
  | in_broadcast f ts i :
      ts !! i = Some BroadcastReaders → internal (mkState f ts) (mkState f (wake_reader <$> <[i:=Idle]> ts)).

(** Where goroutine [i] stands in the mutex [m]. *)
Definition pc_in (d : DAGMutex) (m i : nat) : option pc := heap d !! m ≫= λ s, pcs s !! i.

Definition holding (h : gmap T nat) (ids : list T) (ms : list nat) : gmap T nat :=
  foldl (λ h x, <[x.1 := x.2]> h) h (zip ids ms).

Definition releasing (h : gmap T nat) (ids : list T) : gmap T nat := foldl (λ h id, delete id h) h ids.

Inductive dag_step : DAGMutex → DAGMutex → Prop :=
  | mutex_step d m s s' : heap d !! m = Some s → internal s s' → dag_step d (set_mutex d m s')
  (* [RLock] *)
  | rlock_register d i g ids d' ms :
      goroutines d !! i = Some g → at_ g = DIdle → NoDup ids → (∀ id, id ∈ ids → held g !! id = None) →
      registerMutexes d ids = (d', ms) →
      dag_step d (set_goroutine d' i (mkGoroutine (DRLock ms) (holding (held g) ids ms)))
  | rlock_enter d i g m todo f ts :
      goroutines d !! i = Some g → at_ g = DRLock (m :: todo) → heap d !! m = Some (mkState f ts) → ts !! i = Some Idle →
      dag_step d (set_mutex d m (mkState (RLock f).1 (<[i:=(RLock f).2]> ts)))
  | rlock_next d i g m todo :
      goroutines d !! i = Some g → at_ g = DRLock (m :: todo) → pc_in d m i = Some Reading →
      dag_step d (set_goroutine d i (mkGoroutine (DRLock todo) (held g)))
  | rlock_return d i g :
      goroutines d !! i = Some g → at_ g = DRLock [] → dag_step d (set_goroutine d i (mkGoroutine DIdle (held g)))
  (* [Lock] *)
  | lock_register d i g id d' m :
      goroutines d !! i = Some g → at_ g = DIdle → held g !! id = None → registerMutex d id = (d', m) →
      dag_step d (set_goroutine d' i (mkGoroutine (DLock m) (<[id := m]> (held g))))
  | lock_enter d i g m f ts :
      goroutines d !! i = Some g → at_ g = DLock m → heap d !! m = Some (mkState f ts) → ts !! i = Some Idle →
      dag_step d (set_mutex d m (mkState (Lock f).1 (<[i:=(Lock f).2]> ts)))
  | lock_return d i g m :
      goroutines d !! i = Some g → at_ g = DLock m → pc_in d m i = Some Writing →
      dag_step d (set_goroutine d i (mkGoroutine DIdle (held g)))
  (* [RUnlock] *)
  | runlock_unregister d i g ids d' ms :
      goroutines d !! i = Some g → at_ g = DIdle → NoDup ids →
      (∀ id, id ∈ ids → ∃ m, held g !! id = Some m ∧ pc_in d m i = Some Reading) →
      unregisterMutexes d ids = Ret (d', ms) →
      dag_step d (set_goroutine d' i (mkGoroutine (DRUnlock ms) (releasing (held g) ids)))
  | runlock_leave d i g m todo f ts f' p :
      goroutines d !! i = Some g → at_ g = DRUnlock (m :: todo) → heap d !! m = Some (mkState f ts) →
      ts !! i = Some Reading → RUnlock f = Ret (f', p) → dag_step d (set_mutex d m (mkState f' (<[i:=p]> ts)))
  | runlock_next d i g m todo :
      goroutines d !! i = Some g → at_ g = DRUnlock (m :: todo) → pc_in d m i = Some Idle →
      dag_step d (set_goroutine d i (mkGoroutine (DRUnlock todo) (held g)))
  | runlock_return d i g :
      goroutines d !! i = Some g → at_ g = DRUnlock [] → dag_step d (set_goroutine d i (mkGoroutine DIdle (held g)))
  (* [Unlock] *)
  | unlock_unregister d i g id m0 d' m :
      goroutines d !! i = Some g → at_ g = DIdle → held g !! id = Some m0 → pc_in d m0 i = Some Writing →
      unregisterMutex d id = Ret (d', m) →
      dag_step d (set_goroutine d' i
        (mkGoroutine (match m with Some m => DUnlock m | None => DIdle end) (delete id (held g))))
  | unlock_leave d i g m f ts f' p :
      goroutines d !! i = Some g → at_ g = DUnlock m → heap d !! m = Some (mkState f ts) →
      ts !! i = Some Writing → Unlock f = Ret (f', p) → dag_step d (set_mutex d m (mkState f' (<[i:=p]> ts)))
  | unlock_return d i g m :
      goroutines d !! i = Some g → at_ g = DUnlock m → pc_in d m i = Some Idle →
      dag_step d (set_goroutine d i (mkGoroutine DIdle (held g))).

Definition dag_reachable (n : nat) (d : DAGMutex) : Prop := rtc dag_step (NewDAGMutex n) d.

(** ** The invariant *)

Definition entering (g : goroutine) : list nat :=
  match at_ g with DRLock l => l | DLock m => [m] | _ => [] end.
Definition leaving (g : goroutine) : list nat :=
  match at_ g with DRUnlock l => l | DUnlock m => [m] | _ => [] end.

Definition is_reader (p : pc) : Prop := p = Idle ∨ p = RWait ∨ p = RWoken ∨ p = Reading.
Definition is_writer (p : pc) : Prop := p = Idle ∨ p = WWait ∨ p = WWoken ∨ p = Writing.

(** How far a call has come. *)
Definition at_ok (d : DAGMutex) (i : nat) (a : dag_pc) : Prop :=
  match a with
  | DRLock (m :: todo) =>
      (∃ p, pc_in d m i = Some p ∧ is_reader p) ∧ ∀ m', m' ∈ todo → pc_in d m' i = Some Idle
  | DLock m => ∃ p, pc_in d m i = Some p ∧ is_writer p
  | _ => True
  end.

Record goroutine_ok (d : DAGMutex) (i : nat) (g : goroutine) : Prop := {
  go_held id m : held g !! id = Some m → mutexes d !! id = Some m;
  (* a goroutine is in no mutex that it does not hold *)
  go_idle id m : mutexes d !! id = Some m → held g !! id = None → m ∉ leaving g → pc_in d m i = Some Idle;
  (* and has locked those it holds *)
  go_owned id m : held g !! id = Some m → m ∉ entering g → pc_in d m i = Some Reading ∨ pc_in d m i = Some Writing;
  go_enter m : m ∈ entering g → ∃ id, held g !! id = Some m;
  go_nodup : NoDup (entering g);
  go_at : at_ok d i (at_ g);
  go_leave id m : m ∈ leaving g → held g !! id ≠ Some m;
}.

Definition holds (id : T) (g : goroutine) : Z := if held g !! id then 1 else 0.

Record dag_inv (d : DAGMutex) : Prop := {
  di_heap m s : heap d !! m = Some s → inv s ∧ length (pcs s) = length (goroutines d);
  di_count id : counter d id = zsum (holds id) (goroutines d);
  di_mutex id m : mutexes d !! id = Some m → (m < length (heap d))%nat ∧ 1 ≤ counter d id;
  di_inj id id' m : mutexes d !! id = Some m → mutexes d !! id' = Some m → id = id';
  di_goroutine i g : goroutines d !! i = Some g → goroutine_ok d i g;
}.

(** What others may do to the place of a goroutine in a mutex. *)
Definition evolves (p p' : pc) : Prop :=
  p' = p ∨ (p = RWait ∨ p = RWoken) ∧ is_reader p' ∨ (p = WWait ∨ p = WWoken) ∧ is_writer p' ∨
  p = SignalWriter ∨ p = BroadcastReaders.

Lemma internal_step s s' : internal s s' → step s s'.
Proof. destruct 1; by constructor. Qed.

Lemma internal_evolves s s' i p :
  internal s s' → pcs s !! i = Some p → ∃ p', pcs s' !! i = Some p' ∧ evolves p p'.
Proof.
  unfold evolves, is_reader, is_writer. intros Hs Hi. destruct Hs as [f ts j Hj|f ts j Hj|f ts j k Hj Hk|f ts j Hj _|f ts j Hj]; cbn in *.
  - destruct (decide (i = j)) as [->|]; [|rewrite list_lookup_insert_ne by done; eauto].
    rewrite list_lookup_insert_eq by (by eapply lookup_lt_Some). simplify_eq. eexists. split; [done|]. right. left.
    split; [by right|]. unfold RLock_loop. destruct (writerActive f); cbn; auto.
  - destruct (decide (i = j)) as [->|]; [|rewrite list_lookup_insert_ne by done; eauto].
    rewrite list_lookup_insert_eq by (by eapply lookup_lt_Some). simplify_eq. eexists. split; [done|]. right. right. left.
    split; [by right|]. unfold Lock_loop. destruct (canWrite f); cbn; auto.
  - destruct (decide (i = k)) as [->|].
    { rewrite list_lookup_insert_eq by (rewrite length_insert; by eapply lookup_lt_Some). simplify_eq. eexists. split; [done|].
      right. right. left. auto. }
    rewrite list_lookup_insert_ne by done. destruct (decide (i = j)) as [->|]; [|rewrite list_lookup_insert_ne by done; eauto].
    rewrite list_lookup_insert_eq by (by eapply lookup_lt_Some). simplify_eq. eauto 8.
  - destruct (decide (i = j)) as [->|]; [|rewrite list_lookup_insert_ne by done; eauto].
    rewrite list_lookup_insert_eq by (by eapply lookup_lt_Some). simplify_eq. eauto 8.
  - rewrite list_lookup_fmap. destruct (decide (i = j)) as [->|].
    + rewrite list_lookup_insert_eq by (by eapply lookup_lt_Some). simplify_eq. eauto 9.
    + rewrite list_lookup_insert_ne, Hi by done. cbn. eexists. split; [done|]. destruct p; cbn; auto 8.
Qed.

Lemma is_reader_evolves p p' : is_reader p → evolves p p' → is_reader p'.
Proof. unfold is_reader, evolves. intros [->|[->|[->| ->]]] [->|[[? ?]|[[? ?]|[?|?]]]]; auto; naive_solver. Qed.

Lemma is_writer_evolves p p' : is_writer p → evolves p p' → is_writer p'.
Proof. unfold is_writer, evolves. intros [->|[->|[->| ->]]] [->|[[? ?]|[[? ?]|[?|?]]]]; auto; naive_solver. Qed.

Lemma rests_evolves p p' : p = Idle ∨ p = Reading ∨ p = Writing → evolves p p' → p' = p.
Proof. unfold evolves, is_reader, is_writer. naive_solver. Qed.

(** The other goroutines. *)
Lemma goroutine_ok_others d d' i g :
  goroutine_ok d i g →
  (∀ id m, held g !! id = Some m → mutexes d' !! id = Some m) →
  (∀ id m, mutexes d' !! id = Some m → mutexes d !! id = Some m ∨ pc_in d' m i = Some Idle) →
  (∀ m p, pc_in d m i = Some p → ∃ p', pc_in d' m i = Some p' ∧ evolves p p') →
  goroutine_ok d' i g.
Proof.
  intros [Hheld Hidle Howned Henter Hnd Hat Hleave] H1 H2 H3.
  assert (∀ m p, pc_in d m i = Some p → p = Idle ∨ p = Reading ∨ p = Writing → pc_in d' m i = Some p) as H4.
  { intros m p Hp Hr. destruct (H3 m p Hp) as (p' & -> & He). by rewrite (rests_evolves _ _ Hr He). }
  split; try done.
  - intros id m Hm Hn Hl. destruct (H2 id m Hm) as [Hm'|]; [|done]. apply H4; [by eapply Hidle|auto].
  - intros id m Hm Hn. destruct (Howned id m Hm Hn); [left|right]; apply H4; auto.
  - unfold at_ok in *. destruct (at_ g) as [|[|m todo]|m| |]; try done.
    + destruct Hat as [(p & Hp & Hr) Hrest]. destruct (H3 m p Hp) as (p' & Hp' & He).
      split; [exists p'; eauto using is_reader_evolves|]. intros m' Hm'. apply H4; auto.
    + destruct Hat as (p & Hp & Hr). destruct (H3 m p Hp) as (p' & Hp' & He). exists p'. eauto using is_writer_evolves.
Qed.

(** ** Steps of a mutex *)

Lemma pc_in_set_mutex d m s m' i : (m < length (heap d))%nat →
  pc_in (set_mutex d m s) m' i = if decide (m' = m) then pcs s !! i else pc_in d m' i.
Proof.
  intros Hm. unfold pc_in. cbn. destruct (decide (m' = m)) as [->|]; [by rewrite list_lookup_insert_eq|by rewrite list_lookup_insert_ne].
Qed.

Lemma set_mutex_inv d m s s' :
  dag_inv d → heap d !! m = Some s → inv s' → length (pcs s') = length (pcs s) →
  (∀ i g, goroutines d !! i = Some g → goroutine_ok (set_mutex d m s') i g) → dag_inv (set_mutex d m s').
Proof.
  intros [] Hm Hi Hl Hg. split; cbn; try done.
  - intros m' s2 Hm'. apply list_lookup_insert_Some in Hm' as [(<- & <- & _)|[_ Hm']]; [|by apply (di_heap0 m')].
    split; [done|]. rewrite Hl. by apply (di_heap0 m).
  - intros id m' Hm'. rewrite length_insert. by apply di_mutex0.
Qed.

(** Goroutine [i] moves in the mutex [m] to [p']. *)
Lemma own_move_inv d i g m f ts f' p' :
  dag_inv d → goroutines d !! i = Some g → heap d !! m = Some (mkState f ts) → (i < length ts)%nat →
  inv (mkState f' (<[i:=p']> ts)) →
  goroutine_ok (set_mutex d m (mkState f' (<[i:=p']> ts))) i g →
  dag_inv (set_mutex d m (mkState f' (<[i:=p']> ts))).
Proof.
  intros Hd Hg Hm Hlt Hi Hok. eapply set_mutex_inv; [done|done|done|apply length_insert|].
  intros j gj Hj. destruct (decide (j = i)) as [->|Hne]; [by simplify_eq|].
  apply (goroutine_ok_others d); [by apply (di_goroutine d)|by apply (di_goroutine d Hd j)|by left|].
  intros m' p Hp. exists p. split; [|by left]. rewrite pc_in_set_mutex by (by eapply lookup_lt_Some).
  destruct (decide (m' = m)) as [->|]; [|done]. cbn. rewrite list_lookup_insert_ne by done.
  unfold pc_in in Hp. by rewrite Hm in Hp.
Qed.

(** What a move of its own means for the goroutine. *)
Lemma own_move_ok d i g m f ts f' p' :
  dag_inv d → goroutines d !! i = Some g → heap d !! m = Some (mkState f ts) → (i < length ts)%nat →
  m ∈ entering g ∨ m ∈ leaving g → at_ok (set_mutex d m (mkState f' (<[i:=p']> ts))) i (at_ g) →
  goroutine_ok (set_mutex d m (mkState f' (<[i:=p']> ts))) i g.
Proof.
  intros Hd Hg Hm Hlt Hin Hat. pose proof (di_goroutine d Hd i g Hg) as [Hheld Hidle Howned Henter Hnd _ Hleave].
  assert (∀ m', m' ≠ m → pc_in (set_mutex d m (mkState f' (<[i:=p']> ts))) m' i = pc_in d m' i) as Hother.
  { intros m' Hne. rewrite pc_in_set_mutex by (by eapply lookup_lt_Some). by rewrite decide_False. }
  split; try done; cbn.
  - intros id m' Hm' Hn Hl. rewrite Hother; [by eapply Hidle|]. intros ->. destruct Hin as [Hin|]; [|done].
    apply Henter in Hin as [id' Hid']. pose proof (Hheld id' m Hid') as Hm2. rewrite (di_inj d Hd id id' m Hm' Hm2) in Hn. congruence.
  - intros id m' Hm' Hn. rewrite Hother; [by eapply Howned|]. intros ->. destruct Hin as [|Hin]; [done|]. by apply (Hleave id m Hin).
Qed.

Lemma mutex_step_inv d m s s' : heap d !! m = Some s → internal s s' → dag_inv d → dag_inv (set_mutex d m s').
Proof.
  intros Hm Hs Hd. pose proof (di_heap d Hd m s Hm) as [Hi Hl].
  assert (length (pcs s') = length (pcs s)) as Hlen by (destruct Hs; cbn; by rewrite ?length_fmap, ?length_insert).
  eapply set_mutex_inv; [done|done|by eapply inv_step; [apply internal_step|]|done|].
  intros i g Hg. apply (goroutine_ok_others d); [by apply (di_goroutine d)|by apply (di_goroutine d Hd i)|by left|].
  intros m' p Hp. rewrite pc_in_set_mutex by (by eapply lookup_lt_Some).
  destruct (decide (m' = m)) as [->|]; [|exists p; split; [done|by left]]. unfold pc_in in Hp. rewrite Hm in Hp.
  by eapply internal_evolves.
Qed.

Lemma rlock_enter_inv d i g m todo f ts :
  goroutines d !! i = Some g → at_ g = DRLock (m :: todo) → heap d !! m = Some (mkState f ts) → ts !! i = Some Idle →
  dag_inv d → dag_inv (set_mutex d m (mkState (RLock f).1 (<[i:=(RLock f).2]> ts))).
Proof.
  intros Hg Ha Hm Hi Hd. pose proof (di_goroutine d Hd i g Hg) as [_ _ _ _ Hnd Hat _].
  pose proof (di_heap d Hd m _ Hm) as [Hinv _]. assert (i < length ts)%nat as Hlt by (by eapply lookup_lt_Some).
  eapply own_move_inv; [done..| |].
  - by apply inv_RLock_loop with Idle; [|left|].
  - eapply own_move_ok; [done..|left; unfold entering; rewrite Ha; by left|]. rewrite Ha in *. unfold entering in Hnd. rewrite Ha in Hnd.
    apply NoDup_cons in Hnd as [Hnot _]. destruct Hat as [_ Hrest]. cbn. split.
    + eexists. rewrite pc_in_set_mutex by (by eapply lookup_lt_Some). rewrite decide_True by done. cbn.
      rewrite list_lookup_insert_eq by done. split; [done|]. unfold is_reader, RLock, RLock_loop. destruct (writerActive f); cbn; auto.
    + intros m' Hm'. rewrite pc_in_set_mutex by (by eapply lookup_lt_Some). rewrite decide_False; [by apply Hrest|]. by intros ->.
Qed.

Lemma lock_enter_inv d i g m f ts :
  goroutines d !! i = Some g → at_ g = DLock m → heap d !! m = Some (mkState f ts) → ts !! i = Some Idle →
  dag_inv d → dag_inv (set_mutex d m (mkState (Lock f).1 (<[i:=(Lock f).2]> ts))).
Proof.
  intros Hg Ha Hm Hi Hd. pose proof (di_heap d Hd m _ Hm) as [Hinv _]. assert (i < length ts)%nat as Hlt by (by eapply lookup_lt_Some).
  eapply own_move_inv; [done..|by apply inv_Lock|].
  eapply own_move_ok; [done..|left; unfold entering; rewrite Ha; by left|]. rewrite Ha. eexists.
  rewrite pc_in_set_mutex by (by eapply lookup_lt_Some). rewrite decide_True by done. cbn.
  rewrite list_lookup_insert_eq by done. split; [done|]. unfold is_writer, Lock, Lock_loop. destruct (canWrite _); cbn; auto.
Qed.

Lemma leave_inv d i g m f ts f' p' :
  goroutines d !! i = Some g → m ∈ leaving g → heap d !! m = Some (mkState f ts) → (i < length ts)%nat →
  inv (mkState f' (<[i:=p']> ts)) → dag_inv d → dag_inv (set_mutex d m (mkState f' (<[i:=p']> ts))).
Proof.
  intros Hg Hl Hm Hlt Hi Hd. eapply own_move_inv; [done..|]. eapply own_move_ok; [done..|by right|].
  unfold leaving in Hl. destruct (at_ g); try done; by apply not_elem_of_nil in Hl.
Qed.

(** ** Steps of a goroutine *)

Lemma goroutine_ok_same d d' i g :
  mutexes d' = mutexes d → heap d' = heap d → goroutine_ok d i g → goroutine_ok d' i g.
Proof.
  intros Hm Hh Hg. pose proof Hg as []. apply (goroutine_ok_others d); rewrite ?Hm; auto.
  intros m p Hp. exists p. split; [|by left]. unfold pc_in in *. by rewrite Hh.
Qed.

(** A goroutine gets further in its call, and holds what it held. *)
Lemma relabel_inv d i g g' :
  dag_inv d → goroutines d !! i = Some g → held g' = held g → goroutine_ok d i g' → dag_inv (set_goroutine d i g').
Proof.
  intros Hd Hg Hh Hok. pose proof Hd as []. split; cbn; try done.
  - intros m s Hm. rewrite length_insert. by apply (di_heap0 m).
  - intros id. unfold counter in *. cbn. rewrite (zsum_insert _ _ _ _ _ Hg), <-di_count0. unfold holds. rewrite Hh. lia.
  - intros k gk Hk. apply list_lookup_insert_Some in Hk as [(-> & -> & _)|[_ Hk]].
    + by apply (goroutine_ok_same d).
    + apply (goroutine_ok_same d); [done..|]. by apply di_goroutine0.
Qed.

Definition all_idle (d : DAGMutex) (i : nat) (l : list nat) : Prop := ∀ m, m ∈ l → pc_in d m i = Some Idle.

Lemma all_idle_at d i l : all_idle d i l → at_ok d i (DRLock l).
Proof.
  intros Hl. destruct l as [|m l]; [done|]. split; [exists Idle; split; [apply Hl; by left|by left]|].
  intros m' Hm'. apply Hl. by right.
Qed.

Lemma pc_in_new d n i m : (i < n)%nat → 
  pc_in (mkDAG (consumerCounter d) (mutexes d) (heap d ++ [initial n]) (goroutines d)) m i =
    if decide (m = length (heap d)) then Some Idle else pc_in d m i.
Proof.
  intros Hi. unfold pc_in. cbn. destruct (decide (m = length (heap d))) as [->|Hne].
  - rewrite lookup_app_r, Nat.sub_diag by done. cbn. by apply lookup_replicate.
  - destruct (decide (m < length (heap d))%nat); [by rewrite lookup_app_l|].
    rewrite !(lookup_ge_None_2); [done|lia|]. rewrite length_app. cbn. lia.
Qed.

(** What [registerMutex] does to the mutexes. *)
Lemma registerMutex_facts d id d1 m :
  dag_inv d → registerMutex d id = (d1, m) →
  goroutines d1 = goroutines d ∧ (∀ id', counter d1 id' = counter d id' + if decide (id' = id) then 1 else 0) ∧
  mutexes d1 = <[id := m]> (mutexes d) ∧ (m < length (heap d1))%nat ∧
  (mutexes d !! id = Some m ∨ mutexes d !! id = None ∧ m = length (heap d)) ∧
  (∀ m' s, heap d1 !! m' = Some s → heap d !! m' = Some s ∨ s = initial (length (goroutines d))) ∧
  (length (heap d) ≤ length (heap d1))%nat ∧
  (∀ m' i, (i < length (goroutines d))%nat →
     pc_in d1 m' i = if decide (m' = length (heap d) ∧ mutexes d !! id = None) then Some Idle else pc_in d m' i).
Proof.
  intros Hd Hr. unfold registerMutex in Hr.
  assert (∀ c ms h gs id', counter (mkDAG (<[id := c]> (consumerCounter d)) ms h gs) id' = if decide (id' = id) then c else counter d id') as Hc.
  { intros c ms h gs id'. unfold counter. cbn. destruct (decide (id' = id)) as [->|]; [by rewrite lookup_insert_eq|by rewrite lookup_insert_ne]. }
  destruct (mutexes d !! id) as [m0|] eqn:Em; simplify_eq; cbn [goroutines mutexes heap].
  - split_and!; try done.
    + intros id'. rewrite Hc. destruct (decide (id' = id)) as [->|]; lia.
    + by rewrite insert_id.
    + by apply (di_mutex d Hd) in Em as [? _].
    + by left.
    + by left.
    + intros m' i Hi. rewrite decide_False; [done|]. by intros [_ ?].
  - split_and!; try done.
    + intros id'. rewrite Hc. destruct (decide (id' = id)) as [->|]; lia.
    + rewrite length_app. cbn. lia.
    + by right.
    + intros m' s [Hs|(_ & ?)]%lookup_snoc_Some; auto.
    + rewrite length_app. lia.
    + intros m' i Hi. pose proof (pc_in_new d (length (goroutines d)) i m' Hi) as Hp. unfold pc_in in *. cbn in *. rewrite Hp.
      destruct (decide (m' = length (heap d))) as [->|].
      * by rewrite decide_True.
      * rewrite decide_False; [done|]. by intros [? _].
Qed.

Lemma zsum_holds_nonneg id (gs : list goroutine) : 0 ≤ zsum (holds id) gs.
Proof. induction gs as [|x gs IH]; cbn; [lia|]. unfold holds at 1. destruct (held x !! id); lia. Qed.

Section register.
Context (d : DAGMutex) (i : nat) (g : goroutine) (id : T) (l : list nat) (d1 : DAGMutex) (m : nat).
Hypothesis Hd : dag_inv d.
Hypothesis Hg : goroutines d !! i = Some g.
Hypothesis Ha : at_ g = DRLock l.
Hypothesis Hidle : all_idle d i l.
Hypothesis Hn : held g !! id = None.
Hypothesis Hr : registerMutex d id = (d1, m).

Let d2 : DAGMutex := set_goroutine d1 i (mkGoroutine (DRLock (l ++ [m])) (<[id := m]> (held g))).

Lemma register_keeps m' k p : (k < length (goroutines d))%nat → pc_in d m' k = Some p → pc_in d2 m' k = Some p.
Proof.
  destruct (registerMutex_facts d id d1 m Hd Hr) as (_ & _ & _ & _ & _ & _ & _ & Hpc).
  intros Hk Hp. change (pc_in d2 m' k) with (pc_in d1 m' k). rewrite Hpc by done. destruct (decide _) as [[-> _]|]; [|done].
  unfold pc_in in Hp. by rewrite (lookup_ge_None_2 (heap d)) in Hp.
Qed.

(** A mutex that is new is empty. *)
Lemma register_new k : (k < length (goroutines d))%nat → mutexes d !! id = None → pc_in d2 m k = Some Idle.
Proof.
  destruct (registerMutex_facts d id d1 m Hd Hr) as (_ & _ & _ & _ & Hcase & _ & _ & Hpc). intros Hk Hnone.
  change (pc_in d2 m k) with (pc_in d1 m k). rewrite Hpc by done. destruct Hcase as [Hm|[_ ->]]; [congruence|by rewrite decide_True].
Qed.

Lemma register_idle : all_idle d2 i (l ++ [m]).
Proof.
  destruct (registerMutex_facts d id d1 m Hd Hr) as (_ & _ & _ & _ & Hcase & _).
  assert (i < length (goroutines d))%nat as Hi by (by eapply lookup_lt_Some).
  intros m' [Hm'|E%list_elem_of_singleton]%elem_of_app; [by apply register_keeps; auto|]. subst m'.
  destruct Hcase as [Hm|[Hnone _]]; [|by apply register_new]. apply register_keeps; [done|].
  apply (go_idle _ _ _ (di_goroutine d Hd i g Hg) id); [done..|]. unfold leaving. rewrite Ha. apply not_elem_of_nil.
Qed.

(** Nobody else has this pointer. *)
Lemma register_unique id' : mutexes d !! id' = Some m → id' = id.
Proof.
  destruct (registerMutex_facts d id d1 m Hd Hr) as (_ & _ & _ & _ & Hcase & _). intros Hm'.
  destruct Hcase as [Hm|[_ ->]]; [by eapply (di_inj d Hd)|]. apply (di_mutex d Hd) in Hm' as [? _]. lia.
Qed.

Lemma register_fresh : m ∉ l.
Proof.
  pose proof (di_goroutine d Hd i g Hg) as [Gheld _ _ Genter _ _ _]. intros Hin.
  destruct (Genter m) as [id' Hid']; [unfold entering; by rewrite Ha|]. pose proof (register_unique id' (Gheld id' m Hid')) as ->. congruence.
Qed.

Lemma register_own : goroutine_ok d2 i (mkGoroutine (DRLock (l ++ [m])) (<[id := m]> (held g))).
Proof.
  destruct (registerMutex_facts d id d1 m Hd Hr) as (_ & _ & Hms & _).
  pose proof (di_goroutine d Hd i g Hg) as [Gheld Gidle Gowned Genter Gnd _ _].
  assert (i < length (goroutines d))%nat as Hi by (by eapply lookup_lt_Some).
  split; cbn.
  - intros id' m'. rewrite Hms. destruct (decide (id' = id)) as [->|]; [by rewrite !lookup_insert_eq|].
    rewrite !lookup_insert_ne by done. apply Gheld.
  - intros id' m' Hm' Hn' _. rewrite Hms in Hm'. destruct (decide (id' = id)) as [->|]; [by rewrite lookup_insert_eq in Hn'|].
    rewrite lookup_insert_ne in Hm', Hn' by done. apply register_keeps; [done|]. apply (Gidle id' m'); [done..|].
    unfold leaving. rewrite Ha. apply not_elem_of_nil.
  - intros id' m' Hm' Hnot. apply not_elem_of_app in Hnot as [Hnot Hnm]. destruct (decide (id' = id)) as [->|].
    { rewrite lookup_insert_eq in Hm'. simplify_eq. by destruct Hnm; apply list_elem_of_singleton. }
    rewrite lookup_insert_ne in Hm' by done.
    destruct (Gowned id' m' Hm'); [unfold entering; by rewrite Ha|left|right]; by apply register_keeps.
  - intros m' [Hm'|E%list_elem_of_singleton]%elem_of_app; [|subst m'; exists id; apply lookup_insert_eq].
    destruct (Genter m') as [id' Hid']; [unfold entering; by rewrite Ha|]. exists id'. rewrite lookup_insert_ne; [done|]. intros <-. congruence.
  - unfold entering in *. cbn. rewrite Ha in Gnd. apply NoDup_app. split_and!; [done| |apply NoDup_singleton].
    intros m' Hm' ->%list_elem_of_singleton. by apply register_fresh.
  - apply all_idle_at, register_idle.
  - by intros id' m' ?%not_elem_of_nil.
Qed.

Lemma register_other k gk : goroutines d !! k = Some gk → goroutine_ok d2 k gk.
Proof.
  destruct (registerMutex_facts d id d1 m Hd Hr) as (_ & _ & Hms & _ & Hcase & _).
  intros Hk. assert (k < length (goroutines d))%nat as Hlt by (by eapply lookup_lt_Some).
  apply (goroutine_ok_others d); [by apply (di_goroutine d)| | |].
  - intros id' m' Hm'. cbn. rewrite Hms. apply (go_held _ _ _ (di_goroutine d Hd k gk Hk)) in Hm'.
    destruct (decide (id' = id)) as [->|]; [|by rewrite lookup_insert_ne]. rewrite lookup_insert_eq.
    destruct Hcase as [Hm|[Hm _]]; congruence.
  - intros id' m' Hm'. cbn in Hm'. rewrite Hms in Hm'.
    destruct (decide (id' = id)) as [->|]; [|rewrite lookup_insert_ne in Hm' by done; by left].
    rewrite lookup_insert_eq in Hm'. injection Hm' as <-. destruct Hcase as [Hm|[Hm _]]; [by left|]. right. by apply register_new.
  - intros m' p Hp. exists p. split; [by apply register_keeps|by left].
Qed.

Lemma register_one : dag_inv d2.
Proof.
  destruct (registerMutex_facts d id d1 m Hd Hr) as (Hgs & Hc & Hms & Hlt & Hcase & Hheap & Hlen & _).
  split; cbn; rewrite ?Hgs, ?length_insert.
  - intros m' s Hs. destruct (Hheap m' s Hs) as [Hs'| ->]; [by apply (di_heap d Hd m')|]. split; [apply inv_initial|].
    cbn. by rewrite length_replicate.
  - intros id'. unfold counter in *. cbn. rewrite (Hc id'), (zsum_insert _ _ _ _ _ Hg).
    pose proof (di_count d Hd id') as Hcd. unfold counter in Hcd. rewrite Hcd.
    unfold holds. cbn. destruct (decide (id' = id)) as [->|Hne]; [rewrite lookup_insert_eq, Hn; lia|].
    rewrite lookup_insert_ne by done. lia.
  - intros id' m' Hm'. rewrite Hms in Hm'. unfold counter in *. cbn. rewrite (Hc id').
    destruct (decide (id' = id)) as [->|Hne].
    + rewrite lookup_insert_eq in Hm'. simplify_eq. split; [done|]. pose proof (di_count d Hd id) as Hcd. unfold counter in Hcd.
      rewrite Hcd. pose proof (zsum_holds_nonneg id (goroutines d)). lia.
    + rewrite lookup_insert_ne in Hm' by done. apply (di_mutex d Hd) in Hm' as [? ?]. unfold counter in *. split; lia.
  - intros id1 id2 m'. rewrite Hms. destruct (decide (id1 = id)) as [->|H1], (decide (id2 = id)) as [->|H2]; [done| | |].
    + rewrite lookup_insert_eq, lookup_insert_ne by done. intros [= <-] Hm2. symmetry. by apply register_unique.
    + rewrite lookup_insert_eq, lookup_insert_ne by done. intros Hm2 [= <-]. by apply register_unique.
    + rewrite !lookup_insert_ne by done. apply (di_inj d Hd).
  - intros k gk Hk. apply list_lookup_insert_Some in Hk as [(<- & <- & _)|[Hne Hk]]; [apply register_own|by apply register_other].
Qed.

End register.

Lemma registerMutex_set_goroutine d i g id d1 m :
  registerMutex d id = (d1, m) → registerMutex (set_goroutine d i g) id = (set_goroutine d1 i g, m).
Proof.
  unfold registerMutex. cbn. rewrite length_insert. destruct (mutexes d !! id); intros [= <- <-]; done.
Qed.

Lemma registerMutexes_set_goroutine d i g ids d1 ms :
  registerMutexes d ids = (d1, ms) → registerMutexes (set_goroutine d i g) ids = (set_goroutine d1 i g, ms).
Proof.
  revert d ms. induction ids as [|id ids IH]; intros d ms Hr; cbn [registerMutexes] in *; [by simplify_eq|].
  destruct (registerMutex d id) as [d2 m] eqn:E1. rewrite (registerMutex_set_goroutine _ i g _ _ _ E1).
  destruct (registerMutexes d2 ids) as [d3 ms'] eqn:E2. simplify_eq. by rewrite (IH _ _ E2).
Qed.

Lemma set_goroutine_twice d i g g' : set_goroutine (set_goroutine d i g) i g' = set_goroutine d i g'.
Proof. unfold set_goroutine. cbn. by rewrite list_insert_insert_eq. Qed.

Lemma register_all d i g ids l d1 ms :
  dag_inv d → goroutines d !! i = Some g → at_ g = DRLock l → all_idle d i l → NoDup ids →
  (∀ id, id ∈ ids → held g !! id = None) → registerMutexes d ids = (d1, ms) →
  dag_inv (set_goroutine d1 i (mkGoroutine (DRLock (l ++ ms)) (holding (held g) ids ms))).
Proof.
  revert d g l d1 ms. induction ids as [|id ids IH]; intros d g l d1 ms Hd Hg Ha Hidle Hnd Hn Hr; cbn [registerMutexes] in Hr.
  { simplify_eq. rewrite app_nil_r. eapply relabel_inv; [done|done|done|]. rewrite <-Ha. destruct g. by apply (di_goroutine _ Hd). }
  apply NoDup_cons in Hnd as [Hid Hnd]. destruct (registerMutex d id) as [d2 m] eqn:E1.
  destruct (registerMutexes d2 ids) as [d3 ms'] eqn:E2. simplify_eq.
  assert (held g !! id = None) as Hnid by (apply Hn; by left).
  pose proof (register_one d i g id l d2 m Hd Hg Ha Hidle Hnid E1) as Hd2. cbv zeta in Hd2.
  pose proof (register_idle d i g id l d2 m Hd Hg Ha Hidle Hnid E1) as Hidle2. cbv zeta in Hidle2.
  set (g2 := mkGoroutine (DRLock (l ++ [m])) (<[id := m]> (held g))) in *.
  assert (goroutines (set_goroutine d2 i g2) !! i = Some g2) as Hg2.
  { apply list_lookup_insert_eq. assert (goroutines d2 = goroutines d) as ->; [|by eapply lookup_lt_Some].
    by apply (registerMutex_facts d id d2 m Hd E1). }
  rewrite <-(set_goroutine_twice d1 i g2). replace (l ++ m :: ms') with ((l ++ [m]) ++ ms') by (by rewrite <-app_assoc).
  apply (IH (set_goroutine d2 i g2) g2 (l ++ [m]) (set_goroutine d1 i g2) ms'); try done.
  - intros id' Hid'. cbn. rewrite lookup_insert_ne; [apply Hn; by right|]. by intros ->.
  - by apply registerMutexes_set_goroutine.
Qed.

(** ** Giving back *)

(** The only one that holds an entity. *)
Lemma only_holder id (gs : list goroutine) i j g h m :
  zsum (holds id) gs = 1 → gs !! i = Some g → held g !! id = Some m → gs !! j = Some h → j ≠ i → held h !! id = None.
Proof.
  intros Hz Hi Hm Hj Hne. destruct (held h !! id) as [m'|] eqn:E; [|done]. exfalso.
  pose proof (zsum_insert (holds id) gs i g (mkGoroutine DIdle ∅) Hi) as Hz'.
  assert (<[i:=mkGoroutine DIdle ∅]> gs !! j = Some h) as Hj' by (by rewrite list_lookup_insert_ne).
  pose proof (zsum_insert (holds id) _ j h (mkGoroutine DIdle ∅) Hj') as Hz2.
  pose proof (zsum_holds_nonneg id (<[j:=mkGoroutine DIdle ∅]> (<[i:=mkGoroutine DIdle ∅]> gs))) as Hp.
  assert (holds id g = 1) as E1 by (unfold holds; by rewrite Hm). assert (holds id h = 1) as E2 by (unfold holds; by rewrite E).
  assert (holds id (mkGoroutine DIdle ∅) = 0) as E0 by done. lia.
Qed.

(** What [unregisterMutex] does for an entity that is held. *)
Lemma unregisterMutex_facts d i g id m0 :
  dag_inv d → goroutines d !! i = Some g → held g !! id = Some m0 →
  ∃ d1 r, unregisterMutex d id = Ret (d1, r) ∧ goroutines d1 = goroutines d ∧ heap d1 = heap d ∧
    (∀ id', counter d1 id' = counter d id' - if decide (id' = id) then 1 else 0) ∧
    (r = Some m0 ∧ mutexes d1 = mutexes d ∧ 2 ≤ counter d id ∨
     r = None ∧ mutexes d1 = delete id (mutexes d) ∧ counter d id = 1).
Proof.
  intros Hd Hg Hm. pose proof (go_held _ _ _ (di_goroutine d Hd i g Hg) id m0 Hm) as Hmu.
  pose proof (di_mutex d Hd id m0 Hmu) as [_ Hc]. unfold unregisterMutex. destruct (Z.eqb_spec (counter d id) 1) as [E|E].
  - eexists _, None. split_and!; try done; [|by right]. intros id'. unfold counter in *. cbn.
    destruct (decide (id' = id)) as [->|]; [rewrite lookup_delete_eq; cbn; lia|]. rewrite lookup_delete_ne by done. lia.
  - rewrite Hmu. eexists _, (Some m0). split_and!; try done; [|left; split_and!; [done|done|lia]]. intros id'. unfold counter in *. cbn.
    destruct (decide (id' = id)) as [->|]; [rewrite lookup_insert_eq; cbn; lia|]. rewrite lookup_insert_ne by done. lia.
Qed.

Section unregister.
Context (d : DAGMutex) (i : nat) (g : goroutine) (id : T) (l : list nat) (m0 : nat) (d1 : DAGMutex) (r : option nat).
Hypothesis Hd : dag_inv d.
Hypothesis Hg : goroutines d !! i = Some g.
Hypothesis Ha : at_ g = DRUnlock l.
Hypothesis Hm : held g !! id = Some m0.
Hypothesis Hu : unregisterMutex d id = Ret (d1, r).

Let d2 : DAGMutex := set_goroutine d1 i (mkGoroutine (DRUnlock (l ++ option_list r)) (delete id (held g))).

Lemma unregister_cases :
  goroutines d1 = goroutines d ∧ heap d1 = heap d ∧
  (∀ id', counter d1 id' = counter d id' - if decide (id' = id) then 1 else 0) ∧
  (r = Some m0 ∧ mutexes d1 = mutexes d ∧ 2 ≤ counter d id ∨
   r = None ∧ mutexes d1 = delete id (mutexes d) ∧ counter d id = 1).
Proof.
  destruct (unregisterMutex_facts d i g id m0 Hd Hg Hm) as (d1' & r' & Hu' & Hrest). rewrite Hu in Hu'. by injection Hu' as <- <-.
Qed.

Lemma unregister_pc m k : pc_in d2 m k = pc_in d m k.
Proof. destruct unregister_cases as (_ & Hh & _). unfold pc_in. cbn. by rewrite Hh. Qed.

(** The mutexes that are left. *)
Lemma unregister_left id' m' :
  mutexes d1 !! id' = Some m' → mutexes d !! id' = Some m' ∧ (id' = id → r = Some m0 ∧ m' = m0).
Proof.
  destruct unregister_cases as (_ & _ & _ & Hcase). intros Hm'. destruct Hcase as [(-> & E & _)|(-> & E & _)]; rewrite E in Hm'.
  - split; [done|]. intros ->. split; [done|]. pose proof (go_held _ _ _ (di_goroutine d Hd i g Hg) id m0 Hm). congruence.
  - apply lookup_delete_Some in Hm' as [Hne Hm']. split; [done|]. by intros ->.
Qed.

Lemma unregister_own : goroutine_ok d2 i (mkGoroutine (DRUnlock (l ++ option_list r)) (delete id (held g))).
Proof.
  destruct unregister_cases as (_ & _ & _ & Hcase). pose proof (di_goroutine d Hd i g Hg) as [Gheld Gidle Gowned _ _ _ Gleave].
  split; cbn; try done.
  - intros id' m' Hm'. apply lookup_delete_Some in Hm' as [Hne Hm'].
    destruct Hcase as [(_ & -> & _)|(_ & -> & _)]; [by apply Gheld|rewrite lookup_delete_ne by done; by apply Gheld].
  - intros id' m' [Hm' Hid]%unregister_left Hn Hl. unfold leaving in Hl. cbn in Hl. apply not_elem_of_app in Hl as [Hl Hnr].
    rewrite unregister_pc. destruct (decide (id' = id)) as [->|].
    { destruct (Hid eq_refl) as [-> ->]. by destruct Hnr; apply list_elem_of_singleton. }
    rewrite lookup_delete_ne in Hn by done. apply (Gidle id' m'); [done..|]. unfold leaving. by rewrite Ha.
  - intros id' m' Hm' _. apply lookup_delete_Some in Hm' as [Hne Hm']. rewrite unregister_pc.
    apply (Gowned id' m' Hm'). unfold entering. rewrite Ha. apply not_elem_of_nil.
  - by intros m' ?%not_elem_of_nil.
  - apply NoDup_nil_2.
  - unfold leaving. cbn. intros id' m' [Hm'|Hm']%elem_of_app Hid'; apply lookup_delete_Some in Hid' as [Hne Hid'].
    { apply (Gleave id' m'); [unfold leaving; by rewrite Ha|done]. }
    destruct Hcase as [(-> & _)|(-> & _)]; [|by apply not_elem_of_nil in Hm']. apply list_elem_of_singleton in Hm' as ->.
    apply Hne. eapply (di_inj d Hd); by apply Gheld.
Qed.

Lemma unregister_other k gk : k ≠ i → goroutines d !! k = Some gk → goroutine_ok d2 k gk.
Proof.
  destruct unregister_cases as (_ & _ & _ & Hcase). intros Hne Hk. apply (goroutine_ok_others d); [by apply (di_goroutine d)| | |].
  - intros id' m' Hm'. cbn. pose proof (go_held _ _ _ (di_goroutine d Hd k gk Hk) id' m' Hm') as Hmu.
    destruct Hcase as [(_ & -> & _)|(_ & -> & H1)]; [done|]. rewrite lookup_delete_ne; [done|]. intros <-.
    rewrite (di_count d Hd) in H1. rewrite (only_holder id _ i k g gk m0 H1 Hg Hm Hk Hne) in Hm'. done.
  - intros id' m' [? _]%unregister_left. by left.
  - intros m' p Hp. exists p. rewrite unregister_pc. split; [done|by left].
Qed.

Lemma unregister_one : dag_inv d2.
Proof.
  destruct unregister_cases as (Hgs & Hh & Hc & Hcase). split; cbn; rewrite ?Hgs, ?Hh, ?length_insert.
  - intros m s Hs. by apply (di_heap d Hd m).
  - intros id'. unfold counter in *. cbn. rewrite (Hc id'), (zsum_insert _ _ _ _ _ Hg).
    pose proof (di_count d Hd id') as Hcd. unfold counter in Hcd. rewrite Hcd. unfold holds. cbn.
    destruct (decide (id' = id)) as [->|Hne]; [rewrite lookup_delete_eq, Hm; lia|]. rewrite lookup_delete_ne by done. lia.
  - intros id' m' [Hm' Hid]%unregister_left. apply (di_mutex d Hd) in Hm' as [? Hge]. split; [done|]. unfold counter in *. cbn. rewrite (Hc id').
    destruct (decide (id' = id)) as [->|]; [|lia]. destruct Hcase as [(_ & _ & ?)|(-> & _)]; [lia|]. by destruct (Hid eq_refl).
  - intros id1 id2 m' [H1 _]%unregister_left [H2 _]%unregister_left. by eapply (di_inj d Hd).
  - intros k gk Hk. apply list_lookup_insert_Some in Hk as [(<- & <- & _)|[Hne Hk]]; [apply unregister_own|by apply unregister_other].
Qed.

End unregister.

Lemma unregisterMutex_set_goroutine d i g id d1 r :
  unregisterMutex d id = Ret (d1, r) → unregisterMutex (set_goroutine d i g) id = Ret (set_goroutine d1 i g, r).
Proof.
  unfold unregisterMutex. change (counter (set_goroutine d i g) id) with (counter d id). cbn.
  destruct (_ =? _); [intros [= <- <-]; done|]. destruct (mutexes d !! id); [|done]. intros [= <- <-]. done.
Qed.

Lemma unregisterMutexes_set_goroutine d i g ids d1 ms :
  unregisterMutexes d ids = Ret (d1, ms) → unregisterMutexes (set_goroutine d i g) ids = Ret (set_goroutine d1 i g, ms).
Proof.
  revert d ms. induction ids as [|id ids IH]; intros d ms Hr; cbn [unregisterMutexes] in *; [by simplify_eq|].
  apply outcome_bind_Ret in Hr as ([d2 r] & E1 & Hr). apply outcome_bind_Ret in Hr as ([d3 ms'] & E2 & Hr). simplify_eq.
  rewrite (unregisterMutex_set_goroutine _ i g _ _ _ E1). cbn [mbind outcome_bind]. by rewrite (IH _ _ E2).
Qed.

Lemma unregister_all d i g ids l d1 ms :
  dag_inv d → goroutines d !! i = Some g → at_ g = DRUnlock l → NoDup ids → (∀ id, id ∈ ids → is_Some (held g !! id)) →
  unregisterMutexes d ids = Ret (d1, ms) →
  dag_inv (set_goroutine d1 i (mkGoroutine (DRUnlock (l ++ ms)) (releasing (held g) ids))).
Proof.
  revert d g l d1 ms. induction ids as [|id ids IH]; intros d g l d1 ms Hd Hg Ha Hnd Hin Hr; cbn [unregisterMutexes] in Hr.
  { simplify_eq. rewrite app_nil_r. eapply relabel_inv; [done|done|done|]. rewrite <-Ha. destruct g. by apply (di_goroutine _ Hd). }
  apply NoDup_cons in Hnd as [Hid Hnd]. apply outcome_bind_Ret in Hr as ([d2 r] & E1 & Hr).
  apply outcome_bind_Ret in Hr as ([d3 ms'] & E2 & Hr). simplify_eq. destruct (Hin id) as [m0 Hm0]; [by left|].
  pose proof (unregister_one d i g id l m0 d2 r Hd Hg Ha Hm0 E1) as Hd2.
  set (g2 := mkGoroutine (DRUnlock (l ++ option_list r)) (delete id (held g))) in *.
  assert (goroutines (set_goroutine d2 i g2) !! i = Some g2) as Hg2.
  { apply list_lookup_insert_eq. destruct (unregisterMutex_facts d i g id m0 Hd Hg Hm0) as (d2' & r' & E & Hgs & _).
    rewrite E1 in E. simplify_eq. rewrite Hgs. by eapply lookup_lt_Some. }
  rewrite <-(set_goroutine_twice d1 i g2). rewrite app_assoc.
  apply (IH (set_goroutine d2 i g2) g2 (l ++ option_list r) (set_goroutine d1 i g2) ms'); try done.
  - intros id' Hid'. cbn. rewrite lookup_delete_ne; [apply Hin; by right|]. by intros ->.
  - by apply unregisterMutexes_set_goroutine.
Qed.

(** ** All steps *)

(** The next mutex of a call is taken, or given back. *)
Lemma next_inv d i g a :
  dag_inv d → goroutines d !! i = Some g →
  (∀ m, m ∈ entering (mkGoroutine a (held g)) → m ∈ entering g) → NoDup (entering (mkGoroutine a (held g))) →
  (∀ m, m ∈ entering g → m ∈ entering (mkGoroutine a (held g)) ∨ pc_in d m i = Some Reading ∨ pc_in d m i = Some Writing) →
  (∀ m, m ∈ leaving (mkGoroutine a (held g)) → m ∈ leaving g) →
  (∀ m, m ∈ leaving g → m ∈ leaving (mkGoroutine a (held g)) ∨ pc_in d m i = Some Idle) →
  at_ok d i a → dag_inv (set_goroutine d i (mkGoroutine a (held g))).
Proof.
  intros Hd Hg He1 Hnd He2 Hl1 Hl2 Hat. eapply relabel_inv; [done..|].
  pose proof (di_goroutine d Hd i g Hg) as [Gheld Gidle Gowned Genter _ _ Gleave]. split; try done.
  - intros id m Hm Hn Hl. destruct (decide (m ∈ leaving g)) as [Hin|]; [|by eapply Gidle]. destruct (Hl2 m Hin); done.
  - intros id m Hm Hn. destruct (decide (m ∈ entering g)) as [Hin|]; [|by eapply Gowned]. destruct (He2 m Hin); done.
  - intros m Hm. by apply Genter, He1.
  - intros id m Hm. by apply Gleave, Hl1.
Qed.

(** Between two calls, and before the first and after the last mutex of one. *)
Definition at_rest (a : dag_pc) : Prop := a = DIdle ∨ a = DRLock [] ∨ a = DRUnlock [].

Lemma rest_inv d i g a :
  dag_inv d → goroutines d !! i = Some g → at_rest (at_ g) → at_rest a → dag_inv (set_goroutine d i (mkGoroutine a (held g))).
Proof.
  intros Hd Hg Hr Ha. assert (∀ g, at_rest (at_ g) → entering g = [] ∧ leaving g = []) as Hnil.
  { intros g0 Hg0. unfold entering, leaving. by destruct Hg0 as [->|[->| ->]]. }
  destruct (Hnil g Hr) as [E1 E2], (Hnil (mkGoroutine a (held g)) Ha) as [E3 E4].
  apply next_inv; try done; rewrite ?E1, ?E2, ?E3, ?E4; auto; [constructor|]. by destruct Ha as [->|[->| ->]].
Qed.

Lemma rlock_register_inv d i g ids d' ms :
  goroutines d !! i = Some g → at_ g = DIdle → NoDup ids → (∀ id, id ∈ ids → held g !! id = None) →
  registerMutexes d ids = (d', ms) → dag_inv d →
  dag_inv (set_goroutine d' i (mkGoroutine (DRLock ms) (holding (held g) ids ms))).
Proof.
  intros Hg Ha Hnd Hn Hr Hd. set (g1 := mkGoroutine (DRLock []) (held g)). rewrite <-(set_goroutine_twice d' i g1).
  apply (register_all (set_goroutine d i g1) i g1 ids []); try done.
  - apply rest_inv; [done..|rewrite Ha; by left|right; by left].
  - apply list_lookup_insert_eq. by eapply lookup_lt_Some.
  - by intros m ?%not_elem_of_nil.
  - by apply registerMutexes_set_goroutine.
Qed.

Lemma lock_register_inv d i g id d' m :
  goroutines d !! i = Some g → at_ g = DIdle → held g !! id = None → registerMutex d id = (d', m) → dag_inv d →
  dag_inv (set_goroutine d' i (mkGoroutine (DLock m) (<[id := m]> (held g)))).
Proof.
  intros Hg Ha Hn Hr Hd. set (g1 := mkGoroutine (DRLock []) (held g)).
  assert (dag_inv (set_goroutine d i g1)) as Hd1 by (apply rest_inv; [done..|rewrite Ha; by left|right; by left]).
  assert (goroutines (set_goroutine d i g1) !! i = Some g1) as Hg1 by (apply list_lookup_insert_eq; by eapply lookup_lt_Some).
  assert (all_idle (set_goroutine d i g1) i []) as Hnil by (by intros ? ?%not_elem_of_nil).
  pose proof (register_one _ i g1 id [] _ m Hd1 Hg1 eq_refl Hnil Hn (registerMutex_set_goroutine d i g1 id d' m Hr)) as Hd2.
  pose proof (register_idle _ i g1 id [] _ m Hd1 Hg1 eq_refl Hnil Hn (registerMutex_set_goroutine d i g1 id d' m Hr)) as Hidle.
  rewrite set_goroutine_twice in Hd2, Hidle. cbn [app held] in Hd2, Hidle.
  set (g2 := mkGoroutine (DRLock [m]) (<[id := m]> (held g))) in *.
  assert (goroutines (set_goroutine d' i g2) !! i = Some g2) as Hg2.
  { apply list_lookup_insert_eq. destruct (registerMutex_facts d id d' m Hd Hr) as [-> _]. by eapply lookup_lt_Some. }
  rewrite <-(set_goroutine_twice d' i g2). apply (next_inv _ i g2 (DLock m)); try done; auto.
  - apply NoDup_singleton.
  - exists Idle. split; [apply Hidle; by left|by left].
Qed.

Lemma runlock_unregister_inv d i g ids d' ms :
  goroutines d !! i = Some g → at_ g = DIdle → NoDup ids → (∀ id, id ∈ ids → is_Some (held g !! id)) →
  unregisterMutexes d ids = Ret (d', ms) → dag_inv d →
  dag_inv (set_goroutine d' i (mkGoroutine (DRUnlock ms) (releasing (held g) ids))).
Proof.
  intros Hg Ha Hnd Hin Hr Hd. set (g1 := mkGoroutine (DRUnlock []) (held g)). rewrite <-(set_goroutine_twice d' i g1).
  apply (unregister_all (set_goroutine d i g1) i g1 ids []); try done.
  - apply rest_inv; [done..|rewrite Ha; by left|right; by right].
  - apply list_lookup_insert_eq. by eapply lookup_lt_Some.
  - by apply unregisterMutexes_set_goroutine.
Qed.

Lemma unlock_unregister_inv d i g id m0 d' r :
  goroutines d !! i = Some g → at_ g = DIdle → held g !! id = Some m0 → unregisterMutex d id = Ret (d', r) → dag_inv d →
  dag_inv (set_goroutine d' i (mkGoroutine (match r with Some m => DUnlock m | None => DIdle end) (delete id (held g)))).
Proof.
  intros Hg Ha Hm0 Hr Hd. assert (unregisterMutexes d [id] = Ret (d', option_list r)) as Hrs.
  { cbn [unregisterMutexes]. rewrite Hr. cbn. by rewrite app_nil_r. }
  pose proof (runlock_unregister_inv d i g [id] d' (option_list r) Hg Ha (NoDup_singleton id)) as Hd2.
  specialize (Hd2 ltac:(by intros id' ->%list_elem_of_singleton) Hrs Hd). cbn [releasing foldl] in Hd2.
  set (g2 := mkGoroutine (DRUnlock (option_list r)) (delete id (held g))) in *.
  assert (goroutines (set_goroutine d' i g2) !! i = Some g2) as Hg2.
  { apply list_lookup_insert_eq. destruct (unregisterMutex_facts d i g id m0 Hd Hg Hm0) as (d2' & r' & E & Hgs & _).
    rewrite Hr in E. simplify_eq. rewrite Hgs. by eapply lookup_lt_Some. }
  rewrite <-(set_goroutine_twice d' i g2). destruct r as [m|].
  - apply (next_inv _ i g2 (DUnlock m)); try done; auto. constructor.
  - apply (rest_inv _ i g2); [done..|right; by right|by left].
Qed.

Lemma rlock_next_inv d i g m todo :
  goroutines d !! i = Some g → at_ g = DRLock (m :: todo) → pc_in d m i = Some Reading → dag_inv d →
  dag_inv (set_goroutine d i (mkGoroutine (DRLock todo) (held g))).
Proof.
  intros Hg Ha Hp Hd. pose proof (di_goroutine d Hd i g Hg) as Gok. pose proof (go_nodup _ _ _ Gok) as Hnd.
  pose proof (go_at _ _ _ Gok) as Hat. unfold entering in Hnd. rewrite Ha in Hnd, Hat.
  apply next_inv; try done; unfold entering, leaving; rewrite ?Ha; cbn.
  - intros m' ?. by right.
  - by apply NoDup_cons in Hnd as [_ ?].
  - intros m' [->|?]%elem_of_cons; auto.
  - by intros m' ?%not_elem_of_nil.
  - by intros m' ?%not_elem_of_nil.
  - destruct Hat as [_ Hrest]. exact (all_idle_at d i todo Hrest).
Qed.

Lemma dag_step_inv d d' : dag_step d d' → dag_inv d → dag_inv d'.
Proof.
  intros Hs Hd. destruct Hs as [d m s s' Hm Hs|d i g ids d' ms Hg Ha Hnd Hn Hr|d i g m todo f ts Hg Ha Hm Hi|d i g m todo Hg Ha Hp|d i g Hg Ha
    |d i g id d' m Hg Ha Hn Hr|d i g m f ts Hg Ha Hm Hi|d i g m Hg Ha Hp
    |d i g ids d' ms Hg Ha Hnd Hin Hr|d i g m todo f ts f' p Hg Ha Hm Hi Hu|d i g m todo Hg Ha Hp|d i g Hg Ha
    |d i g id m0 d' m Hg Ha Hm0 Hp Hr|d i g m f ts f' p Hg Ha Hm Hi Hu|d i g m Hg Ha Hp].
  - by eapply mutex_step_inv.
  - by eapply rlock_register_inv.
  - by eapply rlock_enter_inv.
  - by eapply rlock_next_inv.
  - apply rest_inv; [done..|rewrite Ha; right; by left|by left].
  - by eapply lock_register_inv.
  - by eapply lock_enter_inv.
  - apply next_inv; try done; unfold entering, leaving; rewrite ?Ha; cbn; auto; [by intros m' ?%not_elem_of_nil|constructor|].
    intros m' ->%list_elem_of_singleton. auto.
  - eapply runlock_unregister_inv; try done. intros id Hid. destruct (Hin id Hid) as (m & Hm & _). by exists m.
  - eapply leave_inv; [done|unfold leaving; rewrite Ha; by left|done|by eapply lookup_lt_Some| |done].
    eapply inv_RUnlock; [done..|]. by apply (di_heap d Hd m).
  - apply next_inv; try done; unfold entering, leaving; rewrite ?Ha; cbn; auto; [constructor|intros m' ?; by right|].
    intros m' [->|?]%elem_of_cons; auto.
  - apply rest_inv; [done..|rewrite Ha; right; by right|by left].
  - by eapply unlock_unregister_inv.
  - eapply leave_inv; [done|unfold leaving; rewrite Ha; by left|done|by eapply lookup_lt_Some| |done].
    eapply inv_Unlock; [done..|]. by apply (di_heap d Hd m).
  - apply next_inv; try done; unfold entering, leaving; rewrite ?Ha; cbn; auto; [constructor|by intros m' ?%not_elem_of_nil|].
    intros m' ->%list_elem_of_singleton. auto.
Qed.

Lemma dag_reachable_inv n d : dag_reachable n d → dag_inv d.
Proof.
  revert d. apply rtc_ind_r; [|intros d d' _ Hs Hd; by eapply dag_step_inv].
  split; cbn; try done.
  - intros id. unfold counter. cbn. induction n as [|n IH]; cbn; [done|]. rewrite <-IH. done.
  - intros i g [-> _]%lookup_replicate. split; cbn; try done; try (apply NoDup_nil_2); by intros * ?%not_elem_of_nil.
Qed.

End dagmutex.
Arguments DAGMutex _ {_ _}.

(** ** Properties *)

(** C22: a [DAGMutex] is a mutex per entity, in every interleaving of calls.  A
    goroutine that has locked an entity for writing is the only one that has locked
    it; between two calls a goroutine has locked everything that it holds, and
    giving it back does not panic; and there is a mutex for exactly the entities
    that someone holds, with the number of those who do. *)
Theorem DAGMutex_exclusion {T} `{Countable T} n (d : DAGMutex T) :
  dag_reachable n d →
  (∀ i j g h id m, goroutines d !! i = Some g → goroutines d !! j = Some h →
    held g !! id = Some m → pc_in d m i = Some Writing →
    ∀ m', held h !! id = Some m' → pc_in d m' j = Some Writing ∨ pc_in d m' j = Some Reading → i = j) ∧
  (∀ i g id m, goroutines d !! i = Some g → at_ g = DIdle → held g !! id = Some m →
    (pc_in d m i = Some Reading ∨ pc_in d m i = Some Writing) ∧ returns (unregisterMutex d id)) ∧
  (∀ id, counter d id = zsum (holds id) (goroutines d) ∧
    (is_Some (mutexes d !! id) ↔ ∃ i g, goroutines d !! i = Some g ∧ is_Some (held g !! id))).
Proof.
  intros Hr. pose proof (dag_reachable_inv n d Hr) as Hd. split_and!.
  - intros i j g h id m Hi Hj Hg Hw m' Hh Hm'.
    assert (m' = m) as ->.
    { apply (go_held _ _ _ (di_goroutine d Hd _ _ Hi)) in Hg. apply (go_held _ _ _ (di_goroutine d Hd _ _ Hj)) in Hh. congruence. }
    unfold pc_in in *. destruct (heap d !! m) as [s|] eqn:Es; [|done]. cbn in *. eapply exclusive; [by apply (di_heap d Hd m)|done..].
  - intros i g id m Hi Ha Hg. split.
    + apply (go_owned _ _ _ (di_goroutine d Hd _ _ Hi) id m Hg). unfold entering. rewrite Ha. apply not_elem_of_nil.
    + destruct (unregisterMutex_facts d i g id m Hd Hi Hg) as (d1 & r & -> & _). by eexists.
  - intros id. split; [apply (di_count d Hd)|]. split.
    + intros [m Hm]. apply (di_mutex d Hd) in Hm as [_ Hc]. rewrite (di_count d Hd) in Hc.
      apply zsum_pos in Hc as (g & [i Hi]%list_elem_of_lookup & Hh); [|intros g; unfold holds; destruct (held g !! id); lia].
      exists i, g. split; [done|]. unfold holds in Hh. destruct (held g !! id); [by eexists|lia].
    + intros (i & g & Hi & [m Hm]). exists m. by apply (go_held _ _ _ (di_goroutine d Hd _ _ Hi)).
Qed.

(** ** A run: one goroutine has locked an entity, another one waits to read it *)

Definition dag_locked : DAGMutex nat :=
  mkDAG {[1%nat := 2; 2%nat := 1]} {[1%nat := 0%nat; 2%nat := 1%nat]}
    [mkState {| readersActive := 0; writerActive := true; pendingWriters := 0 |} [Writing; RWait];
     mkState NewStarvingMutex [Idle; Idle]]
    [mkGoroutine DIdle {[1%nat := 0%nat]}; mkGoroutine (DRLock [0%nat; 1%nat]) {[1%nat := 0%nat; 2%nat := 1%nat]}].

Lemma dag_locked_reachable : dag_reachable 2 dag_locked.
Proof.
  eapply rtc_l; [by apply (lock_register _ 0 (mkGoroutine DIdle ∅) 1%nat)|]. cbn.
  eapply rtc_l; [by eapply (lock_enter _ 0)|]. cbn. eapply rtc_l; [by eapply (lock_return _ 0)|]. cbn.
  eapply rtc_l; [eapply (rlock_register _ 1 (mkGoroutine DIdle ∅) [1%nat; 2%nat]); try done; by apply NoDup_cons; split; [apply not_elem_of_cons; split; [done|apply not_elem_of_nil]|apply NoDup_singleton]|].
  cbn. eapply rtc_l; [by eapply (rlock_enter _ 1)|]. cbn. exact (rtc_refl dag_step dag_locked).
Qed.

Lemma DAGMutex_exclusion_witness :
  dag_reachable 2 dag_locked ∧
  (∀ j h, goroutines dag_locked !! j = Some h → held h !! 1%nat = Some 0%nat →
    pc_in dag_locked 0 j = Some Writing ∨ pc_in dag_locked 0 j = Some Reading → 0%nat = j) ∧
  returns (unregisterMutex dag_locked 1%nat).
Proof.
  destruct (DAGMutex_exclusion 2 dag_locked dag_locked_reachable) as (H1 & H2 & _). split_and!.
  - apply dag_locked_reachable.
  - intros j h Hj Hh Hp. by eapply (H1 0%nat j _ h 1%nat 0%nat).
  - by eapply (H2 0%nat _ 1%nat 0%nat).
Defined.
