(* ===== verification/WorkerPool.v ===== *)
(** * runtime/workerpool

    [src/runtime/workerpool/workerpool.go] and [task.go], with the queue and the
    counter of [src/runtime/syncutils/stack.go] and [counter.go], as a transition
    system: the dispatcher, the workers, any number of goroutines that call
    [Submit], and calls of [Start] and [Shutdown].

    - [Start] and [Shutdown] hold the mutex of the pool throughout and are one
      step each; [IsRunning] takes the same mutex and is an access to [isRunning].
      [Start] blocks until the workers of the last run have ended, [Shutdown]
      when the channel of the signals has no room.
    - [PopOrWait] holds the mutex of the queue from the test of its length until
      [Wait] parks the dispatcher: [DAsked] is in between, where it has asked
      [IsRunning].  [Push] needs that mutex; the broadcast after it is a step of
      its own, that of [SignalShutdown] belongs to [Shutdown].
    - The channel of the dispatcher is a buffer of [workerCount] tasks that may be
      closed, the channel of the signals a number of at most [workerCount].
    - [select] takes any case that is ready, and [default] when none is.

    Tasks are values; running one is a step.  [accepted], [taken], [executed] and
    [canceled] are ghost: the tasks pushed to the queue, those received by
    workers, and those run or given up. *)

From stdpp Require Import relations.
From S2P Require Import Prelude.

Section WorkerPool.
Context {Task : Type}.
Variables (workerCount : nat) (optCancelPendingTasksOnShutdown : bool).

Inductive dispatcher_pc : Type :=
  | DNone
  | DLoop            (* at the condition of the loop *)
  | DPop             (* in [PopOrWait], before the test of the length *)
  | DAsked           (* the queue was empty and the pool running *)
  | DWaiting         (* parked in [elementAdded.Wait] *)
  | DSend (t : Task) (* at [dispatcherChan <- task] *)
  | DWaitZero        (* in [WaitIsZero] *)
  | DExited.

Inductive worker_pc : Type :=
  | WOuter             (* at the outer [select] of [workerReadLoop] *)
  | WInner             (* at the inner one *)
  | WRun (t : Task)
  | WDrain             (* in [handleShutdown] *)
  | WFinish (t : Task) (* has received a task there *)
  | WExited.

Inductive submit_pc : Type :=
  | SIdle
  | SChecked (t : Task)  (* saw that the pool runs *)
  | SCounted (t : Task)  (* increased the counter *)
  | SPushed.             (* before [elementAdded.Broadcast] *)

Record pool : Type := mkPool {
  isRunning : bool;
  pendingTasks : Z;            (* [PendingTasksCounter] *)
  queue : list Task;           (* [Queue] *)
  chan : list Task;            (* [dispatcherChan] *)
  closed : bool;
  shutdownSignals : nat;
  dispatcher : dispatcher_pc;
  workers : list worker_pc;
  submitters : list submit_pc;
  accepted : list Task;
  taken : list Task;
  executed : list Task;
  canceled : list Task;
}.

Definition New (n : nat) : pool :=
  mkPool false 0 [] [] true 0 DNone [] (replicate n SIdle) [] [] [] [].

(** Setters of the groups of fields that the steps change. *)
Definition set_dispatcher (p : pool) (q c : list Task) (cl : bool) (d : dispatcher_pc) : pool :=
  mkPool (isRunning p) (pendingTasks p) q c cl (shutdownSignals p) d (workers p) (submitters p)
    (accepted p) (taken p) (executed p) (canceled p).

Definition set_worker (p : pool) (i : nat) (w : worker_pc) (c : list Task) (sig : nat) (tk : list Task) : pool :=
  mkPool (isRunning p) (pendingTasks p) (queue p) c (closed p) sig (dispatcher p) (<[i:=w]> (workers p))
    (submitters p) (accepted p) tk (executed p) (canceled p).

(** [run] or, with [false], only [markDone]: the task is done. *)
Definition markDone (p : pool) (i : nat) (w : worker_pc) (t : Task) (run : bool) : pool :=
  mkPool (isRunning p) (pendingTasks p - 1) (queue p) (chan p) (closed p) (shutdownSignals p) (dispatcher p)
    (<[i:=w]> (workers p)) (submitters p) (accepted p) (taken p)
    (if run then executed p ++ [t] else executed p) (if run then canceled p else canceled p ++ [t]).

Definition set_submitter (p : pool) (i : nat) (s : submit_pc) (n : Z) (q acc : list Task) (d : dispatcher_pc) : pool :=
  mkPool (isRunning p) n q (chan p) (closed p) (shutdownSignals p) d (workers p) (<[i:=s]> (submitters p))
    acc (taken p) (executed p) (canceled p).

(** [Broadcast] on [elementAdded]: a parked dispatcher tests again. *)
Definition wake (d : dispatcher_pc) : dispatcher_pc := match d with DWaiting => DPop | d => d end.

(** The condition of the dispatcher's loop. *)
Definition dispatcher_loop (p : pool) : dispatcher_pc :=
  if isRunning p || (0 <? len (queue p)) then DPop else DWaitZero.

(** [PopOrWait] until it returns or is about to wait. *)
Definition PopOrWait (p : pool) : pool :=
  match queue p with
  | t :: q => set_dispatcher p q (chan p) (closed p) (DSend t)
  | [] => set_dispatcher p [] (chan p) (closed p) (if isRunning p then DAsked else DLoop)
  end.

Definition Start (p : pool) : pool :=
  mkPool true (pendingTasks p) (queue p) [] false (shutdownSignals p) DLoop (replicate workerCount WOuter)
    (submitters p) (accepted p) (taken p) (executed p) (canceled p).

Definition Shutdown (p : pool) : pool :=
  mkPool false (pendingTasks p) (queue p) (chan p) (closed p) (shutdownSignals p + workerCount)
    (wake (dispatcher p)) (workers p) (submitters p) (accepted p) (taken p) (executed p) (canceled p).

Inductive step : pool → pool → Prop :=
  | start p : isRunning p = false → Forall (λ w, w = WExited) (workers p) → step p (Start p)
  | shutdown p :
      isRunning p = true → (shutdownSignals p + workerCount ≤ workerCount)%nat → step p (Shutdown p)
  (* [Submit] *)
  | submit_check p i t :
      submitters p !! i = Some SIdle → isRunning p = true →
      step p (set_submitter p i (SChecked t) (pendingTasks p) (queue p) (accepted p) (dispatcher p))
  | submit_count p i t :
      submitters p !! i = Some (SChecked t) →
      step p (set_submitter p i (SCounted t) (pendingTasks p + 1) (queue p) (accepted p) (dispatcher p))
  | submit_push p i t :
      submitters p !! i = Some (SCounted t) → dispatcher p ≠ DAsked →
      step p (set_submitter p i SPushed (pendingTasks p) (queue p ++ [t]) (accepted p ++ [t]) (dispatcher p))
  | submit_broadcast p i :
      submitters p !! i = Some SPushed →
      step p (set_submitter p i SIdle (pendingTasks p) (queue p) (accepted p) (wake (dispatcher p)))
  (* [dispatcher] *)
  | dispatch_loop p :
      dispatcher p = DLoop → step p (set_dispatcher p (queue p) (chan p) (closed p) (dispatcher_loop p))
  | dispatch_pop p : dispatcher p = DPop → step p (PopOrWait p)
  | dispatch_wait p :
      dispatcher p = DAsked → step p (set_dispatcher p (queue p) (chan p) (closed p) DWaiting)
  | dispatch_send p t :
      dispatcher p = DSend t → (length (chan p) < workerCount)%nat →
      step p (set_dispatcher p (queue p) (chan p ++ [t]) (closed p) DLoop)
  | dispatch_close p :
      dispatcher p = DWaitZero → pendingTasks p = 0 →
      step p (set_dispatcher p (queue p) (chan p) true DExited)
  (* [worker] *)
  | read_signal p i w n :
      workers p !! i = Some w → w = WOuter ∨ w = WInner → shutdownSignals p = S n →
      step p (set_worker p i WDrain (chan p) n (taken p))
  | read_default p i :
      workers p !! i = Some WOuter → shutdownSignals p = 0%nat →
      step p (set_worker p i WInner (chan p) 0 (taken p))
  | read_task p i t c :
      workers p !! i = Some WInner → chan p = t :: c →
      step p (set_worker p i (WRun t) c (shutdownSignals p) (taken p ++ [t]))
  | read_closed p i :
      workers p !! i = Some WInner → chan p = [] → closed p = true →
      step p (set_worker p i WDrain [] (shutdownSignals p) (taken p))
  | run_task p i t : workers p !! i = Some (WRun t) → step p (markDone p i WOuter t true)
  | drain_task p i t c :
      workers p !! i = Some WDrain → chan p = t :: c →
      step p (set_worker p i (WFinish t) c (shutdownSignals p) (taken p ++ [t]))
  | drain_finish p i t :
      workers p !! i = Some (WFinish t) →
      step p (markDone p i WDrain t (negb optCancelPendingTasksOnShutdown))
  | drain_closed p i :
      workers p !! i = Some WDrain → chan p = [] → closed p = true →
      step p (set_worker p i WExited [] (shutdownSignals p) (taken p)).

Definition reachable (n : nat) (p : pool) : Prop := rtc step (New n) p.

(** ** Where the tasks are *)

Definition held (d : dispatcher_pc) : list Task := match d with DSend t => [t] | _ => [] end.

Definition busy (w : worker_pc) : list Task := match w with WRun t | WFinish t => [t] | _ => [] end.

Definition working (ws : list worker_pc) : list Task := concat (busy <$> ws).

#[local] Arguments working : simpl never.

(** A goroutine has counted a task that it has not yet pushed. *)
Definition counted_task (s : submit_pc) : Z := match s with SCounted _ => 1 | _ => 0 end.

Lemma working_insert ws i w w' :
  ws !! i = Some w → working (<[i:=w']> ws) ++ busy w ≡ₚ working ws ++ busy w'.
Proof.
  revert i. unfold working. induction ws as [|v ws IH]; intros [|i] Hi; simplify_eq/=.
  - rewrite (Permutation_app_comm (busy w')), (Permutation_app_comm (busy w)), <-!app_assoc.
    apply Permutation_app_head, Permutation_app_comm.
  - rewrite <-!app_assoc. apply Permutation_app_head, (IH i Hi).
Qed.

(** Workers that move without a task, receive one, or finish one. *)
Lemma working_same ws i w w' :
  ws !! i = Some w → busy w = [] → busy w' = [] → working (<[i:=w']> ws) ≡ₚ working ws.
Proof. intros Hi E E'. pose proof (working_insert ws i w w' Hi) as Hw. by rewrite E, E', !app_nil_r in Hw. Qed.

Lemma working_receive ws i w w' t :
  ws !! i = Some w → busy w = [] → busy w' = [t] → working (<[i:=w']> ws) ≡ₚ working ws ++ [t].
Proof. intros Hi E E'. pose proof (working_insert ws i w w' Hi) as Hw. by rewrite E, E', app_nil_r in Hw. Qed.

Lemma working_finish ws i w w' t :
  ws !! i = Some w → busy w = [t] → busy w' = [] → working ws ≡ₚ working (<[i:=w']> ws) ++ [t].
Proof. intros Hi E E'. pose proof (working_insert ws i w w' Hi) as Hw. by rewrite E, E', app_nil_r in Hw. Qed.

Record inv (p : pool) : Prop := {
  inv_fifo : accepted p = taken p ++ chan p ++ held (dispatcher p) ++ queue p;
  inv_taken : taken p ≡ₚ working (workers p) ++ executed p ++ canceled p;
  inv_pending : pendingTasks p = zsum counted_task (submitters p) + len (queue p) + len (held (dispatcher p)) +
    len (chan p) + len (working (workers p));
  inv_closed : closed p = true → chan p = [] ∧ working (workers p) = [] ∧
    (dispatcher p = DNone ∨ dispatcher p = DExited);
  inv_exited : WExited ∈ workers p ∨ workers p = [] → closed p = true;
  inv_canceled : optCancelPendingTasksOnShutdown = false → canceled p = [];
}.

Hypothesis workers_exist : (0 < workerCount)%nat.

Lemma counted_nonneg_sum (l : list submit_pc) : 0 ≤ zsum counted_task l.
Proof. induction l as [|[] l IH]; cbn; lia. Qed.

Lemma start_inv p : Forall (λ w, w = WExited) (workers p) → inv p → inv (Start p).
Proof.
  intros Hw []. assert (closed p = true) as Hc.
  { apply inv_exited0. destruct (workers p) as [|w ws]; [by right|left].
    apply Forall_cons in Hw as [-> _]. set_solver. }
  destruct (inv_closed0 Hc) as (Hch & Hwk & Hd).
  assert (held (dispatcher p) = []) as Hh by (by destruct Hd as [->| ->]).
  assert (working (replicate workerCount WOuter) = []) as Hr by (unfold working; clear; induction workerCount; done).
  rewrite Hch, Hh, Hwk in *. split; cbn; try done.
  - by rewrite Hr.
  - by rewrite Hr.
  - intros [Hin|Hnil].
    + apply elem_of_replicate in Hin as [? _]. done.
    + by destruct workerCount; [lia|].
Qed.

Lemma wake_held d : held (wake d) = held d.
Proof. by destruct d. Qed.

Lemma wake_ended d : d = DNone ∨ d = DExited → wake d = DNone ∨ wake d = DExited.
Proof. intros [->| ->]; auto. Qed.

(** A worker moves. *)
Lemma set_worker_inv p i w w' c sig tk :
  workers p !! i = Some w → inv p →
  tk ++ c = taken p ++ chan p →
  (∃ l, working (<[i:=w']> (workers p)) ≡ₚ working (workers p) ++ l ∧ tk = taken p ++ l ∧ len c = len (chan p) - len l) →
  (closed p = true → tk = taken p ∧ c = []) →
  (w' = WExited → closed p = true) →
  inv (set_worker p i w' c sig tk).
Proof.
  intros Hi [] Htk (l & Hwk & -> & Hl) Hcl Hex. split; cbn; try done.
  - rewrite (app_assoc _ c), Htk, <-app_assoc. done.
  - rewrite Hwk, inv_taken0, <-app_assoc, <-(app_assoc (working (workers p)) l).
    apply Permutation_app_head, Permutation_app_comm.
  - rewrite inv_pending0, Hl. apply Permutation_length in Hwk. rewrite length_app in Hwk. unfold len. lia.
  - intros Hc. destruct (inv_closed0 Hc) as (Hch & Hw0 & Hd). destruct (Hcl Hc) as [El ->]. split_and!; [done| |done].
    assert (l = []) as -> by (by rewrite <-(app_nil_r (taken p)) in El at 2; apply app_inv_head in El).
    rewrite Hw0, app_nil_r in Hwk. by apply Permutation_nil_r in Hwk.
  - intros [Hin|Hnil].
    + apply list_elem_of_lookup in Hin as [j Hj]. apply list_lookup_insert_Some in Hj as [(_ & Hy & _)|[_ Hj]]; [by apply Hex|].
      apply inv_exited0. left. by eapply list_elem_of_lookup_2.
    + apply (f_equal length) in Hnil. rewrite length_insert in Hnil. apply lookup_lt_Some in Hi. cbn in Hnil. lia.
Qed.

Lemma markDone_inv p i w w' t (run : bool) :
  workers p !! i = Some w → busy w = [t] → busy w' = [] → w' ≠ WExited →
  (optCancelPendingTasksOnShutdown = false → run = true) → inv p → inv (markDone p i w' t run).
Proof.
  intros Hi Hb Hb' Hex Hrun []. pose proof (working_finish _ _ _ _ _ Hi Hb Hb') as Hwk. split; cbn; try done.
  - rewrite inv_taken0, Hwk. destruct run; rewrite <-!app_assoc; apply Permutation_app_head; cbn.
    + apply Permutation_middle.
    + rewrite (app_assoc (executed p)). apply Permutation_cons_append.
  - rewrite inv_pending0. apply Permutation_length in Hwk. rewrite length_app in Hwk. unfold len. cbn in Hwk. lia.
  - intros Hc. destruct (inv_closed0 Hc) as (? & Hw0 & ?). rewrite Hw0 in Hwk. apply Permutation_nil_l in Hwk.
    symmetry in Hwk. by apply app_nil in Hwk as [_ ?].
  - intros [Hin|Hnil].
    + apply list_elem_of_lookup in Hin as [j Hj]. apply list_lookup_insert_Some in Hj as [(_ & Hy & _)|[_ Hj]]; [done|].
      apply inv_exited0. left. by eapply list_elem_of_lookup_2.
    + apply (f_equal length) in Hnil. rewrite length_insert in Hnil. apply lookup_lt_Some in Hi. cbn in Hnil. lia.
  - intros Ho. rewrite (Hrun Ho). by apply inv_canceled0.
Qed.

Lemma set_dispatcher_inv p q c d :
  inv p → c ++ held d ++ q = chan p ++ held (dispatcher p) ++ queue p →
  dispatcher p ≠ DNone → dispatcher p ≠ DExited → inv (set_dispatcher p q c (closed p) d).
Proof.
  intros [] E Hn Hx. assert (closed p = true → False) as Hcl.
  { intros Hc. destruct (inv_closed0 Hc) as (_ & _ & [?|?]); done. }
  split; cbn; try done.
  - by rewrite E.
  - rewrite inv_pending0. apply (f_equal length) in E. rewrite !length_app in E. unfold len. lia.
Qed.

Lemma set_submitter_inv p i s s' n q acc d :
  submitters p !! i = Some s → inv p →
  held d = held (dispatcher p) → (dispatcher p = DNone ∨ dispatcher p = DExited → d = DNone ∨ d = DExited) →
  (∃ l, q = queue p ++ l ∧ acc = accepted p ++ l ∧ n + counted_task s = pendingTasks p + counted_task s' + len l) →
  inv (set_submitter p i s' n q acc d).
Proof.
  intros Hi [] Hh Hd (l & -> & -> & Hn). split; cbn; try done.
  - by rewrite inv_fifo0, Hh, <-!app_assoc.
  - rewrite (zsum_insert _ _ _ _ _ Hi), Hh, len_app. lia.
  - intros Hc. destruct (inv_closed0 Hc) as (? & ? & ?). auto.
Qed.

Lemma step_inv_pool p p' : step p p' → inv p → inv p'.
Proof.
  intros Hst Hi. destruct Hst as [p Hr Hw|p Hr Hs|p i t Hp Hr|p i t Hp|p i t Hp Hd|p i Hp|p Hd|p Hd|p Hd|p t Hd Hl|
    p Hd Hz|p i w n Hp Hw Hs|p i Hp Hs|p i t c Hp Hc|p i Hp Hc Hcl|p i t Hp|p i t c Hp Hc|p i t Hp|p i Hp Hc Hcl].
  - by apply start_inv.
  - destruct Hi. split; cbn; rewrite ?wake_held; try done. intros Hc. destruct (inv_closed0 Hc) as (? & ? & ?).
    split_and!; try done. by apply wake_ended.
  - eapply set_submitter_inv; try done. exists []. rewrite !app_nil_r. split_and!; [done..|unfold len; cbn; lia].
  - eapply set_submitter_inv; try done. exists []. rewrite !app_nil_r. split_and!; [done..|unfold len; cbn; lia].
  - eapply set_submitter_inv; try done. exists [t]. split_and!; [done..|unfold len; cbn; lia].
  - eapply set_submitter_inv; try done; [apply wake_held|apply wake_ended|].
    exists []. rewrite !app_nil_r. split_and!; [done..|unfold len; cbn; lia].
  - apply set_dispatcher_inv; rewrite ?Hd; try done. unfold dispatcher_loop. by destruct (_ || _).
  - unfold PopOrWait. destruct (queue p) as [|t q] eqn:Eq; apply set_dispatcher_inv; rewrite ?Hd, ?Eq; try done.
    by destruct (isRunning p).
  - apply set_dispatcher_inv; by rewrite ?Hd.
  - apply set_dispatcher_inv; rewrite ?Hd; try done. cbn. by rewrite <-app_assoc.
  - pose proof Hi as []. rewrite Hd in *. cbn in *. pose proof (counted_nonneg_sum (submitters p)).
    pose proof (len_nonneg (queue p)). pose proof (len_nonneg (chan p)). pose proof (len_nonneg (working (workers p))).
    assert (chan p = []) as Hc by (apply nil_length_inv; unfold len in *; cbn in *; lia).
    assert (working (workers p) = []) as Hw by (apply nil_length_inv; unfold len in *; cbn in *; lia).
    split; cbn; try done. auto.
  - eapply set_worker_inv; try done.
    + exists []. rewrite !app_nil_r. split_and!; [|done|unfold len; cbn; lia].
      eapply working_same; [done|by destruct Hw as [->| ->]|done].
    + intros Hc. by destruct (inv_closed _ Hi Hc).
  - eapply set_worker_inv; try done.
    + exists []. rewrite !app_nil_r. split_and!; [|done|unfold len; cbn; lia]. by eapply working_same.
    + intros Hc. by destruct (inv_closed _ Hi Hc).
  - eapply set_worker_inv; try done; [by rewrite Hc, <-app_assoc| |].
    + exists [t]. split_and!; [by eapply working_receive|done|rewrite Hc; unfold len; cbn; lia].
    + intros Hcl. destruct (inv_closed _ Hi Hcl). congruence.
  - eapply set_worker_inv; try done; [by rewrite Hc|].
    exists []. rewrite Hc, !app_nil_r. split_and!; [|done|unfold len; cbn; lia]. by eapply working_same.
  - by eapply markDone_inv.
  - eapply set_worker_inv; try done; [by rewrite Hc, <-app_assoc| |].
    + exists [t]. split_and!; [by eapply working_receive|done|rewrite Hc; unfold len; cbn; lia].
    + intros Hcl. destruct (inv_closed _ Hi Hcl). congruence.
  - eapply markDone_inv; try done. by intros ->.
  - eapply set_worker_inv; try done; [by rewrite Hc|].
    exists []. rewrite Hc, !app_nil_r. split_and!; [|done|unfold len; cbn; lia]. by eapply working_same.
Qed.

Lemma inv_reachable_pool n p : reachable n p → inv p.
Proof.
  intros Hr. refine (rtc_ind_r (R := step) inv (New n) _ _ p Hr).
  - split; cbn; try done; [|by auto].
    assert (zsum counted_task (replicate n SIdle) = 0) as -> by (clear; induction n; cbn; lia). done.
  - intros y z _ Hst Hi. by eapply step_inv_pool.
Qed.

(** C12: A worker pool loses no task.  However [Start], [Shutdown], [Submit], the
    dispatcher and the workers are interleaved, also over several runs: the tasks
    accepted are, in the order in which they were pushed, those that workers have
    received, those in the channel, the one the dispatcher holds and those in the
    queue; every received task is with one worker or was run or given up, once;
    the counter of pending tasks is the number of those that are not done, so it
    is zero only when nothing is pending; once the dispatcher has closed the
    channel every task is done but those pushed later; and no task is given up
    without the option for it. *)
Theorem WorkerPool_tasks n p :
  reachable n p →
  accepted p = taken p ++ chan p ++ held (dispatcher p) ++ queue p ∧
  taken p ≡ₚ working (workers p) ++ executed p ++ canceled p ∧
  (pendingTasks p = 0 → accepted p ≡ₚ executed p ++ canceled p) ∧
  pendingTasks p = zsum counted_task (submitters p) + (len (accepted p) - len (executed p) - len (canceled p)) ∧
  (closed p = true → accepted p ≡ₚ executed p ++ canceled p ++ queue p) ∧
  (optCancelPendingTasksOnShutdown = false → canceled p = []).
Proof.
  intros []%inv_reachable_pool. pose proof (counted_nonneg_sum (submitters p)).
  assert (len (taken p) = len (working (workers p)) + len (executed p) + len (canceled p)) as Hlen.
  { apply Permutation_length in inv_taken0. rewrite !length_app in inv_taken0. unfold len. lia. }
  split_and!; try done.
  - intros Hz. rewrite Hz in inv_pending0. unfold len in inv_pending0.
    assert (queue p = []) as Eq by (apply nil_length_inv; lia).
    assert (held (dispatcher p) = []) as Ed by (apply nil_length_inv; lia).
    assert (chan p = []) as Ec by (apply nil_length_inv; lia).
    assert (working (workers p) = []) as Ew by (apply nil_length_inv; lia).
    rewrite inv_fifo0, Eq, Ed, Ec, app_nil_r, inv_taken0, Ew. done.
  - rewrite inv_pending0, inv_fifo0, !len_app. lia.
  - intros Hc. destruct (inv_closed0 Hc) as (Ec & Ew & Hd).
    assert (held (dispatcher p) = []) as Ed by (by destruct Hd as [->| ->]).
    rewrite inv_fifo0, Ec, Ed, inv_taken0, Ew. cbn. by rewrite <-app_assoc.
Qed.

End WorkerPool.

Arguments pool : clear implicits.

(** ** Runs of a pool with one worker *)

Section Runs.

#[local] Notation pool := (pool Z).
#[local] Notation runs cancel := (rtc (step 1 cancel)).

(** Take the next step by a rule; the states are computed. *)
Local Tactic Notation "next" uconstr(rule) := eapply rtc_l; [by eapply rule|]; cbn.

(** A task is submitted and run. *)
Definition one_run : pool := mkPool true 0 [] [] false 0 DLoop [WOuter] [SPushed] [7] [7] [7] [].

Lemma one_run_reachable : reachable 1 false 1 one_run.
Proof.
  next start. next (submit_check 1 false _ 0 7). next (submit_count 1 false _ 0 7). next (submit_push 1 false _ 0 7).
  next dispatch_loop. next dispatch_pop.
  eapply rtc_l; [eapply (dispatch_send 1 false _ 7); [done|cbn; lia]|]. cbn.
  next (read_default 1 false _ 0). next (read_task 1 false _ 0 7 []). next (run_task 1 false _ 0 7). apply rtc_refl.
Qed.

Lemma WorkerPool_tasks_witness : accepted one_run ≡ₚ executed one_run ++ canceled one_run.
Proof.
  destruct (WorkerPool_tasks 1 false ltac:(lia) 1 one_run one_run_reachable) as (_ & _ & H & _).
  by apply H.
Defined.

(** [Shutdown] between the test of [IsRunning] and the [Wait] of the dispatcher:
    the broadcast finds nobody, and the pool never ends. *)
Definition hung (p : pool) : Prop :=
  isRunning p = false ∧ dispatcher p = DWaiting ∧ chan p = [] ∧ closed p = false ∧ workers p = [WDrain] ∧
  submitters p = [SIdle].

Lemma shutdown_can_hang :
  ∃ p, reachable 1 false 1 p ∧ hung p ∧ ∀ p', runs false p p' → hung p'.
Proof.
  exists (mkPool false 0 [] [] false 0 DWaiting [WDrain] [SIdle] [] [] [] []). split_and!.
  - next start. next dispatch_loop. next dispatch_pop. next shutdown. next dispatch_wait.
    eapply rtc_l; [by eapply (read_signal 1 false _ 0); [|left|]|]. apply rtc_refl.
  - by split_and!.
  - intros p' Hr. refine (rtc_ind_r (R := step 1 false) hung _ _ _ p' Hr); [by split_and!|].
    intros y z _ Hst (E1 & E2 & E3 & E4 & E5 & E6).
    destruct Hst; rewrite ?E1, ?E2, ?E3, ?E4, ?E5, ?E6 in *; try congruence;
      try (by apply Forall_cons in H0 as [? _]);
      try (apply list_lookup_singleton_Some in H as [_ ?]; simplify_eq; naive_solver).
Qed.

(** A task that is submitted while the pool shuts down is not run and keeps the
    dispatcher waiting for ever. *)
Definition stranded (p : pool) : Prop :=
  isRunning p = false ∧ dispatcher p = DWaitZero ∧ pendingTasks p = 1 ∧ chan p = [] ∧ closed p = false ∧
  workers p = [WDrain] ∧ submitters p = [SIdle] ∧ queue p = [7].

Lemma submit_can_hang_shutdown :
  ∃ p, reachable 1 false 1 p ∧ stranded p ∧ ∀ p', runs false p p' → stranded p'.
Proof.
  exists (mkPool false 1 [7] [] false 0 DWaitZero [WDrain] [SIdle] [7] [] [] []). split_and!.
  - next start. next (submit_check 1 false _ 0 7). next shutdown. next dispatch_loop.
    eapply rtc_l; [by eapply (read_signal 1 false _ 0); [|left|]|]. cbn.
    next (submit_count 1 false _ 0 7). next (submit_push 1 false _ 0 7). next (submit_broadcast 1 false _ 0). apply rtc_refl.
  - by split_and!.
  - intros p' Hr. refine (rtc_ind_r (R := step 1 false) stranded _ _ _ p' Hr); [by split_and!|].
    intros y z _ Hst (E1 & E2 & E3 & E4 & E5 & E6 & E7 & E8).
    destruct Hst; rewrite ?E1, ?E2, ?E3, ?E4, ?E5, ?E6, ?E7 in *; try congruence;
      try (by apply Forall_cons in H0 as [? _]);
      try (apply list_lookup_singleton_Some in H as [_ ?]; simplify_eq; naive_solver).
Qed.

(** A worker that notices the closed channel before its shutdown signal leaves
    the signal behind: after a restart, a worker takes it at once and, with the
    option, gives up tasks although the pool runs. *)
Lemma restart_gives_up_tasks :
  ∃ p, reachable 1 true 1 p ∧ isRunning p = true ∧ accepted p = [7] ∧ executed p = [] ∧ canceled p = [7].
Proof.
  exists (mkPool true 0 [] [] false 0 DLoop [WDrain] [SPushed] [7] [7] [] [7]). split_and!; try done.
  next start. next (read_default 1 true _ 0). next shutdown. next dispatch_loop. next dispatch_close.
  next (read_closed 1 true _ 0). next (drain_closed 1 true _ 0).
  eapply rtc_l; [apply start; [done|by apply Forall_singleton]|]. cbn.
  eapply rtc_l; [by eapply (read_signal 1 true _ 0); [|left|]|]. cbn.
  next (submit_check 1 true _ 0 7). next (submit_count 1 true _ 0 7). next (submit_push 1 true _ 0 7).
  next dispatch_loop. next dispatch_pop.
  eapply rtc_l; [eapply (dispatch_send 1 true _ 7); [done|cbn; lia]|]. cbn.
  next (drain_task 1 true _ 0 7 []). next (drain_finish 1 true _ 0 7). apply rtc_refl.
Qed.

End Runs.
