(* ===== verification/PoolGroup.v ===== *)
(** * runtime/syncutils: the counter, and runtime/workerpool: groups

    [src/runtime/syncutils/counter.go] and the counters of
    [src/runtime/workerpool/group.go], as a transition system of goroutines.

    Each worker pool of a group and each subgroup has a counter to which the group
    has subscribed: [subscriber] is the counter of the group.  A counter calls its
    subscribers while it holds [valueMutex], so a change of a pool may climb up the
    tree of groups with the mutexes of all counters on its way held:

    - [Raising held n o]: about to lock the counter [n] for the operation [o], with
      the counters of [held] locked (the last one first, each with its change);
    - [Leaving held]: the subscribers were called, the first of [held] is unlocked
      next, and [Signalling] broadcasts to those who wait for it;
    - [Testing] and [Parked] are goroutines in the loop of a wait.

    The mutex of a counter is locked when it is in the [held] of a goroutine.
    [told] says whether the group of a counter has been told that it is not zero; it
    is not read by the code.  A counter has the one subscriber that [CreatePool] and
    [CreateGroup] give it, and none when it is the counter of a root; its value, a Go
    [int] that counts tasks or children, is an integer without bounds.  The registry
    of groups is in GroupRegistry.v. *)

From stdpp Require Import relations.
From S2P Require Import Prelude.

Inductive operation : Type :=
  | OUpdate (delta : Z)
  | OSet (newValue : Z).

Inductive condition : Type :=
  | Below (threshold : Z)
  | Above (threshold : Z).

Inductive counter_pc : Type :=
  | Idle
  | Raising (held : list (nat * Z)) (n : nat) (o : operation)
  | Leaving (held : list (nat * Z))
  | Signalling (n : nat) (d : Z) (held : list (nat * Z))
  | Testing (n : nat) (c : condition)
  | Parked (n : nat) (c : condition).

Record Counter : Type := mkCounter {
  value : Z;
  subscriber : option nat;
  is_pool : bool;
  told : bool;
}.

Record state : Type := mkState { counters : list Counter; goroutines : list counter_pc }.

Definition NewCounter (sub : option nat) (pool : bool) : Counter := mkCounter 0 sub pool false.

(** The new value in [set] and [update]. *)
Definition apply (o : operation) (oldValue : Z) : Z :=
  match o with OUpdate delta => oldValue + delta | OSet newValue => newValue end.

(** The callbacks of [CreatePool] and [CreateGroup]. *)
Definition notifySubscribers (c : Counter) (oldValue newValue : Z) (held : list (nat * Z)) : counter_pc :=
  match subscriber c with
  | None => Leaving held
  | Some g =>
      if oldValue =? 0 then Raising held g (OUpdate 1)
      else if newValue =? 0 then Raising held g (OUpdate (-1))
      else Leaving held
  end.

(** The critical section of [set] and [update] up to the calls of the subscribers. *)
Definition update (n : nat) (c : Counter) (o : operation) (held : list (nat * Z)) : Counter * counter_pc :=
  let oldValue := value c in
  let newValue := apply o oldValue in
  let held := (n, newValue - oldValue) :: held in
  if newValue =? oldValue then (c, Leaving held)
  else (mkCounter newValue (subscriber c) (is_pool c) (told c), notifySubscribers c oldValue newValue held).

(** [valueIncreasedCond.Broadcast] or [valueDecreasedCond.Broadcast], for the change [d]. *)
Definition wakes (n : nat) (d : Z) (m : nat) (c : condition) : bool :=
  bool_decide (n = m) && match c with Above _ => d >=? 1 | Below _ => d <=? -1 end.

Definition Broadcast (n : nat) (d : Z) (p : counter_pc) : counter_pc :=
  match p with
  | Parked m c => if wakes n d m c then Testing m c else p
  | _ => p
  end.

(** The condition that ends the loop of [WaitIsBelow] and [WaitIsAbove];
    [WaitIsZero] is [Below 1]. *)
Definition satisfied (c : condition) (v : Z) : bool :=
  match c with Below threshold => v <? threshold | Above threshold => v >? threshold end.

Definition WaitIsZero : condition := Below 1.

Definition locks (p : counter_pc) : list nat :=
  match p with
  | Raising held _ _ | Leaving held | Signalling _ _ held => held.*1
  | _ => []
  end.

Definition locked (s : state) (n : nat) : Prop := ∃ p, p ∈ goroutines s ∧ n ∈ locks p.

(** After a counter was unlocked: back in the callback of the one below, or out. *)
Definition leave (held : list (nat * Z)) : counter_pc :=
  match held with [] => Idle | _ => Leaving held end.

(** The group counts a counter as pending. *)
Definition tell (held : list (nat * Z)) (o : operation) (cs : list Counter) : list Counter :=
  match held, o with
  | (m, _) :: _, OUpdate d => alter (λ c, mkCounter (value c) (subscriber c) (is_pool c) (d =? 1)) m cs
  | _, _ => cs
  end.

Definition set_pc (s : state) (i : nat) (p : counter_pc) : state := mkState (counters s) (<[i:=p]> (goroutines s)).

(** Steps of the goroutine [i]. *)
Inductive go_step (i : nat) (s : state) : state → Prop :=
  | step_lock held n o c c' p :
      goroutines s !! i = Some (Raising held n o) → ¬ locked s n → counters s !! n = Some c →
      update n c o held = (c', p) →
      go_step i s (mkState (<[n:=c']> (tell held o (counters s))) (<[i:=p]> (goroutines s)))
  | step_unlock n d held :
      goroutines s !! i = Some (Leaving ((n, d) :: held)) →
      go_step i s (set_pc s i (Signalling n d held))
  | step_broadcast n d held :
      goroutines s !! i = Some (Signalling n d held) →
      go_step i s (mkState (counters s) (<[i:=leave held]> (Broadcast n d <$> goroutines s)))
  | step_test n c k :
      goroutines s !! i = Some (Testing n c) → ¬ locked s n → counters s !! n = Some k →
      go_step i s (set_pc s i (if satisfied c (value k) then Idle else Parked n c)).

(** Calls: updates of the counters of pools, waits, and new groups and pools. *)
Inductive call (s : state) : state → Prop :=
  | call_update i n c o :
      goroutines s !! i = Some Idle → counters s !! n = Some c → is_pool c = true →
      call s (set_pc s i (Raising [] n o))
  | call_wait i n c w :
      goroutines s !! i = Some Idle → counters s !! n = Some c →
      call s (set_pc s i (Testing n w))
  | call_new :
      call s (mkState (counters s ++ [NewCounter None false]) (goroutines s))
  | call_create g c pool :
      counters s !! g = Some c → is_pool c = false →
      call s (mkState (counters s ++ [NewCounter (Some g) pool]) (goroutines s)).

Definition any_step (s s' : state) : Prop := (∃ i, go_step i s s') ∨ call s s'.

Definition reachable (n : nat) (s : state) : Prop := rtc any_step (mkState [] (replicate n Idle)) s.

(** ** Invariant *)

Definition busy (c : Counter) : bool := negb (value c =? 0).

(** Consecutive locks lead up the tree. *)
Fixpoint chain (cs : list Counter) (held : list (nat * Z)) : Prop :=
  match held with
  | (n, d) :: held' =>
      (∃ c, cs !! n = Some c ∧
        match held' with
        | [] => is_pool c = true
        | (m, _) :: _ => ∃ cm, cs !! m = Some cm ∧ subscriber cm = Some n
        end) ∧ chain cs held'
  | [] => True
  end.

(** Who reports what to its group. *)
Definition reporting (p : counter_pc) : option (nat * bool) :=
  match p with Raising ((m, _) :: _) _ (OUpdate d) => Some (m, d =? 1) | _ => None end.

Definition pc_ok (cs : list Counter) (p : counter_pc) : Prop :=
  match p with
  | Idle => True
  | Raising held n o =>
      chain cs held ∧
      match held with
      | [] => ∃ c, cs !! n = Some c ∧ is_pool c = true
      | (m, _) :: _ => ∃ c, cs !! m = Some c ∧ subscriber c = Some n ∧
          (o = OUpdate 1 ∧ busy c = true ∨ o = OUpdate (-1) ∧ busy c = false) ∧ told c = negb (busy c)
      end
  | Leaving held => held ≠ [] ∧ chain cs held
  | Signalling n d held =>
      (∃ c, cs !! n = Some c) ∧ chain cs held
  | Testing n _ | Parked n _ => is_Some (cs !! n)
  end.

(** The changes a goroutine has yet to broadcast. *)
Definition to_signal (p : counter_pc) : list (nat * Z) :=
  match p with
  | Raising held _ _ | Leaving held => held
  | Signalling n d held => (n, d) :: held
  | _ => []
  end.

Definition child_told (g : nat) (c : Counter) : Z :=
  if decide (subscriber c = Some g) then if told c then 1 else 0 else 0.

(** No two goroutines have locked the same counter. *)
Definition apart (gs : list counter_pc) : Prop :=
  ∀ i j p q n, gs !! i = Some p → gs !! j = Some q → n ∈ locks p → n ∈ locks q → i = j.

Record inv (s : state) : Prop := {
  inv_tree n c g : counters s !! n = Some c → subscriber c = Some g →
    (g < n)%nat ∧ ∃ cg, counters s !! g = Some cg ∧ is_pool cg = false;
  inv_locks : apart (goroutines s);
  inv_pc p : p ∈ goroutines s → pc_ok (counters s) p;
  inv_count g c : counters s !! g = Some c → is_pool c = false → value c = zsum (child_told g) (counters s);
  inv_told n c : counters s !! n = Some c → subscriber c ≠ None → told c ≠ busy c →
    ∃ p, p ∈ goroutines s ∧ reporting p = Some (n, busy c);
  inv_wake n c k : Parked n c ∈ goroutines s → counters s !! n = Some k → satisfied c (value k) = true →
    ∃ p d, p ∈ goroutines s ∧ (n, d) ∈ to_signal p ∧ wakes n d n c = true;
}.

(** ** Lemmas *)

Lemma reporting_locks p n b : reporting p = Some (n, b) → n ∈ locks p.
Proof. destruct p as [|[|[m d] held] k [|]| | | |]; intros [=]; subst. left. Qed.

(** What no step changes. *)
Definition same_tree (cs cs' : list Counter) : Prop :=
  ∀ n c, cs !! n = Some c → ∃ c', cs' !! n = Some c' ∧ subscriber c' = subscriber c ∧ is_pool c' = is_pool c.

Lemma chain_same cs cs' held : same_tree cs cs' → chain cs held → chain cs' held.
Proof.
  intros Hs. induction held as [|[n d] held IH]; [done|]. intros [(c & Hc & Hm) Hh]. split; [|by apply IH].
  destruct (Hs _ _ Hc) as (c' & Hc' & _ & Hp). exists c'. split; [done|]. destruct held as [|[m e] held]; [congruence|].
  destruct Hm as (cm & Hcm & Hsub). destruct (Hs _ _ Hcm) as (cm' & ? & ? & _). exists cm'. split; congruence.
Qed.

(** A goroutine is not disturbed by changes of counters it has not locked. *)
Lemma pc_ok_same cs cs' p :
  same_tree cs cs' → (∀ m, m ∈ locks p → cs' !! m = cs !! m) → pc_ok cs p → pc_ok cs' p.
Proof.
  intros Hs Hl. destruct p as [|held n o|held|n d held|n c|n c]; cbn; [done| | | | |].
  - intros [Hch Hh]. split; [by eapply chain_same|]. destruct held as [|[m d] held].
    + destruct Hh as (c & Hc & Hp). destruct (Hs _ _ Hc) as (c' & Hc' & _ & Hp'). exists c'. split; [done|congruence].
    + rewrite Hl by left. done.
  - intros [? ?]. split; [done|]. by eapply chain_same.
  - intros [(c & Hc) ?]. split; [|by eapply chain_same]. destruct (Hs _ _ Hc) as (c' & ? & _). by exists c'.
  - intros [c' Hc']. destruct (Hs _ _ Hc') as (k & ? & _). by exists k.
  - intros [c' Hc']. destruct (Hs _ _ Hc') as (k & ? & _). by exists k.
Qed.

Lemma same_tree_app cs c : same_tree cs (cs ++ [c]).
Proof. intros n k Hn. exists k. split; [|done]. by apply lookup_app_l_Some. Qed.

Lemma locks_elem s i p n : goroutines s !! i = Some p → n ∈ locks p → locked s n.
Proof. intros Hi Hn. exists p. split; [|done]. by eapply list_elem_of_lookup_2. Qed.

(** Changing the locks of one goroutine. *)
Lemma apart_insert gs i p p' :
  gs !! i = Some p → apart gs → (∀ n, n ∈ locks p' → n ∈ locks p ∨ ∀ q, q ∈ gs → n ∉ locks q) → apart (<[i:=p']> gs).
Proof.
  intros Hi Ha Hnew j k q r n Hj Hk Hq Hr.
  apply lookup_insert_case in Hj as [[<- ->]|[Hij Hj]], Hk as [[<- ->]|[Hik Hk]] || idtac.
  all: try apply lookup_insert_case in Hk as [[<- ->]|[Hik Hk]].
  - done.
  - destruct (Hnew n Hq) as [?|Hf]; [by eapply Ha|]. exfalso. eapply Hf; [by eapply list_elem_of_lookup_2|done].
  - destruct (Hnew n Hr) as [?|Hf]; [by eapply Ha|]. exfalso. eapply Hf; [by eapply list_elem_of_lookup_2|done].
  - by eapply Ha.
Qed.

Lemma elem_of_insert_case {X} (l : list X) i x y : y ∈ <[i:=x]> l → y = x ∨ ∃ j, j ≠ i ∧ l !! j = Some y.
Proof. intros [j Hj]%list_elem_of_lookup. apply lookup_insert_case in Hj as [[? ->]|[? ?]]; [by left|right]. by exists j. Qed.

Lemma update_facts n c o held c' p :
  update n c o held = (c', p) →
  subscriber c' = subscriber c ∧ is_pool c' = is_pool c ∧ told c' = told c ∧ value c' = apply o (value c) ∧
  locks p = n :: held.*1 ∧ to_signal p = (n, value c' - value c) :: held.
Proof.
  unfold update, notifySubscribers. intros H. destruct (Z.eqb_spec (apply o (value c)) (value c)) as [E|E]; simplify_eq/=.
  - by rewrite E.
  - destruct (subscriber c); [|done]. destruct (value c =? 0); [done|]. by destruct (apply o (value c) =? 0).
Qed.

(** A counter that was told reports to its group if and only if it becomes zero or leaves zero. *)
Lemma update_reports n c o held c' p :
  update n c o held = (c', p) → (subscriber c ≠ None → told c = busy c) →
  (told c' = busy c' ∨ subscriber c' = None ∨ reporting p = Some (n, busy c')) ∧
  ((p = Leaving ((n, value c' - value c) :: held)) ∨
   ∃ g, subscriber c' = Some g ∧ told c' = negb (busy c') ∧
     p = Raising ((n, value c' - value c) :: held) g (if busy c' then OUpdate 1 else OUpdate (-1))).
Proof.
  unfold update, notifySubscribers. intros H Ht. destruct (Z.eqb_spec (apply o (value c)) (value c)) as [E|E]; simplify_eq/=.
  - split; [|by left; rewrite E]. destruct (subscriber c') eqn:Es; [|auto]. left. by apply Ht.
  - destruct (subscriber c) as [g|] eqn:Es; [|by auto]. specialize (Ht ltac:(done)). unfold busy in *. cbn.
    destruct (Z.eqb_spec (value c) 0) as [E0|E0], (Z.eqb_spec (apply o (value c)) 0) as [E1|E1]; cbn in *; try congruence.
    + split; [by right; right|]. right. exists g. rewrite Ht. done.
    + split; [by right; right|]. right. exists g. rewrite Ht. done.
    + split; [by left|]. by left.
Qed.

Lemma tell_lookup held o cs k :
  k ∉ held.*1 → tell held o cs !! k = cs !! k.
Proof.
  destruct held as [|[m d] held]; [done|]. destruct o as [e|e]; [|done]. cbn. intros Hk.
  apply not_elem_of_cons in Hk as [Hk _]. by rewrite list_lookup_alter_ne.
Qed.

Lemma tell_other held o cs k :
  (∀ m d held', held = (m, d) :: held' → k ≠ m) → tell held o cs !! k = cs !! k.
Proof.
  destruct held as [|[m d] held]; [done|]. destruct o; [|done]. cbn. intros Hk.
  rewrite list_lookup_alter_ne; [done|]. apply not_eq_sym. by eapply Hk.
Qed.

Lemma tell_keeps held o cs k :
  ∃ f, tell held o cs !! k = f <$> cs !! k ∧
    ∀ c, value (f c) = value c ∧ subscriber (f c) = subscriber c ∧ is_pool (f c) = is_pool c.
Proof.
  destruct held as [|[m d] held]; [exists id; by rewrite option_fmap_id|]. destruct o; [|exists id; by rewrite option_fmap_id].
  cbn. destruct (decide (k = m)) as [->|Hne].
  - rewrite list_lookup_alter_eq. by eexists.
  - exists id. by rewrite option_fmap_id, list_lookup_alter_ne.
Qed.

Lemma zsum_alter {A} (f : A → Z) g l i a : l !! i = Some a → zsum f (alter g i l) = zsum f l - f a + f (g a).
Proof. revert i. induction l as [|b l IH]; intros [|i] Hi; simplify_eq/=; [lia|]. rewrite (IH i Hi). lia. Qed.

(** ** The steps keep the invariant *)

Section lock.
Variables (s : state) (i : nat) (held : list (nat * Z)) (n : nat) (o : operation) (c c' : Counter) (p : counter_pc).
Hypotheses (Hi : goroutines s !! i = Some (Raising held n o)) (Hfree : ¬ locked s n)
  (Hc : counters s !! n = Some c) (Hu : update n c o held = (c', p)) (Hinv : inv s).

Let cs : list Counter := <[n:=c']> (tell held o (counters s)).

Lemma lock_not_held : n ∉ held.*1.
Proof. intros Hn. apply Hfree. by eapply locks_elem. Qed.

Lemma lock_n : cs !! n = Some c'.
Proof. unfold cs. apply list_lookup_insert_eq, lookup_lt_is_Some. rewrite tell_lookup, Hc by apply lock_not_held. by eexists. Qed.

Lemma lock_same : same_tree (counters s) cs.
Proof.
  intros k ck Hk. destruct (decide (k = n)) as [->|Hne].
  - exists c'. rewrite lock_n. destruct (update_facts _ _ _ _ _ _ Hu) as (? & ? & _). simplify_eq. done.
  - destruct (tell_keeps held o (counters s) k) as (f & Hf & Hff). exists (f ck). unfold cs.
    rewrite list_lookup_insert_ne by done. rewrite Hf, Hk. split; [done|]. apply Hff.
Qed.

(** Each counter of the new state comes from one of the old state. *)
Lemma lock_back k ck :
  cs !! k = Some ck → ∃ c0, counters s !! k = Some c0 ∧ subscriber ck = subscriber c0 ∧ is_pool ck = is_pool c0 ∧
    (k ≠ n → value ck = value c0).
Proof.
  intros Hk. destruct (decide (k = n)) as [->|Hne].
  - rewrite lock_n in Hk. simplify_eq. exists c. destruct (update_facts _ _ _ _ _ _ Hu) as (? & ? & _). done.
  - unfold cs in Hk. rewrite list_lookup_insert_ne in Hk by done.
    destruct (tell_keeps held o (counters s) k) as (f & Hf & Hff). rewrite Hf in Hk.
    destruct (counters s !! k) as [c0|]; simplify_eq/=. exists c0. destruct (Hff c0) as (? & ? & ?). done.
Qed.

(** What is neither locked by [i] nor [n] is left alone. *)
Lemma lock_other k : k ≠ n → k ∉ held.*1 → cs !! k = counters s !! k.
Proof. intros Hk Hh. unfold cs. rewrite list_lookup_insert_ne by done. by apply tell_lookup. Qed.

Lemma lock_told_before : subscriber c ≠ None → told c = busy c.
Proof.
  intros Hs. destruct (decide (told c = busy c)) as [|Hne]; [done|]. exfalso.
  destruct (inv_told s Hinv n c Hc Hs Hne) as (q & Hq & Hr). apply Hfree. exists q. split; [done|]. by eapply reporting_locks.
Qed.

Lemma lock_pc : p ∈ <[i:=p]> (goroutines s).
Proof. eapply list_elem_of_lookup_2 with i, list_lookup_insert_eq, lookup_lt_is_Some. by eexists. Qed.

Lemma lock_others q : q ∈ goroutines s → q ≠ Raising held n o → q ∈ <[i:=p]> (goroutines s).
Proof.
  intros [j Hj]%list_elem_of_lookup Hne. eapply list_elem_of_lookup_2 with j. rewrite list_lookup_insert_ne; [done|].
  intros ->. congruence.
Qed.

Lemma lock_pc_ok q : q ∈ <[i:=p]> (goroutines s) → pc_ok cs q.
Proof.
  pose proof (inv_pc s Hinv _ (list_elem_of_lookup_2 _ _ _ Hi)) as [Hch Hh]. pose proof lock_same as Hst.
  intros [->|(j & Hji & Hj)]%elem_of_insert_case.
  - destruct (update_reports _ _ _ _ _ _ Hu lock_told_before) as [_ Hp].
    assert (chain cs ((n, value c' - value c) :: held)) as Hch'.
    { split; [|by eapply chain_same]. exists c'. split; [apply lock_n|].
      destruct (update_facts _ _ _ _ _ _ Hu) as (_ & Hpool & _). destruct held as [|[m d] held']; cbn in *.
      - destruct Hh as (k & Hk & ?). congruence.
      - destruct Hh as (k & Hk & Hs & _). destruct (Hst _ _ Hk) as (k' & ? & ? & _). exists k'. split; congruence. }
    destruct Hp as [->|(g & Hg & Ht & ->)]; [done|]. cbn [pc_ok]. split; [done|]. exists c'. split_and!; [apply lock_n|done| |done].
    destruct (busy c'); auto.
  - eapply pc_ok_same; [exact Hst| |apply (inv_pc s Hinv); by eapply list_elem_of_lookup_2]. intros m Hm. apply lock_other.
    + intros ->. apply Hfree. by eapply locks_elem.
    + intros Hmh. apply Hji. by eapply (inv_locks s Hinv).
Qed.

Lemma lock_apart : apart (<[i:=p]> (goroutines s)).
Proof.
  eapply apart_insert; [done|apply Hinv|]. destruct (update_facts _ _ _ _ _ _ Hu) as (_ & _ & _ & _ & -> & _).
  intros m [->|Hm]%elem_of_cons; [right|by left]. intros q Hq Hn. apply Hfree. by exists q.
Qed.

(** The counter that has reported, and its group. *)
Lemma lock_reporter m d held' :
  held = (m, d) :: held' →
  ∃ k v b, counters s !! m = Some k ∧ subscriber k = Some n ∧ o = OUpdate v ∧ b = busy k ∧ (v =? 1) = b ∧ told k = negb b ∧
    v = (if b then 1 else -1) ∧ m ≠ n.
Proof.
  intros Hh. pose proof (inv_pc s Hinv _ (list_elem_of_lookup_2 _ _ _ Hi)) as Hp. rewrite Hh in Hp.
  destruct Hp as [_ (k & Hk & Hs & Ho & Ht)].
  assert (m ≠ n) as Hmn. { intros Hmn. apply lock_not_held. rewrite Hh, <-Hmn. left. }
  exists k. destruct Ho as [[-> Hb]|[-> Hb]]; [exists 1, true|exists (-1), false]; rewrite Hb in *; done.
Qed.

Lemma lock_told k ck :
  cs !! k = Some ck → subscriber ck ≠ None → told ck ≠ busy ck →
  ∃ q, q ∈ <[i:=p]> (goroutines s) ∧ reporting q = Some (k, busy ck).
Proof.
  intros Hk Hs Ht. destruct (decide (k = n)) as [->|Hne].
  { rewrite lock_n in Hk. simplify_eq. destruct (update_reports _ _ _ _ _ _ Hu lock_told_before) as [[?|[?|?]] _]; [done..|].
    exists p. split; [apply lock_pc|done]. }
  unfold cs in Hk. rewrite list_lookup_insert_ne in Hk by done.
  assert (∀ m d held', held = (m, d) :: held' → k ≠ m) as Hkm.
  { intros m d held' Eh ->. destruct (lock_reporter m d held' Eh) as (k & v & b & Hm & _ & Ho & Hb & Hv & _ & _).
    rewrite Eh, Ho in Hk. cbn in Hk. rewrite list_lookup_alter_eq, Hm in Hk. by simplify_eq/=. }
  rewrite tell_other in Hk by done. destruct (inv_told s Hinv k ck Hk Hs Ht) as (q & Hq & Hr). exists q. split; [|done].
  apply lock_others; [done|]. intros ->. clear -Hr Hkm. destruct held as [|[m d] held']; [done|].
  destruct o; simplify_eq/=. by eapply Hkm.
Qed.

(** Only the group that was told counts one more or one less. *)
Lemma lock_sum g :
  zsum (child_told g) cs = zsum (child_told g) (counters s) +
    (if decide (g = n ∧ held ≠ []) then value c' - value c else 0).
Proof.
  unfold cs. assert (tell held o (counters s) !! n = Some c) as Hn by (rewrite tell_lookup; [done|apply lock_not_held]).
  rewrite (zsum_insert _ _ _ _ _ Hn). destruct (update_facts _ _ _ _ _ _ Hu) as (Hs & _ & Ht & Hv & _).
  replace (child_told g c') with (child_told g c) by (unfold child_told; by rewrite Hs, Ht).
  assert (held = [] ∨ ∃ m d held', held = (m, d) :: held') as [Eh|(m & d & held' & Eh)].
  { destruct held as [|[m d] held']; [by left|right; by exists m, d, held']. }
  { rewrite Eh. rewrite decide_False by naive_solver. cbn. lia. }
  destruct (lock_reporter m d held' Eh) as (k & v & b & Hm & Hks & Ho & Hb & Hv1 & Hkt & Hvb & _).
  rewrite Hv, Eh, Ho. cbn [tell apply]. rewrite (zsum_alter _ _ _ _ _ Hm).
  generalize (child_told g c). intros x. unfold child_told. cbn [subscriber told].
  rewrite Hks, Hkt, Hv1. destruct (decide (g = n)) as [->|Hg].
  - rewrite !decide_True by done. destruct b; cbn in *; lia.
  - rewrite !decide_False by naive_solver. lia.
Qed.

Lemma lock_count g ck : cs !! g = Some ck → is_pool ck = false → value ck = zsum (child_told g) cs.
Proof.
  intros Hg Hp. rewrite lock_sum. destruct (lock_back g ck Hg) as (c0 & Hc0 & _ & Hp0 & Hv0). rewrite Hp0 in Hp.
  pose proof (inv_count s Hinv g c0 Hc0 Hp) as Hcount. destruct (decide (g = n)) as [->|Hne].
  - rewrite lock_n in Hg. simplify_eq. rewrite decide_True; [lia|]. split; [done|]. intros Eh.
    pose proof (inv_pc s Hinv _ (list_elem_of_lookup_2 _ _ _ Hi)) as Hpc. rewrite Eh in Hpc. destruct Hpc as [_ (k & ? & ?)]. congruence.
  - rewrite decide_False by naive_solver. rewrite Hv0 by done. lia.
Qed.

Lemma lock_wake k w ck :
  Parked k w ∈ <[i:=p]> (goroutines s) → cs !! k = Some ck → satisfied w (value ck) = true →
  ∃ q d, q ∈ <[i:=p]> (goroutines s) ∧ (k, d) ∈ to_signal q ∧ wakes k d k w = true.
Proof.
  destruct (update_facts _ _ _ _ _ _ Hu) as (_ & _ & _ & _ & Hlo & Hsig).
  intros [Hp|(j & Hj & Hjk)]%elem_of_insert_case Hk Hsat. { exfalso. rewrite <-Hp in Hlo. done. }
  destruct (lock_back k ck Hk) as (c0 & Hc0 & _ & _ & Hv0).
  destruct (satisfied w (value c0)) eqn:Hsat0.
  - destruct (inv_wake s Hinv k w c0 (list_elem_of_lookup_2 _ _ _ Hjk) Hc0 Hsat0) as (q & d & Hq & Hd & Hw).
    destruct (list_elem_of_lookup_1 _ _ Hq) as [j' Hj']. destruct (decide (j' = i)) as [->|Hne].
    + exists p, d. split_and!; [apply lock_pc| |done]. rewrite Hi in Hj'. simplify_eq/=. rewrite Hsig. by right.
    + exists q, d. split_and!; [|done..]. eapply list_elem_of_lookup_2. by rewrite list_lookup_insert_ne.
  - destruct (decide (k = n)) as [Hkn|Hne]; [|rewrite Hv0 in Hsat by done; congruence].
    exists p, (value c' - value c). rewrite Hkn in *. rewrite lock_n in Hk. simplify_eq. split_and!; [apply lock_pc|rewrite Hsig; left|].
    unfold wakes. rewrite bool_decide_true by done. destruct w; cbn in *; lia.
Qed.

Lemma lock_inv : inv (mkState cs (<[i:=p]> (goroutines s))).
Proof.
  constructor; cbn.
  - intros k ck g Hk Hs. destruct (lock_back k ck Hk) as (c0 & Hc0 & Hs0 & _). rewrite Hs0 in Hs.
    destruct (inv_tree s Hinv k c0 g Hc0 Hs) as (? & cg & Hg & Hp). split; [done|].
    destruct (lock_same g cg Hg) as (cg' & ? & _ & ?). exists cg'. split; [done|congruence].
  - apply lock_apart.
  - apply lock_pc_ok.
  - apply lock_count.
  - apply lock_told.
  - apply lock_wake.
Qed.
End lock.

(** Steps of one goroutine that lock nothing and forget nothing. *)
Lemma quiet_inv s i p p' :
  goroutines s !! i = Some p → inv s → pc_ok (counters s) p' → locks p' ⊆ locks p → reporting p = None →
  to_signal p ⊆ to_signal p' →
  (∀ n c k, p' = Parked n c → counters s !! n = Some k → satisfied c (value k) = false) → inv (set_pc s i p').
Proof.
  intros Hi Hinv Hok Hlocks Hrep Hsig Hpark.
  assert (∀ q, q ∈ goroutines s → q = p ∨ q ∈ <[i:=p']> (goroutines s)) as Hkeep.
  { intros q [j Hj]%list_elem_of_lookup. destruct (decide (j = i)) as [->|Hne]; [left; congruence|right].
    eapply list_elem_of_lookup_2 with j. by rewrite list_lookup_insert_ne. }
  assert (p' ∈ <[i:=p']> (goroutines s)) as Hp'.
  { eapply list_elem_of_lookup_2 with i, list_lookup_insert_eq, lookup_lt_is_Some. by eexists. }
  destruct Hinv as [H1 H2 H3 H4 H5 H6]. constructor; cbn; try done.
  - eapply apart_insert; [done..|]. intros n Hn. left. by apply Hlocks.
  - intros q [->|(j & _ & Hj)]%elem_of_insert_case; [done|]. apply H3. by eapply list_elem_of_lookup_2.
  - intros n c Hn Hs Ht. destruct (H5 n c Hn Hs Ht) as (q & Hq & Hr). exists q. split; [|done].
    destruct (Hkeep q Hq) as [->|?]; [congruence|done].
  - intros n c k [Hp|(j & _ & Hj)]%elem_of_insert_case Hk Hsat. { by rewrite (Hpark n c k) in Hsat. }
    destruct (H6 n c k (list_elem_of_lookup_2 _ _ _ Hj) Hk Hsat) as (q & d & Hq & Hd & Hw).
    destruct (Hkeep q Hq) as [->|?]; [exists p', d|exists q, d]; split_and!; try done. by apply Hsig.
Qed.

Lemma Broadcast_same n d p :
  locks (Broadcast n d p) = locks p ∧ reporting (Broadcast n d p) = reporting p ∧
  to_signal (Broadcast n d p) = to_signal p ∧ (∀ cs, pc_ok cs p → pc_ok cs (Broadcast n d p)).
Proof. destruct p; try done. cbn. by destruct (wakes _ _ _ _). Qed.

Lemma leave_facts held :
  locks (leave held) = held.*1 ∧ reporting (leave held) = None ∧ to_signal (leave held) = held ∧
  (∀ cs, chain cs held → pc_ok cs (leave held)) ∧ (∀ n c, leave held ≠ Parked n c).
Proof. by destruct held. Qed.

Lemma broadcast_all_inv s n d :
  inv s → inv (mkState (counters s) (Broadcast n d <$> goroutines s)).
Proof.
  intros [H1 H2 H3 H4 H5 H6].
  constructor; cbn; try done.
  - intros j k q r m Hj Hk. apply list_lookup_fmap_Some in Hj as (q0 & -> & Hj), Hk as (r0 & -> & Hk).
    destruct (Broadcast_same n d q0) as (-> & _), (Broadcast_same n d r0) as (-> & _). by apply H2.
  - intros q (q0 & -> & Hq)%list_elem_of_fmap. apply Broadcast_same. by apply H3.
  - intros m c Hm Hs Ht. destruct (H5 m c Hm Hs Ht) as (q & Hq & Hr). exists (Broadcast n d q).
    split; [by apply list_elem_of_fmap_2|]. by destruct (Broadcast_same n d q) as (_ & -> & _).
  - intros m c k (q0 & Heq & Hq)%list_elem_of_fmap Hk Hsat.
    assert (q0 = Parked m c) as ->. { destruct q0; try done. cbn in Heq. by destruct (wakes _ _ _ _). }
    destruct (H6 m c k Hq Hk Hsat) as (r & e & Hr & He & Hw). exists (Broadcast n d r), e.
    split_and!; [by apply list_elem_of_fmap_2| |done]. by destruct (Broadcast_same n d r) as (_ & _ & -> & _).
Qed.

Lemma broadcast_inv s i n d held :
  goroutines s !! i = Some (Signalling n d held) → inv s →
  inv (mkState (counters s) (<[i:=leave held]> (Broadcast n d <$> goroutines s))).
Proof.
  intros Hi Hinv. pose proof (list_elem_of_lookup_2 _ _ _ Hi) as Hin.
  pose proof (broadcast_all_inv s n d Hinv) as [H1 H2 H3 H4 H5 H6]. cbn in *.
  destruct (leave_facts held) as (Hl & Hr & Hs & Hok & Hpk).
  assert ((Broadcast n d <$> goroutines s) !! i = Some (Signalling n d held)) as Hi' by (by rewrite list_lookup_fmap, Hi).
  assert (∀ q, q ∈ Broadcast n d <$> goroutines s → q = Signalling n d held ∨ q ∈ <[i:=leave held]> (Broadcast n d <$> goroutines s)) as Hkeep.
  { intros q [j Hj]%list_elem_of_lookup. destruct (decide (j = i)) as [->|Hne]; [left; congruence|right].
    eapply list_elem_of_lookup_2 with j. by rewrite list_lookup_insert_ne. }
  constructor; cbn; try done.
  - eapply apart_insert; [done..|]. rewrite Hl. by left.
  - intros q [->|(j & _ & Hj)]%elem_of_insert_case; [|apply H3; by eapply list_elem_of_lookup_2].
    apply Hok. by apply (inv_pc s Hinv) in Hin as [_ ?].
  - intros m c Hm Hsub Ht. destruct (H5 m c Hm Hsub Ht) as (q & Hq & Hrep). exists q. split; [|done].
    by destruct (Hkeep q Hq) as [->|?].
  - intros m c k [Hp|(j & _ & Hj)]%elem_of_insert_case Hk Hsat; [by apply symmetry, Hpk in Hp|].
    destruct (H6 m c k (list_elem_of_lookup_2 _ _ _ Hj) Hk Hsat) as (q & e & Hq & He & Hw).
    destruct (Hkeep q Hq) as [->|?]; [|by exists q, e]. cbn in He. apply elem_of_cons in He as [[= -> ->]|He].
    + exfalso. apply list_lookup_fmap_Some in Hj as (q0 & Heq & _). destruct q0 as [| | | | |m' c']; try done. cbn in Heq.
      destruct (wakes n d m' c') eqn:Ew; [done|]. simplify_eq. congruence.
    + exists (leave held), e. split_and!; [|by rewrite Hs|done].
      eapply list_elem_of_lookup_2 with i, list_lookup_insert_eq, lookup_lt_is_Some. by eexists.
Qed.

Lemma go_step_inv i s s' : go_step i s s' → inv s → inv s'.
Proof.
  intros [held n o c c' p Hi Hfree Hc Hu|n d held Hi|n d held Hi|n c k Hi Hfree Hk] Hinv.
  - by eapply lock_inv.
  - pose proof (inv_pc s Hinv _ (list_elem_of_lookup_2 _ _ _ Hi)) as [_ Hch]. destruct Hch as [(c & Hc & _) Hch].
    eapply quiet_inv; [done..| | | | |]; [|set_solver|done|done|done]. split; [by exists c|done].
  - by apply broadcast_inv.
  - pose proof (inv_pc s Hinv _ (list_elem_of_lookup_2 _ _ _ Hi)) as Hex.
    eapply quiet_inv; [done..| | | | |]; destruct (satisfied c (value k)) eqn:Es; try done; cbn; try set_solver.
Qed.

(** A new counter is the last one. *)
Lemma create_inv s sub pool :
  (∀ g, sub = Some g → ∃ c, counters s !! g = Some c ∧ is_pool c = false) → inv s →
  inv (mkState (counters s ++ [NewCounter sub pool]) (goroutines s)).
Proof.
  intros Hsub Hinv. pose proof (same_tree_app (counters s) (NewCounter sub pool)) as Hst.
  assert (∀ g, zsum (child_told g) (counters s ++ [NewCounter sub pool]) = zsum (child_told g) (counters s)) as Hsum.
  { intros g. rewrite zsum_app. cbn. unfold child_told at 2. cbn. destruct (decide _); lia. }
  pose proof Hinv as [H1 H2 H3 H4 H5 H6]. constructor; cbn.
  - intros n c g [Hn|[-> ->]]%lookup_snoc_Some Hs.
    + destruct (H1 n c g Hn Hs) as (? & cg & Hg & ?). split; [done|]. exists cg. split; [by apply lookup_app_l_Some|done].
    + destruct (Hsub g Hs) as (cg & Hg & ?). split; [by eapply lookup_lt_Some|]. exists cg. split; [by apply lookup_app_l_Some|done].
  - done.
  - intros p Hp. eapply pc_ok_same; [exact Hst| |by apply H3]. intros m Hm. apply lookup_app_l.
    specialize (H3 p Hp). clear -H3 Hm.
    assert (∀ held, chain (counters s) held → m ∈ held.*1 → (m < length (counters s))%nat) as Hlt.
    { induction held as [|[k d] held IH]; cbn; [by intros _ ?%not_elem_of_nil|]. intros [(c & Hc & _) Hch] [->|Hm']%elem_of_cons;
      [by eapply lookup_lt_Some|by apply IH]. }
    destruct p; cbn in *; try by apply not_elem_of_nil in Hm. all: eapply Hlt; [by apply H3|done].
  - intros g c [Hg|[-> ->]]%lookup_snoc_Some Hp; rewrite Hsum; [by apply H4|]. cbn.
    assert (∀ n c, counters s !! n = Some c → child_told (length (counters s)) c = 0) as Hz.
    { intros n c Hn. unfold child_told. destruct (decide _) as [Hs|]; [|done].
      destruct (H1 _ _ _ Hn Hs) as (Hlt & _). apply lookup_lt_Some in Hn. lia. }
    clear -Hz. generalize dependent (length (counters s)). intros m Hz. induction (counters s) as [|c cs IH]; [done|]. cbn.
    rewrite (Hz 0%nat c) by done. apply IH. intros n k Hn. by apply (Hz (S n)).
  - intros n c [Hn|[-> ->]]%lookup_snoc_Some Hs Ht; [by apply H5|done].
  - intros n c k Hp [Hk|[-> ->]]%lookup_snoc_Some Hsat; [by apply (H6 n c k)|].
    destruct (H3 _ Hp) as [k Hk]. apply lookup_lt_Some in Hk. lia.
Qed.

Lemma pool_call_inv s s' : call s s' → inv s → inv s'.
Proof.
  intros [i n c o Hi Hn Hp|i n c w Hi Hn| |g c pool Hg Hp] Hinv.
  - eapply quiet_inv; [done..| | | | |]; [|done..]. split; [done|]. by exists c.
  - eapply quiet_inv; [done..| | | | |]; [|done..]. by exists c.
  - by apply create_inv.
  - apply create_inv; [|done]. intros g' [= <-]. by exists c.
Qed.

Lemma pool_reachable_inv n s : reachable n s → inv s.
Proof.
  intros Hr. unfold reachable in Hr. eapply (rtc_ind_r (λ s, inv s)) in Hr; [done| |].
  - assert (∀ p, p ∈ replicate n Idle → p = Idle) as Hid by (intros p [-> _]%elem_of_replicate; done).
    constructor; cbn; try done.
    + intros i j p q m Hp%list_elem_of_lookup_2%Hid _ Hm. subst. by apply not_elem_of_nil in Hm.
    + by intros p ->%Hid.
  - intros s1 s2 _ [[i Hs]|Hs] Hi; [by eapply go_step_inv|by eapply pool_call_inv].
Qed.

(** ** The tree of counters *)

Definition child (cs : list Counter) (n g : nat) : Prop := ∃ c, cs !! n = Some c ∧ subscriber c = Some g.

(** [n] is a pool or a group below the group [g]. *)
Definition under (cs : list Counter) : nat → nat → Prop := tc (child cs).

Definition child_busy (g : nat) (c : Counter) : Z :=
  if decide (subscriber c = Some g) then if busy c then 1 else 0 else 0.

Lemma zsum_ext {A} (f g : A → Z) l : (∀ i a, l !! i = Some a → f a = g a) → zsum f l = zsum g l.
Proof.
  induction l as [|a l IH]; intros H; [done|]. cbn. rewrite (H 0%nat a eq_refl), IH; [done|]. intros i b Hi. by apply (H (S i)).
Qed.

Lemma zsum_all_zero {A} (f : A → Z) l : (∀ a, 0 ≤ f a) → zsum f l = 0 → ∀ a, a ∈ l → f a = 0.
Proof.
  intros Hf Hz a Ha. destruct (decide (f a = 0)); [done|]. assert (1 ≤ zsum f l); [|lia].
  apply zsum_pos; [done|]. exists a. split; [done|]. specialize (Hf a). lia.
Qed.

Lemma child_told_nonneg g c : 0 ≤ child_told g c.
Proof. unfold child_told. destruct (decide _); [destruct (told c)|]; lia. Qed.

(** A group that is zero was not told about a counter, so that one reports right now. *)
Lemma zero_reports s n c g cg :
  inv s → counters s !! n = Some c → subscriber c = Some g → counters s !! g = Some cg → value cg = 0 → value c ≠ 0 →
  ∃ p, p ∈ goroutines s ∧ reporting p = Some (n, true).
Proof.
  intros Hinv Hn Hs Hg Hz Hv. destruct (inv_tree s Hinv n c g Hn Hs) as (_ & cg' & ? & Hp). simplify_eq.
  rewrite (inv_count s Hinv g cg Hg Hp) in Hz.
  pose proof (zsum_all_zero _ _ (child_told_nonneg g) Hz c (list_elem_of_lookup_2 _ _ _ Hn)) as Ht.
  assert (busy c = true) as Hb by (unfold busy; destruct (Z.eqb_spec (value c) 0); done).
  unfold child_told in Ht. rewrite decide_True in Ht by done. rewrite <-Hb. apply (inv_told s Hinv); [done|by rewrite Hs|].
  rewrite Hb. by destruct (told c).
Qed.

Lemma under_reports s n g :
  inv s → under (counters s) n g → ∀ c cg, counters s !! n = Some c → counters s !! g = Some cg → value cg = 0 → value c ≠ 0 →
  ∃ a p, rtc (child (counters s)) n a ∧ under (counters s) a g ∧ p ∈ goroutines s ∧ reporting p = Some (a, true).
Proof.
  intros Hinv Hu. induction Hu as [n g (c0 & Hn & Hs)|n b g (c0 & Hn & Hs) Hbg IH]; intros c cg Hc Hg Hz Hv; assert (c0 = c) as -> by congruence.
  - destruct (zero_reports s n c g cg) as (p & Hp & Hr); [done..|]. exists n, p. split_and!; [done| |done..].
    apply tc_once. by exists c.
  - destruct (inv_tree s Hinv n c b Hc Hs) as (_ & cb & Hb & _). destruct (decide (value cb = 0)) as [Hz'|Hnz].
    + destruct (zero_reports s n c b cb) as (p & Hp & Hr); [done..|]. exists n, p. split_and!; [done| |done..].
      eapply tc_l; [by exists c|done].
    + destruct (IH cb cg) as (a & p & Ha & Hag & Hp & Hr); [done..|]. exists a, p. split_and!; [|done..]. eapply rtc_l; [by exists c|done].
Qed.

(** ** Progress *)

Lemma chain_above s m d held k : inv s → chain (counters s) ((m, d) :: held) → k ∈ held.*1 → (m < k)%nat.
Proof.
  intros Hinv. revert m d. induction held as [|[k0 e] held IH]; intros m d Hch Hk; [by apply not_elem_of_nil in Hk|].
  destruct Hch as [(c & _ & cm & Hcm & Hs) Hch]. destruct (inv_tree s Hinv _ _ _ Hcm Hs) as [Hlt _].
  cbn in Hk. apply elem_of_cons in Hk as [->|Hk]; [done|]. specialize (IH _ _ Hch Hk). lia.
Qed.

Lemma raising_above s held n o k : inv s → Raising held n o ∈ goroutines s → k ∈ held.*1 → (n < k)%nat.
Proof.
  intros Hinv Hp Hk. destruct (inv_pc s Hinv _ Hp) as [Hch Hh]. destruct held as [|[m d] held]; [by apply not_elem_of_nil in Hk|].
  destruct Hh as (c & Hc & Hs & _). destruct (inv_tree s Hinv _ _ _ Hc Hs) as [Hlt _].
  cbn in Hk. apply elem_of_cons in Hk as [->|Hk]; [done|]. pose proof (chain_above s m d held k Hinv Hch Hk). lia.
Qed.

Definition can_step (s : state) : Prop := ∃ i s', go_step i s s'.

#[global] Instance locked_dec s n : Decision (locked s n).
Proof.
  refine (cast_if (decide (Exists (λ p, n ∈ locks p) (goroutines s)))); unfold locked; by rewrite <-Exists_exists.
Defined.

Lemma raising_steps s held n o :
  inv s → Raising held n o ∈ goroutines s → ¬ locked s n → can_step s.
Proof.
  intros Hinv Hp Hf. pose proof Hp as [i Hi]%list_elem_of_lookup.
  assert (is_Some (counters s !! n)) as [c Hc].
  { destruct (inv_pc s Hinv _ Hp) as [Hch Hh]. destruct held as [|[m d] held].
    - destruct Hh as (c & Hc & _). by exists c.
    - destruct Hh as (c & Hc & Hs & _). destruct (inv_tree s Hinv _ _ _ Hc Hs) as (_ & cg & ? & _). by exists cg. }
  destruct (update n c o held) as [c' p] eqn:Eu. eexists i, _. by eapply step_lock.
Qed.

(** Who has locked a counter can go on, or waits for one further up. *)
Lemma locked_steps s n : inv s → locked s n → can_step s.
Proof.
  intros Hinv. induction (lt_wf n) as [n _ IH]. intros (p & Hp & Hn). pose proof Hp as [i Hi]%list_elem_of_lookup.
  destruct p as [|held m o|held|m d held| |]; cbn in Hn; try by apply not_elem_of_nil in Hn.
  - destruct (decide (locked s m)) as [Hl|Hl]; [|by eapply raising_steps].
    apply (IH m); [|done]. by eapply raising_above.
  - destruct held as [|[m d] held]; [by apply not_elem_of_nil in Hn|]. eexists i, _. by apply step_unlock.
  - eexists i, _. by apply step_broadcast.
Qed.

Definition resting (p : counter_pc) : Prop := match p with Idle | Parked _ _ => True | _ => False end.

Lemma active_steps s p : inv s → p ∈ goroutines s → ¬ resting p → can_step s.
Proof.
  intros Hinv Hp Hr. pose proof Hp as [i Hi]%list_elem_of_lookup. pose proof (inv_pc s Hinv p Hp) as Hok.
  destruct p as [|held m o|held|m d held|m c|]; try done.
  - destruct (decide (locked s m)) as [Hl|Hl]; [by eapply locked_steps|by eapply raising_steps].
  - destruct held as [|[m d] held]; [by destruct Hok|]. eexists i, _. by apply step_unlock.
  - eexists i, _. by apply step_broadcast.
  - destruct (decide (locked s m)) as [Hl|Hl]; [by eapply locked_steps|]. destruct Hok as [k Hk]. eexists i, _. by eapply step_test.
Qed.

(** ** Termination *)

(** [k] is more than the number of goroutines, all of which a broadcast may wake. *)
Definition weight (k : Z) (p : counter_pc) : Z :=
  match p with
  | Idle | Parked _ _ => 0
  | Testing _ _ => 1
  | Leaving held => k * (2 * len held)
  | Signalling _ _ held => k * (2 * len held + 1)
  | Raising held n _ => k * (2 * len held + 3 * (Z.of_nat n + 1))
  end.

Definition measure (s : state) : Z := zsum (weight (len (goroutines s) + 1)) (goroutines s).

Lemma weight_nonneg k p : 0 ≤ k → 0 ≤ weight k p.
Proof. destruct p; cbn; unfold len; nia. Qed.

Lemma measure_nonneg s : 0 ≤ measure s.
Proof.
  unfold measure. assert (0 ≤ len (goroutines s) + 1) as Hk by (unfold len; lia).
  generalize dependent (len (goroutines s) + 1). intros k Hk. induction (goroutines s) as [|p gs IH]; [done|]. cbn.
  pose proof (weight_nonneg k p Hk). lia.
Qed.

Lemma measure_insert gs i p p' k :
  gs !! i = Some p → weight k p' < weight k p → zsum (weight k) (<[i:=p']> gs) < zsum (weight k) gs.
Proof. intros Hi Hw. rewrite (zsum_insert _ _ _ _ _ Hi). lia. Qed.

Lemma measure_broadcast k n d gs : zsum (weight k) (Broadcast n d <$> gs) ≤ zsum (weight k) gs + len gs.
Proof.
  unfold len. induction gs as [|p gs IH]; [done|]. cbn [fmap list_fmap zsum length].
  assert (weight k (Broadcast n d p) ≤ weight k p + 1); [|lia].
  destruct p as [| | | | |m c]; cbn; try lia. destruct (wakes n d m c); cbn; lia.
Qed.

Lemma leave_weight k held : weight k (leave held) = k * (2 * len held).
Proof. destruct held; cbn; unfold len; cbn; lia. Qed.

Lemma update_weight k s i held n o c c' p :
  inv s → goroutines s !! i = Some (Raising held n o) → counters s !! n = Some c → update n c o held = (c', p) → 0 < k →
  weight k p < weight k (Raising held n o).
Proof.
  intros Hinv Hi Hc Hu Hk. unfold update, notifySubscribers in Hu. pose proof (inv_tree s Hinv n c) as Ht.
  assert (weight k p = k * (2 * (len held + 1)) ∨ ∃ g, (g < n)%nat ∧ weight k p = k * (2 * (len held + 1) + 3 * (Z.of_nat g + 1))) as H.
  { assert (∀ x, len (x :: held) = len held + 1) as Hlen by (intros x; unfold len; cbn [length]; lia).
    destruct (apply o (value c) =? value c); simplify_eq; [left; cbn [weight]; by rewrite Hlen|].
    destruct (subscriber c) as [g|] eqn:Es; [|left; cbn [weight]; by rewrite Hlen]. destruct (Ht g Hc eq_refl) as [Hlt _].
    destruct (value c =? 0); [right; exists g; cbn [weight]; by rewrite Hlen|].
    destruct (apply o (value c) =? 0); [right; exists g; cbn [weight]; by rewrite Hlen|left; cbn [weight]; by rewrite Hlen]. }
  cbn [weight]. unfold len in *. destruct H as [->|(g & Hg & ->)]; nia.
Qed.

(** Each step of a goroutine brings the others and itself nearer to the end. *)
Lemma go_step_measure i s s' : inv s → go_step i s s' → measure s' < measure s.
Proof.
  intros Hinv [held n o c c' p Hi Hfree Hc Hu|n d held Hi|n d held Hi|n c k Hi Hfree Hk]; unfold measure; cbn [goroutines set_pc].
  all: unfold len; rewrite ?length_insert, ?length_fmap; fold (len (goroutines s)).
  - eapply measure_insert; [done|]. eapply update_weight; [done..|]. unfold len. lia.
  - eapply measure_insert; [done|]. cbn [weight]. unfold len. cbn. nia.
  - assert ((Broadcast n d <$> goroutines s) !! i = Some (Signalling n d held)) as Hi' by (by rewrite list_lookup_fmap, Hi).
    rewrite (zsum_insert _ _ _ _ _ Hi'), leave_weight. cbn [weight].
    pose proof (measure_broadcast (len (goroutines s) + 1) n d (goroutines s)). unfold len in *. nia.
  - eapply measure_insert; [done|]. cbn. destruct (satisfied c (value k)); cbn; lia.
Qed.

Lemma runs_bounded k s s' : inv s → nsteps (λ a b, ∃ i, go_step i a b) k s s' → inv s' ∧ Z.of_nat k ≤ measure s - measure s'.
Proof.
  intros Hinv Hs. induction Hs as [s|k s1 s2 s3 [i H12] _ IH]; [split; [done|lia]|].
  destruct IH as [? ?]; [by eapply go_step_inv|]. pose proof (go_step_measure i s1 s2 Hinv H12). split; [done|lia].
Qed.

(** Group counters are never negative. *)
Lemma group_nonneg s g c : inv s → counters s !! g = Some c → is_pool c = false → 0 ≤ value c.
Proof.
  intros Hinv Hg Hp. rewrite (inv_count s Hinv g c Hg Hp). clear. induction (counters s) as [|k cs IH]; [done|]. cbn.
  pose proof (child_told_nonneg g k). lia.
Qed.

(** Where no goroutine can go on, each is idle or sleeps in a wait whose condition does not hold. *)
Lemma stuck_rests s :
  inv s → (¬ ∃ i s', go_step i s s') → ∀ p, p ∈ goroutines s →
    p = Idle ∨ ∃ m w c, p = Parked m w ∧ counters s !! m = Some c ∧ satisfied w (value c) = false.
Proof.
  intros Hinv Hstuck. assert (∀ q, q ∈ goroutines s → resting q) as Hrest.
  { intros q Hq. destruct q eqn:Eq; try done; exfalso; apply Hstuck; (eapply active_steps; [done|exact Hq|by intros []]). }
  intros p Hp. pose proof (Hrest p Hp) as Hres. destruct p as [| | | | |m w]; try done; [by left|right].
  destruct (inv_pc s Hinv _ Hp) as [c Hc]. exists m, w, c. split_and!; [done..|].
  destruct (satisfied w (value c)) eqn:Es; [|done]. destruct (inv_wake s Hinv m w c Hp Hc Es) as (q & d & Hq & Hd & _).
  specialize (Hrest q Hq). destruct q; try done; by apply not_elem_of_nil in Hd.
Qed.

Lemma zsum_positive {A} (f : A → Z) l : 0 < zsum f l → ∃ i a, l !! i = Some a ∧ 0 < f a.
Proof.
  induction l as [|a l IH]; cbn; [lia|]. intros H. destruct (decide (0 < f a)) as [Ha|Ha]; [by exists 0%nat, a|].
  destruct IH as (i & b & ? & ?); [lia|]. by exists (S i), b.
Qed.

(** Where no goroutine can go on, a group that is not zero has a pool with tasks below it. *)
Lemma stuck_busy_pool s :
  inv s → (¬ ∃ i s', go_step i s s') → ∀ fuel g c, (length (counters s) - g ≤ fuel)%nat →
  counters s !! g = Some c → is_pool c = false → 0 < value c →
  ∃ m k, under (counters s) m g ∧ counters s !! m = Some k ∧ is_pool k = true ∧ value k ≠ 0.
Proof.
  intros Hinv Hstuck. induction fuel as [|fuel IH]; intros g c Hf Hg Hp Hv; pose proof (lookup_lt_Some _ _ _ Hg); [lia|].
  rewrite (inv_count s Hinv g c Hg Hp) in Hv. apply zsum_positive in Hv as (d & k & Hd & Hk). unfold child_told in Hk.
  destruct (decide (subscriber k = Some g)) as [Hs|]; [|lia]. destruct (told k) eqn:Ht; [|lia].
  destruct (inv_tree s Hinv d k g Hd Hs) as [Hlt _].
  assert (value k ≠ 0) as Hne.
  { intros Hz. destruct (inv_told s Hinv d k Hd) as (q & Hq & Hrep); [by rewrite Hs|by rewrite Ht; unfold busy; rewrite Hz|].
    destruct (stuck_rests s Hinv Hstuck q Hq) as [->|(? & ? & ? & -> & _)]; done. }
  assert (child (counters s) d g) as Hch by (by exists k). destruct (is_pool k) eqn:Ek.
  - exists d, k. split_and!; [by apply tc_once|done..].
  - destruct (IH d k) as (m & km & Hu & ?); [lia|done|done|pose proof (group_nonneg s d k Hinv Hd Ek); lia|].
    exists m, km. split; [|done]. eapply tc_r; [exact Hu|done].
Qed.

(** Runs of the goroutines are finite. *)
Lemma runs_end s : inv s → ∃ bound, ∀ k s', nsteps (λ a b, ∃ i, go_step i a b) k s s' → (k ≤ bound)%nat.
Proof.
  intros Hinv. exists (Z.to_nat (measure s)). intros k s' [_ Hk]%runs_bounded; [|done]. pose proof (measure_nonneg s'). lia.
Qed.

(** ** Theorems *)

(** C15: the counters of groups, in every interleaving of updates of worker pools, waits,
    and the creation of pools and groups. A group counts its pools and subgroups that are
    not zero, when no goroutine is on its way to tell the group of one of them (whatever
    goes on elsewhere), and its counter is never negative. When the counter of a group is
    zero, which is what [WaitChildren] and [WaitParents] wait for, then every pool and group
    below it, at any depth, is zero, unless the change that made it busy is not over: a
    goroutine is telling the next group of it, on the way up to that group. *)
Theorem Group_counters n s :
  reachable n s →
  (∀ g c, counters s !! g = Some c → is_pool c = false →
    (∀ p m b k, p ∈ goroutines s → reporting p = Some (m, b) → counters s !! m = Some k → subscriber k ≠ Some g) →
    value c = zsum (child_busy g) (counters s)) ∧
  (∀ g cg, counters s !! g = Some cg → is_pool cg = false → 0 ≤ value cg) ∧
  (∀ g cg m c, counters s !! g = Some cg → value cg = 0 → counters s !! m = Some c → under (counters s) m g → value c ≠ 0 →
    ∃ a p, rtc (child (counters s)) m a ∧ under (counters s) a g ∧ p ∈ goroutines s ∧ reporting p = Some (a, true)).
Proof.
  intros Hr. pose proof (pool_reachable_inv n s Hr) as Hinv. split_and!.
  - intros g c Hg Hp Hq. rewrite (inv_count s Hinv g c Hg Hp). apply zsum_ext. intros i k Hk.
    unfold child_told, child_busy. destruct (decide (subscriber k = Some g)) as [Hs|]; [|done].
    destruct (decide (told k = busy k)) as [->|Hne]; [done|].
    destruct (inv_told s Hinv i k Hk ltac:(by rewrite Hs) Hne) as (p & Hin & Hrep).
    by destruct (Hq p i _ k Hin Hrep Hk).
  - intros g cg Hg Hp. by eapply group_nonneg.
  - intros g cg m c Hg Hz Hm Hu Hv. by eapply under_reports.
Qed.

(** C16: calls on counters end.  Although a counter calls its subscribers with its
    mutex held, there is no deadlock and no wake-up is lost: without new calls every
    run of the goroutines is finite, and where none of them can go on, each is
    idle, or sleeps in a wait whose condition does not hold. *)
Theorem Counter_calls_end n s :
  reachable n s →
  (∃ bound, ∀ k s', nsteps (λ a b, ∃ i, go_step i a b) k s s' → (k ≤ bound)%nat) ∧
  ((¬ ∃ i s', go_step i s s') → ∀ p, p ∈ goroutines s →
    p = Idle ∨ ∃ m w c, p = Parked m w ∧ counters s !! m = Some c ∧ satisfied w (value c) = false).
Proof.
  intros Hr. pose proof (pool_reachable_inv n s Hr) as Hinv. split; [by apply runs_end|by apply stuck_rests].
Qed.

(** ** A run *)

(** A group, its subgroup and a pool of that, which has got its first task and has not yet told its group. *)
Definition telling : state :=
  mkState [mkCounter 0 None false false; mkCounter 0 (Some 0%nat) false false; mkCounter 1 (Some 1%nat) true false]
    [Raising [(2%nat, 1)] 1 (OUpdate 1)].

Lemma telling_reachable : reachable 1 telling.
Proof.
  eapply rtc_l; [right; apply call_new|]. eapply rtc_l; [right; by eapply (call_create _ 0 _ false)|].
  eapply rtc_l; [right; by eapply (call_create _ 1 _ true)|]. eapply rtc_l; [right; by eapply (call_update _ 0 2 _ (OUpdate 1))|].
  apply rtc_once. left. exists 0%nat.
  eapply (step_lock 0 (mkState [NewCounter None false; NewCounter (Some 0%nat) false; NewCounter (Some 1%nat) true]
    [Raising [] 2 (OUpdate 1)]) [] 2 (OUpdate 1)); [done| |done|done].
  intros (p & ->%list_elem_of_singleton & Hn). by apply not_elem_of_nil in Hn.
Qed.

Lemma Group_counters_witness :
  reachable 1 telling ∧
  ∃ a p, rtc (child (counters telling)) 2%nat a ∧ under (counters telling) a 0%nat ∧ p ∈ goroutines telling ∧ reporting p = Some (a, true).
Proof.
  split; [apply telling_reachable|]. destruct (Group_counters 1 telling telling_reachable) as (_ & _ & H).
  eapply H; [reflexivity|reflexivity|reflexivity| |done].
  eapply tc_l; [|apply tc_once]; by eexists.
Defined.

Lemma Counter_calls_end_witness :
  reachable 1 telling ∧ ∃ bound, ∀ k s', nsteps (λ a b, ∃ i, go_step i a b) k telling s' → (k ≤ bound)%nat.
Proof. split; [apply telling_reachable|]. apply (Counter_calls_end 1 telling telling_reachable). Defined.
