(* ===== verification/GroupRegistry.v ===== *)
(** * runtime/workerpool: the registry of groups

    [src/runtime/workerpool/group.go]: the pools and subgroups of a group and its
    shutdown.  Groups and pools are pointers: places in [all_groups] and
    [all_pools].  Of a worker pool only whether it is running matters here
    (WorkerPool.v); the counters of groups are in PoolGroup.v, and GroupShutdown.v
    puts the two together, with the wait at the beginning of [Shutdown].  The ordered
    maps are the association lists of OrderedMap.v. *)

From stdpp Require Import strings.
From S2P Require Import Prelude OrderedMap.

Record Pool : Type := mkPool { pool_name : string; isRunning : bool }.

Record Group : Type := mkGroup {
  name : string;
  pools : list (string * nat);
  groups : list (string * nat);
  root : option nat;
  isShutdown : bool;
}.

Record registry : Type := mkRegistry { all_groups : list Group; all_pools : list Pool }.

Definition at_group (r : registry) (g : nat) : outcome Group :=
  match all_groups r !! g with Some x => Ret x | None => Panic "nil pointer dereference" end.

Definition set_group (r : registry) (g : nat) (x : Group) : registry :=
  mkRegistry (<[g:=x]> (all_groups r)) (all_pools r).

Definition NewGroup (r : registry) (n : string) : registry * nat :=
  (mkRegistry (all_groups r ++ [mkGroup n [] [] None false]) (all_pools r), length (all_groups r)).

(** [Start] and [Shutdown] of a pool. *)
Definition set_running (r : registry) (p : nat) (b : bool) : registry :=
  mkRegistry (all_groups r) (alter (λ x, mkPool (pool_name x) b) p (all_pools r)).

Definition running (r : registry) (p : nat) : bool := from_option isRunning false (all_pools r !! p).

Definition CreatePool (r : registry) (g : nat) (n : string) : outcome (registry * nat) :=
  x ← at_group r g;
  let p := length (all_pools r) in
  let r' := mkRegistry (all_groups r) (all_pools r ++ [mkPool n false]) in
  let previousPool := al_get n (pools x) in
  let r' := set_group r' g (mkGroup (name x) (al_set n p (pools x)) (groups x) (root x) (isShutdown x)) in
  if from_option (running r) false previousPool then Panic "running pool '%s' already exists"
  else Ret (set_running r' p true, p).

Definition Pool_ (r : registry) (g : nat) (n : string) : outcome (option nat) :=
  x ← at_group r g; Ret (al_get n (pools x)).

Definition Root (r : registry) (g : nat) : outcome nat :=
  x ← at_group r g; Ret (default g (root x)).

Definition IsShutdown (r : registry) (g : nat) : outcome bool :=
  x ← at_group r g; Ret (isShutdown x).

Definition CreateGroup (r : registry) (g : nat) (n : string) : outcome (registry * nat) :=
  x ← at_group r g;
  rt ← Root r g;
  let k := length (all_groups r) in
  let r' := mkRegistry (all_groups r ++ [mkGroup n [] [] (Some rt) false]) (all_pools r) in
  let r' := set_group r' g (mkGroup (name x) (pools x) (al_set n k (groups x)) (root x) (isShutdown x)) in
  match al_get n (groups x) with
  | Some previousGroup =>
      shut ← IsShutdown r previousGroup;
      if (shut : bool) then Ret (r', k) else Panic "running group '%s' already exists"
  | None => Ret (r', k)
  end.

Definition Group_ (r : registry) (g : nat) (n : string) : outcome (option nat) :=
  x ← at_group r g; Ret (al_get n (groups x)).

(** The fuel is the number of groups: a subgroup is created after its group. *)
Fixpoint Pools (fuel : nat) (r : registry) (g : nat) : outcome (gmap string nat) :=
  match fuel with
  | O => Panic "fuel"
  | S fuel =>
      x ← at_group r g;
      let qualified n := name x +:+ "." +:+ n in
      let ps := foldl (λ ps '(n, p), <[qualified n := p]> ps) ∅ (pools x) in
      foldl (λ ps '(_, sub), ps ← ps; sub_pools ← Pools fuel r sub;
               Ret (map_fold (λ n p ps, <[qualified n := p]> ps) ps sub_pools)) (Ret ps) (groups x)
  end.

Fixpoint shutdown (fuel : nat) (r : registry) (g : nat) : outcome registry :=
  match fuel with
  | O => Panic "fuel"
  | S fuel =>
      x ← at_group r g;
      let r := set_group r g (mkGroup (name x) (pools x) (groups x) (root x) true) in
      if isShutdown x then Ret r
      else
        let r := foldl (λ r '(_, p), set_running r p false) r (pools x) in
        foldl (λ r '(_, sub), r ← r; shutdown fuel r sub) (Ret r) (groups x)
  end.

(** [shutdown] with enough fuel; [Shutdown], which waits before it, is in
    GroupShutdown.v. *)
Definition shutdown_group (r : registry) (g : nat) : outcome registry := shutdown (length (all_groups r)) r g.

(** ** The tree below a group *)

Inductive below (r : registry) (g : nat) : nat → Prop :=
  | below_refl : below r g g
  | below_sub h x n sub : below r g h → all_groups r !! h = Some x → (n, sub) ∈ groups x → below r g sub.

Definition pool_below (r : registry) (g p : nat) : Prop :=
  ∃ h x n, below r g h ∧ all_groups r !! h = Some x ∧ (n, p) ∈ pools x.

Definition shut (r : registry) (g : nat) : bool := from_option isShutdown false (all_groups r !! g).

(** Pointers lead to what was created later. *)
Record wf (r : registry) : Prop := {
  wf_groups g x n sub : all_groups r !! g = Some x → (n, sub) ∈ groups x → (g < sub < length (all_groups r))%nat;
  wf_pools g x n p : all_groups r !! g = Some x → (n, p) ∈ pools x → (p < length (all_pools r))%nat;
  wf_root g x rt : all_groups r !! g = Some x → root x = Some rt →
    ∃ y, all_groups r !! rt = Some y ∧ root y = None;
}.

(** What is in a group that was shut down is stopped, but for the groups of [open]. *)
Definition stopped_in (r : registry) (x : Group) : Prop :=
  (∀ n p, (n, p) ∈ pools x → running r p = false) ∧ (∀ n sub, (n, sub) ∈ groups x → shut r sub = true).

Definition closed_but (open : list nat) (r : registry) : Prop :=
  ∀ g x, g ∉ open → all_groups r !! g = Some x → isShutdown x = true → stopped_in r x.

(** [r'] is [r] with more groups shut down and more pools stopped. *)
Record stops (r r' : registry) : Prop := {
  stops_group g x : all_groups r !! g = Some x →
    ∃ b, all_groups r' !! g = Some (mkGroup (name x) (pools x) (groups x) (root x) b) ∧ (isShutdown x = true → b = true);
  stops_groups : length (all_groups r') = length (all_groups r);
  stops_pools : length (all_pools r') = length (all_pools r);
  stops_running p : running r' p = true → running r p = true;
}.

Lemma stops_refl r : stops r r.
Proof. constructor; [|done..]. intros g [] Hg. by eexists. Qed.

Lemma stops_trans r1 r2 r3 : stops r1 r2 → stops r2 r3 → stops r1 r3.
Proof.
  intros [A1 A2 A3 A4] [B1 B2 B3 B4]. constructor; [|congruence|congruence|auto].
  intros g x Hg. destruct (A1 g x Hg) as (b & Hb & Hs). destruct (B1 g _ Hb) as (b' & Hb' & Hs'). exists b'. split; [done|]. cbn in *. auto.
Qed.

Lemma stops_shut r r' g : stops r r' → shut r g = true → shut r' g = true.
Proof.
  intros Hs. unfold shut. destruct (all_groups r !! g) as [x|] eqn:E; [|done]. cbn. intros Hx.
  destruct (stops_group r r' Hs g x E) as (b & -> & Hb). cbn. auto.
Qed.

Lemma stops_back r r' g x' : stops r r' → all_groups r' !! g = Some x' →
  ∃ x, all_groups r !! g = Some x ∧ pools x' = pools x ∧ groups x' = groups x ∧ root x' = root x.
Proof.
  intros Hs Hg. destruct (all_groups r !! g) as [x|] eqn:E.
  - destruct (stops_group r r' Hs g x E) as (b & Hb & _). simplify_eq. by exists x.
  - apply lookup_ge_None in E. apply lookup_lt_Some in Hg. rewrite (stops_groups r r' Hs) in Hg. lia.
Qed.

Lemma stops_in r r' x : stops r r' → stopped_in r x → stopped_in r' x.
Proof.
  intros Hs [Hp Hg]. split.
  - intros n p Hin. specialize (Hp n p Hin). destruct (running r' p) eqn:E; [|done]. apply (stops_running r r' Hs) in E. congruence.
  - intros n sub Hin. eapply stops_shut; [done|]. by eapply Hg.
Qed.

Lemma stops_below r r' g h : stops r r' → below r' g h → below r g h.
Proof.
  intros Hs. induction 1 as [|h x n sub _ IH Hh Hin]; [constructor|].
  destruct (stops_back r r' h x Hs Hh) as (x0 & Hx0 & _ & Hgr & _). eapply below_sub; [done..|]. by rewrite <-Hgr.
Qed.

Lemma stops_wf r r' : stops r r' → wf r → wf r'.
Proof.
  intros Hs [H1 H2 H3]. constructor.
  - intros g x n sub Hg Hin. destruct (stops_back r r' g x Hs Hg) as (x0 & Hx0 & _ & Hgr & _). rewrite (stops_groups r r' Hs).
    eapply H1; [done|]. by rewrite <-Hgr.
  - intros g x n p Hg Hin. destruct (stops_back r r' g x Hs Hg) as (x0 & Hx0 & Hp & _). rewrite (stops_pools r r' Hs).
    eapply H2; [done|]. by rewrite <-Hp.
  - intros g x rt Hg Hrt. destruct (stops_back r r' g x Hs Hg) as (x0 & Hx0 & _ & _ & Hr). rewrite Hr in Hrt.
    destruct (H3 g x0 rt Hx0 Hrt) as (y & Hy & Hn). destruct (stops_group r r' Hs rt y Hy) as (b & Hb & _). by eexists.
Qed.

(** Only pools below [g] were stopped. *)
Definition only_below (r r' : registry) (g : nat) : Prop :=
  ∀ p, running r p = true → running r' p = false → pool_below r g p.

(** ** Shutdown *)

Lemma running_set r p b q : running (set_running r p b) q = if decide (p = q) then bool_decide (q < length (all_pools r))%nat && b else running r q.
Proof.
  unfold running, set_running. cbn. destruct (decide (p = q)) as [->|Hne].
  - rewrite list_lookup_alter_eq. destruct (all_pools r !! q) eqn:E; cbn.
    + apply lookup_lt_Some in E. by rewrite bool_decide_true.
    + apply lookup_ge_None in E. by rewrite bool_decide_false by lia.
  - by rewrite list_lookup_alter_ne.
Qed.

Lemma stop_pools ps : ∀ r,
  let r' := foldl (λ r '(_, p), set_running r p false) r ps in
  stops r r' ∧ (∀ n p, (n, p) ∈ ps → running r' p = false) ∧ all_groups r' = all_groups r ∧
  (∀ p, running r p = true → running r' p = false → ∃ n : string, (n, p) ∈ ps).
Proof.
  induction ps as [|[n p] ps IH]; intros r; cbn.
  - split_and!; [apply stops_refl|by intros n p ?%not_elem_of_nil|done|]. intros p ? ?. congruence.
  - destruct (IH (set_running r p false)) as (Hs & Hp & Hg & Ho).
    assert (stops r (set_running r p false)) as Hs0.
    { constructor; cbn; [|done|by rewrite length_alter|].
      - intros g x Hx. exists (isShutdown x). split; [by destruct x|done].
      - intros q. rewrite running_set. destruct (decide (p = q)); [by rewrite andb_false_r|done]. }
    split_and!; [by eapply stops_trans| |done|].
    + intros m q [Heq|Hin]%elem_of_cons; [|by eapply Hp]. assert (q = p) as -> by congruence. destruct (running _ p) eqn:E; [|done].
      apply (stops_running _ _ Hs) in E. rewrite running_set, decide_True in E by done. by rewrite andb_false_r in E.
    + intros q Hq Hq'. destruct (decide (p = q)) as [->|Hne]; [exists n; left|].
      destruct (Ho q) as [m Hm]; [by rewrite running_set, decide_False|done|]. exists m. by right.
Qed.

Lemma set_shut_stops r g x :
  all_groups r !! g = Some x → stops r (set_group r g (mkGroup (name x) (pools x) (groups x) (root x) true)).
Proof.
  intros Hg. constructor; cbn; [|by rewrite length_insert|done..]. intros h y Hy. destruct (decide (g = h)) as [<-|Hne].
  - exists true. rewrite list_lookup_insert_eq by (by eapply lookup_lt_Some). simplify_eq. done.
  - exists (isShutdown y). rewrite list_lookup_insert_ne by done. split; [rewrite Hy; by destruct y|done].
Qed.

Lemma closed_but_stops open r r' :
  stops r r' → closed_but open r → (∀ h, h ∉ open → shut r' h = true → shut r h = true) → closed_but open r'.
Proof.
  intros Hs Hc Hsh h x Hh Hx Hix. destruct (stops_back r r' h x Hs Hx) as (x0 & Hx0 & Hp & Hg & _).
  assert (stopped_in r' x0) as [H1 H2].
  { eapply stops_in; [done|]. eapply (Hc h); [done..|]. specialize (Hsh h Hh). unfold shut in Hsh. rewrite Hx0, Hx in Hsh. cbn in Hsh. auto. }
  split; [by rewrite Hp|by rewrite Hg].
Qed.

Lemma below_trans r a b c : below r a b → below r b c → below r a c.
Proof. intros Hab. induction 1 as [|h x n sub _ IH Hh Hin]; [done|]. by eapply below_sub. Qed.

(** What the recursion does to one group, with the groups of [open] under way. *)
Definition shuts (open : list nat) (r : registry) (g : nat) (m : outcome registry) : Prop :=
  ∃ r', m = Ret r' ∧ stops r r' ∧ closed_but open r' ∧ shut r' g = true ∧ only_below r r' g.

Lemma only_below_trans r1 r2 r3 g h :
  stops r1 r2 → only_below r1 r2 g → only_below r2 r3 h → below r1 g h → only_below r1 r3 g.
Proof.
  intros Hs H12 H23 Hgh p Hp Hp3. destruct (running r2 p) eqn:E; [|by apply H12].
  destruct (H23 p E Hp3) as (k & x & n & Hk & Hx & Hin). destruct (stops_back _ _ _ _ Hs Hx) as (x0 & Hx0 & Hpp & _).
  exists k, x0, n. split_and!; [|done|by rewrite <-Hpp]. eapply below_trans; [exact Hgh|]. by eapply stops_below.
Qed.

Lemma shutdown_subs fuel open g subs :
  (∀ r h, wf r → closed_but open r → (g < h < length (all_groups r))%nat → (length (all_groups r) - h ≤ fuel)%nat →
    shuts open r h (shutdown fuel r h)) →
  ∀ r, wf r → closed_but open r → (length (all_groups r) - S g ≤ fuel)%nat →
  (∀ (n : string) sub, (n, sub) ∈ subs → (g < sub < length (all_groups r))%nat) →
  (∀ n sub, (n, sub) ∈ subs → below r g sub) →
  ∃ r', foldl (λ r '(_, sub), r ← r; shutdown fuel r sub) (Ret r) subs = Ret r' ∧ stops r r' ∧ closed_but open r' ∧
    (∀ n sub, (n, sub) ∈ subs → shut r' sub = true) ∧ only_below r r' g.
Proof.
  intros IH. induction subs as [|[n sub] subs IHs]; intros r Hwf Hc Hf Hlt Hb.
  - exists r. split_and!; [done|apply stops_refl|done|by intros n sub ?%not_elem_of_nil|]. intros p ? ?. congruence.
  - cbn. destruct (Hlt n sub) as [Hl1 Hl2]; [left|]. destruct (IH r sub) as (r1 & E1 & Hs1 & Hc1 & Hsh1 & Ho1); [done..|lia|].
    rewrite E1. destruct (IHs r1) as (r2 & E2 & Hs2 & Hc2 & Hsh2 & Ho2).
    { by eapply stops_wf. } { done. } { by rewrite (stops_groups _ _ Hs1). }
    { intros m k Hin. rewrite (stops_groups _ _ Hs1). apply (Hlt m). by right. }
    { intros m k Hin. assert (below r g k) as Hk by (apply (Hb m); by right). clear -Hk Hs1. induction Hk as [|h x j k _ IHk Hh Hin]; [constructor|].
      destruct (stops_group _ _ Hs1 h x Hh) as (b & Hh' & _). by eapply below_sub. }
    exists r2. split_and!; [done|by eapply stops_trans|done| |].
    + intros m k [Heq|Hin]%elem_of_cons; [|by eapply Hsh2]. assert (k = sub) as -> by congruence. by eapply stops_shut.
    + eapply (only_below_trans r r1 r2 g g); [done| |done|constructor]. intros p Hp Hp1.
      destruct (Ho1 p Hp Hp1) as (k & x & m & Hk & Hx & Hin). exists k, x, m. split_and!; [|done..].
      eapply below_trans; [|done]. apply (Hb n). left.
Qed.

Lemma shutdown_ok fuel : ∀ open r g,
  wf r → closed_but open r → (∀ h, h ∈ open → (h < g)%nat) → (g < length (all_groups r))%nat →
  (length (all_groups r) - g ≤ fuel)%nat → shuts open r g (shutdown fuel r g).
Proof.
  induction fuel as [|fuel IH]; intros open r g Hwf Hc Hop Hg Hf; [lia|]. cbn.
  destruct (lookup_lt_is_Some_2 _ _ Hg) as [x Hx]. unfold at_group. rewrite Hx. cbn.
  pose proof (set_shut_stops r g x Hx) as Hs0. set (r0 := set_group _ _ _) in *.
  assert (all_groups r0 !! g = Some (mkGroup (name x) (pools x) (groups x) (root x) true)) as Hx0 by (by apply list_lookup_insert_eq).
  assert (∀ h, h ≠ g → shut r0 h = shut r h) as Hsame by (intros h Hh; unfold shut; cbn; by rewrite list_lookup_insert_ne).
  assert (shut r0 g = true) as Hg0 by (unfold shut; by rewrite Hx0).
  destruct (isShutdown x) eqn:Ex.
  { exists r0. split_and!; [done..| |done|intros p; unfold running; cbn; congruence].
    eapply closed_but_stops; [done..|]. intros h _ Hh. destruct (decide (h = g)) as [->|]; [|by rewrite <-Hsame].
    unfold shut. by rewrite Hx. }
  destruct (stop_pools (pools x) r0) as (Hs1 & Hp1 & Hg1 & Ho1). set (r1 := foldl _ _ _) in *.
  assert (stops r r1) as Hs01 by (by eapply stops_trans).
  assert (closed_but (g :: open) r1) as Hc1.
  { eapply (closed_but_stops _ r); [done|intros h y Hh; apply (Hc h); set_solver|]. intros h Hh Hsh.
    rewrite <-Hsame by set_solver. unfold shut in *. by rewrite Hg1 in Hsh. }
  destruct (shutdown_subs fuel (g :: open) g (groups x)) with (r := r1) as (r2 & E2 & Hs2 & Hc2 & Hsh2 & Ho2).
  - intros r' h Hwf' Hc' Hlt Hf'. apply IH; [done|done| |lia|done]. intros k [->|Hk%Hop]%elem_of_cons; lia.
  - by eapply stops_wf.
  - done.
  - rewrite (stops_groups _ _ Hs01). lia.
  - intros n sub Hin. rewrite (stops_groups _ _ Hs01). by eapply (wf_groups r Hwf).
  - intros n sub Hin. eapply below_sub; [constructor|by rewrite Hg1|done].
  - assert (stops r r2) as Hs02 by (by eapply stops_trans). exists r2. split_and!; [done|done| | |].
    + intros h y Hh Hy Hiy. destruct (decide (h = g)) as [->|Hne]; [|apply (Hc2 h); set_solver].
      destruct (stops_back _ _ _ _ Hs02 Hy) as (x' & ? & Hpp & Hgg & _). simplify_eq. split.
      * intros n p Hin. rewrite Hpp in Hin. specialize (Hp1 n p Hin). destruct (running r2 p) eqn:E; [|done].
        apply (stops_running _ _ Hs2) in E. congruence.
      * rewrite Hgg. apply Hsh2.
    + eapply stops_shut; [exact Hs2|]. eapply stops_shut; [exact Hs1|done].
    + eapply (only_below_trans r r1 r2 g g); [done| |done|constructor]. intros p Hp Hp'.
      destruct (Ho1 p) as [n Hin]; [done|done|]. exists g, x, n. split_and!; [constructor|done..].
Qed.

(** ** Runs *)

Inductive gop : Type :=
  | ONew (n : string)
  | OCreatePool (g : nat) (n : string)
  | OCreateGroup (g : nat) (n : string)
  | OStopPool (p : nat)
  | OShutdown (g : nat).

Definition gstep (r : registry) (o : gop) : outcome registry :=
  match o with
  | ONew n => Ret (NewGroup r n).1
  | OCreatePool g n => fst <$> CreatePool r g n
  | OCreateGroup g n => fst <$> CreateGroup r g n
  | OStopPool p => Ret (set_running r p false)
  | OShutdown g => shutdown_group r g
  end.

(** Nothing is created in a group that was shut down. *)
Definition allowed (r : registry) (o : gop) : Prop :=
  match o with OCreatePool g _ | OCreateGroup g _ => shut r g = false | _ => True end.

Inductive gruns : registry → Prop :=
  | gruns_start : gruns (mkRegistry [] [])
  | gruns_step r o r' : gruns r → allowed r o → gstep r o = Ret r' → gruns r'.

Lemma al_set_elem n v es (kv : string * nat) : kv ∈ al_set n v es → kv = (n, v) ∨ kv ∈ es.
Proof.
  unfold al_set. destruct (al_get n es).
  - intros (kv' & -> & Hin)%list_elem_of_fmap. destruct (decide (kv'.1 = n)); [by left|by right].
  - intros [Hin| ->%list_elem_of_singleton]%elem_of_app; [by right|by left].
Qed.

Definition reg_ok (r : registry) : Prop := wf r ∧ closed_but [] r.

(** A group or a pool is added, and the group [g], which is open, may get an entry. *)
Record extends (r r' : registry) (g : nat) : Prop := {
  ext_groups : (length (all_groups r) ≤ length (all_groups r'))%nat;
  ext_pools : (length (all_pools r) ≤ length (all_pools r'))%nat;
  ext_back h y : all_groups r' !! h = Some y →
    (∃ y0, all_groups r !! h = Some y0 ∧ root y = root y0 ∧ isShutdown y = isShutdown y0 ∧
      (h ≠ g ∧ pools y = pools y0 ∧ groups y = groups y0 ∨
       h = g ∧ isShutdown y = false ∧ (∀ n p, (n, p) ∈ pools y → (n, p) ∈ pools y0 ∨ (p < length (all_pools r'))%nat) ∧
         (∀ n k, (n, k) ∈ groups y → (n, k) ∈ groups y0 ∨ (h < k < length (all_groups r'))%nat))) ∨
    (pools y = [] ∧ groups y = [] ∧ isShutdown y = false ∧ (∀ rt, root y = Some rt → ∃ z, all_groups r' !! rt = Some z ∧ root z = None));
  ext_forth h y : all_groups r !! h = Some y → ∃ y', all_groups r' !! h = Some y' ∧ root y' = root y ∧ isShutdown y' = isShutdown y;
  ext_running p : (p < length (all_pools r))%nat → running r' p = running r p;
}.

Lemma extends_ok r r' g : extends r r' g → reg_ok r → reg_ok r'.
Proof.
  intros [E1 E2 E3 E4 E5] [[W1 W2 W3] Hc]. split; [constructor|].
  - intros h y n sub Hh Hin. destruct (E3 h y Hh) as [(y0 & Hy0 & _ & _ & [(_ & _ & Hg)|(-> & _ & _ & Hg)])|(_ & Hg & _)].
    + rewrite Hg in Hin. specialize (W1 h y0 n sub Hy0 Hin). lia.
    + destruct (Hg n sub Hin) as [Hin'|?]; [|done]. specialize (W1 g y0 n sub Hy0 Hin'). lia.
    + rewrite Hg in Hin. by apply not_elem_of_nil in Hin.
  - intros h y n p Hh Hin. destruct (E3 h y Hh) as [(y0 & Hy0 & _ & _ & [(_ & Hp & _)|(-> & _ & Hp & _)])|(Hp & _)].
    + rewrite Hp in Hin. specialize (W2 h y0 n p Hy0 Hin). lia.
    + destruct (Hp n p Hin) as [Hin'|?]; [|done]. specialize (W2 g y0 n p Hy0 Hin'). lia.
    + rewrite Hp in Hin. by apply not_elem_of_nil in Hin.
  - intros h y rt Hh Hrt. destruct (E3 h y Hh) as [(y0 & Hy0 & Hr & _)|(_ & _ & _ & Hr)]; [|by apply Hr].
    rewrite Hr in Hrt. destruct (W3 h y0 rt Hy0 Hrt) as (z & Hz & Hn). destruct (E4 rt z Hz) as (z' & ? & ? & _). exists z'. split; [done|congruence].
  - intros h y _ Hh Hi. destruct (E3 h y Hh) as [(y0 & Hy0 & _ & Hs & [(_ & Hp & Hg)|(_ & Hs' & _)])|(_ & _ & Hs & _)]; [|congruence..].
    rewrite Hs in Hi. destruct (Hc h y0) as [C1 C2]; [apply not_elem_of_nil|done..|]. rewrite <-Hp in C1. rewrite <-Hg in C2. split.
    + intros n p Hin. rewrite E5; [by eapply C1|]. rewrite Hp in Hin. by eapply W2.
    + intros n sub Hin. specialize (C2 n sub Hin). unfold shut in *. destruct (all_groups r !! sub) as [z|] eqn:Ez; [|done].
      destruct (E4 sub z Ez) as (z' & -> & _ & Hz). cbn in *. congruence.
Qed.

(** A new group at the end, of which the group [g] may know. *)
Lemma add_group_extends r g x n rt gs :
  all_groups r !! g = Some x → isShutdown x = false →
  (∀ q, rt = Some q → ∃ z, all_groups r !! q = Some z ∧ root z = None) →
  (∀ kv, kv ∈ gs → kv = (n, length (all_groups r)) ∨ kv ∈ groups x) →
  extends r (set_group (mkRegistry (all_groups r ++ [mkGroup n [] [] rt false]) (all_pools r)) g
    (mkGroup (name x) (pools x) gs (root x) (isShutdown x))) g.
Proof.
  intros Hg Hsh Hrt Hgs. pose proof (lookup_lt_Some _ _ _ Hg) as Hlt.
  assert (∀ h y, all_groups r !! h = Some y →
    ∃ y', <[g:=mkGroup (name x) (pools x) gs (root x) (isShutdown x)]> (all_groups r ++ [mkGroup n [] [] rt false]) !! h = Some y' ∧
      root y' = root y ∧ isShutdown y' = isShutdown y) as Hforth.
  { intros h y Hy. destruct (decide (g = h)) as [<-|Hne].
    - rewrite list_lookup_insert_eq by (rewrite length_app; cbn; lia). simplify_eq. by eexists.
    - rewrite list_lookup_insert_ne by done. exists y. split; [by apply lookup_app_l_Some|done]. }
  constructor; cbn; [rewrite length_insert, length_app; lia|lia| |done|done].
  intros h y [[-> ->]|[Hne Hh]]%lookup_insert_case.
  - left. exists x. split_and!; [done..|]. right. split_and!; [done|done| |]; cbn.
    + intros m p Hin. by left.
    + intros m k [[= -> ->]|?]%Hgs; [right|by left]. rewrite length_insert, length_app. cbn. lia.
  - apply lookup_snoc_Some in Hh as [Hh|[-> ->]].
    + left. exists y. split_and!; [done..|]. left. split_and!; done.
    + right. split_and!; [done..|]. intros q Hq. destruct (Hrt q Hq) as (z & Hz & Hn).
      destruct (Hforth q z Hz) as (z' & ? & ? & _). exists z'. split; [done|congruence].
Qed.

Lemma NewGroup_extends r n : extends r (NewGroup r n).1 (length (all_groups r)).
Proof.
  constructor; cbn; [rewrite length_app; lia|lia| | |done].
  - intros h y [Hh|[-> ->]]%lookup_snoc_Some; [|by right].
    left. exists y. split_and!; [done..|]. left. split_and!; [|done..]. apply lookup_lt_Some in Hh. lia.
  - intros h y Hh. exists y. split; [by apply lookup_app_l_Some|done].
Qed.

Lemma CreatePool_extends r g n r' p :
  shut r g = false → CreatePool r g n = Ret (r', p) → extends r r' g ∧ running r' p = true.
Proof.
  unfold CreatePool, at_group, shut. destruct (all_groups r !! g) as [x|] eqn:Hg; [|done]. cbn. intros Hsh.
  destruct (from_option (running r) false (al_get n (pools x))); [done|]. intros [= <- <-].
  pose proof (lookup_lt_Some _ _ _ Hg) as Hlt. split.
  - constructor; cbn; [by rewrite length_insert|rewrite length_alter, length_app; lia| | |].
    + intros h y [[-> ->]|[Hne Hh]]%lookup_insert_case; left.
      * exists x. split_and!; [done..|]. right. split_and!; [done|done| |]; cbn.
        -- intros m q [[= -> ->]|?]%al_set_elem; [right|by left]. rewrite length_alter, length_app. cbn. lia.
        -- intros m k Hin. by left.
      * exists y. split_and!; [done..|]. left. split_and!; done.
    + intros h y Hy. destruct (decide (g = h)) as [<-|Hne]; [|rewrite list_lookup_insert_ne by done; by exists y].
      rewrite list_lookup_insert_eq by done. simplify_eq. by eexists.
    + intros q Hq. rewrite running_set, decide_False by lia. unfold running. cbn. by rewrite lookup_app_l.
  - rewrite running_set, decide_True by done. cbn. rewrite bool_decide_true; [done|]. rewrite length_app. cbn. lia.
Qed.

Lemma CreateGroup_extends r g n r' k :
  wf r → shut r g = false → CreateGroup r g n = Ret (r', k) → extends r r' g.
Proof.
  intros Hwf. unfold CreateGroup, Root, at_group, shut. destruct (all_groups r !! g) as [x|] eqn:Hg; [|done]. cbn. intros Hsh Hc.
  assert (r' = set_group (mkRegistry (all_groups r ++ [mkGroup n [] [] (Some (default g (root x))) false]) (all_pools r)) g
    (mkGroup (name x) (pools x) (al_set n (length (all_groups r)) (groups x)) (root x) (isShutdown x))) as ->.
  { destruct (al_get n (groups x)); [|by simplify_eq]. destruct (IsShutdown r _) as [b|]; [|done]. cbn in Hc. destruct b; by simplify_eq. }
  apply add_group_extends; [done..| |].
  - intros q [= <-]. destruct (root x) as [rt|] eqn:Er; cbn; [by eapply (wf_root r Hwf)|by exists x].
  - intros kv. apply al_set_elem.
Qed.

Lemma gstep_ok r o r' : allowed r o → gstep r o = Ret r' → reg_ok r → reg_ok r'.
Proof.
  intros Ha Hs Hok. pose proof Hok as [Hwf Hc]. destruct o as [n|g n|g n|p|g]; cbn in Hs.
  - simplify_eq. eapply extends_ok; [apply NewGroup_extends|done].
  - destruct (CreatePool r g n) as [[r1 p]|] eqn:E; simplify_eq/=. eapply extends_ok; [by eapply CreatePool_extends|done].
  - destruct (CreateGroup r g n) as [[r1 k]|] eqn:E; simplify_eq/=. eapply extends_ok; [by eapply CreateGroup_extends|done].
  - simplify_eq. destruct (stop_pools [(EmptyString, p)] r) as (Hst & _ & Hg & _). cbn in Hst. split; [by eapply stops_wf|].
    eapply closed_but_stops; [done..|]. done.
  - unfold shutdown_group in Hs. destruct (decide (g < length (all_groups r))%nat) as [Hlt|Hge].
    + destruct (shutdown_ok (length (all_groups r)) [] r g) as (r1 & E & Hst & Hc1 & _); [done|done| |done|lia|].
      * intros h Hh. by apply not_elem_of_nil in Hh.
      * assert (r1 = r') as -> by congruence. split; [by eapply stops_wf|done].
    + exfalso. destruct (length (all_groups r)) eqn:El; [done|]. cbn in Hs. unfold at_group in Hs.
      rewrite lookup_ge_None_2 in Hs by lia. done.
Qed.

Lemma gruns_ok r : gruns r → reg_ok r.
Proof. induction 1 as [|r o r' _ IH Ha Hs]; [|by eapply gstep_ok]. split; [by constructor|]. intros g x _ H. done. Qed.

Lemma closed_below r g h : closed_but [] r → shut r g = true → below r g h → shut r h = true ∧ ∀ x, all_groups r !! h = Some x → stopped_in r x.
Proof.
  intros Hc Hg Hb. assert (∀ h, shut r h = true → ∀ x, all_groups r !! h = Some x → stopped_in r x) as Hst.
  { intros k Hk x Hx. apply (Hc k); [apply not_elem_of_nil|done|]. unfold shut in Hk. by rewrite Hx in Hk. }
  induction Hb as [|h x n sub _ IH Hh Hin]; [split; [done|by apply Hst]|]. destruct IH as [_ IH]. destruct (IH x Hh) as [_ Hs].
  specialize (Hs n sub Hin). split; [done|by apply Hst].
Qed.

(** The recursion returns for every group that exists; then all groups below it are shut
    down, none of their pools is running, and no pool elsewhere was stopped. *)
Lemma shutdown_group_stops r g :
  gruns r → (g < length (all_groups r))%nat →
  ∃ r', shutdown_group r g = Ret r' ∧ stops r r' ∧
    (∀ h, below r g h → shut r' h = true) ∧
    (∀ p, pool_below r g p → running r' p = false) ∧
    (∀ p, running r p = true → running r' p = false → pool_below r g p).
Proof.
  intros Hr Hg. destruct (gruns_ok r Hr) as [Hwf Hc].
  destruct (shutdown_ok (length (all_groups r)) [] r g) as (r' & E & Hst & Hc' & Hsh & Ho); [done|done| |done|lia|].
  { intros h Hh. by apply not_elem_of_nil in Hh. }
  assert (∀ h, below r g h → below r' g h) as Hb.
  { induction 1 as [|h x n sub _ IH Hh Hin]; [constructor|]. destruct (stops_group _ _ Hst h x Hh) as (b & Hb & _). by eapply below_sub. }
  exists r'. split_and!; [done|done| | |done].
  - intros h Hh. apply (closed_below r' g h Hc' Hsh (Hb h Hh)).
  - intros p (h & x & n & Hh & Hx & Hin). destruct (closed_below r' g h Hc' Hsh (Hb h Hh)) as [_ Hs].
    destruct (stops_group _ _ Hst h x Hx) as (b & Hx' & _). by eapply (Hs _ Hx').
Qed.

(** ** Names of pools *)

Lemma Pools_subs fuel r g (q : string → string) subs :
  (∀ n sub, (n, sub) ∈ subs → ∃ m, Pools fuel r sub = Ret m ∧ ∀ k p, m !! k = Some p → pool_below r g p) →
  ∀ ps : gmap string nat, (∀ k p, ps !! k = Some p → pool_below r g p) →
  ∃ m, foldl (λ ps '(_, sub), ps ← ps; sub_pools ← Pools fuel r sub;
               Ret (map_fold (λ n p ps, <[q n := p]> ps) ps sub_pools)) (Ret ps) (subs : list (string * nat)) = Ret m ∧
    ∀ k p, m !! k = Some p → pool_below r g p.
Proof.
  induction subs as [|[n sub] subs IH]; intros Hsub ps Hps; [by exists ps|]. cbn.
  destruct (Hsub n sub) as (m & -> & Hm); [left|]. cbn. apply IH; [intros n' sub' Hin; apply (Hsub n'); by right|].
  revert Hm. apply (map_fold_weak_ind (λ acc m, (∀ k p, m !! k = Some p → pool_below r g p) → ∀ k p, acc !! k = Some p → pool_below r g p)).
  - done.
  - intros k0 p0 m0 acc Hk0 IHm Hm k p. rewrite lookup_insert_Some. intros [[_ <-]|[_ Hk]].
    + apply (Hm k0). apply lookup_insert_eq.
    + eapply IHm; [|done]. intros k' p' Hk'. apply (Hm k'). rewrite lookup_insert_ne; [done|]. intros ->. congruence.
Qed.

(** [Pools] returns, and what it returns are pools below the group. *)
Lemma Pools_below fuel r : wf r → ∀ g, (g < length (all_groups r))%nat → (length (all_groups r) - g ≤ fuel)%nat →
  ∃ m, Pools fuel r g = Ret m ∧ ∀ k p, m !! k = Some p → pool_below r g p.
Proof.
  intros Hwf. induction fuel as [|fuel IH]; intros g Hg Hf; [lia|]. cbn. unfold at_group.
  destruct (lookup_lt_is_Some_2 _ _ Hg) as [x Hx]. rewrite Hx. cbn. apply Pools_subs.
  - intros n sub Hin. pose proof (wf_groups r Hwf g x n sub Hx Hin). destruct (IH sub) as (m & E & Hm); [lia|lia|]. exists m. split; [done|].
    intros k p (h & y & nm & Hh & Hy & Hp)%Hm. exists h, y, nm. split_and!; [|done..]. eapply below_trans; [|done].
    eapply below_sub; [constructor|done..].
  - assert (∀ k p, (∅ : gmap string nat) !! k = Some p → pool_below r g p) as Hstart by (intros k p; by rewrite lookup_empty).
    assert (∀ n p, (n, p) ∈ pools x → pool_below r g p) as Hps by (intros n p Hin; exists g, x, n; split_and!; [constructor|done..]).
    revert Hstart. generalize (∅ : gmap string nat). induction (pools x) as [|[n p] ps IHp]; intros acc Hacc; [done|]. cbn.
    apply IHp; [intros m q Hin; apply (Hps m); by right|]. intros k q. rewrite lookup_insert_Some. intros [[_ <-]|[_ ?]]; [apply (Hps n); left|by eapply Hacc].
Qed.

(** A pool whose name has a dot hides a pool of a subgroup. *)
Lemma pool_names_collide :
  ∃ r, foldl (λ r o, r ← r; gstep r o) (Ret (mkRegistry [] []))
    [ONew "root"; OCreatePool 0 "sub.b"; OCreateGroup 0 "sub"; OCreatePool 1 "b"] = Ret r ∧
    pool_below r 0 0 ∧ pool_below r 0 1 ∧ map_to_list <$> Pools 2 r 0 = Ret [("root.sub.b", 1%nat)].
Proof.
  eexists. split; [reflexivity|]. split_and!; [| |by vm_compute].
  - exists 0%nat. eexists _, "sub.b". split_and!; [constructor|reflexivity|left].
  - exists 1%nat. eexists _, "b". split_and!; [eapply (below_sub _ _ 0); [constructor|reflexivity|left]|reflexivity|left].
Qed.

(** A pool that is created in a group after its shutdown runs, and [Shutdown] does not stop it. *)
Lemma pool_created_late_runs :
  ∃ r, foldl (λ r o, r ← r; gstep r o) (Ret (mkRegistry [] [])) [ONew "root"; OShutdown 0; OCreatePool 0 "a"; OShutdown 0] = Ret r ∧
    pool_below r 0 0 ∧ running r 0 = true.
Proof.
  eexists. split; [reflexivity|]. split; [|done]. exists 0%nat. eexists _, "a". split_and!; [constructor|reflexivity|left].
Qed.
