(* ===== verification/GroupShutdown.v ===== *)
(** * runtime/workerpool: the shutdown of a group

    [Shutdown] of [src/runtime/workerpool/group.go], on the groups of GroupRegistry.v
    and their counters of PoolGroup.v: [of_group] and [of_pool] are the counters that
    [NewGroup], [CreateGroup] and [CreatePool] make.  A goroutine in [in_Shutdown] has
    called [Shutdown]: it is in [WaitIsZero], which may sleep for ever, and goes on to
    [shutdown] once that has returned.  The recursion of [shutdown] and the creation of
    a group or a pool are one step each. *)

From stdpp Require Import relations strings.
From S2P Require Import Prelude OrderedMap PoolGroup GroupRegistry.









(** ** Groups and their counters *)











(** ** The steps keep the invariant *)













(** ** Theorems *)




(** ** A run *)




