(* ===== verification/MergedContext.v ===== *)
(** * runtime/contextutils: merged contexts

    [src/runtime/contextutils/merged_context.go] as a transition system: the call of
    [MergeContexts], its goroutine, the two contexts, which may be done at any time and keep their
    error then, and callers of the cancel function. *)

From stdpp Require Import relations.
From S2P Require Import Prelude.

Definition ErrMergedContextCanceled : error := ErrNew "merged context canceled".
Definition Canceled : error := ErrNew "context canceled".

(** A context: its error once it is done, its deadline and its values. *)
Record context (K V : Type) : Type := mkContext { ctx_err : option error; ctx_deadline : option Z; ctx_value : K → option V }.
Arguments mkContext {K V} _ _ _.
Arguments ctx_err {K V} _.
Arguments ctx_deadline {K V} _.
Arguments ctx_value {K V} _ _.

Section merged.
Context {K V : Type}.

(** The goroutine: at its [select], before [setCtxDoneFunc], at its end. *)
Inductive watcher : Type := Selecting | Setting (e : error) | Ended.

(** [MergeContexts] before each of its checks, or returned. *)
Inductive constructor : Type := CheckPrimary | CheckSecondary | Returned.

Record mergedContext : Type := mkMerged {
  ctxPrimary : context K V;
  ctxSecondary : context K V;
  cancelCtx : bool;                (* the main context is done *)
  done : bool;                     (* the channel is closed *)
  err : option error;
  goroutine : watcher;
  creating : constructor;
}.

Definition MergeContexts (p s : context K V) : mergedContext := mkMerged p s false false None Selecting CheckPrimary.

Definition setCtxDoneFunc (mc : mergedContext) (e : error) : outcome mergedContext :=
  match err mc with
  | Some _ => Ret mc
  | None =>
      if done mc then Panic "close of closed channel"
      else Ret (mkMerged (ctxPrimary mc) (ctxSecondary mc) true true (Some e) (goroutine mc) (creating mc))
  end.

Definition canceled_error : error := ErrJoin Canceled ErrMergedContextCanceled.

Definition set_goroutine (mc : mergedContext) (g : watcher) : mergedContext :=
  mkMerged (ctxPrimary mc) (ctxSecondary mc) (cancelCtx mc) (done mc) (err mc) g (creating mc).
Definition set_creating (mc : mergedContext) (c : constructor) : mergedContext :=
  mkMerged (ctxPrimary mc) (ctxSecondary mc) (cancelCtx mc) (done mc) (err mc) (goroutine mc) c.

Definition fail (c : context K V) (e : error) : context K V :=
  match ctx_err c with None => mkContext (Some e) (ctx_deadline c) (ctx_value c) | Some _ => c end.

(** The goroutine's [select] and its call. *)
Inductive watch (mc : mergedContext) : mergedContext → Prop :=
  | watch_cancel : goroutine mc = Selecting → cancelCtx mc = true → watch mc (set_goroutine mc (Setting canceled_error))
  | watch_primary e : goroutine mc = Selecting → ctx_err (ctxPrimary mc) = Some e → watch mc (set_goroutine mc (Setting e))
  | watch_secondary e : goroutine mc = Selecting → ctx_err (ctxSecondary mc) = Some e → watch mc (set_goroutine mc (Setting e))
  | watch_set e mc' : goroutine mc = Setting e → setCtxDoneFunc mc e = Ret mc' → watch mc (set_goroutine mc' Ended).

Inductive step (mc : mergedContext) : mergedContext → Prop :=
  | step_watch mc' : watch mc mc' → step mc mc'
  | step_primary e : step mc (mkMerged (fail (ctxPrimary mc) e) (ctxSecondary mc) (cancelCtx mc) (done mc) (err mc) (goroutine mc) (creating mc))
  | step_secondary e : step mc (mkMerged (ctxPrimary mc) (fail (ctxSecondary mc) e) (cancelCtx mc) (done mc) (err mc) (goroutine mc) (creating mc))
  | step_check_primary mc' :
      creating mc = CheckPrimary →
      match ctx_err (ctxPrimary mc) with Some e => setCtxDoneFunc mc e | None => Ret mc end = Ret mc' →
      step mc (set_creating mc' CheckSecondary)
  | step_check_secondary mc' :
      creating mc = CheckSecondary →
      match ctx_err (ctxSecondary mc) with Some e => setCtxDoneFunc mc e | None => Ret mc end = Ret mc' →
      step mc (set_creating mc' Returned)
  | step_cancel mc' : creating mc = Returned → setCtxDoneFunc mc canceled_error = Ret mc' → step mc mc'.

(** [Deadline]: the zero time is [None]. *)
Definition Deadline (mc : mergedContext) : option Z :=
  let min := ctx_deadline (ctxPrimary mc) in
  match ctx_deadline (ctxSecondary mc) with
  | Some dl => match min with Some m => if dl <? m then Some dl else min | None => Some dl end
  | None => min
  end.

Definition Value (mc : mergedContext) (key : K) : option V :=
  match ctx_value (ctxPrimary mc) key with Some v => Some v | None => ctx_value (ctxSecondary mc) key end.

(** ** Invariant *)

Definition cause (mc : mergedContext) (e : error) : Prop :=
  ctx_err (ctxPrimary mc) = Some e ∨ ctx_err (ctxSecondary mc) = Some e ∨ e = canceled_error.

Record merged_ok (mc : mergedContext) : Prop := {
  mo_done : done mc = bool_decide (is_Some (err mc));
  mo_main : cancelCtx mc = done mc;
  mo_cause e : err mc = Some e → cause mc e;
  mo_setting e : goroutine mc = Setting e → cause mc e;
  mo_ended : goroutine mc = Ended → is_Some (err mc);
}.

(** What was decided does not change. *)
Definition later (mc mc' : mergedContext) : Prop :=
  (∀ e, err mc = Some e → err mc' = Some e) ∧
  (∀ e, ctx_err (ctxPrimary mc) = Some e → ctx_err (ctxPrimary mc') = Some e) ∧
  (∀ e, ctx_err (ctxSecondary mc) = Some e → ctx_err (ctxSecondary mc') = Some e).

Lemma setCtxDoneFunc_ok mc e :
  merged_ok mc → cause mc e →
  ∃ mc', setCtxDoneFunc mc e = Ret mc' ∧ merged_ok mc' ∧ is_Some (err mc') ∧ later mc mc' ∧ goroutine mc' = goroutine mc ∧
    ctxPrimary mc' = ctxPrimary mc ∧ ctxSecondary mc' = ctxSecondary mc ∧ (err mc = None → err mc' = Some e).
Proof.
  intros [H1 H2 H3 H4 H5] He. unfold setCtxDoneFunc. destruct (err mc) as [e'|] eqn:E.
  - exists mc. split_and!; try done. split; by rewrite ?E.
  - rewrite H1. cbn. eexists. split; [done|]. split.
    + split; cbn; try done. by intros e' [= <-].
    + split; [done|]. split; [|done]. by split; [intros e'; rewrite E|].
Qed.

Lemma cause_later mc mc' e : later mc mc' → cause mc e → cause mc' e.
Proof. intros (_ & H1 & H2) [?|[?|?]]; [left|right; left|right; right]; auto. Qed.

Lemma set_goroutine_ok mc g :
  merged_ok mc → (∀ e, g = Setting e → cause mc e) → (g = Ended → is_Some (err mc)) → merged_ok (set_goroutine mc g).
Proof. intros [] ? ?. by split. Qed.

Lemma set_creating_ok mc c : merged_ok mc → merged_ok (set_creating mc c).
Proof. intros []. by split. Qed.

Lemma fail_keeps c e e' : ctx_err c = Some e → ctx_err (fail c e') = Some e.
Proof. intros E. unfold fail. by rewrite E. Qed.

Lemma watch_ok mc mc' : watch mc mc' → merged_ok mc → merged_ok mc' ∧ later mc mc'.
Proof.
  intros Hs Hok. destruct Hs as [Hg Hc|e Hg Hc|e Hg Hc|e mc' Hg Hc].
  - split; [|by split]. apply set_goroutine_ok; [done| |done]. intros e [= <-]. right. by right.
  - split; [|by split]. apply set_goroutine_ok; [done| |done]. intros e' [= <-]. by left.
  - split; [|by split]. apply set_goroutine_ok; [done| |done]. intros e' [= <-]. right. by left.
  - destruct (setCtxDoneFunc_ok mc e Hok) as (mc1 & E & Hok1 & Hs & Hl & _); [by apply (mo_setting mc Hok)|]. assert (mc1 = mc') as -> by congruence.
    split; [|done]. by apply set_goroutine_ok.
Qed.

Lemma step_ok mc mc' : step mc mc' → merged_ok mc → merged_ok mc' ∧ later mc mc'.
Proof.
  intros Hs Hok. destruct Hs as [mc' Hw|e|e|mc' Hc E|mc' Hc E|mc' Hc E].
  - by apply watch_ok.
  - assert (later mc (mkMerged (fail (ctxPrimary mc) e) (ctxSecondary mc) (cancelCtx mc) (done mc) (err mc) (goroutine mc) (creating mc))) as Hl
      by (split; [done|]; split; [intros e'; apply fail_keeps|done]).
    split; [|done]. destruct Hok as [H1 H2 H3 H4 H5]. split; try done; intros e' He; by eapply cause_later; [|auto].
  - assert (later mc (mkMerged (ctxPrimary mc) (fail (ctxSecondary mc) e) (cancelCtx mc) (done mc) (err mc) (goroutine mc) (creating mc))) as Hl
      by (split; [done|]; split; [done|intros e'; apply fail_keeps]).
    split; [|done]. destruct Hok as [H1 H2 H3 H4 H5]. split; try done; intros e' He; by eapply cause_later; [|auto].
  - destruct (ctx_err (ctxPrimary mc)) as [e|] eqn:He; [|injection E as <-; split; [by apply set_creating_ok|by split]].
    destruct (setCtxDoneFunc_ok mc e Hok) as (mc1 & E' & Hok1 & _ & Hl & _); [by left|]. assert (mc1 = mc') as -> by congruence.
    split; [by apply set_creating_ok|done].
  - destruct (ctx_err (ctxSecondary mc)) as [e|] eqn:He; [|injection E as <-; split; [by apply set_creating_ok|by split]].
    destruct (setCtxDoneFunc_ok mc e Hok) as (mc1 & E' & Hok1 & _ & Hl & _); [right; by left|]. assert (mc1 = mc') as -> by congruence.
    split; [by apply set_creating_ok|done].
  - destruct (setCtxDoneFunc_ok mc canceled_error Hok) as (mc1 & E' & Hok1 & _ & Hl & _); [right; by right|]. assert (mc1 = mc') as -> by congruence. done.
Qed.

Definition merged_reachable (p s : context K V) (mc : mergedContext) : Prop := rtc step (MergeContexts p s) mc.

Lemma merged_reachable_ok p s mc : merged_reachable p s mc → merged_ok mc.
Proof.
  intros Hr. eapply (rtc_ind_r merged_ok (MergeContexts p s)); [|intros y z _ Hs Hy; by eapply step_ok|exact Hr]. by split.
Qed.

Lemma later_trans mc1 mc2 mc3 : later mc1 mc2 → later mc2 mc3 → later mc1 mc3.
Proof. intros (?&?&?) (?&?&?). split_and!; auto. Qed.

Lemma steps_later mc mc' : merged_ok mc → rtc step mc mc' → merged_ok mc' ∧ later mc mc'.
Proof.
  intros Hok Hs. eapply (rtc_ind_r (λ z, merged_ok z ∧ later mc z) mc); [by split|intros y z _ Hs' [Hy Hl]|exact Hs].
  destruct (step_ok y z Hs' Hy) as [Hz Hl']. split; [done|]. by eapply later_trans.
Qed.

(** A merged context keeps the contract of a context.  In every interleaving, [Done] is closed
    exactly when [Err] is not nil, and the channel is not closed twice; the error is that of one
    of the two contexts or says that the merged context was canceled, and it never changes; a
    context that was done before the call is seen when the call has returned; and the goroutine
    does not stay behind: once one of the contexts is done or the merged one was canceled, it can take a step
    until it has ended, and when it has ended the merged context is done. *)
Lemma MergedContext_contract p s mc :
  merged_reachable p s mc →
  (done mc = true ↔ is_Some (err mc)) ∧
  (∀ e, returns (setCtxDoneFunc mc e)) ∧
  (∀ e, err mc = Some e → cause mc e ∧ ∀ mc', rtc step mc mc' → err mc' = Some e) ∧
  ((is_Some (err mc) ∨ is_Some (ctx_err (ctxPrimary mc)) ∨ is_Some (ctx_err (ctxSecondary mc))) → goroutine mc ≠ Ended → ∃ mc', watch mc mc') ∧
  (goroutine mc = Ended → is_Some (err mc)).
Proof.
  intros Hr%merged_reachable_ok. pose proof Hr as [H1 H2 H3 H4 H5]. split_and!.
  - rewrite H1, bool_decide_eq_true. done.
  - intros e. unfold setCtxDoneFunc. destruct (err mc) eqn:E; [by eexists|]. rewrite H1. by eexists.
  - intros e He. split; [by apply H3|]. intros mc' Hs. destruct (steps_later mc mc' Hr Hs) as [_ (Hl & _)]. by apply Hl.
  - intros Hd Hg. destruct (goroutine mc) as [|e|] eqn:E; [| |done].
    + destruct Hd as [Hd|[[e Hd]|[e Hd]]]; eexists; [|by eapply watch_primary|by eapply watch_secondary].
      apply watch_cancel; [done|]. rewrite H2, H1. by apply bool_decide_eq_true.
    + destruct (setCtxDoneFunc_ok mc e Hr (H4 e eq_refl)) as (mc' & E' & _). eexists. by eapply watch_set.
  - done.
Qed.

(** The checks of [MergeContexts] find a context that is done. *)
Lemma MergeContexts_sees p s mc :
  merged_reachable p s mc → is_Some (ctx_err p) ∨ is_Some (ctx_err s) → creating mc = Returned → is_Some (err mc).
Proof.
  intros Hr Hd. assert ((∀ e, ctx_err p = Some e → ctx_err (ctxPrimary mc) = Some e) ∧ (∀ e, ctx_err s = Some e → ctx_err (ctxSecondary mc) = Some e) ∧
    (creating mc ≠ CheckPrimary → is_Some (ctx_err p) → is_Some (err mc)) ∧ (creating mc = Returned → is_Some (ctx_err s) → is_Some (err mc)) ∧ merged_ok mc) as (_ & _ & H3 & H4 & _).
  { eapply (rtc_ind_r (λ mc, (∀ e, ctx_err p = Some e → ctx_err (ctxPrimary mc) = Some e) ∧ (∀ e, ctx_err s = Some e → ctx_err (ctxSecondary mc) = Some e) ∧
      (creating mc ≠ CheckPrimary → is_Some (ctx_err p) → is_Some (err mc)) ∧ (creating mc = Returned → is_Some (ctx_err s) → is_Some (err mc)) ∧ merged_ok mc)
      (MergeContexts p s)); [by split_and!| |exact Hr].
    intros y z _ Hs (A1 & A2 & A3 & A4 & Hok). destruct (step_ok y z Hs Hok) as [Hok' (L1 & L2 & L3)].
    assert (is_Some (err y) → is_Some (err z)) as Herr by (intros [e He]; exists e; by apply L1).
    split; [auto|]. split; [auto|]. destruct Hs as [z Hw|e|e|z Hc E|z Hc E|z Hc E]; try (by split_and!; auto).
    - assert (creating z = creating y) as Ec.
      { destruct Hw as [| | |e mc' _ E]; try done. unfold setCtxDoneFunc in E. destruct (err y); [by injection E as <-|]. destruct (done y); [done|]. by injection E as <-. }
      rewrite Ec. split_and!; auto.
    - split; [|by split]. intros _ [e He]. rewrite (A1 e He) in E. destruct (setCtxDoneFunc_ok y e Hok) as (z1 & E' & _ & Hz & _); [left; by apply A1|].
      assert (z1 = z) as -> by congruence. done.
    - split; [intros _ Hp; apply Herr, A3; [by rewrite Hc|done]|]. split; [|done]. intros _ [e He]. rewrite (A2 e He) in E.
      destruct (setCtxDoneFunc_ok y e Hok) as (z1 & E' & _ & Hz & _); [right; left; by apply A2|]. assert (z1 = z) as -> by congruence. done.
    - assert (creating z = creating y) as Ec by (unfold setCtxDoneFunc in E; destruct (err y); [by injection E as <-|]; destruct (done y); [done|]; by injection E as <-).
      rewrite Ec. split_and!; auto. }
  intros Hc. destruct Hd; [apply H3; [by rewrite Hc|done]|by apply H4].
Qed.
End merged.
