(* ===== verification/Promise.v ===== *)
(** * runtime/promise

    [src/runtime/promise/event.go]: an event that is triggered once, as a transition
    system of goroutines that call [Trigger], [OnTrigger] and the functions that
    [OnTrigger] returned.  [Event1] has a parameter of the type [A]; [Event] is
    [Event1] without it.

    The critical sections are one step each, and so is a call of a callback.  A
    callback is identified by the call of [OnTrigger] that it came with.  The order of
    [Values] of a map is open.  [registered], [invoked] and [withdrawn] keep what
    happened and are not read by the code. *)

From stdpp Require Import relations.
From S2P Require Import Prelude.

Section promise.
Context {A : Type}.

Inductive promise_pc : Type :=
  | Ready
  | Calling (todo : list nat) (arg : A)   (* in the loop of [Trigger] *)
  | CallingNow (c : nat).                 (* in [OnTrigger], the event was triggered *)

Record Event1 : Type := mkEvent {
  callbacks : option (gmap Z nat);        (* nil when the event was triggered *)
  callbackIDs : Z;
  value : option A;
  goroutines : list promise_pc;
  registered : nat;                       (* calls of [OnTrigger] *)
  invoked : list (nat * A);
  withdrawn : list nat;
}.

Definition NewEvent1 (n : nat) : Event1 := mkEvent (Some ∅) 0 None (replicate n Ready) 0 [] [].

Definition WasTriggered (e : Event1) : bool := match callbacks e with None => true | Some _ => false end.

Definition set_pc (e : Event1) (i : nat) (p : promise_pc) : Event1 :=
  mkEvent (callbacks e) (callbackIDs e) (value e) (<[i:=p]> (goroutines e)) (registered e) (invoked e) (withdrawn e).

(** The critical section of [Trigger]: the event, the callbacks to call, and whether
    it was triggered; [values] is the order of the callbacks. *)
Definition Trigger (e : Event1) (arg : A) (values : list nat) : Event1 * list nat * bool :=
  match callbacks e with
  | None => (e, [], false)
  | Some _ =>
      (mkEvent None (callbackIDs e) (Some arg) (goroutines e) (registered e) (invoked e) (withdrawn e), values, true)
  end.

(** [registerCallback]: the event and the id, if the callback was subscribed. *)
Definition registerCallback (e : Event1) (c : nat) : Event1 * option Z :=
  match callbacks e with
  | None => (e, None)
  | Some m =>
      let callbackID := callbackIDs e + 1 in
      (mkEvent (Some (<[callbackID := c]> m)) callbackID (value e) (goroutines e) (registered e) (invoked e) (withdrawn e),
       Some callbackID)
  end.

Definition unsubscribe (e : Event1) (callbackID : Z) : Event1 :=
  match callbacks e with
  | None => e
  | Some m =>
      mkEvent (Some (delete callbackID m)) (callbackIDs e) (value e) (goroutines e) (registered e) (invoked e)
        (withdrawn e ++ option_list (m !! callbackID))
  end.

Definition count_registered (e : Event1) : Event1 :=
  mkEvent (callbacks e) (callbackIDs e) (value e) (goroutines e) (S (registered e)) (invoked e) (withdrawn e).

(** A callback is called. *)
Definition invoke (e : Event1) (c : nat) (arg : A) : Event1 :=
  mkEvent (callbacks e) (callbackIDs e) (value e) (goroutines e) (registered e) (invoked e ++ [(c, arg)]) (withdrawn e).

Definition pending (e : Event1) : list nat := from_option (λ m : gmap Z nat, (map_to_list m).*2) [] (callbacks e).

Inductive step : Event1 → Event1 → Prop :=
  | trigger e i arg values e' todo b :
      goroutines e !! i = Some Ready → values ≡ₚ pending e → Trigger e arg values = (e', todo, b) →
      step e (set_pc e' i (Calling todo arg))
  | trigger_call e i c todo arg :
      goroutines e !! i = Some (Calling (c :: todo) arg) → step e (set_pc (invoke e c arg) i (Calling todo arg))
  | trigger_return e i arg :
      goroutines e !! i = Some (Calling [] arg) → step e (set_pc e i Ready)
  | on_trigger e i e' id :
      goroutines e !! i = Some Ready → registerCallback e (registered e) = (e', id) →
      step e (set_pc (count_registered e') i (match id with Some _ => Ready | None => CallingNow (registered e) end))
  (* [*e.value], which panics when there is no value *)
  | on_trigger_call e i c arg :
      goroutines e !! i = Some (CallingNow c) → value e = Some arg → step e (set_pc (invoke e c arg) i Ready)
  | unsubscribe_ e id : step e (unsubscribe e id).

Definition reachable (n : nat) (e : Event1) : Prop := rtc step (NewEvent1 n) e.

(** ** The invariant *)

Definition to_call (p : promise_pc) : list nat :=
  match p with Calling todo _ => todo | CallingNow c => [c] | Ready => [] end.

Record inv (e : Event1) : Prop := {
  (* each callback is in one place *)
  inv_places : seq 0 (registered e) ≡ₚ pending e ++ concat (to_call <$> goroutines e) ++ (invoked e).*1 ++ withdrawn e;
  inv_ids m id : callbacks e = Some m → is_Some (m !! id) → id ≤ callbackIDs e;
  inv_value : callbacks e = None ↔ is_Some (value e);
  inv_untriggered m : callbacks e = Some m → invoked e = [] ∧ ∀ i p, goroutines e !! i = Some p → to_call p = [];
  inv_args c arg : (c, arg) ∈ invoked e → value e = Some arg;
  inv_calling i todo arg c : goroutines e !! i = Some (Calling todo arg) → c ∈ todo → value e = Some arg;
}.

Lemma concat_insert_perm (ps : list promise_pc) i p p' :
  ps !! i = Some p → to_call p ++ concat (to_call <$> <[i:=p']> ps) ≡ₚ to_call p' ++ concat (to_call <$> ps).
Proof.
  revert i. induction ps as [|x ps IH]; intros [|i] Hi; simplify_eq/=.
  - apply Permutation_app_swap_app.
  - rewrite (Permutation_app_swap_app (to_call p)), (Permutation_app_swap_app (to_call p')). by rewrite (IH i Hi).
Qed.

(** A goroutine moves and nothing else changes. *)
Lemma to_call_none (e : Event1) i p m :
  inv e → callbacks e = Some m → goroutines e !! i = Some p → to_call p = [].
Proof. intros Hi Hm. apply (inv_untriggered e Hi m Hm). Qed.

Lemma trigger_inv e i arg values e' todo b :
  goroutines e !! i = Some Ready → values ≡ₚ pending e → Trigger e arg values = (e', todo, b) → inv e →
  inv (set_pc e' i (Calling todo arg)).
Proof.
  intros Hi Hv Ht He. pose proof He as [Hp Hid Hval Hun Harg Hcall]. unfold Trigger in Ht.
  pose proof (concat_insert_perm _ _ _ (Calling todo arg) Hi) as Hc. cbn [to_call app] in Hc.
  destruct (callbacks e) as [m|] eqn:Em; simplify_eq; split; cbn; rewrite ?Em; try done.
  - rewrite Hc, Hp, Hv. by rewrite <-app_assoc.
  - intros c a Hin. destruct (Hun m eq_refl) as [E _]. rewrite E in Hin. by apply not_elem_of_nil in Hin.
  - intros k todo' a c Hk Hin. apply list_lookup_insert_Some in Hk as [(_ & [= <- <-] & _)|[_ Hk]]; [done|].
    destruct (Hun m eq_refl) as [_ Hz]. specialize (Hz k _ Hk). cbn in Hz. subst. by apply not_elem_of_nil in Hin.
  - rewrite Hc. unfold pending in *. cbn. rewrite Em in *. exact Hp.
  - intros k todo' a c Hk Hin. apply list_lookup_insert_Some in Hk as [(_ & [= <- <-] & _)|[_ Hk]]; [by apply not_elem_of_nil in Hin|].
    by eapply Hcall.
Qed.

(** A goroutine calls the callback that is next. *)
Lemma promise_call_inv e i p p' c arg :
  goroutines e !! i = Some p → to_call p = c :: to_call p' → value e = Some arg →
  (∀ todo a, p' = Calling todo a → a = arg) → inv e → inv (set_pc (invoke e c arg) i p').
Proof.
  intros Hi Hto Hv Hp' He. pose proof He as [Hp Hid Hval Hun Harg Hcall].
  assert (callbacks e = None) as Em by (apply Hval; by rewrite Hv).
  pose proof (concat_insert_perm _ _ _ p' Hi) as Hc. rewrite Hto in Hc. cbn [app] in Hc.
  split; cbn; rewrite ?Em; try done.
  - rewrite Hp. unfold pending. cbn. rewrite Em, fmap_app. cbn.
    assert (concat (to_call <$> goroutines e) ≡ₚ c :: concat (to_call <$> <[i:=p']> (goroutines e))) as ->.
    { apply (Permutation_app_inv_l (to_call p')). rewrite <-Hc. by rewrite Permutation_middle. }
    cbn. rewrite <-app_assoc. cbn. by rewrite <-!Permutation_middle.
  - intros c' a [Hin|[= -> ->]%list_elem_of_singleton]%elem_of_app; [by eapply Harg|done].
  - intros k todo a c' Hk Hin. apply list_lookup_insert_Some in Hk as [(_ & -> & _)|[_ Hk]]; [|by eapply Hcall].
    by rewrite (Hp' todo a eq_refl).
Qed.

Lemma on_trigger_inv e i e' id :
  goroutines e !! i = Some Ready → registerCallback e (registered e) = (e', id) → inv e →
  inv (set_pc (count_registered e') i (match id with Some _ => Ready | None => CallingNow (registered e) end)).
Proof.
  intros Hi Hr He. pose proof He as [Hp Hid Hval Hun Harg Hcall]. unfold registerCallback in Hr.
  destruct (callbacks e) as [m|] eqn:Em; injection Hr as <- <-.
  - pose proof (concat_insert_perm _ _ _ Ready Hi) as Hc. cbn [to_call app] in Hc.
    assert (m !! (callbackIDs e + 1) = None) as Hnone.
    { destruct (m !! (callbackIDs e + 1)) eqn:E; [|done]. specialize (Hid m (callbackIDs e + 1) eq_refl). rewrite E in Hid.
      specialize (Hid ltac:(by eexists)). lia. }
    split; cbn [set_pc count_registered registered callbacks callbackIDs value goroutines invoked withdrawn]; try done.
    + rewrite seq_S, Hp, Hc. unfold pending. cbn [callbacks set_pc count_registered from_option]. rewrite Em. cbn [from_option].
      rewrite map_to_list_insert by done. cbn. by rewrite Permutation_app_comm.
    + intros m' id' [= <-] Hs. destruct (decide (id' = callbackIDs e + 1)); [lia|]. rewrite lookup_insert_ne in Hs by done.
      specialize (Hid m id' eq_refl Hs). lia.
    + rewrite <-Hval. naive_solver.
    + intros m' _. destruct (Hun m eq_refl) as [-> Hz]. split; [done|]. intros k p Hk.
      apply list_lookup_insert_Some in Hk as [(_ & <- & _)|[_ Hk]]; [done|by eapply Hz].
    + intros k todo a c Hk Hin. apply list_lookup_insert_Some in Hk as [(_ & ? & _)|[_ Hk]]; [done|by eapply Hcall].
  - pose proof (concat_insert_perm _ _ _ (CallingNow (registered e)) Hi) as Hc. cbn [to_call app] in Hc.
    split; cbn [set_pc count_registered registered callbacks callbackIDs value goroutines invoked withdrawn]; rewrite ?Em; try done.
    + rewrite seq_S, Hp, Hc. unfold pending. cbn [callbacks set_pc count_registered from_option]. rewrite Em. cbn. by rewrite Permutation_app_comm.
    + intros k todo a c Hk Hin. apply list_lookup_insert_Some in Hk as [(_ & ? & _)|[_ Hk]]; [done|by eapply Hcall].
Qed.

Lemma unsubscribe_inv e id : inv e → inv (unsubscribe e id).
Proof.
  intros He. pose proof He as [Hp Hid Hval Hun Harg Hcall]. unfold unsubscribe. destruct (callbacks e) as [m|] eqn:Em; [|done].
  split; cbn; try done.
  - rewrite Hp. unfold pending. cbn. rewrite Em. cbn. destruct (m !! id) as [c|] eqn:E; cbn.
    + rewrite <-(map_to_list_delete m id c E) at 1. cbn. rewrite Permutation_cons_append. by rewrite <-!app_assoc.
    + by rewrite delete_id, app_nil_r.
  - intros m' id' [= <-] Hs. apply (Hid m); [done|]. destruct (decide (id' = id)) as [->|]; [by rewrite lookup_delete_eq in Hs; destruct Hs|].
    by rewrite lookup_delete_ne in Hs.
  - rewrite <-Hval. naive_solver.
  - intros m' _. by apply (Hun m).
Qed.

Lemma promise_step_inv e e' : step e e' → inv e → inv e'.
Proof.
  intros Hs He. destruct Hs as [e i arg values e' todo b Hi Hv Ht|e i c todo arg Hi|e i arg Hi|e i e' id Hi Hr|e i c arg Hi Hv|e id].
  - by eapply trigger_inv.
  - eapply (promise_call_inv e i (Calling (c :: todo) arg)); try done; [|by intros ? ? [= _ ->]]. eapply (inv_calling e He); [done|by left].
  - pose proof He as [Hp Hid Hval Hun Harg Hcall]. pose proof (concat_insert_perm _ _ _ Ready Hi) as Hc. cbn [to_call app] in Hc.
    split; cbn; try done.
    + rewrite Hc. exact Hp.
    + intros m Hm. destruct (Hun m Hm) as [-> Hz]. split; [done|]. intros k p Hk.
      apply list_lookup_insert_Some in Hk as [(_ & <- & _)|[_ Hk]]; [done|by eapply Hz].
    + intros k todo a c Hk Hin. apply list_lookup_insert_Some in Hk as [(_ & ? & _)|[_ Hk]]; [done|by eapply Hcall].
  - by eapply on_trigger_inv.
  - by eapply (promise_call_inv e i (CallingNow c) Ready).
  - by apply unsubscribe_inv.
Qed.

Lemma promise_reachable_inv n e : reachable n e → inv e.
Proof.
  revert e. apply rtc_ind_r; [|intros e e' _ Hs He; by eapply promise_step_inv].
  assert (∀ i p, replicate n (Ready : promise_pc) !! i = Some p → p = Ready) as Hr by (by intros i p [-> _]%lookup_replicate).
  split; cbn; try done.
  - unfold pending. cbn. rewrite map_to_list_empty. cbn. replace (concat _) with (@nil nat); [done|].
    clear Hr. induction n as [|n IH]; [done|]. exact IH.
  - intros m id [= <-] [? Hs]. by rewrite lookup_empty in Hs.
  - intros m _. split; [done|]. intros i p ->%Hr. done.
  - by intros c a ?%not_elem_of_nil.
  - intros i todo a c Hk%Hr. done.
Qed.

End promise.
Arguments Event1 : clear implicits.
Arguments promise_pc : clear implicits.

(** ** Properties *)

(** C24: an event is triggered once and every callback is called once.  In every
    interleaving, each callback that was given to [OnTrigger] is in one place:
    registered, about to be called, called, or withdrawn.  None is called before the
    event is triggered; all of them get the argument of the one [Trigger] that was
    successful, and in [OnTrigger] the value is there; when no call is under way
    after the trigger, each callback was called once or withdrawn before. *)
Theorem Promise_once {A} n (e : Event1 A) :
  reachable n e →
  seq 0 (registered e) ≡ₚ pending e ++ concat (to_call <$> goroutines e) ++ (invoked e).*1 ++ withdrawn e ∧
  (WasTriggered e = false → invoked e = []) ∧
  (WasTriggered e = true → is_Some (value e)) ∧
  (∀ c arg, (c, arg) ∈ invoked e → value e = Some arg) ∧
  (WasTriggered e = true → (∀ p, p ∈ goroutines e → p = Ready) → seq 0 (registered e) ≡ₚ (invoked e).*1 ++ withdrawn e).
Proof.
  intros Hr. pose proof (promise_reachable_inv n e Hr) as [Hp Hid Hval Hun Harg Hcall]. unfold WasTriggered. split_and!; try done.
  - destruct (callbacks e) as [m|] eqn:Em; [|done]. by destruct (Hun m eq_refl).
  - destruct (callbacks e) eqn:Em; [done|]. intros _. by apply Hval.
  - destruct (callbacks e) eqn:Em; [done|]. intros _ Hready. rewrite Hp. unfold pending. rewrite Em. cbn.
    replace (concat (to_call <$> goroutines e)) with (@nil nat); [done|]. clear -Hready.
    induction (goroutines e) as [|p ps IH]; [done|]. cbn. rewrite (Hready p) by left. apply IH. intros q Hq. apply Hready. by right.
Qed.

(** A callback that is registered before and one that is registered after. *)
Definition promised : Event1 Z := mkEvent None 1 (Some 7) [Ready] 2 [(0%nat, 7); (1%nat, 7)] [].

Lemma promised_reachable : reachable 1 promised.
Proof.
  eapply rtc_l; [by apply (on_trigger _ 0)|]. cbn.
  eapply rtc_l; [eapply (trigger _ 0 7 [0%nat]); [done|by vm_compute|done]|]. cbn.
  eapply rtc_l; [by apply (trigger_call _ 0 0%nat [])|]. cbn. eapply rtc_l; [by eapply (trigger_return _ 0)|]. cbn.
  eapply rtc_l; [by apply (on_trigger _ 0)|]. cbn. eapply rtc_l; [by apply (on_trigger_call _ 0 1%nat 7)|].
  exact (rtc_refl step promised).
Qed.

Lemma Promise_once_witness :
  reachable 1 promised ∧ WasTriggered promised = true ∧ seq 0 (registered promised) ≡ₚ (invoked promised).*1 ++ withdrawn promised.
Proof.
  destruct (Promise_once 1 promised promised_reachable) as (_ & _ & _ & _ & H). split_and!; [apply promised_reachable|done|].
  apply H; [done|]. by intros p ->%list_elem_of_singleton.
Defined.
