(* ===== verification/ValueNotifier.v ===== *)
(** * runtime/valuenotifier

    [src/runtime/valuenotifier/listener.go] as a transition system of goroutines
    that call [Listener], [Notify], [Deregister] and [Wait].

    - A channel is a place in [channels], which says whether it was closed; the
      channel [deregisteredChan] of a listener is the flag [deregisteredChan].
      Closing a closed channel panics.
    - The critical sections of the mutex of the notifier, the access to
      [deregistered], closing [deregisteredChan], and the choice of [select] are one
      step each.
    - [told], [removed] and [results] keep what happened and are not read by the code:
      that [Notify] was called for the value of the listener after it was created,
      that its [deregister] has run, and what calls of [Wait] returned. *)

From stdpp Require Import relations.
From S2P Require Import Prelude.

Section notifier.
Context {T : Type} `{Countable T}.

Inductive wait_result : Type := Notified | ErrListenerDeregistered | ContextDone.

Record Listener : Type := mkListener {
  l_value : T;
  channel : nat;
  deregistered : bool;
  deregisteredChan : bool;
  removed : bool;
  told : bool;
}.

Inductive notify_pc : Type :=
  | Ready
  | NotifyLocking (value : T)          (* [Notify], between the two critical sections *)
  | Selecting (l : nat)                (* [Wait], at the [select] *)
  | WaitReturning (l : nat)            (* [Wait], in the deferred [Deregister] *)
  | ClosingDeregistered (l : nat)      (* [Deregister], after the swap *)
  | Removing (l : nat).                (* [Deregister], before [deregister] *)

Record Notifier : Type := mkNotifier {
  listeners : gmap T (nat * Z);        (* channel and count *)
  channels : list bool;
  handed : list Listener;
  goroutines : list notify_pc;
  results : list (nat * wait_result);
}.

Definition New (n : nat) : Notifier := mkNotifier ∅ [] [] (replicate n Ready) [].

Definition close (cs : list bool) (c : nat) : outcome (list bool) :=
  match cs !! c with
  | Some false => Ret (<[c:=true]> cs)
  | Some true => Panic "close of closed channel"
  | None => Panic "close of nil channel"
  end.

Definition set_maps (v : Notifier) (ls : gmap T (nat * Z)) (cs : list bool) : Notifier :=
  mkNotifier ls cs (handed v) (goroutines v) (results v).

Definition removeListener (v : Notifier) (value : T) : outcome Notifier :=
  match listeners v !! value with
  | None => Ret v
  | Some (ch, count) =>
      let count := count - 1 in
      if count =? 0 then
        cs ← close (channels v) ch;
        Ret (set_maps v (delete value (listeners v)) cs)
      else Ret (set_maps v (<[value := (ch, count)]> (listeners v)) (channels v))
  end.

Definition newListener (value : T) (ch : nat) : Listener := mkListener value ch false false false false.

Definition Listener_ (v : Notifier) (value : T) : Notifier :=
  match listeners v !! value with
  | Some (ch, count) =>
      mkNotifier (<[value := (ch, count + 1)]> (listeners v)) (channels v) (handed v ++ [newListener value ch])
        (goroutines v) (results v)
  | None =>
      let ch := length (channels v) in
      mkNotifier (<[value := (ch, 1)]> (listeners v)) (channels v ++ [false]) (handed v ++ [newListener value ch])
        (goroutines v) (results v)
  end.

(** The second critical section of [Notify]. *)
Definition Notify (v : Notifier) (value : T) : outcome Notifier :=
  match listeners v !! value with
  | None => Ret v
  | Some (ch, _) =>
      cs ← close (channels v) ch;
      Ret (set_maps v (delete value (listeners v)) cs)
  end.

(** ** Steps *)

Definition set_pc (v : Notifier) (i : nat) (p : notify_pc) : Notifier :=
  mkNotifier (listeners v) (channels v) (handed v) (<[i:=p]> (goroutines v)) (results v).
Definition set_handed (v : Notifier) (ls : list Listener) : Notifier :=
  mkNotifier (listeners v) (channels v) ls (goroutines v) (results v).
Definition note_result (v : Notifier) (l : nat) (r : wait_result) : Notifier :=
  mkNotifier (listeners v) (channels v) (handed v) (goroutines v) (results v ++ [(l, r)]).

(** A call of [Notify] has come to the listeners of [value]. *)
Definition tell (value : T) (l : Listener) : Listener :=
  mkListener (l_value l) (channel l) (deregistered l) (deregisteredChan l) (removed l)
    (told l || bool_decide (l_value l = value)).
Definition tell_all (v : Notifier) (value : T) : Notifier := set_handed v (tell value <$> handed v).

Definition swap_deregistered (l : Listener) : Listener :=
  mkListener (l_value l) (channel l) true (deregisteredChan l) (removed l) (told l).
Definition close_deregistered (l : Listener) : Listener :=
  mkListener (l_value l) (channel l) (deregistered l) true (removed l) (told l).
Definition mark_removed (l : Listener) : Listener :=
  mkListener (l_value l) (channel l) (deregistered l) (deregisteredChan l) true (told l).

Definition with_listener (v : Notifier) (l : nat) (f : Listener → Listener) : Notifier :=
  set_handed v (alter f l (handed v)).

(** What [Deregister] does first: the swap. *)
Definition Deregister (v : Notifier) (i l : nat) (x : Listener) : Notifier :=
  if deregistered x then set_pc v i Ready
  else set_pc (with_listener v l swap_deregistered) i (ClosingDeregistered l).

Inductive step (v : Notifier) : Notifier → Prop :=
  | step_listener i value :
      goroutines v !! i = Some Ready → step v (Listener_ v value)
  | step_notify_none i value :
      goroutines v !! i = Some Ready → listeners v !! value = None → step v (tell_all v value)
  | step_notify_some i value :
      goroutines v !! i = Some Ready → is_Some (listeners v !! value) → step v (set_pc v i (NotifyLocking value))
  | step_notify i value v' :
      goroutines v !! i = Some (NotifyLocking value) → Notify v value = Ret v' →
      step v (set_pc (tell_all v' value) i Ready)
  | step_deregister i l x :
      goroutines v !! i = Some Ready → handed v !! l = Some x → step v (Deregister v i l x)
  | step_close_deregistered i l :
      goroutines v !! i = Some (ClosingDeregistered l) →
      step v (set_pc (with_listener v l close_deregistered) i (Removing l))
  | step_remove i l x v' :
      goroutines v !! i = Some (Removing l) → handed v !! l = Some x → removeListener v (l_value x) = Ret v' →
      step v (set_pc (with_listener v' l mark_removed) i Ready)
  | step_wait i l x :
      goroutines v !! i = Some Ready → handed v !! l = Some x → deregistered x = false →
      step v (set_pc v i (Selecting l))
  | step_wait_refused i l x :
      goroutines v !! i = Some Ready → handed v !! l = Some x → deregistered x = true →
      step v (note_result v l ErrListenerDeregistered)
  | step_select_channel i l x :
      goroutines v !! i = Some (Selecting l) → handed v !! l = Some x → channels v !! channel x = Some true →
      step v (set_pc (note_result v l Notified) i (WaitReturning l))
  | step_select_deregistered i l x :
      goroutines v !! i = Some (Selecting l) → handed v !! l = Some x → deregisteredChan x = true →
      step v (set_pc (note_result v l ErrListenerDeregistered) i (WaitReturning l))
  | step_select_done i l :
      goroutines v !! i = Some (Selecting l) →
      step v (set_pc (note_result v l ContextDone) i (WaitReturning l))
  | step_wait_deregister i l x :
      goroutines v !! i = Some (WaitReturning l) → handed v !! l = Some x → step v (Deregister v i l x).

Definition reachable (n : nat) (v : Notifier) : Prop := rtc step (New n) v.

(** ** Invariant *)

Definition live (value : T) (x : Listener) : Z := if decide (l_value x = value ∧ removed x = false) then 1 else 0.
Definition closing (l : nat) (p : notify_pc) : Z := match p with ClosingDeregistered k => if decide (k = l) then 1 else 0 | _ => 0 end.
Definition removing (l : nat) (p : notify_pc) : Z := match p with Removing k => if decide (k = l) then 1 else 0 | _ => 0 end.

(** A channel that is open is the one that [Notify] closes. *)
Record core (ls : gmap T (nat * Z)) (cs : list bool) (hs : list Listener) : Prop := {
  core_entry value ch count : ls !! value = Some (ch, count) →
    cs !! ch = Some false ∧ 1 ≤ count ∧ count ≤ zsum (live value) hs;
  core_distinct a b ch c d : ls !! a = Some (ch, c) → ls !! b = Some (ch, d) → a = b;
  core_listener x : x ∈ hs → cs !! channel x = Some true ∨ ∃ count, ls !! l_value x = Some (channel x, count);
  core_told x : x ∈ hs → told x = true → cs !! channel x = Some true;
}.

(** [Deregister] is done once, by one goroutine. *)
Definition owned (gs : list notify_pc) (hs : list Listener) : Prop := ∀ l,
  match hs !! l with
  | Some x =>
      zsum (closing l) gs = (if deregistered x && negb (deregisteredChan x) then 1 else 0) ∧
      zsum (removing l) gs = (if deregisteredChan x && negb (removed x) then 1 else 0) ∧
      (deregisteredChan x = true → deregistered x = true) ∧ (removed x = true → deregisteredChan x = true)
  | None => zsum (closing l) gs = 0 ∧ zsum (removing l) gs = 0
  end.

Definition explained (cs : list bool) (hs : list Listener) (rs : list (nat * wait_result)) : Prop :=
  ∀ l r, (l, r) ∈ rs → ∃ x, hs !! l = Some x ∧
    match r with
    | Notified => cs !! channel x = Some true
    | ErrListenerDeregistered => deregistered x = true
    | ContextDone => True
    end.

Record inv (v : Notifier) : Prop := {
  inv_core : core (listeners v) (channels v) (handed v);
  inv_owned : owned (goroutines v) (handed v);
  inv_results : explained (channels v) (handed v) (results v);
}.

(** ** Channels and listeners *)

Lemma live_nonneg value x : 0 ≤ live value x.
Proof. unfold live. destruct (decide _); lia. Qed.

(** Closing the channel of an entry, with the entry. *)
Lemma core_close ls cs hs value ch count :
  core ls cs hs → ls !! value = Some (ch, count) →
  close cs ch = Ret (<[ch:=true]> cs) ∧ core (delete value ls) (<[ch:=true]> cs) hs ∧
  (∀ x, x ∈ hs → l_value x = value → <[ch:=true]> cs !! channel x = Some true).
Proof.
  intros [H1 H2 H3 H4] Hv. destruct (H1 _ _ _ Hv) as (Hch & _ & _).
  assert (∀ k, cs !! k = Some true → <[ch:=true]> cs !! k = Some true) as Hkeep.
  { intros k Hk. rewrite list_lookup_insert_ne; [done|]. intros ->. congruence. }
  assert (<[ch:=true]> cs !! ch = Some true) as Hnew by (apply list_lookup_insert_eq; by eapply lookup_lt_Some).
  split_and!; [unfold close; by rewrite Hch|constructor|].
  - intros value' ch' count' [Hne Hv']%lookup_delete_Some. destruct (H1 _ _ _ Hv') as (Hch' & ? & ?). split_and!; [|done..].
    rewrite list_lookup_insert_ne; [done|]. intros ->. apply Hne. by eapply H2.
  - intros a b ch' c d [_ Ha]%lookup_delete_Some [_ Hb]%lookup_delete_Some. by eapply H2.
  - intros x Hx. destruct (H3 x Hx) as [Ht|[c Hc]]; [left; by apply Hkeep|].
    destruct (decide (l_value x = value)) as [Hxv|Hne]; [left; rewrite Hxv in Hc; by simplify_eq|].
    right. exists c. by rewrite lookup_delete_ne.
  - intros x Hx Ht. apply Hkeep. by apply H4.
  - intros x Hx <-. destruct (H3 x Hx) as [Ht|[c Hc]]; [by apply Hkeep|]. by simplify_eq.
Qed.

(** A change of listeners that keeps values and channels. *)
Lemma core_alter ls cs hs l f x :
  hs !! l = Some x → l_value (f x) = l_value x → channel (f x) = channel x → told (f x) = told x → removed (f x) = removed x →
  core ls cs hs → core ls cs (alter f l hs).
Proof.
  intros Hl Hv Hc Ht Hr [H1 H2 H3 H4].
  assert (∀ y, y ∈ alter f l hs → ∃ y0, y0 ∈ hs ∧ l_value y = l_value y0 ∧ channel y = channel y0 ∧ told y = told y0) as Hback.
  { intros y [k Hk]%list_elem_of_lookup. destruct (decide (k = l)) as [->|Hne].
    - rewrite list_lookup_alter_eq, Hl in Hk. simplify_eq/=. exists x. split; [by eapply list_elem_of_lookup_2|done].
    - rewrite list_lookup_alter_ne in Hk by done. exists y. split; [by eapply list_elem_of_lookup_2|done]. }
  constructor; [|done| |].
  - intros value ch count Hval. destruct (H1 _ _ _ Hval) as (? & ? & ?). split_and!; [done..|].
    assert (zsum (live value) (alter f l hs) = zsum (live value) hs) as ->; [|done]. clear -Hl Hv Hr.
    revert l Hl. induction hs as [|h hs IH]; intros [|l] Hl; simplify_eq/=; [|by rewrite IH].
    f_equal. unfold live. by rewrite Hv, Hr.
  - intros y Hy. destruct (Hback y Hy) as (y0 & Hy0 & -> & -> & _). by apply H3.
  - intros y Hy Hyt. destruct (Hback y Hy) as (y0 & Hy0 & _ & -> & Hy0t). apply H4; [done|congruence].
Qed.

Lemma core_told_all ls cs hs value :
  core ls cs hs → (∀ x, x ∈ hs → l_value x = value → cs !! channel x = Some true) → core ls cs (tell value <$> hs).
Proof.
  intros [H1 H2 H3 H4] Hv. constructor; [|done| |].
  - intros value' ch count Hval. destruct (H1 _ _ _ Hval) as (? & ? & ?). split_and!; [done..|].
    assert (zsum (live value') (tell value <$> hs) = zsum (live value') hs) as ->; [|done]. clear.
    induction hs as [|h hs IH]; [done|]. cbn. rewrite IH. done.
  - intros y (y0 & -> & Hy)%list_elem_of_fmap. exact (H3 y0 Hy).
  - intros y (y0 & -> & Hy)%list_elem_of_fmap. cbn. intros [?|Hyv%bool_decide_eq_true]%orb_true_iff; [by apply H4|by apply Hv].
Qed.

(** Entries that are gone have been closed. *)
Lemma core_none ls cs hs value :
  core ls cs hs → ls !! value = None → ∀ x, x ∈ hs → l_value x = value → cs !! channel x = Some true.
Proof. intros Hc Hn x Hx Hv. destruct (core_listener _ _ _ Hc x Hx) as [?|[c Hs]]; [done|]. congruence. Qed.

Lemma Listener_core v value :
  core (listeners v) (channels v) (handed v) →
  core (listeners (Listener_ v value)) (channels (Listener_ v value)) (handed (Listener_ v value)).
Proof.
  intros [H1 H2 H3 H4]. unfold Listener_.
  assert (∀ ch value', zsum (live value') (handed v ++ [newListener value ch]) =
    zsum (live value') (handed v) + if decide (value = value') then 1 else 0) as Hz.
  { intros ch value'. rewrite zsum_app. cbn. unfold live at 2. cbn. destruct (decide (value = value')).
    - rewrite decide_True by done. lia.
    - rewrite decide_False by naive_solver. lia. }
  destruct (listeners v !! value) as [[ch count]|] eqn:Ev; cbn.
  - destruct (H1 _ _ _ Ev) as (Hch & Hc1 & Hc2). constructor.
    + intros value' ch' count'. rewrite Hz. rewrite lookup_insert_Some. intros [[<- [= <- <-]]|[Hne Hv']].
      * rewrite decide_True by done. split_and!; [done|lia..].
      * destruct (H1 _ _ _ Hv') as (? & ? & ?). rewrite decide_False by done. split_and!; [done|lia..].
    + intros a b ch' c d. rewrite !lookup_insert_Some. intros [[<- [= <- <-]]|[Hna Ha]] [[<- [= <-]]|[Hnb Hb]]; by eauto.
    + intros x [Hx|Hx%list_elem_of_singleton]%elem_of_app.
      * destruct (H3 x Hx) as [?|[c Hc]]; [by left|right]. destruct (decide (value = l_value x)) as [Hxv|Hne].
        -- rewrite <-Hxv in *. simplify_eq. eexists. by rewrite lookup_insert_eq.
        -- exists c. by rewrite lookup_insert_ne.
      * subst x. right. eexists. cbn. by rewrite lookup_insert_eq.
    + intros x [Hx|Hx%list_elem_of_singleton]%elem_of_app; [by apply H4|by subst].
  - assert (∀ k b, channels v !! k = Some b → (channels v ++ [false]) !! k = Some b) as Hk by (intros; by apply lookup_app_l_Some).
    constructor.
    + intros value' ch' count'. rewrite Hz. rewrite lookup_insert_Some. intros [[<- [= <- <-]]|[Hne Hv']].
      * rewrite decide_True by done. assert (0 ≤ zsum (live value) (handed v)) as Hnn.
        { clear. induction (handed v) as [|h hs IH]; [done|]. cbn. pose proof (live_nonneg value h). lia. }
        split_and!; [|lia..]. apply lookup_snoc_Some. right. split; [done|done].
      * destruct (H1 _ _ _ Hv') as (? & ? & ?). rewrite decide_False by done. split_and!; [by apply Hk|lia..].
    + intros a b ch' c d. rewrite !lookup_insert_Some. intros [[<- [= <- <-]]|[Hna Ha]] [[<- [= <-]]|[Hnb Hb]]; [done| | |by eauto].
      * destruct (H1 _ _ _ Hb) as (Hlt%lookup_lt_Some & _). lia.
      * subst. destruct (H1 _ _ _ Ha) as (Hlt%lookup_lt_Some & _). lia.
    + intros x [Hx|Hx%list_elem_of_singleton]%elem_of_app.
      * destruct (H3 x Hx) as [?|[c Hc]]; [left; by apply Hk|right]. exists c. rewrite lookup_insert_ne; [done|]. intros Hxv. congruence.
      * subst x. right. eexists. cbn. by rewrite lookup_insert_eq.
    + intros x [Hx|Hx%list_elem_of_singleton]%elem_of_app; [|by subst]. intros Ht. apply Hk. by apply H4.
Qed.

Lemma zsum_alter_live value l hs x :
  hs !! l = Some x →
  zsum (live value) (alter mark_removed l hs) = zsum (live value) hs - live value x.
Proof.
  revert l. induction hs as [|h hs IH]; intros [|l] Hl; simplify_eq/=.
  - unfold live at 1. cbn. rewrite decide_False by naive_solver. lia.
  - rewrite (IH l Hl). lia.
Qed.

Lemma core_removed ls cs hs l x :
  core ls cs hs → hs !! l = Some x →
  (∀ ch count, ls !! l_value x = Some (ch, count) → count + 1 ≤ zsum (live (l_value x)) hs) →
  core ls cs (alter mark_removed l hs).
Proof.
  intros [H1 H2 H3 H4] Hl Hcount.
  assert (∀ y, y ∈ alter mark_removed l hs → ∃ y0, y0 ∈ hs ∧ l_value y = l_value y0 ∧ channel y = channel y0 ∧ told y = told y0) as Hback.
  { intros y [k Hk]%list_elem_of_lookup. destruct (decide (k = l)) as [->|Hne].
    - rewrite list_lookup_alter_eq, Hl in Hk. simplify_eq/=. exists x. split; [by eapply list_elem_of_lookup_2|done].
    - rewrite list_lookup_alter_ne in Hk by done. exists y. split; [by eapply list_elem_of_lookup_2|done]. }
  constructor; [|done| |].
  - intros value ch count Hv. destruct (H1 _ _ _ Hv) as (? & ? & Hc). split_and!; [done..|]. rewrite (zsum_alter_live _ _ _ _ Hl).
    unfold live at 2. destruct (decide _) as [[<- _]|_]; [specialize (Hcount _ _ Hv)|]; lia.
  - intros y Hy. destruct (Hback y Hy) as (y0 & Hy0 & -> & -> & _). by apply H3.
  - intros y Hy Hyt. destruct (Hback y Hy) as (y0 & Hy0 & _ & -> & Hy0t). apply H4; [done|congruence].
Qed.

(** What was closed stays closed. *)
Definition more_closed (cs cs' : list bool) : Prop := ∀ k, cs !! k = Some true → cs' !! k = Some true.

Lemma close_more cs ch : more_closed cs (<[ch:=true]> cs).
Proof.
  intros k Hk. destruct (decide (ch = k)) as [<-|Hne]; [|by rewrite list_lookup_insert_ne].
  apply list_lookup_insert_eq. by eapply lookup_lt_Some.
Qed.

Lemma removeListener_ok v l x :
  core (listeners v) (channels v) (handed v) → handed v !! l = Some x →
  ∃ ls cs, removeListener v (l_value x) = Ret (set_maps v ls cs) ∧ core ls cs (alter mark_removed l (handed v)) ∧
    more_closed (channels v) cs.
Proof.
  intros Hc Hl. unfold removeListener. destruct (listeners v !! l_value x) as [[ch count]|] eqn:Ev.
  - destruct (core_entry _ _ _ Hc _ _ _ Ev) as (Hch & Hc1 & Hc2). destruct (Z.eqb_spec (count - 1) 0) as [E|E].
    + destruct (core_close _ _ _ _ _ _ Hc Ev) as (-> & Hcore & _). cbn. eexists _, _. split_and!; [done| |apply close_more].
      eapply core_removed; [exact Hcore|exact Hl|]. intros ch' c'. by rewrite lookup_delete_eq.
    + eexists _, _. split_and!; [done| |by intros k]. eapply core_removed; [|done|].
      * destruct Hc as [H1 H2 H3 H4]. constructor; [| | |done].
        -- intros value ch' count'. rewrite lookup_insert_Some. intros [[<- [= <- <-]]|[_ Hv]]; [split_and!; [done|lia..]|by eapply H1].
        -- intros a b ch' c d. rewrite !lookup_insert_Some. intros [[<- [= <- <-]]|[Hna Ha]] [[<- [= <-]]|[Hnb Hb]]; by eauto.
        -- intros y Hy. destruct (H3 y Hy) as [?|[c Hyc]]; [by left|right]. destruct (decide (l_value x = l_value y)) as [Hxy|Hne].
           ++ rewrite <-Hxy in *. simplify_eq. eexists. by rewrite lookup_insert_eq.
           ++ exists c. by rewrite lookup_insert_ne.
      * intros ch' c'. rewrite lookup_insert_eq. intros [= <- <-]. lia.
  - eexists (listeners v), (channels v). split_and!; [by destruct v| |by intros k]. eapply core_removed; [exact Hc|exact Hl|]. intros ch c. by rewrite Ev.
Qed.

Lemma Notify_ok v value :
  core (listeners v) (channels v) (handed v) →
  ∃ ls cs, Notify v value = Ret (set_maps v ls cs) ∧ core ls cs (tell value <$> handed v) ∧ more_closed (channels v) cs.
Proof.
  intros Hc. unfold Notify. destruct (listeners v !! value) as [[ch count]|] eqn:Ev.
  - destruct (core_close _ _ _ _ _ _ Hc Ev) as (-> & Hcore & Hall). cbn. eexists _, _. split_and!; [done| |apply close_more].
    by apply core_told_all.
  - eexists (listeners v), (channels v). split_and!; [by destruct v| |by intros k]. apply core_told_all; [done|]. by apply core_none with (listeners v).
Qed.

(** ** Ownership and results *)

Lemma owned_quiet gs hs i p p' :
  gs !! i = Some p → (∀ l, closing l p' = closing l p) → (∀ l, removing l p' = removing l p) → owned gs hs → owned (<[i:=p']> gs) hs.
Proof.
  intros Hi Hc Hr Ho l. specialize (Ho l). rewrite !(zsum_insert _ _ _ _ _ Hi), Hc, Hr.
  destruct (hs !! l); naive_solver lia.
Qed.

Lemma owned_same gs hs f :
  (∀ x, deregistered (f x) = deregistered x ∧ deregisteredChan (f x) = deregisteredChan x ∧ removed (f x) = removed x) →
  owned gs hs → owned gs (f <$> hs).
Proof.
  intros Hf Ho l. specialize (Ho l). rewrite list_lookup_fmap. destruct (hs !! l) as [x|]; [|done]. cbn.
  by destruct (Hf x) as (-> & -> & ->).
Qed.

Lemma owned_step gs hs i l x p p' f :
  gs !! i = Some p → hs !! l = Some x → owned gs hs →
  (∀ k, k ≠ l → closing k p' = closing k p ∧ removing k p' = removing k p) →
  (zsum (closing l) gs - closing l p + closing l p' = (if deregistered (f x) && negb (deregisteredChan (f x)) then 1 else 0)) →
  (zsum (removing l) gs - removing l p + removing l p' = (if deregisteredChan (f x) && negb (removed (f x)) then 1 else 0)) →
  (deregisteredChan (f x) = true → deregistered (f x) = true) → (removed (f x) = true → deregisteredChan (f x) = true) →
  owned (<[i:=p']> gs) (alter f l hs).
Proof.
  intros Hi Hl Ho Hk H1 H2 H3 H4 k. specialize (Ho k). rewrite !(zsum_insert _ _ _ _ _ Hi). destruct (decide (k = l)) as [->|Hne].
  - rewrite list_lookup_alter_eq, Hl. done.
  - rewrite list_lookup_alter_ne by done. destruct (Hk k Hne) as [-> ->]. destruct (hs !! k); naive_solver lia.
Qed.

Lemma explained_more cs cs' hs hs' rs :
  more_closed cs cs' →
  (∀ l x, hs !! l = Some x → ∃ y, hs' !! l = Some y ∧ channel y = channel x ∧ (deregistered x = true → deregistered y = true)) →
  explained cs hs rs → explained cs' hs' rs.
Proof.
  intros Hm Hhs He l r Hin. destruct (He l r Hin) as (x & Hx & Hr). destruct (Hhs l x Hx) as (y & Hy & Hch & Hd).
  exists y. split; [done|]. destruct r; [rewrite Hch; by apply Hm|by apply Hd|done].
Qed.

Lemma alter_forth f l (hs : list Listener) :
  (∀ x, channel (f x) = channel x ∧ (deregistered x = true → deregistered (f x) = true)) →
  ∀ k x, hs !! k = Some x → ∃ y, alter f l hs !! k = Some y ∧ channel y = channel x ∧ (deregistered x = true → deregistered y = true).
Proof.
  intros Hf k x Hk. destruct (decide (k = l)) as [->|Hne]; [|rewrite list_lookup_alter_ne by done; by exists x].
  rewrite list_lookup_alter_eq, Hk. eexists. split; [done|]. apply Hf.
Qed.

Lemma Deregister_inv v i l x p :
  inv v → goroutines v !! i = Some p → (∀ k, closing k p = 0) → (∀ k, removing k p = 0) → handed v !! l = Some x → inv (Deregister v i l x).
Proof.
  intros [Hc Ho He] Hi Hp1 Hp2 Hl. unfold Deregister. destruct (deregistered x) eqn:Ex.
  - constructor; cbn; [done| |done]. by eapply owned_quiet.
  - pose proof (Ho l) as Hol. rewrite Hl, Ex in Hol. destruct Hol as (H1 & H2 & H3 & H4).
    assert (deregisteredChan x = false) as Ed by (destruct (deregisteredChan x); [by specialize (H3 eq_refl)|done]).
    assert (removed x = false) as Er by (destruct (removed x); [specialize (H4 eq_refl); congruence|done]).
    rewrite Ed in H2. constructor; cbn.
    + by eapply core_alter.
    + eapply owned_step; [done..| | | | |].
      * intros k Hk. rewrite Hp1, Hp2. cbn. by rewrite decide_False.
      * rewrite H1, Hp1. cbn. rewrite decide_True by done. by rewrite Ed.
      * rewrite H2, Hp2. cbn. by rewrite Ed.
      * done.
      * cbn. by rewrite Er.
    + eapply explained_more; [by intros k| |done]. by apply alter_forth.
Qed.

Lemma close_deregistered_inv v i l :
  inv v → goroutines v !! i = Some (ClosingDeregistered l) →
  (∃ x, handed v !! l = Some x ∧ deregisteredChan x = false) ∧ inv (set_pc (with_listener v l close_deregistered) i (Removing l)).
Proof.
  intros [Hc Ho He] Hi. pose proof (Ho l) as Hol.
  assert (1 ≤ zsum (closing l) (goroutines v)) as Hz.
  { apply zsum_pos; [intros [] ; cbn; try lia; destruct (decide _); lia|]. eexists. split; [by eapply list_elem_of_lookup_2|].
    cbn. rewrite decide_True by done. lia. }
  destruct (handed v !! l) as [x|] eqn:Hl; [|lia]. destruct Hol as (H1 & H2 & H3 & H4).
  destruct (deregistered x) eqn:Ed, (deregisteredChan x) eqn:Ec; cbn in H1; try lia.
  assert (removed x = false) as Er by (destruct (removed x); [by specialize (H4 eq_refl)|done]).
  cbn in H2. split; [by exists x|]. constructor; cbn.
  - by eapply core_alter.
  - eapply owned_step; [done..| | | | |]; cbn.
    + intros k Hk. by rewrite !decide_False.
    + rewrite H1, decide_True by done. by rewrite Ed.
    + rewrite H2, decide_True by done. by rewrite Er.
    + by rewrite Ed.
    + done.
  - eapply explained_more; [by intros k| |done]. by apply alter_forth.
Qed.

Lemma remove_inv v i l x v' :
  inv v → goroutines v !! i = Some (Removing l) → handed v !! l = Some x → removeListener v (l_value x) = Ret v' →
  inv (set_pc (with_listener v' l mark_removed) i Ready).
Proof.
  intros [Hc Ho He] Hi Hl Hr. destruct (removeListener_ok v l x Hc Hl) as (ls & cs & E & Hcore & Hm).
  rewrite E in Hr. injection Hr as <-. pose proof (Ho l) as Hol. rewrite Hl in Hol. destruct Hol as (H1 & H2 & H3 & H4).
  assert (1 ≤ zsum (removing l) (goroutines v)) as Hz.
  { apply zsum_pos; [intros [] ; cbn; try lia; destruct (decide _); lia|]. eexists. split; [by eapply list_elem_of_lookup_2|].
    cbn. rewrite decide_True by done. lia. }
  destruct (deregisteredChan x) eqn:Ec, (removed x) eqn:Er; cbn in H2; try lia.
  constructor; cbn.
  - done.
  - eapply owned_step; [done..| | | | |]; cbn.
    + intros k Hk. by rewrite decide_False.
    + rewrite H1, Ec. lia.
    + rewrite H2, decide_True, Ec by done. done.
    + by rewrite Ec.
    + done.
  - eapply explained_more; [done| |done]. by apply alter_forth.
Qed.

Lemma explained_note cs hs rs l r x :
  hs !! l = Some x →
  match r with Notified => cs !! channel x = Some true | ErrListenerDeregistered => deregistered x = true | ContextDone => True end →
  explained cs hs rs → explained cs hs (rs ++ [(l, r)]).
Proof. intros Hl Hr He k q [Hin|[= -> ->]%list_elem_of_singleton]%elem_of_app; [by apply He|by exists x]. Qed.

(** Who waits has a listener. *)
Definition selecting_ok (v : Notifier) : Prop := ∀ i l, goroutines v !! i = Some (Selecting l) → (l < length (handed v))%nat.

Lemma selecting_set v i p :
  (∀ l, p = Selecting l → (l < length (handed v))%nat) → selecting_ok v → selecting_ok (set_pc v i p).
Proof. intros Hp Hs j l Hj. apply lookup_insert_case in Hj as [[-> <-]|[_ Hj]]; [by apply Hp|by eapply Hs]. Qed.

Lemma selecting_more v v' :
  goroutines v' = goroutines v → (length (handed v) ≤ length (handed v'))%nat → selecting_ok v → selecting_ok v'.
Proof. intros Hg Hl Hs j l Hj. rewrite Hg in Hj. specialize (Hs j l Hj). lia. Qed.

Lemma removeListener_frame v value v' : removeListener v value = Ret v' → ∃ ls cs, v' = set_maps v ls cs.
Proof.
  unfold removeListener. destruct (listeners v !! value) as [[ch c]|]; [|intros [= <-]; exists (listeners v), (channels v); by destruct v].
  destruct (c - 1 =? 0); [destruct (close (channels v) ch); [|done]|]; intros [= <-]; by eexists _, _.
Qed.

Lemma Notify_frame v value v' : Notify v value = Ret v' → ∃ ls cs, v' = set_maps v ls cs.
Proof.
  unfold Notify. destruct (listeners v !! value) as [[ch c]|]; [|intros [= <-]; exists (listeners v), (channels v); by destruct v].
  destruct (close (channels v) ch); [|done]. intros [= <-]. by eexists _, _.
Qed.

Lemma step_selecting v v' : step v v' → selecting_ok v → selecting_ok v'.
Proof.
  assert (∀ i l x, handed v !! l = Some x → selecting_ok v → selecting_ok (Deregister v i l x)) as Hdereg.
  { intros i l x Hl Hs. unfold Deregister. destruct (deregistered x); apply selecting_set; try done.
    eapply selecting_more; [| |exact Hs]; [done|]. cbn. by rewrite length_alter. }
  intros [i value Hi|i value Hi Hn|i value Hi Hn|i value v1 Hi HN|i l x Hi Hl|i l Hi|i l x v1 Hi Hl Hr|i l x Hi Hl Hd|i l x Hi Hl Hd
    |i l x Hi Hl Hch|i l x Hi Hl Hd|i l Hi|i l x Hi Hl] Hs; try (by apply selecting_set); try (by eapply Hdereg).
  - eapply selecting_more; [| |done]; unfold Listener_; destruct (listeners v !! value) as [[ch c]|]; cbn; rewrite ?length_app; done || lia.
  - eapply selecting_more; [| |exact Hs]; [done|]. cbn. by rewrite length_fmap.
  - apply Notify_frame in HN as (ls & cs & ->). apply selecting_set; [done|]. eapply selecting_more; [| |exact Hs]; [done|]. cbn. by rewrite length_fmap.
  - apply selecting_set; [done|]. eapply selecting_more; [| |exact Hs]; [done|]. cbn. by rewrite length_alter.
  - apply removeListener_frame in Hr as (ls & cs & ->). apply selecting_set; [done|].
    eapply selecting_more; [| |exact Hs]; [done|]. cbn. by rewrite length_alter.
  - apply selecting_set; [|done]. intros k [= <-]. by eapply lookup_lt_Some.
  - done.
Qed.

Lemma notifier_step_inv v v' :
  step v v' → selecting_ok v → inv v → inv v'.
Proof.
  intros Hs Hsel Hinv. pose proof Hinv as [Hc Ho He].
  destruct Hs as [i value Hi|i value Hi Hn|i value Hi Hn|i value v1 Hi HN|i l x Hi Hl|i l Hi|i l x v1 Hi Hl Hr|i l x Hi Hl Hd|i l x Hi Hl Hd
    |i l x Hi Hl Hch|i l x Hi Hl Hd|i l Hi|i l x Hi Hl].
  - constructor; [by apply Listener_core| |].
    + unfold Listener_. intros k. specialize (Ho k).
      assert (∀ ch, match (handed v ++ [newListener value ch]) !! k with
        | Some x => zsum (closing k) (goroutines v) = (if deregistered x && negb (deregisteredChan x) then 1 else 0) ∧
            zsum (removing k) (goroutines v) = (if deregisteredChan x && negb (removed x) then 1 else 0) ∧
            (deregisteredChan x = true → deregistered x = true) ∧ (removed x = true → deregisteredChan x = true)
        | None => zsum (closing k) (goroutines v) = 0 ∧ zsum (removing k) (goroutines v) = 0 end) as Hk.
      { intros ch. destruct ((handed v ++ _) !! k) as [x|] eqn:Ek.
        - apply lookup_snoc_Some in Ek as [Ek|[-> ->]]; [by rewrite Ek in Ho|]. rewrite lookup_ge_None_2 in Ho by lia. naive_solver.
        - apply lookup_ge_None in Ek. rewrite length_app in Ek. cbn in Ek. by rewrite lookup_ge_None_2 in Ho by lia. }
      destruct (listeners v !! value) as [[ch c]|]; apply Hk.
    + unfold Listener_. destruct (listeners v !! value) as [[ch c]|]; cbn; (eapply explained_more; [| |done]).
      * by intros k.
      * intros k x Hk. exists x. split; [by apply lookup_app_l_Some|done].
      * intros k Hk. by apply lookup_app_l_Some.
      * intros k x Hk. exists x. split; [by apply lookup_app_l_Some|done].
  - constructor; cbn; [apply core_told_all; [done|by apply core_none with (listeners v)]|by apply owned_same|].
    eapply explained_more; [by intros k| |done]. intros k x Hk. rewrite list_lookup_fmap, Hk. by eexists.
  - constructor; cbn; [done|by eapply owned_quiet|done].
  - destruct (Notify_ok v value Hc) as (ls & cs & E & Hcore & Hm). rewrite E in HN. injection HN as <-.
    constructor; cbn; [done|eapply owned_quiet; [done..|by apply owned_same]|].
    eapply explained_more; [done| |done]. intros k x Hk. rewrite list_lookup_fmap, Hk. by eexists.
  - by eapply Deregister_inv.
  - by eapply close_deregistered_inv.
  - by eapply remove_inv.
  - constructor; cbn; [done|by eapply owned_quiet|done].
  - constructor; cbn; [done|done|by eapply explained_note].
  - constructor; cbn; [done|by eapply owned_quiet|by eapply explained_note].
  - constructor; cbn; [done|by eapply owned_quiet|]. eapply explained_note; [done| |done]. cbn.
    pose proof (Ho l) as Hol. rewrite Hl in Hol. naive_solver.
  - constructor; cbn; [done|by eapply owned_quiet|]. destruct (lookup_lt_is_Some_2 _ _ (Hsel i l Hi)) as [x Hx].
    by eapply explained_note.
  - by eapply Deregister_inv.
Qed.

Lemma notifier_reachable_inv n v : reachable n v → inv v ∧ selecting_ok v.
Proof.
  intros Hr. unfold reachable in Hr. eapply (rtc_ind_r (λ v, inv v ∧ selecting_ok v)) in Hr; [done| |].
  - split; [constructor|]; cbn.
    + constructor; try (intros *; by rewrite lookup_empty); by intros x ?%not_elem_of_nil.
    + intros l. rewrite lookup_nil. clear. split; (induction n as [|n IH]; [done|]); cbn; by rewrite IH.
    + intros l r ?%not_elem_of_nil. done.
    + intros i l [? _]%lookup_replicate_1. done.
  - intros v1 v2 _ Hs [Hi Hsel]. split; [by eapply notifier_step_inv|by eapply step_selecting].
Qed.
End notifier.

Arguments Notifier : clear implicits.
Arguments Notifier T {_ _}.

(** C18: no notification is missed, and nothing is left behind, in every interleaving
    of [Listener], [Notify], [Deregister] and [Wait].  No channel is closed twice, so
    nothing panics.  After a call of [Notify] the channel of each listener for the
    value that existed before is closed, so its [Wait] can return without an error;
    [Wait] returns without an error only when that channel is closed, and
    [ErrListenerDeregistered] only when the listener was deregistered.  When no call
    is under way and all listeners for a value were deregistered, the notifier has no
    entry for the value. *)
Theorem ValueNotifier_reliable {T} `{Countable T} n (v : Notifier T) :
  reachable n v →
  ((∀ value, returns (Notify v value)) ∧ (∀ l x, handed v !! l = Some x → returns (removeListener v (l_value x))) ∧
    (∀ i l, goroutines v !! i = Some (ClosingDeregistered l) → ∃ x, handed v !! l = Some x ∧ deregisteredChan x = false)) ∧
  (∀ x, x ∈ handed v → told x = true → channels v !! channel x = Some true) ∧
  (∀ l r, (l, r) ∈ results v → ∃ x, handed v !! l = Some x ∧
    (r = Notified → channels v !! channel x = Some true) ∧ (r = ErrListenerDeregistered → deregistered x = true)) ∧
  ((∀ p, p ∈ goroutines v → p = Ready) → ∀ value,
    (∀ x, x ∈ handed v → l_value x = value → deregistered x = true) → listeners v !! value = None).
Proof.
  intros Hr. destruct (notifier_reachable_inv n v Hr) as [Hinv _]. pose proof Hinv as [Hc Ho He]. split_and!.
  - intros value. destruct (Notify_ok v value Hc) as (ls & cs & -> & _). by eexists.
  - intros l x Hl. destruct (removeListener_ok v l x Hc Hl) as (ls & cs & -> & _). by eexists.
  - intros i l Hi. by destruct (close_deregistered_inv v i l Hinv Hi).
  - apply Hc.
  - intros l r Hin. destruct (He l r Hin) as (x & Hx & Hrx). exists x. split; [done|]. by destruct r.
  - intros Hready value Hall. destruct (listeners v !! value) as [[ch c]|] eqn:Ev; [|done]. exfalso.
    destruct (core_entry _ _ _ Hc _ _ _ Ev) as (_ & Hc1 & Hc2).
    assert (1 ≤ zsum (live value) (handed v)) as Hz1 by lia. apply zsum_pos in Hz1 as (x & Hx & Hlive); [|apply live_nonneg].
    unfold live in Hlive. destruct (decide _) as [[Hv Hrm]|]; [|lia]. apply list_elem_of_lookup in Hx as [l Hl].
    specialize (Hall x (list_elem_of_lookup_2 _ _ _ Hl) Hv). pose proof (Ho l) as Hol. rewrite Hl, Hall, Hrm in Hol.
    assert (∀ f : notify_pc → Z, f Ready = 0 → zsum f (goroutines v) = 0) as Hz.
    { intros f Hf. clear -Hf Hready. induction (goroutines v) as [|p ps IH]; [done|]. cbn. rewrite (Hready p) by left.
      rewrite Hf, IH; [done|]. intros q Hq. apply Hready. by right. }
    destruct Hol as (H1 & H2 & _). rewrite Hz in H1, H2 by done. destruct (deregisteredChan x); cbn in *; lia.
Qed.

(** A listener, a notification, a new listener for the same value, and then the first one returns from [Wait]. *)
Definition stale : Notifier Z :=
  mkNotifier ∅ [true; true] [mkListener 5 0 true true true true; mkListener 5 1 false false false false] [Ready] [(0%nat, Notified)].

Lemma notifier_step {T} `{Countable T} n (v v' : Notifier T) : reachable n v → step v v' → reachable n v'.
Proof. apply rtc_r. Qed.

Lemma stale_reachable : reachable 1 stale.
Proof.
  assert (reachable 1 (New (T:=Z) 1)) as Hr by apply rtc_refl.
  eapply notifier_step in Hr; [|by eapply (step_listener _ 0 5)].
  eapply notifier_step in Hr; [|eapply (step_notify_some _ 0 5); [done|by vm_compute; eexists]].
  eapply notifier_step in Hr; [|eapply (step_notify _ 0 5); [done|reflexivity]].
  eapply notifier_step in Hr; [|by eapply (step_listener _ 0 5)].
  eapply notifier_step in Hr; [|by eapply (step_wait _ 0 0)].
  eapply notifier_step in Hr; [|by eapply (step_select_channel _ 0 0)].
  eapply notifier_step in Hr; [|by eapply (step_wait_deregister _ 0 0)].
  eapply notifier_step in Hr; [|by eapply (step_close_deregistered _ 0 0)].
  eapply notifier_step in Hr; [|eapply (step_remove _ 0 0); [done|reflexivity|reflexivity]].
  exact Hr.
Qed.

Lemma ValueNotifier_reliable_witness :
  reachable 1 stale ∧ ∀ x, x ∈ handed stale → told x = true → channels stale !! channel x = Some true.
Proof. split; [apply stale_reachable|]. apply (ValueNotifier_reliable 1 stale stale_reachable). Defined.

(** The listener that was notified is counted among the new ones when it is deregistered: the channel of
    the second listener was closed, and its [Wait] returns, although nobody called [Notify]. *)
Lemma stale_deregister_notifies :
  reachable 1 stale ∧ ∃ x, handed stale !! 1%nat = Some x ∧ told x = false ∧ channels stale !! channel x = Some true ∧
    listeners stale !! l_value x = None.
Proof. split; [apply stale_reachable|]. by eexists. Qed.
