(* ===== verification/Backoff.v ===== *)
(** * runtime/backoff

    [src/runtime/backoff/backoff.go] and [options.go].  A policy is a value of
    [Policy], with the options that were applied to it around it; [NextBackOff]
    returns the policy with its new state.  Durations are numbers of nanoseconds
    ([int64]); the products with floats are those of IEEE float64.

    What a call reads from outside is an [environment]: the time, whether the
    context is done, and the random number.  A call of the function that is retried
    is an [attempt]; [As] finds the permanent error in the chain of an error. *)

From Stdlib Require Import Floats.SpecFloat.
From S2P Require Import Prelude.

(** ** float64 *)

Definition float64 : Type := spec_float.
Definition f64_of_int (z : Z) : float64 := binary_normalize 53 1024 z 0 false.
Definition f64_mul (a b : float64) : float64 := SFmul 53 1024 a b.
Definition f64_sub (a b : float64) : float64 := SFsub 53 1024 a b.
Definition f64_zero : float64 := S754_zero false.

(** [randomFactor <= 0] *)
Definition f64_nonpositive (a : float64) : bool := SFleb a f64_zero.

(** [time.Duration(x)]: towards zero; what does not fit becomes the smallest number,
    as on amd64. *)
Definition f64_to_int (a : float64) : Z :=
  match a with
  | S754_zero _ => 0
  | S754_finite s m e =>
      let z := (if s then -1 else 1) * (if e <? 0 then Z.shiftr (Z.pos m) (- e) else Z.shiftl (Z.pos m) e) in
      if (ity_min I64 <=? z) && (z <=? ity_max I64) then z else ity_min I64
  | _ => ity_min I64
  end.

(** ** Policies *)

Definition Stop : Z := -1.

Record environment : Type := mkEnv { now : Z; ctx_done : bool; random : float64 }.

(** The functions of stateless options. *)
Inductive duration_func : Type :=
  | MaxInterval (maxInterval : Z)
  | Timeout (timeout : Z)
  | Cancel
  | Jitter (randomFactor : float64).

Definition run_func (env : environment) (f : duration_func) (duration : Z) : Z :=
  match f with
  | MaxInterval maxInterval => if duration >? maxInterval then maxInterval else duration
  | Timeout timeout =>
      if duration =? Stop then Stop
      else if now env >? timeout then Stop
      else if now env + duration >? timeout then timeout - now env
      else duration
  | Cancel => if ctx_done env then Stop else duration
  | Jitter randomFactor =>
      if duration =? Stop then Stop
      else if f64_nonpositive randomFactor then duration
      else
        let delta := f64_mul randomFactor (f64_of_int duration) in
        f64_to_int (f64_sub (f64_of_int duration) (f64_mul (random env) delta))
  end.

Inductive Policy : Type :=
  | zeroPolicy
  | constantPolicy (Interval : Z)
  | exponentialPolicy (initialInterval : Z) (factor : float64) (currentInterval : Z)
  | statelessOption (delegate : Policy) (f : duration_func)
  | maxRetriesOption (delegate : Policy) (maxTries numTries : Z)
  | BackOff (p : Policy).

Definition NewBackOff (policy : Policy) : Policy := match policy with BackOff _ => policy | _ => BackOff policy end.

Definition ZeroBackOff : Policy := NewBackOff zeroPolicy.
Definition ConstantBackOff (d : Z) : Policy := NewBackOff (constantPolicy d).
Definition ExponentialBackOff (initialInterval : Z) (factor : float64) : Policy :=
  NewBackOff (exponentialPolicy initialInterval factor initialInterval).

Definition incrementCurrentInterval (initialInterval : Z) (factor : float64) (currentInterval : Z) : Policy :=
  exponentialPolicy initialInterval factor (f64_to_int (f64_mul (f64_of_int currentInterval) factor)).

Fixpoint NextBackOff (env : environment) (p : Policy) : Policy * Z :=
  match p with
  | zeroPolicy => (p, 0)
  | constantPolicy interval => (p, interval)
  | exponentialPolicy initialInterval factor currentInterval =>
      (incrementCurrentInterval initialInterval factor currentInterval, currentInterval)
  | statelessOption delegate f =>
      let '(delegate, d) := NextBackOff env delegate in (statelessOption delegate f, run_func env f d)
  | maxRetriesOption delegate maxTries numTries =>
      if maxTries =? 0 then (p, Stop)
      else if (maxTries >? 0) && (maxTries <=? numTries) then (p, Stop)
      else
        let numTries := if maxTries >? 0 then numTries + 1 else numTries in
        let '(delegate, d) := NextBackOff env delegate in (maxRetriesOption delegate maxTries numTries, d)
  | BackOff p => let '(p, d) := NextBackOff env p in (BackOff p, d)
  end.

Fixpoint New (p : Policy) : Policy :=
  match p with
  | statelessOption delegate f => statelessOption (New delegate) f
  | maxRetriesOption delegate maxTries _ => maxRetriesOption (New delegate) maxTries 0
  | BackOff p => New p
  | _ => p
  end.

Inductive Option_ : Type := MaxRetries (max : Z) | Stateless (f : duration_func).

Definition apply (o : Option_) (p : Policy) : Policy :=
  match o with
  | MaxRetries max => maxRetriesOption p max 0
  | Stateless f => statelessOption p f
  end.

Definition With (b : Policy) (opts : list Option_) : Policy :=
  NewBackOff (foldl (λ p o, apply o p) (match b with BackOff p => p | _ => b end) opts).

(** ** Retry *)

(** An error and the error that a permanent error in its chain wraps. *)
Inductive attempt : Type := Succeeded | Failed (e : error) (As : option error).

(** The error that is returned, the number of calls and the times that were slept;
    [None] when the fuel was not enough. *)
Fixpoint retry (fuel : nat) (p : Policy) (f : nat → attempt) (env : nat → environment) (calls : nat) (slept : list Z) :
    option (option error * nat * list Z) :=
  match fuel with
  | O => None
  | S fuel =>
      match f calls with
      | Succeeded => Some (None, S calls, slept)
      | Failed _ (Some permanent) => Some (Some permanent, S calls, slept)
      | Failed err None =>
          let '(p, duration) := NextBackOff (env calls) p in
          if duration =? Stop then Some (Some err, S calls, slept)
          else retry fuel p f env (S calls) (slept ++ [duration])
      end
  end.

Definition Retry (fuel : nat) (p : Policy) (f : nat → attempt) (env : nat → environment) : option (option error * nat * list Z) :=
  retry fuel (New p) f env 0 [].

(** ** How many retries are left *)

(** Options that pass [Stop] on. *)
Definition stops (f : duration_func) : bool := match f with MaxInterval m => Stop <=? m | _ => true end.

Definition min_opt (n : Z) (o : option Z) : Z := match o with Some m => Z.min n m | None => n end.

Fixpoint left (p : Policy) : option Z :=
  match p with
  | statelessOption delegate f => if stops f then left delegate else None
  | maxRetriesOption delegate maxTries numTries =>
      if maxTries <? 0 then left delegate else Some (min_opt (maxTries - numTries) (left delegate))
  | BackOff p => left p
  | _ => None
  end.

Lemma run_func_Stop env f : stops f = true → run_func env f Stop = Stop.
Proof.
  destruct f as [m|t| |rf]; cbn; try done.
  - intros Hm%Z.leb_le. rewrite Z.gtb_ltb. destruct (Z.ltb_spec m Stop); unfold Stop in *; lia.
  - by destruct (ctx_done env).
Qed.

(** Each call takes one, and when none is left it stops. *)
Lemma NextBackOff_left env p n :
  left p = Some n → (NextBackOff env p).2 = Stop ∨ 0 < n ∧ ∃ n', left (NextBackOff env p).1 = Some n' ∧ n' ≤ n - 1.
Proof.
  revert n. induction p as [|d|i fa c|p IH f|p IH mx num|p IH]; intros n; cbn [left NextBackOff]; try done.
  - destruct (stops f) eqn:Es; [|done]. intros Hl. destruct (NextBackOff env p) as [p' d] eqn:E. cbn in *.
    destruct (IH n Hl) as [->|(Hn & n' & Hl' & Hle)]; [left; by apply run_func_Stop|right]. split; [done|]. exists n'. by rewrite Es.
  - destruct (Z.ltb_spec mx 0) as [Hneg|Hpos].
    + intros Hl. rewrite (proj2 (Z.eqb_neq mx 0)) by lia. rewrite Z.gtb_ltb, (proj2 (Z.ltb_ge 0 mx)) by lia. cbn [andb].
      destruct (NextBackOff env p) as [p' d] eqn:E. cbn in *. destruct (IH n Hl) as [?|(Hn & n' & Hl' & Hle)]; [by left|right].
      split; [done|]. exists n'. by rewrite (proj2 (Z.ltb_lt mx 0)) by lia.
    + intros [= <-]. destruct (Z.eqb_spec mx 0) as [->|Hne]; [by left|]. rewrite Z.gtb_ltb, (proj2 (Z.ltb_lt 0 mx)) by lia. cbn [andb].
      destruct (Z.leb_spec mx num); [by left|]. destruct (NextBackOff env p) as [p' d] eqn:E. cbn in *.
      rewrite (proj2 (Z.ltb_ge mx 0)) by lia. destruct (left p) as [m|] eqn:El; cbn.
      * destruct (IH m eq_refl) as [?|(Hn & n' & Hl' & Hle)]; [by left|right]. rewrite Hl'. cbn.
        split; [lia|]. eexists. split; [done|]. lia.
      * right. split; [lia|]. eexists. split; [done|]. destruct (left p') as [m'|]; cbn; lia.
  - intros Hl. destruct (NextBackOff env p) as [p' d] eqn:E. cbn in *. by apply IH.
Qed.

(** [New] starts again. *)
Fixpoint tries (p : Policy) : option Z :=
  match p with
  | statelessOption delegate f => if stops f then tries delegate else None
  | maxRetriesOption delegate maxTries _ => if maxTries <? 0 then tries delegate else Some (min_opt maxTries (tries delegate))
  | BackOff p => tries p
  | _ => None
  end.

Lemma left_New p : left (New p) = tries p.
Proof.
  induction p as [|d|i fa c|p IH f|p IH mx num|p IH]; cbn [New left tries]; rewrite ?IH; try done. by rewrite Z.sub_0_r.
Qed.

(** How a call of [retry] ends. *)
Definition ended (f : nat → attempt) (from calls : nat) (err : option error) : Prop :=
  (from < calls)%nat ∧
  (∀ i, (from ≤ i < calls - 1)%nat → ∃ e, f i = Failed e None) ∧
  match f (calls - 1)%nat with
  | Succeeded => err = None
  | Failed _ (Some permanent) => err = Some permanent
  | Failed e None => err = Some e
  end.

Lemma retry_bounded fuel p f env from slept n :
  left p = Some n → (Z.to_nat n < fuel)%nat →
  ∃ err calls slept', retry fuel p f env from slept = Some (err, calls, slept') ∧ ended f from calls err ∧
    (calls ≤ from + Z.to_nat n + 1)%nat.
Proof.
  revert p from slept n. induction fuel as [|fuel IH]; intros p from slept n Hl Hf; [lia|]. cbn [retry].
  assert (ended f from (S from) match f from with Succeeded => None | Failed _ (Some perm) => Some perm | Failed e None => Some e end) as Hend.
  { split_and!; [lia|intros i Hi; lia|]. replace (S from - 1)%nat with from by lia. by destruct (f from) as [|? [|]]. }
  destruct (f from) as [|e [perm|]] eqn:Ef; [eexists _, _, _; split_and!; [done|done|lia]..|].
  destruct (NextBackOff (env from) p) as [p' d] eqn:En. pose proof (NextBackOff_left (env from) p n Hl) as Hn. rewrite En in Hn. cbn in Hn.
  destruct (Z.eqb_spec d Stop) as [|Hd]; [eexists _, _, _; split_and!; [done|done|lia]|].
  destruct Hn as [?|(Hpos & n' & Hl' & Hle)]; [done|].
  destruct (IH p' (S from) (slept ++ [d]) n' Hl') as (err & calls & slept' & -> & (H1 & H2 & H3) & Hc); [lia|].
  eexists _, _, _. split_and!; [done| |lia]. split_and!; [lia| |done]. intros i Hi.
  destruct (decide (i = from)) as [->|]; [by exists e|]. apply H2. lia.
Qed.

(** ** Properties *)

(** C40: retrying with a limit ends.  With [MaxRetries n] among the options of a
    policy, [Retry] returns, whatever the function does: it has called it at least
    once and at most [n + 1] times, all calls but the last one failed, and it returns
    what the last one did, unwrapped if it is a permanent error. *)
Theorem Retry_terminates p n f env fuel :
  tries p = Some n → (Z.to_nat n < fuel)%nat →
  ∃ err calls slept, Retry fuel p f env = Some (err, calls, slept) ∧ ended f 0 calls err ∧ (calls ≤ Z.to_nat n + 1)%nat.
Proof. intros Ht Hf. unfold Retry. destruct (retry_bounded fuel (New p) f env 0 [] n) as (err & calls & slept & H); [by rewrite left_New|done|]. by exists err, calls, slept. Qed.

Lemma Retry_terminates_witness :
  ∃ err calls slept,
    Retry 4 (With (ConstantBackOff 5) [MaxRetries 3; Stateless Cancel]) (λ _, Failed (ErrNew "no") None)
      (λ _, mkEnv 0 false f64_zero) = Some (err, calls, slept) ∧
    ended (λ _, Failed (ErrNew "no") None) 0 calls err ∧ (calls ≤ Z.to_nat 3 + 1)%nat.
Proof. apply Retry_terminates; [reflexivity|vm_compute; lia]. Defined.

(** [New] of an exponential policy does not go back to the initial interval. *)
Lemma exponential_New_keeps_interval :
  let p := ExponentialBackOff 1000 (f64_of_int 2) in
  let env := mkEnv 0 false f64_zero in
  (NextBackOff env (New (NextBackOff env p).1)).2 = 2000.
Proof. by vm_compute. Qed.

(** [Jitter(0.25)] with a random number close to 0 gives the whole duration, and with
    one close to 1 three quarters of it; the documentation says a quarter. *)
Lemma jitter_interval :
  let quarter := S754_finite false 4503599627370496 (-54) in
  run_func (mkEnv 0 false f64_zero) (Jitter quarter) 1000 = 1000 ∧
  run_func (mkEnv 0 false (S754_finite false 9007199254740991 (-53))) (Jitter quarter) 1000 = 750.
Proof. by vm_compute. Qed.
