(* ===== verification/EventTicker.v ===== *)
(** * core/memstorage and core/eventticker

    [src/core/memstorage/indexedstorage.go] and [src/core/eventticker/eventticker.go].

    - A storage is a map of maps; the storages that [Get] returns are changed in
      place, which changes the map of the index.
    - The executor of [TimedExecutor.v] is used through [ExecuteAfter], [Cancel] and
      [Shutdown]: [tasks] are the closures that [createReScheduler] made and that are
      scheduled, by number; [fire] runs one of them, at any time.
    - Each operation is one function.  [addTickerToQueue] only takes a read lock, so
      that two calls of it can overlap: it is the composition of [add_check] and
      [add_schedule], which others may come between (see [overlapping_starts]). *)

From S2P Require Import Prelude.

(** ** IndexedStorage *)

Section storage.
Context {K V : Type} `{Countable K}.

Notation storages := (gmap Z (gmap K V)).

Definition NewIndexedStorage : storages := ∅.

Definition Get (e : storages) (index : Z) (createIfMissing : list bool) : storages * option (gmap K V) :=
  match e !! index with
  | Some storage => (e, Some storage)
  | None => if default false (head createIfMissing) then (<[index := ∅]> e, Some ∅) else (e, None)
  end.

Definition Evict (e : storages) (index : Z) : storages * option (gmap K V) :=
  match e !! index with
  | Some storage => (delete index e, Some storage)
  | None => (e, None)
  end.

(** The keys and the storages, in the order of the map. *)
Definition Clear (e : storages) : storages * list Z * list (gmap K V) :=
  (∅, (map_to_list e).*1, (map_to_list e).*2).

(** [storage.Set(k, v)] and [storage.Delete(k)] on the storage of an index. *)
Definition set_in (e : storages) (index : Z) (k : K) (v : V) : storages := alter <[k := v]> index e.
Definition delete_in (e : storages) (index : Z) (k : K) : storages := alter (base.delete k) index e.

Definition find (e : storages) (index : Z) (k : K) : option V := e !! index ≫= λ s, s !! k.

Lemma find_Get e index l k i : find (Get e index l).1 i k = find e i k.
Proof.
  unfold Get, find. destruct (e !! index) as [s|] eqn:E; [done|]. destruct (default false (head l)); [|done]. cbn [fst].
  destruct (decide (i = index)) as [->|]; [|by rewrite lookup_insert_ne]. by rewrite lookup_insert_eq, E.
Qed.

Lemma find_set_in e index k v i k' :
  is_Some (e !! index) → find (set_in e index k v) i k' = if decide (i = index ∧ k' = k) then Some v else find e i k'.
Proof.
  intros [s Hs]. unfold find, set_in. destruct (decide (i = index)) as [->|Hi].
  - rewrite lookup_alter_eq, Hs. cbn. destruct (decide (k' = k)) as [->|Hk].
    + rewrite lookup_insert_eq. by rewrite decide_True.
    + rewrite lookup_insert_ne by done. rewrite decide_False; [done|]. by intros [_ ?].
  - rewrite lookup_alter_ne by done. rewrite decide_False; [done|]. by intros [? _].
Qed.

Lemma find_delete_in e index k i k' :
  find (delete_in e index k) i k' = if decide (i = index ∧ k' = k) then None else find e i k'.
Proof.
  unfold find, delete_in. destruct (decide (i = index)) as [->|Hi].
  - rewrite lookup_alter_eq. destruct (e !! index) as [s|]; cbn; [|by destruct (decide _)].
    destruct (decide (k' = k)) as [->|Hk].
    + rewrite lookup_delete_eq. by rewrite decide_True.
    + rewrite lookup_delete_ne by done. rewrite decide_False; [done|]. by intros [_ ?].
  - rewrite lookup_alter_ne by done. rewrite decide_False; [done|]. by intros [? _].
Qed.

Lemma find_Evict e index i k : find (Evict e index).1 i k = if decide (i = index) then None else find e i k.
Proof.
  unfold Evict, find. destruct (e !! index) as [s|] eqn:E; cbn; (destruct (decide (i = index)) as [->|Hi]).
  - by rewrite lookup_delete_eq.
  - by rewrite lookup_delete_ne.
  - by rewrite E.
  - done.
Qed.

End storage.

Lemma size_delete_Some {A} (m : gmap nat A) i a : m !! i = Some a → size m = S (size (base.delete i m)).
Proof.
  intros Hi. rewrite <-(insert_delete_id m i a Hi) at 1. by rewrite map_size_insert_None by apply lookup_delete_eq.
Qed.

(** ** EventTicker *)

Section ticker.
Context {T : Type} `{Countable T} (Index : T → Z).

Inductive ticker_event : Type := TickerStarted (id : T) | Tick (id : T) | TickerStopped (id : T) | TickerFailed (id : T).

Record EventTicker : Type := mkTicker {
  scheduledTickers : gmap Z (gmap T nat);
  scheduledTickerCount : Z;
  lastEvictedIndex : Z;
  optsMaxRequestThreshold : Z;
  tasks : gmap nat (T * Z);
  next_task : nat;
  closed : bool;                  (* the executor was shut down *)
  log : list ticker_event;
}.

Definition New (maxRequestThreshold : Z) : EventTicker := mkTicker ∅ 0 0 maxRequestThreshold ∅ 0 false [].

Definition set_tickers (r : EventTicker) (s : gmap Z (gmap T nat)) : EventTicker :=
  mkTicker s (scheduledTickerCount r) (lastEvictedIndex r) (optsMaxRequestThreshold r) (tasks r) (next_task r) (closed r) (log r).
Definition updateScheduledTickerCount (r : EventTicker) (diff : Z) : EventTicker :=
  mkTicker (scheduledTickers r) (scheduledTickerCount r + diff) (lastEvictedIndex r) (optsMaxRequestThreshold r) (tasks r)
    (next_task r) (closed r) (log r).
Definition trigger (r : EventTicker) (ev : ticker_event) : EventTicker :=
  mkTicker (scheduledTickers r) (scheduledTickerCount r) (lastEvictedIndex r) (optsMaxRequestThreshold r) (tasks r)
    (next_task r) (closed r) (log r ++ [ev]).

(** The executor. *)
Definition ExecuteAfter (r : EventTicker) (id : T) (count : Z) : EventTicker * option nat :=
  if closed r then (r, None)
  else
    (mkTicker (scheduledTickers r) (scheduledTickerCount r) (lastEvictedIndex r) (optsMaxRequestThreshold r)
       (<[next_task r := (id, count)]> (tasks r)) (S (next_task r)) (closed r) (log r), Some (next_task r)).
Definition Cancel (r : EventTicker) (t : nat) : EventTicker :=
  mkTicker (scheduledTickers r) (scheduledTickerCount r) (lastEvictedIndex r) (optsMaxRequestThreshold r)
    (base.delete t (tasks r)) (next_task r) (closed r) (log r).

(** [addTickerToQueue] until it has found that there is no such ticker. *)
Definition add_check (r : EventTicker) (id : T) : EventTicker * bool :=
  if Index id <=? lastEvictedIndex r then (r, false)
  else
    let '(s, queue) := Get (scheduledTickers r) (Index id) [true] in
    let r := set_tickers r s in
    match queue ≫= λ q, q !! id with Some _ => (r, false) | None => (r, true) end.

Definition schedule (r : EventTicker) (id : T) (count : Z) : EventTicker :=
  match ExecuteAfter r id count with
  | (r, Some scheduledTask) => set_tickers r (set_in (scheduledTickers r) (Index id) id scheduledTask)
  | (r, None) => r
  end.

(** The rest of it. *)
Definition add_schedule (r : EventTicker) (id : T) : EventTicker := updateScheduledTickerCount (schedule r id 0) 1.

Definition addTickerToQueue (r : EventTicker) (id : T) : EventTicker * bool :=
  match add_check r id with
  | (r, false) => (r, false)
  | (r, true) => (add_schedule r id, true)
  end.

Definition StartTicker (r : EventTicker) (id : T) : EventTicker :=
  match addTickerToQueue r id with
  | (r, true) => trigger (trigger r (TickerStarted id)) (Tick id)
  | (r, false) => r
  end.

Definition StartTickers (r : EventTicker) (ids : list T) : EventTicker := foldl StartTicker r ids.

Definition stopTicker (r : EventTicker) (id : T) : EventTicker * bool :=
  match (Get (scheduledTickers r) (Index id) []).2 with
  | None => (r, false)
  | Some storage =>
      match storage !! id with
      | None => (r, false)
      | Some timer =>
          let r := Cancel r timer in
          let r := set_tickers r (delete_in (scheduledTickers r) (Index id) id) in
          (updateScheduledTickerCount r (-1), true)
      end
  end.

Definition StopTicker (r : EventTicker) (id : T) : EventTicker :=
  match stopTicker r id with (r, true) => trigger r (TickerStopped id) | (r, false) => r end.

Definition HasTicker (r : EventTicker) (id : T) : bool :=
  if Index id <=? lastEvictedIndex r then false
  else match (Get (scheduledTickers r) (Index id) [false]).2 with
       | Some queue => bool_decide (is_Some (queue !! id))
       | None => false
       end.

Definition QueueSize (r : EventTicker) : Z := scheduledTickerCount r.

(** The body of the loop of [EvictUntil]. *)
Definition evict_index (r : EventTicker) (currentIndex : Z) : EventTicker :=
  match Evict (scheduledTickers r) currentIndex with
  | (s, Some evictedStorage) =>
      let r := foldl Cancel (set_tickers r s) (map_to_list evictedStorage).*2 in
      updateScheduledTickerCount r (- Z.of_nat (size evictedStorage))
  | (_, None) => r
  end.

(** The index is a [uint32], whose counter starts again after the last one. *)
Fixpoint evict_loop (fuel : nat) (currentIndex index : Z) (r : EventTicker) : option EventTicker :=
  match fuel with
  | O => None
  | S fuel =>
      if currentIndex <=? index then evict_loop fuel (wrap U32 (currentIndex + 1)) index (evict_index r currentIndex)
      else Some r
  end.

Definition EvictUntil (fuel : nat) (r : EventTicker) (index : Z) : option EventTicker :=
  if index <=? lastEvictedIndex r then Some r
  else
    match evict_loop fuel (wrap U32 (lastEvictedIndex r + 1)) index r with
    | None => None
    | Some r => Some (mkTicker (scheduledTickers r) (scheduledTickerCount r) index (optsMaxRequestThreshold r) (tasks r)
                        (next_task r) (closed r) (log r))
    end.

Definition all_tickers (r : EventTicker) : list T := concat ((λ s : gmap T nat, (map_to_list s).*1) <$> (map_to_list (scheduledTickers r)).*2).

Definition Clear_ (r : EventTicker) : EventTicker := foldl StopTicker r (all_tickers r).

(** [Shutdown(CancelPendingElements)] *)
Definition Shutdown (r : EventTicker) : EventTicker :=
  mkTicker (scheduledTickers r) (scheduledTickerCount r) (lastEvictedIndex r) (optsMaxRequestThreshold r) ∅
    (next_task r) true (log r).

Definition reSchedule (r : EventTicker) (id : T) (count : Z) : EventTicker :=
  let r := trigger r (Tick id) in
  match (Get (scheduledTickers r) (Index id) []).2 with
  | None => r
  | Some tickerStorage =>
      match tickerStorage !! id with
      | None => r
      | Some _ =>
          let count := count + 1 in
          if count >? optsMaxRequestThreshold r then
            let r := set_tickers r (delete_in (scheduledTickers r) (Index id) id) in
            trigger (updateScheduledTickerCount r (-1)) (TickerFailed id)
          else schedule r id count
      end
  end.

(** The executor runs a task. *)
Definition fire (r : EventTicker) (t : nat) : EventTicker :=
  match tasks r !! t with
  | Some (id, count) => reSchedule (Cancel r t) id count
  | None => r
  end.

(** ** The invariant *)

Record ticker_ok (r : EventTicker) : Prop := {
  (* a ticker is in the storage of its index, and its next tick is scheduled *)
  tk_ticker i id t : find (scheduledTickers r) i id = Some t →
    i = Index id ∧ lastEvictedIndex r < i ∧ ∃ c, tasks r !! t = Some (id, c);
  tk_task t id c : tasks r !! t = Some (id, c) →
    find (scheduledTickers r) (Index id) id = Some t ∧ 0 ≤ c ≤ Z.max 0 (optsMaxRequestThreshold r);
  tk_count : scheduledTickerCount r = Z.of_nat (size (tasks r));
  tk_fresh t : is_Some (tasks r !! t) → (t < next_task r)%nat;
  tk_open : closed r = false;
}.

Lemma Get_find (e : gmap Z (gmap T nat)) index l id :
  (Get e index l).2 ≫= (λ q, q !! id) = find e index id.
Proof.
  unfold Get, find. destruct (e !! index); [done|]. destruct (default false (head l)); cbn; [|done]. apply lookup_empty.
Qed.

(** Only the storages change, and no ticker. *)
Lemma ok_same r s : (∀ i id, find s i id = find (scheduledTickers r) i id) → ticker_ok r → ticker_ok (set_tickers r s).
Proof. intros Hf []. split; cbn; try done; intros *; rewrite Hf; auto. Qed.

Lemma ok_trigger r ev : ticker_ok r → ticker_ok (trigger r ev).
Proof. intros []. by split. Qed.

(** Scheduling a tick for an id that has none. *)
Lemma schedule_ok r id c d :
  closed r = false → (∀ i id' t, find (scheduledTickers r) i id' = Some t → id' ≠ id →
    i = Index id' ∧ lastEvictedIndex r < i ∧ ∃ c, tasks r !! t = Some (id', c)) →
  (∀ t id' c', tasks r !! t = Some (id', c') → id' ≠ id ∧ find (scheduledTickers r) (Index id') id' = Some t ∧
     0 ≤ c' ≤ Z.max 0 (optsMaxRequestThreshold r)) →
  (∀ i t, find (scheduledTickers r) i id = Some t → i = Index id) →
  scheduledTickerCount r + d = Z.of_nat (size (tasks r)) + 1 → (∀ t, is_Some (tasks r !! t) → (t < next_task r)%nat) →
  is_Some (scheduledTickers r !! Index id) → lastEvictedIndex r < Index id → 0 ≤ c ≤ Z.max 0 (optsMaxRequestThreshold r) →
  ticker_ok (updateScheduledTickerCount (schedule r id c) d).
Proof.
  intros Ho Ht1 Ht2 Hid Hc Hf Hs Hlt Hcc. unfold schedule, ExecuteAfter. rewrite Ho.
  assert (tasks r !! next_task r = None) as Hn.
  { destruct (tasks r !! next_task r) eqn:E; [|done]. specialize (Hf (next_task r)). rewrite E in Hf. specialize (Hf ltac:(by eexists)). lia. }
  split; cbn [updateScheduledTickerCount set_tickers scheduledTickers scheduledTickerCount lastEvictedIndex optsMaxRequestThreshold tasks next_task closed]; try done.
  - intros i id' t. rewrite find_set_in by done. destruct (decide _) as [[-> ->]|Hne].
    + intros [= <-]. split_and!; [done|done|]. exists c. apply lookup_insert_eq.
    + intros Hfi. destruct (decide (id' = id)) as [->|Hd]; [exfalso; apply Hne; split; [by eapply Hid|done]|].
      destruct (Ht1 i id' t Hfi Hd) as (-> & ? & c' & Hc'). split_and!; [done|done|]. exists c'.
      rewrite lookup_insert_ne; [done|]. intros <-. congruence.
  - intros t id' c' Ht. rewrite find_set_in by done. destruct (decide (t = next_task r)) as [->|Hne].
    + rewrite lookup_insert_eq in Ht. injection Ht as <- <-. by rewrite decide_True.
    + rewrite lookup_insert_ne in Ht by done. destruct (Ht2 t id' c' Ht) as (Hd & Hfi & Hcc'). split; [|done].
      rewrite decide_False; [done|]. by intros [_ ?].
  - rewrite map_size_insert_None by done. lia.
  - intros t Ht. destruct (decide (t = next_task r)) as [->|]; [lia|]. rewrite lookup_insert_ne in Ht by done. specialize (Hf t Ht). lia.
Qed.

Lemma StartTicker_ok r id : ticker_ok r → ticker_ok (StartTicker r id).
Proof.
  intros Hr. unfold StartTicker, addTickerToQueue, add_check. destruct (Z.leb_spec (Index id) (lastEvictedIndex r)) as [|Hlt]; [done|].
  pose proof (Get_find (scheduledTickers r) (Index id) [true] id) as Hget.
  pose proof (λ i k, find_Get (scheduledTickers r) (Index id) [true] k i) as Hsame.
  assert (is_Some ((Get (scheduledTickers r) (Index id) [true]).1 !! Index id)) as Hsome.
  { unfold Get. destruct (scheduledTickers r !! Index id) eqn:E; [cbn; by rewrite E|].
    change (is_Some (<[Index id := ∅]> (scheduledTickers r) !! Index id)). rewrite lookup_insert_eq. by eexists. }
  destruct (Get (scheduledTickers r) (Index id) [true]) as [s queue] eqn:Eg. cbn [fst snd] in *. rewrite Hget.
  destruct (find (scheduledTickers r) (Index id) id) as [t|] eqn:Ef; [by apply ok_same|].
  apply ok_trigger, ok_trigger. pose proof (ok_same r s Hsame Hr) as [H1 H2 H3 H4 H5].
  assert (∀ t id' c, tasks r !! t = Some (id', c) → id' ≠ id) as Hne.
  { intros t id' c Ht ->. apply (tk_task r Hr) in Ht as [Ht _]. congruence. }
  apply schedule_ok; try done.
  - intros i id' t Hfi _. by apply H1.
  - intros t id' c' Ht. split; [by eapply Hne|]. by apply H2.
  - intros i t Hfi. by apply H1 in Hfi as [? _].
  - cbn in *. lia.
  - lia.
Qed.

(** A ticker is removed and its task canceled. *)
Lemma remove_ok r id t :
  ticker_ok r → find (scheduledTickers r) (Index id) id = Some t →
  ticker_ok (updateScheduledTickerCount (set_tickers (Cancel r t) (delete_in (scheduledTickers r) (Index id) id)) (-1)).
Proof.
  intros [H1 H2 H3 H4 H5] Hf. destruct (H1 _ _ _ Hf) as (_ & _ & c & Hc).
  split; cbn [updateScheduledTickerCount set_tickers Cancel scheduledTickers scheduledTickerCount lastEvictedIndex optsMaxRequestThreshold tasks next_task closed]; try done.
  - intros i id' t'. rewrite find_delete_in. destruct (decide _) as [|Hne]; [done|]. intros Hfi. destruct (H1 _ _ _ Hfi) as (-> & ? & c' & Hc').
    split_and!; [done|done|]. exists c'. rewrite lookup_delete_ne; [done|]. intros <-. apply Hne. rewrite Hc in Hc'. by simplify_eq.
  - intros t' id' c' Ht'. apply lookup_delete_Some in Ht' as [Hne Ht']. destruct (H2 _ _ _ Ht') as [Hfi ?]. split; [|done].
    rewrite find_delete_in. rewrite decide_False; [done|]. intros [_ ->]. congruence.
  - pose proof (size_delete_Some _ _ _ Hc). lia.
  - intros t' Ht'. apply H4. destruct Ht' as [x Hx]. apply lookup_delete_Some in Hx as [_ Hx]. by exists x.
Qed.

Lemma StopTicker_ok r id : ticker_ok r → ticker_ok (StopTicker r id).
Proof.
  intros Hr. unfold StopTicker, stopTicker. pose proof (Get_find (scheduledTickers r) (Index id) [] id) as Hget.
  destruct (Get (scheduledTickers r) (Index id) []).2 as [q|]; [|done]. cbn in Hget.
  destruct (q !! id) as [t|]; [|done]. apply ok_trigger. exact (remove_ok r id t Hr (eq_sym Hget)).
Qed.

(** [fire] is the removal of a ticker, or one that is scheduled again. *)
Lemma fire_ok r t : ticker_ok r → ticker_ok (fire r t).
Proof.
  intros Hr. pose proof Hr as [H1 H2 H3 H4 H5]. unfold fire. destruct (tasks r !! t) as [[id c]|] eqn:Et; [|done].
  destruct (H2 t id c Et) as [Hf Hc]. unfold reSchedule. cbn [trigger Cancel scheduledTickers optsMaxRequestThreshold].
  pose proof (Get_find (scheduledTickers r) (Index id) [] id) as Hget. rewrite Hf in Hget.
  destruct (Get (scheduledTickers r) (Index id) []).2 as [q|] eqn:Eg; [|done]. cbn in Hget. rewrite Hget.
  destruct (c + 1 >? optsMaxRequestThreshold r) eqn:Egt.
  { destruct (remove_ok r id t Hr Hf) as [R1 R2 R3 R4 R5]. by split. }
  rewrite Z.gtb_ltb, Z.ltb_ge in Egt. set (r1 := trigger (Cancel r t) (Tick id)).
  assert (ticker_ok (updateScheduledTickerCount (schedule r1 id (c + 1)) 0)) as [R1 R2 R3 R4 R5].
  { apply schedule_ok; cbn; try done.
    - intros i id' t' Hfi Hne. destruct (H1 _ _ _ Hfi) as (-> & ? & c' & Hc'). split_and!; [done|done|]. exists c'.
      rewrite lookup_delete_ne; [done|]. intros <-. congruence.
    - intros t' id' c' Ht'. apply lookup_delete_Some in Ht' as [Hne Ht']. destruct (H2 _ _ _ Ht') as [Hfi ?]. split_and!; [|done|lia|lia].
      intros ->. congruence.
    - intros i t' Hfi. by apply H1 in Hfi as [? _].
    - pose proof (size_delete_Some _ _ _ Et). lia.
    - intros t' [x Hx]. apply lookup_delete_Some in Hx as [_ Hx]. apply H4. by exists x.
    - unfold find in Hf. destruct (scheduledTickers r !! Index id); [by eexists|done].
    - by destruct (H1 _ _ _ Hf) as (_ & ? & _).
    - lia. }
  split; try done. cbn in R3. by rewrite Z.add_0_r in R3.
Qed.

(** ** Eviction *)

Lemma foldl_Cancel ts r :
  let r' := foldl Cancel r ts in
  r' = mkTicker (scheduledTickers r) (scheduledTickerCount r) (lastEvictedIndex r) (optsMaxRequestThreshold r)
         (tasks r') (next_task r) (closed r) (log r) ∧
  (∀ t, tasks r' !! t = if decide (t ∈ ts) then None else tasks r !! t) ∧
  (NoDup ts → (∀ t, t ∈ ts → is_Some (tasks r !! t)) → (size (tasks r) = size (tasks r') + length ts)%nat).
Proof.
  revert r. induction ts as [|t ts IH]; intros r; cbn [foldl].
  { split_and!; [by destruct r| |cbn; lia]. intros t. by rewrite decide_False by apply not_elem_of_nil. }
  destruct (IH (Cancel r t)) as (E & Hl & Hs). split_and!.
  - by rewrite E.
  - intros t'. rewrite Hl. cbn. destruct (decide (t' = t)) as [->|Hne].
    + rewrite lookup_delete_eq. rewrite (decide_True (P := t ∈ t :: ts)) by left. by destruct (decide _).
    + rewrite lookup_delete_ne by done. rewrite (decide_ext (t' ∈ ts) (t' ∈ t :: ts)); [done|]. rewrite elem_of_cons. naive_solver.
  - intros [Hni Hnd]%NoDup_cons Hin. destruct (Hin t) as [x Hx]; [by left|]. rewrite (size_delete_Some _ _ _ Hx). cbn in Hs. cbn [length].
    rewrite Hs; [lia|done|]. intros t' Ht'. rewrite lookup_delete_ne by (by intros <-). apply Hin. by right.
Qed.

Lemma evict_index_ok r i :
  ticker_ok r →
  ticker_ok (evict_index r i) ∧ lastEvictedIndex (evict_index r i) = lastEvictedIndex r ∧
  (∀ k id, find (scheduledTickers (evict_index r i)) k id = if decide (k = i) then None else find (scheduledTickers r) k id).
Proof.
  intros Hr. pose proof Hr as [H1 H2 H3 H4 H5]. unfold evict_index.
  pose proof (λ k id, find_Evict (scheduledTickers r) i k id) as Hfind. unfold Evict in *.
  destruct (scheduledTickers r !! i) as [q|] eqn:Eq; cbn [fst] in Hfind; [|by split_and!].
  set (ts := (map_to_list q).*2). destruct (foldl_Cancel ts (set_tickers r (base.delete i (scheduledTickers r)))) as (E & Hl & Hs).
  assert (∀ id t, q !! id = Some t → find (scheduledTickers r) i id = Some t) as Hq by (intros id t Ht; unfold find; by rewrite Eq).
  assert (∀ t, t ∈ ts ↔ ∃ id, find (scheduledTickers r) i id = Some t) as Hts.
  { intros t. unfold ts. rewrite list_elem_of_fmap. split.
    - intros ([id t'] & -> & Hin%elem_of_map_to_list). exists id. by apply Hq.
    - intros [id Hf]. exists (id, t). split; [done|]. apply elem_of_map_to_list. unfold find in Hf. by rewrite Eq in Hf. }
  assert (NoDup ts) as Hnd.
  { apply NoDup_fmap_2_strong; [|apply NoDup_map_to_list]. intros [id t] [id' t'] Hin%elem_of_map_to_list Hin'%elem_of_map_to_list.
    cbn. intros <-. apply Hq, H1 in Hin as (_ & _ & c & Hc). apply Hq, H1 in Hin' as (_ & _ & c' & Hc'). congruence. }
  specialize (Hs Hnd). set (r' := foldl Cancel _ ts) in *. rewrite E. split_and!; [split|done|done];
    cbn [updateScheduledTickerCount set_tickers scheduledTickers scheduledTickerCount lastEvictedIndex optsMaxRequestThreshold tasks next_task closed] in *; try done.
  - intros k id t. rewrite Hfind. destruct (decide (k = i)) as [|Hne]; [done|]. intros Hf. destruct (H1 _ _ _ Hf) as (-> & ? & c & Hc).
    split_and!; [done|done|]. exists c. rewrite Hl, decide_False; [done|]. intros [id' Hf']%Hts. destruct (H1 _ _ _ Hf') as (-> & _ & c' & Hc').
    congruence.
  - intros t id c. rewrite Hl. destruct (decide (t ∈ ts)) as [|Hni]; [done|]. intros Ht. destruct (H2 _ _ _ Ht) as [Hf ?]. split; [|done].
    rewrite Hfind, decide_False; [done|]. intros Ei. apply Hni, Hts. exists id. by rewrite <-Ei.
  - assert (length ts = size q) as Elen by (unfold ts; rewrite length_fmap; apply length_map_to_list).
    rewrite H3, Hs, Elen; [lia|]. intros t [id Hf]%Hts. destruct (H1 _ _ _ Hf) as (_ & _ & c & Hc). by eexists.
  - intros t [x Hx]. rewrite Hl in Hx. destruct (decide _); [done|]. apply H4. by exists x.
Qed.

Lemma evict_loop_ok n fuel cur index r :
  0 ≤ cur → index < ity_max U32 → Z.to_nat (index + 1 - cur) = n → (n < fuel)%nat → ticker_ok r →
  ∃ r', evict_loop fuel cur index r = Some r' ∧ ticker_ok r' ∧ lastEvictedIndex r' = lastEvictedIndex r ∧
    (∀ k id, find (scheduledTickers r') k id = if decide (cur ≤ k ≤ index) then None else find (scheduledTickers r) k id).
Proof.
  revert fuel cur r. induction n as [|n IH]; intros fuel cur r Hc Hi Hn Hf Hr; (destruct fuel as [|fuel]; [lia|]); cbn [evict_loop].
  - rewrite (proj2 (Z.leb_gt _ _)) by lia. exists r. split_and!; try done. intros k id. by rewrite decide_False by lia.
  - rewrite (proj2 (Z.leb_le _ _)) by lia. pose proof (ity_min_0 U32). rewrite (wrap_id U32 (cur + 1)) by (unfold in_range; lia).
    destruct (evict_index_ok r cur Hr) as (Hr1 & Hl & Hfind).
    destruct (IH fuel (cur + 1) (evict_index r cur)) as (r' & -> & Hr' & Hl' & Hfind'); try lia; [done|].
    exists r'. split_and!; [done|done|by rewrite Hl'|]. intros k id. rewrite Hfind', Hfind.
    destruct (decide (k = cur)) as [->|]; [rewrite (decide_True (P := cur ≤ cur ≤ index)) by lia; by destruct (decide _)|].
    by rewrite (decide_ext (cur + 1 ≤ k ≤ index) (cur ≤ k ≤ index)) by lia.
Qed.

Lemma EvictUntil_ok fuel r index :
  ticker_ok r → 0 ≤ lastEvictedIndex r → index < ity_max U32 → (Z.to_nat index < fuel)%nat →
  ∃ r', EvictUntil fuel r index = Some r' ∧ ticker_ok r' ∧ lastEvictedIndex r' = Z.max index (lastEvictedIndex r).
Proof.
  intros Hr Hl Hi Hf. unfold EvictUntil. destruct (Z.leb_spec index (lastEvictedIndex r)) as [|Hlt].
  { exists r. split_and!; [done|done|lia]. }
  pose proof (ity_min_0 U32). rewrite wrap_id by (unfold in_range; lia).
  destruct (evict_loop_ok _ fuel (lastEvictedIndex r + 1) index r ltac:(lia) Hi eq_refl) as (r' & -> & [H1 H2 H3 H4 H5] & Hl' & Hfind); [lia|done|].
  eexists. split_and!; [done| |cbn; lia]. split; cbn; try done. intros i id t Hfi. destruct (H1 _ _ _ Hfi) as (-> & ? & ?).
  split_and!; [done| |done]. rewrite Hfind in Hfi. destruct (decide _); [done|]. lia.
Qed.

(** ** Ticks *)

(** The ticks of an id since it was started. *)
Definition tick_count (id : T) (n : Z) (ev : ticker_event) : Z :=
  match ev with
  | TickerStarted i => if decide (i = id) then 0 else n
  | Tick i => if decide (i = id) then n + 1 else n
  | _ => n
  end.

Definition ticks (id : T) (evs : list ticker_event) : Z := foldl (tick_count id) 0 evs.

(** The count of a scheduled tick is the number of ticks before, without the first. *)
Definition counted (r : EventTicker) : Prop := ∀ t id c, tasks r !! t = Some (id, c) → ticks id (log r) = c + 1.

Lemma ticks_snoc id evs ev : ticks id (evs ++ [ev]) = tick_count id (ticks id evs) ev.
Proof. unfold ticks. by rewrite foldl_app. Qed.

(** Tasks are canceled and nothing ticks. *)
Lemma counted_less r r' :
  counted r → tasks r' ⊆ tasks r → (∀ id, ticks id (log r') = ticks id (log r)) → counted r'.
Proof. intros Hr Ht Hl t id c Hc. rewrite Hl. apply (Hr t). by eapply lookup_weaken. Qed.

Lemma StopTicker_counted r id : counted r → counted (StopTicker r id).
Proof.
  intros Hr. unfold StopTicker, stopTicker. destruct (Get _ _ _).2 as [q|]; [|done]. destruct (q !! id) as [t|]; [|done].
  apply (counted_less r); [done|apply delete_subseteq|]. intros id'. exact (ticks_snoc id' (log r) (TickerStopped id)).
Qed.

Lemma Clear_counted r : counted r → counted (Clear_ r).
Proof.
  unfold Clear_. generalize (all_tickers r). intros l. revert r. induction l as [|id l IH]; intros r Hr; [done|].
  by apply IH, StopTicker_counted.
Qed.

Lemma evict_index_less r i : tasks (evict_index r i) ⊆ tasks r ∧ log (evict_index r i) = log r.
Proof.
  unfold evict_index, Evict. destruct (scheduledTickers r !! i) as [q|]; [|done].
  destruct (foldl_Cancel (map_to_list q).*2 (set_tickers r (base.delete i (scheduledTickers r)))) as (E & Hl & _).
  cbn in *. split; [|by rewrite E]. apply map_subseteq_spec. intros t x. rewrite Hl. by destruct (decide _).
Qed.

Lemma evict_loop_less fuel cur index r r' :
  evict_loop fuel cur index r = Some r' → tasks r' ⊆ tasks r ∧ log r' = log r.
Proof.
  revert cur r. induction fuel as [|fuel IH]; intros cur r; cbn [evict_loop]; [done|].
  destruct (cur <=? index); [|by intros [= <-]]. intros [Ht Hl]%IH. destruct (evict_index_less r cur) as [Ht0 Hl0].
  split; [by etrans|by rewrite Hl].
Qed.

Lemma EvictUntil_counted fuel r index r' : counted r → EvictUntil fuel r index = Some r' → counted r'.
Proof.
  intros Hr. unfold EvictUntil. destruct (index <=? _); [by intros [= <-]|].
  destruct (evict_loop _ _ _ _) as [r1|] eqn:E; [|done]. apply evict_loop_less in E as [Ht Hl]. intros [= <-].
  apply (counted_less r); [done|done|]. intros id. cbn. by rewrite Hl.
Qed.

(** A tick is scheduled for [id], which has none, after the ticks that its count says. *)
Lemma counted_schedule r id c evs :
  closed r = false → (∀ t id' c', tasks r !! t = Some (id', c') → id' ≠ id ∧ ticks id' evs = c' + 1) →
  ticks id evs = c + 1 → ∀ t id' c', tasks (schedule r id c) !! t = Some (id', c') → ticks id' evs = c' + 1.
Proof.
  intros Ho Hold Hc t id' c'. unfold schedule, ExecuteAfter. rewrite Ho. cbn.
  intros [[_ Heq]|[_ Ht]]%lookup_insert_Some; [by simplify_eq|]. by apply (Hold t).
Qed.

Lemma StartTicker_counted r id : ticker_ok r → counted r → counted (StartTicker r id).
Proof.
  intros Hok Hr. unfold StartTicker, addTickerToQueue, add_check. destruct (_ <=? _); [done|].
  pose proof (Get_find (scheduledTickers r) (Index id) [true] id) as Hget.
  destruct (Get (scheduledTickers r) (Index id) [true]) as [s q]. cbn [snd] in Hget. rewrite Hget.
  destruct (find (scheduledTickers r) (Index id) id) as [t|] eqn:Ef; [done|].
  intros t id' c'. cbn [tasks log trigger add_schedule updateScheduledTickerCount].
  assert (log (schedule (set_tickers r s) id 0) = log r) as -> by (unfold schedule, ExecuteAfter; by destruct (closed _)).
  apply counted_schedule; [apply Hok| |].
  - intros t0 id0 c0 Ht0. cbn in Ht0. assert (id0 ≠ id) as Hne by (intros ->; apply (tk_task r Hok) in Ht0 as [? _]; congruence).
    split; [done|]. rewrite !ticks_snoc. cbn. rewrite !decide_False by done. by apply (Hr t0).
  - rewrite !ticks_snoc. cbn. by rewrite !decide_True.
Qed.

Lemma fire_counted r t : ticker_ok r → counted r → counted (fire r t).
Proof.
  intros Hok Hr. unfold fire. destruct (tasks r !! t) as [[id c]|] eqn:Et; [|done].
  assert (∀ t0 id0 c0, tasks (Cancel r t) !! t0 = Some (id0, c0) → id0 ≠ id ∧ ticks id0 (log r ++ [Tick id]) = c0 + 1) as Hold.
  { intros t0 id0 c0 Ht0. cbn in Ht0. apply lookup_delete_Some in Ht0 as [Hne Ht0]. assert (id0 ≠ id) as Hid.
    { intros ->. apply (tk_task r Hok) in Ht0 as [? _]. apply (tk_task r Hok) in Et as [? _]. congruence. }
    split; [done|]. rewrite ticks_snoc. cbn. rewrite decide_False by done. by apply (Hr t0). }
  unfold reSchedule. cbn [trigger Cancel scheduledTickers optsMaxRequestThreshold].
  destruct (Get _ _ _).2 as [q|]; [|intros t0 id0 c0 Ht0; by apply (Hold t0)].
  destruct (q !! id); [|intros t0 id0 c0 Ht0; by apply (Hold t0)]. destruct (_ >? _).
  - intros t0 id0 c0 Ht0. etrans; [exact (ticks_snoc id0 (log r ++ [Tick id]) (TickerFailed id))|]. by apply (Hold t0).
  - intros t0 id0 c0. assert (log (schedule (trigger (Cancel r t) (Tick id)) id (c + 1)) = log r ++ [Tick id]) as ->
      by (unfold schedule, ExecuteAfter; by destruct (closed _)).
    apply counted_schedule; [apply Hok|exact Hold|]. rewrite ticks_snoc. cbn. rewrite decide_True by done.
    rewrite (Hr t id c Et). lia.
Qed.

(** ** Runs *)

Inductive op : Type := OStart (id : T) | OStop (id : T) | OEvict (index : Z) | OClear | OFire (t : nat).

Definition run_op (fuel : nat) (r : EventTicker) (o : op) : option EventTicker :=
  match o with
  | OStart id => Some (StartTicker r id)
  | OStop id => Some (StopTicker r id)
  | OEvict index => EvictUntil fuel r index
  | OClear => Some (Clear_ r)
  | OFire t => Some (fire r t)
  end.

Definition op_ok (fuel : nat) (o : op) : Prop :=
  match o with OEvict index => 0 ≤ index < ity_max U32 ∧ (Z.to_nat index < fuel)%nat | _ => True end.

Lemma StopTicker_last r id : lastEvictedIndex (StopTicker r id) = lastEvictedIndex r.
Proof. unfold StopTicker, stopTicker. destruct (Get _ _ _).2 as [q|]; [|done]. by destruct (q !! id). Qed.

Lemma Clear_ok r : ticker_ok r → ticker_ok (Clear_ r) ∧ lastEvictedIndex (Clear_ r) = lastEvictedIndex r.
Proof.
  unfold Clear_. generalize (all_tickers r). intros l. revert r. induction l as [|id l IH]; intros r Hr; cbn [foldl]; [done|].
  destruct (IH (StopTicker r id)) as [? E]; [by apply StopTicker_ok|]. split; [done|]. by rewrite E, StopTicker_last.
Qed.

Lemma schedule_last r id c : lastEvictedIndex (schedule r id c) = lastEvictedIndex r.
Proof. unfold schedule, ExecuteAfter. by destruct (closed r). Qed.

Lemma StartTicker_last r id : lastEvictedIndex (StartTicker r id) = lastEvictedIndex r.
Proof.
  unfold StartTicker, addTickerToQueue, add_check. destruct (_ <=? _); [done|].
  destruct (Get (scheduledTickers r) (Index id) [true]) as [s q]. destruct (q ≫= _); [done|]. cbn. by rewrite schedule_last.
Qed.

Lemma fire_last r t : lastEvictedIndex (fire r t) = lastEvictedIndex r.
Proof.
  unfold fire. destruct (tasks r !! t) as [[id c]|]; [|done]. unfold reSchedule. cbn [trigger Cancel scheduledTickers].
  destruct (Get _ _ _).2 as [q|]; [|done]. destruct (q !! id); [|done]. destruct (_ >? _); [done|]. by rewrite schedule_last.
Qed.

Lemma ticker_run_op_ok fuel r o :
  ticker_ok r → 0 ≤ lastEvictedIndex r → op_ok fuel o →
  ∃ r', run_op fuel r o = Some r' ∧ ticker_ok r' ∧ lastEvictedIndex r ≤ lastEvictedIndex r'.
Proof.
  intros Hr Hl Ho. destruct o as [id|id|index| |t]; cbn [run_op op_ok] in *.
  - eexists. split_and!; [done|by apply StartTicker_ok|by rewrite StartTicker_last].
  - eexists. split_and!; [done|by apply StopTicker_ok|by rewrite StopTicker_last].
  - destruct (EvictUntil_ok fuel r index) as (r' & -> & ? & ?); [done|done|lia|lia|]. eexists. split_and!; [done|done|lia].
  - destruct (Clear_ok r Hr). eexists. split_and!; [done|done|lia].
  - eexists. split_and!; [done|by apply fire_ok|by rewrite fire_last].
Qed.

Lemma run_op_counted fuel r o r' : ticker_ok r → counted r → run_op fuel r o = Some r' → counted r'.
Proof.
  intros Hok Hr. destruct o as [id|id|index| |t]; cbn [run_op]; [intros [= <-]..| |intros [= <-]|intros [= <-]].
  - by apply StartTicker_counted.
  - by apply StopTicker_counted.
  - by apply EvictUntil_counted.
  - by apply Clear_counted.
  - by apply fire_counted.
Qed.

Lemma ticker_run_ok fuel ops r :
  ticker_ok r → counted r → 0 ≤ lastEvictedIndex r → Forall (op_ok fuel) ops →
  ∃ r', foldl (λ r o, r ≫= λ r, run_op fuel r o) (Some r) ops = Some r' ∧ ticker_ok r' ∧ counted r'.
Proof.
  revert r. induction ops as [|o ops IH]; intros r Hr Hcr Hl Hf; cbn [foldl]; [by eexists|].
  apply Forall_cons in Hf as [Ho Hf]. destruct (ticker_run_op_ok fuel r o Hr Hl Ho) as (r1 & E & Hr1 & Hl1). cbn. rewrite E.
  apply IH; [done|exact (run_op_counted fuel r o r1 Hr Hcr E)|lia|done].
Qed.

Lemma ticker_New_ok threshold : ticker_ok (New threshold).
Proof.
  split; cbn; try done. intros t. rewrite lookup_empty. by intros [].
Qed.

End ticker.

(** ** Properties *)

(** C23: tickers and what is scheduled for them agree. After any sequence, one call after
    the other and before any [Shutdown], of starting, stopping, evicting, clearing and of
    ticks, in which nothing is evicted up to the last uint32 index (which does not end,
    [evict_last_index_diverges]), all calls have returned, with more fuel than the largest
    evicted index; an id has a ticker if and only if a tick is scheduled for it, and then
    one; the queue size is their number; nothing is left at or below the evicted index. The
    count of a scheduled tick is the number of ticks of its id since it was started, without
    the one that [StartTicker] makes itself, and these ticks, that one included, are at most
    one more than the threshold (or than zero, if it is negative). *)
Theorem EventTicker_consistent {T} `{Countable T} (Index : T → Z) threshold fuel ops :
  Forall (op_ok fuel) ops →
  ∃ r, foldl (λ r o, r ≫= λ r, run_op Index fuel r o) (Some (New threshold)) ops = Some r ∧
    QueueSize r = Z.of_nat (size (tasks r)) ∧
    (∀ id, HasTicker Index r id = true ↔ ∃ t c, tasks r !! t = Some (id, c)) ∧
    (∀ t t' id c c', tasks r !! t = Some (id, c) → tasks r !! t' = Some (id, c') → t = t') ∧
    (∀ t id c, tasks r !! t = Some (id, c) → lastEvictedIndex r < Index id ∧
      ticks id (log r) = c + 1 ∧ 1 ≤ ticks id (log r) ≤ Z.max 0 (optsMaxRequestThreshold r) + 1).
Proof.
  intros Hf. destruct (ticker_run_ok Index fuel ops (New threshold) (ticker_New_ok Index threshold)) as (r & E & Hr & Hticks);
    [by intros t id c Ht; cbn in Ht; rewrite lookup_empty in Ht|done|done|].
  exists r. pose proof Hr as [H1 H2 H3 H4 H5]. split_and!; [done|done| | |].
  - intros id. unfold HasTicker. pose proof (Get_find (scheduledTickers r) (Index id) [false] id) as Hg.
    assert ((∃ t c, tasks r !! t = Some (id, c)) ↔ is_Some (find (scheduledTickers r) (Index id) id)) as ->.
    { split; [intros (t & c & Ht); by apply H2 in Ht as [-> _]|]. intros [t Ht]. apply H1 in Ht as (_ & _ & c & Hc). by exists t, c. }
    destruct (Z.leb_spec (Index id) (lastEvictedIndex r)) as [Hle|_].
    + split; [done|]. intros [t Ht]. apply H1 in Ht as (_ & ? & _). lia.
    + rewrite <-Hg. destruct (Get _ _ _).2 as [q|]; cbn; [by rewrite bool_decide_eq_true|]. split; [done|]. by intros [].
  - intros t t' id c c' Ht Ht'. apply H2 in Ht as [Ht _]. apply H2 in Ht' as [Ht' _]. congruence.
  - intros t id c Ht. destruct (H2 _ _ _ Ht) as [Hfi ?]. pose proof (Hticks t id c Ht). apply H1 in Hfi as (_ & ? & _).
    split_and!; lia.
Qed.

Lemma EventTicker_consistent_witness :
  ∃ r : EventTicker, foldl (λ r o, r ≫= λ r, run_op (T := nat) Z.of_nat 5 r o) (Some (New 100))
    [OStart 2%nat; OStart 3%nat; OFire 0; OEvict 2] = Some r ∧ QueueSize r = 1 ∧ HasTicker Z.of_nat r 3%nat = true.
Proof.
  destruct (EventTicker_consistent Z.of_nat 100 5 [OStart 2%nat; OStart 3%nat; OFire 0; OEvict 2]) as (r & E & Hq & _).
  - repeat constructor; cbn; lia.
  - exists r. split_and!; [exact E| |]; vm_compute in E; injection E as <-; vm_compute; reflexivity.
Defined.

(** ** What the code does not do *)

(** Two calls of [StartTicker] with the same id whose checks come before the rest:
    two ticks are scheduled, and the ticker is counted twice. *)
Lemma overlapping_starts :
  let r := New (T := nat) 100 in
  let r := (add_check Z.of_nat r 2%nat).1 in
  let '(r, ok) := add_check Z.of_nat r 2%nat in
  let r := add_schedule Z.of_nat (add_schedule Z.of_nat r 2%nat) 2%nat in
  ok = true ∧ QueueSize r = 2 ∧ tasks r = {[0%nat := (2%nat, 0); 1%nat := (2%nat, 0)]} ∧
  QueueSize (StopTicker Z.of_nat r 2%nat) = 1 ∧ HasTicker Z.of_nat (StopTicker Z.of_nat r 2%nat) 2%nat = false.
Proof. vm_compute. by split_and!. Qed.

(** After a shutdown a ticker is counted but not scheduled, and can be started
    again and again. *)
Lemma start_after_shutdown_counts :
  let r := StartTicker Z.of_nat (StartTicker Z.of_nat (Shutdown (New (T := nat) 100)) 2%nat) 2%nat in
  QueueSize r = 2 ∧ HasTicker Z.of_nat r 2%nat = false ∧
  log r = [TickerStarted 2%nat; Tick 2%nat; TickerStarted 2%nat; Tick 2%nat].
Proof. vm_compute. by split_and!. Qed.

(** A ticker fails after two more ticks than the threshold says. *)
Lemma ticks_until_failure :
  log (fire Z.of_nat (fire Z.of_nat (StartTicker Z.of_nat (New (T := nat) 1) 2%nat) 0) 1) =
    [TickerStarted 2%nat; Tick 2%nat; Tick 2%nat; Tick 2%nat; TickerFailed 2%nat].
Proof. by vm_compute. Qed.

(** Nothing can be started for the index 0. *)
Lemma index_0_not_started : StartTicker Z.of_nat (New (T := nat) 1) 0%nat = New 1.
Proof. done. Qed.

(** Evicting up to the last index does not end. *)
Lemma evict_last_index_diverges {T} `{Countable T} fuel cur (r : EventTicker (T := T)) :
  0 ≤ cur ≤ ity_max U32 → evict_loop fuel cur (ity_max U32) r = None.
Proof.
  revert cur r. induction fuel as [|fuel IH]; intros cur r Hc; [done|]. cbn [evict_loop]. rewrite (proj2 (Z.leb_le _ _)) by lia.
  apply IH. pose proof (wrap_in_range U32 (cur + 1)) as Hw. unfold in_range in Hw. pose proof (ity_min_0 U32). cbn in *. lia.
Qed.
