(* ===== verification/Daemon.v ===== *)
(** * app/daemon

    [src/app/daemon/daemon.go] as a transition system: goroutines that call
    [BackgroundWorker] and [Start], the goroutines of the workers, and the one
    call of [shutdown] that [stopOnce] lets through.

    - The critical sections are one step each; [BackgroundWorker] and [Start]
      look at [stopped] before they take the lock, in a step of its own.
    - A worker is a pointer into [heap].  [runs] are the goroutines that were
      started for it, each where it stands; handlers return at any time.
    - The wait groups are their counters; a goroutine keeps its pointer to the
      wait group when the map of them is cleared.
    - [sort.Slice] is not stable: any sorted permutation may result.

    Logging and the functions on the default daemon are left out. *)

From stdpp Require Import relations.
From S2P Require Import Prelude.

Inductive run_pc : Type :=
  | Active     (* in the handler *)
  | Returned   (* before [Done] *)
  | Finished   (* before [cleanupWorker] *)
  | Cleaned    (* before [running.Store(false)] *)
  | Ended.

#[global] Instance run_pc_eq_dec : EqDecision run_pc.
Proof. solve_decision. Defined.

Record worker : Type := mkWorker {
  w_name : string;
  shutdownOrder : Z;
  ctx_done : bool;      (* [ctxCancel] was called *)
  w_running : bool;
  runs : list run_pc;
}.

(** Where callers of [BackgroundWorker] and [Start] stand. *)
Inductive caller_pc : Type :=
  | Idle
  | Registering (name : string) (order : Z)
  | Starting.

(** Where [shutdown] stands; [done] are the workers the loop is through with. *)
Inductive stop_pc : Type :=
  | SIdle
  | SMarked                                                 (* stopped *)
  | SRunning                                                (* saw that the daemon runs *)
  | SLoop (done rest : list nat) (prev : Z)
  | SWait (done : list nat) (x : nat) (rest : list nat) (prev : Z)
  | SCancel (done : list nat) (x : nat) (rest : list nat) (prev : Z)
  | SLast (done : list nat) (prev : Z)
  | SOff (done : list nat)                                  (* [stopWorkers] has returned *)
  | SClear
  | SReturned
  | SPanicked.

Record OrderedDaemon : Type := mkDaemon {
  running : bool;
  stopped : bool;
  cleared : bool;
  workers : gmap string nat;
  shutdownOrderWorker : list string;
  wgPerSameShutdownOrder : gmap Z Z;
  heap : list worker;
  callers : list caller_pc;
  stopper : stop_pc;
}.

Definition New (n : nat) : OrderedDaemon := mkDaemon false false false ∅ [] ∅ [] (replicate n Idle) SIdle.

(** Setters. *)
Definition set_heap (d : OrderedDaemon) (g : gmap Z Z) (h : list worker) : OrderedDaemon :=
  mkDaemon (running d) (stopped d) (cleared d) (workers d) (shutdownOrderWorker d) g h (callers d) (stopper d).
Definition set_registry (d : OrderedDaemon) (ws : gmap string nat) (l : list string) : OrderedDaemon :=
  mkDaemon (running d) (stopped d) (cleared d) ws l (wgPerSameShutdownOrder d) (heap d) (callers d) (stopper d).
Definition set_caller (d : OrderedDaemon) (i : nat) (c : caller_pc) : OrderedDaemon :=
  mkDaemon (running d) (stopped d) (cleared d) (workers d) (shutdownOrderWorker d) (wgPerSameShutdownOrder d) (heap d)
    (<[i:=c]> (callers d)) (stopper d).
Definition set_stopper (d : OrderedDaemon) (s : stop_pc) : OrderedDaemon :=
  mkDaemon (running d) (stopped d) (cleared d) (workers d) (shutdownOrderWorker d) (wgPerSameShutdownOrder d) (heap d)
    (callers d) s.
Definition set_running (d : OrderedDaemon) (b : bool) : OrderedDaemon :=
  mkDaemon b (stopped d) (cleared d) (workers d) (shutdownOrderWorker d) (wgPerSameShutdownOrder d) (heap d) (callers d)
    (stopper d).

Definition get_order (h : list worker) (id : nat) : Z := from_option shutdownOrder 0 (h !! id).

(** The order of the worker with a name. *)
Definition order_of (ws : gmap string nat) (h : list worker) (name : string) : Z :=
  from_option (get_order h) 0 (ws !! name).

(** ** Operations *)

(** [Add] and [Done] on the wait group of an order. *)
Definition group_add (g : gmap Z Z) (o n : Z) : gmap Z Z := <[o := default 0 (g !! o) + n]> g.

Definition runBackgroundWorker (d : OrderedDaemon) (id : nat) : OrderedDaemon :=
  match heap d !! id with
  | Some w =>
      set_heap d (group_add (wgPerSameShutdownOrder d) (shutdownOrder w) 1)
        (<[id := mkWorker (w_name w) (shutdownOrder w) (ctx_done w) true (runs w ++ [Active])]> (heap d))
  | None => d
  end.

(** The first occurrence is removed. *)
Fixpoint removeWorkerFromShutdownOrder (name : string) (l : list string) : list string :=
  match l with
  | [] => []
  | n :: l => if decide (n = name) then l else n :: removeWorkerFromShutdownOrder name l
  end.

Definition ErrDuplicateBackgroundWorker : error := ErrNew "duplicate background worker".
Definition ErrExistingBackgroundWorkerStillRunning : error := ErrNew "existing background worker is still running".

(** The critical section of [BackgroundWorker]; [sorted] is what sorting makes of
    the shutdown order. *)
Definition BackgroundWorker (d : OrderedDaemon) (name : string) (order : Z) (sorted : list string) :
    outcome (OrderedDaemon * option error) :=
  let ex := workers d !! name in
  if bool_decide (ex ≠ None) && negb (running d) then
    Ret (d, Some (ErrWrap ErrDuplicateBackgroundWorker "tried to overwrite existing background worker (%s)"))
  else if from_option w_running false (ex ≫= λ id, heap d !! id) then
    Ret (d, Some (ErrWrap ErrExistingBackgroundWorkerStillRunning "%s is still running"))
  else if cleared d then Panic "assignment to entry in nil map"
  else
    let id := length (heap d) in
    let g := match wgPerSameShutdownOrder d !! order with
             | Some _ => wgPerSameShutdownOrder d
             | None => <[order := 0]> (wgPerSameShutdownOrder d)
             end in
    let d := set_heap d g (heap d ++ [mkWorker name order false false []]) in
    let d := set_registry d (<[name := id]> (workers d)) sorted in
    Ret (if running d then runBackgroundWorker d id else d, None).

(** What is sorted: the order without a worker that is replaced, and the new name. *)
Definition unsorted (d : OrderedDaemon) (name : string) : list string :=
  (if bool_decide (workers d !! name ≠ None) then removeWorkerFromShutdownOrder name (shutdownOrderWorker d)
   else shutdownOrderWorker d) ++ [name].

(** The critical section of [Start]. *)
Definition Start (d : OrderedDaemon) : OrderedDaemon :=
  if running d then d
  else foldl runBackgroundWorker (set_running d true) (map_to_list (workers d)).*2.

Definition cleanupWorker (d : OrderedDaemon) (name : string) : OrderedDaemon :=
  if stopped d then d
  else set_registry d (delete name (workers d)) (removeWorkerFromShutdownOrder name (shutdownOrderWorker d)).

Definition getWorkersAndShutdownOrder (d : OrderedDaemon) : option (list nat) :=
  mapM (λ name, workers d !! name) (shutdownOrderWorker d).

(** The running workers, those that stop last first. *)
Definition GetRunningBackgroundWorkers (d : OrderedDaemon) : list string :=
  rev (filter (λ name, from_option w_running false (workers d !! name ≫= λ id, heap d !! id) = true) (shutdownOrderWorker d)).

(** [stopWorkers] until its loop. *)
Definition stopWorkers (d : OrderedDaemon) : stop_pc :=
  match getWorkersAndShutdownOrder d with
  | None => SPanicked
  | Some [] => SOff []
  | Some (x :: rest) => SLoop [] (x :: rest) (get_order (heap d) x)
  end.

Definition set_run (d : OrderedDaemon) (id : nat) (w : worker) (j : nat) (p : run_pc) (b : bool) (g : gmap Z Z) : OrderedDaemon :=
  set_heap d g (<[id := mkWorker (w_name w) (shutdownOrder w) (ctx_done w) b (<[j:=p]> (runs w))]> (heap d)).

Definition ctxCancel (d : OrderedDaemon) (id : nat) : OrderedDaemon :=
  match heap d !! id with
  | Some w => set_heap d (wgPerSameShutdownOrder d)
      (<[id := mkWorker (w_name w) (shutdownOrder w) true (w_running w) (runs w)]> (heap d))
  | None => d
  end.

(** [wg.Wait] returns when the counter is zero. *)
Definition group_done (d : OrderedDaemon) (o : Z) : Prop := default 0 (wgPerSameShutdownOrder d !! o) = 0.

Inductive step : OrderedDaemon → OrderedDaemon → Prop :=
  (* [BackgroundWorker] *)
  | register_check d i name order :
      callers d !! i = Some Idle → stopped d = false → step d (set_caller d i (Registering name order))
  | register d i name order sorted d' err :
      callers d !! i = Some (Registering name order) →
      sorted ≡ₚ unsorted d name →
      StronglySorted (λ a b, order_of (<[name := length (heap d)]> (workers d)) (heap d ++ [mkWorker name order false false []]) b
        ≤ order_of (<[name := length (heap d)]> (workers d)) (heap d ++ [mkWorker name order false false []]) a) sorted →
      BackgroundWorker d name order sorted = Ret (d', err) →
      step d (set_caller d' i Idle)
  (* [Start] *)
  | start_check d i : callers d !! i = Some Idle → stopped d = false → step d (set_caller d i Starting)
  | start d i : callers d !! i = Some Starting → step d (set_caller (Start d) i Idle)
  (* the goroutines of workers *)
  | run_return d id w j :
      heap d !! id = Some w → runs w !! j = Some Active →
      step d (set_run d id w j Returned (w_running w) (wgPerSameShutdownOrder d))
  | run_done d id w j :
      heap d !! id = Some w → runs w !! j = Some Returned →
      step d (set_run d id w j Finished (w_running w) (group_add (wgPerSameShutdownOrder d) (shutdownOrder w) (-1)))
  | run_cleanup d id w j :
      heap d !! id = Some w → runs w !! j = Some Finished →
      step d (cleanupWorker (set_run d id w j Cleaned (w_running w) (wgPerSameShutdownOrder d)) (w_name w))
  | run_end d id w j :
      heap d !! id = Some w → runs w !! j = Some Cleaned →
      step d (set_run d id w j Ended false (wgPerSameShutdownOrder d))
  (* [shutdown] *)
  | stop_mark d :
      stopper d = SIdle →
      step d (mkDaemon (running d) true (cleared d) (workers d) (shutdownOrderWorker d) (wgPerSameShutdownOrder d) (heap d)
        (callers d) SMarked)
  | stop_check d : stopper d = SMarked → step d (set_stopper d (if running d then SRunning else SReturned))
  | stop_snapshot d : stopper d = SRunning → step d (set_stopper d (stopWorkers d))
  | stop_next d done x rest prev w :
      stopper d = SLoop done (x :: rest) prev → heap d !! x = Some w →
      step d (if w_running w
              then set_stopper d (if shutdownOrder w <? prev then SWait done x rest prev else SCancel done x rest prev)
              else set_stopper (ctxCancel d x) (SLoop (done ++ [x]) rest prev))
  | stop_wait d done x rest prev :
      stopper d = SWait done x rest prev → group_done d prev →
      step d (set_stopper d (SCancel done x rest (get_order (heap d) x)))
  | stop_cancel d done x rest prev :
      stopper d = SCancel done x rest prev → step d (set_stopper (ctxCancel d x) (SLoop (done ++ [x]) rest prev))
  | stop_last d done prev : stopper d = SLoop done [] prev → step d (set_stopper d (SLast done prev))
  | stop_workers_return d done prev : stopper d = SLast done prev → group_done d prev → step d (set_stopper d (SOff done))
  | stop_off d done : stopper d = SOff done → step d (set_stopper (set_running d false) SClear)
  | stop_clear d :
      stopper d = SClear →
      step d (mkDaemon (running d) (stopped d) true ∅ [] (wgPerSameShutdownOrder d) (heap d) (callers d) SReturned).

Definition reachable (n : nat) (d : OrderedDaemon) : Prop := rtc step (New n) d.

(** ** The invariant *)

Definition is_over (p : run_pc) : bool := match p with Active | Returned => false | _ => true end.

(** The handler of the worker was started and has returned. *)
Definition over (w : worker) : Prop := runs w ≠ [] ∧ Forall (λ p, is_over p = true) (runs w).

Definition active_runs (w : worker) : Z := zsum (λ p, if is_over p then 0 else 1) (runs w).

Definition active_of (o : Z) (w : worker) : Z := if decide (shutdownOrder w = o) then active_runs w else 0.

(** The workers that [stopWorkers] is through with. *)
Definition done_of (s : stop_pc) : list nat :=
  match s with
  | SLoop done _ _ | SWait done _ _ _ | SCancel done _ _ _ | SLast done _ | SOff done => done
  | _ => []
  end.

(** Those of its snapshot that are still to come. *)
Definition rest_of (s : stop_pc) : list nat :=
  match s with
  | SLoop _ rest _ => rest
  | SWait _ x rest _ | SCancel _ x rest _ => x :: rest
  | _ => []
  end.

Definition higher (h : list worker) (a b : nat) : Prop := get_order h b ≤ get_order h a.

Definition is_finished (h : list worker) (a : nat) : Prop := ∃ w, h !! a = Some w ∧ over w.

Definition is_started (h : list worker) (a : nat) : Prop := ∃ w, h !! a = Some w ∧ runs w ≠ [].

Record loop_ok (h : list worker) (done rest : list nat) (prev : Z) : Prop := {
  loop_started a : a ∈ done ++ rest → is_started h a;
  loop_sorted : StronglySorted (higher h) (done ++ rest);
  loop_above a : a ∈ done ++ rest → prev < get_order h a → is_finished h a;
  loop_below a : a ∈ done → get_order h a < prev → is_finished h a;
  loop_rest a : a ∈ rest → get_order h a ≤ prev;
}.

Definition stop_ok (h : list worker) (s : stop_pc) : Prop :=
  match s with
  | SLoop done rest prev => loop_ok h done rest prev
  | SWait done x rest prev => loop_ok h done (x :: rest) prev
  | SCancel done x rest prev => loop_ok h done (x :: rest) prev ∧ get_order h x = prev
  | SLast done prev => loop_ok h done [] prev
  | SOff done => ∀ a, a ∈ done → is_finished h a
  | _ => True
  end.

(** [shutdown] has not gone beyond the end of [stopWorkers]. *)
Definition early (s : stop_pc) : Prop := match s with SClear | SReturned | SPanicked => False | _ => True end.

Definition stopping (s : stop_pc) : Prop :=
  match s with SIdle | SMarked | SClear | SReturned | SPanicked => False | _ => True end.

Record inv (d : OrderedDaemon) : Prop := {
  inv_cleared : cleared d = false;
  inv_groups o : default 0 (wgPerSameShutdownOrder d !! o) = zsum (active_of o) (heap d);
  inv_names n id : workers d !! n = Some id → ∃ w, heap d !! id = Some w ∧ w_name w = n;
  inv_nodup : NoDup (shutdownOrderWorker d);
  inv_dom n : n ∈ shutdownOrderWorker d ↔ is_Some (workers d !! n);
  inv_sorted : StronglySorted (λ a b, order_of (workers d) (heap d) b ≤ order_of (workers d) (heap d) a)
    (shutdownOrderWorker d);
  inv_runs w : w ∈ heap d → (length (runs w) ≤ 1)%nat ∧ (w_running w = true ∨ Forall (λ p, p = Ended) (runs w));
  inv_fresh w : running d = false → w ∈ heap d → runs w = [];
  inv_started n id : running d = true → workers d !! n = Some id → is_started (heap d) id;
  inv_running : stopping (stopper d) → running d = true;
  inv_ctx id w : heap d !! id = Some w → ctx_done w = true → id ∈ done_of (stopper d);
  inv_stop : stop_ok (heap d) (stopper d);
}.

(** ** How the heap changes while the daemon is not restarted *)

Definition worker_le (w w' : worker) : Prop :=
  shutdownOrder w' = shutdownOrder w ∧ w_name w' = w_name w ∧ (runs w ≠ [] → runs w' ≠ []) ∧ (over w → over w').

Definition heap_le (h h' : list worker) : Prop :=
  ∀ id w, h !! id = Some w → ∃ w', h' !! id = Some w' ∧ worker_le w w'.

Lemma worker_le_refl w : worker_le w w.
Proof. done. Qed.

Lemma heap_le_insert h id w w' : h !! id = Some w → worker_le w w' → heap_le h (<[id:=w']> h).
Proof.
  intros Hid Hle j wj Hj. destruct (decide (j = id)) as [->|Hne].
  - exists w'. simplify_eq. by rewrite list_lookup_insert_eq by (by eapply lookup_lt_Some).
  - exists wj. by rewrite list_lookup_insert_ne.
Qed.

Lemma heap_le_app h w : heap_le h (h ++ [w]).
Proof. intros j wj Hj. exists wj. split; [|done]. apply lookup_app_l_Some, Hj. Qed.

Lemma heap_le_order h h' id w : heap_le h h' → h !! id = Some w → get_order h' id = get_order h id.
Proof. intros Hle Hid. destruct (Hle id w Hid) as (w' & Hw' & Ho & _). unfold get_order. by rewrite Hid, Hw'. Qed.

Lemma heap_le_started h h' a : heap_le h h' → is_started h a → is_started h' a ∧ get_order h' a = get_order h a.
Proof.
  intros Hle (w & Hw & Hr). split; [|by eapply heap_le_order].
  destruct (Hle a w Hw) as (w' & Hw' & _ & _ & Hs & _). exists w'. by auto.
Qed.

Lemma heap_le_finished h h' a : heap_le h h' → is_finished h a → is_finished h' a.
Proof. intros Hle (w & Hw & Ho). destruct (Hle a w Hw) as (w' & Hw' & _ & _ & _ & Hov). exists w'. by auto. Qed.

Lemma sorted_ext {X} (R R' : X → X → Prop) l :
  (∀ a b, a ∈ l → b ∈ l → R a b → R' a b) → StronglySorted R l → StronglySorted R' l.
Proof.
  induction 2 as [|x l Hs IH Hf]; constructor.
  - apply IH. intros a b Ha Hb. apply H; by right.
  - apply Forall_forall. intros y Hy. apply H; [by left|by right|]. by apply (proj1 (Forall_forall _ _) Hf).
Qed.

Lemma sorted_filter {X} (R : X → X → Prop) (Q : X → Prop) `{∀ x, Decision (Q x)} l :
  StronglySorted R l → StronglySorted R (filter Q l).
Proof.
  induction 1 as [|x l Hs IH Hf]; [constructor|]. rewrite filter_cons. case_decide; [|done].
  constructor; [done|]. apply Forall_forall. intros y [_ Hy]%list_elem_of_filter. by apply (proj1 (Forall_forall _ _) Hf).
Qed.

Lemma sorted_rev {X} (R : X → X → Prop) l : StronglySorted R l → StronglySorted (flip R) (rev l).
Proof.
  induction 1 as [|x l Hs IH Hf]; [constructor|]. cbn. apply StronglySorted_app. split_and!; [|done|by repeat constructor].
  intros a b Ha Hb%list_elem_of_singleton. subst b. apply list_elem_of_In, in_rev, list_elem_of_In in Ha.
  by apply (proj1 (Forall_forall _ _) Hf).
Qed.

Lemma loop_ok_le h h' done rest prev : heap_le h h' → loop_ok h done rest prev → loop_ok h' done rest prev.
Proof.
  intros Hle [H1 H2 H3 H4 H5].
  assert (∀ a, a ∈ done ++ rest → get_order h' a = get_order h a) as Ho.
  { intros a Ha. by apply (heap_le_started _ _ _ Hle), H1. }
  split.
  - intros a Ha. by apply (heap_le_started _ _ _ Hle), H1.
  - eapply sorted_ext; [|exact H2]. intros a b Ha Hb. unfold higher. by rewrite !Ho.
  - intros a Ha. rewrite (Ho a Ha). intros. eapply heap_le_finished; [done|]. by apply H3.
  - intros a Ha. rewrite Ho by (apply elem_of_app; by left). intros. eapply heap_le_finished; [done|]. by apply H4.
  - intros a Ha. rewrite Ho by (apply elem_of_app; by right). by apply H5.
Qed.

Lemma stop_ok_le h h' s : heap_le h h' → stop_ok h s → stop_ok h' s.
Proof.
  intros Hle. destruct s; cbn; try done; try by apply loop_ok_le.
  - intros [Hl Hx]. split; [by eapply loop_ok_le|]. rewrite <-Hx. apply (heap_le_started _ _ _ Hle).
    apply Hl. apply elem_of_app. right. by left.
  - intros H a Ha. eapply heap_le_finished; [done|]. by apply H.
Qed.

(** A group that is done has no handler running. *)
Lemma active_nonneg w : 0 ≤ active_runs w.
Proof. unfold active_runs. induction (runs w) as [|p l IH]; cbn; [lia|]. destruct (is_over p); lia. Qed.

Lemma active_zero w : active_runs w = 0 → Forall (λ p, is_over p = true) (runs w).
Proof.
  unfold active_runs. induction (runs w) as [|p l IH]; cbn; [constructor|].
  assert (0 ≤ zsum (λ p, if is_over p then 0 else 1) l) by (clear; induction l as [|p l IH]; cbn; [lia|]; destruct (is_over p); lia).
  destruct (is_over p) eqn:E; [|lia]. intros Hz. constructor; [done|]. apply IH. lia.
Qed.

Lemma group_done_over d a :
  inv d → is_started (heap d) a → group_done d (get_order (heap d) a) → is_finished (heap d) a.
Proof.
  intros [] (w & Hw & Hr) Hg. exists w. split; [done|]. split; [done|]. apply active_zero.
  unfold group_done in Hg. rewrite inv_groups0 in Hg. unfold get_order in Hg. rewrite Hw in Hg. cbn in Hg.
  pose proof (active_nonneg w). destruct (Z.eq_dec (active_runs w) 0); [done|].
  assert (1 ≤ zsum (active_of (shutdownOrder w)) (heap d)); [|lia].
  apply zsum_pos.
  - intros w'. unfold active_of. case_decide; [apply active_nonneg|lia].
  - exists w. split; [by eapply list_elem_of_lookup_2|]. unfold active_of. rewrite decide_True by done. lia.
Qed.

(** ** The goroutines of the workers *)

Lemma inv_set_caller d i c : inv d → inv (set_caller d i c).
Proof. by intros []. Qed.

Lemma set_run_inv d id w j p p' b g :
  inv d → heap d !! id = Some w → runs w !! j = Some p → p ≠ Ended → (is_over p = true → is_over p' = true) →
  b = w_running w ∨ (b = false ∧ p' = Ended) →
  (∀ o, default 0 (g !! o) = default 0 (wgPerSameShutdownOrder d !! o) +
    if decide (shutdownOrder w = o) then (if is_over p then 0 else 1) * -1 + (if is_over p' then 0 else 1) else 0) →
  inv (set_run d id w j p' b g).
Proof.
  intros [] Hw Hj Hp Hover Hb Hg. set (w' := mkWorker (w_name w) (shutdownOrder w) (ctx_done w) b (<[j:=p']> (runs w))).
  assert (is_Some (runs w !! j)) as Hlt%lookup_lt_is_Some by (by rewrite Hj).
  assert (runs w' ≠ []) as Hne. { intros E. apply (f_equal length) in E. cbn in E. rewrite length_insert in E. lia. }
  assert (heap_le (heap d) (<[id:=w']> (heap d))) as Hle.
  { apply (heap_le_insert _ _ w); [done|]. split_and!; try done. intros [_ Ho]. split; [done|].
    cbn. apply Forall_insert; [done|]. apply Hover. by apply (Forall_lookup_1 _ _ _ _ Ho Hj). }
  assert (∀ x, get_order (<[id:=w']> (heap d)) x = get_order (heap d) x) as Hord.
  { intros x. unfold get_order. destruct (decide (x = id)) as [->|]; [|by rewrite list_lookup_insert_ne].
    by rewrite list_lookup_insert_eq, Hw by (by eapply lookup_lt_Some). }
  split; cbn [set_run set_heap cleared wgPerSameShutdownOrder heap workers shutdownOrderWorker running stopper]; try done.
  - intros o. rewrite Hg, inv_groups0, (zsum_insert _ _ _ _ w' Hw). unfold active_of, active_runs. cbn [shutdownOrder runs w'].
    case_decide; [|lia]. rewrite (zsum_insert _ _ _ _ p' Hj). lia.
  - intros n i Hn. destruct (inv_names0 n i Hn) as (w0 & Hw0 & E0). destruct (Hle i w0 Hw0) as (w1 & Hw1 & _ & E1 & _).
    exists w1. split; [done|]. congruence.
  - eapply sorted_ext; [|exact inv_sorted0]. intros n n' _ _. unfold order_of.
    destruct (workers d !! n), (workers d !! n'); cbn; by rewrite ?Hord.
  - intros u Hu. apply list_elem_of_lookup in Hu as [i [[<- ->]|[_ Hi]]%lookup_insert_case].
    + destruct (inv_runs0 w) as [Hl Hr]; [by eapply list_elem_of_lookup_2|]. cbn. rewrite length_insert. split; [done|].
      destruct Hr as [Hr|Hr]; [|by destruct Hp; apply (Forall_lookup_1 _ _ _ _ Hr Hj)].
      destruct Hb as [->|[-> ->]]; [by left|right]. destruct (runs w) as [|q [|]] eqn:E; cbn in *; try lia.
      destruct j; [|done]. by constructor.
    + apply inv_runs0. by eapply list_elem_of_lookup_2.
  - intros u Hr Hu. apply list_elem_of_lookup in Hu as [i [[<- ->]|[_ Hi]]%lookup_insert_case].
    + rewrite (inv_fresh0 w Hr) in Hj; [done|by eapply list_elem_of_lookup_2].
    + apply inv_fresh0; [done|]. by eapply list_elem_of_lookup_2.
  - intros n i Hr Hn. by apply (heap_le_started _ _ _ Hle), (inv_started0 n).
  - intros i u [[<- ->]|[_ Hi]]%lookup_insert_case; [by apply (inv_ctx0 id w)|by apply (inv_ctx0 i u)].
  - by apply (stop_ok_le _ _ _ Hle).
Qed.

(** Removing a name from the shutdown order. *)
Lemma remove_name name l n : NoDup l → n ∈ removeWorkerFromShutdownOrder name l ↔ n ∈ l ∧ n ≠ name.
Proof.
  induction 1 as [|m l Hm Hl IH]; cbn; [set_solver|]. case_decide as E; [subst; set_solver|]. rewrite elem_of_cons, IH. set_solver.
Qed.

Lemma remove_nodup name l : NoDup l → NoDup (removeWorkerFromShutdownOrder name l).
Proof.
  induction 1 as [|m l Hm Hl IH]; cbn; [constructor|]. case_decide; [done|]. constructor; [|done].
  rewrite remove_name by done. naive_solver.
Qed.

Lemma remove_sorted {R : string → string → Prop} name l :
  NoDup l → StronglySorted R l → StronglySorted R (removeWorkerFromShutdownOrder name l).
Proof.
  intros Hnd. induction 1 as [|m l Hs IH Hf]; cbn; [constructor|]. apply NoDup_cons in Hnd as [_ Hnd]. case_decide; [done|].
  constructor; [by apply IH|]. apply Forall_forall. intros n [Hn _]%remove_name; [|done]. by apply (proj1 (Forall_forall _ _) Hf).
Qed.

Lemma cleanup_inv d name : inv d → inv (cleanupWorker d name).
Proof.
  intros Hi. pose proof Hi as []. unfold cleanupWorker. destruct (stopped d); [done|].
  split; cbn [set_registry cleared wgPerSameShutdownOrder heap workers shutdownOrderWorker running stopper]; try done.
  - intros n id [_ Hn]%lookup_delete_Some. by apply inv_names0.
  - by apply remove_nodup.
  - intros n. rewrite remove_name by done. rewrite inv_dom0. split.
    + intros [[id Hn] Hne]. exists id. by apply lookup_delete_Some.
    + intros [id [Hne Hn]%lookup_delete_Some]. by split; [exists id|].
  - eapply sorted_ext; [|by apply remove_sorted, inv_sorted0]. intros a b [_ Ha]%remove_name [_ Hb]%remove_name; try done.
    unfold order_of. by rewrite !lookup_delete_ne by done.
  - intros n id Hr [_ Hn]%lookup_delete_Some. by eapply inv_started0.
Qed.

(** ** Registering a worker *)

Lemma unsorted_elem d name n : inv d → n ∈ unsorted d name ↔ n = name ∨ is_Some (workers d !! n).
Proof.
  intros []. unfold unsorted. rewrite elem_of_app, list_elem_of_singleton. case_bool_decide as E.
  - rewrite remove_name, inv_dom0 by done. destruct (decide (n = name)); naive_solver.
  - rewrite inv_dom0. naive_solver.
Qed.

Lemma unsorted_nodup d name : inv d → NoDup (unsorted d name).
Proof.
  intros Hi. pose proof Hi as []. unfold unsorted. apply NoDup_app. case_bool_decide as E.
  - split_and!; [by apply remove_nodup| |apply NoDup_singleton]. intros n [_ Hn]%remove_name; [|done]. set_solver.
  - split_and!; [done| |apply NoDup_singleton]. intros n Hn Hs%list_elem_of_singleton. subst n. apply inv_dom0 in Hn as [? Hn].
    congruence.
Qed.

Lemma add_worker_inv d name order sorted g w :
  inv d → w_name w = name → shutdownOrder w = order → ctx_done w = false →
  sorted ≡ₚ unsorted d name →
  StronglySorted (λ a b, order_of (<[name := length (heap d)]> (workers d)) (heap d ++ [w]) b
    ≤ order_of (<[name := length (heap d)]> (workers d)) (heap d ++ [w]) a) sorted →
  (∀ o, default 0 (g !! o) = default 0 (wgPerSameShutdownOrder d !! o) + active_of o w) →
  (if running d then runs w = [Active] ∧ w_running w = true else runs w = []) →
  inv (set_registry (set_heap d g (heap d ++ [w])) (<[name := length (heap d)]> (workers d)) sorted).
Proof.
  intros Hi Hn Ho Hc Hp Hs Hg Hr. pose proof Hi as []. pose proof (heap_le_app (heap d) w) as Hle.
  split; cbn [set_registry set_heap cleared wgPerSameShutdownOrder heap workers shutdownOrderWorker running stopper]; try done.
  - intros o. rewrite Hg, inv_groups0, zsum_app. cbn. lia.
  - intros n id [[<- <-]|[_ Hid]]%lookup_insert_Some.
    + exists w. by rewrite lookup_app_r, Nat.sub_diag.
    + destruct (inv_names0 n id Hid) as (w0 & Hw0 & E). exists w0. split; [|done]. by apply lookup_app_l_Some.
  - rewrite Hp. by apply unsorted_nodup.
  - intros n. rewrite Hp, (unsorted_elem d name n Hi). destruct (decide (n = name)) as [->|].
    + rewrite lookup_insert_eq. split; [by eexists|by left].
    + rewrite lookup_insert_ne by done. naive_solver.
  - intros u [Hu| ->%list_elem_of_singleton]%elem_of_app; [by apply inv_runs0|].
    destruct (running d); [destruct Hr as [-> ->]|rewrite Hr]; cbn; split; [lia|by left|lia|right; constructor].
  - intros u Hr' [Hu| ->%list_elem_of_singleton]%elem_of_app; [by apply inv_fresh0|]. by rewrite Hr' in Hr.
  - intros n id Hr' [[<- <-]|[_ Hid]]%lookup_insert_Some.
    + exists w. rewrite lookup_app_r, Nat.sub_diag by done. split; [done|]. rewrite Hr' in Hr. by destruct Hr as [-> _].
    + apply (heap_le_started _ _ _ Hle). by eapply inv_started0.
  - intros id u [Hid|[_ ->]]%lookup_snoc_Some Hd; [by eapply inv_ctx0|congruence].
  - by apply (stop_ok_le _ _ _ Hle).
Qed.

Lemma register_inv d name order sorted d' err :
  inv d → sorted ≡ₚ unsorted d name →
  StronglySorted (λ a b, order_of (<[name := length (heap d)]> (workers d)) (heap d ++ [mkWorker name order false false []]) b
    ≤ order_of (<[name := length (heap d)]> (workers d)) (heap d ++ [mkWorker name order false false []]) a) sorted →
  BackgroundWorker d name order sorted = Ret (d', err) → inv d'.
Proof.
  intros Hi Hp Hs. unfold BackgroundWorker. destruct (_ && _); [by intros [= <- _]|].
  destruct (from_option _ _ _); [by intros [= <- _]|]. rewrite (inv_cleared d Hi).
  set (g := match wgPerSameShutdownOrder d !! order with Some _ => _ | None => _ end).
  assert (∀ o, default 0 (g !! o) = default 0 (wgPerSameShutdownOrder d !! o)) as Hg.
  { intros o. unfold g. destruct (wgPerSameShutdownOrder d !! order) eqn:E; [done|].
    destruct (decide (o = order)) as [->|]; [by rewrite lookup_insert_eq, E|by rewrite lookup_insert_ne]. }
  intros [= <- _]. cbn [running set_registry set_heap]. destruct (running d) eqn:Er.
  - unfold runBackgroundWorker. cbn [set_registry set_heap heap wgPerSameShutdownOrder]. rewrite list_lookup_middle by done.
    cbn [w_name shutdownOrder ctx_done runs app].
    assert (∀ (h : list worker) u v, <[length h:=v]> (h ++ [u]) = h ++ [v]) as -> by (intros; by rewrite insert_app_r_alt, Nat.sub_diag).
    apply (add_worker_inv d name order sorted (group_add g order 1) (mkWorker name order false true [Active])); try done.
    + eapply sorted_ext; [|exact Hs]. intros a b _ _. unfold order_of.
      assert (∀ x, get_order (heap d ++ [mkWorker name order false false []]) x =
        get_order (heap d ++ [mkWorker name order false true [Active]]) x) as E.
      { intros x. unfold get_order. destruct (decide (x < length (heap d))%nat); [by rewrite !lookup_app_l by done|].
        rewrite !lookup_app_r by lia. by destruct (x - length (heap d))%nat. }
      destruct (<[name:=length (heap d)]> (workers d) !! a), (<[name:=length (heap d)]> (workers d) !! b); cbn; by rewrite ?E.
    + intros o. unfold group_add, active_of, active_runs. cbn [shutdownOrder runs zsum is_over].
      destruct (decide (order = o)) as [<-|].
      * rewrite lookup_insert_eq. cbn [from_option id default]. rewrite Hg. lia.
      * rewrite lookup_insert_ne, Hg by done. lia.
    + by rewrite Er.
  - apply (add_worker_inv d name order sorted _ (mkWorker name order false false [])); try done.
    + intros o. rewrite Hg. unfold active_of. cbn. case_decide; lia.
    + by rewrite Er.
Qed.

(** ** Starting *)

Definition started (w : worker) : worker := mkWorker (w_name w) (shutdownOrder w) (ctx_done w) true (runs w ++ [Active]).

Lemma run_groups d id :
  (∀ o, default 0 (wgPerSameShutdownOrder d !! o) = zsum (active_of o) (heap d)) →
  ∀ o, default 0 (wgPerSameShutdownOrder (runBackgroundWorker d id) !! o) = zsum (active_of o) (heap (runBackgroundWorker d id)).
Proof.
  intros Hg o. unfold runBackgroundWorker. destruct (heap d !! id) as [w|] eqn:Hw; [|done].
  cbn [set_heap wgPerSameShutdownOrder heap]. rewrite (zsum_insert _ _ _ _ _ Hw). unfold group_add, active_of at 2 3, active_runs. cbn.
  rewrite zsum_app. cbn. destruct (decide (shutdownOrder w = o)) as [<-|].
  - rewrite lookup_insert_eq, Hg. cbn. lia.
  - rewrite lookup_insert_ne, Hg by done. lia.
Qed.

(** Only the workers, their wait groups and nothing else change. *)
Lemma run_all ids d :
  NoDup ids →
  let d' := foldl runBackgroundWorker d ids in
  d' = set_heap d (wgPerSameShutdownOrder d') (heap d') ∧ length (heap d') = length (heap d) ∧
  (∀ i w, heap d !! i = Some w → heap d' !! i = Some (if bool_decide (i ∈ ids) then started w else w)) ∧
  ((∀ o, default 0 (wgPerSameShutdownOrder d !! o) = zsum (active_of o) (heap d)) →
    ∀ o, default 0 (wgPerSameShutdownOrder d' !! o) = zsum (active_of o) (heap d')).
Proof.
  revert d. induction ids as [|id ids IH]; intros d Hnd; cbn [foldl].
  { split_and!; [by destruct d|done| |done]. intros i w Hi. by rewrite bool_decide_eq_false_2 by apply not_elem_of_nil. }
  apply NoDup_cons in Hnd as [Hid Hnd]. destruct (IH (runBackgroundWorker d id) Hnd) as (E & Hl & Hh & Hg).
  set (d' := foldl runBackgroundWorker (runBackgroundWorker d id) ids) in *.
  assert (length (heap (runBackgroundWorker d id)) = length (heap d)) as Hl1.
  { unfold runBackgroundWorker. destruct (heap d !! id); [apply length_insert|done]. }
  split_and!.
  - rewrite E at 1. unfold runBackgroundWorker. by destruct (heap d !! id).
  - by rewrite Hl.
  - intros i w Hi. destruct (decide (i = id)) as [->|Hne].
    + rewrite (Hh id (started w)).
      * by rewrite bool_decide_eq_false_2, bool_decide_eq_true_2 by (done || by left).
      * unfold runBackgroundWorker. rewrite Hi. apply list_lookup_insert_eq. by eapply lookup_lt_Some.
    + rewrite (Hh i w).
      * f_equal. assert (bool_decide (i ∈ ids) = bool_decide (i ∈ id :: ids)) as ->; [|done].
        apply bool_decide_ext. rewrite elem_of_cons. naive_solver.
      * unfold runBackgroundWorker. destruct (heap d !! id); [|done]. cbn. by rewrite list_lookup_insert_ne.
  - intros H. by apply Hg, run_groups.
Qed.

Lemma Start_daemon_inv d : inv d → inv (Start d).
Proof.
  intros Hi. unfold Start. destruct (running d) eqn:Er; [done|]. pose proof Hi as [].
  set (ids := (map_to_list (workers d)).*2).
  assert (NoDup ids) as Hnd.
  { apply NoDup_fmap_2_strong; [|apply NoDup_map_to_list]. intros [n i] [n' i'] Hn%elem_of_map_to_list Hn'%elem_of_map_to_list E.
    cbn in E. subst i'. destruct (inv_names0 n i Hn) as (w & Hw & <-), (inv_names0 n' i Hn') as (w' & Hw' & <-). by simplify_eq. }
  assert (∀ n i, workers d !! n = Some i → i ∈ ids) as Hids.
  { intros n i Hn. apply list_elem_of_fmap. exists (n, i). split; [done|]. by apply elem_of_map_to_list. }
  destruct (run_all ids (set_running d true) Hnd) as (E & Hl & Hh & Hg). cbn [set_running heap wgPerSameShutdownOrder] in *.
  specialize (Hg inv_groups0). set (d' := foldl runBackgroundWorker (set_running d true) ids) in *.
  assert (∀ i w', heap d' !! i = Some w' → ∃ w, heap d !! i = Some w ∧ runs w = [] ∧ ctx_done w' = ctx_done w ∧
    w' = if bool_decide (i ∈ ids) then started w else w) as Hinv.
  { intros i w' Hw'. destruct (lookup_lt_is_Some_2 (heap d) i) as [w Hw]; [rewrite <-Hl; by eapply lookup_lt_Some|].
    exists w. rewrite (Hh i w Hw) in Hw'. injection Hw' as <-.
    split_and!; [done|apply inv_fresh0; [done|by eapply list_elem_of_lookup_2]|by case_bool_decide|done]. }
  assert (heap_le (heap d) (heap d')) as Hle.
  { intros i w Hw. eexists. split; [by apply Hh|]. assert (runs w = []) as Hr by (apply inv_fresh0; [done|by eapply list_elem_of_lookup_2]).
    case_bool_decide; [|done]. split_and!; try done. intros [Hne _]. by rewrite Hr in Hne. }
  assert (¬ stopping (stopper d)) as Hns. { intros Hs. specialize (inv_running0 Hs). congruence. }
  rewrite E. split; cbn [set_heap set_running cleared workers shutdownOrderWorker running stopper heap wgPerSameShutdownOrder]; try done.
  - intros n i Hn. destruct (inv_names0 n i Hn) as (w & Hw & En). destruct (Hle i w Hw) as (w' & Hw' & _ & En' & _).
    exists w'. split; [done|]. congruence.
  - eapply sorted_ext; [|exact inv_sorted0]. intros a b Ha Hb. unfold order_of.
    apply inv_dom0 in Ha as [i Hi'], Hb as [j Hj]. rewrite Hi', Hj. cbn.
    destruct (inv_names0 _ _ Hi') as (w & Hw & _), (inv_names0 _ _ Hj) as (u & Hu & _).
    by rewrite (heap_le_order _ _ _ _ Hle Hw), (heap_le_order _ _ _ _ Hle Hu).
  - intros w' Hw'. apply list_elem_of_lookup in Hw' as [i Hw']. destruct (Hinv i w' Hw') as (w & Hw & Hr & _ & ->).
    case_bool_decide; cbn; rewrite Hr; cbn; [split; [lia|by left]|split; [lia|by right]].
  - intros n i _ Hn. destruct (inv_names0 n i Hn) as (w & Hw & _). eexists. split; [by apply Hh|].
    rewrite bool_decide_eq_true_2 by (by eapply Hids). cbn. by destruct (runs w).
  - intros i w' Hw' Hc. destruct (Hinv i w' Hw') as (w & Hw & _ & Ec & _). apply (inv_ctx0 i w Hw). congruence.
  - by apply (stop_ok_le _ _ _ Hle).
Qed.

(** ** Stopping *)

Lemma cancel_inv d done x rest prev :
  inv d → stopping (stopper d) → done_of (stopper d) = done → loop_ok (heap d) done (x :: rest) prev →
  get_order (heap d) x = prev ∨ is_finished (heap d) x →
  inv (set_stopper (ctxCancel d x) (SLoop (done ++ [x]) rest prev)).
Proof.
  intros Hi Hs Hd Hl Hx. pose proof Hi as []. destruct (loop_started _ _ _ _ Hl x) as (w & Hw & _); [set_solver|].
  unfold ctxCancel. rewrite Hw. set (w' := mkWorker (w_name w) (shutdownOrder w) true (w_running w) (runs w)).
  assert (heap_le (heap d) (<[x:=w']> (heap d))) as Hle by (by apply (heap_le_insert _ _ w)).
  assert (∀ y, get_order (<[x:=w']> (heap d)) y = get_order (heap d) y) as Hord.
  { intros y. unfold get_order. destruct (decide (y = x)) as [->|]; [|by rewrite list_lookup_insert_ne].
    by rewrite list_lookup_insert_eq, Hw by (by eapply lookup_lt_Some). }
  assert (∀ u, u ∈ <[x:=w']> (heap d) → ∃ u0, u0 ∈ heap d ∧ runs u = runs u0 ∧ w_running u = w_running u0) as Hu.
  { intros u [i [[<- ->]|[_ Hi']]%lookup_insert_case]%list_elem_of_lookup; [exists w|exists u]; split; try done;
      by eapply list_elem_of_lookup_2. }
  split; cbn [set_stopper set_heap cleared workers shutdownOrderWorker running stopper heap wgPerSameShutdownOrder]; try done.
  - intros o. rewrite inv_groups0, (zsum_insert _ _ _ _ w' Hw). unfold active_of, active_runs. cbn. lia.
  - intros n i Hn. destruct (inv_names0 n i Hn) as (w0 & Hw0 & E0). destruct (Hle i w0 Hw0) as (w1 & Hw1 & _ & E1 & _).
    exists w1. split; [done|]. congruence.
  - eapply sorted_ext; [|exact inv_sorted0]. intros n n' _ _. unfold order_of.
    destruct (workers d !! n), (workers d !! n'); cbn; by rewrite ?Hord.
  - intros u (u0 & Hu0 & -> & ->)%Hu. by apply inv_runs0.
  - intros u Hr (u0 & Hu0 & -> & _)%Hu. by apply inv_fresh0.
  - intros n i Hr Hn. by apply (heap_le_started _ _ _ Hle), (inv_started0 n).
  - intros _. by apply inv_running0.
  - cbn. intros i u [[<- ->]|[_ Hu']]%lookup_insert_case Hc; [set_solver|]. apply elem_of_app. left. rewrite <-Hd. by eapply inv_ctx0.
  - cbn. apply (loop_ok_le (heap d)); [done|]. destruct Hl. split; rewrite <-?app_assoc; try done.
    + intros a [Ha| ->%list_elem_of_singleton]%elem_of_app Ho; [by apply loop_below0|]. destruct Hx; [lia|done].
    + intros a Ha. apply loop_rest0. by right.
Qed.

(** The stopper moves and nothing else changes. *)
Lemma set_stopper_inv d s :
  inv d → (stopping s → running d = true) → (∀ id, id ∈ done_of (stopper d) → id ∈ done_of s) → stop_ok (heap d) s →
  inv (set_stopper d s).
Proof. intros [] Hr Hd Hs. split; try done. intros id w Hw Hc. apply Hd. by eapply inv_ctx0. Qed.

Lemma snapshot_sorted d names ids :
  Forall2 (λ n id, workers d !! n = Some id) names ids →
  StronglySorted (λ a b, order_of (workers d) (heap d) b ≤ order_of (workers d) (heap d) a) names →
  StronglySorted (higher (heap d)) ids.
Proof.
  intros Hf. revert names Hf. induction ids as [|i ids IH]; intros [|n names] Hf Hs; try (by inversion Hf); [constructor|].
  apply Forall2_cons in Hf as [Hi Hf]. apply StronglySorted_inv in Hs as [Hs Hn]. constructor; [by eapply IH|].
  apply Forall_forall. intros j Hj. apply list_elem_of_lookup in Hj as [k Hk].
  destruct (Forall2_lookup_r _ _ _ _ _ Hf Hk) as (n' & Hn' & Hj). apply (Forall_lookup_1 _ _ _ _ Hn) in Hn'.
  unfold order_of in Hn'. by rewrite Hi, Hj in Hn'.
Qed.

Lemma snapshot_inv d : inv d → stopper d = SRunning → inv (set_stopper d (stopWorkers d)) ∧ stopWorkers d ≠ SPanicked.
Proof.
  intros Hi Hs. pose proof Hi as []. specialize (inv_running0 ltac:(by rewrite Hs)).
  assert (∃ ids, getWorkersAndShutdownOrder d = Some ids) as [ids E].
  { unfold getWorkersAndShutdownOrder. apply mapM_is_Some, Forall_forall. intros n Hn. by apply inv_dom0. }
  unfold stopWorkers. rewrite E. unfold getWorkersAndShutdownOrder in E. apply mapM_Some_1 in E as Hf.
  pose proof (snapshot_sorted d _ _ Hf inv_sorted0) as Hsorted. split; [|by destruct ids].
  assert (∀ a, a ∈ ids → is_started (heap d) a) as Hstarted.
  { intros a Ha. apply list_elem_of_lookup in Ha as [k Hk]. destruct (Forall2_lookup_r _ _ _ _ _ Hf Hk) as (n & _ & Hn).
    by eapply inv_started0. }
  destruct ids as [|x rest]; (apply set_stopper_inv; [done|done|by rewrite Hs|]); cbn; [set_solver|].
  assert (∀ a, a ∈ x :: rest → get_order (heap d) a ≤ get_order (heap d) x) as Hmax.
  { intros a [->|Ha]%elem_of_cons; [done|]. apply StronglySorted_inv in Hsorted as [_ Hall].
    by apply (proj1 (Forall_forall _ _) Hall). }
  split; cbn; try done.
  - intros a Ha Ho. specialize (Hmax a Ha). lia.
  - set_solver.
Qed.

(** A worker whose flag is off has finished. *)
Lemma not_running_finished d x w :
  inv d → heap d !! x = Some w → w_running w = false → is_started (heap d) x → is_finished (heap d) x.
Proof.
  intros [] Hw Hr (w' & Hw' & Hne). simplify_eq. exists w. split; [done|]. split; [done|].
  destruct (inv_runs0 w) as [_ [?|He]]; [by eapply list_elem_of_lookup_2|congruence|].
  eapply Forall_impl; [exact He|]. by intros p ->.
Qed.

Lemma wait_ok d done x rest prev :
  inv d → loop_ok (heap d) done (x :: rest) prev → group_done d prev →
  loop_ok (heap d) done (x :: rest) (get_order (heap d) x).
Proof.
  intros Hi Hl Hg. pose proof Hl as []. split; try done.
  - intros a Ha Ho. destruct (Z.lt_trichotomy prev (get_order (heap d) a)) as [?|[E|?]].
    + by apply loop_above0.
    + apply group_done_over; [done|by apply loop_started0|by rewrite <-E].
    + apply elem_of_app in Ha as [Ha|Ha]; [by apply loop_below0|].
      (* those behind [x] have no higher order *)
      exfalso. apply StronglySorted_app in loop_sorted0 as (_ & _ & Hs). apply StronglySorted_inv in Hs as [_ Hall].
      apply elem_of_cons in Ha as [->|Ha]; [lia|]. apply (proj1 (Forall_forall _ _) Hall) in Ha. unfold higher in Ha. lia.
  - intros a Ha Ho. apply StronglySorted_app in loop_sorted0 as (Hx & _ & _). specialize (Hx a x Ha ltac:(by left)). unfold higher in Hx. lia.
  - intros a Ha. apply StronglySorted_app in loop_sorted0 as (_ & _ & Hs). apply StronglySorted_inv in Hs as [_ Hall].
    apply elem_of_cons in Ha as [->|Ha]; [done|]. by apply (proj1 (Forall_forall _ _) Hall) in Ha.
Qed.

Lemma run_stopper d id : stopper (runBackgroundWorker d id) = stopper d.
Proof. unfold runBackgroundWorker. by destruct (heap d !! id). Qed.

Lemma start_stopper d : stopper (Start d) = stopper d.
Proof.
  unfold Start. destruct (running d); [done|]. change (stopper d) with (stopper (set_running d true)).
  generalize (set_running d true), ((map_to_list (workers d)).*2). intros e l. revert e.
  induction l as [|x l IH]; intros e; cbn; [done|]. by rewrite IH, run_stopper.
Qed.

Lemma register_stopper d name order sorted d' err :
  BackgroundWorker d name order sorted = Ret (d', err) → stopper d' = stopper d.
Proof.
  unfold BackgroundWorker. destruct (_ && _); [by intros [= <- _]|].
  destruct (from_option _ _ _); [by intros [= <- _]|]. destruct (cleared d); [done|]. intros [= <- _]. cbn [running set_registry set_heap].
  destruct (running d); [by rewrite run_stopper|done].
Qed.

Lemma step_early d d' : step d d' → early (stopper d') → early (stopper d).
Proof.
  destruct 1; cbn [set_caller set_stopper set_run set_heap stopper]; try done;
    try (match goal with H : stopper _ = _ |- _ => rewrite H end; done).
  - by erewrite register_stopper.
  - by rewrite start_stopper.
  - unfold cleanupWorker. by destruct (stopped _).
Qed.

Lemma group_add_default g o n o' : default 0 (group_add g o n !! o') = default 0 (g !! o') + if decide (o = o') then n else 0.
Proof.
  unfold group_add. case_decide as E; [subst; by rewrite lookup_insert_eq|]. rewrite lookup_insert_ne by done. lia.
Qed.

Lemma step_inv_daemon d d' : step d d' → early (stopper d') → inv d → inv d'.
Proof.
  intros Hst He Hi. pose proof (inv_stop d Hi) as Hok. destruct Hst as
    [| | | |d id w j Hw Hj|d id w j Hw Hj|d id w j Hw Hj|d id w j Hw Hj|d Hs|d Hs|d Hs|d done x rest prev w Hs Hw
    |d done x rest prev Hs Hg|d done x rest prev Hs|d done prev Hs|d done prev Hs Hg|d done Hs|d Hs];
    try (rewrite Hs in Hok; cbn in Hok).
  - by apply inv_set_caller.
  - by eapply inv_set_caller, register_inv.
  - by apply inv_set_caller.
  - by apply inv_set_caller, Start_daemon_inv.
  - eapply set_run_inv; try done; [by left|]. intros o. cbn. case_decide; lia.
  - eapply set_run_inv; try done; [by left|]. intros o. rewrite group_add_default. cbn. case_decide; lia.
  - apply cleanup_inv. eapply set_run_inv; try done; [by left|]. intros o. cbn. case_decide; lia.
  - eapply set_run_inv; try done; [by right|]. intros o. cbn. case_decide; lia.
  - destruct Hi. split; try done. intros id w Hw Hc. specialize (inv_ctx0 id w Hw Hc). by rewrite Hs in inv_ctx0.
  - destruct (running d) eqn:Er; [|done]. apply set_stopper_inv; try done. by rewrite Hs.
  - by apply snapshot_inv.
  - assert (running d = true) as Hr by (apply (inv_running d Hi); by rewrite Hs).
    destruct (w_running w) eqn:Ew.
    + assert (get_order (heap d) x = shutdownOrder w) as Eo by (unfold get_order; by rewrite Hw).
      destruct (Z.ltb_spec (shutdownOrder w) prev); apply set_stopper_inv; try done; try by rewrite Hs.
      split; [done|]. pose proof (loop_rest _ _ _ _ Hok x ltac:(by left)). lia.
    + apply cancel_inv; try done; try by rewrite Hs. right. eapply not_running_finished; try done.
      apply (loop_started _ _ _ _ Hok). set_solver.
  - assert (running d = true) as Hr by (apply (inv_running d Hi); by rewrite Hs).
    apply set_stopper_inv; try done; [by rewrite Hs|]. split; [by eapply wait_ok|done].
  - apply cancel_inv; try done; try by rewrite Hs. all: tauto.
  - assert (running d = true) as Hr by (apply (inv_running d Hi); by rewrite Hs).
    apply set_stopper_inv; try done. by rewrite Hs.
  - assert (running d = true) as Hr by (apply (inv_running d Hi); by rewrite Hs).
    apply set_stopper_inv; try done; [by rewrite Hs|]. cbn. intros a Ha.
    assert (a ∈ done ++ []) as Ha' by (by rewrite app_nil_r).
    destruct (Z.lt_trichotomy prev (get_order (heap d) a)) as [?|[E|?]].
    + by apply (loop_above _ _ _ _ Hok).
    + apply group_done_over; [done|by apply (loop_started _ _ _ _ Hok)|by rewrite <-E].
    + by apply (loop_below _ _ _ _ Hok).
  - done.
  - done.
Qed.

Lemma inv_New n : inv (New n).
Proof.
  split; try done; cbn; try set_solver; try constructor; [set_solver|]. rewrite lookup_empty. by intros [].
Qed.

Lemma inv_reachable_daemon n d : reachable n d → early (stopper d) → inv d.
Proof.
  intros Hr. revert d Hr. apply (rtc_ind_r (λ d, early (stopper d) → inv d)); [intros; apply inv_New|].
  intros d d' _ Hs IH He. eapply step_inv_daemon; [done|done|]. by eapply IH, step_early.
Qed.

(** ** The order of shutdown *)

Lemma loop_order h done rest prev a b :
  loop_ok h done rest prev → b ∈ done → a ∈ done ++ rest → get_order h b < get_order h a →
  is_finished h a ∨ is_finished h b.
Proof.
  intros [] Hb Ha Ho. destruct (decide (get_order h b < prev)); [right; by apply loop_below0|].
  left. apply loop_above0; [done|lia].
Qed.

(** C19: in every interleaving of calls of [BackgroundWorker], [Start] and
    [shutdown] and of the workers' goroutines, as long as [stopWorkers] has not
    returned: a worker is told to stop only by [stopWorkers]; when one is told to
    stop, then every worker of the snapshot with a higher shutdown order has
    finished, or the worker itself had; each wait group counts the handlers of its
    order that run; and when [stopWorkers] returns all the workers of its snapshot
    have finished. *)
Theorem Daemon_shutdown_order n d :
  reachable n d → early (stopper d) →
  (∀ b w, heap d !! b = Some w → ctx_done w = true →
    b ∈ done_of (stopper d) ∧
    ∀ a, a ∈ done_of (stopper d) ++ rest_of (stopper d) → get_order (heap d) b < get_order (heap d) a →
      is_finished (heap d) a ∨ is_finished (heap d) b) ∧
  (∀ o, default 0 (wgPerSameShutdownOrder d !! o) = zsum (active_of o) (heap d)) ∧
  (∀ done, stopper d = SOff done → ∀ a, a ∈ done → is_finished (heap d) a).
Proof.
  intros Hr He. pose proof (inv_reachable_daemon n d Hr He) as Hi. pose proof (inv_stop d Hi) as Hok.
  split_and!; [|apply Hi|intros done Hs; by rewrite Hs in Hok].
  intros b w Hb Hc. pose proof (inv_ctx d Hi b w Hb Hc) as Hd. split; [done|]. intros a Ha Ho.
  destruct (stopper d) eqn:Es; cbn [done_of rest_of stop_ok] in *; try (by apply not_elem_of_nil in Hd); try (by eapply loop_order).
  - destruct Hok. by eapply loop_order.
  - rewrite app_nil_r in Ha. left. by apply Hok.
Qed.

(** The workers that run are listed, in ascending order. *)
Lemma GetRunningBackgroundWorkers_sorted n d :
  reachable n d → early (stopper d) →
  (∀ name, name ∈ GetRunningBackgroundWorkers d ↔
    ∃ id w, workers d !! name = Some id ∧ heap d !! id = Some w ∧ w_running w = true) ∧
  StronglySorted (λ a b, order_of (workers d) (heap d) a ≤ order_of (workers d) (heap d) b) (GetRunningBackgroundWorkers d).
Proof.
  intros Hr He. destruct (inv_reachable_daemon n d Hr He) as [_ _ Hnames _ Hdom Hsorted _ _ _ _ _ _].
  unfold GetRunningBackgroundWorkers. split.
  - intros name. rewrite list_elem_of_In, <-in_rev, <-list_elem_of_In, list_elem_of_filter, Hdom. split.
    + intros [Hrun [id Hid]]. destruct (Hnames _ _ Hid) as (w & Hw & _). exists id, w.
      rewrite Hid in Hrun. cbn in Hrun. by rewrite Hw in Hrun.
    + intros (id & w & Hid & Hw & Hrun). rewrite Hid. cbn. rewrite Hw. split; [done|by eexists].
  - apply sorted_rev. by apply sorted_filter.
Qed.

(** ** Runs *)

(** Registers a worker with the given sorted order. *)
Definition registered (d : OrderedDaemon) (name : string) (order : Z) (sorted : list string) : OrderedDaemon :=
  match BackgroundWorker (set_caller d 0 (Registering name order)) name order sorted with
  | Ret (d, _) => set_caller d 0 Idle
  | _ => d
  end.

Definition marked (d : OrderedDaemon) : OrderedDaemon :=
  mkDaemon (running d) true (cleared d) (workers d) (shutdownOrderWorker d) (wgPerSameShutdownOrder d) (heap d)
    (callers d) SMarked.

(** Two workers of orders 1 and 2 that run. *)
Definition two_run : OrderedDaemon :=
  set_caller (Start (set_caller (registered (registered (New 1) "a" 1 ["a"]) "b" 2 ["b"; "a"]) 0 Starting)) 0 Idle.

(** The shutdown that has cancelled the second, and waits for it. *)
Definition waiting : OrderedDaemon :=
  set_stopper (ctxCancel (set_stopper (marked two_run) (SCancel [] 1 [0%nat] 2)) 1) (SWait [1%nat] 0 [] 2).

(** The state after the handler of the second has returned and the first is told to
    stop. *)
Definition both_cancelled : OrderedDaemon :=
  let w := mkWorker "b" 2 true true [Active] in
  let d := set_run waiting 1 w 0 Returned true (wgPerSameShutdownOrder waiting) in
  let d := set_run d 1 (mkWorker "b" 2 true true [Returned]) 0 Finished true (group_add (wgPerSameShutdownOrder d) 2 (-1)) in
  set_stopper (ctxCancel d 0) (SLoop [1%nat; 0%nat] [] 1).

(** Steps on states that are computed. *)
Lemma reach_eq d d' e : d = d' → rtc step d' e → rtc step d e.
Proof. by intros ->. Qed.

Ltac sort_pair := repeat constructor; vm_compute; congruence.
Ltac run_step t := eapply rtc_l; [eapply t; try (vm_compute; reflexivity)|]; [..|eapply reach_eq; [vm_compute; reflexivity|]].

Lemma two_run_reachable : reachable 1 two_run.
Proof.
  run_step (register_check (New 1) 0%nat "a" 1).
  run_step (λ d, register d 0%nat "a" 1 ["a"]); [sort_pair|].
  run_step (λ d, register_check d 0%nat "b" 2).
  run_step (λ d, register d 0%nat "b" 2 ["b"; "a"]); [apply (Permutation_swap "a" "b" [])|sort_pair|].
  run_step (λ d, start_check d 0%nat).
  run_step (λ d, start d 0%nat). apply rtc_refl.
Qed.

Lemma both_cancelled_reachable : reachable 1 both_cancelled.
Proof.
  unfold reachable. rewrite two_run_reachable. eapply reach_eq; [vm_compute; reflexivity|].
  run_step stop_mark. run_step stop_check. run_step stop_snapshot.
  run_step stop_next. run_step stop_cancel. run_step stop_next.
  run_step (λ d w, run_return d 1%nat w 0%nat). run_step (λ d w, run_done d 1%nat w 0%nat).
  run_step stop_wait. run_step stop_cancel. apply rtc_refl.
Qed.

(** The first worker was told to stop while it ran, and the second has finished. *)
Lemma Daemon_shutdown_order_witness :
  ctx_done <$> (heap both_cancelled !! 0%nat) = Some true ∧
  (is_finished (heap both_cancelled) 1%nat ∨ is_finished (heap both_cancelled) 0%nat).
Proof.
  split; [vm_compute; reflexivity|].
  pose proof (Daemon_shutdown_order 1 both_cancelled both_cancelled_reachable I) as [H _].
  assert (heap both_cancelled !! 0%nat = Some (mkWorker "a" 1 true true [Active])) as Ha by (vm_compute; reflexivity).
  apply (proj2 (H 0%nat _ Ha eq_refl)); vm_compute; [constructor|reflexivity].
Defined.

(** ** Where calls race with a shutdown *)

(** A daemon without workers that was shut down, and a call of [BackgroundWorker] that
    saw it running. *)
Definition overtaken (name : string) (order : Z) : OrderedDaemon :=
  mkDaemon false true true ∅ [] ∅ [] [Registering name order] SReturned.

(** [BackgroundWorker] panics when the daemon is cleared between its check and its
    critical section. *)
Lemma register_after_clear name order :
  reachable 1 (overtaken name order) ∧
  ∀ sorted, BackgroundWorker (overtaken name order) name order sorted = Panic "assignment to entry in nil map".
Proof.
  split; [|done]. run_step (start_check (New 1) 0%nat). run_step (λ d, start d 0%nat).
  run_step (λ d, register_check d 0%nat name order). run_step stop_mark. run_step stop_check. run_step stop_snapshot.
  run_step stop_off. run_step stop_clear. apply rtc_refl.
Qed.

(** When [Start] is overtaken by the shutdown, the shutdown returns and the workers run
    afterwards: nothing tells them to stop. *)
Lemma start_after_shutdown :
  ∃ d w, reachable 1 d ∧ stopper d = SReturned ∧ heap d = [w] ∧ runs w = [Active] ∧ ctx_done w = false.
Proof.
  eexists _, _. split; [|split_and!].
  - run_step (register_check (New 1) 0%nat "a" 1). run_step (λ d, register d 0%nat "a" 1 ["a"]); [sort_pair|].
    run_step (λ d, start_check d 0%nat). run_step stop_mark. run_step stop_check. run_step (λ d, start d 0%nat). apply rtc_refl.
  - done.
  - done.
  - done.
  - done.
Qed.

(** A worker that is registered after the snapshot is not told to stop, but its wait
    group is waited for. *)
Lemma late_worker_blocks :
  ∃ d w prev done, reachable 1 d ∧ stopper d = SLast done prev ∧ heap d !! 1%nat = Some w ∧
    runs w = [Active] ∧ ctx_done w = false ∧ 1%nat ∉ done ∧ ¬ group_done d prev.
Proof.
  eexists _, _, _, _. split; [|split_and!].
  - run_step (register_check (New 1) 0%nat "a" 1). run_step (λ d, register d 0%nat "a" 1 ["a"]); [sort_pair|].
    run_step (λ d, start_check d 0%nat). run_step (λ d, start d 0%nat). run_step (λ d, register_check d 0%nat "b" 1).
    run_step stop_mark. run_step stop_check. run_step stop_snapshot. run_step (λ d, register d 0%nat "b" 1 ["a"; "b"]); [sort_pair|].
    run_step stop_next. run_step stop_cancel. run_step (λ d w, run_return d 0%nat w 0%nat).
    run_step (λ d w, run_done d 0%nat w 0%nat). run_step stop_last. apply rtc_refl.
  - done.
  - done.
  - done.
  - done.
  - set_solver.
  - done.
Qed.
