(* ===== verification/App.v ===== *)
(** * app: the stages of an application

    [src/app/app.go] from [initConfig] on, and [component.go].  The functions of the components
    work on a world [W] (the container, the configuration, ...) and may fail; [calls] are those
    that were made, in order.  A panic stops a stage: the result is the application and the message of the panic.
    Reading the configuration, printing and the check for new versions are not modelled;
    the daemon is that of Daemon.v, and its calls are not repeated here. *)

From Stdlib Require Import Ascii.
From S2P Require Import Prelude.

Section app.
Context {W : Type}.

Definition hook : Type := option (W → W * option error).

Record Component : Type := mkComponent {
  Name : string;
  DepsFunc : hook;
  InitConfigParams : hook;
  IsEnabled : option (W → W * bool);
  Provide : hook;
  Configure : hook;
  Run_ : hook;
}.

(** [strings.ToLower] of a letter of ASCII. *)
Definition lower (c : ascii) : ascii :=
  let n := N_of_ascii c in if (65 <=? n)%N && (n <=? 90)%N then ascii_of_N (n + 32) else c.

(** [strings.ToLower(strings.ReplaceAll(name, SPACE, EMPTY))] *)
Fixpoint normalise (s : string) : string :=
  match s with
  | EmptyString => EmptyString
  | String c s => if Ascii.eqb c " " then normalise s else String (lower c) (normalise s)
  end.

Definition Identifier (c : Component) : string := normalise (Name c).

Inductive stage : Type := SInitConfig | SIsEnabled | SProvide | SInvoke | SConfigure | SPoolStart | SRun.

Record App : Type := mkApp {
  initComponent : Component;
  options : list Component;                  (* [options.components] *)
  componentsEnabledState : gmap string bool;
  componentsMap : gset string;
  components : list Component;
  pools : list string;                       (* the worker pools that run, by identifier *)
  calls : list (stage * string);
  world : W;
}.

Definition New (init : Component) (opts : list Component) (w : W) : App := mkApp init opts ∅ ∅ [] [] [] w.

Definition set_call (a : App) (s : stage) (n : string) (w : W) : App :=
  mkApp (initComponent a) (options a) (componentsEnabledState a) (componentsMap a) (components a) (pools a) (calls a ++ [(s, n)]) w.

(** [if f != nil { if err := f(...); err != nil { a.LogPanicf(...) } }] *)
Definition call (s : stage) (c : Component) (h : hook) (msg : string) (a : App) : App * option string :=
  match h with
  | None => (a, None)
  | Some f => let '(w, err) := f (world a) in (set_call a s (Name c) w, (λ _, msg) <$> err)
  end.

Definition andThen (r : App * option string) (k : App → App * option string) : App * option string :=
  match r with (a, None) => k a | (a, Some msg) => (a, Some msg) end.

(** [forEachComponent] with a function that returns true. *)
Fixpoint forEachComponent (cs : list Component) (f : Component → App → App * option string) (a : App) : App * option string :=
  match cs with
  | [] => (a, None)
  | c :: cs => andThen (f c a) (forEachComponent cs f)
  end.

Definition initConfig (a : App) : App * option string :=
  andThen (call SInitConfig (initComponent a) (InitConfigParams (initComponent a)) "failed to initialize init component config parameters: %s" a)
    (λ a, forEachComponent (options a)
       (λ c, call SInitConfig c (InitConfigParams c) "failed to initialize component (%s) config parameters: %s") a).

Definition set_enabled (a : App) (c : Component) (b : bool) : App :=
  mkApp (initComponent a) (options a) (<[Identifier c := b]> (componentsEnabledState a)) (componentsMap a) (components a) (pools a) (calls a) (world a).

Definition preProvide (a : App) : App * option string :=
  forEachComponent (options a) (λ c a,
    match IsEnabled c with
    | None => (set_enabled a c true, None)
    | Some f => let '(w, b) := f (world a) in (set_enabled (set_call a SIsEnabled (Name c) w) c b, None)
    end) a.

Definition IsComponentEnabled (a : App) (identifier : string) : bool := default false (componentsEnabledState a !! identifier).

Definition addComponent (c : Component) (a : App) : App * option string :=
  if bool_decide (Identifier c ∈ componentsMap a) then (a, Some "duplicate component")
  else (mkApp (initComponent a) (options a) (componentsEnabledState a) ({[Identifier c]} ∪ componentsMap a) (components a ++ [c])
          (pools a) (calls a) (world a), None).

Definition addComponents (a : App) : App * option string :=
  forEachComponent (options a) (λ c a, if negb (IsComponentEnabled a (Identifier c)) then (a, None) else addComponent c a) a.

Definition provide (a : App) : App * option string :=
  andThen (call SProvide (initComponent a) (Provide (initComponent a)) "provide init component failed: %s" a)
    (λ a, forEachComponent (components a) (λ c, call SProvide c (Provide c) "provide component (%s) failed: %s") a).

Definition invoke (a : App) : App * option string :=
  andThen (call SInvoke (initComponent a) (DepsFunc (initComponent a)) "invoke init component failed: %s" a)
    (λ a, forEachComponent (components a) (λ c, call SInvoke c (DepsFunc c) "invoke component (%s) failed: %s") a).

Definition configure (a : App) : App * option string :=
  andThen (call SConfigure (initComponent a) (Configure (initComponent a)) "configure init component failed: %s" a)
    (λ a, forEachComponent (components a) (λ c, call SConfigure c (Configure c) "configure component (%s) failed: %s") a).

(** [component.WorkerPool.Start()] *)
Definition start_pool (c : Component) (a : App) : App :=
  mkApp (initComponent a) (options a) (componentsEnabledState a) (componentsMap a) (components a) (Identifier c :: pools a)
    (calls a ++ [(SPoolStart, Name c)]) (world a).

Definition run (a : App) : App * option string :=
  andThen (call SRun (initComponent a) (Run_ (initComponent a)) "run init component failed: %s" a)
    (λ a, forEachComponent (components a) (λ c a, call SRun c (Run_ c) "run component (%s) failed: %s" (start_pool c a)) a).

Definition initializeApp (a : App) : App * option string :=
  andThen (initConfig a) (λ a, andThen (preProvide a) (λ a, andThen (addComponents a) (λ a,
    andThen (provide a) (λ a, andThen (invoke a) (λ a, andThen (configure a) run))))).

Definition stop_pool (c : Component) (a : App) : App * option string :=
  (mkApp (initComponent a) (options a) (componentsEnabledState a) (componentsMap a) (components a)
     (List.filter (λ p, negb (bool_decide (p = Identifier c))) (pools a)) (calls a) (world a), None).

(** The daemon runs between the two parts of [Run]. *)
Definition Run (a : App) : App * option string := andThen (initializeApp a) (λ a, forEachComponent (components a) stop_pool a).
Definition Start (a : App) : App * option string := initializeApp a.
Definition Shutdown (a : App) : App * option string := (a, None).

(** ** The calls that are made *)

Definition hooks (s : stage) (sel : Component → hook) (cs : list Component) : list (stage * string) :=
  omap (λ c, (λ _, (s, Name c)) <$> sel c) cs.

Definition enabled_calls (cs : list Component) : list (stage * string) := omap (λ c, (λ _, (SIsEnabled, Name c)) <$> IsEnabled c) cs.

Definition run_calls (c : Component) : list (stage * string) := (SPoolStart, Name c) :: hooks SRun Run_ [c].

(** The order of the stages. *)
Definition schedule (init : Component) (opts enabled : list Component) : list (stage * string) :=
  hooks SInitConfig InitConfigParams (init :: opts) ++ enabled_calls opts ++
  hooks SProvide Provide (init :: enabled) ++ hooks SInvoke DepsFunc (init :: enabled) ++
  hooks SConfigure Configure (init :: enabled) ++ hooks SRun Run_ [init] ++ concat (run_calls <$> enabled).

(** What a stage leaves alone. *)
Record frame (a a' : App) : Prop := {
  fr_init : initComponent a' = initComponent a;
  fr_options : options a' = options a;
  fr_state : componentsEnabledState a' = componentsEnabledState a;
  fr_map : componentsMap a' = componentsMap a;
  fr_components : components a' = components a;
}.

Lemma frame_refl a : frame a a.
Proof. done. Qed.
Lemma frame_trans a b c : frame a b → frame b c → frame a c.
Proof. intros [] []. split; congruence. Qed.

(** The stage made the calls [full], or panicked after some of them. *)
Record makes (full : list (stage * string)) (a : App) (r : App * option string) : Prop := {
  mk_frame : frame a r.1;
  mk_calls : ∃ l, calls r.1 = calls a ++ l ∧ l `prefix_of` full ∧ (r.2 = None → l = full);
}.

Lemma makes_then l1 l2 a r k :
  makes l1 a r → (∀ a', frame a a' → makes l2 a' (k a')) → makes (l1 ++ l2) a (andThen r k).
Proof.
  intros [Hf (l & Hc & Hp & Hfull)] Hk. destruct r as [a1 [msg|]]; cbn [andThen fst snd] in *.
  - split; [done|]. exists l. split; [done|]. split; [|done]. by apply prefix_app_r.
  - destruct (Hk a1 Hf) as [Hf' (l' & Hc' & Hp' & Hfull')]. split; [by eapply frame_trans|]. rewrite (Hfull eq_refl) in Hc.
    exists (l1 ++ l'). split; [by rewrite Hc', Hc, app_assoc|]. split; [by apply prefix_app|]. intros E. by rewrite (Hfull' E).
Qed.

Lemma call_makes s sel c msg a : makes (hooks s sel [c]) a (call s c (sel c) msg a).
Proof.
  unfold call, hooks. cbn. destruct (sel c) as [f|]; cbn.
  - destruct (f (world a)) as [w err]. split; [done|]. exists [(s, Name c)]. by split_and!.
  - split; [done|]. exists []. split; [by rewrite app_nil_r|]. done.
Qed.

Lemma hooks_cons s sel c cs : hooks s sel (c :: cs) = hooks s sel [c] ++ hooks s sel cs.
Proof. unfold hooks. cbn. by destruct (sel c). Qed.

Lemma forEach_makes g f cs a : (∀ c a, makes (g c) a (f c a)) → makes (concat (g <$> cs)) a (forEachComponent cs f a).
Proof.
  intros Hf. revert a. induction cs as [|c cs IH]; intros a; cbn.
  - split; [done|]. exists []. by rewrite app_nil_r.
  - apply makes_then; [apply Hf|]. intros a' _. apply IH.
Qed.

Lemma hooks_concat s sel cs : concat ((λ c, hooks s sel [c]) <$> cs) = hooks s sel cs.
Proof. induction cs as [|c cs IH]; [done|]. rewrite hooks_cons, <-IH. done. Qed.

(** A stage that calls the init component and then all [cs]. *)
Lemma stage_makes s sel msg msg' cs a :
  makes (hooks s sel (initComponent a :: cs)) a
    (andThen (call s (initComponent a) (sel (initComponent a)) msg a) (λ a, forEachComponent cs (λ c, call s c (sel c) msg') a)).
Proof.
  rewrite hooks_cons. apply makes_then; [apply call_makes|]. intros a' _. rewrite <-(hooks_concat s sel cs). apply forEach_makes.
  intros c a1. apply call_makes.
Qed.

Lemma initConfig_makes a : makes (hooks SInitConfig InitConfigParams (initComponent a :: options a)) a (initConfig a).
Proof.
  unfold initConfig. rewrite hooks_cons. apply makes_then; [apply call_makes|]. intros a' Hf. rewrite (fr_options _ _ Hf).
  rewrite <-(hooks_concat SInitConfig InitConfigParams (options a)). apply forEach_makes. intros c a1. apply call_makes.
Qed.

(** The stages of the enabled components. *)
Lemma enabled_makes s sel msg msg' a :
  makes (hooks s sel (initComponent a :: components a)) a
    (andThen (call s (initComponent a) (sel (initComponent a)) msg a)
       (λ a, forEachComponent (components a) (λ c, call s c (sel c) msg') a)).
Proof.
  rewrite hooks_cons. apply makes_then; [apply call_makes|]. intros a' Hf. rewrite (fr_components _ _ Hf).
  rewrite <-(hooks_concat s sel (components a)). apply forEach_makes. intros c a1. apply call_makes.
Qed.

Lemma run_makes a : makes (hooks SRun Run_ [initComponent a] ++ concat (run_calls <$> components a)) a (run a).
Proof.
  unfold run. apply makes_then; [apply call_makes|]. intros a' Hf. rewrite (fr_components _ _ Hf). apply forEach_makes.
  intros c a1. destruct (call_makes SRun Run_ c "run component (%s) failed: %s" (start_pool c a1)) as [Hf1 (l & Hc & Hp & Hfull)].
  split; [by destruct Hf1; split|]. exists ((SPoolStart, Name c) :: l). split; [rewrite Hc; cbn; by rewrite <-app_assoc|].
  split; [by apply prefix_cons|]. intros E. by rewrite (Hfull E).
Qed.

(** Both stages between: which components are enabled, and their list. *)
Lemma preProvide_ok a :
  (preProvide a).2 = None ∧ calls (preProvide a).1 = calls a ++ enabled_calls (options a) ∧
  initComponent (preProvide a).1 = initComponent a ∧ options (preProvide a).1 = options a ∧
  componentsMap (preProvide a).1 = componentsMap a ∧ components (preProvide a).1 = components a.
Proof.
  unfold preProvide. set (f := λ c a, _). assert (∀ cs a, let r := forEachComponent cs f a in
    r.2 = None ∧ calls r.1 = calls a ++ enabled_calls cs ∧ initComponent r.1 = initComponent a ∧ options r.1 = options a ∧
    componentsMap r.1 = componentsMap a ∧ components r.1 = components a) as Hall; [|apply Hall].
  clear a. induction cs as [|c cs IH]; intros a; cbn [forEachComponent]; [cbn; by rewrite app_nil_r|].
  assert (∃ a1, f c a = (a1, None) ∧ calls a1 = calls a ++ enabled_calls [c] ∧ initComponent a1 = initComponent a ∧ options a1 = options a ∧
    componentsMap a1 = componentsMap a ∧ components a1 = components a) as (a1 & -> & G1 & G2 & G3 & G4 & G5).
  { unfold f, enabled_calls. cbn. destruct (IsEnabled c) as [g|]; cbn; [|eexists; split; [done|]; cbn; by rewrite app_nil_r].
    destruct (g (world a)) as [w b]. by eexists. }
  cbn [andThen]. destruct (IH a1) as (H1 & H2 & H3 & H4 & H5 & H6). split_and!; try congruence. rewrite H2, G1, <-app_assoc. f_equal.
  unfold enabled_calls. cbn. by destruct (IsEnabled c).
Qed.

(** The components that are enabled, and not seen before. *)
Definition enabled_of (a : App) (cs : list Component) : list Component := List.filter (λ c, IsComponentEnabled a (Identifier c)) cs.

Lemma addComponents_loop cs a :
  (∀ c, Identifier c ∈ componentsMap a ↔ Identifier c ∈ (Identifier <$> components a)) → NoDup (Identifier <$> components a) →
  let r := forEachComponent cs (λ c a, if negb (IsComponentEnabled a (Identifier c)) then (a, None) else addComponent c a) a in
  calls r.1 = calls a ∧ initComponent r.1 = initComponent a ∧ options r.1 = options a ∧
  componentsEnabledState r.1 = componentsEnabledState a ∧
  (r.2 = None → components r.1 = components a ++ enabled_of a cs ∧ NoDup (Identifier <$> components r.1)).
Proof.
  revert a. induction cs as [|c cs IH]; intros a Hm Hnd; cbn.
  - split_and!; try done. intros _. by rewrite app_nil_r.
  - destruct (IsComponentEnabled a (Identifier c)) eqn:En; cbn [negb andThen]; [|by apply IH].
    unfold addComponent. destruct (bool_decide (Identifier c ∈ componentsMap a)) eqn:Eb; cbn [andThen fst snd].
    { by split_and!. }
    apply bool_decide_eq_false in Eb. match goal with |- context [forEachComponent cs _ ?x] => set (a1 := x) end.
    destruct (IH a1) as (H1 & H2 & H3 & H4 & H5).
    { intros d. cbn. rewrite elem_of_union, elem_of_singleton, Hm, fmap_app, elem_of_app. cbn. rewrite list_elem_of_singleton. tauto. }
    { cbn. rewrite fmap_app. apply NoDup_app. split; [done|]. split; [|apply NoDup_singleton]. intros x Hx. cbn. intros Hx'%list_elem_of_singleton. subst x. by apply Eb, Hm. }
    split_and!; try done. intros E. destruct (H5 E) as [Hc Hn]. split; [|done]. etrans; [exact Hc|]. cbn. rewrite <-app_assoc. done.
Qed.

(** The stages of an application run in their order.  [initializeApp] calls the functions of
    the components, the init component first and the others in the order they were given, stage
    by stage as [schedule] says, and stops at the first that fails; a component that is not enabled is
    asked for its configuration and whether it is enabled, and never after; and when it
    does not panic, all of the schedule was done, with the components that are enabled, no two
    of which share an identifier. *)
Lemma App_stages init opts w :
  ∃ enabled, enabled `sublist_of` opts ∧ calls (initializeApp (New init opts w)).1 `prefix_of` schedule init opts enabled ∧
    ((initializeApp (New init opts w)).2 = None →
      calls (initializeApp (New init opts w)).1 = schedule init opts enabled ∧
      components (initializeApp (New init opts w)).1 = enabled ∧ NoDup (Identifier <$> enabled) ∧
      enabled = enabled_of (initializeApp (New init opts w)).1 opts).
Proof.
  unfold initializeApp, schedule. set (a := New init opts w). destruct (initConfig_makes a) as [Hf (l & Hc & Hp & Hfull)].
  destruct (initConfig a) as [a1 [msg|]]; cbn [andThen fst snd] in *.
  { exists []. split; [apply sublist_nil_l|]. split; [|done]. rewrite Hc. cbn. by apply prefix_app_r. }
  rewrite (Hfull eq_refl) in Hc. clear Hfull Hp l. cbn in Hc. destruct (preProvide_ok a1) as (E & Hc1 & Hi1 & Ho1 & Hm1 & Hcs1).
  destruct (preProvide a1) as [a2 p2]. cbn in E, Hc1, Hi1, Ho1, Hm1, Hcs1. subst p2. cbn [andThen].
  rewrite (fr_options _ _ Hf) in Hc1, Ho1. rewrite (fr_init _ _ Hf) in Hi1. rewrite (fr_map _ _ Hf) in Hm1. rewrite (fr_components _ _ Hf) in Hcs1.
  cbn in Hc1, Ho1, Hi1, Hm1, Hcs1. rewrite Hc in Hc1. unfold addComponents. rewrite Ho1.
  destruct (addComponents_loop opts a2) as (H1 & H2 & H3 & H4 & H5); [rewrite Hm1, Hcs1; cbn; set_solver|rewrite Hcs1; constructor|].
  destruct (forEachComponent opts _ a2) as [a3 [msg|]]; cbn [andThen fst snd] in *.
  { exists []. split; [apply sublist_nil_l|]. split; [|done]. rewrite H1, Hc1, app_assoc. by apply prefix_app_r. }
  destruct (H5 eq_refl) as [Hcs Hnd]. rewrite Hcs1 in Hcs. cbn in Hcs. clear H5. rewrite Hi1 in H2. set (en := enabled_of a2 opts) in *.
  assert (∀ a', frame a3 a' → enabled_of a' opts = en) as Hen.
  { intros a' Hf'. unfold en, enabled_of, IsComponentEnabled. by rewrite (fr_state _ _ Hf'), H4. }
  exists en. split; [clear; subst en; induction opts as [|c opts IH]; cbn; [constructor|]; destruct (IsComponentEnabled _ _); by constructor|].
  assert (makes (hooks SProvide Provide (init :: en) ++ hooks SInvoke DepsFunc (init :: en) ++ hooks SConfigure Configure (init :: en) ++
    hooks SRun Run_ [init] ++ concat (run_calls <$> en)) a3 (andThen (provide a3) (λ a, andThen (invoke a) (λ a, andThen (configure a) run)))) as [Hf' (l & Hl & Hp & Hfull)].
  { apply makes_then; [rewrite <-H2, <-Hcs; apply enabled_makes|]. intros b1 B1.
    apply makes_then; [rewrite <-H2, <-Hcs, <-(fr_init _ _ B1), <-(fr_components _ _ B1); apply enabled_makes|]. intros b2 B2.
    apply makes_then; [rewrite <-H2, <-Hcs, <-(fr_init _ _ B1), <-(fr_components _ _ B1), <-(fr_init _ _ B2), <-(fr_components _ _ B2); apply enabled_makes|]. intros b3 B3.
    rewrite <-H2, <-Hcs, <-(fr_init _ _ B1), <-(fr_components _ _ B1), <-(fr_init _ _ B2), <-(fr_components _ _ B2), <-(fr_init _ _ B3), <-(fr_components _ _ B3). apply run_makes. }
  set (r := andThen (provide a3) _) in *. rewrite Hl, H1, Hc1, <-app_assoc. split; [by apply prefix_app, prefix_app|].
  intros E. split; [by rewrite (Hfull E)|]. rewrite (fr_components _ _ Hf'), (Hen _ Hf'). rewrite <-Hcs at 2. by split_and!.
Qed.
End app.

(** Two components whose names differ in case and spaces share their state: the second decides for both. *)
Lemma same_identifier_disables :
  let first := mkComponent (W:=unit) "Dash Board" None None None None None (Some (λ w, (w, None))) in
  let second := mkComponent (W:=unit) "dashboard" None None (Some (λ w, (w, false))) None None None in
  components (initializeApp (New (mkComponent "init" None None None None None None) [first; second] tt)).1 = [].
Proof. by vm_compute. Qed.

(** [Start] and [Shutdown] leave the worker pools of the components running, [Run] stops them. *)
Lemma Shutdown_leaves_pools :
  let a := New (mkComponent "init" None None None None None None) [mkComponent (W:=unit) "db" None None None None None None] tt in
  pools (Shutdown (Start a).1).1 = ["db"] ∧ pools (Run a).1 = [].
Proof. by vm_compute. Qed.
