(* ===== verification/SubscriptionManager.v ===== *)
(** * web/subscriptionmanager

    [src/web/subscriptionmanager/subscription_manager.go]: which client is
    subscribed to which topic how often, and the events that tell about it.  The
    shrinking maps are the maps they refine (ShrinkingMap.v); a method is one
    step, since it holds the lock while it changes the state, and returns the
    events it triggers, in order.  [ForEach] visits the topics of a client in an
    order that Go leaves open: it is the argument [visit]. *)

From stdpp Require Import fin_maps.
From S2P Require Import Prelude.

Section SubscriptionManager.
Context {C T : Type} `{Countable C} `{Countable T}.

Record SubscriptionManager : Type := mkManager {
  subscribers : gmap C (gmap T Z);
  topics : gmap T Z;
  maxTopicSubscriptionsPerClient : Z;
}.

Inductive Event : Type :=
  | ClientConnected (c : C)
  | ClientDisconnected (c : C)
  | TopicSubscribed (c : C) (t : T)
  | TopicUnsubscribed (c : C) (t : T)
  | TopicAdded (t : T)
  | TopicRemoved (t : T)
  | DropClient (c : C).

Definition New (max : Z) : SubscriptionManager := mkManager ∅ ∅ max.

Definition set_subscribers (s : SubscriptionManager) (x : gmap C (gmap T Z)) : SubscriptionManager :=
  mkManager x (topics s) (maxTopicSubscriptionsPerClient s).
Definition set_topics (s : SubscriptionManager) (x : gmap T Z) : SubscriptionManager :=
  mkManager (subscribers s) x (maxTopicSubscriptionsPerClient s).

Context (visit : gmap T Z → list (T * Z)).

(** ** Operations *)

(** The topics that remain, with the topics that were removed and those that were
    unsubscribed, as often as they were subscribed. *)
Definition cleanup_topic (acc : gmap T Z * list T * list T) (tc : T * Z) : gmap T Z * list T * list T :=
  let '(topics, removedTopics, unsubscribedTopics) := acc in
  let '(topic, count) := tc in
  let '(topics, removedTopics) :=
    match topics !! topic with
    | Some topicsCount =>
        if topicsCount - count <=? 0 then (delete topic topics, removedTopics ++ [topic])
        else (<[topic := topicsCount - count]> topics, removedTopics)
    | None => (topics, removedTopics)
    end in
  (topics, removedTopics, unsubscribedTopics ++ replicate (Z.to_nat count) topic).

Definition cleanupClientWithoutLocking (s : SubscriptionManager) (clientID : C) :
    SubscriptionManager * bool * list T * list T :=
  match subscribers s !! clientID with
  | None => (s, false, [], [])
  | Some subscribedTopics =>
      let '(topics', removedTopics, unsubscribedTopics) :=
        foldl cleanup_topic (topics s, [], []) (visit subscribedTopics) in
      (mkManager (delete clientID (subscribers s)) topics' (maxTopicSubscriptionsPerClient s),
       true, removedTopics, unsubscribedTopics)
  end.

(** The events of a client that is gone. *)
Definition cleanup_events (clientID : C) (removedTopics unsubscribedTopics : list T) : list Event :=
  (TopicRemoved <$> removedTopics) ++ (TopicUnsubscribed clientID <$> unsubscribedTopics).

Definition Connect (s : SubscriptionManager) (clientID : C) : SubscriptionManager * list Event :=
  let '(s, wasConnected, removedTopics, unsubscribedTopics) := cleanupClientWithoutLocking s clientID in
  let s := set_subscribers s (<[clientID := ∅]> (subscribers s)) in
  (s, (if wasConnected : bool then
         cleanup_events clientID removedTopics unsubscribedTopics ++ [ClientDisconnected clientID]
       else []) ++ [ClientConnected clientID]).

Definition Disconnect (s : SubscriptionManager) (clientID : C) : SubscriptionManager * list Event * bool :=
  let '(s, wasConnected, removedTopics, unsubscribedTopics) := cleanupClientWithoutLocking s clientID in
  if wasConnected : bool then
    (s, cleanup_events clientID removedTopics unsubscribedTopics ++ [ClientDisconnected clientID], true)
  else (s, [], false).

(** The global topics: one subscription more, and whether the topic is new. *)
Definition add_topic (s : SubscriptionManager) (topic : T) : SubscriptionManager * bool :=
  match topics s !! topic with
  | Some count => (set_topics s (<[topic := count + 1]> (topics s)), false)
  | None => (set_topics s (<[topic := 1]> (topics s)), true)
  end.

Definition subscribed_events (clientID : C) (topic : T) (topicAdded : bool) : list Event :=
  (if topicAdded then [TopicAdded topic] else []) ++ [TopicSubscribed clientID topic].

(** A client that is not connected gets the event and the answer of one that is. *)
Definition Subscribe (s : SubscriptionManager) (clientID : C) (topic : T) :
    SubscriptionManager * list Event * bool :=
  match subscribers s !! clientID with
  | None => (s, subscribed_events clientID topic false, true)
  | Some subscribedTopics =>
      match subscribedTopics !! topic with
      | Some count =>
          let s := set_subscribers s (<[clientID := <[topic := count + 1]> subscribedTopics]> (subscribers s)) in
          let '(s, topicAdded) := add_topic s topic in
          (s, subscribed_events clientID topic topicAdded, true)
      | None =>
          let subscribedTopics := <[topic := 1]> subscribedTopics in
          let s := set_subscribers s (<[clientID := subscribedTopics]> (subscribers s)) in
          if negb (maxTopicSubscriptionsPerClient s =? 0) &&
             (Z.of_nat (size subscribedTopics) >=? maxTopicSubscriptionsPerClient s) then
            let '(s, _, removedTopics, unsubscribedTopics) := cleanupClientWithoutLocking s clientID in
            (s, cleanup_events clientID removedTopics unsubscribedTopics ++
                [DropClient clientID; ClientDisconnected clientID], false)
          else
            let '(s, topicAdded) := add_topic s topic in
            (s, subscribed_events clientID topic topicAdded, true)
      end
  end.

Definition Unsubscribe (s : SubscriptionManager) (clientID : C) (topic : T) :
    SubscriptionManager * list Event * bool :=
  match subscribers s !! clientID with
  | None => (s, [], false)
  | Some subscribedTopics =>
      match subscribedTopics !! topic with
      | None => (s, [], false)
      | Some count =>
          let subscribedTopics :=
            if count <=? 1 then delete topic subscribedTopics else <[topic := count - 1]> subscribedTopics in
          let s := set_subscribers s (<[clientID := subscribedTopics]> (subscribers s)) in
          let '(s, topicRemoved) :=
            match topics s !! topic with
            | None => (s, false)
            | Some count =>
                if count <=? 1 then (set_topics s (delete topic (topics s)), true)
                else (set_topics s (<[topic := count - 1]> (topics s)), false)
            end in
          (s, (if topicRemoved : bool then [TopicRemoved topic] else []) ++ [TopicUnsubscribed clientID topic], true)
      end
  end.

Definition TopicHasSubscribers (s : SubscriptionManager) (topic : T) : bool :=
  bool_decide (is_Some (topics s !! topic)).

Definition ClientSubscribedToTopic (s : SubscriptionManager) (clientID : C) (topic : T) : bool :=
  match subscribers s !! clientID with
  | None => false
  | Some subscribedTopics => bool_decide (is_Some (subscribedTopics !! topic))
  end.

Definition SubscribersSize (s : SubscriptionManager) : Z := Z.of_nat (size (subscribers s)).
Definition TopicsSize (s : SubscriptionManager) : Z := Z.of_nat (size (topics s)).
Definition TopicsSizeAll (s : SubscriptionManager) : Z :=
  map_fold (λ _ topics count, count + Z.of_nat (size topics)) 0 (subscribers s).

End SubscriptionManager.

Arguments SubscriptionManager C T {_ _ _ _}.
Arguments Event : clear implicits.

(** ** Counting *)

Section Counting.
Context {C T : Type} `{Countable C} `{Countable T}.
Implicit Types (s : SubscriptionManager C T) (m tp : gmap T Z) (subs : gmap C (gmap T Z)).

#[global] Instance Event_eq_dec : EqDecision (Event C T).
Proof. solve_decision. Defined.

(** How often an element is in a list. *)
Definition num {A} `{EqDecision A} (a : A) (l : list A) : Z := len (filter (λ x, x = a) l).

Lemma num_nil {A} `{EqDecision A} (a : A) : num a [] = 0.
Proof. done. Qed.

Lemma num_cons {A} `{EqDecision A} (a x : A) l : num a (x :: l) = (if decide (x = a) then 1 else 0) + num a l.
Proof. unfold num. rewrite filter_cons. destruct (decide (x = a)); [|lia]. unfold len. simpl. lia. Qed.

Lemma num_app {A} `{EqDecision A} (a : A) l1 l2 : num a (l1 ++ l2) = num a l1 + num a l2.
Proof. unfold num. by rewrite filter_app, len_app. Qed.

Lemma num_fmap {A B} `{EqDecision A} `{EqDecision B} (f : A → B) `{!Inj (=) (=) f} (a : A) l :
  num (f a) (f <$> l) = num a l.
Proof.
  induction l as [|x l IH]; [done|]. rewrite fmap_cons, !num_cons, IH.
  repeat case_decide; simplify_eq; lia.
Qed.

Lemma num_fmap_ne {A B} `{EqDecision A} `{EqDecision B} (f : A → B) b l :
  (∀ a, f a ≠ b) → num b (f <$> l) = 0.
Proof. intros Hf. induction l as [|x l IH]; [done|]. rewrite fmap_cons, num_cons, IH, decide_False; done. Qed.

Lemma num_replicate {A} `{EqDecision A} (a x : A) n :
  num a (replicate n x) = if decide (x = a) then Z.of_nat n else 0.
Proof.
  induction n as [|n IH]; cbn [replicate]; [by case_decide|]. rewrite num_cons, IH. case_decide; lia.
Qed.

(** The count of a topic, and the subscriptions of all clients. *)
Definition count_in m (t : T) : Z := default 0 (m !! t).
Definition subscriptions subs (c : C) (t : T) : Z := from_option (λ m, count_in m t) 0 (subs !! c).
Definition total subs (t : T) : Z := map_fold (λ _ m acc, count_in m t + acc) 0 subs.

Definition positive m : Prop := ∀ t n, m !! t = Some n → 0 < n.

Lemma topic_count_insert m t n t' : count_in (<[t := n]> m) t' = if decide (t = t') then n else count_in m t'.
Proof. unfold count_in. rewrite lookup_insert. by case_decide. Qed.

Lemma count_delete m t t' : count_in (delete t m) t' = if decide (t = t') then 0 else count_in m t'.
Proof. unfold count_in. rewrite lookup_delete. by case_decide. Qed.

Lemma topic_count_nonneg m t : positive m → 0 ≤ count_in m t.
Proof. intros Hm. unfold count_in. destruct (m !! t) as [n|] eqn:E; simpl; [|lia]. apply Hm in E. lia. Qed.

Lemma total_delete subs c t : total (delete c subs) t = total subs t - subscriptions subs c t.
Proof.
  unfold subscriptions. destruct (subs !! c) as [m|] eqn:E; simpl; [|by rewrite delete_id, Z.sub_0_r].
  unfold total. rewrite (map_fold_delete_L (λ _ m acc, count_in m t + acc) _ c m subs); [lia|lia|done].
Qed.

Lemma total_insert subs c m t :
  total (<[c := m]> subs) t = total subs t - subscriptions subs c t + count_in m t.
Proof.
  rewrite <-insert_delete_eq, <-total_delete. unfold total.
  rewrite map_fold_insert_L; [lia|lia|by rewrite lookup_delete_eq].
Qed.

Lemma total_spec subs t :
  (∀ c m, subs !! c = Some m → positive m) →
  0 ≤ total subs t ∧ (0 < total subs t ↔ ∃ c, 0 < subscriptions subs c t).
Proof.
  induction subs as [|c m subs Hc IH] using map_ind; intros Hp.
  { split; [done|]. split; [done|]. intros (c & Hs). unfold subscriptions in Hs. by rewrite lookup_empty in Hs. }
  assert (positive m) as Hm by (apply (Hp c); by rewrite lookup_insert_eq).
  destruct IH as [Hn Hiff].
  { intros c' m' Hc'. apply (Hp c'). rewrite lookup_insert_ne; [done|congruence]. }
  assert (subscriptions subs c t = 0) as Hz by (unfold subscriptions; by rewrite Hc).
  rewrite total_insert, Hz. pose proof (topic_count_nonneg m t Hm).
  assert (∀ c', subscriptions (<[c := m]> subs) c' t = if decide (c = c') then count_in m t else subscriptions subs c' t)
    as Hs by (intros c'; unfold subscriptions; rewrite lookup_insert; by case_decide).
  split; [lia|]. split.
  - intros Hpos. destruct (Z.lt_ge_cases 0 (count_in m t)) as [?|?].
    + exists c. by rewrite Hs, decide_True.
    + destruct (proj1 Hiff ltac:(lia)) as (c' & Hc'). exists c'. rewrite Hs. case_decide; [subst; lia|done].
  - intros (c' & Hc'). rewrite Hs in Hc'. case_decide; [lia|].
    assert (0 < total subs t) by (apply Hiff; by exists c'). lia.
Qed.

Lemma subscriptions_le_total subs c t :
  (∀ c m, subs !! c = Some m → positive m) → 0 ≤ subscriptions subs c t ≤ total subs t.
Proof.
  intros Hp. split.
  - unfold subscriptions. destruct (subs !! c) eqn:E; [|done]. eapply topic_count_nonneg, Hp, E.
  - pose proof (total_delete subs c t) as Hd.
    destruct (total_spec (delete c subs) t) as [Hn _]; [|lia].
    intros c' m'. rewrite lookup_delete_Some. intros [_ ?]. by eapply Hp.
Qed.

(** ** Cleaning up *)

Definition present m (t : T) : Z := if 0 <? count_in m t then 1 else 0.

Lemma cleanup_spec l tp r u :
  NoDup l.*1 → (∀ t n, (t, n) ∈ l → 0 < n ≤ count_in tp t) → positive tp →
  ∃ tp' r' u', foldl cleanup_topic (tp, r, u) l = (tp', r ++ r', u ++ u') ∧ positive tp' ∧
    (∀ t, count_in tp' t = count_in tp t - count_in (list_to_map l) t) ∧
    (∀ t, num t r' = present tp t - present tp' t) ∧
    (∀ t, num t u' = count_in (list_to_map l) t).
Proof.
  revert tp r u. induction l as [|[t0 n0] l IH]; intros tp r u Hnd Hl Hp; cbn [foldl].
  { exists tp, [], []. rewrite !app_nil_r. split_and!; [done..| | |].
    - intros t. unfold count_in. simpl. rewrite lookup_empty. simpl. lia.
    - intros t. rewrite num_nil. lia.
    - intros t. unfold count_in. simpl. by rewrite lookup_empty. }
  rewrite fmap_cons in Hnd. apply NoDup_cons in Hnd as [Hni Hnd]. simpl in Hni.
  destruct (Hl t0 n0 ltac:(set_solver)) as [Hn0 Hle].
  assert (∃ k, tp !! t0 = Some k ∧ count_in tp t0 = k) as (k & Hk & Hck).
  { unfold count_in in *. destruct (tp !! t0); simpl in *; [eauto|lia]. }
  set (tp1 := if k - n0 <=? 0 then delete t0 tp else <[t0 := k - n0]> tp).
  set (r1 := if k - n0 <=? 0 then [t0] else []).
  assert (cleanup_topic (tp, r, u) (t0, n0) = (tp1, r ++ r1, u ++ replicate (Z.to_nat n0) t0)) as ->.
  { unfold cleanup_topic, tp1, r1. rewrite Hk. by destruct (k - n0 <=? 0); rewrite ?app_nil_r. }
  assert (∀ t, count_in tp1 t = if decide (t0 = t) then k - n0 else count_in tp t) as Hc1.
  { intros t. unfold tp1. destruct (Z.leb_spec (k - n0) 0); rewrite ?count_delete, ?topic_count_insert; case_decide; lia. }
  destruct (IH tp1 (r ++ r1) (u ++ replicate (Z.to_nat n0) t0)) as (tp' & r' & u' & -> & Hp' & Hc & Hr & Hu); [done| | |].
  { intros t n Hin. rewrite Hc1, decide_False; [apply Hl; set_solver|].
    intros <-. apply Hni. by apply (list_elem_of_fmap_2 fst _ (t0, n)). }
  { intros t n. unfold tp1. destruct (Z.leb_spec (k - n0) 0).
    - rewrite lookup_delete_Some. intros [_ ?]. by eapply Hp.
    - rewrite lookup_insert_Some. intros [[_ <-]|[_ ?]]; [lia|]. by eapply Hp. }
  exists tp', (r1 ++ r'), (replicate (Z.to_nat n0) t0 ++ u'). rewrite !app_assoc.
  assert (∀ t, count_in (list_to_map ((t0, n0) :: l)) t = if decide (t0 = t) then n0 else count_in (list_to_map l) t) as Hlm.
  { intros t. simpl. apply topic_count_insert. }
  assert (count_in (list_to_map l) t0 = 0) as Hz.
  { unfold count_in. by rewrite not_elem_of_list_to_map_1. }
  split_and!; [done..| | |].
  - intros t. rewrite Hc, Hc1, Hlm. case_decide; [subst; lia|lia].
  - intros t. rewrite num_app, Hr. unfold present. rewrite Hc1.
    unfold r1. destruct (Z.leb_spec (k - n0) 0); rewrite ?num_cons, ?num_nil; case_decide; subst; try lia.
    all: repeat (match goal with |- context [?a <? ?b] => destruct (Z.ltb_spec a b) end); lia.
  - intros t. rewrite num_app, num_replicate, Hu, Hlm. case_decide; [subst; lia|lia].
Qed.

(** ** The invariant, and what events explain *)

Record sm_ok s : Prop := {
  ok_clients c m : subscribers s !! c = Some m → positive m;
  ok_topics : positive (topics s);
  ok_total t : count_in (topics s) t = total (subscribers s) t;
}.

Definition connected s (c : C) : Z := from_option (λ _, 1) 0 (subscribers s !! c).

(** The events account for every change of the state. *)
Record explained s (evs : list (Event C T)) s' : Prop := {
  ex_topics t : num (TopicAdded t) evs - num (TopicRemoved t) evs = present (topics s') t - present (topics s) t;
  ex_subscriptions c t : num (TopicSubscribed c t) evs - num (TopicUnsubscribed c t) evs =
    subscriptions (subscribers s') c t - subscriptions (subscribers s) c t;
  ex_clients c : num (ClientConnected c) evs - num (ClientDisconnected c) evs = connected s' c - connected s c;
}.

Lemma explained_nil s : explained s [] s.
Proof. split; intros; rewrite !num_nil; lia. Qed.

Lemma explained_app s evs s1 evs' s2 :
  explained s evs s1 → explained s1 evs' s2 → explained s (evs ++ evs') s2.
Proof.
  intros [H1 H2 H3] [H1' H2' H3'].
  split; intros; rewrite !num_app; [specialize (H1 t); specialize (H1' t)|specialize (H2 c t); specialize (H2' c t)|
    specialize (H3 c); specialize (H3' c)]; lia.
Qed.

Lemma subscriptions_insert subs c m c' t :
  subscriptions (<[c := m]> subs) c' t = if decide (c = c') then count_in m t else subscriptions subs c' t.
Proof. unfold subscriptions. rewrite lookup_insert. by case_decide. Qed.

Lemma subscriptions_delete subs c c' t :
  subscriptions (delete c subs) c' t = if decide (c = c') then 0 else subscriptions subs c' t.
Proof. unfold subscriptions. rewrite lookup_delete. by case_decide. Qed.

(** The events of a client that is gone, kind by kind. *)
Lemma cleanup_events_num (c : C) r u :
  (∀ t, num (TopicAdded t) (cleanup_events c r u) = 0) ∧
  (∀ t, num (TopicRemoved t) (cleanup_events c r u) = num t r) ∧
  (∀ c' t, num (TopicSubscribed c' t) (cleanup_events c r u) = 0) ∧
  (∀ c' t, num (TopicUnsubscribed c' t) (cleanup_events c r u) = if decide (c = c') then num t u else 0) ∧
  (∀ c', num (ClientConnected c') (cleanup_events c r u) = 0) ∧
  (∀ c', num (ClientDisconnected c') (cleanup_events c r u) = 0).
Proof.
  unfold cleanup_events.
  assert (Inj (=) (=) (@TopicRemoved C T)) by (by intros ?? [=]).
  assert (∀ c, Inj (=) (=) (@TopicUnsubscribed C T c)) by (by intros ??? [=]).
  split_and!; intros; rewrite num_app; try by rewrite !num_fmap_ne.
  - rewrite num_fmap, num_fmap_ne by done. lia.
  - rewrite (num_fmap_ne TopicRemoved) by done. case_decide as Heq.
    + subst. rewrite num_fmap by apply _. lia.
    + rewrite num_fmap_ne; [done|]. intros ? [=]. done.
Qed.

(** Comparing two events. *)
Ltac events_differ :=
  rewrite ?num_app, ?num_cons, ?num_nil;
  repeat match goal with |- context [decide (?a = ?b)] => rewrite (decide_False (P := a = b)) by done end.

Context (visit : gmap T Z → list (T * Z)) (visit_all : ∀ m, visit m ≡ₚ map_to_list m).

Lemma cleanupClient_ok s c s' was rem uns :
  sm_ok s → cleanupClientWithoutLocking visit s c = (s', was, rem, uns) →
  sm_ok s' ∧ subscribers s' = delete c (subscribers s) ∧ was = bool_decide (is_Some (subscribers s !! c)) ∧
  maxTopicSubscriptionsPerClient s' = maxTopicSubscriptionsPerClient s ∧
  (was = true → explained s (cleanup_events c rem uns ++ [ClientDisconnected c]) s') ∧
  (was = false → s' = s).
Proof.
  intros [Hc Ht Htot]. unfold cleanupClientWithoutLocking.
  destruct (subscribers s !! c) as [m|] eqn:Em.
  2:{ intros [= <- <- <- <-]. rewrite delete_id by done. by split_and!. }
  pose proof (Hc c m Em) as Hm. assert (list_to_map (visit m) = m) as Hlm.
  { rewrite (list_to_map_proper _ (map_to_list m)); [apply list_to_map_to_list| |done].
    rewrite visit_all. apply NoDup_fst_map_to_list. }
  destruct (cleanup_spec (visit m) (topics s) [] []) as (tp' & r' & u' & -> & Hp' & Hcnt & Hr & Hu);
    [rewrite visit_all; apply NoDup_fst_map_to_list| |done|].
  { intros t n. rewrite visit_all, elem_of_map_to_list. intros Hn. split; [by eapply Hm|].
    rewrite Htot. destruct (subscriptions_le_total (subscribers s) c t Hc) as [_ Hle].
    unfold subscriptions in Hle. rewrite Em in Hle. simpl in Hle. unfold count_in in Hle at 1. by rewrite Hn in Hle. }
  rewrite Hlm in *. intros [= <- <- <- <-]. cbn [app].
  assert (∀ t, subscriptions (subscribers s) c t = count_in m t) as Hs.
  { intros t. unfold subscriptions. by rewrite Em. }
  split_and!; [|done..| |done].
  - split; cbn [subscribers topics].
    + intros c' m'. rewrite lookup_delete_Some. intros [_ ?]. by eapply Hc.
    + done.
    + intros t. by rewrite Hcnt, total_delete, Hs, Htot.
  - intros _. destruct (cleanup_events_num c r' u') as (E1 & E2 & E3 & E4 & E5 & E6).
    split; cbn [subscribers topics]; [intros t|intros c' t|intros c'].
    + events_differ. rewrite E1, E2, Hr. lia.
    + events_differ. rewrite E3, E4, Hu, subscriptions_delete. case_decide; [subst; rewrite Hs|]; lia.
    + unfold connected. cbn [subscribers]. rewrite lookup_delete, num_app, E5, num_app, E6, !num_cons, !num_nil.
      rewrite (decide_False (P := ClientDisconnected c = ClientConnected c')) by done.
      destruct (decide (c = c')) as [<-|]; [rewrite decide_True, Em by done; simpl; lia|].
      rewrite decide_False by congruence. lia.
Qed.

Lemma Connect_ok s c : sm_ok s →
  let '(s', evs) := Connect visit s c in
  sm_ok s' ∧ explained s evs s' ∧ maxTopicSubscriptionsPerClient s' = maxTopicSubscriptionsPerClient s ∧
  subscribers s' = <[c := ∅]> (subscribers s).
Proof.
  intros Hok. unfold Connect. destruct (cleanupClientWithoutLocking visit s c) as [[[s1 was] rem] uns] eqn:E.
  destruct (cleanupClient_ok s c s1 was rem uns Hok E) as (Hok1 & Hs1 & Hwas & Hmax & Hex & Hsame).
  set (s' := set_subscribers s1 (<[c := ∅]> (subscribers s1))).
  assert (subscriptions (subscribers s1) c = λ _, 0) as Hz.
  { unfold subscriptions. by rewrite Hs1, lookup_delete_eq. }
  assert (sm_ok s') as Hok'.
  { destruct Hok1 as [Hc Ht Htot]. split; cbn [s' set_subscribers subscribers topics].
    - intros c' m. rewrite lookup_insert_Some. intros [[_ <-]|[_ ?]]; [|by eapply Hc]. intros t n. by rewrite lookup_empty.
    - done.
    - intros t. rewrite total_insert, Hz, Htot. unfold count_in. rewrite lookup_empty. simpl. lia. }
  assert (explained s1 [ClientConnected c] s') as Hex'.
  { split; cbn [s' set_subscribers subscribers topics]; [intros t|intros c' t|intros c'].
    - events_differ. lia.
    - events_differ. rewrite subscriptions_insert. case_decide; [subst; rewrite Hz; unfold count_in; by rewrite lookup_empty|lia].
    - unfold connected, s'. cbn [set_subscribers subscribers]. rewrite lookup_insert, !num_cons, !num_nil.
      rewrite (decide_False (P := ClientConnected c = ClientDisconnected c')) by done.
      destruct (decide (c = c')) as [<-|]; [rewrite decide_True by done; rewrite Hs1, lookup_delete_eq; done|].
      rewrite decide_False by congruence. lia. }
  split_and!; [done| |done|cbn; by rewrite Hs1, insert_delete_eq].
  destruct was; [by eapply explained_app; [apply Hex|]|]. by rewrite <-(Hsame eq_refl).
Qed.

Lemma Disconnect_ok s c : sm_ok s →
  let '(s', evs, r) := Disconnect visit s c in
  sm_ok s' ∧ explained s evs s' ∧ maxTopicSubscriptionsPerClient s' = maxTopicSubscriptionsPerClient s ∧
  subscribers s' = delete c (subscribers s) ∧ r = bool_decide (is_Some (subscribers s !! c)).
Proof.
  intros Hok. unfold Disconnect. destruct (cleanupClientWithoutLocking visit s c) as [[[s1 was] rem] uns] eqn:E.
  destruct (cleanupClient_ok s c s1 was rem uns Hok E) as (Hok1 & Hs1 & Hwas & Hmax & Hex & Hsame).
  destruct was; split_and!; try done; [by apply Hex|]. rewrite (Hsame eq_refl). apply explained_nil.
Qed.

Lemma subscribed_events_num (c : C) (t : T) added :
  (∀ t', num (TopicAdded t') (subscribed_events c t added) = if decide (added = true ∧ t = t') then 1 else 0) ∧
  (∀ t', num (TopicRemoved t') (subscribed_events c t added) = 0) ∧
  (∀ c' t', num (TopicSubscribed c' t') (subscribed_events c t added) = if decide (c = c' ∧ t = t') then 1 else 0) ∧
  (∀ c' t', num (TopicUnsubscribed c' t') (subscribed_events c t added) = 0) ∧
  (∀ c', num (ClientConnected c') (subscribed_events c t added) = 0) ∧
  (∀ c', num (ClientDisconnected c') (subscribed_events c t added) = 0).
Proof.
  unfold subscribed_events.
  split_and!; intros; destruct added; rewrite num_app, ?num_cons, ?num_nil;
    repeat (destruct (decide _)); naive_solver.
Qed.

(** One subscription more of a client that stays. *)
Lemma subscribe_ok s c m t :
  sm_ok s → subscribers s !! c = Some m →
  let '(s', added) := add_topic (set_subscribers s (<[c := <[t := count_in m t + 1]> m]> (subscribers s))) t in
  sm_ok s' ∧ explained s (subscribed_events c t added) s' ∧
  maxTopicSubscriptionsPerClient s' = maxTopicSubscriptionsPerClient s ∧
  subscribers s' = <[c := <[t := count_in m t + 1]> m]> (subscribers s).
Proof.
  intros [Hc Ht Htot] Hm. pose proof (Hc c m Hm) as Hpm. pose proof (topic_count_nonneg m t Hpm) as Hn.
  assert (∀ t, subscriptions (subscribers s) c t = count_in m t) as Hs by (intros ?; unfold subscriptions; by rewrite Hm).
  pose proof (topic_count_nonneg _ t Ht) as Hnt.
  assert (add_topic (set_subscribers s (<[c := <[t := count_in m t + 1]> m]> (subscribers s))) t =
    (mkManager (<[c := <[t := count_in m t + 1]> m]> (subscribers s)) (<[t := count_in (topics s) t + 1]> (topics s))
       (maxTopicSubscriptionsPerClient s), bool_decide (topics s !! t = None))) as ->.
  { unfold add_topic, count_in. cbn [set_subscribers topics]. by destruct (topics s !! t). }
  split_and!; [| |done..].
  - split; cbn [subscribers topics].
    + intros c' m'. rewrite lookup_insert_Some. intros [[_ <-]|[_ ?]]; [|by eapply Hc].
      intros t' n. rewrite lookup_insert_Some. intros [[_ <-]|[_ ?]]; [lia|by eapply Hpm].
    + intros t' n. rewrite lookup_insert_Some. intros [[_ <-]|[_ ?]]; [lia|by eapply Ht].
    + intros t'. rewrite total_insert, !topic_count_insert, Hs, <-Htot. case_decide; subst; lia.
  - destruct (subscribed_events_num c t (bool_decide (topics s !! t = None))) as (E1 & E2 & E3 & E4 & E5 & E6).
    split; cbn [subscribers topics]; [intros t'|intros c' t'|intros c'].
    + rewrite E1, E2. unfold present. rewrite topic_count_insert. unfold count_in in *.
      destruct (decide (t = t')) as [<-|]; [|rewrite decide_False by naive_solver; lia].
      destruct (topics s !! t) as [k|] eqn:Ek.
      * rewrite decide_False by (by intros [? _]). simpl. apply Ht in Ek.
        rewrite !(proj2 (Z.ltb_lt _ _)) by lia. lia.
      * rewrite decide_True by done. done.
    + rewrite E3, E4, subscriptions_insert, topic_count_insert.
      destruct (decide (c = c')) as [<-|], (decide (t = t')) as [<-|]; rewrite ?Hs.
      * rewrite decide_True by done. lia.
      * rewrite decide_False by naive_solver. lia.
      * rewrite decide_False by naive_solver. lia.
      * rewrite decide_False by naive_solver. lia.
    + rewrite E5, E6. unfold connected. cbn [subscribers]. rewrite lookup_insert.
      destruct (decide (c = c')) as [<-|]; [|lia].
      rewrite Hm. simpl. lia.
Qed.

(** The limit, reached with a topic that is new to the client. *)
Definition drops s (c : C) (t : T) : Prop :=
  ∃ m, subscribers s !! c = Some m ∧ m !! t = None ∧
    maxTopicSubscriptionsPerClient s ≠ 0 ∧ maxTopicSubscriptionsPerClient s ≤ Z.of_nat (size m) + 1.

Lemma Subscribe_ok s c t : sm_ok s → is_Some (subscribers s !! c) → ¬ drops s c t →
  let '(s', evs, r) := Subscribe visit s c t in
  sm_ok s' ∧ explained s evs s' ∧ maxTopicSubscriptionsPerClient s' = maxTopicSubscriptionsPerClient s ∧
  (∃ m, subscribers s !! c = Some m ∧ subscribers s' = <[c := <[t := count_in m t + 1]> m]> (subscribers s)) ∧ r = true.
Proof.
  intros Hok [m Hm] Hnd. unfold Subscribe. rewrite Hm.
  pose proof (subscribe_ok s c m t Hok Hm) as Hsub. unfold count_in in Hsub.
  destruct (m !! t) as [n|] eqn:Ht; cbn [default] in Hsub.
  - destruct (add_topic _ t) as [s' added]. destruct Hsub as (H1 & H2 & H3 & H4). split_and!; [done..| |done].
    exists m. split; [done|]. unfold count_in. by rewrite Ht.
  - cbn [maxTopicSubscriptionsPerClient set_subscribers].
    assert (negb (maxTopicSubscriptionsPerClient s =? 0) &&
      (Z.of_nat (size (<[t := 1]> m)) >=? maxTopicSubscriptionsPerClient s) = false) as ->.
    { rewrite map_size_insert_None by done. apply andb_false_iff.
      destruct (Z.eqb_spec (maxTopicSubscriptionsPerClient s) 0); [by left|right].
      rewrite Z.geb_leb. apply Z.leb_gt. apply Z.nle_gt. intros Hle. apply Hnd. exists m. split_and!; [done..|]. lia. }
    change (0 + 1) with 1 in Hsub.
    destruct (add_topic _ t) as [s' added]. destruct Hsub as (H1 & H2 & H3 & H4). split_and!; [done..| |done].
    exists m. split; [done|]. unfold count_in. by rewrite Ht.
Qed.

(** One less of a count, which is deleted at zero. *)
Lemma decrement_ok m t n :
  positive m → m !! t = Some n →
  let m' := if n <=? 1 then delete t m else <[t := n - 1]> m in
  positive m' ∧ ∀ t', count_in m' t' = count_in m t' - if decide (t = t') then 1 else 0.
Proof.
  intros Hp Hn m'. pose proof (Hp t n Hn) as Hpos. unfold m'. clear m'.
  assert (count_in m t = n) as Hc by (unfold count_in; by rewrite Hn).
  destruct (Z.leb_spec n 1); split.
  - intros t' n'. rewrite lookup_delete_Some. intros [_ ?]. by eapply Hp.
  - intros t'. rewrite count_delete. case_decide; subst; lia.
  - intros t' n'. rewrite lookup_insert_Some. intros [[_ <-]|[_ ?]]; [lia|by eapply Hp].
  - intros t'. rewrite topic_count_insert. case_decide; subst; lia.
Qed.

Lemma unsubscribed_ok s c m t n k :
  sm_ok s → subscribers s !! c = Some m → m !! t = Some n → topics s !! t = Some k →
  let m' := if n <=? 1 then delete t m else <[t := n - 1]> m in
  let tp' := if k <=? 1 then delete t (topics s) else <[t := k - 1]> (topics s) in
  let s' := mkManager (<[c := m']> (subscribers s)) tp' (maxTopicSubscriptionsPerClient s) in
  sm_ok s' ∧
  explained s ((if k <=? 1 then [TopicRemoved t] else []) ++ [TopicUnsubscribed c t]) s' ∧
  ∀ c' t', subscriptions (subscribers s') c' t' =
    subscriptions (subscribers s) c' t' - if decide (c = c' ∧ t = t') then 1 else 0.
Proof.
  intros [Hc Ht Htot] Hm Hn Hk m' tp' s'. pose proof (Hc c m Hm) as Hpm.
  destruct (decrement_ok m t n Hpm Hn) as [Hpm' Hcm']. fold m' in Hpm', Hcm'.
  destruct (decrement_ok (topics s) t k Ht Hk) as [Hpt' Hct']. fold tp' in Hpt', Hct'.
  assert (∀ t, subscriptions (subscribers s) c t = count_in m t) as Hs by (intros ?; unfold subscriptions; by rewrite Hm).
  assert (∀ c' t', subscriptions (subscribers s') c' t' =
    subscriptions (subscribers s) c' t' - if decide (c = c' ∧ t = t') then 1 else 0) as Hsub.
  { intros c' t'. unfold s'. cbn [subscribers]. rewrite subscriptions_insert, Hcm'.
    destruct (decide (c = c')) as [<-|], (decide (t = t')) as [<-|]; rewrite ?Hs.
    - by rewrite decide_True.
    - rewrite decide_False by naive_solver. lia.
    - rewrite decide_False by naive_solver. lia.
    - rewrite decide_False by naive_solver. lia. }
  split_and!; [| |done].
  - split; cbn [subscribers topics].
    + intros c' m1. unfold s'. cbn [subscribers]. rewrite lookup_insert_Some.
      intros [[_ <-]|[_ ?]]; [done|by eapply Hc].
    + done.
    + intros t'. unfold s'. cbn [subscribers topics]. rewrite total_insert, Hct', Hcm', Hs, <-Htot. lia.
  - assert (∀ (e : Event C T), num e ((if k <=? 1 then [TopicRemoved t] else []) ++ [TopicUnsubscribed c t]) =
      (if decide (k ≤ 1 ∧ TopicRemoved t = e) then 1 else 0) + (if decide (TopicUnsubscribed c t = e) then 1 else 0)) as He.
    { intros e. rewrite num_app. destruct (Z.leb_spec k 1); rewrite ?num_cons, ?num_nil; repeat (destruct (decide _)); naive_solver lia. }
    pose proof (Ht t k Hk) as Hkp. assert (count_in (topics s) t = k) as Hck by (unfold count_in; by rewrite Hk).
    split; [intros t'|intros c' t'|intros c']; rewrite !He.
    + rewrite !(decide_False (P := _ ∧ TopicRemoved _ = TopicAdded _)) by naive_solver.
      rewrite !(decide_False (P := TopicUnsubscribed _ _ = _)) by done.
      unfold s', present. cbn [topics]. rewrite Hct'.
      destruct (decide (t = t')) as [<-|Hne]; [|rewrite Z.sub_0_r, decide_False by naive_solver; lia].
      rewrite Hck, (proj2 (Z.ltb_lt 0 k)) by done.
      destruct (Z.ltb_spec 0 (k - 1)); [rewrite decide_False by lia|rewrite decide_True by (split; [lia|done])]; lia.
    + rewrite Hsub. repeat (destruct (decide _)); naive_solver lia.
    + unfold connected, s'. cbn [subscribers]. rewrite lookup_insert.
      rewrite !(decide_False (P := _ ∧ _)) by (by intros [_ ?]).
      rewrite !(decide_False (P := TopicUnsubscribed _ _ = _)) by done.
      destruct (decide (c = c')) as [<-|]; [rewrite Hm; simpl|]; lia.
Qed.

Lemma Unsubscribe_ok s c t : sm_ok s →
  let '(s', evs, r) := Unsubscribe s c t in
  sm_ok s' ∧ explained s evs s' ∧ maxTopicSubscriptionsPerClient s' = maxTopicSubscriptionsPerClient s ∧
  (∀ c' t', subscriptions (subscribers s') c' t' =
     subscriptions (subscribers s) c' t' - (if decide (c = c' ∧ t = t') then if r then 1 else 0 else 0)) ∧
  r = ClientSubscribedToTopic s c t ∧
  (∀ c', is_Some (subscribers s' !! c') ↔ is_Some (subscribers s !! c')).
Proof.
  intros Hok. unfold Unsubscribe, ClientSubscribedToTopic.
  destruct (subscribers s !! c) as [m|] eqn:Hm.
  2:{ split_and!; try done; [apply explained_nil|]. intros. case_decide; lia. }
  destruct (m !! t) as [n|] eqn:Hn.
  2:{ split_and!; try done; [apply explained_nil|]. intros. case_decide; lia. }
  assert (∃ k, topics s !! t = Some k) as [k Hk].
  { pose proof (subscriptions_le_total (subscribers s) c t (ok_clients s Hok)) as [_ Hle].
    unfold subscriptions in Hle. rewrite Hm in Hle. simpl in Hle. unfold count_in in Hle at 1. rewrite Hn in Hle.
    rewrite <-(ok_total s Hok) in Hle. pose proof (ok_clients s Hok c m Hm t n Hn). simpl in Hle.
    unfold count_in in Hle. destruct (topics s !! t) as [k|]; [by exists k|]. simpl in Hle. lia. }
  destruct (unsubscribed_ok s c m t n k Hok Hm Hn Hk) as (H1 & H2 & H3).
  cbn [set_subscribers topics]. rewrite Hk.
  assert (∀ c' m', is_Some (<[c := m']> (subscribers s) !! c') ↔ is_Some (subscribers s !! c')) as Hdom.
  { intros c' m'. rewrite lookup_insert. case_decide; [subst; rewrite Hm|done]. split; eauto. }
  destruct (k <=? 1); split_and!; try done; intros; apply Hdom.
Qed.

(** ** Runs *)

Inductive sm_op : Type :=
  | OpConnect (c : C)
  | OpDisconnect (c : C)
  | OpSubscribe (c : C) (t : T)
  | OpUnsubscribe (c : C) (t : T).

Definition sm_step s (op : sm_op) : SubscriptionManager C T * list (Event C T) :=
  match op with
  | OpConnect c => Connect visit s c
  | OpDisconnect c => (Disconnect visit s c).1
  | OpSubscribe c t => (Subscribe visit s c t).1
  | OpUnsubscribe c t => (Unsubscribe s c t).1
  end.

Fixpoint sm_run s (ops : list sm_op) : SubscriptionManager C T * list (Event C T) :=
  match ops with
  | [] => (s, [])
  | op :: ops =>
      let '(s1, evs) := sm_step s op in
      let '(s', evs') := sm_run s1 ops in
      (s', evs ++ evs')
  end.

(** Only connected clients subscribe, and none reaches the limit with a topic that is new
    to it, which drops the client. *)
Fixpoint sm_allowed s (ops : list sm_op) : Prop :=
  match ops with
  | [] => True
  | op :: ops =>
      match op with OpSubscribe c t => is_Some (subscribers s !! c) ∧ ¬ drops s c t | _ => True end ∧
      sm_allowed (sm_step s op).1 ops
  end.

Lemma sm_step_ok s op :
  sm_ok s → match op with OpSubscribe c t => is_Some (subscribers s !! c) ∧ ¬ drops s c t | _ => True end →
  sm_ok (sm_step s op).1 ∧ explained s (sm_step s op).2 (sm_step s op).1.
Proof.
  intros Hok Ha. destruct op as [c|c|c t|c t]; cbn [sm_step].
  - pose proof (Connect_ok s c Hok) as H1. destruct (Connect visit s c). naive_solver.
  - pose proof (Disconnect_ok s c Hok) as H1. destruct (Disconnect visit s c) as [[??]?]. naive_solver.
  - destruct Ha as [Hc Hd]. pose proof (Subscribe_ok s c t Hok Hc Hd) as H1.
    destruct (Subscribe visit s c t) as [[??]?]. naive_solver.
  - pose proof (Unsubscribe_ok s c t Hok) as H1. destruct (Unsubscribe s c t) as [[??]?]. naive_solver.
Qed.

Lemma sm_run_ok s ops s' evs :
  sm_ok s → sm_allowed s ops → sm_run s ops = (s', evs) → sm_ok s' ∧ explained s evs s'.
Proof.
  revert s evs. induction ops as [|op ops IH]; intros s evs Hok; cbn [sm_allowed sm_run].
  { intros _ [= <- <-]. split; [done|apply explained_nil]. }
  intros [Ha Hall]. destruct (sm_step_ok s op Hok Ha) as [Hok1 Hex1].
  destruct (sm_step s op) as [s1 evs1]. cbn [fst snd] in *.
  destruct (sm_run s1 ops) as [s2 evs2] eqn:E. intros [= <- <-].
  destruct (IH s1 evs2 Hok1 Hall E) as [Hok2 Hex2]. split; [done|]. by eapply explained_app.
Qed.

Lemma New_ok max : sm_ok (New max).
Proof. split; cbn [New subscribers topics]; intros *; by rewrite ?lookup_empty. Qed.

Lemma subscribed_pos s c t : sm_ok s → ClientSubscribedToTopic s c t = true ↔ 0 < subscriptions (subscribers s) c t.
Proof.
  intros Hok. unfold ClientSubscribedToTopic, subscriptions, count_in.
  destruct (subscribers s !! c) as [m|] eqn:Em; simpl; [|split; [done|lia]].
  rewrite bool_decide_eq_true. destruct (m !! t) as [n|] eqn:En; simpl.
  - split; [intros _; by eapply (ok_clients s Hok)|by eexists].
  - split; [by intros [? ?]|lia].
Qed.

Lemma topics_pos s t : sm_ok s → TopicHasSubscribers s t = true ↔ 0 < count_in (topics s) t.
Proof.
  intros Hok. unfold TopicHasSubscribers, count_in. rewrite bool_decide_eq_true.
  destruct (topics s !! t) as [n|] eqn:En; simpl.
  - split; [intros _; by eapply (ok_topics s Hok)|by eexists].
  - split; [by intros [? ?]|lia].
Qed.

(** C28: the subscription manager and its events agree as long as nobody is dropped. After
    any calls in which only connected clients subscribe and no client, with a topic that is
    new to it, reaches the maximal number of topics (already then, not beyond it,
    [Subscribe] drops the client, and [drop_miscounts] shows the counts going wrong), a
    topic has subscribers exactly when some client is subscribed to it, and the events tell
    the same, in whatever order topics are visited: a topic was added once more than it was
    removed exactly when it has subscribers, a client was subscribed to a topic more often
    than unsubscribed exactly when it is subscribed, and it was connected once more than
    disconnected exactly when it is connected. *)
Theorem SubscriptionManager_events max ops s evs :
  sm_allowed (New max) ops → sm_run (New max) ops = (s, evs) →
  (∀ t, TopicHasSubscribers s t = true ↔ ∃ c, ClientSubscribedToTopic s c t = true) ∧
  (∀ t, num (TopicAdded t) evs - num (TopicRemoved t) evs = if TopicHasSubscribers s t then 1 else 0) ∧
  (∀ c t, 0 ≤ num (TopicSubscribed c t) evs - num (TopicUnsubscribed c t) evs ∧
     (ClientSubscribedToTopic s c t = true ↔ num (TopicUnsubscribed c t) evs < num (TopicSubscribed c t) evs)) ∧
  (∀ c, num (ClientConnected c) evs - num (ClientDisconnected c) evs =
     if bool_decide (is_Some (subscribers s !! c)) then 1 else 0).
Proof.
  intros Ha Hr. destruct (sm_run_ok _ _ _ _ (New_ok max) Ha Hr) as [Hok [E1 E2 E3]].
  assert (∀ c t, subscriptions (subscribers (@New C T _ _ _ _ max)) c t = 0) as Hz.
  { intros c t. unfold subscriptions. cbn [New subscribers]. by rewrite lookup_empty. }
  split_and!.
  - intros t. rewrite topics_pos, (ok_total s Hok) by done.
    destruct (total_spec (subscribers s) t (ok_clients s Hok)) as [_ ->].
    split; intros (c & Hc); exists c; by apply subscribed_pos.
  - intros t. rewrite E1. unfold present at 2. cbn [New topics]. unfold count_in at 1. rewrite lookup_empty. simpl.
    pose proof (topics_pos s t Hok) as Ht. unfold present. destruct (TopicHasSubscribers s t), (Z.ltb_spec 0 (count_in (topics s) t)); try lia; naive_solver lia.
  - intros c t. specialize (E2 c t). rewrite Hz in E2. rewrite subscribed_pos by done.
    destruct (subscriptions_le_total (subscribers s) c t (ok_clients s Hok)). split; lia.
  - intros c. rewrite E3. unfold connected. cbn [New subscribers]. rewrite lookup_empty.
    by destruct (subscribers s !! c).
Qed.

(** A client that is not connected is told that it subscribed, and so is everybody
    who listens. *)
Lemma subscribe_unconnected s c t :
  subscribers s !! c = None → Subscribe visit s c t = (s, [TopicSubscribed c t], true).
Proof. intros Hc. unfold Subscribe. by rewrite Hc. Qed.

End Counting.

(** The subscription of a dropped client is taken back although it was never
    counted: client 1 is dropped at its second topic, which client 2 subscribed,
    and the topic is gone although client 2 stays subscribed to it. *)
Lemma drop_miscounts :
  let r := sm_run (C := Z) (T := Z) map_to_list (New 2)
    [OpConnect 1; OpConnect 2; OpSubscribe 2 7; OpSubscribe 1 5; OpSubscribe 1 7] in
  ClientSubscribedToTopic r.1 2 7 = true ∧ TopicHasSubscribers r.1 7 = false ∧ num (TopicRemoved 7) r.2 = 1.
Proof. by vm_compute. Qed.

Lemma SubscriptionManager_events_witness :
  let '(s, evs) := sm_run (C := Z) (T := Z) map_to_list (New 2)
    [OpConnect 1; OpConnect 2; OpSubscribe 2 7; OpSubscribe 1 7; OpDisconnect 2; OpUnsubscribe 1 7] in
  num (TopicAdded 7) evs - num (TopicRemoved 7) evs = 0.
Proof.
  destruct (sm_run map_to_list (New 2)
    [OpConnect 1; OpConnect 2; OpSubscribe 2 7; OpSubscribe 1 7; OpDisconnect 2; OpUnsubscribe 1 7]) as [s evs] eqn:E.
  assert (sm_allowed (C := Z) (T := Z) map_to_list (New 2)
    [OpConnect 1; OpConnect 2; OpSubscribe 2 7; OpSubscribe 1 7; OpDisconnect 2; OpUnsubscribe 1 7]) as Ha.
  { repeat split; try (by eexists); (intros (m & Hm & _ & _ & Hle); vm_compute in Hm; injection Hm as <-;
      vm_compute in Hle; by apply Hle). }
  destruct (SubscriptionManager_events map_to_list (λ m, reflexivity _) 2 _ s evs Ha E) as (_ & Ht & _).
  rewrite Ht. injection E as <- _. reflexivity.
Defined.
