(* ===== verification/WebsocketHub.v ===== *)
(** * web/websockethub

    [src/web/websockethub/hub.go] and [client.go] as a transition system: the loop
    of the hub ([Run]), for each client its [writePump], [readPump] and [keepAlive],
    and goroutines that call [BroadcastMsg], [Send] and [Register].

    - An access to a channel, a flag or a wait group, and each [select], are one
      step.  An outer [select] with a [default] takes [default] only when no other
      case is ready; an inner one may take any case that is ready.
      [Send] reads its two flags in one step: neither is ever reset.
    - [Run] is called once.  [done] is its context, and the context of a client is done
      when that is or when [keepAlive] has canceled it.  What the connection does is
      open: a read, a write or a ping may succeed or fail, and a read fails once its
      context is done.  Whether the user made a [ReceiveChan], and when it has room, is
      open as well.
    - A client is a place in [all_clients], registered once, by [ServeWebsocket].
      [FilterCallback] is the argument [filter]; the callbacks [onConnect] and
      [onDisconnect] do not use the hub.
    - [phase], [accepted], [taken], [connected] and [disconnected] are not read by the
      code: where a client stands, the messages that were put into its channel and that
      were taken out of it, and how often the two events were triggered for it. *)

From stdpp Require Import relations.
From S2P Require Import Prelude.

Section hub.
Context {M : Type}.
Variables (clientSendChannelSize broadcastQueueSize : nat) (filter : nat → M → bool).

Inductive client_phase : Type := PQueued | PActive | PRemoving | PRemoved.

Inductive writer_pc : Type :=
  | WNone | WLoop | WInner
  | WSend (m : M)     (* in [sendMsg] *)
  | WClosing | WFlag | WSelect          (* the deferred function *)
  | WUnreg | WUnreg2                    (* in [Unregister] *)
  | WConn | WDone.

Inductive reader_pc : Type :=
  | RNone | RStarting | RRead
  | ROffer | ROffer2                    (* the message for [ReceiveChan] *)
  | RSelect | RUnreg | RUnreg2 | RFinish | RDone.

Inductive keeper_pc : Type :=
  | KNone | KStarting | KLoop | KInner | KPing | KUnreg | KUnreg2
  | KCancel | KFinish                   (* the deferred function *)
  | KDone.

#[global] Instance reader_pc_eq_dec : EqDecision reader_pc.
Proof. solve_decision. Defined.
#[global] Instance keeper_pc_eq_dec : EqDecision keeper_pc.
Proof. solve_decision. Defined.

Record Client : Type := mkClient {
  phase : client_phase;
  ExitSignal : bool;
  sendChan : list M;
  sendChanClosed : bool;
  shutdownFlag : bool;
  canceled : bool;
  shutdownWaitGroup : Z;
  writer : writer_pc;
  reader : reader_pc;
  keeper : keeper_pc;
  accepted : list M;
  taken : list M;
  connected : Z;
  disconnected : Z;
}.

Definition NewClient : Client := mkClient PQueued false [] false false false 0 WNone RNone KNone [] [] 0 0.

(** ** The goroutines of a client *)

Definition set_writer (x : Client) (w : writer_pc) : Client :=
  mkClient (phase x) (ExitSignal x) (sendChan x) (sendChanClosed x) (shutdownFlag x) (canceled x) (shutdownWaitGroup x)
    w (reader x) (keeper x) (accepted x) (taken x) (connected x) (disconnected x).
Definition set_reader (x : Client) (r : reader_pc) : Client :=
  mkClient (phase x) (ExitSignal x) (sendChan x) (sendChanClosed x) (shutdownFlag x) (canceled x) (shutdownWaitGroup x)
    (writer x) r (keeper x) (accepted x) (taken x) (connected x) (disconnected x).
Definition set_keeper (x : Client) (k : keeper_pc) : Client :=
  mkClient (phase x) (ExitSignal x) (sendChan x) (sendChanClosed x) (shutdownFlag x) (canceled x) (shutdownWaitGroup x)
    (writer x) (reader x) k (accepted x) (taken x) (connected x) (disconnected x).
(** [close(c.sendChanClosed)], [c.shutdownFlag.Store(true)] and [c.cancel()]. *)
Definition set_flags (x : Client) (closed flag cancel : bool) : Client :=
  mkClient (phase x) (ExitSignal x) (sendChan x) closed flag cancel (shutdownWaitGroup x)
    (writer x) (reader x) (keeper x) (accepted x) (taken x) (connected x) (disconnected x).
Definition wg_Done (x : Client) : Client :=
  mkClient (phase x) (ExitSignal x) (sendChan x) (sendChanClosed x) (shutdownFlag x) (canceled x) (shutdownWaitGroup x - 1)
    (writer x) (reader x) (keeper x) (accepted x) (taken x) (connected x) (disconnected x).
(** Receiving from [sendChan] and sending to it. *)
Definition set_chan (x : Client) (q acc tk : list M) : Client :=
  mkClient (phase x) (ExitSignal x) q (sendChanClosed x) (shutdownFlag x) (canceled x) (shutdownWaitGroup x)
    (writer x) (reader x) (keeper x) acc tk (connected x) (disconnected x).

(** [c.ctx.Done] or [c.ExitSignal] is ready. *)
Definition leaving (done : bool) (x : Client) : bool := done || canceled x || ExitSignal x.

(** The steps of the three goroutines; [room] says that [unregister] is not full, and the result
    whether the client was sent to it. *)
Inductive writePump (done room : bool) (x : Client) : Client → bool → Prop :=
  | w_leave : writer x = WLoop → leaving done x = true → writePump done room x (set_writer x WClosing) false
  | w_default : writer x = WLoop → leaving done x = false → writePump done room x (set_writer x WInner) false
  | w_leave2 : writer x = WInner → leaving done x = true → writePump done room x (set_writer x WClosing) false
  | w_receive m q : writer x = WInner → sendChan x = m :: q →
      writePump done room x (set_writer (set_chan x q (accepted x) (taken x ++ [m])) (WSend m)) false
  | w_sent m : writer x = WSend m → writePump done room x (set_writer x WLoop) false
  | w_failed m : writer x = WSend m → writePump done room x (set_writer x WClosing) false
  | w_closing : writer x = WClosing →
      writePump done room x (set_writer (set_flags x true (shutdownFlag x) (canceled x)) WFlag) false
  | w_flag : writer x = WFlag →
      writePump done room x (set_writer (set_flags x (sendChanClosed x) true (canceled x)) WSelect) false
  | w_select_leave : writer x = WSelect → leaving done x = true → writePump done room x (set_writer x WConn) false
  | w_select_default : writer x = WSelect → leaving done x = false → writePump done room x (set_writer x WUnreg) false
  | w_unreg_done : writer x = WUnreg → done = true → writePump done room x (set_writer x WConn) false
  | w_unreg_default : writer x = WUnreg → done = false → writePump done room x (set_writer x WUnreg2) false
  | w_unreg2_done : writer x = WUnreg2 → done = true → writePump done room x (set_writer x WConn) false
  | w_unreg2_send : writer x = WUnreg2 → room = true → writePump done room x (set_writer x WConn) true
  | w_conn : writer x = WConn → writePump done room x (set_writer (wg_Done x) WDone) false.

Inductive readPump (done room : bool) (x : Client) : Client → bool → Prop :=
  | r_start : reader x = RStarting → readPump done room x (set_reader x RRead) false
  | r_error : reader x = RRead → readPump done room x (set_reader x RSelect) false
  | r_unread : reader x = RRead → done || canceled x = false → readPump done room x (set_reader x RRead) false
  | r_message : reader x = RRead → done || canceled x = false → readPump done room x (set_reader x ROffer) false
  | r_leave : reader x = ROffer → leaving done x = true → readPump done room x (set_reader x RSelect) false
  | r_default : reader x = ROffer → leaving done x = false → readPump done room x (set_reader x ROffer2) false
  | r_leave2 : reader x = ROffer2 → leaving done x = true → readPump done room x (set_reader x RSelect) false
  | r_offered : reader x = ROffer2 → readPump done room x (set_reader x RRead) false
  | r_select_leave : reader x = RSelect → leaving done x = true → readPump done room x (set_reader x RFinish) false
  | r_select_default : reader x = RSelect → leaving done x = false → readPump done room x (set_reader x RUnreg) false
  | r_unreg_done : reader x = RUnreg → done = true → readPump done room x (set_reader x RFinish) false
  | r_unreg_default : reader x = RUnreg → done = false → readPump done room x (set_reader x RUnreg2) false
  | r_unreg2_done : reader x = RUnreg2 → done = true → readPump done room x (set_reader x RFinish) false
  | r_unreg2_send : reader x = RUnreg2 → room = true → readPump done room x (set_reader x RFinish) true
  | r_finish : reader x = RFinish → readPump done room x (set_reader (wg_Done x) RDone) false.

Inductive keepAlive (done room : bool) (x : Client) : Client → bool → Prop :=
  | k_start : keeper x = KStarting → keepAlive done room x (set_keeper x KLoop) false
  | k_leave : keeper x = KLoop → leaving done x = true → keepAlive done room x (set_keeper x KCancel) false
  | k_default : keeper x = KLoop → leaving done x = false → keepAlive done room x (set_keeper x KInner) false
  | k_leave2 : keeper x = KInner → leaving done x = true → keepAlive done room x (set_keeper x KCancel) false
  | k_timer : keeper x = KInner → keepAlive done room x (set_keeper x KPing) false
  | k_pong : keeper x = KPing → keepAlive done room x (set_keeper x KLoop) false
  | k_failed : keeper x = KPing → keepAlive done room x (set_keeper x KUnreg) false
  | k_unreg_done : keeper x = KUnreg → done = true → keepAlive done room x (set_keeper x KCancel) false
  | k_unreg_default : keeper x = KUnreg → done = false → keepAlive done room x (set_keeper x KUnreg2) false
  | k_unreg2_done : keeper x = KUnreg2 → done = true → keepAlive done room x (set_keeper x KCancel) false
  | k_unreg2_send : keeper x = KUnreg2 → room = true → keepAlive done room x (set_keeper x KCancel) true
  | k_cancel : keeper x = KCancel →
      keepAlive done room x (set_keeper (set_flags x (sendChanClosed x) (shutdownFlag x) true) KFinish) false
  | k_finish : keeper x = KFinish → keepAlive done room x (set_keeper (wg_Done x) KDone) false.

Definition pump_step (done room : bool) (x x' : Client) (b : bool) : Prop :=
  writePump done room x x' b ∨ readPump done room x x' b ∨ keepAlive done room x x' b.

(** ** The hub *)

(** What is done after a client was removed. *)
Inductive after_remove : Type := ToLoop | ToShutdown.

Inductive hub_pc : Type :=
  | HIdle                                              (* [Run] was not called *)
  | HLoop | HInner
  | HWaitReader (c : nat) | HWaitKeeper (c : nat)      (* [startWaitGroup.Wait] *)
  | HConnecting (c : nat)
  | HRemoveWait (c : nat) (k : after_remove)           (* [shutdownWaitGroup.Wait] *)
  | HDrain (c : nat) (k : after_remove)
  | HDisconnecting (c : nat) (k : after_remove)
  | HBroadcast (m : M) (dontDrop : bool) (todo : list nat)
  | HBroadcast2 (m : M) (dontDrop : bool) (c : nat) (todo : list nat)
  | HShutdown
  | HExited.

Inductive user_pc : Type :=
  | UIdle
  | UBroadcast (m : M) (dontDrop : bool) | UBroadcast2 (m : M) (dontDrop : bool)
  | USend (c : nat) (m : M) (dontDrop : bool) | USend2 (c : nat) (m : M) (dontDrop : bool)
  | URegister (c : nat) | URegister2 (c : nat).

Record Hub : Type := mkHub {
  done : bool;
  hubShutdownFlag : bool;
  clients : gset nat;
  broadcast : list (M * bool);
  register : list nat;
  unregister : list nat;
  pc : hub_pc;
  all_clients : list Client;
  users : list user_pc;
}.

Definition NewHub (n : nat) : Hub := mkHub false true ∅ [] [] [] HIdle [] (replicate n UIdle).

Definition set_pc (h : Hub) (p : hub_pc) : Hub :=
  mkHub (done h) (hubShutdownFlag h) (clients h) (broadcast h) (register h) (unregister h) p (all_clients h) (users h).
Definition set_flag (h : Hub) (b : bool) : Hub :=
  mkHub (done h) b (clients h) (broadcast h) (register h) (unregister h) (pc h) (all_clients h) (users h).
Definition set_client (h : Hub) (c : nat) (x : Client) : Hub :=
  mkHub (done h) (hubShutdownFlag h) (clients h) (broadcast h) (register h) (unregister h) (pc h) (<[c:=x]> (all_clients h)) (users h).
Definition set_clients (h : Hub) (cs : gset nat) : Hub :=
  mkHub (done h) (hubShutdownFlag h) cs (broadcast h) (register h) (unregister h) (pc h) (all_clients h) (users h).
Definition set_chans (h : Hub) (b : list (M * bool)) (r u : list nat) : Hub :=
  mkHub (done h) (hubShutdownFlag h) (clients h) b r u (pc h) (all_clients h) (users h).
Definition set_user (h : Hub) (i : nat) (u : user_pc) : Hub :=
  mkHub (done h) (hubShutdownFlag h) (clients h) (broadcast h) (register h) (unregister h) (pc h) (all_clients h) (<[i:=u]> (users h)).

Definition room (l : list nat) : bool := bool_decide (length l < 1)%nat.

(** Registering a client: the wait group, and the first two goroutines. *)
Definition start_client (x : Client) : Client :=
  mkClient PActive (ExitSignal x) (sendChan x) (sendChanClosed x) (shutdownFlag x) (canceled x) (shutdownWaitGroup x + 3)
    WLoop RStarting (keeper x) (accepted x) (taken x) (connected x) (disconnected x).
(** [removeClient] up to the wait. *)
Definition close_exit (x : Client) : outcome Client :=
  if ExitSignal x then Panic "close of closed channel"
  else Ret (mkClient PRemoving true (sendChan x) (sendChanClosed x) (shutdownFlag x) (canceled x) (shutdownWaitGroup x)
              (writer x) (reader x) (keeper x) (accepted x) (taken x) (connected x) (disconnected x)).
Definition trigger_connected (x : Client) : Client :=
  mkClient (phase x) (ExitSignal x) (sendChan x) (sendChanClosed x) (shutdownFlag x) (canceled x) (shutdownWaitGroup x)
    (writer x) (reader x) (keeper x) (accepted x) (taken x) (connected x + 1) (disconnected x).
Definition trigger_disconnected (x : Client) : Client :=
  mkClient PRemoved (ExitSignal x) (sendChan x) (sendChanClosed x) (shutdownFlag x) (canceled x) (shutdownWaitGroup x)
    (writer x) (reader x) (keeper x) (accepted x) (taken x) (connected x) (disconnected x + 1).

Definition resume (k : after_remove) : hub_pc := match k with ToLoop => HLoop | ToShutdown => HShutdown end.

(** [client.sendChan <- m] *)
Definition send (x : Client) (m : M) : Client := set_chan x (sendChan x ++ [m]) (accepted x ++ [m]) (taken x).
Definition chan_room (x : Client) : bool := bool_decide (length (sendChan x) < clientSendChannelSize)%nat.

(** The cases of the hub's [select] that skip a client. *)
Definition skips (h : Hub) (x : Client) : bool := done h || ExitSignal x || sendChanClosed x.

(** [removeClient], up to the wait for the goroutines of the client. *)
Definition removeClient (h : Hub) (c : nat) (k : after_remove) : outcome Hub :=
  match all_clients h !! c with
  | None => Panic "nil pointer dereference"
  | Some x =>
      x ← close_exit x;
      Ret (set_pc (set_client (set_clients h (clients h ∖ {[c]})) c x) (HRemoveWait c k))
  end.

(** The loop of [Run]. *)
Inductive hub_step (h : Hub) : Hub → Prop :=
  | h_done : pc h = HLoop ∨ pc h = HInner → done h = true → hub_step h (set_pc (set_flag h true) HShutdown)
  | h_default : pc h = HLoop → done h = false → hub_step h (set_pc h HInner)
  | h_register c r x : pc h = HInner → register h = c :: r → all_clients h !! c = Some x →
      hub_step h (set_pc (set_client (set_clients (set_chans h (broadcast h) r (unregister h)) ({[c]} ∪ clients h)) c (start_client x)) (HWaitReader c))
  | h_reader_started c x : pc h = HWaitReader c → all_clients h !! c = Some x → reader x ≠ RStarting →
      hub_step h (set_pc (set_client h c (set_keeper x KStarting)) (HWaitKeeper c))
  | h_keeper_started c x : pc h = HWaitKeeper c → all_clients h !! c = Some x → keeper x ≠ KStarting →
      hub_step h (set_pc h (HConnecting c))
  | h_connected c x : pc h = HConnecting c → all_clients h !! c = Some x →
      hub_step h (set_pc (set_client h c (trigger_connected x)) HLoop)
  | h_unregister c u h' : pc h = HInner → unregister h = c :: u → c ∈ clients h →
      removeClient (set_chans h (broadcast h) (register h) u) c ToLoop = Ret h' → hub_step h h'
  | h_unregister_unknown c u : pc h = HInner → unregister h = c :: u → c ∉ clients h →
      hub_step h (set_pc (set_chans h (broadcast h) (register h) u) HLoop)
  | h_waited c k x : pc h = HRemoveWait c k → all_clients h !! c = Some x → shutdownWaitGroup x = 0 →
      hub_step h (set_pc h (HDrain c k))
  | h_drain c k x m q : pc h = HDrain c k → all_clients h !! c = Some x → sendChan x = m :: q →
      hub_step h (set_client h c (set_chan x q (accepted x) (taken x ++ [m])))
  | h_drained c k x : pc h = HDrain c k → all_clients h !! c = Some x → sendChan x = [] →
      hub_step h (set_pc h (HDisconnecting c k))
  | h_disconnected c k x : pc h = HDisconnecting c k → all_clients h !! c = Some x →
      hub_step h (set_pc (set_client h c (trigger_disconnected x)) (resume k))
  | h_broadcast m d b todo : pc h = HInner → broadcast h = (m, d) :: b → todo ≡ₚ elements (clients h) →
      hub_step h (set_pc (set_chans h b (register h) (unregister h)) (HBroadcast m d todo))
  | h_filtered m d c todo : pc h = HBroadcast m d (c :: todo) → filter c m = false → hub_step h (set_pc h (HBroadcast m d todo))
  | h_skip m d c todo x : pc h = HBroadcast m d (c :: todo) → filter c m = true → all_clients h !! c = Some x → skips h x = true →
      hub_step h (set_pc h (HBroadcast m d todo))
  | h_offer m d c todo x : pc h = HBroadcast m d (c :: todo) → filter c m = true → all_clients h !! c = Some x → skips h x = false →
      hub_step h (set_pc h (HBroadcast2 m d c todo))
  | h_skip2 m c todo x : pc h = HBroadcast2 m true c todo → all_clients h !! c = Some x → skips h x = true →
      hub_step h (set_pc h (HBroadcast m true todo))
  | h_send m d c todo x : pc h = HBroadcast2 m d c todo → all_clients h !! c = Some x → chan_room x = true →
      hub_step h (set_pc (set_client h c (send x m)) (HBroadcast m d todo))
  | h_drop m c todo x : pc h = HBroadcast2 m false c todo → all_clients h !! c = Some x → chan_room x = false →
      hub_step h (set_pc h (HBroadcast m false todo))
  | h_broadcasted m d : pc h = HBroadcast m d [] → hub_step h (set_pc h HLoop)
  | h_shutdown c h' : pc h = HShutdown → c ∈ clients h → removeClient h c ToShutdown = Ret h' → hub_step h h'
  | h_exit : pc h = HShutdown → clients h = ∅ → hub_step h (set_pc h HExited).

Definition client_step (h h' : Hub) : Prop :=
  ∃ c x x' b, all_clients h !! c = Some x ∧ pump_step (done h) (room (unregister h)) x x' b ∧
    h' = set_client (set_chans h (broadcast h) (register h) (if b then unregister h ++ [c] else unregister h)) c x'.

(** Callers; the context of the caller may be done at any time. *)
Inductive BroadcastMsg (h : Hub) : Hub → Prop :=
  | u_broadcast i m d : users h !! i = Some UIdle → hubShutdownFlag h = false → BroadcastMsg h (set_user h i (UBroadcast m d))
  | u_broadcast_refused i m d : users h !! i = Some (UBroadcast m d) → BroadcastMsg h (set_user h i UIdle)
  | u_broadcast_default i m d : users h !! i = Some (UBroadcast m d) → done h = false → BroadcastMsg h (set_user h i (UBroadcast2 m d))
  | u_broadcast_send i m d : users h !! i = Some (UBroadcast2 m d) → (length (broadcast h) < broadcastQueueSize)%nat →
      BroadcastMsg h (set_user (set_chans h (broadcast h ++ [(m, d)]) (register h) (unregister h)) i UIdle)
  | u_broadcast_drop i m : users h !! i = Some (UBroadcast2 m false) → (broadcastQueueSize ≤ length (broadcast h))%nat →
      BroadcastMsg h (set_user h i UIdle)
  | u_broadcast_done i m : users h !! i = Some (UBroadcast2 m true) → BroadcastMsg h (set_user h i UIdle).

Inductive Send (h : Hub) : Hub → Prop :=
  | u_send i c x m d : users h !! i = Some UIdle → all_clients h !! c = Some x → hubShutdownFlag h = false → shutdownFlag x = false →
      Send h (set_user h i (USend c m d))
  | u_send_refused i c m d : users h !! i = Some (USend c m d) → Send h (set_user h i UIdle)
  | u_send_default i c x m d : users h !! i = Some (USend c m d) → all_clients h !! c = Some x →
      leaving (done h) x = false → sendChanClosed x = false → Send h (set_user h i (USend2 c m d))
  | u_send_send i c x m d : users h !! i = Some (USend2 c m d) → all_clients h !! c = Some x → chan_room x = true →
      Send h (set_user (set_client h c (send x m)) i UIdle)
  | u_send_drop i c x m : users h !! i = Some (USend2 c m false) → all_clients h !! c = Some x → chan_room x = false →
      Send h (set_user h i UIdle)
  | u_send_done i c m : users h !! i = Some (USend2 c m true) → Send h (set_user h i UIdle).

Inductive ServeWebsocket (h : Hub) : Hub → Prop :=
  | u_serve i : users h !! i = Some UIdle → hubShutdownFlag h = false →
      ServeWebsocket h (set_user (mkHub (done h) (hubShutdownFlag h) (clients h) (broadcast h) (register h) (unregister h) (pc h)
        (all_clients h ++ [NewClient]) (users h)) i (URegister (length (all_clients h))))
  | u_register_done i c : users h !! i = Some (URegister c) ∨ users h !! i = Some (URegister2 c) → done h = true →
      ServeWebsocket h (set_user h i UIdle)
  | u_register_default i c : users h !! i = Some (URegister c) → done h = false → ServeWebsocket h (set_user h i (URegister2 c))
  | u_register_send i c : users h !! i = Some (URegister2 c) → room (register h) = true →
      ServeWebsocket h (set_user (set_chans h (broadcast h) (register h ++ [c]) (unregister h)) i UIdle).

Inductive user_step (h : Hub) : Hub → Prop :=
  | u_run : pc h = HIdle → user_step h (set_pc (set_flag h false) HLoop)
  | u_cancel : user_step h (mkHub true (hubShutdownFlag h) (clients h) (broadcast h) (register h) (unregister h) (pc h) (all_clients h) (users h))
  | u_BroadcastMsg h' : BroadcastMsg h h' → user_step h h'
  | u_Send h' : Send h h' → user_step h h'
  | u_ServeWebsocket h' : ServeWebsocket h h' → user_step h h'.

Definition any_step (h h' : Hub) : Prop := hub_step h h' ∨ client_step h h' ∨ user_step h h'.

Definition reachable (n : nat) (h : Hub) : Prop := rtc any_step (NewHub n) h.

(** ** Invariant *)

Definition writer_alive (w : writer_pc) : Z := match w with WDone => 0 | _ => 1 end.
Definition reader_alive (r : reader_pc) : Z := match r with RDone => 0 | _ => 1 end.
Definition keeper_alive (k : keeper_pc) : Z := match k with KDone => 0 | _ => 1 end.
Definition alive (x : Client) : Z := writer_alive (writer x) + reader_alive (reader x) + keeper_alive (keeper x).

Definition writer_closed (w : writer_pc) : bool :=
  match w with WNone | WLoop | WInner | WSend _ | WClosing => false | _ => true end.

Definition is_started (x : Client) : Prop := writer x ≠ WNone ∧ reader x ≠ RNone ∧ keeper x ≠ KNone.

Record client_ok (x : Client) : Prop := {
  co_waiting : phase x = PQueued →
    shutdownWaitGroup x = 0 ∧ writer x = WNone ∧ reader x = RNone ∧ keeper x = KNone ∧ connected x = 0;
  co_running : phase x = PActive ∨ phase x = PRemoving ∨ phase x = PRemoved → shutdownWaitGroup x = alive x;
  co_exit : ExitSignal x = true ↔ phase x = PRemoving ∨ phase x = PRemoved;
  co_closed : sendChanClosed x = writer_closed (writer x);
  co_fifo : taken x ++ sendChan x = accepted x;
  co_size : (length (sendChan x) ≤ clientSendChannelSize)%nat;
  co_left : phase x = PRemoved → connected x = 1 ∧ disconnected x = 1 ∧ alive x = 0;
  co_not_left : phase x ≠ PRemoved → disconnected x = 0;
  co_removing : phase x = PRemoving → connected x = 1 ∧ is_started x;
}.

(** Where the hub stands with the client [c]. *)
Definition starting (p : hub_pc) : option nat :=
  match p with HWaitReader c | HWaitKeeper c | HConnecting c => Some c | _ => None end.
Definition removing (p : hub_pc) : option nat :=
  match p with HRemoveWait c _ | HDrain c _ | HDisconnecting c _ => Some c | _ => None end.

(** The clients that a broadcast has yet to reach. *)
Definition todo_of (p : hub_pc) : list nat :=
  match p with HBroadcast _ _ todo => todo | HBroadcast2 _ _ c todo => c :: todo | _ => [] end.

Definition registering (u : user_pc) : option nat :=
  match u with URegister c | URegister2 c => Some c | _ => None end.

Record hub_ok (h : Hub) : Prop := {
  ho_client c x : all_clients h !! c = Some x → client_ok x;
  ho_active c : c ∈ clients h ↔ ∃ x, all_clients h !! c = Some x ∧ phase x = PActive;
  ho_removing c x : all_clients h !! c = Some x → phase x = PRemoving ↔ removing (pc h) = Some c;
  ho_starting c x : all_clients h !! c = Some x → phase x = PActive →
    if decide (starting (pc h) = Some c) then connected x = 0 ∧ (pc h = HWaitReader c → keeper x = KNone)
    else connected x = 1 ∧ is_started x;
  ho_started c x : all_clients h !! c = Some x → pc h = HWaitKeeper c ∨ pc h = HConnecting c → is_started x;
  ho_reader c x : all_clients h !! c = Some x → pc h = HWaitReader c → writer x ≠ WNone ∧ reader x ≠ RNone;
  ho_pc c : starting (pc h) = Some c → c ∈ clients h;
  ho_pc2 c : removing (pc h) = Some c → is_Some (all_clients h !! c);
  ho_queued c : c ∈ register h ++ omap registering (users h) → ∃ x, all_clients h !! c = Some x ∧ phase x = PQueued;
  ho_once : NoDup (register h ++ omap registering (users h));
  ho_drain c k x : pc h = HDrain c k ∨ pc h = HDisconnecting c k → all_clients h !! c = Some x → shutdownWaitGroup x = 0;
  ho_todo c : c ∈ todo_of (pc h) → c ∈ clients h;
  ho_exited : pc h = HExited → clients h = ∅;
}.

(** ** Steps of a client *)

Lemma alive_bounds x : 0 ≤ alive x ≤ 3.
Proof. unfold alive. destruct (writer x), (reader x), (keeper x); cbn; lia. Qed.

Lemma pump_facts dn rm x x' b :
  pump_step dn rm x x' b →
  (phase x' = phase x ∧ ExitSignal x' = ExitSignal x ∧ connected x' = connected x ∧ disconnected x' = disconnected x) ∧
  (shutdownWaitGroup x' - alive x' = shutdownWaitGroup x - alive x ∧ 1 ≤ alive x) ∧
  (accepted x' = accepted x ∧ taken x' ++ sendChan x' = taken x ++ sendChan x ∧ (length (sendChan x') ≤ length (sendChan x))%nat) ∧
  (sendChanClosed x = writer_closed (writer x) → sendChanClosed x' = writer_closed (writer x')) ∧
  ((writer x = WNone ↔ writer x' = WNone) ∧ (reader x = RNone ↔ reader x' = RNone) ∧ (keeper x = KNone ↔ keeper x' = KNone)) ∧
  (writer x ≠ WNone ∨ reader x ≠ RNone ∨ keeper x ≠ KNone).
Proof.
  assert (∀ w, 0 ≤ writer_alive w) as Hw by (intros []; cbn; lia).
  assert (∀ r, 0 ≤ reader_alive r) as Hr by (intros []; cbn; lia).
  assert (∀ k, 0 ≤ keeper_alive k) as Hk by (intros []; cbn; lia).
  specialize (Hw (writer x)). specialize (Hr (reader x)). specialize (Hk (keeper x)).
  intros [Hs|[Hs|Hs]];
    [destruct Hs as [E|E|E|m q E Eq|m E|m E|E|E|E|E|E|E|E|E|E]|destruct Hs as [E|E|E|E|E|E|E|E|E|E|E|E|E|E|E]
    |destruct Hs as [E|E|E|E|E|E|E|E|E|E|E|E|E]];
    unfold alive in *; cbn; rewrite ?E, ?Eq in *; cbn in *; rewrite <-?app_assoc; cbn; split_and!;
    try done; try lia; try naive_solver congruence.
Qed.

Lemma pump_client_ok dn rm x x' b : pump_step dn rm x x' b → client_ok x → client_ok x'.
Proof.
  intros Hs [H1 H2 H3 H4 H5 H6 H7 H8 H9].
  destruct (pump_facts _ _ _ _ _ Hs) as ((Ep & Ee & Ec & Ed) & [Hwg Hal] & (Hacc & Hf & Hl) & Hcl & (Hw & Hr & Hk) & Hn).
  pose proof (alive_bounds x). split; rewrite ?Ep, ?Ee, ?Ec, ?Ed.
  - intros Hp. destruct (H1 Hp) as (? & ? & ? & ? & ?). naive_solver.
  - intros Hp. specialize (H2 Hp). lia.
  - done.
  - by apply Hcl.
  - by rewrite Hf, H5.
  - lia.
  - intros Hp. destruct (H7 Hp) as (? & ? & ?). lia.
  - done.
  - intros Hp. destruct (H9 Hp) as (? & ? & ? & ?). unfold is_started. naive_solver.
Qed.

(** Replacing a client by one that stands where it stood. *)
Record same_place (x x' : Client) : Prop := {
  sp_phase : phase x' = phase x;
  sp_connected : connected x' = connected x;
  sp_writer : writer x' = WNone → writer x = WNone;
  sp_reader : reader x' = RNone → reader x = RNone;
  sp_keeper : keeper x' = KNone ↔ keeper x = KNone;
  sp_wg : shutdownWaitGroup x = 0 → alive x = 0 → shutdownWaitGroup x' = 0;
}.

Lemma set_client_ok h c x x' :
  hub_ok h → all_clients h !! c = Some x → client_ok x' → same_place x x' → hub_ok (set_client h c x').
Proof.
  intros [H1 H2 H3 H4 H5 H6 H7 H8 H9 H10 H11 H12 H13] Hc Hok [S1 S2 S3 S4 S5 S6].
  assert (<[c:=x']> (all_clients h) !! c = Some x') as Hnew by (apply list_lookup_insert_eq; by eapply lookup_lt_Some).
  assert (∀ d y, <[c:=x']> (all_clients h) !! d = Some y → (d = c ∧ y = x') ∨ (d ≠ c ∧ all_clients h !! d = Some y)) as Hback.
  { intros d y [[<- ->]|[? ?]]%lookup_insert_case; [by left|right]. by split. }
  assert (∀ d, d ≠ c → <[c:=x']> (all_clients h) !! d = all_clients h !! d) as Hne by (intros d Hd; by rewrite list_lookup_insert_ne).
  assert (is_started x → is_started x') as Hst by (unfold is_started; naive_solver).
  split; cbn.
  - intros d y [[-> ->]|[? ?]]%Hback; [done|by eapply H1].
  - intros d. rewrite H2. destruct (decide (d = c)) as [->|Hd]; [|by rewrite Hne]. rewrite Hnew, Hc. naive_solver congruence.
  - intros d y [[-> ->]|[? ?]]%Hback; [rewrite S1; by apply H3|by apply H3].
  - intros d y [[-> ->]|[? ?]]%Hback Hp; [|by apply H4]. rewrite S1 in Hp. specialize (H4 c x Hc Hp). rewrite S2.
    destruct (decide _); naive_solver.
  - intros d y [[-> ->]|[? ?]]%Hback Hp; [|by apply (H5 d)]. apply Hst. by apply (H5 c).
  - intros d y [[-> ->]|[? ?]]%Hback Hp; [|by apply (H6 d)]. destruct (H6 c x Hc Hp). naive_solver.
  - done.
  - intros d Hd. destruct (decide (d = c)) as [->|Hdc]; [rewrite Hnew; by eexists|]. rewrite Hne by done. by apply H8.
  - intros d Hd. destruct (H9 d Hd) as (y & Hy & Hp). destruct (decide (d = c)) as [->|Hdc]; [|exists y; by rewrite Hne].
    exists x'. split; [done|]. rewrite S1. congruence.
  - done.
  - intros d k y Hp [[-> ->]|[? ?]]%Hback; [|by eapply H11]. specialize (H11 c k x Hp Hc). apply S6; [done|].
    rewrite <-(co_running x (H1 _ _ Hc)); [done|]. right. left. apply (H3 c x Hc). by destruct Hp as [-> | ->].
  - done.
  - done.
Qed.

Lemma pump_same_place dn rm x x' b : pump_step dn rm x x' b → same_place x x'.
Proof.
  intros Hs. destruct (pump_facts _ _ _ _ _ Hs) as ((Ep & Ee & Ec & Ed) & [Hwg Hal] & _ & _ & (Hw & Hr & Hk) & _).
  split; [done|done|naive_solver|naive_solver|naive_solver|]. intros _ Ha. lia.
Qed.

Lemma set_chans_ok h b u : hub_ok h → hub_ok (set_chans h b (register h) u).
Proof. intros []. by split. Qed.

Lemma client_step_ok h h' : client_step h h' → hub_ok h → hub_ok h'.
Proof.
  intros (c & x & x' & b & Hc & Hs & ->) Hh. apply (set_client_ok _ c x); [by apply set_chans_ok|done| |].
  - eapply pump_client_ok; [done|]. by apply (ho_client h Hh c).
  - by eapply pump_same_place.
Qed.

Lemma send_ok x m : client_ok x → chan_room x = true → client_ok (send x m).
Proof.
  intros [] Hr%bool_decide_eq_true. split; cbn; try done.
  - by rewrite app_assoc, co_fifo0.
  - rewrite length_app. cbn. lia.
Qed.

Lemma send_same x m : same_place x (send x m).
Proof. by split. Qed.

(** Steps of the hub between clients. *)
Lemma neutral_ok h p :
  hub_ok h → starting (pc h) = None → removing (pc h) = None → starting p = None → removing p = None →
  (∀ c, c ∈ todo_of p → c ∈ clients h) → (p = HExited → clients h = ∅) → hub_ok (set_pc h p).
Proof.
  intros [H1 H2 H3 H4 H5 H6 H7 H8 H9 H10 H11 H12 H13] Hs Hr Hs' Hr' Htodo Hex. split; cbn; try done.
  - intros c x Hc. rewrite (H3 c x Hc), Hr, Hr'. done.
  - intros c x Hc Hp. specialize (H4 c x Hc Hp). rewrite Hs in H4. rewrite Hs'. done.
  - intros c x Hc [-> | ->]; done.
  - intros c x Hc ->. done.
  - intros c Hc. congruence.
  - intros c Hc. congruence.
  - intros c k x [-> | ->]; done.
Qed.

(** A step of the hub that concerns the client [c]. *)
Record moves (h h' : Hub) (c : nat) (x x' : Client) : Prop := {
  mv_clients : all_clients h' = <[c:=x']> (all_clients h);
  mv_users : users h' = users h;
  mv_set d : d ≠ c → d ∈ clients h' ↔ d ∈ clients h;
  mv_member : c ∈ clients h' ↔ phase x' = PActive;
  mv_other d : d ≠ c → starting (pc h) ≠ Some d ∧ starting (pc h') ≠ Some d ∧ removing (pc h) ≠ Some d ∧ removing (pc h') ≠ Some d;
  mv_removing : phase x' = PRemoving ↔ removing (pc h') = Some c;
  mv_starting : phase x' = PActive →
    if decide (starting (pc h') = Some c) then connected x' = 0 ∧ (pc h' = HWaitReader c → keeper x' = KNone)
    else connected x' = 1 ∧ is_started x';
  mv_started : pc h' = HWaitKeeper c ∨ pc h' = HConnecting c → is_started x';
  mv_reader : pc h' = HWaitReader c → writer x' ≠ WNone ∧ reader x' ≠ RNone;
  mv_active : starting (pc h') = Some c → phase x' = PActive;
  mv_register : register h' = register h ∧ phase x ≠ PQueued ∨ register h = c :: register h';
  mv_drain k : pc h' = HDrain c k ∨ pc h' = HDisconnecting c k → shutdownWaitGroup x' = 0;
  mv_todo : todo_of (pc h') = [] ∧ pc h' ≠ HExited;
}.

Lemma move_ok h h' c x x' :
  hub_ok h → all_clients h !! c = Some x → client_ok x' → moves h h' c x x' → hub_ok h'.
Proof.
  intros [H1 H2 H3 H4 H5 H6 H7 H8 H9 H10 H11 H12 H13] Hc Hok [E1 E2 M1 M2 M3 M4 M5 M6 M7 M8 M9 M10 [M11 M12]].
  assert (all_clients h' !! c = Some x') as Hnew by (rewrite E1; apply list_lookup_insert_eq; by eapply lookup_lt_Some).
  assert (∀ d, d ≠ c → all_clients h' !! d = all_clients h !! d) as Hne by (intros d Hd; rewrite E1; by rewrite list_lookup_insert_ne).
  assert (∀ d y, all_clients h' !! d = Some y → (d = c ∧ y = x') ∨ (d ≠ c ∧ all_clients h !! d = Some y)) as Hback.
  { intros d y Hd. destruct (decide (d = c)) as [->|Hdc]; [left; split; congruence|right]. rewrite Hne in Hd by done. done. }
  assert (∀ d, d ∈ register h' ++ omap registering (users h') → d ∈ register h ++ omap registering (users h) ∧ d ≠ c) as Hreg.
  { intros d. rewrite E2. destruct M9 as [[-> Hp]|Hr].
    - intros Hd. split; [done|]. intros ->. destruct (H9 c Hd) as (y & ? & ?). congruence.
    - rewrite Hr. cbn [app]. intros Hd. split; [by right|]. intros ->. rewrite Hr in H10. cbn [app] in H10. by apply NoDup_cons in H10 as [? _]. }
  split.
  - intros d y [[-> ->]|[? ?]]%Hback; [done|by eapply H1].
  - intros d. destruct (decide (d = c)) as [->|Hd]; [rewrite M2, Hnew; naive_solver|]. by rewrite M1, (Hne d Hd).
  - intros d y [[-> ->]|[Hd Hy]]%Hback; [done|]. rewrite (H3 d y Hy). destruct (M3 d Hd) as (_ & _ & ? & ?). by split.
  - intros d y [[-> ->]|[Hd Hy]]%Hback Hp; [by apply M5|]. specialize (H4 d y Hy Hp). destruct (M3 d Hd) as (? & ? & _ & _).
    rewrite decide_False in H4 by done. by rewrite decide_False.
  - intros d y [[-> ->]|[Hd Hy]]%Hback Hp; [by apply M6|]. destruct (M3 d Hd) as (_ & Hs & _). exfalso. apply Hs. by destruct Hp as [-> | ->].
  - intros d y [[-> ->]|[Hd Hy]]%Hback Hp; [by apply M7|]. destruct (M3 d Hd) as (_ & Hs & _). exfalso. apply Hs. by rewrite Hp.
  - intros d Hd. destruct (decide (d = c)) as [->|Hdc]; [by apply M2, M8|]. by destruct (M3 d Hdc) as (_ & ? & _).
  - intros d Hd. destruct (decide (d = c)) as [->|Hdc]; [rewrite Hnew; by eexists|]. by destruct (M3 d Hdc) as (_ & _ & _ & ?).
  - intros d [Hd Hdc]%Hreg. rewrite Hne by done. by apply H9.
  - rewrite E2. destruct M9 as [[-> _]|Hr]; [done|]. rewrite Hr in H10. cbn in H10. by apply NoDup_cons in H10 as [_ ?].
  - intros d k y Hp [[-> ->]|[Hd Hy]]%Hback; [by eapply M10|]. destruct (M3 d Hd) as (_ & _ & _ & Hs). exfalso. apply Hs. by destruct Hp as [-> | ->].
  - rewrite M11. intros d Hd. by apply not_elem_of_nil in Hd.
  - done.
Qed.

Lemma start_client_ok x : client_ok x → phase x = PQueued → client_ok (start_client x).
Proof.
  intros [H1 H2 H3 H4 H5 H6 H7 H8 H9] Hp. destruct (H1 Hp) as (Hwg & Hw & Hr & Hk & Hc). split; cbn; try done.
  - intros _. unfold alive. cbn. rewrite Hk, Hwg. done.
  - rewrite H3, Hp. naive_solver.
  - rewrite H4, Hw. done.
  - intros _. apply H8. by rewrite Hp.
Qed.

Lemma register_ok h c r x :
  hub_ok h → pc h = HInner → register h = c :: r → all_clients h !! c = Some x →
  hub_ok (set_pc (set_client (set_clients (set_chans h (broadcast h) r (unregister h)) ({[c]} ∪ clients h)) c (start_client x)) (HWaitReader c)).
Proof.
  intros Hh Hpc Hr Hc. destruct (ho_queued h Hh c) as (y & Hy & Hp); [rewrite Hr; left|]. assert (y = x) as -> by congruence.
  pose proof (ho_client h Hh c x Hc) as Hx. destruct (co_waiting x Hx Hp) as (_ & _ & _ & Hk & Hcon).
  eapply (move_ok h _ c x (start_client x)); [done|done|by apply start_client_ok|]. split; cbn; rewrite ?Hpc; cbn; try done.
  - intros d Hd. set_solver.
  - set_solver.
  - intros d Hd. split_and!; congruence.
  - intros _. by rewrite decide_True.
  - by intros [? | ?].
  - by right.
  - by intros k [? | ?].
Qed.

Lemma removeClient_ok h c k h' :
  hub_ok h → starting (pc h) = None → removing (pc h) = None → c ∈ clients h → removeClient h c k = Ret h' → hub_ok h'.
Proof.
  intros Hh Hs Hr Hc Hrm. pose proof Hc as (x & Hx & Hp)%(ho_active h Hh). unfold removeClient, close_exit in Hrm. rewrite Hx in Hrm. cbn in Hrm.
  pose proof (ho_client h Hh c x Hx) as Hok. pose proof (ho_starting h Hh c x Hx Hp) as Hst. rewrite Hs in Hst.
  rewrite decide_False in Hst by done. destruct Hst as [Hcon Hsta]. destruct Hok as [H1 H2 H3 H4 H5 H6 H7 H8 H9].
  assert (ExitSignal x = false) as He. { apply not_true_is_false. intros [E|E]%H3; congruence. }
  rewrite He in Hrm. cbn in Hrm. injection Hrm as <-.
  eapply (move_ok h _ c x); [done|done| |].
  2: { split; cbn; rewrite ?Hs, ?Hr; try done.
    - intros d Hd. set_solver.
    - set_solver.
    - intros d Hd. split_and!; congruence.
    - left. split; [done|]. by rewrite Hp.
    - by intros k' [? | ?]. }
  split; cbn; try done.
  - intros _. apply H2. by left.
  - split; [by left|done].
  - intros _. apply H8. by rewrite Hp.
Qed.

Lemma removeClient_returns h c k : hub_ok h → c ∈ clients h → returns (removeClient h c k).
Proof.
  intros Hh (x & Hx & Hp)%(ho_active h Hh). unfold removeClient, close_exit. rewrite Hx. cbn.
  assert (ExitSignal x = false) as ->; [|by eexists]. destruct (ExitSignal x) eqn:E; [|done]. exfalso.
  apply (co_exit x (ho_client h Hh c x Hx)) in E. rewrite Hp in E. naive_solver.
Qed.

Lemma starting_active h c x : hub_ok h → starting (pc h) = Some c → all_clients h !! c = Some x → phase x = PActive.
Proof. intros Hh Hs Hc. apply (ho_pc h Hh), (ho_active h Hh) in Hs as (y & ? & ?). congruence. Qed.

Lemma reader_started_ok h c x :
  hub_ok h → pc h = HWaitReader c → all_clients h !! c = Some x → hub_ok (set_pc (set_client h c (set_keeper x KStarting)) (HWaitKeeper c)).
Proof.
  intros Hh Hpc Hc. pose proof (starting_active h c x Hh ltac:(by rewrite Hpc) Hc) as Hp. pose proof (ho_client h Hh c x Hc) as Hx.
  pose proof (ho_starting h Hh c x Hc Hp) as Hst. rewrite Hpc, decide_True in Hst by done. destruct Hst as [Hcon Hk]. specialize (Hk eq_refl).
  destruct (ho_reader h Hh c x Hc Hpc) as [Hw Hr].
  eapply (move_ok h _ c x (set_keeper x KStarting)); [done|done| |].
  - destruct Hx as [H1 H2 H3 H4 H5 H6 H7 H8 H9]. split; cbn; try done; rewrite ?Hp; try done.
    intros _. rewrite H2 by (by left). unfold alive. cbn. by rewrite Hk.
  - split; cbn; rewrite ?Hpc, ?Hp; cbn; try done.
    + split; [done|]. intros _. by rewrite (ho_active h Hh); exists x.
    + intros d Hd. split_and!; congruence.
    + intros _. by rewrite decide_True.
    + left. split; done.
    + by intros k [? | ?].
Qed.

Lemma keeper_started_ok h c x :
  hub_ok h → pc h = HWaitKeeper c → all_clients h !! c = Some x → hub_ok (set_pc h (HConnecting c)).
Proof.
  intros Hh Hpc Hc. pose proof (starting_active h c x Hh ltac:(by rewrite Hpc) Hc) as Hp. pose proof (ho_client h Hh c x Hc) as Hx.
  pose proof (ho_starting h Hh c x Hc Hp) as Hst. rewrite Hpc, decide_True in Hst by done.
  pose proof (ho_started h Hh c x Hc ltac:(by left)) as His.
  eapply (move_ok h _ c x x); [done|done|done|]. split; cbn; rewrite ?Hpc, ?Hp; cbn; try done.
  - by rewrite list_insert_id.
  - split; [done|]. intros _. by rewrite (ho_active h Hh); exists x.
  - intros d Hd. split_and!; congruence.
  - intros _. rewrite decide_True by done. naive_solver.
  - left. split; done.
  - by intros k [? | ?].
Qed.

Lemma connected_ok h c x :
  hub_ok h → pc h = HConnecting c → all_clients h !! c = Some x → hub_ok (set_pc (set_client h c (trigger_connected x)) HLoop).
Proof.
  intros Hh Hpc Hc. pose proof (starting_active h c x Hh ltac:(by rewrite Hpc) Hc) as Hp. pose proof (ho_client h Hh c x Hc) as Hx.
  pose proof (ho_starting h Hh c x Hc Hp) as Hst. rewrite Hpc, decide_True in Hst by done. destruct Hst as [Hcon _].
  pose proof (ho_started h Hh c x Hc ltac:(by right)) as His.
  eapply (move_ok h _ c x (trigger_connected x)); [done|done| |].
  - destruct Hx as [H1 H2 H3 H4 H5 H6 H7 H8 H9]. split; cbn; try done; by rewrite ?Hp.
  - split; cbn; rewrite ?Hpc, ?Hp; cbn; try done.
    + split; [done|]. intros _. by rewrite (ho_active h Hh); exists x.
    + intros d Hd. split_and!; congruence.
    + intros _. rewrite decide_False by done. split; [lia|done].
    + left. split; done.
    + by intros k [? | ?].
Qed.

(** While a client is removed. *)
Lemma removing_step_ok h c x x' p :
  hub_ok h → removing (pc h) = Some c → all_clients h !! c = Some x → client_ok x' → same_place x x' →
  removing p = Some c → starting (pc h) = None → starting p = None → todo_of p = [] → p ≠ HExited →
  (∀ k, p = HDrain c k ∨ p = HDisconnecting c k → shutdownWaitGroup x' = 0) → hub_ok (set_pc (set_client h c x') p).
Proof.
  intros Hh Hr Hc Hx' [S1 S2 S3 S4 S5 S6] Hrp Hs Hsp Ht He Hd. pose proof (proj2 (ho_removing h Hh c x Hc) Hr) as Hp.
  eapply (move_ok h _ c x x'); [done|done|done|]. split; cbn; rewrite ?Hr, ?Hrp, ?Hs, ?Hsp, ?S1, ?Hp; try done.
  - split; [|done]. rewrite (ho_active h Hh). intros (y & ? & ?). congruence.
  - intros d Hne. split_and!; congruence.
  - intros [-> | ->]; done.
  - intros ->. done.
  - left. split; done.
Qed.

Lemma same_place_refl x : same_place x x.
Proof. by split. Qed.

Lemma set_client_id h c x : all_clients h !! c = Some x → set_client h c x = h.
Proof. intros Hc. destruct h. unfold set_client. cbn in *. by rewrite list_insert_id. Qed.

Lemma removing_pc_ok h c x p :
  hub_ok h → removing (pc h) = Some c → all_clients h !! c = Some x → starting (pc h) = None →
  removing p = Some c → starting p = None → todo_of p = [] → p ≠ HExited → shutdownWaitGroup x = 0 → hub_ok (set_pc h p).
Proof.
  intros Hh Hr Hc Hs Hrp Hsp Ht He Hwg. rewrite <-(set_client_id h c x Hc).
  apply (removing_step_ok h c x x p); try done. by apply (ho_client h Hh c).
Qed.

Lemma disconnected_ok h c k x :
  hub_ok h → pc h = HDisconnecting c k → all_clients h !! c = Some x → hub_ok (set_pc (set_client h c (trigger_disconnected x)) (resume k)).
Proof.
  intros Hh Hpc Hc. assert (removing (pc h) = Some c) as Hr by (by rewrite Hpc).
  pose proof (proj2 (ho_removing h Hh c x Hc) Hr) as Hp. pose proof (ho_client h Hh c x Hc) as Hx.
  pose proof (ho_drain h Hh c k x ltac:(by right) Hc) as Hwg. destruct (co_removing x Hx Hp) as [Hcon _].
  pose proof (co_running x Hx ltac:(by right; left)) as Ha. pose proof (co_not_left x Hx ltac:(by rewrite Hp)) as Hdis.
  pose proof (proj2 (co_exit x Hx) ltac:(by left)) as He.
  eapply (move_ok h _ c x (trigger_disconnected x)); [done|done| |].
  - destruct Hx as [H1 H2 H3 H4 H5 H6 H7 H8 H9]. split; cbn; try done.
    + split; [by right|done].
    + intros _. change (alive (trigger_disconnected x)) with (alive x). split_and!; lia.
  - split; cbn; rewrite ?Hpc, ?Hp; cbn; try done; try (by destruct k).
    + split; [|done]. rewrite (ho_active h Hh). intros (y & ? & ?). congruence.
    + intros d Hd. destruct k; cbn; split_and!; congruence.
    + destruct k; by intros [? | ?].
    + left. split; done.
Qed.

Lemma hub_step_ok h h' : hub_step h h' → hub_ok h → hub_ok h'.
Proof.
  intros Hs Hh. destruct Hs as [Hpc Hd|Hpc Hd|c r x Hpc Hr Hc|c x Hpc Hc Hrd|c x Hpc Hc Hkp|c x Hpc Hc|c u h' Hpc Hu Hin Hrm|c u Hpc Hu Hin
    |c k x Hpc Hc Hwg|c k x m q Hpc Hc Hq|c k x Hpc Hc Hq|c k x Hpc Hc|m d b todo Hpc Hb Ht|m d c todo Hpc Hf|m d c todo x Hpc Hf Hc Hsk
    |m d c todo x Hpc Hf Hc Hsk|m c todo x Hpc Hc Hsk|m d c todo x Hpc Hc Hro|m c todo x Hpc Hc Hro|m d Hpc|c h' Hpc Hin Hrm|Hpc Hcl].
  - apply neutral_ok; cbn; try done; try (by destruct Hpc as [-> | ->]); [by destruct Hh; split|]. intros c Hc. by apply not_elem_of_nil in Hc.
  - apply neutral_ok; cbn; rewrite ?Hpc; try done. intros c Hc. by apply not_elem_of_nil in Hc.
  - by apply register_ok.
  - by apply reader_started_ok.
  - by eapply keeper_started_ok.
  - by apply connected_ok.
  - apply (removeClient_ok (set_chans h (broadcast h) (register h) u) c ToLoop);
      [by apply set_chans_ok|cbn; by rewrite Hpc|cbn; by rewrite Hpc|done|done].
  - apply neutral_ok; cbn; rewrite ?Hpc; try done; [by apply set_chans_ok|]. intros d Hc. by apply not_elem_of_nil in Hc.
  - apply (removing_pc_ok h c x); rewrite ?Hpc; done.
  - apply (set_client_ok h c x); [done|done| |by split]. destruct (ho_client h Hh c x Hc) as [H1 H2 H3 H4 H5 H6 H7 H8 H9].
    split; cbn; try done; [|rewrite Hq in H6; cbn in H6; lia]. rewrite <-app_assoc. cbn. by rewrite <-H5, Hq.
  - apply (removing_pc_ok h c x); rewrite ?Hpc; try done. by eapply (ho_drain h Hh c k x (or_introl Hpc)).
  - by apply disconnected_ok.
  - apply neutral_ok; cbn; rewrite ?Hpc; try done; [by apply set_chans_ok|]. intros c. rewrite Ht. by rewrite elem_of_elements.
  - apply neutral_ok; cbn; rewrite ?Hpc; try done. intros d' Hd. apply (ho_todo h Hh). rewrite Hpc. by right.
  - apply neutral_ok; cbn; rewrite ?Hpc; try done. intros d' Hd. apply (ho_todo h Hh). rewrite Hpc. by right.
  - apply neutral_ok; cbn; rewrite ?Hpc; try done. intros d' Hd. apply (ho_todo h Hh). by rewrite Hpc.
  - apply neutral_ok; cbn; rewrite ?Hpc; try done. intros d' Hd. apply (ho_todo h Hh). rewrite Hpc. by right.
  - apply neutral_ok; cbn; rewrite ?Hpc; try done.
    + apply (set_client_ok h c x); [done|done|apply send_ok; [by eapply (ho_client h Hh)|done]|apply send_same].
    + intros d' Hd. apply (ho_todo h Hh). rewrite Hpc. by right.
  - apply neutral_ok; cbn; rewrite ?Hpc; try done. intros d' Hd. apply (ho_todo h Hh). rewrite Hpc. by right.
  - apply neutral_ok; cbn; rewrite ?Hpc; try done. intros d' Hd. by apply not_elem_of_nil in Hd.
  - apply (removeClient_ok h c ToShutdown); [done|by rewrite Hpc|by rewrite Hpc|done|done].
  - apply neutral_ok; cbn; rewrite ?Hpc; try done. intros d' Hd. by apply not_elem_of_nil in Hd.
Qed.

(** ** Steps of the callers *)

Definition others (i : nat) (us : list user_pc) : list nat :=
  omap registering (take i us) ++ omap registering (drop (S i) us).

Lemma registering_at us i u : us !! i = Some u → omap registering us ≡ₚ option_list (registering u) ++ others i us.
Proof.
  intros Hu. rewrite <-(take_drop_middle us i u Hu) at 1. rewrite omap_app. unfold others. cbn.
  destruct (registering u); cbn; [by rewrite Permutation_middle|done].
Qed.

Lemma registering_insert us i u u' :
  us !! i = Some u → omap registering (<[i:=u']> us) ≡ₚ option_list (registering u') ++ others i us.
Proof.
  intros Hu. rewrite insert_take_drop by (by eapply lookup_lt_Some). rewrite omap_app. unfold others. cbn.
  destruct (registering u'); cbn; [by rewrite Permutation_middle|done].
Qed.

(** Changing the clients that are being registered. *)
Lemma requeue_ok h h' k :
  hub_ok h → clients h' = clients h → pc h' = pc h → all_clients h' = all_clients h →
  register h ++ omap registering (users h) ≡ₚ k ++ register h' ++ omap registering (users h') → hub_ok h'.
Proof.
  intros [H1 H2 H3 H4 H5 H6 H7 H8 H9 H10 H11 H12 H13] E1 E2 E3 Hp.
  split; rewrite ?E1, ?E2, ?E3; try done.
  - intros c Hc. apply H9. rewrite Hp. apply elem_of_app. by right.
  - rewrite Hp in H10. by apply NoDup_app in H10 as (_ & _ & ?).
Qed.

Lemma set_user_ok h i u u' :
  hub_ok h → users h !! i = Some u → registering u' = None ∨ registering u' = registering u → hub_ok (set_user h i u').
Proof.
  intros Hh Hu Hr. assert (∃ k, option_list (registering u) = k ++ option_list (registering u')) as [k Hk].
  { destruct Hr as [-> | ->]; [exists (option_list (registering u)); by rewrite app_nil_r|by exists []]. }
  apply (requeue_ok h _ k); try done. cbn [set_user users register]. rewrite (registering_at _ _ _ Hu), (registering_insert _ _ _ u' Hu), Hk.
  rewrite <-!app_assoc, !(Permutation_app_comm (register h)), <-!app_assoc. done.
Qed.

Lemma registered_ok h i c b :
  hub_ok h → users h !! i = Some (URegister2 c) → hub_ok (set_user (set_chans h b (register h ++ [c]) (unregister h)) i UIdle).
Proof.
  intros Hh Hu. apply (requeue_ok h _ []); try done. cbn [set_user set_chans users register app].
  rewrite (registering_at _ _ _ Hu), (registering_insert _ _ _ UIdle Hu), <-!app_assoc. done.
Qed.

Lemma NewClient_ok : client_ok NewClient.
Proof. split; cbn; try done; try lia; naive_solver. Qed.

Lemma serve_ok h i :
  hub_ok h → users h !! i = Some UIdle →
  hub_ok (set_user (mkHub (done h) (hubShutdownFlag h) (clients h) (broadcast h) (register h) (unregister h) (pc h)
    (all_clients h ++ [NewClient]) (users h)) i (URegister (length (all_clients h)))).
Proof.
  intros [H1 H2 H3 H4 H5 H6 H7 H8 H9 H10 H11 H12 H13] Hu. set (n := length (all_clients h)).
  assert (∀ d y, (all_clients h ++ [NewClient]) !! d = Some y → all_clients h !! d = Some y ∨ d = n ∧ y = NewClient) as Hback.
  { intros d y [?|[? Hd]]%lookup_app_Some; [by left|right]. apply list_lookup_singleton_Some in Hd as [??]. split; [lia|done]. }
  assert (∀ d y, all_clients h !! d = Some y → (all_clients h ++ [NewClient]) !! d = Some y) as Hold by (intros d y Hd; by apply lookup_app_l_Some).
  assert (∀ d, starting (pc h) = Some d ∨ removing (pc h) = Some d → d < n)%nat as Hlt.
  { intros d [(y & Hy & _)%H7%H2|[y Hy]%H8]; by eapply lookup_lt_Some. }
  assert (omap registering (<[i:=URegister n]> (users h)) ≡ₚ n :: omap registering (users h)) as Hq.
  { rewrite (registering_insert _ _ _ (URegister n) Hu), (registering_at _ _ _ Hu). done. }
  split; cbn; try done.
  - intros d y [?|[_ ->]]%Hback; [by eapply H1|apply NewClient_ok].
  - intros d. rewrite H2. split; [intros (y & ? & ?); exists y; naive_solver|]. intros (y & [?|[_ ->]]%Hback & ?); [by exists y|done].
  - intros d y [?|[-> ->]]%Hback; [by apply H3|]. split; [done|]. intros Hr. specialize (Hlt n (or_intror Hr)). lia.
  - intros d y [?|[-> ->]]%Hback Hp; [by apply H4|done].
  - intros d y [?|[-> ->]]%Hback Hp; [by apply (H5 d)|]. assert (n < n)%nat; [|lia]. apply Hlt. left. by destruct Hp as [-> | ->].
  - intros d y [?|[-> ->]]%Hback Hp; [by apply (H6 d)|]. assert (n < n)%nat; [|lia]. apply Hlt. left. by rewrite Hp.
  - intros d [y Hy]%H8. exists y. by apply Hold.
  - intros d. rewrite Hq, <-Permutation_middle, elem_of_cons. intros [->|(y & ? & ?)%H9]; [|exists y; naive_solver].
    exists NewClient. split; [|done]. by apply list_lookup_middle.
  - rewrite Hq, <-Permutation_middle. apply NoDup_cons. split; [|done]. intros (y & Hy & _)%H9. apply lookup_lt_Some in Hy. lia.
  - intros d k y Hp [?|[-> ->]]%Hback; [by eapply H11|done].
Qed.

Lemma BroadcastMsg_ok h h' : BroadcastMsg h h' → hub_ok h → hub_ok h'.
Proof.
  intros Hs Hh. destruct Hs as [| | |i m d Hu Hl| |]; try (by eapply set_user_ok; [done|done|left]).
  eapply (set_user_ok (set_chans h (broadcast h ++ [(m, d)]) (register h) (unregister h))); [by apply set_chans_ok|done|by left].
Qed.

Lemma Send_ok h h' : Send h h' → hub_ok h → hub_ok h'.
Proof.
  intros Hs Hh. destruct Hs as [| | |i c x m d Hu Hc Hro| |]; try (by eapply set_user_ok; [done|done|left]).
  eapply (set_user_ok (set_client h c (send x m))); [|done|by left]. apply (set_client_ok h c x); [done|done| |apply send_same].
  apply send_ok; [by eapply (ho_client h Hh)|done].
Qed.

Lemma ServeWebsocket_ok h h' : ServeWebsocket h h' → hub_ok h → hub_ok h'.
Proof.
  intros Hs Hh. destruct Hs as [i Hu Hf|i c Hu Hd|i c Hu Hd|i c Hu Hro].
  - by apply serve_ok.
  - destruct Hu as [Hu|Hu]; by eapply set_user_ok; [done|done|left].
  - eapply set_user_ok; [done|done|by right].
  - by apply registered_ok.
Qed.

Lemma user_step_ok h h' : user_step h h' → hub_ok h → hub_ok h'.
Proof.
  intros Hs Hh. destruct Hs as [Hpc| |h' Hs|h' Hs|h' Hs].
  - apply (neutral_ok (set_flag h false)); cbn; rewrite ?Hpc; try done; [by destruct Hh; split|]. intros c Hc. by apply not_elem_of_nil in Hc.
  - by destruct Hh; split.
  - by eapply BroadcastMsg_ok.
  - by eapply Send_ok.
  - by eapply ServeWebsocket_ok.
Qed.

Lemma NewHub_ok n : hub_ok (NewHub n).
Proof.
  assert (omap registering (replicate n UIdle) = []) as Hr by (induction n; done).
  split; cbn; rewrite ?Hr; try done.
  - intros c. split; [set_solver|]. intros (x & ? & ?). done.
  - intros c Hc. by apply not_elem_of_nil in Hc.
  - constructor.
  - intros c Hc. by apply not_elem_of_nil in Hc.
Qed.

Lemma any_step_ok h h' : any_step h h' → hub_ok h → hub_ok h'.
Proof. intros [?|[?|?]]; [by apply hub_step_ok|by apply client_step_ok|by apply user_step_ok]. Qed.

Lemma hub_reachable_ok n h : reachable n h → hub_ok h.
Proof.
  intros Hr. eapply (rtc_ind_r hub_ok (NewHub n)); [apply NewHub_ok| |exact Hr].
  intros y z _ Hs Hy. by eapply any_step_ok.
Qed.

(** ** Shutdown *)

Definition inner_step (h h' : Hub) : Prop := hub_step h h' ∨ client_step h h'.

Lemma client_steps h c x x' b :
  all_clients h !! c = Some x → pump_step (done h) (room (unregister h)) x x' b → ∃ h', inner_step h h'.
Proof. intros Hc Hs. eexists. right. by exists c, x, x', b. Qed.

(** A goroutine of a client that has not ended does not block once the context is done. *)
Lemma writer_moves rm x : writer x ≠ WNone → writer x ≠ WDone → ∃ x' b, pump_step true rm x x' b.
Proof.
  intros Hn Hd. destruct (writer x) as [| | |m| | | | | | |] eqn:E; [done|..|done]; do 2 eexists.
  - left. by apply w_leave.
  - left. by apply w_leave2.
  - left. by eapply w_failed.
  - left. by apply w_closing.
  - left. by apply w_flag.
  - left. by apply w_select_leave.
  - left. by apply w_unreg_done.
  - left. by apply w_unreg2_done.
  - left. by apply w_conn.
Qed.

Lemma reader_moves rm x : reader x ≠ RNone → reader x ≠ RDone → ∃ x' b, pump_step true rm x x' b.
Proof.
  intros Hn Hd. destruct (reader x) eqn:E; [done|..|done]; do 2 eexists.
  - right; left. by apply r_start.
  - right; left. by apply r_error.
  - right; left. by apply r_leave.
  - right; left. by apply r_leave2.
  - right; left. by apply r_select_leave.
  - right; left. by apply r_unreg_done.
  - right; left. by apply r_unreg2_done.
  - right; left. by apply r_finish.
Qed.

Lemma keeper_moves rm x : keeper x ≠ KNone → keeper x ≠ KDone → ∃ x' b, pump_step true rm x x' b.
Proof.
  intros Hn Hd. destruct (keeper x) eqn:E; [done|..|done]; do 2 eexists.
  - right; right. by apply k_start.
  - right; right. by apply k_leave.
  - right; right. by apply k_leave2.
  - right; right. by apply k_failed.
  - right; right. by apply k_unreg_done.
  - right; right. by apply k_unreg2_done.
  - right; right. by apply k_cancel.
  - right; right. by apply k_finish.
Qed.

Lemma pumps_move h c x :
  done h = true → all_clients h !! c = Some x → is_started x → alive x ≠ 0 → ∃ h', inner_step h h'.
Proof.
  intros Hd Hc (Hw & Hr & Hk) Ha. cut (∃ x' b, pump_step true (room (unregister h)) x x' b).
  { intros (x' & b & Hs). eapply client_steps; [done|]. by rewrite Hd. }
  unfold alive in Ha. destruct (decide (writer_alive (writer x) = 0)); [|apply writer_moves; [done|]; by intros E; rewrite E in *].
  destruct (decide (reader_alive (reader x) = 0)); [|apply reader_moves; [done|]; by intros E; rewrite E in *].
  apply keeper_moves; [done|]. intros E. rewrite E in Ha. cbn in Ha. lia.
Qed.

Lemma shutdown_moves h : hub_ok h → done h = true → pc h ≠ HIdle → pc h ≠ HExited → ∃ h', inner_step h h'.
Proof.
  intros Hh Hd Hi He.
  assert (∀ c, c ∈ clients h → ∃ x, all_clients h !! c = Some x) as Hcl by (intros c (x & ? & _)%(ho_active h Hh); by exists x).
  assert (∀ x, skips h x = true) as Hsk by (intros x; unfold skips; by rewrite Hd).
  destruct (pc h) as [| | |c|c|c|c k|c k|c k|m d todo|m d c todo| |] eqn:Hpc; try done.
  - eexists. left. apply h_done; [by left|done].
  - eexists. left. apply h_done; [by right|done].
  - destruct (Hcl c) as [x Hc]; [apply (ho_pc h Hh); by rewrite Hpc|]. destruct (decide (reader x = RStarting)) as [Hr|Hr].
    + eapply (client_steps h c x); [done|right; left; by apply r_start].
    + eexists. left. by eapply h_reader_started.
  - destruct (Hcl c) as [x Hc]; [apply (ho_pc h Hh); by rewrite Hpc|]. destruct (decide (keeper x = KStarting)) as [Hr|Hr].
    + eapply (client_steps h c x); [done|right; right; by apply k_start].
    + eexists. left. by eapply h_keeper_started.
  - destruct (Hcl c) as [x Hc]; [apply (ho_pc h Hh); by rewrite Hpc|]. eexists. left. by eapply h_connected.
  - destruct (ho_pc2 h Hh c) as [x Hc]; [by rewrite Hpc|]. destruct (decide (shutdownWaitGroup x = 0)) as [Hz|Hz].
    + eexists. left. by eapply h_waited.
    + pose proof (ho_client h Hh c x Hc) as Hx. assert (phase x = PRemoving) as Hp by (apply (ho_removing h Hh c x Hc); by rewrite Hpc).
      eapply (pumps_move h c x); [done|done|by apply (co_removing x Hx)|]. rewrite <-(co_running x Hx); [done|by right; left].
  - destruct (ho_pc2 h Hh c) as [x Hc]; [by rewrite Hpc|]. destruct (sendChan x) as [|m q] eqn:Hq; eexists; left; [by eapply h_drained|by eapply h_drain].
  - destruct (ho_pc2 h Hh c) as [x Hc]; [by rewrite Hpc|]. eexists. left. by eapply h_disconnected.
  - destruct todo as [|c todo]; [eexists; left; by eapply h_broadcasted|]. destruct (Hcl c) as [x Hc]; [apply (ho_todo h Hh); rewrite Hpc; left|].
    destruct (filter c m) eqn:Hf; eexists; left; [by eapply h_skip|by eapply h_filtered].
  - destruct (Hcl c) as [x Hc]; [apply (ho_todo h Hh); rewrite Hpc; left|]. destruct d; [eexists; left; by eapply h_skip2|].
    destruct (chan_room x) eqn:Hro; eexists; left; [by eapply h_send|by eapply h_drop].
  - destruct (set_choose_or_empty (clients h)) as [[c Hc]|Hc]; [|eexists; left; apply h_exit; [done|by apply leibniz_equiv]].
    destruct (removeClient_returns h c ToShutdown Hh Hc) as [h' Hr]. exists h'. left. by eapply h_shutdown.
Qed.
(** A bound for the steps that are left when the context is done. *)
Definition writer_rank (w : writer_pc) : nat :=
  match w with
  | WNone => 11 | WInner => 10 | WSend _ => 9 | WLoop => 8 | WClosing => 7 | WFlag => 6 | WSelect => 5
  | WUnreg => 4 | WUnreg2 => 3 | WConn => 2 | WDone => 0
  end.
Definition reader_rank (r : reader_pc) : nat :=
  match r with
  | RNone => 11 | RStarting => 10 | ROffer2 => 9 | RRead => 8 | ROffer => 7 | RSelect => 6
  | RUnreg => 5 | RUnreg2 => 4 | RFinish => 3 | RDone => 0
  end.
Definition keeper_rank (k : keeper_pc) : nat :=
  match k with
  | KNone => 11 | KStarting => 10 | KInner => 9 | KPing => 8 | KLoop => 7 | KUnreg => 6 | KUnreg2 => 5
  | KCancel => 4 | KFinish => 3 | KDone => 0
  end.
Definition client_rank (x : Client) : nat :=
  writer_rank (writer x) + reader_rank (reader x) + keeper_rank (keeper x) + length (sendChan x).

Definition resume_rank (k : after_remove) : nat := match k with ToLoop => 2 | ToShutdown => 1 end.
Definition pc_rank (n : nat) (p : hub_pc) : nat :=
  match p with
  | HIdle => 0 | HInner => 4 * n + 40 | HWaitReader _ => 5 | HWaitKeeper _ => 4 | HConnecting _ => 3 | HLoop => 2
  | HRemoveWait _ k => 3 + resume_rank k | HDrain _ k => 2 + resume_rank k | HDisconnecting _ k => 1 + resume_rank k
  | HBroadcast _ _ todo => 3 + 4 * length todo | HBroadcast2 _ _ _ todo => 5 + 4 * length todo
  | HShutdown => 1 | HExited => 0
  end.

Definition shutdown_bound (h : Hub) : nat :=
  sum_list_with client_rank (all_clients h) + 4 * size (clients h) + pc_rank (size (clients h)) (pc h).

Lemma pump_rank rm x x' b : pump_step true rm x x' b → (client_rank x' < client_rank x)%nat.
Proof.
  unfold client_rank.
  intros [Hs|[Hs|Hs]];
    [destruct Hs as [E|E|E|m q E Eq|m E|m E|E|E|E|E|E|E|E|E|E]|destruct Hs as [E|E|E|E|E|E|E|E|E|E|E|E|E|E|E]
    |destruct Hs as [E|E|E|E|E|E|E|E|E|E|E|E|E]];
    try done; cbn; rewrite ?E, ?Eq; cbn; lia.
Qed.

Lemma ranks_insert (l : list Client) c x x' :
  l !! c = Some x → (sum_list_with client_rank (<[c:=x']> l) + client_rank x = sum_list_with client_rank l + client_rank x')%nat.
Proof.
  intros Hc. rewrite insert_take_drop by (by eapply lookup_lt_Some). rewrite <-(take_drop_middle l c x Hc) at 3.
  rewrite !sum_list_with_app. cbn. lia.
Qed.

Lemma client_step_rank h h' : done h = true → client_step h h' → (shutdown_bound h' < shutdown_bound h)%nat.
Proof.
  intros Hd (c & x & x' & b & Hc & Hs & ->). rewrite Hd in Hs. apply pump_rank in Hs. unfold shutdown_bound. cbn.
  pose proof (ranks_insert (all_clients h) c x x' Hc). lia.
Qed.

Lemma removeClient_rank h c k h' :
  c ∈ clients h → removeClient h c k = Ret h' →
  (shutdown_bound h' + 4 = sum_list_with client_rank (all_clients h) + 4 * size (clients h) + 3 + resume_rank k)%nat.
Proof.
  intros Hin. unfold removeClient, close_exit. destruct (all_clients h !! c) as [x|] eqn:Hc; [|done]. cbn.
  destruct (ExitSignal x); [done|]. cbn. intros [= <-]. unfold shutdown_bound. cbn [set_pc set_client set_clients all_clients clients pc pc_rank].
  match goal with |- context [<[c:=?y]> _] => pose proof (ranks_insert (all_clients h) c x y Hc) as Hr end.
  unfold client_rank in Hr at 2 4. cbn in Hr. rewrite size_difference by set_solver. rewrite size_singleton.
  assert (size (clients h) ≠ 0)%nat by (apply size_non_empty_iff; set_solver). lia.
Qed.

(** A step that writes back a client whose rank is not larger. *)
Lemma write_rank h c x x' p :
  all_clients h !! c = Some x → (client_rank x' + pc_rank (size (clients h)) p < client_rank x + pc_rank (size (clients h)) (pc h))%nat →
  (shutdown_bound (set_pc (set_client h c x') p) < shutdown_bound h)%nat.
Proof.
  intros Hc Hlt. unfold shutdown_bound. cbn. pose proof (ranks_insert (all_clients h) c x x' Hc). lia.
Qed.

Lemma pc_rank_lt h p :
  (pc_rank (size (clients h)) p < pc_rank (size (clients h)) (pc h))%nat → (shutdown_bound (set_pc h p) < shutdown_bound h)%nat.
Proof. unfold shutdown_bound. cbn. lia. Qed.

Lemma hub_step_rank h h' : hub_ok h → done h = true → hub_step h h' → (shutdown_bound h' < shutdown_bound h)%nat.
Proof.
  intros Hh Hdn Hs. destruct Hs as [Hpc Hd|Hpc Hd|c r x Hpc Hr Hc|c x Hpc Hc Hrd|c x Hpc Hc Hkp|c x Hpc Hc|c u h' Hpc Hu Hin Hrm|c u Hpc Hu Hin
    |c k x Hpc Hc Hwg|c k x m q Hpc Hc Hq|c k x Hpc Hc Hq|c k x Hpc Hc|m d b todo Hpc Hb Ht|m d c todo Hpc Hf|m d c todo x Hpc Hf Hc Hsk
    |m d c todo x Hpc Hf Hc Hsk|m c todo x Hpc Hc Hsk|m d c todo x Hpc Hc Hro|m c todo x Hpc Hc Hro|m d Hpc|c h' Hpc Hin Hrm|Hpc Hcl];
    try (apply pc_rank_lt; rewrite Hpc; cbn; lia);
    try (by apply (write_rank h c x); [done|]; rewrite Hpc; cbn; unfold client_rank; cbn; lia).
  - apply (pc_rank_lt (set_flag h true)). cbn; destruct Hpc as [-> | ->]; cbn; lia.
  - congruence.
  - pose proof (ranks_insert (all_clients h) c x (start_client x) Hc) as Hi. unfold shutdown_bound. cbn. rewrite Hpc. cbn.
    assert (client_rank (start_client x) ≤ client_rank x + 18)%nat as Hle by (unfold client_rank; cbn; lia).
    assert (size ({[c]} ∪ clients h) ≤ 1 + size (clients h))%nat as Hsz.
    { rewrite <-(size_singleton (C:=gset nat) c). rewrite size_union_alt. apply Nat.add_le_mono_l, subseteq_size. set_solver. }
    lia.
  - apply (write_rank h c x); [done|]. rewrite Hpc. unfold client_rank. cbn.
    assert (phase x = PActive) as Hp by (apply (starting_active h c); [done|by rewrite Hpc|done]).
    pose proof (ho_starting h Hh c x Hc Hp) as Hst. rewrite Hpc, decide_True in Hst by done. rewrite (proj2 Hst eq_refl). cbn. lia.
  - apply (removeClient_rank (set_chans h (broadcast h) (register h) u)) in Hrm; [|done]. cbn in Hrm. unfold shutdown_bound at 2. rewrite Hpc. cbn. lia.
  - apply (pc_rank_lt (set_chans h (broadcast h) (register h) u)). cbn. rewrite Hpc. cbn. lia.
  - pose proof (ranks_insert (all_clients h) c x (set_chan x q (accepted x) (taken x ++ [m])) Hc) as Hi. unfold shutdown_bound. cbn.
    unfold client_rank in Hi at 2 4. cbn in Hi. rewrite Hq in Hi. cbn in Hi. lia.
  - apply (write_rank h c x); [done|]. rewrite Hpc. destruct k; unfold client_rank; cbn; lia.
  - apply (pc_rank_lt (set_chans h b (register h) (unregister h))). cbn. rewrite Hpc, Ht. cbn. change (length (elements (clients h))) with (size (clients h)). lia.
  - apply (write_rank h c x); [done|]. rewrite Hpc. unfold client_rank. cbn. rewrite length_app. cbn. lia.
  - apply removeClient_rank in Hrm; [|done]. unfold shutdown_bound at 2. rewrite Hpc. cbn in *. lia.
Qed.

Lemma inner_step_done h h' : inner_step h h' → done h' = done h.
Proof.
  intros [Hs|(c & x & x' & b & _ & _ & ->)]; [|done]. destruct Hs; try done.
  all: match goal with H : removeClient _ _ _ = Ret _ |- _ => revert H; unfold removeClient, close_exit end.
  all: cbn; destruct (all_clients h !! c); [|done]; cbn; destruct (ExitSignal _); [done|]; by intros [= <-].
Qed.

Lemma shutdown_bounded k h h' : hub_ok h → done h = true → nsteps inner_step k h h' → (k + shutdown_bound h' ≤ shutdown_bound h)%nat.
Proof.
  intros Hh Hd Hs. induction Hs as [h|k h h1 h' Hs Hn IH]; [lia|].
  assert (hub_ok h1) as Hh1 by (apply (any_step_ok h); [unfold any_step; destruct Hs; by eauto|done]).
  assert (done h1 = true) as Hd1 by (rewrite (inner_step_done h h1 Hs); done). specialize (IH Hh1 Hd1).
  assert (shutdown_bound h1 < shutdown_bound h)%nat by (destruct Hs; [by apply hub_step_rank|by apply client_step_rank]). lia.
Qed.

(** ** Properties *)

Lemma alive_zero x : alive x = 0 → writer x = WDone ∧ reader x = RDone ∧ keeper x = KDone.
Proof. unfold alive. destruct (writer x), (reader x), (keeper x); cbn; done || lia. Qed.

Lemma client_ok_counts x :
  client_ok x → (phase x = PActive → connected x = 0 ∨ connected x = 1) →
  (0 ≤ disconnected x ≤ connected x ∧ connected x ≤ 1) ∧
  (disconnected x = 1 → ExitSignal x = true ∧ writer x = WDone ∧ reader x = RDone ∧ keeper x = KDone).
Proof.
  intros [H1 H2 H3 H4 H5 H6 H7 H8 H9] Hact. destruct (phase x) eqn:Hp.
  - destruct (H1 eq_refl) as (_ & _ & _ & _ & ->). rewrite H8 by done. done.
  - specialize (Hact eq_refl). rewrite H8 by done. lia.
  - destruct (H9 eq_refl) as [-> _]. rewrite H8 by done. done.
  - destruct (H7 eq_refl) as (-> & -> & Ha). split; [done|]. intros _. split; [apply H3; by right|by apply alive_zero].
Qed.

Lemma hub_counts h c x : hub_ok h → all_clients h !! c = Some x → phase x = PActive → connected x = 0 ∨ connected x = 1.
Proof. intros Hh Hc Hp. pose proof (ho_starting h Hh c x Hc Hp) as Hs. destruct (decide _); naive_solver. Qed.

Lemma exited_counts h c x : hub_ok h → pc h = HExited → all_clients h !! c = Some x → disconnected x = connected x.
Proof.
  intros Hh Hpc Hc. pose proof (ho_client h Hh c x Hc) as Hx. destruct (phase x) eqn:Hp.
  - destruct (co_waiting x Hx Hp) as (_ & _ & _ & _ & ->). apply (co_not_left x Hx). by rewrite Hp.
  - assert (c ∈ clients h) as Hin by (apply (ho_active h Hh); by exists x). rewrite (ho_exited h Hh Hpc) in Hin. by apply not_elem_of_empty in Hin.
  - apply (ho_removing h Hh c x Hc) in Hp. by rewrite Hpc in Hp.
  - destruct (co_left x Hx Hp) as (-> & -> & _). done.
Qed.

(** C13: in every interleaving of the hub, the goroutines of its clients and its callers, each client
    gets the events [ClientConnected] and [ClientDisconnected] at most once, the second
    after the first and only when its three goroutines have ended; its channels are not closed a
    second time; and what was taken out of [sendChan] is what was put in, in order, with at most
    [clientSendChannelSize] messages waiting. When [Run] has returned, every client that
    connected was disconnected. *)
Theorem WebsocketHub_clients (n : nat) (h : Hub) (Hr : reachable n h) :
  (∀ c x, all_clients h !! c = Some x →
    (0 ≤ disconnected x ≤ connected x ∧ connected x ≤ 1) ∧
    (disconnected x = 1 → ExitSignal x = true ∧ writer x = WDone ∧ reader x = RDone ∧ keeper x = KDone) ∧
    (writer x = WClosing → sendChanClosed x = false) ∧
    taken x ++ sendChan x = accepted x ∧ (length (sendChan x) ≤ clientSendChannelSize)%nat ∧
    (pc h = HExited → disconnected x = connected x)) ∧
  (∀ c k, c ∈ clients h → returns (removeClient h c k)).
Proof.
  apply hub_reachable_ok in Hr as Hh. split.
  - intros c x Hc. pose proof (ho_client h Hh c x Hc) as Hx.
    destruct (client_ok_counts x Hx (hub_counts h c x Hh Hc)) as [H1 H2].
    split; [done|]. split; [done|]. split; [|split; [apply Hx|split; [apply Hx|]]].
    + intros Hw. by rewrite (co_closed x Hx), Hw.
    + intros Hpc. by apply (exited_counts h c).
  - intros c k Hc. by apply removeClient_returns.
Qed.

(** C14: after its context is done [Run] returns: the hub and the goroutines of the clients
    take at most [shutdown_bound] steps, and when none of them can take one the hub has
    removed all its clients and returned. *)
Theorem WebsocketHub_Run_returns (n : nat) (h : Hub) (Hr : reachable n h) (Hd : done h = true) (Hi : pc h ≠ HIdle) :
  (∀ k h', nsteps inner_step k h h' → (k ≤ shutdown_bound h)%nat) ∧
  ((∀ h', ¬ inner_step h h') → pc h = HExited ∧ clients h = ∅).
Proof.
  apply hub_reachable_ok in Hr as Hh. split.
  - intros k h' Hs. pose proof (shutdown_bounded k h h' Hh Hd Hs). lia.
  - intros Hno. destruct (pc h) eqn:Hpc; try (by split; [|apply (ho_exited h Hh)]);
      destruct (shutdown_moves h Hh Hd ltac:(congruence) ltac:(congruence)) as [h' Hs]; by destruct (Hno h').
Qed.
End hub.

Arguments reachable {M} _ _ _ _ _.
Arguments inner_step {M} _ _ _ _.

(** ** A hub with one client *)

Ltac normalise := match goal with |- rtc _ ?h _ => let h' := eval vm_compute in h in change h with h' end.
Ltac hub_goes t := eapply rtc_l; [left; t; done|]; normalise.
Ltac client_goes t := eapply rtc_l; [right; left; exists 0%nat; do 3 eexists; split; [done|]; split; [first [left; t; done | right; left; t; done | right; right; t; done]|done]|]; normalise.
Ltac user_goes t := eapply rtc_l; [right; right; t; done|]; normalise.

Ltac client_connects :=
  user_goes ltac:(apply u_run); user_goes ltac:(apply u_ServeWebsocket, (u_serve _ 0)); user_goes ltac:(eapply u_ServeWebsocket, (u_register_default _ 0));
  user_goes ltac:(eapply u_ServeWebsocket, (u_register_send _ 0)); hub_goes ltac:(apply h_default); hub_goes ltac:(eapply h_register);
  client_goes ltac:(apply r_start); hub_goes ltac:(eapply h_reader_started); client_goes ltac:(apply k_start);
  hub_goes ltac:(eapply h_keeper_started); hub_goes ltac:(eapply h_connected).

(** [removeClient] (hub.go:160) waits for the goroutines of the client, and they wait for
    room in [unregister], which only the hub makes: when the reader, the writer and the keeper of a client
    fail at the same time, the hub stops for good. *)
Lemma removeClient_deadlock :
  ∃ h, reachable (M:=unit) 1 1 (λ _ _, true) 1 h ∧ done h = false ∧ pc h = HRemoveWait 0 ToLoop ∧ ∀ h', ¬ inner_step 1 (λ _ _, true) h h'.
Proof.
  eexists. split_and!.
  - unfold reachable, NewHub. cbn [replicate].
    client_connects.
    client_goes ltac:(apply r_error). client_goes ltac:(apply r_select_default). client_goes ltac:(apply r_unreg_default).
    client_goes ltac:(apply w_default). user_goes ltac:(eapply u_Send, (u_send _ _ 0 0 _ tt false)). user_goes ltac:(eapply u_Send, (u_send_default _ _ 0)).
    user_goes ltac:(eapply u_Send, (u_send_send _ _ 0)). client_goes ltac:(eapply w_receive). client_goes ltac:(eapply w_failed).
    client_goes ltac:(apply w_closing). client_goes ltac:(apply w_flag). client_goes ltac:(apply w_select_default).
    client_goes ltac:(apply w_unreg_default). client_goes ltac:(apply k_default). client_goes ltac:(apply k_timer).
    client_goes ltac:(apply k_failed). client_goes ltac:(apply k_unreg_default). client_goes ltac:(apply r_unreg2_send).
    hub_goes ltac:(apply h_default). hub_goes ltac:(eapply (h_unregister _ _ _ 0); [done|done|apply (bool_decide_unpack _); done|]).
    client_goes ltac:(apply w_unreg2_send). client_goes ltac:(apply w_conn). client_goes ltac:(apply r_finish).
    apply rtc_refl.
  - done.
  - done.
  - cbn. intros h' [Hs|(c & x & x' & b & Hc & Hs & _)].
    + inversion Hs; subst; cbn in *; try done; simplify_eq/=; try done.
    + destruct c as [|c]; [|done]. injection Hc as <-. destruct Hs as [Hs|[Hs|Hs]]; inversion Hs; done.
Qed.

Lemma hub_with_client :
  ∃ h, reachable (M:=unit) 1 1 (λ _ _, true) 1 h ∧ done h = true ∧ pc h = HLoop ∧ ∃ x, all_clients h !! 0%nat = Some x ∧ connected x = 1.
Proof.
  eexists. split; [|split; [|split; [|eexists; split]]].
  - unfold reachable, NewHub. cbn [replicate]. client_connects. user_goes ltac:(apply u_cancel). apply rtc_refl.
  - done.
  - done.
  - done.
  - done.
Qed.

Lemma WebsocketHub_clients_witness :
  ∃ h, reachable (M:=unit) 1 1 (λ _ _, true) 1 h ∧ (∃ x, all_clients h !! 0%nat = Some x ∧ connected x = 1) ∧
    ∀ x, all_clients h !! 0%nat = Some x → (length (sendChan x) ≤ 1)%nat.
Proof.
  destruct hub_with_client as (h & Hr & _ & _ & Hx). exists h. split; [done|]. split; [done|].
  intros x Hc. by destruct (proj1 (WebsocketHub_clients 1 1 (λ _ _, true) 1 h Hr) _ _ Hc) as (_ & _ & _ & _ & ? & _).
Defined.

Lemma WebsocketHub_Run_returns_witness :
  ∃ h, reachable (M:=unit) 1 1 (λ _ _, true) 1 h ∧ done h = true ∧ pc h ≠ HIdle ∧
    ∀ k h', nsteps (inner_step 1 (λ _ _, true)) k h h' → (k ≤ shutdown_bound h)%nat.
Proof.
  destruct hub_with_client as (h & Hr & Hd & Hpc & _). exists h. split; [done|]. split; [done|].
  assert (pc h ≠ HIdle) as Hi by (by rewrite Hpc). split; [done|]. exact (proj1 (WebsocketHub_Run_returns 1 1 (λ _ _, true) 1 h Hr Hd Hi)).
Defined.
