(* ===== verification/Heap.v ===== *)
(** * ds/generalheap and the functions of container/heap it is used with

    [src/ds/generalheap/generalheap.go].  The elements are shared objects: their
    key and value never change, their [index] does, so a heap is the slice of
    its elements and the table of their indices (-1 for an element that was
    taken out).  [up], [down], [Push], [Pop] and [Remove] are those of Go's
    [container/heap]; their loops run on fuel that the theorems show to be
    enough. *)

From S2P Require Import Prelude.

(** The interface [Comparable] and what an ordering has to satisfy. *)
Class Comparable (K : Type) : Type := CompareTo : K → K → Z.

Definition key_le {K} `{Comparable K} (a b : K) : Prop := CompareTo a b ≤ 0.

Class ComparableLaws (K : Type) `{Comparable K} : Prop := {
  key_le_refl a : key_le a a;
  key_le_trans a b c : key_le a b → key_le b c → key_le a c;
  CompareTo_lt a b : CompareTo a b < 0 ↔ ¬ key_le b a;
}.

(** Integers with the usual comparison. *)
#[global] Instance Z_comparable : Comparable Z := λ a b, a - b.
#[global] Instance Z_comparable_laws : ComparableLaws Z.
Proof. split; unfold key_le, CompareTo, Z_comparable; lia. Qed.

Section heap.
Context {K V : Type} `{Comparable K}.

Record HeapElement : Type := mkElement { e_id : positive; Key : K; Value : V }.

Record Heap : Type := mkHeap {
  elems : list HeapElement;
  indices : gmap positive Z;
}.

(** [h.index] of an element. *)
Definition Index (h : Heap) (id : positive) : Z := default (-1) (indices h !! id).

(** ** The methods of [heap.Interface] *)

Definition Len (h : Heap) : Z := len (elems h).

Definition Less (h : Heap) (i j : Z) : outcome bool :=
  a ← index (elems h) i;
  b ← index (elems h) j;
  Ret (CompareTo (Key a) (Key b) <? 0).

Definition Swap (h : Heap) (i j : Z) : outcome Heap :=
  a ← index (elems h) i;
  b ← index (elems h) j;
  l ← store (elems h) i b;
  l ← store l j a;
  Ret {| elems := l; indices := <[e_id a:=j]> (<[e_id b:=i]> (indices h)) |}.

Definition heap_Push (h : Heap) (data : HeapElement) : Heap :=
  {| elems := elems h ++ [data]; indices := <[e_id data:=len (elems h)]> (indices h) |}.

Definition heap_Pop (h : Heap) : outcome (Heap * HeapElement) :=
  let n := len (elems h) in
  data ← index (elems h) (n - 1);
  l ← slice_to (elems h) (n - 1);
  Ret ({| elems := l; indices := <[e_id data:=-1]> (indices h) |}, data).

(** ** container/heap *)

Fixpoint up (fuel : nat) (h : Heap) (j : Z) : outcome Heap :=
  match fuel with
  | O => Panic "out of fuel"
  | S fuel =>
      let i := Z.quot (j - 1) 2 in
      if i =? j then Ret h
      else
        less ← Less h j i;
        if negb less then Ret h
        else h ← Swap h i j; up fuel h i
  end.

(** The smaller child. *)
Definition child (j1 : Z) (takeRight : bool) : Z := if takeRight then j1 + 1 else j1.

(** The heap and the index the loop ended at. *)
Fixpoint down (fuel : nat) (h : Heap) (i n : Z) : outcome (Heap * Z) :=
  match fuel with
  | O => Panic "out of fuel"
  | S fuel =>
      let j1 := 2 * i + 1 in
      if (j1 >=? n) || (j1 <? 0) then Ret (h, i)
      else
        takeRight ← (if j1 + 1 <? n then Less h (j1 + 1) j1 else Ret false);
        let j := child j1 takeRight in
        less ← Less h j i;
        if negb less then Ret (h, i)
        else h ← Swap h i j; down fuel h j n
  end.

Definition fuel_of (h : Heap) : nat := S (length (elems h)).

Definition Push (h : Heap) (x : HeapElement) : outcome Heap :=
  let h := heap_Push h x in
  up (fuel_of h) h (Len h - 1).

Definition Pop (h : Heap) : outcome (Heap * HeapElement) :=
  let n := Len h - 1 in
  h ← Swap h 0 n;
  '(h, _) ← down (fuel_of h) h 0 n;
  heap_Pop h.

Definition Remove (h : Heap) (i : Z) : outcome (Heap * HeapElement) :=
  let n := Len h - 1 in
  h ← (if negb (n =? i) then
         h ← Swap h i n;
         '(h, i') ← down (fuel_of h) h i n;
         if i' >? i then Ret h else up (fuel_of h) h i
       else Ret h);
  heap_Pop h.

(** ** The invariant *)

(** Each element knows its place. *)
Definition indexed (h : Heap) : Prop :=
  ∀ i e, elems h !! i = Some e → indices h !! e_id e = Some (Z.of_nat i).

Definition parent (i : nat) : nat := ((i - 1) / 2)%nat.

(** The element at [c] is not smaller than its parent. *)
Definition good (l : list HeapElement) (c : nat) : Prop :=
  ∀ a b, l !! parent c = Some a → l !! c = Some b → key_le (Key a) (Key b).

(** The heap property of the first [n] elements. *)
Definition heap_ordered (l : list HeapElement) (n : nat) : Prop :=
  ∀ c, (0 < c < n)%nat → good l c.

Record heap_ok (h : Heap) : Prop := {
  ho_order : heap_ordered (elems h) (length (elems h));
  ho_index : indexed h;
  (* elements that were taken out know it *)
  ho_out id i : indices h !! id = Some i → i ≠ -1 → ∃ e, e ∈ elems h ∧ e_id e = id;
}.

(** ** Places *)

Lemma parent_lt c : (0 < c)%nat → (parent c < c)%nat.
Proof. intros Hc. unfold parent. pose proof (Nat.div_le_upper_bound (c - 1) 2 (c - 1)). lia. Qed.

Lemma parent_children c i : (0 < c)%nat → parent c = i ↔ c = (2 * i + 1)%nat ∨ c = (2 * i + 2)%nat.
Proof.
  intros Hc. unfold parent. pose proof (Nat.div_mod (c - 1) 2 ltac:(lia)).
  pose proof (Nat.mod_upper_bound (c - 1) 2 ltac:(lia)). lia.
Qed.

Lemma parent_quot (j : nat) : (0 < j)%nat → Z.quot (Z.of_nat j - 1) 2 = Z.of_nat (parent j).
Proof.
  intros Hj. rewrite Z.quot_div_nonneg by lia. unfold parent.
  rewrite Nat2Z.inj_div, Nat2Z.inj_sub by lia. done.
Qed.

(** ** Swaps *)

Definition swap_list (l : list HeapElement) (i j : nat) (a b : HeapElement) : list HeapElement :=
  <[j:=a]> (<[i:=b]> l).

Lemma swap_lookup l i j a b c :
  l !! i = Some a → l !! j = Some b →
  swap_list l i j a b !! c =
    if decide (c = j) then Some a else if decide (c = i) then Some b else l !! c.
Proof.
  intros Hi Hj. unfold swap_list.
  pose proof (lookup_lt_Some _ _ _ Hi). pose proof (lookup_lt_Some _ _ _ Hj).
  destruct (decide (c = j)) as [->|]; [by rewrite list_lookup_insert_eq by (rewrite length_insert; lia)|].
  rewrite list_lookup_insert_ne by done.
  destruct (decide (c = i)) as [->|]; [by rewrite list_lookup_insert_eq by lia|].
  by rewrite list_lookup_insert_ne.
Qed.

Lemma swap_perm l i j a b :
  l !! i = Some a → l !! j = Some b → swap_list l i j a b ≡ₚ l.
Proof.
  intros Hi Hj. destruct (decide (i = j)) as [->|Hne].
  - simplify_eq. unfold swap_list. by rewrite !list_insert_id by (rewrite ?list_insert_id; done).
  - unfold swap_list. by apply Permutation_insert_swap.
Qed.

(** Rearranging the elements of a heap. *)
Record shuffle (h h' : Heap) : Prop := {
  sh_perm : elems h' ≡ₚ elems h;
  sh_index : indexed h → indexed h';
  sh_others id : (∀ e, e ∈ elems h → e_id e ≠ id) → indices h' !! id = indices h !! id;
}.

Lemma shuffle_refl h : shuffle h h.
Proof. by split. Qed.

Lemma shuffle_trans h1 h2 h3 : shuffle h1 h2 → shuffle h2 h3 → shuffle h1 h3.
Proof.
  intros [P1 I1 O1] [P2 I2 O2]. split; [by rewrite P2|auto|].
  intros id Hid. rewrite O2, O1; [done|done|]. intros e He. apply Hid. by rewrite <-P1.
Qed.

Lemma indexed_unique h i j e e' :
  indexed h → elems h !! i = Some e → elems h !! j = Some e' → e_id e = e_id e' → i = j.
Proof. intros Hx Hi%Hx Hj%Hx Heq. rewrite Heq in Hi. simplify_eq. lia. Qed.

Lemma Swap_spec h (i j : nat) a b :
  elems h !! i = Some a → elems h !! j = Some b →
  ∃ h', Swap h (Z.of_nat i) (Z.of_nat j) = Ret h' ∧ elems h' = swap_list (elems h) i j a b ∧ shuffle h h'.
Proof.
  intros Hi Hj. pose proof (lookup_lt_Some _ _ _ Hi). pose proof (lookup_lt_Some _ _ _ Hj).
  unfold Swap. rewrite (index_nat _ _ _ Hi), (index_nat _ _ _ Hj). cbn [mbind outcome_bind].
  rewrite store_nat by done. cbn [mbind outcome_bind]. rewrite store_nat by (rewrite length_insert; done).
  cbn [mbind outcome_bind]. eexists. split; [done|]. split; [done|]. split; simpl.
  - by apply swap_perm.
  - intros Hx c e. cbn [elems indices]. change (<[j:=a]> (<[i:=b]> (elems h))) with (swap_list (elems h) i j a b).
    rewrite (swap_lookup _ _ _ _ _ _ Hi Hj).
    destruct (decide (c = j)) as [->|Hcj].
    { intros [= <-]. by rewrite lookup_insert_eq. }
    destruct (decide (c = i)) as [->|Hci].
    { intros [= <-]. rewrite lookup_insert_ne, lookup_insert_eq; [done|].
      intros E. apply Hcj. by apply (indexed_unique h i j a b). }
    intros Hc. rewrite !lookup_insert_ne; [by apply Hx| |]; intros E.
    + apply Hcj. by apply (indexed_unique h c j e b).
    + apply Hci. by apply (indexed_unique h c i e a).
  - intros id Hid. rewrite !lookup_insert_ne; [done| |]; apply Hid; by eapply list_elem_of_lookup_2.
Qed.

(** ** Sifting up *)

Context `{!ComparableLaws K}.

Lemma Less_spec h (i j : nat) a b :
  elems h !! i = Some a → elems h !! j = Some b →
  ∃ r, Less h (Z.of_nat i) (Z.of_nat j) = Ret r ∧
    (if r then key_le (Key a) (Key b) else key_le (Key b) (Key a)).
Proof.
  intros Hi Hj. unfold Less. rewrite (index_nat _ _ _ Hi), (index_nat _ _ _ Hj). cbn [mbind outcome_bind].
  eexists. split; [done|]. destruct (Z.ltb_spec (CompareTo (Key a) (Key b)) 0) as [Hlt|Hge].
  - unfold key_le. lia.
  - destruct (decide (CompareTo (Key b) (Key a) ≤ 0)) as [|Hn]; [done|].
    apply CompareTo_lt in Hn. lia.
Qed.

(** Lookups after a swap that are known. *)
Ltac swap_at H Hi Hj :=
  rewrite (swap_lookup _ _ _ _ _ _ Hi Hj) in H;
  repeat first [rewrite decide_True in H by lia | rewrite decide_False in H by lia].

(** One round of [up]: the element moves to its parent. *)
Lemma up_round l j n a b :
  (0 < j < n)%nat → l !! parent j = Some b → l !! j = Some a → key_le (Key a) (Key b) →
  (∀ c, (0 < c < n)%nat → c ≠ j → good l c) →
  (∀ c g d, (0 < c < n)%nat → parent c = j → l !! parent j = Some g → l !! c = Some d → key_le (Key g) (Key d)) →
  let l' := swap_list l (parent j) j b a in
  (∀ c, (0 < c < n)%nat → c ≠ parent j → good l' c) ∧
  (∀ c g d, (0 < c < n)%nat → parent c = parent j → (0 < parent j)%nat → l' !! parent (parent j) = Some g →
     l' !! c = Some d → key_le (Key g) (Key d)).
Proof.
  intros Hj Hb Ha Hle H1 H2 l'. pose proof (parent_lt j ltac:(lia)) as Hp. split.
  - intros c Hc Hne x y Hx Hy. pose proof (parent_lt c ltac:(lia)).
    destruct (decide (c = j)) as [->|Hcj].
    { swap_at Hx Hb Ha. swap_at Hy Hb Ha. by simplify_eq. }
    swap_at Hy Hb Ha. destruct (decide (parent c = j)) as [Hpj|Hpj].
    { rewrite Hpj in Hx. swap_at Hx Hb Ha. simplify_eq. by apply (H2 c). }
    destruct (decide (parent c = parent j)) as [Hpp|Hpp].
    { rewrite Hpp in Hx. swap_at Hx Hb Ha. simplify_eq.
      apply key_le_trans with (Key b); [done|]. apply (H1 c); [done..|by rewrite Hpp|done]. }
    swap_at Hx Hb Ha. by apply (H1 c).
  - intros c g d Hc Hpc Hpos Hg Hd. pose proof (parent_lt (parent j) Hpos).
    swap_at Hg Hb Ha.
    assert (key_le (Key g) (Key b)) as Hgb by (apply (H1 (parent j)); [lia|lia|done|done]).
    destruct (decide (c = j)) as [->|Hcj]; [swap_at Hd Hb Ha; by simplify_eq|].
    pose proof (parent_lt c ltac:(lia)).
    swap_at Hd Hb Ha. apply key_le_trans with (Key b); [done|].
    apply (H1 c); [lia|lia|by rewrite Hpc|done].
Qed.

Lemma up_spec fuel h (j n : nat) :
  (j < n)%nat → (n ≤ length (elems h))%nat → (j < fuel)%nat →
  (∀ c, (0 < c < n)%nat → c ≠ j → good (elems h) c) →
  (∀ c g d, (0 < c < n)%nat → parent c = j → (0 < j)%nat → elems h !! parent j = Some g →
     elems h !! c = Some d → key_le (Key g) (Key d)) →
  ∃ h', up fuel h (Z.of_nat j) = Ret h' ∧ shuffle h h' ∧ heap_ordered (elems h') n ∧
    ∀ c, (n ≤ c)%nat → elems h' !! c = elems h !! c.
Proof.
  revert h j. induction fuel as [|fuel IH]; intros h j Hj Hn Hf H1 H2; [lia|]. cbn [up].
  destruct (decide (j = 0)%nat) as [->|Hj0].
  { exists h. split; [done|]. split; [apply shuffle_refl|]. split; [|done].
    intros c Hc. apply H1; lia. }
  rewrite parent_quot by lia. pose proof (parent_lt j ltac:(lia)) as Hp.
  rewrite (proj2 (Z.eqb_neq _ _)) by lia.
  destruct (lookup_lt_is_Some_2 (elems h) j ltac:(lia)) as [a Ha].
  destruct (lookup_lt_is_Some_2 (elems h) (parent j) ltac:(lia)) as [b Hb].
  destruct (Less_spec h j (parent j) a b Ha Hb) as (r & -> & Hr). cbn [mbind outcome_bind].
  destruct r; cbn [negb].
  - destruct (Swap_spec h (parent j) j b a Hb Ha) as (h1 & -> & Hel & Hsh). cbn [mbind outcome_bind].
    destruct (up_round (elems h) j n a b) as [G1 G2]; [lia|done..| |].
    { intros c g d Hc Hpc. by apply H2; [| |lia]. }
    rewrite <-Hel in G1, G2.
    destruct (IH h1 (parent j)) as (h' & -> & Hsh' & Ho & Hrest); [lia| |lia|done| |].
    { by rewrite (sh_perm _ _ Hsh). }
    { intros c g d Hc Hpc Hpos. by apply G2. }
    exists h'. split; [done|]. split; [by eapply shuffle_trans|]. split; [done|].
    intros c Hc. rewrite Hrest by done. rewrite Hel, (swap_lookup _ _ _ _ _ _ Hb Ha).
    by rewrite !decide_False by lia.
  - exists h. split; [done|]. split; [apply shuffle_refl|]. split; [|done].
    intros c Hc. destruct (decide (c = j)) as [->|]; [|by apply H1].
    intros x y Hx Hy. by simplify_eq.
Qed.

(** ** Sifting down *)

Lemma down_round l i j n x y :
  (i < n)%nat → (0 < j < n)%nat → parent j = i → l !! i = Some x → l !! j = Some y →
  key_le (Key y) (Key x) →
  (∀ c z, (0 < c < n)%nat → parent c = i → l !! c = Some z → key_le (Key y) (Key z)) →
  (∀ c, (0 < c < n)%nat → c ≠ i → parent c ≠ i → good l c) →
  (∀ c g d, (0 < c < n)%nat → parent c = i → (0 < i)%nat → l !! parent i = Some g →
     l !! c = Some d → key_le (Key g) (Key d)) →
  let l' := swap_list l i j x y in
  (∀ c, (0 < c < n)%nat → parent c ≠ j → good l' c) ∧
  (∀ c g d, (0 < c < n)%nat → parent c = j → l' !! parent j = Some g →
     l' !! c = Some d → key_le (Key g) (Key d)).
Proof.
  intros Hi Hj Hpj Hx Hy Hle Hmin H1 H2 l'. pose proof (parent_lt j ltac:(lia)) as Hp. split.
  - intros c Hc Hpc a b Ha Hb. pose proof (parent_lt c ltac:(lia)).
    destruct (decide (parent c = i)) as [Hpi|Hpi].
    + rewrite Hpi in Ha. swap_at Ha Hx Hy. simplify_eq.
      destruct (decide (c = j)) as [->|Hcj]; [swap_at Hb Hx Hy; by simplify_eq|].
      swap_at Hb Hx Hy. by apply (Hmin c).
    + swap_at Ha Hx Hy. assert (c ≠ j) by congruence.
      destruct (decide (c = i)) as [->|Hci].
      * swap_at Hb Hx Hy. simplify_eq. apply (H2 j); try done. lia.
      * swap_at Hb Hx Hy. by apply (H1 c).
  - intros c g d Hc Hpc Hg Hd. rewrite Hpj in Hg. swap_at Hg Hx Hy. simplify_eq.
    pose proof (parent_lt c ltac:(lia)). swap_at Hd Hx Hy.
    apply (H1 c); [lia|lia|lia|done|done].
Qed.

(** The children of [i], and the smaller of them. *)
Lemma pick_child h (i n : nat) :
  (n ≤ length (elems h))%nat → (2 * i + 1 < n)%nat →
  ∃ r (j : nat) y,
    (if 2 * Z.of_nat i + 1 + 1 <? Z.of_nat n
     then Less h (2 * Z.of_nat i + 1 + 1) (2 * Z.of_nat i + 1) else Ret false) = Ret r ∧
    child (2 * Z.of_nat i + 1) r = Z.of_nat j ∧ (0 < j < n)%nat ∧ parent j = i ∧
    elems h !! j = Some y ∧
    ∀ c z, (0 < c < n)%nat → parent c = i → elems h !! c = Some z → key_le (Key y) (Key z).
Proof.
  intros Hn Hi. unfold child.
  replace (2 * Z.of_nat i + 1) with (Z.of_nat (2 * i + 1)) by lia.
  replace (Z.of_nat (2 * i + 1) + 1) with (Z.of_nat (2 * i + 2)) by lia.
  destruct (lookup_lt_is_Some_2 (elems h) (2 * i + 1) ltac:(lia)) as [y1 Hy1].
  destruct (Z.ltb_spec (Z.of_nat (2 * i + 2)) (Z.of_nat n)).
  - destruct (lookup_lt_is_Some_2 (elems h) (2 * i + 2) ltac:(lia)) as [y2 Hy2].
    destruct (Less_spec h (2 * i + 2) (2 * i + 1) y2 y1 Hy2 Hy1) as (r & Hr & Hle).
    exists r. destruct r; [exists (2 * i + 2)%nat, y2|exists (2 * i + 1)%nat, y1];
      (split_and!; try done; try lia; [apply parent_children; lia|]);
      intros c z Hc Hpc Hz; apply parent_children in Hpc as [->| ->]; try lia; simplify_eq; try done;
      apply key_le_refl.
  - exists false, (2 * i + 1)%nat, y1. split_and!; try done; try lia; [apply parent_children; lia|].
    intros c z Hc Hpc Hz. apply parent_children in Hpc as [->| ->]; try lia. simplify_eq. apply key_le_refl.
Qed.

Lemma down_spec fuel h (i n : nat) :
  (n ≤ length (elems h))%nat → (n - i < fuel)%nat →
  (∀ c, (0 < c < n)%nat → c ≠ i → parent c ≠ i → good (elems h) c) →
  (∀ c g d, (0 < c < n)%nat → parent c = i → (0 < i)%nat → elems h !! parent i = Some g →
     elems h !! c = Some d → key_le (Key g) (Key d)) →
  ∃ h' (i' : nat), down fuel h (Z.of_nat i) (Z.of_nat n) = Ret (h', Z.of_nat i') ∧ shuffle h h' ∧
    (i ≤ i')%nat ∧ (∀ c, (n ≤ c)%nat → elems h' !! c = elems h !! c) ∧
    (i' = i → h' = h ∧ ∀ c, (0 < c < n)%nat → parent c = i → good (elems h) c) ∧
    (i' ≠ i → heap_ordered (elems h') n).
Proof.
  revert h i. induction fuel as [|fuel IH]; intros h i Hn Hf H1 H2; [lia|]. cbn [down].
  rewrite Z.geb_leb, (proj2 (Z.ltb_ge (2 * Z.of_nat i + 1) 0)) by lia. rewrite orb_false_r.
  destruct (Z.leb_spec (Z.of_nat n) (2 * Z.of_nat i + 1)).
  { exists h, i. split; [done|]. split; [apply shuffle_refl|]. split; [lia|]. split; [done|].
    split; [|done]. intros _. split; [done|]. intros c Hc Hpc. apply parent_children in Hpc; lia. }
  destruct (pick_child h i n Hn ltac:(lia)) as (r & j & y & -> & Hch & Hj & Hpj & Hy & Hmin).
  cbn [mbind outcome_bind]. cbv zeta. rewrite Hch. pose proof (parent_lt j ltac:(lia)) as Hlt.
  destruct (lookup_lt_is_Some_2 (elems h) i ltac:(lia)) as [x Hx].
  destruct (Less_spec h j i y x Hy Hx) as (b & -> & Hb). cbn [mbind outcome_bind].
  destruct b; cbn [negb].
  2:{ exists h, i. split; [done|]. split; [apply shuffle_refl|]. split; [lia|]. split; [done|].
      split; [|done]. intros _. split; [done|]. intros c Hc Hpc a d Ha Hd. rewrite Hpc in Ha. simplify_eq.
      apply key_le_trans with (Key y); [done|]. by apply (Hmin c). }
  destruct (Swap_spec h i j x y Hx Hy) as (h1 & -> & Hel & Hsh). cbn [mbind outcome_bind].
  destruct (down_round (elems h) i j n x y) as [G1 G2]; [lia|done..|]. rewrite <-Hel in G1, G2.
  destruct (IH h1 j) as (h' & i' & -> & Hsh' & Hle & Hrest & Hsame & Hmoved);
    [by rewrite (sh_perm _ _ Hsh)|lia|intros c Hc _ Hpc; by apply G1|intros c g d Hc Hpc _; by apply G2|].
  exists h', i'. split; [done|]. split; [by eapply shuffle_trans|]. split; [lia|]. split.
  { intros c Hc. rewrite Hrest, Hel, (swap_lookup _ _ _ _ _ _ Hx Hy) by done. by rewrite !decide_False by lia. }
  split; [lia|]. intros _. destruct (decide (i' = j)) as [->|]; [|by apply Hmoved].
  destruct (Hsame eq_refl) as [-> Hj']. intros c Hc.
  destruct (decide (parent c = j)); [by apply Hj'|by apply G1].
Qed.

(** ** The operations *)

(** An index other than -1 belongs to an element of the heap. *)
Definition tracked (h : Heap) : Prop :=
  ∀ id i, indices h !! id = Some i → i ≠ -1 → ∃ e, e ∈ elems h ∧ e_id e = id.

Lemma shuffle_tracked h h' : shuffle h h' → indexed h → tracked h → tracked h'.
Proof.
  intros Hsh Hx Ht id i Hid Hi.
  destruct (decide (Exists (λ e, e_id e = id) (elems h))) as [Hex|Hne].
  - apply Exists_exists in Hex as (e & He & Heid). exists e. by rewrite (sh_perm _ _ Hsh).
  - rewrite (sh_others _ _ Hsh) in Hid.
    + destruct (Ht id i Hid Hi) as (e & He & Heid). exists e. by rewrite (sh_perm _ _ Hsh).
    + intros e He Heid. apply Hne, Exists_exists. by exists e.
Qed.

Lemma heap_ok_tracked h : heap_ok h → tracked h.
Proof. intros Hh id i. apply (ho_out _ Hh). Qed.

(** Taking the last element off. *)
Lemma heap_Pop_spec h n a :
  length (elems h) = S n → elems h !! n = Some a → heap_ordered (elems h) n → indexed h → tracked h →
  ∃ h', heap_Pop h = Ret (h', a) ∧ heap_ok h' ∧ elems h ≡ₚ a :: elems h' ∧ Index h' (e_id a) = -1.
Proof.
  intros Hlen Ha Ho Hx Ht. unfold heap_Pop. cbv zeta.
  replace (len (elems h) - 1) with (Z.of_nat n) by (unfold len; lia).
  rewrite (index_nat _ _ _ Ha). cbn [mbind outcome_bind]. rewrite slice_to_nat by lia.
  cbn [mbind outcome_bind]. eexists. split; [done|].
  assert (elems h = take n (elems h) ++ [a]) as Hsplit.
  { rewrite <-(take_drop n (elems h)) at 1. f_equal. rewrite (drop_S _ a n Ha). by rewrite drop_ge by lia. }
  split; [split|split]; cbn [elems indices].
  - rewrite length_take, Nat.min_l by lia. intros c Hc x y Hpx Hcy. pose proof (parent_lt c ltac:(lia)).
    rewrite lookup_take_lt in Hpx, Hcy by lia. by apply (Ho c).
  - intros c e Hc. cbn [elems indices] in *. apply lookup_take_Some in Hc as [Hc Hlt].
    rewrite lookup_insert_ne; [by apply Hx|]. intros E.
    assert (n = c) by (by apply (indexed_unique h n c a e)). lia.
  - intros id i Hid Hi. destruct (decide (id = e_id a)) as [->|Hne].
    { rewrite lookup_insert_eq in Hid. by simplify_eq. }
    rewrite lookup_insert_ne in Hid by done. destruct (Ht id i Hid Hi) as (e & He & Heid).
    exists e. split; [|done]. rewrite Hsplit, elem_of_app, list_elem_of_singleton in He.
    destruct He as [| ->]; done.
  - rewrite Hsplit at 1. apply Permutation_app_comm.
  - unfold Index. cbn [indices]. by rewrite lookup_insert_eq.
Qed.

Lemma Push_ok h x :
  heap_ok h → indices h !! e_id x = None →
  ∃ h', Push h x = Ret h' ∧ heap_ok h' ∧ elems h' ≡ₚ x :: elems h.
Proof.
  intros [Ho Hx Hout] Hfresh. unfold Push. set (h1 := heap_Push h x).
  assert (length (elems h1) = S (length (elems h))) as Hlen.
  { unfold h1. simpl. rewrite length_app. simpl. lia. }
  assert (indexed h1) as Hx1.
  { intros i e. unfold h1. cbn [elems indices heap_Push]. rewrite lookup_snoc_Some. intros [Hi|[-> ->]].
    - rewrite lookup_insert_ne; [by apply Hx|]. intros E. apply Hx in Hi. rewrite <-E in Hi. congruence.
    - by rewrite lookup_insert_eq. }
  assert (tracked h1) as Ht1.
  { intros id i. unfold h1. cbn [elems indices heap_Push]. destruct (decide (id = e_id x)) as [->|Hne].
    - intros _ _. exists x. split; [|done]. apply elem_of_app. right. by apply list_elem_of_singleton.
    - rewrite lookup_insert_ne by done. intros Hid Hi. destruct (Hout id i Hid Hi) as (e & He & ?).
      exists e. split; [|done]. apply elem_of_app. by left. }
  replace (Len h1 - 1) with (Z.of_nat (length (elems h))) by (unfold Len, len; lia).
  destruct (up_spec (fuel_of h1) h1 (length (elems h)) (S (length (elems h)))) as (h' & Hup & Hsh & Ho' & _);
    [lia|lia|unfold fuel_of; lia| | |].
  - intros c Hc Hne a b Ha Hb. pose proof (parent_lt c ltac:(lia)). unfold h1 in Ha, Hb. simpl in Ha, Hb.
    rewrite lookup_app_l in Ha, Hb by lia. apply (Ho c); [lia|done..].
  - intros c g d Hc Hpc. apply parent_children in Hpc; lia.
  - exists h'. split; [done|]. pose proof (sh_perm _ _ Hsh) as Hp. split.
    + assert (length (elems h') = S (length (elems h))) as Hl by (by rewrite Hp, Hlen).
      split; [by rewrite Hl|by apply (sh_index _ _ Hsh)|].
      by apply (shuffle_tracked h1 h' Hsh Hx1 Ht1).
    + rewrite Hp. unfold h1. simpl. by rewrite Permutation_app_comm.
Qed.

(** The root is minimal. *)
Lemma root_minimal l n a c b :
  heap_ordered l n → (c < n)%nat → l !! 0%nat = Some a → l !! c = Some b → key_le (Key a) (Key b).
Proof.
  intros Ho Hc Ha. revert b. induction (lt_wf c) as [c _ IH]. intros b Hb.
  destruct (decide (c = 0)%nat) as [->|Hc0]; [simplify_eq; apply key_le_refl|].
  pose proof (parent_lt c ltac:(lia)) as Hp. pose proof (lookup_lt_Some _ _ _ Hb).
  destruct (lookup_lt_is_Some_2 l (parent c) ltac:(lia)) as [d Hd].
  apply key_le_trans with (Key d); [apply (IH (parent c)); [lia|lia|done]|]. apply (Ho c); [lia|done..].
Qed.

Lemma Pop_ok h :
  heap_ok h → elems h ≠ [] →
  ∃ h' e, Pop h = Ret (h', e) ∧ heap_ok h' ∧ elems h ≡ₚ e :: elems h' ∧
    elems h !! 0%nat = Some e ∧ (∀ e', e' ∈ elems h → key_le (Key e) (Key e')) ∧ Index h' (e_id e) = -1.
Proof.
  intros Hh Hne. pose proof Hh as [Ho Hx Hout]. unfold Pop, Len, len.
  destruct (length (elems h)) as [|n] eqn:Hlen; [by destruct (elems h)|].
  replace (Z.of_nat (S n) - 1) with (Z.of_nat n) by lia.
  destruct (lookup_lt_is_Some_2 (elems h) 0 ltac:(lia)) as [a Ha].
  destruct (lookup_lt_is_Some_2 (elems h) n ltac:(lia)) as [b Hb].
  destruct (Swap_spec h 0 n a b Ha Hb) as (h1 & Hsw & Hel & Hsh). change (Z.of_nat 0) with 0 in Hsw.
  rewrite Hsw. cbn [mbind outcome_bind].
  assert (length (elems h1) = S n) as Hlen1 by (by rewrite (sh_perm _ _ Hsh)).
  assert (∀ c, (0 < c < n)%nat → parent c ≠ 0%nat → good (elems h1) c) as Hg.
  { intros c Hc Hpc x y Hpx Hcy. pose proof (parent_lt c ltac:(lia)). rewrite Hel in Hpx, Hcy.
    swap_at Hpx Ha Hb. swap_at Hcy Ha Hb. apply (Ho c); [lia|done..]. }
  destruct (down_spec (fuel_of h1) h1 0 n) as (h2 & i' & Hdown & Hsh2 & _ & Hrest & Hsame & Hmoved);
    [lia|unfold fuel_of; lia|intros c Hc _; by apply Hg|lia|].
  change (Z.of_nat 0) with 0 in Hdown. rewrite Hdown. cbn [mbind outcome_bind].
  pose proof (shuffle_trans _ _ _ Hsh Hsh2) as Hsh'.
  destruct (heap_Pop_spec h2 n a) as (h3 & -> & Hok & Hp & Hi).
  - by rewrite (sh_perm _ _ Hsh').
  - rewrite Hrest, Hel, (swap_lookup _ _ _ _ _ _ Ha Hb) by lia. by rewrite decide_True.
  - destruct (decide (i' = 0)%nat) as [->|]; [|by apply Hmoved].
    destruct (Hsame eq_refl) as [-> Hroot]. intros c Hc. destruct (decide (parent c = 0%nat)); auto.
  - by apply (sh_index _ _ Hsh').
  - by apply (shuffle_tracked h h2 Hsh' Hx), heap_ok_tracked.
  - exists h3, a. split_and!; try done.
    + by rewrite <-Hp, (sh_perm _ _ Hsh').
    + intros e' [c Hc]%list_elem_of_lookup. eapply root_minimal; try done.
      rewrite <-Hlen. by eapply lookup_lt_Some.
Qed.

Lemma Remove_ok h (i : nat) e :
  heap_ok h → elems h !! i = Some e →
  ∃ h', Remove h (Z.of_nat i) = Ret (h', e) ∧ heap_ok h' ∧ elems h ≡ₚ e :: elems h' ∧ Index h' (e_id e) = -1.
Proof.
  intros Hh He. pose proof Hh as [Ho Hx Hout]. pose proof (lookup_lt_Some _ _ _ He) as Hlt.
  unfold Remove, Len, len. destruct (length (elems h)) as [|n] eqn:Hlen; [lia|].
  replace (Z.of_nat (S n) - 1) with (Z.of_nat n) by lia.
  destruct (Z.eqb_spec (Z.of_nat n) (Z.of_nat i)) as [E|Hne]; cbn [negb].
  { assert (n = i) as -> by lia. cbn [mbind outcome_bind].
    apply (heap_Pop_spec h i e); try done. intros c Hc. apply Ho. lia. }
  destruct (lookup_lt_is_Some_2 (elems h) n ltac:(lia)) as [b Hb].
  destruct (Swap_spec h i n e b He Hb) as (h1 & -> & Hel & Hsh). cbn [mbind outcome_bind].
  assert (length (elems h1) = S n) as Hlen1 by (by rewrite (sh_perm _ _ Hsh)).
  assert (∀ c, (0 < c < n)%nat → c ≠ i → parent c ≠ i → good (elems h1) c) as Hg.
  { intros c Hc Hci Hpc x y Hpx Hcy. pose proof (parent_lt c ltac:(lia)). rewrite Hel in Hpx, Hcy.
    swap_at Hpx He Hb. swap_at Hcy He Hb. apply (Ho c); [lia|done..]. }
  assert (∀ c g d, (0 < c < n)%nat → parent c = i → (0 < i)%nat → elems h1 !! parent i = Some g →
     elems h1 !! c = Some d → key_le (Key g) (Key d)) as Hgp.
  { intros c g d Hc Hpc Hi Hpg Hcd. pose proof (parent_lt c ltac:(lia)). pose proof (parent_lt i Hi).
    rewrite Hel in Hpg, Hcd. swap_at Hpg He Hb. swap_at Hcd He Hb.
    apply key_le_trans with (Key e); [apply (Ho i); [lia|done..]|].
    apply (Ho c); [lia|by rewrite Hpc|done]. }
  destruct (down_spec (fuel_of h1) h1 i n) as (h2 & i' & -> & Hsh2 & Hle & Hrest & Hsame & Hmoved);
    [lia|unfold fuel_of; lia|done..|]. cbn [mbind outcome_bind]. rewrite Z.gtb_ltb.
  assert (∃ h3, (if Z.of_nat i <? Z.of_nat i' then Ret h2 else up (fuel_of h2) h2 (Z.of_nat i)) = Ret h3 ∧
    shuffle h h3 ∧ heap_ordered (elems h3) n ∧ elems h3 !! n = Some e) as (h3 & -> & Hsh3 & Ho3 & Hlast).
  { assert (elems h1 !! n = Some e) as Hn1.
    { rewrite Hel, (swap_lookup _ _ _ _ _ _ He Hb). by rewrite decide_True. }
    destruct (Z.ltb_spec (Z.of_nat i) (Z.of_nat i')).
    - exists h2. split_and!; [done|by eapply shuffle_trans|apply Hmoved; lia|by rewrite Hrest by lia].
    - assert (i' = i) as -> by lia. destruct (Hsame eq_refl) as [-> Hch].
      destruct (up_spec (fuel_of h1) h1 i n) as (h3 & -> & Hsh3 & Ho3 & Hr3);
        [lia|lia|unfold fuel_of; lia| |done|].
      { intros c Hc Hci. destruct (decide (parent c = i)); auto. }
      exists h3. split_and!; [done|by eapply shuffle_trans|done|by rewrite Hr3 by lia]. }
  cbn [mbind outcome_bind].
  destruct (heap_Pop_spec h3 n e) as (h4 & -> & Hok & Hp & Hi); try done.
  - by rewrite (sh_perm _ _ Hsh3).
  - by apply (sh_index _ _ Hsh3).
  - by apply (shuffle_tracked h h3 Hsh3 Hx), heap_ok_tracked.
  - exists h4. split_and!; try done. by rewrite <-Hp, (sh_perm _ _ Hsh3).
Qed.

(** ** Elements that were known stay known *)

Definition known (h h' : Heap) : Prop := dom (indices h) ⊆ dom (indices h').

#[local] Instance known_preorder : PreOrder known.
Proof. split; unfold known; intros h; [done|]. intros h2 h3. apply transitivity. Qed.

Lemma Swap_known h i j h' : Swap h i j = Ret h' → known h h'.
Proof.
  unfold Swap. intros H1. repeat (apply outcome_bind_Ret in H1 as (? & ? & H1)). injection H1 as <-.
  unfold known. cbn. set_solver.
Qed.

Lemma up_known fuel h j h' : up fuel h j = Ret h' → known h h'.
Proof.
  revert h j. induction fuel as [|fuel IH]; intros h j Hu; [done|]. cbn [up] in Hu.
  destruct (_ =? _); [by simplify_eq|]. apply outcome_bind_Ret in Hu as (less & _ & Hu).
  destruct (negb less); [by simplify_eq|]. apply outcome_bind_Ret in Hu as (h1 & Hs & Hu).
  etrans; [by eapply Swap_known|by eapply IH].
Qed.

Lemma down_known fuel h i n h' i' : down fuel h i n = Ret (h', i') → known h h'.
Proof.
  revert h i. induction fuel as [|fuel IH]; intros h i Hd; [done|]. cbn [down] in Hd.
  destruct (_ || _); [by simplify_eq|]. apply outcome_bind_Ret in Hd as (right_ & _ & Hd).
  apply outcome_bind_Ret in Hd as (less & _ & Hd).
  destruct (negb less); [by simplify_eq|]. apply outcome_bind_Ret in Hd as (h1 & Hs & Hd).
  etrans; [by eapply Swap_known|by eapply IH].
Qed.

Lemma heap_Pop_known h h' e : heap_Pop h = Ret (h', e) → known h h'.
Proof.
  unfold heap_Pop. intros Hp. repeat (apply outcome_bind_Ret in Hp as (? & ? & Hp)). simplify_eq.
  unfold known. cbn. set_solver.
Qed.

Lemma Push_known h x h' : Push h x = Ret h' → known h h' ∧ e_id x ∈ dom (indices h').
Proof.
  intros Hp%up_known. unfold known in *. cbn in Hp. split; [set_solver|]. apply Hp. set_solver.
Qed.

Lemma Pop_known h h' e : Pop h = Ret (h', e) → known h h'.
Proof.
  unfold Pop. intros Hp. apply outcome_bind_Ret in Hp as (h1 & H1%Swap_known & Hp).
  apply outcome_bind_Ret in Hp as ([h2 ?] & H2%down_known & Hp%heap_Pop_known). by repeat (etrans; [eassumption|]).
Qed.

Lemma Remove_known h i h' e : Remove h i = Ret (h', e) → known h h'.
Proof.
  unfold Remove. intros Hp. apply outcome_bind_Ret in Hp as (h1 & Hm & Hp%heap_Pop_known).
  transitivity h1; [|done]. destruct (negb _); [|by simplify_eq].
  apply outcome_bind_Ret in Hm as (h2 & H1%Swap_known & Hm). apply outcome_bind_Ret in Hm as ([h3 i'] & H2%down_known & Hm).
  transitivity h2; [done|]. transitivity h3; [done|]. destruct (_ >? _); [by simplify_eq|by apply up_known in Hm].
Qed.

(** An element that has an index is the one at this index. *)
Lemma Index_place h id :
  heap_ok h → Index h id ≠ -1 → ∃ (i : nat) e, Index h id = Z.of_nat i ∧ elems h !! i = Some e ∧ e_id e = id.
Proof.
  intros Hh Hi. unfold Index in *. destruct (indices h !! id) as [z|] eqn:E; [|done]. cbn in *.
  destruct (ho_out h Hh id z E Hi) as (e & [i He]%list_elem_of_lookup & <-). exists i, e.
  pose proof (ho_index h Hh i e He). by simplify_eq.
Qed.

Lemma Index_out h id e : heap_ok h → Index h id = -1 → e ∈ elems h → e_id e ≠ id.
Proof.
  intros Hh Hi [i He]%list_elem_of_lookup <-. unfold Index in Hi. rewrite (ho_index h Hh i e He) in Hi. cbn in Hi. lia.
Qed.

End heap.
Arguments HeapElement : clear implicits.
Arguments Heap : clear implicits.
