(* ===== verification/PriorityQueue.v ===== *)
(** * ds/priorityqueue

    [src/ds/priorityqueue/priorityqueue.go] over the heap of [Heap.v].  The
    function that [Push] returns is identified by the element it removes.
    Every method holds the mutex of the queue. *)

From S2P Require Import Prelude Heap.

Section priorityqueue.
Context {Priority Element : Type} `{Comparable Priority, !ComparableLaws Priority}.

Record PriorityQueue : Type := mkPQ { heap : Heap Priority Element }.

Definition New : PriorityQueue := {| heap := {| elems := []; indices := ∅ |} |}.

(** The queue and the new element, which the returned closure captures. *)
Definition Push (p : PriorityQueue) (element : Element) (priority : Priority)
    : outcome (PriorityQueue * positive) :=
  let id := fresh (dom (indices (heap p))) in
  let heapElement := {| e_id := id; Key := priority; Value := element |} in
  h ← Heap.Push (heap p) heapElement;
  Ret ({| heap := h |}, id).

(** The closure [Push] has returned. *)
Definition remove (p : PriorityQueue) (id : positive) : outcome PriorityQueue :=
  if negb (Index (heap p) id =? -1) then
    '(h, _) ← Heap.Remove (heap p) (Index (heap p) id);
    Ret {| heap := h |}
  else Ret p.

Definition Peek (p : PriorityQueue) : outcome (option Element) :=
  if negb (Len (heap p) =? 0) then
    e ← index (elems (heap p)) 0; Ret (Some (Value e))
  else Ret None.

Definition Pop (p : PriorityQueue) : outcome (PriorityQueue * option Element) :=
  if negb (Len (heap p) =? 0) then
    '(h, e) ← Heap.Pop (heap p);
    Ret ({| heap := h |}, Some (Value e))
  else Ret (p, None).

(** The loops of [PopUntil] and [PopAll]: [go] decides on the first element. *)
Fixpoint pop_while (fuel : nat) (go : Priority → bool) (h : Heap Priority Element)
    (values : list Element) : outcome (Heap Priority Element * list Element) :=
  match fuel with
  | O => Panic "out of fuel"
  | S fuel =>
      if Len h =? 0 then Ret (h, values)
      else
        first ← index (elems h) 0;
        if go (Key first) then
          '(h, e) ← Heap.Pop h;
          pop_while fuel go h (values ++ [Value e])
        else Ret (h, values)
  end.

Definition PopUntil (p : PriorityQueue) (priority : Priority)
    : outcome (PriorityQueue * list Element) :=
  '(h, values) ← pop_while (fuel_of (heap p)) (λ k, CompareTo k priority <=? 0) (heap p) [];
  Ret ({| heap := h |}, values).

Definition PopAll (p : PriorityQueue) : outcome (PriorityQueue * list Element) :=
  '(h, values) ← pop_while (fuel_of (heap p)) (λ _, true) (heap p) [];
  Ret ({| heap := h |}, values).

Definition Size (p : PriorityQueue) : Z := Len (heap p).
Definition IsEmpty (p : PriorityQueue) : bool := Len (heap p) =? 0.

(** ** Lemmas *)

Definition pq_ok (p : PriorityQueue) : Prop := heap_ok (heap p).

(** The elements of the queue, in no particular order. *)
Definition queued (p : PriorityQueue) : list (HeapElement Priority Element) := elems (heap p).

Definition by_key (a b : HeapElement Priority Element) : Prop := key_le (Key a) (Key b).

Lemma pq_ok_New : pq_ok New.
Proof.
  split; simpl.
  - intros c Hc. lia.
  - intros i e Hi. done.
  - intros id i Hid. by rewrite lookup_empty in Hid.
Qed.

Lemma pop_while_spec fuel go h values :
  heap_ok h → (length (elems h) < fuel)%nat →
  ∃ h' es, pop_while fuel go h values = Ret (h', values ++ (Value <$> es)) ∧ heap_ok h' ∧
    elems h ≡ₚ es ++ elems h' ∧ Forall (λ e, go (Key e) = true) es ∧
    StronglySorted by_key es ∧ (∀ e, e ∈ es → ∀ e', e' ∈ elems h' → by_key e e') ∧
    (elems h' = [] ∨ ∃ e, elems h' !! 0%nat = Some e ∧ go (Key e) = false).
Proof.
  revert h values. induction fuel as [|fuel IH]; intros h values Hh Hf; [lia|]. cbn [pop_while].
  destruct (elems h) as [|e0 es0] eqn:Eh.
  { unfold Len. rewrite Eh. simpl. exists h, []. rewrite app_nil_r, Eh.
    split_and!; [done|done|done|constructor|constructor|by intros e ?%not_elem_of_nil|by left]. }
  unfold Len. rewrite Eh. rewrite (proj2 (Z.eqb_neq _ 0)) by (unfold len; simpl; lia).
  cbn [index mbind outcome_bind]. simpl.
  destruct (go (Key e0)) eqn:Hgo.
  2:{ exists h, []. rewrite app_nil_r, Eh.
      split_and!; [done|done|done|constructor|constructor|by intros e ?%not_elem_of_nil|].
      right. by exists e0. }
  destruct (Pop_ok h Hh) as (h1 & e & Hpop & Hh1 & Hp & H0 & Hmin & _); [by rewrite Eh|].
  rewrite Hpop. cbn [mbind outcome_bind]. rewrite Eh in H0. simpl in H0. injection H0 as <-.
  destruct (IH h1 (values ++ [Value e0]) Hh1) as (h' & es & -> & Hh' & Hp' & Hall & Hs & Hle & Hend).
  { assert (length (elems h) = S (length (elems h1))) as Hl by (by rewrite Hp).
    rewrite Eh in Hl. simpl in Hl, Hf. lia. }
  assert (∀ e', e' ∈ es ++ elems h' → by_key e0 e') as Hmin'.
  { intros e' He'. apply Hmin. rewrite Hp, Hp'. by right. }
  exists h', (e0 :: es). rewrite <-app_assoc. split_and!; try done.
  - rewrite <-Eh, Hp, Hp'. done.
  - by constructor.
  - constructor; [done|]. apply Forall_forall. intros e' He'. apply Hmin', elem_of_app. by left.
  - intros e He e' He'. apply elem_of_cons in He as [->|He]; [|by apply Hle].
    apply Hmin', elem_of_app. by right.
Qed.

Lemma Push_pq p x pr :
  pq_ok p → ∃ p' id, Push p x pr = Ret (p', id) ∧ pq_ok p' ∧
    queued p' ≡ₚ {| e_id := id; Key := pr; Value := x |} :: queued p.
Proof.
  intros Hp. unfold Push. set (id := fresh _).
  destruct (Push_ok (heap p) {| e_id := id; Key := pr; Value := x |} Hp) as (h' & -> & Hok & Hperm).
  { apply not_elem_of_dom, is_fresh. }
  eexists _, id. split; [done|]. done.
Qed.

End priorityqueue.
Arguments PriorityQueue : clear implicits.
Arguments PriorityQueue _ _ : assert.

(** ** Properties *)

(** C32: a [PriorityQueue] keeps its invariant and returns the first element.
    [Push] adds the element; [Peek] and [Pop] return an element of minimal
    priority and [Pop] removes exactly that one; the function [Push] returned
    removes exactly its element when it is still queued and does nothing
    otherwise; no index is ever out of range. *)
Theorem PriorityQueue_operations {P E} `{Comparable P, !ComparableLaws P} (p : PriorityQueue P E) :
  pq_ok p →
  (∀ x pr, ∃ p' id, Push p x pr = Ret (p', id) ∧ pq_ok p' ∧
     queued p' ≡ₚ {| e_id := id; Key := pr; Value := x |} :: queued p) ∧
  (queued p = [] → Pop p = Ret (p, None) ∧ Peek p = Ret None) ∧
  (queued p ≠ [] → ∃ p' e, Pop p = Ret (p', Some (Value e)) ∧ Peek p = Ret (Some (Value e)) ∧
     pq_ok p' ∧ queued p ≡ₚ e :: queued p' ∧ (∀ e', e' ∈ queued p → by_key e e')) ∧
  (∀ e, e ∈ queued p → ∃ p', remove p (e_id e) = Ret p' ∧ pq_ok p' ∧ queued p ≡ₚ e :: queued p' ∧
     remove p' (e_id e) = Ret p') ∧
  (∀ id, (∀ e, e ∈ queued p → e_id e ≠ id) → remove p id = Ret p).
Proof.
  intros Hp. unfold pq_ok, queued in *. split_and!.
  - intros x pr. by apply Push_pq.
  - intros E0. unfold Pop, Peek, Len. by rewrite E0.
  - intros Hne. destruct (Pop_ok (heap p) Hp Hne) as (h' & e & Hpop & Hok & Hperm & H0 & Hmin & _).
    unfold Pop, Peek, Len. rewrite (proj2 (Z.eqb_neq _ 0)).
    2:{ unfold len. destruct (elems (heap p)); [done|]. simpl. lia. }
    cbn [negb]. rewrite Hpop. cbn [mbind outcome_bind].
    pose proof (index_nat _ _ _ H0) as Hi. change (Z.of_nat 0) with 0 in Hi. rewrite Hi. eexists _, e. by split_and!.
  - intros e [i Hi]%list_elem_of_lookup. unfold remove.
    assert (Index (heap p) (e_id e) = Z.of_nat i) as Hx.
    { unfold Index. by rewrite (ho_index _ Hp i e Hi). }
    rewrite Hx, (proj2 (Z.eqb_neq _ (-1))) by lia. cbn [negb].
    destruct (Remove_ok (heap p) i e Hp Hi) as (h' & -> & Hok & Hperm & Hgone). cbn [mbind outcome_bind].
    eexists. split; [done|]. split; [done|]. split; [done|]. cbn [heap]. by rewrite Hgone.
  - intros id Hid. unfold remove. destruct (Z.eqb_spec (Index (heap p) id) (-1)) as [|Hne]; [done|].
    exfalso. unfold Index in Hne. destruct (indices (heap p) !! id) as [i|] eqn:Ei; [|done].
    destruct (ho_out _ Hp id i Ei Hne) as (e & He & Heid). by apply (Hid e).
Qed.

(** A queue with two elements. *)
Definition sample_queue : outcome (PriorityQueue Z Z * positive) :=
  '(p, _) ← Push New 7 2; Push p 8 1.

Lemma PriorityQueue_operations_witness :
  ∃ p' e, Pop (New (Priority:=Z) (Element:=Z)) = Ret (p', e) ∧
    ∃ q id, Push (New (Priority:=Z)) 5 3 = Ret (q, id) ∧ pq_ok q.
Proof.
  destruct (PriorityQueue_operations (New (Priority:=Z) (Element:=Z)) pq_ok_New) as (H1 & H2 & _).
  destruct (H2 eq_refl) as [H3 _]. destruct (H1 5 3) as (q & id & H4 & H5 & _).
  eexists _, _. split; [exact H3|]. by exists q, id.
Defined.

(** [PopUntil] removes exactly the elements whose priority is not after the
    given one (equal priorities included), [PopAll] removes all; both return the
    values in ascending order of priority, and both loops end. *)
Lemma PopUntil_and_PopAll {P E} `{Comparable P, !ComparableLaws P} (p : PriorityQueue P E) pr :
  pq_ok p →
  (∃ p' es, PopUntil p pr = Ret (p', Value <$> es) ∧ pq_ok p' ∧ queued p ≡ₚ es ++ queued p' ∧
     StronglySorted by_key es ∧ Forall (λ e, key_le (Key e) pr) es ∧
     Forall (λ e, ¬ key_le (Key e) pr) (queued p')) ∧
  (∃ p' es, PopAll p = Ret (p', Value <$> es) ∧ pq_ok p' ∧ queued p ≡ₚ es ∧
     StronglySorted by_key es ∧ queued p' = []).
Proof.
  intros Hp. unfold pq_ok, queued in *. split.
  - unfold PopUntil.
    destruct (pop_while_spec (fuel_of (heap p)) (λ k, CompareTo k pr <=? 0) (heap p) [] Hp)
      as (h' & es & -> & Hok & Hperm & Hall & Hs & _ & Hend); [unfold fuel_of; lia|].
    eexists _, es. cbn [mbind outcome_bind app]. split; [done|]. split_and!; try done.
    + eapply Forall_impl; [exact Hall|]. intros e He. by apply Z.leb_le.
    + cbn [heap]. destruct Hend as [->|(e0 & H0 & Hgo)]; [constructor|].
      apply Z.leb_gt in Hgo. apply Forall_forall. intros e [c Hc]%list_elem_of_lookup Hle.
      assert (key_le (Key e0) pr); [|unfold key_le in *; lia].
      apply key_le_trans with (Key e); [|done].
      eapply root_minimal; [apply (ho_order _ Hok)|by eapply lookup_lt_Some|done|done].
  - unfold PopAll.
    destruct (pop_while_spec (fuel_of (heap p)) (λ _, true) (heap p) [] Hp)
      as (h' & es & -> & Hok & Hperm & _ & Hs & _ & Hend); [unfold fuel_of; lia|].
    eexists _, es. cbn [mbind outcome_bind app]. split; [done|].
    destruct Hend as [Hnil|(? & _ & ?)]; [|done]. cbn [heap].
    split_and!; try done. by rewrite Hperm, Hnil, app_nil_r.
Qed.

Lemma PopUntil_and_PopAll_witness :
  ∃ p id p' (es : list (HeapElement Z Z)), sample_queue = Ret (p, id) ∧ PopAll p = Ret (p', Value <$> es) ∧ queued p' = [].
Proof.
  assert (∃ p id, sample_queue = Ret (p, id) ∧ pq_ok p) as (p & id & Hs & Hok).
  { unfold sample_queue.
    destruct (Push_pq (New (Priority:=Z) (Element:=Z)) 7 2 pq_ok_New) as (p1 & id1 & -> & Hok1 & _).
    destruct (Push_pq p1 8 1 Hok1) as (p2 & id2 & Hp2 & Hok2 & _). by exists p2, id2. }
  destruct (PopUntil_and_PopAll p 1 Hok) as (_ & p' & es & H2 & _ & _ & _ & H3).
  by exists p, id, p', es.
Defined.
