(* ===== verification/TimeHeap.v ===== *)
(** * ds/timeheap

    [src/ds/timeheap/timeheap.go]: counts with the time they were added at, and their
    average per second.  The time of day is an argument, in nanoseconds.  The heap is a plain
    slice: [up], [down], [Push] and [Pop] of [container/heap] are written out for it and shown
    to do what those of Heap.v do, whose elements know their place as well. *)

From Stdlib Require Import SpecFloat.
From S2P Require Import Prelude ShrinkingMap Heap.

Record timeHeapEntry : Type := mkEntry { timestamp : Z; count : Z }.

(** ** The methods of [heap.Interface] *)

Definition timeHeap : Type := list timeHeapEntry.

Definition t_Len (h : timeHeap) : Z := len h.
Definition t_Less (h : timeHeap) (i j : Z) : outcome bool :=
  a ← index h i; b ← index h j; Ret (timestamp a <? timestamp b).
Definition t_Swap (h : timeHeap) (i j : Z) : outcome timeHeap :=
  a ← index h i; b ← index h j; h ← store h i b; store h j a.
Definition t_Push (h : timeHeap) (x : timeHeapEntry) : timeHeap := h ++ [x].
Definition t_Pop (h : timeHeap) : outcome (timeHeap * timeHeapEntry) :=
  let n := len h in
  data ← index h (n - 1);
  h ← slice_to h (n - 1);
  Ret (h, data).

(** ** container/heap *)

Fixpoint t_up (fuel : nat) (h : timeHeap) (j : Z) : outcome timeHeap :=
  match fuel with
  | O => Panic "out of fuel"
  | S fuel =>
      let i := Z.quot (j - 1) 2 in
      if i =? j then Ret h
      else
        less ← t_Less h j i;
        if negb less then Ret h
        else h ← t_Swap h i j; t_up fuel h i
  end.

Fixpoint t_down (fuel : nat) (h : timeHeap) (i n : Z) : outcome (timeHeap * Z) :=
  match fuel with
  | O => Panic "out of fuel"
  | S fuel =>
      let j1 := 2 * i + 1 in
      if (j1 >=? n) || (j1 <? 0) then Ret (h, i)
      else
        takeRight ← (if j1 + 1 <? n then t_Less h (j1 + 1) j1 else Ret false);
        let j := child j1 takeRight in
        less ← t_Less h j i;
        if negb less then Ret (h, i)
        else h ← t_Swap h i j; t_down fuel h j n
  end.

Definition heap_push (h : timeHeap) (x : timeHeapEntry) : outcome timeHeap :=
  let h := t_Push h x in
  t_up (S (length h)) h (t_Len h - 1).

Definition heap_pop (h : timeHeap) : outcome (timeHeap * timeHeapEntry) :=
  let n := t_Len h - 1 in
  h ← t_Swap h 0 n;
  '(h, _) ← t_down (S (length h)) h 0 n;
  t_Pop h.

(** ** The time heap *)

Record TimeHeap : Type := mkTimeHeap { heap : timeHeap; total : Z }.

Definition NewTimeHeap : TimeHeap := mkTimeHeap [] 0.

Definition Add (h : TimeHeap) (now c : Z) : outcome TimeHeap :=
  l ← heap_push (heap h) (mkEntry now c);
  Ret (mkTimeHeap l (wrap U64 (total h + c))).

(** The loop of [Clear], with the method [Pop]; the fuel is the number of entries. *)
Fixpoint clear_loop (fuel : nat) (h : timeHeap) : outcome timeHeap :=
  match fuel with
  | O => Ret h
  | S fuel => if t_Len h >? 0 then '(h, _) ← t_Pop h; clear_loop fuel h else Ret h
  end.

Definition Clear (h : TimeHeap) : outcome TimeHeap :=
  l ← clear_loop (length (heap h)) (heap h); Ret (mkTimeHeap l (total h)).

(** [now i] is the time that [time.Since] reads in round [i]. *)
Fixpoint average_loop (rounds i : nat) (now : nat → Z) (timeBefore : Z) (h : TimeHeap) : outcome TimeHeap :=
  match rounds with
  | O => Ret h
  | S rounds =>
      '(l, oldest) ← heap_pop (heap h);
      if now i - timestamp oldest <? timeBefore then
        l ← heap_push l oldest; Ret (mkTimeHeap l (total h))
      else average_loop rounds (S i) now timeBefore (mkTimeHeap l (wrap U64 (total h - count oldest)))
  end.

(** [timeBefore.Seconds()]: a float64. *)
Definition Seconds (d : Z) : spec_float :=
  SFadd 53 1024 (binary_normalize 53 1024 (Z.quot d 1000000000) 0 false)
    (SFdiv 53 1024 (binary_normalize 53 1024 (Z.rem d 1000000000) 0 false) (binary_normalize 53 1024 1000000000 0 false)).

(** [float32(x)] of a float64. *)
Definition f32_of_f64 (x : spec_float) : float32 :=
  match x with
  | S754_finite s m e => binary_normalize 24 128 (if s then Z.neg m else Z.pos m) e s
  | _ => x
  end.

Definition AveragePerSecond (h : TimeHeap) (now : nat → Z) (timeBefore : Z) : outcome (TimeHeap * float32) :=
  h ← (if t_Len (heap h) >? 0 then average_loop (length (heap h)) 0 now timeBefore h else Ret h);
  Ret (h, f32_div (f32_of_int (total h)) (f32_of_f64 (Seconds timeBefore))).

(** ** The slice without the places of its elements *)

Definition strip (e : HeapElement Z Z) : timeHeapEntry := mkEntry (Key e) (Value e).
Definition slice (h : Heap Z Z) : timeHeap := strip <$> elems h.

Lemma index_map {A B} (f : A → B) (l : list A) i : index (f <$> l) i = f <$> index l i.
Proof. unfold index. destruct (i <? 0); [done|]. rewrite list_lookup_fmap. by destruct (l !! Z.to_nat i). Qed.

Lemma store_map {A B} (f : A → B) (l : list A) i x : store (f <$> l) i (f x) = (fmap f : list A → list B) <$> store l i x.
Proof. unfold store, len. rewrite length_fmap. destruct (_ && _); [|done]. cbn. by rewrite list_fmap_insert. Qed.

Lemma slice_to_map {A B} (f : A → B) (l : list A) n : slice_to (f <$> l) n = (fmap f : list A → list B) <$> slice_to l n.
Proof. unfold slice_to, len. rewrite length_fmap. destruct (_ && _); [|done]. cbn. by rewrite fmap_take. Qed.

Lemma slice_length h : length (slice h) = length (elems h).
Proof. apply length_fmap. Qed.

Lemma Less_slice h i j : t_Less (slice h) i j = Less h i j.
Proof.
  unfold t_Less, Less, slice. rewrite !index_map. destruct (index (elems h) i) as [a|]; [|done]. cbn.
  destruct (index (elems h) j) as [b|]; [|done]. cbn. f_equal. unfold CompareTo, Z_comparable.
  destruct (Z.ltb_spec (Key a) (Key b)), (Z.ltb_spec (Key a - Key b) 0); done || lia.
Qed.

Lemma Swap_slice h i j : t_Swap (slice h) i j = slice <$> Swap h i j.
Proof.
  unfold t_Swap, Swap, slice. rewrite !index_map. destruct (index (elems h) i) as [a|]; [|done]. cbn.
  destruct (index (elems h) j) as [b|]; [|done]. cbn. rewrite store_map. destruct (store (elems h) i b) as [l|]; [|done]. cbn.
  rewrite store_map. by destruct (store l j a).
Qed.

Lemma up_slice fuel h j : t_up fuel (slice h) j = slice <$> up fuel h j.
Proof.
  revert h j. induction fuel as [|fuel IH]; intros h j; [done|]. cbn [t_up up]. destruct (_ =? _); [done|].
  rewrite Less_slice. destruct (Less h j _) as [less|]; [|done]. cbn. destruct less; [|done]. cbn. rewrite Swap_slice.
  destruct (Swap h _ j) as [h'|]; [|done]. cbn. apply IH.
Qed.

Lemma down_slice fuel h i n : t_down fuel (slice h) i n = (λ r : Heap Z Z * Z, (slice r.1, r.2)) <$> down fuel h i n.
Proof.
  revert h i. induction fuel as [|fuel IH]; intros h i; [done|]. cbn [t_down down]. destruct (_ || _); [done|].
  rewrite Less_slice. destruct (if 2 * i + 1 + 1 <? n then Less h (2 * i + 1 + 1) (2 * i + 1) else Ret false) as [right|]; [|done]. cbn. rewrite Less_slice.
  destruct (Less h _ i) as [less|]; [|done]. cbn. destruct less; [|done]. cbn. rewrite Swap_slice.
  destruct (Swap h i _) as [h'|]; [|done]. cbn. apply IH.
Qed.

Lemma push_slice h x : heap_push (slice h) (strip x) = slice <$> Push h x.
Proof.
  unfold heap_push, Push. assert (t_Push (slice h) (strip x) = slice (heap_Push h x)) as ->.
  { unfold t_Push, slice. cbn. by rewrite fmap_app. }
  rewrite slice_length. unfold t_Len, len. rewrite slice_length. apply up_slice.
Qed.

Lemma pop_slice h : heap_pop (slice h) = (λ r : Heap Z Z * HeapElement Z Z, (slice r.1, strip r.2)) <$> Pop h.
Proof.
  unfold heap_pop, Pop, Len, t_Len, len. rewrite slice_length, Swap_slice. destruct (Swap h 0 _) as [h1|]; [|done]. cbn [fmap outcome_fmap mbind outcome_bind].
  rewrite slice_length, down_slice. unfold fuel_of. destruct (down _ h1 0 _) as [[h2 i]|]; [|done]. cbn.
  unfold t_Pop, heap_Pop, slice, len. rewrite length_fmap, index_map. destruct (index (elems h2) _) as [e|]; [|done]. cbn.
  rewrite slice_to_map. by destruct (slice_to (elems h2) _).
Qed.

(** ** Invariant *)

Definition heaped (l : timeHeap) : Prop := ∃ h, heap_ok h ∧ slice h = l.

Lemma heap_push_ok l x : heaped l → ∃ l', heap_push l x = Ret l' ∧ heaped l' ∧ l' ≡ₚ x :: l.
Proof.
  intros (h & Hh & <-). set (id := fresh (dom (indices h))). set (e := mkElement id (timestamp x) (count x)).
  destruct (Push_ok h e Hh) as (h' & E & Hh' & Hp); [apply not_elem_of_dom, is_fresh|]. assert (strip e = x) as Hx by (by destruct x).
  exists (slice h'). rewrite <-Hx, push_slice, E. split; [done|]. split; [by exists h'|]. unfold slice. by rewrite Hp.
Qed.

Lemma heap_pop_ok l :
  heaped l → l ≠ [] →
  ∃ l' e, heap_pop l = Ret (l', e) ∧ heaped l' ∧ l ≡ₚ e :: l' ∧ ∀ e', e' ∈ l → timestamp e ≤ timestamp e'.
Proof.
  intros (h & Hh & <-) Hne. destruct (Pop_ok h Hh) as (h' & e & E & Hh' & Hp & _ & Hmin & _); [by intros Hn; apply Hne; unfold slice; rewrite Hn|].
  exists (slice h'), (strip e). rewrite pop_slice, E. split; [done|]. split; [by exists h'|]. split; [unfold slice; by rewrite Hp|].
  intros e' (x & -> & Hx)%list_elem_of_fmap. specialize (Hmin x Hx). unfold key_le, CompareTo, Z_comparable in Hmin. cbn. lia.
Qed.

Record time_ok (h : TimeHeap) : Prop := {
  to_heap : heaped (heap h);
  to_total : total h = wrap U64 (zsum count (heap h));
}.

Lemma zsum_perm {A} (f : A → Z) l l' : l ≡ₚ l' → zsum f l = zsum f l'.
Proof. induction 1; cbn; lia. Qed.

Lemma NewTimeHeap_ok : time_ok NewTimeHeap.
Proof. split; [|done]. exists (mkHeap [] ∅). split; [|done]. split; cbn; [intros c Hc; lia|done|]. intros id i. by rewrite lookup_empty. Qed.

Lemma time_Add_ok h now c : time_ok h → ∃ h', Add h now c = Ret h' ∧ time_ok h' ∧ heap h' ≡ₚ mkEntry now c :: heap h.
Proof.
  intros [Hh Ht]. destruct (heap_push_ok (heap h) (mkEntry now c) Hh) as (l & E & Hl & Hp). unfold Add. rewrite E. cbn [mbind outcome_bind].
  eexists. split; [done|]. split; [|done]. split; [done|]. cbn [heap total]. rewrite (zsum_perm _ _ _ Hp), Ht. cbn [zsum count].
  rewrite wrap_add. f_equal. lia.
Qed.

(** The entries that are young at the time [t]. *)
Definition young (t timeBefore : Z) (l : timeHeap) : timeHeap := List.filter (λ e, t - timestamp e <? timeBefore) l.

Lemma young_perm t tb l l' : l ≡ₚ l' → young t tb l ≡ₚ young t tb l'.
Proof. induction 1; cbn; repeat destruct (_ <? _); eauto using Permutation. Qed.

Lemma young_all t tb l : (∀ e, e ∈ l → t - timestamp e < tb) → young t tb l = l.
Proof.
  induction l as [|e l IH]; intros Hl; [done|]. cbn. rewrite (proj2 (Z.ltb_lt _ _)) by (apply Hl; left). f_equal. apply IH.
  intros e' He. apply Hl. by right.
Qed.

Lemma average_loop_ok now tb rounds i h :
  (∀ i, now i ≤ now (S i)) → time_ok h → rounds = length (heap h) →
  ∃ h' t, average_loop rounds i now tb h = Ret h' ∧ time_ok h' ∧ now i ≤ t ∧ heap h' ≡ₚ young t tb (heap h).
Proof.
  intros Hnow. revert i h. induction rounds as [|rounds IH]; intros i h Hh Hlen.
  - exists h, (now i). destruct (heap h) eqn:E; [|done]. by split_and!.
  - destruct Hh as [Hh Ht]. destruct (heap_pop_ok (heap h) Hh) as (l & e & E & Hl & Hp & Hmin); [by intros Hn; rewrite Hn in Hlen|].
    cbn [average_loop]. rewrite E. cbn [mbind outcome_bind]. destruct (Z.ltb_spec (now i - timestamp e) tb) as [Hlt|Hge].
    + destruct (heap_push_ok l e Hl) as (l' & E' & Hl' & Hp'). rewrite E'. cbn. eexists _, (now i). split; [done|].
      split; [split; [done|]; cbn; by rewrite Ht, (zsum_perm _ _ _ Hp), <-(zsum_perm _ _ _ Hp')|]. split; [done|]. cbn.
      rewrite young_all; [by rewrite Hp'|]. intros e' He. specialize (Hmin e' He). lia.
    + destruct (IH (S i) (mkTimeHeap l (wrap U64 (total h - count e)))) as (h' & t & E' & Hh' & Hle & Hp').
      * split; [done|]. cbn [heap total]. rewrite Ht, (zsum_perm _ _ _ Hp). cbn [zsum]. unfold Z.sub. rewrite wrap_add. f_equal. lia.
      * apply Permutation_length in Hp. cbn in *. lia.
      * exists h', t. specialize (Hnow i). split; [done|]. split; [done|]. split; [lia|]. rewrite Hp', (young_perm _ _ _ _ Hp). cbn.
        rewrite (proj2 (Z.ltb_ge (t - timestamp e) tb)) by lia. done.
Qed.

(** ** Properties *)

(** Time heaps made by [Add] and [AveragePerSecond]. *)
Inductive timed : TimeHeap → Prop :=
  | timed_new : timed NewTimeHeap
  | timed_add h now c h' : timed h → Add h now c = Ret h' → timed h'
  | timed_average h now tb h' f :
      timed h → (∀ i, now i ≤ now (S i)) → AveragePerSecond h now tb = Ret (h', f) → timed h'.

Lemma AveragePerSecond_ok h now tb :
  time_ok h → (∀ i, now i ≤ now (S i)) →
  ∃ h' t, AveragePerSecond h now tb = Ret (h', f32_div (f32_of_int (total h')) (f32_of_f64 (Seconds tb))) ∧
    time_ok h' ∧ now 0%nat ≤ t ∧ heap h' ≡ₚ young t tb (heap h).
Proof.
  intros Hh Hnow. unfold AveragePerSecond, t_Len. destruct (len (heap h) >? 0) eqn:E.
  - destruct (average_loop_ok now tb (length (heap h)) 0 h Hnow Hh eq_refl) as (h' & t & -> & Hh' & Ht & Hp). by exists h', t.
  - exists h, (now 0%nat). assert (heap h = []) as Hn by (destruct (heap h); [done|]; rewrite Z.gtb_ltb in E; apply Z.ltb_ge in E; unfold len in E; cbn in E; lia).
    split_and!; try done. by rewrite Hn.
Qed.

Lemma timed_ok h : timed h → time_ok h.
Proof.
  induction 1 as [|h now c h' _ IH E|h now tb h' f _ IH Hnow E].
  - apply NewTimeHeap_ok.
  - destruct (time_Add_ok h now c IH) as (? & E' & ? & _). congruence.
  - destruct (AveragePerSecond_ok h now tb IH Hnow) as (? & t & E' & ? & _). congruence.
Qed.

(** [AveragePerSecond] is the average of the young entries.  In a heap that was made by [Add]
    and [AveragePerSecond], and with a clock that does not go back, the call returns; the entries
    that it leaves are those that are younger than the duration at a time at or after its begin,
    each with its count, and the result is the sum of their counts (modulo 2^64) by the
    duration. *)
Lemma TimeHeap_average h now timeBefore :
  timed h → (∀ i, now i ≤ now (S i)) →
  ∃ h' t, now 0%nat ≤ t ∧ heap h' ≡ₚ young t timeBefore (heap h) ∧
    AveragePerSecond h now timeBefore =
      Ret (h', f32_div (f32_of_int (wrap U64 (zsum count (young t timeBefore (heap h))))) (f32_of_f64 (Seconds timeBefore))).
Proof.
  intros Hh%timed_ok Hnow. destruct (AveragePerSecond_ok h now timeBefore Hh Hnow) as (h' & t & E & [_ Ht] & Hle & Hp).
  exists h', t. split; [done|]. split; [done|]. by rewrite E, Ht, (zsum_perm _ _ _ Hp).
Qed.

(** Two counts, one of which is older than ten seconds: 30 in 10 seconds. *)
Example average_of_three :
  ((h ← Add NewTimeHeap 0 5; h ← Add h 15000000000 10; h ← Add h 16000000000 20;
    AveragePerSecond h (λ _, 20000000000) 10000000000) : outcome (TimeHeap * float32)) =
  Ret (mkTimeHeap [mkEntry 15000000000 10; mkEntry 16000000000 20] 30, f32_of_int 3).
Proof. vm_compute. reflexivity. Qed.

(** [Clear] empties the heap but keeps the total: what was removed still counts. *)
Lemma Clear_keeps_total :
  ((h ← Add NewTimeHeap 0 30; h ← Clear h; AveragePerSecond h (λ _, 0) 10000000000) : outcome (TimeHeap * float32)) =
  Ret (mkTimeHeap [] 30, f32_of_int 3).
Proof. vm_compute. reflexivity. Qed.
