(* ===== verification/OnChangeMap.v ===== *)
(** * ds/onchangemap

    [src/ds/onchangemap/onchangemap.go]: a map of items that calls back when it or one of its
    items changes.  Items are shared objects: [objects] is the store they live in, the map holds
    places of it, and [Clone] makes a new one.  The methods [ID] and [Clone] of the items are
    arguments.  The map below is a shrinking map, which ShrinkingMap.v shows to be a map; the
    order in which a Go map gives its values is open, here it is that of [map_to_list].  The
    callbacks look at the items and may fail, but do not change them; [events] are their calls.
    [copies] is not read by the code: the objects that were handed out. *)

From S2P Require Import Prelude.

Section onchangemap.
Context {K I : Type} `{Countable K}.
Variables (ID : I → K) (Clone : I → I).

Record OnChangeMap : Type := mkOnChangeMap {
  m : gmap K nat;
  callbacksEnabled : bool;
  changedCallback : option (list I → option error);
  itemAddedCallback : option (I → option error);
  itemModifiedCallback : option (I → option error);
  itemDeletedCallback : option (I → option error);
}.

Inductive item_event : Type := ItemAdded | ItemModified | ItemDeleted.
Inductive event : Type := Changed (items : list I) | Item (e : item_event) (item : I).

Record world : Type := mkWorld {
  objects : list I;
  omap_ : OnChangeMap;
  events : list event;
  copies : list nat;
}.

(** Options. *)
Inductive option_ : Type :=
  | WithChangedCallback (f : list I → option error)
  | WithItemAddedCallback (f : I → option error)
  | WithItemModifiedCallback (f : I → option error)
  | WithItemDeletedCallback (f : I → option error).

Definition apply_option (r : OnChangeMap) (o : option_) : OnChangeMap :=
  match o with
  | WithChangedCallback f => mkOnChangeMap (m r) (callbacksEnabled r) (Some f) (itemAddedCallback r) (itemModifiedCallback r) (itemDeletedCallback r)
  | WithItemAddedCallback f => mkOnChangeMap (m r) (callbacksEnabled r) (changedCallback r) (Some f) (itemModifiedCallback r) (itemDeletedCallback r)
  | WithItemModifiedCallback f => mkOnChangeMap (m r) (callbacksEnabled r) (changedCallback r) (itemAddedCallback r) (Some f) (itemDeletedCallback r)
  | WithItemDeletedCallback f => mkOnChangeMap (m r) (callbacksEnabled r) (changedCallback r) (itemAddedCallback r) (itemModifiedCallback r) (Some f)
  end.

Definition NewOnChangeMap (opts : list option_) : OnChangeMap :=
  foldl apply_option (mkOnChangeMap ∅ false None None None None) opts.

Definition set_m (w : world) (m' : gmap K nat) : world :=
  let r := omap_ w in
  mkWorld (objects w)
    (mkOnChangeMap m' (callbacksEnabled r) (changedCallback r) (itemAddedCallback r) (itemModifiedCallback r) (itemDeletedCallback r))
    (events w) (copies w).
Definition set_objects (w : world) (os : list I) : world := mkWorld os (omap_ w) (events w) (copies w).
Definition note (w : world) (e : event) : world := mkWorld (objects w) (omap_ w) (events w ++ [e]) (copies w).

Definition CallbacksEnabled (w : world) (enabled : bool) : world :=
  let r := omap_ w in
  mkWorld (objects w)
    (mkOnChangeMap (m r) enabled (changedCallback r) (itemAddedCallback r) (itemModifiedCallback r) (itemDeletedCallback r))
    (events w) (copies w).

(** What the map holds. *)
Definition content (w : world) : gmap K I := omap (λ p, objects w !! p) (m (omap_ w)).
Definition values (M : gmap K I) : list I := (map_to_list M).*2.

Definition executeChangedCallback (w : world) : world * option error :=
  if negb (callbacksEnabled (omap_ w)) then (w, None)
  else match changedCallback (omap_ w) with
       | None => (w, None)
       | Some f =>
           let vs := values (content w) in
           (note w (Changed vs), (λ err, ErrWrap err "failed to execute callback in OnChangeMap: %w") <$> f vs)
       end.

Definition callback_of (r : OnChangeMap) (e : item_event) : option (I → option error) :=
  match e with
  | ItemAdded => itemAddedCallback r | ItemModified => itemModifiedCallback r | ItemDeleted => itemDeletedCallback r
  end.

Definition executeItemCallback (w : world) (e : item_event) (item : I) : world * option error :=
  if negb (callbacksEnabled (omap_ w)) then (w, None)
  else match executeChangedCallback w with
       | (w, Some err) => (w, Some err)
       | (w, None) =>
           match callback_of (omap_ w) e with
           | None => (w, None)
           | Some f => (note w (Item e item), (λ err, ErrWrap err "failed to execute item callback in OnChangeMap: %w") <$> f item)
           end
       end.

(** [item.Clone()]: a new object, which the caller gets. *)
Definition clone_item (w : world) (item : I) : world * nat :=
  (mkWorld (objects w ++ [Clone item]) (omap_ w) (events w) (length (objects w) :: copies w), length (objects w)).

Definition All (w : world) : world * gmap K nat :=
  foldl (λ '(w, itemsCopy) '(key, p),
      match objects w !! p with
      | Some item => let '(w, q) := clone_item w item in (w, <[key := q]> itemsCopy)
      | None => (w, itemsCopy)
      end)
    (w, ∅) (map_to_list (m (omap_ w))).

(** The item that a key leads to. *)
Definition lookup_item (w : world) (k : K) : option (nat * I) :=
  match m (omap_ w) !! k with
  | Some p => match objects w !! p with Some item => Some (p, item) | None => None end
  | None => None
  end.

Definition Get (w : world) (k : K) : world * (nat + error) :=
  match lookup_item w k with
  | None => (w, inr (ErrNew "unable to get item: %s does not exist in map"))
  | Some (_, item) => let '(w, q) := clone_item w item in (w, inl q)
  end.

(** [Add] of the object [p]. *)
Definition Add (w : world) (p : nat) : world * option error :=
  match objects w !! p with
  | None => (w, None)
  | Some item =>
      if bool_decide (is_Some (m (omap_ w) !! ID item)) then (w, Some (ErrNew "unable to add item: %s already exists in map"))
      else executeItemCallback (set_m w (<[ID item := p]> (m (omap_ w)))) ItemAdded item
  end.

(** The callback changes the item in place and says whether it did. *)
Definition Modify (w : world) (k : K) (callback : I → I * bool) : world * (option nat * option error) :=
  match lookup_item w k with
  | None => (w, (None, Some (ErrNew "unable to modify item: %s does not exist in map")))
  | Some (p, item) =>
      let '(item, modified) := callback item in
      let w := set_objects w (<[p := item]> (objects w)) in
      let '(w, q) := clone_item w item in
      if negb modified then (w, (Some q, None))
      else let '(w, err) := executeItemCallback w ItemModified item in (w, (Some q, err))
  end.

Definition Delete (w : world) (k : K) : world * option error :=
  match lookup_item w k with
  | None => (w, Some (ErrNew "unable to remove item: %s does not exist in map"))
  | Some (_, item) => executeItemCallback (set_m w (delete k (m (omap_ w)))) ItemDeleted item
  end.

Definition ExecuteChangedCallback (w : world) : world * option error := executeChangedCallback w.

(** ** Runs *)

Inductive oop : Type :=
  | OAdd (item : I)                        (* of an object that the caller makes *)
  | OModify (k : K) (callback : I → I * bool)
  | ODelete (k : K) | OGet (k : K) | OAll | OEnabled (b : bool) | OExecute
  | OWrite (p : nat) (item : I).           (* the caller writes to a copy that it was given *)

Definition ostep (w : world) (o : oop) : world :=
  match o with
  | OAdd item => (Add (set_objects w (objects w ++ [item])) (length (objects w))).1
  | OModify k f => (Modify w k f).1
  | ODelete k => (Delete w k).1
  | OGet k => (Get w k).1
  | OAll => (All w).1
  | OEnabled b => CallbacksEnabled w b
  | OExecute => (ExecuteChangedCallback w).1
  | OWrite p item => set_objects w (<[p := item]> (objects w))
  end.

Definition oallowed (w : world) (o : oop) : Prop := match o with OWrite p _ => p ∈ copies w | _ => True end.

(** What the operations mean for a map and the log of callbacks. *)
Definition notify_changed (r : OnChangeMap) (M : gmap K I) : list event * option error :=
  match changedCallback r with
  | Some f => ([Changed (values M)], (λ err, ErrWrap err "failed to execute callback in OnChangeMap: %w") <$> f (values M))
  | None => ([], None)
  end.

Definition notify_item (r : OnChangeMap) (M : gmap K I) (e : item_event) (item : I) : list event :=
  match notify_changed r M with
  | (l, Some _) => l
  | (l, None) => l ++ (if callback_of r e then [Item e item] else [])
  end.

Definition ospec (r : OnChangeMap) (M : gmap K I) (enabled : bool) (o : oop) : gmap K I * bool * list event :=
  let told M e item := if enabled then notify_item r M e item else [] in
  match o with
  | OAdd item =>
      if M !! ID item then (M, enabled, [])
      else let M := <[ID item := item]> M in (M, enabled, told M ItemAdded item)
  | OModify k f =>
      match M !! k with
      | Some item =>
          let '(item, modified) := f item in
          let M := <[k := item]> M in (M, enabled, if modified : bool then told M ItemModified item else [])
      | None => (M, enabled, [])
      end
  | ODelete k =>
      match M !! k with
      | Some item => let M := delete k M in (M, enabled, told M ItemDeleted item)
      | None => (M, enabled, [])
      end
  | OEnabled b => (M, b, [])
  | OExecute => (M, enabled, if enabled then (notify_changed r M).1 else [])
  | OGet _ | OAll | OWrite _ _ => (M, enabled, [])
  end.

(** ** Invariant *)

Record winv (w : world) : Prop := {
  wi_alloc k p : m (omap_ w) !! k = Some p → (p < length (objects w))%nat;
  wi_apart k k' p : m (omap_ w) !! k = Some p → m (omap_ w) !! k' = Some p → k = k';
  wi_copies k p : m (omap_ w) !! k = Some p → p ∉ copies w;
  wi_handed p : p ∈ copies w → (p < length (objects w))%nat;
}.

Lemma content_lookup w k : content w !! k = m (omap_ w) !! k ≫= λ p, objects w !! p.
Proof. unfold content. by rewrite lookup_omap. Qed.

Lemma lookup_item_content w k : content w !! k = snd <$> lookup_item w k.
Proof. rewrite content_lookup. unfold lookup_item. destruct (_ !! k) as [p|]; [|done]. cbn. by destruct (objects w !! p). Qed.

Lemma lookup_item_Some w k p item : lookup_item w k = Some (p, item) ↔ m (omap_ w) !! k = Some p ∧ objects w !! p = Some item.
Proof.
  unfold lookup_item. destruct (_ !! k) as [q|]; [|naive_solver]. destruct (objects w !! q) eqn:E; [|naive_solver].
  split; [intros [= -> ->]; done|]. intros [[= ->] E']. congruence.
Qed.

Lemma item_exists w k p : winv w → m (omap_ w) !! k = Some p → ∃ item, objects w !! p = Some item.
Proof. intros Hw Hk. apply lookup_lt_is_Some, (wi_alloc w Hw k p Hk). Qed.

Lemma content_None w k : winv w → content w !! k = None ↔ m (omap_ w) !! k = None.
Proof.
  intros Hw. rewrite content_lookup. destruct (_ !! k) as [p|] eqn:E; [|done]. destruct (item_exists w k p Hw E) as [item Hi]. cbn. by rewrite Hi.
Qed.

(** Worlds that differ in the log only. *)
Definition same_world (w w' : world) : Prop := objects w' = objects w ∧ omap_ w' = omap_ w ∧ copies w' = copies w.

Lemma same_inv w w' : same_world w w' → winv w → winv w'.
Proof. intros (E1 & E2 & E3) []. split; rewrite ?E1, ?E2, ?E3; done. Qed.

Lemma same_content w w' : same_world w w' → content w' = content w.
Proof. intros (E1 & E2 & _). unfold content. by rewrite E1, E2. Qed.

Lemma same_world_refl w : same_world w w.
Proof. done. Qed.

Lemma executeChangedCallback_ok w :
  same_world w (executeChangedCallback w).1 ∧
  events (executeChangedCallback w).1 =
    events w ++ (if callbacksEnabled (omap_ w) then (notify_changed (omap_ w) (content w)).1 else []) ∧
  (callbacksEnabled (omap_ w) = true → (executeChangedCallback w).2 = (notify_changed (omap_ w) (content w)).2).
Proof.
  unfold executeChangedCallback, notify_changed. destruct (callbacksEnabled (omap_ w)); cbn; [|by rewrite app_nil_r].
  destruct (changedCallback (omap_ w)); cbn; [done|by rewrite app_nil_r].
Qed.

Lemma executeItemCallback_ok w e item :
  same_world w (executeItemCallback w e item).1 ∧
  events (executeItemCallback w e item).1 =
    events w ++ (if callbacksEnabled (omap_ w) then notify_item (omap_ w) (content w) e item else []).
Proof.
  unfold executeItemCallback. destruct (callbacksEnabled (omap_ w)) eqn:En; cbn [negb]; [|by rewrite app_nil_r].
  destruct (executeChangedCallback_ok w) as (Hs & He & Herr). rewrite En in *. specialize (Herr eq_refl).
  unfold notify_item. destruct (notify_changed (omap_ w) (content w)) as [l err] eqn:En'. cbn in He, Herr.
  destruct (executeChangedCallback w) as [w1 err1]. cbn in *. subst err1. destruct err as [err|]; [done|].
  destruct Hs as (E1 & E2 & E3). rewrite E2. destruct (callback_of (omap_ w) e); cbn; (split; [done|]); rewrite He; [by rewrite app_assoc|].
  by rewrite app_nil_r.
Qed.

(** A new object that the map does not hold. *)
Lemma content_grow w os : winv w → content (set_objects w (objects w ++ os)) = content w.
Proof.
  intros Hw. apply map_eq. intros k. rewrite !content_lookup. cbn. destruct (_ !! k) as [p|] eqn:E; [|done]. cbn.
  apply lookup_app_l, (wi_alloc w Hw k p E).
Qed.

Lemma grow_inv w os : winv w → winv (set_objects w (objects w ++ os)).
Proof. intros []. split; cbn; try done; rewrite ?length_app; intros; [eapply Nat.lt_lt_add_r; eauto|eapply Nat.lt_lt_add_r; eauto]. Qed.

Lemma clone_inv w item : winv w → winv (clone_item w item).1.
Proof.
  intros Hw. destruct (grow_inv w [Clone item] Hw) as [H1 H2 H3 H4]. split; try done.
  - cbn. intros k p Hk. apply not_elem_of_cons. split; [|by apply (H3 k)]. intros ->. pose proof (wi_alloc w Hw k _ Hk). lia.
  - cbn. intros p [->|Hp]%elem_of_cons; [rewrite length_app; cbn; lia|by apply H4].
Qed.

Lemma clone_content w item : winv w → content (clone_item w item).1 = content w.
Proof. apply content_grow. Qed.

(** ** Steps *)

(** The step did what [ospec] says. *)
Definition step_ok (w w' : world) (o : oop) : Prop :=
  winv w' ∧ ∃ evs, ospec (omap_ w) (content w) (callbacksEnabled (omap_ w)) o = (content w', callbacksEnabled (omap_ w'), evs) ∧
    events w' = events w ++ evs.

Lemma callback_step w w1 e item o M :
  winv w1 → content w1 = M → events w1 = events w → callbacksEnabled (omap_ w1) = callbacksEnabled (omap_ w) →
  notify_item (omap_ w1) = notify_item (omap_ w) →
  ospec (omap_ w) (content w) (callbacksEnabled (omap_ w)) o =
    (M, callbacksEnabled (omap_ w), if callbacksEnabled (omap_ w) then notify_item (omap_ w) M e item else []) →
  step_ok w (executeItemCallback w1 e item).1 o.
Proof.
  intros Hw Hc He Hen Hn Hs. destruct (executeItemCallback_ok w1 e item) as [Hsame Hev]. split; [by eapply same_inv|].
  eexists. rewrite Hs, Hev, He, Hen, Hn, Hc, (same_content _ _ Hsame), Hc. destruct Hsame as (_ & -> & _). by rewrite Hen.
Qed.

Lemma Add_step w item : winv w → step_ok w (ostep w (OAdd item)) (OAdd item).
Proof.
  intros Hw. set (w1 := set_objects w (objects w ++ [item])). set (p := length (objects w)).
  pose proof (grow_inv w [item] Hw) as Hw1. pose proof (content_grow w [item] Hw) as Hc1. fold w1 in Hw1, Hc1.
  unfold ostep. fold w1 p. unfold Add. cbn [objects set_objects w1]. rewrite list_lookup_middle by done.
  change (m (omap_ w1)) with (m (omap_ w)). destruct (m (omap_ w) !! ID item) as [q|] eqn:E.
  - rewrite bool_decide_eq_true_2 by done. cbn [fst]. split; [done|]. exists []. cbn [ospec].
    destruct (content w !! ID item) eqn:Ec; [|by apply (content_None w _ Hw) in Ec; congruence].
    rewrite Hc1. by rewrite app_nil_r.
  - rewrite bool_decide_eq_false_2 by (by intros [? ?]). assert (content w !! ID item = None) as Ec by (by apply content_None).
    assert (∀ k q, m (omap_ w) !! k = Some q → (q < p)%nat) as Hlt by apply (wi_alloc w Hw).
    apply (callback_step w _ _ _ _ (<[ID item := item]> (content w))); try done.
    + destruct Hw1 as [H1 H2 H3 H4]. split; cbn in *; try done.
      * intros k q [[<- <-]|[_ Hk]]%lookup_insert_Some; [rewrite length_app; cbn; lia|by eapply H1].
      * intros k k' q [[<- <-]|[_ Hk]]%lookup_insert_Some [[<- Hq]|[_ Hk']]%lookup_insert_Some; try done.
        -- pose proof (Hlt _ _ Hk'). lia.
        -- pose proof (Hlt _ _ Hk). lia.
        -- by eapply H2.
      * intros k q [[<- <-]|[_ Hk]]%lookup_insert_Some; [|by eapply H3]. intros Hin%(wi_handed w Hw). lia.
    + apply map_eq. intros k. rewrite content_lookup. cbn. destruct (decide (k = ID item)) as [->|Hne].
      * rewrite !lookup_insert_eq. cbn. by rewrite list_lookup_middle.
      * rewrite !lookup_insert_ne by done. by rewrite <-Hc1, content_lookup.
    + cbn [ospec]. by rewrite Ec.
Qed.

Lemma Modify_step w k f : winv w → step_ok w (ostep w (OModify k f)) (OModify k f).
Proof.
  intros Hw. unfold ostep, Modify. pose proof (lookup_item_content w k) as Hk. destruct (lookup_item w k) as [[p item]|] eqn:E.
  2: { split; [done|]. exists []. cbn [ospec]. rewrite Hk. cbn. by rewrite app_nil_r. }
  cbn in Hk. apply lookup_item_Some in E as [Hm Hp]. destruct (f item) as [item' modified] eqn:Ef.
  set (w1 := set_objects w (<[p := item']> (objects w))).
  assert (winv w1) as Hw1 by (destruct Hw; split; cbn; rewrite ?length_insert; done).
  assert (content w1 = <[k := item']> (content w)) as Hc1.
  { apply map_eq. intros k'. rewrite content_lookup. cbn. destruct (decide (k' = k)) as [->|Hne].
    - rewrite Hm, lookup_insert_eq. cbn. apply list_lookup_insert_eq. by eapply lookup_lt_Some.
    - rewrite lookup_insert_ne, content_lookup by done. destruct (m (omap_ w) !! k') as [q|] eqn:Hk'; [|done]. cbn.
      apply list_lookup_insert_ne. intros ->. apply Hne. by eapply (wi_apart w Hw). }
  cbn [clone_item]. fold w1. change (mkWorld _ _ _ _) with (clone_item w1 item').1.
  pose proof (clone_inv w1 item' Hw1) as Hw2. pose proof (clone_content w1 item' Hw1) as Hc2. destruct modified; cbn [negb].
  - match goal with |- context [executeItemCallback ?x ?y ?z] => set (w2 := x) in * end.
    destruct (executeItemCallback w2 ItemModified item') as [w3 err] eqn:E3. cbn [fst].
    replace w3 with (executeItemCallback w2 ItemModified item').1 by (by rewrite E3).
    apply (callback_step w w2 _ _ _ (<[k := item']> (content w))); try done; [by rewrite Hc2|]. cbn [ospec]. by rewrite Hk, Ef.
  - cbn [fst]. split; [done|]. exists []. cbn [ospec]. rewrite Hk, Ef, Hc2, Hc1. by rewrite app_nil_r.
Qed.

Lemma Delete_step w k : winv w → step_ok w (ostep w (ODelete k)) (ODelete k).
Proof.
  intros Hw. unfold ostep, Delete. pose proof (lookup_item_content w k) as Hk. destruct (lookup_item w k) as [[p item]|] eqn:E.
  2: { split; [done|]. exists []. cbn [ospec]. rewrite Hk. cbn. by rewrite app_nil_r. }
  cbn in Hk. apply (callback_step w _ _ _ _ (delete k (content w))); try done.
  - destruct Hw as [H1 H2 H3 H4]. split; cbn; try done.
    + intros k' q [_ Hk']%lookup_delete_Some. by eapply H1.
    + intros k1 k2 q [_ Hk1]%lookup_delete_Some [_ Hk2]%lookup_delete_Some. by eapply H2.
    + intros k' q [_ Hk']%lookup_delete_Some. by eapply H3.
  - unfold content. cbn. by rewrite omap_delete.
  - cbn [ospec]. by rewrite Hk.
Qed.

(** Handing out copies changes nothing that the map holds. *)
Record only_copies (w w' : world) : Prop := {
  oc_inv : winv w';
  oc_map : omap_ w' = omap_ w;
  oc_content : content w' = content w;
  oc_events : events w' = events w;
  oc_objects : ∃ os, objects w' = objects w ++ os;
  oc_handed : copies w ⊆ copies w';
}.

Lemma only_copies_refl w : winv w → only_copies w w.
Proof. intros Hw. split; try done. exists []. by rewrite app_nil_r. Qed.

Lemma only_copies_trans w1 w2 w3 : only_copies w1 w2 → only_copies w2 w3 → only_copies w1 w3.
Proof.
  intros [A1 A2 A3 A4 [os A5] A6] [B1 B2 B3 B4 [os' B5] B6]. split; try congruence; [|set_solver]. exists (os ++ os'). by rewrite B5, A5, app_assoc.
Qed.

Lemma clone_only_copies w item : winv w → only_copies w (clone_item w item).1.
Proof. intros Hw. split; try done; [by apply clone_inv|by apply clone_content|by eexists|cbn; set_solver]. Qed.

(** [q] is a copy of [item] that the map does not hold. *)
Definition is_copy (w : world) (q : nat) (item : I) : Prop := objects w !! q = Some (Clone item) ∧ q ∈ copies w.

Lemma clone_is_copy w item : is_copy (clone_item w item).1 (clone_item w item).2 item.
Proof. split; cbn; [by apply list_lookup_middle|left]. Qed.

Lemma is_copy_mono w w' q item : only_copies w w' → is_copy w q item → is_copy w' q item.
Proof.
  intros [_ _ _ _ [os Hos] Hc] [Hq Hin]. split; [|by apply Hc]. rewrite Hos. by apply lookup_app_l_Some.
Qed.

Lemma copies_step w w' o :
  only_copies w w' → ospec (omap_ w) (content w) (callbacksEnabled (omap_ w)) o = (content w, callbacksEnabled (omap_ w), []) → step_ok w w' o.
Proof. intros [H1 H2 H3 H4 _ _] Hs. split; [done|]. exists []. by rewrite Hs, H3, H2, H4, app_nil_r. Qed.

Lemma Get_ok w k :
  winv w → only_copies w (Get w k).1 ∧
  match content w !! k with
  | Some item => ∃ q, (Get w k).2 = inl q ∧ is_copy (Get w k).1 q item
  | None => (Get w k).2 = inr (ErrNew "unable to get item: %s does not exist in map")
  end.
Proof.
  intros Hw. unfold Get. rewrite lookup_item_content. destruct (lookup_item w k) as [[p item]|]; cbn [fmap option_fmap option_map snd fst].
  - split; [by apply (clone_only_copies w item)|]. eexists. split; [done|]. apply (clone_is_copy w item).
  - split; [by apply only_copies_refl|done].
Qed.

Definition all_step : world * gmap K nat → K * nat → world * gmap K nat := λ '(w, itemsCopy) '(key, p),
  match objects w !! p with
  | Some item => let '(w, q) := clone_item w item in (w, <[key := q]> itemsCopy)
  | None => (w, itemsCopy)
  end.

Lemma all_loop l w acc :
  winv w → NoDup l.*1 → (∀ k p, (k, p) ∈ l → ∃ item, objects w !! p = Some item) →
  only_copies w (foldl all_step (w, acc) l).1 ∧
  (∀ k p item, (k, p) ∈ l → objects w !! p = Some item →
    ∃ q, (foldl all_step (w, acc) l).2 !! k = Some q ∧ is_copy (foldl all_step (w, acc) l).1 q item) ∧
  (∀ k, k ∉ l.*1 → (foldl all_step (w, acc) l).2 !! k = acc !! k).
Proof.
  revert w acc. induction l as [|[k p] l IH]; intros w acc Hw Hnd Hex; cbn [foldl].
  - split; [by apply only_copies_refl|]. split; [|done]. intros k p item Hk. by apply not_elem_of_nil in Hk.
  - cbn in Hnd. apply NoDup_cons in Hnd as [Hk Hnd]. destruct (Hex k p) as [item Hp]; [left|].
    assert (all_step (w, acc) (k, p) = ((clone_item w item).1, <[k := (clone_item w item).2]> acc)) as -> by (unfold all_step; by rewrite Hp).
    pose proof (clone_only_copies w item Hw) as Hoc. pose proof (clone_is_copy w item) as Hcp.
    set (w1 := (clone_item w item).1) in *. set (q := (clone_item w item).2) in *.
    destruct (oc_objects _ _ Hoc) as [os Hos].
    assert (∀ p item, objects w !! p = Some item → objects w1 !! p = Some item) as Hkeep by (intros; rewrite Hos; by apply lookup_app_l_Some).
    destruct (IH w1 (<[k := q]> acc)) as (H1 & H2 & H3); [apply Hoc|done| |].
    { intros k' p' Hin. destruct (Hex k' p') as [i Hi]; [by right|]. exists i. by apply Hkeep. }
    split; [by eapply only_copies_trans|]. split.
    + intros k' p' item' Hin Hi. apply elem_of_cons in Hin as [[= -> ->]|Hin]; [|by eapply H2; [|apply Hkeep]].
      rewrite H3, lookup_insert_eq by done. exists q. split; [done|]. assert (item' = item) as -> by congruence. by eapply is_copy_mono.
    + intros k' Hk'. cbn in Hk'. apply not_elem_of_cons in Hk' as [Hne Hk']. rewrite H3 by done. by apply lookup_insert_ne.
Qed.

Lemma All_ok w :
  winv w → only_copies w (All w).1 ∧
  ∀ k, match content w !! k with
       | Some item => ∃ q, (All w).2 !! k = Some q ∧ is_copy (All w).1 q item
       | None => (All w).2 !! k = None
       end.
Proof.
  intros Hw. unfold All. change (λ '(w0, itemsCopy) '(key, p), _) with all_step.
  destruct (all_loop (map_to_list (m (omap_ w))) w ∅ Hw) as (H1 & H2 & H3); [apply NoDup_fst_map_to_list| |].
  { intros k p Hk%elem_of_map_to_list. by eapply item_exists. }
  split; [done|]. intros k. rewrite content_lookup. destruct (m (omap_ w) !! k) as [p|] eqn:E; cbn.
  - destruct (item_exists w k p Hw E) as [item Hi]. rewrite Hi. apply (H2 k p); [by apply elem_of_map_to_list|done].
  - rewrite H3; [by apply lookup_empty|]. intros ((k' & p) & -> & Hin)%list_elem_of_fmap. apply elem_of_map_to_list in Hin. cbn in E. congruence.
Qed.

Lemma ostep_ok w o : winv w → oallowed w o → step_ok w (ostep w o) o.
Proof.
  intros Hw Ho. destruct o as [item|k f|k|k| |b| |p item].
  - by apply Add_step.
  - by apply Modify_step.
  - by apply Delete_step.
  - apply copies_step; [by apply Get_ok|done].
  - apply copies_step; [by apply All_ok|done].
  - split; [by destruct Hw|]. exists []. split; [done|]. cbn. by rewrite app_nil_r.
  - cbn [ostep]. unfold ExecuteChangedCallback. destruct (executeChangedCallback_ok w) as (Hs & He & _).
    split; [by eapply same_inv|]. eexists. rewrite (same_content _ _ Hs), He. cbn [ospec]. by destruct Hs as (_ & -> & _).
  - cbn [ostep]. split; [destruct Hw; split; cbn; rewrite ?length_insert; done|]. exists []. rewrite app_nil_r. split; [|done]. cbn [ospec].
    assert (content (set_objects w (<[p := item]> (objects w))) = content w) as ->; [|done]. apply map_eq. intros k. rewrite !content_lookup. cbn.
    destruct (m (omap_ w) !! k) as [q|] eqn:E; [|done]. cbn. apply list_lookup_insert_ne. intros ->. by apply (wi_copies w Hw k q E).
Qed.

(** Worlds that a map comes to. *)
Inductive oruns (opts : list option_) : world → Prop :=
  | oruns_new os : oruns opts (mkWorld os (NewOnChangeMap opts) [] [])
  | oruns_step w o : oruns opts w → oallowed w o → oruns opts (ostep w o).

Lemma NewOnChangeMap_m opts : m (NewOnChangeMap opts) = ∅.
Proof.
  unfold NewOnChangeMap. assert (∀ r, m r = ∅ → m (foldl apply_option r opts) = ∅) as Hall; [|by apply Hall].
  induction opts as [|o opts IH]; intros r Hr; [done|]. cbn. apply IH. by destruct o.
Qed.

Lemma oruns_inv opts w : oruns opts w → winv w.
Proof.
  induction 1 as [os|w o _ IH Ho]; [|by apply ostep_ok]. split; cbn; rewrite ?NewOnChangeMap_m.
  - intros k p. by rewrite lookup_empty.
  - intros k k' p. by rewrite lookup_empty.
  - intros k p. by rewrite lookup_empty.
  - intros p Hp. by apply not_elem_of_nil in Hp.
Qed.

(** The map answers as a map of items and reports its changes: in every world that its
    operations lead to, an operation changes the content and calls the callbacks as [ospec]
    says (an item callback comes after the one for all items, and not when that one failed);
    what [Get] and [All] hand out are copies, and writing to them does not change the map. *)
Lemma OnChangeMap_refines opts w :
  oruns opts w →
  (∀ o, oallowed w o → ∃ evs,
    ospec (omap_ w) (content w) (callbacksEnabled (omap_ w)) o = (content (ostep w o), callbacksEnabled (omap_ (ostep w o)), evs) ∧
    events (ostep w o) = events w ++ evs) ∧
  (∀ k, match content w !! k with
        | Some item => (∃ q, (Get w k).2 = inl q ∧ is_copy (Get w k).1 q item) ∧ ∃ q, (All w).2 !! k = Some q ∧ is_copy (All w).1 q item
        | None => (Get w k).2 = inr (ErrNew "unable to get item: %s does not exist in map") ∧ (All w).2 !! k = None
        end).
Proof.
  intros Hw%oruns_inv. split; [intros o Ho; by apply ostep_ok|]. intros k. destruct (Get_ok w k Hw) as [_ Hg]. destruct (All_ok w Hw) as [_ Ha].
  specialize (Ha k). by destruct (content w !! k).
Qed.
End onchangemap.

(** [Add] keeps the object of its caller: a write to it changes the map without a callback. *)
Lemma Add_shares_item :
  let w := CallbacksEnabled (mkWorld [(1, 10)] (NewOnChangeMap [WithItemModifiedCallback (λ _ : Z * Z, None)]) [] []) true in
  let w := (Add fst w 0).1 in
  content w = {[1 := (1, 10)]} ∧ content (set_objects w [(1, 20)]) = {[1 := (1, 20)]} ∧ events (set_objects w [(1, 20)]) = [].
Proof. by vm_compute. Qed.

(** A callback that fails does not take the change back. *)
Lemma failed_Add_stays :
  let w := CallbacksEnabled (mkWorld [(1, 10)] (NewOnChangeMap [WithItemAddedCallback (λ _ : Z * Z, Some (ErrNew "full"))]) [] []) true in
  (Add fst w 0).2 ≠ None ∧ content (Add fst w 0).1 = {[1 := (1, 10)]}.
Proof. by vm_compute. Qed.
