(* ===== verification/Logger.v ===== *)
(** * log

    The loggers of [src/log/logger_impl.go] and [level.go]: a tree of loggers whose levels are
    reactive variables, inherited from the parent.  A change of a variable runs its callbacks (the
    one that sets the level, those of the child loggers, those of [OnLogLevelActive]) before the
    call returns, and they do not look at each other, so a call is one function on the state of
    all loggers.  A logger is a place in [loggers]; the nil logger is [None].  The handler that
    prints a record is not modelled: [Log] says whether there is a record, and its path. *)

From stdpp Require Import relations pretty.
From S2P Require Import Prelude.

Definition LevelTrace : Z := -8.
Definition LevelDebug : Z := -4.
Definition LevelInfo : Z := 0.
Definition LevelWarning : Z := 4.
Definition LevelError : Z := 8.
Definition LevelFatal : Z := 12.
Definition LevelPanic : Z := 16.

Definition LevelName (level : Z) : string :=
  if level =? LevelTrace then "TRACE" else if level =? LevelDebug then "DEBUG" else if level =? LevelInfo then "INFO"
  else if level =? LevelWarning then "WARNING" else if level =? LevelError then "ERROR"
  else if level =? LevelFatal then "FATAL" else if level =? LevelPanic then "PANIC" else "UNKNOWN".

Definition LevelFromString (level : string) : Z + error :=
  if bool_decide (level ∈ ["trace"; "TRACE"]%string) then inl LevelTrace
  else if bool_decide (level ∈ ["debug"; "DEBUG"]%string) then inl LevelDebug
  else if bool_decide (level ∈ ["info"; "INFO"]%string) then inl LevelInfo
  else if bool_decide (level ∈ ["warning"; "WARNING"]%string) then inl LevelWarning
  else if bool_decide (level ∈ ["error"; "ERROR"]%string) then inl LevelError
  else if bool_decide (level ∈ ["fatal"; "FATAL"]%string) then inl LevelFatal
  else if bool_decide (level ∈ ["panic"; "PANIC"]%string) then inl LevelPanic
  else inr (ErrNew "unknown log level: %s").

Record logger : Type := mkLogger {
  name : string;
  path : string;
  parentLogger : option nat;
  subscribed : bool;              (* to the level of the parent *)
  level : Z;
  reactiveLevel : Z;
  entityNameCounters : gmap string Z;
}.

(** A registration of [OnLogLevelActive]: [shutdownEvent] is nil or not, and the calls of [setup] and
    of the functions it returned. *)
Record activation : Type := mkActivation {
  a_logger : nat;
  logLevel : Z;
  registered : bool;
  shutdownEvent : bool;
  setups : Z;
  shutdowns : Z;
}.

Record state : Type := mkState { loggers : list logger; activations : list activation }.

Definition set_levels (x : logger) (v : Z) : logger :=
  mkLogger (name x) (path x) (parentLogger x) (subscribed x) v v (entityNameCounters x).

(** The callback of [OnLogLevelActive]. *)
Definition level_changed (newLevel : Z) (a : activation) : activation :=
  if newLevel <=? logLevel a then
    if shutdownEvent a then a
    else mkActivation (a_logger a) (logLevel a) (registered a) true (setups a + 1) (shutdowns a)
  else if shutdownEvent a then mkActivation (a_logger a) (logLevel a) (registered a) false (setups a) (shutdowns a + 1)
  else a.

Definition run_activation (l : nat) (newLevel : Z) (a : activation) : activation :=
  if bool_decide (a_logger a = l) && registered a then level_changed newLevel a else a.

(** The loggers that inherit from [l]. *)
Definition inherits (l : nat) (x : logger) : bool := bool_decide (parentLogger x = Some l) && subscribed x.
Definition children (st : state) (l : nat) : list nat :=
  List.filter (λ c, from_option (inherits l) false (loggers st !! c)) (seq 0 (length (loggers st))).

(** [reactiveLevel.Set] with its callbacks; the fuel is the number of loggers, children come after their
    parents. *)
Fixpoint set_level (fuel : nat) (st : state) (l : nat) (v : Z) : state :=
  match fuel with
  | O => st
  | S fuel =>
      match loggers st !! l with
      | None => st
      | Some x =>
          if reactiveLevel x =? v then st
          else
            foldl (λ st c, set_level fuel st c v)
              (mkState (<[l := set_levels x v]> (loggers st)) (run_activation l v <$> activations st)) (children st l)
      end
  end.

Definition newLogger (st : state) (parent : option nat) (n : string) : state * nat :=
  let p := parent ≫= λ p, loggers st !! p in
  let l := length (loggers st) in
  let pth :=
    match p with
    | Some p => if bool_decide (path p = EmptyString) then n else path p +:+ "." +:+ n
    | None => n
    end in
  let v := from_option reactiveLevel 0 p in
  (mkState (loggers st ++ [mkLogger n pth parent (bool_decide (is_Some parent)) v v ∅]) (activations st), l).

Definition SetLogLevel (st : state) (l : option nat) (v : Z) : state :=
  match l with Some l => set_level (length (loggers st)) st l v | None => st end.

Definition NewLogger (st : state) (n : string) (v : Z) : state * nat :=
  let '(st, l) := newLogger st None n in (SetLogLevel st (Some l) v, l).

Definition LogName (st : state) (l : option nat) : string :=
  match l with Some l => from_option name "<nil>" (loggers st !! l) | None => "<nil>" end.
Definition LogPath (st : state) (l : option nat) : string :=
  match l with Some l => from_option path "<nil>" (loggers st !! l) | None => "<nil>" end.
Definition LogLevel (st : state) (l : option nat) : Z :=
  match l with Some l => from_option level LevelInfo (loggers st !! l) | None => LevelInfo end.

Definition OnLogLevelActive (st : state) (l : option nat) (v : Z) : state :=
  match l with
  | None => st
  | Some l =>
      let current := from_option reactiveLevel 0 (loggers st !! l) in
      mkState (loggers st) (activations st ++ [level_changed current (mkActivation l v true false 0 0)])
  end.

(** The function that [OnLogLevelActive] returns; the event of a registration is triggered once. *)
Definition unsubscribe_active (st : state) (i : nat) : state :=
  mkState (loggers st)
    (alter (λ a, mkActivation (a_logger a) (logLevel a) false false (setups a) (if shutdownEvent a then shutdowns a + 1 else shutdowns a))
       i (activations st)).

(** A record that is emitted. *)
Definition Log (st : state) (l : option nat) (lv : Z) (msg : string) : option (Z * string * string) :=
  match l with
  | Some l =>
      match loggers st !! l with
      | Some x => if level x <=? lv then Some (lv, path x, msg) else None
      | None => None
      end
  | None => None
  end.

Definition LogTrace (st : state) (l : option nat) (msg : string) : option (Z * string * string) := Log st l LevelTrace msg.
Definition LogDebug (st : state) (l : option nat) (msg : string) : option (Z * string * string) := Log st l LevelDebug msg.
Definition LogInfo (st : state) (l : option nat) (msg : string) : option (Z * string * string) := Log st l LevelInfo msg.
Definition LogWarn (st : state) (l : option nat) (msg : string) : option (Z * string * string) := Log st l LevelWarning msg.
Definition LogError (st : state) (l : option nat) (msg : string) : option (Z * string * string) := Log st l LevelError msg.

(** The record, and the panic. *)
Definition LogPanic (st : state) (l : option nat) (msg : string) : option (Z * string * string) * outcome unit :=
  (Log st l LevelPanic msg, Panic msg).

Definition set_counters (x : logger) (cs : gmap string Z) : logger :=
  mkLogger (name x) (path x) (parentLogger x) (subscribed x) (level x) (reactiveLevel x) cs.

Definition uniqueEntityName (st : state) (l : nat) (n : string) : state * string :=
  match loggers st !! l with
  | Some x =>
      let c := default 0 (entityNameCounters x !! n) in
      (mkState (<[l := set_counters x (<[n := c + 1]> (entityNameCounters x))]> (loggers st)) (activations st), n +:+ pretty c)
  | None => (st, n)
  end.

Definition NewChildLogger (st : state) (l : option nat) (n : string) (enumerateChildren : bool) : state * option nat :=
  match l with
  | None => (st, None)
  | Some l =>
      let '(st, n) := if enumerateChildren then uniqueEntityName st l n else (st, n) in
      let '(st, c) := newLogger st (Some l) n in
      (st, Some c)
  end.

Definition ParentLogger (st : state) (l : option nat) : option nat :=
  match l with Some l => loggers st !! l ≫= parentLogger | None => None end.

(** [Shutdown] of a child; that of a root shuts the handler down. *)
Definition Shutdown (st : state) (l : option nat) : state :=
  match l with
  | None => st
  | Some l =>
      mkState (alter (λ x, mkLogger (name x) (path x) (parentLogger x) false (level x) (reactiveLevel x) (entityNameCounters x)) l (loggers st))
        (activations st)
  end.

(** ** Invariant *)

Definition lv (st : state) (c : nat) : Z := from_option reactiveLevel 0 (loggers st !! c).

(** What [SetLogLevel] does not change. *)
Definition static (st : state) : list logger := (λ x, set_levels x 0) <$> loggers st.

(** The logger [c] inherits from [p]. *)
Definition link (st : state) (p c : nat) : Prop := ∃ x, loggers st !! c = Some x ∧ inherits p x = true.

Definition below (st : state) : nat → nat → Prop := rtc (link st).

Definition activation_ok (st : state) (a : activation) : Prop :=
  (a_logger a < length (loggers st))%nat ∧
  setups a = shutdowns a + (if shutdownEvent a then 1 else 0) ∧
  shutdownEvent a = registered a && (lv st (a_logger a) <=? logLevel a).

Record st_ok (st : state) : Prop := {
  so_parent l x p : loggers st !! l = Some x → parentLogger x = Some p → (p < l)%nat;
  so_level l x : loggers st !! l = Some x → level x = reactiveLevel x;
  so_active a : a ∈ activations st → activation_ok st a;
}.

Lemma static_length st st' : static st' = static st → length (loggers st') = length (loggers st).
Proof. intros E. apply (f_equal length) in E. unfold static in E. by rewrite !length_fmap in E. Qed.

Lemma static_lookup st st' c x :
  static st' = static st → loggers st !! c = Some x → ∃ x', loggers st' !! c = Some x' ∧ set_levels x' 0 = set_levels x 0.
Proof.
  intros E Hc. apply (f_equal (λ l, l !! c)) in E. unfold static in E. rewrite !list_lookup_fmap, Hc in E. cbn in E.
  destruct (loggers st' !! c) as [x'|]; [|done]. exists x'. split; [done|]. by apply (inj Some) in E.
Qed.

Lemma static_link st st' p c : static st' = static st → link st p c → link st' p c.
Proof.
  intros E (x & Hx & Hp). destruct (static_lookup st st' c x E Hx) as (x' & Hx' & Es). exists x'. split; [done|].
  unfold inherits in *. injection Es as _ _ Ep Es _. by rewrite Ep, Es.
Qed.

Lemma static_below st st' p c : static st' = static st → below st p c → below st' p c.
Proof. intros E. apply rtc_subrel. intros x y. by apply static_link. Qed.

Lemma link_lt st p c : st_ok st → link st p c → (p < c < length (loggers st))%nat.
Proof.
  intros Hs (x & Hx & Hp). apply andb_true_iff in Hp as [Hp%bool_decide_eq_true _]. split; [by eapply so_parent|by eapply lookup_lt_Some].
Qed.

Lemma below_le st p c : st_ok st → below st p c → (p ≤ c)%nat.
Proof. intros Hs. induction 1 as [|x y z Hl _ IH]; [done|]. pose proof (link_lt st x y Hs Hl). lia. Qed.

Lemma children_link st l c : c ∈ children st l ↔ link st l c.
Proof.
  unfold children. rewrite list_elem_of_In, filter_In, in_seq. unfold link. split.
  - intros [_ Hc]. destruct (loggers st !! c) as [x|]; [|done]. by exists x.
  - intros (x & Hx & Hp). split; [pose proof (lookup_lt_Some _ _ _ Hx); lia|]. by rewrite Hx.
Qed.

(** ** Setting a level *)

Record changed (v : Z) (st st' : state) : Prop := {
  ch_static : static st' = static st;
  ch_level c : lv st' c = lv st c ∨ lv st' c = v;
  (* a change of a logger goes on to those that inherit from it *)
  ch_link p c : link st p c → lv st' p = lv st p ∨ lv st' c = v;
}.

Lemma changed_refl v st : changed v st st.
Proof. split; try done; by left. Qed.

Lemma changed_trans v st1 st2 st3 : changed v st1 st2 → changed v st2 st3 → changed v st1 st3.
Proof.
  intros [A1 A2 A3] [B1 B2 B3]. split; [congruence| |].
  - intros c. destruct (B2 c) as [->|]; [apply A2|by right].
  - intros p c Hl. destruct (B3 p c) as [->|]; [by eapply static_link| |by right].
    destruct (A3 p c Hl) as [|E]; [by left|]. right. destruct (B2 c) as [->|]; done.
Qed.

Lemma changed_keeps v st st' c : changed v st st' → lv st c = v → lv st' c = v.
Proof. intros [_ H _] E. destruct (H c); congruence. Qed.

(** The logger itself, before its children. *)
Definition set_one (st : state) (l : nat) (x : logger) (v : Z) : state :=
  mkState (<[l := set_levels x v]> (loggers st)) (run_activation l v <$> activations st).

Lemma set_one_lv st l x v c : loggers st !! l = Some x → lv (set_one st l x v) c = if decide (c = l) then v else lv st c.
Proof.
  intros Hl. unfold lv, set_one. cbn. destruct (decide (c = l)) as [->|Hne].
  - by rewrite list_lookup_insert_eq by (by eapply lookup_lt_Some).
  - by rewrite list_lookup_insert_ne.
Qed.

Lemma set_one_static st l x v : loggers st !! l = Some x → static (set_one st l x v) = static st.
Proof.
  intros Hl. unfold static, set_one. cbn. rewrite list_fmap_insert. apply list_insert_id. by rewrite list_lookup_fmap, Hl.
Qed.

Lemma set_one_ok st l x v : st_ok st → loggers st !! l = Some x → st_ok (set_one st l x v).
Proof.
  intros [H1 H2 H3] Hl. split.
  - cbn. intros c y p [[<- ->]|[_ Hc]]%lookup_insert_case; [by apply (H1 l x)|by apply H1].
  - cbn. intros c y [[<- ->]|[_ Hc]]%lookup_insert_case; [done|by eapply H2].
  - cbn. intros a (b & -> & Hb)%list_elem_of_fmap. destruct (H3 b Hb) as (Ha & Hc & Hr). unfold activation_ok.
    unfold run_activation. destruct (bool_decide (a_logger b = l)) eqn:El; cbn [andb].
    + apply bool_decide_eq_true in El as <-. destruct (registered b) eqn:Er.
      * assert (a_logger (level_changed v b) = a_logger b ∧ logLevel (level_changed v b) = logLevel b ∧ registered (level_changed v b) = true) as (-> & -> & ->).
        { unfold level_changed. destruct (v <=? logLevel b), (shutdownEvent b); done. }
        rewrite set_one_lv, decide_True by done. split; [cbn; by rewrite length_insert|].
        unfold level_changed. destruct (v <=? logLevel b) eqn:Ev, (shutdownEvent b) eqn:Es; cbn; rewrite ?Es, ?Ev; (split; [lia|done]).
      * rewrite Er. cbn in Hr. split; [cbn; by rewrite length_insert|]. split; [done|]. done.
    + apply bool_decide_eq_false in El. rewrite set_one_lv, decide_False by done. split; [cbn; by rewrite length_insert|done].
Qed.

(** What setting the level of [l] does. *)
Record level_set (v : Z) (l : nat) (st st' : state) : Prop := {
  ls_ok : st_ok st';
  ls_changed : changed v st st';
  ls_self : lv st' l = v;
  ls_other c : ¬ below st l c → lv st' c = lv st c;
}.

Lemma set_children_ok fuel v cs st :
  (∀ st l, st_ok st → (l < length (loggers st) ≤ l + fuel)%nat → level_set v l st (set_level fuel st l v)) →
  st_ok st → (∀ c, c ∈ cs → (c < length (loggers st) ≤ c + fuel)%nat) →
  let st' := foldl (λ st c, set_level fuel st c v) st cs in
  st_ok st' ∧ changed v st st' ∧ (∀ c, c ∈ cs → lv st' c = v) ∧ ∀ d, (∀ c, c ∈ cs → ¬ below st c d) → lv st' d = lv st d.
Proof.
  intros IH. revert st. induction cs as [|c cs IHcs]; intros st Hst Hcs; cbn [foldl].
  - split; [done|]. split; [apply changed_refl|]. split; [|done]. intros c Hc. by apply not_elem_of_nil in Hc.
  - destruct (IH st c Hst) as [H1 H2 H3 H4]; [apply Hcs; left|]. set (st1 := set_level fuel st c v) in *.
    pose proof (static_length _ _ (ch_static _ _ _ H2)) as Hlen.
    destruct (IHcs st1 H1) as (G1 & G2 & G3 & G4); [intros d Hd; rewrite Hlen; apply Hcs; by right|].
    split; [done|]. split; [by eapply changed_trans|]. split.
    + intros d [->|Hd]%elem_of_cons; [by eapply changed_keeps|by apply G3].
    + intros d Hd. rewrite G4; [apply H4, Hd; left|]. intros e He Hb. apply (Hd e); [by right|].
      eapply static_below; [|exact Hb]. symmetry. apply H2.
Qed.

Lemma set_level_ok fuel v st l :
  st_ok st → (l < length (loggers st) ≤ l + fuel)%nat → level_set v l st (set_level fuel st l v).
Proof.
  revert st l. induction fuel as [|fuel IH]; intros st l Hst Hl; [lia|]. cbn [set_level].
  destruct (lookup_lt_is_Some_2 (loggers st) l ltac:(lia)) as [x Hx]. rewrite Hx. destruct (Z.eqb_spec (reactiveLevel x) v) as [Hv|Hv].
  - split; [done|apply changed_refl| |done]. unfold lv. by rewrite Hx.
  - fold (set_one st l x v). set (st1 := set_one st l x v).
    pose proof (set_one_static st l x v Hx) as Hstat. pose proof (set_one_lv st l x v) as Hlv. fold st1 in Hstat, Hlv.
    assert (length (loggers st1) = length (loggers st)) as Hlen by (by apply static_length).
    destruct (set_children_ok fuel v (children st l) st1 IH) as (G1 & G2 & G3 & G4).
    { by apply set_one_ok. }
    { intros c Hc%children_link%(link_lt st); [|done]. lia. }
    set (st' := foldl _ st1 _) in *.
    assert (lv st' l = v) as Hself by (eapply changed_keeps; [done|]; rewrite Hlv by done; by rewrite decide_True).
    split; [done| |done|].
    + split; [rewrite (ch_static _ _ _ G2); done| |].
      * intros c. destruct (ch_level _ _ _ G2 c) as [->|]; [|by right]. rewrite Hlv by done. destruct (decide (c = l)); [by right|by left].
      * intros p c Hpc. destruct (decide (p = l)) as [->|Hne]; [right; by apply G3, children_link|].
        destruct (ch_link _ _ _ G2 p c) as [->|]; [by eapply static_link| |by right]. left. rewrite Hlv by done. by rewrite decide_False.
    + intros c Hc. assert (c ≠ l) as Hne by (intros ->; apply Hc; apply rtc_refl).
      rewrite G4; [rewrite Hlv by done; by rewrite decide_False|]. intros d Hd%children_link Hb. apply Hc. eapply rtc_l; [done|].
      eapply static_below; [|exact Hb]. done.
Qed.

(** ** The other operations *)

Lemma lv_ext st st' : loggers st' = loggers st → ∀ c, lv st' c = lv st c.
Proof. intros E c. unfold lv. by rewrite E. Qed.

Lemma activation_ok_ext st st' a :
  (∀ c, lv st' c = lv st c ∨ (length (loggers st) ≤ c)%nat) → (length (loggers st) ≤ length (loggers st'))%nat →
  activation_ok st a → activation_ok st' a.
Proof. intros Hl Hlen (H1 & H2 & H3). split; [lia|]. split; [done|]. destruct (Hl (a_logger a)) as [->|]; [done|lia]. Qed.

Lemma newLogger_ok st parent n :
  st_ok st → (∀ p, parent = Some p → (p < length (loggers st))%nat) →
  st_ok (newLogger st parent n).1 ∧ lv (newLogger st parent n).1 (newLogger st parent n).2 = from_option (lv st) 0 parent ∧
  ∀ c, (c < length (loggers st))%nat → lv (newLogger st parent n).1 c = lv st c.
Proof.
  intros [H1 H2 H3] Hp. assert (∀ c, (c < length (loggers st))%nat → lv (newLogger st parent n).1 c = lv st c) as Hold.
  { intros c Hc. unfold lv, newLogger. cbn. by rewrite lookup_app_l. }
  split; [|split; [|done]].
  - split.
    + cbn. intros l x p [Hl|[-> ->]]%lookup_snoc_Some Hx; [by eapply H1|by apply Hp].
    + cbn. intros l x [Hl|[-> ->]]%lookup_snoc_Some; [by eapply H2|done].
    + cbn. intros a Ha. apply (activation_ok_ext st); [|cbn; rewrite length_app; lia|by apply H3].
      intros c. destruct (decide (c < length (loggers st))%nat); [left; by apply Hold|right; lia].
  - unfold lv at 1, newLogger. cbn. rewrite list_lookup_middle by done. cbn. destruct parent as [p|]; [|done]. cbn. done.
Qed.

Lemma level_changed_ok st l v w :
  (l < length (loggers st))%nat → lv st l = v → activation_ok st (level_changed v (mkActivation l w true false 0 0)).
Proof.
  intros Hl Hv. unfold level_changed, activation_ok. cbn. destruct (v <=? w) eqn:E; cbn; rewrite Hv, E; done.
Qed.

Lemma OnLogLevelActive_ok st l v : st_ok st → (l < length (loggers st))%nat → st_ok (OnLogLevelActive st (Some l) v).
Proof.
  intros [H1 H2 H3] Hl. split; cbn; [done|done|]. intros a [Ha|Ha]%elem_of_app; [by apply H3|]. apply list_elem_of_singleton in Ha as ->.
  by apply (level_changed_ok st).
Qed.

Lemma unsubscribe_active_ok st i : st_ok st → st_ok (unsubscribe_active st i).
Proof.
  intros [H1 H2 H3]. split; cbn; [done|done|]. intros a [j Hj]%list_elem_of_lookup. destruct (decide (j = i)) as [->|Hne].
  - rewrite list_lookup_alter_eq in Hj. destruct (activations st !! i) as [b|] eqn:Hb; [|done]. injection Hj as <-.
    destruct (H3 b) as (Hl & Hc & Hr); [by eapply list_elem_of_lookup_2|]. split; [done|]. cbn. split; [|done]. destruct (shutdownEvent b); lia.
  - rewrite list_lookup_alter_ne in Hj by done. apply H3. by eapply list_elem_of_lookup_2.
Qed.

(** Replacing a logger by one with the same levels and the same parent. *)
Lemma replace_ok st l f :
  (∀ x, level (f x) = level x ∧ reactiveLevel (f x) = reactiveLevel x ∧ parentLogger (f x) = parentLogger x) →
  st_ok st → st_ok (mkState (alter f l (loggers st)) (activations st)) ∧ ∀ c, lv (mkState (alter f l (loggers st)) (activations st)) c = lv st c.
Proof.
  intros Hf [H1 H2 H3]. assert (∀ c y, alter f l (loggers st) !! c = Some y → ∃ x, loggers st !! c = Some x ∧ (y = x ∨ y = f x)) as Hback.
  { intros c y. destruct (decide (c = l)) as [->|Hne]; [|rewrite list_lookup_alter_ne by done; eauto].
    rewrite list_lookup_alter_eq. destruct (loggers st !! l) as [x|]; [|done]. intros [= <-]. eauto. }
  assert (∀ c, lv (mkState (alter f l (loggers st)) (activations st)) c = lv st c) as Hlv.
  { intros c. unfold lv. cbn. destruct (decide (c = l)) as [->|Hne]; [|by rewrite list_lookup_alter_ne].
    rewrite list_lookup_alter_eq. destruct (loggers st !! l) as [x|]; [|done]. apply Hf. }
  split; [|done]. split; cbn.
  - intros c y p (x & Hx & Hy)%Hback Hp. eapply (H1 c x); [done|]. destruct Hy as [->| ->]; [done|]. by rewrite (proj2 (proj2 (Hf x))) in Hp.
  - intros c y (x & Hx & [->| ->])%Hback; [by eapply H2|]. destruct (Hf x) as (-> & -> & _). by eapply H2.
  - intros a Ha. apply (activation_ok_ext st); [left; apply Hlv|cbn; by rewrite length_alter|by apply H3].
Qed.

Lemma Shutdown_ok st l : st_ok st → st_ok (Shutdown st (Some l)) ∧ ∀ c, lv (Shutdown st (Some l)) c = lv st c.
Proof. by apply replace_ok. Qed.

Lemma uniqueEntityName_ok st l n : st_ok st → st_ok (uniqueEntityName st l n).1 ∧ ∀ c, lv (uniqueEntityName st l n).1 c = lv st c.
Proof.
  intros Hst. unfold uniqueEntityName. destruct (loggers st !! l) as [x|] eqn:Hx; [|done]. cbn.
  set (cs := <[n := _]> (entityNameCounters x)). destruct (replace_ok st l (λ y, set_counters y cs)) as [Hok Hlv]; [done|done|].
  assert (alter (λ y, set_counters y cs) l (loggers st) = <[l := set_counters x cs]> (loggers st)) as <-; [|done].
  apply list_eq. intros c. destruct (decide (c = l)) as [->|Hne].
  - rewrite list_lookup_alter_eq, Hx, list_lookup_insert_eq by (by eapply lookup_lt_Some). done.
  - by rewrite list_lookup_alter_ne, list_lookup_insert_ne.
Qed.

(** ** Runs *)

Inductive lop : Type :=
  | LNewLogger (n : string) (v : Z)
  | LNewChildLogger (l : nat) (n : string) (enumerateChildren : bool)
  | LSetLogLevel (l : nat) (v : Z)
  | LOnLogLevelActive (l : nat) (v : Z)
  | LUnsubscribe (i : nat)
  | LShutdown (l : nat).

Definition lstep (st : state) (o : lop) : state :=
  match o with
  | LNewLogger n v => (NewLogger st n v).1
  | LNewChildLogger l n e => (NewChildLogger st (Some l) n e).1
  | LSetLogLevel l v => SetLogLevel st (Some l) v
  | LOnLogLevelActive l v => OnLogLevelActive st (Some l) v
  | LUnsubscribe i => unsubscribe_active st i
  | LShutdown l => Shutdown st (Some l)
  end.

(** The loggers that are used exist. *)
Definition lallowed (st : state) (o : lop) : Prop :=
  match o with
  | LNewChildLogger l _ _ | LSetLogLevel l _ | LOnLogLevelActive l _ | LShutdown l => (l < length (loggers st))%nat
  | _ => True
  end.

Inductive lruns : state → Prop :=
  | lruns_new : lruns (mkState [] [])
  | lruns_step st o : lruns st → lallowed st o → lruns (lstep st o).

Lemma SetLogLevel_ok st l v : st_ok st → (l < length (loggers st))%nat → level_set v l st (SetLogLevel st (Some l) v).
Proof. intros Hst Hl. apply set_level_ok; [done|lia]. Qed.

Lemma lstep_ok st o : st_ok st → lallowed st o → st_ok (lstep st o).
Proof.
  intros Hst Ho. destruct o as [n v|l n e|l v|l v|i|l]; cbn [lstep lallowed] in *.
  - unfold NewLogger. destruct (newLogger_ok st None n Hst) as (H1 & _ & _); [done|]. destruct (newLogger st None n) as [st1 l] eqn:E.
    apply (SetLogLevel_ok st1 l v H1). injection E as <- <-. cbn. rewrite length_app. cbn. lia.
  - unfold NewChildLogger. assert (∃ st1 n1, (if e then uniqueEntityName st l n else (st, n)) = (st1, n1) ∧ st_ok st1 ∧ (l < length (loggers st1))%nat) as (st1 & n1 & -> & H1 & H2).
    { destruct e; [|by exists st, n]. pose proof (uniqueEntityName_ok st l n Hst) as [Hu _]. destruct (uniqueEntityName st l n) as [st1 n1] eqn:E. exists st1, n1.
      split; [done|]. split; [done|]. unfold uniqueEntityName in E. destruct (loggers st !! l); injection E as <- _; [|done]. cbn. by rewrite length_insert. }
    cbn. apply (newLogger_ok st1 (Some l) n1 H1). by intros p [= <-].
  - by apply SetLogLevel_ok.
  - by apply OnLogLevelActive_ok.
  - by apply unsubscribe_active_ok.
  - by apply Shutdown_ok.
Qed.

Lemma lruns_ok st : lruns st → st_ok st.
Proof.
  induction 1 as [|st o _ IH Ho]; [|by apply lstep_ok]. split; cbn; [by intros l x p|by intros l x|]. intros a Ha. by apply not_elem_of_nil in Ha.
Qed.

(** Every logger that inherits has the level of its parent. *)
Definition inherited (st : state) : Prop := ∀ p c, link st p c → lv st c = lv st p.

(** Levels are inherited.  In every state that the loggers come to, [SetLogLevel] gives the
    logger its level, changes no logger but those below it, gives these the new level or leaves
    them, and goes on from every logger that it changes to those that inherit from it; when the
    levels agreed before, all loggers below get the new level.  What a logger compares with is
    the level that was set.  And for every registration of [OnLogLevelActive], [setup] was called
    once more than the functions it returned exactly when the level is active and it was not
    unsubscribed. *)
Lemma Logger_levels st l v :
  lruns st → (l < length (loggers st))%nat →
  let st' := SetLogLevel st (Some l) v in
  LogLevel st' (Some l) = v ∧
  (∀ c, ¬ below st l c → lv st' c = lv st c) ∧
  changed v st st' ∧
  (inherited st → ∀ c, below st l c → lv st' c = v) ∧
  (∀ c x, loggers st' !! c = Some x → level x = lv st' c) ∧
  (∀ a, a ∈ activations st' →
    setups a = shutdowns a + (if registered a && (lv st' (a_logger a) <=? logLevel a) then 1 else 0)).
Proof.
  intros Hst%lruns_ok Hl st'. destruct (SetLogLevel_ok st l v Hst Hl) as [H1 H2 H3 H4]. fold st' in H1, H2, H3, H4.
  pose proof (static_length _ _ (ch_static _ _ _ H2)) as Hlen. split_and!; try done.
  - destruct (lookup_lt_is_Some_2 (loggers st') l ltac:(lia)) as [x Hx]. unfold LogLevel, lv in *. rewrite Hx in *. cbn in *. by rewrite (so_level _ H1 l x Hx).
  - intros Hin. apply (rtc_ind_r (λ c, lv st' c = v) l); [done|]. intros x y _ Hxy IH.
    destruct (ch_link _ _ _ H2 x y Hxy) as [Ex|]; [|done]. destruct (ch_level _ _ _ H2 y) as [->|]; [|done]. rewrite (Hin x y Hxy). congruence.
  - intros c x Hx. unfold lv. rewrite Hx. by apply (so_level _ H1 c).
  - intros a Ha. destruct (so_active _ H1 a Ha) as (_ & -> & ->). done.
Qed.

(** ** Names *)

Lemma LevelFromString_LevelName v :
  v ∈ [LevelTrace; LevelDebug; LevelInfo; LevelWarning; LevelError; LevelFatal; LevelPanic] → LevelFromString (LevelName v) = inl v.
Proof. rewrite !elem_of_cons, elem_of_nil. by intros [->|[->|[->|[->|[->|[->|[->|[]]]]]]]]. Qed.

(** The path of a new logger is that of its parent with its name. *)
Lemma NewChildLogger_path st l x n :
  loggers st !! l = Some x →
  LogPath (NewChildLogger st (Some l) n false).1 (NewChildLogger st (Some l) n false).2 =
    if bool_decide (path x = EmptyString) then n else path x +:+ "." +:+ n.
Proof. intros Hx. cbn. rewrite Hx, list_lookup_middle by done. done. Qed.

(** Names that were given to loggers of the same kind differ. *)
Fixpoint unique_names (st : state) (l : nat) (n : string) (k : nat) : list string :=
  match k with
  | O => []
  | S k => (uniqueEntityName st l n).2 :: unique_names (uniqueEntityName st l n).1 l n k
  end.

Lemma unique_names_from st l x n k :
  loggers st !! l = Some x →
  unique_names st l n k = (λ i, n +:+ pretty (default 0 (entityNameCounters x !! n) + Z.of_nat i)) <$> seq 0 k.
Proof.
  revert st x. induction k as [|k IH]; intros st x Hx; [done|]. cbn [unique_names seq]. unfold uniqueEntityName at 1 2. rewrite Hx. cbn [fst snd].
  set (x' := set_counters x _). rewrite (IH _ x') by (cbn; apply list_lookup_insert_eq; by eapply lookup_lt_Some).
  rewrite fmap_cons. f_equal; [f_equal; f_equal; lia|]. rewrite <-(fmap_S_seq 0 k), <-list_fmap_compose. apply list_fmap_ext. intros _ i _.
  unfold x'. cbn. rewrite lookup_insert_eq. cbn. f_equal. f_equal. lia.
Qed.

Lemma unique_names_differ st l x n k : loggers st !! l = Some x → NoDup (unique_names st l n k).
Proof.
  intros Hx. rewrite (unique_names_from st l x n k Hx). apply NoDup_fmap_2_strong; [|apply NoDup_ListNoDup, seq_NoDup].
  intros i j _ _ E. apply (inj (String.append n)), (inj pretty) in E. lia.
Qed.

(** But the names of two kinds may be the same: the eleventh of one and the first of another. *)
Lemma unique_names_collide :
  let st := (NewLogger (mkState [] []) "node" LevelInfo).1 in
  unique_names st 0 "peer" 11 !! 10%nat = Some "peer10" ∧ unique_names st 0 "peer1" 1 = ["peer10"].
Proof. by vm_compute. Qed.

(** A logger that has the new level already does not pass it on. *)
Lemma level_stops_halfway :
  let st := (NewLogger (mkState [] []) "node" LevelInfo).1 in
  let st := (NewChildLogger st (Some 0%nat) "a" false).1 in
  let st := (NewChildLogger st (Some 1%nat) "b" false).1 in
  let st := SetLogLevel (SetLogLevel st (Some 1%nat) LevelDebug) (Some 2%nat) LevelError in
  LogLevel (SetLogLevel st (Some 0%nat) LevelDebug) (Some 2%nat) = LevelError ∧
  LogLevel (SetLogLevel st (Some 0%nat) LevelWarning) (Some 2%nat) = LevelWarning.
Proof. by vm_compute. Qed.
