(* ===== verification/TimedQueue.v ===== *)
(** * runtime/timed: the queue

    [src/runtime/timed/queue.go], [heapkey.go] and [priority_queue.go], over the
    heap of [Heap.v].  The queue is a transition system of goroutines that call
    [Poll], [Add], [Cancel] and [Shutdown]:

    - the critical sections of [heapMutex] and [shutdownMutex], the signals of the
      condition variable, and the choices of [select] are one step each; what is
      ready in a [select] may be chosen;
    - times are numbers of nanoseconds, the clock does not go back, and a timer
      for a time has fired when the clock has reached it;
    - [history] keeps what happened to the elements and is not read by the code. *)

From stdpp Require Import relations.
From S2P Require Import Prelude Heap BitMask.

(** ** Keys *)

Record HeapKey : Type := mkKey { nanos : Z }.

(** [time.Time.Before] and [After]. *)
Definition compare_times (a b : Z) : Z := if a <? b then -1 else if b <? a then 1 else 0.

#[global] Instance HeapKey_CompareTo : Comparable HeapKey := λ t other, compare_times (nanos t) (nanos other).

Lemma compare_times_le a b : compare_times a b ≤ 0 ↔ a ≤ b.
Proof. unfold compare_times. destruct (Z.ltb_spec a b), (Z.ltb_spec b a); lia. Qed.

Lemma compare_times_lt a b : compare_times a b < 0 ↔ a < b.
Proof. unfold compare_times. destruct (Z.ltb_spec a b), (Z.ltb_spec b a); lia. Qed.

#[global] Instance HeapKey_laws : ComparableLaws HeapKey.
Proof.
  split; unfold key_le, CompareTo, HeapKey_CompareTo; intros; rewrite ?compare_times_le, ?compare_times_lt in *; lia.
Qed.

(** ** The state *)

(** [ShutdownFlag] *)
Definition CancelPendingElements : Z := Z.shiftl 1 0.
Definition IgnorePendingTimeouts : Z := Z.shiftl 1 1.
Definition PanicOnModificationsAfterShutdown : Z := Z.shiftl 1 2.
Definition DontWaitForShutdown : Z := Z.shiftl 1 7.

(** Why an element will never be returned; [Overflow] with the number of elements that
    were in the queue before [Add]. *)
Inductive reason : Type := Canceled | Overflow (queued : Z) | ByShutdown.

Section queue.
Context {T : Type} (empty : T).

Notation elem := (HeapElement HeapKey T).

(** Where a goroutine that polls stands; [w] is [waitIfEmpty]. *)
Inductive poll_pc : Type :=
  | PReturned (r : option T)          (* None: not called yet *)
  | PReady (w : bool)                 (* before the lock, or woken up *)
  | PParked                           (* in [waitCond.Wait] *)
  | PWaiting (w : bool) (e : elem)    (* in the first [select] *)
  | PDraining (w : bool) (e : elem).  (* in the second one *)

Inductive add_pc : Type :=
  | AIdle
  | AChecked (v : T) (t : Z)
  | ASignal.

Inductive shut_pc : Type := SIdle | SMarked | SCanceled | SReturned.

Record history : Type := mkHistory {
  added : list elem;
  late : gset positive;             (* added after the queue was marked as shut down *)
  delivered : list (elem * Z);      (* with the time of the return *)
  dropped : list (elem * reason);
}.

Record Queue : Type := mkQueue {
  heap : Heap HeapKey T;
  maxSize : Z;
  canceled : gset positive;         (* closed [cancel] channels *)
  ctx_done : bool;
  isShutdown : bool;
  shutdownFlags : Z;
  now : Z;
  pollers : list poll_pc;
  adders : list add_pc;
  shutters : list shut_pc;
  past : history;
}.

Definition NewQueue (size start : Z) (ps : list poll_pc) (adds shuts : nat) : Queue :=
  mkQueue (mkHeap [] ∅) size ∅ false false 0 start ps (replicate adds AIdle) (replicate shuts SIdle)
    (mkHistory [] ∅ [] []).

(** Setters. *)
Definition set_heap (q : Queue) (h : Heap HeapKey T) (p : history) : Queue :=
  mkQueue h (maxSize q) (canceled q) (ctx_done q) (isShutdown q) (shutdownFlags q) (now q) (pollers q) (adders q) (shutters q) p.
Definition set_pollers (q : Queue) (ps : list poll_pc) : Queue :=
  mkQueue (heap q) (maxSize q) (canceled q) (ctx_done q) (isShutdown q) (shutdownFlags q) (now q) ps (adders q) (shutters q) (past q).
Definition set_poller (q : Queue) (i : nat) (p : poll_pc) : Queue := set_pollers q (<[i:=p]> (pollers q)).
Definition set_adder (q : Queue) (i : nat) (a : add_pc) : Queue :=
  mkQueue (heap q) (maxSize q) (canceled q) (ctx_done q) (isShutdown q) (shutdownFlags q) (now q) (pollers q)
    (<[i:=a]> (adders q)) (shutters q) (past q).
Definition set_shutter (q : Queue) (i : nat) (s : shut_pc) : Queue :=
  mkQueue (heap q) (maxSize q) (canceled q) (ctx_done q) (isShutdown q) (shutdownFlags q) (now q) (pollers q) (adders q)
    (<[i:=s]> (shutters q)) (past q).
Definition set_now (q : Queue) (t : Z) : Queue :=
  mkQueue (heap q) (maxSize q) (canceled q) (ctx_done q) (isShutdown q) (shutdownFlags q) t (pollers q) (adders q) (shutters q) (past q).
Definition set_past (q : Queue) (p : history) : Queue := set_heap q (heap q) p.

Definition note_delivered (p : history) (e : elem) (t : Z) : history :=
  mkHistory (added p) (late p) (delivered p ++ [(e, t)]) (dropped p).
Definition note_dropped (p : history) (es : list elem) (r : reason) : history :=
  mkHistory (added p) (late p) (delivered p) (dropped p ++ ((λ e, (e, r)) <$> es)).
Definition note_added (p : history) (e : elem) (is_late : bool) : history :=
  mkHistory (added p ++ [e]) (if is_late then {[e_id e]} ∪ late p else late p) (delivered p) (dropped p).

(** ** Operations *)

Definition Size (q : Queue) : Z := Len (heap q).

(** The first lines of [Add]: whether it goes on; it returns nil otherwise. *)
Definition Add_check (q : Queue) : outcome bool :=
  if isShutdown q then
    if HasBits (shutdownFlags q) PanicOnModificationsAfterShutdown then Panic "tried to modify a shutdown TimedQueue"
    else Ret false
  else Ret true.

(** A new element is one that the heap does not know. *)
Definition new_element (q : Queue) (value : T) (scheduledTime : Z) : elem :=
  mkElement (fresh (dom (indices (heap q)))) (mkKey scheduledTime) value.

(** The critical section of [Add], which returns the new element. *)
Definition Add (q : Queue) (value : T) (scheduledTime : Z) : outcome Queue :=
  let element := new_element q value scheduledTime in
  h ← Heap.Push (heap q) element;
  let p := note_added (past q) element (isShutdown q) in
  if (maxSize q >? 0) && (Len h >? maxSize q) then
    '(h, e) ← Heap.Remove h (Len h - 1);
    Ret (set_heap q h (note_dropped p [e] (Overflow (Size q))))
  else Ret (set_heap q h p).

Definition removeElement (q : Queue) (element : elem) : outcome Queue :=
  if Index (heap q) (e_id element) =? -1 then Ret q
  else
    '(h, e) ← Heap.Remove (heap q) (Index (heap q) (e_id element));
    Ret (set_heap q h (note_dropped (past q) [e] Canceled)).

Definition Cancel (q : Queue) (element : elem) : outcome Queue :=
  q ← removeElement q element;
  Ret (mkQueue (heap q) (maxSize q) ({[e_id element]} ∪ canceled q) (ctx_done q) (isShutdown q) (shutdownFlags q) (now q)
         (pollers q) (adders q) (shutters q) (past q)).

(** [Shutdown] until it releases [shutdownMutex]; [None] when it returns there. *)
Definition Shutdown_mark (q : Queue) (optionalShutdownFlags : list Z) : outcome (option Queue) :=
  if isShutdown q then
    if HasBits (shutdownFlags q) PanicOnModificationsAfterShutdown then
      Panic "tried to shutdown and already shutdown TimedQueue"
    else Ret None
  else
    Ret (Some (mkQueue (heap q) (maxSize q) (canceled q) (ctx_done q) true
                 (foldl Z.lor (shutdownFlags q) optionalShutdownFlags) (now q) (pollers q) (adders q) (shutters q) (past q))).

Definition ctxCancel (q : Queue) : Queue :=
  mkQueue (heap q) (maxSize q) (canceled q) true (isShutdown q) (shutdownFlags q) (now q) (pollers q) (adders q) (shutters q) (past q).

Definition wake (p : poll_pc) : poll_pc := match p with PParked => PReady true | _ => p end.

(** [for range queuedElementsCount { heap.Pop(&t.heap) }] *)
Fixpoint pop_all (n : nat) (h : Heap HeapKey T) (es : list elem) : outcome (Heap HeapKey T * list elem) :=
  match n with
  | O => Ret (h, es)
  | S n => '(h, e) ← Heap.Pop h; pop_all n h (es ++ [e])
  end.

(** The critical section of [Shutdown]. *)
Definition Shutdown_heap (q : Queue) : outcome Queue :=
  match length (elems (heap q)) with
  | O => Ret (set_pollers q (wake <$> pollers q))
  | queuedElementsCount =>
      if HasBits (shutdownFlags q) CancelPendingElements then
        '(h, es) ← pop_all queuedElementsCount (heap q) [];
        Ret (set_heap q h (note_dropped (past q) es ByShutdown))
      else Ret q
  end.

(** [Poll] while it holds the lock: it waits, returns, or takes an element. *)
Definition Poll (q : Queue) (waitIfEmpty : bool) : outcome (Queue * poll_pc) :=
  if Len (heap q) =? 0 then
    if negb waitIfEmpty || isShutdown q then Ret (q, PReturned (Some empty)) else Ret (q, PParked)
  else
    '(h, e) ← Heap.Pop (heap q);
    Ret (set_heap q h (past q), PWaiting waitIfEmpty e).

(** What [Poll] does with its element when the queue was shut down. *)
Definition Poll_ctx_done (q : Queue) (i : nat) (w : bool) (e : elem) : Queue :=
  if HasBits (shutdownFlags q) CancelPendingElements then
    set_poller (set_past q (note_dropped (past q) [e] ByShutdown)) i (PReturned (Some empty))
  else if HasBits (shutdownFlags q) IgnorePendingTimeouts then
    set_poller (set_past q (note_delivered (past q) e (now q))) i (PReturned (Some (Value e)))
  else set_poller q i (PDraining w e).

Definition waiting_for (p : poll_pc) : option (bool * elem) :=
  match p with PWaiting w e | PDraining w e => Some (w, e) | _ => None end.

Inductive step : Queue → Queue → Prop :=
  | tick q t : now q ≤ t → step q (set_now q t)
  (* [Add] *)
  | add_check q i v t :
      adders q !! i = Some AIdle → Add_check q = Ret true → step q (set_adder q i (AChecked v t))
  | add_lock q i v t q' :
      adders q !! i = Some (AChecked v t) → Add q v t = Ret q' → step q (set_adder q' i ASignal)
  | add_signal q i j :
      adders q !! i = Some ASignal → pollers q !! j = Some PParked →
      step q (set_poller (set_adder q i AIdle) j (PReady true))
  | add_signal_none q i :
      adders q !! i = Some ASignal → PParked ∉ pollers q → step q (set_adder q i AIdle)
  (* [Cancel] *)
  | cancel q e q' : e ∈ added (past q) → Cancel q e = Ret q' → step q q'
  (* [Shutdown] *)
  | shutdown_mark q i flags q' :
      shutters q !! i = Some SIdle → Shutdown_mark q flags = Ret (Some q') → step q (set_shutter q' i SMarked)
  | shutdown_ctx q i : shutters q !! i = Some SMarked → step q (set_shutter (ctxCancel q) i SCanceled)
  | shutdown_heap q i q' :
      shutters q !! i = Some SCanceled → Shutdown_heap q = Ret q' → step q (set_shutter q' i SReturned)
  (* [Poll] *)
  | poll_lock q i w q' p :
      pollers q !! i = Some (PReady w) → Poll q w = Ret (q', p) → step q (set_poller q' i p)
  | poll_ctx_done q i w e :
      pollers q !! i = Some (PWaiting w e) → ctx_done q = true → step q (Poll_ctx_done q i w e)
  | poll_canceled q i p w e :
      pollers q !! i = Some p → waiting_for p = Some (w, e) → e_id e ∈ canceled q →
      step q (set_poller (set_past q (note_dropped (past q) [e] Canceled)) i (PReady w))
  | poll_due q i p w e :
      pollers q !! i = Some p → waiting_for p = Some (w, e) → nanos (Key e) ≤ now q →
      step q (set_poller (set_past q (note_delivered (past q) e (now q))) i (PReturned (Some (Value e)))).

(** A goroutine calls [Poll]. *)
Inductive call : Queue → Queue → Prop :=
  | poll_call q i r w : pollers q !! i = Some (PReturned r) → call q (set_poller q i (PReady w)).

Definition any_step (q q' : Queue) : Prop := step q q' ∨ call q q'.

Definition reachable (size start : Z) (polls adds shuts : nat) (q : Queue) : Prop :=
  rtc any_step (NewQueue size start (replicate polls (PReturned None)) adds shuts) q.

(** ** The elements of a queue *)

Definition flights (ps : list poll_pc) : list elem := omap (λ p, snd <$> waiting_for p) ps.

(** Every element that was added is in one place: in the heap, with a goroutine
    that waits for it, delivered, or dropped. *)
Record stored (h : Heap HeapKey T) (p : history) (fl : list elem) (c : gset positive) : Prop := {
  st_heap : heap_ok h;
  st_nodup : NoDup (e_id <$> added p);
  st_known e : e ∈ added p → e_id e ∈ dom (indices h);
  st_places : added p ≡ₚ elems h ++ fl ++ (delivered p).*1 ++ (dropped p).*1;
  st_canceled e : e ∈ elems h → e_id e ∉ c;
  st_closed : c ⊆ dom (indices h);
}.

Lemma stored_in_heap h p fl c e : stored h p fl c → e ∈ elems h → e ∈ added p.
Proof. intros [] He. rewrite st_places0. apply elem_of_app. by left. Qed.

Lemma stored_same h p fl c e e' :
  stored h p fl c → e ∈ added p → e' ∈ added p → e_id e = e_id e' → e = e'.
Proof.
  intros [] [i Hi]%list_elem_of_lookup [j Hj]%list_elem_of_lookup E.
  assert (i = j) as ->; [|by simplify_eq]. eapply (NoDup_lookup (e_id <$> added p)); [done|by rewrite list_lookup_fmap, Hi|].
  by rewrite list_lookup_fmap, Hj; cbn; rewrite E.
Qed.

(** A goroutine takes an element. *)
Lemma stored_take h p fl c h' e :
  stored h p fl c → Heap.Pop h = Ret (h', e) → elems h ≠ [] → stored h' p (e :: fl) c ∧ elems h ≡ₚ e :: elems h'.
Proof.
  intros [] Hp Hne. destruct (Pop_ok h st_heap0 Hne) as (h1 & e1 & Hp1 & Hok & Hperm & _). rewrite Hp in Hp1. simplify_eq.
  split; [|done]. split; try done.
  - intros e' He'. apply (Pop_known _ _ _ Hp), st_known0, He'.
  - rewrite st_places0, Hperm. cbn. by rewrite <-Permutation_middle.
  - intros e' He'. apply st_canceled0. rewrite Hperm. by right.
  - etrans; [done|by eapply Pop_known].
Qed.

(** An element is removed from the heap. *)
Lemma stored_remove h p fl c i h' e r :
  stored h p fl c → Heap.Remove h (Z.of_nat i) = Ret (h', e) → (i < length (elems h))%nat →
  stored h' (note_dropped p [e] r) fl c ∧ elems h ≡ₚ e :: elems h' ∧ Index h' (e_id e) = -1 ∧ elems h !! i = Some e.
Proof.
  intros [] Hr [e1 He1]%lookup_lt_is_Some_2. destruct (Remove_ok h i e1 st_heap0 He1) as (h1 & Hr1 & Hok & Hperm & Hi).
  rewrite Hr in Hr1. simplify_eq. split_and!; try done. split; try done.
  - intros e' He'. apply (Remove_known _ _ _ _ Hr), st_known0, He'.
  - cbn. rewrite fmap_app, st_places0, Hperm. cbn. by rewrite <-!Permutation_middle, app_nil_r.
  - intros e' He'. apply st_canceled0. rewrite Hperm. by right.
  - etrans; [done|by eapply Remove_known].
Qed.

Lemma stored_push h p fl c h' e b :
  stored h p fl c → Heap.Push h e = Ret h' → e_id e ∉ dom (indices h) →
  stored h' (note_added p e b) fl c ∧ elems h' ≡ₚ e :: elems h.
Proof.
  intros [] Hp Hfresh. destruct (Push_ok h e st_heap0) as (h1 & Hp1 & Hok & Hperm); [by apply not_elem_of_dom|].
  rewrite Hp in Hp1. simplify_eq. destruct (Push_known _ _ _ Hp) as [Hk He]. split; [|done]. split; cbn; try done.
  - rewrite fmap_app, NoDup_app. split_and!; [done| |apply NoDup_singleton].
    intros x (e' & -> & He')%list_elem_of_fmap E%list_elem_of_singleton. apply Hfresh. cbn in E. rewrite <-E. by apply st_known0.
  - intros e' [He'|E%list_elem_of_singleton]%elem_of_app; [by apply Hk, st_known0|by subst].
  - rewrite Hperm, st_places0. cbn. by rewrite <-Permutation_middle, app_nil_r.
  - intros e'. rewrite Hperm. intros [->|He']%elem_of_cons; [set_solver|by apply st_canceled0].
  - by etrans.
Qed.

(** What happens to an element a goroutine waits for. *)
Lemma stored_deliver h p fl c e t : stored h p (e :: fl) c → stored h (note_delivered p e t) fl c.
Proof.
  intros []. split; try done. cbn. rewrite fmap_app, st_places0, <-app_assoc. cbn. by rewrite <-!Permutation_middle.
Qed.

Lemma stored_drop h p fl c e r : stored h p (e :: fl) c → stored h (note_dropped p [e] r) fl c.
Proof.
  intros []. split; try done. cbn. rewrite fmap_app, st_places0. cbn. by rewrite <-!Permutation_middle, app_nil_r.
Qed.

Lemma stored_flights h p fl fl' c : fl ≡ₚ fl' → stored h p fl c → stored h p fl' c.
Proof. intros Hp []. split; try done. by rewrite <-Hp. Qed.

Lemma pop_all_stored n h p fl c es0 h' es r :
  stored h (note_dropped p es0 r) fl c → length (elems h) = n → pop_all n h es0 = Ret (h', es) →
  stored h' (note_dropped p es r) fl c ∧ elems h' = [].
Proof.
  revert h es0. induction n as [|n IH]; intros h es0 Hs Hn Hp; cbn [pop_all] in Hp.
  { simplify_eq. split; [done|]. by apply nil_length_inv. }
  apply outcome_bind_Ret in Hp as ([h1 e] & H1 & Hp). destruct (elems h) as [|x l] eqn:El; [done|].
  destruct (stored_take _ _ _ _ _ _ Hs H1) as [Hs1 Hperm]; [by rewrite El|]. apply (IH h1 (es0 ++ [e])); [|  |done].
  - apply (stored_drop _ _ _ _ _ r) in Hs1. unfold note_dropped in *. cbn in *. by rewrite fmap_app, app_assoc.
  - apply Permutation_length in Hperm. rewrite El in Hperm. cbn in *. lia.
Qed.

Lemma flights_insert ps i p p' :
  ps !! i = Some p →
  option_list (snd <$> waiting_for p) ++ flights (<[i:=p']> ps) ≡ₚ option_list (snd <$> waiting_for p') ++ flights ps.
Proof. intros Hi. apply (omap_insert_perm (λ p, snd <$> waiting_for p) ps i p p' Hi). Qed.

Lemma flights_wake ps : flights (wake <$> ps) = flights ps.
Proof. unfold flights. induction ps as [|[] ps IH]; cbn; rewrite ?IH; done. Qed.

(** ** The invariant *)

(** An element is returned when it is due, or when a shutdown says to ignore the
    time. *)
Definition in_time (q : Queue) (e : elem) (t : Z) : Prop :=
  nanos (Key e) ≤ t ∧ t ≤ now q ∨
  isShutdown q = true ∧ HasBits (shutdownFlags q) IgnorePendingTimeouts = true ∧
  HasBits (shutdownFlags q) CancelPendingElements = false.

Definition drop_reason (q : Queue) (e : elem) (r : reason) : Prop :=
  match r with
  | Canceled => e_id e ∈ canceled q
  | Overflow queued => 0 < maxSize q ∧ queued = maxSize q
  | ByShutdown => isShutdown q = true ∧ HasBits (shutdownFlags q) CancelPendingElements = true
  end.

Definition is_ready (p : poll_pc) : Z := match p with PReady _ => 1 | _ => 0 end.
Definition is_signal (a : add_pc) : Z := match a with ASignal => 1 | _ => 0 end.

Record inv (q : Queue) : Prop := {
  inv_stored : stored (heap q) (past q) (flights (pollers q)) (canceled q);
  inv_due e t : (e, t) ∈ delivered (past q) → in_time q e t;
  inv_dropped e r : (e, r) ∈ dropped (past q) → drop_reason q e r;
  inv_size : 0 < maxSize q → Len (heap q) ≤ maxSize q;
  inv_ctx : ctx_done q = true → isShutdown q = true;
  inv_shutters i s : shutters q !! i = Some s → s ≠ SIdle → isShutdown q = true;
  inv_wakeup : PParked ∈ pollers q → Len (heap q) ≤ zsum is_ready (pollers q) + zsum is_signal (adders q);
}.

(** What elements were dropped for, and when they were delivered, stays true. *)
Record later (q q' : Queue) : Prop := {
  la_now : now q ≤ now q';
  la_max : maxSize q' = maxSize q;
  la_canceled : canceled q ⊆ canceled q';
  la_shutdown : isShutdown q = true → isShutdown q' = true ∧ shutdownFlags q' = shutdownFlags q;
}.

Lemma in_time_later q q' e t : later q q' → in_time q e t → in_time q' e t.
Proof.
  intros [] [[? ?]|(Hs & ? & ?)]; [left; lia|]. right. destruct (la_shutdown0 Hs) as [? ->]. done.
Qed.

Lemma drop_reason_later q q' e r : later q q' → drop_reason q e r → drop_reason q' e r.
Proof.
  intros []. destruct r; cbn; [set_solver|lia|]. intros [Hs ?]. destruct (la_shutdown0 Hs) as [? ->]. done.
Qed.

Lemma inv_next q q' :
  inv q → later q q' → stored (heap q') (past q') (flights (pollers q')) (canceled q') →
  (∀ e t, (e, t) ∈ delivered (past q') → (e, t) ∈ delivered (past q) ∨ in_time q' e t) →
  (∀ e r, (e, r) ∈ dropped (past q') → (e, r) ∈ dropped (past q) ∨ drop_reason q' e r) →
  (0 < maxSize q → Len (heap q') ≤ maxSize q) →
  (ctx_done q' = true → isShutdown q' = true) →
  (∀ i s, shutters q' !! i = Some s → s ≠ SIdle → isShutdown q' = true) →
  (PParked ∈ pollers q' → Len (heap q') ≤ zsum is_ready (pollers q') + zsum is_signal (adders q')) → inv q'.
Proof.
  intros [] Hl Hst Hdel Hdrop Hsize Hctx Hsh Hw. split; try done.
  - intros e t [H|H]%Hdel; [|done]. by eapply in_time_later, inv_due0.
  - intros e r [H|H]%Hdrop; [|done]. by eapply drop_reason_later, inv_dropped0.
  - by rewrite (la_max _ _ Hl).
Qed.

(** Changes that leave the elements alone. *)
Lemma inv_quiet q q' :
  inv q → later q q' → heap q' = heap q → past q' = past q → canceled q' = canceled q →
  flights (pollers q') ≡ₚ flights (pollers q) → (ctx_done q' = true → isShutdown q' = true) →
  (∀ i s, shutters q' !! i = Some s → s ≠ SIdle → isShutdown q' = true) →
  (PParked ∈ pollers q' → Len (heap q') ≤ zsum is_ready (pollers q') + zsum is_signal (adders q')) → inv q'.
Proof.
  intros Hi Hl Hh Hp Hc Hf Hctx Hsh Hw. pose proof Hi as []. apply (inv_next q); try done; rewrite ?Hh, ?Hp, ?Hc; auto.
  by apply (stored_flights _ _ (flights (pollers q))).
Qed.

Lemma parked_insert (ps : list poll_pc) i p : PParked ∈ <[i:=p]> ps → p ≠ PParked → PParked ∈ ps.
Proof.
  intros [j Hj]%list_elem_of_lookup Hp. apply list_lookup_insert_Some in Hj as [(-> & -> & _)|[_ Hj]]; [done|].
  by eapply list_elem_of_lookup_2.
Qed.

Lemma zsum_signal_nonneg (l : list add_pc) : 0 ≤ zsum is_signal l.
Proof. induction l as [|[] l IH]; cbn; lia. Qed.

Lemma zsum_ready_nonneg (l : list poll_pc) : 0 ≤ zsum is_ready l.
Proof. induction l as [|[] l IH]; cbn; lia. Qed.

(** ** Every step keeps it *)

Lemma add_check_inv q i v t : adders q !! i = Some AIdle → inv q → inv (set_adder q i (AChecked v t)).
Proof.
  intros Hi Hq. pose proof Hq as []. apply (inv_quiet q); try done. cbn. by rewrite (zsum_insert _ _ _ _ _ Hi), Z.sub_0_r, Z.add_0_r.
Qed.

Lemma add_lock_inv q i v t q' :
  adders q !! i = Some (AChecked v t) → Add q v t = Ret q' → inv q → inv (set_adder q' i ASignal).
Proof.
  intros Hi Ha Hq. pose proof Hq as []. unfold Add in Ha. apply outcome_bind_Ret in Ha as (h & Hh & Ha).
  set (e := new_element q v t) in Hh, Ha.
  destruct (stored_push _ _ _ _ _ e (isShutdown q) inv_stored0 Hh) as [Hs Hp]; [apply is_fresh|].
  assert (Len h = Len (heap q) + 1) as Hlen. { unfold Len, len. rewrite Hp. cbn. lia. }
  assert (0 ≤ Len (heap q)) by (unfold Len, len; lia).
  destruct (_ && _) eqn:Eb.
  - apply andb_true_iff in Eb as [?%Z.gtb_lt ?%Z.gtb_lt]. apply outcome_bind_Ret in Ha as ([h' e'] & Hr & Ha). injection Ha as <-.
    replace (Len h - 1) with (Z.of_nat (length (elems h) - 1)) in Hr by (unfold Len, len in *; lia).
    destruct (stored_remove _ _ _ _ _ _ _ (Overflow (Size q)) Hs Hr) as (Hs' & Hp' & _); [unfold Len, len in *; lia|].
    assert (Len h' = Len h - 1) as Hlen'. { unfold Len, len. rewrite Hp'. cbn. lia. }
    apply (inv_next q); cbn; try done.
    + by left.
    + intros e0 r0 [?|E%list_elem_of_singleton]%elem_of_app; [by left|]. injection E as -> ->. right. cbn. unfold Size.
      specialize (inv_size0 ltac:(done)). lia.
    + intros. specialize (inv_size0 ltac:(done)). lia.
    + intros Hpk. specialize (inv_wakeup0 Hpk). rewrite (zsum_insert _ _ _ _ _ Hi). cbn. lia.
  - injection Ha as <-. apply (inv_next q); cbn; try done; try by left.
    + intros. specialize (inv_size0 ltac:(done)). apply andb_false_iff in Eb as [Eb|Eb]; rewrite Z.gtb_ltb, Z.ltb_ge in Eb; lia.
    + intros Hpk. specialize (inv_wakeup0 Hpk). rewrite (zsum_insert _ _ _ _ _ Hi). cbn. lia.
Qed.

Lemma add_signal_inv q i j :
  adders q !! i = Some ASignal → pollers q !! j = Some PParked → inv q → inv (set_poller (set_adder q i AIdle) j (PReady true)).
Proof.
  intros Hi Hj Hq. pose proof Hq as []. apply (inv_quiet q); try done; cbn.
  - apply (flights_insert _ _ _ (PReady true) Hj).
  - intros _. rewrite (zsum_insert _ _ _ _ _ Hi), (zsum_insert _ _ _ _ _ Hj). cbn.
    specialize (inv_wakeup0 ltac:(by eapply list_elem_of_lookup_2)). lia.
Qed.

Lemma queue_cancel_inv q e q' : e ∈ added (past q) → Cancel q e = Ret q' → inv q → inv q'.
Proof.
  intros He Hc Hq. pose proof Hq as []. unfold Cancel, removeElement in Hc.
  apply outcome_bind_Ret in Hc as (q1 & H1 & Hc). injection Hc as <-.
  destruct (Z.eqb_spec (Index (heap q) (e_id e)) (-1)) as [E|E].
  - injection H1 as <-. apply (inv_next q); cbn; try done; try by left.
    + split; try done. cbn. set_solver.
    + destruct inv_stored0. split; try done.
      * intros e' He'. apply not_elem_of_union. split; [|by apply st_canceled0]. rewrite not_elem_of_singleton.
        by eapply Index_out.
      * apply st_known0 in He. set_solver.
  - apply outcome_bind_Ret in H1 as ([h e'] & Hr & H1). injection H1 as <-.
    destruct (Index_place _ _ (st_heap _ _ _ _ inv_stored0) E) as (k & e2 & Ek & He2 & Eid). rewrite Ek in Hr.
    destruct (stored_remove _ _ _ _ _ _ _ Canceled inv_stored0 Hr) as (Hs & Hp & Ho & He'); [by eapply lookup_lt_Some|].
    simplify_eq. apply (inv_next q); cbn; try done; try by left.
    + split; try done. cbn. set_solver.
    + destruct Hs. split; try done.
      * intros e3 He3. apply not_elem_of_union. split; [|by apply st_canceled0]. rewrite not_elem_of_singleton, <-Eid.
        by eapply Index_out.
      * apply st_known0 in He. cbn in *. set_solver.
    + intros e0 r [?|E0%list_elem_of_singleton]%elem_of_app; [by left|]. injection E0 as -> ->. right. cbn. set_solver.
    + intros Hm. specialize (inv_size0 Hm). unfold Len, len in *. rewrite Hp in inv_size0. cbn in *. lia.
    + intros Hpk. specialize (inv_wakeup0 Hpk). unfold Len, len in *. rewrite Hp in inv_wakeup0. cbn in *. lia.
Qed.

Lemma shutdown_mark_inv q i flags q' :
  Shutdown_mark q flags = Ret (Some q') → inv q → inv (set_shutter q' i SMarked) ∧ isShutdown q = false.
Proof.
  intros Hm Hq. pose proof Hq as []. unfold Shutdown_mark in Hm. destruct (isShutdown q) eqn:Es; [by destruct (HasBits _ _)|].
  injection Hm as <-. split; [|done]. apply (inv_quiet q); try done. split; try done. intros H. by rewrite Es in H.
Qed.

Lemma shutdown_ctx_inv q i : shutters q !! i = Some SMarked → inv q → inv (set_shutter (ctxCancel q) i SCanceled).
Proof.
  intros Hi Hq. pose proof Hq as []. assert (isShutdown q = true) as Hs by (by eapply inv_shutters0).
  by apply (inv_quiet q).
Qed.

Lemma wake_parked (ps : list poll_pc) : PParked ∉ wake <$> ps.
Proof. intros (p & E & _)%list_elem_of_fmap. by destruct p. Qed.

Lemma shutdown_heap_inv q i q' :
  shutters q !! i = Some SCanceled → Shutdown_heap q = Ret q' → inv q → inv (set_shutter q' i SReturned).
Proof.
  intros Hi Hh Hq. pose proof Hq as []. assert (isShutdown q = true) as Hs by (by eapply inv_shutters0).
  unfold Shutdown_heap in Hh. destruct (length (elems (heap q))) as [|n] eqn:El.
  { injection Hh as <-. apply (inv_quiet q); try done; cbn; [by rewrite flights_wake|]. intros H. by apply wake_parked in H. }
  destruct (HasBits (shutdownFlags q) CancelPendingElements) eqn:Ef.
  - apply outcome_bind_Ret in Hh as ([h es] & Hp & Hh). injection Hh as <-.
    assert (stored (heap q) (note_dropped (past q) [] ByShutdown) (flights (pollers q)) (canceled q)) as Hst0.
    { unfold note_dropped. cbn. rewrite app_nil_r. by destruct (past q). }
    destruct (pop_all_stored _ _ _ _ _ _ _ _ _ Hst0 El Hp) as [Hst He].
    assert (Len h = 0) as Hl by (unfold Len; by rewrite He).
    apply (inv_next q); cbn; try done; try by left.
    + intros e r [?|(e' & E & _)%list_elem_of_fmap]%elem_of_app; [by left|]. injection E as -> ->. right. by split.
    + lia.
    + intros _. pose proof (zsum_ready_nonneg (pollers q)). pose proof (zsum_signal_nonneg (adders q)). lia.
  - injection Hh as <-. by apply (inv_quiet q).
Qed.

Lemma poll_lock_inv q i w q' p :
  pollers q !! i = Some (PReady w) → Poll q w = Ret (q', p) → inv q → inv (set_poller q' i p).
Proof.
  intros Hi Hp Hq. pose proof Hq as []. unfold Poll in Hp. pose proof (zsum_ready_nonneg (<[i:=p]> (pollers q))).
  pose proof (zsum_signal_nonneg (adders q)). destruct (Z.eqb_spec (Len (heap q)) 0) as [El|El].
  - assert (q' = q ∧ waiting_for p = None) as [-> Hw] by (destruct (negb w || isShutdown q); by simplify_eq).
    apply (inv_quiet q); try done; cbn; [|lia]. pose proof (flights_insert _ _ _ p Hi) as Hf. by rewrite Hw in Hf.
  - apply outcome_bind_Ret in Hp as ([h e] & Hpop & Hp). simplify_eq.
    destruct (stored_take _ _ _ _ _ _ inv_stored0 Hpop) as [Hs Hperm]. { intros E. unfold Len in El. by rewrite E in El. }
    assert (Len (heap q) = Len h + 1) as Hlen. { unfold Len, len. rewrite Hperm. cbn. lia. }
    apply (inv_next q); cbn; try done; try by left.
    + eapply stored_flights; [|done]. symmetry. apply (flights_insert _ _ _ (PWaiting w e) Hi).
    + intros Hm. specialize (inv_size0 Hm). lia.
    + intros Hpk. specialize (inv_wakeup0 (parked_insert _ _ _ Hpk ltac:(done))). rewrite (zsum_insert _ _ _ _ _ Hi). cbn. lia.
Qed.

(** A goroutine is through with its element. *)
Lemma poll_over_inv q i p w e p' hist :
  pollers q !! i = Some p → waiting_for p = Some (w, e) → waiting_for p' = None → p' ≠ PParked → inv q →
  (∃ t, hist = note_delivered (past q) e t ∧ in_time q e t) ∨ (∃ r, hist = note_dropped (past q) [e] r ∧ drop_reason q e r) →
  inv (set_poller (set_past q hist) i p').
Proof.
  intros Hi Hw Hw' Hpk Hq Hh. pose proof Hq as [].
  assert (stored (heap q) (past q) (e :: flights (<[i:=p']> (pollers q))) (canceled q)) as Hs.
  { eapply stored_flights; [|done]. pose proof (flights_insert _ _ _ p' Hi) as Hf. rewrite Hw, Hw' in Hf. symmetry. exact Hf. }
  assert (PParked ∈ <[i:=p']> (pollers q) →
    Len (heap q) ≤ zsum is_ready (<[i:=p']> (pollers q)) + zsum is_signal (adders q)) as Hwake.
  { intros Hin. specialize (inv_wakeup0 (parked_insert _ _ _ Hin Hpk)). rewrite (zsum_insert _ _ _ _ _ Hi).
    assert (is_ready p = 0) as -> by (by destruct p). destruct p'; cbn; lia. }
  destruct Hh as [(t & -> & Ht)|(r & -> & Hr)]; apply (inv_next q); cbn; try done; try by left.
  - by apply stored_deliver.
  - intros e0 t0 [?|E%list_elem_of_singleton]%elem_of_app; [by left|]. injection E as -> ->. by right.
  - by apply stored_drop.
  - intros e0 r0 [?|E%list_elem_of_singleton]%elem_of_app; [by left|]. injection E as -> ->. by right.
Qed.

Lemma poll_ctx_done_inv q i w e :
  pollers q !! i = Some (PWaiting w e) → ctx_done q = true → inv q → inv (Poll_ctx_done q i w e).
Proof.
  intros Hi Hc Hq. pose proof Hq as []. unfold Poll_ctx_done. destruct (HasBits _ CancelPendingElements) eqn:E1.
  { eapply poll_over_inv; try done. right. exists ByShutdown. cbn. auto. }
  destruct (HasBits _ IgnorePendingTimeouts) eqn:E2.
  { eapply poll_over_inv; try done. left. exists (now q). split; [done|]. right. auto. }
  apply (inv_quiet q); try done; cbn.
  - apply (Permutation_cons_inv (a := e)). apply (flights_insert _ _ _ (PDraining w e) Hi).
  - intros Hpk. specialize (inv_wakeup0 (parked_insert _ _ _ Hpk ltac:(done))). rewrite (zsum_insert _ _ _ _ _ Hi). cbn. lia.
Qed.

Lemma queue_step_inv q q' : step q q' → inv q → inv q'.
Proof.
  intros Hs Hq. pose proof Hq as []. destruct Hs.
  - by apply (inv_quiet q).
  - by apply add_check_inv.
  - by eapply add_lock_inv.
  - by apply add_signal_inv.
  - apply (inv_quiet q); done.
  - by eapply queue_cancel_inv.
  - by eapply shutdown_mark_inv.
  - by apply shutdown_ctx_inv.
  - by eapply shutdown_heap_inv.
  - by eapply poll_lock_inv.
  - by apply poll_ctx_done_inv.
  - eapply poll_over_inv; try done. right. by exists Canceled.
  - eapply poll_over_inv; try done. left. exists (now q). split; [done|]. by left.
Qed.

Lemma queue_call_inv q q' : call q q' → inv q → inv q'.
Proof.
  intros Hc Hq. pose proof Hq as []. destruct Hc as [q i r w Hi]. apply (inv_quiet q); try done; cbn.
  - apply (flights_insert _ _ _ (PReady w) Hi).
  - intros Hpk. specialize (inv_wakeup0 (parked_insert _ _ _ Hpk ltac:(done))). rewrite (zsum_insert _ _ _ _ _ Hi). cbn. lia.
Qed.

Lemma NewQueue_inv size start ps adds shuts :
  flights ps = [] → inv (NewQueue size start ps adds shuts).
Proof.
  intros Hf. split; cbn [NewQueue pollers past heap canceled]; [rewrite Hf|..]; cbn; try done.
  - assert (heap_ok (mkHeap [] ∅ : Heap HeapKey T)) as Hok.
    { split; cbn; [intros c Hc; lia|done|]. intros id i Hid. by rewrite lookup_empty in Hid. }
    split; cbn; try done; try by (intros ? ?%not_elem_of_nil). constructor.
  - intros e t ?%not_elem_of_nil. done.
  - intros e t ?%not_elem_of_nil. done.
  - intros. unfold Len, len. cbn. lia.
  - intros i s Hi%lookup_replicate_1 ?. naive_solver.
  - intros _. pose proof (zsum_ready_nonneg ps). pose proof (zsum_signal_nonneg (replicate adds AIdle)). unfold Len, len. cbn. lia.
Qed.

(** ** How a step changes the goroutines and the past *)

(** With the element that is delivered. *)
Inductive poll_move (q : Queue) : poll_pc → poll_pc → option elem → Prop :=
  | mv_wake : poll_move q PParked (PReady true) None
  | mv_park : poll_move q (PReady true) PParked None
  | mv_empty w :
      elems (heap q) = [] → w = false ∨ isShutdown q = true → poll_move q (PReady w) (PReturned (Some empty)) None
  | mv_take w e : poll_move q (PReady w) (PWaiting w e) None
  | mv_abort w e :
      isShutdown q = true → HasBits (shutdownFlags q) CancelPendingElements = true →
      poll_move q (PWaiting w e) (PReturned (Some empty)) None
  | mv_drain w e : poll_move q (PWaiting w e) (PDraining w e) None
  | mv_return p w e : waiting_for p = Some (w, e) → poll_move q p (PReturned (Some (Value e))) (Some e)
  | mv_next p w e : waiting_for p = Some (w, e) → poll_move q p (PReady w) None.

Record grows (q q' : Queue) : Prop := {
  gr_later : later q q';
  gr_added e : e ∈ added (past q) → e ∈ added (past q');
  gr_late : late (past q) ⊆ late (past q');
  gr_heap e : isShutdown q = true → e ∈ elems (heap q') → e ∈ elems (heap q) ∨ e_id e ∈ late (past q');
}.

Lemma Poll_grows q w q' p : inv q → Poll q w = Ret (q', p) → grows q q'.
Proof.
  intros [] Hp. unfold Poll in Hp. destruct (Z.eqb_spec (Len (heap q)) 0) as [El|El].
  { assert (q' = q) as -> by (destruct (_ || _); by simplify_eq). split; auto. by split. }
  apply outcome_bind_Ret in Hp as ([h e] & Hpop & Hp). simplify_eq.
  destruct (stored_take _ _ _ _ _ _ inv_stored0 Hpop) as [_ Hperm]. { intros E. unfold Len in El. by rewrite E in El. }
  split; cbn; auto; [by split|]. intros e' _ He'. left. rewrite Hperm. by right.
Qed.

Lemma Add_grows q v t q' : inv q → Add q v t = Ret q' → grows q q'.
Proof.
  intros [] Ha. unfold Add in Ha. apply outcome_bind_Ret in Ha as (h & Hh & Ha). set (e := new_element q v t) in Hh, Ha.
  destruct (stored_push _ _ _ _ _ e (isShutdown q) inv_stored0 Hh) as [Hs Hp]; [apply is_fresh|].
  assert (∀ e', isShutdown q = true → e' ∈ elems h → e' ∈ elems (heap q) ∨ e_id e' ∈ late (note_added (past q) e (isShutdown q))) as Hnew.
  { intros e' -> He'. rewrite Hp in He'. apply elem_of_cons in He' as [->|]; [right; cbn; set_solver|by left]. }
  destruct (_ && _) eqn:Eb.
  - apply outcome_bind_Ret in Ha as ([h' e'] & Hr & Ha). injection Ha as <-. apply andb_true_iff in Eb as [?%Z.gtb_lt ?%Z.gtb_lt].
    replace (Len h - 1) with (Z.of_nat (length (elems h) - 1)) in Hr by (unfold Len, len in *; lia).
    destruct (stored_remove _ _ _ _ _ _ _ (Overflow (Size q)) Hs Hr) as (_ & Hp' & _); [unfold Len, len in *; lia|].
    split; cbn; [by split|intros; apply elem_of_app; by left|destruct (isShutdown q); set_solver|].
    intros e2 Hs2 He2. apply (Hnew e2 Hs2). rewrite Hp'. by right.
  - injection Ha as <-. split; cbn; [by split|intros; apply elem_of_app; by left|destruct (isShutdown q); set_solver|done].
Qed.

Lemma Cancel_grows q e q' : inv q → Cancel q e = Ret q' → grows q q'.
Proof.
  intros [] Hc. unfold Cancel, removeElement in Hc. apply outcome_bind_Ret in Hc as (q1 & H1 & Hc). injection Hc as <-.
  destruct (Z.eqb_spec (Index (heap q) (e_id e)) (-1)) as [E|E].
  { injection H1 as <-. split; cbn; auto. split; try done. cbn. set_solver. }
  apply outcome_bind_Ret in H1 as ([h e'] & Hr & H1). injection H1 as <-.
  destruct (Index_place _ _ (st_heap _ _ _ _ inv_stored0) E) as (k & e2 & Ek & He2 & Eid). rewrite Ek in Hr.
  destruct (stored_remove _ _ _ _ _ _ _ Canceled inv_stored0 Hr) as (_ & Hp & _); [by eapply lookup_lt_Some|].
  split; cbn; auto; [split; try done; cbn; set_solver|]. intros e3 _ He3. left. rewrite Hp. by right.
Qed.

Lemma Shutdown_heap_grows q q' : inv q → Shutdown_heap q = Ret q' → grows q q'.
Proof.
  intros [] Hh. unfold Shutdown_heap in Hh. destruct (length (elems (heap q))) as [|n] eqn:El.
  { injection Hh as <-. split; cbn; auto. by split. }
  destruct (HasBits (shutdownFlags q) CancelPendingElements); [|injection Hh as <-; split; cbn; auto; by split].
  apply outcome_bind_Ret in Hh as ([h es] & Hp & Hh). injection Hh as <-.
  assert (stored (heap q) (note_dropped (past q) [] ByShutdown) (flights (pollers q)) (canceled q)) as Hst0.
  { unfold note_dropped. cbn. rewrite app_nil_r. by destruct (past q). }
  destruct (pop_all_stored _ _ _ _ _ _ _ _ _ Hst0 El Hp) as [_ He].
  split; cbn; auto; [by split|]. rewrite He. by intros e _ ?%not_elem_of_nil.
Qed.

Lemma step_grows q q' : inv q → step q q' → grows q q'.
Proof.
  intros Hi Hs. assert (∀ q', later q q' → heap q' = heap q → added (past q') = added (past q) → late (past q') = late (past q) →
    grows q q') as Hsame. { intros q2 Hl Hh Ha Hla. split; rewrite ?Hh, ?Ha, ?Hla; auto. }
  destruct Hs; try (by apply Hsame).
  - apply Add_grows in H0 as [[] ? ? ?]; [|done]. split; [by split|done..].
  - by eapply Cancel_grows.
  - apply Hsame; try done; unfold Shutdown_mark in H0; destruct (isShutdown q) eqn:Es; try (by destruct (HasBits _ _));
      injection H0 as <-; [|done..]. split; try done. intros E. by rewrite Es in E.
  - apply Shutdown_heap_grows in H0 as [[] ? ? ?]; [|done]. split; [by split|done..].
  - apply Poll_grows in H0 as [[] ? ? ?]; [|done]. split; [by split|done..].
  - unfold Poll_ctx_done. destruct (HasBits _ _); [|destruct (HasBits _ _)]; by apply Hsame.
Qed.

Definition delivered_elems (q : Queue) : list elem := (delivered (past q)).*1.

(** A step changes no poller, wakes all of them up, or moves one. *)
Definition poll_effect (q q' : Queue) : Prop :=
  (pollers q' = pollers q ∨ pollers q' = wake <$> pollers q) ∧ delivered_elems q' = delivered_elems q ∨
  ∃ i p p' d, pollers q !! i = Some p ∧ pollers q' = <[i:=p']> (pollers q) ∧ poll_move q p p' d ∧
    delivered_elems q' = delivered_elems q ++ option_list d.

Lemma Poll_effect q i w q' p :
  pollers q !! i = Some (PReady w) → Poll q w = Ret (q', p) → poll_effect q (set_poller q' i p).
Proof.
  intros Hi Hp. right. exists i, (PReady w), p, None. unfold Poll in Hp. destruct (Z.eqb_spec (Len (heap q)) 0) as [El|El].
  - assert (elems (heap q) = []) as He. { unfold Len, len in El. apply nil_length_inv. lia. }
    destruct (negb w || isShutdown q) eqn:E; simplify_eq; cbn; rewrite app_nil_r; split_and!; try done.
    + apply mv_empty; [done|]. apply orb_true_iff in E as [E%negb_true_iff|]; auto.
    + apply orb_false_iff in E as [->%negb_false_iff _]. constructor.
  - apply outcome_bind_Ret in Hp as ([h e] & _ & Hp). simplify_eq. cbn. rewrite app_nil_r. split_and!; try done. constructor.
Qed.

Lemma Poll_ctx_done_effect q i w e :
  pollers q !! i = Some (PWaiting w e) → isShutdown q = true → poll_effect q (Poll_ctx_done q i w e).
Proof.
  intros Hi Hs. right. unfold Poll_ctx_done.
  destruct (HasBits _ CancelPendingElements) eqn:E1; [|destruct (HasBits _ IgnorePendingTimeouts)].
  - eexists i, _, _, None. cbn. rewrite app_nil_r. split_and!; try done. by constructor.
  - eexists i, _, _, (Some e). split_and!; [done|done|by econstructor|]. exact (fmap_app fst (delivered (past q)) [(e, now q)]).
  - eexists i, _, _, None. cbn. rewrite app_nil_r. split_and!; try done. by constructor.
Qed.

Lemma step_effect q q' : inv q → step q q' → poll_effect q q'.
Proof.
  intros Hi Hs. destruct Hs; try (by left; auto).
  - left. unfold Add in H0. apply outcome_bind_Ret in H0 as (h & _ & H0).
    destruct (_ && _); [apply outcome_bind_Ret in H0 as ([] & _ & H0)|]; injection H0 as <-; cbn; auto.
  - right. exists j, PParked, (PReady true), None. cbn. rewrite app_nil_r. split_and!; try done. constructor.
  - left. unfold Cancel, removeElement in H0. apply outcome_bind_Ret in H0 as (q1 & H1 & H0). injection H0 as <-.
    destruct (_ =? _); [injection H1 as <-; auto|]. apply outcome_bind_Ret in H1 as ([] & _ & H1). injection H1 as <-. auto.
  - left. unfold Shutdown_mark in H0. destruct (isShutdown q); [by destruct (HasBits _ _)|]. injection H0 as <-. auto.
  - left. unfold Shutdown_heap in H0. destruct (length _); [injection H0 as <-; auto|].
    destruct (HasBits _ _); [apply outcome_bind_Ret in H0 as ([] & _ & H0)|]; injection H0 as <-; auto.
  - by eapply Poll_effect.
  - apply Poll_ctx_done_effect; [done|]. by apply (inv_ctx _ Hi).
  - right. exists i, p, (PReady w), None. cbn. rewrite app_nil_r. split_and!; try done. by econstructor.
  - right. exists i, p, (PReturned (Some (Value e))), (Some e). split_and!; [done|done|by econstructor|]. exact (fmap_app fst (delivered (past q)) [(e, now q)]).
Qed.

Lemma queue_reachable_inv size start polls adds shuts q : reachable size start polls adds shuts q → inv q.
Proof.
  revert q. apply rtc_ind_r.
  - apply NewQueue_inv. unfold flights. induction polls as [|n IH]; [done|]. exact IH.
  - intros q1 q2 _ [Hs|Hs] Hi; [by eapply queue_step_inv|by eapply queue_call_inv].
Qed.

(** [Poll] takes an element that is due first. *)
Lemma Poll_takes q w :
  inv q → elems (heap q) ≠ [] →
  ∃ q' e, Poll q w = Ret (q', PWaiting w e) ∧ elems (heap q) ≡ₚ e :: elems (heap q') ∧
    ∀ e', e' ∈ elems (heap q) → nanos (Key e) ≤ nanos (Key e').
Proof.
  intros [] Hne. unfold Poll. destruct (Z.eqb_spec (Len (heap q)) 0) as [El|_].
  { unfold Len, len in El. destruct (elems (heap q)); [done|]. cbn in El. lia. }
  destruct (Pop_ok _ (st_heap _ _ _ _ inv_stored0) Hne) as (h & e & -> & _ & Hp & _ & Hmin & _). cbn [mbind outcome_bind].
  eexists _, e. split_and!; [done|done|]. intros e' He'. apply compare_times_le, Hmin, He'.
Qed.

(** A goroutine that waits for its element can return it. *)
Lemma due_returns q i p w e :
  pollers q !! i = Some p → waiting_for p = Some (w, e) →
  ∃ q', rtc step q q' ∧ pollers q' !! i = Some (PReturned (Some (Value e))) ∧ now q' = now q `max` nanos (Key e).
Proof.
  intros Hi Hw. set (t := now q `max` nanos (Key e)). eexists. split_and!.
  - eapply rtc_l; [apply (tick q t); lia|]. apply rtc_once, (poll_due _ i p w); [exact Hi|exact Hw|cbn; lia].
  - cbn. apply list_lookup_insert_eq. by eapply lookup_lt_Some.
  - done.
Qed.

End queue.
Arguments Queue : clear implicits.
Arguments history : clear implicits.
Arguments poll_pc : clear implicits.
Arguments add_pc : clear implicits.

(** ** Properties *)

(** C20: the elements of a timed queue, in every interleaving of [Poll], [Add], [Cancel] and
    [Shutdown]. Each element that was added is in one place: in the heap, with a goroutine
    that waits until it is due, returned, or dropped. It is returned once at most, and not
    before its time, unless a shutdown asks to ignore it. It is dropped only when it was
    canceled, when an [Add] met a queue that already held its maximal number of elements
    (this number is kept with the dropped element), or when a shutdown cancels pending
    elements. Canceled elements are not in the heap, so they cannot be polled, and the heap
    keeps its maximal size. *)
Theorem TimedQueue_delivery {T} (empty : T) size start polls adds shuts q :
  reachable empty size start polls adds shuts q →
  NoDup (e_id <$> added (past q)) ∧
  added (past q) ≡ₚ
    elems (heap q) ++ flights (pollers q) ++ (delivered (past q)).*1 ++ (dropped (past q)).*1 ∧
  (∀ e t, (e, t) ∈ delivered (past q) → in_time q e t) ∧
  (∀ e r, (e, r) ∈ dropped (past q) → drop_reason q e r) ∧
  (∀ e, e ∈ elems (heap q) → e_id e ∉ canceled q) ∧
  (0 < maxSize q → Size q ≤ maxSize q).
Proof. intros Hr. destruct (queue_reachable_inv _ _ _ _ _ _ _ Hr) as [[] ]. done. Qed.

(** C21: no wake-up is lost, and a queue that is not empty can be polled.  When a
    goroutine sleeps in [Poll], each element of the heap has a goroutine that was
    woken up, or that has called [Poll], or an [Add] that is about to signal.  Such
    a goroutine takes an element that is due first, and whoever waits for an
    element can return it when it is due. *)
Theorem TimedQueue_progress {T} (empty : T) size start polls adds shuts q :
  reachable empty size start polls adds shuts q →
  (PParked ∈ pollers q → Size q ≤ zsum is_ready (pollers q) + zsum is_signal (adders q)) ∧
  (∀ w, elems (heap q) ≠ [] →
    ∃ q' e, Poll empty q w = Ret (q', PWaiting w e) ∧ elems (heap q) ≡ₚ e :: elems (heap q') ∧
      ∀ e', e' ∈ elems (heap q) → nanos (Key e) ≤ nanos (Key e')) ∧
  (∀ i p w e, pollers q !! i = Some p → waiting_for p = Some (w, e) →
    ∃ q', rtc (step empty) q q' ∧ pollers q' !! i = Some (PReturned (Some (Value e))) ∧
      now q' = now q `max` nanos (Key e)).
Proof.
  intros Hr. pose proof (queue_reachable_inv _ _ _ _ _ _ _ Hr) as Hi. split_and!.
  - apply Hi.
  - intros w Hne. by apply Poll_takes.
  - intros i p w e. apply due_returns.
Qed.

(** ** Runs *)

Section runs.
Context {T : Type} (empty : T).

Definition get {A} (a : A) (m : outcome A) : A := match m with Ret a => a | Panic _ => a end.

(** One [Add] by the first adder, up to its signal. *)
Definition run_add (q : Queue T) (v : T) (t : Z) : Queue T :=
  let q := set_adder q 0 (AChecked v t) in set_adder (get q (Add q v t)) 0 ASignal.

Lemma run_add_steps q v t q' :
  adders q !! 0%nat = Some AIdle → isShutdown q = false → Add (set_adder q 0 (AChecked v t)) v t = Ret q' →
  rtc (step empty) q (run_add q v t).
Proof.
  intros Hi Hs Ha. eapply rtc_l; [by apply (add_check empty q 0 v t); [|unfold Add_check; rewrite Hs]|].
  apply rtc_once. unfold run_add. cbv zeta. rewrite Ha. apply (add_lock empty _ 0 v t); [|done].
  apply list_lookup_insert_eq. by eapply lookup_lt_Some.
Qed.

(** One critical section of [Poll]. *)
Definition run_poll (q : Queue T) (i : nat) (w : bool) : Queue T :=
  let '(q, p) := get (q, PReady w) (Poll empty q w) in set_poller q i p.

Lemma run_poll_step q i w r :
  pollers q !! i = Some (PReady w) → Poll empty q w = Ret r → step empty q (run_poll q i w).
Proof. intros Hi Hp. unfold run_poll. rewrite Hp. destruct r as [q' p]. by apply (poll_lock empty q i w). Qed.

Lemma steps_any q q' : rtc (step empty) q q' → rtc (any_step empty) q q'.
Proof. apply rtc_subrel. intros ??. by left. Qed.

End runs.

(** Two elements are added and the one that is due first is taken. *)
Definition sample_new : Queue Z := NewQueue 0 0 [PReturned None] 1 1.
Definition sample_added : Queue Z := run_add (set_adder (run_add sample_new 7 5) 0 AIdle) 8 3.
Definition sample_polled : Queue Z := run_poll 0 (set_poller sample_added 0 (PReady false)) 0 false.

Lemma sample_reachable : reachable 0 0 0 1 1 1 sample_polled.
Proof.
  assert (∃ q', Add (set_adder sample_new 0 (AChecked 7 5)) 7 5 = Ret q') as [q1 H1] by (vm_compute; eauto).
  assert (∃ q', Add (set_adder (set_adder (run_add sample_new 7 5) 0 AIdle) 0 (AChecked 8 3)) 8 3 = Ret q') as [q2 H2]
    by (vm_compute; eauto).
  assert (∃ r, Poll 0 (set_poller sample_added 0 (PReady false)) false = Ret r) as [r Hr] by (vm_compute; eauto).
  unfold reachable. etrans; [by apply steps_any, (run_add_steps 0 sample_new 7 5 q1)|].
  eapply rtc_l; [left; apply (add_signal_none 0 _ 0); [by vm_compute|]|].
  { vm_compute. intros H%list_elem_of_singleton. done. }
  etrans; [by apply steps_any, (run_add_steps 0 _ 8 3 q2)|].
  eapply rtc_l; [right; by apply (poll_call _ 0 None false)|].
  apply rtc_once. left. by apply (run_poll_step 0 _ 0 false r).
Qed.

Lemma TimedQueue_delivery_witness :
  reachable 0 0 0 1 1 1 sample_polled ∧
  (Value <$> added (past sample_polled)) = [7; 8] ∧ (Value <$> flights (pollers sample_polled)) = [8] ∧
  added (past sample_polled) ≡ₚ
    elems (heap sample_polled) ++ flights (pollers sample_polled) ++ (delivered (past sample_polled)).*1 ++
      (dropped (past sample_polled)).*1.
Proof.
  split_and!; [apply sample_reachable|by vm_compute|by vm_compute|].
  apply (TimedQueue_delivery 0 0 0 1 1 1 sample_polled sample_reachable).
Defined.

Lemma TimedQueue_progress_witness :
  ∃ p w e, pollers sample_polled !! 0%nat = Some p ∧ waiting_for p = Some (w, e) ∧ Value e = 8 ∧
    ∃ q', rtc (step 0) sample_polled q' ∧ pollers q' !! 0%nat = Some (PReturned (Some (Value e))).
Proof.
  eexists _, _, _. split_and!; [by vm_compute|by vm_compute|by vm_compute|].
  destruct (TimedQueue_progress 0 0 0 1 1 1 sample_polled sample_reachable) as (_ & _ & H).
  destruct (H 0%nat _ _ _ eq_refl eq_refl) as (q' & Hr & Hq & _). by exists q'.
Defined.

(** A full queue does not drop the element that is furthest in the future, but the
    last of the slice. *)
Lemma overflow_drops_other :
  let q := NewQueue (T := Z) 2 0 [] 1 0 in
  let q := get q (Add q 1 50) in let q := get q (Add q 2 10) in let q := get q (Add q 3 30) in
  (nanos ∘ Key <$> elems (heap q)) = [10; 50] ∧ (nanos ∘ Key ∘ fst <$> dropped (past q)) = [30].
Proof. by vm_compute. Qed.

(** ** A shutdown that leaves a goroutine asleep

    Two goroutines sleep.  An [Add] wakes one of them up; before it runs, the queue
    is shut down, and since an element is queued nobody else is woken up. *)

Definition stuck {T} (q : Queue T) : Prop :=
  pollers q !! 1%nat = Some PParked ∧ isShutdown q = true ∧ Forall (λ a, a = AIdle) (adders q) ∧
  Forall (λ s, s = SReturned) (shutters q).

Lemma stuck_step {T} (empty : T) q q' : any_step empty q q' → stuck q → stuck q'.
Proof.
  intros Hs (Hp & Hd & Ha & Hsh). unfold stuck.
  assert (∀ i p, pollers q !! i = Some p → p ≠ PParked → i ≠ 1%nat) as Hne by (intros i p Hi ? ->; congruence).
  destruct Hs as [Hs|Hs]; destruct Hs.
  - done.
  - unfold Add_check in *. destruct (isShutdown q); [by destruct (HasBits _ _)|done].
  - rewrite Forall_lookup in Ha. by apply Ha in H.
  - rewrite Forall_lookup in Ha. by apply Ha in H.
  - rewrite Forall_lookup in Ha. by apply Ha in H.
  - unfold Cancel, removeElement in *. apply outcome_bind_Ret in H0 as (q1 & H1 & E). injection E as <-. cbn.
    destruct (_ =? _); [by injection H1 as <-|]. apply outcome_bind_Ret in H1 as ([] & _ & E). by injection E as <-.
  - unfold Shutdown_mark in *. destruct (isShutdown q); [by destruct (HasBits _ _)|done].
  - rewrite Forall_lookup in Hsh. by apply Hsh in H.
  - rewrite Forall_lookup in Hsh. by apply Hsh in H.
  - specialize (Hne i _ H ltac:(done)). cbn. rewrite list_lookup_insert_ne by done. unfold Poll in *.
    destruct (_ =? _); [destruct (_ || _); by simplify_eq|].
    apply outcome_bind_Ret in H0 as ([] & _ & E). by simplify_eq.
  - specialize (Hne i _ H ltac:(done)). unfold Poll_ctx_done. destruct (HasBits _ _); [|destruct (HasBits _ _)];
      cbn; by rewrite list_lookup_insert_ne by done.
  - assert (i ≠ 1%nat) by (eapply Hne; [done|by intros ->]). cbn. by rewrite list_lookup_insert_ne by done.
  - assert (i ≠ 1%nat) by (eapply Hne; [done|by intros ->]). cbn. by rewrite list_lookup_insert_ne by done.
  - specialize (Hne i _ H ltac:(done)). cbn. by rewrite list_lookup_insert_ne by done.
Qed.

Definition sleeping : Queue Z := NewQueue 0 0 [PParked; PParked] 1 1.
Definition woken : Queue Z := set_poller (set_adder (run_add sleeping 7 5) 0 AIdle) 0 (PReady true).
Definition shut_down : Queue Z :=
  let q := set_shutter (get woken (default woken <$> Shutdown_mark woken [])) 0 SMarked in
  let q := set_shutter (ctxCancel q) 0 SCanceled in
  set_shutter (get q (Shutdown_heap q)) 0 SReturned.

Lemma shutdown_leaves_waiter :
  reachable 0 0 0 2 1 1 shut_down ∧ stuck shut_down ∧
  (∀ q, rtc (any_step 0) shut_down q → pollers q !! 1%nat = Some PParked).
Proof.
  assert (∃ q', Add (set_adder sleeping 0 (AChecked 7 5)) 7 5 = Ret q') as [q1 H1] by (vm_compute; eauto).
  split_and!.
  - eapply rtc_l; [right; by apply (poll_call _ 0 None true)|].
    eapply rtc_l; [left; by apply (poll_lock 0 _ 0 true)|].
    eapply rtc_l; [right; by apply (poll_call _ 1 None true)|].
    eapply rtc_l; [left; by apply (poll_lock 0 _ 1 true)|]. change (rtc (any_step 0) sleeping shut_down).
    etrans; [by apply steps_any, (run_add_steps 0 sleeping 7 5 q1)|].
    eapply rtc_l; [left; by apply (add_signal 0 _ 0 0)|].
    eapply rtc_l; [left; by apply (shutdown_mark 0 woken 0 [])|].
    eapply rtc_l; [left; by apply (shutdown_ctx 0 _ 0)|].
    apply rtc_once. left. by apply (shutdown_heap 0 _ 0).
  - split_and!; try by vm_compute; repeat constructor.
  - intros q Hr.
    assert (stuck q) as [? _]; [|done].
    revert q Hr. apply rtc_ind_r; [split_and!; try by vm_compute; repeat constructor|].
    intros q q' _ Hs Hi. by eapply stuck_step.
Qed.
