(* ===== verification/TimedPriorityQueue.v ===== *)
(** * runtime/timed: priority queues

    [src/runtime/timed/priority_queue.go]: the priority queue of
    [PriorityQueue.v] with times as priorities, the oldest or the newest element
    first. *)

From S2P Require Import Prelude Heap PriorityQueue.

Record timeAscending : Type := Ascending { asc_time : Z }.
Record timeDescending : Type := Descending { desc_time : Z }.

#[global] Instance timeAscending_CompareTo : Comparable timeAscending :=
  λ t other, if asc_time t <? asc_time other then -1 else if asc_time other <? asc_time t then 1 else 0.

#[global] Instance timeDescending_CompareTo : Comparable timeDescending :=
  λ t other, if desc_time t <? desc_time other then 1 else if desc_time other <? desc_time t then -1 else 0.

Ltac compare_cases :=
  repeat match goal with
  | H : context [?a <? ?b] |- _ => destruct (Z.ltb_spec a b)
  | |- context [?a <? ?b] => destruct (Z.ltb_spec a b)
  end; lia.

Lemma asc_le a b : key_le a b ↔ asc_time a ≤ asc_time b.
Proof. unfold key_le, CompareTo, timeAscending_CompareTo. compare_cases. Qed.

Lemma desc_le a b : key_le a b ↔ desc_time b ≤ desc_time a.
Proof. unfold key_le, CompareTo, timeDescending_CompareTo. compare_cases. Qed.

#[global] Instance timeAscending_laws : ComparableLaws timeAscending.
Proof. split; unfold key_le, CompareTo, timeAscending_CompareTo; intros; compare_cases. Qed.

#[global] Instance timeDescending_laws : ComparableLaws timeDescending.
Proof. split; unfold key_le, CompareTo, timeDescending_CompareTo; intros; compare_cases. Qed.

Section timed.
Context {E : Type}.

(** The interface [PriorityQueue] has these two implementations. *)
Inductive TimedQueue : Type :=
  | priorityQueueAscending (q : PriorityQueue timeAscending E)
  | priorityQueueDescending (q : PriorityQueue timeDescending E).

(** [lo.First(ascending)] *)
Definition NewPriorityQueue (ascending : list bool) : TimedQueue :=
  if default false (head ascending) then priorityQueueAscending New else priorityQueueDescending New.

Definition TPush (q : TimedQueue) (element : E) (time : Z) : outcome TimedQueue :=
  match q with
  | priorityQueueAscending q => '(q, _) ← Push q element (Ascending time); Ret (priorityQueueAscending q)
  | priorityQueueDescending q => '(q, _) ← Push q element (Descending time); Ret (priorityQueueDescending q)
  end.

Definition TPopUntil (q : TimedQueue) (time : Z) : outcome (TimedQueue * list E) :=
  match q with
  | priorityQueueAscending q => '(q, es) ← PopUntil q (Ascending time); Ret (priorityQueueAscending q, es)
  | priorityQueueDescending q => '(q, es) ← PopUntil q (Descending time); Ret (priorityQueueDescending q, es)
  end.

(** ** What a queue holds *)

Definition ascending (q : TimedQueue) : bool := match q with priorityQueueAscending _ => true | _ => false end.

Definition contents (q : TimedQueue) : list (Z * E) :=
  match q with
  | priorityQueueAscending q => (λ e, (asc_time (Key e), Value e)) <$> queued q
  | priorityQueueDescending q => (λ e, (desc_time (Key e), Value e)) <$> queued q
  end.

Definition tq_ok (q : TimedQueue) : Prop :=
  match q with priorityQueueAscending q => pq_ok q | priorityQueueDescending q => pq_ok q end.

(** [a] comes before [b], or at the same time. *)
Definition before (asc : bool) (a b : Z) : Prop := if asc then a ≤ b else b ≤ a.

Lemma TPush_adds q x t :
  tq_ok q → ∃ q', TPush q x t = Ret q' ∧ tq_ok q' ∧ ascending q' = ascending q ∧ contents q' ≡ₚ (t, x) :: contents q.
Proof.
  destruct q as [q|q]; cbn [tq_ok TPush ascending contents]; intros Hq.
  - destruct (Push_pq q x (Ascending t) Hq) as (q' & id & -> & Hq' & Hp). eexists. split_and!; [done..|]. cbn. by rewrite Hp.
  - destruct (Push_pq q x (Descending t) Hq) as (q' & id & -> & Hq' & Hp). eexists. split_and!; [done..|]. cbn. by rewrite Hp.
Qed.

Lemma sorted_fmap {A B} (f : A → B) (R : B → B → Prop) (S : A → A → Prop) l :
  (∀ a b, S a b → R (f a) (f b)) → StronglySorted S l → StronglySorted R (f <$> l).
Proof. intros H. induction 1; cbn; constructor; [done|]. apply Forall_fmap. by eapply Forall_impl; [|intros b; apply H]. Qed.

(** [PopUntil] removes the elements up to the time and returns them in order. *)
Lemma TPopUntil_pops q t :
  tq_ok q →
  ∃ q' es, TPopUntil q t = Ret (q', es.*2) ∧ tq_ok q' ∧ ascending q' = ascending q ∧ contents q ≡ₚ es ++ contents q' ∧
    StronglySorted (λ a b, before (ascending q) a.1 b.1) es ∧
    Forall (λ a, before (ascending q) a.1 t) es ∧ Forall (λ a, ¬ before (ascending q) a.1 t) (contents q').
Proof.
  destruct q as [q|q]; cbn [tq_ok TPopUntil ascending contents before]; intros Hq.
  - destruct (proj1 (PopUntil_and_PopAll q (Ascending t) Hq)) as (q' & es & -> & Hq' & Hp & Hs & Hall & Hrest).
    eexists _, ((λ e, (asc_time (Key e), Value e)) <$> es). cbn. split_and!; [by rewrite <-list_fmap_compose|done|done| | | |].
    + by rewrite Hp, fmap_app.
    + eapply sorted_fmap; [|exact Hs]. intros a b Hk. by apply asc_le.
    + apply Forall_fmap. eapply Forall_impl; [exact Hall|]. intros e Hk. by apply (asc_le (Key e) (Ascending t)).
    + apply Forall_fmap. eapply Forall_impl; [exact Hrest|]. intros e Hk ?. by apply Hk, (asc_le (Key e) (Ascending t)).
  - destruct (proj1 (PopUntil_and_PopAll q (Descending t) Hq)) as (q' & es & -> & Hq' & Hp & Hs & Hall & Hrest).
    eexists _, ((λ e, (desc_time (Key e), Value e)) <$> es). cbn. split_and!; [by rewrite <-list_fmap_compose|done|done| | | |].
    + by rewrite Hp, fmap_app.
    + eapply sorted_fmap; [|exact Hs]. intros a b Hk. by apply desc_le.
    + apply Forall_fmap. eapply Forall_impl; [exact Hall|]. intros e Hk. by apply (desc_le (Key e) (Descending t)).
    + apply Forall_fmap. eapply Forall_impl; [exact Hrest|]. intros e Hk ?. by apply Hk, (desc_le (Key e) (Descending t)).
Qed.

End timed.
Arguments TimedQueue : clear implicits.
