(* ===== verification/TimedExecutor.v ===== *)
(** * runtime/timed: executors

    [src/runtime/timed/executor.go] and [taskexecutor.go], over the queue of
    [TimedQueue.v].  A worker is a goroutine that polls in a loop and runs what it
    gets; [F] are the functions that are scheduled, [None] is a nil function, which
    is also what [Poll] returns when it gives up. *)

From stdpp Require Import relations.
From S2P Require Import Prelude Heap BitMask TimedQueue.

Section executor.
Context {F : Type}.

Notation elem := (HeapElement HeapKey (option F)).

Inductive worker_pc : Type :=
  | WPolling
  | WRunning (f : F)
  | WExited.

Record Executor : Type := mkExecutor {
  queue : Queue (option F);
  workers : list worker_pc;
  shutdownWG : Z;
  ran : list F;        (* what was run, in the order of the starts *)
}.

(** [startBackgroundWorkers] adds each worker to the wait group before it starts. *)
Definition NewExecutor (workerCount : nat) (optsMaxQueueSize start : Z) (adds shuts : nat) : Executor :=
  mkExecutor (NewQueue optsMaxQueueSize start (replicate workerCount (PReady true)) adds shuts)
    (replicate workerCount WPolling) (Z.of_nat workerCount) [].

Definition set_worker (x : Executor) (i : nat) (w : worker_pc) (p : poll_pc (option F)) : Executor :=
  mkExecutor (set_poller (queue x) i p) (<[i:=w]> (workers x)) (shutdownWG x) (ran x).

(** [ExecuteAt], [Size] and [Shutdown] are steps of the queue. *)
Inductive exec_step : Executor → Executor → Prop :=
  | queue_step x q' : step None (queue x) q' → exec_step x (mkExecutor q' (workers x) (shutdownWG x) (ran x))
  | worker_run x i f :
      workers x !! i = Some WPolling → pollers (queue x) !! i = Some (PReturned (Some (Some f))) →
      exec_step x (mkExecutor (queue x) (<[i:=WRunning f]> (workers x)) (shutdownWG x) (ran x ++ [f]))
  | worker_next x i f :
      workers x !! i = Some (WRunning f) → exec_step x (set_worker x i WPolling (PReady true))
  | worker_exit x i :
      workers x !! i = Some WPolling → pollers (queue x) !! i = Some (PReturned (Some None)) →
      exec_step x (mkExecutor (queue x) (<[i:=WExited]> (workers x)) (shutdownWG x - 1) (ran x)).

Definition exec_reachable (n : nat) (size start : Z) (adds shuts : nat) (x : Executor) : Prop :=
  rtc exec_step (NewExecutor n size start adds shuts) x.

(** ** The invariant *)

Definition alive (w : worker_pc) : Z := match w with WExited => 0 | _ => 1 end.

(** The function a worker was given and has not started yet. *)
Definition given (w : worker_pc) (p : poll_pc (option F)) : option F :=
  match w, p with WPolling, PReturned (Some (Some f)) => Some f | _, _ => None end.

Definition fits (w : worker_pc) (p : poll_pc (option F)) : Prop :=
  match w, p with
  | WPolling, (PReady w | PWaiting w _ | PDraining w _) => w = true
  | WPolling, PParked => True
  | WPolling, PReturned r => is_Some r
  | WRunning _, PReturned r => True
  | WExited, PReturned (Some None) => True
  | _, _ => False
  end.

Definition no_nil (q : Queue (option F)) : Prop := ∀ e, e ∈ added (past q) → Value e ≠ None.

(** A worker gives up only when nothing is left that was scheduled before the
    shutdown, or when pending elements are canceled. *)
Definition gave_up (q : Queue (option F)) : Prop :=
  isShutdown q = true ∧
  (HasBits (shutdownFlags q) CancelPendingElements = true ∨ ∀ e, e ∈ elems (heap q) → e_id e ∈ late (past q)).

Record exec_inv (x : Executor) : Prop := {
  xi_queue : inv (queue x);
  xi_length : length (pollers (queue x)) = length (workers x);
  xi_fits i w p : workers x !! i = Some w → pollers (queue x) !! i = Some p → fits w p;
  xi_group : shutdownWG x = zsum alive (workers x);
  xi_ran : no_nil (queue x) →
    (Some <$> ran x) ++ (Some <$> omap id (zip_with given (workers x) (pollers (queue x)))) ≡ₚ
      (Value <$> delivered_elems (queue x));
  xi_gave_up : no_nil (queue x) → PReturned (Some None) ∈ pollers (queue x) → gave_up (queue x);
}.

Lemma gave_up_grows q q' : grows q q' → gave_up q → gave_up q'.
Proof.
  intros [gr_later0 _ gr_late0 gr_heap0] [Hs Hg]. destruct (la_shutdown _ _ gr_later0 Hs) as [Hs' Hf]. split; [done|]. rewrite Hf.
  destruct Hg as [?|Hg]; [by left|]. right. intros e He. destruct (gr_heap0 e Hs He) as [He'|]; [|done]. by apply gr_late0, Hg.
Qed.

Lemma fits_wake w p : fits w p → fits w (wake p).
Proof. by destruct w, p. Qed.

Lemma given_wake ws (ps : list (poll_pc (option F))) : zip_with given ws (wake <$> ps) = zip_with given ws ps.
Proof.
  revert ps. induction ws as [|w ws IH]; intros [|p ps]; cbn; [done..|]. rewrite IH. by destruct w, p.
Qed.

(** A worker whose goroutine moves is polling. *)
Lemma fits_move q w p p' d :
  fits w p → poll_move None q p p' d → w = WPolling ∧ fits w p' ∧ given w p = None ∧
    (given w p' = match d with Some e => Value e | None => None end).
Proof.
  intros Hf Hm. destruct Hm; destruct w; cbn in *; try done; try (by subst).
  all: try (destruct p; simplify_eq/=; try done; split_and!; try done; by destruct (Value e)).
Qed.

Lemma move_gives_up q w p d :
  inv q → no_nil q → fits w p → (∀ e, snd <$> waiting_for p = Some e → e ∈ added (past q)) →
  poll_move None q p (PReturned (Some None)) d → gave_up q.
Proof.
  intros Hi Hn Hf Hin Hm. inversion Hm as [| |w' He Hw| |w' e Hs Hc| |p' w' e Hw E|]; subst.
  - destruct w; [|done..]. cbn in Hf. subst. destruct Hw as [|Hs]; [done|]. split; [done|]. right. rewrite He.
    by intros e ?%not_elem_of_nil.
  - split; [done|]. by left.
  - exfalso. apply (Hn e); [|congruence]. apply Hin. by rewrite Hw.
Qed.

Lemma flight_added (q : Queue (option F)) i p e :
  inv q → pollers q !! i = Some p → snd <$> waiting_for p = Some e → e ∈ added (past q).
Proof.
  intros Hq Hi Hw. rewrite (st_places _ _ _ _ (inv_stored _ Hq)). apply elem_of_app. right. apply elem_of_app. left.
  apply list_elem_of_omap. exists p. split; [by eapply list_elem_of_lookup_2|done].
Qed.

Lemma given_insert ws (ps : list (poll_pc (option F))) i w p w' p' :
  ws !! i = Some w → ps !! i = Some p →
  option_list (given w p) ++ omap id (zip_with given (<[i:=w']> ws) (<[i:=p']> ps)) ≡ₚ
    option_list (given w' p') ++ omap id (zip_with given ws ps).
Proof.
  intros Hw Hp. rewrite <-insert_zip_with. apply (omap_insert_perm id _ i (given w p) (given w' p')).
  rewrite lookup_zip_with. by rewrite Hw, Hp.
Qed.

(** A step of the queue. *)
Lemma exec_queue_step x q' :
  step None (queue x) q' → exec_inv x → exec_inv (mkExecutor q' (workers x) (shutdownWG x) (ran x)).
Proof.
  intros Hs Hx. destruct Hx as [xi_queue0 xi_length0 xi_fits0 xi_group0 xi_ran0 xi_gave_up0]. pose proof (queue_step_inv None _ _ Hs xi_queue0) as Hi'. pose proof (step_grows None _ _ xi_queue0 Hs) as Hg.
  assert (no_nil q' → no_nil (queue x)) as Hnn. { intros Hn e He. by apply Hn, (gr_added _ _ Hg). }
  destruct (step_effect None _ _ xi_queue0 Hs) as [[[Hp|Hp] Hd]|(i & p & p' & d & Hi & Hp & Hm & Hd)].
  - split; cbn; rewrite ?Hp, ?Hd; try done; [by eauto|]. intros Hn Hin. eapply gave_up_grows; eauto.
  - split; cbn; rewrite ?Hp, ?Hd; try done.
    + by rewrite length_fmap.
    + intros i w p Hwi Hpi. rewrite list_lookup_fmap in Hpi. apply fmap_Some in Hpi as (p0 & Hp0 & ->). by apply fits_wake, (xi_fits0 i).
    + intros Hn. rewrite <-(xi_ran0 (Hnn Hn)). by rewrite given_wake.
    + intros Hn (p0 & E & Hin)%list_elem_of_fmap. eapply gave_up_grows; [done|]. apply xi_gave_up0; [auto|]. by destruct p0; simplify_eq/=.
  - destruct (lookup_lt_is_Some_2 (workers x) i) as [w Ew]; [rewrite <-xi_length0; by eapply lookup_lt_Some|].
    destruct (fits_move _ _ _ _ _ (xi_fits0 i w p Ew Hi) Hm) as (-> & Hf' & Hg0 & Hg').
    split; cbn; rewrite ?Hp, ?Hd; try done.
    + by rewrite length_insert.
    + intros k w p0 Hwk Hpk. apply list_lookup_insert_Some in Hpk as [(-> & -> & _)|[_ Hpk]]; [by simplify_eq|by eauto].
    + intros Hn. pose proof (given_insert _ _ _ _ _ WPolling p' Ew Hi) as Hperm. rewrite (list_insert_id _ _ _ Ew), Hg0 in Hperm.
      rewrite Hg' in Hperm. cbn [option_list app] in Hperm. rewrite Hperm, fmap_app, fmap_app, <-(xi_ran0 (Hnn Hn)).
      destruct d as [e|]; cbn; [|by rewrite app_nil_r]. assert (Value e ≠ None) as Hv.
      { assert (e ∈ added (past (queue x))) as Ha; [|by apply (Hnn Hn)]. inversion Hm; subst.
        eapply flight_added; [done|done|]. by match goal with H : waiting_for _ = _ |- _ => rewrite H end. }
      destruct (Value e); [|done]. cbn. rewrite <-Permutation_middle, <-app_assoc. cbn. by rewrite <-Permutation_middle, <-Permutation_middle, app_nil_r.
    + intros Hn Hin. eapply gave_up_grows; [done|]. apply list_elem_of_lookup in Hin as [k Hk].
      apply list_lookup_insert_Some in Hk as [(<- & -> & _)|[_ Hk]].
      * eapply move_gives_up; [done|by auto|by eapply (xi_fits0 i)| |done]. intros e He. by eapply flight_added.
      * apply xi_gave_up0; [auto|]. by eapply list_elem_of_lookup_2.
Qed.

Lemma worker_run_inv x i f :
  workers x !! i = Some WPolling → pollers (queue x) !! i = Some (PReturned (Some (Some f))) → exec_inv x →
  exec_inv (mkExecutor (queue x) (<[i:=WRunning f]> (workers x)) (shutdownWG x) (ran x ++ [f])).
Proof.
  intros Hw Hp []. split; cbn; try done.
  - by rewrite length_insert.
  - intros k w p Hwk Hpk. apply list_lookup_insert_Some in Hwk as [(-> & <- & _)|[_ Hwk]]; [by simplify_eq|by eauto].
  - rewrite (zsum_insert _ _ _ _ _ Hw). cbn. lia.
  - intros Hn. rewrite <-(xi_ran0 Hn).
    pose proof (given_insert _ _ _ _ _ (WRunning f) (PReturned (Some (Some f))) Hw Hp) as Hperm.
    rewrite (list_insert_id _ _ _ Hp) in Hperm. cbn [given option_list app] in Hperm.
    rewrite <-Hperm, fmap_app, <-app_assoc. cbn. done.
Qed.

Lemma worker_next_inv x i f :
  workers x !! i = Some (WRunning f) → exec_inv x → exec_inv (set_worker x i WPolling (PReady true)).
Proof.
  intros Hw []. destruct (lookup_lt_is_Some_2 (pollers (queue x)) i) as [p Hp]; [rewrite xi_length0; by eapply lookup_lt_Some|].
  pose proof (xi_fits0 i _ _ Hw Hp) as Hf. destruct p as [r| | | |]; try done. split; cbn.
  - apply (queue_call_inv (queue x)); [|done]. by apply (poll_call _ i r true).
  - by rewrite !length_insert.
  - intros k w p Hwk Hpk. destruct (decide (k = i)) as [->|Hne].
    + rewrite list_lookup_insert_eq in Hwk by (by eapply lookup_lt_Some).
      rewrite list_lookup_insert_eq in Hpk by (by eapply lookup_lt_Some). by simplify_eq.
    + rewrite list_lookup_insert_ne in Hwk by done. rewrite list_lookup_insert_ne in Hpk by done. by eauto.
  - rewrite (zsum_insert _ _ _ _ _ Hw). cbn. lia.
  - intros Hn. pose proof (given_insert _ _ _ _ _ WPolling (PReady true) Hw Hp) as Hperm. cbn [given option_list app] in Hperm.
    rewrite Hperm. by apply xi_ran0.
  - intros Hn Hin. apply xi_gave_up0; [done|]. apply list_elem_of_lookup in Hin as [k Hk].
    apply list_lookup_insert_Some in Hk as [(_ & ? & _)|[_ Hk]]; [done|]. by eapply list_elem_of_lookup_2.
Qed.

Lemma worker_exit_inv x i :
  workers x !! i = Some WPolling → pollers (queue x) !! i = Some (PReturned (Some None)) → exec_inv x →
  exec_inv (mkExecutor (queue x) (<[i:=WExited]> (workers x)) (shutdownWG x - 1) (ran x)).
Proof.
  intros Hw Hp []. split; cbn; try done.
  - by rewrite length_insert.
  - intros k w p Hwk Hpk. apply list_lookup_insert_Some in Hwk as [(-> & <- & _)|[_ Hwk]]; [by simplify_eq|by eauto].
  - rewrite (zsum_insert _ _ _ _ _ Hw). cbn. lia.
  - intros Hn. rewrite <-(xi_ran0 Hn).
    pose proof (given_insert _ _ _ _ _ WExited (PReturned (Some None)) Hw Hp) as Hperm.
    rewrite (list_insert_id _ _ _ Hp) in Hperm. cbn [given option_list app] in Hperm. by rewrite Hperm.
Qed.

Lemma NewExecutor_inv n size start adds shuts : exec_inv (NewExecutor n size start adds shuts).
Proof.
  split; cbn.
  - apply NewQueue_inv. unfold flights. induction n as [|n IH]; [done|]. exact IH.
  - by rewrite !length_replicate.
  - intros i w p [-> _]%lookup_replicate [-> _]%lookup_replicate. done.
  - induction n as [|n IH]; cbn; [done|]. rewrite <-IH. lia.
  - intros _. replace (omap id _) with (@nil F); [done|]. induction n as [|n IH]; [done|]. exact IH.
  - intros _ Hin. apply list_elem_of_lookup in Hin as [i [? _]%lookup_replicate]. done.
Qed.

Lemma exec_reachable_inv n size start adds shuts x : exec_reachable n size start adds shuts x → exec_inv x ∧ length (workers x) = n.
Proof.
  revert x. apply rtc_ind_r; [split; [apply NewExecutor_inv|apply length_replicate]|].
  intros x x' _ Hs [Hi Hl]. destruct Hs; cbn; rewrite ?length_insert; (split; [|done]).
  - by apply exec_queue_step.
  - by apply worker_run_inv.
  - by eapply worker_next_inv.
  - by apply worker_exit_inv.
Qed.

(** All workers have exited. *)
Lemma all_exited (ws : list worker_pc) : zsum alive ws = 0 → Forall (λ w, w = WExited) ws.
Proof.
  induction ws as [|w ws IH]; cbn; intros H; [constructor|]. assert (0 ≤ zsum alive ws) as Hp.
  { clear. induction ws as [|[] ws IH]; cbn; lia. }
  destruct w; cbn in H; [lia|lia|]. constructor; [done|]. by apply IH.
Qed.

End executor.
Arguments Executor : clear implicits.
Arguments worker_pc : clear implicits.

(** Nobody waits for an element and nothing is left to be run. *)
Lemma exited_idle {F} (x : Executor F) :
  exec_inv x → Forall (λ w, w = WExited) (workers x) →
  flights (pollers (queue x)) = [] ∧ omap id (zip_with given (workers x) (pollers (queue x))) = [] ∧
  ∀ p, p ∈ pollers (queue x) → p = PReturned (Some None).
Proof.
  intros [_ Hl Hf _ _ _] Hall.
  assert (∀ i p, pollers (queue x) !! i = Some p → p = PReturned (Some None)) as Hp.
  { intros i p Hp. destruct (lookup_lt_is_Some_2 (workers x) i) as [w Hw]; [rewrite <-Hl; by eapply lookup_lt_Some|].
    specialize (Hf i w p Hw Hp). rewrite Forall_lookup in Hall. rewrite (Hall i w Hw) in Hf. destruct p as [[[]|]| | | |]; done. }
  split_and!.
  - unfold flights. assert (Forall (λ p, p = PReturned (Some None)) (pollers (queue x))) as Hfa by (apply Forall_lookup; eauto).
    clear Hp Hf Hl. induction Hfa as [|p ps -> Hps IH]; [done|]. exact IH.
  - clear Hp Hf Hl. revert Hall. generalize (pollers (queue x)). induction (workers x) as [|w ws IH]; intros ps Hall; [done|].
    apply Forall_cons in Hall as [-> Hall]. destruct ps as [|p ps]; [done|]. cbn. by apply IH.
  - intros p [i Hi]%list_elem_of_lookup. eauto.
Qed.

(** ** Properties *)

(** A graceful shutdown of an executor runs everything that was scheduled
    before it.  The wait group counts the workers that have not exited.  When it is
    zero, and no nil function was scheduled, then the queue was shut down, the
    functions that were run are those the queue has delivered, each run once, and
    every function that was scheduled before the shutdown was run, or dropped since
    it was canceled or the queue was full, unless the shutdown cancels pending
    elements. *)
Lemma Executor_shutdown {F} n size start adds shuts (x : Executor F) :
  (0 < n)%nat → exec_reachable n size start adds shuts x →
  shutdownWG x = zsum alive (workers x) ∧
  (shutdownWG x = 0 → no_nil (queue x) →
    isShutdown (queue x) = true ∧
    Some <$> ran x ≡ₚ Value <$> delivered_elems (queue x) ∧
    ∀ e, e ∈ added (past (queue x)) →
      e ∈ delivered_elems (queue x) ∨ e_id e ∈ late (past (queue x)) ∨
      (∃ r, (e, r) ∈ dropped (past (queue x)) ∧ drop_reason (queue x) e r) ∨
      HasBits (shutdownFlags (queue x)) CancelPendingElements = true).
Proof.
  intros Hn Hr. destruct (exec_reachable_inv _ _ _ _ _ _ Hr) as [Hx Hlen]. pose proof Hx as [Hq Hl _ Hg Hran Hgave].
  split; [done|]. intros Hz Hnil. destruct (exited_idle x Hx) as (Hfl & Hgiven & Hp); [apply all_exited; lia|].
  destruct (pollers (queue x)) as [|p ps] eqn:Ep; [cbn in Hl; lia|].
  assert (gave_up (queue x)) as [Hs Hleft]. { apply Hgave; [done|]. rewrite (Hp p) by left. left. }
  split_and!; [done| |].
  - rewrite <-(Hran Hnil), Hgiven. by rewrite app_nil_r.
  - intros e He. destruct Hq as [[_ _ _ Hpl _ _] _ Hdr _ _ _ _]. rewrite Hpl, Ep, Hfl, !elem_of_app in He.
    destruct He as [He|[He%not_elem_of_nil|[He|He]]]; [|done|by left|].
    + destruct Hleft as [?|Hleft]; [by auto|]. right. left. by apply Hleft.
    + apply list_elem_of_fmap in He as ([e' r] & -> & He). right. right. left. exists r. split; [done|]. by apply Hdr.
Qed.

(** ** A run: one worker runs a function and exits after a shutdown *)

Definition with_queue {F} (x : Executor F) (q : Queue (option F)) : Executor F :=
  mkExecutor q (workers x) (shutdownWG x) (ran x).

Lemma queue_steps {F} (x : Executor F) q : rtc (step None) (queue x) q → rtc exec_step x (with_queue x q).
Proof.
  intros Hr. revert q Hr. apply rtc_ind_r; [by destruct x|]. intros q q' _ Hs IH.
  eapply rtc_r; [exact IH|]. exact (queue_step (with_queue x q) q' Hs).
Qed.

Definition one_worker : Executor nat := NewExecutor 1 0 0 1 1.
Definition one_added : Queue (option nat) := set_adder (run_add (queue one_worker) (Some 7%nat) 0) 0 AIdle.
Definition one_taken : Queue (option nat) := run_poll None one_added 0 true.
Definition one_delivered : Queue (option nat) :=
  match waiting_for (default PParked (pollers one_taken !! 0%nat)) with
  | Some (_, e) => set_poller (set_past one_taken (note_delivered (past one_taken) e 0)) 0 (PReturned (Some (Value e)))
  | None => one_taken
  end.
Definition one_ran : Executor nat :=
  let x := mkExecutor one_delivered [WRunning 7%nat] 1 [7%nat] in set_worker x 0 WPolling (PReady true).
Definition one_marked : Queue (option nat) :=
  set_shutter (get (queue one_ran) (default (queue one_ran) <$> Shutdown_mark (queue one_ran) [])) 0 SMarked.
Definition one_canceled : Queue (option nat) := set_shutter (ctxCancel one_marked) 0 SCanceled.
Definition one_closed : Queue (option nat) := set_shutter (get one_canceled (Shutdown_heap one_canceled)) 0 SReturned.
Definition one_shut : Queue (option nat) := run_poll None one_closed 0 true.
Definition one_exited : Executor nat := mkExecutor one_shut [WExited] 0 [7%nat].

Lemma one_ran_reachable : exec_reachable 1 0 0 1 1 one_ran.
Proof.
  assert (∃ q', Add (set_adder (queue one_worker) 0 (AChecked (Some 7%nat) 0)) (Some 7%nat) 0 = Ret q') as [q1 H1]
    by (vm_compute; eauto).
  assert (∃ r, Poll None one_added true = Ret r) as [r Hr] by (vm_compute; eauto).
  assert (rtc (step None) (queue one_worker) one_delivered) as Hq.
  { etrans; [by apply (run_add_steps None (queue one_worker) (Some 7%nat) 0 q1)|].
    eapply rtc_l; [apply (add_signal_none None _ 0); [done|]|]. { vm_compute. intros H%list_elem_of_singleton. done. }
    eapply rtc_l; [by apply (run_poll_step None one_added 0 true r)|].
    apply rtc_once. by eapply (poll_due None one_taken 0). }
  unfold exec_reachable. etrans; [by apply (queue_steps one_worker one_delivered)|].
  eapply rtc_l; [by apply (worker_run _ 0 7%nat)|]. apply rtc_once. by apply (worker_next _ 0 7%nat).
Qed.

Lemma one_exited_reachable : exec_reachable 1 0 0 1 1 one_exited.
Proof.
  assert (pollers one_shut !! 0%nat = Some (PReturned (Some None))) as Hp by (by vm_compute).
  assert (Shutdown_heap one_canceled = Ret (get one_canceled (Shutdown_heap one_canceled))) as Hh by (by vm_compute).
  assert (∃ r, Poll None one_closed true = Ret r) as [r Hr] by (vm_compute; eauto).
  unfold exec_reachable. etrans; [apply one_ran_reachable|].
  etrans; [apply (queue_steps one_ran one_shut)|].
  - eapply rtc_l; [by apply (shutdown_mark None (queue one_ran) 0 [])|].
    eapply rtc_l; [by apply (shutdown_ctx None one_marked 0)|].
    eapply rtc_l; [apply (shutdown_heap None one_canceled 0 _ eq_refl Hh)|].
    apply rtc_once. apply (run_poll_step None one_closed 0 true r); [by vm_compute|done].
  - apply rtc_once. exact (worker_exit (with_queue one_ran one_shut) 0 eq_refl Hp).
Qed.

Lemma Executor_shutdown_witness :
  exec_reachable 1 0 0 1 1 one_exited ∧ shutdownWG one_exited = 0 ∧
  Some <$> ran one_exited ≡ₚ Value <$> delivered_elems (queue one_exited) ∧ isShutdown (queue one_exited) = true.
Proof.
  destruct (Executor_shutdown 1 0 0 1 1 one_exited) as [_ H]; [lia|apply one_exited_reachable|].
  destruct H as (Hs & Hr & _); [done| |].
  - intros e He. vm_compute in He. apply list_elem_of_singleton in He. subst. done.
  - split_and!; [apply one_exited_reachable|done|exact Hr|exact Hs].
Defined.

(** ** TaskExecutor

    Each operation holds [queuedElementsMutex]; what is scheduled is a closure of
    the identifier and the callback. *)

Section tasks.
Context {K C : Type} `{Countable K}.

Notation task_queue := (Queue (option (K * C))).
Notation task := (HeapElement HeapKey (option (K * C))).

Record TaskExecutor : Type := mkTasks {
  t_queue : task_queue;
  queuedElements : gmap K task;
}.

Definition ExecuteAt (t : TaskExecutor) (identifier : K) (callback : C) (executionTime : Z) :
    outcome (TaskExecutor * option task) :=
  q ← match queuedElements t !! identifier with Some queuedElement => Cancel (t_queue t) queuedElement | None => Ret (t_queue t) end;
  running ← Add_check q;
  if running : bool then
    let scheduledTask := new_element q (Some (identifier, callback)) executionTime in
    q ← Add q (Some (identifier, callback)) executionTime;
    Ret (mkTasks q (<[identifier := scheduledTask]> (queuedElements t)), Some scheduledTask)
  else Ret (mkTasks q (queuedElements t), None).

(** What the closure does after the callback has returned. *)
Definition finish (t : TaskExecutor) (identifier : K) : TaskExecutor :=
  mkTasks (t_queue t) (delete identifier (queuedElements t)).

Definition CancelTask (t : TaskExecutor) (identifier : K) : outcome (TaskExecutor * bool) :=
  match queuedElements t !! identifier with
  | None => Ret (t, false)
  | Some queuedElement =>
      q ← Cancel (t_queue t) queuedElement;
      Ret (mkTasks q (delete identifier (queuedElements t)), true)
  end.

(** The tasks of the heap are those that can be found by their identifier. *)
Definition registered (t : TaskExecutor) : Prop :=
  ∀ e k c, e ∈ elems (heap (t_queue t)) → Value e = Some (k, c) → queuedElements t !! k = Some e.

(** The elements that are registered were added. *)
Definition known_tasks (t : TaskExecutor) : Prop :=
  ∀ k e, queuedElements t !! k = Some e → e ∈ added (past (t_queue t)).

Lemma Cancel_removes {T} (q : Queue T) e q' :
  inv q → e ∈ added (past q) → Cancel q e = Ret q' →
  inv q' ∧ added (past q') = added (past q) ∧ isShutdown q' = isShutdown q ∧
  ∀ e', e' ∈ elems (heap q') ↔ e' ∈ elems (heap q) ∧ e' ≠ e.
Proof.
  intros Hi Ha Hc. pose proof (queue_cancel_inv _ _ _ Ha Hc Hi) as Hi'. split; [done|].
  unfold Cancel, removeElement in Hc. apply outcome_bind_Ret in Hc as (q1 & H1 & Hc). injection Hc as <-. cbn.
  pose proof (inv_stored _ Hi) as Hst. pose proof (st_heap _ _ _ _ Hst) as Hh.
  destruct (Z.eqb_spec (Index (heap q) (e_id e)) (-1)) as [E|E].
  { injection H1 as <-. split_and!; try done. intros e'. split; [|naive_solver]. intros He'. split; [done|]. intros ->.
    by eapply Index_out in He'. }
  apply outcome_bind_Ret in H1 as ([h e1] & Hr & H1). injection H1 as <-. cbn. split_and!; try done.
  destruct (Index_place _ _ Hh E) as (k & e2 & Ek & He2 & Eid). rewrite Ek in Hr.
  destruct (stored_remove _ _ _ _ _ _ _ Canceled Hst Hr) as (_ & Hp & Ho & He1); [by eapply lookup_lt_Some|]. simplify_eq.
  assert (e2 = e) as ->. { eapply stored_same; [done|eapply stored_in_heap; [done|by eapply list_elem_of_lookup_2]|done|done]. }
  intros e'. rewrite Hp, elem_of_cons. split; [|naive_solver]. intros He'. split; [by right|]. intros ->.
  assert (heap_ok h) as Hok by apply (st_heap _ _ _ _ (inv_stored _ Hi')). by apply (Index_out h (e_id e) e) in He'.
Qed.

Lemma Add_heap {T} (q : Queue T) v t q' e :
  inv q → Add q v t = Ret q' → e ∈ elems (heap q') → e = new_element q v t ∨ e ∈ elems (heap q).
Proof.
  intros Hi Ha He. unfold Add in Ha. apply outcome_bind_Ret in Ha as (h & Hh & Ha). set (e0 := new_element q v t) in *.
  destruct (stored_push _ _ _ _ _ e0 (isShutdown q) (inv_stored _ Hi) Hh) as [Hs Hp]; [apply is_fresh|].
  assert (e ∈ elems h → e = e0 ∨ e ∈ elems (heap q)) as Hin by (rewrite Hp; apply elem_of_cons).
  destruct (_ && _) eqn:Eb; [|by injection Ha as <-; auto].
  apply andb_true_iff in Eb as [?%Z.gtb_lt ?%Z.gtb_lt]. apply outcome_bind_Ret in Ha as ([h' e'] & Hr & Ha). injection Ha as <-.
  replace (Len h - 1) with (Z.of_nat (length (elems h) - 1)) in Hr by (unfold Len, len in *; lia).
  destruct (stored_remove _ _ _ _ _ _ _ (Overflow 0) Hs Hr) as (_ & Hp' & _); [unfold Len, len in *; lia|].
  apply Hin. rewrite Hp'. by right.
Qed.

(** Scheduling a task replaces the one with the same identifier. *)
Lemma ExecuteAt_replaces t k c time t' r :
  inv (t_queue t) → known_tasks t → registered t → ExecuteAt t k c time = Ret (t', r) →
  registered t' ∧ (∀ e c', e ∈ elems (heap (t_queue t')) → Value e = Some (k, c') → r = Some e).
Proof.
  intros Hi Hk Hr He. unfold ExecuteAt in He. apply outcome_bind_Ret in He as (q & Hq & He).
  assert (inv q ∧ ∀ e, e ∈ elems (heap q) → e ∈ elems (heap (t_queue t)) ∧ (∀ c', Value e ≠ Some (k, c'))) as [Hiq Hh].
  { destruct (queuedElements t !! k) as [e0|] eqn:E0.
    - destruct (Cancel_removes _ _ _ Hi (Hk k e0 E0) Hq) as (Hiq & _ & _ & Hh). split; [done|]. intros e [He1 He2]%Hh.
      split; [done|]. intros c' Ev. specialize (Hr e k c' He1 Ev). congruence.
    - injection Hq as <-. split; [done|]. intros e He1. split; [done|]. intros c' Ev. specialize (Hr e k c' He1 Ev). congruence. }
  apply outcome_bind_Ret in He as (b & _ & He). destruct b.
  - apply outcome_bind_Ret in He as (q' & Ha & He). simplify_eq.
    assert (∀ e, e ∈ elems (heap q') → e = new_element q (Some (k, c)) time ∨ e ∈ elems (heap q)) as Hadd
      by (intros e; by apply Add_heap). split.
    + intros e k' c' [->|Hin]%Hadd Ev; cbn in *; [simplify_eq; by rewrite lookup_insert_eq|].
      destruct (Hh e Hin) as [Hin' Hne]. rewrite lookup_insert_ne; [by apply (Hr e k' c')|]. intros <-. by apply (Hne c').
    + intros e c' [->|Hin]%Hadd Ev; [done|]. destruct (Hh e Hin) as [_ Hne]. by destruct (Hne c').
  - simplify_eq. split.
    + intros e k' c' Hin Ev. cbn in *. apply (Hr e k' c'); [|done]. by apply Hh.
    + intros e c' Hin Ev. destruct (Hh e Hin) as [_ Hne]. by destruct (Hne c').
Qed.

(** Canceling a task removes it. *)
Lemma CancelTask_removes t k t' b :
  inv (t_queue t) → known_tasks t → registered t → CancelTask t k = Ret (t', b) →
  registered t' ∧ (∀ e c, e ∈ elems (heap (t_queue t')) → Value e ≠ Some (k, c)).
Proof.
  intros Hi Hk Hr Hc. unfold CancelTask in Hc. destruct (queuedElements t !! k) as [e0|] eqn:E0.
  - apply outcome_bind_Ret in Hc as (q & Hq & Hc). simplify_eq. destruct (Cancel_removes _ _ _ Hi (Hk k e0 E0) Hq) as (_ & _ & _ & Hh).
    assert (∀ e c, e ∈ elems (heap q) → Value e ≠ Some (k, c)) as Hne.
    { intros e c [H1 H2]%Hh Ev. specialize (Hr e k c H1 Ev). congruence. }
    split; [|done]. intros e k' c Hin Ev. cbn in *. rewrite lookup_delete_ne; [apply (Hr e k' c); [by apply Hh|done]|].
    intros <-. by apply (Hne e c).
  - simplify_eq. split; [done|]. intros e c Hin Ev. specialize (Hr e k c Hin Ev). congruence.
Qed.

(** A task that ends keeps the others registered, if none with its identifier was
    scheduled meanwhile. *)
Lemma finish_registered t k :
  registered t → (∀ e c, e ∈ elems (heap (t_queue t)) → Value e ≠ Some (k, c)) → registered (finish t k).
Proof.
  intros Hr Hn e k' c Hin Ev. cbn in *. rewrite lookup_delete_ne; [by apply (Hr e k' c)|]. intros <-. by apply (Hn e c).
Qed.

End tasks.
Arguments TaskExecutor _ _ {_ _}.

(** A callback that schedules its own identifier again: when it returns, the new
    task is forgotten, cannot be canceled, and is not replaced by the next one. *)
Lemma rescheduled_task_forgotten :
  let q := NewQueue (T := option (nat * nat)) 0 0 [] 1 0 in
  let t := get (mkTasks q ∅, None) (ExecuteAt (mkTasks q ∅) 1%nat 7%nat 10) in
  let t := finish t.1 1%nat in
  (∃ t', CancelTask t 1%nat = Ret (t', false)) ∧
  Value <$> elems (heap (t_queue (get (t, None) (ExecuteAt t 1%nat 8%nat 20)).1)) = [Some (1%nat, 7%nat); Some (1%nat, 8%nat)].
Proof. split; [by eexists; vm_compute|by vm_compute]. Qed.

(** A nil function ends the worker that polls it. *)
Lemma nil_function_ends_worker :
  let q := NewQueue (T := option nat) 0 0 [PReady true] 1 0 in
  let q := get q (Add q None 0) in
  ∃ e, pollers (run_poll None q 0 true) !! 0%nat = Some (PWaiting true e) ∧ Value e = None ∧ isShutdown q = false.
Proof. eexists. by vm_compute. Qed.
