(* ===== verification/KVStore.v ===== *)
(** * kvstore: the interface KVStore and its laws

    [src/kvstore/kvstore.go] and [src/kvstore/utils/utils.go].  [KVStore] is a
    type class over the state [S] of a store (or of a view on one realm of it):
    reading methods are functions of the state, writing methods return the new
    state and an error.  A value or an error of a reading method is a sum.
    [Iterate] returns the entries in the order in which the consumer sees them;
    [visit] runs a consumer over them.  [KVStoreLaws] is what the clients rely
    on: a store is a map from keys to values that is open or closed. *)

From S2P Require Import Prelude Bytes.

Definition ErrKeyNotFound : error := ErrNew "key not found".
Definition ErrTypedValueNotChanged : error := ErrNew "typed value not changed".
Definition ErrStoreClosed : error := ErrNew "trying to access closed kvstore".

(** [type Key = []byte], [type Value = []byte]. *)
Notation Key := (list byte) (only parsing).
Notation Value := (list byte) (only parsing).

Inductive IterDirection : Type := IterDirectionForward | IterDirectionBackward.

(** The optional argument, a byte. *)
Definition GetIterDirection (iterDirection : list Z) : outcome IterDirection :=
  match iterDirection with
  | [] => Ret IterDirectionForward
  | d :: _ =>
      if d =? 0 then Ret IterDirectionForward
      else if d =? 1 then Ret IterDirectionBackward
      else Panic "unknown iteration direction: %d"
  end.

Class KVStore (S : Type) : Type := {
  kv_Get : S → Key → Value + error;
  kv_Has : S → Key → bool + error;
  kv_Set : S → Key → Value → S * option error;
  kv_Delete : S → Key → S * option error;
  kv_DeletePrefix : S → Key → S * option error;
  kv_Clear : S → S * option error;
  kv_Iterate : S → Key → IterDirection → list (Key * Value) + error;
  kv_IterateKeys : S → Key → IterDirection → list Key + error;
  kv_Flush : S → S * option error;
  kv_Close : S → S * option error;
  kv_Batch : Type;
  kv_Batched : S → kv_Batch + error;
  kv_BSet : kv_Batch → Key → Value → kv_Batch * option error;
  kv_BDelete : kv_Batch → Key → kv_Batch * option error;
  kv_BCancel : kv_Batch → kv_Batch;
  kv_Commit : S → kv_Batch → S * option error;
}.


(** Running a consumer with a state over the entries, until it returns false. *)
Fixpoint visit {A} (consumer : Key → Value → A → A * bool) (entries : list (Key * Value)) (st : A) : A :=
  match entries with
  | [] => st
  | (k, v) :: entries =>
      let '(st, continue) := consumer k v st in
      if continue then visit consumer entries st else st
  end.

(** ** The laws *)

(** The entries an iteration visits: those with the prefix, by key. *)
Definition iterates (content : Key → option Value) (prefix : Key) (d : IterDirection)
    (l : list (Key * Value)) : Prop :=
  (∀ k v, (k, v) ∈ l ↔ content k = Some v ∧ HasPrefix k prefix = true) ∧
  match d with
  | IterDirectionForward => StronglySorted bytes_lt l.*1
  | IterDirectionBackward => StronglySorted bytes_lt (rev l.*1)
  end.

Class KVStoreLaws (S : Type) `{KVStore S} : Type := {
  kv_open : S → bool;
  kv_content : S → Key → option Value;
  law_get s k : kv_Get s k =
    if kv_open s then match kv_content s k with Some v => inl v | None => inr ErrKeyNotFound end
    else inr ErrStoreClosed;
  law_has s k : kv_Has s k =
    if kv_open s then inl (bool_decide (is_Some (kv_content s k))) else inr ErrStoreClosed;
  law_set s k v :
    if kv_open s then
      ∃ s', kv_Set s k v = (s', None) ∧ kv_open s' = true ∧
        ∀ k', kv_content s' k' = if decide (k' = k) then Some v else kv_content s k'
    else kv_Set s k v = (s, Some ErrStoreClosed);
  law_delete s k :
    if kv_open s then
      ∃ s', kv_Delete s k = (s', None) ∧ kv_open s' = true ∧
        ∀ k', kv_content s' k' = if decide (k' = k) then None else kv_content s k'
    else kv_Delete s k = (s, Some ErrStoreClosed);
  law_delete_prefix s p :
    if kv_open s then
      ∃ s', kv_DeletePrefix s p = (s', None) ∧ kv_open s' = true ∧
        ∀ k', kv_content s' k' = if HasPrefix k' p then None else kv_content s k'
    else kv_DeletePrefix s p = (s, Some ErrStoreClosed);
  law_clear s :
    if kv_open s then
      ∃ s', kv_Clear s = (s', None) ∧ kv_open s' = true ∧ ∀ k', kv_content s' k' = None
    else kv_Clear s = (s, Some ErrStoreClosed);
  law_iterate s p d :
    if kv_open s then ∃ l, kv_Iterate s p d = inl l ∧ iterates (kv_content s) p d l
    else kv_Iterate s p d = inr ErrStoreClosed;
  law_iterate_keys s p d :
    kv_IterateKeys s p d = match kv_Iterate s p d with inl l => inl l.*1 | inr e => inr e end;
  law_flush s :
    if kv_open s then
      ∃ s', kv_Flush s = (s', None) ∧ kv_open s' = true ∧ ∀ k, kv_content s' k = kv_content s k
    else kv_Flush s = (s, Some ErrStoreClosed);
  law_close s : ∃ s', kv_Close s = (s', None) ∧ kv_open s' = false;
  kv_pending : kv_Batch → Key → option (option Value);
  law_batched s :
    if kv_open s then ∃ b, kv_Batched s = inl b ∧ ∀ k, kv_pending b k = None
    else kv_Batched s = inr ErrStoreClosed;
  law_bset b k v :
    ∃ b', kv_BSet b k v = (b', None) ∧
      ∀ k', kv_pending b' k' = if decide (k' = k) then Some (Some v) else kv_pending b k';
  law_bdelete b k :
    ∃ b', kv_BDelete b k = (b', None) ∧
      ∀ k', kv_pending b' k' = if decide (k' = k) then Some None else kv_pending b k';
  law_bcancel b k : kv_pending (kv_BCancel b) k = None;
  law_commit s b :
    if kv_open s then
      ∃ s', kv_Commit s b = (s', None) ∧ kv_open s' = true ∧
        ∀ k, kv_content s' k = default (kv_content s k) (kv_pending b k)
    else kv_Commit s b = (s, Some ErrStoreClosed);
}.

Lemma flush_ok {S} `{KVStoreLaws S} (s : S) :
  kv_open s = true →
  ∃ s', kv_Flush s = (s', None) ∧ kv_open s' = true ∧ ∀ k, kv_content s' k = kv_content s k.
Proof. intros Ho. pose proof (law_flush s) as E. by rewrite Ho in E. Qed.

(** ** Copying a store into another one *)

Section Copy.
Context {S T : Type} `{KVStore S} `{KVStore T}.

(** [Copy]: the target after it, and the error. *)
Definition Copy_consumer (key : Key) (value : Value) (st : T * option error) :
    (T * option error) * bool :=
  let '(target, innerErr) := st in
  let '(target, err) := kv_Set target key value in
  let innerErr := match err with Some e => Some e | None => innerErr end in
  ((target, innerErr), bool_decide (innerErr = None)).

Definition Copy (source : S) (target : T) : T * option error :=
  match kv_Iterate source [] IterDirectionForward with
  | inr err => (target, Some err)
  | inl entries =>
      let '(target, innerErr) := visit Copy_consumer entries (target, None) in
      match innerErr with
      | Some e => (target, Some e)
      | None => kv_Flush target
      end
  end.

(** The variables the consumer of [CopyBatched] shares with it.  The batch is
    nil after [target.Batched()] failed. *)
Record copying := Copying {
  c_target : T;
  c_currentBatchSize : Z;
  c_batchedMutation : option kv_Batch;
  c_innerErr : option error;
}.

(** A call of a method of a nil interface value. *)
Definition batch_method {A} (b : option kv_Batch) (f : kv_Batch → A) : outcome A :=
  match b with
  | Some b => Ret (f b)
  | None => Panic "invalid memory address or nil pointer dereference"
  end.

Definition CopyBatched_step (batchedSize : Z) (key : Key) (value : Value) (c : copying) :
    outcome copying :=
  let currentBatchSize := c_currentBatchSize c + 1 in
  '(b, err) ← batch_method (c_batchedMutation c) (λ b, kv_BSet b key value);
  let innerErr := match err with Some e => Some e | None => c_innerErr c end in
  if negb (batchedSize =? 0) && (batchedSize <=? currentBatchSize) then
    let '(target, err) := kv_Commit (c_target c) b in
    let innerErr := match err with Some e => Some e | None => innerErr end in
    match kv_Batched target with
    | inl b => Ret (Copying target 0 (Some b) innerErr)
    | inr e => Ret (Copying target 0 None (Some e))
    end
  else Ret (Copying (c_target c) currentBatchSize (Some b) innerErr).

Definition CopyBatched_consumer (batchedSize : Z) (key : Key) (value : Value)
    (st : outcome copying) : outcome copying * bool :=
  match (c ← st; CopyBatched_step batchedSize key value c) with
  | Ret c => (Ret c, bool_decide (c_innerErr c = None))
  | Panic s => (Panic s, false)
  end.

Definition CopyBatched (source : S) (target : T) (batchSize : list Z) :
    outcome (T * option error) :=
  let batchedSize := match batchSize with [] => 0 | n :: _ => n end in
  match kv_Batched target with
  | inr err => Ret (target, Some err)
  | inl b =>
      match kv_Iterate source [] IterDirectionForward with
      | inr err => Ret (target, Some err)
      | inl entries =>
          c ← visit (CopyBatched_consumer batchedSize) entries
                (Ret (Copying target 0 (Some b) None));
          match c_innerErr c with
          | Some e =>
              _ ← batch_method (c_batchedMutation c) kv_BCancel;
              Ret (c_target c, Some e)
          | None =>
              '(target, err) ← batch_method (c_batchedMutation c) (kv_Commit (c_target c));
              match err with
              | Some e => Ret (target, Some e)
              | None => Ret (kv_Flush target)
              end
          end
      end
  end.

End Copy.
Arguments copying T {_}.

(** ** utils.KeyPrefixUpperBound *)

(** The loop from the last byte down: [n] bytes are left.  [end_[i]++] wraps at 256. *)
Fixpoint upper_bound_from (n : nat) (end_ : list byte) : option (list byte) :=
  match n with
  | O => None
  | S i =>
      match end_ !! i with
      | None => None
      | Some b =>
          let b' := z2b (b2z b + 1) in
          if negb (b2z b' =? 0) then Some (take (S i) (<[i:=b']> end_))
          else upper_bound_from i (<[i:=b']> end_)
      end
  end.

(** [None] is nil: there is no upper bound. *)
Definition KeyPrefixUpperBound (start : list byte) : option (list byte) :=
  upper_bound_from (length start) start.

(** The same by recursion on the bytes. *)
Fixpoint next_prefix (p : list byte) : option (list byte) :=
  match p with
  | [] => None
  | b :: p =>
      match next_prefix p with
      | Some p' => Some (b :: p')
      | None => if b2z b =? 255 then None else Some [z2b (b2z b + 1)]
      end
  end.

Lemma next_prefix_snoc p b :
  next_prefix (p ++ [b]) =
    if b2z b =? 255 then next_prefix p else Some (p ++ [z2b (b2z b + 1)]).
Proof.
  induction p as [|a p IH]; simpl; [done|]. rewrite IH. destruct (b2z b =? 255); done.
Qed.

Lemma succ_byte_zero b : (b2z (z2b (b2z b + 1)) =? 0) = (b2z b =? 255).
Proof.
  rewrite b2z_z2b. pose proof (b2z_range b). destruct (Z.eqb_spec (b2z b) 255) as [->|Hne]; [done|].
  rewrite Z.mod_small by lia. apply Z.eqb_neq. lia.
Qed.

Lemma upper_bound_from_next p q : upper_bound_from (length p) (p ++ q) = next_prefix p.
Proof.
  revert q. induction p as [|b p IH] using rev_ind; intros q; [done|].
  rewrite length_app. simpl. rewrite Nat.add_1_r. cbn [upper_bound_from].
  rewrite <-app_assoc. simpl. rewrite list_lookup_middle by done. cbv zeta.
  rewrite succ_byte_zero, next_prefix_snoc.
  rewrite insert_app_r_alt, Nat.sub_diag by done. simpl.
  destruct (b2z b =? 255); simpl; [apply IH|].
  f_equal. rewrite take_app_ge by lia. by replace (S (length p) - length p)%nat with 1%nat by lia.
Qed.

Lemma next_prefix_spec p k :
  HasPrefix k p = true ↔
    bytes_le p k ∧ match next_prefix p with Some u => bytes_lt k u | None => True end.
Proof.
  revert k. induction p as [|b p IH]; intros k.
  { simpl. split; [|by destruct k]. intros _. split; [|done]. unfold bytes_le. by destruct k. }
  destruct k as [|c k].
  { simpl. split; [done|]. intros [H _]. unfold bytes_le in H. by simpl in H. }
  simpl. specialize (IH k). unfold bytes_le, bytes_lt in *. simpl.
  destruct (Z.compare_spec (b2z b) (b2z c)) as [E|E|E].
  - apply (inj b2z) in E as ->. rewrite bool_decide_eq_true_2 by done. simpl. rewrite IH.
    destruct (next_prefix p) as [u|]; simpl; [by rewrite Z.compare_refl|].
    destruct (Z.eqb_spec (b2z c) 255); simpl; [done|].
    pose proof (b2z_range c). rewrite b2z_z2b, Z.mod_small by lia.
    rewrite (proj2 (Z.compare_lt_iff (b2z c) (b2z c + 1))) by lia. tauto.
  - assert (c ≠ b) by (intros ->; lia). rewrite bool_decide_eq_false_2 by done. split; [done|].
    intros [_ Hu]. exfalso. destruct (next_prefix p) as [u|]; simpl in Hu.
    + rewrite (proj2 (Z.compare_gt_iff _ _)) in Hu by lia. done.
    + pose proof (b2z_range c). destruct (Z.eqb_spec (b2z b) 255); [lia|]. simpl in Hu.
      rewrite b2z_z2b, Z.mod_small in Hu by (pose proof (b2z_range b); lia).
      destruct (Z.compare_spec (b2z c) (b2z b + 1)); try done; try lia. by destruct k.
  - assert (c ≠ b) by (intros ->; lia). rewrite bool_decide_eq_false_2 by done. split; [done|].
    by intros [? _].
Qed.

(** ** utils.SortSlice *)

Definition SortSlice (slice : list (list byte)) (d : IterDirection) : list (list byte) :=
  match d with
  | IterDirectionForward => sort_bytes slice
  | IterDirectionBackward => merge_sort (flip bytes_le) slice
  end.

Lemma SortSlice_Permutation l d : SortSlice l d ≡ₚ l.
Proof. destruct d; apply merge_sort_Permutation. Qed.

Lemma StronglySorted_rev {A} (R : relation A) (l : list A) :
  StronglySorted (flip R) l → StronglySorted R (rev l).
Proof.
  induction 1 as [|x l Hl IH Hx]; simpl; [constructor|].
  apply StronglySorted_app_2; [|done|repeat constructor].
  intros y z Hy Hz. apply list_elem_of_singleton in Hz as ->. rewrite Forall_forall in Hx.
  apply Hx. by apply list_elem_of_In, in_rev, list_elem_of_In.
Qed.

Lemma SortSlice_sorted l d :
  NoDup l →
  match d with
  | IterDirectionForward => StronglySorted bytes_lt (SortSlice l d)
  | IterDirectionBackward => StronglySorted bytes_lt (rev (SortSlice l d))
  end.
Proof.
  intros Hnd. destruct d; simpl; apply strictly_sorted; split.
  - by rewrite sort_bytes_Permutation.
  - apply sort_bytes_StronglySorted.
  - rewrite <-Permutation_rev. by rewrite merge_sort_Permutation.
  - assert (Total (flip bytes_le)) by (intros x y; apply (total bytes_le)).
    apply StronglySorted_rev, (StronglySorted_merge_sort _).
Qed.

(** ** Copying: lemmas *)

(** The content [c] with the entries written over it. *)
Definition over (l : list (Key * Value)) (c : Key → option Value) (k : Key) : option Value :=
  match list_find (λ e, e.1 = k) l with Some (_, e) => Some e.2 | None => c k end.

Lemma over_cons k0 v0 l c k :
  k0 ∉ l.*1 → over ((k0, v0) :: l) c k = over l (λ k', if decide (k' = k0) then Some v0 else c k') k.
Proof.
  intros Hk. unfold over. simpl. destruct (decide (k0 = k)) as [->|Hne]; simpl.
  - rewrite decide_True by done.
    destruct (list_find _ l) as [[i [k' v']]|] eqn:E; [|done].
    apply list_find_Some in E as (Hi & Hk' & _). simpl in Hk'. subst k'. contradict Hk.
    apply list_elem_of_fmap. exists (k, v'). split; [done|]. by eapply list_elem_of_lookup_2.
  - rewrite (decide_False (P := k = k0)) by congruence. by destruct (list_find _ l) as [[]|].
Qed.

Lemma over_ext l c c' k : (∀ k, c k = c' k) → over l c k = over l c' k.
Proof. intros E. unfold over. by rewrite E. Qed.

(** Writing all entries of an iteration over a whole store. *)
Lemma over_iterates content l c k d :
  iterates content [] d l →
  over l c k = match content k with Some v => Some v | None => c k end.
Proof.
  intros [Hl _]. unfold over. destruct (list_find _ l) as [[i [k' v]]|] eqn:E.
  - apply list_find_Some in E as (Hi & Hk & _). simpl in Hk. subst k'. simpl.
    apply list_elem_of_lookup_2, Hl in Hi as [-> _]. done.
  - apply list_find_None in E. destruct (content k) as [v|] eqn:Hv; [|done].
    assert ((k, v) ∈ l) as Hin by (apply Hl; by destruct k).
    rewrite Forall_forall in E. by destruct (E _ Hin).
Qed.

Lemma iterates_NoDup content p d l : iterates content p d l → NoDup l.*1.
Proof.
  intros [_ Hs]. destruct d; [by eapply (StronglySorted_lt_NoDup bytes_lt)|].
  rewrite (Permutation_rev l.*1). by eapply (StronglySorted_lt_NoDup bytes_lt).
Qed.

Section Copy_lemmas.
Context {S T : Type} `{KVStoreLaws S} `{KVStoreLaws T}.

(** Writing the entries one by one into an open target. *)
Lemma Copy_visit l (t : T) :
  kv_open t = true → NoDup l.*1 →
  ∃ t', visit Copy_consumer l (t, None) = (t', None) ∧ kv_open t' = true ∧
    ∀ k, kv_content t' k = over l (kv_content t) k.
Proof.
  revert t. induction l as [|[k0 v0] l IH]; intros t Ht Hnd; [by exists t|].
  inversion_clear Hnd as [|? ? Hk0 Hnd']. simpl.
  pose proof (law_set t k0 v0) as Hset. rewrite Ht in Hset. destruct Hset as (t1 & -> & Ht1 & Hc).
  cbn. destruct (IH t1 Ht1 Hnd') as (t' & -> & Ht' & Hc'). exists t'. split_and!; [done..|].
  intros k. rewrite Hc', over_cons by done. by apply over_ext.
Qed.

(** What is in the target once the pending batch is written. *)
Definition staged (c : copying T) (k : Key) : option Value :=
  match c_batchedMutation c with
  | Some b => default (kv_content (c_target c) k) (kv_pending b k)
  | None => None
  end.

(** No error so far. *)
Definition copying_ok (c : copying T) : Prop :=
  kv_open (c_target c) = true ∧ c_innerErr c = None ∧ is_Some (c_batchedMutation c).

Lemma CopyBatched_step_ok n k0 v0 c :
  copying_ok c →
  ∃ c', CopyBatched_step n k0 v0 c = Ret c' ∧ copying_ok c' ∧
    ∀ k, staged c' k = if decide (k = k0) then Some v0 else staged c k.
Proof.
  destruct c as [t cur ob err]. intros (Ht & He & [b Hb]). simpl in Ht, He, Hb. subst err ob.
  unfold CopyBatched_step. cbn.
  destruct (law_bset b k0 v0) as (b1 & -> & Hb1).
  destruct (negb (n =? 0) && (n <=? cur + 1)).
  - pose proof (law_commit t b1) as Hco. rewrite Ht in Hco. destruct Hco as (t1 & -> & Ht1 & Hc1).
    pose proof (law_batched t1) as Hba. rewrite Ht1 in Hba. destruct Hba as (b2 & -> & Hb2).
    eexists. split; [done|]. split; [done|]. intros k. unfold staged. simpl.
    rewrite Hb2. simpl. rewrite Hc1, Hb1. by case_decide.
  - eexists. split; [done|]. split; [done|]. intros k. unfold staged. simpl.
    rewrite Hb1. by case_decide.
Qed.

Lemma CopyBatched_visit n l c :
  copying_ok c → NoDup l.*1 →
  ∃ c', visit (CopyBatched_consumer n) l (Ret c) = Ret c' ∧ copying_ok c' ∧
    ∀ k, staged c' k = over l (staged c) k.
Proof.
  revert c. induction l as [|[k0 v0] l IH]; intros c Hc Hnd; [by exists c|].
  inversion_clear Hnd as [|? ? Hk0 Hnd']. cbn [visit].
  destruct (CopyBatched_step_ok n k0 v0 c Hc) as (c1 & E & Hc1 & Hst).
  unfold CopyBatched_consumer at 1. cbn [mbind outcome_bind]. rewrite E.
  rewrite bool_decide_eq_true_2 by apply Hc1.
  destruct (IH c1 Hc1 Hnd') as (c' & -> & Hc' & Hst'). exists c'. split_and!; [done..|].
  intros k. rewrite Hst', over_cons by done. by apply over_ext.
Qed.

End Copy_lemmas.

(** A successful copy: no error, the source's entries over the target's. *)
Definition copied {S T} `{KVStoreLaws S} `{KVStoreLaws T} (source : S) (target : T)
    (r : T * option error) : Prop :=
  r.2 = None ∧ kv_open r.1 = true ∧
  ∀ k, kv_content r.1 k =
    match kv_content source k with Some v => Some v | None => kv_content target k end.

(** When a commit and then [target.Batched()] fail in the middle, the batch is
    nil and cancelling it panics. *)
Lemma CopyBatched_cancels_nil {S T} `{KVStore S} `{KVStore T} (source : S) (target t' : T)
    k v b b' e e' :
  kv_Iterate source [] IterDirectionForward = inl [(k, v)] →
  kv_Batched target = inl b → kv_BSet b k v = (b', None) →
  kv_Commit target b' = (t', Some e) → kv_Batched t' = inr e' →
  CopyBatched source target [1] = Panic "invalid memory address or nil pointer dereference".
Proof.
  intros Hit Hb Hs Hc Hb'. unfold CopyBatched. rewrite Hb, Hit. cbn.
  unfold CopyBatched_consumer, CopyBatched_step. cbn. rewrite Hs. cbn. rewrite Hc, Hb'. done.
Qed.

(** ** Properties *)

(** [KeyPrefixUpperBound] is right for range scans: a key has the prefix
    exactly when it is not before the prefix and before the upper bound (when
    there is one), in byte order. *)
Lemma KeyPrefixUpperBound_correct prefix k :
  HasPrefix k prefix = true ↔
    bytes_le prefix k ∧
    match KeyPrefixUpperBound prefix with Some u => bytes_lt k u | None => True end.
Proof.
  unfold KeyPrefixUpperBound. pose proof (upper_bound_from_next prefix []) as E.
  rewrite app_nil_r in E. rewrite E. apply next_prefix_spec.
Qed.


(** [Copy] and [CopyBatched], with every batch size, from an open store
    into an open store succeed without a panic and leave the target open with
    the entries of the source written over its own; from or into a closed store
    they report [ErrStoreClosed] and change nothing. *)
Lemma Copy_and_CopyBatched {S T} `{KVStoreLaws S} `{KVStoreLaws T} (source : S) (target : T)
    (batchSize : list Z) :
  if kv_open source && kv_open target then
    copied source target (Copy source target) ∧
    ∃ r, CopyBatched source target batchSize = Ret r ∧ copied source target r
  else
    Copy source target = (target, Some ErrStoreClosed) ∧
    CopyBatched source target batchSize = Ret (target, Some ErrStoreClosed).
Proof.
  unfold Copy, CopyBatched.
  pose proof (law_iterate source [] IterDirectionForward) as Hit.
  pose proof (law_batched target) as Hba.
  destruct (kv_open source) eqn:Hs; simpl.
  2: { rewrite Hit. split; [done|]. by destruct (kv_open target); [destruct Hba as (b & -> & _)|rewrite Hba]. }
  destruct Hit as (l & -> & Hl). pose proof (iterates_NoDup _ _ _ _ Hl) as Hnd.
  destruct (kv_open target) eqn:Ht.
  - destruct Hba as (b & -> & Hb). split.
    + destruct (Copy_visit l target Ht Hnd) as (t' & -> & Ht' & Hc). destruct (flush_ok t' Ht') as (t'' & -> & Ht'' & Hf).
      split_and!; [done..|]. simpl. intros k. rewrite Hf, Hc. by eapply over_iterates.
    + match goal with |- context [CopyBatched_consumer ?n] =>
        destruct (CopyBatched_visit n l (Copying target 0 (Some b) None)) as (c & -> & Hc & Hst)
      end; [done..|].
      destruct Hc as (Hopen & He & [b' Hb']). cbn [mbind outcome_bind]. rewrite He, Hb'.
      cbn [batch_method mbind outcome_bind].
      pose proof (law_commit (c_target c) b') as Hco. rewrite Hopen in Hco.
      destruct Hco as (t' & -> & Ht' & Hc'). destruct (flush_ok t' Ht') as (t'' & -> & Ht'' & Hf).
      eexists. split; [done|]. split_and!; [done..|]. simpl. intros k. rewrite Hf, Hc'.
      specialize (Hst k). unfold staged in Hst at 1. rewrite Hb' in Hst. rewrite Hst.
      erewrite over_iterates by done. unfold staged. simpl. by rewrite Hb.
  - rewrite Hba. split; [|done]. destruct l as [|[k v] l]; simpl; [pose proof (law_flush target) as Hf; rewrite Ht in Hf; by rewrite Hf|].
    pose proof (law_set target k v) as Hset. rewrite Ht in Hset. rewrite Hset. done.
Qed.
