(* ===== verification/MapDB.v ===== *)
(** * kvstore/mapdb: a key-value store on a Go map

    [src/kvstore/mapdb/mapdb.go] and [src/kvstore/mapdb/synced_map.go].  All views
    made by [WithRealm] share the map and the flag [closed]: [shared] is that
    state, and a method of a view takes the view's realm and the shared state.
    A view is an instance of the interface of KVStore.v, with its laws. *)

From S2P Require Import Prelude Bytes KVStore.

(** [byteutils.ConcatBytes] and [ConcatBytesToString]. *)
Definition ConcatBytes (byteSlices : list (list byte)) : list byte :=
  fold_left (λ b byteSlice, b ++ byteSlice) byteSlices [].

(** ** syncedKVMap *)

Notation syncedKVMap := (gmap (list byte) (list byte)).

Definition has_ (s : syncedKVMap) (key : list byte) : bool := bool_decide (is_Some (s !! key)).

Definition get_ (s : syncedKVMap) (key : list byte) : option (list byte) :=
  value ← s !! key; Some (ConcatBytes [value]).

Definition set_ (s : syncedKVMap) (key value : list byte) : syncedKVMap :=
  <[key := ConcatBytes [value]]> s.

Definition delete_ (s : syncedKVMap) (key : list byte) : syncedKVMap := delete key s.

(** The loop deletes while it ranges over the keys. *)
Definition deletePrefix_ (s : syncedKVMap) (keyPrefix : list byte) : syncedKVMap :=
  fold_left (λ s key, if HasPrefix key keyPrefix then delete key s else s)
    (map_to_list s).*1 s.

(** The snapshot of the elements with the prefix. *)
Definition copiedElements (s : syncedKVMap) (prefix : list byte) : gmap (list byte) (list byte) :=
  fold_left (λ copied '(key, value),
      if HasPrefix key prefix then <[key := ConcatBytes [value]]> copied else copied)
    (map_to_list s) ∅.

(** The entries the consumer is called with: [[]byte(key)[len(realm):]] and the copied value. *)
Definition iterate_ (s : syncedKVMap) (realm keyPrefix : list byte) (d : IterDirection) :
    list (Key * Value) :=
  let copied := copiedElements s (ConcatBytes [realm; keyPrefix]) in
  (λ key, (drop (length realm) key, default [] (copied !! key))) <$>
    SortSlice (map_to_list copied).*1 d.

Definition iterateKeys_ (s : syncedKVMap) (realm keyPrefix : list byte) (d : IterDirection) :
    list Key :=
  let copied := copiedElements s (ConcatBytes [realm; keyPrefix]) in
  drop (length realm) <$> SortSlice (map_to_list copied).*1 d.

(** ** mapDB *)

Record shared : Type := Shared { m : syncedKVMap; closed : bool }.

Notation Realm := (list byte) (only parsing).

Definition NewMapDB : shared * Realm := (Shared ∅ false, []).

(** The realm of the new view. *)
Definition WithRealm (s : shared) (realm : Realm) : Realm + error :=
  if closed s then inr ErrStoreClosed else inl realm.

Definition WithExtendedRealm (own : Realm) (s : shared) (realm : Realm) : Realm + error :=
  WithRealm s (ConcatBytes [ConcatBytes [own]; realm]).

Section View.
Variable realm : Realm.

Definition Iterate (s : shared) (prefix : Key) (d : IterDirection) : list (Key * Value) + error :=
  if closed s then inr ErrStoreClosed else inl (iterate_ (m s) realm prefix d).

Definition IterateKeys (s : shared) (prefix : Key) (d : IterDirection) : list Key + error :=
  if closed s then inr ErrStoreClosed else inl (iterateKeys_ (m s) realm prefix d).

Definition Clear (s : shared) : shared * option error :=
  if closed s then (s, Some ErrStoreClosed)
  else (Shared (deletePrefix_ (m s) realm) (closed s), None).

Definition Get (s : shared) (key : Key) : Value + error :=
  if closed s then inr ErrStoreClosed
  else match get_ (m s) (ConcatBytes [realm; key]) with
       | None => inr ErrKeyNotFound
       | Some value => inl value
       end.

Definition set (s : shared) (key : Key) (value : Value) : shared * option error :=
  (Shared (set_ (m s) (ConcatBytes [realm; key]) value) (closed s), None).

Definition Set_ (s : shared) (key : Key) (value : Value) : shared * option error :=
  if closed s then (s, Some ErrStoreClosed) else set s key value.

Definition Has (s : shared) (key : Key) : bool + error :=
  if closed s then inr ErrStoreClosed else inl (has_ (m s) (ConcatBytes [realm; key])).

Definition delete (s : shared) (key : Key) : shared * option error :=
  (Shared (delete_ (m s) (ConcatBytes [realm; key])) (closed s), None).

Definition Delete (s : shared) (key : Key) : shared * option error :=
  if closed s then (s, Some ErrStoreClosed) else delete s key.

Definition DeletePrefix (s : shared) (prefix : Key) : shared * option error :=
  if closed s then (s, Some ErrStoreClosed)
  else (Shared (deletePrefix_ (m s) (ConcatBytes [realm; prefix])) (closed s), None).

Definition Flush (s : shared) : shared * option error :=
  if closed s then (s, Some ErrStoreClosed) else (s, None).

Definition Close (s : shared) : shared * option error := (Shared (m s) true, None).

(** ** batchedMutations *)

Record batchedMutations : Type := Batch {
  setOperations : gmap (list byte) Value;
  deleteOperations : gset (list byte);
}.

Definition Batched (s : shared) : batchedMutations + error :=
  if closed s then inr ErrStoreClosed else inl (Batch ∅ ∅).

Definition BSet (b : batchedMutations) (key : Key) (value : Value) : batchedMutations * option error :=
  let stringKey := ConcatBytes [key] in
  (Batch (<[stringKey := value]> (setOperations b)) (deleteOperations b ∖ {[stringKey]}), None).

Definition BDelete (b : batchedMutations) (key : Key) : batchedMutations * option error :=
  let stringKey := ConcatBytes [key] in
  (Batch (base.delete stringKey (setOperations b)) ({[stringKey]} ∪ deleteOperations b), None).

Definition Cancel (b : batchedMutations) : batchedMutations := Batch ∅ ∅.

(** The two loops of [Commit], which stop at the first error. *)
Fixpoint commit_sets (s : shared) (l : list (Key * Value)) : shared * option error :=
  match l with
  | [] => (s, None)
  | (key, value) :: l =>
      match set s key value with
      | (s, Some err) => (s, Some err)
      | (s, None) => commit_sets s l
      end
  end.

Fixpoint commit_deletes (s : shared) (l : list Key) : shared * option error :=
  match l with
  | [] => (s, None)
  | key :: l =>
      match delete s key with
      | (s, Some err) => (s, Some err)
      | (s, None) => commit_deletes s l
      end
  end.

Definition Commit (s : shared) (b : batchedMutations) : shared * option error :=
  if closed s then (s, Some ErrStoreClosed)
  else match commit_sets s (map_to_list (setOperations b)) with
       | (s, Some err) => (s, Some err)
       | (s, None) => commit_deletes s (elements (deleteOperations b))
       end.

(** A view of the store, as the interface. *)
Definition mapDB_KVStore : KVStore shared := {|
  kv_Get := Get;
  kv_Has := Has;
  kv_Set := Set_;
  kv_Delete := Delete;
  kv_DeletePrefix := DeletePrefix;
  kv_Clear := Clear;
  kv_Iterate := Iterate;
  kv_IterateKeys := IterateKeys;
  kv_Flush := Flush;
  kv_Close := Close;
  kv_Batch := batchedMutations;
  kv_Batched := Batched;
  kv_BSet := BSet;
  kv_BDelete := BDelete;
  kv_BCancel := Cancel;
  kv_Commit := Commit;
|}.

End View.

(** ** The maps *)

Lemma ConcatBytes_1 a : ConcatBytes [a] = a.
Proof. done. Qed.

Lemma ConcatBytes_2 a b : ConcatBytes [a; b] = a ++ b.
Proof. done. Qed.

(** Keys may be visited in any order. *)
Lemma delete_loop_lookup (p : list byte) (l : list (list byte)) (s : syncedKVMap) k :
  fold_left (λ (s : syncedKVMap) key, if HasPrefix key p then base.delete key s else s) l s !! k =
    if HasPrefix k p && bool_decide (k ∈ l) then None else s !! k.
Proof.
  revert s. induction l as [|x l IH]; intros s; cbn [fold_left].
  { rewrite bool_decide_eq_false_2 by set_solver. by rewrite andb_false_r. }
  rewrite IH. destruct (decide (k = x)) as [->|Hne].
  - rewrite (bool_decide_eq_true_2 (x ∈ x :: l)) by set_solver.
    destruct (HasPrefix x p); simpl; [|done]. rewrite lookup_delete_eq. by destruct (bool_decide _).
  - rewrite (bool_decide_ext (k ∈ x :: l) (k ∈ l)) by set_solver.
    destruct (HasPrefix x p); [|done]. by rewrite lookup_delete_ne by done.
Qed.

Lemma deletePrefix_lookup s p k :
  deletePrefix_ s p !! k = if HasPrefix k p then None else s !! k.
Proof.
  unfold deletePrefix_. rewrite delete_loop_lookup. destruct (HasPrefix k p); simpl; [|done].
  case_bool_decide as Hk; [done|]. apply eq_None_not_Some. intros [v Hv]. destruct Hk.
  apply list_elem_of_fmap. exists (k, v). split; [done|]. by apply elem_of_map_to_list.
Qed.

Lemma copy_loop_lookup (p : list byte) (l : list (list byte * list byte)) (acc : syncedKVMap) k :
  NoDup l.*1 →
  fold_left (λ copied '(key, value),
      if HasPrefix key p then <[key := ConcatBytes [value]]> copied else copied) l acc !! k =
    if HasPrefix k p then
      match (list_to_map l : syncedKVMap) !! k with Some v => Some v | None => acc !! k end
    else acc !! k.
Proof.
  revert acc. induction l as [|[x v] l IH]; intros acc Hnd; cbn [fold_left].
  { simpl. rewrite lookup_empty. by destruct (HasPrefix k p). }
  inversion_clear Hnd as [|? ? Hx Hnd']. rewrite IH by done. rewrite ConcatBytes_1. simpl.
  destruct (decide (k = x)) as [->|Hne].
  - rewrite lookup_insert_eq, (not_elem_of_list_to_map_1 l x Hx).
    destruct (HasPrefix x p); [by rewrite lookup_insert_eq|done].
  - rewrite (lookup_insert_ne (list_to_map l)) by done.
    destruct (HasPrefix x p); [by rewrite lookup_insert_ne by done|done].
Qed.

Lemma copiedElements_lookup s p k :
  copiedElements s p !! k = if HasPrefix k p then s !! k else None.
Proof.
  unfold copiedElements. rewrite copy_loop_lookup by apply NoDup_fst_map_to_list.
  rewrite list_to_map_to_list, lookup_empty. by destruct (s !! k).
Qed.

(** The keys an iteration visits, with the realm. *)
Lemma copied_keys s p d k :
  k ∈ SortSlice (map_to_list (copiedElements s p)).*1 d ↔ is_Some (s !! k) ∧ HasPrefix k p = true.
Proof.
  rewrite SortSlice_Permutation, list_elem_of_fmap. split.
  - intros ([k' v] & -> & Hin). apply elem_of_map_to_list in Hin.
    rewrite copiedElements_lookup in Hin. simpl. destruct (HasPrefix k' p); [eauto|done].
  - intros [[v Hv] Hp]. exists (k, v). split; [done|]. apply elem_of_map_to_list.
    by rewrite copiedElements_lookup, Hp.
Qed.

Lemma Compare_app r a b : Compare (r ++ a) (r ++ b) = Compare a b.
Proof. induction r as [|x r IH]; simpl; [done|]. by rewrite Z.compare_refl. Qed.

Lemma sorted_drop r l :
  (∀ k, k ∈ l → ∃ k', k = r ++ k') →
  StronglySorted bytes_lt l → StronglySorted bytes_lt (drop (length r) <$> l).
Proof.
  intros Hr Hs. induction Hs as [|k l Hs IH Hk]; [constructor|]. rewrite fmap_cons. constructor.
  - apply IH. set_solver.
  - apply Forall_fmap. rewrite Forall_forall in Hk |- *. intros k' Hk'. simpl.
    destruct (Hr k) as [a ->]; [set_solver|]. destruct (Hr k') as [b ->]; [set_solver|].
    rewrite !drop_app_length. specialize (Hk _ Hk'). unfold bytes_lt in *. by rewrite Compare_app in Hk.
Qed.

Lemma rev_fmap {A B} (f : A → B) l : rev (f <$> l) = f <$> rev l.
Proof. induction l as [|x l IH]; [done|]. cbn. by rewrite fmap_app, <-IH. Qed.

(** An iteration of a view visits the entries below its realm and the prefix in order. *)
Lemma iterate_iterates s realm p d :
  iterates (λ k, s !! (realm ++ k)) p d (iterate_ s realm p d).
Proof.
  unfold iterate_. rewrite ConcatBytes_2. set (P := realm ++ p).
  assert (Hr : ∀ k, k ∈ SortSlice (map_to_list (copiedElements s P)).*1 d → ∃ k', k = realm ++ k').
  { intros k [_ Hk]%copied_keys. apply HasPrefix_spec in Hk as [k' ->]. exists (p ++ k').
    unfold P. by rewrite app_assoc. }
  split.
  - intros k v. rewrite list_elem_of_fmap. split.
    + intros (K & HE & HK). injection HE as -> ->. destruct (Hr K HK) as [k' ->].
      apply copied_keys in HK as [[v Hv] HP]. rewrite drop_app_length, copiedElements_lookup, HP, Hv.
      split; [done|]. unfold P in HP. by rewrite HasPrefix_app_cancel in HP.
    + intros [Hv Hp]. exists (realm ++ k). split.
      * rewrite drop_app_length, copiedElements_lookup. unfold P.
        rewrite HasPrefix_app_cancel, Hp. by rewrite Hv.
      * apply copied_keys. split; [by eexists|]. unfold P. by rewrite HasPrefix_app_cancel.
  - rewrite <-list_fmap_compose.
    pose proof (SortSlice_sorted (map_to_list (copiedElements s P)).*1 d (NoDup_fst_map_to_list _)) as Hs.
    destruct d; simpl in *; [by apply sorted_drop|].
    rewrite rev_fmap. apply sorted_drop; [|done].
    intros k Hk. apply Hr. by apply list_elem_of_In, in_rev, list_elem_of_In.
Qed.

(** ** Commit *)

Lemma commit_sets_spec realm s l :
  NoDup l.*1 →
  ∃ s', commit_sets realm s l = (s', None) ∧ closed s' = closed s ∧
    (∀ k, m s' !! (realm ++ k) =
      match (list_to_map l : gmap Key Value) !! k with Some v => Some v | None => m s !! (realm ++ k) end) ∧
    (∀ K, HasPrefix K realm = false → m s' !! K = m s !! K).
Proof.
  revert s. induction l as [|[k0 v0] l IH]; intros s Hnd; [by exists s|].
  inversion_clear Hnd as [|? ? Hk0 Hnd']. cbn [commit_sets].
  destruct (IH (set realm s k0 v0).1 Hnd') as (s' & E & Hc & Hin & Hout). exists s'.
  split; [done|]. split; [done|]. unfold set, set_ in Hin, Hout.
  cbn [fst m] in Hin, Hout. rewrite ConcatBytes_1, ConcatBytes_2 in Hin, Hout. split.
  - intros k. rewrite Hin. cbn [list_to_map fold_right]. destruct (decide (k = k0)) as [->|Hne].
    + rewrite not_elem_of_list_to_map_1 by done. simpl. by rewrite !lookup_insert_eq.
    + simpl. by rewrite !lookup_insert_ne by (try done; intros ?%app_inv_head; done).
  - intros K HK. rewrite Hout by done. apply lookup_insert_ne. intros <-.
    by rewrite HasPrefix_app in HK.
Qed.

Lemma commit_deletes_spec realm s (l : list Key) :
  ∃ s', commit_deletes realm s l = (s', None) ∧ closed s' = closed s ∧
    (∀ k, m s' !! (realm ++ k) = if decide (k ∈ l) then None else m s !! (realm ++ k)) ∧
    (∀ K, HasPrefix K realm = false → m s' !! K = m s !! K).
Proof.
  revert s. induction l as [|k0 l IH]; intros s; [by exists s|]. cbn [commit_deletes].
  destruct (IH (delete realm s k0).1) as (s' & E & Hc & Hin & Hout). exists s'.
  split; [done|]. split; [done|]. unfold delete, delete_ in Hin, Hout.
  cbn [fst m] in Hin, Hout. rewrite ConcatBytes_2 in Hin, Hout. split.
  - intros k. rewrite Hin. destruct (decide (k = k0)) as [->|Hne].
    + rewrite lookup_delete_eq. rewrite (decide_True (P := k0 ∈ k0 :: l)) by set_solver. by case_decide.
    + rewrite lookup_delete_ne by (intros ?%app_inv_head; done).
      rewrite (decide_ext (k ∈ k0 :: l) (k ∈ l)) by set_solver. done.
  - intros K HK. rewrite Hout by done. apply lookup_delete_ne. intros <-.
    by rewrite HasPrefix_app in HK.
Qed.

(** What the batch does to a key: nothing, set it or delete it. *)
Definition pending (b : batchedMutations) (k : Key) : option (option Value) :=
  if decide (k ∈ deleteOperations b) then Some None else Some <$> setOperations b !! k.

Lemma Commit_spec realm s b :
  closed s = false →
  ∃ s', Commit realm s b = (s', None) ∧ closed s' = false ∧
    (∀ k, m s' !! (realm ++ k) = default (m s !! (realm ++ k)) (pending b k)) ∧
    (∀ K, HasPrefix K realm = false → m s' !! K = m s !! K).
Proof.
  intros Hs. unfold Commit. rewrite Hs.
  destruct (commit_sets_spec realm s (map_to_list (setOperations b)))
    as (s1 & -> & Hc1 & Hin1 & Hout1); [apply NoDup_fst_map_to_list|].
  destruct (commit_deletes_spec realm s1 (elements (deleteOperations b)))
    as (s2 & -> & Hc2 & Hin2 & Hout2).
  exists s2. split; [done|]. split; [congruence|]. split.
  - intros k. rewrite Hin2, Hin1, list_to_map_to_list. unfold pending.
    rewrite (decide_ext (k ∈ elements (deleteOperations b)) (k ∈ deleteOperations b))
      by apply elem_of_elements.
    destruct (decide _); [done|]. by destruct (setOperations b !! k).
  - intros K HK. by rewrite Hout2, Hout1.
Qed.

Lemma pending_BSet b k v k' :
  pending (BSet b k v).1 k' = if decide (k' = k) then Some (Some v) else pending b k'.
Proof.
  unfold pending, BSet. cbn [fst deleteOperations setOperations]. rewrite ConcatBytes_1.
  destruct (decide (k' = k)) as [->|Hne].
  - rewrite decide_False by set_solver. by rewrite lookup_insert_eq.
  - rewrite lookup_insert_ne by done.
    by rewrite (decide_ext (k' ∈ deleteOperations b ∖ {[k]}) (k' ∈ deleteOperations b)) by set_solver.
Qed.

Lemma pending_BDelete b k k' :
  pending (BDelete b k).1 k' = if decide (k' = k) then Some None else pending b k'.
Proof.
  unfold pending, BDelete. cbn [fst deleteOperations setOperations]. rewrite ConcatBytes_1.
  destruct (decide (k' = k)) as [->|Hne].
  - by rewrite decide_True by set_solver.
  - rewrite lookup_delete_ne by done.
    by rewrite (decide_ext (k' ∈ {[k]} ∪ deleteOperations b) (k' ∈ deleteOperations b)) by set_solver.
Qed.

(** ** A view implements the interface *)

#[local] Instance view_store realm : KVStore shared := mapDB_KVStore realm.

(** The value below a realm. *)
Definition content (realm : Realm) (s : shared) (k : Key) : option Value := m s !! (realm ++ k).

#[export] Program Instance mapDB_laws realm : @KVStoreLaws shared (mapDB_KVStore realm) := {|
  kv_open s := negb (closed s);
  kv_content := content realm;
  kv_pending := pending;
|}.
Next Obligation.
  intros realm s k. simpl. unfold Get, content, get_. rewrite ConcatBytes_2.
  destruct (closed s); [done|]. simpl. by destruct (m s !! (realm ++ k)).
Qed.
Next Obligation.
  intros realm s k. simpl. unfold Has, content, has_. rewrite ConcatBytes_2. by destruct (closed s).
Qed.
Next Obligation.
  intros realm s k v. simpl. unfold Set_. destruct (closed s) eqn:E; simpl; [done|].
  eexists. split; [done|]. simpl. split; [by rewrite ?E|]. intros k'. unfold content, set_. simpl.
  case_decide as Hk; [subst; by rewrite lookup_insert_eq|].
  apply lookup_insert_ne. by intros ?%app_inv_head.
Qed.
Next Obligation.
  intros realm s k. simpl. unfold Delete. destruct (closed s) eqn:E; simpl; [done|].
  eexists. split; [done|]. simpl. split; [by rewrite ?E|]. intros k'. unfold content, delete_. simpl.
  case_decide as Hk; [subst; by rewrite lookup_delete_eq|].
  apply lookup_delete_ne. by intros ?%app_inv_head.
Qed.
Next Obligation.
  intros realm s p. simpl. unfold DeletePrefix. destruct (closed s) eqn:E; simpl; [done|].
  eexists. split; [done|]. simpl. split; [by rewrite ?E|]. intros k'. unfold content. simpl.
  by rewrite deletePrefix_lookup, ConcatBytes_2, HasPrefix_app_cancel.
Qed.
Next Obligation.
  intros realm s. simpl. unfold Clear. destruct (closed s) eqn:E; simpl; [done|].
  eexists. split; [done|]. simpl. split; [by rewrite ?E|]. intros k'. unfold content. simpl.
  by rewrite deletePrefix_lookup, HasPrefix_app.
Qed.
Next Obligation.
  intros realm s p d. simpl. unfold Iterate. destruct (closed s); simpl; [done|].
  eexists. split; [done|]. apply iterate_iterates.
Qed.
Next Obligation.
  intros realm s p d. simpl. unfold IterateKeys, Iterate. destruct (closed s); [done|]. f_equal.
  unfold iterate_, iterateKeys_. by rewrite <-list_fmap_compose.
Qed.
Next Obligation.
  intros realm s. simpl. unfold Flush. destruct (closed s) eqn:E; simpl; [done|].
  exists s. by rewrite E.
Qed.
Next Obligation. intros realm s. by eexists. Qed.
Next Obligation.
  intros realm s. simpl. unfold Batched. destruct (closed s); simpl; [done|].
  eexists. split; [done|]. intros k. unfold pending. simpl. by rewrite decide_False by set_solver.
Qed.
Next Obligation. intros realm b k v. eexists. split; [done|]. intros k'. apply pending_BSet. Qed.
Next Obligation. intros realm b k. eexists. split; [done|]. intros k'. apply pending_BDelete. Qed.
Next Obligation. intros realm b k. unfold pending. simpl. by rewrite decide_False by set_solver. Qed.
Next Obligation.
  intros realm s b. simpl. destruct (closed s) eqn:E; simpl.
  - unfold Commit. by rewrite E.
  - destruct (Commit_spec realm s b E) as (s' & -> & Hc & Hin & _). exists s'. by rewrite Hc.
Qed.

(** ** Programs of several views *)

(** What a batch can record. *)
Inductive bop : Type := BopSet (k : Key) (v : Value) | BopDelete (k : Key) | BopCancel.

(** The writing calls of a view; a batch is made, filled and committed. *)
Inductive mop : Type :=
  | MSet (k : Key) (v : Value)
  | MDelete (k : Key)
  | MDeletePrefix (p : Key)
  | MClear
  | MBatch (ops : list bop).

Definition batch_op (b : batchedMutations) (o : bop) : batchedMutations :=
  match o with
  | BopSet k v => (BSet b k v).1
  | BopDelete k => (BDelete b k).1
  | BopCancel => Cancel b
  end.

Definition run_op (s : shared) (e : Realm * mop) : shared :=
  let '(realm, o) := e in
  match o with
  | MSet k v => (Set_ realm s k v).1
  | MDelete k => (Delete realm s k).1
  | MDeletePrefix p => (DeletePrefix realm s p).1
  | MClear => (Clear realm s).1
  | MBatch ops =>
      match Batched s with
      | inl b => (Commit realm s (fold_left batch_op ops b)).1
      | inr _ => s
      end
  end.

(** The specification: one map of whole keys; a batch is its calls after the
    last [Cancel], one after the other. *)
Definition spec_bop (realm : Realm) (M0 M : gmap Key Value) (o : bop) : gmap Key Value :=
  match o with
  | BopSet k v => <[realm ++ k := v]> M
  | BopDelete k => base.delete (realm ++ k) M
  | BopCancel => M0
  end.

Definition spec_op (M : gmap Key Value) (e : Realm * mop) : gmap Key Value :=
  let '(realm, o) := e in
  match o with
  | MSet k v => <[realm ++ k := v]> M
  | MDelete k => base.delete (realm ++ k) M
  | MDeletePrefix p => filter (λ e, HasPrefix e.1 (realm ++ p) = false) M
  | MClear => filter (λ e, HasPrefix e.1 realm = false) M
  | MBatch ops => fold_left (spec_bop realm M) ops M
  end.

(** The batch [b], pending over [M0], stands for the map [M]. *)
Definition batch_rel (realm : Realm) (M0 : gmap Key Value) (b : batchedMutations) (M : gmap Key Value) : Prop :=
  (∀ k, M !! (realm ++ k) = default (M0 !! (realm ++ k)) (pending b k)) ∧
  (∀ K, HasPrefix K realm = false → M !! K = M0 !! K).

Lemma pending_Cancel b k : pending (Cancel b) k = None.
Proof. unfold pending. simpl. by rewrite decide_False by set_solver. Qed.

Lemma batch_op_rel realm M0 b M o :
  batch_rel realm M0 b M → batch_rel realm M0 (batch_op b o) (spec_bop realm M0 M o).
Proof.
  intros [Hin Hout]. destruct o as [k v|k|]; cbn [batch_op spec_bop]; split.
  - intros k'. rewrite pending_BSet. destruct (decide (k' = k)) as [->|Hne].
    + by rewrite lookup_insert_eq.
    + rewrite lookup_insert_ne by (intros ?%app_inv_head; done). apply Hin.
  - intros K HK. rewrite lookup_insert_ne by (intros <-; by rewrite HasPrefix_app in HK). by apply Hout.
  - intros k'. rewrite pending_BDelete. destruct (decide (k' = k)) as [->|Hne].
    + by rewrite lookup_delete_eq.
    + rewrite lookup_delete_ne by (intros ?%app_inv_head; done). apply Hin.
  - intros K HK. rewrite lookup_delete_ne by (intros <-; by rewrite HasPrefix_app in HK). by apply Hout.
  - intros k'. by rewrite pending_Cancel.
  - done.
Qed.

Lemma batch_ops_rel realm M0 ops b M :
  batch_rel realm M0 b M →
  batch_rel realm M0 (fold_left batch_op ops b) (fold_left (spec_bop realm M0) ops M).
Proof. revert b M. induction ops as [|o ops IH]; intros b M HR; [done|]. by apply IH, batch_op_rel. Qed.

Lemma filter_prefix_lookup (M : gmap Key Value) p k :
  filter (λ e, HasPrefix e.1 p = false) M !! k = if HasPrefix k p then None else M !! k.
Proof.
  rewrite map_lookup_filter. destruct (M !! k) as [v|] eqn:E; simpl; [|by destruct (HasPrefix k p)].
  destruct (HasPrefix k p); case_guard; done.
Qed.

Lemma run_op_spec s e : closed s = false → closed (run_op s e) = false ∧ m (run_op s e) = spec_op (m s) e.
Proof.
  intros Hs. destruct e as [realm [k v|k|p| |ops]]; cbn [run_op spec_op].
  - unfold Set_. rewrite Hs. by split.
  - unfold Delete. rewrite Hs. by split.
  - unfold DeletePrefix. rewrite Hs. split; [done|]. simpl. apply map_eq. intros k.
    by rewrite deletePrefix_lookup, filter_prefix_lookup.
  - unfold Clear. rewrite Hs. split; [done|]. simpl. apply map_eq. intros k.
    by rewrite deletePrefix_lookup, filter_prefix_lookup.
  - unfold Batched. rewrite Hs.
    destruct (batch_ops_rel realm (m s) ops (Batch ∅ ∅) (m s)) as [Hin Hout].
    { split; [|done]. intros k. by rewrite (pending_Cancel (Batch ∅ ∅)). }
    destruct (Commit_spec realm s (fold_left batch_op ops (Batch ∅ ∅)) Hs) as (s' & -> & Hc & Hin' & Hout').
    split; [done|]. apply map_eq. intros K. simpl. destruct (HasPrefix K realm) eqn:HK.
    + apply HasPrefix_spec in HK as [k ->]. by rewrite Hin', Hin.
    + by rewrite Hout', Hout.
Qed.

Lemma run_ops_spec s ops :
  closed s = false →
  closed (fold_left run_op ops s) = false ∧ m (fold_left run_op ops s) = fold_left spec_op ops (m s).
Proof.
  revert s. induction ops as [|e ops IH]; intros s Hs; [done|]. cbn [fold_left].
  destruct (run_op_spec s e Hs) as [Hs' <-]. by apply IH.
Qed.

(** Neither realm is a prefix of the other one. *)
Definition apart (r r' : Realm) : bool := negb (HasPrefix r r') && negb (HasPrefix r' r).

Lemma HasPrefix_comparable K r r' :
  HasPrefix K r = true → HasPrefix K r' = true → HasPrefix r r' = true ∨ HasPrefix r' r = true.
Proof.
  revert r r'. induction K as [|x K IH]; intros [|a r] [|b r']; simpl; auto; try done.
  intros [->%bool_decide_eq_true Hr]%andb_prop [->%bool_decide_eq_true Hr']%andb_prop.
  rewrite !bool_decide_eq_true_2 by done. simpl. by apply IH.
Qed.

Lemma apart_not_prefix r r' k : apart r r' = true → HasPrefix (r ++ k) r' = false.
Proof.
  unfold apart. intros [H1%negb_true_iff H2%negb_true_iff]%andb_prop.
  apply not_true_is_false. intros H.
  destruct (HasPrefix_comparable (r ++ k) r r') as [?|?]; [apply HasPrefix_app|done|congruence..].
Qed.

Lemma HasPrefix_shorter K r p : HasPrefix K (r ++ p) = true → HasPrefix K r = true.
Proof.
  intros [k ->]%HasPrefix_spec. apply HasPrefix_spec. exists (p ++ k). by rewrite app_assoc.
Qed.

Lemma spec_op_frame M e K : HasPrefix K e.1 = false → spec_op M e !! K = M !! K.
Proof.
  destruct e as [realm o]. intros HK. cbn in HK.
  assert (Hne : ∀ k, realm ++ k ≠ K) by (intros k <-; by rewrite HasPrefix_app in HK).
  destruct o as [k v|k|p| |ops]; cbn [spec_op].
  - by apply lookup_insert_ne.
  - by apply lookup_delete_ne.
  - rewrite filter_prefix_lookup. destruct (HasPrefix K (realm ++ p)) eqn:E; [|done].
    apply HasPrefix_shorter in E. congruence.
  - by rewrite filter_prefix_lookup, HK.
  - assert (∀ M', M' !! K = M !! K → fold_left (spec_bop realm M) ops M' !! K = M !! K) as Hfold.
    { induction ops as [|o ops IH]; intros M' HM; [done|]. cbn [fold_left]. apply IH.
      destruct o; cbn [spec_bop]; [by rewrite lookup_insert_ne|by rewrite lookup_delete_ne|done]. }
    by apply Hfold.
Qed.

Lemma spec_ops_frame M ops K :
  Forall (λ e : Realm * mop, HasPrefix K e.1 = false) ops → fold_left spec_op ops M !! K = M !! K.
Proof.
  intros Hops. revert M. induction Hops as [|e ops He _ IH]; intros M; [done|]. cbn [fold_left].
  by rewrite IH, spec_op_frame.
Qed.

(** ** Properties *)

(** C10: after any sequence of writing calls, batches included, made through
    views of any realms of a new store, what the view of a realm reads is given
    by one map of whole keys: [Get] and [Has] look up the realm followed by the
    key, [Iterate] visits exactly the entries below the realm and the prefix,
    by key in the given direction and without the realm, and [IterateKeys]
    visits their keys.  Calls through views of realms apart from a realm do not
    change what its view reads. *)
Theorem MapDB_refines_map (ops : list (Realm * mop)) (realm : Realm) :
  let s := fold_left run_op ops NewMapDB.1 in
  let M := fold_left spec_op ops ∅ in
  (∀ k, Get realm s k = match M !! (realm ++ k) with Some v => inl v | None => inr ErrKeyNotFound end) ∧
  (∀ k, Has realm s k = inl (bool_decide (is_Some (M !! (realm ++ k))))) ∧
  (∀ p d, ∃ l, Iterate realm s p d = inl l ∧ iterates (λ k, M !! (realm ++ k)) p d l ∧
    IterateKeys realm s p d = inl l.*1) ∧
  (∀ ops' k, forallb (λ e, apart realm e.1) ops' = true →
    Get realm (fold_left run_op ops' s) k = Get realm s k).
Proof.
  intros s M. destruct (run_ops_spec NewMapDB.1 ops) as [Hs HM]; [done|].
  fold s in Hs, HM. change (m s = M) in HM. rewrite <-HM. split_and!.
  - intros k. pose proof (law_get (KVStoreLaws := mapDB_laws realm) s k) as E. simpl in E.
    by rewrite Hs in E.
  - intros k. pose proof (law_has (KVStoreLaws := mapDB_laws realm) s k) as E. simpl in E.
    by rewrite Hs in E.
  - intros p d. unfold Iterate, IterateKeys. rewrite Hs. eexists. split; [done|].
    split; [apply iterate_iterates|]. unfold iterate_, iterateKeys_. by rewrite <-list_fmap_compose.
  - intros ops' k Hap. destruct (run_ops_spec s ops' Hs) as [Hs' HM'].
    unfold Get, get_. rewrite Hs, Hs', HM', ConcatBytes_2, spec_ops_frame; [done|].
    apply Forall_forall. intros e He. apply apart_not_prefix. rewrite forallb_forall in Hap.
    by apply Hap, list_elem_of_In.
Qed.

Lemma MapDB_refines_map_witness :
  apart [x61] [x62] = true ∧
  Get [x61] (fold_left run_op [([x62], MClear)]
      (fold_left run_op [([x61], MSet [x01] [x02]); ([x62], MSet [x01] [x03])] NewMapDB.1)) [x01] =
    inl [x02].
Proof.
  split; [done|].
  transitivity (Get [x61] (fold_left run_op [([x61], MSet [x01] [x02]); ([x62], MSet [x01] [x03])]
    NewMapDB.1) [x01]).
  - by apply (MapDB_refines_map [([x61], MSet [x01] [x02]); ([x62], MSet [x01] [x03])] [x61]).
  - reflexivity.
Defined.

Lemma Copy_and_CopyBatched_witness :
  let source := fold_left run_op [([], MSet [x01] [x02]); ([], MSet [x03] [x04])] NewMapDB.1 in
  let target := fold_left run_op [([x61], MSet [x01] [x05]); ([x61], MSet [x07] [x08])] NewMapDB.1 in
  kv_open (KVStoreLaws := mapDB_laws []) source && kv_open (KVStoreLaws := mapDB_laws [x61]) target = true ∧
  copied (H0 := mapDB_laws []) (H2 := mapDB_laws [x61]) source target
    (Copy (H := mapDB_KVStore []) (H0 := mapDB_KVStore [x61]) source target).
Proof.
  intros source target. split; [done|].
  exact (proj1 (Copy_and_CopyBatched (H0 := mapDB_laws []) (H2 := mapDB_laws [x61]) source target [1])).
Defined.
