(* ===== verification/BatchedWriter.v ===== *)
(** * kvstore: the BatchedWriter and its BatchCollector

    [src/kvstore/batch_writer.go] and [src/kvstore/batch_collector.go], on top
    of any store that satisfies the laws of KVStore.v.

    The collector is a record with the code's fields and its two methods.  The
    writer is a transition system: the goroutine [runBatchWriter], any number of
    goroutines that call [Enqueue], one that calls [StopBatchWriter], and calls
    of [Flush].  A step is one access to what they share: the atomics [running]
    and [scheduledCount], the two channels, the wait group.  [Add] and [Commit]
    run in the writer's goroutine and are one step each.  The counter is an
    [int32] and wraps around.  The queue is buffered ([queueSize] at least 1).

    [BatchWriteObject] is an interface without an implementation in the
    repository.  An object is given by the operations its [BatchWrite] adds to a
    batch; whether [BatchWriteScheduled] returns true is left open, so that the
    theorems hold for every implementation.  Nothing else writes to the store.

    [pushed], [batches] and [done] are ghost fields: the objects sent to the
    queue, the committed batches and the calls of [BatchWriteDone], in order. *)

From stdpp Require Import relations.
From S2P Require Import Prelude Bytes KVStore MapDB.

(** What [BatchWrite] does to the [BatchedMutations]. *)
Inductive mutation : Type := MutSet (k : Key) (v : Value) | MutDelete (k : Key).

#[local] Arguments wrap : simpl never.

Section BatchedWriter.
Context {St : Type} `{KVStoreLaws St} {Obj : Type} (mutations : Obj → list mutation).

Definition write_mutation (b : kv_Batch) (mu : mutation) : kv_Batch :=
  match mu with
  | MutSet k v => (kv_BSet b k v).1
  | MutDelete k => (kv_BDelete b k).1
  end.

Definition BatchWrite (o : Obj) (b : kv_Batch) : kv_Batch := fold_left write_mutation (mutations o) b.

(** ** The collector *)

Record BatchCollector : Type := mkCollector {
  batchedMuts : kv_Batch;
  batchSize : Z;
  writtenValues : list (option Obj);
  writtenValuesCounter : Z;
  committed : bool;
}.

Definition newBatchCollector (b : kv_Batch) (batchSize : Z) : outcome BatchCollector :=
  if batchSize <? 0 then Panic "makeslice: len out of range"
  else Ret (mkCollector b batchSize (replicate (Z.to_nat batchSize) None) 0 false).

(** [Add]: the collector, the counter it shares with the writer, and whether the
    size is reached. *)
Definition Add (br : BatchCollector) (scheduledCount : Z) (o : Obj) : outcome (BatchCollector * Z * bool) :=
  if committed br then Panic "mutations were already committed"
  else
    let scheduledCount := wrap I32 (scheduledCount - 1) in
    let muts := BatchWrite o (batchedMuts br) in
    written ← store (writtenValues br) (writtenValuesCounter br) (Some o);
    let n := writtenValuesCounter br + 1 in
    Ret (mkCollector muts (batchSize br) written n (committed br), scheduledCount, batchSize br <=? n).

(** The objects whose [BatchWriteDone] the last loop of [Commit] calls. *)
Fixpoint done_calls (vals : list (option Obj)) (i : Z) (n : nat) : outcome (list Obj) :=
  match n with
  | O => Ret []
  | S n =>
      v ← index vals i;
      match v with
      | None => Panic "invalid memory address or nil pointer dereference"
      | Some o => rest ← done_calls vals (i + 1) n; Ret (o :: rest)
      end
  end.

(** [Commit]: the store, the objects that were told, and the error. *)
Definition Commit (st : St) (br : BatchCollector) : outcome (St * list Obj * option error) :=
  if committed br then Panic "mutations were already committed"
  else if writtenValuesCounter br =? 0 then Ret (st, [], None) (* [Cancel] *)
  else
    let '(st, err) := kv_Commit st (batchedMuts br) in
    match err with
    | Some e => Ret (st, [], Some e)
    | None =>
        told ← done_calls (writtenValues br) 0 (Z.to_nat (writtenValuesCounter br));
        Ret (st, told, None)
    end.

(** ** The writer *)

Inductive writer_pc : Type :=
  | WNone                                    (* not started *)
  | WSpawned                                 (* before [writeWg.Add(1)] *)
  | WLoop                                    (* at the condition of the outer loop *)
  | WCollect (c : BatchCollector)            (* at the [select] of [collectValues] *)
  | WFlush (c : BatchCollector)              (* at the [select] of [FlushValues] *)
  | WCommit (c : BatchCollector) (flushing : bool) (* the size was reached *)
  | WExited
  | WPanicked.

(** Where a caller of [Enqueue] stands. *)
Inductive enqueue_pc : Type :=
  | EIdle
  | EStart (o : Obj)    (* at [autoStartOnce.Do] *)
  | ECheck (o : Obj)    (* before [running.Load] *)
  | ERunning (o : Obj)  (* saw that the writer runs *)
  | ECounted (o : Obj). (* added to [scheduledCount], about to send *)

Record BatchedWriter : Type := mkBW {
  bw_store : St;
  running : bool;
  started : bool;        (* [autoStartOnce] was used *)
  scheduledCount : Z;
  batchQueue : list Obj;
  flushChan : bool;      (* the channel of capacity 1 is full *)
  writeWg : Z;
  stopping : bool;       (* [StopBatchWriter] waits for [writeWg] *)
  writer : writer_pc;
  callers : list enqueue_pc;
  pushed : list Obj;
  batches : list (list Obj);
  done : list Obj;
}.

Variables optQueueSize optBatchSize : Z.

Definition NewBatchedWriter (st : St) (n : nat) : BatchedWriter :=
  mkBW st false false 0 [] false 0 false WNone (replicate n EIdle) [] [] [].

Definition set_caller (i : nat) (p : enqueue_pc) (s : BatchedWriter) : BatchedWriter :=
  mkBW (bw_store s) (running s) (started s) (scheduledCount s) (batchQueue s) (flushChan s) (writeWg s)
    (stopping s) (writer s) (<[i:=p]> (callers s)) (pushed s) (batches s) (done s).

Definition set_writer (w : writer_pc) (s : BatchedWriter) : BatchedWriter :=
  mkBW (bw_store s) (running s) (started s) (scheduledCount s) (batchQueue s) (flushChan s) (writeWg s)
    (stopping s) w (callers s) (pushed s) (batches s) (done s).

(** [startBatchWriter], which only the [autoStartOnce] of [Enqueue] calls. *)
Definition startBatchWriter (s : BatchedWriter) : BatchedWriter :=
  if running s then s
  else mkBW (bw_store s) true (started s) (scheduledCount s) (batchQueue s) (flushChan s) (writeWg s)
    (stopping s) WSpawned (callers s) (pushed s) (batches s) (done s).

Definition auto_start (s : BatchedWriter) : BatchedWriter :=
  if started s then s
  else
    let s := if running s then s else startBatchWriter s in
    mkBW (bw_store s) (running s) true (scheduledCount s) (batchQueue s) (flushChan s) (writeWg s)
      (stopping s) (writer s) (callers s) (pushed s) (batches s) (done s).

(** [scheduledCount.Add(1)] of [Enqueue]. *)
Definition count_object (s : BatchedWriter) : BatchedWriter :=
  mkBW (bw_store s) (running s) (started s) (wrap I32 (scheduledCount s + 1)) (batchQueue s) (flushChan s)
    (writeWg s) (stopping s) (writer s) (callers s) (pushed s) (batches s) (done s).

(** [batchQueue <- object] *)
Definition send_object (o : Obj) (s : BatchedWriter) : BatchedWriter :=
  mkBW (bw_store s) (running s) (started s) (scheduledCount s) (batchQueue s ++ [o]) (flushChan s) (writeWg s)
    (stopping s) (writer s) (callers s) (pushed s ++ [o]) (batches s) (done s).

(** [StopBatchWriter] up to [writeWg.Wait], and its return. *)
Definition stop_begin (s : BatchedWriter) : BatchedWriter :=
  if running s then
    mkBW (bw_store s) false (started s) (scheduledCount s) (batchQueue s) (flushChan s) (writeWg s)
      true (writer s) (callers s) (pushed s) (batches s) (done s)
  else s.

Definition stop_return (s : BatchedWriter) : BatchedWriter :=
  mkBW (bw_store s) (running s) (started s) (scheduledCount s) (batchQueue s) (flushChan s) (writeWg s)
    false (writer s) (callers s) (pushed s) (batches s) (done s).

Definition set_flush (full : bool) (s : BatchedWriter) : BatchedWriter :=
  mkBW (bw_store s) (running s) (started s) (scheduledCount s) (batchQueue s) full (writeWg s)
    (stopping s) (writer s) (callers s) (pushed s) (batches s) (done s).

Definition Flush (s : BatchedWriter) : BatchedWriter := if running s then set_flush true s else s.

Definition set_wg (wg : Z) (w : writer_pc) (s : BatchedWriter) : BatchedWriter :=
  mkBW (bw_store s) (running s) (started s) (scheduledCount s) (batchQueue s) (flushChan s) wg
    (stopping s) w (callers s) (pushed s) (batches s) (done s).

(** A new batch and its collector. *)
Definition new_collector (s : BatchedWriter) : outcome BatchCollector :=
  match kv_Batched (bw_store s) with
  | inr _ => Panic "store.Batched failed"
  | inl b => newBatchCollector b optBatchSize
  end.

(** The condition of the outer loop, and the start of its body. *)
Definition writer_loop (s : BatchedWriter) : BatchedWriter :=
  if running s || negb (scheduledCount s =? 0) then
    match new_collector s with
    | Panic _ => set_writer WPanicked s
    | Ret c => set_writer (WCollect c) s
    end
  else set_wg (writeWg s - 1) WExited s.

(** An element arrives from the queue, in one of the two loops. *)
Definition writer_receive (c : BatchCollector) (flushing : bool) (o : Obj) (queue : list Obj)
    (s : BatchedWriter) : BatchedWriter :=
  match Add c (scheduledCount s) o with
  | Panic _ => set_writer WPanicked s
  | Ret (c, n, reached) =>
      mkBW (bw_store s) (running s) (started s) n queue (flushChan s) (writeWg s) (stopping s)
        (if reached then WCommit c flushing else if flushing then WFlush c else WCollect c)
        (callers s) (pushed s) (batches s) (done s)
  end.

(** [Commit], which panics in the writer when it returns an error. *)
Definition writer_commit (c : BatchCollector) (s : BatchedWriter) : outcome BatchedWriter :=
  '(st, told, err) ← Commit (bw_store s) c;
  match err with
  | Some _ => Panic "batchCollector.Commit failed"
  | None =>
      Ret (mkBW st (running s) (started s) (scheduledCount s) (batchQueue s) (flushChan s) (writeWg s)
        (stopping s) WLoop (callers s) (pushed s)
        (match told with [] => batches s | _ => batches s ++ [told] end) (done s ++ told))
  end.

(** After [Commit] the writer goes on with the outer loop, or in the middle of
    a flush with a new collector. *)
Definition writer_commit_then (c : BatchCollector) (flushing : bool) (s : BatchedWriter) : BatchedWriter :=
  match
    (s ← writer_commit c s;
     if flushing then c ← new_collector s; Ret (set_writer (WFlush c) s) else Ret s)
  with
  | Panic _ => set_writer WPanicked s
  | Ret s => s
  end.

Inductive step : BatchedWriter → BatchedWriter → Prop :=
  (* [Enqueue] *)
  | enqueue_call s i o :
      callers s !! i = Some EIdle → step s (set_caller i (EStart o) s)
  | enqueue_start s i o :
      callers s !! i = Some (EStart o) → step s (set_caller i (ECheck o) (auto_start s))
  | enqueue_check s i o :
      callers s !! i = Some (ECheck o) →
      step s (set_caller i (if running s then ERunning o else EIdle) s)
  | enqueue_scheduled s i o : (* [BatchWriteScheduled] returned true *)
      callers s !! i = Some (ERunning o) → step s (set_caller i EIdle s)
  | enqueue_count s i o :
      callers s !! i = Some (ERunning o) → step s (set_caller i (ECounted o) (count_object s))
  | enqueue_send s i o :
      callers s !! i = Some (ECounted o) → len (batchQueue s) < optQueueSize →
      step s (set_caller i EIdle (send_object o s))
  (* [StopBatchWriter] and [Flush] *)
  | stop_call s : stopping s = false → step s (stop_begin s)
  | stop_wait s : stopping s = true → writeWg s = 0 → step s (stop_return s)
  | flush_call s : step s (Flush s)
  (* [runBatchWriter] *)
  | run_spawned s : writer s = WSpawned → step s (set_wg (writeWg s + 1) WLoop s)
  | run_loop s : writer s = WLoop → step s (writer_loop s)
  | run_collect s c o queue :
      writer s = WCollect c → batchQueue s = o :: queue → step s (writer_receive c false o queue s)
  | run_flush_signal s c :
      writer s = WCollect c → flushChan s = true → step s (set_flush false (set_writer (WFlush c) s))
  | run_timeout s c : writer s = WCollect c → step s (writer_commit_then c false s)
  | run_flush s c o queue :
      writer s = WFlush c → batchQueue s = o :: queue → step s (writer_receive c true o queue s)
  | run_flush_empty s c :
      writer s = WFlush c → batchQueue s = [] → step s (writer_commit_then c false s)
  | run_commit s c flushing :
      writer s = WCommit c flushing → step s (writer_commit_then c flushing s).

Definition reachable (st : St) (n : nat) (s : BatchedWriter) : Prop :=
  rtc step (NewBatchedWriter st n) s.

(** ** Batches and what they do to the store *)

(** The value of a key after some operations. *)
Definition last_write (k : Key) (ms : list mutation) (v : option Value) : option Value :=
  fold_left (λ v mu,
    match mu with
    | MutSet k' v' => if decide (k = k') then Some v' else v
    | MutDelete k' => if decide (k = k') then None else v
    end) ms v.

#[local] Arguments last_write : simpl never.

Lemma last_write_app k ms ms' v : last_write k (ms ++ ms') v = last_write k ms' (last_write k ms v).
Proof. apply fold_left_app. Qed.

(** Committing the batch does what the operations do one by one. *)
Definition batch_does (b : kv_Batch) (ms : list mutation) : Prop :=
  ∀ k v, default v (kv_pending b k) = last_write k ms v.

Lemma write_mutation_does b ms mu : batch_does b ms → batch_does (write_mutation b mu) (ms ++ [mu]).
Proof.
  intros Hb k v. rewrite last_write_app, <-Hb. unfold last_write at 1. destruct mu as [k' v'|k']; cbn.
  - destruct (law_bset b k' v') as (b' & -> & Hp). cbn. rewrite Hp. by case_decide.
  - destruct (law_bdelete b k') as (b' & -> & Hp). cbn. rewrite Hp. by case_decide.
Qed.

Lemma BatchWrite_does b ms o : batch_does b ms → batch_does (BatchWrite o b) (ms ++ mutations o).
Proof.
  unfold BatchWrite. generalize (mutations o) as l. intros l. revert b ms.
  induction l as [|mu l IH]; intros b ms Hb; [by rewrite app_nil_r|].
  rewrite (cons_middle mu ms l), app_assoc. by apply IH, write_mutation_does.
Qed.

(** ** The collector *)

(** The collector holds the objects, in order. *)
Record collects (c : BatchCollector) (objs : list Obj) : Prop := {
  col_open : committed c = false;
  col_size : batchSize c = optBatchSize;
  col_counter : writtenValuesCounter c = len objs;
  col_values : writtenValues c =
    (Some <$> objs) ++ replicate (Z.to_nat optBatchSize - length objs) None;
  col_does : batch_does (batchedMuts c) (objs ≫= mutations);
}.

Definition collected (c : BatchCollector) : list Obj := omap id (writtenValues c).

Lemma omap_Some (l : list Obj) n : omap id ((Some <$> l) ++ replicate n None) = l.
Proof.
  induction l as [|o l IH]; cbn; [by induction n|]. f_equal. exact IH.
Qed.

Lemma collects_collected c objs : collects c objs → collected c = objs.
Proof. intros Hc. unfold collected. rewrite (col_values _ _ Hc). apply omap_Some. Qed.

Lemma new_collector_ok s :
  0 ≤ optBatchSize → kv_open (bw_store s) = true →
  ∃ c, new_collector s = Ret c ∧ collects c [].
Proof.
  intros Hs Ho. unfold new_collector. pose proof (law_batched (bw_store s)) as E. rewrite Ho in E.
  destruct E as (b & -> & Hp). unfold newBatchCollector. rewrite (proj2 (Z.ltb_ge _ _)) by lia.
  eexists. split; [done|]. split; cbn; try done; [by rewrite Nat.sub_0_r|]. intros k v. by rewrite Hp.
Qed.

Lemma Add_ok c objs n o :
  collects c objs → len objs < optBatchSize →
  ∃ c', Add c n o = Ret (c', wrap I32 (n - 1), optBatchSize <=? len objs + 1) ∧ collects c' (objs ++ [o]).
Proof.
  intros [Ho Hs Hn Hv Hd] Hlt. unfold Add, len in *. rewrite Ho, Hn, Hs, Hv.
  rewrite store_nat by (rewrite length_app, length_fmap, length_replicate; lia).
  eexists. split; [reflexivity|]. split; cbn; try done.
  - unfold len. rewrite length_app. cbn. lia.
  - rewrite <-(Nat.add_0_r (length objs)) at 1. rewrite <-(length_fmap Some objs) at 1.
    rewrite insert_app_r, fmap_app, <-app_assoc. f_equal. rewrite length_app. cbn.
    destruct (Z.to_nat optBatchSize - length objs)%nat as [|m] eqn:E; [lia|]. cbn. do 2 f_equal. lia.
  - rewrite bind_app. cbn. rewrite app_nil_r. by apply BatchWrite_does.
Qed.

Lemma done_calls_ok vals objs rest i :
  drop i vals = (Some <$> objs) ++ rest → done_calls vals (Z.of_nat i) (length objs) = Ret objs.
Proof.
  revert i. induction objs as [|o objs IH]; intros i Hv; [done|]. cbn in *.
  assert (vals !! i = Some (Some o)) as Hi by (rewrite <-(Nat.add_0_r i), <-lookup_drop, Hv; done).
  rewrite (index_nat _ _ _ Hi). cbn. replace (Z.of_nat i + 1) with (Z.of_nat (S i)) by lia.
  rewrite IH; [done|]. rewrite (drop_S _ _ _ Hi) in Hv. by injection Hv.
Qed.

Lemma Commit_ok c objs st :
  collects c objs → kv_open st = true →
  ∃ st', Commit st c = Ret (st', objs, None) ∧ kv_open st' = true ∧
    ∀ k, kv_content st' k = last_write k (objs ≫= mutations) (kv_content st k).
Proof.
  intros [Ho Hs Hn Hv Hd] Hst. unfold Commit. rewrite Ho, Hn. destruct objs as [|o objs]; [by exists st|].
  replace (len (o :: objs) =? 0) with false by (symmetry; apply Z.eqb_neq; unfold len; cbn; lia).
  pose proof (law_commit st (batchedMuts c)) as E. rewrite Hst in E. destruct E as (st' & -> & Hst' & Hk).
  unfold len. rewrite Nat2Z.id.
  rewrite (done_calls_ok _ (o :: objs) _ 0 Hv : done_calls _ 0 _ = _). exists st'.
  split; [done|]. split; [done|]. intros k. by rewrite Hk, Hd.
Qed.

(** ** The invariant *)

Definition in_flight (w : writer_pc) : list Obj :=
  match w with WCollect c | WFlush c | WCommit c _ => collected c | _ => [] end.

(** What the program counter of the writer tells. *)
Definition writer_ok (w : writer_pc) : Prop :=
  match w with
  | WCollect c | WFlush c => collects c (collected c) ∧ len (collected c) < optBatchSize
  | WCommit c _ => collects c (collected c) ∧ len (collected c) ≤ optBatchSize
  | WPanicked => False
  | _ => True
  end.

(** The writer has called [writeWg.Add] and not yet [writeWg.Done]. *)
Definition alive (w : writer_pc) : bool :=
  match w with WNone | WSpawned | WExited | WPanicked => false | _ => true end.

Fixpoint counted (ps : list enqueue_pc) : Z :=
  match ps with
  | [] => 0
  | ECounted _ :: ps => 1 + counted ps
  | _ :: ps => counted ps
  end.

Definition is_counted (p : enqueue_pc) : Z := match p with ECounted _ => 1 | _ => 0 end.

Lemma counted_insert ps i p q :
  ps !! i = Some p → counted (<[i:=q]> ps) = counted ps - is_counted p + is_counted q.
Proof.
  revert i. induction ps as [|r ps IH]; intros [|i] Hi; simplify_eq/=.
  - destruct p, q; cbn; lia.
  - specialize (IH i Hi). destruct r; cbn; lia.
Qed.

Lemma counted_nonneg ps : 0 ≤ counted ps.
Proof. induction ps as [|[] ps IH]; cbn; lia. Qed.

Lemma counted_le ps : counted ps ≤ len ps.
Proof. unfold len. induction ps as [|[] ps IH]; cbn [counted length]; lia. Qed.

Record inv (st : St) (s : BatchedWriter) : Prop := {
  inv_fifo : pushed s = concat (batches s) ++ in_flight (writer s) ++ batchQueue s;
  inv_done : done s = concat (batches s);
  inv_sizes : Forall (λ b, 1 ≤ len b ≤ optBatchSize) (batches s);
  inv_open : kv_open (bw_store s) = true;
  inv_content k : kv_content (bw_store s) k =
    last_write k (concat (batches s) ≫= mutations) (kv_content st k);
  inv_count : scheduledCount s = wrap I32 (len (batchQueue s) + counted (callers s));
  inv_queue : len (batchQueue s) ≤ optQueueSize;
  inv_writer : writer_ok (writer s);
  inv_wg : writeWg s = if alive (writer s) then 1 else 0;
  inv_started : running s = true → started s = true;
  inv_none : started s = false → writer s = WNone;
  inv_exited : writer s = WExited → running s = false;
  inv_stopping : stopping s = true → started s = true ∧ running s = false;
  inv_spawned : started s = true → writer s ≠ WNone;
}.

(** A caller moves, and with it the number of the counted objects. *)
Lemma set_caller_inv st i p q s :
  callers s !! i = Some p → is_counted p = is_counted q → inv st s → inv st (set_caller i q s).
Proof.
  intros Hi Hpq []. split; try done. cbn. rewrite (counted_insert _ _ _ _ Hi). rewrite inv_count0.
  f_equal.
  lia.
Qed.

Lemma auto_start_inv st s : inv st s → inv st (auto_start s).
Proof.
  intros Hi. unfold auto_start. destruct (started s) eqn:Es; [done|]. destruct Hi.
  destruct (running s) eqn:Er; [rewrite inv_started0 in Es; done|]. unfold startBatchWriter. rewrite Er.
  rewrite (inv_none0 Es) in *. split; cbn in *; try done. intros [? _]%inv_stopping0. congruence.
Qed.

Lemma auto_start_callers s : callers (auto_start s) = callers s.
Proof. unfold auto_start, startBatchWriter. by destruct (started s), (running s). Qed.

Lemma enqueue_count_inv st s i o :
  callers s !! i = Some (ERunning o) → inv st s → inv st (set_caller i (ECounted o) (count_object s)).
Proof.
  intros Hi []. split; try done. cbn. rewrite (counted_insert _ _ _ _ Hi), inv_count0, wrap_add.
  cbn [is_counted]. f_equal.
  lia.
Qed.

Lemma enqueue_send_inv st s i o :
  callers s !! i = Some (ECounted o) → len (batchQueue s) < optQueueSize →
  inv st s → inv st (set_caller i EIdle (send_object o s)).
Proof.
  intros Hi Hq []. split; try done; cbn.
  - by rewrite inv_fifo0, !app_assoc.
  - rewrite (counted_insert _ _ _ _ Hi), inv_count0, len_app. f_equal. unfold len. cbn. lia.
  - rewrite len_app. unfold len in *. cbn. lia.
Qed.

Lemma stop_begin_inv st s : inv st s → inv st (stop_begin s).
Proof.
  intros Hi. unfold stop_begin. destruct (running s) eqn:E; [|done]. destruct Hi. split; try done; cbn. auto.
Qed.

Lemma stop_return_inv st s : inv st s → inv st (stop_return s).
Proof. intros []. by split. Qed.

Lemma set_flush_inv st b s : inv st s → inv st (set_flush b s).
Proof. intros []. by split. Qed.

(** The writer moves on with the same objects. *)
Lemma set_wg_inv st wg w s :
  inv st s → in_flight w = in_flight (writer s) → writer_ok w → wg = (if alive w then 1 else 0) →
  (w = WExited → running s = false) → writer s ≠ WNone → w ≠ WNone → inv st (set_wg wg w s).
Proof.
  intros [] Hf Hok Hwg Hex Hn Hw. split; try done; cbn; [by rewrite Hf|].
  intros E. by destruct Hn; apply inv_none0.
Qed.

Lemma set_writer_inv st w s :
  inv st s → in_flight w = in_flight (writer s) → writer_ok w → alive w = alive (writer s) →
  w ≠ WExited → writer s ≠ WNone → w ≠ WNone → inv st (set_writer w s).
Proof.
  intros Hi Hf Hok Hal Hex Hn Hw. apply (set_wg_inv st (writeWg s) w s); try done.
  rewrite Hal. apply (inv_wg _ _ Hi).
Qed.

Hypothesis batch_size_pos : 1 ≤ optBatchSize.

Lemma collects_ok c objs : collects c objs → collects c (collected c) ∧ collected c = objs.
Proof. intros Hc. by rewrite (collects_collected _ _ Hc). Qed.

Lemma writer_loop_inv st s : writer s = WLoop → inv st s → inv st (writer_loop s).
Proof.
  intros Hw Hi. unfold writer_loop. destruct (_ || _) eqn:E.
  - destruct (new_collector_ok s) as (c & -> & Hc); [lia|apply (inv_open _ _ Hi)|].
    destruct (collects_ok _ _ Hc) as [Hc' E'].
    apply set_writer_inv; rewrite ?Hw; try done. split; [done|]. rewrite E'. unfold len. cbn. lia.
  - apply orb_false_iff in E as [Er _]. apply set_wg_inv; rewrite ?Hw; try done.
    rewrite (inv_wg _ _ Hi), Hw. done.
Qed.

Lemma writer_receive_inv st c (fl : bool) o queue s :
  writer s = (if fl then WFlush c else WCollect c) → batchQueue s = o :: queue →
  inv st s → inv st (writer_receive c fl o queue s).
Proof.
  intros Hw Hq []. rewrite Hq in *.
  assert (collects c (collected c) ∧ len (collected c) < optBatchSize) as [Hc Hlt].
  { rewrite Hw in inv_writer0. by destruct fl. }
  assert (in_flight (writer s) = collected c) as Hin by (rewrite Hw; by destruct fl).
  assert (alive (writer s) = true ∧ writer s ≠ WNone) as [Hal Hn] by (rewrite Hw; by destruct fl).
  unfold writer_receive. destruct (Add_ok c _ (scheduledCount s) o Hc Hlt) as (c' & -> & Hc').
  destruct (collects_ok _ _ Hc') as [Hc1 E1]. rewrite Hal, Hin in *.
  assert (len (collected c') = len (collected c) + 1) as El by (rewrite E1, len_app; done).
  destruct (Z.leb_spec optBatchSize (len (collected c) + 1)); destruct fl; split; cbn;
    rewrite ?El; try done; try lia;
    try (rewrite inv_fifo0, E1, <-!app_assoc; done);
    try (rewrite inv_count0; unfold Z.sub; rewrite wrap_add; f_equal; unfold len; cbn; lia);
    try (unfold len in *; cbn in *; lia); try (split; [done|lia]);
    intros; try (by destruct Hn; apply inv_none0).
Qed.

Lemma writer_commit_inv st c s :
  in_flight (writer s) = collected c → collects c (collected c) → len (collected c) ≤ optBatchSize →
  alive (writer s) = true → inv st s →
  ∃ s', writer_commit c s = Ret s' ∧ inv st s' ∧ writer s' = WLoop.
Proof.
  intros Hin Hc Hle Hal []. unfold writer_commit.
  destruct (Commit_ok c _ (bw_store s) Hc inv_open0) as (st' & -> & Ho & Hk). cbn.
  eexists. split; [reflexivity|]. split; [|done].
  assert (concat (match collected c with [] => batches s | _ => batches s ++ [collected c] end) =
    concat (batches s) ++ collected c) as E.
  { destruct (collected c) as [|o l]; [by rewrite app_nil_r|]. rewrite concat_app. cbn. by rewrite app_nil_r. }
  rewrite Hal, Hin in *. split; cbn; try done.
  - by rewrite inv_fifo0, E, <-app_assoc.
  - by rewrite inv_done0, E.
  - destruct (collected c) as [|o l] eqn:El; [done|]. apply Forall_app_2; [done|].
    constructor; [|constructor]. unfold len in *. cbn in *. lia.
  - intros k. by rewrite Hk, inv_content0, E, bind_app, last_write_app.
  - intros Hs%inv_none0. by rewrite Hs in Hal.
Qed.

Lemma writer_commit_then_inv st c fl s :
  in_flight (writer s) = collected c → collects c (collected c) → len (collected c) ≤ optBatchSize →
  alive (writer s) = true → inv st s → inv st (writer_commit_then c fl s).
Proof.
  intros Hin Hc Hle Hal Hi. unfold writer_commit_then.
  destruct (writer_commit_inv st c s Hin Hc Hle Hal Hi) as (s' & -> & Hi' & Hw'). cbn.
  destruct fl; [|done]. destruct (new_collector_ok s') as (c' & -> & Hc'); [lia|apply (inv_open _ _ Hi')|].
  destruct (collects_ok _ _ Hc') as [Hc1 E1]. cbn.
  apply set_writer_inv; rewrite ?Hw'; try done. split; [done|]. rewrite E1. unfold len. cbn. lia.
Qed.

Lemma step_inv st s s' : step s s' → inv st s → inv st s'.
Proof.
  intros Hstep Hi.
  assert (∀ c, writer s = WCollect c ∨ writer s = WFlush c →
    collects c (collected c) ∧ len (collected c) < optBatchSize) as Hcol.
  { intros c Hc. pose proof (inv_writer _ _ Hi) as E. by destruct Hc as [Hc|Hc]; rewrite Hc in E. }
  destruct Hstep.
  - by eapply set_caller_inv.
  - eapply set_caller_inv; [by rewrite auto_start_callers| |by apply auto_start_inv]. done.
  - eapply set_caller_inv; [done| |done]. by destruct (running s).
  - by eapply set_caller_inv.
  - by apply enqueue_count_inv.
  - by apply enqueue_send_inv.
  - by apply stop_begin_inv.
  - by apply stop_return_inv.
  - unfold Flush. destruct (running s); [by apply set_flush_inv|done].
  - apply set_wg_inv; rewrite ?H1; try done. by rewrite (inv_wg _ _ Hi), H1.
  - by apply writer_loop_inv.
  - by apply writer_receive_inv.
  - apply set_flush_inv, set_writer_inv; rewrite ?H1; try done. by apply Hcol; left.
  - destruct (Hcol c) as [? ?]; [by left|]. apply writer_commit_then_inv; rewrite ?H1; done || lia.
  - by apply writer_receive_inv.
  - destruct (Hcol c) as [? ?]; [by right|]. apply writer_commit_then_inv; rewrite ?H1; done || lia.
  - pose proof (inv_writer _ _ Hi) as E. rewrite H1 in E. destruct E.
    apply writer_commit_then_inv; rewrite ?H1; done.
Qed.

Lemma writer_inv_initial st n : 0 ≤ optQueueSize → kv_open st = true → inv st (NewBatchedWriter st n).
Proof.
  intros Hq Ho. split; cbn; try done. assert (counted (replicate n EIdle) = 0) as -> by (by induction n). done.
Qed.

Lemma writer_inv_reachable st n s :
  0 ≤ optQueueSize → kv_open st = true → reachable st n s → inv st s.
Proof.
  intros Hq Ho Hr. refine (rtc_ind_r (R := step) (inv st) (NewBatchedWriter st n) _ _ s Hr).
  - by apply writer_inv_initial.
  - intros y z _ Hstep Hi. by eapply step_inv.
Qed.

(** ** The counter and the exit *)

Lemma writer_receive_callers c fl o queue s : callers (writer_receive c fl o queue s) = callers s.
Proof. unfold writer_receive. by destruct (Add _ _ _) as [[[? ?] ?]|]. Qed.

Lemma writer_commit_then_callers c fl s : callers (writer_commit_then c fl s) = callers s.
Proof.
  unfold writer_commit_then, writer_commit. destruct (Commit _ _) as [[[st told] [e|]]|]; cbn; try done.
  destruct fl; [|done]. by destruct (new_collector _).
Qed.

Lemma writer_loop_callers s : callers (writer_loop s) = callers s.
Proof. unfold writer_loop. destruct (_ || _); [|done]. by destruct (new_collector s). Qed.

Lemma step_callers s s' : step s s' → length (callers s') = length (callers s).
Proof.
  destruct 1; cbn; rewrite ?length_insert, ?auto_start_callers, ?writer_receive_callers,
    ?writer_commit_then_callers, ?writer_loop_callers; try done.
  - unfold stop_begin. by destruct (running s).
  - unfold Flush. by destruct (running s).
Qed.

Lemma reachable_callers st n s : reachable st n s → length (callers s) = n.
Proof.
  intros Hr. refine (rtc_ind_r (R := step) (λ s, length (callers s) = n) (NewBatchedWriter st n) _ _ s Hr).
  - apply length_replicate.
  - intros y z _ Hstep <-. by apply step_callers.
Qed.

(** As long as the objects on their way fit an [int32], the counter counts them. *)
Lemma count_exact st n s :
  Z.of_nat n + optQueueSize ≤ ity_max I32 → reachable st n s → inv st s →
  scheduledCount s = len (batchQueue s) + counted (callers s).
Proof.
  intros Hn Hr Hi. rewrite (inv_count _ _ Hi). apply wrap_id. pose proof (inv_queue _ _ Hi).
  pose proof (counted_le (callers s)) as Hc. pose proof (counted_nonneg (callers s)).
  pose proof (len_nonneg (batchQueue s)). unfold len at 1 in Hc. rewrite (reachable_callers _ _ _ Hr) in Hc.
  pose proof (ity_min_0 I32). unfold in_range. lia.
Qed.

(** A step of the writer's goroutine. *)
Definition writer_moves (s s' : BatchedWriter) : Prop :=
  step s s' ∧ callers s' = callers s ∧ pushed s' = pushed s ∧ running s' = running s.

(** How far the writer is from an empty queue. *)
Definition distance (s : BatchedWriter) : nat :=
  (3 * length (batchQueue s) +
   match writer s with WCommit _ _ => 3 | WLoop => 2 | _ => 1 end)%nat.

Lemma receive_moves c (fl : bool) o queue s :
  collects c (collected c) → len (collected c) < optBatchSize → batchQueue s = o :: queue →
  (∀ s', s' = writer_receive c fl o queue s → step s s') →
  ∃ s', writer_moves s s' ∧ alive (writer s') = true ∧ (distance s' < 3 * length (batchQueue s) + 1)%nat.
Proof.
  intros Hc Hlt Hq Hstep. exists (writer_receive c fl o queue s).
  assert (step s (writer_receive c fl o queue s)) as Hst by auto. unfold writer_moves, distance. rewrite Hq.
  revert Hst. unfold writer_receive. destruct (Add_ok c _ (scheduledCount s) o Hc Hlt) as (c' & -> & Hc').
  intros Hst. split_and!; try done; destruct (_ <=? _), fl; cbn; done || lia.
Qed.

Lemma commit_moves st c (fl : bool) s :
  in_flight (writer s) = collected c → collects c (collected c) → len (collected c) ≤ optBatchSize →
  alive (writer s) = true → inv st s → step s (writer_commit_then c fl s) →
  ∃ s', writer_moves s s' ∧ alive (writer s') = true ∧ batchQueue s' = batchQueue s ∧
    if fl then ∃ c, writer s' = WFlush c else writer s' = WLoop.
Proof.
  intros Hin Hc Hle Hal Hi. unfold writer_commit_then, writer_moves.
  destruct (writer_commit_inv st c s Hin Hc Hle Hal Hi) as (s' & E & Hi' & Hw'). rewrite E. cbn.
  assert (callers s' = callers s ∧ pushed s' = pushed s ∧ running s' = running s ∧
    batchQueue s' = batchQueue s) as (? & ? & ? & ?).
  { revert E. unfold writer_commit. destruct (Commit _ _) as [[[? ?] [?|]]|]; cbn; intros [= <-]; done. }
  destruct fl; cbn.
  - destruct (new_collector_ok s') as (c' & -> & Hc'); [lia|apply (inv_open _ _ Hi')|]. cbn.
    intros Hst. eexists. split_and!; [exact Hst|..]; try done. by eexists.
  - intros Hst. exists s'. rewrite Hw'. by split_and!.
Qed.

Lemma loop_moves st n s :
  Z.of_nat n + optQueueSize ≤ ity_max I32 → reachable st n s → inv st s → writer s = WLoop →
  batchQueue s ≠ [] →
  ∃ s', writer_moves s s' ∧ alive (writer s') = true ∧ (distance s' < distance s)%nat.
Proof.
  intros Hn Hr Hi Hw Hq. assert (step s (writer_loop s)) as Hst by (by apply run_loop).
  exists (writer_loop s). revert Hst. unfold writer_moves, writer_loop.
  assert (running s || negb (scheduledCount s =? 0) = true) as ->.
  { apply orb_true_iff. right. apply negb_true_iff, Z.eqb_neq. rewrite (count_exact st n s Hn Hr Hi).
    pose proof (counted_nonneg (callers s)). destruct (batchQueue s); [done|]. unfold len. cbn. lia. }
  destruct (new_collector_ok s) as (c & -> & Hc); [lia|apply (inv_open _ _ Hi)|].
  intros Hst. split_and!; try done. unfold distance. rewrite Hw. cbn. lia.
Qed.

(** The writer leaves its loop at a counter of zero. *)
Lemma exit_counts s s' :
  step s s' → writer s ≠ WExited → writer s' = WExited → scheduledCount s' = 0.
Proof.
  intros Hst Hne. destruct Hst; cbn; try done.
  - unfold auto_start, startBatchWriter. by destruct (started s), (running s).
  - unfold stop_begin. by destruct (running s).
  - unfold Flush. by destruct (running s).
  - unfold writer_loop. destruct (_ || _) eqn:E; [by destruct (new_collector s)|].
    apply orb_false_iff in E as [_ E%negb_false_iff%Z.eqb_eq]. done.
  - unfold writer_receive. by destruct (Add _ _ _) as [[[? ?] []]|].
  - unfold writer_commit_then, writer_commit. destruct (Commit _ _) as [[[st told] [e|]]|]; cbn; done.
  - unfold writer_receive. by destruct (Add _ _ _) as [[[? ?] []]|].
  - unfold writer_commit_then, writer_commit. destruct (Commit _ _) as [[[st told] [e|]]|]; cbn; done.
  - unfold writer_commit_then, writer_commit. destruct (Commit _ _) as [[[st told] [e|]]|]; cbn; try done.
    destruct flushing; [|done]. by destruct (new_collector _).
Qed.

(** While the queue is not empty, the writer has a step that brings it nearer,
    and with an empty queue one that ends the batch. *)
Lemma writer_proceeds st n s :
  Z.of_nat n + optQueueSize ≤ ity_max I32 → reachable st n s → inv st s → alive (writer s) = true →
  (writer s = WLoop ∧ batchQueue s = []) ∨
  ∃ s', writer_moves s s' ∧ alive (writer s') = true ∧
    ((distance s' < distance s)%nat ∨ (writer s' = WLoop ∧ batchQueue s' = [])).
Proof.
  intros Hn Hr Hi Hal. pose proof (inv_writer _ _ Hi) as Hok.
  destruct (writer s) as [| | |c|c|c fl| |] eqn:Hw; try done; cbn in Hok.
  - destruct (batchQueue s) as [|o q] eqn:Hq; [by left|right].
    destruct (loop_moves st n s Hn Hr Hi Hw) as (s' & ? & ? & ?); [by rewrite Hq|]. exists s'. auto.
  - right. destruct Hok as [Hc Hlt]. destruct (batchQueue s) as [|o q] eqn:Hq.
    + destruct (commit_moves st c false s) as (s' & ? & ? & E & ?); rewrite ?Hw; try done; [lia|by apply run_timeout|].
      exists s'. rewrite E. auto.
    + destruct (receive_moves c false o q s Hc Hlt Hq) as (s' & ? & ? & ?).
      { intros ? ->. by eapply run_collect. }
      exists s'. split_and!; auto. left. unfold distance at 2. rewrite Hw. lia.
  - right. destruct Hok as [Hc Hlt]. destruct (batchQueue s) as [|o q] eqn:Hq.
    + destruct (commit_moves st c false s) as (s' & ? & ? & E & ?); rewrite ?Hw; try done; [lia|by apply run_flush_empty|].
      exists s'. rewrite E. auto.
    + destruct (receive_moves c true o q s Hc Hlt Hq) as (s' & ? & ? & ?).
      { intros ? ->. by eapply run_flush. }
      exists s'. split_and!; auto. left. unfold distance at 2. rewrite Hw. lia.
  - right. destruct Hok as [Hc Hle].
    destruct (commit_moves st c fl s) as (s' & ? & ? & E & Hw'); rewrite ?Hw; try done; [by apply run_commit|].
    exists s'. split_and!; auto. left. unfold distance. rewrite E, Hw.
    destruct fl; [destruct Hw' as [c' ->]|rewrite Hw']; lia.
Qed.

Lemma writer_drains st n s :
  Z.of_nat n + optQueueSize ≤ ity_max I32 → 0 ≤ optQueueSize → kv_open st = true →
  reachable st n s → alive (writer s) = true →
  ∃ s', rtc writer_moves s s' ∧ writer s' = WLoop ∧ batchQueue s' = [].
Proof.
  intros Hn Hq Ho. remember (distance s) as d eqn:Hd. revert s Hd.
  induction (lt_wf d) as [d _ IH]. intros s -> Hr Hal.
  destruct (writer_proceeds st n s) as [[Hw E]|(s' & Hm & Hal' & [Hlt|[Hw E]])];
    [done|done|by eapply writer_inv_reachable|done| | |].
  - exists s. by split_and!.
  - destruct (IH _ Hlt s' eq_refl) as (s2 & Hr2 & Hw2 & E2); [|done|].
    + eapply rtc_r; [exact Hr|apply Hm].
    + exists s2. split_and!; [by eapply rtc_l|done|done].
  - exists s'. split_and!; [by apply rtc_once|done|done].
Qed.

Lemma writer_moves_run s s' :
  rtc writer_moves s s' →
  rtc step s s' ∧ callers s' = callers s ∧ pushed s' = pushed s ∧ running s' = running s.
Proof.
  induction 1 as [s|s1 s2 s3 (Hst & H1' & H2' & H3') _ (IH1 & IH2 & IH3 & IH4)]; [by split_and!|].
  split_and!; [by eapply rtc_l|congruence..].
Qed.

(** C5: Whatever the goroutines do, the objects sent to the queue are exactly
    those of the committed batches, those the writer holds and those still
    queued, in the order in which they were sent: none is lost, repeated or
    overtaken.  Every batch has between one object and [batchSize] many,
    [BatchWriteDone] was called once for every object of a committed batch and
    for no other, the store holds what the objects of the committed batches
    write in that order, and the writer does not panic. *)
Theorem BatchedWriter_fifo st n s :
  0 ≤ optQueueSize → kv_open st = true → reachable st n s →
  pushed s = concat (batches s) ++ in_flight (writer s) ++ batchQueue s ∧
  Forall (λ b, 1 ≤ len b ≤ optBatchSize) (batches s) ∧
  done s = concat (batches s) ∧
  (∀ k, kv_content (bw_store s) k =
    last_write k (concat (batches s) ≫= mutations) (kv_content st k)) ∧
  writer s ≠ WPanicked.
Proof.
  intros Hq Ho Hr. destruct (writer_inv_reachable st n s Hq Ho Hr). split_and!; try done. intros E. by rewrite E in *.
Qed.

(** C33: The writer never gets stuck and leaves only when its work is done.  As
    long as the objects under way fit the [int32] counter: from every state in
    which it runs it can go on by itself until every object sent is persisted,
    and then, when it was stopped and no caller is in the middle of a send,
    leaves; it leaves only when everything sent so far is persisted and nobody
    is about to send; and when [StopBatchWriter] returns, the writer has left
    or has not yet registered with the wait group. *)
Theorem BatchedWriter_stop st n s :
  0 ≤ optQueueSize → Z.of_nat n + optQueueSize ≤ ity_max I32 → kv_open st = true → reachable st n s →
  (alive (writer s) = true →
    ∃ s', rtc writer_moves s s' ∧ concat (batches s') = pushed s ∧
      (running s = false → counted (callers s) = 0 → writer (writer_loop s') = WExited)) ∧
  (∀ s', step s s' → writer s ≠ WExited → writer s' = WExited →
    concat (batches s') = pushed s' ∧ batchQueue s' = [] ∧ counted (callers s') = 0) ∧
  (stopping s = true → writeWg s = 0 → writer s = WExited ∨ writer s = WSpawned).
Proof.
  intros Hq Hn Ho Hr. pose proof (writer_inv_reachable st n s Hq Ho Hr) as Hi. split_and!.
  - intros Hal. destruct (writer_drains st n s Hn Hq Ho Hr Hal) as (s' & Hm & Hw & Eq).
    destruct (writer_moves_run _ _ Hm) as (Hrun & Ec & Ep & Er).
    assert (reachable st n s') as Hr' by (unfold reachable in *; by etrans).
    pose proof (writer_inv_reachable st n s' Hq Ho Hr') as Hi'.
    pose proof (inv_fifo _ _ Hi') as Hf. rewrite Hw, Eq in Hf. cbn in Hf. rewrite app_nil_r in Hf.
    exists s'. split_and!; [done|congruence|]. intros Hstop Hc.
    unfold writer_loop. rewrite Er, Hstop. pose proof (count_exact st n s' Hn Hr' Hi') as E.
    rewrite Eq, Ec, Hc in E. by rewrite E.
  - intros s' Hst Hne Hex. assert (reachable st n s') as Hr' by (by eapply rtc_r).
    pose proof (writer_inv_reachable st n s' Hq Ho Hr') as Hi'. pose proof (exit_counts s s' Hst Hne Hex) as Hc.
    pose proof (count_exact st n s' Hn Hr' Hi') as E. rewrite Hc in E.
    pose proof (counted_nonneg (callers s')). pose proof (len_nonneg (batchQueue s')).
    assert (batchQueue s' = []) as Eq by (destruct (batchQueue s'); [done|]; unfold len in *; cbn in *; lia).
    pose proof (inv_fifo _ _ Hi') as Hf. rewrite Hex, Eq in Hf. cbn in Hf. rewrite app_nil_r in Hf.
    split_and!; [done|done|lia].
  - intros Hs Hwg. pose proof (inv_wg _ _ Hi) as E. destruct (inv_stopping _ _ Hi Hs) as [Hst _].
    pose proof (inv_spawned _ _ Hi Hst). pose proof (inv_writer _ _ Hi).
    destruct (writer s); cbn in *; auto; try done; lia.
Qed.

End BatchedWriter.

(** ** Runs on an in-memory store *)

Section Runs.

#[local] Instance whole_store : KVStore shared := mapDB_KVStore [].
#[local] Instance whole_store_laws : KVStoreLaws shared := mapDB_laws [].

(** An object is a byte that is written under itself. *)
Definition puts (o : byte) : list mutation := [MutSet [o] [o]].
Definition store0 : shared := NewMapDB.1.

#[local] Notation writer_t := (BatchedWriter (St := shared) (Obj := byte)).

(** A caller has seen that the writer runs, which it has started itself. *)
Definition calling : writer_t :=
  set_caller 0 (ERunning x01) (set_caller 0 (ECheck x01) (auto_start
    (set_caller 0 (EStart x01) (NewBatchedWriter store0 1)))).

(** It sends its object. *)
Definition sending (s : writer_t) : writer_t :=
  set_caller 0 EIdle (send_object x01 (set_caller 0 (ECounted x01) (count_object s))).

Definition enqueued : writer_t := sending calling.

Lemma calling_reachable z : reachable puts 10 z store0 1 calling.
Proof.
  eapply rtc_l; [by apply (enqueue_call _ _ _ _ 0 x01)|].
  eapply rtc_l; [by apply (enqueue_start _ _ _ _ 0 x01)|].
  eapply rtc_l; [by apply (enqueue_check _ _ _ _ 0 x01)|]. apply rtc_refl.
Qed.

Lemma sending_reachable z s :
  reachable puts 10 z store0 1 s → callers s = [ERunning x01] → batchQueue s = [] →
  reachable puts 10 z store0 1 (sending s).
Proof.
  intros Hr Hc Hq. eapply rtc_r; [eapply rtc_r; [exact Hr|]|].
  - apply (enqueue_count _ _ _ s 0 x01). by rewrite Hc.
  - apply (enqueue_send _ _ _ (set_caller 0 (ECounted x01) (count_object s)) 0 x01); cbn; [by rewrite Hc|by rewrite Hq].
Qed.

Lemma enqueued_reachable z : reachable puts 10 z store0 1 enqueued.
Proof. by apply sending_reachable; [apply calling_reachable| |]. Qed.

(** [StopBatchWriter] can return while an enqueued object is not written: the
    goroutine registers with the wait group itself, and may not have done so. *)
Lemma stop_returns_early :
  ∃ s, reachable puts 10 10 store0 1 s ∧ running s = false ∧ stopping s = false ∧
    writer s = WSpawned ∧ batchQueue s = [x01] ∧ batches s = [].
Proof.
  exists (stop_return (stop_begin enqueued)). split_and!; try done.
  eapply rtc_r; [eapply rtc_r; [apply enqueued_reachable|by apply stop_call]|]. by apply stop_wait.
Qed.

(** An object whose [Enqueue] overlaps [StopBatchWriter] can stay in the queue
    of a writer that has left. *)
Lemma object_left_behind :
  ∃ s, reachable puts 10 10 store0 1 s ∧ writer s = WExited ∧ batchQueue s = [x01] ∧ callers s = [EIdle].
Proof.
  exists (sending (writer_loop 10 (set_wg 1 WLoop (stop_begin calling)))). split_and!; try done.
  apply sending_reachable; [|done|done].
  eapply rtc_r; [eapply rtc_r; [eapply rtc_r; [apply calling_reachable|by apply stop_call]|]|].
  - by apply (run_spawned _ _ _ (stop_begin calling)).
  - by apply run_loop.
Qed.

(** The writer at its loop with one object in the queue, and then with a
    collector. *)
Definition looping : writer_t := set_wg 1 WLoop enqueued.

Definition collecting (z : Z) : writer_t :=
  set_writer (WCollect (mkCollector (Batch ∅ ∅) z (replicate (Z.to_nat z) None) 0 false)) looping.

Lemma collecting_reachable z : 0 ≤ z → reachable puts 10 z store0 1 (collecting z).
Proof.
  intros Hz. assert (collecting z = writer_loop z looping) as ->.
  { unfold writer_loop, new_collector. cbn. unfold newBatchCollector. by rewrite (proj2 (Z.ltb_ge z 0)) by lia. }
  eapply rtc_r; [eapply rtc_r; [apply enqueued_reachable|by apply run_spawned]|]. by apply run_loop.
Qed.

(** A collector of size 0 cannot take an object: the writer panics. *)
Lemma batch_size_zero_panics :
  ∃ s, reachable puts 10 0 store0 1 s ∧ writer s = WPanicked.
Proof.
  eexists. split; [|shelve].
  eapply rtc_r; [by apply (collecting_reachable 0)|by eapply run_collect].
  Unshelve. done.
Qed.

(** The batch of one object is committed. *)
Definition one_written : writer_t :=
  let s := writer_receive puts
    (mkCollector (Batch ∅ ∅) 1 [None] 0 false) false x01 [] (collecting 1) in
  match writer s with WCommit c fl => writer_commit_then 1 c fl s | _ => s end.

Lemma one_written_reachable : reachable puts 10 1 store0 1 one_written.
Proof.
  eapply rtc_r; [eapply rtc_r; [by apply (collecting_reachable 1)|by eapply run_collect]|]. by apply run_commit.
Qed.

Lemma BatchedWriter_fifo_witness :
  batches one_written = [[x01]] ∧
  kv_content (bw_store one_written) [x01] = Some [x01].
Proof.
  split; [reflexivity|].
  destruct (BatchedWriter_fifo (H0 := whole_store_laws) puts 10 1 ltac:(lia) store0 1 one_written ltac:(lia) eq_refl one_written_reachable)
    as (_ & _ & _ & Hk & _).
  exact (Hk [x01]).
Defined.

Lemma BatchedWriter_stop_witness :
  ∃ s', rtc (writer_moves puts 10 1) looping s' ∧ concat (batches s') = [x01].
Proof.
  assert (reachable puts 10 1 store0 1 looping) as Hr.
  { eapply rtc_r; [apply enqueued_reachable|by apply run_spawned]. }
  destruct (BatchedWriter_stop (H0 := whole_store_laws) puts 10 1 ltac:(lia) store0 1 looping ltac:(lia) ltac:(done) eq_refl Hr) as (Hd & _).
  destruct (Hd eq_refl) as (s' & Hm & E & _). exists s'. split; [exact Hm|exact E].
Defined.

End Runs.
