(* ===== verification/FlushKV.v ===== *)
(** * kvstore/flushkv: a store that flushes every change

    [src/kvstore/flushkv/flushkv.go] wraps a store of the interface of KVStore.v
    and is a store of that interface again.  Its state is the state of the
    wrapped store, and its batches are batches of the wrapped store. *)

From S2P Require Import Prelude Bytes KVStore MapDB.

Section FlushKV.
Context {S : Type} `{base : !KVStore S}.

(** [if err := ...; err != nil { return err }; return s.store.Flush()]. *)
Definition then_flush (r : S * option error) : S * option error :=
  match r with
  | (s, Some err) => (s, Some err)
  | (s, None) => kv_Flush s
  end.

Definition Get (s : S) (key : Key) : Value + error := kv_Get s key.
Definition Has (s : S) (key : Key) : bool + error := kv_Has s key.
Definition Set_ (s : S) (key : Key) (value : Value) : S * option error := then_flush (kv_Set s key value).
Definition Delete (s : S) (key : Key) : S * option error := then_flush (kv_Delete s key).
Definition DeletePrefix (s : S) (prefix : Key) : S * option error := then_flush (kv_DeletePrefix s prefix).
Definition Clear (s : S) : S * option error := then_flush (kv_Clear s).
Definition Iterate (s : S) (prefix : Key) (d : IterDirection) : list (Key * Value) + error := kv_Iterate s prefix d.
Definition IterateKeys (s : S) (prefix : Key) (d : IterDirection) : list Key + error := kv_IterateKeys s prefix d.
Definition Flush (s : S) : S * option error := kv_Flush s.
Definition Close (s : S) : S * option error := kv_Close s.

Definition Batched (s : S) : kv_Batch + error := kv_Batched s.
Definition BSet (b : kv_Batch) (key : Key) (value : Value) : kv_Batch * option error := kv_BSet b key value.
Definition BDelete (b : kv_Batch) (key : Key) : kv_Batch * option error := kv_BDelete b key.
Definition Cancel (b : kv_Batch) : kv_Batch := kv_BCancel b.
Definition Commit (s : S) (b : kv_Batch) : S * option error := then_flush (kv_Commit s b).

Definition flushKVStore : KVStore S := {|
  kv_Get := Get;
  kv_Has := Has;
  kv_Set := Set_;
  kv_Delete := Delete;
  kv_DeletePrefix := DeletePrefix;
  kv_Clear := Clear;
  kv_Iterate := Iterate;
  kv_IterateKeys := IterateKeys;
  kv_Flush := Flush;
  kv_Close := Close;
  kv_Batch := kv_Batch;
  kv_Batched := Batched;
  kv_BSet := BSet;
  kv_BDelete := BDelete;
  kv_BCancel := Cancel;
  kv_Commit := Commit;
|}.

End FlushKV.

(** ** The wrapper keeps the laws *)

Section Laws.
Context {S : Type} `{base : !KVStore S} `{laws : !KVStoreLaws S}.

Lemma then_flush_ok (r : S * option error) s' (c : Key → option Value) :
  r = (s', None) → kv_open s' = true → (∀ k, kv_content s' k = c k) →
  ∃ s'', then_flush r = (s'', None) ∧ kv_open s'' = true ∧ ∀ k, kv_content s'' k = c k.
Proof.
  intros -> Ho Hc. destruct (flush_ok s' Ho) as (s'' & E & Ho' & Hf). exists s''.
  split_and!; [done..|]. intros k. by rewrite Hf.
Qed.

Lemma then_flush_closed (r : S * option error) s :
  r = (s, Some ErrStoreClosed) → then_flush r = (s, Some ErrStoreClosed).
Proof. by intros ->. Qed.

Definition flushKVStore_laws : @KVStoreLaws S flushKVStore.
Proof.
  refine (@Build_KVStoreLaws S flushKVStore (@kv_open S base laws) (@kv_content S base laws)
    _ _ _ _ _ _ _ _ _ _ (@kv_pending S base laws) _ _ _ _ _).
  - exact (@law_get S base laws).
  - exact (@law_has S base laws).
  - intros s k v. pose proof (law_set s k v) as E. destruct (kv_open s); [|by apply then_flush_closed].
    destruct E as (s' & E & Ho & Hc). by eapply then_flush_ok.
  - intros s k. pose proof (law_delete s k) as E. destruct (kv_open s); [|by apply then_flush_closed].
    destruct E as (s' & E & Ho & Hc). by eapply then_flush_ok.
  - intros s p. pose proof (law_delete_prefix s p) as E. destruct (kv_open s); [|by apply then_flush_closed].
    destruct E as (s' & E & Ho & Hc). by eapply then_flush_ok.
  - intros s. pose proof (law_clear s) as E. destruct (kv_open s); [|by apply then_flush_closed].
    destruct E as (s' & E & Ho & Hc). by eapply then_flush_ok.
  - exact (@law_iterate S base laws).
  - exact (@law_iterate_keys S base laws).
  - exact (@law_flush S base laws).
  - exact (@law_close S base laws).
  - exact (@law_batched S base laws).
  - exact (@law_bset S base laws).
  - exact (@law_bdelete S base laws).
  - exact (@law_bcancel S base laws).
  - intros s b. pose proof (@law_commit S base laws s b) as E. destruct (kv_open s); [|by apply then_flush_closed].
    destruct E as (s' & E & Ho & Hc). by eapply then_flush_ok.
Defined.

End Laws.

(** ** Calls *)

(** The writing calls of a store. *)
Inductive wop : Type :=
  | WSet (k : Key) (v : Value)
  | WDelete (k : Key)
  | WDeletePrefix (p : Key)
  | WClear
  | WCommit (sets : list (Key * Value)) (deletes : list Key).

(** Filling a batch. *)
Definition fill {S} `{KVStore S} (b : kv_Batch) (sets : list (Key * Value)) (deletes : list Key) : kv_Batch :=
  fold_left (λ b k, (kv_BDelete b k).1) deletes
    (fold_left (λ b e, (kv_BSet b e.1 e.2).1) sets b).

Definition write {S} `{KVStore S} (s : S) (o : wop) : S * option error :=
  match o with
  | WSet k v => kv_Set s k v
  | WDelete k => kv_Delete s k
  | WDeletePrefix p => kv_DeletePrefix s p
  | WClear => kv_Clear s
  | WCommit sets deletes =>
      match kv_Batched s with
      | inl b => kv_Commit s (fill b sets deletes)
      | inr err => (s, Some err)
      end
  end.

Lemma write_flush {S} `{base : !KVStore S} (s : S) o :
  write (H := flushKVStore) s o = then_flush (write s o) ∨
  ∃ err, write (H := flushKVStore) s o = (s, Some err) ∧ write s o = (s, Some err).
Proof.
  destruct o as [k v|k|p| |sets deletes]; try (by left).
  simpl. unfold Batched. destruct (kv_Batched s) as [b|err]; [by left|right]. by exists err.
Qed.

(** ** Property *)

(** The flushing store changes nothing but durability.  Over a store that
    keeps the laws, a writing call of the wrapper (batches included) reports the
    error that the call of the wrapped store reports and leaves the same
    content; and whatever being flushed means for the wrapped store, as long as
    a successful [Flush] establishes it, it holds after every successful
    writing call of the wrapper. *)
Lemma FlushKV_flushes {S} `{base : !KVStore S} `{laws : !KVStoreLaws S} (flushed : S → Prop) (s : S) (o : wop) :
  (∀ s s', kv_Flush s = (s', None) → flushed s') →
  (write (H := flushKVStore) s o).2 = (write s o).2 ∧
  (∀ k, kv_content (write (H := flushKVStore) s o).1 k = kv_content (write s o).1 k) ∧
  ((write (H := flushKVStore) s o).2 = None → flushed (write (H := flushKVStore) s o).1).
Proof.
  intros Hflush. destruct (write_flush s o) as [-> |(err & -> & ->)]; [|done].
  destruct (write s o) as [s' [err|]] eqn:E; [done|]. simpl.
  assert (kv_open s' = true) as Ho.
  { destruct o as [k v|k|p| |sets deletes]; simpl in E.
    - pose proof (law_set s k v) as L. destruct (kv_open s); [destruct L as (? & L & ? & _)|]; congruence.
    - pose proof (law_delete s k) as L. destruct (kv_open s); [destruct L as (? & L & ? & _)|]; congruence.
    - pose proof (law_delete_prefix s p) as L. destruct (kv_open s); [destruct L as (? & L & ? & _)|]; congruence.
    - pose proof (law_clear s) as L. destruct (kv_open s); [destruct L as (? & L & ? & _)|]; congruence.
    - destruct (kv_Batched s) as [b|]; [|done]. pose proof (law_commit s (fill b sets deletes)) as L.
      destruct (kv_open s); [destruct L as (? & L & ? & _)|]; congruence. }
  destruct (flush_ok s' Ho) as (s'' & Ef & _ & Hc). rewrite Ef. split_and!; [done..|].
  intros _. simpl. by eapply Hflush.
Qed.

Lemma FlushKV_flushes_witness :
  closed (write (H := flushKVStore (base := mapDB_KVStore [])) NewMapDB.1 (WCommit [([x01], [x02])] [[x03]])).1 = false.
Proof.
  apply (FlushKV_flushes (base := mapDB_KVStore []) (laws := mapDB_laws []) (λ s, closed s = false)
    NewMapDB.1 (WCommit [([x01], [x02])] [[x03]])); [|reflexivity].
  intros s s'. simpl. unfold MapDB.Flush. destruct (closed s) eqn:E; [done|]. by intros [= <-].
Defined.
