(* ===== verification/DebugKV.v ===== *)
(** * kvstore/debug: a store that reports its calls

    [src/kvstore/debug/debug.go] wraps a store of the interface of KVStore.v.  The
    state is that of the wrapped store; a method returns the calls of the access
    callback along with what the method of the wrapped store returns. *)

From S2P Require Import Prelude Bytes BitMask KVStore MapDB.

Definition IterateCommand : Z := bit 0.
Definition IterateKeysCommand : Z := bit 1.
Definition ClearCommand : Z := bit 2.
Definition GetCommand : Z := bit 3.
Definition SetCommand : Z := bit 4.
Definition HasCommand : Z := bit 5.
Definition DeleteCommand : Z := bit 6.
Definition DeletePrefixCommand : Z := bit 7.
Definition ShutdownCommand : Z := 0.
Definition AllCommands : Z :=
  Z.lor (Z.lor (Z.lor (Z.lor (Z.lor (Z.lor (Z.lor IterateCommand IterateKeysCommand) ClearCommand) GetCommand) SetCommand)
    HasCommand) DeleteCommand) DeletePrefixCommand.

(** A call of the access callback. *)
Definition access : Type := Z * list (list byte).

(** The wrapper without the wrapped store: whether there is a callback, and the filter. *)
Record debugStore : Type := mkDebug {
  accessCallback : bool;
  accessCallbackCommandsFilter : Z;
}.

Definition New (callback : bool) (commandsFilter : list Z) : debugStore :=
  mkDebug callback (match commandsFilter with [] => AllCommands | _ => fold_left Z.lor commandsFilter 0 end).

Definition report (d : debugStore) (command : Z) (parameters : list (list byte)) : list access :=
  if accessCallback d && HasBits (accessCallbackCommandsFilter d) command then [(command, parameters)] else [].

Section debug.
Context {S : Type} `{base : !KVStore S}.
Implicit Types (d : debugStore) (s : S).

Definition Iterate d s (prefix : Key) (dir : IterDirection) : list access * (list (Key * Value) + error) :=
  (report d IterateCommand [prefix], kv_Iterate s prefix dir).
Definition IterateKeys d s (prefix : Key) (dir : IterDirection) : list access * (list Key + error) :=
  (report d IterateKeysCommand [prefix], kv_IterateKeys s prefix dir).
Definition Clear d s : list access * (S * option error) := (report d ClearCommand [], kv_Clear s).
Definition Get d s (key : Key) : list access * (Value + error) := (report d GetCommand [key], kv_Get s key).
Definition Set_ d s (key : Key) (value : Value) : list access * (S * option error) :=
  (report d SetCommand [key; value], kv_Set s key value).
Definition Has d s (key : Key) : list access * (bool + error) := (report d HasCommand [key], kv_Has s key).
Definition Delete d s (key : Key) : list access * (S * option error) := (report d DeleteCommand [key], kv_Delete s key).
Definition DeletePrefix d s (prefix : Key) : list access * (S * option error) :=
  (report d DeletePrefixCommand [prefix], kv_DeletePrefix s prefix).
Definition Flush d s : list access * (S * option error) := ([], kv_Flush s).
Definition Close d s : list access * (S * option error) := ([], kv_Close s).

(** A batch keeps the callback and the filter of its store. *)
Definition Batched d s : (debugStore * kv_Batch) + error :=
  match kv_Batched s with
  | inr err => inr err
  | inl batchedMutation => inl (d, batchedMutation)
  end.
Definition BSet (b : debugStore * kv_Batch) (key : Key) (value : Value) : list access * (debugStore * kv_Batch * option error) :=
  let '(u, err) := kv_BSet b.2 key value in (report b.1 SetCommand [key; value], (b.1, u, err)).
Definition BDelete (b : debugStore * kv_Batch) (key : Key) : list access * (debugStore * kv_Batch * option error) :=
  let '(u, err) := kv_BDelete b.2 key in (report b.1 DeleteCommand [key], (b.1, u, err)).
Definition Cancel (b : debugStore * kv_Batch) : debugStore * kv_Batch := (b.1, kv_BCancel b.2).
Definition Commit s (b : debugStore * kv_Batch) : list access * (S * option error) := ([], kv_Commit s b.2).

(** ** Runs *)

Inductive dop : Type :=
  | DIterate (prefix : Key) (dir : IterDirection) | DIterateKeys (prefix : Key) (dir : IterDirection)
  | DClear | DGet (key : Key) | DSet (key : Key) (value : Value) | DHas (key : Key)
  | DDelete (key : Key) | DDeletePrefix (prefix : Key) | DFlush | DClose
  | DBatched | DBSet (key : Key) (value : Value) | DBDelete (key : Key) | DCancel | DCommit.

Inductive dres : Type :=
  | RErr (err : option error) | REntries (r : list (Key * Value) + error) | RKeys (r : list Key + error)
  | RValue (r : Value + error) | RBool (r : bool + error) | RNoBatch.

(** A call, on the store and the batch that was opened last. *)
Definition dstep d (st : S * option (debugStore * kv_Batch)) (o : dop) : list access * (S * option (debugStore * kv_Batch) * dres) :=
  let '(s, b) := st in
  let write (r : list access * (S * option error)) := (r.1, (r.2.1, b, RErr r.2.2)) in
  let read {A} (wrap : A → dres) (r : list access * A) := (r.1, (s, b, wrap r.2)) in
  match o with
  | DIterate p dir => read REntries (Iterate d s p dir)
  | DIterateKeys p dir => read RKeys (IterateKeys d s p dir)
  | DClear => write (Clear d s)
  | DGet k => read RValue (Get d s k)
  | DSet k v => write (Set_ d s k v)
  | DHas k => read RBool (Has d s k)
  | DDelete k => write (Delete d s k)
  | DDeletePrefix p => write (DeletePrefix d s p)
  | DFlush => write (Flush d s)
  | DClose => write (Close d s)
  | DBatched => match Batched d s with inl b => ([], (s, Some b, RErr None)) | inr err => ([], (s, None, RErr (Some err))) end
  | DBSet k v => match b with Some b => let '(l, (b, err)) := BSet b k v in (l, (s, Some b, RErr err)) | None => ([], (s, b, RNoBatch)) end
  | DBDelete k => match b with Some b => let '(l, (b, err)) := BDelete b k in (l, (s, Some b, RErr err)) | None => ([], (s, b, RNoBatch)) end
  | DCancel => match b with Some b => ([], (s, Some (Cancel b), RErr None)) | None => ([], (s, b, RNoBatch)) end
  | DCommit => match b with Some b => let '(l, (s, err)) := Commit s b in (l, (s, Some b, RErr err)) | None => ([], (s, b, RNoBatch)) end
  end.

Fixpoint drun d (st : S * option (debugStore * kv_Batch)) (ops : list dop) : list access * (S * option (debugStore * kv_Batch) * list dres) :=
  match ops with
  | [] => ([], (st, []))
  | o :: ops =>
      let '(l, (st, r)) := dstep d st o in
      let '(l', (st, rs)) := drun d st ops in
      (l ++ l', (st, r :: rs))
  end.

(** The same call on the wrapped store. *)
Definition ustep (st : S * option kv_Batch) (o : dop) : S * option kv_Batch * dres :=
  let '(s, b) := st in
  let write (r : S * option error) := (r.1, b, RErr r.2) in
  match o with
  | DIterate p dir => (s, b, REntries (kv_Iterate s p dir))
  | DIterateKeys p dir => (s, b, RKeys (kv_IterateKeys s p dir))
  | DClear => write (kv_Clear s)
  | DGet k => (s, b, RValue (kv_Get s k))
  | DSet k v => write (kv_Set s k v)
  | DHas k => (s, b, RBool (kv_Has s k))
  | DDelete k => write (kv_Delete s k)
  | DDeletePrefix p => write (kv_DeletePrefix s p)
  | DFlush => write (kv_Flush s)
  | DClose => write (kv_Close s)
  | DBatched => match kv_Batched s with inl b => (s, Some b, RErr None) | inr err => (s, None, RErr (Some err)) end
  | DBSet k v => match b with Some b => let '(b, err) := kv_BSet b k v in (s, Some b, RErr err) | None => (s, b, RNoBatch) end
  | DBDelete k => match b with Some b => let '(b, err) := kv_BDelete b k in (s, Some b, RErr err) | None => (s, b, RNoBatch) end
  | DCancel => match b with Some b => (s, Some (kv_BCancel b), RErr None) | None => (s, b, RNoBatch) end
  | DCommit => match b with Some b => let '(s, err) := kv_Commit s b in (s, Some b, RErr err) | None => (s, b, RNoBatch) end
  end.

Fixpoint urun (st : S * option kv_Batch) (ops : list dop) : S * option kv_Batch * list dres :=
  match ops with
  | [] => (st, [])
  | o :: ops => let '(st, r) := ustep st o in let '(st, rs) := urun st ops in (st, r :: rs)
  end.

(** The call that the callback gets to see, when a batch is open for those of a batch. *)
Definition seen (open : bool) (o : dop) : option access :=
  match o with
  | DIterate p _ => Some (IterateCommand, [p])
  | DIterateKeys p _ => Some (IterateKeysCommand, [p])
  | DClear => Some (ClearCommand, [])
  | DGet k => Some (GetCommand, [k])
  | DSet k v => Some (SetCommand, [k; v])
  | DHas k => Some (HasCommand, [k])
  | DDelete k => Some (DeleteCommand, [k])
  | DDeletePrefix p => Some (DeletePrefixCommand, [p])
  | DBSet k v => if open then Some (SetCommand, [k; v]) else None
  | DBDelete k => if open then Some (DeleteCommand, [k]) else None
  | DFlush | DClose | DBatched | DCancel | DCommit => None
  end.

Fixpoint seen_run (st : S * option kv_Batch) (ops : list dop) : list access :=
  match ops with
  | [] => []
  | o :: ops => option_list (seen (bool_decide (is_Some st.2)) o) ++ seen_run (ustep st o).1 ops
  end.

(** The wrapper in front of a state of the wrapped store. *)
Definition wrapped d (st : S * option kv_Batch) : S * option (debugStore * kv_Batch) := (st.1, (d,.) <$> st.2).

Definition selected d (a : access) : bool := accessCallback d && HasBits (accessCallbackCommandsFilter d) a.1.

Lemma report_selected d c ps : report d c ps = List.filter (selected d) [(c, ps)].
Proof. unfold report, selected. cbn. by destruct (_ && _). Qed.

Lemma dstep_ustep d st o :
  dstep d (wrapped d st) o =
    (List.filter (selected d) (option_list (seen (bool_decide (is_Some st.2)) o)), (wrapped d (ustep st o).1, (ustep st o).2)).
Proof.
  destruct st as [s b]. unfold wrapped. destruct o; cbn; try (by rewrite report_selected); try done.
  - unfold Batched. by destruct (kv_Batched s).
  - destruct b as [b|]; [|done]. cbn. unfold BSet. cbn. destruct (kv_BSet b key value). cbn. by rewrite report_selected.
  - destruct b as [b|]; [|done]. cbn. unfold BDelete. cbn. destruct (kv_BDelete b key). cbn. by rewrite report_selected.
  - by destruct b.
  - destruct b as [b|]; [|done]. cbn. by destruct (kv_Commit s b).
Qed.
End debug.

(** ** The filter *)

(** One of the eight commands that are reported, or [ShutdownCommand]. *)
Definition is_command (c : Z) : Prop := c = ShutdownCommand ∨ ∃ i, 0 ≤ i < 8 ∧ c = bit i.

Lemma lor_all_testbit cs m i : Z.testbit (fold_left Z.lor cs m) i = Z.testbit m i || existsb (λ c, Z.testbit c i) cs.
Proof.
  revert m. induction cs as [|c cs IH]; intros m; cbn; [by rewrite orb_false_r|]. by rewrite IH, Z.lor_spec, orb_assoc.
Qed.

Lemma command_testbit c i : is_command c → 0 ≤ i < 8 → Z.testbit c i = bool_decide (c = bit i).
Proof.
  intros Hc Hi. assert (Z.testbit (bit i) i = true) as Hb.
  { rewrite bit_testbit, Z.eqb_refl by lia. cbn. apply Z.ltb_lt; lia. }
  destruct Hc as [->|(j & Hj & ->)].
  - unfold ShutdownCommand. rewrite Z.bits_0. symmetry. apply bool_decide_eq_false. intros E. by rewrite <-E, Z.bits_0 in Hb.
  - rewrite bit_testbit by lia. destruct (Z.eqb_spec i j) as [->|Hne]; cbn [andb].
    + rewrite bool_decide_eq_true_2 by done. apply Z.ltb_lt; lia.
    + symmetry. apply bool_decide_eq_false. intros E. rewrite <-E, bit_testbit in Hb by lia. apply andb_true_iff in Hb as [?%Z.eqb_eq _]. lia.
Qed.

Lemma New_selects callback cs a i :
  Forall is_command cs → 0 ≤ i < 8 → a.1 = bit i →
  selected (New callback cs) a = callback && (bool_decide (cs = []) || bool_decide (a.1 ∈ cs)).
Proof.
  intros Hcs Hi Ha. unfold selected. destruct callback; [|done]. cbn [New accessCallback accessCallbackCommandsFilter andb]. rewrite Ha.
  change (HasBits ?m (bit i)) with (HasBit m i). rewrite HasBit_testbit by lia. rewrite (proj2 (Z.ltb_lt i 8)), andb_true_r by lia.
  destruct cs as [|c cs].
  - assert (i = 0 ∨ i = 1 ∨ i = 2 ∨ i = 3 ∨ i = 4 ∨ i = 5 ∨ i = 6 ∨ i = 7) as E by lia.
    by destruct E as [->|[->|[->|[->|[->|[->|[->| ->]]]]]]].
  - rewrite bool_decide_eq_false_2 by done. rewrite lor_all_testbit, Z.bits_0, !orb_false_l.
    apply eq_true_iff_eq. rewrite bool_decide_eq_true, existsb_exists. rewrite Forall_forall in Hcs. split.
    + intros (x & Hx%list_elem_of_In & Hb). rewrite command_testbit in Hb by auto. apply bool_decide_eq_true in Hb. by subst.
    + intros Hin. exists (bit i). split; [by apply list_elem_of_In|]. rewrite command_testbit by auto. by apply bool_decide_eq_true.
Qed.

Lemma seen_command open o a : seen open o = Some a → ∃ i, 0 ≤ i < 8 ∧ a.1 = bit i.
Proof.
  intros H. destruct o, open; cbn in H; try done; injection H as <-;
    first [by exists 0|by exists 1|by exists 2|by exists 3|by exists 4|by exists 5|by exists 6|by exists 7].
Qed.

(** The debug store is transparent: a run of calls on it (those of its batches
    included) gives the results and the final state that the wrapped store gives, and the
    callback is called, in order and with the arguments of the calls, for the calls whose
    command is among those of [New], or for all reads and writes when none was given.  [Flush],
    [Close], [Batched], [Cancel] and [Commit] are never reported. *)
Lemma DebugKV_transparent {S} `{base : !KVStore S} callback cs (st : S * option kv_Batch) ops :
  Forall is_command cs →
  drun (New callback cs) (wrapped (New callback cs) st) ops =
    (List.filter (λ a, callback && (bool_decide (cs = []) || bool_decide (a.1 ∈ cs))) (seen_run st ops),
     (wrapped (New callback cs) (urun st ops).1, (urun st ops).2)).
Proof.
  intros Hcs. revert st. induction ops as [|o ops IH]; intros st; cbn [drun seen_run urun]; [done|]. rewrite dstep_ustep.
  destruct (ustep st o) as [st1 r] eqn:E. rewrite IH. cbn. destruct (urun st1 ops) as [st2 rs]. cbn. f_equal.
  rewrite List.filter_app. f_equal. destruct (seen _ o) as [a|] eqn:Ha; [|done]. apply seen_command in Ha as (i & Hi & Ha). cbn.
  by rewrite (New_selects callback cs a i).
Qed.

Lemma DebugKV_transparent_witness :
  (drun (New true [SetCommand; DeleteCommand]) (wrapped (base := mapDB_KVStore []) (New true [SetCommand; DeleteCommand]) (NewMapDB.1, None))
    [DSet [x01] [x02]; DGet [x01]; DBatched; DBDelete [x01]; DCommit; DHas [x01]]).1 =
  [(SetCommand, [[x01]; [x02]]); (DeleteCommand, [[x01]])].
Proof.
  rewrite (DebugKV_transparent (base := mapDB_KVStore []) true [SetCommand; DeleteCommand] (NewMapDB.1, None)); [by vm_compute|].
  constructor; [right; by exists 4|]. constructor; [right; by exists 6|done].
Defined.

(** [ShutdownCommand] is the empty mask: a filter for it alone reports nothing, and no filter reports it. *)
Lemma ShutdownCommand_never_reported d ps : report d ShutdownCommand ps = [] ∧ report (New true [ShutdownCommand]) GetCommand ps = [].
Proof. split; [|done]. unfold report, HasBits, ShutdownCommand. by rewrite Z.land_0_r, andb_false_r. Qed.
