(* ===== verification/HealthTracker.v ===== *)
(** * kvstore: StoreHealthTracker

    [src/kvstore/health_tracker.go]: flags and a version number that a program
    keeps in a realm of its store.  The methods are written against the
    interface of KVStore.v, on the view of the realm.  The function that
    migrates the data to a new version gets the two versions; it may change the
    store outside of the realm of the tracker only, which does not show here. *)

From S2P Require Import Prelude Bytes KVStore MapDB.

Definition StoreVersionNone : Z := 0.

Definition ErrStoreVersionCheckNotSupported : error := ErrNew "store version check not supported".
Definition ErrStoreVersionUpdateFuncNotGiven : error := ErrNew "store version update function not given".

(** The keys, in ASCII. *)
Definition dbCorrupted : Key := [x64; x62; x43; x6f; x72; x72; x75; x70; x74; x65; x64].
Definition dbTainted : Key := [x64; x62; x54; x61; x69; x6e; x74; x65; x64].
Definition dbVersion : Key := [x64; x62; x56; x65; x72; x73; x69; x6f; x6e].

(** The fields other than the store. *)
Record StoreHealthTracker : Type := Tracker {
  storeVersion : byte;
  storeVersionUpdateFunc : option (byte → byte → option error);
}.

Section Tracker.
Context {S : Type} `{KVStore S}.

Definition setStoreVersion (store : S) (version : byte) : S * option error :=
  match kv_Get store dbVersion with
  | inr err =>
      if Is err ErrKeyNotFound then
        match kv_Set store dbVersion [version] with
        | (store, Some _) => (store, Some (ErrNew "failed to set store health version"))
        | (store, None) => (store, None)
        end
      else (store, None)
  | inl _ => (store, None)
  end.

(** [store] is the view of the realm, [realmErr] the error of [WithRealm]. *)
Definition NewStoreHealthTracker (store : S) (realmErr : option error) (version : byte)
    (updateFunc : option (byte → byte → option error)) : S * (StoreHealthTracker + error) :=
  match realmErr with Some err => (store, inr err) | None =>
  let s := Tracker version updateFunc in
  if negb (b2z version =? StoreVersionNone) then
    match setStoreVersion store version with
    | (store, Some err) => (store, inr err)
    | (store, None) => (store, inl s)
    end
  else (store, inl s)
  end.

Definition mark (store : S) (key : Key) : S * option error :=
  match kv_Set store key [] with
  | (store, Some _) => (store, Some (ErrNew "failed to set store health status"))
  | (store, None) => kv_Flush store
  end.

Definition MarkCorrupted (store : S) : S * option error := mark store dbCorrupted.
Definition MarkTainted (store : S) : S * option error := mark store dbTainted.

Definition MarkHealthy (store : S) : S * option error :=
  match kv_Delete store dbCorrupted with
  | (store, Some _) => (store, Some (ErrNew "failed to set store health status"))
  | (store, None) => (store, None)
  end.

(** When the flag cannot be read, the store counts as marked. *)
Definition is_marked (store : S) (key : Key) : bool * option error :=
  match kv_Has store key with
  | inr _ => (true, Some (ErrNew "failed to read store health status"))
  | inl contains => (contains, None)
  end.

Definition IsCorrupted (store : S) : bool * option error := is_marked store dbCorrupted.
Definition IsTainted (store : S) : bool * option error := is_marked store dbTainted.

Definition StoreVersion (store : S) : byte + error :=
  match kv_Get store dbVersion with
  | inr _ => inr (ErrNew "failed to read store health version")
  | inl [] => inr (ErrNew "failed to read store health version")
  | inl (v :: _) => inl v
  end.

Definition CheckCorrectStoreVersion (s : StoreHealthTracker) (store : S) : bool + error :=
  if b2z (storeVersion s) =? StoreVersionNone then inr ErrStoreVersionCheckNotSupported
  else match StoreVersion store with
       | inr err => inr err
       | inl v => inl (bool_decide (v = storeVersion s))
       end.

Definition UpdateStoreVersion (s : StoreHealthTracker) (store : S) : S * (bool * option error) :=
  match StoreVersion store with
  | inr err => (store, (false, Some err))
  | inl v =>
      if bool_decide (v = storeVersion s) then (store, (false, None))
      else match storeVersionUpdateFunc s with
           | None => (store, (true, Some ErrStoreVersionUpdateFuncNotGiven))
           | Some update =>
               match update v (storeVersion s) with
               | Some err => (store, (true, Some err))
               | None =>
                   match kv_Set store dbVersion [storeVersion s] with
                   | (store, Some _) => (store, (true, Some (ErrNew "failed to set store health version")))
                   | (store, None) => (store, (true, None))
                   end
               end
           end
  end.

Definition Flush (store : S) : S * option error := kv_Flush store.
Definition Close (store : S) : S * option error := kv_Close store.

End Tracker.

(** ** Runs *)

Inductive hop : Type :=
  | HMarkCorrupted | HMarkTainted | HMarkHealthy | HIsCorrupted | HIsTainted
  | HCheckVersion | HUpdateVersion
  | HRestart (version : byte) (updateFunc : option (byte → byte → option error)).

Inductive hres : Type :=
  | HDone (err : option error)
  | HFlag (b : bool) (err : option error)
  | HCheck (r : bool + error).

Definition hstep {S} `{KVStore S} (s : StoreHealthTracker) (store : S) (o : hop) :
    StoreHealthTracker * S * hres :=
  match o with
  | HMarkCorrupted => let '(store, e) := MarkCorrupted store in (s, store, HDone e)
  | HMarkTainted => let '(store, e) := MarkTainted store in (s, store, HDone e)
  | HMarkHealthy => let '(store, e) := MarkHealthy store in (s, store, HDone e)
  | HIsCorrupted => let '(b, e) := IsCorrupted store in (s, store, HFlag b e)
  | HIsTainted => let '(b, e) := IsTainted store in (s, store, HFlag b e)
  | HCheckVersion => (s, store, HCheck (CheckCorrectStoreVersion s store))
  | HUpdateVersion => let '(store, (b, e)) := UpdateStoreVersion s store in (s, store, HFlag b e)
  | HRestart version f =>
      match NewStoreHealthTracker store None version f with
      | (store, inl s) => (s, store, HDone None)
      | (store, inr e) => (s, store, HDone (Some e))
      end
  end.

Fixpoint hrun {S} `{KVStore S} (s : StoreHealthTracker) (store : S) (ops : list hop) : list hres :=
  match ops with
  | [] => []
  | o :: ops => let '(s, store, r) := hstep s store o in r :: hrun s store ops
  end.

(** The specification: two flags and the version of the data. *)
Record health : Type := Health { corrupted : bool; tainted : bool; version : option byte }.

Definition hspec (s : StoreHealthTracker) (h : health) (o : hop) : StoreHealthTracker * health * hres :=
  match o with
  | HMarkCorrupted => (s, Health true (tainted h) (version h), HDone None)
  | HMarkTainted => (s, Health (corrupted h) true (version h), HDone None)
  | HMarkHealthy => (s, Health false (tainted h) (version h), HDone None)
  | HIsCorrupted => (s, h, HFlag (corrupted h) None)
  | HIsTainted => (s, h, HFlag (tainted h) None)
  | HCheckVersion =>
      (s, h, HCheck (if b2z (storeVersion s) =? 0 then inr ErrStoreVersionCheckNotSupported
                     else match version h with
                          | Some v => inl (bool_decide (v = storeVersion s))
                          | None => inr (ErrNew "failed to read store health version")
                          end))
  | HUpdateVersion =>
      match version h with
      | None => (s, h, HFlag false (Some (ErrNew "failed to read store health version")))
      | Some v =>
          if bool_decide (v = storeVersion s) then (s, h, HFlag false None)
          else match storeVersionUpdateFunc s with
               | None => (s, h, HFlag true (Some ErrStoreVersionUpdateFuncNotGiven))
               | Some update =>
                   match update v (storeVersion s) with
                   | Some err => (s, h, HFlag true (Some err))
                   | None => (s, Health (corrupted h) (tainted h) (Some (storeVersion s)), HFlag true None)
                   end
               end
      end
  | HRestart v f =>
      (Tracker v f,
       Health (corrupted h) (tainted h)
         (if b2z v =? 0 then version h else Some (default v (version h))), HDone None)
  end.

Fixpoint hspec_run (s : StoreHealthTracker) (h : health) (ops : list hop) : list hres :=
  match ops with
  | [] => []
  | o :: ops => let '(s, h, r) := hspec s h o in r :: hspec_run s h ops
  end.

(** ** The store holds the flags and the version *)

Section Simulation.
Context {S : Type} `{KVStoreLaws S}.

Record hrep (store : S) (h : health) : Prop := {
  hr_open : kv_open store = true;
  hr_corrupted : corrupted h = bool_decide (is_Some (kv_content store dbCorrupted));
  hr_tainted : tainted h = bool_decide (is_Some (kv_content store dbTainted));
  hr_version : kv_content store dbVersion = (λ v, [v]) <$> version h;
}.

Lemma set_ok store k v :
  kv_open store = true →
  ∃ store', kv_Set store k v = (store', None) ∧ kv_open store' = true ∧
    ∀ k', kv_content store' k' = if decide (k' = k) then Some v else kv_content store k'.
Proof. intros Ho. pose proof (law_set store k v) as E. by rewrite Ho in E. Qed.

Lemma delete_ok store k :
  kv_open store = true →
  ∃ store', kv_Delete store k = (store', None) ∧ kv_open store' = true ∧
    ∀ k', kv_content store' k' = if decide (k' = k) then None else kv_content store k'.
Proof. intros Ho. pose proof (law_delete store k) as E. by rewrite Ho in E. Qed.

Lemma StoreVersion_rep store h :
  hrep store h →
  StoreVersion store =
    match version h with Some v => inl v | None => inr (ErrNew "failed to read store health version") end.
Proof.
  intros [Ho H1 H2 H3]. unfold StoreVersion. rewrite law_get, Ho, H3. by destruct (version h).
Qed.

Lemma setStoreVersion_rep store h v :
  hrep store h →
  ∃ store', setStoreVersion store v = (store', None) ∧
    hrep store' (Health (corrupted h) (tainted h) (Some (default v (version h)))).
Proof.
  intros [Ho H1 H2 H3]. unfold setStoreVersion. rewrite law_get, Ho, H3.
  destruct (version h) as [v'|] eqn:Ev; simpl in *.
  - exists store. split; [done|]. by split.
  - destruct (set_ok store dbVersion [v] Ho) as (store' & -> & Ho' & Hc). exists store'.
    split; [done|]. by split; simpl; rewrite ?Hc.
Qed.

Lemma hstep_rep s store h o :
  hrep store h →
  ∃ store', hstep s store o = ((hspec s h o).1.1, store', (hspec s h o).2) ∧
    hrep store' (hspec s h o).1.2.
Proof.
  intros Hr. pose proof Hr as [Ho H1 H2 H3]. destruct o as [| | | | | | |v f]; cbn [hstep hspec fst snd].
  - unfold MarkCorrupted, mark. destruct (set_ok store dbCorrupted [] Ho) as (store' & -> & Ho' & Hc).
    destruct (flush_ok store' Ho') as (store'' & -> & Ho'' & Hf). exists store''.
    split; [done|]. by split; simpl; rewrite ?Hf, ?Hc.
  - unfold MarkTainted, mark. destruct (set_ok store dbTainted [] Ho) as (store' & -> & Ho' & Hc).
    destruct (flush_ok store' Ho') as (store'' & -> & Ho'' & Hf). exists store''.
    split; [done|]. by split; simpl; rewrite ?Hf, ?Hc.
  - unfold MarkHealthy. destruct (delete_ok store dbCorrupted Ho) as (store' & -> & Ho' & Hc).
    exists store'. split; [done|]. by split; simpl; rewrite ?Hc.
  - unfold IsCorrupted, is_marked. rewrite law_has, Ho, <-H1. by exists store.
  - unfold IsTainted, is_marked. rewrite law_has, Ho, <-H2. by exists store.
  - exists store. split; [|done]. unfold CheckCorrectStoreVersion, StoreVersionNone.
    rewrite (StoreVersion_rep store h Hr). by destruct (version h).
  - unfold UpdateStoreVersion. rewrite (StoreVersion_rep store h Hr).
    destruct (version h) as [v|] eqn:Ev; [|by exists store].
    destruct (bool_decide (v = storeVersion s)); [by exists store|].
    destruct (storeVersionUpdateFunc s) as [update|]; [|by exists store].
    destruct (update v (storeVersion s)); [by exists store|].
    destruct (set_ok store dbVersion [storeVersion s] Ho) as (store' & -> & Ho' & Hc).
    exists store'. split; [done|]. by split; simpl; rewrite ?Hc.
  - unfold NewStoreHealthTracker, StoreVersionNone. destruct (b2z v =? 0); simpl.
    + exists store. split; [done|]. by split.
    + destruct (setStoreVersion_rep store h v Hr) as (store' & -> & Hr'). by exists store'.
Qed.

Lemma hrun_rep ops s store h : hrep store h → hrun s store ops = hspec_run s h ops.
Proof.
  revert s store h. induction ops as [|o ops IH]; intros s store h Hr; [done|]. cbn [hrun hspec_run].
  destruct (hstep_rep s store h o Hr) as (store' & -> & Hr').
  destruct (hspec s h o) as [[s' h'] r]. f_equal. by apply IH.
Qed.

End Simulation.

(** ** Property *)

(** Over a store that keeps the laws of the interface and has an empty
    realm for the tracker, every run of calls, restarts of the program with
    other versions included, answers as two flags and a version number do: the
    corrupted flag holds from [MarkCorrupted] to [MarkHealthy], the tainted flag
    stays, the version of a fresh store is the first one that is not
    [StoreVersionNone], a later one replaces it only by a successful update
    whose function is called with the old and the new version. *)
Lemma HealthTracker_refines {S} `{KVStoreLaws S} (store : S) s (ops : list hop) :
  kv_open store = true → (∀ k, kv_content store k = None) →
  hrun s store ops = hspec_run s (Health false false None) ops.
Proof. intros Ho He. apply hrun_rep. by split; simpl; rewrite ?He. Qed.

Lemma HealthTracker_refines_witness :
  hrun (H := mapDB_KVStore []) (Tracker x00 None) NewMapDB.1
    [HRestart x01 None; HMarkCorrupted; HRestart x02 (Some (λ _ _, None)); HIsCorrupted;
     HCheckVersion; HUpdateVersion; HCheckVersion] =
  [HDone None; HDone None; HDone None; HFlag true None; HCheck (inl false); HFlag true None; HCheck (inl true)].
Proof. rewrite (HealthTracker_refines (H0 := mapDB_laws []) NewMapDB.1); done. Defined.
