(* ===== verification/Sequence.v ===== *)
(** * kvstore: Sequence

    [src/kvstore/sequence.go]: numbers handed out from intervals that are
    reserved in a store.  The methods are written against the interface of
    KVStore.v; the state of the store is passed along.  A run of calls may
    restart the program: the fields of the sequence are lost, the store is kept. *)

From S2P Require Import Prelude Bytes KVStore MapDB.

Record Sequence : Type := Seq {
  key : Key;
  interval : Z;
  next : Z;
  reserved : Z;
}.

Definition NewSequence (key : Key) (interval : Z) : outcome Sequence :=
  if interval =? 0 then Panic "interval must be greater than zero"
  else Ret (Seq key interval 0 0).

(** [binary.BigEndian.Uint64]: the first eight bytes. *)
Definition BigEndian_Uint64 (value : Value) : outcome Z :=
  if (length value <? 8)%nat then Panic "index out of range" else Ret (be_num (take 8 value)).

Section Sequence.
Context {S : Type} `{KVStore S}.

(** The second half of [update], with [seq.next] already set. *)
Definition reserve (store : S) (seq : Sequence) : S * Sequence * option error :=
  let r := wrap U64 (next seq + interval seq) in
  let '(store, err) := kv_Set store (key seq) (be_bytes 8 r) in
  match err with
  | Some err => (store, seq, Some err)
  | None => (store, Seq (key seq) (interval seq) (next seq) r, None)
  end.

Definition update (store : S) (seq : Sequence) : outcome (S * Sequence * option error) :=
  let with_next n := Seq (key seq) (interval seq) n (reserved seq) in
  match kv_Get store (key seq) with
  | inr err =>
      if Is err ErrKeyNotFound then Ret (reserve store (with_next 0))
      else Ret (store, seq, Some err)
  | inl value =>
      num ← BigEndian_Uint64 value;
      Ret (reserve store (with_next num))
  end.

(** [val := seq.next; seq.next++]. *)
Definition take_next (seq : Sequence) : Sequence * Z :=
  (Seq (key seq) (interval seq) (wrap U64 (next seq + 1)) (reserved seq), next seq).

Definition Next (store : S) (seq : Sequence) : outcome (S * Sequence * (Z + error)) :=
  if reserved seq <=? next seq then
    '(store, seq, err) ← update store seq;
    match err with
    | Some err => Ret (store, seq, inr err)
    | None => let '(seq, val) := take_next seq in Ret (store, seq, inl val)
    end
  else let '(seq, val) := take_next seq in Ret (store, seq, inl val).

Definition Release (store : S) (seq : Sequence) : S * Sequence * option error :=
  let '(store, err) := kv_Set store (key seq) (be_bytes 8 (next seq)) in
  match err with
  | Some err => (store, seq, Some err)
  | None => (store, Seq (key seq) (interval seq) (next seq) (next seq), None)
  end.

(** ** Runs *)

Inductive sop : Type := SNext | SRelease | SRestart (interval : Z).

(** One call, with what it returns other than a nil error. *)
Definition sstep (store : S) (seq : Sequence) (o : sop) : outcome (S * Sequence * list (Z + error)) :=
  match o with
  | SNext => '(store, seq, r) ← Next store seq; Ret (store, seq, [r])
  | SRelease =>
      let '(store, seq, err) := Release store seq in
      Ret (store, seq, match err with Some e => [inr e] | None => [] end)
  | SRestart i => seq ← NewSequence (key seq) i; Ret (store, seq, [])
  end.

Fixpoint srun (store : S) (seq : Sequence) (ops : list sop) : outcome (list (Z + error)) :=
  match ops with
  | [] => Ret []
  | o :: ops =>
      '(store, seq, l) ← sstep store seq o;
      l' ← srun store seq ops;
      Ret (l ++ l')
  end.

End Sequence.

(** ** Which runs are legal *)

Definition positive_interval (I : Z) (o : sop) : bool :=
  match o with SRestart i => (0 <? i) && (i <=? I) | _ => true end.

#[global] Instance sop_eq_dec : EqDecision sop.
Proof. solve_decision. Defined.

(** [Release] is called only on a sequence whose [Next] was called before. *)
Fixpoint release_after_next (started : bool) (ops : list sop) : bool :=
  match ops with
  | [] => true
  | SNext :: ops => release_after_next true ops
  | SRelease :: ops => started && release_after_next started ops
  | SRestart _ :: ops => release_after_next false ops
  end.

(** Before every restart, the numbers left are released. *)
Fixpoint released_at_restarts (released : bool) (ops : list sop) : bool :=
  match ops with
  | [] => true
  | SNext :: ops => released_at_restarts false ops
  | SRelease :: ops => released_at_restarts true ops
  | SRestart _ :: ops => released && released_at_restarts true ops
  end.

Definition count_next (ops : list sop) : nat := length (filter (λ o, o = SNext) ops).

(** ** The invariant *)

(** The number in the store; none is 0. *)
Definition stored {S} `{KVStoreLaws S} (store : S) (key : Key) (n : Z) : Prop :=
  match kv_content store key with
  | None => n = 0
  | Some v => (8 ≤ length v)%nat ∧ be_num (take 8 v) = n
  end.

Section Invariant.
Context {S : Type} `{KVStoreLaws S} (I : Z).

(** [n] is in the store and [p] is the number [Next] returns next. *)
Record sinv (started : bool) (store : S) (seq : Sequence) (n p : Z) : Prop := {
  sinv_open : kv_open store = true;
  sinv_stored : stored store (key seq) n;
  sinv_interval : 0 < interval seq ≤ I;
  sinv_range : 0 ≤ p ≤ n;
  sinv_fields : if started then next seq = p ∧ reserved seq = n else next seq = 0 ∧ reserved seq = 0 ∧ n = p;
}.

(** Writing a number. *)
Lemma set_stored (store : S) k n :
  kv_open store = true → 0 ≤ n < 2 ^ 64 →
  ∃ store', kv_Set store k (be_bytes 8 n) = (store', None) ∧ kv_open store' = true ∧ stored store' k n.
Proof.
  intros Ho Hn. pose proof (law_set store k (be_bytes 8 n)) as E. rewrite Ho in E.
  destruct E as (store' & E & Ho' & Hc). exists store'. split_and!; [done..|].
  unfold stored. rewrite Hc, decide_True by done. rewrite length_be_bytes. split; [done|].
  rewrite take_ge by (by rewrite length_be_bytes). by apply be_roundtrip.
Qed.

Lemma reserve_ok (store : S) seq :
  kv_open store = true → 0 ≤ next seq → 0 < interval seq → next seq + interval seq < 2 ^ 64 →
  ∃ store', reserve store seq = (store', Seq (key seq) (interval seq) (next seq) (next seq + interval seq), None) ∧
    kv_open store' = true ∧ stored store' (key seq) (next seq + interval seq).
Proof.
  intros Ho Hn Hi Hb. unfold reserve. rewrite wrap_id by (ity_consts; lia).
  destruct (set_stored store (key seq) (next seq + interval seq) Ho) as (store' & -> & ? & ?); [lia|].
  by exists store'.
Qed.

Lemma update_ok (store : S) seq n :
  kv_open store = true → stored store (key seq) n → 0 ≤ n → 0 < interval seq → n + interval seq < 2 ^ 64 →
  ∃ store', update store seq = Ret (store', Seq (key seq) (interval seq) n (n + interval seq), None) ∧
    kv_open store' = true ∧ stored store' (key seq) (n + interval seq).
Proof.
  intros Ho Hst Hn Hi Hb. unfold update. rewrite law_get, Ho. unfold stored in Hst.
  destruct (reserve_ok store (Seq (key seq) (interval seq) n (reserved seq))) as (store' & E & ? & ?); [done..|].
  exists store'. split; [|done].
  destruct (kv_content store (key seq)) as [v|].
  - destruct Hst as [Hl <-]. unfold BigEndian_Uint64.
    rewrite (proj2 (Nat.ltb_ge _ _)) by done. cbn [mbind outcome_bind]. by rewrite E.
  - subst n. rewrite Is_refl. by rewrite E.
Qed.

Lemma Next_ok started (store : S) seq n p :
  sinv started store seq n p → n + I < 2 ^ 64 →
  ∃ store' seq' n', Next store seq = Ret (store', seq', inl p) ∧ n' ≤ n + I ∧
    sinv true store' seq' n' (p + 1).
Proof.
  intros [Ho Hst Hi Hr Hf] Hb. unfold Next. destruct (Z.leb_spec (reserved seq) (next seq)) as [Hle|Hlt].
  - assert (n = p) as -> by (destruct started; lia).
    destruct (update_ok store seq p) as (store' & -> & Ho' & Hst'); [done|done|lia..|].
    cbn [mbind outcome_bind take_next key interval next reserved].
    rewrite wrap_id by (ity_consts; lia). eexists _, _, (p + interval seq).
    split; [done|]. split; [lia|]. by split; simpl; try lia.
  - destruct started; [|lia]. destruct Hf as [<- <-]. unfold take_next.
    rewrite wrap_id by (ity_consts; lia). eexists _, _, (reserved seq).
    split; [done|]. split; [lia|]. by split; simpl; try lia.
Qed.

Lemma Release_ok (store : S) seq n p :
  sinv true store seq n p → n < 2 ^ 64 →
  ∃ store' seq', Release store seq = (store', seq', None) ∧ sinv true store' seq' p p.
Proof.
  intros [Ho Hst Hi Hr [Hn Hres]] Hb. unfold Release. rewrite Hn.
  destruct (set_stored store (key seq) p Ho) as (store' & -> & Ho' & Hst'); [lia|].
  eexists _, _. split; [done|]. by split; simpl; try lia.
Qed.

Lemma Restart_ok started (store : S) seq n p i :
  sinv started store seq n p → 0 < i ≤ I →
  ∃ seq', NewSequence (key seq) i = Ret seq' ∧ sinv false store seq' n n.
Proof.
  intros [Ho Hst Hi Hr Hf] Hi'. unfold NewSequence. destruct (Z.eqb_spec i 0); [lia|].
  eexists. split; [done|]. by split; simpl; try lia.
Qed.

Lemma srun_ok ops : ∀ started released (store : S) seq n p,
  sinv started store seq n p → (released = true → n = p) →
  n + len ops * I < 2 ^ 64 → forallb (positive_interval I) ops = true →
  release_after_next started ops = true →
  ∃ l, srun store seq ops = Ret (inl <$> l) ∧ length l = count_next ops ∧
    StronglySorted Z.lt l ∧ Forall (λ x, p ≤ x) l ∧
    (released_at_restarts released ops = true → l = seqZ p (len l)).
Proof.
  induction ops as [|o ops IH]; intros started released store seq n p Hinv Hrel Hb Hpos Hran.
  { exists []. split_and!; try done. constructor. }
  pose proof (sinv_interval _ _ _ _ _ Hinv) as HI.
  assert (n + I + len ops * I < 2 ^ 64) as Hb' by (unfold len in *; simpl length in Hb; lia).
  assert (0 ≤ len ops * I) as Hops by (apply Z.mul_nonneg_nonneg; unfold len; lia).
  apply andb_prop in Hpos as [Ho Hpos]. cbn [srun]. destruct o as [| |i]; cbn in Hran, Ho.
  - destruct (Next_ok _ _ _ _ _ Hinv ltac:(lia)) as (store' & seq' & n' & E & Hn' & Hinv').
    destruct (IH true false store' seq' n' (p + 1) Hinv' ltac:(done) ltac:(lia) Hpos Hran)
      as (l & El & Hl & Hs & Hge & Hc).
    exists (p :: l). unfold sstep. rewrite E. cbn [mbind outcome_bind]. rewrite El. split_and!.
    + done.
    + unfold count_next. simpl. by f_equal.
    + constructor; [done|]. eapply Forall_impl; [exact Hge|]. simpl. lia.
    + constructor; [done|]. eapply Forall_impl; [exact Hge|]. simpl. lia.
    + intros Hr. cbn in Hr. specialize (Hc Hr). unfold len in *. simpl length.
      rewrite Nat2Z.inj_succ, seqZ_cons by lia. f_equal. by rewrite Z.pred_succ.
  - apply andb_prop in Hran as [-> Hran].
    destruct (Release_ok _ _ _ _ Hinv ltac:(lia)) as (store' & seq' & E & Hinv').
    pose proof (sinv_range _ _ _ _ _ Hinv).
    destruct (IH true true store' seq' p p Hinv' ltac:(done) ltac:(lia) Hpos Hran)
      as (l & El & Hl & Hs & Hge & Hc).
    exists l. unfold sstep. rewrite E. cbn [mbind outcome_bind]. rewrite El. by split_and!.
  - apply andb_prop in Ho as [Hi1%Z.ltb_lt Hi2%Z.leb_le].
    destruct (Restart_ok _ _ _ _ _ i Hinv ltac:(lia)) as (seq' & E & Hinv').
    pose proof (sinv_range _ _ _ _ _ Hinv).
    destruct (IH false true store seq' n n Hinv' ltac:(done) ltac:(lia) Hpos Hran)
      as (l & El & Hl & Hs & Hge & Hc).
    exists l. unfold sstep. rewrite E. cbn [mbind outcome_bind]. rewrite El. split_and!; [done..| |].
    + eapply Forall_impl; [exact Hge|]. simpl. lia.
    + intros [Hr Hr']%andb_prop. rewrite <-(Hrel Hr). by apply Hc.
Qed.

End Invariant.

(** [Release] on a sequence whose [Next] was not called yet stores 0: numbers
    are handed out again. *)
Lemma Release_fresh_repeats :
  srun (H := mapDB_KVStore []) NewMapDB.1 (Seq [x01] 10 0 0) [SNext; SRestart 10; SRelease; SNext] =
    Ret [inl 0; inl 0].
Proof. reflexivity. Qed.

(** ** Property *)

(** C34: over every store that keeps the laws of the interface, in a run of calls
    that may restart the program at any point and in which [Release] is called
    only after [Next], the calls of [Next] all succeed and the numbers they
    return strictly increase from the number in the store, across restarts and
    with any intervals; when the sequence is released before every restart
    they are consecutive.  The run must not reach 2^64. *)
Theorem Sequence_increasing {S} `{KVStoreLaws S} (store : S) (k : Key) (n i I : Z) (ops : list sop) :
  kv_open store = true → stored store k n → 0 ≤ n → 0 < i ≤ I →
  n + len ops * I < 2 ^ 64 → forallb (positive_interval I) ops = true →
  release_after_next false ops = true →
  ∃ seq l, NewSequence k i = Ret seq ∧ srun store seq ops = Ret (inl <$> l) ∧
    length l = count_next ops ∧ StronglySorted Z.lt l ∧ Forall (λ x, n ≤ x) l ∧
    (released_at_restarts true ops = true → l = seqZ n (len l)).
Proof.
  intros Ho Hst Hn Hi Hb Hpos Hran. exists (Seq k i 0 0).
  destruct (srun_ok I ops false true store (Seq k i 0 0) n n) as (l & Hl); [by split|done..|].
  exists l. split; [|done]. unfold NewSequence. destruct (Z.eqb_spec i 0); [lia|done].
Qed.

Lemma Sequence_increasing_witness :
  let ops := [SNext; SNext; SRestart 5; SNext; SRelease; SRestart 3; SNext] in
  release_after_next false ops = true ∧
  ∃ seq l, NewSequence [x01] 10 = Ret seq ∧
    srun (H := mapDB_KVStore []) NewMapDB.1 seq ops = Ret (inl <$> l) ∧ length l = 4%nat ∧
    StronglySorted Z.lt l.
Proof.
  intros ops. split; [done|].
  destruct (Sequence_increasing (H0 := mapDB_laws []) NewMapDB.1 [x01] 0 10 10 ops)
    as (seq & l & E1 & E2 & E3 & E4 & _); try done.
  by exists seq, l.
Defined.
