(* ===== verification/TypedValue.v ===== *)
(** * kvstore: TypedStore and TypedValue

    [src/kvstore/typedstore.go]: a store with encoded keys and values;
    [src/kvstore/typedvalue.go]: one encoded value of a store with a cache.  The
    functions that encode and decode are arguments.  [TypedValue.Get] and [Has]
    take the mutex twice, first to read the cache and then, after a miss, to
    read the store: the two critical sections are separate steps here, so that
    other calls may come between them. *)

From S2P Require Import Prelude Bytes KVStore MapDB.

(** [ObjectToBytes] and [BytesToObject]: Go returns the value and the error. *)
Definition ObjectToBytes (O : Type) : Type := O → list byte * option error.
Definition BytesToObject (O : Type) : Type := list byte → O * Z * option error.

(** ** TypedStore *)

Section TypedStore.
Context {S K V : Type} `{KVStore S}.
Variables (zeroV : V) (keyToBytes : ObjectToBytes K) (bytesToKey : BytesToObject K).
Variables (valueToBytes : ObjectToBytes V) (bytesToValue : BytesToObject V).

Definition TypedStore_Get (kv : S) (key : K) : V * option error :=
  match keyToBytes key with
  | (_, Some err) => (zeroV, Some (ErrWrap err "failed to encode key"))
  | (keyBytes, None) =>
      match kv_Get kv keyBytes with
      | inr err => (zeroV, Some (ErrWrap err "failed to retrieve from KV store"))
      | inl valueBytes =>
          match bytesToValue valueBytes with
          | (_, _, Some err) => (zeroV, Some (ErrWrap err "failed to decode value"))
          | (v, _, None) => (v, None)
          end
      end
  end.

Definition TypedStore_Has (kv : S) (key : K) : bool + error :=
  match keyToBytes key with
  | (_, Some err) => inr (ErrWrap err "failed to encode key")
  | (keyBytes, None) => kv_Has kv keyBytes
  end.

Definition TypedStore_Set (kv : S) (key : K) (value : V) : S * option error :=
  match keyToBytes key with
  | (_, Some err) => (kv, Some (ErrWrap err "failed to encode key"))
  | (keyBytes, None) =>
      match valueToBytes value with
      | (_, Some err) => (kv, Some (ErrWrap err "failed to encode value"))
      | (valueBytes, None) =>
          match kv_Set kv keyBytes valueBytes with
          | (kv, Some err) => (kv, Some (ErrWrap err "failed to store in KV store"))
          | (kv, None) => (kv, None)
          end
      end
  end.

Definition TypedStore_Delete (kv : S) (key : K) : S * option error :=
  match keyToBytes key with
  | (_, Some err) => (kv, Some (ErrWrap err "failed to encode key"))
  | (keyBytes, None) =>
      match kv_Delete kv keyBytes with
      | (kv, Some err) => (kv, Some (ErrWrap err "failed to delete entry from KV store"))
      | (kv, None) => (kv, None)
      end
  end.

(** The consumer [Iterate] passes on: it decodes, keeps the first error and stops at it. *)
Definition decoding {A} (callback : K → V → A → A * bool) (key : Key) (value : Value)
    (st : A * option error) : (A * option error) * bool :=
  let '(a, _) := st in
  match bytesToKey key with
  | (_, _, Some keyErr) => ((a, Some keyErr), false)
  | (keyDecoded, _, None) =>
      match bytesToValue value with
      | (_, _, Some valueErr) => ((a, Some valueErr), false)
      | (valueDecoded, _, None) =>
          let '(a, advance) := callback keyDecoded valueDecoded a in ((a, None), advance)
      end
  end.

Definition TypedStore_Iterate {A} (kv : S) (prefix : Key) (callback : K → V → A → A * bool)
    (d : IterDirection) (a : A) : A * option error :=
  match kv_Iterate kv prefix d with
  | inr iterationErr => (a, Some (ErrWrap iterationErr "failed to iterate over KV store"))
  | inl entries => visit (decoding callback) entries (a, None)
  end.

(** The keys alone: the same consumer without the value. *)
Fixpoint visit_keys {A} (consumer : Key → A → A * bool) (keys : list Key) (a : A) : A :=
  match keys with
  | [] => a
  | k :: keys => let '(a, continue) := consumer k a in if continue then visit_keys consumer keys a else a
  end.

Definition decoding_key {A} (callback : K → A → A * bool) (key : Key) (st : A * option error) :
    (A * option error) * bool :=
  let '(a, _) := st in
  match bytesToKey key with
  | (_, _, Some keyErr) => ((a, Some keyErr), false)
  | (keyDecoded, _, None) => let '(a, advance) := callback keyDecoded a in ((a, None), advance)
  end.

Definition TypedStore_IterateKeys {A} (kv : S) (prefix : Key) (callback : K → A → A * bool)
    (d : IterDirection) (a : A) : A * option error :=
  match kv_IterateKeys kv prefix d with
  | inr iterationErr => (a, Some (ErrWrap iterationErr "failed to iterate keys over KV store"))
  | inl keys => visit_keys (decoding_key callback) keys (a, None)
  end.

Definition TypedStore_DeletePrefix (kv : S) (prefix : Key) : S * option error :=
  kv_DeletePrefix kv prefix.

Definition TypedStore_Clear (kv : S) : S * option error := kv_Clear kv.

End TypedStore.

(** ** A TypedStore is a map *)

Section TypedMap.
Context {S K V : Type} `{KVStoreLaws S} `{Countable K}.
Variables (zeroV : V) (keyToBytes : ObjectToBytes K) (bytesToKey : BytesToObject K).
Variables (valueToBytes : ObjectToBytes V) (bytesToValue : BytesToObject V).

(** The entries of the store are the encoded entries of the map. *)
Record trep (kv : S) (M : gmap K V) : Prop := {
  tr_open : kv_open kv = true;
  tr_decode b vb : kv_content kv b = Some vb →
    ∃ k v, keyToBytes k = (b, None) ∧ valueToBytes v = (vb, None) ∧ M !! k = Some v;
  tr_encode k v : M !! k = Some v →
    ∃ b vb, keyToBytes k = (b, None) ∧ valueToBytes v = (vb, None) ∧ kv_content kv b = Some vb;
}.

Hypothesis key_roundtrip : ∀ k b, keyToBytes k = (b, None) → ∃ n, bytesToKey b = (k, n, None).
Hypothesis value_roundtrip : ∀ v b, valueToBytes v = (b, None) → ∃ n, bytesToValue b = (v, n, None).

Lemma key_inj k k' b : keyToBytes k = (b, None) → keyToBytes k' = (b, None) → k = k'.
Proof.
  intros [n E]%key_roundtrip [n' E']%key_roundtrip. congruence.
Qed.

(** The bytes below an encoded key. *)
Lemma trep_lookup kv M k b :
  trep kv M → keyToBytes k = (b, None) →
  match M !! k with
  | Some v => ∃ vb, valueToBytes v = (vb, None) ∧ kv_content kv b = Some vb
  | None => kv_content kv b = None
  end.
Proof.
  intros [Ho Hd He] Hk. destruct (M !! k) as [v|] eqn:E.
  - destruct (He k v E) as (b' & vb & Hk' & Hv & Hc). exists vb. split; [done|]. congruence.
  - destruct (kv_content kv b) as [vb|] eqn:Ec; [|done].
    destruct (Hd b vb Ec) as (k' & v & Hk' & _ & HM). rewrite (key_inj k' k b Hk' Hk) in HM. congruence.
Qed.

Lemma TypedStore_Get_rep kv M k :
  trep kv M →
  match keyToBytes k with
  | (_, Some err) => ∃ e, TypedStore_Get zeroV keyToBytes bytesToValue kv k = (zeroV, Some e) ∧ Is e err = true
  | (_, None) =>
      match M !! k with
      | Some v => TypedStore_Get zeroV keyToBytes bytesToValue kv k = (v, None)
      | None => ∃ e, TypedStore_Get zeroV keyToBytes bytesToValue kv k = (zeroV, Some e) ∧ Is e ErrKeyNotFound = true
      end
  end.
Proof.
  intros Hr. unfold TypedStore_Get. destruct (keyToBytes k) as [b [err|]] eqn:Hk.
  - eexists. split; [done|]. apply Is_wrap, Is_refl.
  - rewrite law_get, (tr_open _ _ Hr). pose proof (trep_lookup kv M k b Hr Hk) as Hl.
    destruct (M !! k) as [v|].
    + destruct Hl as (vb & Hv & ->). by destruct (value_roundtrip v vb Hv) as [n ->].
    + rewrite Hl. eexists. split; [done|]. apply (Is_wrap ErrKeyNotFound), Is_refl.
Qed.

Lemma TypedStore_Has_rep kv M k b :
  trep kv M → keyToBytes k = (b, None) →
  TypedStore_Has keyToBytes kv k = inl (bool_decide (is_Some (M !! k))).
Proof.
  intros Hr Hk. unfold TypedStore_Has. rewrite Hk, law_has, (tr_open _ _ Hr). f_equal.
  pose proof (trep_lookup kv M k b Hr Hk) as Hl.
  destruct (M !! k) as [v|]; [destruct Hl as (vb & _ & ->)|rewrite Hl]; apply bool_decide_ext; by split; eauto.
Qed.

Lemma TypedStore_Set_rep kv M k v b vb :
  trep kv M → keyToBytes k = (b, None) → valueToBytes v = (vb, None) →
  ∃ kv', TypedStore_Set keyToBytes valueToBytes kv k v = (kv', None) ∧ trep kv' (<[k:=v]> M).
Proof.
  intros [Ho Hd He] Hk Hv. unfold TypedStore_Set. rewrite Hk, Hv.
  pose proof (law_set kv b vb) as E. rewrite Ho in E. destruct E as (kv' & -> & Ho' & Hc).
  exists kv'. split; [done|]. split; [done| |].
  - intros b' vb' Hb'. rewrite Hc in Hb'. destruct (decide (b' = b)) as [->|Hne].
    + injection Hb' as <-. exists k, v. by rewrite lookup_insert_eq.
    + destruct (Hd b' vb' Hb') as (k' & v' & Hk' & Hv' & HM). exists k', v'.
      rewrite lookup_insert_ne by congruence. done.
  - intros k' v' HM. destruct (decide (k' = k)) as [->|Hne].
    + rewrite lookup_insert_eq in HM. injection HM as <-. exists b, vb. by rewrite Hc, decide_True.
    + rewrite lookup_insert_ne in HM by done. destruct (He k' v' HM) as (b' & vb' & Hk' & Hv' & Hb').
      exists b', vb'. rewrite Hc, decide_False; [done|]. intros ->. by destruct Hne; eapply key_inj.
Qed.

Lemma TypedStore_Delete_rep kv M k b :
  trep kv M → keyToBytes k = (b, None) →
  ∃ kv', TypedStore_Delete keyToBytes kv k = (kv', None) ∧ trep kv' (base.delete k M).
Proof.
  intros [Ho Hd He] Hk. unfold TypedStore_Delete. rewrite Hk.
  pose proof (law_delete kv b) as E. rewrite Ho in E. destruct E as (kv' & -> & Ho' & Hc).
  exists kv'. split; [done|]. split; [done| |].
  - intros b' vb' Hb'. rewrite Hc in Hb'. destruct (decide (b' = b)) as [->|Hne]; [done|].
    destruct (Hd b' vb' Hb') as (k' & v' & Hk' & Hv' & HM). exists k', v'.
    rewrite lookup_delete_ne by congruence. done.
  - intros k' v' HM. destruct (decide (k' = k)) as [->|Hne]; [by rewrite lookup_delete_eq in HM|].
    rewrite lookup_delete_ne in HM by done. destruct (He k' v' HM) as (b' & vb' & Hk' & Hv' & Hb').
    exists b', vb'. rewrite Hc, decide_False; [done|]. intros ->. by destruct Hne; eapply key_inj.
Qed.

(** Entries and what they decode to. *)
Definition decodes (e : Key * Value) (x : K * V) : Prop :=
  keyToBytes x.1 = (e.1, None) ∧ valueToBytes x.2 = (e.2, None).

(** Calling the callback with decoded entries until it stops. *)
Fixpoint visit_typed {A} (callback : K → V → A → A * bool) (xs : list (K * V)) (a : A) : A :=
  match xs with
  | [] => a
  | (k, v) :: xs => let '(a, advance) := callback k v a in if advance then visit_typed callback xs a else a
  end.

Lemma visit_decoding {A} (callback : K → V → A → A * bool) es xs a :
  Forall2 decodes es xs →
  visit (decoding bytesToKey bytesToValue callback) es (a, None) = (visit_typed callback xs a, None).
Proof.
  intros Hes. revert a. induction Hes as [|[b vb] [k v] es xs [Hk Hv] _ IH]; intros a; [done|].
  cbn [visit visit_typed decoding]. destruct (key_roundtrip k b Hk) as [n ->].
  destruct (value_roundtrip v vb Hv) as [n' ->]. destruct (callback k v a) as [a' [|]]; [apply IH|done].
Qed.

Lemma entries_decode kv M es :
  trep kv M → (∀ b vb, (b, vb) ∈ es → kv_content kv b = Some vb) →
  ∃ xs, Forall2 decodes es xs ∧ ∀ x, x ∈ xs → M !! x.1 = Some x.2.
Proof.
  intros Hr. induction es as [|[b vb] es IH]; intros Hes; [exists []; by split; [|set_solver]|].
  destruct IH as (xs & Hxs & HM); [intros; apply Hes; set_solver|].
  destruct (tr_decode _ _ Hr b vb) as (k & v & Hk & Hv & HMk); [apply Hes; set_solver|].
  exists ((k, v) :: xs). split; [by constructor|]. intros x [->|Hx]%elem_of_cons; [done|by apply HM].
Qed.

(** What a store iterates over, and the entries of the map that it decodes to. *)
Lemma iterates_typed kv M p d :
  trep kv M →
  ∃ es xs, kv_Iterate kv p d = inl es ∧
    Forall2 decodes es xs ∧ iterates (kv_content kv) p d es ∧
    (∀ k v, (k, v) ∈ xs ↔ M !! k = Some v ∧ ∃ b, keyToBytes k = (b, None) ∧ HasPrefix b p = true).
Proof.
  intros Hr. pose proof (law_iterate kv p d) as E. rewrite (tr_open _ _ Hr) in E.
  destruct E as (es & -> & Hit). pose proof Hit as [Hes _].
  destruct (entries_decode kv M es Hr) as (xs & Hxs & HM); [intros b vb Hin; by apply Hes in Hin as [? _]|].
  exists es, xs. split; [done|]. split; [done|]. split; [done|]. intros k v. split.
  - intros Hin. split; [by apply (HM (k, v))|].
    apply list_elem_of_lookup in Hin as [i Hi].
    destruct (Forall2_lookup_r _ _ _ _ _ Hxs Hi) as ([b vb] & Hb & Hk & Hv). exists b. split; [done|].
    apply list_elem_of_lookup_2, Hes in Hb. apply Hb.
  - intros [HMk (b & Hk & Hp)]. destruct (tr_encode _ _ Hr k v HMk) as (b' & vb & Hk' & Hv & Hc).
    assert (b' = b) as -> by congruence.
    assert ((b, vb) ∈ es) as [i Hi]%list_elem_of_lookup by (by apply Hes).
    destruct (Forall2_lookup_l _ _ _ _ _ Hxs Hi) as ([k' v'] & Hx & Hk'' & Hv'').
    assert (k' = k) as -> by (by eapply key_inj). assert (v' = v) as ->.
    { apply list_elem_of_lookup_2, HM in Hx. simpl in Hx. congruence. }
    by eapply list_elem_of_lookup_2.
Qed.

Lemma TypedStore_Iterate_rep {A} kv M p (callback : K → V → A → A * bool) d a :
  trep kv M →
  ∃ es xs, TypedStore_Iterate bytesToKey bytesToValue kv p callback d a = (visit_typed callback xs a, None) ∧
    Forall2 decodes es xs ∧ iterates (kv_content kv) p d es ∧
    (∀ k v, (k, v) ∈ xs ↔ M !! k = Some v ∧ ∃ b, keyToBytes k = (b, None) ∧ HasPrefix b p = true).
Proof.
  intros Hr. destruct (iterates_typed kv M p d Hr) as (es & xs & E & Hxs & Hit & HM). exists es, xs.
  split; [|done]. unfold TypedStore_Iterate. rewrite E. by apply visit_decoding.
Qed.

Lemma TypedStore_DeletePrefix_rep kv M p :
  trep kv M →
  ∃ kv', TypedStore_DeletePrefix kv p = (kv', None) ∧
    trep kv' (filter (λ x, HasPrefix (keyToBytes x.1).1 p = false) M).
Proof.
  intros [Ho Hd He]. unfold TypedStore_DeletePrefix.
  pose proof (law_delete_prefix kv p) as E. rewrite Ho in E. destruct E as (kv' & -> & Ho' & Hc).
  exists kv'. split; [done|]. split; [done| |].
  - intros b vb Hb. rewrite Hc in Hb. destruct (HasPrefix b p) eqn:Hp; [done|].
    destruct (Hd b vb Hb) as (k & v & Hk & Hv & HM). exists k, v. split_and!; [done..|].
    apply map_lookup_filter_Some. split; [done|]. simpl. by rewrite Hk.
  - intros k v [HM Hp]%map_lookup_filter_Some. destruct (He k v HM) as (b & vb & Hk & Hv & Hb).
    exists b, vb. simpl in Hp. rewrite Hk in Hp. simpl in Hp. by rewrite Hc, Hp.
Qed.

Lemma TypedStore_Clear_rep kv M :
  trep kv M → ∃ kv', TypedStore_Clear kv = (kv', None) ∧ trep kv' ∅.
Proof.
  intros [Ho _ _]. unfold TypedStore_Clear. pose proof (law_clear kv) as E. rewrite Ho in E.
  destruct E as (kv' & -> & Ho' & Hc). exists kv'. split; [done|].
  split; [done|intros b vb; by rewrite Hc|intros k v; by rewrite lookup_empty].
Qed.

(** Calling the callback with decoded keys until it stops. *)
Fixpoint visit_typed_keys {A} (callback : K → A → A * bool) (ks : list K) (a : A) : A :=
  match ks with
  | [] => a
  | k :: ks => let '(a, advance) := callback k a in if advance then visit_typed_keys callback ks a else a
  end.

Lemma visit_decoding_keys {A} (callback : K → A → A * bool) es xs a :
  Forall2 decodes es xs →
  visit_keys (decoding_key bytesToKey callback) es.*1 (a, None) = (visit_typed_keys callback xs.*1 a, None).
Proof.
  intros Hes. revert a. induction Hes as [|[b vb] [k v] es xs [Hk Hv] _ IH]; intros a; [done|].
  rewrite !fmap_cons. cbn [visit_keys visit_typed_keys decoding_key fst].
  destruct (key_roundtrip k b Hk) as [n ->]. destruct (callback k a) as [a' [|]]; [apply IH|done].
Qed.

Lemma TypedStore_IterateKeys_rep {A} kv M p (callback : K → A → A * bool) d a :
  trep kv M →
  ∃ es xs, TypedStore_IterateKeys bytesToKey kv p callback d a = (visit_typed_keys callback xs.*1 a, None) ∧
    Forall2 decodes es xs ∧ iterates (kv_content kv) p d es ∧
    (∀ k v, (k, v) ∈ xs ↔ M !! k = Some v ∧ ∃ b, keyToBytes k = (b, None) ∧ HasPrefix b p = true).
Proof.
  intros Hr. destruct (iterates_typed kv M p d Hr) as (es & xs & E & Hxs & Hit & HM). exists es, xs.
  split; [|done]. unfold TypedStore_IterateKeys. rewrite law_iterate_keys, E. by apply visit_decoding_keys.
Qed.

Lemma TypedStore_Set_encoding kv k v err :
  (keyToBytes k).2 = Some err ∨ (keyToBytes k).2 = None ∧ (valueToBytes v).2 = Some err →
  ∃ e, TypedStore_Set keyToBytes valueToBytes kv k v = (kv, Some e) ∧ Is e err = true.
Proof.
  unfold TypedStore_Set. destruct (keyToBytes k) as [b ke], (valueToBytes v) as [vb ve]. simpl.
  intros [->|[-> ->]]; (eexists; split; [done|apply Is_wrap, Is_refl]).
Qed.

(** A TypedStore over any store that keeps the laws of the interface is a
    map M from keys to values, given that decoding undoes encoding for keys and
    for values.  Get returns the value M holds or ErrKeyNotFound, Has says
    whether there is one, Set and Delete make the store represent M with the
    entry set or removed, DeletePrefix and Clear M without the entries whose
    encoded key has the prefix or without any, a key or value that does not
    encode leaves the store as it was and its error is passed on, and Iterate
    and IterateKeys hand the callback, until it stops, exactly the decoded
    entries whose encoded key has the prefix, in the order of the encoded keys. *)
Lemma TypedStore_refines_map kv M :
  trep kv M →
  (∀ k, match keyToBytes k with
        | (_, Some err) => ∃ e, TypedStore_Get zeroV keyToBytes bytesToValue kv k = (zeroV, Some e) ∧ Is e err = true
        | (_, None) =>
            match M !! k with
            | Some v => TypedStore_Get zeroV keyToBytes bytesToValue kv k = (v, None)
            | None => ∃ e, TypedStore_Get zeroV keyToBytes bytesToValue kv k = (zeroV, Some e) ∧ Is e ErrKeyNotFound = true
            end
        end) ∧
  (∀ k b, keyToBytes k = (b, None) →
     TypedStore_Has keyToBytes kv k = inl (bool_decide (is_Some (M !! k))) ∧
     (∃ kv', TypedStore_Delete keyToBytes kv k = (kv', None) ∧ trep kv' (base.delete k M)) ∧
     ∀ v vb, valueToBytes v = (vb, None) →
       ∃ kv', TypedStore_Set keyToBytes valueToBytes kv k v = (kv', None) ∧ trep kv' (<[k:=v]> M)) ∧
  (∀ k v err, (keyToBytes k).2 = Some err ∨ (keyToBytes k).2 = None ∧ (valueToBytes v).2 = Some err →
     ∃ e, TypedStore_Set keyToBytes valueToBytes kv k v = (kv, Some e) ∧ Is e err = true) ∧
  (∀ p d (A : Type) (callback : K → V → A → A * bool) a,
     ∃ es xs, TypedStore_Iterate bytesToKey bytesToValue kv p callback d a = (visit_typed callback xs a, None) ∧
       Forall2 decodes es xs ∧ iterates (kv_content kv) p d es ∧
       (∀ k v, (k, v) ∈ xs ↔ M !! k = Some v ∧ ∃ b, keyToBytes k = (b, None) ∧ HasPrefix b p = true)) ∧
  (∀ p d (A : Type) (callback : K → A → A * bool) a,
     ∃ es xs, TypedStore_IterateKeys bytesToKey kv p callback d a = (visit_typed_keys callback xs.*1 a, None) ∧
       Forall2 decodes es xs ∧ iterates (kv_content kv) p d es ∧
       (∀ k v, (k, v) ∈ xs ↔ M !! k = Some v ∧ ∃ b, keyToBytes k = (b, None) ∧ HasPrefix b p = true)) ∧
  (∀ p, ∃ kv', TypedStore_DeletePrefix kv p = (kv', None) ∧
     trep kv' (filter (λ x, HasPrefix (keyToBytes x.1).1 p = false) M)) ∧
  (∃ kv', TypedStore_Clear kv = (kv', None) ∧ trep kv' ∅).
Proof.
  intros Hr. split; [intros k; by apply TypedStore_Get_rep|]. split.
  { intros k b Hk. split; [by eapply TypedStore_Has_rep|]. split; [by eapply TypedStore_Delete_rep|].
    intros v vb Hv. by eapply TypedStore_Set_rep. }
  split; [intros k v err; apply TypedStore_Set_encoding|].
  split; [intros; by apply TypedStore_Iterate_rep|]. split; [intros; by apply TypedStore_IterateKeys_rep|].
  split; [intros; by apply TypedStore_DeletePrefix_rep|by eapply TypedStore_Clear_rep].
Qed.

End TypedMap.

Lemma TypedStore_refines_map_witness :
  let enc (b : byte) : list byte * option error := ([b], None) in
  let dec (bs : list byte) : byte * Z * option error :=
    match bs with b :: _ => (b, 1, None) | [] => (x00, 0, Some ErrKeyNotFound) end in
  ∃ kv, TypedStore_Set (H := mapDB_KVStore []) enc enc NewMapDB.1 x01 x02 = (kv, None) ∧
    trep (H0 := mapDB_laws []) enc enc kv (<[x01:=x02]> ∅) ∧
    TypedStore_Get (H := mapDB_KVStore []) x00 enc dec kv x01 = (x02, None).
Proof.
  intros enc dec.
  assert (∀ b bs, enc b = (bs, None) → ∃ n, dec bs = (b, n, None)) as Hrt.
  { intros b bs [= <-]. by exists 1. }
  assert (trep (H0 := mapDB_laws []) enc enc NewMapDB.1 ∅) as H0.
  { by split; [|intros ? ? Hb; simpl in Hb; unfold content in Hb; simpl in Hb; rewrite lookup_empty in Hb
              |intros ? ?; rewrite lookup_empty]. }
  destruct (TypedStore_refines_map (H0 := mapDB_laws []) x00 enc dec enc dec Hrt Hrt NewMapDB.1 ∅ H0)
    as (_ & Hset & _).
  destruct (Hset x01 [x01] eq_refl) as (_ & _ & Hs). destruct (Hs x02 [x02] eq_refl) as (kv & E & Hr).
  exists kv. split; [done|]. split; [done|].
  destruct (TypedStore_refines_map (H0 := mapDB_laws []) x00 enc dec enc dec Hrt Hrt kv _ Hr) as (Hget & _).
  exact (Hget x01).
Defined.

(** ** TypedValue *)

Record TypedValue (V : Type) : Type := Typed {
  valueCached : option V;
  hasCached : option bool;
}.
Arguments Typed {V} _ _.
Arguments valueCached {V} _.
Arguments hasCached {V} _.

Definition NewTypedValue {V} : TypedValue V := Typed None None.

Section TypedValue.
Context {S V : Type} `{KVStore S}.
Variables (zero : V) (keyBytes : Key) (vToBytes : ObjectToBytes V) (bytesToV : BytesToObject V).

(** The cache answers, or it does not ([None]). *)
Definition Get_cached (t : TypedValue V) : option (V * option error) :=
  match hasCached t with
  | Some false => Some (zero, Some ErrKeyNotFound)
  | _ => match valueCached t with Some v => Some (v, None) | None => None end
  end.

(** [Get] below the second lock. *)
Definition Get_locked (kv : S) (t : TypedValue V) : TypedValue V * (V * option error) :=
  match Get_cached t with
  | Some r => (t, r)
  | None =>
      match kv_Get kv keyBytes with
      | inr valueBytesErr =>
          (if Is valueBytesErr ErrKeyNotFound then Typed (valueCached t) (Some false) else t,
           (zero, Some (ErrWrap valueBytesErr "failed to retrieve value from KV store")))
      | inl valueBytes =>
          match bytesToV valueBytes with
          | (value, _, Some err) => (t, (value, Some (ErrWrap err "failed to decode value")))
          | (value, _, None) => (Typed (Some value) (Some true), (value, None))
          end
      end
  end.

Definition Has_cached (t : TypedValue V) : option (bool * option error) :=
  match hasCached t with Some b => Some (b, None) | None => None end.

Definition Has_locked (kv : S) (t : TypedValue V) : TypedValue V * (bool * option error) :=
  match Has_cached t with
  | Some r => (t, r)
  | None =>
      match kv_Has kv keyBytes with
      | inr err => (t, (false, Some (ErrWrap err "failed to check whether key exists")))
      | inl has => (Typed (valueCached t) (Some has), (has, None))
      end
  end.

Definition cachedValue (t : TypedValue V) : V * bool :=
  match valueCached t with None => (zero, false) | Some v => (v, true) end.

(** [!exists && t.hasCached == nil || *t.hasCached]: a nil pointer is dereferenced. *)
Definition must_read (exists_ : bool) (t : TypedValue V) : outcome bool :=
  match hasCached t with
  | None => if exists_ then Panic "invalid memory address or nil pointer dereference" else Ret true
  | Some b => Ret b
  end.

(** The value and whether it exists, or the error of [Compute]. *)
Definition Compute_current (kv : S) (t : TypedValue V) : outcome ((V * bool) + error) :=
  let '(currentValue, exists_) := cachedValue t in
  read ← must_read exists_ t;
  if (read : bool) then
    match kv_Get kv keyBytes with
    | inr valueBytesErr =>
        if Is valueBytesErr ErrKeyNotFound then Ret (inl (currentValue, exists_))
        else Ret (inr (ErrWrap valueBytesErr "failed to retrieve value from KV store"))
    | inl valueBytes =>
        match bytesToV valueBytes with
        | (_, _, Some err) => Ret (inr (ErrWrap err "failed to decode value"))
        | (currentValue, _, None) => Ret (inl (currentValue, true))
        end
    end
  else Ret (inl (currentValue, exists_)).

(** The second branch of the chain tests [err], which is nil there, and not
    [newValueBytesErr]: the bytes are stored whatever the encoder reports. *)
Definition Compute (kv : S) (t : TypedValue V) (computeFunc : V → bool → V * option error) :
    outcome (S * TypedValue V * (V * option error)) :=
  cur ← Compute_current kv t;
  match cur with
  | inr err => Ret (kv, t, (zero, Some err))
  | inl (currentValue, exists_) =>
      match computeFunc currentValue exists_ with
      | (newValue, Some err) =>
          if Is err ErrTypedValueNotChanged then Ret (kv, t, (currentValue, None))
          else Ret (kv, t, (newValue, Some (ErrWrap err "failed to compute new value")))
      | (newValue, None) =>
          let '(newValueBytes, newValueBytesErr) := vToBytes newValue in
          match kv_Set kv keyBytes newValueBytes with
          | (kv, Some err) =>
              Ret (kv, t, (currentValue, Some (ErrWrap err "failed to store new value in KV store")))
          | (kv, None) => Ret (kv, Typed (Some newValue) (Some true), (newValue, None))
          end
      end
  end.

Definition Set_ (kv : S) (t : TypedValue V) (value : V) : S * TypedValue V * option error :=
  match vToBytes value with
  | (_, Some err) => (kv, t, Some (ErrWrap err "failed to encode value"))
  | (valueBytes, None) =>
      match kv_Set kv keyBytes valueBytes with
      | (kv, Some err) => (kv, t, Some (ErrWrap err "failed to store value in KV store"))
      | (kv, None) => (kv, Typed (Some value) (Some true), None)
      end
  end.

Definition Delete (kv : S) (t : TypedValue V) : S * TypedValue V * option error :=
  match kv_Delete kv keyBytes with
  | (kv, Some err) => (kv, t, Some (ErrWrap err "failed to delete entry from KV store"))
  | (kv, None) => (kv, Typed None (Some false), None)
  end.

End TypedValue.

(** ** Steps *)

(** The critical sections of the calls, and a write to another key of the store. *)
Inductive top (V : Type) : Type :=
  | TGetCached
  | TGetLocked
  | THasCached
  | THasLocked
  | TCompute (computeFunc : V → bool → V * option error)
  | TSet (value : V)
  | TDelete
  | TOther (k : Key) (bytes : Value).
Arguments TGetCached {V}.
Arguments TGetLocked {V}.
Arguments THasCached {V}.
Arguments THasLocked {V}.
Arguments TCompute {V} _.
Arguments TSet {V} _.
Arguments TDelete {V}.
Arguments TOther {V} _ _.

(** What a step answers; a miss of the cache is none. *)
Inductive tres (V : Type) : Type :=
  | RMiss
  | RValue (v : V) (err : option error)
  | RHas (b : bool) (err : option error)
  | RDone (err : option error).
Arguments RMiss {V}.
Arguments RValue {V} _ _.
Arguments RHas {V} _ _.
Arguments RDone {V} _.

Section Steps.
Context {S V : Type} `{KVStore S}.
Variables (zero : V) (keyBytes : Key) (vToBytes : ObjectToBytes V) (bytesToV : BytesToObject V).

Definition tstep (kv : S) (t : TypedValue V) (o : top V) : outcome (S * TypedValue V * tres V) :=
  match o with
  | TGetCached =>
      Ret (kv, t, match Get_cached zero t with Some (v, e) => RValue v e | None => RMiss end)
  | TGetLocked =>
      let '(t, (v, e)) := Get_locked zero keyBytes bytesToV kv t in Ret (kv, t, RValue v e)
  | THasCached => Ret (kv, t, match Has_cached t with Some (b, e) => RHas b e | None => RMiss end)
  | THasLocked => let '(t, (b, e)) := Has_locked keyBytes kv t in Ret (kv, t, RHas b e)
  | TCompute f =>
      '(kv, t, (v, e)) ← Compute zero keyBytes vToBytes bytesToV kv t f; Ret (kv, t, RValue v e)
  | TSet v => let '(kv, t, e) := Set_ keyBytes vToBytes kv t v in Ret (kv, t, RDone e)
  | TDelete => let '(kv, t, e) := Delete keyBytes kv t in Ret (kv, t, RDone e)
  | TOther k bytes => let '(kv, e) := kv_Set kv k bytes in Ret (kv, t, RDone e)
  end.

(** The specification: one optional value [a]; what a step does to it, and what it may answer. *)
Definition tspec (a : option V) (o : top V) : option V :=
  match o with
  | TCompute f => match f (default zero a) (bool_decide (is_Some a)) with (v, None) => Some v | _ => a end
  | TSet v => match vToBytes v with (_, None) => Some v | _ => a end
  | TDelete => None
  | _ => a
  end.

Definition is_err (e : option error) (target : error) : Prop :=
  match e with Some e => Is e target = true | None => False end.

Definition tanswer (a : option V) (o : top V) (r : tres V) : Prop :=
  match o, r with
  | TGetCached, RMiss | THasCached, RMiss => True
  | TGetCached, RValue v e | TGetLocked, RValue v e =>
      match a with Some v' => v = v' ∧ e = None | None => is_err e ErrKeyNotFound end
  | THasCached, RHas b e | THasLocked, RHas b e => b = bool_decide (is_Some a) ∧ e = None
  | TCompute f, RValue v e =>
      match f (default zero a) (bool_decide (is_Some a)) with
      | (v', None) => v = v' ∧ e = None
      | (v', Some err) =>
          if Is err ErrTypedValueNotChanged then v = default zero a ∧ e = None
          else v = v' ∧ is_err e err
      end
  | TSet v, RDone e => match (vToBytes v).2 with Some err => is_err e err | None => e = None end
  | TDelete, RDone e | TOther _ _, RDone e => e = None
  | _, _ => False
  end.

(** A step that keeps the key to the value, and encodes what it computes. *)
Definition tlegal (a : option V) (o : top V) : Prop :=
  match o with
  | TOther k _ => k ≠ keyBytes
  | TCompute f =>
      match f (default zero a) (bool_decide (is_Some a)) with
      | (v, None) => (vToBytes v).2 = None
      | _ => True
      end
  | _ => True
  end.

(** All steps of a run: legal, answered without a panic as the specification says. *)
Fixpoint trun_ok (kv : S) (t : TypedValue V) (a : option V) (ops : list (top V)) : Prop :=
  match ops with
  | [] => True
  | o :: ops =>
      tlegal a o →
      ∃ kv' t' r, tstep kv t o = Ret (kv', t', r) ∧ tanswer a o r ∧ trun_ok kv' t' (tspec a o) ops
  end.

End Steps.

(** ** Coherence of the cache *)

Section Coherence.
Context {S V : Type} `{KVStoreLaws S}.
Variables (zero : V) (keyBytes : Key) (vToBytes : ObjectToBytes V) (bytesToV : BytesToObject V).

(** The value in the store. *)
Definition holds (kv : S) (a : option V) : Prop :=
  match kv_content kv keyBytes with
  | None => a = None
  | Some bytes => ∃ v n, bytesToV bytes = (v, n, None) ∧ a = Some v
  end.

Record tinv (kv : S) (t : TypedValue V) (a : option V) : Prop := {
  tinv_open : kv_open kv = true;
  tinv_holds : holds kv a;
  tinv_has : ∀ b, hasCached t = Some b → b = bool_decide (is_Some a);
  tinv_value : ∀ v, valueCached t = Some v → hasCached t = Some true ∧ a = Some v;
}.

Hypothesis roundtrip : ∀ v bytes, vToBytes v = (bytes, None) → ∃ n, bytesToV bytes = (v, n, None).

(** Reading the store. *)
Lemma kv_Get_holds kv a :
  kv_open kv = true → holds kv a →
  match a with
  | None => kv_Get kv keyBytes = inr ErrKeyNotFound
  | Some v => ∃ bytes n, kv_Get kv keyBytes = inl bytes ∧ bytesToV bytes = (v, n, None)
  end.
Proof.
  intros Ho Hh. rewrite law_get, Ho. unfold holds in Hh.
  destruct (kv_content kv keyBytes) as [bytes|]; [|by subst a].
  destruct Hh as (v & n & Hd & ->). by exists bytes, n.
Qed.

Lemma kv_Has_holds kv a :
  kv_open kv = true → holds kv a → kv_Has kv keyBytes = inl (bool_decide (is_Some a)).
Proof.
  intros Ho Hh. rewrite law_has, Ho. unfold holds in Hh. f_equal.
  destruct (kv_content kv keyBytes) as [bytes|]; [|by subst a].
  destruct Hh as (v & n & Hd & ->). apply bool_decide_ext. by split; eauto.
Qed.

(** Writing a value that decodes. *)
Lemma kv_Set_decodes kv v bytes n :
  kv_open kv = true → bytesToV bytes = (v, n, None) →
  ∃ kv', kv_Set kv keyBytes bytes = (kv', None) ∧ tinv kv' (Typed (Some v) (Some true)) (Some v).
Proof.
  intros Ho Hn. pose proof (law_set kv keyBytes bytes) as E. rewrite Ho in E.
  destruct E as (kv' & E & Ho' & Hc). exists kv'. split; [done|].
  split; simpl; [done| |naive_solver..].
  unfold holds. rewrite Hc, decide_True by done. by exists v, n.
Qed.

Lemma kv_Set_holds kv v bytes :
  kv_open kv = true → vToBytes v = (bytes, None) →
  ∃ kv', kv_Set kv keyBytes bytes = (kv', None) ∧ tinv kv' (Typed (Some v) (Some true)) (Some v).
Proof. intros Ho Hv. destruct (roundtrip _ _ Hv) as [n Hn]. by eapply kv_Set_decodes. Qed.

Lemma Get_cached_ok kv t a :
  tinv kv t a →
  match Get_cached zero t with
  | Some (v, e) => match a with Some v' => v = v' ∧ e = None | None => is_err e ErrKeyNotFound end
  | None => valueCached t = None
  end.
Proof.
  intros [Ho Hh Hhas Hval]. unfold Get_cached.
  destruct (hasCached t) as [[]|] eqn:E.
  - destruct (valueCached t) as [v|] eqn:Ev; [|done]. destruct (Hval v) as [_ ->]; done.
  - specialize (Hhas false eq_refl). symmetry in Hhas. apply bool_decide_eq_false in Hhas.
    destruct a as [v|]; [destruct Hhas; eauto|]. apply (Is_refl ErrKeyNotFound).
  - destruct (valueCached t) as [v|] eqn:Ev; [|done]. destruct (Hval v) as [? _]; done.
Qed.

Lemma Get_locked_ok kv t a :
  tinv kv t a →
  ∃ t' v e, Get_locked zero keyBytes bytesToV kv t = (t', (v, e)) ∧ tinv kv t' a ∧
    match a with Some v' => v = v' ∧ e = None | None => is_err e ErrKeyNotFound end.
Proof.
  intros Hinv. pose proof (Get_cached_ok kv t a Hinv) as Hc. unfold Get_locked.
  destruct (Get_cached zero t) as [[v e]|]; [by exists t, v, e|].
  pose proof Hinv as [Ho Hh Hhas Hval]. pose proof (kv_Get_holds kv a Ho Hh) as Hget.
  destruct a as [v|].
  - destruct Hget as (bytes & n & -> & ->). eexists _, _, _. split; [done|]. split; [|done].
    split; simpl; [done|done|naive_solver..].
  - rewrite Hget, Is_refl. eexists _, _, _. split; [done|]. split; [|done].
    split; simpl; [done|done|naive_solver|]. by rewrite Hc.
Qed.

Lemma Has_locked_ok kv t a :
  tinv kv t a →
  ∃ t', Has_locked keyBytes kv t = (t', (bool_decide (is_Some a), None)) ∧ tinv kv t' a.
Proof.
  intros Hinv. pose proof Hinv as [Ho Hh Hhas Hval]. unfold Has_locked, Has_cached.
  destruct (hasCached t) as [b|] eqn:E.
  - rewrite <-(Hhas b) by done. by exists t.
  - rewrite (kv_Has_holds kv a Ho Hh). eexists. split; [done|].
    split; simpl; [done|done|naive_solver|]. intros v Hv. destruct (Hval v Hv). congruence.
Qed.

Lemma Compute_current_ok kv t a :
  tinv kv t a →
  Compute_current zero keyBytes bytesToV kv t = Ret (inl (default zero a, bool_decide (is_Some a))).
Proof.
  intros [Ho Hh Hhas Hval]. unfold Compute_current, cachedValue, must_read.
  pose proof (kv_Get_holds kv a Ho Hh) as Hget.
  destruct (valueCached t) as [v|] eqn:Ev.
  - destruct (Hval v eq_refl) as [-> ->]. destruct Hget as (bytes & n & Hg & Hd).
    cbn [mbind outcome_bind]. by rewrite Hg, Hd.
  - destruct (hasCached t) as [[]|] eqn:E; cbn [mbind outcome_bind].
    + specialize (Hhas true eq_refl). symmetry in Hhas. apply bool_decide_eq_true in Hhas as [v ->].
      destruct Hget as (bytes & n & Hg & Hd). by rewrite Hg, Hd.
    + specialize (Hhas false eq_refl). symmetry in Hhas. apply bool_decide_eq_false in Hhas.
      destruct a as [v|]; [destruct Hhas; eauto|done].
    + destruct a as [v|]; [destruct Hget as (bytes & n & Hg & Hd); by rewrite Hg, Hd|].
      by rewrite Hget, Is_refl.
Qed.

Lemma Compute_ok kv t a f :
  tinv kv t a → tlegal zero keyBytes vToBytes a (TCompute f) →
  ∃ kv' t' v e, Compute zero keyBytes vToBytes bytesToV kv t f = Ret (kv', t', (v, e)) ∧
    tinv kv' t' (tspec zero vToBytes a (TCompute f)) ∧
    tanswer zero vToBytes a (TCompute f) (RValue v e).
Proof.
  intros Hinv Hlegal. unfold Compute. rewrite (Compute_current_ok kv t a Hinv).
  cbn [mbind outcome_bind tlegal tspec tanswer] in *.
  destruct (f (default zero a) (bool_decide (is_Some a))) as [v [err|]].
  - destruct (Is err ErrTypedValueNotChanged); eexists _, _, _, _; (split; [done|]); (split; [done|]).
    + done.
    + split; [done|]. apply (Is_wrap err err), Is_refl.
  - destruct (vToBytes v) as [bytes e] eqn:Ev. simpl in Hlegal. subst e.
    destruct (kv_Set_holds kv v bytes (tinv_open _ _ _ Hinv) Ev) as (kv' & -> & Hinv').
    by eexists _, _, _, _.
Qed.

Lemma Set_ok kv t a v :
  tinv kv t a →
  ∃ kv' t' e, Set_ keyBytes vToBytes kv t v = (kv', t', e) ∧
    tinv kv' t' (tspec zero vToBytes a (TSet v)) ∧ tanswer zero vToBytes a (TSet v) (RDone e).
Proof.
  intros Hinv. unfold Set_. cbn [tspec tanswer]. destruct (vToBytes v) as [bytes [err|]] eqn:Ev.
  - eexists _, _, _. split; [done|]. split; [done|]. apply (Is_wrap err err), Is_refl.
  - destruct (kv_Set_holds kv v bytes (tinv_open _ _ _ Hinv) Ev) as (kv' & -> & Hinv').
    by eexists _, _, _.
Qed.

Lemma Delete_ok kv t a :
  tinv kv t a → ∃ kv' t', Delete keyBytes kv t = (kv', t', None) ∧ tinv kv' t' None.
Proof.
  intros Hinv. unfold Delete. pose proof (law_delete kv keyBytes) as E.
  rewrite (tinv_open _ _ _ Hinv) in E. destruct E as (kv' & -> & Ho' & Hc).
  eexists _, _. split; [done|]. split; simpl; [done| |naive_solver..].
  unfold holds. by rewrite Hc, decide_True by done.
Qed.

Lemma Other_ok kv t a k bytes :
  tinv kv t a → k ≠ keyBytes → ∃ kv', kv_Set kv k bytes = (kv', None) ∧ tinv kv' t a.
Proof.
  intros [Ho Hh Hhas Hval] Hk. pose proof (law_set kv k bytes) as E. rewrite Ho in E.
  destruct E as (kv' & E & Ho' & Hc). exists kv'. split; [done|]. split; [done| |done..].
  unfold holds in *. by rewrite Hc, decide_False by done.
Qed.

Lemma tstep_ok kv t a o :
  tinv kv t a → tlegal zero keyBytes vToBytes a o →
  ∃ kv' t' r, tstep zero keyBytes vToBytes bytesToV kv t o = Ret (kv', t', r) ∧
    tanswer zero vToBytes a o r ∧ tinv kv' t' (tspec zero vToBytes a o).
Proof.
  intros Hinv Hlegal. destruct o as [| | | |f|v| |k bytes]; cbn [tstep].
  - pose proof (Get_cached_ok kv t a Hinv) as Hc. eexists _, _, _. split; [done|]. split; [|done].
    by destruct (Get_cached zero t) as [[v e]|].
  - destruct (Get_locked_ok kv t a Hinv) as (t' & v & e & -> & Hinv' & Hans). by eexists _, _, _.
  - eexists _, _, _. split; [done|]. split; [|done]. unfold Has_cached.
    destruct (hasCached t) as [b|] eqn:E; [|done]. simpl. by rewrite (tinv_has _ _ _ Hinv b E).
  - destruct (Has_locked_ok kv t a Hinv) as (t' & -> & Hinv'). by eexists _, _, _.
  - destruct (Compute_ok kv t a f Hinv Hlegal) as (kv' & t' & v & e & -> & Hinv' & Hans).
    by eexists _, _, _.
  - destruct (Set_ok kv t a v Hinv) as (kv' & t' & e & -> & Hinv' & Hans). by eexists _, _, _.
  - destruct (Delete_ok kv t a Hinv) as (kv' & t' & -> & Hinv'). by eexists _, _, _.
  - destruct (Other_ok kv t a k bytes Hinv Hlegal) as (kv' & -> & Hinv'). by eexists _, _, _.
Qed.

Lemma trun_ok_holds ops kv t a :
  tinv kv t a → trun_ok zero keyBytes vToBytes bytesToV kv t a ops.
Proof.
  revert kv t a. induction ops as [|o ops IH]; intros kv t a Hinv; [done|]. intros Hlegal.
  destruct (tstep_ok kv t a o Hinv Hlegal) as (kv' & t' & r & E & Hans & Hinv').
  exists kv', t', r. split_and!; [done..|]. by apply IH.
Qed.

End Coherence.

(** An encoder that fails on the value 1, and how [Compute] stores what it returned. *)
Definition failing_encoder : ObjectToBytes Z :=
  λ v, if v =? 1 then ([], Some (ErrNew "cannot encode")) else ([z2b v], None).

Definition byte_decoder : BytesToObject Z :=
  λ bytes, match bytes with [b] => (b2z b, 1, None) | _ => (0, 0, Some (ErrNew "cannot decode")) end.

Lemma Compute_ignores_encoding_error :
  Compute 0 [x01] failing_encoder byte_decoder (H := mapDB_KVStore []) NewMapDB.1 NewTypedValue
      (λ _ _, (1, None)) =
    Ret ((MapDB.Set_ [] NewMapDB.1 [x01] []).1, Typed (Some 1) (Some true), (1, None)).
Proof. reflexivity. Qed.

(** ** Property *)

(** C36: over a store that keeps the laws of the interface, with an encoder
    that the decoder inverts, every interleaving of the critical sections of
    [Get], [Has], [Compute], [Set] and [Delete] of a new [TypedValue], with
    writes to other keys of the store between them, behaves as one optional
    value: a read answers the value or an error that is [ErrKeyNotFound], from
    the cache as from the store, [Compute] passes the current value, keeps it
    when told so and stores the computed one, an encoder's error is reported by
    [Set] and nothing changes, and no step panics (in particular [Compute] never
    dereferences a nil flag).  [Compute] is required to compute values that the
    encoder accepts. *)
Theorem TypedValue_coherent {S V} `{KVStoreLaws S} (zero : V) (keyBytes : Key)
    (vToBytes : ObjectToBytes V) (bytesToV : BytesToObject V) (kv : S) (a : option V)
    (ops : list (top V)) :
  (∀ v bytes, vToBytes v = (bytes, None) → ∃ n, bytesToV bytes = (v, n, None)) →
  kv_open kv = true → holds keyBytes bytesToV kv a →
  trun_ok zero keyBytes vToBytes bytesToV kv NewTypedValue a ops.
Proof. intros Hrt Ho Hh. by apply trun_ok_holds. Qed.

(** Bytes encode themselves. *)
Lemma TypedValue_coherent_witness :
  ∃ kv' t' r,
    tstep [] [x01] (λ v, (v, None)) (λ bytes, (bytes, len bytes, None)) (H := mapDB_KVStore [])
      NewMapDB.1 NewTypedValue (TSet [x05]) = Ret (kv', t', r) ∧ r = RDone None.
Proof.
  destruct (TypedValue_coherent (H0 := mapDB_laws []) [] [x01] (λ v, (v, None))
    (λ bytes, (bytes, len bytes, None)) NewMapDB.1 None [TSet [x05]])
    as (kv' & t' & r & E & Hans & _).
  - intros v bytes Hv. injection Hv as ->. by eexists.
  - done.
  - done.
  - done.
  - exists kv', t', r. split; [done|]. destruct r as [| | |e]; simpl in Hans; try done. by subst.
Defined.
