(* ===== verification/ADS.v ===== *)
(** * ads: authenticated maps

    [src/ads/map_impl.go], [map_store_adapter.go] and [set_impl.go], on top of
    [TypedStore] and [TypedValue] (TypedValue.v) over any store with realms.

    The sparse Merkle tree is a library that is not part of the repository: the
    class [SMT] has the operations that the map calls and [SMTLaws] what it relies
    on.  A tree reads its nodes from a store when it needs them, and [Commit] writes
    nodes with the methods of [mapStoreAdapter]; an operation returns the tree with
    what it has loaded.  A tree returns nil, here [None], for a key that it does not
    have; the root is a digest of 32 bytes.  Encoded values are lists of bytes: an
    encoder that returns nil for a value, which the code then takes for a key that is
    not there, is not told from one that returns an empty slice.

    A method of the map holds its mutex and is one function; [S] is the state of the
    store, which the parts of the map share. *)

From S2P Require Import Prelude Bytes KVStore MapDB TypedValue.

(** ** A store with realms *)

(** Views of one store: what a view writes, the view of the whole store reads below the realm. *)
Class Realms (S : Type) : Type := {
  rv : Key → KVStore S;
  rl r : @KVStoreLaws S (rv r);
  rv_WithExtendedRealm : Key → S → Key → Key + error;
  realm_extend own s r :
    rv_WithExtendedRealm own s r = if @kv_open S (rv []) (rl []) s then inl (own ++ r) else inr ErrStoreClosed;
  realm_open r s : @kv_open S (rv r) (rl r) s = @kv_open S (rv []) (rl []) s;
  realm_content r s k : @kv_content S (rv r) (rl r) s k = @kv_content S (rv []) (rl []) s (r ++ k);
  realm_set r s k v s' : @kv_Set S (rv r) s k v = (s', None) →
    ∀ k', k' ≠ r ++ k → @kv_content S (rv []) (rl []) s' k' = @kv_content S (rv []) (rl []) s k';
  realm_delete r s k s' : @kv_Delete S (rv r) s k = (s', None) →
    ∀ k', k' ≠ r ++ k → @kv_content S (rv []) (rl []) s' k' = @kv_content S (rv []) (rl []) s k';
}.

(** ** The tree *)

Class SMT (T : Type) : Type := {
  smt_New : T;
  smt_Import : Value → T;
  smt_Get : (Key → Value + error) → T → Key → T * (option Value + error);
  smt_Update : (Key → Value + error) → T → Key → Value → T * option error;
  smt_Delete : (Key → Value + error) → T → Key → T * option error;
  smt_Root : T → Value;
  smt_Commit : T → T * list (Key * option Value);   (* what it writes: [Set] or [Delete] *)
}.

(** Reading nodes from a store with the content [c]. *)
Definition node_reader (c : Key → option Value) (k : Key) : Value + error :=
  match c k with Some v => inl v | None => inr ErrKeyNotFound end.

Definition after_writes (ws : list (Key * option Value)) (c : Key → option Value) : Key → option Value :=
  foldl (λ c '(k, v), λ k', if decide (k' = k) then v else c k') c ws.

Lemma after_writes_ext ws : ∀ c c', (∀ k, c k = c' k) → ∀ k, after_writes ws c k = after_writes ws c' k.
Proof.
  induction ws as [|[k v] ws IH]; intros c c' Hc k'; [apply Hc|]. cbn. apply IH. intros k2. destruct (decide (k2 = k)); [done|apply Hc].
Qed.

(** [smt_rep c t M]: with the nodes of [c], the tree [t] has the leaves [M]. *)
Class SMTLaws (T : Type) `{SMT T} : Type := {
  smt_rep : (Key → option Value) → T → gmap Key Value → Prop;
  smt_root_of : gmap Key Value → Value;
  smt_ext c c' t M : (∀ k, c k = c' k) → smt_rep c t M → smt_rep c' t M;
  smt_new c : smt_rep c smt_New ∅;
  smt_get c rd t M k : smt_rep c t M → (∀ k, rd k = node_reader c k) → ∃ t', smt_Get rd t k = (t', inl (M !! k)) ∧ smt_rep c t' M;
  smt_update c rd t M k v : smt_rep c t M → (∀ k, rd k = node_reader c k) →
    ∃ t', smt_Update rd t k v = (t', None) ∧ smt_rep c t' (<[k := v]> M);
  smt_delete c rd t M k : smt_rep c t M → (∀ k, rd k = node_reader c k) → is_Some (M !! k) →
    ∃ t', smt_Delete rd t k = (t', None) ∧ smt_rep c t' (base.delete k M);
  smt_root c t M : smt_rep c t M → smt_Root t = smt_root_of M;
  smt_root_length M : length (smt_root_of M) = 32%nat;
  smt_commit c t M : smt_rep c t M → ∃ t' ws, smt_Commit t = (t', ws) ∧
    smt_rep (after_writes ws c) t' M ∧ smt_rep (after_writes ws c) (smt_Import (smt_root_of M)) M;
}.

Section ads.
Context {S T K V : Type} `{Realms S} `{SMT T}.
Variables (R : Key).
Variables (identifierToBytes : ObjectToBytes (list byte)) (bytesToIdentifier : BytesToObject (list byte)).
Variables (keyToBytes : ObjectToBytes K) (bytesToKey : BytesToObject K).
Variables (zeroV : V) (valueToBytes : ObjectToBytes V) (bytesToValue : BytesToObject V).

Definition prefixRawKeysStorage : byte := x00.
Definition prefixTreeStorage : byte := x01.
Definition prefixRootKey : byte := x02.
Definition prefixSizeKey : byte := x03.

(** [types.Empty]; the typeutils of [uint64]. *)
Definition Empty_Bytes (e : unit) : list byte * option error := ([], None).
Definition EmptyFromBytes (b : list byte) : unit * Z * option error := ((), 0, None).
Definition Uint64ToBytes (u : Z) : list byte * option error := (le_bytes 8 u, None).
Definition Uint64FromBytes (bytes : list byte) : Z * Z * option error :=
  if len bytes <? 8 then (0, 0, Some (ErrNew "not enough bytes to decode uint64")) else (le_num (take 8 bytes), 8, None).

Record authenticatedMap : Type := mkMap {
  rawKeysStore : Key;      (* the realms of the two stores *)
  treeStore : Key;
  tree : T;
  size : TypedValue Z;
  root : TypedValue (list byte);
}.

(** ** mapStoreAdapter *)

Definition adapter_Get (nodes : Key) (s : S) (key : Key) : Value + error := @kv_Get S (rv nodes) s key.
Definition adapter_Set (nodes : Key) (s : S) (key : Key) (value : Value) : S * option error := @kv_Set S (rv nodes) s key value.
Definition adapter_Delete (nodes : Key) (s : S) (key : Key) : S * option error := @kv_Delete S (rv nodes) s key.
Definition adapter_Len (nodes : Key) (s : S) : outcome Z :=
  match @kv_IterateKeys S (rv nodes) s [] IterDirectionForward with
  | inl keys => Ret (len keys)
  | inr err => Panic "failed to iterate over keys: %w"
  end.
Definition adapter_ClearAll (nodes : Key) (s : S) : S * option error := @kv_Clear S (rv nodes) s.

(** The writes of a commit, up to the first error. *)
Fixpoint adapter_writes (nodes : Key) (s : S) (ws : list (Key * option Value)) : S * option error :=
  match ws with
  | [] => (s, None)
  | (k, v) :: ws =>
      match (match v with Some v => adapter_Set nodes s k v | None => adapter_Delete nodes s k end) with
      | (s, None) => adapter_writes nodes s ws
      | (s, Some err) => (s, Some err)
      end
  end.

(** ** The map *)

Definition PanicOnErr {A} (r : A + error) : outcome A :=
  match r with inl a => Ret a | inr _ => Panic "panic on error" end.

Definition size_Get (s : S) (t : TypedValue Z) : TypedValue Z * (Z * option error) :=
  match Get_cached 0 t with
  | Some r => (t, r)
  | None => Get_locked (H := rv R) 0 [prefixSizeKey] Uint64FromBytes s t
  end.

Definition zeroIdentifier : list byte := replicate 32 x00.

Definition root_Get (s : S) (t : TypedValue (list byte)) : TypedValue (list byte) * (list byte * option error) :=
  match Get_cached zeroIdentifier t with
  | Some r => (t, r)
  | None => Get_locked (H := rv R) zeroIdentifier [prefixRootKey] bytesToIdentifier s t
  end.

(** [IdentifierType(slice)]: an array of 32 bytes. *)
Definition IdentifierType (slice : Value) : outcome (list byte) :=
  if len slice <? 32 then Panic "cannot convert slice to array" else Ret (take 32 slice).

Definition newAuthenticatedMap (s : S) : outcome authenticatedMap :=
  raw ← PanicOnErr (rv_WithExtendedRealm R s [prefixRawKeysStorage]);
  nodes ← PanicOnErr (rv_WithExtendedRealm R s [prefixTreeStorage]);
  let '(rt, (id, err)) := root_Get s NewTypedValue in
  Ret (mkMap raw nodes (match err with None => smt_Import id | Some _ => smt_New end) NewTypedValue rt).

Definition WasRestoredFromStorage (s : S) (m : authenticatedMap) : authenticatedMap * bool :=
  let '(rt, (_, err)) := root_Get s (root m) in
  (mkMap (rawKeysStore m) (treeStore m) (tree m) (size m) rt,
   match err with Some e => negb (Is e ErrKeyNotFound) | None => true end).

Definition set_tree (m : authenticatedMap) (t : T) : authenticatedMap :=
  mkMap (rawKeysStore m) (treeStore m) t (size m) (root m).
Definition set_size (m : authenticatedMap) (t : TypedValue Z) : authenticatedMap :=
  mkMap (rawKeysStore m) (treeStore m) (tree m) t (root m).
Definition set_root (m : authenticatedMap) (t : TypedValue (list byte)) : authenticatedMap :=
  mkMap (rawKeysStore m) (treeStore m) (tree m) (size m) t.

Definition Root (m : authenticatedMap) : outcome (list byte) := IdentifierType (smt_Root (tree m)).

Definition has (s : S) (m : authenticatedMap) (keyBytes : Key) : authenticatedMap * (bool + error) :=
  let '(t, value) := smt_Get (adapter_Get (treeStore m) s) (tree m) keyBytes in
  (set_tree m t,
   match value with
   | inr err => inr (ErrWrap err "failed to get from tree")
   | inl value => inl (bool_decide (is_Some value))
   end).

Definition addSize (s : S) (m : authenticatedMap) (delta : Z) : S * authenticatedMap * option error :=
  let '(sz, (n, err)) := size_Get s (size m) in
  let m := set_size m sz in
  if match err with Some e => negb (Is e ErrKeyNotFound) | None => false end then
    (s, m, (λ e, ErrWrap e "failed to get size") <$> err)
  else
    let '(s, sz, err) :=
      TypedValue.Set_ (H := rv R) [prefixSizeKey] Uint64ToBytes s (size m) (wrap U64 (wrap I64 (wrap I64 n + delta))) in
    (s, set_size m sz, (λ e, ErrWrap e "failed to set size") <$> err).

Definition Set_ (s : S) (m : authenticatedMap) (key : K) (value : V) : S * authenticatedMap * option error :=
  match valueToBytes value with
  | (_, Some err) => (s, m, Some (ErrWrap err "failed to serialize value"))
  | (valueBytes, None) =>
      match keyToBytes key with
      | (_, Some err) => (s, m, Some (ErrWrap err "failed to serialize key"))
      | (keyBytes, None) =>
          match has s m keyBytes with
          | (m, inr err) => (s, m, Some (ErrWrap err "failed to check if key exists"))
          | (m, inl has) =>
              match smt_Update (adapter_Get (treeStore m) s) (tree m) keyBytes valueBytes with
              | (t, Some err) => (s, set_tree m t, Some (ErrWrap err "failed to update tree"))
              | (t, None) =>
                  let m := set_tree m t in
                  match TypedStore_Set (H := rv (rawKeysStore m)) keyToBytes Empty_Bytes s key () with
                  | (s, Some err) => (s, m, Some (ErrWrap err "failed to set raw key"))
                  | (s, None) =>
                      if has : bool then (s, m, None)
                      else let '(s, m, err) := addSize s m 1 in (s, m, (λ e, ErrWrap e "failed to increase size") <$> err)
                  end
              end
          end
      end
  end.

Definition Size (s : S) (m : authenticatedMap) : authenticatedMap * Z :=
  let '(sz, (n, err)) := size_Get s (size m) in
  (set_size m sz, match err with Some _ => 0 | None => wrap I64 n end).

Definition Commit (s : S) (m : authenticatedMap) : outcome (S * authenticatedMap * option error) :=
  id ← Root m;
  let '(s, rt, err) := TypedValue.Set_ (H := rv R) [prefixRootKey] identifierToBytes s (root m) id in
  let m := set_root m rt in
  match err with
  | Some err => Ret (s, m, Some (ErrWrap err "failed to set root"))
  | None =>
      let '(t, ws) := smt_Commit (tree m) in
      let '(s, err) := adapter_writes (treeStore m) s ws in
      Ret (s, set_tree m t, err)
  end.

Definition Delete (s : S) (m : authenticatedMap) (key : K) : S * authenticatedMap * (bool * option error) :=
  match keyToBytes key with
  | (_, Some err) => (s, m, (false, Some (ErrWrap err "failed to serialize key")))
  | (keyBytes, None) =>
      match has s m keyBytes with
      | (m, inr err) => (s, m, (false, Some (ErrWrap err "failed to check if key exists")))
      | (m, inl false) => (s, m, (false, None))
      | (m, inl true) =>
          match smt_Delete (adapter_Get (treeStore m) s) (tree m) keyBytes with
          | (t, Some err) => (s, set_tree m t, (false, Some (ErrWrap err "failed to delete from tree")))
          | (t, None) =>
              let m := set_tree m t in
              match TypedStore_Delete (H := rv (rawKeysStore m)) keyToBytes s key with
              | (s, Some err) => (s, m, (false, Some (ErrWrap err "failed to delete from raw keys store")))
              | (s, None) =>
                  let '(s, m, err) := addSize s m (-1) in
                  match err with
                  | Some err => (s, m, (false, Some (ErrWrap err "failed to decrease size")))
                  | None => (s, m, (true, None))
                  end
              end
          end
      end
  end.

Definition Has (s : S) (m : authenticatedMap) (key : K) : authenticatedMap * (bool + error) :=
  match keyToBytes key with
  | (_, Some err) => (m, inr (ErrWrap err "failed to serialize key"))
  | (keyBytes, None) => has s m keyBytes
  end.

(** The value, whether it exists, and the error. *)
Definition Get (s : S) (m : authenticatedMap) (key : K) : authenticatedMap * (V * bool * option error) :=
  match keyToBytes key with
  | (_, Some err) => (m, (zeroV, false, Some (ErrWrap err "failed to serialize key")))
  | (keyBytes, None) =>
      let '(t, valueBytes) := smt_Get (adapter_Get (treeStore m) s) (tree m) keyBytes in
      let m := set_tree m t in
      match valueBytes with
      | inr err => (m, (zeroV, false, Some (ErrWrap err "failed to get from tree")))
      | inl None => (m, (zeroV, false, None))
      | inl (Some valueBytes) =>
          match bytesToValue valueBytes with
          | (_, _, Some err) => (m, (zeroV, false, Some (ErrWrap err "failed to deserialize value")))
          | (v, consumed, None) =>
              if consumed =? len valueBytes then (m, (v, true, None))
              else (m, (zeroV, false, Some (ErrNew "failed to parse entire value")))
          end
      end
  end.

(** The function that [Stream] passes to [IterateKeys]; a nil slice has no bytes. *)
Definition streaming {A} (s : S) (nodes : Key) (callback : K → V → A → A * option error) (key : K)
    (st : T * A * option error) : (T * A * option error) * bool :=
  let '(t, a, innerErr) := st in
  match keyToBytes key with
  | (_, Some err) => ((t, a, Some (ErrWrap err "failed to serialize key %s")), false)
  | (keyBytes, None) =>
      match smt_Get (adapter_Get nodes s) t keyBytes with
      | (t, inr err) => ((t, a, Some (ErrWrap err "failed to get value for key %s")), false)
      | (t, inl valueBytes) =>
          match bytesToValue (default [] valueBytes) with
          | (_, _, Some err) => ((t, a, Some (ErrWrap err "failed to deserialize value %s")), false)
          | (value, _, None) =>
              match callback key value a with
              | (a, Some err) => ((t, a, Some (ErrWrap err "failed to execute callback for key %s")), false)
              | (a, None) => ((t, a, innerErr), true)
              end
          end
      end
  end.

Definition Stream {A} (s : S) (m : authenticatedMap) (callback : K → V → A → A * option error) (a : A) :
    authenticatedMap * A * option error :=
  let '((t, a, innerErr), iterationErr) :=
    TypedStore_IterateKeys (H := rv (rawKeysStore m)) bytesToKey s [] (streaming s (treeStore m) callback)
      IterDirectionForward (tree m, a, None) in
  (set_tree m t, a,
   match iterationErr with Some err => Some (ErrWrap err "failed to iterate over raw keys") | None => innerErr end).
End ads.

(** ** Sets *)

Section set.
Context {S T K : Type} `{Realms S} `{SMT T}.
Variables (R : Key) (keyToBytes : ObjectToBytes K) (bytesToKey : BytesToObject K).

Definition Add (s : S) (m : authenticatedMap) (key : K) : S * authenticatedMap * option error :=
  Set_ R keyToBytes Empty_Bytes s m key ().

Definition Stream_set {A} (s : S) (m : authenticatedMap) (callback : K → A → A * option error) (a : A) :
    authenticatedMap * A * option error :=
  Stream keyToBytes bytesToKey EmptyFromBytes s m (λ key _, callback key) a.
End set.

(** ** The map refines a map *)

Section refinement.
Context {S T K V : Type} `{Realms S} `{SMTLaws T} `{Countable K}.
Variables (R : Key).
Variables (identifierToBytes : ObjectToBytes (list byte)) (bytesToIdentifier : BytesToObject (list byte)).
Variables (keyToBytes : ObjectToBytes K) (bytesToKey : BytesToObject K).
Variables (zeroV : V) (valueToBytes : ObjectToBytes V) (bytesToValue : BytesToObject V).
Hypothesis id_roundtrip : ∀ id, length id = 32%nat → ∃ bytes n, identifierToBytes id = (bytes, None) ∧ bytesToIdentifier bytes = (id, n, None).
Hypothesis key_roundtrip : ∀ k b, keyToBytes k = (b, None) → ∃ n, bytesToKey b = (k, n, None).
Hypothesis value_roundtrip : ∀ v b, valueToBytes v = (b, None) → bytesToValue b = (v, len b, None).

Definition is_open (s : S) : bool := @kv_open S (rv []) (rl []) s.
Definition base_content (s : S) : Key → option Value := @kv_content S (rv []) (rl []) s.

Notation rawR := (R ++ [prefixRawKeysStorage]).
Notation nodesR := (R ++ [prefixTreeStorage]).

Definition nodes_content (s : S) : Key → option Value := λ k, base_content s (nodesR ++ k).

(** The leaves of the tree are the encoded entries. *)
Record encoded (M : gmap K V) (E : gmap Key Value) : Prop := {
  enc_forth k v : M !! k = Some v → ∃ kb vb, keyToBytes k = (kb, None) ∧ valueToBytes v = (vb, None) ∧ E !! kb = Some vb;
  enc_back kb vb : E !! kb = Some vb → ∃ k v, keyToBytes k = (kb, None) ∧ valueToBytes v = (vb, None) ∧ M !! k = Some v;
}.

Definition keys_of (M : gmap K V) : gmap K unit := (λ _, ()) <$> M.

Record ads_rep (s : S) (m : authenticatedMap) (M : gmap K V) (rt : option (list byte)) : Prop := {
  a_open : is_open s = true;
  a_raw : rawKeysStore m = rawR;
  a_nodes : treeStore m = nodesR;
  a_keys : @trep S K unit (rv rawR) (rl rawR) _ _ keyToBytes Empty_Bytes s (keys_of M);
  a_tree : ∃ E, encoded M E ∧ smt_rep (nodes_content s) (tree m) E;
  a_size : ∃ a, @tinv S Z (rv R) (rl R) [prefixSizeKey] Uint64FromBytes s (size m) a ∧ default 0 a = Z.of_nat (base.size M);
  a_root : @tinv S (list byte) (rv R) (rl R) [prefixRootKey] bytesToIdentifier s (root m) rt;
}.

(** The stored root leads to [M]. *)
Definition committed (s : S) (M : gmap K V) (rt : option (list byte)) : Prop :=
  match rt with
  | None => M = ∅
  | Some id => ∃ E, encoded M E ∧ smt_rep (nodes_content s) (smt_Import id) E
  end.

(** ** What writes leave alone *)

Lemma below_apart (a b : byte) k k' : a ≠ b → (R ++ [a]) ++ k ≠ (R ++ [b]) ++ k'.
Proof. intros Hab Heq. rewrite <-!app_assoc in Heq. apply app_inv_head in Heq. by injection Heq. Qed.

Lemma trep_frame s s' M :
  is_open s' = true → (∀ k, base_content s' (rawR ++ k) = base_content s (rawR ++ k)) →
  @trep S K unit (rv rawR) (rl rawR) _ _ keyToBytes Empty_Bytes s M → @trep S K unit (rv rawR) (rl rawR) _ _ keyToBytes Empty_Bytes s' M.
Proof.
  intros Ho Hc [_ Hd He]. split.
  - by rewrite realm_open.
  - intros b vb. rewrite realm_content. fold (base_content s'). rewrite Hc. intros Hb. apply Hd. by rewrite realm_content.
  - intros k v HM. destruct (He k v HM) as (b & vb & ? & ? & Hb). exists b, vb. split_and!; [done..|].
    rewrite realm_content. fold (base_content s'). rewrite Hc. by rewrite realm_content in Hb.
Qed.

Lemma tinv_frame {A} key (dec : BytesToObject A) s s' t a :
  is_open s' = true → base_content s' (R ++ key) = base_content s (R ++ key) →
  @tinv S A (rv R) (rl R) key dec s t a → @tinv S A (rv R) (rl R) key dec s' t a.
Proof.
  intros Ho Hc [_ Hh Hx1 Hx2]. split; [by rewrite realm_open| |done..]. unfold holds in *.
  rewrite realm_content in *. fold (base_content s'). by rewrite Hc.
Qed.

Lemma nodes_frame s s' t E :
  (∀ k, base_content s' (nodesR ++ k) = base_content s (nodesR ++ k)) → smt_rep (nodes_content s) t E → smt_rep (nodes_content s') t E.
Proof. intros Hc. apply smt_ext. intros k. unfold nodes_content. by rewrite Hc. Qed.

(** Writing the size or the root. *)
Lemma value_Set {A} (b : byte) (enc : ObjectToBytes A) (dec : BytesToObject A) s t v bytes n :
  is_open s = true → enc v = (bytes, None) → dec bytes = (v, n, None) →
  ∃ s' t', TypedValue.Set_ (H := rv R) [b] enc s t v = (s', t', None) ∧ is_open s' = true ∧
    @tinv S A (rv R) (rl R) [b] dec s' t' (Some v) ∧ ∀ k, k ≠ R ++ [b] → base_content s' k = base_content s k.
Proof.
  intros Ho He Hd. unfold TypedValue.Set_. rewrite He.
  assert (@kv_open S (rv R) (rl R) s = true) as Ho' by (by rewrite realm_open).
  destruct (@kv_Set_decodes S A (rv R) (rl R) [b] dec s v bytes n Ho' Hd) as (s' & E & Hinv). rewrite E.
  exists s'. eexists. split_and!; [done| |done|].
  - pose proof (tinv_open _ _ _ _ _ Hinv) as Hop. by rewrite realm_open in Hop.
  - intros k Hk. eapply realm_set; [exact E|done].
Qed.

(** ** The parts of the operations *)

Lemma reader_ok s k : is_open s = true → adapter_Get nodesR s k = node_reader (nodes_content s) k.
Proof.
  intros Ho. unfold adapter_Get, node_reader, nodes_content. rewrite (@law_get S (rv nodesR) (rl nodesR)), realm_open.
  fold (is_open s). by rewrite Ho, realm_content.
Qed.

Lemma size_Get_eq s t : size_Get R s t = Get_locked (H := rv R) 0 [prefixSizeKey] Uint64FromBytes s t.
Proof. unfold size_Get, Get_locked. by destruct (Get_cached 0 t). Qed.

Lemma root_Get_eq s t : root_Get R bytesToIdentifier s t = Get_locked (H := rv R) zeroIdentifier [prefixRootKey] bytesToIdentifier s t.
Proof. unfold root_Get, Get_locked. by destruct (Get_cached zeroIdentifier t). Qed.

Lemma encoded_lookup M E k kb :
  encoded M E → keyToBytes k = (kb, None) →
  match M !! k with Some v => ∃ vb, valueToBytes v = (vb, None) ∧ E !! kb = Some vb | None => E !! kb = None end.
Proof.
  intros [Hf Hb] Hk. destruct (M !! k) as [v|] eqn:EM.
  - destruct (Hf k v EM) as (kb' & vb & Hk' & Hv & He). exists vb. split; [done|]. congruence.
  - destruct (E !! kb) as [vb|] eqn:EE; [|done]. destruct (Hb kb vb EE) as (k' & v & Hk' & _ & HM).
    destruct (key_roundtrip k kb Hk) as [n Hn], (key_roundtrip k' kb Hk') as [n' Hn']. congruence.
Qed.

Lemma key_injective k k' kb : keyToBytes k = (kb, None) → keyToBytes k' = (kb, None) → k = k'.
Proof. intros [n Hn]%key_roundtrip [n' Hn']%key_roundtrip. congruence. Qed.

Lemma encoded_insert M E k kb v vb :
  encoded M E → keyToBytes k = (kb, None) → valueToBytes v = (vb, None) → encoded (<[k := v]> M) (<[kb := vb]> E).
Proof.
  intros [Hf Hb] Hk Hv. split.
  - intros k' v'. rewrite lookup_insert_Some. intros [[<- <-]|[Hne HM]].
    + exists kb, vb. by rewrite lookup_insert_eq.
    + destruct (Hf k' v' HM) as (kb' & vb' & Hk' & Hv' & HE). exists kb', vb'. split_and!; [done..|].
      rewrite lookup_insert_ne; [done|]. intros <-. apply Hne. by eapply key_injective.
  - intros kb' vb'. rewrite lookup_insert_Some. intros [[<- <-]|[Hne HE]].
    + exists k, v. by rewrite lookup_insert_eq.
    + destruct (Hb kb' vb' HE) as (k' & v' & Hk' & Hv' & HM). exists k', v'. split_and!; [done..|].
      rewrite lookup_insert_ne; [done|]. intros <-. congruence.
Qed.

Lemma encoded_delete M E k kb : encoded M E → keyToBytes k = (kb, None) → encoded (base.delete k M) (base.delete kb E).
Proof.
  intros [Hf Hb] Hk. split.
  - intros k' v' [Hne HM]%lookup_delete_Some. destruct (Hf k' v' HM) as (kb' & vb' & Hk' & Hv' & HE). exists kb', vb'. split_and!; [done..|].
    rewrite lookup_delete_ne; [done|]. intros <-. apply Hne. by eapply key_injective.
  - intros kb' vb' [Hne HE]%lookup_delete_Some. destruct (Hb kb' vb' HE) as (k' & v' & Hk' & Hv' & HM). exists k', v'. split_and!; [done..|].
    rewrite lookup_delete_ne; [done|]. intros <-. congruence.
Qed.

Lemma rep_set_tree s m M rt t E :
  ads_rep s m M rt → encoded M E → smt_rep (nodes_content s) t E → ads_rep s (set_tree m t) M rt.
Proof. intros [] HE Ht. split; try done. by exists E. Qed.

Lemma has_ok s m M rt k kb :
  ads_rep s m M rt → keyToBytes k = (kb, None) →
  ∃ t, has s m kb = (set_tree m t, inl (bool_decide (is_Some (M !! k)))) ∧ ads_rep s (set_tree m t) M rt.
Proof.
  intros Hrep Hk. pose proof Hrep as [Ho _ Hn _ (E & HE & Ht) _ _]. unfold has. rewrite Hn.
  destruct (smt_get _ (adapter_Get nodesR s) _ _ kb Ht) as (t & -> & Ht'); [intros; by apply reader_ok|].
  exists t. split; [|by eapply rep_set_tree]. f_equal. f_equal. pose proof (encoded_lookup M E k kb HE Hk) as Hl.
  destruct (M !! k) as [v|]; [destruct Hl as (vb & _ & ->)|rewrite Hl]; apply bool_decide_ext; split; by eauto.
Qed.

Lemma Get_locked_zero {A} (zero : A) key dec s t :
  @tinv S A (rv R) (rl R) key dec s t None → (Get_locked (H := rv R) zero key dec s t).2.1 = zero.
Proof.
  intros [Ho Hh Hhas Hval]. unfold Get_locked, Get_cached.
  assert (valueCached t = None) as Hv by (destruct (valueCached t) as [v|] eqn:Ev; [by destruct (Hval v eq_refl)|done]).
  pose proof (@kv_Get_holds S A (rv R) (rl R) key dec s None Ho Hh) as Hg. rewrite Hv.
  destruct (hasCached t) as [[]|]; [|done|]; by rewrite Hg.
Qed.

Lemma uint64_roundtrip u : 0 ≤ u < 2 ^ 64 → Uint64FromBytes (le_bytes 8 u) = (u, 8, None).
Proof.
  intros Hu. unfold Uint64FromBytes, len. rewrite length_le_bytes. cbn [Z.of_nat].
  change (Z.of_nat 8 <? 8) with false. cbn iota. rewrite take_ge by (by rewrite length_le_bytes). by rewrite le_roundtrip.
Qed.

(** What [size.Get] and [root.Get] return. *)
Lemma size_Get_ok s t a :
  @tinv S Z (rv R) (rl R) [prefixSizeKey] Uint64FromBytes s t a →
  ∃ t' e, size_Get R s t = (t', (default 0 a, e)) ∧ @tinv S Z (rv R) (rl R) [prefixSizeKey] Uint64FromBytes s t' a ∧
    match a with Some _ => e = None | None => is_err e ErrKeyNotFound end.
Proof.
  intros Hinv. rewrite size_Get_eq. destruct (@Get_locked_ok S Z (rv R) (rl R) 0 _ _ _ _ _ Hinv) as (t' & v & e & E & Hinv' & Ha).
  exists t', e. split_and!; [|done|by destruct a as [x|]; [destruct Ha|]]. rewrite E. destruct a as [x|]; [by destruct Ha as [-> _]|].
  pose proof (Get_locked_zero 0 _ _ _ _ Hinv) as Hz. rewrite E in Hz. cbn in *. by rewrite Hz.
Qed.

Lemma wrap_size n d : 0 ≤ n < 2 ^ 63 → 0 ≤ n + d < 2 ^ 63 → wrap U64 (wrap I64 (wrap I64 n + d)) = n + d.
Proof.
  intros Hn Hd. unfold wrap. cbn [ity_signed ity_bits]. change (2 ^ (64 - 1)) with (2 ^ 63). assert (2 ^ 64 = 2 * 2 ^ 63) as Hp by done.
  rewrite (Z.mod_small (n + 2 ^ 63)) by lia. replace (n + 2 ^ 63 - 2 ^ 63) with n by lia.
  rewrite (Z.mod_small (n + d + 2 ^ 63)) by lia. replace (n + d + 2 ^ 63 - 2 ^ 63) with (n + d) by lia. apply Z.mod_small. lia.
Qed.

Lemma addSize_ok s (m : authenticatedMap (T := T)) a d :
  is_open s = true → @tinv S Z (rv R) (rl R) [prefixSizeKey] Uint64FromBytes s (size m) a →
  0 ≤ default 0 a < 2 ^ 63 → 0 ≤ default 0 a + d < 2 ^ 63 →
  ∃ s' sz, addSize R s m d = (s', set_size m sz, None) ∧ is_open s' = true ∧
    @tinv S Z (rv R) (rl R) [prefixSizeKey] Uint64FromBytes s' sz (Some (default 0 a + d)) ∧
    ∀ k, k ≠ R ++ [prefixSizeKey] → base_content s' k = base_content s k.
Proof.
  intros Ho Hinv Hn Hd. unfold addSize. destruct (size_Get_ok s (size m) a Hinv) as (t' & e & -> & Hinv' & Ha). cbn [size set_size].
  assert (match e with Some e => negb (Is e ErrKeyNotFound) | None => false end = false) as ->.
  { destruct a; [by subst|]. destruct e as [e|]; [|done]. cbn in Ha. by rewrite Ha. }
  rewrite wrap_size by done.
  destruct (value_Set prefixSizeKey Uint64ToBytes Uint64FromBytes s t' (default 0 a + d) (le_bytes 8 (default 0 a + d)) 8)
    as (s' & sz & E & Ho' & Hsz & Hfr); [done|done|apply uint64_roundtrip; lia|].
  cbn [size set_size]. rewrite E. exists s', sz. split_and!; done.
Qed.

(** The store of the raw keys. *)
Lemma raw_Set s M k kb :
  is_open s = true → @trep S K unit (rv rawR) (rl rawR) _ _ keyToBytes Empty_Bytes s M → keyToBytes k = (kb, None) →
  ∃ s', TypedStore_Set (H := rv rawR) keyToBytes Empty_Bytes s k () = (s', None) ∧ is_open s' = true ∧
    @trep S K unit (rv rawR) (rl rawR) _ _ keyToBytes Empty_Bytes s' (<[k := ()]> M) ∧
    ∀ k', k' ≠ rawR ++ kb → base_content s' k' = base_content s k'.
Proof.
  intros Ho Hr Hk. destruct (@TypedStore_Set_rep S K unit (rv rawR) (rl rawR) _ _ keyToBytes bytesToKey Empty_Bytes key_roundtrip s M k () kb [] Hr Hk eq_refl)
    as (s' & E & Hr'). exists s'. split_and!; [done| |done|].
  - pose proof (tr_open _ _ _ _ Hr') as Hop. by rewrite realm_open in Hop.
  - unfold TypedStore_Set in E. rewrite Hk in E. cbn in E. destruct (@kv_Set S (rv rawR) s kb []) as [s1 [e|]] eqn:Es; [done|].
    injection E as ->. by eapply realm_set.
Qed.

Lemma raw_Delete s M k kb :
  is_open s = true → @trep S K unit (rv rawR) (rl rawR) _ _ keyToBytes Empty_Bytes s M → keyToBytes k = (kb, None) →
  ∃ s', TypedStore_Delete (H := rv rawR) keyToBytes s k = (s', None) ∧ is_open s' = true ∧
    @trep S K unit (rv rawR) (rl rawR) _ _ keyToBytes Empty_Bytes s' (base.delete k M) ∧
    ∀ k', k' ≠ rawR ++ kb → base_content s' k' = base_content s k'.
Proof.
  intros Ho Hr Hk. destruct (@TypedStore_Delete_rep S K unit (rv rawR) (rl rawR) _ _ keyToBytes bytesToKey Empty_Bytes key_roundtrip s M k kb Hr Hk)
    as (s' & E & Hr'). exists s'. split_and!; [done| |done|].
  - pose proof (tr_open _ _ _ _ Hr') as Hop. by rewrite realm_open in Hop.
  - unfold TypedStore_Delete in E. rewrite Hk in E. destruct (@kv_Delete S (rv rawR) s kb) as [s1 [e|]] eqn:Es; [done|].
    injection E as ->. by eapply realm_delete.
Qed.

(** Changes of the raw keys and of the size do not reach the other parts. *)
Lemma rep_write s s' m t sz M M' rt E a :
  ads_rep s m M rt → is_open s' = true →
  @trep S K unit (rv rawR) (rl rawR) _ _ keyToBytes Empty_Bytes s' (keys_of M') →
  encoded M' E → smt_rep (nodes_content s) t E →
  @tinv S Z (rv R) (rl R) [prefixSizeKey] Uint64FromBytes s' sz a → default 0 a = Z.of_nat (base.size M') →
  (∀ k, (∀ k0, k ≠ rawR ++ k0) → k ≠ R ++ [prefixSizeKey] → base_content s' k = base_content s k) →
  ads_rep s' (set_size (set_tree m t) sz) M' rt.
Proof.
  intros [Ho Hraw Hn _ _ _ Hroot] Ho' Hkeys HE Ht Hsz Hsize Hfr. split; cbn; try done.
  - exists E. split; [done|]. eapply nodes_frame; [|done]. intros k. apply Hfr.
    + intros k0. by apply below_apart.
    + rewrite <-app_assoc. intros Heq%app_inv_head. done.
  - by exists a.
  - eapply tinv_frame; [done| |done]. apply Hfr.
    + intros k0. rewrite <-app_assoc. intros Heq%app_inv_head. done.
    + intros Heq%app_inv_head. done.
Qed.

Lemma keys_of_insert M k v : keys_of (<[k := v]> M) = <[k := ()]> (keys_of M).
Proof. apply fmap_insert. Qed.
Lemma keys_of_delete M k : keys_of (base.delete k M) = base.delete k (keys_of M).
Proof. apply fmap_delete. Qed.

(** ** The operations *)

Lemma ads_Set_ok s m M rt k kb v vb :
  ads_rep s m M rt → keyToBytes k = (kb, None) → valueToBytes v = (vb, None) → Z.of_nat (base.size M) + 1 < 2 ^ 63 →
  ∃ s' m', Set_ R keyToBytes valueToBytes s m k v = (s', m', None) ∧ ads_rep s' m' (<[k := v]> M) rt.
Proof.
  intros Hrep Hk Hv Hsize. unfold Set_. rewrite Hv, Hk. destruct (has_ok s m M rt k kb Hrep Hk) as (t & -> & Hrep1).
  pose proof Hrep1 as [Ho Hraw Hn Hkeys (E & HE & Ht) (a & Ha & Hsz) Hroot]. cbn [treeStore tree set_tree rawKeysStore] in *. rewrite Hn.
  destruct (smt_update _ (adapter_Get nodesR s) _ _ kb vb Ht) as (t1 & -> & Ht1); [intros; by apply reader_ok|]. rewrite Hraw.
  destruct (raw_Set s (keys_of M) k kb Ho Hkeys Hk) as (s1 & -> & Ho1 & Hkeys1 & Hfr1). rewrite <-(keys_of_insert M k v) in Hkeys1.
  pose proof (encoded_insert M E k kb v vb HE Hk Hv) as HE1. pose proof (map_size_insert k v M) as Hms.
  assert (@tinv S Z (rv R) (rl R) [prefixSizeKey] Uint64FromBytes s1 (size m) a) as Ha1.
  { eapply tinv_frame; [done| |done]. apply Hfr1. rewrite <-app_assoc. intros Heq%app_inv_head. done. }
  destruct (bool_decide_reflect (is_Some (M !! k))) as [[v0 Hv0]|Hnone].
  - eexists s1, _. split; [done|]. rewrite Hv0 in Hms. cbn in Hms.
    eapply (rep_write s s1 m t1 (size m) M (<[k := v]> M) rt _ a); [done..|by rewrite Hms|]. intros k' Hk' _. by apply Hfr1.
  - assert (M !! k = None) as Hk0 by (by apply eq_None_not_Some). rewrite Hk0 in Hms.
    destruct (addSize_ok s1 (set_tree (set_tree m t) t1) a 1) as (s2 & sz & -> & Ho2 & Hsz2 & Hfr2); [done|done|lia|lia|].
    eexists s2, _. split; [done|].
    eapply (rep_write s s2 m t1 sz M (<[k := v]> M) rt _ (Some (default 0 a + 1))); [done|done| |done|done|done| |].
    + eapply trep_frame; [done| |done]. intros k'. apply Hfr2. rewrite <-app_assoc. intros Heq%app_inv_head. done.
    + cbn. rewrite Hms. lia.
    + intros k' Hk' Hk''. rewrite Hfr2 by done. by apply Hfr1.
Qed.

Lemma ads_Delete_ok s m M rt k kb :
  ads_rep s m M rt → keyToBytes k = (kb, None) → Z.of_nat (base.size M) < 2 ^ 63 →
  ∃ s' m', Delete R keyToBytes s m k = (s', m', (bool_decide (is_Some (M !! k)), None)) ∧ ads_rep s' m' (base.delete k M) rt ∧
    (M !! k = None → s' = s).
Proof.
  intros Hrep Hk Hsize. unfold Delete. rewrite Hk. destruct (has_ok s m M rt k kb Hrep Hk) as (t & -> & Hrep1).
  destruct (bool_decide_reflect (is_Some (M !! k))) as [[v0 Hv0]|Hnone].
  - pose proof Hrep1 as [Ho Hraw Hn Hkeys (E & HE & Ht) (a & Ha & Hsz) Hroot]. cbn [treeStore tree set_tree rawKeysStore] in *. rewrite Hn.
    pose proof (encoded_lookup M E k kb HE Hk) as Hl. rewrite Hv0 in Hl. destruct Hl as (vb & _ & Hkb).
    destruct (smt_delete _ (adapter_Get nodesR s) _ _ kb Ht) as (t1 & -> & Ht1); [intros; by apply reader_ok|by eexists|]. rewrite Hraw.
    destruct (raw_Delete s (keys_of M) k kb Ho Hkeys Hk) as (s1 & -> & Ho1 & Hkeys1 & Hfr1). rewrite <-(keys_of_delete M k) in Hkeys1.
    pose proof (encoded_delete M E k kb HE Hk) as HE1. pose proof (map_size_delete k M) as Hms. rewrite Hv0 in Hms.
    assert (base.size M ≠ 0%nat) as Hne. { intros Hz%map_size_empty_iff. rewrite Hz, lookup_empty in Hv0. done. }
    assert (@tinv S Z (rv R) (rl R) [prefixSizeKey] Uint64FromBytes s1 (size m) a) as Ha1.
    { eapply tinv_frame; [done| |done]. apply Hfr1. rewrite <-app_assoc. intros Heq%app_inv_head. done. }
    destruct (addSize_ok s1 (set_tree (set_tree m t) t1) a (-1)) as (s2 & sz & -> & Ho2 & Hsz2 & Hfr2); [done|done|lia|lia|].
    eexists s2, _. split_and!; [done| |by rewrite Hv0].
    eapply (rep_write s s2 m t1 sz M (base.delete k M) rt _ (Some (default 0 a + -1))); [done|done| |done|done|done| |].
    + eapply trep_frame; [done| |done]. intros k'. apply Hfr2. rewrite <-app_assoc. intros Heq%app_inv_head. done.
    + cbn. rewrite Hms. lia.
    + intros k' Hk' Hk''. rewrite Hfr2 by done. by apply Hfr1.
  - eexists s, _. split_and!; [done| |done]. rewrite delete_id; [done|]. by apply eq_None_not_Some.
Qed.

Lemma ads_Get_ok s m M rt k kb :
  ads_rep s m M rt → keyToBytes k = (kb, None) →
  ∃ m', Get keyToBytes zeroV bytesToValue s m k =
      (m', match M !! k with Some v => (v, true, None) | None => (zeroV, false, None) end) ∧ ads_rep s m' M rt.
Proof.
  intros Hrep Hk. pose proof Hrep as [Ho _ Hn _ (E & HE & Ht) _ _]. unfold Get. rewrite Hk, Hn.
  destruct (smt_get _ (adapter_Get nodesR s) _ _ kb Ht) as (t & -> & Ht'); [intros; by apply reader_ok|].
  exists (set_tree m t). split; [|by eapply rep_set_tree]. pose proof (encoded_lookup M E k kb HE Hk) as Hl.
  destruct (M !! k) as [v|]; [|by rewrite Hl]. destruct Hl as (vb & Hv & ->). rewrite (value_roundtrip v vb Hv). by rewrite Z.eqb_refl.
Qed.

Lemma ads_Size_ok s m M rt :
  ads_rep s m M rt → Z.of_nat (base.size M) < 2 ^ 63 → ∃ m', Size R s m = (m', Z.of_nat (base.size M)) ∧ ads_rep s m' M rt.
Proof.
  intros Hrep Hsize. pose proof Hrep as [Ho Hraw Hn Hkeys Htree (a & Ha & Hsz) Hroot]. unfold Size.
  destruct (size_Get_ok s (size m) a Ha) as (t' & e & -> & Ha' & He). eexists. split.
  - f_equal. rewrite <-Hsz. destruct a as [x|]; cbn in *.
    + subst e. unfold wrap. cbn [ity_signed ity_bits]. change (2 ^ (64 - 1)) with (2 ^ 63). assert (2 ^ 64 = 2 * 2 ^ 63) as Hp by done.
      rewrite Z.mod_small by lia. lia.
    + by destruct e.
  - split; try done. by exists a.
Qed.

Lemma adapter_writes_ok ws : ∀ s, is_open s = true →
  ∃ s', adapter_writes nodesR s ws = (s', None) ∧ is_open s' = true ∧
    (∀ k, nodes_content s' k = after_writes ws (nodes_content s) k) ∧
    (∀ k, (∀ k0, k ≠ nodesR ++ k0) → base_content s' k = base_content s k).
Proof.
  induction ws as [|[k v] ws IH]; intros s Ho; [by exists s|]. cbn.
  assert (∃ s1, match v with Some v => adapter_Set nodesR s k v | None => adapter_Delete nodesR s k end = (s1, None) ∧ is_open s1 = true ∧
    (∀ k', nodes_content s1 k' = if decide (k' = k) then v else nodes_content s k') ∧
    (∀ k', k' ≠ nodesR ++ k → base_content s1 k' = base_content s k')) as (s1 & -> & Ho1 & Hc1 & Hfr1).
  { destruct v as [v|].
    - pose proof (@law_set S (rv nodesR) (rl nodesR) s k v) as HL. rewrite realm_open in HL. fold (is_open s) in HL. rewrite Ho in HL.
      destruct HL as (s1 & E & Ho1 & Hc). exists s1. split_and!; [done|by rewrite realm_open in Ho1| |by eapply realm_set].
      intros k'. specialize (Hc k'). by rewrite (realm_content nodesR s1), (realm_content nodesR s) in Hc.
    - pose proof (@law_delete S (rv nodesR) (rl nodesR) s k) as HL. rewrite realm_open in HL. fold (is_open s) in HL. rewrite Ho in HL.
      destruct HL as (s1 & E & Ho1 & Hc). exists s1. split_and!; [done|by rewrite realm_open in Ho1| |by eapply realm_delete].
      intros k'. specialize (Hc k'). by rewrite (realm_content nodesR s1), (realm_content nodesR s) in Hc. }
  destruct (IH s1 Ho1) as (s2 & E & Ho2 & Hc2 & Hfr2). exists s2. split_and!; [done|done| |].
  - intros k'. rewrite Hc2. by apply after_writes_ext.
  - intros k' Hk'. rewrite Hfr2 by done. by apply Hfr1.
Qed.

Lemma ads_Commit_ok s m M rt :
  ads_rep s m M rt →
  ∃ s' m' id, Commit R identifierToBytes s m = Ret (s', m', None) ∧ ads_rep s' m' M (Some id) ∧ committed s' M (Some id).
Proof.
  intros [Ho Hraw Hn Hkeys (E & HE & Ht) (a & Ha & Hsz) Hroot]. unfold Commit, Root, IdentifierType.
  rewrite (smt_root _ _ _ Ht). pose proof (smt_root_length E) as Hlen. unfold len. rewrite Hlen. cbn [Z.of_nat]. change (Z.of_nat 32 <? 32) with false. cbn.
  rewrite take_ge by lia. destruct (id_roundtrip (smt_root_of E) Hlen) as (bytes & n & He & Hd).
  destruct (value_Set prefixRootKey identifierToBytes bytesToIdentifier s (root m) (smt_root_of E) bytes n Ho He Hd)
    as (s1 & rt1 & -> & Ho1 & Hroot1 & Hfr1). cbn [tree set_root treeStore]. destruct (smt_commit _ _ _ Ht) as (t & ws & -> & Hc1 & Hc2).
  rewrite Hn. destruct (adapter_writes_ok ws s1 Ho1) as (s2 & -> & Ho2 & Hc & Hfr2).
  assert (∀ k, nodes_content s1 k = nodes_content s k) as Hs1.
  { intros k. apply Hfr1. rewrite <-app_assoc. intros Heq%app_inv_head. done. }
  assert (∀ k, after_writes ws (nodes_content s) k = nodes_content s2 k) as Hall.
  { intros k. rewrite Hc. apply after_writes_ext. intros k'. by rewrite Hs1. }
  assert (∀ b k, b ≠ prefixTreeStorage → b ≠ prefixRootKey → base_content s2 ((R ++ [b]) ++ k) = base_content s ((R ++ [b]) ++ k)) as Hfr.
  { intros b k Hb1 Hb2. rewrite Hfr2 by (intros k0; by apply below_apart). apply Hfr1. rewrite <-app_assoc. intros Heq%app_inv_head. by injection Heq. }
  eexists s2, _, (smt_root_of E). split_and!; [done| |exists E; split; [done|by eapply smt_ext]].
  split; cbn; try done.
  - eapply trep_frame; [done| |done]. intros k. by apply Hfr.
  - exists E. split; [done|]. by eapply smt_ext.
  - exists a. split; [|done]. eapply tinv_frame; [done| |done]. pose proof (Hfr prefixSizeKey []) as Hf. rewrite !app_nil_r in Hf. by apply Hf.
  - eapply tinv_frame; [done| |done]. apply Hfr2. intros k0. rewrite <-app_assoc. intros Heq%app_inv_head. done.
Qed.

(** A map that is opened on what was committed. *)
Lemma ads_New_ok s M rt a :
  is_open s = true → @trep S K unit (rv rawR) (rl rawR) _ _ keyToBytes Empty_Bytes s (keys_of M) →
  @tinv S Z (rv R) (rl R) [prefixSizeKey] Uint64FromBytes s NewTypedValue a → default 0 a = Z.of_nat (base.size M) →
  @tinv S (list byte) (rv R) (rl R) [prefixRootKey] bytesToIdentifier s NewTypedValue rt → committed s M rt →
  ∃ m, newAuthenticatedMap R bytesToIdentifier s = Ret m ∧ ads_rep s m M rt.
Proof.
  intros Ho Hkeys Ha Hsz Hroot Hc. unfold newAuthenticatedMap. rewrite !realm_extend. fold (is_open s). rewrite Ho. cbn [PanicOnErr mbind outcome_bind].
  rewrite root_Get_eq. destruct (@Get_locked_ok S (list byte) (rv R) (rl R) zeroIdentifier _ _ _ _ _ Hroot) as (t' & id & e & -> & Hroot' & He).
  eexists. split; [done|]. split; cbn; try done; [|by exists a]. destruct rt as [id'|]; cbn in *.
  - destruct He as [-> ->]. done.
  - destruct e as [e|]; [|done]. subst M. exists ∅. split; [|apply smt_new]. split; intros *; by rewrite lookup_empty.
Qed.

Lemma rep_restart s m M rt :
  ads_rep s m M rt → committed s M rt → ∃ m', newAuthenticatedMap R bytesToIdentifier s = Ret m' ∧ ads_rep s m' M rt.
Proof.
  intros [Ho Hraw Hn Hkeys Htree (a & [Ha1 Ha2 _ _] & Hsz) [Hr1 Hr2 _ _]] Hc.
  apply (ads_New_ok s M rt a); [done|done| |done| |done]; split; cbn; done.
Qed.

Lemma ads_restored_ok s m M rt :
  ads_rep s m M rt →
  ∃ m', WasRestoredFromStorage R bytesToIdentifier s m = (m', bool_decide (is_Some rt)) ∧ ads_rep s m' M rt.
Proof.
  intros Hrep. pose proof (a_root _ _ _ _ Hrep) as Hroot. unfold WasRestoredFromStorage. rewrite root_Get_eq.
  destruct (@Get_locked_ok S (list byte) (rv R) (rl R) zeroIdentifier _ _ _ _ _ Hroot) as (t' & id & e & -> & Hroot' & He).
  exists (set_root m t'). split; [|by destruct Hrep; split]. apply (f_equal (pair _)). destruct rt as [id'|]; cbn in *; [by destruct He as [_ ->]|].
  destruct e as [e|]; [|done]. by rewrite He.
Qed.

Section stream.
Context {A : Type} (callback : K → V → A → A * option error).

(** The callback over entries, until it returns an error. *)
Fixpoint stream_entries (es : list (K * V)) (a : A) : A * option error :=
  match es with
  | [] => (a, None)
  | (k, v) :: es =>
      match callback k v a with
      | (a, Some err) => (a, Some (ErrWrap err "failed to execute callback for key %s"))
      | (a, None) => stream_entries es a
      end
  end.

Lemma stream_visit s M E ks es : is_open s = true → encoded M E →
  Forall2 (λ k (e : K * V), e.1 = k ∧ M !! k = Some e.2) ks es →
  ∀ t a, smt_rep (nodes_content s) t E →
  ∃ t', visit_typed_keys (streaming keyToBytes bytesToValue s nodesR callback) ks (t, a, None) =
      (t', (stream_entries es a).1, (stream_entries es a).2) ∧ smt_rep (nodes_content s) t' E.
Proof.
  intros Ho HE Hes. induction Hes as [|k [k' v] ks es [Hkk HM] _ IH]; intros t a Ht; [by exists t|]. cbn in Hkk. subst k'.
  cbn in HM |- *. destruct (enc_forth _ _ HE k v HM) as (kb & vb & Hk & Hv & Hkb). rewrite Hk.
  destruct (smt_get _ (adapter_Get nodesR s) _ _ kb Ht) as (t1 & -> & Ht1); [intros; by apply reader_ok|].
  rewrite Hkb. change (default [] (Some vb)) with vb. rewrite (value_roundtrip v vb Hv). destruct (callback k v a) as [a1 [err|]]; [by exists t1|].
  by apply IH.
Qed.

(** The entries in the order of their encoded keys. *)
Definition in_order (M : gmap K V) (es : list (K * V)) : Prop :=
  (∀ k v, (k, v) ∈ es ↔ M !! k = Some v) ∧
  ∃ kbs, Forall2 (λ kb (e : K * V), keyToBytes e.1 = (kb, None)) kbs es ∧ StronglySorted bytes_lt kbs.

Lemma ads_Stream_ok s m M rt a :
  ads_rep s m M rt →
  ∃ es m', in_order M es ∧
    Stream keyToBytes bytesToKey bytesToValue s m callback a = (m', (stream_entries es a).1, (stream_entries es a).2) ∧
    ads_rep s m' M rt.
Proof.
  intros Hrep. pose proof Hrep as [Ho Hraw Hn Hkeys (E & HE & Ht) _ _]. unfold Stream. rewrite Hraw, Hn.
  destruct (@TypedStore_IterateKeys_rep S K unit (rv rawR) (rl rawR) _ _ keyToBytes bytesToKey Empty_Bytes EmptyFromBytes key_roundtrip
    ltac:(intros [] b _; by exists 0) _ s (keys_of M) [] (streaming keyToBytes bytesToValue s nodesR callback) IterDirectionForward
    (tree m, a, None) Hkeys) as (bs & xs & -> & Hdec & [_ Hsorted] & Hxs).
  assert (∃ es, Forall2 (λ k (e : K * V), e.1 = k ∧ M !! k = Some e.2) xs.*1 es) as [es Hes].
  { assert (∀ x, x ∈ xs → is_Some (M !! x.1)) as Hin.
    { intros [k u] [Hx _]%Hxs. unfold keys_of in Hx. rewrite lookup_fmap in Hx. cbn. destruct (M !! k); [by eexists|done]. }
    clear -Hin. induction xs as [|[k u] xs IH]; [by exists []|]. destruct (Hin (k, u)) as [v Hv]; [left|].
    destruct IH as [es Hes]; [intros x Hx; apply Hin; by right|]. exists ((k, v) :: es). constructor; [done|exact Hes]. }
  destruct (stream_visit s M E xs.*1 es Ho HE Hes (tree m) a Ht) as (t' & -> & Ht'). exists es, (set_tree m t'). split_and!; [|done|by eapply rep_set_tree].
  split.
  - intros k v. split.
    + intros [i Hi]%list_elem_of_lookup. destruct (Forall2_lookup_r _ _ _ _ _ Hes Hi) as (k' & _ & Hk & Hv). cbn in *. congruence.
    + intros HM. assert ((k, ()) ∈ xs) as Hx.
      { apply Hxs. unfold keys_of. rewrite lookup_fmap, HM. split; [done|].
        destruct (enc_forth _ _ HE k v HM) as (kb & vb & Hk & _). exists kb. split; [done|]. by destruct kb. }
      assert (k ∈ xs.*1) as [i Hi]%list_elem_of_lookup by (apply list_elem_of_fmap; by exists (k, ())).
      destruct (Forall2_lookup_l _ _ _ _ _ Hes Hi) as ([k' v'] & Hi' & Hk & Hv). cbn in *. simplify_eq. by eapply list_elem_of_lookup_2.
  - exists bs.*1. split; [|done]. clear -Hdec Hes. revert es Hes. induction Hdec as [|[kb vb] [k u] bs xs [Hk _] _ IH]; intros es Hes.
    + inversion Hes. constructor.
    + inversion Hes as [|? e ? es' [He _] Hes']; subst. cbn. constructor; [done|by apply IH].
Qed.
End stream.

(** ** Runs *)

Context {A : Type}.

Inductive aop : Type :=
  | OSet (k : K) (v : V)
  | ODelete (k : K)
  | OGet (k : K)
  | OHas (k : K)
  | OSize
  | ORoot
  | OCommit
  | ORestored
  | OStream (callback : K → V → A → A * option error) (a : A)
  | ORestart.   (* the map is opened again on the store *)

Inductive ares : Type :=
  | RError (err : option error)
  | RDeleted (deleted : bool) (err : option error)
  | RValue (v : V) (exists_ : bool) (err : option error)
  | RBool (r : bool + error)
  | RNum (n : Z)
  | RRoot (id : list byte)
  | RStreamed (a : A) (err : option error).

Definition astep (s : S) (m : authenticatedMap) (o : aop) : outcome (S * authenticatedMap (T := T) * ares) :=
  match o with
  | OSet k v => let '(s, m, err) := Set_ R keyToBytes valueToBytes s m k v in Ret (s, m, RError err)
  | ODelete k => let '(s, m, (d, err)) := Delete R keyToBytes s m k in Ret (s, m, RDeleted d err)
  | OGet k => let '(m, (v, ex, err)) := Get keyToBytes zeroV bytesToValue s m k in Ret (s, m, RValue v ex err)
  | OHas k => let '(m, r) := Has keyToBytes s m k in Ret (s, m, RBool r)
  | OSize => let '(m, n) := Size R s m in Ret (s, m, RNum n)
  | ORoot => id ← Root m; Ret (s, m, RRoot id)
  | OCommit => '(s, m, err) ← Commit R identifierToBytes s m; Ret (s, m, RError err)
  | ORestored => let '(m, b) := WasRestoredFromStorage R bytesToIdentifier s m in Ret (s, m, RBool (inl b))
  | OStream cb a => let '(m, a, err) := Stream keyToBytes bytesToKey bytesToValue s m cb a in Ret (s, m, RStreamed a err)
  | ORestart => m ← newAuthenticatedMap R bytesToIdentifier s; Ret (s, m, RError None)
  end.

(** The specification: a map, whether it is as it was last committed, and whether it was ever committed. *)
Definition aspec (st : gmap K V * bool * bool) (o : aop) : gmap K V * bool * bool :=
  let '(M, clean, stored) := st in
  match o with
  | OSet k v =>
      match (valueToBytes v).2, (keyToBytes k).2 with None, None => (<[k := v]> M, false, stored) | _, _ => st end
  | ODelete k =>
      match (keyToBytes k).2, M !! k with None, Some _ => (base.delete k M, false, stored) | _, _ => st end
  | OCommit => (M, true, true)
  | _ => st
  end.

Definition alegal (st : gmap K V * bool * bool) (o : aop) : Prop :=
  let '(M, clean, _) := st in
  match o with OSet _ _ => Z.of_nat (base.size M) + 1 < 2 ^ 63 | ORestart => clean = true | _ => True end.

Definition aanswer (st : gmap K V * bool * bool) (o : aop) (r : ares) : Prop :=
  let '(M, _, stored) := st in
  match o, r with
  | OSet k v, RError err =>
      match (valueToBytes v).2, (keyToBytes k).2 with
      | Some e, _ => is_err err e
      | None, Some e => is_err err e
      | None, None => err = None
      end
  | ODelete k, RDeleted d err =>
      match (keyToBytes k).2 with
      | Some e => d = false ∧ is_err err e
      | None => d = bool_decide (is_Some (M !! k)) ∧ err = None
      end
  | OGet k, RValue v ex err =>
      match (keyToBytes k).2 with
      | Some e => ex = false ∧ is_err err e
      | None => ex = bool_decide (is_Some (M !! k)) ∧ v = default zeroV (M !! k) ∧ err = None
      end
  | OHas k, RBool r =>
      match (keyToBytes k).2 with
      | Some e => ∃ err, r = inr err ∧ Is err e = true
      | None => r = inl (bool_decide (is_Some (M !! k)))
      end
  | OSize, RNum n => n = Z.of_nat (base.size M)
  | ORoot, RRoot id => ∃ E, encoded M E ∧ id = smt_root_of E
  | OCommit, RError err => err = None
  | ORestored, RBool r => r = inl stored
  | OStream cb a, RStreamed a' err => ∃ es, in_order M es ∧ (a', err) = stream_entries cb es a
  | ORestart, RError err => err = None
  | _, _ => False
  end.

Definition ads_inv (s : S) (m : authenticatedMap) (st : gmap K V * bool * bool) : Prop :=
  let '(M, clean, stored) := st in
  ∃ rt, ads_rep s m M rt ∧ (clean = true → committed s M rt) ∧ stored = bool_decide (is_Some rt) ∧ Z.of_nat (base.size M) < 2 ^ 63.

Lemma astep_ok s m st o :
  ads_inv s m st → alegal st o →
  ∃ s' m' r, astep s m o = Ret (s', m', r) ∧ aanswer st o r ∧ ads_inv s' m' (aspec st o).
Proof.
  destruct st as [[M clean] stored]. intros (rt & Hrep & Hc & Hst & Hsize) Hlegal.
  assert (∀ m', ads_rep s m' M rt → ads_inv s m' (M, clean, stored)) as Hsame by (intros m' Hm'; by exists rt).
  destruct o as [k v|k|k|k| | | | |cb a|]; cbn [astep aspec aanswer alegal] in *.
  - destruct (valueToBytes v) as [vb [e|]] eqn:Hv, (keyToBytes k) as [kb [e'|]] eqn:Hk; cbn [snd].
    1-3: unfold Set_; rewrite Hv, ?Hk; eexists _, _, _; (split; [done|]); (split; [apply (Is_wrap _ _ _), Is_refl|by apply Hsame]).
    destruct (ads_Set_ok s m M rt k kb v vb Hrep Hk Hv Hlegal) as (s' & m' & -> & Hrep'). eexists _, _, _. split_and!; [done|done|].
    exists rt. split_and!; [done|done|done|]. pose proof (map_size_insert k v M). destruct (M !! k); cbn in *; lia.
  - destruct (keyToBytes k) as [kb [e|]] eqn:Hk; cbn [snd].
    + unfold Delete. rewrite Hk. eexists _, _, _. split; [done|]. split; [split; [done|apply (Is_wrap _ _ _), Is_refl]|by apply Hsame].
    + destruct (ads_Delete_ok s m M rt k kb Hrep Hk Hsize) as (s' & m' & -> & Hrep' & Hs'). eexists _, _, _. split; [done|]. split; [done|].
      destruct (M !! k) as [v|] eqn:EM.
      * exists rt. split_and!; [done|done|done|]. pose proof (map_size_delete k M) as Hd. rewrite EM in Hd. cbn in Hd. lia.
      * rewrite (Hs' eq_refl) in *. rewrite delete_id in Hrep' by done. by apply Hsame.
  - destruct (keyToBytes k) as [kb [e|]] eqn:Hk; cbn [snd].
    + unfold Get. rewrite Hk. eexists _, _, _. split; [done|]. split; [split; [done|apply (Is_wrap _ _ _), Is_refl]|by apply Hsame].
    + destruct (ads_Get_ok s m M rt k kb Hrep Hk) as (m' & -> & Hrep'). destruct (M !! k) as [v|]; eexists _, _, _; (split; [done|]); (split; [done|]); by apply Hsame.
  - destruct (keyToBytes k) as [kb [e|]] eqn:Hk; cbn [snd]; unfold Has; rewrite Hk.
    + eexists _, _, _. split; [done|]. split; [eexists; split; [done|apply (Is_wrap _ _ _), Is_refl]|by apply Hsame].
    + destruct (has_ok s m M rt k kb Hrep Hk) as (t & -> & Hrep'). eexists _, _, _. split; [done|]. split; [done|by apply Hsame].
  - destruct (ads_Size_ok s m M rt Hrep Hsize) as (m' & -> & Hrep'). eexists _, _, _. split; [done|]. split; [done|by apply Hsame].
  - unfold Root, IdentifierType. destruct (a_tree _ _ _ _ Hrep) as (E & HE & Ht). rewrite (smt_root _ _ _ Ht). pose proof (smt_root_length E) as Hlen.
    unfold len. rewrite Hlen. change (Z.of_nat 32 <? 32) with false. cbn. rewrite take_ge by lia.
    eexists _, _, _. split; [done|]. split; [by exists E|by apply Hsame].
  - destruct (ads_Commit_ok s m M rt Hrep) as (s' & m' & id & -> & Hrep' & Hc'). eexists _, _, _. split; [done|]. split; [done|]. by exists (Some id).
  - destruct (ads_restored_ok s m M rt Hrep) as (m' & -> & Hrep'). eexists _, _, _. split; [done|]. split; [by rewrite Hst|by apply Hsame].
  - destruct (ads_Stream_ok cb s m M rt a Hrep) as (es & m' & Hes & -> & Hrep'). eexists _, _, _. split; [done|].
    split; [exists es; split; [done|by destruct (stream_entries cb es a)]|by apply Hsame].
  - destruct (rep_restart s m M rt Hrep (Hc Hlegal)) as (m' & -> & Hrep'). eexists _, _, _. split; [done|]. split; [done|by apply Hsame].
Qed.

(** All steps of a run: legal, answered without a panic as the specification says. *)
Fixpoint arun_ok (s : S) (m : authenticatedMap) (st : gmap K V * bool * bool) (ops : list aop) : Prop :=
  match ops with
  | [] => True
  | o :: ops =>
      alegal st o →
      ∃ s' m' r, astep s m o = Ret (s', m', r) ∧ aanswer st o r ∧ arun_ok s' m' (aspec st o) ops
  end.

Lemma arun_ok_holds ops : ∀ s m st, ads_inv s m st → arun_ok s m st ops.
Proof.
  induction ops as [|o ops IH]; intros s m st Hinv; [done|]. intros Hlegal.
  destruct (astep_ok s m st o Hinv Hlegal) as (s' & m' & r & E & Ha & Hinv'). exists s', m', r. split_and!; [done..|]. by apply IH.
Qed.

Lemma fresh_store s : is_open s = true → (∀ k, base_content s (R ++ k) = None) →
  ∃ m, newAuthenticatedMap R bytesToIdentifier s = Ret m ∧ ads_inv s m (∅, true, false).
Proof.
  intros Ho Hc. assert (∀ key : Key, @kv_content S (rv R) (rl R) s key = None) as HcR by (intros key; rewrite realm_content; apply Hc).
  destruct (ads_New_ok s ∅ None None) as (m & E & Hrep); [done| |split; cbn; try done|done|split; cbn; try done|done|].
  - unfold keys_of. rewrite fmap_empty. split; [by rewrite realm_open| |intros *; by rewrite lookup_empty].
    intros b vb. rewrite realm_content. fold (base_content s). rewrite <-app_assoc. by rewrite Hc.
  - by rewrite realm_open.
  - unfold holds. by rewrite HcR.
  - by rewrite realm_open.
  - unfold holds. by rewrite HcR.
  - exists m. split; [done|]. exists None. split_and!; [done|done|done|]. rewrite map_size_empty. done.
Qed.

(** C11: an authenticated map is a map.  Over a store with realms that has nothing
    below the realm of the map, and over a sparse Merkle tree with its laws, any
    sequence of calls is answered as a map answers it: [Set], [Delete], [Get] and
    [Has] with the values, [Size] with the number of entries, [Stream] with every
    entry once and in the order of the encoded keys until the callback fails,
    [Root] with a digest that depends on the entries alone.  After [Commit] the map
    may be opened again on the store, and goes on with the same entries; keys and
    values that cannot be encoded are refused with the error of the encoder and
    change nothing. *)
Theorem AuthenticatedMap_refines_map s ops :
  is_open s = true → (∀ k, base_content s (R ++ k) = None) →
  ∃ m, newAuthenticatedMap R bytesToIdentifier s = Ret m ∧ arun_ok s m (∅, true, false) ops.
Proof. intros Ho Hc. destruct (fresh_store s Ho Hc) as (m & E & Hinv). exists m. split; [done|]. by apply arun_ok_holds. Qed.
End refinement.

(** ** The store in memory has realms *)

#[export] Program Instance mapDB_realms : Realms shared := {|
  rv := mapDB_KVStore;
  rl := mapDB_laws;
  rv_WithExtendedRealm := MapDB.WithExtendedRealm;
|}.
Next Obligation. intros own s r. cbn. unfold MapDB.WithExtendedRealm, MapDB.WithRealm. rewrite ?ConcatBytes_2. by destruct (closed s). Qed.
Next Obligation. done. Qed.
Next Obligation. done. Qed.
Next Obligation.
  intros r s k v s' E k' Hk. cbn in *. unfold MapDB.Set_ in E. destruct (closed s); [done|]. injection E as <-. unfold content. cbn.
  unfold set_. rewrite ?ConcatBytes_2. by rewrite lookup_insert_ne.
Qed.
Next Obligation.
  intros r s k s' E k' Hk. cbn in *. unfold MapDB.Delete in E. destruct (closed s); [done|]. injection E as <-. unfold content. cbn.
  unfold delete_. rewrite ?ConcatBytes_2. by rewrite lookup_delete_ne.
Qed.

(** ** A tree with the laws *)

(** The leaves in one node below a constant root. *)
Inductive simple_tree : Type := Loaded (M : gmap Key Value) | Stored (root : Value).

Fixpoint pos_bytes (p : positive) : list byte :=
  match p with xH => [] | xO p => x00 :: pos_bytes p | xI p => x01 :: pos_bytes p end.
Fixpoint bytes_pos (bs : list byte) : positive :=
  match bs with [] => xH | x00 :: bs => xO (bytes_pos bs) | _ :: bs => xI (bytes_pos bs) end.

Lemma pos_bytes_roundtrip p : bytes_pos (pos_bytes p) = p.
Proof. induction p; cbn; congruence. Qed.

Definition node_bytes (M : gmap Key Value) : Value := pos_bytes (encode M).
Definition node_decode (b : Value) : gmap Key Value := default ∅ (decode (bytes_pos b)).

Definition load (rd : Key → Value + error) (t : simple_tree) : gmap Key Value + error :=
  match t with
  | Loaded M => inl M
  | Stored r => match rd r with inl b => inl (node_decode b) | inr err => inr err end
  end.

#[export] Instance simple_SMT : SMT simple_tree := {|
  smt_New := Loaded ∅;
  smt_Import := Stored;
  smt_Get rd t k := match load rd t with inl M => (Loaded M, inl (M !! k)) | inr err => (t, inr err) end;
  smt_Update rd t k v := match load rd t with inl M => (Loaded (<[k := v]> M), None) | inr err => (t, Some err) end;
  smt_Delete rd t k := match load rd t with inl M => (Loaded (base.delete k M), None) | inr err => (t, Some err) end;
  smt_Root t := zeroIdentifier;
  smt_Commit t := match t with Loaded M => (t, [(zeroIdentifier, Some (node_bytes M))]) | Stored _ => (t, []) end;
|}.

Definition simple_rep (c : Key → option Value) (t : simple_tree) (M : gmap Key Value) : Prop :=
  match t with Loaded M' => M' = M | Stored r => r = zeroIdentifier ∧ c r = Some (node_bytes M) end.

Lemma load_rep c rd t M : simple_rep c t M → (∀ k, rd k = node_reader c k) → load rd t = inl M.
Proof.
  intros Hr Hrd. destruct t as [M'|r]; cbn in *; [by subst|]. destruct Hr as [_ Hr]. rewrite Hrd. unfold node_reader. rewrite Hr.
  unfold node_decode, node_bytes. by rewrite pos_bytes_roundtrip, decode_encode.
Qed.

#[export] Program Instance simple_laws : SMTLaws simple_tree := {|
  smt_rep := simple_rep;
  smt_root_of _ := zeroIdentifier;
|}.
Next Obligation. intros c c' [M'|r] M Hc; [done|]. intros [-> Hr]. split; [done|]. by rewrite <-Hc. Qed.
Next Obligation. done. Qed.
Next Obligation. intros c rd t M k Hr Hrd. cbn. rewrite (load_rep c rd t M) by done. by eexists. Qed.
Next Obligation. intros c rd t M k v Hr Hrd. cbn. rewrite (load_rep c rd t M) by done. by eexists. Qed.
Next Obligation. intros c rd t M k Hr Hrd _. cbn. rewrite (load_rep c rd t M) by done. by eexists. Qed.
Next Obligation. done. Qed.
Next Obligation. done. Qed.
Next Obligation.
  intros c [M'|r] M Hr; cbn in *.
  - eexists _, _. split_and!; [done|done|done|]. subst M'. unfold after_writes. cbn. by rewrite decide_True.
  - destruct Hr as [-> Hr]. eexists _, _. split_and!; done.
Qed.

(** ** Runs *)

Definition byte_enc (b : byte) : list byte * option error := ([b], None).
Definition byte_dec (bs : list byte) : byte * Z * option error :=
  match bs with [b] => (b, 1, None) | _ => (x00, 0, Some (ErrNew "cannot decode")) end.
Definition id_enc (b : list byte) : list byte * option error := (b, None).
Definition id_dec (b : list byte) : list byte * Z * option error := (b, len b, None).

Lemma AuthenticatedMap_refines_map_witness :
  ∃ m, newAuthenticatedMap (T := simple_tree) [x07] id_dec NewMapDB.1 = Ret m ∧
    arun_ok (A := unit) [x07] id_enc id_dec byte_enc byte_dec x00 byte_enc byte_dec NewMapDB.1 m (∅, true, false)
      [OSet x01 x02; OCommit; ORestart; OGet x01; OSize].
Proof.
  apply AuthenticatedMap_refines_map.
  - intros id _. by eexists id, _.
  - intros k b [= <-]. by exists 1.
  - intros v b [= <-]. reflexivity.
  - reflexivity.
  - intros k. cbn. unfold content. cbn. apply lookup_empty.
Defined.

(** The raw keys and the size are written at once, the tree by [Commit]: a map that is opened again
    without a commit counts an entry that it does not have, and cannot be streamed. *)
Lemma reopened_without_commit :
  ∃ m s m1 m2, newAuthenticatedMap (T := simple_tree) [x07] id_dec NewMapDB.1 = Ret m ∧
    Set_ [x07] byte_enc byte_enc NewMapDB.1 m x01 x02 = (s, m1, None) ∧
    newAuthenticatedMap (T := simple_tree) [x07] id_dec s = Ret m2 ∧
    (Size [x07] s m2).2 = 1 ∧ (Get byte_enc x00 byte_dec s m2 x01).2 = (x00, false, None) ∧
    (Stream byte_enc byte_dec byte_dec s m2 (λ _ _ (n : Z), (n + 1, None)) 0).2 =
      Some (ErrWrap (ErrNew "cannot decode") "failed to deserialize value %s").
Proof. eexists _, _, _, _. split_and!; reflexivity. Qed.
